(* ===== verification/_CoqProject ===== *)
-Q . S2P
Prelude.v
Workflow.v
WorkflowSpec.v
Hex.v
Blocks.v
Cbor.v
Text.v
Runtime.v
Instances.v
ReplayJournal.v
ReplayJournalSpec.v
ReplayJournalWitness.v
Items.v
SortKey.v
Orders.v
ReplayOrder.v
ReplayOrderSpec.v
ReplayOrderWitness.v
Mailbox.v
Resolver.v
MailboxSpec.v
MailboxWitness.v
Snapshot.v
SnapshotSpec.v
SnapshotWitness.v
Disk.v
JournalStore.v
Config.v
ConfigSpec.v
RefStore.v
RefStoreSpec.v
BlockCopy.v
BlockCopySpec.v
BlockCopyChildren.v
CopyRun.v
CopyRunSpec.v
CopyWalkSpec.v
BlockCopyWitness.v
CopyQueues.v
CopyThreads.v
CopyThreadsSpec.v
CopyThreadsWalkSpec.v
CopyThreadsEndSpec.v
CopyThreadsWitness.v
Http3.v
Gateway.v
GatewaySpec.v
GatewayWitness.v
Embedding.v
EmbeddingSpec.v
EmbeddingWitness.v
LeafWorkers.v
LeafWorkersSpec.v
Ingest.v
IngestSpec.v
IngestBatchesSpec.v
IngestWitness.v
Replay.v
ReplaySpec.v
ReplayWitness.v
Floats.v
Diagnostics.v
DiagnosticsSpec.v
Clustering.v
ClusteringSpec.v
StoreSelect.v
Request.v
RequestSpec.v
RequestWitness.v
Search.v
Quality.v
QualityTree.v
QualitySpec.v
QualityTreeSpec.v
QualityReport.v
QualityReportSpec.v
QualityWitness.v
Commands.v
Mcp.v
McpSpec.v
