(* ===== verification/Prelude.v ===== *)
(** * LexonArchiveBuilder: a verification development

    The program turns mailboxes and documents into content-addressed blocks: it
    acquires a source, cuts its emails into chunks, embeds them, stores a leaf
    block for each, keeps an append-only journal of what it stored, orders the
    journal, hands the ordered leaves to a clustering indexer, publishes the root
    that comes back, copies rooted snapshots between stores, measures and
    searches them. This library translates that program from Rust and proves
    what each part promises and what the parts promise together.

    ** How the code is translated

    A function that cannot fail is a function; [Result] is [result] below; a
    method on [&mut self] and a function that performs effects is a computation
    of the state and error monad [stm] below, so that an early return keeps the
    state that was changed before it. A panic is [None] or a constructor that
    says so. Concurrency is explicit: tasks, threads and requests are step
    relations or machines run by a schedule that is an argument, and the theorems
    hold for every schedule. Operations that can fail take their failures from
    the state, so the theorems hold for every pattern of failures; a crash is any
    of the states that are recorded between operations. Machine integers are [Z]
    with their bounds and wrap-around written out, strings are byte strings,
    [char]s are [Z], [f32] and [f64] are computed with the Standard Library's
    specification of IEEE 754.

    Code outside the repository is a parameter with laws: the operations of block
    stores (a put block is found again, a put changes nothing else), the clients
    of remote ref stores, CBOR (what is written is read back, with the size it has), the block
    builder, the printer of ids, SHA-256, the mail parser, serde_json, the HTTP
    clients, half floats, the indexers, the searcher, the EBCP codec. The laws
    are the documented behaviour; [Instances.v], [Cbor.v] and the witness files
    have concrete instances of all of them, at which the theorems are applied.

    Where a part of the repository is reached through an interface, the interface
    is a class and the part is proved to be an instance of it. The mutable refs
    are the case that matters most: [Runtime.v] has the interface, whose lookups
    may fail or take a failure for the absence of the refs, and whose writes may
    lose the refs; [intact] says that the refs have been neither overlooked nor
    lost so far, and the theorems
    on the journal, ingestion and requests say where they need it.
    [RefStoreSpec.v] proves the interface for the local file with arbitrary
    failures of its operations, the Azure blob and the Azure table.

    ** The parts

    The library. [Prelude.v] (this file): results, the monad, byte strings,
    [BTreeMap]s, machines with their schedules, and the lemmas on lists that
    several parts share. [Text.v]: UTF-8, white space, lines, paths. [Hex.v]: ids
    and their hexadecimal form (tree_tools.rs, resolver.rs, snapshot.rs).
    [Blocks.v]: CBOR values, the serde forms of the primitive types, blocks, the
    block store interface and the project's readers of custom blocks
    (custom_blocks.rs, resolver.rs). [Cbor.v]: a codec that satisfies the CBOR
    laws. [Orders.v]: comparison functions that are total orders. [Disk.v]: a
    file system that fails and crashes. [Floats.v]: floating point.
    [Instances.v]: an in-memory store, ref store and digest. [Runtime.v]: the
    state that the functions of runtime.rs share, their errors and the interrupt
    flag (interrupt.rs).

    The archive crate (lexonarchivebuilder-archive-sync). [Workflow.v] and
    [WorkflowSpec.v]: the workflow journal of lib.rs, its validator, which is
    proved equivalent to a declarative specification, every method, and the
    invariant that no sequence of calls breaks. [Snapshot.v], [SnapshotSpec.v]:
    the acquisition of a source (snapshot.rs), its collection in an order that
    does not depend on the file system, and its idempotence. [JournalStore.v]:
    the file of the journal and the atomicity of its replacement.

    The indexer's journal (runtime.rs). [ReplayJournal.v], [ReplayJournalSpec.v]:
    the chain of journal blocks: sizes, appending, publishing, loading, and the
    records of an indexing outcome. [RefStore.v], [RefStoreSpec.v]: the mutable
    refs as a local file, an Azure blob or an Azure table, and each as an instance
    of the interface that the journal uses. [Config.v],
    [ConfigSpec.v]: config.rs and the place of a ref store. [StoreSelect.v]: the
    store an environment stands for (block_store.rs).

    From content to leaves. [Items.v], [SortKey.v]: items, their journal records
    and the key that orders them. [Mailbox.v], [Resolver.v], [MailboxSpec.v]:
    mailboxes, emails, chunks and the shared cache of chunks (mailbox.rs,
    resolver.rs). [Embedding.v], [EmbeddingSpec.v]: the embedding providers
    (embedding.rs). [LeafWorkers.v], [LeafWorkersSpec.v]: the concurrent
    construction of leaves. [Ingest.v], [IngestSpec.v], [IngestBatchesSpec.v]:
    both drivers of ingestion.

    From leaves to a root. [ReplayOrder.v], [ReplayOrderSpec.v]: the external
    merge sort that orders the journal. [Replay.v], [ReplaySpec.v]: reading the
    ordered leaves back, with several threads, and the embeddings that clustering
    is served. [Clustering.v], [ClusteringSpec.v]: both clustering stages.
    [Diagnostics.v], [DiagnosticsSpec.v]: what is reported when clustering fails.
    [Request.v], [RequestSpec.v]: the run of a request from its file to its
    summary, and the dry run. [Commands.v]: what a command of main.rs does before
    it calls the library.

    Copying (block_copy.rs). [BlockCopy.v], [BlockCopySpec.v],
    [BlockCopyChildren.v]: the failure tracker and the children of blocks.
    [CopyRun.v], [CopyRunSpec.v], [CopyWalkSpec.v]: the single-worker copy.
    [CopyQueues.v], [CopyThreads.v], [CopyThreadsSpec.v],
    [CopyThreadsWalkSpec.v], [CopyThreadsEndSpec.v]: the multi-worker copy with
    its two queues, as a transition system of threads.

    Serving. [Http3.v], [Gateway.v], [GatewaySpec.v]: the client of
    lexonarchivebuilder-block-store-http3 and the gateway that answers it
    (lexonarchivebuilder-block-gateway). [Search.v]: the rooted search
    (search.rs, tree_tools.rs). [Mcp.v], [McpSpec.v]: the configuration, the
    runtime and the tools of lexonarchivebuilder-mcp.

    Assessing a tree (quality.rs). [Quality.v], [QualitySpec.v]: bounded heaps and
    the statistics of a block. [QualityTree.v], [QualityTreeSpec.v]: the walk over
    a snapshot. [QualityReport.v], [QualityReportSpec.v]: layers, splits, recall,
    query accesses, random walks and the report.

    The files that end in [Witness] apply the theorems with hypotheses to
    concrete inputs; [WorkflowSpec.v], [ConfigSpec.v], [JournalStore.v],
    [RefStoreSpec.v], [Commands.v] and [McpSpec.v] have theirs at the end.

    ** How the parts meet

    A run of a request that clusters with the v3 indexer ([RequestSpec.v])
    composes ingestion, the journal, the order, the replay and the clustering
    stage: while the refs are intact, a run that succeeds has journaled
    a stored leaf for every item, has handed to the indexer exactly the distinct
    journaled leaves in the order of their keys, and has switched the root to the
    indexer's result. In between, [ReplaySpec.v] shows that what ingestion
    journals is what replaying loads, [ReplayOrderSpec.v] that the order is that
    of the keys, [ReplayJournalSpec.v] that a publication is all or nothing, and
    [MailboxSpec.v] that an item read from a mailbox resolves to its chunk.
    [GatewaySpec.v] composes the client with the gateway; [McpSpec.v] composes
    expansion, ingestion and the lookup of an email, and relates the search of
    the MCP runtime to the rooted search.

    ** What the groups of theorems show

    Invariants: the workflow journal, the queues and counters of the copy, the
    embedding cache. Safety under failures, interrupts, crashes and interleavings:
    requests, ingestion, copying, acquisition, the files of refs and journal.
    Functional behaviour on every branch: the methods of the workflow journal,
    appending, ordering, reading batches, the prepared batches, the report of an
    assessment. Equivalence with a reference: the validator, the encoding of the
    sort key, parallel and sequential loading, both ways to read a journal.
    Round trips: journal records, expansion and resolution, ingestion and replay,
    embeddings. Termination and bounds: the walk of an assessment, the threads of
    the copy, the requests of the providers and of the shared connection.

    ** Fuel

    A loop that follows references in a store is given fuel. Loading the journal
    takes an iteration for each block of the chain and ends even on a cyclic
    chain once the fuel exceeds the number of stored blocks by one, because a
    repeated block is an error. The walk of an assessment visits a block once, so
    one more than the number of blocks is enough. The merge sort takes a step for
    each entry and a pass for each round of groups; the theorems give amounts
    that are enough, and more fuel changes no result. The single-worker copy
    takes an iteration for each requested root and each link between blocks; the
    threads of the multi-worker copy need no fuel, because every step decreases a
    measure; the retry loops count their attempts. The random walk of the fast
    assessment is the exception: in a cycle the code itself has no end, which is
    a theorem.

    ** Not modelled

    The parsing of arguments by clap in the three main.rs files, the text that is
    printed and the writing of report files. Progress messages, status lines, telemetry and heartbeats of
    runtime.rs and block_store.rs: they are output and no result depends on them.
    The operations of the store crates, TLS, QUIC and the HTTP/3 framing, the
    Azure clients, axum's and rmcp's servers, the certificates, the construction
    of async runtimes and thread pools: libraries that the sources call; their
    results are parameters. The installation of the interrupt handler: the flag
    it raises is part of the state. The embedded tests, the deployment scripts,
    the container and infrastructure files. *)

From Stdlib Require Import ZArith Lia Ascii.
From stdpp Require Import base gmap sets strings sorting option list.
#[local] Open Scope Z_scope.

(** ** Results

    [Result<T, E>] of the source, with the error type first so that
    [result E] is a monad and stdpp's [x ← m; k] is the [?] operator. *)

Inductive result (E T : Type) : Type :=
| Ok (t : T)
| Err (e : E).
Arguments Ok {E T} t.
Arguments Err {E T} e.

#[export] Instance result_ret {E} : MRet (result E) := fun _ t => Ok t.
#[export] Instance result_bind {E} : MBind (result E) := fun _ _ f m =>
  match m with Ok t => f t | Err e => Err e end.
#[export] Instance result_fmap {E} : FMap (result E) := fun _ _ f m =>
  match m with Ok t => Ok (f t) | Err e => Err e end.

(** [Result::map_err]. *)
Definition map_err {E F T} (f : E → F) (m : result E T) : result F T :=
  match m with Ok t => Ok t | Err e => Err (f e) end.

(** [Option::ok_or] / [ok_or_else]. *)
Definition ok_or {E T} (o : option T) (e : E) : result E T :=
  match o with Some t => Ok t | None => Err e end.

Definition is_ok {E T} (m : result E T) : bool :=
  match m with Ok _ => true | Err _ => false end.

(** A guard: [if c { return Err(e) }]. *)
Definition reject_if {E} (c : bool) (e : E) : result E unit :=
  if c then Err e else Ok ().

(** [for x in l { f(x)?; }] *)
Fixpoint result_iter {E A} (f : A → result E unit) (l : list A) : result E unit :=
  match l with
  | [] => Ok ()
  | x :: l' => f x ;; result_iter f l'
  end.

(** [l.into_iter().map(f).collect::<Result<Vec<_>, _>>()] *)
Fixpoint result_mapM {E A B} (f : A → result E B) (l : list A) : result E (list B) :=
  match l with
  | [] => Ok []
  | x :: l' => y ← f x; ys ← result_mapM f l'; Ok (y :: ys)
  end.

(** A loop over a list that threads a value. *)
Fixpoint result_foldl {E A S} (f : S → A → result E S) (s : S) (l : list A) : result E S :=
  match l with
  | [] => Ok s
  | x :: l' => s' ← f s x; result_foldl f s' l'
  end.

(** ** Methods that take [&mut self]

    The state survives an early return, so a failing method can leave a
    partial update behind: [stm S E A] returns the state next to the result. *)

Definition stm (S E A : Type) : Type := S → S * result E A.

#[export] Instance stm_ret {S E} : MRet (stm S E) := fun _ a s => (s, Ok a).
#[export] Instance stm_bind {S E} : MBind (stm S E) := fun _ _ f m s =>
  match m s with
  | (s', Ok a) => f a s'
  | (s', Err e) => (s', Err e)
  end.

Definition lift {S E A} (r : result E A) : stm S E A := fun s => (s, r).
Definition modify {S E} (f : S → S) : stm S E unit := fun s => (f s, Ok ()).
Definition gets {S E A} (f : S → A) : stm S E A := fun s => (s, Ok (f s)).
Definition throw {S E A} (e : E) : stm S E A := fun s => (s, Err e).

(** [for x in l { f(x)?; }] with [f] a method of the state. *)
Fixpoint stm_iter {S E A} (f : A → stm S E unit) (l : list A) : stm S E unit :=
  match l with
  | [] => mret ()
  | x :: l' => f x ;; stm_iter f l'
  end.

(** [Iterator::find_map]. *)
Fixpoint find_map {A B} (f : A → option B) (l : list A) : option B :=
  match l with
  | [] => None
  | x :: l' => match f x with Some y => Some y | None => find_map f l' end
  end.

(** A loop over a list that threads local variables and the state. *)
Fixpoint stm_foldl {S E A V} (f : V → A → stm S E V) (v : V) (l : list A) : stm S E V :=
  match l with
  | [] => mret v
  | x :: l' => v' ← f v x; stm_foldl f v' l'
  end.

Lemma stm_bind_ok {S E A B} (m : stm S E A) (f : A → stm S E B) s s' b :
  (m ≫= f) s = (s', Ok b) ↔ ∃ s1 a, m s = (s1, Ok a) ∧ f a s1 = (s', Ok b).
Proof.
  unfold mbind, stm_bind. destruct (m s) as [s1 [a|e]]; split; naive_solver.
Qed.

Lemma stm_bind_run {S E A B} (m : stm S E A) (f : A → stm S E B) s s1 a :
  m s = (s1, Ok a) → (m ≫= f) s = f a s1.
Proof. unfold mbind, stm_bind. by intros ->. Qed.

Lemma stm_foldl_app {S E A V} (f : V → A → stm S E V) v l k s :
  stm_foldl f v (l ++ k) s = (v' ← stm_foldl f v l; stm_foldl f v' k) s.
Proof.
  revert v s. induction l as [|x l IH]; intros v s; cbn; [done|].
  unfold mbind, stm_bind. destruct (f v x s) as [s1 [v1|e]]; [|done]. apply IH.
Qed.

(** Induction over the iterations that succeeded, and a property of the state
    that every iteration keeps, whatever its result. *)
Lemma stm_foldl_ok_ind {S E A V} (P : list A → V → S → Prop) (f : V → A → stm S E V) l v s s' v' :
  P [] v s →
  (∀ pre x post v s s' v', l = pre ++ x :: post → P pre v s → f v x s = (s', Ok v') → P (pre ++ [x]) v' s') →
  stm_foldl f v l s = (s', Ok v') → P l v' s'.
Proof.
  intros H0 Hf. assert (∀ post pre v s, l = pre ++ post → P pre v s →
    stm_foldl f v post s = (s', Ok v') → P l v' s') as Hgen; [|by apply (Hgen l [] v s)].
  clear v s H0. induction post as [|x post IH]; intros pre v s Hl HP; cbn.
  { unfold mret, stm_ret. intros [= -> ->]. by rewrite Hl, app_nil_r. }
  intros (s1&v1&H1&H2)%stm_bind_ok. eapply (IH (pre ++ [x])); [by rewrite <-app_assoc| |done].
  by eapply Hf.
Qed.

(** The iteration that fails starts from a state of the invariant. *)
Lemma stm_foldl_err_ind {S E A V} (P : list A → V → S → Prop) (Q : E → Prop)
    (f : V → A → stm S E V) l v s s' e :
  P [] v s →
  (∀ pre x post v s s' v', l = pre ++ x :: post → P pre v s → f v x s = (s', Ok v') → P (pre ++ [x]) v' s') →
  (∀ pre x post v s s' e, l = pre ++ x :: post → P pre v s → f v x s = (s', Err e) → Q e) →
  stm_foldl f v l s = (s', Err e) → Q e.
Proof.
  intros H0 Hok Herr.
  assert (∀ post pre v s, l = pre ++ post → P pre v s → stm_foldl f v post s = (s', Err e) → Q e)
    as Hgen; [|by apply (Hgen l [] v s)].
  clear v s H0. induction post as [|x post IH]; intros pre v s Hl HP; cbn; [done|].
  unfold mbind, stm_bind. destruct (f v x s) as [s1 [v1|e1]] eqn:Hf.
  - apply (IH (pre ++ [x])); [by rewrite <-app_assoc|eauto].
  - intros [= <- <-]. eauto.
Qed.

Lemma stm_bind_inv {S E A B} (Q : S → S → Prop) `{!Transitive Q} (m : stm S E A) (f : A → stm S E B) s :
  Q s (m s).1 → (∀ a s, Q s (f a s).1) → Q s ((m ≫= f) s).1.
Proof.
  intros Hm Hf. unfold mbind, stm_bind. destruct (m s) as [s1 [a|e]]; cbn in *; [|done].
  by etrans; [exact Hm|].
Qed.

Lemma stm_foldl_inv {S E A V} (Q : S → S → Prop) `{!PreOrder Q} (f : V → A → stm S E V) l v s :
  (∀ v x s, Q s (f v x s).1) → Q s (stm_foldl f v l s).1.
Proof.
  intros Hf. revert v s. induction l as [|x l IH]; intros v s; cbn; [reflexivity|].
  apply stm_bind_inv; [apply _|done|]. intros v1 s1. apply IH.
Qed.

Lemma lift_ok {S E A} (r : result E A) (s s' : S) a : lift r s = (s', Ok a) ↔ s' = s ∧ r = Ok a.
Proof. unfold lift. split; [by intros [= -> ->] | by intros [-> ->]]. Qed.

(** [?] on a pure result inside a method. *)
Definition map_err_stm {S E F A} (f : E → F) (m : stm S E A) : stm S F A :=
  fun s => let '(s', r) := m s in (s', map_err f r).

Lemma result_bind_ok {E A B} (m : result E A) (f : A → result E B) b :
  (m ≫= f) = Ok b ↔ ∃ a, m = Ok a ∧ f a = Ok b.
Proof. destruct m; cbn; split; [eauto | naive_solver | done | naive_solver]. Qed.

Lemma result_seq_ok {E B} (m : result E unit) (k : result E B) b :
  (m ;; k) = Ok b ↔ m = Ok () ∧ k = Ok b.
Proof. destruct m as [[]|]; cbn; naive_solver. Qed.

Lemma result_skip_ok {E A B} (m : result E A) (k : result E B) b :
  (m ;; k) = Ok b ↔ (∃ a, m = Ok a) ∧ k = Ok b.
Proof. destruct m; cbn; naive_solver. Qed.

Lemma reject_if_ok {E} c (e : E) u : reject_if c e = Ok u ↔ c = false.
Proof. destruct c, u; cbn; naive_solver. Qed.

Lemma result_iter_ok {E A} (f : A → result E unit) l u :
  result_iter f l = Ok u ↔ Forall (λ x, f x = Ok ()) l.
Proof.
  destruct u. induction l as [|x l IH]; cbn; [by split; [constructor|]|].
  rewrite Forall_cons, <-IH. destruct (f x) as [[]|]; cbn; naive_solver.
Qed.

Lemma result_mapM_ok {E A B} (f : A → result E B) l k :
  result_mapM f l = Ok k ↔ Forall2 (λ x y, f x = Ok y) l k.
Proof.
  revert k. induction l as [|x l IH]; intros k; cbn.
  { split; [by intros [= <-] | by inversion 1]. }
  split.
  - intros (y&Hy&(ys&Hys&[= <-])%result_bind_ok)%result_bind_ok.
    constructor; [done|]. by apply IH.
  - inversion_clear 1 as [|? y ? ys Hy Hys]. apply IH in Hys.
    by rewrite Hy; cbn; rewrite Hys.
Qed.

Lemma result_mapM_fmap {E A B} (f : A → B) (g : B → result E A) l :
  (∀ x, x ∈ l → g (f x) = Ok x) → result_mapM g (f <$> l) = Ok l.
Proof.
  intros Hl. apply result_mapM_ok. induction l as [|x l IH]; cbn; constructor.
  - apply Hl. by left.
  - apply IH. intros y Hy. apply Hl. by right.
Qed.

Lemma map_err_ok {E F A} (f : E → F) (r : result E A) a : map_err f r = Ok a ↔ r = Ok a.
Proof. destruct r; cbn; naive_solver. Qed.

Lemma ok_or_ok {E A} (o : option A) (e : E) a : ok_or o e = Ok a ↔ o = Some a.
Proof. destruct o; cbn; naive_solver. Qed.

Lemma result_foldl_app {E A S} (f : S → A → result E S) s l1 l2 :
  result_foldl f s (l1 ++ l2) = (s' ← result_foldl f s l1; result_foldl f s' l2).
Proof.
  revert s. induction l1 as [|x l1 IH]; intros s; cbn; [done|].
  destruct (f s x); cbn; done.
Qed.

(** A property of the loop state that every iteration preserves. *)
Lemma result_foldl_ind {E A S} (P : S → Prop) (f : S → A → result E S) l s s' :
  (∀ s x s', x ∈ l → P s → f s x = Ok s' → P s') →
  P s → result_foldl f s l = Ok s' → P s'.
Proof.
  revert s. induction l as [|x l IH]; intros s Hf Hs; cbn; [by intros [= <-]|].
  intros (s1&H1&H2)%result_bind_ok. eapply IH; [|eapply Hf|exact H2]; eauto using list_elem_of_here.
  intros ????. eapply Hf. by right.
Qed.

Lemma bool_decide_not_false (P : Prop) `{!Decision P, !Decision (¬ P)} :
  bool_decide (¬ P) = false ↔ P.
Proof. rewrite bool_decide_eq_false. split; [apply dec_stable | tauto]. Qed.

Create HintDb result_ok.
#[export] Hint Rewrite @result_seq_ok @reject_if_ok @result_iter_ok : result_ok.

(** Turn [m = Ok x], for a chain of checks, into the conjunction of the
    conditions the checks test. *)
Ltac result_ok := autorewrite with result_ok.

(** ** I/O errors *)

(** [std::io::ErrorKind], the kinds the project names, and [std::io::Error]. *)
Inductive ErrorKind := NotFound | InvalidData | InvalidInput | UnexpectedEof | OtherKind.
Record io_error := IoError { io_kind : ErrorKind; io_message : string }.

#[export] Instance ErrorKind_eq_dec : EqDecision ErrorKind.
Proof. solve_decision. Defined.
#[export] Instance io_error_eq_dec : EqDecision io_error.
Proof. solve_decision. Defined.

(** ** Machine integers

    [usize] and [u64] are 64 bits wide on the targets the project builds for. *)

Definition usize_max : Z := 2 ^ 64 - 1.
Definition saturating_add (a b : Z) : Z := Z.min (a + b) usize_max.
Definition saturating_sub (a b : Z) : Z := Z.max (a - b) 0.

(** [Vec::len], [str::len] as a [usize]. *)
Definition len {A} (l : list A) : Z := Z.of_nat (length l).

Lemma len_app {A} (l k : list A) : len (l ++ k) = len l + len k.
Proof. unfold len. rewrite length_app. lia. Qed.
Lemma len_cons {A} (x : A) l : len (x :: l) = 1 + len l.
Proof. unfold len. cbn [length]. lia. Qed.
Lemma len_nil {A} : len (@nil A) = 0.
Proof. done. Qed.
Lemma len_nonneg {A} (l : list A) : 0 ≤ len l.
Proof. unfold len. lia. Qed.
Lemma len_zero {A} (l : list A) : len l = 0 ↔ l = [].
Proof. destruct l; unfold len; cbn; split; (done || lia || naive_solver). Qed.

(** ** Rust strings

    A [String] is its UTF-8 bytes. *)

Abbreviation bytes := (list Z).

Definition byte_of_ascii (a : ascii) : Z := Z.of_N (N_of_ascii a).
Definition ascii_of_byte (z : Z) : ascii := ascii_of_N (Z.to_N z).
Definition as_bytes (s : string) : bytes := byte_of_ascii <$> String.list_ascii_of_string s.
Definition of_bytes (b : bytes) : string := String.string_of_list_ascii (ascii_of_byte <$> b).
Definition str_len (s : string) : Z := len (as_bytes s).

Definition is_byte (z : Z) : Prop := 0 ≤ z < 256.
#[export] Instance is_byte_dec z : Decision (is_byte z).
Proof. unfold is_byte. apply _. Defined.

Lemma byte_of_ascii_byte a : is_byte (byte_of_ascii a).
Proof.
  unfold is_byte, byte_of_ascii. pose proof (N_ascii_bounded a). lia.
Qed.

Lemma ascii_of_byte_of_ascii a : ascii_of_byte (byte_of_ascii a) = a.
Proof. unfold ascii_of_byte, byte_of_ascii. by rewrite N2Z.id, ascii_N_embedding. Qed.

Lemma byte_of_ascii_of_byte z : is_byte z → byte_of_ascii (ascii_of_byte z) = z.
Proof.
  unfold is_byte, byte_of_ascii, ascii_of_byte. intros ?.
  rewrite N_ascii_embedding; lia.
Qed.

Lemma as_bytes_of_bytes b : Forall is_byte b → as_bytes (of_bytes b) = b.
Proof.
  intros Hb. unfold as_bytes, of_bytes. rewrite String.list_ascii_of_string_of_list_ascii.
  induction Hb as [|z b Hz Hb IH]; cbn; [done|]. by rewrite byte_of_ascii_of_byte, IH.
Qed.

Lemma of_bytes_as_bytes s : of_bytes (as_bytes s) = s.
Proof.
  unfold as_bytes, of_bytes. rewrite <-(String.string_of_list_ascii_of_string s) at 2. f_equal.
  rewrite <-list_fmap_compose. rewrite <-(list_fmap_id (String.list_ascii_of_string s)) at 2.
  apply list_fmap_ext. intros ???. apply ascii_of_byte_of_ascii.
Qed.

Lemma as_bytes_byte s : Forall is_byte (as_bytes s).
Proof. apply Forall_fmap, Forall_true. intros a. apply byte_of_ascii_byte. Qed.

#[export] Instance as_bytes_inj : Inj (=) (=) as_bytes.
Proof. intros s t Hst. by rewrite <-(of_bytes_as_bytes s), Hst, of_bytes_as_bytes. Qed.

Lemma as_bytes_app s t : as_bytes (s +:+ t) = as_bytes s ++ as_bytes t.
Proof.
  unfold as_bytes. rewrite <-fmap_app. f_equal.
  induction s as [|a s IH]; [done|]. exact (f_equal (cons a) IH).
Qed.

Lemma of_bytes_app a b : of_bytes (a ++ b) = of_bytes a +:+ of_bytes b.
Proof. unfold of_bytes. induction a as [|x a IH]; [done|]. exact (f_equal (String _) IH). Qed.

(** The code points with the Unicode property [White_Space], by the length of
    their encoding: U+0009..U+000D and U+0020; U+0085 and U+00A0; U+1680,
    U+2000..U+200A, U+2028, U+2029, U+202F, U+205F and U+3000. *)
Definition ws1 (a : Z) : bool := (9 <=? a) && (a <=? 13) || (a =? 32).
Definition ws2 (a b : Z) : bool := (a =? 194) && ((b =? 133) || (b =? 160)).
Definition ws3 (a b c : Z) : bool :=
  (a =? 225) && (b =? 154) && (c =? 128)
  || (a =? 226) && (b =? 128)
     && ((128 <=? c) && (c <=? 138) || (c =? 168) || (c =? 169) || (c =? 175))
  || (a =? 226) && (b =? 129) && (c =? 159)
  || (a =? 227) && (b =? 128) && (c =? 128).

(** [str::trim_start] on the bytes, and [str::trim_end] on the reversed bytes
    (UTF-8 is self-synchronising, so the last bytes identify the last
    character). *)
Fixpoint trim_start_bytes (l : bytes) : bytes :=
  match l with
  | [] => []
  | a :: l1 =>
      if ws1 a then trim_start_bytes l1 else
      match l1 with
      | [] => l
      | b :: l2 =>
          if ws2 a b then trim_start_bytes l2 else
          match l2 with
          | [] => l
          | c :: l3 => if ws3 a b c then trim_start_bytes l3 else l
          end
      end
  end.

Fixpoint trim_end_rev (l : bytes) : bytes :=
  match l with
  | [] => []
  | a :: l1 =>
      if ws1 a then trim_end_rev l1 else
      match l1 with
      | [] => l
      | b :: l2 =>
          if ws2 b a then trim_end_rev l2 else
          match l2 with
          | [] => l
          | c :: l3 => if ws3 c b a then trim_end_rev l3 else l
          end
      end
  end.

Definition trim_bytes (l : bytes) : bytes := reverse (trim_end_rev (reverse (trim_start_bytes l))).

(** [str::trim]. *)
Definition trim (s : string) : string := of_bytes (trim_bytes (as_bytes s)).

(** [value.trim().is_empty()]. *)
Definition blank (s : string) : bool := bool_decide (trim s = EmptyString).

(** [[T]::join] on strings. *)
Definition join (sep : string) (l : list string) : string := String.concat sep l.

(** ** Ordered sets

    A [BTreeSet<String>] iterates in increasing byte order. *)
Definition btree_iter (s : gset string) : list string := merge_sort String.le (elements s).

Lemma elem_of_btree_iter x s : x ∈ btree_iter s ↔ x ∈ s.
Proof. unfold btree_iter. by rewrite merge_sort_Permutation, elem_of_elements. Qed.

Lemma Forall_btree_iter P s : Forall P (btree_iter s) ↔ set_Forall P s.
Proof. unfold btree_iter. by rewrite merge_sort_Permutation, set_Forall_elements. Qed.

(** ** Loops that reject a repeated key

    [f] checks an element, rejects it when its key was seen, and records the
    key: the loop succeeds exactly on the lists whose elements all pass and
    whose keys are pairwise distinct (and new). *)
Section keyed_loop.
Context {E A S K : Type} `{Countable K}.
Context (f : S → A → result E S) (P : A → Prop) (key : A → K).
Context (keys : S → gset K) (upd : S → A → S).
Context (f_ok : ∀ s x s', f s x = Ok s' ↔ P x ∧ key x ∉ keys s ∧ s' = upd s x).
Context (keys_upd : ∀ s x, keys (upd s x) = {[key x]} ∪ keys s).

Lemma keyed_loop_ok s l s' :
  result_foldl f s l = Ok s' ↔
    Forall P l ∧ NoDup (key <$> l) ∧ Forall (λ x, key x ∉ keys s) l
    ∧ s' = fold_left upd l s.
Proof using f_ok keys_upd.
  revert s. induction l as [|x l IH]; intros s; cbn.
  { split; [intros [= <-]; repeat split; constructor | intros (_&_&_&->); done]. }
  rewrite result_bind_ok, !Forall_cons, NoDup_cons. split.
  - intros (s1&(HP&Hn&->)%f_ok&(HF&HD&HN&->)%IH). repeat split; try done.
    + intros (y&Heq&Hy)%list_elem_of_fmap. rewrite Forall_forall in HN.
      apply (HN y Hy). rewrite keys_upd. set_solver.
    + eapply Forall_impl; [exact HN|]. intros y. cbn. rewrite keys_upd. set_solver.
  - intros ([HP HF]&[Hx HD]&[Hn HN]&->). exists (upd s x). rewrite f_ok, IH.
    repeat split; try done. rewrite Forall_forall in HN |- *. intros y Hy.
    rewrite keys_upd. intros [Heq%elem_of_singleton|Hin]%elem_of_union.
    + apply Hx. apply list_elem_of_fmap. eauto.
    + by apply (HN y Hy).
Qed.
End keyed_loop.

(** A [BTreeMap<String, V>] iterates in increasing byte order of its keys. *)
Definition pair_key_le {V} (a b : string * V) : Prop := String.le a.1 b.1.
#[export] Instance pair_key_le_dec {V} : RelDecision (@pair_key_le V).
Proof. unfold pair_key_le. intros ??. apply _. Defined.
Definition btree_pairs {V} (m : gmap string V) : list (string * V) :=
  merge_sort pair_key_le (map_to_list m).

(** [pairs.collect::<BTreeMap<_, _>>()]: a later pair replaces an earlier one. *)
Definition btree_collect {V} (l : list (string * V)) : gmap string V :=
  foldl (λ m p, <[p.1 := p.2]> m) ∅ l.

Lemma btree_pairs_perm {V} (m : gmap string V) : btree_pairs m ≡ₚ map_to_list m.
Proof. apply merge_sort_Permutation. Qed.

Lemma btree_foldl {V} (l : list (string * V)) m : NoDup l.*1 →
  foldl (λ m p, <[p.1 := p.2]> m) m l = (list_to_map l : gmap string V) ∪ m.
Proof.
  revert m. induction l as [|[k v] l IH]; intros m Hl.
  { symmetry. apply (left_id_L ∅ (∪)). }
  apply NoDup_cons in Hl as [Hk Hl]. cbn [foldl list_to_map foldr fst snd]. rewrite IH by done.
  rewrite <-insert_union_l. symmetry. apply insert_union_r. by apply not_elem_of_list_to_map_1.
Qed.

Lemma btree_collect_nodup {V} (l : list (string * V)) :
  NoDup l.*1 → btree_collect l = list_to_map l.
Proof. intros Hl. unfold btree_collect. rewrite btree_foldl by done. apply (right_id_L ∅ (∪)). Qed.

Lemma list_to_map_btree_pairs {V} (m : gmap string V) : list_to_map (btree_pairs m) = m.
Proof.
  rewrite <-(list_to_map_to_list m) at 2. apply list_to_map_proper; [|apply btree_pairs_perm].
  rewrite btree_pairs_perm. apply NoDup_fst_map_to_list.
Qed.

Lemma btree_pairs_nodup {V} (m : gmap string V) : NoDup (btree_pairs m).*1.
Proof. rewrite btree_pairs_perm. apply NoDup_fst_map_to_list. Qed.

(** Pairs, then a whole map: the map's entries win. *)
Lemma btree_collect_app_pairs {V} l (m : gmap string V) :
  btree_collect (l ++ btree_pairs m) = m ∪ btree_collect l.
Proof.
  unfold btree_collect. rewrite foldl_app, btree_foldl by apply btree_pairs_nodup.
  by rewrite list_to_map_btree_pairs.
Qed.

Lemma btree_collect_pairs {V} (m : gmap string V) : btree_collect (btree_pairs m) = m.
Proof.
  rewrite btree_collect_nodup by apply btree_pairs_nodup. apply list_to_map_btree_pairs.
Qed.

(** [Vec::dedup]: equal neighbours are merged. *)
Fixpoint dedup {A} `{EqDecision A} (l : list A) : list A :=
  match l with
  | [] => []
  | x :: l' =>
      match l' with
      | [] => [x]
      | y :: _ => if decide (x = y) then dedup l' else x :: dedup l'
      end
  end.

Lemma dedup_cons {A} `{EqDecision A} (x y : A) l :
  dedup (x :: y :: l) = if decide (x = y) then dedup (y :: l) else x :: dedup (y :: l).
Proof. done. Qed.

Lemma elem_of_dedup {A} `{EqDecision A} (x : A) l : x ∈ dedup l ↔ x ∈ l.
Proof.
  induction l as [|y [|z l] IH]; [done..|]. rewrite dedup_cons.
  case_decide as Hyz; [subst z; rewrite IH, (elem_of_cons (y :: l)), (elem_of_cons l); tauto|].
  by rewrite elem_of_cons, IH, <-elem_of_cons.
Qed.

(** A sorted list loses all its duplicates. *)
Lemma dedup_strongly_sorted {A} `{EqDecision A} (R : relation A) `{!AntiSymm (=) R} l :
  StronglySorted R l → StronglySorted (λ x y, R x y ∧ x ≠ y) (dedup l).
Proof.
  induction 1 as [|x [|y l] Hl IH Hx]; [constructor|repeat constructor|].
  rewrite dedup_cons. case_decide as Hxy; [done|]. constructor; [done|].
  apply Forall_forall. intros z Hz. rewrite elem_of_dedup in Hz. rewrite Forall_forall in Hx. split; [by apply Hx|].
  intros <-. apply Hxy. apply (anti_symm R); [apply Hx; by left|].
  apply elem_of_cons in Hz as [->|Hz]; [done|].
  apply StronglySorted_inv in Hl as [_ Hy]. rewrite Forall_forall in Hy. by apply Hy.
Qed.

(** ** Loops as folds *)
Lemma foldl_inv {A V} (P : list A → V → Prop) (f : V → A → V) v l :
  P [] v → (∀ pre x post v, l = pre ++ x :: post → P pre v → P (pre ++ [x]) (f v x)) → P l (foldl f v l).
Proof.
  intros H0 Hf.
  assert (∀ post pre v, l = pre ++ post → P pre v → P l (foldl f v post)) as Hgen; [|by apply (Hgen l [])].
  clear v H0. induction post as [|x post IH]; intros pre v Hl HP; cbn.
  - rewrite app_nil_r in Hl. by subst.
  - apply (IH (pre ++ [x])); [by rewrite <-app_assoc|]. by eapply Hf.
Qed.

(** ** Sums over lists *)
Lemma sum_list_with_insert {A} (f : A → nat) (l : list A) i x y : l !! i = Some x →
  (sum_list_with f (<[i := y]> l) + f x = sum_list_with f l + f y)%nat.
Proof.
  revert i. induction l as [|a l IH]; intros [|i] Hx; [done..| |].
  - injection Hx as ->. cbn. lia.
  - specialize (IH i Hx). change (<[S i := y]> (a :: l)) with (a :: <[i := y]> l). cbn [sum_list_with]. lia.
Qed.

Lemma sum_list_with_zero {A} (f : A → nat) (l : list A) : sum_list_with f l = 0%nat ↔ Forall (λ x, f x = 0%nat) l.
Proof. induction l as [|a l IH]; cbn [sum_list_with]; [by split|]. rewrite Forall_cons, <-IH. lia. Qed.

(** ** Machines and schedules

    Threads and tasks are modelled as a partial step function on labels: a label
    names who moves. A schedule is a list of labels; one whose actor cannot move
    is passed over. Invariants of the steps hold for every schedule, and a rank
    that every step lowers bounds the number of moves. *)
Section machine.
Context {L P : Type} (step : L → P → option P).

Definition run_machine (schedule : list L) (p : P) : P := foldl (λ p l, default p (step l p)) p schedule.

(** The labels of a schedule that moved something. *)
Fixpoint moved (schedule : list L) (p : P) : nat :=
  match schedule with
  | [] => O
  | l :: schedule => match step l p with Some p' => Datatypes.S (moved schedule p') | None => moved schedule p end
  end.

Context (I : P → Prop) (I_step : ∀ l p p', I p → step l p = Some p' → I p').

Lemma run_machine_inv schedule p : I p → I (run_machine schedule p).
Proof using I_step.
  unfold run_machine. revert p. induction schedule as [|l schedule IH]; intros p Hp; [done|]. cbn [foldl]. apply IH.
  destruct (step l p) eqn:Hs; [by eapply I_step|done].
Qed.

Context (rank : P → nat) (rank_step : ∀ l p p', I p → step l p = Some p' → (rank p' < rank p)%nat).
Lemma moved_rank schedule p : I p → (moved schedule p ≤ rank p)%nat.
Proof using I_step rank_step.
  revert p. induction schedule as [|l schedule IH]; intros p Hp; cbn [moved]; [lia|].
  destruct (step l p) as [p'|] eqn:Hs; [|by apply IH].
  pose proof (rank_step _ _ _ Hp Hs). specialize (IH p' (I_step _ _ _ Hp Hs)). lia.
Qed.
End machine.

(** ** Filtered lists *)
Lemma filter_keep {A} (P : A → Prop) `{∀ x, Decision (P x)} l : Forall P l → filter P l = l.
Proof. induction 1 as [|x l Hx Hl IH]; [done|]. by rewrite filter_cons_True, IH. Qed.
Lemma filter_drop {A} (P : A → Prop) `{∀ x, Decision (P x)} l : Forall (λ x, ¬ P x) l → filter P l = [].
Proof. induction 1 as [|x l Hx Hl IH]; [done|]. by rewrite filter_cons_False. Qed.
Lemma existsb_perm {A} (f : A → bool) l k : l ≡ₚ k → existsb f l = existsb f k.
Proof. induction 1; cbn; [done|congruence|by destruct (f x), (f y)|congruence]. Qed.
