(* ===== verification/Workflow.v ===== *)
(** The workflow journal of [lexonarchivebuilder-archive-sync] (src/lib.rs):
    its data, its validation and every method that changes it.  [&mut self]
    methods are [stm] computations, so an early return keeps the fields that
    were already assigned. *)

From Stdlib Require Import ZArith Lia.
From stdpp Require Import base gmap sets strings sorting option list.
From S2P Require Import Prelude.
#[local] Open Scope Z_scope.

(** ** Data *)

Definition WORKFLOW_JOURNAL_SCHEMA_VERSION : Z := 1.

(** A [serde_json::Error] is carried as its [Display] text. *)
Inductive WorkflowJournalError :=
| EmptyField (field : string)
| MissingField (field : string)
| UnsupportedSchemaVersion (expected actual : Z)
| ReadJournal (path : string) (source : io_error)
| ParseJournal (path : string) (source : string)
| WriteJournal (path : string) (source : io_error)
| SerializeJournal (path : string) (source : string)
| PersistJournal (path : string) (source : io_error)
| InvalidWorkflowAuthority
| InvalidSubordinateAuthority (implementation : string)
| InconsistentState (detail : string).

Inductive JournalAuthority := AuthWorkflow | AuthSubordinate.

Inductive WorkflowStage :=
| SourceAcquisition | StageMailboxAdmission | ChunkDerivation | StageEmbedding
| PublishedRootGeneration | RootHistoryPublication | TerminalSuccess | TerminalFailure.

Inductive WorkKind := KMailboxAdmission | KChunking | KEmbedding | KIndexing | KPublication.

#[export] Instance WorkflowJournalError_eq_dec : EqDecision WorkflowJournalError.
Proof. solve_decision. Defined.
#[export] Instance JournalAuthority_eq_dec : EqDecision JournalAuthority.
Proof. solve_decision. Defined.
#[export] Instance WorkflowStage_eq_dec : EqDecision WorkflowStage.
Proof. solve_decision. Defined.
#[export] Instance WorkKind_eq_dec : EqDecision WorkKind.
Proof. solve_decision. Defined.

Record GenerationState := {
  generation_id : string;
  journal_id : string;
  started_at : string;
  completed_at : option string;
}.

Record SourceSnapshotState := {
  source_snapshot_id : string;
  source_uri : string;
  acquisition_started_at : option string;
  acquisition_completed_at : option string;
  corpus_manifest_identity : option string;
  additional_provenance : gmap string string;
}.

Record EffectiveIndexingConfigurationState := {
  effective_indexing_configuration_id : string;
  chunking_policy_id : string;
  embedding_provider_or_model_id : string;
  delegated_published_root_generation_id : string;
  additional_root_affecting_inputs : gmap string string;
}.

Record WorkInventory := { pending : gset string; completed : gset string }.

Definition WorkInventory_default : WorkInventory := {| pending := ∅; completed := ∅ |}.

(** [WorkInventory::queue] *)
Definition inventory_queue (inv : WorkInventory) (item_id : string) : WorkInventory :=
  if decide (item_id ∈ completed inv) then inv
  else {| pending := {[item_id]} ∪ pending inv; completed := completed inv |}.

(** [WorkInventory::checkpoint]: the new inventory, and whether [completed]
    did not contain the item. *)
Definition inventory_checkpoint (inv : WorkInventory) (item_id : string) : WorkInventory * bool :=
  ({| pending := pending inv ∖ {[item_id]}; completed := {[item_id]} ∪ completed inv |},
   bool_decide (item_id ∉ completed inv)).

Definition work_kind_pending_after_stage (current_stage : WorkflowStage) (work_kind : WorkKind) : bool :=
  match work_kind with
  | KMailboxAdmission =>
      match current_stage with
      | ChunkDerivation | StageEmbedding | PublishedRootGeneration
      | RootHistoryPublication | TerminalSuccess => true
      | _ => false
      end
  | KChunking =>
      match current_stage with
      | StageEmbedding | PublishedRootGeneration
      | RootHistoryPublication | TerminalSuccess => true
      | _ => false
      end
  | KEmbedding =>
      match current_stage with
      | PublishedRootGeneration | RootHistoryPublication | TerminalSuccess => true
      | _ => false
      end
  | KIndexing | KPublication => false
  end.

Definition workflow_stage_rank (stage : WorkflowStage) : Z :=
  match stage with
  | SourceAcquisition => 0
  | StageMailboxAdmission => 1
  | ChunkDerivation => 2
  | StageEmbedding => 3
  | PublishedRootGeneration => 4
  | RootHistoryPublication => 5
  | TerminalSuccess | TerminalFailure => 6
  end.

Record WorkInventories := {
  mailbox_admission : WorkInventory;
  chunking : WorkInventory;
  embedding : WorkInventory;
  indexing : WorkInventory;
  publication : WorkInventory;
}.

Definition WorkInventories_default : WorkInventories :=
  {| mailbox_admission := WorkInventory_default; chunking := WorkInventory_default;
     embedding := WorkInventory_default; indexing := WorkInventory_default;
     publication := WorkInventory_default |}.

Record AuditState := {
  work_set_id : option string;
  work_set_frozen : bool;
  published_root_id : option string;
  published_root_recorded_at : option string;
  root_history_entry_id : option string;
  root_history_recorded_at : option string;
  root_change_explanation : option string;
}.

Definition AuditState_default : AuditState :=
  {| work_set_id := None; work_set_frozen := false; published_root_id := None;
     published_root_recorded_at := None; root_history_entry_id := None;
     root_history_recorded_at := None; root_change_explanation := None |}.

Record CheckpointRecord := {
  ck_stage : WorkflowStage;
  ck_work_kind : WorkKind;
  ck_item_id : string;
  ck_recorded_at : string;
}.

Record SubordinateJournalState := {
  sub_authority : JournalAuthority;
  implementation : string;
  location : string;
  last_observed_generation_id : option string;
  metadata : gmap string string;
}.

Inductive TerminalOutcomeKind := Success | NonRecoverableFailure.

#[export] Instance TerminalOutcomeKind_eq_dec : EqDecision TerminalOutcomeKind.
Proof. solve_decision. Defined.

Record TerminalOutcome := {
  to_kind : TerminalOutcomeKind;
  to_recorded_at : string;
  to_detail : option string;
}.

Record WorkflowJournal := {
  schema_version : Z;
  authority : JournalAuthority;
  current_stage : WorkflowStage;
  generation : GenerationState;
  source_snapshot : SourceSnapshotState;
  effective_indexing_configuration : EffectiveIndexingConfigurationState;
  work : WorkInventories;
  audit : AuditState;
  checkpoints : list CheckpointRecord;
  subordinate_journals : list SubordinateJournalState;
  terminal_outcome : option TerminalOutcome;
}.

Record WorkflowJournalInit := {
  init_current_stage : WorkflowStage;
  init_generation : GenerationState;
  init_source_snapshot : SourceSnapshotState;
  init_effective_indexing_configuration : EffectiveIndexingConfigurationState;
}.

#[export] Instance WorkInventory_eq_dec : EqDecision WorkInventory.
Proof. solve_decision. Defined.
#[export] Instance WorkInventories_eq_dec : EqDecision WorkInventories.
Proof. solve_decision. Defined.
#[export] Instance GenerationState_eq_dec : EqDecision GenerationState.
Proof. solve_decision. Defined.
#[export] Instance SourceSnapshotState_eq_dec : EqDecision SourceSnapshotState.
Proof. solve_decision. Defined.
#[export] Instance EffectiveIndexingConfigurationState_eq_dec :
  EqDecision EffectiveIndexingConfigurationState.
Proof. solve_decision. Defined.
#[export] Instance AuditState_eq_dec : EqDecision AuditState.
Proof. solve_decision. Defined.
#[export] Instance CheckpointRecord_eq_dec : EqDecision CheckpointRecord.
Proof. solve_decision. Defined.
#[export] Instance SubordinateJournalState_eq_dec : EqDecision SubordinateJournalState.
Proof. solve_decision. Defined.
#[export] Instance TerminalOutcome_eq_dec : EqDecision TerminalOutcome.
Proof. solve_decision. Defined.
#[export] Instance WorkflowJournal_eq_dec : EqDecision WorkflowJournal.
Proof. solve_decision. Defined.

(** ** Validation *)

Abbreviation journal_result := (result WorkflowJournalError).

Definition require_non_empty (field value : string) : journal_result unit :=
  if blank value then Err (EmptyField field) else Ok ().

Definition require_non_empty_owned (field value : string) : journal_result string :=
  require_non_empty field value ;; Ok value.

Definition require_optional_non_empty (field : string) (value : option string) : journal_result unit :=
  match value with
  | Some value => require_non_empty field value
  | None => Ok ()
  end.

Definition require_paired_optional_fields (left_field : string) (left_value : option string)
    (right_field : string) (right_value : option string) : journal_result unit :=
  match left_value, right_value with
  | Some _, None => Err (MissingField right_field)
  | None, Some _ => Err (MissingField left_field)
  | _, _ => Ok ()
  end.

Definition is_terminal (stage : WorkflowStage) : bool :=
  match stage with TerminalSuccess | TerminalFailure => true | _ => false end.

Definition validate_checkpoint_record (c : CheckpointRecord) : journal_result unit :=
  reject_if (is_terminal (ck_stage c)) (InconsistentState "checkpoint.stage must not be terminal") ;;
  require_non_empty "checkpoint.item_id" (ck_item_id c) ;;
  require_non_empty "checkpoint.recorded_at" (ck_recorded_at c).

Definition validate_work_inventory (pending_field completed_field : string)
    (inventory : WorkInventory) : journal_result unit :=
  result_iter (λ item_id,
    require_non_empty pending_field item_id ;;
    reject_if (bool_decide (item_id ∈ completed inventory))
      (InconsistentState "work inventory item must not appear in both pending and completed"))
    (btree_iter (pending inventory)) ;;
  result_iter (λ item_id, require_non_empty completed_field item_id)
    (btree_iter (completed inventory)).

Definition work_kind_key (work_kind : WorkKind) : string :=
  match work_kind with
  | KMailboxAdmission => "mailbox-admission"
  | KChunking => "chunking"
  | KEmbedding => "embedding"
  | KIndexing => "indexing"
  | KPublication => "publication"
  end.

Definition validate_terminal_outcome (o : TerminalOutcome) : journal_result unit :=
  require_non_empty "terminal_outcome.recorded_at" (to_recorded_at o) ;;
  require_optional_non_empty "terminal_outcome.detail" (to_detail o).

Definition validate_terminal_kind (current_stage : WorkflowStage) (kind : TerminalOutcomeKind) :
    journal_result unit :=
  match current_stage, kind with
  | TerminalSuccess, Success => Ok ()
  | TerminalFailure, NonRecoverableFailure => Ok ()
  | TerminalSuccess, NonRecoverableFailure =>
      Err (InconsistentState "terminal success stage requires a success terminal outcome")
  | TerminalFailure, Success =>
      Err (InconsistentState
        "terminal failure stage requires a non-recoverable failure terminal outcome")
  | _, _ => Err (InconsistentState "non-terminal stage must not carry a terminal outcome")
  end.

Definition validate_terminal_state (current_stage : WorkflowStage)
    (terminal_outcome : option TerminalOutcome) (completed_at : option string) :
    journal_result unit :=
  let stage_is_terminal := is_terminal current_stage in
  let has_outcome := bool_decide (is_Some terminal_outcome) in
  let has_completed := bool_decide (is_Some completed_at) in
  reject_if (stage_is_terminal && negb has_outcome) (MissingField "terminal_outcome") ;;
  reject_if (negb stage_is_terminal && has_outcome)
    (InconsistentState "non-terminal stage must not carry a terminal outcome") ;;
  reject_if (negb stage_is_terminal && has_completed)
    (InconsistentState "non-terminal stage must not carry generation.completed_at") ;;
  reject_if ((stage_is_terminal || has_outcome) && negb has_completed)
    (MissingField "generation.completed_at") ;;
  match terminal_outcome with
  | None => Ok ()
  | Some outcome =>
      validate_terminal_outcome outcome ;;
      reject_if
        (match completed_at with
         | Some completed_at => bool_decide (completed_at ≠ to_recorded_at outcome)
         | None => false
         end)
        (InconsistentState "generation.completed_at must match terminal_outcome.recorded_at") ;;
      validate_terminal_kind current_stage (to_kind outcome)
  end.

Definition validate_generation_state (g : GenerationState) : journal_result unit :=
  require_non_empty "generation.generation_id" (generation_id g) ;;
  require_non_empty "generation.journal_id" (journal_id g) ;;
  require_non_empty "generation.started_at" (started_at g) ;;
  require_optional_non_empty "generation.completed_at" (completed_at g).

Definition validate_source_snapshot_state (s : SourceSnapshotState) : journal_result unit :=
  require_non_empty "source_snapshot.source_snapshot_id" (source_snapshot_id s) ;;
  require_non_empty "source_snapshot.source_uri" (source_uri s) ;;
  require_optional_non_empty "source_snapshot.acquisition_started_at" (acquisition_started_at s) ;;
  require_optional_non_empty "source_snapshot.acquisition_completed_at" (acquisition_completed_at s) ;;
  require_optional_non_empty "source_snapshot.corpus_manifest_identity" (corpus_manifest_identity s).

Definition validate_effective_indexing_configuration
    (c : EffectiveIndexingConfigurationState) : journal_result unit :=
  require_non_empty "effective_indexing_configuration.effective_indexing_configuration_id"
    (effective_indexing_configuration_id c) ;;
  require_non_empty "effective_indexing_configuration.chunking_policy_id" (chunking_policy_id c) ;;
  require_non_empty "effective_indexing_configuration.embedding_provider_or_model_id"
    (embedding_provider_or_model_id c) ;;
  require_non_empty "effective_indexing_configuration.delegated_published_root_generation_id"
    (delegated_published_root_generation_id c).

(** [WorkflowJournal::inventory] *)
Definition inventory_of (w : WorkInventories) (work_kind : WorkKind) : WorkInventory :=
  match work_kind with
  | KMailboxAdmission => mailbox_admission w
  | KChunking => chunking w
  | KEmbedding => embedding w
  | KIndexing => indexing w
  | KPublication => publication w
  end.

Definition publication_barrier_reached (stage : WorkflowStage) : bool :=
  match stage with
  | PublishedRootGeneration | RootHistoryPublication | TerminalSuccess => true
  | _ => false
  end.

Definition nonempty (s : gset string) : bool := bool_decide (s ≠ ∅).

Definition validate_stage_ordered_state (current_stage : WorkflowStage)
    (w : WorkInventories) (a : AuditState) : journal_result unit :=
  reject_if (work_kind_pending_after_stage current_stage KMailboxAdmission
             && nonempty (pending (mailbox_admission w)))
    (InconsistentState "later workflow stages require no pending mailbox admission work") ;;
  reject_if (work_kind_pending_after_stage current_stage KChunking
             && nonempty (pending (chunking w)))
    (InconsistentState "later workflow stages require no pending chunking work") ;;
  let barrier := publication_barrier_reached current_stage in
  reject_if (barrier && negb (work_set_frozen a))
    (InconsistentState
      "published-root generation and later success stages require a frozen work set") ;;
  reject_if (barrier && nonempty (pending (embedding w)))
    (InconsistentState
      "published-root generation and later success stages require no pending embedding work") ;;
  reject_if (bool_decide (current_stage = RootHistoryPublication ∨ current_stage = TerminalSuccess)
             && bool_decide (published_root_id a = None))
    (MissingField "audit.published_root_id") ;;
  reject_if (bool_decide (current_stage = TerminalSuccess)
             && bool_decide (root_history_entry_id a = None))
    (MissingField "audit.root_history_entry_id").

(** The loop over the subordinate journals; it threads the keys seen so far. *)
Definition validate_subordinate (keys : gset (string * string)) (s : SubordinateJournalState) :
    journal_result (gset (string * string)) :=
  require_non_empty "subordinate_journal.implementation" (implementation s) ;;
  require_non_empty "subordinate_journal.location" (location s) ;;
  require_optional_non_empty "subordinate_journal.last_observed_generation_id"
    (last_observed_generation_id s) ;;
  reject_if (bool_decide (sub_authority s ≠ AuthSubordinate))
    (InvalidSubordinateAuthority (implementation s)) ;;
  let key := (implementation s, location s) in
  reject_if (bool_decide (key ∈ keys))
    (InconsistentState
      "subordinate_journals must not contain duplicate implementation/location pairs") ;;
  Ok ({[key]} ∪ keys).

(** The loop over the checkpoints; it threads the keys seen so far and the
    rank of the most advanced checkpoint stage. *)
Definition validate_checkpoint (w : WorkInventories)
    (st : gset (string * string) * option Z) (c : CheckpointRecord) :
    journal_result (gset (string * string) * option Z) :=
  let '(keys, most_advanced) := st in
  validate_checkpoint_record c ;;
  let key := (work_kind_key (ck_work_kind c), ck_item_id c) in
  reject_if (bool_decide (key ∈ keys))
    (InconsistentState "checkpoints must not contain duplicate work_kind/item_id pairs") ;;
  let inventory := inventory_of w (ck_work_kind c) in
  reject_if (bool_decide (ck_item_id c ∉ completed inventory))
    (InconsistentState "checkpointed item must appear in the completed work inventory") ;;
  reject_if (bool_decide (ck_item_id c ∈ pending inventory))
    (InconsistentState "checkpointed item must not remain pending in the work inventory") ;;
  let rank := workflow_stage_rank (ck_stage c) in
  Ok ({[key]} ∪ keys,
      Some (match most_advanced with Some current => Z.max current rank | None => rank end)).

(** [WorkflowJournal::validate] *)
Definition validate (j : WorkflowJournal) : journal_result unit :=
  reject_if (negb (schema_version j =? WORKFLOW_JOURNAL_SCHEMA_VERSION))
    (UnsupportedSchemaVersion WORKFLOW_JOURNAL_SCHEMA_VERSION (schema_version j)) ;;
  reject_if (bool_decide (authority j ≠ AuthWorkflow)) InvalidWorkflowAuthority ;;
  validate_generation_state (generation j) ;;
  validate_source_snapshot_state (source_snapshot j) ;;
  validate_effective_indexing_configuration (effective_indexing_configuration j) ;;
  validate_work_inventory "work.mailbox_admission.pending" "work.mailbox_admission.completed"
    (mailbox_admission (work j)) ;;
  validate_work_inventory "work.chunking.pending" "work.chunking.completed" (chunking (work j)) ;;
  validate_work_inventory "work.embedding.pending" "work.embedding.completed" (embedding (work j)) ;;
  validate_work_inventory "work.indexing.pending" "work.indexing.completed" (indexing (work j)) ;;
  validate_work_inventory "work.publication.pending" "work.publication.completed"
    (publication (work j)) ;;
  result_foldl validate_subordinate ∅ (subordinate_journals j) ;;
  let a := audit j in
  reject_if (work_set_frozen a && bool_decide (work_set_id a = None))
    (MissingField "audit.work_set_id") ;;
  require_optional_non_empty "audit.work_set_id" (work_set_id a) ;;
  require_optional_non_empty "audit.published_root_id" (published_root_id a) ;;
  require_optional_non_empty "audit.published_root_recorded_at" (published_root_recorded_at a) ;;
  require_optional_non_empty "audit.root_history_entry_id" (root_history_entry_id a) ;;
  require_optional_non_empty "audit.root_history_recorded_at" (root_history_recorded_at a) ;;
  require_optional_non_empty "audit.root_change_explanation" (root_change_explanation a) ;;
  require_paired_optional_fields "audit.published_root_id" (published_root_id a)
    "audit.published_root_recorded_at" (published_root_recorded_at a) ;;
  require_paired_optional_fields "audit.root_history_entry_id" (root_history_entry_id a)
    "audit.root_history_recorded_at" (root_history_recorded_at a) ;;
  st ← result_foldl (validate_checkpoint (work j)) (∅, None) (checkpoints j);
  reject_if
    (match snd st with
     | Some most_advanced => workflow_stage_rank (current_stage j) <? most_advanced
     | None => false
     end)
    (InconsistentState "current_stage must not precede recorded checkpoint stages") ;;
  validate_terminal_state (current_stage j) (terminal_outcome j) (completed_at (generation j)) ;;
  validate_stage_ordered_state (current_stage j) (work j) (audit j).

(** ** Field updates *)

Definition set_current_stage (stage : WorkflowStage) (j : WorkflowJournal) : WorkflowJournal :=
  {| schema_version := schema_version j; authority := authority j; current_stage := stage;
     generation := generation j; source_snapshot := source_snapshot j;
     effective_indexing_configuration := effective_indexing_configuration j; work := work j;
     audit := audit j; checkpoints := checkpoints j;
     subordinate_journals := subordinate_journals j; terminal_outcome := terminal_outcome j |}.

Definition set_generation (g : GenerationState) (j : WorkflowJournal) : WorkflowJournal :=
  {| schema_version := schema_version j; authority := authority j;
     current_stage := current_stage j; generation := g; source_snapshot := source_snapshot j;
     effective_indexing_configuration := effective_indexing_configuration j; work := work j;
     audit := audit j; checkpoints := checkpoints j;
     subordinate_journals := subordinate_journals j; terminal_outcome := terminal_outcome j |}.

Definition set_source_snapshot (s : SourceSnapshotState) (j : WorkflowJournal) : WorkflowJournal :=
  {| schema_version := schema_version j; authority := authority j;
     current_stage := current_stage j; generation := generation j; source_snapshot := s;
     effective_indexing_configuration := effective_indexing_configuration j; work := work j;
     audit := audit j; checkpoints := checkpoints j;
     subordinate_journals := subordinate_journals j; terminal_outcome := terminal_outcome j |}.

Definition set_work (w : WorkInventories) (j : WorkflowJournal) : WorkflowJournal :=
  {| schema_version := schema_version j; authority := authority j;
     current_stage := current_stage j; generation := generation j;
     source_snapshot := source_snapshot j;
     effective_indexing_configuration := effective_indexing_configuration j; work := w;
     audit := audit j; checkpoints := checkpoints j;
     subordinate_journals := subordinate_journals j; terminal_outcome := terminal_outcome j |}.

Definition set_audit (a : AuditState) (j : WorkflowJournal) : WorkflowJournal :=
  {| schema_version := schema_version j; authority := authority j;
     current_stage := current_stage j; generation := generation j;
     source_snapshot := source_snapshot j;
     effective_indexing_configuration := effective_indexing_configuration j; work := work j;
     audit := a; checkpoints := checkpoints j;
     subordinate_journals := subordinate_journals j; terminal_outcome := terminal_outcome j |}.

Definition set_checkpoints (c : list CheckpointRecord) (j : WorkflowJournal) : WorkflowJournal :=
  {| schema_version := schema_version j; authority := authority j;
     current_stage := current_stage j; generation := generation j;
     source_snapshot := source_snapshot j;
     effective_indexing_configuration := effective_indexing_configuration j; work := work j;
     audit := audit j; checkpoints := c;
     subordinate_journals := subordinate_journals j; terminal_outcome := terminal_outcome j |}.

Definition set_subordinates (l : list SubordinateJournalState) (j : WorkflowJournal) : WorkflowJournal :=
  {| schema_version := schema_version j; authority := authority j;
     current_stage := current_stage j; generation := generation j;
     source_snapshot := source_snapshot j;
     effective_indexing_configuration := effective_indexing_configuration j; work := work j;
     audit := audit j; checkpoints := checkpoints j;
     subordinate_journals := l; terminal_outcome := terminal_outcome j |}.

Definition set_terminal_outcome (o : option TerminalOutcome) (j : WorkflowJournal) : WorkflowJournal :=
  {| schema_version := schema_version j; authority := authority j;
     current_stage := current_stage j; generation := generation j;
     source_snapshot := source_snapshot j;
     effective_indexing_configuration := effective_indexing_configuration j; work := work j;
     audit := audit j; checkpoints := checkpoints j;
     subordinate_journals := subordinate_journals j; terminal_outcome := o |}.

Definition set_completed_at (c : option string) (g : GenerationState) : GenerationState :=
  {| generation_id := generation_id g; journal_id := journal_id g; started_at := started_at g;
     completed_at := c |}.

(** [*self.inventory_mut(work_kind) = inv] *)
Definition set_inventory (work_kind : WorkKind) (inv : WorkInventory) (w : WorkInventories) :
    WorkInventories :=
  match work_kind with
  | KMailboxAdmission => {| mailbox_admission := inv; chunking := chunking w;
      embedding := embedding w; indexing := indexing w; publication := publication w |}
  | KChunking => {| mailbox_admission := mailbox_admission w; chunking := inv;
      embedding := embedding w; indexing := indexing w; publication := publication w |}
  | KEmbedding => {| mailbox_admission := mailbox_admission w; chunking := chunking w;
      embedding := inv; indexing := indexing w; publication := publication w |}
  | KIndexing => {| mailbox_admission := mailbox_admission w; chunking := chunking w;
      embedding := embedding w; indexing := inv; publication := publication w |}
  | KPublication => {| mailbox_admission := mailbox_admission w; chunking := chunking w;
      embedding := embedding w; indexing := indexing w; publication := inv |}
  end.

Definition set_work_set (id : string) (a : AuditState) : AuditState :=
  {| work_set_id := Some id; work_set_frozen := true; published_root_id := published_root_id a;
     published_root_recorded_at := published_root_recorded_at a;
     root_history_entry_id := root_history_entry_id a;
     root_history_recorded_at := root_history_recorded_at a;
     root_change_explanation := root_change_explanation a |}.

Definition set_published_root_id (v : string) (a : AuditState) : AuditState :=
  {| work_set_id := work_set_id a; work_set_frozen := work_set_frozen a;
     published_root_id := Some v; published_root_recorded_at := published_root_recorded_at a;
     root_history_entry_id := root_history_entry_id a;
     root_history_recorded_at := root_history_recorded_at a;
     root_change_explanation := root_change_explanation a |}.

Definition set_published_root_recorded_at (v : string) (a : AuditState) : AuditState :=
  {| work_set_id := work_set_id a; work_set_frozen := work_set_frozen a;
     published_root_id := published_root_id a; published_root_recorded_at := Some v;
     root_history_entry_id := root_history_entry_id a;
     root_history_recorded_at := root_history_recorded_at a;
     root_change_explanation := root_change_explanation a |}.

Definition set_root_history_entry_id (v : string) (a : AuditState) : AuditState :=
  {| work_set_id := work_set_id a; work_set_frozen := work_set_frozen a;
     published_root_id := published_root_id a;
     published_root_recorded_at := published_root_recorded_at a;
     root_history_entry_id := Some v; root_history_recorded_at := root_history_recorded_at a;
     root_change_explanation := root_change_explanation a |}.

Definition set_root_history_recorded_at (v : string) (a : AuditState) : AuditState :=
  {| work_set_id := work_set_id a; work_set_frozen := work_set_frozen a;
     published_root_id := published_root_id a;
     published_root_recorded_at := published_root_recorded_at a;
     root_history_entry_id := root_history_entry_id a; root_history_recorded_at := Some v;
     root_change_explanation := root_change_explanation a |}.

Definition set_root_change_explanation (v : string) (a : AuditState) : AuditState :=
  {| work_set_id := work_set_id a; work_set_frozen := work_set_frozen a;
     published_root_id := published_root_id a;
     published_root_recorded_at := published_root_recorded_at a;
     root_history_entry_id := root_history_entry_id a;
     root_history_recorded_at := root_history_recorded_at a; root_change_explanation := Some v |}.

(** ** Operations *)

Abbreviation journal_op := (stm WorkflowJournal WorkflowJournalError).

(** [WorkflowJournal::new] *)
Definition new (i : WorkflowJournalInit) : journal_result WorkflowJournal :=
  validate_generation_state (init_generation i) ;;
  validate_source_snapshot_state (init_source_snapshot i) ;;
  validate_effective_indexing_configuration (init_effective_indexing_configuration i) ;;
  let journal :=
    {| schema_version := WORKFLOW_JOURNAL_SCHEMA_VERSION; authority := AuthWorkflow;
       current_stage := init_current_stage i; generation := init_generation i;
       source_snapshot := init_source_snapshot i;
       effective_indexing_configuration := init_effective_indexing_configuration i;
       work := WorkInventories_default; audit := AuditState_default; checkpoints := [];
       subordinate_journals := []; terminal_outcome := None |} in
  validate journal ;; Ok journal.

Definition set_stage (stage : WorkflowStage) : journal_op unit := modify (set_current_stage stage).

Definition queue_work (work_kind : WorkKind) (item_id : string) : journal_op unit :=
  item_id ← lift (require_non_empty_owned "work.item_id" item_id);
  modify (λ j, set_work (set_inventory work_kind
    (inventory_queue (inventory_of (work j) work_kind) item_id) (work j)) j).

(** [self.inventory_mut(work_kind).checkpoint(item_id)] *)
Definition checkpoint_inventory (work_kind : WorkKind) (item_id : string) : journal_op bool :=
  λ j, let '(inv, inserted) := inventory_checkpoint (inventory_of (work j) work_kind) item_id in
       (set_work (set_inventory work_kind inv (work j)) j, Ok inserted).

Definition record_checkpoint (stage : WorkflowStage) (work_kind : WorkKind)
    (item_id recorded_at : string) : journal_op bool :=
  lift (reject_if (is_terminal stage)
    (InconsistentState "checkpoints must not record terminal stages")) ;;
  item_id ← lift (require_non_empty_owned "checkpoint.item_id" item_id);
  recorded_at ← lift (require_non_empty_owned "checkpoint.recorded_at" recorded_at);
  inserted ← checkpoint_inventory work_kind item_id;
  (if inserted : bool then
     modify (λ j,
       if workflow_stage_rank (current_stage j) <? workflow_stage_rank stage
       then set_current_stage stage j else j) ;;
     modify (λ j, set_checkpoints (checkpoints j ++
       [{| ck_stage := stage; ck_work_kind := work_kind; ck_item_id := item_id;
           ck_recorded_at := recorded_at |}]) j)
   else mret ()) ;;
  mret inserted.

Definition freeze_work_set (id : string) : journal_op unit :=
  id ← lift (require_non_empty_owned "audit.work_set_id" id);
  modify (λ j, set_audit (set_work_set id (audit j)) j).

Definition record_published_root (root_id recorded_at : string) : journal_op unit :=
  root_id ← lift (require_non_empty_owned "audit.published_root_id" root_id);
  modify (λ j, set_audit (set_published_root_id root_id (audit j)) j) ;;
  recorded_at ← lift (require_non_empty_owned "audit.published_root_recorded_at" recorded_at);
  modify (λ j, set_audit (set_published_root_recorded_at recorded_at (audit j)) j).

Definition record_root_history_entry (entry_id recorded_at : string) : journal_op unit :=
  entry_id ← lift (require_non_empty_owned "audit.root_history_entry_id" entry_id);
  modify (λ j, set_audit (set_root_history_entry_id entry_id (audit j)) j) ;;
  recorded_at ← lift (require_non_empty_owned "audit.root_history_recorded_at" recorded_at);
  modify (λ j, set_audit (set_root_history_recorded_at recorded_at (audit j)) j).

Definition record_root_change_explanation (explanation : string) : journal_op unit :=
  explanation ← lift (require_non_empty_owned "audit.root_change_explanation" explanation);
  modify (λ j, set_audit (set_root_change_explanation explanation (audit j)) j).

(** [find] then assignment through the found reference: the first entry with
    the key is replaced, [None] when there is none. *)
Fixpoint update_subordinate (impl loc : string) (gen : option string) (md : gmap string string)
    (l : list SubordinateJournalState) : option (list SubordinateJournalState) :=
  match l with
  | [] => None
  | s :: l' =>
      if bool_decide (implementation s = impl) && bool_decide (location s = loc)
      then Some ({| sub_authority := AuthSubordinate; implementation := implementation s;
                    location := location s; last_observed_generation_id := gen;
                    metadata := md |} :: l')
      else cons s <$> update_subordinate impl loc gen md l'
  end.

Definition upsert_subordinate_journal (impl loc : string) (gen : option string)
    (md : gmap string string) : journal_op unit :=
  impl ← lift (require_non_empty_owned "subordinate_journal.implementation" impl);
  loc ← lift (require_non_empty_owned "subordinate_journal.location" loc);
  lift (require_optional_non_empty "subordinate_journal.last_observed_generation_id" gen) ;;
  modify (λ j,
    match update_subordinate impl loc gen md (subordinate_journals j) with
    | Some l => set_subordinates l j
    | None => set_subordinates (subordinate_journals j ++
        [{| sub_authority := AuthSubordinate; implementation := impl; location := loc;
            last_observed_generation_id := gen; metadata := md |}]) j
    end).

Definition record_terminal_success (recorded_at : string) : journal_op unit :=
  recorded_at ← lift (require_non_empty_owned "terminal_outcome.recorded_at" recorded_at);
  modify (set_current_stage TerminalSuccess) ;;
  modify (λ j, set_generation (set_completed_at (Some recorded_at) (generation j)) j) ;;
  modify (set_terminal_outcome (Some
    {| to_kind := Success; to_recorded_at := recorded_at; to_detail := None |})).

Definition record_terminal_failure (recorded_at detail : string) : journal_op unit :=
  recorded_at ← lift (require_non_empty_owned "terminal_outcome.recorded_at" recorded_at);
  detail ← lift (require_non_empty_owned "terminal_outcome.detail" detail);
  modify (set_current_stage TerminalFailure) ;;
  modify (λ j, set_generation (set_completed_at (Some recorded_at) (generation j)) j) ;;
  modify (set_terminal_outcome (Some
    {| to_kind := NonRecoverableFailure; to_recorded_at := recorded_at;
       to_detail := Some detail |})).
