(* ===== verification/WorkflowSpec.v ===== *)
(** What the workflow journal promises: the declarative validity of a journal,
    the part of it that no operation can break, the step relation of the
    operations, and the theorems that relate them to src/lib.rs's code. *)

From Stdlib Require Import ZArith Lia.
From stdpp Require Import base gmap sets strings sorting option list.
From S2P Require Import Prelude Workflow.
#[local] Open Scope Z_scope.

(** ** The specification *)

Definition filled (s : string) : Prop := blank s = false.
Definition filled_opt (o : option string) : Prop :=
  match o with Some s => filled s | None => True end.

Record inventory_ok (inv : WorkInventory) : Prop := {
  io_pending : set_Forall (λ x, filled x ∧ x ∉ completed inv) (pending inv);
  io_completed : set_Forall filled (completed inv);
}.

Definition subordinate_key (s : SubordinateJournalState) : string * string :=
  (implementation s, location s).

Record subordinate_ok (s : SubordinateJournalState) : Prop := {
  so_implementation : filled (implementation s);
  so_location : filled (location s);
  so_generation : filled_opt (last_observed_generation_id s);
  so_authority : sub_authority s = AuthSubordinate;
}.

Definition checkpoint_key (c : CheckpointRecord) : WorkKind * string :=
  (ck_work_kind c, ck_item_id c).

Record checkpoint_ok (w : WorkInventories) (c : CheckpointRecord) : Prop := {
  co_stage : is_terminal (ck_stage c) = false;
  co_item : filled (ck_item_id c);
  co_recorded : filled (ck_recorded_at c);
  co_completed : ck_item_id c ∈ completed (inventory_of w (ck_work_kind c));
  co_pending : ck_item_id c ∉ pending (inventory_of w (ck_work_kind c));
}.

Record generation_ok (g : GenerationState) : Prop := {
  go_id : filled (generation_id g);
  go_journal : filled (journal_id g);
  go_started : filled (started_at g);
  go_completed : filled_opt (completed_at g);
}.

Record snapshot_ok (s : SourceSnapshotState) : Prop := {
  sn_id : filled (source_snapshot_id s);
  sn_uri : filled (source_uri s);
  sn_started : filled_opt (acquisition_started_at s);
  sn_completed : filled_opt (acquisition_completed_at s);
  sn_manifest : filled_opt (corpus_manifest_identity s);
}.

Record configuration_ok (c : EffectiveIndexingConfigurationState) : Prop := {
  cf_id : filled (effective_indexing_configuration_id c);
  cf_chunking : filled (chunking_policy_id c);
  cf_provider : filled (embedding_provider_or_model_id c);
  cf_root : filled (delegated_published_root_generation_id c);
}.

Record audit_ok (a : AuditState) : Prop := {
  ao_frozen : work_set_frozen a = true → is_Some (work_set_id a);
  ao_work_set : filled_opt (work_set_id a);
  ao_root : filled_opt (published_root_id a);
  ao_root_at : filled_opt (published_root_recorded_at a);
  ao_history : filled_opt (root_history_entry_id a);
  ao_history_at : filled_opt (root_history_recorded_at a);
  ao_explanation : filled_opt (root_change_explanation a);
}.

(** The part of validity that holds of every journal the operations reach,
    failing operations included. *)
Record structural (j : WorkflowJournal) : Prop := {
  st_schema : schema_version j = WORKFLOW_JOURNAL_SCHEMA_VERSION;
  st_authority : authority j = AuthWorkflow;
  st_generation : generation_ok (generation j);
  st_snapshot : snapshot_ok (source_snapshot j);
  st_configuration : configuration_ok (effective_indexing_configuration j);
  st_inventories : ∀ k, inventory_ok (inventory_of (work j) k);
  st_subordinates : Forall subordinate_ok (subordinate_journals j);
  st_subordinate_keys : NoDup (subordinate_key <$> subordinate_journals j);
  st_audit : audit_ok (audit j);
  st_checkpoints : Forall (checkpoint_ok (work j)) (checkpoints j);
  st_checkpoint_keys : NoDup (checkpoint_key <$> checkpoints j);
}.

Definition outcome_matches (stage : WorkflowStage) (kind : TerminalOutcomeKind) : Prop :=
  match kind with
  | Success => stage = TerminalSuccess
  | NonRecoverableFailure => stage = TerminalFailure
  end.

(** A terminal stage carries its outcome and the completion time it was
    recorded at; no other stage carries either. *)
Definition terminal_ok (stage : WorkflowStage) (outcome : option TerminalOutcome)
    (completed : option string) : Prop :=
  match outcome with
  | None => is_terminal stage = false ∧ completed = None
  | Some o => is_terminal stage = true ∧ completed = Some (to_recorded_at o)
              ∧ filled (to_recorded_at o) ∧ filled_opt (to_detail o)
              ∧ outcome_matches stage (to_kind o)
  end.

(** The barriers between the stages. *)
Record stage_ordered (stage : WorkflowStage) (w : WorkInventories) (a : AuditState) : Prop := {
  ord_pending : ∀ k, work_kind_pending_after_stage stage k = true → pending (inventory_of w k) = ∅;
  ord_frozen : publication_barrier_reached stage = true → work_set_frozen a = true;
  ord_root : stage = RootHistoryPublication ∨ stage = TerminalSuccess → is_Some (published_root_id a);
  ord_history : stage = TerminalSuccess → is_Some (root_history_entry_id a);
}.

Record valid (j : WorkflowJournal) : Prop := {
  v_structural : structural j;
  v_root_paired : is_Some (published_root_id (audit j))
                  ↔ is_Some (published_root_recorded_at (audit j));
  v_history_paired : is_Some (root_history_entry_id (audit j))
                     ↔ is_Some (root_history_recorded_at (audit j));
  v_rank : Forall (λ c, workflow_stage_rank (ck_stage c) ≤ workflow_stage_rank (current_stage j))
             (checkpoints j);
  v_terminal : terminal_ok (current_stage j) (terminal_outcome j) (completed_at (generation j));
  v_ordered : stage_ordered (current_stage j) (work j) (audit j);
}.

(** One call of a public method that takes [&mut self], whatever it returns. *)
Inductive journal_step (j : WorkflowJournal) : WorkflowJournal → Prop :=
| step_set_stage s : journal_step j (set_stage s j).1
| step_queue k x : journal_step j (queue_work k x j).1
| step_checkpoint s k x t : journal_step j (record_checkpoint s k x t j).1
| step_freeze x : journal_step j (freeze_work_set x j).1
| step_root x t : journal_step j (record_published_root x t j).1
| step_history x t : journal_step j (record_root_history_entry x t j).1
| step_explanation x : journal_step j (record_root_change_explanation x j).1
| step_subordinate i l g m : journal_step j (upsert_subordinate_journal i l g m j).1
| step_success t : journal_step j (record_terminal_success t j).1
| step_failure t d : journal_step j (record_terminal_failure t d j).1.

Inductive reachable : WorkflowJournal → Prop :=
| reachable_new i j : new i = Ok j → reachable j
| reachable_step j j' : reachable j → journal_step j j' → reachable j'.

(** ** Validation implements the specification *)

Lemma require_non_empty_ok f s u : require_non_empty f s = Ok u ↔ filled s.
Proof. unfold require_non_empty, filled. destruct u, (blank s); naive_solver. Qed.

Lemma require_non_empty_err f s e : require_non_empty f s = Err e ↔ e = EmptyField f ∧ blank s = true.
Proof. unfold require_non_empty. destruct (blank s); naive_solver. Qed.

Lemma require_optional_non_empty_ok f o u : require_optional_non_empty f o = Ok u ↔ filled_opt o.
Proof. destruct o; cbn; [apply require_non_empty_ok|]. destruct u. naive_solver. Qed.

Lemma require_non_empty_owned_case f s :
  (filled s ∧ require_non_empty_owned f s = Ok s)
  ∨ (blank s = true ∧ require_non_empty_owned f s = Err (EmptyField f)).
Proof. unfold require_non_empty_owned, require_non_empty, filled. destruct (blank s); auto. Qed.

Lemma require_paired_ok lf lv rf rv u :
  require_paired_optional_fields lf lv rf rv = Ok u ↔ (is_Some lv ↔ is_Some rv).
Proof.
  destruct u, lv, rv; cbn; split; intros; try done.
  all: try (by split; intros; eauto).
  - destruct H as [H _]. destruct (H (ltac:(eauto))); done.
  - destruct H as [_ H]. destruct (H (ltac:(eauto))); done.
Qed.


#[export] Hint Rewrite require_non_empty_ok require_optional_non_empty_ok require_paired_ok
  : result_ok.

(** The validators that are chains of field checks. *)
Ltac field_checks :=
  result_ok; split; [intros; destruct_and?; by constructor | by intros []].

Lemma validate_generation_ok g u : validate_generation_state g = Ok u ↔ generation_ok g.
Proof. unfold validate_generation_state. field_checks. Qed.

Lemma validate_snapshot_ok s u : validate_source_snapshot_state s = Ok u ↔ snapshot_ok s.
Proof. unfold validate_source_snapshot_state. field_checks. Qed.

Lemma validate_configuration_ok c u :
  validate_effective_indexing_configuration c = Ok u ↔ configuration_ok c.
Proof. unfold validate_effective_indexing_configuration. field_checks. Qed.

Lemma validate_inventory_ok pf cf inv u : validate_work_inventory pf cf inv = Ok u ↔ inventory_ok inv.
Proof.
  unfold validate_work_inventory. result_ok. rewrite !Forall_btree_iter.
  assert (∀ x, (require_non_empty pf x ;;
    reject_if (bool_decide (x ∈ completed inv))
      (InconsistentState "work inventory item must not appear in both pending and completed"))
    = Ok () ↔ filled x ∧ x ∉ completed inv) as Hp.
  { intros x. result_ok. by rewrite bool_decide_eq_false. }
  split.
  - intros [H1 H2]. constructor; intros x Hx; [by apply Hp, H1|].
    by eapply require_non_empty_ok, H2.
  - intros [H1 H2]. split; intros x Hx; [by apply Hp, H1|].
    by eapply require_non_empty_ok, H2.
Qed.

Definition add_subordinate_key (keys : gset (string * string)) (s : SubordinateJournalState) :
    gset (string * string) := {[subordinate_key s]} ∪ keys.

Lemma validate_subordinate_ok keys s keys' :
  validate_subordinate keys s = Ok keys' ↔
    subordinate_ok s ∧ subordinate_key s ∉ keys ∧ keys' = add_subordinate_key keys s.
Proof.
  unfold validate_subordinate. cbv zeta. result_ok. rewrite ?bool_decide_not_false, ?bool_decide_eq_false by apply _.
  split.
  - intros (?&?&?&?&?&[= <-]). by split_and!.
  - intros ([]&?&->). by split_and!.
Qed.

Lemma validate_subordinates_ok (l : list SubordinateJournalState) keys :
  result_foldl validate_subordinate ∅ l = Ok keys ↔
    Forall subordinate_ok l ∧ NoDup (subordinate_key <$> l)
    ∧ keys = fold_left add_subordinate_key l ∅.
Proof.
  rewrite (keyed_loop_ok validate_subordinate subordinate_ok subordinate_key id
    add_subordinate_key validate_subordinate_ok); [|done].
  split; [naive_solver|]. intros (?&?&->). repeat split; try done.
  apply Forall_true. set_solver.
Qed.

Lemma work_kind_key_inj : Inj (=) (=) work_kind_key.
Proof. by intros [] []. Qed.

Definition checkpoint_text_key (c : CheckpointRecord) : string * string :=
  (work_kind_key (ck_work_kind c), ck_item_id c).

Definition most_advanced (m : option Z) (c : CheckpointRecord) : option Z :=
  let rank := workflow_stage_rank (ck_stage c) in
  Some (match m with Some current => Z.max current rank | None => rank end).

Definition add_checkpoint_key (keys : gset (string * string)) (c : CheckpointRecord) :
    gset (string * string) := {[checkpoint_text_key c]} ∪ keys.

Definition add_checkpoint (st : gset (string * string) * option Z) (c : CheckpointRecord) :
    gset (string * string) * option Z :=
  (add_checkpoint_key st.1 c, most_advanced st.2 c).

Lemma validate_checkpoint_ok w st c st' :
  validate_checkpoint w st c = Ok st' ↔
    checkpoint_ok w c ∧ checkpoint_text_key c ∉ st.1
    ∧ st' = add_checkpoint st c.
Proof.
  destruct st as [keys m]. unfold validate_checkpoint, validate_checkpoint_record. cbv zeta.
  result_ok. rewrite ?bool_decide_not_false, ?bool_decide_eq_false by apply _. split.
  - intros ((?&?&?)&?&?&?&[= <-]). by split_and!.
  - intros ([]&?&->). by split_and!.
Qed.

Lemma checkpoint_keys_NoDup (l : list CheckpointRecord) : NoDup (checkpoint_text_key <$> l) ↔ NoDup (checkpoint_key <$> l).
Proof.
  assert (checkpoint_text_key <$> l = prod_map work_kind_key id <$> (checkpoint_key <$> l)) as ->.
  { rewrite <-list_fmap_compose. by apply list_fmap_ext. }
  apply NoDup_fmap. intros [k1 i1] [k2 i2] [= Hk ->]. by apply work_kind_key_inj in Hk as ->.
Qed.

(** The loop's second component is the maximum rank seen. *)
Lemma most_advanced_le (r : Z) l m :
  (match fold_left most_advanced l m with Some a => a ≤ r | None => True end)
  ↔ (match m with Some a => a ≤ r | None => True end)
    ∧ Forall (λ c, workflow_stage_rank (ck_stage c) ≤ r) l.
Proof.
  revert m. induction l as [|c l IH]; intros m; cbn.
  - split; [intros ?; split; [done|constructor] | by intros [? _]].
  - rewrite IH, Forall_cons. destruct m; cbn; split; intros; destruct_and?; repeat split; try done; lia.
Qed.

Lemma fold_checkpoint_split (l : list CheckpointRecord) keys m :
  fold_left add_checkpoint l (keys, m)
  = (fold_left add_checkpoint_key l keys, fold_left most_advanced l m).
Proof.
  revert keys m. induction l as [|c l IH]; intros; [done|].
  exact (IH (add_checkpoint_key keys c) (most_advanced m c)).
Qed.

Lemma validate_checkpoints_ok (w : WorkInventories) (l : list CheckpointRecord) (st : gset (string * string) * option Z) :
  result_foldl (validate_checkpoint w) (∅, None) l = Ok st ↔
    Forall (checkpoint_ok w) l ∧ NoDup (checkpoint_key <$> l)
    ∧ st = (fold_left add_checkpoint_key l ∅, fold_left most_advanced l None).
Proof.
  rewrite (keyed_loop_ok (validate_checkpoint w) (checkpoint_ok w) checkpoint_text_key fst
    add_checkpoint (validate_checkpoint_ok w));
    [|done].
  rewrite fold_checkpoint_split, checkpoint_keys_NoDup.
  split; [naive_solver|]. intros (?&?&->). repeat split; try done.
  apply Forall_true. cbn. set_solver.
Qed.

Lemma validate_terminal_kind_ok s k u :
  validate_terminal_kind s k = Ok u ↔ outcome_matches s k.
Proof. destruct u, s, k; cbn; naive_solver. Qed.

Lemma outcome_matches_terminal s k : outcome_matches s k → is_terminal s = true.
Proof. by destruct k; intros ->. Qed.

Lemma validate_terminal_state_ok s o c u :
  validate_terminal_state s o c = Ok u ↔ terminal_ok s o c.
Proof.
  unfold validate_terminal_state, validate_terminal_outcome, terminal_ok. cbv zeta. result_ok.
  destruct o as [o|]; result_ok; rewrite ?validate_terminal_kind_ok.
  - destruct c as [c|]; cbn; rewrite ?bool_decide_not_false by apply _.
    + pose proof (outcome_matches_terminal s (to_kind o)).
      destruct (is_terminal s); cbn; naive_solver.
    + destruct (is_terminal s); cbn; naive_solver.
  - destruct u, (is_terminal s), c; cbn; naive_solver.
Qed.

Lemma nonempty_false (s : gset string) : nonempty s = false ↔ s = ∅.
Proof. unfold nonempty. apply bool_decide_not_false, _. Qed.

Lemma andb_false_impl a b : a && b = false ↔ (a = true → b = false).
Proof. destruct a, b; naive_solver. Qed.

Lemma validate_stage_ordered_ok s w a u :
  validate_stage_ordered_state s w a = Ok u ↔ stage_ordered s w a.
Proof.
  destruct u. unfold validate_stage_ordered_state. cbv zeta. result_ok.
  rewrite !andb_false_impl, !nonempty_false, negb_false_iff, !bool_decide_eq_true,
    !bool_decide_eq_false, !not_eq_None_Some. split.
  - intros (H1&H2&H3&H4&H5&H6). constructor; [|done..].
    by intros [].
  - intros [H1 H2 H3 H4].
    split_and!; [apply (H1 KMailboxAdmission)|apply (H1 KChunking)|done|apply (H1 KEmbedding)|done..].
Qed.

Lemma audit_frozen_ok a :
  work_set_frozen a && bool_decide (work_set_id a = None) = false
  ↔ (work_set_frozen a = true → is_Some (work_set_id a)).
Proof. by rewrite andb_false_impl, bool_decide_eq_false, not_eq_None_Some. Qed.

Lemma rank_check_ok (j : WorkflowJournal) :
  match fold_left most_advanced (checkpoints j) None with
  | Some m => workflow_stage_rank (current_stage j) <? m
  | None => false
  end = false
  ↔ Forall (λ c, workflow_stage_rank (ck_stage c) ≤ workflow_stage_rank (current_stage j))
      (checkpoints j).
Proof.
  pose proof (most_advanced_le (workflow_stage_rank (current_stage j)) (checkpoints j) None) as Hm.
  destruct (fold_left _ _ _); [rewrite Z.ltb_ge|]; naive_solver.
Qed.

Lemma validate_valid (j : WorkflowJournal) : validate j = Ok () ↔ valid j.
Proof.
  unfold validate. cbv zeta. result_ok.
  rewrite validate_generation_ok, validate_snapshot_ok, validate_configuration_ok,
    !validate_inventory_ok, result_skip_ok. result_ok. rewrite audit_frozen_ok, result_bind_ok.
  setoid_rewrite validate_subordinates_ok. setoid_rewrite validate_checkpoints_ok.
  rewrite negb_false_iff, Z.eqb_eq, (bool_decide_not_false _) by apply _. split.
  - intros (?&?&?&?&?&?&?&?&?&?&(?&?&?&?)&?&?&?&?&?&?&?&?&?&(st&(?&?&->)&Hr)).
    revert Hr. result_ok. cbn [snd].
    rewrite rank_check_ok, validate_terminal_state_ok, validate_stage_ordered_ok.
    intros (?&?&?). constructor; [|done..]. constructor; try done. by intros [].
  - intros [[??? ?? Hinv ?? [] ??] ?????].
    split_and!; try done; try apply (Hinv KMailboxAdmission); try apply (Hinv KChunking);
      try apply (Hinv KEmbedding); try apply (Hinv KIndexing); try apply (Hinv KPublication);
      [by eauto|]. eexists. split; [by eauto|]. result_ok. cbn [snd].
    by rewrite rank_check_ok, validate_terminal_state_ok, validate_stage_ordered_ok.
Qed.

(** C12. [WorkflowJournal::validate] accepts exactly the valid journals, and
    whatever it rejects is not valid: its chain of checks and its two loops
    implement the declarative specification, so validity is decided by it. *)
Theorem validate_iff_valid (j : WorkflowJournal) :
  (validate j = Ok () ↔ valid j) ∧ ((∃ e, validate j = Err e) ↔ ¬ valid j).
Proof.
  split; [apply validate_valid|]. rewrite <-validate_valid.
  destruct (validate j) as [[]|e]; split; [by intros [? [=]]|done|done|eauto].
Qed.

(** ** The operations, by cases *)

Ltac open_op :=
  unfold queue_work, record_checkpoint, freeze_work_set, record_published_root,
    record_root_history_entry, record_root_change_explanation, upsert_subordinate_journal,
    record_terminal_success, record_terminal_failure, checkpoint_inventory,
    lift, modify, mbind, stm_bind, mret, stm_ret in *;
  cbn in *.

Lemma owned_filled f s : filled s → require_non_empty_owned f s = Ok s.
Proof. destruct (require_non_empty_owned_case f s) as [[]|[]]; [done|]. unfold filled. congruence. Qed.

Lemma owned_blank f s : blank s = true → require_non_empty_owned f s = Err (EmptyField f).
Proof. destruct (require_non_empty_owned_case f s) as [[]|[]]; [|done]. unfold filled in *. congruence. Qed.

(** Split on whether a text argument is blank. *)
Ltac case_blank x :=
  let H := fresh "Hx" in
  destruct (blank x) eqn:H;
  [rewrite ?(owned_blank _ x H) in * | rewrite ?(owned_filled _ x H) in *; change (filled x) in H].

Lemma inventory_of_set k k' inv w :
  inventory_of (set_inventory k inv w) k' = if decide (k = k') then inv else inventory_of w k'.
Proof. by destruct k, k'. Qed.

Lemma inventory_of_set_eq k inv w : inventory_of (set_inventory k inv w) k = inv.
Proof. by destruct k. Qed.

Lemma queue_ok inv x : inventory_ok inv → filled x → inventory_ok (inventory_queue inv x).
Proof.
  intros [Hp Hc] Hx. unfold inventory_queue. case_decide; [done|]. constructor; cbn; [|done].
  intros y [->%elem_of_singleton|Hy]%elem_of_union; [done|by apply Hp].
Qed.

Lemma checkpoint_inventory_ok inv x :
  inventory_ok inv → filled x → inventory_ok (inventory_checkpoint inv x).1.
Proof.
  intros [Hp Hc] Hx. constructor; cbn.
  - intros y [Hy Hne%not_elem_of_singleton]%elem_of_difference.
    destruct (Hp y Hy). split; [done|]. set_solver.
  - intros y [->%elem_of_singleton|Hy]%elem_of_union; [done|by apply Hc].
Qed.

(** A checkpointed item stays completed, and an inventory update that keeps
    the completed items and makes none of them pending keeps the journal
    structural. *)
Lemma structural_set_inventory k inv j :
  structural j → inventory_ok inv →
  completed (inventory_of (work j) k) ⊆ completed inv →
  structural (set_work (set_inventory k inv (work j)) j).
Proof.
  intros [] Hinv Hsub. constructor; try done; cbn.
  - intros k'. rewrite inventory_of_set. by case_decide.
  - eapply Forall_impl; [done|]. intros c []. constructor; try done.
    all: rewrite inventory_of_set; case_decide; [|done]; subst; auto.
    intros Hp. destruct Hinv as [Hp' _]. destruct (Hp' _ Hp). auto.
Qed.

Lemma structural_set_audit a j : structural j → audit_ok a → structural (set_audit a j).
Proof. by intros []. Qed.

Lemma structural_set_stage s j : structural j → structural (set_current_stage s j).
Proof. by intros []. Qed.

Lemma structural_set_terminal o j : structural j → structural (set_terminal_outcome o j).
Proof. by intros []. Qed.

Lemma structural_set_completed_at t j :
  structural j → filled t → structural (set_generation (set_completed_at (Some t) (generation j)) j).
Proof. intros [?? [] ????????] ?. by constructor. Qed.

Lemma structural_push_checkpoint c j :
  structural j → checkpoint_ok (work j) c → checkpoint_key c ∉ checkpoint_key <$> checkpoints j →
  structural (set_checkpoints (checkpoints j ++ [c]) j).
Proof.
  intros [] Hc Hk. constructor; try done; cbn.
  - by apply Forall_app_2; [|apply Forall_singleton].
  - rewrite fmap_app. apply NoDup_app. split_and!; [done| |by apply NoDup_singleton].
    intros y Hy ->%list_elem_of_singleton. done.
Qed.

(** A completed item's absence means no checkpoint has its key. *)
Lemma fresh_checkpoint_key j k x :
  structural j → x ∉ completed (inventory_of (work j) k) →
  (k, x) ∉ checkpoint_key <$> checkpoints j.
Proof.
  intros [_ _ _ _ _ _ _ _ _ Hck _] Hx (c&[= -> ->]&Hc)%list_elem_of_fmap.
  rewrite Forall_forall in Hck. by destruct (Hck c Hc).
Qed.

Lemma update_subordinate_keys i l g m subs subs' :
  update_subordinate i l g m subs = Some subs' → subordinate_key <$> subs' = subordinate_key <$> subs.
Proof.
  revert subs'. induction subs as [|s subs IH]; intros subs'; cbn; [done|].
  case_match; [by intros [= <-]|]. intros (l'&Hl&->)%fmap_Some. cbn. by rewrite (IH l').
Qed.

Lemma update_subordinate_ok i l g m subs subs' :
  filled_opt g → Forall subordinate_ok subs → update_subordinate i l g m subs = Some subs' →
  Forall subordinate_ok subs'.
Proof.
  intros Hg Hs. revert subs'. induction Hs as [|s subs [] Hs IH]; intros subs'; cbn; [done|].
  case_match; [by intros [= <-]; constructor|]. intros (l'&Hl&->)%fmap_Some. constructor; [done|]. eauto.
Qed.

Lemma update_subordinate_None i l g m subs :
  update_subordinate i l g m subs = None ↔ (i, l) ∉ subordinate_key <$> subs.
Proof.
  induction subs as [|s subs IH]; cbn; [split; [intros _; apply not_elem_of_nil|done]|].
  rewrite not_elem_of_cons. unfold subordinate_key at 1.
  destruct (bool_decide (implementation s = i)) eqn:Hi, (bool_decide (location s = l)) eqn:Hl;
    cbn; rewrite ?fmap_None, ?IH;
    rewrite ?bool_decide_eq_true in *; rewrite ?bool_decide_eq_false in *; subst; naive_solver.
Qed.

Lemma new_inv i j : new i = Ok j → validate j = Ok () ∧ checkpoints j = [] ∧ subordinate_journals j = [].
Proof.
  unfold new. cbv zeta. result_ok. intros (_&_&_&Hv&[= <-]). done.
Qed.

Lemma structural_queue_work k x j : structural j → structural (queue_work k x j).1.
Proof.
  intros Hj. open_op. case_blank x; cbn; [done|]. pose proof (st_inventories _ Hj k).
  apply structural_set_inventory; [done|by apply queue_ok|]. unfold inventory_queue. by case_decide.
Qed.

(** The inventory update of [record_checkpoint]. *)
Definition checkpointed (k : WorkKind) (x : string) (j : WorkflowJournal) : WorkflowJournal :=
  set_work (set_inventory k (inventory_checkpoint (inventory_of (work j) k) x).1 (work j)) j.

Definition advance_stage (s : WorkflowStage) (j : WorkflowJournal) : WorkflowJournal :=
  if workflow_stage_rank (current_stage j) <? workflow_stage_rank s
  then set_current_stage s j else j.

Definition push_checkpoint (c : CheckpointRecord) (j : WorkflowJournal) : WorkflowJournal :=
  set_checkpoints (checkpoints j ++ [c]) j.

(** [record_checkpoint] on arguments it accepts. *)
Lemma record_checkpoint_eq s k x t j :
  is_terminal s = false → filled x → filled t →
  record_checkpoint s k x t j =
    if decide (x ∈ completed (inventory_of (work j) k)) then (checkpointed k x j, Ok false)
    else (push_checkpoint {| ck_stage := s; ck_work_kind := k; ck_item_id := x; ck_recorded_at := t |}
            (advance_stage s (checkpointed k x j)), Ok true).
Proof.
  intros Hs Hx Ht. open_op. rewrite Hs, (owned_filled _ x Hx); cbn. rewrite (owned_filled _ t Ht); cbn.
  case_bool_decide; case_decide; try done.
Qed.

Lemma structural_checkpointed k x j : structural j → filled x → structural (checkpointed k x j).
Proof.
  intros Hj Hx. apply structural_set_inventory; [done| |cbn; set_solver].
  apply checkpoint_inventory_ok; [by apply st_inventories|done].
Qed.

Lemma structural_advance_stage s j : structural j → structural (advance_stage s j).
Proof. unfold advance_stage. case_match; [apply structural_set_stage|done]. Qed.

Lemma advance_stage_work s j : work (advance_stage s j) = work j.
Proof. unfold advance_stage. by case_match. Qed.
Lemma advance_stage_checkpoints s j : checkpoints (advance_stage s j) = checkpoints j.
Proof. unfold advance_stage. by case_match. Qed.

Lemma structural_record_checkpoint s k x t j : structural j → structural (record_checkpoint s k x t j).1.
Proof.
  intros Hj. destruct (is_terminal s) eqn:Hs; [by open_op; rewrite Hs|].
  destruct (blank x) eqn:Hx; [by open_op; rewrite Hs, (owned_blank _ x Hx)|].
  destruct (blank t) eqn:Ht.
  { by open_op; rewrite Hs, (owned_filled _ x Hx); cbn; rewrite (owned_blank _ t Ht). }
  rewrite record_checkpoint_eq by done. pose proof (structural_checkpointed k x j Hj Hx) as Hc.
  case_decide as Hin; cbn; [done|]. apply structural_push_checkpoint.
  - by apply structural_advance_stage.
  - rewrite advance_stage_work. cbn.
    constructor; cbn; rewrite ?inventory_of_set_eq; cbn; try done; set_solver.
  - rewrite advance_stage_checkpoints. by apply (fresh_checkpoint_key j k x).
Qed.

Lemma structural_upsert i l g m j : structural j → structural (upsert_subordinate_journal i l g m j).1.
Proof.
  intros Hj. open_op. case_blank i; cbn; [done|]. case_blank l; cbn; [done|].
  destruct (require_optional_non_empty _ g) as [u|] eqn:Hg; cbn; [|done].
  apply require_optional_non_empty_ok in Hg. destruct Hj.
  destruct (update_subordinate _ _ _ _ _) as [subs|] eqn:Hu; constructor; cbn; try done.
  - by eapply update_subordinate_ok.
  - by rewrite (update_subordinate_keys _ _ _ _ _ _ Hu).
  - apply Forall_app_2; [done|]. by apply Forall_singleton.
  - rewrite fmap_app. apply NoDup_app. apply update_subordinate_None in Hu.
    split_and!; [done| |by apply NoDup_singleton]. by intros ? ? ->%list_elem_of_singleton.
Qed.

Lemma structural_step j j' : structural j → journal_step j j' → structural j'.
Proof.
  intros Hj [s|k x|s k x t|x|x t|x t|x|i l g m|t|t d].
  - by apply structural_set_stage.
  - by apply structural_queue_work.
  - by apply structural_record_checkpoint.
  - open_op. case_blank x; cbn; [done|]. apply structural_set_audit; [done|].
    destruct (st_audit _ Hj). by constructor; cbn.
  - open_op. destruct (st_audit _ Hj). case_blank x; cbn; [done|]. case_blank t; cbn.
    all: repeat apply structural_set_audit; try done; by constructor.
  - open_op. destruct (st_audit _ Hj). case_blank x; cbn; [done|]. case_blank t; cbn.
    all: repeat apply structural_set_audit; try done; by constructor.
  - open_op. destruct (st_audit _ Hj). case_blank x; cbn; [done|].
    apply structural_set_audit; [done|]. by constructor.
  - by apply structural_upsert.
  - open_op. case_blank t; cbn; [done|]. apply structural_set_terminal.
    apply (structural_set_completed_at t (set_current_stage TerminalSuccess j)); [by apply structural_set_stage|done].
  - open_op. case_blank t; cbn; [done|]. case_blank d; cbn; [done|]. apply structural_set_terminal.
    apply (structural_set_completed_at t (set_current_stage TerminalFailure j)); [by apply structural_set_stage|done].
Qed.

(** C15. Every journal that [new] and any sequence of the public methods reach,
    whether the calls succeed or fail, satisfies the structural part of
    validity: disjoint inventories of non-blank items, distinct non-terminal
    checkpoints of completed items, distinct non-authoritative subordinate
    journals, a frozen work set with an id, and the identity fields filled. *)
Theorem reachable_structural (j : WorkflowJournal) : reachable j → structural j.
Proof.
  induction 1 as [i j Hnew|j j' _ IH Hstep]; [|by eapply structural_step].
  apply new_inv in Hnew as [Hv _]. by apply validate_valid, v_structural in Hv.
Qed.

(** ** Checkpoints *)

Lemma rank_terminal s : is_terminal s = true → workflow_stage_rank s = 6.
Proof. by destruct s. Qed.
Lemma rank_le_6 s : workflow_stage_rank s ≤ 6.
Proof. destruct s; cbn; lia. Qed.
Lemma rank_nonterminal s : is_terminal s = false → workflow_stage_rank s < 6.
Proof. by destruct s. Qed.

Lemma record_checkpoint_inv s k x t j j' (r : journal_result bool) :
  record_checkpoint s k x t j = (j', r) →
  match r with
  | Err _ => j' = j
  | Ok b => is_terminal s = false ∧ filled x ∧ filled t
            ∧ (j', r) = if decide (x ∈ completed (inventory_of (work j) k))
                        then (checkpointed k x j, Ok false)
                        else (push_checkpoint {| ck_stage := s; ck_work_kind := k; ck_item_id := x;
                                                 ck_recorded_at := t |}
                                (advance_stage s (checkpointed k x j)), Ok true)
  end.
Proof.
  intros Heq. destruct (is_terminal s) eqn:Hs.
  { open_op. rewrite Hs in Heq. cbn in Heq. by injection Heq as <- <-. }
  destruct (blank x) eqn:Hx.
  { open_op. rewrite Hs, (owned_blank _ x Hx) in Heq. cbn in Heq. by injection Heq as <- <-. }
  destruct (blank t) eqn:Ht.
  { open_op. rewrite Hs, (owned_filled _ x Hx) in Heq. cbn in Heq.
    rewrite (owned_blank _ t Ht) in Heq. cbn in Heq. by injection Heq as <- <-. }
  rewrite record_checkpoint_eq in Heq by done. rewrite <-Heq. case_decide; by injection Heq as <- <-.
Qed.

(** What a successful [record_checkpoint] that returns [b] does. *)
Record checkpoint_effect (s : WorkflowStage) (k : WorkKind) (x t : string)
    (j j' : WorkflowJournal) (b : bool) : Prop := {
  ce_inserted : b = bool_decide (x ∉ completed (inventory_of (work j) k));
  ce_pending : pending (inventory_of (work j') k) = pending (inventory_of (work j) k) ∖ {[x]};
  ce_completed : completed (inventory_of (work j') k) = {[x]} ∪ completed (inventory_of (work j) k);
  ce_others : ∀ k', k' ≠ k → inventory_of (work j') k' = inventory_of (work j) k';
  ce_audit : audit j' = audit j;
  ce_generation : generation j' = generation j;
  ce_outcome : terminal_outcome j' = terminal_outcome j;
  ce_checkpoints : checkpoints j' = checkpoints j ++
    (if b then [{| ck_stage := s; ck_work_kind := k; ck_item_id := x; ck_recorded_at := t |}]
     else []);
  ce_rank : workflow_stage_rank (current_stage j') =
    if b then Z.max (workflow_stage_rank (current_stage j)) (workflow_stage_rank s)
    else workflow_stage_rank (current_stage j);
  ce_stage : current_stage j' = current_stage j ∨ current_stage j' = s;
}.

Lemma checkpointed_others k x j k' :
  k' ≠ k → inventory_of (work (checkpointed k x j)) k' = inventory_of (work j) k'.
Proof. intros Hk. cbn. rewrite inventory_of_set. by rewrite decide_False by done. Qed.

Lemma record_checkpoint_effect s k x t j j' b :
  record_checkpoint s k x t j = (j', Ok b) → checkpoint_effect s k x t j j' b.
Proof.
  intros (_&_&_&Heq)%record_checkpoint_inv. pose proof (checkpointed_others k x j).
  case_decide as Hin; injection Heq as -> ->.
  - constructor; try done; cbn; rewrite ?inventory_of_set_eq; try done.
    + by rewrite bool_decide_eq_false_2 by tauto.
    + by rewrite app_nil_r.
    + by left.
  - unfold advance_stage. cbn.
    destruct (Z.ltb_spec (workflow_stage_rank (current_stage j)) (workflow_stage_rank s));
      constructor; cbn; rewrite ?inventory_of_set_eq; try done; try lia; auto.
    all: by rewrite bool_decide_eq_true_2 by done.
Qed.

(** C16. [record_checkpoint] on every branch: a failing call leaves the journal
    alone; a successful one moves the item from pending to completed in its own
    inventory, leaves the other inventories, the audit state and the generation
    alone, appends one checkpoint exactly when the item was not completed
    before, and moves the stage forward to the checkpoint's, never back; and it
    succeeds exactly on a non-terminal stage, an item and a time that are not
    blank. *)
Theorem record_checkpoint_spec s k x t j j' (r : journal_result bool) :
  record_checkpoint s k x t j = (j', r) →
  match r with
  | Err _ => j' = j ∧ (is_terminal s = true ∨ blank x = true ∨ blank t = true)
  | Ok b => checkpoint_effect s k x t j j' b ∧ is_terminal s = false ∧ filled x ∧ filled t
  end.
Proof.
  intros H. pose proof (record_checkpoint_inv _ _ _ _ _ _ _ H) as Hinv. destruct r as [b|e].
  - split; [by apply record_checkpoint_effect|]. tauto.
  - split; [done|]. destruct (is_terminal s) eqn:Hs; [auto|]. destruct (blank x) eqn:Hx; [auto|].
    destruct (blank t) eqn:Ht; [auto|]. rewrite record_checkpoint_eq in H by done.
    case_decide; discriminate.
Qed.

Lemma set_inventory_id k w : set_inventory k (inventory_of w k) w = w.
Proof. by destruct k, w. Qed.

Lemma set_work_id j : set_work (work j) j = j.
Proof. by destruct j. Qed.

Lemma checkpointed_idemp k x j :
  x ∈ completed (inventory_of (work j) k) → x ∉ pending (inventory_of (work j) k) →
  checkpointed k x j = j.
Proof.
  intros Hc Hp. unfold checkpointed.
  assert ((inventory_checkpoint (inventory_of (work j) k) x).1 = inventory_of (work j) k) as ->.
  { destruct (inventory_of (work j) k) as [p c]; cbn in *. f_equal; set_solver. }
  by rewrite set_inventory_id, set_work_id.
Qed.

(** Checkpointing completed work is idempotent: after a successful call,
    any further checkpoint of the same item in the same inventory reports
    [false] and changes nothing, whatever stage and time it carries. *)
Theorem record_checkpoint_idempotent s k x t j j' b s' t' :
  record_checkpoint s k x t j = (j', Ok b) →
  is_terminal s' = false → filled t' →
  record_checkpoint s' k x t' j' = (j', Ok false).
Proof.
  intros H Hs' Ht'. pose proof (record_checkpoint_inv _ _ _ _ _ _ _ H) as (_&Hx&_&_).
  apply record_checkpoint_effect in H as [_ Hp Hc _ _ _ _ _ _ _].
  rewrite record_checkpoint_eq by done. rewrite decide_True by set_solver.
  rewrite checkpointed_idemp; [done|set_solver..].
Qed.

Lemma terminal_ok_nonterminal s s' o c :
  terminal_ok s o c → is_terminal s = false → is_terminal s' = false → terminal_ok s' o c.
Proof. destruct o as [o|]; cbn; naive_solver congruence. Qed.

(** A successful checkpoint of a valid journal gives a valid journal
    exactly when the stage it moved to respects the stage barriers. *)
Theorem record_checkpoint_valid s k x t j j' b :
  valid j → record_checkpoint s k x t j = (j', Ok b) →
  (valid j' ↔ stage_ordered (current_stage j') (work j') (audit j')).
Proof.
  intros Hv H. split; [apply v_ordered|]. intros Hord. destruct Hv as [Hst Hr Hh Hk Ht _].
  pose proof (structural_record_checkpoint s k x t j Hst) as Hst'. rewrite H in Hst'. cbn in Hst'.
  pose proof (record_checkpoint_inv _ _ _ _ _ _ _ H) as (Hs&_).
  apply record_checkpoint_effect in H as [_ _ _ _ Ha Hg Ho Hck Hrank Hstage].
  constructor; [done|by rewrite Ha..| | |done].
  - rewrite Hck. apply Forall_app_2; [eapply Forall_impl; [exact Hk|]; cbn; intros; destruct b; lia|].
    destruct b; [|constructor]. apply Forall_singleton. cbn. lia.
  - rewrite Hg, Ho. destruct Hstage as [->|Heq]; [done|]. rewrite Heq in *.
    destruct (is_terminal (current_stage j)) eqn:Hj; [|by eapply terminal_ok_nonterminal].
    rewrite (rank_terminal _ Hj) in Hrank. pose proof (rank_nonterminal s Hs). destruct b; lia.
Qed.

(** ** Terminal outcomes *)

(** Recording a non-recoverable failure always closes a valid journal: the
    call succeeds on non-blank arguments, the journal is valid again at stage
    [TerminalFailure], and it keeps its generation, work and audit state. *)
Theorem record_terminal_failure_valid t d j :
  valid j → filled t → filled d →
  ∃ j', record_terminal_failure t d j = (j', Ok ()) ∧ valid j'
        ∧ current_stage j' = TerminalFailure
        ∧ generation_id (generation j') = generation_id (generation j)
        ∧ journal_id (generation j') = journal_id (generation j)
        ∧ completed_at (generation j') = Some t
        ∧ work j' = work j ∧ audit j' = audit j ∧ checkpoints j' = checkpoints j.
Proof.
  intros [Hst Hr Hh Hk Ht _] Hft Hfd.
  pose proof (structural_step j _ Hst (step_failure _ t d)) as Hst'. revert Hst'.
  open_op. rewrite (owned_filled _ t Hft), (owned_filled _ d Hfd). cbn. intros Hst'.
  eexists; split; [done|]. split; [|done]. constructor; cbn; try done.
  - eapply Forall_impl; [exact Hk|]. intros c _. apply rank_le_6.
  - constructor; try done; [by intros []|naive_solver].
Qed.

(** Recording success on a valid journal gives a valid journal exactly
    when the work set is frozen, no mailbox, chunking or embedding work is
    pending, and both the published root and the root history entry are
    recorded. *)
Theorem record_terminal_success_valid t j :
  valid j → filled t →
  ∃ j', record_terminal_success t j = (j', Ok ())
        ∧ (valid j' ↔
             work_set_frozen (audit j) = true
             ∧ pending (mailbox_admission (work j)) = ∅ ∧ pending (chunking (work j)) = ∅
             ∧ pending (embedding (work j)) = ∅
             ∧ is_Some (published_root_id (audit j)) ∧ is_Some (root_history_entry_id (audit j))).
Proof.
  intros [Hst Hr Hh Hk Ht _] Hft.
  pose proof (structural_step j _ Hst (step_success _ t)) as Hst'. revert Hst'.
  open_op. rewrite (owned_filled _ t Hft). cbn. intros Hst'. eexists; split; [done|]. split.
  - intros [_ _ _ _ _ [Hp Hf Hroot Hhist]]. cbn in *.
    split_and!; auto; [by apply (Hp KMailboxAdmission)|by apply (Hp KChunking)|by apply (Hp KEmbedding)].
  - intros (?&?&?&?&?&?). constructor; cbn; try done.
    + eapply Forall_impl; [exact Hk|]. intros c _. apply rank_le_6.
    + constructor; try done. by intros [].
Qed.

(** ** Root publication *)

(** [record_published_root] is not atomic: when the root id is accepted
    and the time is blank, the call fails but has already stored the root id,
    and a valid journal without a recorded root is no longer valid. *)
Theorem record_published_root_partial root t j :
  valid j → published_root_recorded_at (audit j) = None → filled root → blank t = true →
  ∃ j', record_published_root root t j = (j', Err (EmptyField "audit.published_root_recorded_at"))
        ∧ published_root_id (audit j') = Some root ∧ ¬ valid j' ∧ validate j' ≠ Ok ().
Proof.
  intros Hv Hn Hroot Ht. open_op. rewrite (owned_filled _ root Hroot). cbn.
  rewrite (owned_blank _ t Ht). cbn. eexists; split; [done|]. split; [done|].
  match goal with |- ¬ valid ?j' ∧ _ => assert (¬ valid j') as Hnv end.
  { intros [_ [Hp _] _ _ _ _]. cbn in Hp. rewrite Hn in Hp. by destruct Hp. }
  by rewrite validate_valid.
Qed.

(** ** Queueing *)

(** Queueing non-blank work on a valid journal whose stage has not passed
    that kind of work succeeds and gives a valid journal, in which the item is
    pending unless it was already completed. *)
Theorem queue_work_valid k x j :
  valid j → filled x → work_kind_pending_after_stage (current_stage j) k = false →
  ∃ j', queue_work k x j = (j', Ok ()) ∧ valid j'
        ∧ (x ∈ pending (inventory_of (work j') k) ↔ x ∉ completed (inventory_of (work j) k))
        ∧ completed (inventory_of (work j') k) = completed (inventory_of (work j) k).
Proof.
  intros [Hst Hr Hh Hk Ht [Hp Hf Hroot Hhist]] Hx Hstage.
  pose proof (structural_queue_work k x j Hst) as Hst'. revert Hst'. open_op.
  rewrite (owned_filled _ x Hx). cbn. intros Hst'. eexists; split; [done|]. split_and!.
  - constructor; try done. constructor; try done. cbn. intros k' Hk'. rewrite inventory_of_set.
    case_decide as Heq; [subst; congruence|by apply Hp].
  - cbn. rewrite inventory_of_set_eq. destruct (st_inventories _ Hst k) as [Hinv _].
    unfold inventory_queue. case_decide; cbn; [|set_solver].
    split; [intros Hin; by destruct (Hinv x Hin)|done].
  - cbn. rewrite inventory_of_set_eq. unfold inventory_queue. by case_decide.
Qed.

(** ** Creation *)

Definition creatable_stage (s : WorkflowStage) : bool :=
  match s with
  | SourceAcquisition | StageMailboxAdmission | ChunkDerivation | StageEmbedding => true
  | _ => false
  end.

(** [new] builds this journal. *)
Definition initial_journal (i : WorkflowJournalInit) : WorkflowJournal :=
  {| schema_version := WORKFLOW_JOURNAL_SCHEMA_VERSION; authority := AuthWorkflow;
     current_stage := init_current_stage i; generation := init_generation i;
     source_snapshot := init_source_snapshot i;
     effective_indexing_configuration := init_effective_indexing_configuration i;
     work := WorkInventories_default; audit := AuditState_default; checkpoints := [];
     subordinate_journals := []; terminal_outcome := None |}.

Lemma initial_valid i :
  valid (initial_journal i) ↔
    generation_ok (init_generation i) ∧ snapshot_ok (init_source_snapshot i)
    ∧ configuration_ok (init_effective_indexing_configuration i)
    ∧ completed_at (init_generation i) = None ∧ creatable_stage (init_current_stage i) = true.
Proof.
  split.
  - intros [[_ _ Hg Hs Hc _ _ _ _ _ _] _ _ _ [Hnt Hn] [_ Hf _ _]]. cbn in *. split_and!; try done.
    destruct (init_current_stage i); try done; by discriminate Hf.
  - intros (Hg&Hs&Hc&Hn&Hst). constructor; cbn.
    + constructor; cbn; try done; [intros []; by constructor; cbn|constructor..].
    + by split; intros [].
    + by split; intros [].
    + constructor.
    + split; [by destruct (init_current_stage i)|done].
    + constructor; cbn; [by intros []|by destruct (init_current_stage i)| |].
      all: destruct (init_current_stage i); naive_solver.
Qed.

(** [new] succeeds exactly on filled identity fields, a generation that is
    not completed and one of the four stages before the publication barrier;
    what it returns is the journal with no work, no audit state, no checkpoint,
    no subordinate journal and no outcome, and it is valid. *)
Theorem new_spec i j :
  new i = Ok j ↔
    j = initial_journal i ∧ valid j
    ∧ completed_at (init_generation i) = None ∧ creatable_stage (init_current_stage i) = true.
Proof.
  unfold new. cbv zeta. fold (initial_journal i). result_ok.
  rewrite validate_generation_ok, validate_snapshot_ok, validate_configuration_ok, validate_valid.
  split.
  - intros (?&?&?&Hv&[= <-]). pose proof Hv as (?&?&?&?&?)%initial_valid. done.
  - intros (->&Hv&_). by pose proof Hv as (?&?&?&?&?)%initial_valid.
Qed.

(** ** Subordinate journals *)

Lemma update_subordinate_spec i l g m subs subs' :
  NoDup (subordinate_key <$> subs) → update_subordinate i l g m subs = Some subs' →
  ∀ s, s ∈ subs' ↔
    s = {| sub_authority := AuthSubordinate; implementation := i; location := l;
           last_observed_generation_id := g; metadata := m |}
    ∨ (s ∈ subs ∧ subordinate_key s ≠ (i, l)).
Proof.
  revert subs'. induction subs as [|s0 subs IH]; intros subs'; [done|].
  cbn [fmap list_fmap update_subordinate]. intros [Hs0 Hnd]%NoDup_cons.
  destruct (bool_decide (implementation s0 = i) && bool_decide (location s0 = l)) eqn:Hb.
  - apply andb_true_iff in Hb as [<-%bool_decide_eq_true <-%bool_decide_eq_true].
    intros [= <-] s. rewrite !elem_of_cons. split.
    + intros [->|Hs]; [by left|right]. split; [by right|]. intros Heq.
      apply Hs0, list_elem_of_fmap. by exists s.
    + intros [->|[[->|Hs] Hne]]; [by left|done|by right].
  - intros (k&Hk&->)%fmap_Some s. rewrite !elem_of_cons, (IH k Hnd Hk s).
    assert (subordinate_key s0 ≠ (i, l)).
    { intros [= <- <-]. rewrite !bool_decide_eq_true_2 in Hb by done. done. }
    naive_solver.
Qed.

(** Recording a subordinate journal replaces the entry with the same
    implementation and location or adds one: afterwards exactly one entry has
    that key, it is marked subordinate and carries the new generation and
    metadata, and every other entry is untouched. *)
Theorem upsert_subordinate_spec i l g m j j' :
  structural j → upsert_subordinate_journal i l g m j = (j', Ok ()) →
  (∀ s, s ∈ subordinate_journals j' ↔
     s = {| sub_authority := AuthSubordinate; implementation := i; location := l;
            last_observed_generation_id := g; metadata := m |}
     ∨ (s ∈ subordinate_journals j ∧ subordinate_key s ≠ (i, l)))
  ∧ NoDup (subordinate_key <$> subordinate_journals j')
  ∧ Forall (λ s, sub_authority s = AuthSubordinate) (subordinate_journals j').
Proof.
  intros Hj H. pose proof (structural_upsert i l g m j Hj) as Hj'. rewrite H in Hj'.
  destruct Hj' as [_ _ _ _ _ _ Hsub Hkeys _ _ _]. split_and!; [|done|].
  2: { eapply Forall_impl; [exact Hsub|]. by intros s []. }
  open_op. case_blank i; cbn in *; [done|]. case_blank l; cbn in *; [done|].
  destruct (require_optional_non_empty _ g) as [u|]; cbn in *; [|done]. destruct Hj.
  destruct (update_subordinate _ _ _ _ _) as [subs|] eqn:Hu; injection H as <-; cbn.
  - by apply update_subordinate_spec.
  - intros s. rewrite elem_of_app, list_elem_of_singleton.
    apply update_subordinate_None in Hu. split; [|naive_solver].
    intros [Hs| ->]; [|by left]. right. split; [done|]. intros Heq.
    apply Hu, list_elem_of_fmap. by exists s.
Qed.

(** ** A sample journal, and the theorems at it *)

Definition sample_generation : GenerationState :=
  {| generation_id := "gen-1"; journal_id := "journal-1"; started_at := "2026-01-01";
     completed_at := None |}.

Definition sample_snapshot : SourceSnapshotState :=
  {| source_snapshot_id := "snap-1"; source_uri := "rsync://ietf/mail";
     acquisition_started_at := None; acquisition_completed_at := None;
     corpus_manifest_identity := None; additional_provenance := ∅ |}.

Definition sample_configuration : EffectiveIndexingConfigurationState :=
  {| effective_indexing_configuration_id := "cfg-1"; chunking_policy_id := "sentences";
     embedding_provider_or_model_id := "minilm"; delegated_published_root_generation_id := "v3";
     additional_root_affecting_inputs := ∅ |}.

Definition sample_init : WorkflowJournalInit :=
  {| init_current_stage := StageMailboxAdmission; init_generation := sample_generation;
     init_source_snapshot := sample_snapshot;
     init_effective_indexing_configuration := sample_configuration |}.

(** A journal in the embedding stage, one chunk pending, its work set frozen
    and its root and history recorded. *)
Definition sample_journal : WorkflowJournal :=
  set_audit
    {| work_set_id := Some "ws-1"; work_set_frozen := true; published_root_id := Some "root";
       published_root_recorded_at := Some "2026-01-02"; root_history_entry_id := Some "entry";
       root_history_recorded_at := Some "2026-01-02"; root_change_explanation := None |}
    (initial_journal sample_init).

Lemma sample_valid : valid sample_journal.
Proof. apply validate_valid. vm_compute. reflexivity. Qed.

Lemma sample_initial_valid : valid (initial_journal sample_init).
Proof. apply validate_valid. vm_compute. reflexivity. Qed.

Example reachable_structural_witness : structural (record_published_root "root" "" (initial_journal sample_init)).1.
Proof.
  apply reachable_structural. eapply reachable_step; [|apply step_root].
  apply (reachable_new sample_init). vm_compute. reflexivity.
Defined.

Example record_checkpoint_spec_witness :
  checkpoint_effect ChunkDerivation KChunking "chunk-1" "2026-01-03" sample_journal
    (record_checkpoint ChunkDerivation KChunking "chunk-1" "2026-01-03" sample_journal).1 true.
Proof.
  apply (record_checkpoint_spec ChunkDerivation KChunking "chunk-1" "2026-01-03" sample_journal _ (Ok true)).
  vm_compute. reflexivity.
Defined.

Example record_checkpoint_idempotent_witness :
  let j' := (record_checkpoint ChunkDerivation KChunking "chunk-1" "2026-01-03" sample_journal).1 in
  record_checkpoint StageEmbedding KChunking "chunk-1" "later" j' = (j', Ok false).
Proof.
  apply (record_checkpoint_idempotent ChunkDerivation KChunking "chunk-1" "2026-01-03" sample_journal _ true);
    vm_compute; reflexivity.
Defined.

Example record_checkpoint_valid_witness :
  valid (record_checkpoint ChunkDerivation KChunking "chunk-1" "2026-01-03" sample_journal).1.
Proof.
  apply (record_checkpoint_valid ChunkDerivation KChunking "chunk-1" "2026-01-03" sample_journal _ true).
  - apply sample_valid.
  - vm_compute. reflexivity.
  - apply validate_stage_ordered_ok with (u := ()). vm_compute. reflexivity.
Defined.

Example record_terminal_failure_valid_witness :
  ∃ j', record_terminal_failure "2026-01-04" "disk full" sample_journal = (j', Ok ()) ∧ valid j'.
Proof.
  destruct (record_terminal_failure_valid "2026-01-04" "disk full" sample_journal sample_valid)
    as (j'&H&Hv&_); [vm_compute; reflexivity..|]. exists j'. by split.
Defined.

Example record_terminal_success_valid_witness :
  ∃ j', record_terminal_success "2026-01-04" sample_journal = (j', Ok ()) ∧ valid j'.
Proof.
  destruct (record_terminal_success_valid "2026-01-04" sample_journal sample_valid) as (j'&H&Hv);
    [vm_compute; reflexivity|].
  exists j'. split; [exact H|]. apply Hv.
  split_and!; try (vm_compute; reflexivity); by eexists.
Defined.

Example record_published_root_partial_witness :
  ∃ j', record_published_root "root" " " (initial_journal sample_init)
        = (j', Err (EmptyField "audit.published_root_recorded_at")) ∧ ¬ valid j'.
Proof.
  destruct (record_published_root_partial "root" " " (initial_journal sample_init)
    sample_initial_valid) as (j'&H&_&Hn&_); [vm_compute; reflexivity..|]. exists j'. by split.
Defined.

Example queue_work_valid_witness :
  ∃ j', queue_work KMailboxAdmission "mailbox:a" sample_journal = (j', Ok ()) ∧ valid j'.
Proof.
  destruct (queue_work_valid KMailboxAdmission "mailbox:a" sample_journal sample_valid)
    as (j'&H&Hv&_); [vm_compute; reflexivity..|]. exists j'. by split.
Defined.

Example upsert_subordinate_spec_witness :
  NoDup (subordinate_key <$> subordinate_journals
    (upsert_subordinate_journal "replay" "/tmp/j" (Some "g") ∅ sample_journal).1).
Proof.
  apply (upsert_subordinate_spec "replay" "/tmp/j" (Some "g") ∅ sample_journal);
    [apply sample_valid|vm_compute; reflexivity].
Defined.
