(* ===== verification/Hex.v ===== *)
(** * Block ids and their hexadecimal form

    A [BlockHash] is 32 bytes. The indexer, the content resolver and the
    snapshot code each carry a copy of the same parser
    ([tree_tools.rs], [resolver.rs], [snapshot.rs]): the shared body is
    [decode_hash], and each copy wraps it with its own error. [hex_encode] is
    the printer of [snapshot.rs]. *)

From Stdlib Require Import ZArith Lia Ascii.
From stdpp Require Import base gmap sets strings sorting option list.
From S2P Require Import Prelude.
#[local] Open Scope Z_scope.

(** [BlockHash]: [into_bytes] and [from_bytes] are the identity here, and
    [hash_ok] is what the type [[u8; 32]] guarantees. *)
Abbreviation block_hash := (list Z).
Definition HASH_LEN : Z := 32.
Definition hash_ok (h : block_hash) : Prop := length h = 32%nat ∧ Forall is_byte h.
#[export] Instance hash_ok_dec h : Decision (hash_ok h).
Proof. unfold hash_ok. apply _. Defined.

(** [b'0'], [b'a'], ... *)
Definition decode_hex_nibble (byte : Z) : option Z :=
  if (48 <=? byte) && (byte <=? 57) then Some (byte - 48)
  else if (97 <=? byte) && (byte <=? 102) then Some (byte - 97 + 10)
  else if (65 <=? byte) && (byte <=? 70) then Some (byte - 65 + 10)
  else None.

(** The loop over [chunks_exact(2)]: an odd last byte is left out. *)
Fixpoint decode_hex_pairs (l : bytes) : option bytes :=
  match l with
  | hi :: lo :: l' =>
      high ← decode_hex_nibble hi;
      low ← decode_hex_nibble lo;
      rest ← decode_hex_pairs l';
      Some (Z.lor (Z.shiftl high 4) low :: rest)
  | _ => Some []
  end.

Definition decode_hash (value : string) : option block_hash :=
  if negb (str_len value =? HASH_LEN * 2) then None
  else decode_hex_pairs (as_bytes value).

(** [hex_encode]: [format!("{byte:02x}")] for each byte. *)
Definition hex_digit (n : Z) : Z := if n <? 10 then 48 + n else 87 + n.
Definition hex_encode_bytes (l : bytes) : bytes :=
  l ≫= (λ b, [hex_digit (b / 16); hex_digit (b mod 16)]).
Definition hex_encode (l : bytes) : string := of_bytes (hex_encode_bytes l).

(** [BlockHash::to_string], of the block crate: the lower-case form that
    [hex_encode] prints. *)
Class HashDisplay := hash_to_string : block_hash → string.
Class HashDisplayLaws `{HashDisplay} :=
  hash_to_string_hex h : hash_ok h → hash_to_string h = hex_encode h.

(** ** Lemmas *)

(** ASCII lower case of one byte. *)
Definition ascii_lower (b : Z) : Z := if (65 <=? b) && (b <=? 90) then b + 32 else b.

Lemma nibble_digit n : 0 ≤ n < 16 → decode_hex_nibble (hex_digit n) = Some n.
Proof.
  intros ?. unfold hex_digit, decode_hex_nibble.
  destruct (n <? 10) eqn:?; repeat case_match; try lia; f_equal; lia.
Qed.

Lemma digit_nibble b n :
  decode_hex_nibble b = Some n → 0 ≤ n < 16 ∧ hex_digit n = ascii_lower b ∧ is_byte b.
Proof.
  unfold decode_hex_nibble, hex_digit, ascii_lower, is_byte.
  repeat case_match; intros; simplify_eq; lia.
Qed.

Lemma hex_digit_byte n : 0 ≤ n < 16 → is_byte (hex_digit n).
Proof. intros ?. unfold hex_digit, is_byte. case_match; lia. Qed.

Lemma nibbles_byte b : is_byte b → 0 ≤ b / 16 < 16 ∧ 0 ≤ b mod 16 < 16.
Proof. unfold is_byte. intros. Z.to_euclidean_division_equations. lia. Qed.

Lemma lor_nibbles h l : 0 ≤ h < 16 → 0 ≤ l < 16 → Z.lor (Z.shiftl h 4) l = h * 16 + l.
Proof.
  intros Hh Hl.
  assert (Z.land (Z.shiftl h 4) l = 0) as H0.
  { apply Z.bits_inj_0. intros n. rewrite Z.land_spec.
    destruct (decide (n < 4)); [by rewrite Z.shiftl_spec_low by lia|].
    apply andb_false_intro2. destruct (decide (l = 0)) as [->|]; [apply Z.bits_0|].
    apply Z.bits_above_log2; [lia|].
    apply Z.lt_le_trans with 4; [|lia]. apply Z.log2_lt_pow2; lia. }
  rewrite <-Z.lxor_lor, <-Z.add_nocarry_lxor by done. by rewrite Z.shiftl_mul_pow2 by lia.
Qed.

Lemma hex_encode_bytes_byte l : Forall is_byte l → Forall is_byte (hex_encode_bytes l).
Proof.
  unfold hex_encode_bytes.
  induction 1 as [|b l Hb Hl IH]; cbn; [done|].
  pose proof (nibbles_byte b Hb) as [??].
  repeat constructor; try apply hex_digit_byte; done.
Qed.

Lemma length_hex_encode_bytes l : length (hex_encode_bytes l) = (2 * length l)%nat.
Proof. unfold hex_encode_bytes. induction l as [|b l IH]; cbn; [done|]. rewrite IH. lia. Qed.

Lemma decode_encode_pairs l : Forall is_byte l → decode_hex_pairs (hex_encode_bytes l) = Some l.
Proof.
  unfold hex_encode_bytes. induction 1 as [|b l Hb Hl IH]; cbn; [done|].
  pose proof (nibbles_byte b Hb) as [??].
  rewrite !nibble_digit by done. cbn in *. rewrite IH. cbn.
  rewrite lor_nibbles by done. do 2 f_equal. unfold is_byte in Hb.
  pose proof (Z.div_mod b 16). lia.
Qed.

Lemma encode_decode_pairs n l h : length l = (2 * n)%nat →
  decode_hex_pairs l = Some h →
  length h = n ∧ Forall is_byte h ∧ hex_encode_bytes h = ascii_lower <$> l.
Proof.
  revert l h. induction n as [|n IH]; intros l h Hl.
  { destruct l; [cbn; intros [= <-]; by repeat split|done]. }
  destruct l as [|a [|b l]]; try (cbn in Hl; lia). cbn [decode_hex_pairs].
  intros (hi&Hhi&Hk)%bind_Some. apply bind_Some in Hk as (lo&Hlo&Hk).
  apply bind_Some in Hk as (r&Hr&[= <-]).
  apply digit_nibble in Hhi as (?&Ha&?). apply digit_nibble in Hlo as (?&Hb&?).
  edestruct IH as (?&?&He); [|exact Hr|]; [cbn in Hl; lia|].
  rewrite lor_nibbles by done. unfold hex_encode_bytes in *. cbn.
  assert ((hi * 16 + lo) / 16 = hi) as -> by (Z.to_euclidean_division_equations; lia).
  assert ((hi * 16 + lo) mod 16 = lo) as -> by (Z.to_euclidean_division_equations; lia).
  repeat split; [lia| |by rewrite Ha, Hb, He].
  constructor; [unfold is_byte; lia|done].
Qed.

Lemma digit_of_lower b n : 0 ≤ n < 16 → hex_digit n = ascii_lower b → is_Some (decode_hex_nibble b).
Proof.
  unfold hex_digit, ascii_lower, decode_hex_nibble. intros.
  repeat case_match; try lia; eauto.
Qed.

Lemma decode_pairs_some r l : Forall is_byte r →
  hex_encode_bytes r = ascii_lower <$> l → is_Some (decode_hex_pairs l).
Proof.
  unfold hex_encode_bytes. intros Hr. revert l.
  induction Hr as [|b r Hb Hr IH]; intros [|x [|y l]]; cbn; try done.
  intros [= Hx Hy Hl]. pose proof (nibbles_byte b Hb) as [??].
  destruct (digit_of_lower x (b / 16)) as [? ->]; [done..|].
  destruct (digit_of_lower y (b mod 16)) as [? ->]; [done..|].
  destruct (IH l Hl) as [k Hk]. cbn. rewrite Hk. eexists. done.
Qed.

(** A string denotes a block id exactly when its lower-case form is the
    64-digit encoding of that id. *)
Lemma decode_hash_spec s h :
  decode_hash s = Some h ↔ hash_ok h ∧ hex_encode_bytes h = ascii_lower <$> as_bytes s.
Proof.
  unfold decode_hash, str_len, len, hash_ok. split.
  - destruct (_ =? _) eqn:Hlen; [|done]. apply Z.eqb_eq in Hlen. cbn. intros Hd.
    destruct (encode_decode_pairs 32 (as_bytes s) h) as (?&?&?);
      [unfold HASH_LEN in Hlen; lia|done|done].
  - intros ([Hl Hb]&He).
    assert (length (as_bytes s) = 64%nat) as Hlen.
    { pose proof (f_equal length He) as Hq.
      rewrite length_hex_encode_bytes, Hl, length_fmap in Hq. lia. }
    rewrite Hlen. cbn -[decode_hex_pairs].
    destruct (decode_pairs_some h (as_bytes s) Hb He) as [r Hr]. rewrite Hr. f_equal.
    destruct (encode_decode_pairs 32 (as_bytes s) r) as (?&?&He'); [lia|done|].
    rewrite <-He in He'. pose proof (decode_encode_pairs r) as H1.
    rewrite He', decode_encode_pairs in H1 by done. specialize (H1 ltac:(done)). by simplify_eq.
Qed.

Lemma decode_hash_ok s h : decode_hash s = Some h → hash_ok h.
Proof. intros Hs. by apply decode_hash_spec in Hs as [? _]. Qed.

Lemma decode_hex_encode h : hash_ok h → decode_hash (hex_encode h) = Some h.
Proof.
  intros [Hl Hb]. unfold decode_hash, str_len, len, hex_encode.
  rewrite as_bytes_of_bytes by (by apply hex_encode_bytes_byte).
  rewrite length_hex_encode_bytes, Hl. apply decode_encode_pairs, Hb.
Qed.

Lemma hex_encode_inj h k : hash_ok h → hash_ok k → hex_encode h = hex_encode k → h = k.
Proof.
  intros Hh Hk Heq. apply decode_hex_encode in Hh, Hk. rewrite Heq in Hh. congruence.
Qed.

Section display.
Context `{HashDisplayLaws}.
Lemma decode_hash_to_string h : hash_ok h → decode_hash (hash_to_string h) = Some h.
Proof. intros ?. by rewrite hash_to_string_hex, decode_hex_encode. Qed.
Lemma hash_to_string_inj h k : hash_ok h → hash_ok k → hash_to_string h = hash_to_string k → h = k.
Proof. intros Hh Hk. rewrite !hash_to_string_hex by done. by apply hex_encode_inj. Qed.
Lemma str_len_hex h : hash_ok h → str_len (hash_to_string h) = 64.
Proof.
  intros Hh. rewrite hash_to_string_hex by done. destruct Hh as [Hl Hb].
  unfold str_len, hex_encode, len. rewrite as_bytes_of_bytes by (by apply hex_encode_bytes_byte).
  rewrite length_hex_encode_bytes, Hl. done.
Qed.
End display.
