(* ===== verification/Blocks.v ===== *)
(** * Blocks, CBOR values and block stores

    The data of the block, store, hash and CBOR crates that the project reads,
    as far as it matches on it, and the crates' operations as type classes: an
    operation is a parameter, a law class states the documented behaviour that
    the theorems use. The project's own readers of custom blocks
    ([custom_blocks.rs], [resolver.rs], [snapshot.rs], [tree_tools.rs]) are
    definitions. *)

From Stdlib Require Import ZArith Lia Ascii.
From stdpp Require Import base gmap sets strings sorting option list.
From S2P Require Import Prelude Hex.
#[local] Open Scope Z_scope.

(** [ciborium::Value]. The enum is non-exhaustive: [VOther] stands for the
    constructors the project does not name. A float is its bit pattern. *)
Inductive value :=
| VInteger (z : Z)
| VBytes (b : bytes)
| VFloat (bits : Z)
| VText (s : string)
| VBool (b : bool)
| VNull
| VTag (tag : Z) (v : value)
| VArray (l : list value)
| VMap (l : list (value * value))
| VOther (n : Z).

(** Induction with the nested lists opened. *)
Section value_ind.
Context (P : value → Prop).
Context (HI : ∀ z, P (VInteger z)) (HB : ∀ b, P (VBytes b)) (HF : ∀ b, P (VFloat b)).
Context (HT : ∀ s, P (VText s)) (Hb : ∀ b, P (VBool b)) (HN : P VNull).
Context (HG : ∀ t v, P v → P (VTag t v)) (HA : ∀ l, Forall P l → P (VArray l)).
Context (HM : ∀ l, Forall (λ kv, P kv.1 ∧ P kv.2) l → P (VMap l)) (HO : ∀ n, P (VOther n)).
Fixpoint value_nested_ind (v : value) : P v :=
  match v with
  | VInteger z => HI z | VBytes b => HB b | VFloat b => HF b | VText s => HT s
  | VBool b => Hb b | VNull => HN | VOther n => HO n
  | VTag t v => HG t v (value_nested_ind v)
  | VArray l => HA l ((fix go l : Forall P l := match l with
      | [] => Forall_nil_2 _
      | v :: l => Forall_cons_2 _ _ _ (value_nested_ind v) (go l) end) l)
  | VMap l => HM l ((fix go l : Forall (λ kv, P kv.1 ∧ P kv.2) l := match l with
      | [] => Forall_nil_2 _
      | kv :: l => Forall_cons_2 _ _ _
          (conj (value_nested_ind kv.1) (value_nested_ind kv.2)) (go l) end) l)
  end.
End value_ind.

(** ** CBOR (RFC 8949)

    [head_size n]: the length of a head whose argument is [n]. [plain] values
    are those with one definite-length form, [cbor_size] is its length. *)
Definition head_size (n : Z) : Z :=
  if n <=? 23 then 1 else if n <=? 255 then 2 else if n <=? 65535 then 3
  else if n <=? 4294967295 then 5 else 9.

Fixpoint cbor_size (v : value) : Z :=
  match v with
  | VInteger z => head_size (if 0 <=? z then z else - 1 - z)
  | VBytes b => head_size (len b) + len b
  | VText s => head_size (str_len s) + str_len s
  | VArray l => head_size (len l) + foldr (λ v n, cbor_size v + n) 0 l
  | VMap l => head_size (len l) + foldr (λ kv n, cbor_size kv.1 + cbor_size kv.2 + n) 0 l
  | VTag t v => head_size t + cbor_size v
  | _ => 1
  end.

Fixpoint plain (v : value) : bool :=
  match v with
  | VInteger z => (- 2 ^ 64 <=? z) && (z <? 2 ^ 64)
  | VBytes b => forallb (λ x, bool_decide (is_byte x)) b && (len b <? 2 ^ 64)
  | VText s => str_len s <? 2 ^ 64
  | VBool _ | VNull => true
  | VTag t v => (0 <=? t) && (t <? 2 ^ 64) && plain v
  | VArray l => (len l <? 2 ^ 64) && forallb plain l
  | VMap l => (len l <? 2 ^ 64) && forallb (λ kv, plain kv.1 && plain kv.2) l
  | VFloat _ | VOther _ => false
  end.

(** [ciborium::ser::into_writer] to a byte vector and
    [ciborium::de::from_reader] from one; a failure is its text. *)
Class Ciborium := {
  into_writer : value → result string bytes;
  from_reader : bytes → result string value
}.
Class CiboriumLaws `{Ciborium} := {
  into_writer_plain v : plain v = true → ∃ b, into_writer v = Ok b;
  into_writer_size v b : plain v = true → into_writer v = Ok b → len b = cbor_size v;
  into_writer_byte v b : plain v = true → into_writer v = Ok b → Forall is_byte b;
  from_into v b : plain v = true → into_writer v = Ok b → from_reader b = Ok v
}.

(** [Sha256::digest]. *)
Class Sha256 := sha256_digest : bytes → block_hash.
Class Sha256Laws `{Sha256} := sha256_ok b : hash_ok (sha256_digest b).

(** [hash_bytes] of [resolver.rs] and [runtime.rs]. *)
Definition hash_bytes `{Sha256} (b : bytes) : block_hash := sha256_digest b.

(** ** Block bodies *)
Record EmbeddingSpec := { dims : Z; encoding : string }.
Record Content := { media_type : string; body : bytes }.
Record LeafEntry := { le_metadata : list (value * value); le_embedding : bytes; le_content : Content }.
Record BranchEntry := { be_child : block_hash; be_embedding : bytes }.
Record BranchBlock := { bb_level : Z; bb_type_name : string; bb_spec : EmbeddingSpec; bb_entries : list BranchEntry }.
Record LeafBlock := { lb_level : Z; lb_type_name : string; lb_spec : EmbeddingSpec; lb_entries : list LeafEntry }.
Record CustomBlock := { cb_type_name : string; cb_content : value }.

(** [lexongraph_block::Block] of version 1 and [v2::TypedBlock]. *)
Inductive Block := BBranch (b : BranchBlock) | BLeaf (l : LeafBlock).
Inductive TypedBlock := Branch (b : BranchBlock) | Leaf (l : LeafBlock) | Custom (c : CustomBlock).

(** [DecodedBlock], with the outcome of [v2::into_typed_block] (an error is its
    text), and [VersionedBlock], of which the project builds custom blocks. *)
Inductive DecodedBlock := DecodedV1 (b : Block) | DecodedV2 (t : result string TypedBlock).
Abbreviation VersionedBlock := CustomBlock (only parsing).

Definition typed_block_name (block : TypedBlock) : string :=
  match block with
  | Branch branch => bb_type_name branch
  | Leaf leaf => lb_type_name leaf
  | Custom custom => cb_type_name custom
  end.

(** ** Readers of custom block content *)

(** [fields.iter().find_map(..)] for the first text (byte string) under a key. *)
Definition find_text (name : string) (fields : list (value * value)) : option string :=
  find_map (λ kv, match kv with
    | (VText key, VText t) => if String.eqb key name then Some t else None
    | _ => None end) fields.

Definition find_bytes (name : string) (fields : list (value * value)) : option bytes :=
  find_map (λ kv, match kv with
    | (VText key, VBytes b) => if String.eqb key name then Some b else None
    | _ => None end) fields.

Module CustomBlocks.
Definition REPLAY_JOURNAL_BLOCK_TYPE : string := "lexonarchivebuilder.replay-journal".
Definition REPLAY_JOURNAL_MEDIA_TYPE : string := "application/vnd.lexonarchivebuilder.replay-journal+cbor".

(** [custom_block_payload] of [custom_blocks.rs]. *)
Definition custom_block_payload (content : value) : result string (string * bytes) :=
  match content with
  | VMap fields =>
      media_type ← ok_or (find_text "media_type" fields) "custom block content is missing media_type";
      body ← ok_or (find_bytes "body" fields) "custom block content is missing body";
      Ok (media_type, body)
  | _ => Err "custom block content must be a CBOR map"
  end.
End CustomBlocks.

(** The content map that the project's writers build. *)
Definition payload_map (media_type : string) (body : bytes) : value :=
  VMap [(VText "media_type", VText media_type); (VText "body", VBytes body)].

Lemma custom_block_payload_map m b : CustomBlocks.custom_block_payload (payload_map m b) = Ok (m, b).
Proof. reflexivity. Qed.

(** ** Text metadata ([tree_tools.rs]) *)

Definition metadata_values_to_text_map (metadata : list (value * value)) : gmap string string :=
  btree_collect (omap (λ kv, match kv with
    | (VText key, VText value) => Some (key, value)
    | _ => None end) metadata).

Definition source_name_from_metadata (metadata : gmap string string) : option string :=
  find_map (λ key, metadata !! key)
    ["source_name"; "document_name"; "email_name"; "thread_name"; "name"].


(** ** Block stores

    [BlockStore]: a state [S] with [put_versioned] and [get_decoded] (and the
    byte-level [get_block_bytes], which the copy component uses). Stores are
    content addressed: the laws say that a put block is found under the id it
    returns and that a put changes nothing else. *)
Class BlockStore (S : Type) := {
  BlockStoreError : Type;
  block_id_of : CustomBlock → block_hash;
  put_versioned : CustomBlock → S → S * result BlockStoreError block_hash;
  get_decoded : block_hash → S → result BlockStoreError (option DecodedBlock)
}.
Arguments BlockStoreError S {_}.
Arguments block_id_of S {_} _.

(** [v2::build_custom_block]. *)
Class BuildCustom := build_custom_block : string → value → result string CustomBlock.
Class BuildCustomLaws `{BuildCustom} :=
  build_custom_fields t v c : build_custom_block t v = Ok c → c = {| cb_type_name := t; cb_content := v |}.

Class BlockStoreLaws (S : Type) `{BlockStore S} := {
  block_id_ok c : hash_ok (block_id_of S c);
  put_ok c s s' h : put_versioned c s = (s', Ok h) →
    h = block_id_of S c ∧ get_decoded h s' = Ok (Some (DecodedV2 (Ok (Custom c))));
  put_frame c s s' r h d : put_versioned c s = (s', r) →
    get_decoded h s = Ok (Some d) → get_decoded h s' = Ok (Some d);
  put_other c s s' r h : put_versioned c s = (s', r) → h ≠ block_id_of S c →
    get_decoded h s' = get_decoded h s
}.

(** What was found stays found. *)
Definition grows {S} `{BlockStore S} (s s' : S) : Prop :=
  ∀ h d, get_decoded h s = Ok (Some d) → get_decoded h s' = Ok (Some d).

#[export] Instance grows_preorder {S} `{BlockStore S} : PreOrder (grows (S:=S)).
Proof. split; [by intros s h d|]. intros a b c Hab Hbc h d Hd. by apply Hbc, Hab. Qed.

Lemma put_grows {S} `{BlockStoreLaws S} c (s s' : S) r : put_versioned c s = (s', r) → grows s s'.
Proof. intros Hp h d. by eapply put_frame. Qed.

(** * Serde *)
(** What the Rust types guarantee: [usize] fields in range, strings and lists
    shorter than the address space. *)
Definition usize_ok (n : Z) : bool := (0 <=? n) && (n <? 2 ^ 64).
Definition text_ok (s : string) : bool := str_len s <? 2 ^ 64.
Definition list_ok {A} (f : A → bool) (l : list A) : bool := (len l <? 2 ^ 64) && forallb f l.

(** ** Writing and reading structs *)
Definition field (name : string) (v : value) : value * value := (VText name, v).

(** [#[derive(Deserialize)]]: fields are looked up by name in any order,
    unknown fields are ignored, a repeated or missing field is an error unless
    the field is an [Option] or has [#[serde(default)]]. *)
Definition de_fields (v : value) : result string (list (value * value)) :=
  match v with VMap l => Ok l | _ => Err "invalid type: expected a map" end.

Definition lookup_all (name : string) (l : list (value * value)) : list value :=
  omap (λ kv, match kv.1 with
    | VText k => if String.eqb k name then Some kv.2 else None
    | _ => None end) l.

Definition de_optional {A} (name : string) (de : value → result string A) (l : list (value * value))
    : result string (option A) :=
  match lookup_all name l with
  | [] => Ok None
  | [v] => Some <$> de v
  | _ => Err ("duplicate field " +:+ name)
  end.

Definition de_required {A} name (de : value → result string A) l : result string A :=
  o ← de_optional name de l; ok_or o ("missing field " +:+ name).
Definition de_default {A} name (d : A) (de : value → result string A) l : result string A :=
  o ← de_optional name de l; Ok (default d o).

Definition de_text (v : value) : result string string :=
  match v with VText s => Ok s | _ => Err "invalid type: expected a string" end.
Definition de_usize (v : value) : result string Z :=
  match v with
  | VInteger z => if usize_ok z then Ok z else Err "invalid value: integer out of range"
  | _ => Err "invalid type: expected an integer" end.
Definition de_u8 (v : value) : result string Z :=
  match v with
  | VInteger z => if bool_decide (is_byte z) then Ok z else Err "invalid value: integer out of range"
  | _ => Err "invalid type: expected an integer" end.
Definition de_list {A} (de : value → result string A) (v : value) : result string (list A) :=
  match v with VArray l => result_mapM de l | _ => Err "invalid type: expected a sequence" end.
Definition de_option_text (v : value) : result string (option string) :=
  match v with VNull => Ok None | _ => Some <$> de_text v end.
Definition de_pair (v : value) : result string (string * string) :=
  match v with
  | VArray [a; b] => a ← de_text a; b ← de_text b; Ok (a, b)
  | _ => Err "invalid type: expected a tuple of size 2" end.

(** ** The forms are plain CBOR *)
Lemma plain_int z : - 2 ^ 64 ≤ z < 2 ^ 64 → plain (VInteger z) = true.
Proof. intros ?. apply andb_true_intro. split; [apply Z.leb_le|apply Z.ltb_lt]; lia. Qed.

Lemma plain_usize z : usize_ok z = true → plain (VInteger z) = true.
Proof. intros [?%Z.leb_le ?%Z.ltb_lt]%andb_prop. apply plain_int. lia. Qed.

Lemma plain_array {A} (f : A → bool) (g : A → value) l :
  (∀ x, f x = true → plain (g x) = true) → list_ok f l = true → plain (VArray (g <$> l)) = true.
Proof.
  intros Hg [Hl Hf]%andb_prop. unfold len in Hl. apply andb_true_intro.
  unfold len. rewrite length_fmap. split; [done|].
  rewrite forallb_forall in Hf |- *. intros y (x&->&Hx)%list_elem_of_In%list_elem_of_fmap.
  apply Hg, Hf. by apply list_elem_of_In.
Qed.

(** A struct: a literal list of named fields. *)
Definition plain_field (kv : value * value) : Prop :=
  (∃ s, kv.1 = VText s ∧ text_ok s = true) ∧ plain kv.2 = true.

Lemma plain_map l : (length l < 100)%nat → Forall plain_field l → plain (VMap l) = true.
Proof.
  intros Hl Hf. apply andb_true_intro. split; [apply Z.ltb_lt; unfold len; lia|].
  rewrite forallb_forall. rewrite Forall_forall in Hf. intros kv Hin%list_elem_of_In%Hf.
  destruct Hin as [(s&Hk&Hs) Hv]. apply andb_true_intro.
  split; [rewrite Hk; exact Hs|exact Hv].
Qed.

Lemma plain_field_text name v :
  text_ok name = true → plain v = true → plain_field (field name v).
Proof. intros ??. split; [by exists name|done]. Qed.

Create HintDb plain.
#[export] Hint Resolve plain_usize plain_field_text : plain.
#[export] Hint Extern 1 (plain (VText ?s) = true) => (change (text_ok s = true)) : plain.
#[export] Hint Extern 1 (text_ok _ = true) => reflexivity : plain.
#[export] Hint Extern 1 (Forall plain_field _) => (repeat constructor) : plain.
Ltac plain_map := apply plain_map; [cbn; lia|];
  repeat first [apply Forall_app_2 | apply Forall_cons_2 | apply Forall_nil_2];
  try (apply plain_field_text; [reflexivity|]); auto with plain.
