(* ===== verification/Cbor.v ===== *)
(** * A concrete CBOR codec

    RFC 8949 with definite lengths and shortest heads, for the values the
    project writes. It shows that the laws of [Blocks.Ciborium] can hold, and the
    witnesses run it; the theorems use only the laws. *)

From Stdlib Require Import ZArith Lia Ascii.
From stdpp Require Import base gmap sets strings sorting option list.
From S2P Require Import Prelude Hex Blocks.
#[local] Open Scope Z_scope.

(** [n] in [k] bytes, big-endian. *)
Fixpoint be (k : nat) (n : Z) : bytes :=
  match k with O => [] | S k => be k (n / 256) ++ [n mod 256] end.
Definition of_be (l : bytes) : Z := foldl (λ a b, a * 256 + b) 0 l.

Definition arg_width (n : Z) : nat :=
  if n <=? 23 then 0 else if n <=? 255 then 1 else if n <=? 65535 then 2
  else if n <=? 4294967295 then 4 else 8.
Definition head (major n : Z) : bytes :=
  match arg_width n with
  | 0%nat => [major * 32 + n]
  | 1%nat => (major * 32 + 24) :: be 1 n
  | 2%nat => (major * 32 + 25) :: be 2 n
  | 4%nat => (major * 32 + 26) :: be 4 n
  | _ => (major * 32 + 27) :: be 8 n
  end.

Fixpoint encode (v : value) : bytes :=
  match v with
  | VInteger z => if 0 <=? z then head 0 z else head 1 (- 1 - z)
  | VBytes b => head 2 (len b) ++ b
  | VText s => head 3 (str_len s) ++ as_bytes s
  | VArray l => head 4 (len l) ++ foldr (λ v b, encode v ++ b) [] l
  | VMap l => head 5 (len l) ++ foldr (λ kv b, encode kv.1 ++ encode kv.2 ++ b) [] l
  | VTag t v => head 6 t ++ encode v
  | VBool false => [244]
  | VBool true => [245]
  | VNull => [246]
  | VFloat _ | VOther _ => []
  end.

Definition take_bytes (n : Z) (b : bytes) : option (bytes * bytes) :=
  if len b <? n then None else Some (take (Z.to_nat n) b, drop (Z.to_nat n) b).

Definition read_arg (info : Z) (b : bytes) : option (Z * bytes) :=
  if info <=? 23 then Some (info, b) else
  let k := if info =? 24 then 1 else if info =? 25 then 2 else if info =? 26 then 4 else 8 in
  '(d, b) ← take_bytes k b; Some (of_be d, b).

Fixpoint decode_n (d : bytes → option (value * bytes)) (n : nat) (b : bytes) : option (list value * bytes) :=
  match n with
  | O => Some ([], b)
  | S n => '(v, b) ← d b; '(l, b) ← decode_n d n b; Some (v :: l, b)
  end.
Fixpoint decode_pairs (d : bytes → option (value * bytes)) (n : nat) (b : bytes)
    : option (list (value * value) * bytes) :=
  match n with
  | O => Some ([], b)
  | S n => '(k, b) ← d b; '(v, b) ← d b; '(l, b) ← decode_pairs d n b; Some ((k, v) :: l, b)
  end.

Fixpoint decode (fuel : nat) (b : bytes) : option (value * bytes) :=
  match fuel with
  | O => None
  | S fuel =>
      match b with
      | [] => None
      | a :: b =>
          '(n, b) ← read_arg (a mod 32) b;
          match a / 32 with
          | 0 => Some (VInteger n, b)
          | 1 => Some (VInteger (- 1 - n), b)
          | 2 => '(x, b) ← take_bytes n b; Some (VBytes x, b)
          | 3 => '(x, b) ← take_bytes n b; Some (VText (of_bytes x), b)
          | 4 => '(l, b) ← decode_n (decode fuel) (Z.to_nat n) b; Some (VArray l, b)
          | 5 => '(l, b) ← decode_pairs (decode fuel) (Z.to_nat n) b; Some (VMap l, b)
          | 6 => '(v, b) ← decode fuel b; Some (VTag n v, b)
          | 7 => if n =? 20 then Some (VBool false, b) else if n =? 21 then Some (VBool true, b)
                 else if n =? 22 then Some (VNull, b) else None
          | _ => None
          end
      end
  end.

#[export] Instance cbor_codec : Ciborium := {|
  into_writer v := if plain v then Ok (encode v) else Err "unsupported value";
  from_reader b := match decode (S (length b)) b with
                   | Some (v, _) => Ok v | None => Err "invalid CBOR" end
|}.

(** ** Heads *)
Lemma length_be k n : length (be k n) = k.
Proof. revert n. induction k as [|k IH]; intros n; cbn; [done|]. rewrite length_app, IH. cbn. lia. Qed.

Lemma be_byte k n : Forall is_byte (be k n).
Proof.
  revert n. induction k as [|k IH]; intros n; cbn; [constructor|].
  apply Forall_app. split; [done|]. constructor; [|done]. unfold is_byte. by apply Z.mod_pos_bound.
Qed.

Lemma of_be_be k n : 0 ≤ n < 256 ^ Z.of_nat k → of_be (be k n) = n.
Proof.
  revert n. induction k as [|k IH]; intros n Hn; [cbn in *; lia|].
  cbn [be]. unfold of_be in *. rewrite foldl_app. cbn [foldl].
  rewrite IH; [pose proof (Z.div_mod n 256 ltac:(lia)); lia|].
  rewrite Nat2Z.inj_succ, Z.pow_succ_r in Hn by lia.
  split; [apply Z.div_pos; lia|]. apply Z.div_lt_upper_bound; lia.
Qed.

Lemma take_bytes_app x rest : take_bytes (len x) (x ++ rest) = Some (x, rest).
Proof.
  unfold take_bytes, len. rewrite length_app. destruct (_ <? _) eqn:E; [apply Z.ltb_lt in E; lia|].
  rewrite Nat2Z.id, take_app_length, drop_app_length. done.
Qed.

Lemma split_initial major k : 0 ≤ major → 0 ≤ k < 32 →
  (major * 32 + k) / 32 = major ∧ (major * 32 + k) mod 32 = k.
Proof. intros. Z.to_euclidean_division_equations. lia. Qed.

Lemma read_arg_be (w : nat) info n rest :
  0 ≤ n < 256 ^ Z.of_nat w → 24 ≤ info →
  (if info =? 24 then 1 else if info =? 25 then 2 else if info =? 26 then 4 else 8) = Z.of_nat w →
  read_arg info (be w n ++ rest) = Some (n, rest).
Proof.
  intros Hw Hi Hk. unfold read_arg. destruct (info <=? 23) eqn:?; [lia|].
  rewrite Hk. assert (Z.of_nat w = len (be w n)) as -> by (unfold len; by rewrite length_be).
  rewrite take_bytes_app. cbn -[be]. by rewrite of_be_be.
Qed.

Lemma head_spec major n rest : 0 ≤ major → 0 ≤ n < 2 ^ 64 →
  ∃ a b, head major n ++ rest = a :: b ∧ a / 32 = major ∧ read_arg (a mod 32) b = Some (n, rest).
Proof.
  intros Hm Hn. unfold head, arg_width.
  destruct (n <=? 23) eqn:E1; [|destruct (n <=? 255) eqn:E2; [|destruct (n <=? 65535) eqn:E3;
    [|destruct (n <=? 4294967295) eqn:E4]]]; eexists _, _; (split; [reflexivity|]);
    (edestruct split_initial as [-> ->]; [done| |]); try lia; (split; [done|]).
  - unfold read_arg. by rewrite E1.
  - apply read_arg_be; [cbn; lia|lia|done].
  - apply read_arg_be; [cbn; lia|lia|done].
  - apply read_arg_be; [cbn; lia|lia|done].
  - apply read_arg_be; [cbn; lia|lia|done].
Qed.

Lemma len_head major n : len (head major n) = head_size n.
Proof.
  unfold head, head_size, arg_width, len. repeat case_match; try done;
    cbn [length]; rewrite ?length_be; done.
Qed.

Lemma head_byte major n : 0 ≤ major < 8 → 0 ≤ n → Forall is_byte (head major n).
Proof.
  intros Hm Hn. unfold head, arg_width.
  destruct (n <=? 23) eqn:E1; [|destruct (n <=? 255) eqn:E2; [|destruct (n <=? 65535) eqn:E3;
    [|destruct (n <=? 4294967295) eqn:E4]]]; constructor; try apply be_byte; try constructor; unfold is_byte; lia.
Qed.

Lemma head_size_pos n : 1 ≤ head_size n.
Proof. unfold head_size. repeat case_match; lia. Qed.

(** ** Values *)
Lemma encode_size v : plain v = true → len (encode v) = cbor_size v.
Proof.
  induction v as [z|b|f|s|b| |t v IH|l IH|l IH|n] using value_nested_ind;
    cbn [plain encode cbor_size]; intros Hp; try done.
  - case_match; apply len_head.
  - by rewrite len_app, len_head.
  - by rewrite len_app, len_head.
  - by destruct b.
  - apply andb_prop in Hp as [_ Hp]. rewrite len_app, len_head, IH; done.
  - apply andb_prop in Hp as [_ Hp]. rewrite len_app, len_head. f_equal.
    induction IH as [|v l Hv _ IHl]; [done|]. apply andb_prop in Hp as [Hpv Hp].
    cbn [foldr]. by rewrite len_app, Hv, IHl.
  - apply andb_prop in Hp as [_ Hp]. rewrite len_app, len_head. f_equal.
    induction IH as [|[k v] l [Hk Hv] _ IHl]; [done|]. apply andb_prop in Hp as [Hpv Hp].
    apply andb_prop in Hpv as [??]. cbn [foldr fst snd] in *. rewrite !len_app, Hk, Hv, IHl by done. lia.
Qed.

Lemma encode_byte v : plain v = true → Forall is_byte (encode v).
Proof.
  induction v as [z|b|f|s|b| |t v IH|l IH|l IH|n] using value_nested_ind;
    cbn [plain encode]; intros Hp; try done.
  - case_match; apply head_byte; lia.
  - apply andb_prop in Hp as [Hb _]. apply Forall_app. split; [apply head_byte; [lia|apply len_nonneg]|].
    apply Forall_forall. intros x Hx. rewrite forallb_forall in Hb.
    apply list_elem_of_In in Hx. by apply Hb, bool_decide_eq_true in Hx.
  - apply Forall_app. split; [apply head_byte; [lia|apply len_nonneg]|apply as_bytes_byte].
  - destruct b; (constructor; [unfold is_byte; lia|constructor]).
  - constructor; [unfold is_byte; lia|constructor].
  - apply andb_prop in Hp as [Ht Hp]. apply Forall_app. split; [apply head_byte; lia|by apply IH].
  - apply andb_prop in Hp as [_ Hp]. apply Forall_app. split; [apply head_byte; [lia|apply len_nonneg]|].
    induction IH as [|v l Hv _ IHl]; [done|]. apply andb_prop in Hp as [Hpv Hp].
    cbn [foldr]. apply Forall_app. auto.
  - apply andb_prop in Hp as [_ Hp]. apply Forall_app. split; [apply head_byte; [lia|apply len_nonneg]|].
    induction IH as [|[k v] l [Hk Hv] _ IHl]; [done|]. apply andb_prop in Hp as [Hpv Hp].
    apply andb_prop in Hpv as [??]. cbn [foldr fst snd] in *. rewrite !Forall_app. auto.
Qed.

Fixpoint depth (v : value) : nat :=
  match v with
  | VTag _ v => S (depth v)
  | VArray l => S (foldr (λ v n, depth v `max` n)%nat O l)
  | VMap l => S (foldr (λ kv n, depth kv.1 `max` (depth kv.2 `max` n))%nat O l)
  | _ => 1
  end.

Lemma decode_encode v fuel rest : plain v = true → (depth v ≤ fuel)%nat →
  decode fuel (encode v ++ rest) = Some (v, rest).
Proof.
  revert fuel rest.
  induction v as [z|b|f|s|b| |t v IH|l IH|l IH|n] using value_nested_ind;
    intros [|fuel] rest Hp Hf; try (cbn in Hf; lia); try done; cbn [plain encode depth] in *.
  - destruct (0 <=? z) eqn:Hz.
    + destruct (head_spec 0 z rest) as (a&b&Heq&Ha&Hr); [lia..|]. rewrite Heq. cbn [decode].
      rewrite Hr, Ha. done.
    + destruct (head_spec 1 (-1 - z) rest) as (a&b&Heq&Ha&Hr); [lia..|]. rewrite Heq. cbn [decode].
      rewrite Hr, Ha. cbn. do 3 f_equal. lia.
  - destruct (head_spec 2 (len b) (b ++ rest)) as (a&c&Heq&Ha&Hr); [lia|pose proof (len_nonneg b); lia|].
    rewrite <-app_assoc, Heq. cbn [decode]. rewrite Hr, Ha. cbn -[take_bytes].
    by rewrite take_bytes_app.
  - destruct (head_spec 3 (str_len s) (as_bytes s ++ rest)) as (a&c&Heq&Ha&Hr);
      [lia|unfold str_len in *; pose proof (len_nonneg (as_bytes s)); lia|].
    rewrite <-app_assoc, Heq. cbn [decode]. rewrite Hr, Ha. cbn -[take_bytes].
    unfold str_len. rewrite take_bytes_app. cbn. by rewrite of_bytes_as_bytes.
  - by destruct b.
  - apply andb_prop in Hp as [Ht Hp].
    destruct (head_spec 6 t (encode v ++ rest)) as (a&c&Heq&Ha&Hr); [lia..|].
    rewrite <-app_assoc, Heq. cbn [decode]. rewrite Hr, Ha. cbn -[decode].
    rewrite IH; [done|done|lia].
  - apply andb_prop in Hp as [Hl Hp].
    destruct (head_spec 4 (len l) (foldr (λ v b, encode v ++ b) [] l ++ rest)) as (a&c&Heq&Ha&Hr);
      [lia|pose proof (len_nonneg l); lia|].
    rewrite <-app_assoc, Heq. cbn [decode]. rewrite Hr, Ha. cbn -[decode].
    unfold len. rewrite Nat2Z.id.
    assert (decode_n (decode fuel) (length l) (foldr (λ v b, encode v ++ b) [] l ++ rest) = Some (l, rest))
      as ->; [|done].
    clear -IH Hp Hf. induction IH as [|v l Hv _ IHl]; [done|]. apply andb_prop in Hp as [Hpv Hp].
    cbn [length decode_n foldr] in *. rewrite <-app_assoc, Hv by (done || lia). cbn -[decode].
    rewrite IHl by (done || lia). done.
  - apply andb_prop in Hp as [Hl Hp].
    destruct (head_spec 5 (len l) (foldr (λ kv b, encode kv.1 ++ encode kv.2 ++ b) [] l ++ rest)) as (a&c&Heq&Ha&Hr);
      [lia|pose proof (len_nonneg l); lia|].
    rewrite <-app_assoc, Heq. cbn [decode]. rewrite Hr, Ha. cbn -[decode].
    unfold len. rewrite Nat2Z.id.
    assert (decode_pairs (decode fuel) (length l)
      (foldr (λ kv b, encode kv.1 ++ encode kv.2 ++ b) [] l ++ rest) = Some (l, rest)) as ->; [|done].
    clear -IH Hp Hf. induction IH as [|[k v] l [Hk Hv] _ IHl]; [done|]. apply andb_prop in Hp as [Hpv Hp].
    apply andb_prop in Hpv as [??].
    cbn [length decode_pairs foldr fst snd] in *. rewrite <-!app_assoc, Hk by (done || lia). cbn -[decode].
    rewrite Hv by (done || lia). cbn -[decode]. rewrite IHl by (done || lia). done.
Qed.

Lemma depth_le v : plain v = true → (depth v ≤ length (encode v))%nat.
Proof.
  intros Hp. cut (Z.of_nat (depth v) ≤ len (encode v)); [unfold len; lia|].
  rewrite encode_size by done. clear Hp.
  induction v as [z|b|f|s|b| |t v IH|l IH|l IH|n] using value_nested_ind; cbn [depth cbor_size];
    try (match goal with |- context [head_size ?x] => pose proof (head_size_pos x) end);
    try (unfold str_len); try lia.
  - pose proof (len_nonneg b). lia.
  - pose proof (len_nonneg (as_bytes s)). unfold str_len in *. lia.
  - cut (Z.of_nat (foldr (λ v n, depth v `max` n)%nat O l) ≤ foldr (λ v n, cbor_size v + n) 0 l
      ∧ 0 ≤ foldr (λ v n, cbor_size v + n) 0 l); [lia|].
    clear -IH. induction IH as [|v l Hv _ IHl]; cbn [foldr]; [lia|]. lia.
  - cut (Z.of_nat (foldr (λ kv n, depth kv.1 `max` (depth kv.2 `max` n))%nat O l)
        ≤ foldr (λ kv n, cbor_size kv.1 + cbor_size kv.2 + n) 0 l
      ∧ 0 ≤ foldr (λ kv n, cbor_size kv.1 + cbor_size kv.2 + n) 0 l); [lia|].
    clear -IH. induction IH as [|[k v] l [Hk Hv] _ IHl]; cbn [foldr fst snd] in *; [lia|]. lia.
Qed.

#[export] Instance cbor_laws : CiboriumLaws.
Proof.
  split; cbn -[decode]; intros v.
  - intros ->. eauto.
  - intros b Hp. rewrite Hp. intros [= <-]. by apply encode_size.
  - intros b Hp. rewrite Hp. intros [= <-]. by apply encode_byte.
  - intros b Hp. rewrite Hp. intros [= <-].
    pose proof (decode_encode v (S (length (encode v))) [] Hp) as Hd.
    rewrite app_nil_r in Hd. rewrite Hd; [done|]. pose proof (depth_le v Hp). lia.
Qed.
