(* ===== verification/Text.v ===== *)
(** * Text: UTF-8, Unicode white space, lines and paths

    What the project uses of Rust's [str], [char] and [Path]. A [String] is a
    [string] of bytes everywhere in the development; the functions that walk
    over characters go through [chars], the decoded form, and back through
    [of_chars]. *)

From Stdlib Require Import ZArith Lia Ascii.
From stdpp Require Import base gmap sets strings option list.
From S2P Require Import Prelude Hex.
#[local] Open Scope Z_scope.

(** A sequence of Unicode scalar values. *)
Abbreviation text := (list Z).
Definition scalar (c : Z) : Prop := 0 ≤ c < 55296 ∨ 57344 ≤ c < 1114112.

(** ** UTF-8 *)
Definition utf8_char (c : Z) : bytes :=
  if c <? 128 then [c]
  else if c <? 2048 then [192 + c / 64; 128 + c mod 64]
  else if c <? 65536 then [224 + c / 4096; 128 + c / 64 mod 64; 128 + c mod 64]
  else [240 + c / 262144; 128 + c / 4096 mod 64; 128 + c / 64 mod 64; 128 + c mod 64].
Definition utf8 (t : text) : bytes := t ≫= utf8_char.

Definition continuation (b : Z) : bool := (128 <=? b) && (b <=? 191).
(** The second bytes that follow a leading byte of a three or four byte form. *)
Definition second3 (a b : Z) : bool :=
  if a =? 224 then (160 <=? b) && (b <=? 191)
  else if a =? 237 then (128 <=? b) && (b <=? 159)
  else continuation b.
Definition second4 (a b : Z) : bool :=
  if a =? 240 then (144 <=? b) && (b <=? 191)
  else if a =? 244 then (128 <=? b) && (b <=? 143)
  else continuation b.

(** [String::from_utf8_lossy]: each maximal prefix of a character that cannot be
    continued becomes one replacement character. *)
Definition replacement : Z := 65533.
Fixpoint utf8_lossy (l : bytes) : text :=
  match l with
  | [] => []
  | a :: l1 =>
      if a <? 128 then a :: utf8_lossy l1 else
      if (194 <=? a) && (a <=? 223) then
        match l1 with
        | b :: l2 => if continuation b then ((a - 192) * 64 + (b - 128)) :: utf8_lossy l2
                     else replacement :: utf8_lossy l1
        | [] => [replacement]
        end
      else if (224 <=? a) && (a <=? 239) then
        match l1 with
        | b :: l2 =>
            if second3 a b then
              match l2 with
              | c :: l3 => if continuation c
                  then ((a - 224) * 4096 + (b - 128) * 64 + (c - 128)) :: utf8_lossy l3
                  else replacement :: utf8_lossy l2
              | [] => [replacement]
              end
            else replacement :: utf8_lossy l1
        | [] => [replacement]
        end
      else if (240 <=? a) && (a <=? 244) then
        match l1 with
        | b :: l2 =>
            if second4 a b then
              match l2 with
              | c :: l3 =>
                  if continuation c then
                    match l3 with
                    | d :: l4 => if continuation d
                        then ((a - 240) * 262144 + (b - 128) * 4096 + (c - 128) * 64 + (d - 128)) :: utf8_lossy l4
                        else replacement :: utf8_lossy l3
                    | [] => [replacement]
                    end
                  else replacement :: utf8_lossy l2
              | [] => [replacement]
              end
            else replacement :: utf8_lossy l1
        | [] => [replacement]
        end
      else replacement :: utf8_lossy l1
  end.

(** [str::chars] of a valid string, and collecting characters. *)
Definition chars (s : string) : text := utf8_lossy (as_bytes s).
Definition of_chars (t : text) : string := of_bytes (utf8 t).

(** Decoding one encoded character: the branches are decided by arithmetic. *)
Ltac decide_branches := repeat match goal with
  | |- context [if ?b then _ else _] =>
      lazymatch b with context [if _ then _ else _] => fail | _ => idtac end;
      first [replace b with true by (symmetry; lia) | replace b with false by (symmetry; lia) | let E := fresh in destruct b eqn:E]
  end.

Lemma utf8_lossy_char c t : scalar c → utf8_lossy (utf8_char c ++ t) = c :: utf8_lossy t.
Proof.
  intros Hc. unfold scalar in Hc. unfold utf8_char.
  destruct (Z.ltb_spec c 128); [cbn; by rewrite (proj2 (Z.ltb_lt c 128)) by lia|].
  pose proof (Z.div_mod c 64 ltac:(lia)) as H64. pose proof (Z.mod_pos_bound c 64 ltac:(lia)).
  destruct (Z.ltb_spec c 2048).
  { assert (2 ≤ c / 64 < 32) by lia.
    cbn [app utf8_lossy]. unfold continuation. decide_branches; f_equal; lia. }
  pose proof (Z.div_mod (c / 64) 64 ltac:(lia)) as H4096. pose proof (Z.mod_pos_bound (c / 64) 64 ltac:(lia)).
  rewrite Z.div_div in H4096 by lia. change (64 * 64) with 4096 in H4096.
  destruct (Z.ltb_spec c 65536).
  { assert (0 ≤ c / 4096 < 16) by lia.
    cbn [app utf8_lossy]. unfold continuation, second3, continuation. decide_branches; f_equal; lia. }
  pose proof (Z.div_mod (c / 4096) 64 ltac:(lia)) as H18. pose proof (Z.mod_pos_bound (c / 4096) 64 ltac:(lia)).
  rewrite Z.div_div in H18 by lia. change (4096 * 64) with 262144 in H18.
  assert (0 ≤ c / 262144 < 5) by lia.
  cbn [app utf8_lossy]. unfold continuation, second4, continuation. decide_branches; f_equal; lia.
Qed.

Lemma utf8_lossy_utf8 t : Forall scalar t → utf8_lossy (utf8 t) = t.
Proof.
  induction 1 as [|c t Hc _ IH]; [done|]. unfold utf8. rewrite bind_cons, utf8_lossy_char by done.
  by rewrite <-IH at 2.
Qed.

Lemma utf8_char_byte c : scalar c → Forall is_byte (utf8_char c).
Proof.
  intros Hc. unfold scalar in Hc. unfold utf8_char, is_byte.
  repeat case_match; repeat (apply Forall_cons_2; [Z.to_euclidean_division_equations; lia|]);
    apply Forall_nil_2.
Qed.

Lemma chars_of_chars t : Forall scalar t → chars (of_chars t) = t.
Proof.
  intros Ht. unfold chars, of_chars. rewrite as_bytes_of_bytes; [by apply utf8_lossy_utf8|].
  unfold utf8. induction Ht as [|c t Hc _ IH]; [constructor|]. rewrite bind_cons. apply Forall_app.
  split; [by apply utf8_char_byte|done].
Qed.

(** Decoding yields scalar values. *)
Lemma utf8_lossy_scalar l : Forall is_byte l → Forall scalar (utf8_lossy l).
Proof.
  assert (∀ n l, (length l < n)%nat → Forall is_byte l → Forall scalar (utf8_lossy l)) as Hgen;
    [|by apply (Hgen (S (length l)) l); lia].
  clear l. intros n. induction n as [|n IH]; intros l Hn Hl; [lia|].
  assert (scalar replacement) by (unfold scalar, replacement; lia).
  destruct Hl as [|a l1 Ha Hl1]; [constructor|]. cbn [utf8_lossy]. cbn [length] in Hn.
  assert (Forall scalar (utf8_lossy l1)) by (apply IH; [lia|done]).
  destruct (a <? 128) eqn:E1; [apply Forall_cons_2; [unfold scalar, is_byte in *; lia|done]|].
  destruct Hl1 as [|b l2 Hb Hl2]; [repeat case_match; by apply Forall_cons_2|]. cbn [length] in Hn.
  assert (Forall scalar (utf8_lossy l2)) by (apply IH; [lia|done]).
  destruct ((194 <=? a) && (a <=? 223)) eqn:E2.
  { destruct (continuation b) eqn:E3; apply Forall_cons_2; try done. unfold scalar, continuation in *. lia. }
  destruct ((224 <=? a) && (a <=? 239)) eqn:E4.
  { destruct (second3 a b) eqn:E5; [|by apply Forall_cons_2].
    destruct Hl2 as [|c l3 Hc Hl3]; [by apply Forall_cons_2|]. cbn [length] in Hn.
    destruct (continuation c) eqn:E6; [|by apply Forall_cons_2]. apply Forall_cons_2; [|apply IH; [lia|done]].
    unfold scalar, second3, continuation in *. destruct (a =? 224) eqn:?; [lia|]. destruct (a =? 237) eqn:?; lia. }
  destruct ((240 <=? a) && (a <=? 244)) eqn:E7; [|by apply Forall_cons_2].
  destruct (second4 a b) eqn:E8; [|by apply Forall_cons_2].
  destruct Hl2 as [|c l3 Hc Hl3]; [by apply Forall_cons_2|]. cbn [length] in Hn.
  destruct (continuation c) eqn:E9; [|by apply Forall_cons_2].
  assert (Forall scalar (utf8_lossy l3)) by (apply IH; [lia|done]).
  destruct Hl3 as [|d l4 Hd Hl4]; [by apply Forall_cons_2|]. cbn [length] in Hn.
  destruct (continuation d) eqn:E10; [|by apply Forall_cons_2]. apply Forall_cons_2; [|apply IH; [lia|done]].
  unfold scalar, second4, continuation in *. destruct (a =? 240) eqn:?; [lia|]. destruct (a =? 244) eqn:?; lia.
Qed.

Lemma chars_scalar s : Forall scalar (chars s).
Proof. apply utf8_lossy_scalar, as_bytes_byte. Qed.

(** ** White space: [char::is_whitespace] and its users *)
Definition is_whitespace (c : Z) : bool :=
  (9 <=? c) && (c <=? 13) || (c =? 32) || (c =? 133) || (c =? 160) || (c =? 5760)
  || (8192 <=? c) && (c <=? 8202) || (c =? 8232) || (c =? 8233) || (c =? 8239) || (c =? 8287) || (c =? 12288).

Fixpoint drop_spaces (t : text) : text :=
  match t with
  | c :: t' => if is_whitespace c then drop_spaces t' else t
  | [] => []
  end.
(** [str::trim] on characters. *)
Definition trim_chars (t : text) : text := reverse (drop_spaces (reverse (drop_spaces t))).

(** [str::split_whitespace]: [word] is the word being read, reversed. *)
Fixpoint split_whitespace_from (word : text) (t : text) : list text :=
  let flush := match word with [] => [] | _ => [reverse word] end in
  match t with
  | [] => flush
  | c :: t => if is_whitespace c then flush ++ split_whitespace_from [] t
              else split_whitespace_from (c :: word) t
  end.
Definition split_whitespace (t : text) : list text := split_whitespace_from [] t.

(** [[T]::join] on texts. *)
Fixpoint join_text (sep : text) (l : list text) : text :=
  match l with
  | [] => []
  | [t] => t
  | t :: l => t ++ sep ++ join_text sep l
  end.

(** ** Lines, prefixes and replacement *)
Fixpoint split_inclusive {A} `{EqDecision A} (sep : A) (l : list A) : list (list A) :=
  match l with
  | [] => []
  | a :: l =>
      if decide (a = sep) then [a] :: split_inclusive sep l else
      match split_inclusive sep l with
      | [] => [[a]]
      | s :: ss => (a :: s) :: ss
      end
  end.

(** One line of [str::lines]: a final newline is removed, with a carriage return
    before it. *)
Definition strip_newline (line : text) : text :=
  match reverse line with
  | 10 :: 13 :: l => reverse l
  | 10 :: l => reverse l
  | _ => line
  end.
Definition lines (t : text) : list text := strip_newline <$> split_inclusive 10 t.

Fixpoint starts_with (pattern l : list Z) : bool :=
  match pattern, l with
  | [], _ => true
  | p :: pattern, a :: l => (p =? a) && starts_with pattern l
  | _, [] => false
  end.
(** [str::contains]. *)
Fixpoint contains_bytes (pattern l : bytes) : bool :=
  starts_with pattern l || match l with [] => false | _ :: l => contains_bytes pattern l end.

Definition ends_with (pattern l : list Z) : bool := starts_with (reverse pattern) (reverse l).

(** [str::replace] of a non-empty pattern; [skip] counts the characters of the
    last match that are still to be dropped. *)
Fixpoint replace_from (skip : nat) (pattern by_ t : text) : text :=
  match t with
  | [] => []
  | c :: t' =>
      match skip with
      | S skip => replace_from skip pattern by_ t'
      | O => if starts_with pattern t then by_ ++ replace_from (length pattern - 1) pattern by_ t'
             else c :: replace_from 0 pattern by_ t'
      end
  end.
Definition replace_text (pattern by_ t : text) : text := replace_from 0 pattern by_ t.

(** [to_ascii_lowercase] on characters. *)
Definition to_ascii_lowercase (t : text) : text := ascii_lower <$> t.
Definition eq_ignore_ascii_case (a b : string) : bool :=
  bool_decide (ascii_lower <$> as_bytes a = ascii_lower <$> as_bytes b).

(** ** Paths (on Unix) *)
Fixpoint split_on {A} `{EqDecision A} (sep : A) (l : list A) : list (list A) :=
  match l with
  | [] => [[]]
  | a :: l =>
      if decide (a = sep) then [] :: split_on sep l else
      match split_on sep l with
      | [] => [[a]]
      | s :: ss => (a :: s) :: ss
      end
  end.

(** [Path::file_name]: the last component, unless it is [..]. *)
Definition file_name (path : string) : option bytes :=
  name ← last (filter (λ c, c ≠ [] ∧ c ≠ [46]) (split_on 47 (as_bytes path)));
  if bool_decide (name = [46; 46]) then None else Some name.

(** [Path::extension]: what follows the last dot, unless the name has no other
    part before it. *)
Definition extension (path : string) : option string :=
  name ← file_name path;
  match reverse (split_on 46 name) with
  | ext :: rest => if bool_decide (rest = [] ∨ rest = [[]]) then None else Some (of_bytes ext)
  | [] => None
  end.

(** [Path::parent] on the bytes, without the trailing separators. *)
Fixpoint drop_slashes (rev : bytes) : bytes :=
  match rev with c :: l => if c =? 47 then drop_slashes l else rev | [] => [] end.
Fixpoint drop_component (rev : bytes) : bytes :=
  match rev with c :: l => if c =? 47 then rev else drop_component l | [] => [] end.
Definition path_parent (path : string) : option string :=
  let rev := drop_slashes (reverse (as_bytes path)) in
  if bool_decide (rev = []) then None else
  let up := drop_component rev in
  Some (of_bytes (reverse (if bool_decide (drop_slashes up = []) then take 1 up else drop_slashes up))).

(** [trim_end_matches('/')], and [split_once] at an ASCII character. *)
Definition trim_end_slashes (s : string) : string := of_bytes (reverse (drop_slashes (reverse (as_bytes s)))).
Fixpoint split_once_bytes (sep : Z) (l : bytes) : option (bytes * bytes) :=
  match l with
  | [] => None
  | c :: l =>
      if c =? sep then Some ([], l) else
      '(a, b) ← split_once_bytes sep l; Some (c :: a, b)
  end.
Definition split_once (sep : Z) (s : string) : option (string * string) :=
  '(a, b) ← split_once_bytes sep (as_bytes s); Some (of_bytes a, of_bytes b).

(** [Path::components] (on Unix): empty components and dots that are not in
    front are skipped. *)
Inductive Component := RootDir | CurDir | ParentDir | Normal (name : bytes).
Definition component (name : bytes) : Component := if bool_decide (name = [46; 46]) then ParentDir else Normal name.
Definition components (path : string) : list Component :=
  let parts := split_on 47 (as_bytes path) in
  let names := component <$> filter (λ c, c ≠ [] ∧ c ≠ [46]) parts in
  match parts with
  | [] :: _ :: _ => RootDir :: names
  | [46] :: _ => CurDir :: names
  | _ => names
  end.

Definition is_absolute (path : string) : bool := starts_with [47] (as_bytes path).
(** [Path::join]. *)
Definition path_join (base path : string) : string :=
  if is_absolute path then path
  else if bool_decide (base = "") || ends_with [47] (as_bytes base) then base +:+ path
  else base +:+ "/" +:+ path.

(** [resolve_path] of [paths.rs]. *)
Definition resolve_path (request_dir candidate : string) : string :=
  if is_absolute candidate then candidate else path_join request_dir candidate.

(** ** The file system, as far as it is read: [exists], [is_file] and [read]. *)
Inductive fs_node := FsFile (content : result io_error bytes) | FsOther.
Abbreviation files := (gmap string fs_node).
