(* ===== verification/Runtime.v ===== *)
(** * The indexer's runtime state and errors

    The functions of [runtime.rs] run against a block store, the mutable ref
    store, a scratch directory and the interrupt flag. [world] is that state;
    a function that reads or changes it is a computation of [stm world]. *)

From Stdlib Require Import ZArith Lia Ascii.
From stdpp Require Import base gmap sets strings sorting option list.
From S2P Require Import Prelude Hex Blocks.
#[local] Open Scope Z_scope.

(** The constructors of [RuntimeError] that the modelled functions build; a
    [#[source]] error of another crate is carried as its text, and [E] is the
    block store's error type. *)
Inductive RuntimeError (E : Type) :=
| Interrupted
| BlockStoreFailed (e : E)
| NoClusterableBlocks
| PrepareReplayOrderScratchRoot (path : string) (source : io_error)
| WriteReplayOrderScratch (path : string) (source : io_error)
| ReadReplayOrderScratch (path : string) (source : io_error)
| PrepareMutableRefStore (path : string) (source : io_error)
| WriteMutableRefStore (path : string) (source : io_error)
| ReadMutableRefStore (path : string) (source : io_error)
| EncodeMutableRefStore (path message : string)
| DecodeMutableRefStore (path message : string)
| MissingReplayJournalHead (path : string)
| InvalidReplayJournalHead (block_id message : string)
| WriteReplayJournal (block_id : string) (source : io_error)
| ReadReplayJournal (block_id : string) (source : io_error)
| MissingIteratedBlock (block_id : string)
| MissingReplayMetadata (block_id : string).
Arguments Interrupted {E}.
Arguments BlockStoreFailed {E} e.
Arguments NoClusterableBlocks {E}.
Arguments PrepareReplayOrderScratchRoot {E} path source.
Arguments WriteReplayOrderScratch {E} path source.
Arguments ReadReplayOrderScratch {E} path source.
Arguments PrepareMutableRefStore {E} path source.
Arguments WriteMutableRefStore {E} path source.
Arguments ReadMutableRefStore {E} path source.
Arguments EncodeMutableRefStore {E} path message.
Arguments DecodeMutableRefStore {E} path message.
Arguments MissingReplayJournalHead {E} path.
Arguments InvalidReplayJournalHead {E} block_id message.
Arguments WriteReplayJournal {E} block_id source.
Arguments ReadReplayJournal {E} block_id source.
Arguments MissingIteratedBlock {E} block_id.
Arguments MissingReplayMetadata {E} block_id.

(** The environment. [signal] is the interrupt flag of [interrupt.rs]: it is
    raised after that many further polls, or never, and it stays raised.
    [faults] are the outcomes of the coming file operations: [Some e] makes
    the operation fail with [e], an exhausted list never fails. *)
Record world (S R : Type) := World {
  blocks : S;
  refs : R;
  scratch : gmap string bytes;
  faults : list (option io_error);
  signal : option nat
}.
Arguments World {S R} blocks refs scratch faults signal.
Arguments blocks {S R} w.
Arguments refs {S R} w.
Arguments scratch {S R} w.
Arguments faults {S R} w.
Arguments signal {S R} w.

Definition set_blocks {S R} (b : S) (w : world S R) : world S R :=
  World b (refs w) (scratch w) (faults w) (signal w).
Definition set_refs {S R} (r : R) (w : world S R) : world S R :=
  World (blocks w) r (scratch w) (faults w) (signal w).
Definition set_scratch {S R} (f : gmap string bytes) (w : world S R) : world S R :=
  World (blocks w) (refs w) f (faults w) (signal w).
Definition set_faults {S R} (f : list (option io_error)) (w : world S R) : world S R :=
  World (blocks w) (refs w) (scratch w) f (signal w).
Definition set_signal {S R} (n : option nat) (w : world S R) : world S R :=
  World (blocks w) (refs w) (scratch w) (faults w) n.

Abbreviation runtime S R A := (stm (world S R) (RuntimeError (BlockStoreError S)) A).

(** [interrupt::is_interrupt_requested]. *)
Definition is_interrupt_requested {S R} (w : world S R) : bool :=
  match signal w with Some O => true | _ => false end.

(** [interrupt::check_for_interrupt]: one poll of the flag. *)
Definition check_for_interrupt {S R} `{BlockStore S} : runtime S R unit := fun w =>
  if is_interrupt_requested w then (w, Err Interrupted)
  else (set_signal (Nat.pred <$> signal w) w, Ok ()).

(** ** The mutable ref store

    [MutableRefStoreState] names the current root and the head of the replay
    journal. A location is an [R]: a lookup and a write may fail, and both
    change it, since the failures that are to come are part of it. *)
Record MutableRefStoreState := {
  current_root_block_id : option string;
  replay_journal_head_block_id : option string;
  refs_metadata : option (gmap string string)
}.
Definition default_refs : MutableRefStoreState :=
  {| current_root_block_id := None; replay_journal_head_block_id := None; refs_metadata := None |}.

Record MutableRefStoreUpdate := {
  update_root : option string;
  update_head : option string;
  update_metadata : option (gmap string string)
}.

Definition apply_mutable_ref_store_update
    (refs : MutableRefStoreState) (update : MutableRefStoreUpdate) : MutableRefStoreState :=
  {| current_root_block_id :=
       match update_root update with Some r => Some r | None => current_root_block_id refs end;
     replay_journal_head_block_id :=
       match update_head update with Some h => Some h | None => replay_journal_head_block_id refs end;
     refs_metadata :=
       match update_metadata update with Some m => Some m | None => refs_metadata refs end |}.

(** [stored_refs] is the durable state. [intact] tells of the past: no lookup
    of the refs has taken a failure for their absence, as [Path::exists] does,
    no write has met two failures, and a local store's file is another than its
    temporary file and its backup. It only speaks about the program's
    promises and has no counterpart in the code. *)
Class MutableRefs (R E : Type) := {
  refs_label : R → string;
  read_refs : R → R * result (RuntimeError E) MutableRefStoreState;
  write_refs : MutableRefStoreState → R → R * result (RuntimeError E) unit;
  stored_refs : R → result (RuntimeError E) MutableRefStoreState;
  intact : R → bool
}.

(** What an operation leaves alone that does not write. *)
Definition kept_refs {R E} `{MutableRefs R E} (r r' : R) : Prop :=
  stored_refs r' = stored_refs r ∧ refs_label r' = refs_label r ∧ (intact r' = true → intact r = true).

#[export] Instance kept_refs_preorder {R E} `{MutableRefs R E} : PreOrder (kept_refs (R := R) (E := E)).
Proof.
  split; [by intros r|]. intros r1 r2 r3 (H1&L1&I1) (H2&L2&I2). split_and!; [congruence..|auto].
Qed.

(** A lookup finds what is stored, or it has failed and finds nothing. A write
    that succeeds is stored, one that fails may be, unless it has met two
    failures. [RefStoreSpec] proves these of the three kinds of store. *)
Class MutableRefsLaws (R E : Type) `{MutableRefs R E} := {
  read_refs_kept r r' u : read_refs r = (r', u) → kept_refs r r';
  read_refs_ok r r' st : read_refs r = (r', Ok st) →
    stored_refs r = Ok st ∨ st = default_refs ∧ intact r' = false;
  write_refs_ok st r r' : write_refs st r = (r', Ok ()) → intact r' = true → stored_refs r' = Ok st;
  write_refs_err st r r' e : write_refs st r = (r', Err e) → intact r' = true →
    stored_refs r' = stored_refs r ∨ stored_refs r' = Ok st;
  write_refs_intact st r r' u : write_refs st r = (r', u) → intact r' = true → intact r = true;
  write_refs_label st r r' u : write_refs st r = (r', u) → refs_label r' = refs_label r
}.

Section refs.
Context {S R : Type} `{BlockStore S} `{MutableRefs R (BlockStoreError S)}.

Definition load_mutable_ref_store : runtime S R MutableRefStoreState := fun w =>
  let '(r, res) := read_refs (refs w) in (set_refs r w, res).

Definition write_mutable_ref_store (st : MutableRefStoreState) : runtime S R unit := fun w =>
  let '(r, res) := write_refs st (refs w) in (set_refs r w, res).

Definition update_mutable_ref_store (update : MutableRefStoreUpdate) : runtime S R unit :=
  refs ← load_mutable_ref_store;
  write_mutable_ref_store (apply_mutable_ref_store_update refs update).

Section laws.
Context `{!MutableRefsLaws R (BlockStoreError S)}.

(** A lookup that names a head has found what is stored. *)
Lemma read_refs_head r r' st : read_refs r = (r', Ok st) → is_Some (replay_journal_head_block_id st) → stored_refs r = Ok st.
Proof. intros [?|[-> _]]%read_refs_ok [h Hh]; [done|discriminate]. Qed.
Lemma read_refs_intact r r' st : read_refs r = (r', Ok st) → intact r' = true → stored_refs r = Ok st.
Proof. intros [?|[_ Hi]]%read_refs_ok ?; [done|congruence]. Qed.

(** An update: the refs are as they were, or have changed as told. *)
Lemma update_refs_spec update (w w' : world S R) r st :
  update_mutable_ref_store update w = (w', r) → intact (refs w') = true → stored_refs (refs w) = Ok st →
  let st' := apply_mutable_ref_store_update st update in
  match r with
  | Ok _ => stored_refs (refs w') = Ok st'
  | Err e => stored_refs (refs w') = stored_refs (refs w)
      ∨ stored_refs (refs w') = Ok st' ∧ ∃ st rf, (write_refs st rf).2 = Err e
  end.
Proof.
  unfold update_mutable_ref_store, load_mutable_ref_store, write_mutable_ref_store, mbind, stm_bind.
  destruct (read_refs (refs w)) as [r1 [st1|e]] eqn:Hr; cbn [refs set_refs];
    [|intros [= <- <-] _ _; left; by apply read_refs_kept in Hr as [? _]].
  destruct (write_refs _ r1) as [r2 res] eqn:Hw. intros [= <- <-] Hi Hst; cbn [refs set_refs] in *.
  pose proof (write_refs_intact _ _ _ _ Hw Hi) as Hi1. pose proof (read_refs_intact _ _ _ Hr Hi1) as Hst1.
  apply read_refs_kept in Hr as [Hk _]. assert (st1 = st) as -> by congruence.
  destruct res as [[]|e]; [by eapply write_refs_ok|].
  destruct (write_refs_err _ _ _ _ Hw Hi) as [->|Hn]; [by left|right]. split; [done|]. eexists _, r1. by rewrite Hw.
Qed.

Lemma update_refs_intact update (w : world S R) :
  intact (refs (update_mutable_ref_store update w).1) = true → intact (refs w) = true.
Proof.
  unfold update_mutable_ref_store, load_mutable_ref_store, write_mutable_ref_store, mbind, stm_bind.
  destruct (read_refs (refs w)) as [r1 [st1|e]] eqn:Hr; apply read_refs_kept in Hr as (_&_&Hk); cbn; [|done].
  destruct (write_refs _ r1) as [r2 res] eqn:Hw. intros Hi. by eapply Hk, write_refs_intact.
Qed.
End laws.
End refs.
