(* ===== verification/Instances.v ===== *)
(** * Concrete parameters

    Small models of the services that the development takes as parameters: an
    in-memory content-addressed block store, an in-memory ref store, the block
    builder, the hexadecimal id printer and a toy digest. They show that the
    interface laws can hold together; the witnesses compute with them. *)

From Stdlib Require Import ZArith Lia Ascii.
From stdpp Require Import base gmap sets strings sorting option list.
From S2P Require Import Prelude Hex Blocks Cbor Runtime.
#[local] Open Scope Z_scope.

#[export] Instance hex_display : HashDisplay := hex_encode.
#[export] Instance hex_display_laws : HashDisplayLaws.
Proof. by intros h _. Qed.

#[export] Instance plain_builder : BuildCustom := λ t v, Ok {| cb_type_name := t; cb_content := v |}.
#[export] Instance plain_builder_laws : BuildCustomLaws.
Proof. by intros t v c [= <-]. Qed.

(** A polynomial checksum, as eight bytes behind 24 zeros. *)
Definition toy_digest (b : bytes) : block_hash :=
  replicate 24 0 ++ be 8 (foldl (λ a x, (a * 257 + x + 1) mod 18446744073709551557) 7 b).
#[export] Instance toy_sha256 : Sha256 := toy_digest.

Lemma toy_digest_ok b : hash_ok (toy_digest b).
Proof.
  unfold toy_digest. split; [by rewrite length_app, length_be|].
  apply Forall_app. split; [|apply be_byte]. apply Forall_replicate. unfold is_byte. lia.
Qed.
#[export] Instance toy_sha256_laws : Sha256Laws.
Proof. intros b. apply toy_digest_ok. Qed.

(** ** Equality of values *)
Fixpoint value_eqb (v w : value) : bool :=
  match v, w with
  | VInteger a, VInteger b | VFloat a, VFloat b | VOther a, VOther b => bool_decide (a = b)
  | VBytes a, VBytes b => bool_decide (a = b)
  | VText a, VText b => bool_decide (a = b)
  | VBool a, VBool b => bool_decide (a = b)
  | VNull, VNull => true
  | VTag t v, VTag u w => bool_decide (t = u) && value_eqb v w
  | VArray l, VArray k =>
      (fix go l k := match l, k with
        | [], [] => true
        | v :: l, w :: k => value_eqb v w && go l k
        | _, _ => false end) l k
  | VMap l, VMap k =>
      (fix go l k := match l, k with
        | [], [] => true
        | v :: l, w :: k => value_eqb v.1 w.1 && value_eqb v.2 w.2 && go l k
        | _, _ => false end) l k
  | _, _ => false
  end.

Lemma value_eqb_eq v w : value_eqb v w = true ↔ v = w.
Proof.
  revert w. induction v as [z|b|f|s|b| |t v IH|l IH|l IH|n] using value_nested_ind;
    intros w; destruct w as [z'|b'|f'|s'|b'| |t' v'|k|k|n']; cbn [value_eqb];
    rewrite ?bool_decide_eq_true; try (split; [done|discriminate]); try (split; congruence).
  - rewrite andb_true_iff, bool_decide_eq_true, IH. split; [by intros [-> ->]|by intros [= -> ->]].
  - transitivity (l = k); [|split; congruence].
    revert k. induction IH as [|v l Hv _ IHl]; intros [|w k]; try (split; done).
    rewrite andb_true_iff, Hv, IHl. split; [by intros [-> ->]|by intros [= -> ->]].
  - transitivity (l = k); [|split; congruence].
    revert k. induction IH as [|[a b] l [Ha Hb] _ IHl]; intros [|[c d] k]; try (split; done).
    cbn [fst snd] in *. rewrite !andb_true_iff, Ha, Hb, IHl.
    split; [by intros [[-> ->] ->]|by intros [= -> -> ->]].
Qed.

#[export] Instance value_eq_dec : EqDecision value.
Proof. intros v w. destruct (value_eqb v w) eqn:E; [left|right]; rewrite <-value_eqb_eq; congruence. Defined.
#[export] Instance custom_eq_dec : EqDecision CustomBlock.
Proof. solve_decision. Defined.

(** ** An in-memory store

    A put under an id that holds another block is refused. *)
Abbreviation mem_store := (gmap (list Z) CustomBlock).
Definition mem_id (c : CustomBlock) : block_hash :=
  toy_digest (as_bytes (cb_type_name c) ++ encode (cb_content c)).

Definition mem_put (c : CustomBlock) (s : mem_store) : mem_store * result string block_hash :=
  match s !! mem_id c with
  | Some d => if decide (c = d) then (s, Ok (mem_id c)) else (s, Err "block id collision")
  | None => (<[mem_id c := c]> s, Ok (mem_id c))
  end.

#[export] Instance mem_block_store : BlockStore mem_store := {|
  BlockStoreError := string;
  block_id_of := mem_id;
  put_versioned := mem_put;
  get_decoded h s := Ok ((λ c, DecodedV2 (Ok (Custom c))) <$> s !! h)
|}.

Lemma mem_put_spec c s s' r : mem_put c s = (s', r) →
  (r = Ok (mem_id c) ∧ s' !! mem_id c = Some c ∨ s' = s ∧ ∃ e, r = Err e)
  ∧ (∀ h, h ≠ mem_id c → s' !! h = s !! h) ∧ ∀ h d, s !! h = Some d → s' !! h = Some d.
Proof.
  unfold mem_put. destruct (s !! mem_id c) as [d|] eqn:Hs; [case_decide; subst|]; intros [= <- <-].
  - by split; [left|].
  - split; [right|done]. eauto.
  - split; [left; by rewrite lookup_insert_eq|]. split.
    + intros h ?. by rewrite lookup_insert_ne.
    + intros h d Hd. rewrite lookup_insert_ne; [done|]. intros <-. congruence.
Qed.

#[export] Instance mem_block_store_laws : BlockStoreLaws mem_store.
Proof.
  split.
  - intros c. apply toy_digest_ok.
  - intros c s s' h ([([= ->]&Hl)|(_&?&?)]&_&_)%mem_put_spec; [|done].
    split; [done|]. cbn -[mem_id]. by rewrite Hl.
  - intros c s s' r h d (_&_&Hk)%mem_put_spec. cbn.
    destruct (s !! h) as [x|] eqn:Hs; [|done]. intros [= <-]. by rewrite (Hk h x).
  - intros c s s' r h (_&Ho&_)%mem_put_spec ?. cbn. by rewrite Ho.
Qed.

(** ** An in-memory ref store *)
#[export] Instance mem_refs {E} : MutableRefs MutableRefStoreState E := {|
  refs_label _ := "memory";
  read_refs r := (r, Ok r);
  write_refs st _ := (st, Ok ());
  stored_refs r := Ok r;
  intact _ := true
|}.
#[export] Instance mem_refs_laws {E} : MutableRefsLaws MutableRefStoreState E.
Proof. split; cbn; intros; simplify_eq; auto; done. Qed.

Definition mem_world (r : MutableRefStoreState) : world mem_store MutableRefStoreState :=
  World ∅ r ∅ [] None.
