(* ===== verification/ReplayJournal.v ===== *)
(** * The replay journal ([runtime.rs])

    Records of what was ingested and indexed, appended as a chain of custom
    blocks of bounded size whose head is named by the mutable ref store. This
    file holds the records with their serde form, the size arithmetic, the
    append and load operations and the splitting of indexing outcomes; the
    theorems are in [ReplayJournalSpec.v]. The texts of serde's and ciborium's own
    messages, and of the [Debug] form in one message, are stand-ins. *)

From Stdlib Require Import ZArith Lia Ascii.
From stdpp Require Import base gmap sets strings sorting pretty option list.
From S2P Require Import Prelude Hex Blocks Runtime.
#[local] Open Scope Z_scope.

Definition REPLAY_JOURNAL_SCHEMA_VERSION : Z := 1.
Definition REPLAY_JOURNAL_BLOCK_MAX_BYTES : Z := 64 * 1024 * 1024.

(** ** Data *)
Inductive ReplayJournalStepKind := StepEmbedding | StepIndexing.

Inductive ReplayJournalContentRef :=
| JDocument (path : string)
| JInline (media_type : string) (body : bytes)
| JEmailChunk (email_artifact_ref : string) (chunk_index : Z).

Inductive ReplayJournalRecord :=
| ReplayInput (step_kind : ReplayJournalStepKind) (block_id : string)
    (metadata : list (string * string)) (content_ref : ReplayJournalContentRef)
| IndexingOutcome (step_kind : ReplayJournalStepKind) (input_block_ids : list string)
    (input_block_count : Z) (generated_block_ids : list string) (root_block_id : string).

Record ReplayJournalBlockBody := {
  schema_version : Z;
  previous_block_id : option string;
  entries : list ReplayJournalRecord
}.

#[export] Instance step_kind_eq_dec : EqDecision ReplayJournalStepKind.
Proof. solve_decision. Defined.
#[export] Instance journal_content_eq_dec : EqDecision ReplayJournalContentRef.
Proof. solve_decision. Defined.
#[export] Instance record_eq_dec : EqDecision ReplayJournalRecord.
Proof. solve_decision. Defined.

(** What the Rust types guarantee. *)
Definition content_ref_ok (c : ReplayJournalContentRef) : bool :=
  match c with
  | JDocument path => text_ok path
  | JInline m b => text_ok m && list_ok (λ x, bool_decide (is_byte x)) b
  | JEmailChunk r i => text_ok r && usize_ok i
  end.
Definition record_ok (r : ReplayJournalRecord) : bool :=
  match r with
  | ReplayInput _ id md c =>
      text_ok id && list_ok (λ p, text_ok p.1 && text_ok p.2) md && content_ref_ok c
  | IndexingOutcome _ ins n gen root =>
      list_ok text_ok ins && usize_ok n && list_ok text_ok gen && text_ok root
  end.
Definition body_ok (b : ReplayJournalBlockBody) : bool :=
  usize_ok (schema_version b) && from_option text_ok true (previous_block_id b)
  && list_ok record_ok (entries b).

(** ** Serde forms

    [#[derive(Serialize)]]: a struct is a map from field names in declaration
    order; [#[serde(tag = "kind", rename_all = "kebab-case")]] puts the variant
    name first under ["kind"]; [skip_serializing_if] leaves a field out. *)
Definition usize_is_zero (value : Z) : bool := value =? 0.

Definition ser_step_kind (k : ReplayJournalStepKind) : value :=
  VText (match k with StepEmbedding => "embedding" | StepIndexing => "indexing" end).

Definition ser_content_ref (c : ReplayJournalContentRef) : value :=
  match c with
  | JDocument path => VMap [field "kind" (VText "document"); field "path" (VText path)]
  | JInline m b => VMap [field "kind" (VText "inline"); field "media_type" (VText m);
      field "body" (VArray (VInteger <$> b))]
  | JEmailChunk r i => VMap [field "kind" (VText "email-chunk");
      field "email_artifact_ref" (VText r); field "chunk_index" (VInteger i)]
  end.

Definition ser_record (r : ReplayJournalRecord) : value :=
  match r with
  | ReplayInput k id md c =>
      VMap [field "kind" (VText "replay-input"); field "step_kind" (ser_step_kind k);
        field "block_id" (VText id);
        field "metadata" (VArray ((λ p, VArray [VText p.1; VText p.2]) <$> md));
        field "content_ref" (ser_content_ref c)]
  | IndexingOutcome k ins n gen root =>
      VMap ([field "kind" (VText "indexing-outcome"); field "step_kind" (ser_step_kind k)]
        ++ (if bool_decide (ins = []) then [] else [field "input_block_ids" (VArray (VText <$> ins))])
        ++ (if usize_is_zero n then [] else [field "input_block_count" (VInteger n)])
        ++ [field "generated_block_ids" (VArray (VText <$> gen)); field "root_block_id" (VText root)])
  end.

Definition ser_body (b : ReplayJournalBlockBody) : value :=
  VMap [field "schema_version" (VInteger (schema_version b));
    field "previous_block_id" (match previous_block_id b with Some s => VText s | None => VNull end);
    field "entries" (VArray (ser_record <$> entries b))].

Definition de_step_kind (v : value) : result string ReplayJournalStepKind :=
  name ← de_text v;
  if String.eqb name "embedding" then Ok StepEmbedding
  else if String.eqb name "indexing" then Ok StepIndexing
  else Err ("unknown variant " +:+ name).

Definition de_content_ref (v : value) : result string ReplayJournalContentRef :=
  l ← de_fields v;
  kind ← de_required "kind" de_text l;
  if String.eqb kind "document" then JDocument <$> de_required "path" de_text l
  else if String.eqb kind "inline" then
    m ← de_required "media_type" de_text l;
    b ← de_required "body" (de_list de_u8) l; Ok (JInline m b)
  else if String.eqb kind "email-chunk" then
    r ← de_required "email_artifact_ref" de_text l;
    i ← de_required "chunk_index" de_usize l; Ok (JEmailChunk r i)
  else Err ("unknown variant " +:+ kind).

Definition de_record (v : value) : result string ReplayJournalRecord :=
  l ← de_fields v;
  kind ← de_required "kind" de_text l;
  if String.eqb kind "replay-input" then
    k ← de_required "step_kind" de_step_kind l;
    id ← de_required "block_id" de_text l;
    md ← de_required "metadata" (de_list de_pair) l;
    c ← de_required "content_ref" de_content_ref l;
    Ok (ReplayInput k id md c)
  else if String.eqb kind "indexing-outcome" then
    k ← de_required "step_kind" de_step_kind l;
    ins ← de_default "input_block_ids" [] (de_list de_text) l;
    n ← de_default "input_block_count" 0 de_usize l;
    gen ← de_required "generated_block_ids" (de_list de_text) l;
    root ← de_required "root_block_id" de_text l;
    Ok (IndexingOutcome k ins n gen root)
  else Err ("unknown variant " +:+ kind).

Definition de_body (v : value) : result string ReplayJournalBlockBody :=
  l ← de_fields v;
  version ← de_required "schema_version" de_usize l;
  prev ← de_default "previous_block_id" None de_option_text l;
  es ← de_required "entries" (de_list de_record) l;
  Ok {| schema_version := version; previous_block_id := prev; entries := es |}.

Definition replay_journal_record_label (record : ReplayJournalRecord) : string :=
  match record with
  | ReplayInput _ block_id _ _ => block_id
  | IndexingOutcome _ _ _ _ root_block_id => root_block_id
  end.

(** ** Sizes *)
Definition cbor_array_header_size (len : Z) : Z :=
  if len <=? 23 then 1 else if len <=? 0xff then 2 else if len <=? 0xffff then 3
  else if len <=? 0xffffffff then 5 else 9.

Definition cbor_encoded_text_size (len : Z) : Z := cbor_array_header_size len + len.

Definition replay_journal_indexing_outcome_record_size
    (encoded_base_size generated_block_id_count generated_block_ids_size : Z) : Z :=
  encoded_base_size - cbor_array_header_size 0
  + cbor_array_header_size generated_block_id_count + generated_block_ids_size.

Section journal.
Context {S R : Type} `{BlockStore S} `{MutableRefs R (BlockStoreError S)}.
Context `{Ciborium} `{BuildCustom} `{HashDisplay}.
Abbreviation error := (RuntimeError (BlockStoreError S)).

(** ** Encoding *)
Definition encode_replay_journal_record (record : ReplayJournalRecord) : result error bytes :=
  map_err (λ source, WriteReplayJournal (replay_journal_record_label record) (IoError InvalidData source))
    (into_writer (ser_record record)).

Definition encode_replay_journal_block_body
    (es : list ReplayJournalRecord) (previous : option string) : result error bytes :=
  let body := {| schema_version := REPLAY_JOURNAL_SCHEMA_VERSION;
                 previous_block_id := previous; entries := es |} in
  map_err (λ source, WriteReplayJournal (default "<new>" previous) (IoError InvalidData source))
    (into_writer (ser_body body)).

Definition replay_journal_block_body_size
    (encoded_entry_sizes : list Z) (encoded_entry_size_sum : Z) (previous : option string)
    : result error Z :=
  base ← encode_replay_journal_block_body [] previous;
  Ok (len base - cbor_array_header_size 0
      + cbor_array_header_size (len encoded_entry_sizes) + encoded_entry_size_sum).

Definition replay_journal_custom_block (body : bytes) : result error CustomBlock :=
  map_err (λ source, WriteReplayJournal "<new>" (IoError InvalidData source))
    (build_custom_block CustomBlocks.REPLAY_JOURNAL_BLOCK_TYPE
       (payload_map CustomBlocks.REPLAY_JOURNAL_MEDIA_TYPE body)).

Definition oversize_error (label : string) : error :=
  WriteReplayJournal label
    (IoError InvalidData "replay journal block exceeded 67108864-byte maximum payload").

(** ** Appending *)
Definition put_block (versioned : CustomBlock) : runtime S R block_hash := fun w =>
  let '(b, r) := put_versioned versioned (blocks w) in
  (set_blocks b w, map_err BlockStoreFailed r).

Definition store_replay_journal_block (previous : option string) (es : list ReplayJournalRecord)
    : runtime S R block_hash :=
  body ← lift (encode_replay_journal_block_body es previous);
  lift (reject_if (REPLAY_JOURNAL_BLOCK_MAX_BYTES <? len body)
    (oversize_error (from_option replay_journal_record_label "<empty>" (head es)))) ;;
  versioned ← lift (replay_journal_custom_block body);
  put_block versioned.

(** The loop's variables: [current_head], [pending_entries],
    [pending_entry_sizes] and [pending_entry_size_sum]. *)
Definition append_state : Type := option string * list ReplayJournalRecord * list Z * Z.

(** [pop] of the two vectors just pushed to gives back the vectors before the
    push. *)
Definition append_step (st : append_state) (record : ReplayJournalRecord) : runtime S R append_state :=
  let '(current_head, pending, sizes, sum) := st in
  encoded ← lift (encode_replay_journal_record record);
  let size := len encoded in
  block_size ← lift (replay_journal_block_body_size (sizes ++ [size]) (sum + size) current_head);
  if REPLAY_JOURNAL_BLOCK_MAX_BYTES <? block_size then
    if bool_decide (pending = []) then
      throw (oversize_error (replay_journal_record_label record))
    else
      published ← store_replay_journal_block current_head pending;
      mret (Some (hash_to_string published), [record], [size], size)
  else mret (current_head, pending ++ [record], sizes ++ [size], sum + size).

Definition append_replay_journal_records (records : list ReplayJournalRecord)
    : runtime S R (option string) :=
  if bool_decide (records = []) then
    refs ← load_mutable_ref_store; mret (replay_journal_head_block_id refs)
  else
    refs ← load_mutable_ref_store;
    '(current_head, pending, _, _) ←
      stm_foldl append_step (replay_journal_head_block_id refs, [], [], 0) records;
    if bool_decide (pending = []) then mret current_head
    else published ← store_replay_journal_block current_head pending;
         mret (Some (hash_to_string published)).

(** [publish_replay_journal_and_mutable_refs_async]: the blocks first, then the
    refs, with a poll of the interrupt flag before each. *)
Definition publish_replay_journal_and_mutable_refs (records : list ReplayJournalRecord)
    (root : option string) (metadata : option (gmap string string)) : runtime S R unit :=
  check_for_interrupt ;;
  head ← append_replay_journal_records records;
  check_for_interrupt ;;
  update_mutable_ref_store {| update_root := root; update_head := head; update_metadata := metadata |}.

(** ** Loading *)
Definition replay_journal_block_body_from_decoded (decoded : DecodedBlock) (block_id : string)
    : result error ReplayJournalBlockBody :=
  let invalid := InvalidReplayJournalHead block_id in
  custom ← match decoded with
    | DecodedV2 validated =>
        typed ← map_err invalid validated;
        match typed with
        | Custom custom => Ok custom
        | other => Err (invalid ("unexpected journal block type " +:+ typed_block_name other))
        end
    | DecodedV1 _ => Err (invalid "unexpected journal block version V1")
    end;
  reject_if (bool_decide (cb_type_name custom ≠ CustomBlocks.REPLAY_JOURNAL_BLOCK_TYPE))
    (invalid ("unexpected journal block type name " +:+ cb_type_name custom)) ;;
  '(media_type, body) ← map_err invalid (CustomBlocks.custom_block_payload (cb_content custom));
  reject_if (bool_decide (media_type ≠ CustomBlocks.REPLAY_JOURNAL_MEDIA_TYPE))
    (invalid ("unexpected journal media type " +:+ media_type)) ;;
  decoded ← map_err invalid (v ← from_reader body; de_body v);
  reject_if (negb (schema_version decoded =? REPLAY_JOURNAL_SCHEMA_VERSION))
    (invalid "journal block schema_version must be 1") ;;
  Ok decoded.

(** One block of the chain: the cycle check, the parse, the read and the
    decoding that both traversals share. [parse_message] is the text of
    [ParseBlockHashError]. *)
Definition parse_message (value : string) : string := "failed to parse root_id " +:+ value.

Definition journal_block (visited : gset string) (id : string) (s : S)
    : result error ReplayJournalBlockBody :=
  reject_if (bool_decide (id ∈ visited))
    (InvalidReplayJournalHead id "replay journal chain contains a cycle") ;;
  h ← ok_or (decode_hash id) (InvalidReplayJournalHead id (parse_message id));
  found ← map_err BlockStoreFailed (get_decoded h s);
  decoded ← ok_or found
    (ReadReplayJournal id (IoError NotFound "referenced journal block is missing"));
  replay_journal_block_body_from_decoded decoded (hash_to_string h).

(** [loop { .. }] with [fuel] iterations; the outer [None] is out of fuel. *)
Fixpoint load_loop (fuel : nat) (visited : gset string) (acc : list ReplayJournalBlockBody)
    (id : string) (s : S) : option (result error (list ReplayJournalBlockBody)) :=
  match fuel with
  | O => None
  | Datatypes.S fuel =>
      match journal_block visited id s with
      | Err e => Some (Err e)
      | Ok body =>
          match previous_block_id body with
          | Some previous => load_loop fuel ({[id]} ∪ visited) (acc ++ [body]) previous s
          | None => Some (Ok (acc ++ [body]))
          end
      end
  end.

Definition load_replay_journal_records (fuel : nat) (w : world S R)
    : option (world S R * result error (list ReplayJournalRecord)) :=
  match load_mutable_ref_store w with
  | (w, Err e) => Some (w, Err e)
  | (w, Ok st) =>
      match replay_journal_head_block_id st with
      | None => Some (w, Err (MissingReplayJournalHead (refs_label (refs w))))
      | Some head =>
          r ← load_loop fuel ∅ [] head (blocks w);
          Some (w, blocks ← r; Ok (concat (entries <$> reverse blocks)))
      end
  end.

(** [for_each_replay_journal_record_newest_first]: the visitor [visit] is a
    computation over the world and its own local variables [V]. *)
Section for_each.
Context {V : Type} (visit : V → ReplayJournalRecord → runtime S R V).

Definition visit_entry (v : V) (entry : ReplayJournalRecord) : runtime S R V :=
  check_for_interrupt ;; visit v entry.

Fixpoint for_each_loop (fuel : nat) (visited : gset string) (v : V) (id : string) (w : world S R)
    : option (world S R * result error V) :=
  match fuel with
  | O => None
  | Datatypes.S fuel =>
      match check_for_interrupt w with
      | (w, Err e) => Some (w, Err e)
      | (w, Ok _) =>
          match journal_block visited id (blocks w) with
          | Err e => Some (w, Err e)
          | Ok body =>
              match stm_foldl visit_entry v (reverse (entries body)) w with
              | (w, Err e) => Some (w, Err e)
              | (w, Ok v) =>
                  match previous_block_id body with
                  | Some previous => for_each_loop fuel ({[id]} ∪ visited) v previous w
                  | None => Some (w, Ok v)
                  end
              end
          end
      end
  end.

Definition for_each_replay_journal_record_newest_first (fuel : nat) (v : V) (w : world S R)
    : option (world S R * result error V) :=
  match load_mutable_ref_store w with
  | (w, Err e) => Some (w, Err e)
  | (w, Ok st) =>
      match replay_journal_head_block_id st with
      | None => Some (w, Err (MissingReplayJournalHead (refs_label (refs w))))
      | Some head => for_each_loop fuel ∅ v head w
      end
  end.
End for_each.

(** ** Indexing outcomes *)
Definition indexing_outcome (n : Z) (ids : list string) (root : string) : ReplayJournalRecord :=
  IndexingOutcome StepIndexing [] n ids root.

Definition replay_journal_indexing_outcome_record_base_size (n : Z) (root_id : block_hash)
    : result error Z :=
  len <$> encode_replay_journal_record (indexing_outcome n [] (hash_to_string root_id)).

(** [sort] followed by [dedup]. *)
Definition sorted_block_ids (ids : list block_hash) : list string :=
  dedup (merge_sort String.le (hash_to_string <$> ids)).

(** The loop's variables: [records], [current_ids] and
    [current_encoded_ids_size], which is not reset when a record is pushed. *)
Definition outcome_state : Type := list ReplayJournalRecord * list string * Z.

Definition outcome_step (count initial_base continuation_base payload_limit : Z)
    (root_id : block_hash) (st : outcome_state) (id : string) : result error outcome_state :=
  let '(records, current_ids, ids_size) := st in
  let id_size := cbor_encoded_text_size (str_len id) in
  let is_initial_fragment := bool_decide (records = []) in
  let current_count := if is_initial_fragment then count else 0 in
  let base := if is_initial_fragment then initial_base else continuation_base in
  let encoded_size :=
    replay_journal_indexing_outcome_record_size base (len (current_ids ++ [id])) (ids_size + id_size) in
  block_size ← replay_journal_block_body_size [encoded_size] encoded_size
    (Some (of_bytes (replicate 64 48)));
  if payload_limit <? block_size then
    if bool_decide (current_ids = []) then
      Err (WriteReplayJournal (hash_to_string root_id)
        (IoError InvalidData ("replay journal indexing outcome exceeded " +:+ pretty payload_limit
           +:+ "-byte maximum payload")))
    else Ok (records ++ [indexing_outcome current_count current_ids (hash_to_string root_id)],
             [id], ids_size + id_size - id_size + id_size)
  else Ok (records, current_ids ++ [id], ids_size + id_size).

Definition replay_journal_indexing_outcome_records_with_limit
    (count : Z) (generated : list block_hash) (root_id : block_hash) (payload_limit : Z)
    : result error (list ReplayJournalRecord) :=
  initial_base ← replay_journal_indexing_outcome_record_base_size count root_id;
  continuation_base ← replay_journal_indexing_outcome_record_base_size 0 root_id;
  '(records, current_ids, _) ←
    result_foldl (outcome_step count initial_base continuation_base payload_limit root_id)
      ([], [], 0) (sorted_block_ids generated);
  Ok (records ++ [indexing_outcome (if bool_decide (records = []) then count else 0)
                    current_ids (hash_to_string root_id)]).

Definition replay_journal_indexing_outcome_records
    (count : Z) (generated : list block_hash) (root_id : block_hash) :=
  replay_journal_indexing_outcome_records_with_limit count generated root_id
    REPLAY_JOURNAL_BLOCK_MAX_BYTES.
End journal.
