(* ===== verification/ReplayJournalSpec.v ===== *)
(** * Theorems of the replay journal

    The serde forms round trip and have the sizes the code computes; appending
    extends a chain of bounded blocks which loading reads back; indexing
    outcomes are split into records that fit a block. *)

From Stdlib Require Import ZArith Lia Ascii.
From stdpp Require Import base gmap sets strings sorting pretty option list.
From S2P Require Import Prelude Hex Blocks Runtime ReplayJournal.
#[local] Open Scope Z_scope.

(** ** Serde round trips *)

Lemma de_ser_texts l : de_list de_text (VArray (VText <$> l)) = Ok l.
Proof. by apply result_mapM_fmap. Qed.

Lemma de_ser_content_ref c : content_ref_ok c = true → de_content_ref (ser_content_ref c) = Ok c.
Proof.
  destruct c as [p|m b|r i]; cbn; [done| |].
  - intros (_&[_ Hb]%andb_prop)%andb_prop. unfold de_content_ref, de_required, de_optional. cbn -[list_fmap].
    rewrite (result_mapM_fmap VInteger de_u8); [done|]. intros x Hx.
    rewrite forallb_forall in Hb. cbn. rewrite Hb; [done|]. by apply list_elem_of_In.
  - intros [_ Hi]%andb_prop. unfold de_content_ref, de_required, de_optional. cbn -[list_fmap]. by rewrite Hi.
Qed.

Lemma de_ser_record r : record_ok r = true → de_record (ser_record r) = Ok r.
Proof.
  destruct r as [k id md c|k ins n gen root]; cbn [record_ok].
  - intros [_ Hc]%andb_prop. unfold de_record, de_required, de_default, de_optional. cbn -[list_fmap].
    rewrite de_ser_content_ref by done.
    rewrite (result_mapM_fmap (λ p, VArray [VText p.1; VText p.2]) de_pair); [|by intros [] _].
    by destruct k.
  - intros (([_ Hn]%andb_prop&_)%andb_prop&_)%andb_prop.
    unfold de_record, de_required, de_default, de_optional, ser_record, usize_is_zero.
    case_bool_decide as Hi; destruct (Z.eqb_spec n 0) as [->|Hz]; cbn -[list_fmap];
      rewrite ?Hn, ?(result_mapM_fmap VText de_text) by done; cbn -[list_fmap];
      rewrite ?(result_mapM_fmap VText de_text) by done; destruct k; by subst.
Qed.

Lemma de_ser_body b : body_ok b = true → de_body (ser_body b) = Ok b.
Proof.
  destruct b as [v p es]. unfold body_ok. cbn. intros ([Hv _]%andb_prop&[_ He]%andb_prop)%andb_prop.
  unfold de_body, de_required, de_default, de_optional. cbn -[list_fmap]. rewrite Hv. cbn -[list_fmap].
  rewrite (result_mapM_fmap ser_record de_record).
  - by destruct p.
  - intros r Hr. apply de_ser_record. rewrite forallb_forall in He.
    apply He. by apply list_elem_of_In.
Qed.

Lemma plain_content_ref c : content_ref_ok c = true → plain (ser_content_ref c) = true.
Proof.
  destruct c as [p|m b|r i]; cbn [content_ref_ok ser_content_ref].
  - intros ?. plain_map.
  - intros [??]%andb_prop. plain_map. apply (plain_array (λ x, bool_decide (is_byte x))); [|done].
    intros x Hx%bool_decide_eq_true. unfold is_byte in Hx. apply plain_int. lia.
  - intros [??]%andb_prop. plain_map.
Qed.

Lemma plain_texts l : list_ok text_ok l = true → plain (VArray (VText <$> l)) = true.
Proof. intros Hl. by apply (plain_array text_ok). Qed.

Lemma plain_record r : record_ok r = true → plain (ser_record r) = true.
Proof.
  destruct r as [k id md c|k ins n gen root]; cbn [record_ok ser_record].
  - intros ([??]%andb_prop&?)%andb_prop. plain_map.
    + by destruct k.
    + apply (plain_array (λ p, text_ok p.1 && text_ok p.2)); [|done].
      intros [a b] [??]%andb_prop. apply (plain_array text_ok VText [a; b]); [done|].
      apply andb_true_intro. split; [done|]. cbn [forallb]. cbn [fst snd] in *.
      by rewrite !andb_true_iff.
    + by apply plain_content_ref.
  - intros (([??]%andb_prop&?)%andb_prop&?)%andb_prop.
    unfold usize_is_zero. case_bool_decide; destruct (n =? 0) eqn:?; cbn [app]; plain_map;
      try (by destruct k); by apply plain_texts.
Qed.

Lemma plain_body b : body_ok b = true → plain (ser_body b) = true.
Proof.
  destruct b as [v p es]. unfold body_ok, ser_body. cbn [schema_version previous_block_id entries].
  intros ([??]%andb_prop&?)%andb_prop. plain_map; [by destruct p|].
  apply (plain_array record_ok); [apply plain_record|done].
Qed.

(** ** Sizes *)
Lemma array_header_size n : cbor_array_header_size n = head_size n.
Proof. reflexivity. Qed.

Definition sum (l : list Z) : Z := foldr Z.add 0 l.
Lemma sum_app l k : sum (l ++ k) = sum l + sum k.
Proof. unfold sum. induction l as [|x l IH]; cbn; [done|]. rewrite IH. lia. Qed.
Lemma sum_singleton n : sum [n] = n.
Proof. unfold sum. cbn. lia. Qed.

Lemma sum_cons n l : sum (n :: l) = n + sum l.
Proof. done. Qed.

Lemma cbor_size_array {A} (g : A → value) l :
  cbor_size (VArray (g <$> l)) = head_size (len l) + sum ((λ x, cbor_size (g x)) <$> l).
Proof.
  cbn [cbor_size]. unfold len. rewrite length_fmap. f_equal.
  unfold sum. induction l as [|x l IH]; [done|]. rewrite !fmap_cons. cbn [foldr]. by rewrite IH.
Qed.

Lemma cbor_size_map l :
  cbor_size (VMap l) = head_size (len l) + sum ((λ kv, cbor_size kv.1 + cbor_size kv.2) <$> l).
Proof.
  cbn [cbor_size]. f_equal. unfold sum.
  induction l as [|x l IH]; [done|]. rewrite !fmap_cons. cbn [foldr]. by rewrite IH.
Qed.

Definition body_of (previous : option string) (es : list ReplayJournalRecord) : ReplayJournalBlockBody :=
  {| schema_version := REPLAY_JOURNAL_SCHEMA_VERSION; previous_block_id := previous; entries := es |}.

Definition record_size (r : ReplayJournalRecord) : Z := cbor_size (ser_record r).
Definition records_size (es : list ReplayJournalRecord) : Z := sum (record_size <$> es).

(** The size of a body: a part that depends on the predecessor only, the array
    head and the records. *)
Definition previous_size (previous : option string) : Z :=
  cbor_size (ser_body (body_of previous [])) - 1.

Lemma body_size previous es :
  cbor_size (ser_body (body_of previous es))
  = previous_size previous + cbor_array_header_size (len es) + records_size es.
Proof.
  unfold previous_size, records_size, ser_body.
  pose proof (array_header_size (len es)). rewrite !cbor_size_map. rewrite !fmap_cons, !sum_cons. cbn [fst snd field].
  rewrite !cbor_size_array. unfold len. cbn [length body_of entries schema_version previous_block_id].
  assert (head_size (Z.of_nat 0) = 1) as -> by done.
  unfold len in *. unfold record_size. cbn [fmap list_fmap sum foldr]. lia.
Qed.

Lemma cbor_text_size s : cbor_size (VText s) = cbor_encoded_text_size (str_len s).
Proof. reflexivity. Qed.

(** The size of an indexing outcome with the ids [ids]. *)
Definition outcome_base_size (n : Z) (root : string) : Z :=
  cbor_size (ser_record (indexing_outcome n [] root)).
Definition ids_size (ids : list string) : Z := sum ((λ s, cbor_encoded_text_size (str_len s)) <$> ids).

Lemma outcome_size n ids root :
  record_size (indexing_outcome n ids root)
  = replay_journal_indexing_outcome_record_size (outcome_base_size n root) (len ids) (ids_size ids).
Proof.
  unfold outcome_base_size, replay_journal_indexing_outcome_record_size, ids_size, record_size,
    indexing_outcome, ser_record.
  rewrite bool_decide_true by done.
  pose proof (array_header_size (len ids)). pose proof (array_header_size 0).
  assert (head_size (Z.of_nat 0) = 1) as H1 by done.
  destruct (usize_is_zero n); cbn [app]; rewrite !cbor_size_map, !fmap_cons, !sum_cons;
    cbn [fst snd field]; rewrite !cbor_size_array;
    unfold len in *; cbn [length fmap list_fmap sum foldr] in *; rewrite ?H1;
    change (cbor_array_header_size 0) with 1;
    change (λ x, cbor_size (VText x)) with (λ s, cbor_encoded_text_size (str_len s)); lia.
Qed.

(** ** Encoding *)
Section encoding.
Context {S : Type} `{BlockStore S} `{CiboriumLaws}.
Abbreviation error := (RuntimeError (BlockStoreError S)).

Lemma encode_record_ok r : record_ok r = true →
  ∃ b, encode_replay_journal_record (S := S) r = Ok b ∧ len b = record_size r.
Proof.
  intros Hr%plain_record. unfold encode_replay_journal_record.
  destruct (into_writer_plain _ Hr) as [b Hb]. rewrite Hb. exists b.
  split; [done|]. by apply into_writer_size.
Qed.

Lemma encode_body_ok es previous : body_ok (body_of previous es) = true →
  ∃ b, encode_replay_journal_block_body (S := S) es previous = Ok b
    ∧ len b = cbor_size (ser_body (body_of previous es))
    ∧ Forall is_byte b ∧ from_reader b = Ok (ser_body (body_of previous es)).
Proof.
  intros Hb%plain_body. unfold encode_replay_journal_block_body.
  fold (body_of previous es).
  destruct (into_writer_plain _ Hb) as [b Hw]. rewrite Hw. exists b. split; [done|].
  split; [by apply into_writer_size|]. split; [by eapply into_writer_byte|by apply from_into].
Qed.

Lemma body_ok_intro previous es :
  from_option text_ok true previous = true → list_ok record_ok es = true →
  body_ok (body_of previous es) = true.
Proof. intros Hp He. unfold body_ok. cbn [body_of schema_version previous_block_id entries]. by rewrite Hp, He. Qed.

Lemma block_body_size_eq sizes total previous : from_option text_ok true previous = true →
  replay_journal_block_body_size (S := S) sizes total previous
  = Ok (previous_size previous + cbor_array_header_size (len sizes) + total).
Proof.
  intros Hp. unfold replay_journal_block_body_size.
  destruct (encode_body_ok [] previous) as (b&Hb&Hl&_); [by apply body_ok_intro|].
  rewrite Hb. cbn [mbind result_bind]. f_equal. rewrite Hl. unfold previous_size.
  change (cbor_array_header_size 0) with 1. lia.
Qed.

(** The size that appending tracks is exact: for records [es] whose encoded
    sizes it has summed, [replay_journal_block_body_size] is the length of the
    block body that [encode_replay_journal_block_body] would write, so the
    limit test is neither too strict nor too lax. *)
Theorem block_body_size_exact es previous sizes n b :
  from_option text_ok true previous = true → list_ok record_ok es = true →
  Forall2 (λ r z, ∃ e, encode_replay_journal_record (S := S) r = Ok e ∧ z = len e) es sizes →
  replay_journal_block_body_size (S := S) sizes (sum sizes) previous = Ok n →
  encode_replay_journal_block_body (S := S) es previous = Ok b →
  n = len b.
Proof.
  intros Hp He Hs Hn Hb. rewrite block_body_size_eq in Hn by done. injection Hn as <-.
  destruct (encode_body_ok es previous) as (b'&Hb'&Hl&_); [by apply body_ok_intro|].
  rewrite Hb in Hb'. injection Hb' as ->. rewrite Hl, body_size.
  assert (sizes = record_size <$> es) as ->.
  { apply andb_prop in He as [_ He]. clear Hb Hl. induction Hs as [|r z es sizes (e&Hr&->) Hs IH]; [done|].
    apply andb_prop in He as [Hr' He]. cbn. f_equal; [|by apply IH].
    destruct (encode_record_ok r Hr') as (e'&Hr2&Hl2). congruence. }
  unfold len, records_size. rewrite length_fmap. lia.
Qed.
End encoding.

(** ** The chain of blocks *)
Section chain.
Context {S R : Type} `{BlockStoreLaws S} `{MutableRefsLaws R (BlockStoreError S)}.
Context `{CiboriumLaws} `{BuildCustomLaws} `{HashDisplayLaws}.
Abbreviation error := (RuntimeError (BlockStoreError S)).

(** The block named [id] is found and decodes to [body]. *)
Definition block_at (s : S) (id : string) (body : ReplayJournalBlockBody) : Prop :=
  ∃ h d, decode_hash id = Some h ∧ get_decoded h s = Ok (Some d)
    ∧ replay_journal_block_body_from_decoded (S := S) d (hash_to_string h) = Ok body.

(** The blocks reached from a head, newest first. *)
Inductive chain (s : S) : option string → list (string * ReplayJournalBlockBody) → Prop :=
| chain_nil : chain s None []
| chain_cons id body rest : block_at s id body → chain s (previous_block_id body) rest →
    chain s (Some id) ((id, body) :: rest).

Lemma block_at_fun s id b1 b2 : block_at s id b1 → block_at s id b2 → b1 = b2.
Proof.
  intros (h&d&?&?&?) (h'&d'&?&?&?). assert (h = h') as <- by congruence.
  assert (d = d') as <- by congruence. congruence.
Qed.

Lemma chain_fun s p c1 c2 : chain s p c1 → chain s p c2 → c1 = c2.
Proof.
  intros Hc1. revert c2. induction Hc1 as [|id body rest Hb _ IH]; intros c2 Hc2.
  { by inversion Hc2. }
  inversion Hc2 as [|? body2 rest2 Hb2 Hr2]; subst.
  assert (body = body2) as <- by (eapply block_at_fun; eauto). f_equal. by apply IH.
Qed.

Lemma chain_none s c : chain s None c → c = [].
Proof. by inversion 1. Qed.

Lemma chain_some s id c : chain s (Some id) c ↔
  ∃ body rest, c = (id, body) :: rest ∧ block_at s id body ∧ chain s (previous_block_id body) rest.
Proof.
  split; [inversion 1; subst; eauto 10|]. intros (body&rest&->&?&?). by constructor.
Qed.

Lemma chain_suffix s p c id : chain s p c → id ∈ c.*1 →
  ∃ c', chain s (Some id) c' ∧ (length c' ≤ length c)%nat.
Proof.
  induction 1 as [|i body rest Hb Hc IH]; cbn; [by intros ?%elem_of_nil|].
  intros [->|Hin]%elem_of_cons.
  - eexists. split; [by constructor|done].
  - destruct (IH Hin) as (c'&?&?). exists c'. split; [done|lia].
Qed.

(** A finite chain has no cycle. *)
Lemma chain_nodup s p c : chain s p c → NoDup c.*1.
Proof.
  induction 1 as [|id body rest Hb Hc IH]; cbn; [constructor|]. constructor; [|done].
  intros Hin. destruct (chain_suffix s _ _ _ Hc Hin) as (c'&Hc'&Hl).
  assert (c' = (id, body) :: rest) as -> by (eapply chain_fun; [done|by constructor]).
  cbn in Hl. lia.
Qed.

Lemma chain_grows s s' p c : grows s s' → chain s p c → chain s' p c.
Proof.
  intros Hg. induction 1 as [|id body rest (h&d&?&?&?) _ IH]; constructor; [|done].
  exists h, d. eauto.
Qed.

Lemma journal_block_ok visited id s body :
  journal_block visited id s = Ok body ↔ id ∉ visited ∧ block_at s id body.
Proof.
  unfold journal_block, block_at. rewrite result_seq_ok, reject_if_ok, bool_decide_eq_false.
  split.
  - intros (?&(h&Hh%ok_or_ok&(o&Ho%map_err_ok&(d&Hd%ok_or_ok&Hb)%result_bind_ok)%result_bind_ok)%result_bind_ok).
    subst. split; [done|]. by exists h, d.
  - intros (?&h&d&Hh&Hd&Hb). split; [done|]. rewrite Hh. cbn. rewrite Hd. cbn. done.
Qed.

Lemma load_loop_ok fuel visited acc id s l :
  load_loop fuel visited acc id s = Some (Ok l) ↔
    ∃ c, chain s (Some id) c ∧ (length c ≤ fuel)%nat ∧ (∀ i, i ∈ c.*1 → i ∉ visited)
      ∧ l = acc ++ c.*2.
Proof.
  revert visited acc id. induction fuel as [|fuel IH]; intros visited acc id; cbn.
  { split; [done|]. intros (c&Hc&Hl&_). inversion Hc; subst. cbn in Hl. lia. }
  destruct (journal_block visited id s) as [body|e] eqn:Hj; cycle 1.
  { split; [done|]. intros (c&Hc&_&Hv&_). inversion Hc as [|? body rest Hb Hr]; subst.
    assert (journal_block visited id s = Ok body) as ?; [|congruence].
    apply journal_block_ok. split; [|done]. apply Hv. by left. }
  apply journal_block_ok in Hj as [Hid Hb].
  assert (∀ c, chain s (Some id) c ↔ ∃ rest, c = (id, body) :: rest ∧ chain s (previous_block_id body) rest)
    as Hstep.
  { intros c. split.
    - inversion 1 as [|? body' rest Hb' Hr]; subst.
      assert (body' = body) as -> by (eapply block_at_fun; eauto). by exists rest.
    - intros (rest&->&?). by constructor. }
  destruct (previous_block_id body) as [previous|] eqn:Hp.
  - rewrite IH. split.
    + intros (rest&Hc&Hl&Hv&->). exists ((id, body) :: rest). rewrite Hstep. split_and!.
      * exists rest. by rewrite ?Hp.
      * cbn. lia.
      * intros i. cbn. intros [->|Hi]%elem_of_cons; [done|]. specialize (Hv i Hi). set_solver.
      * by rewrite <-app_assoc.
    + intros (c&Hc&Hl&Hv&->). pose proof (chain_nodup _ _ _ Hc) as Hnd.
      apply Hstep in Hc as (rest&->&Hr). rewrite ?Hp in Hr.
      exists rest. split_and!; [done|cbn in Hl; lia| |by rewrite <-app_assoc].
      apply NoDup_cons in Hnd as [Hn _]. intros i Hi.
      apply not_elem_of_union. split; [|apply Hv; cbn; by right].
      intros ->%elem_of_singleton. done.
  - split.
    + intros [= <-]. exists [(id, body)]. rewrite Hstep. split_and!; [|cbn; lia| |done].
      * exists []. rewrite ?Hp. split; [done|constructor].
      * intros i ->%list_elem_of_singleton. done.
    + intros (c&Hc&_&_&->). apply Hstep in Hc as (rest&->&Hr). rewrite ?Hp in Hr. by inversion Hr.
Qed.

(** [load_replay_journal_records] succeeds exactly on finite chains and returns
    their records, oldest first; only the lookup of the refs changes the world. *)
Lemma load_ok fuel (w w' : world S R) l :
  load_replay_journal_records fuel w = Some (w', Ok l) ↔
    ∃ r st head c, read_refs (refs w) = (r, Ok st) ∧ w' = set_refs r w ∧ replay_journal_head_block_id st = Some head
      ∧ chain (blocks w) (Some head) c ∧ (length c ≤ fuel)%nat
      ∧ l = concat (entries <$> reverse c.*2).
Proof.
  unfold load_replay_journal_records, load_mutable_ref_store.
  destruct (read_refs (refs w)) as [r [st|e]]; [|naive_solver].
  destruct (replay_journal_head_block_id st) as [head|] eqn:Hst; [|naive_solver]. cbn [blocks set_refs].
  assert (∀ c, chain (blocks w) (Some head) c → (length c ≤ fuel)%nat → load_loop fuel ∅ [] head (blocks w) = Some (Ok c.*2)) as Hok.
  { intros c Hc Hf. apply load_loop_ok. by exists c. }
  split.
  - destruct (load_loop fuel ∅ [] head (blocks w)) as [[bs|e]|] eqn:Hl; [|done..].
    apply load_loop_ok in Hl as (c&Hc&Hf&_&->). cbn. intros [= <- <-]. by exists r, st, head, c.
  - intros (r'&st'&head'&c&[= <- <-]&->&Hh&Hc&Hf&->). rewrite Hst in Hh. injection Hh as <-.
    by rewrite (Hok c Hc Hf).
Qed.

(** ** Appending *)

(** The refs stay and every block stays. *)
Definition extends (w w' : world S R) : Prop := refs w' = refs w ∧ grows (blocks w) (blocks w').
#[local] Instance extends_preorder : PreOrder extends.
Proof.
  split; [intros w; by split; [|intros ?]|].
  intros w1 w2 w3 [H12 Hg12] [H23 Hg23]. split; [congruence|]. intros ???. eauto.
Qed.

(** The same, but for lookups of the refs. *)
Definition keeps (w w' : world S R) : Prop := kept_refs (refs w) (refs w') ∧ grows (blocks w) (blocks w').
#[local] Instance keeps_preorder : PreOrder keeps.
Proof.
  split; [intros w; split; [reflexivity|done]|].
  intros w1 w2 w3 [H12 Hg12] [H23 Hg23]. split; [by etrans|]. intros ???. eauto.
Qed.
Lemma extends_keeps w w' : extends w w' → keeps w w'.
Proof. intros [Hr Hg]. split; [by rewrite Hr|done]. Qed.

Lemma load_refs_keeps (w : world S R) : keeps w (load_mutable_ref_store w).1.
Proof.
  unfold load_mutable_ref_store. destruct (read_refs (refs w)) as [r u] eqn:Hr. split; [by eapply read_refs_kept|done].
Qed.

Lemma put_block_extends c w : extends w (put_block c w).1.
Proof.
  unfold put_block. destruct (put_versioned c (blocks w)) as [b r] eqn:Hput. split; [done|].
  intros h d. cbn. by eapply put_frame.
Qed.

Lemma lift_extends {A} (r : result error A) w : extends w (lift r w).1.
Proof. cbn. reflexivity. Qed.

Lemma store_block_extends previous es w : extends w (store_replay_journal_block previous es w).1.
Proof.
  unfold store_replay_journal_block. repeat (apply stm_bind_inv; [apply _|apply lift_extends|intros ??]).
  apply put_block_extends.
Qed.

(** A stored body: it has records, and its encoding is within the block limit. *)
Definition bounded (b : ReplayJournalBlockBody) : Prop :=
  entries b ≠ [] ∧ cbor_size (ser_body b) ≤ REPLAY_JOURNAL_BLOCK_MAX_BYTES.

Lemma decoded_journal_block previous es b id :
  body_ok (body_of previous es) = true → from_reader b = Ok (ser_body (body_of previous es)) →
  replay_journal_block_body_from_decoded (S := S)
    (DecodedV2 (Ok (Custom {| cb_type_name := CustomBlocks.REPLAY_JOURNAL_BLOCK_TYPE;
       cb_content := payload_map CustomBlocks.REPLAY_JOURNAL_MEDIA_TYPE b |}))) id
  = Ok (body_of previous es).
Proof.
  intros Hok Hb. unfold replay_journal_block_body_from_decoded.
  cbn -[payload_map de_body CustomBlocks.custom_block_payload]. rewrite bool_decide_false by auto. cbn -[payload_map de_body CustomBlocks.custom_block_payload].
  rewrite custom_block_payload_map. cbn -[de_body]. rewrite bool_decide_false by auto.
  cbn -[de_body]. rewrite Hb. cbn -[de_body]. by rewrite de_ser_body.
Qed.

Lemma store_block_ok previous es w w' h :
  from_option text_ok true previous = true → list_ok record_ok es = true → es ≠ [] →
  store_replay_journal_block previous es w = (w', Ok h) →
  extends w w' ∧ hash_ok h ∧ bounded (body_of previous es)
  ∧ block_at (blocks w') (hash_to_string h) (body_of previous es).
Proof.
  intros Hp He Hne Hs. pose proof (body_ok_intro previous es Hp He) as Hok.
  split; [by pose proof (store_block_extends previous es w) as Hx; rewrite Hs in Hx|].
  unfold store_replay_journal_block in Hs.
  apply stm_bind_ok in Hs as (w1&b&[-> Hb]%lift_ok&Hs).
  apply stm_bind_ok in Hs as (w2&u&[-> Hu]%lift_ok&Hs).
  apply stm_bind_ok in Hs as (w3&c&[-> Hc]%lift_ok&Hs).
  rewrite reject_if_ok in Hu. apply Z.ltb_ge in Hu.
  destruct (encode_body_ok (S := S) es previous Hok) as (b'&Hb'&Hl&_&Hr).
  rewrite Hb in Hb'. injection Hb' as <-.
  unfold replay_journal_custom_block in Hc. apply map_err_ok, build_custom_fields in Hc.
  unfold put_block in Hs. destruct (put_versioned c (blocks w)) as [bs r] eqn:Hput.
  injection Hs as <- Hr'. apply map_err_ok in Hr' as ->.
  apply put_ok in Hput as [-> Hget]. pose proof (block_id_ok c) as Hid.
  split_and!; [done|split; [done|lia]|].
  exists (block_id_of S c), (DecodedV2 (Ok (Custom c))). split_and!; [by apply decode_hash_to_string|done|].
  rewrite Hc. by apply decoded_journal_block.
Qed.

(** The loop invariant: the blocks stored so far extend the old chain [old] and
    hold the records seen before the pending ones. *)
Definition appended (w0 : world S R) (old : list (string * ReplayJournalBlockBody))
    (seen : list ReplayJournalRecord) (st : append_state) (w : world S R) : Prop :=
  let '(hd, pending, sizes, total) := st in
  extends w0 w ∧ from_option text_ok true hd = true ∧
  sizes = record_size <$> pending ∧ total = sum sizes ∧ (seen ≠ [] → pending ≠ []) ∧
  ∃ new, chain (blocks w) hd (new ++ old) ∧ Forall bounded new.*2
    ∧ concat (entries <$> reverse new.*2) ++ pending = seen.

Lemma text_ok_hash h : hash_ok h → text_ok (hash_to_string h) = true.
Proof. intros Hh. unfold text_ok. by rewrite str_len_hex. Qed.

Lemma list_ok_app_l {A} (f : A → bool) l k : list_ok f (l ++ k) = true → list_ok f l = true.
Proof.
  intros [Hl%Z.ltb_lt Hf]%andb_prop. rewrite forallb_app in Hf. apply andb_prop in Hf as [Hf _].
  apply andb_true_intro. split; [|done]. apply Z.ltb_lt. unfold len in *. rewrite length_app in Hl. lia.
Qed.

Lemma list_ok_app_r {A} (f : A → bool) l k : list_ok f (l ++ k) = true → list_ok f k = true.
Proof.
  intros [Hl%Z.ltb_lt Hf]%andb_prop. rewrite forallb_app in Hf. apply andb_prop in Hf as [_ Hf].
  apply andb_true_intro. split; [|done]. apply Z.ltb_lt. unfold len in *. rewrite length_app in Hl. lia.
Qed.

(** Storing the pending records moves them into the chain. *)
Lemma appended_flush w0 old seen hd pending sizes total w w' h :
  list_ok record_ok seen = true → pending ≠ [] →
  appended w0 old seen (hd, pending, sizes, total) w →
  store_replay_journal_block hd pending w = (w', Ok h) →
  extends w0 w' ∧ text_ok (hash_to_string h) = true ∧
  ∃ new, chain (blocks w') (Some (hash_to_string h)) (new ++ old) ∧ Forall bounded new.*2
    ∧ concat (entries <$> reverse new.*2) = seen.
Proof.
  intros Hseen Hne (Hw&Hp&->&->&_&new&Hc&Hb&Hs) Hst.
  assert (list_ok record_ok pending = true) as Hok.
  { rewrite <-Hs in Hseen. by eapply list_ok_app_r. }
  destruct (store_block_ok _ _ _ _ _ Hp Hok Hne Hst) as (He&Hh&Hbd&Hat).
  split; [by etrans|]. split; [by apply text_ok_hash|].
  exists ((hash_to_string h, body_of hd pending) :: new). split_and!.
  - cbn. apply chain_cons; [done|]. cbn. eapply chain_grows; [|done]. apply He.
  - cbn. by constructor.
  - rewrite fmap_cons, reverse_cons, fmap_app, concat_app. cbn [fmap list_fmap concat snd entries body_of].
    by rewrite app_nil_r, Hs.
Qed.

Lemma append_step_ok w0 old seen st r w w' st' :
  list_ok record_ok (seen ++ [r]) = true →
  appended w0 old seen st w → append_step st r w = (w', Ok st') →
  appended w0 old (seen ++ [r]) st' w'.
Proof.
  intros Hok Happ Hstep. destruct st as [[[hd pending] sizes] total]. unfold append_step in Hstep.
  assert (record_ok r = true) as Hr.
  { apply list_ok_app_r in Hok. apply andb_prop in Hok as [_ Hok]. cbn in Hok. by rewrite andb_true_r in Hok. }
  apply stm_bind_ok in Hstep as (w1&e&[-> He]%lift_ok&Hstep).
  destruct (encode_record_ok (S := S) r Hr) as (e'&He'&Hl). rewrite He in He'. injection He' as <-.
  apply stm_bind_ok in Hstep as (w2&n&[-> Hn]%lift_ok&Hstep).
  destruct (_ <? n); [case_bool_decide as Hnil; [done|]|].
  - apply stm_bind_ok in Hstep as (w3&h&Hst&Hret). injection Hret as -> <-.
    edestruct appended_flush as (Hw&Ht&new&Hc&Hb&Hs); [by eapply list_ok_app_l|done..|].
    unfold appended. split_and!; [done..| | | |].
    + cbn. by rewrite Hl.
    + cbn. rewrite Hl. unfold sum. cbn. lia.
    + done.
    + exists new. by rewrite Hs.
  - injection Hstep as -> <-. destruct Happ as (Hw&Hp&->&->&_&new&Hc&Hb&Hs).
    unfold appended. split_and!; [done|done| | | |].
    + by rewrite fmap_app, Hl.
    + by rewrite sum_app, sum_singleton.
    + intros _. by destruct pending.
    + exists new. split_and!; [done..|]. by rewrite app_assoc, Hs.
Qed.

(** The append in full, for [head_of] the chain it starts from. *)
Lemma append_ok records w w' hd' rf st old :
  list_ok record_ok records = true → read_refs (refs w) = (rf, Ok st) →
  from_option text_ok true (replay_journal_head_block_id st) = true →
  chain (blocks w) (replay_journal_head_block_id st) old →
  append_replay_journal_records records w = (w', Ok hd') →
  extends (set_refs rf w) w' ∧ from_option text_ok true hd' = true ∧ ∃ new, chain (blocks w') hd' (new ++ old)
    ∧ Forall bounded new.*2 ∧ concat (entries <$> reverse new.*2) = records.
Proof.
  intros Hok Hst Hp Hc. unfold append_replay_journal_records, load_mutable_ref_store.
  case_bool_decide as Hnil; unfold mbind, stm_bind; cbn; rewrite Hst.
  { intros [= <- <-]. split; [done|]. split; [done|]. exists []. subst. done. }
  change (blocks w) with (blocks (set_refs rf w)) in Hc. generalize dependent (set_refs rf w). clear w Hst. intros w Hc.
  destruct (stm_foldl _ _ _ w) as [w1 [[[[hd pending] sizes] total]|e]] eqn:Hf; [|done].
  assert (appended w old records (hd, pending, sizes, total) w1) as Happ.
  { assert (list_ok record_ok records = true → appended w old records (hd, pending, sizes, total) w1) as Hx;
      [|by apply Hx].
    revert Hf. apply (stm_foldl_ok_ind (λ pre st w1, list_ok record_ok pre = true → appended w old pre st w1)).
    - intros _. split_and!; try done. by exists [].
    - intros pre r post st1 s s' st1' _ IH Hs Hpre. eapply append_step_ok; [done| |done].
      apply IH. by eapply list_ok_app_l. }
  assert (pending ≠ []) as Hpend by (apply Happ; done).
  rewrite bool_decide_false by done.
  destruct (store_replay_journal_block hd pending w1) as [w2 [h|e]] eqn:Hs; [|done].
  intros [= <- <-]. edestruct appended_flush as (?&?&?); [done..|]. done.
Qed.

Lemma append_extends records w r u : read_refs (refs w) = (r, u) →
  extends (set_refs r w) (append_replay_journal_records records w).1.
Proof.
  intros Hr. unfold append_replay_journal_records, load_mutable_ref_store.
  case_bool_decide; unfold mbind at 1, stm_bind at 1; rewrite Hr; (destruct u as [st|e]; [|reflexivity]); [reflexivity|].
  generalize (set_refs r w). intros w1. apply stm_bind_inv; [apply _| |].
  - apply stm_foldl_inv; [apply _|]. intros [[[hd pending] sizes] total] rec w2. unfold append_step.
    repeat (apply stm_bind_inv; [apply _|apply lift_extends|intros ??]).
    case_match; [case_bool_decide|]; [cbn; reflexivity| |cbn; reflexivity].
    apply stm_bind_inv; [apply _|apply store_block_extends|intros ??; cbn; reflexivity].
  - intros [[[hd pending] sizes] total] w2. case_bool_decide; [cbn; reflexivity|].
    apply stm_bind_inv; [apply _|apply store_block_extends|intros ??; cbn; reflexivity].
Qed.

Lemma append_keeps records w : keeps w (append_replay_journal_records records w).1.
Proof.
  destruct (read_refs (refs w)) as [r u] eqn:Hr. etrans; [|by eapply extends_keeps, append_extends].
  split; [by eapply read_refs_kept|done].
Qed.

(** ** The journal as an append-only log

    [journal_of w l]: the head that the refs store reaches a finite chain whose
    records, oldest first, are [l]; no head means the empty log. *)
Definition records_of (c : list (string * ReplayJournalBlockBody)) : list ReplayJournalRecord :=
  concat (entries <$> reverse c.*2).
Definition log_at (s : S) (hd : option string) (l : list ReplayJournalRecord) : Prop :=
  from_option text_ok true hd = true ∧ ∃ c, chain s hd c ∧ l = records_of c.
Definition journal_of (w : world S R) (l : list ReplayJournalRecord) : Prop :=
  ∃ st, stored_refs (refs w) = Ok st ∧ log_at (blocks w) (replay_journal_head_block_id st) l.

Lemma records_of_app c1 c2 : records_of (c1 ++ c2) = records_of c2 ++ records_of c1.
Proof. unfold records_of. by rewrite fmap_app, reverse_app, fmap_app, concat_app. Qed.

Lemma log_grows s s' hd l : grows s s' → log_at s hd l → log_at s' hd l.
Proof. intros Hg (Ht&c&Hc&->). split; [done|]. exists c. split; [by eapply chain_grows|done]. Qed.

Lemma journal_grows w w' l :
  stored_refs (refs w') = stored_refs (refs w) → grows (blocks w) (blocks w') →
  journal_of w l → journal_of w' l.
Proof. intros Hr Hg (st&Hst&Hl). exists st. split; [congruence|by eapply log_grows]. Qed.

Lemma keeps_journal w w' l : keeps w w' → journal_of w l → journal_of w' l.
Proof. intros [[Hr _] Hg]. by apply journal_grows. Qed.

Lemma interrupt_extends (w : world S R) : extends w (check_for_interrupt w).1.
Proof. unfold check_for_interrupt. case_match; (split; [done|by intros ???]). Qed.
Lemma interrupt_keeps (w : world S R) : keeps w (check_for_interrupt w).1.
Proof. apply extends_keeps, interrupt_extends. Qed.
Lemma update_grows update (w : world S R) : blocks (update_mutable_ref_store update w).1 = blocks w.
Proof.
  unfold update_mutable_ref_store, load_mutable_ref_store, write_mutable_ref_store, mbind, stm_bind.
  destruct (read_refs (refs w)) as [r [st|e]]; [|done]. by destruct (write_refs _ _).
Qed.

(** Appending to an intact store appends to the stored journal. *)
Lemma append_log records w w' hd l : list_ok record_ok records = true → journal_of w l → intact (refs w') = true →
  append_replay_journal_records records w = (w', Ok hd) →
  log_at (blocks w') hd (l ++ records) ∧ (hd = None → records = []).
Proof.
  intros Hok (st&Hst&Ht&c&Hc&->) Hi Happ. destruct (read_refs (refs w)) as [r u] eqn:Hr.
  pose proof (append_extends records w r u Hr) as Hx. rewrite Happ in Hx. destruct Hx as [Hrf _]. cbn in Hrf.
  destruct u as [st'|e].
  2:{ revert Happ. unfold append_replay_journal_records, load_mutable_ref_store, mbind, stm_bind.
      case_bool_decide; by rewrite Hr. }
  assert (stored_refs (refs w) = Ok st') as Hst' by (eapply read_refs_intact; [exact Hr|by rewrite <-Hrf]).
  assert (st' = st) as -> by congruence.
  destruct (append_ok records w w' hd r st c Hok Hr Ht Hc Happ) as (He&Hthd&new&Hnew&Hb&Hrec).
  split; [split; [done|]|].
  - exists (new ++ c). split; [done|]. rewrite records_of_app. by f_equal.
  - intros ->. apply chain_none, app_nil in Hnew as [-> ->]. by rewrite <-Hrec.
Qed.

(** Where a publication ends: the refs are as they were, or name the new head,
    the root and the metadata. *)
Lemma publish_refs records root md w w' r l :
  list_ok record_ok records = true → journal_of w l → intact (refs w') = true →
  publish_replay_journal_and_mutable_refs records root md w = (w', r) →
  grows (blocks w) (blocks w') ∧
  let switched := ∃ st hd, stored_refs (refs w) = Ok st
    ∧ stored_refs (refs w') = Ok (apply_mutable_ref_store_update st {| update_root := root; update_head := hd; update_metadata := md |})
    ∧ log_at (blocks w') (match hd with Some _ => hd | None => replay_journal_head_block_id st end) (l ++ records) in
  match r with
  | Ok _ => switched
  | Err e => stored_refs (refs w') = stored_refs (refs w) ∨ switched ∧ ∃ st rf, (write_refs st rf).2 = Err e
  end.
Proof.
  intros Hok Hj Hi. unfold publish_replay_journal_and_mutable_refs.
  assert (∀ (w1 : world S R) e, keeps w w1 → (w1, Err e) = (w', r) → grows (blocks w) (blocks w')
    ∧ match r with Ok _ => False | Err _ => stored_refs (refs w') = stored_refs (refs w) end) as Hfail.
  { intros w1 e [[Hst _] Hg] [= <- <-]. done. }
  pose proof (interrupt_keeps w) as H1'. unfold mbind at 1, stm_bind at 1.
  destruct (check_for_interrupt w) as [w1 [[]|e]]; cbn [fst] in H1';
    [|intros Hx; destruct (Hfail w1 e H1' Hx); split; [done|]; destruct r; [done|by left]].
  pose proof (append_keeps records w1) as Ha. unfold mbind at 1, stm_bind at 1.
  destruct (append_replay_journal_records records w1) as [w2 [hd|e]] eqn:Happ; cbn [fst] in Ha;
    assert (keeps w w2) as H2' by (by etrans);
    [|intros Hx; destruct (Hfail w2 e H2' Hx); split; [done|]; destruct r; [done|by left]].
  pose proof (interrupt_keeps w2) as Hp. unfold mbind at 1, stm_bind at 1.
  destruct (check_for_interrupt w2) as [w3 [[]|e]]; cbn [fst] in Hp;
    assert (keeps w w3) as H3' by (by etrans);
    [|intros Hx; destruct (Hfail w3 e H3' Hx); split; [done|]; destruct r; [done|by left]].
  intros Hup. set (update := Build_MutableRefStoreUpdate _ _ _) in Hup.
  pose proof (update_refs_intact update w3) as Hi3. pose proof (update_grows update w3) as Hb.
  rewrite Hup in Hi3, Hb. cbn [fst] in Hi3, Hb. specialize (Hi3 Hi).
  destruct Hj as (st&Hst&Hl). assert (stored_refs (refs w3) = Ok st) as Hst3 by (by rewrite (proj1 (proj1 H3'))).
  destruct (append_log records w1 w2 hd l Hok) as [Hlog Hnone]; [by eapply keeps_journal; [exact H1'|exists st]| |exact Happ|].
  { by apply Hp. }
  assert (log_at (blocks w') (match hd with Some _ => hd | None => replay_journal_head_block_id st end) (l ++ records)) as Hnew.
  { rewrite Hb. destruct hd as [hd|]; [eapply log_grows; [apply Hp|done]|].
    rewrite (Hnone eq_refl), app_nil_r. eapply log_grows; [apply H3'|done]. }
  pose proof (update_refs_spec update w3 w' r st Hup Hi Hst3) as Hspec. cbv zeta in Hspec. split; [rewrite Hb; apply H3'|].
  destruct r as [[]|e]; [by exists st, hd|].
  destruct Hspec as [Hs|[Hs Hw]]; [left; by rewrite Hs, Hst3|right]. split; [by exists st, hd|done].
Qed.

Lemma publish_outcome records root md w w' r l :
  list_ok record_ok records = true → journal_of w l → intact (refs w') = true →
  publish_replay_journal_and_mutable_refs records root md w = (w', r) →
  match r with
  | Ok _ => journal_of w' (l ++ records)
  | Err _ => journal_of w' l ∨ journal_of w' (l ++ records)
  end.
Proof.
  intros Hok Hj Hi Hp. destruct (publish_refs _ _ _ _ _ _ _ Hok Hj Hi Hp) as [Hg Hr]. cbv zeta in Hr.
  match type of Hr with match _ with Ok _ => ?P | _ => _ end => assert (P → journal_of w' (l ++ records)) as Hsw end.
  { intros (st&hd&Hst&Hst'&Hl). eexists. split; [exact Hst'|]. by destruct hd. }
  destruct r as [[]|e]; [by apply Hsw|]. destruct Hr as [Hr|[Hr _]]; [left|right; by apply Hsw].
  by eapply journal_grows.
Qed.

Lemma publish_intact records root md (w : world S R) :
  intact (refs (publish_replay_journal_and_mutable_refs records root md w).1) = true → intact (refs w) = true.
Proof.
  unfold publish_replay_journal_and_mutable_refs.
  pose proof (interrupt_keeps w) as [(_&_&H1') _]. unfold mbind at 1, stm_bind at 1.
  destruct (check_for_interrupt w) as [w1 [[]|e]]; cbn [fst] in *; [|done].
  pose proof (append_keeps records w1) as [(_&_&H2') _]. unfold mbind at 1, stm_bind at 1.
  destruct (append_replay_journal_records records w1) as [w2 [hd|e]]; cbn [fst] in *; [|auto].
  pose proof (interrupt_keeps w2) as [(_&_&H3') _]. unfold mbind at 1, stm_bind at 1.
  destruct (check_for_interrupt w2) as [w3 [[]|e]]; cbn [fst] in *; [|auto].
  intros Hi. by eapply H1', H2', H3', update_refs_intact.
Qed.

(** C11. A publication is atomic: whatever the outcome of
    [publish_replay_journal_and_mutable_refs] -- success, an interrupt at
    either poll, a full or failing block store, a failing lookup or write of the
    refs -- the journal afterwards holds either exactly the old records or the
    old records followed by the new ones, and on success it holds the new ones.
    This is so as long as the refs are intact: none of their lookups has taken a
    failure for their absence, none of their writes has met two failures, and the
    file of a local ref store ends in neither [.tmp] nor [.bak]. *)
Theorem publish_atomic records root md w w' r l :
  list_ok record_ok records = true → journal_of w l →
  publish_replay_journal_and_mutable_refs records root md w = (w', r) → intact (refs w') = true →
  match r with
  | Ok _ => journal_of w' (l ++ records)
  | Err _ => journal_of w' l ∨ journal_of w' (l ++ records)
  end.
Proof. intros ????. by eapply publish_outcome. Qed.

Lemma load_loop_short fuel visited acc id s c :
  chain s (Some id) c → (∀ i, i ∈ c.*1 → i ∉ visited) → (fuel < length c)%nat →
  load_loop fuel visited acc id s = None.
Proof.
  revert visited acc id c. induction fuel as [|fuel IH]; intros visited acc id c Hc Hv Hf; [done|].
  pose proof (chain_nodup _ _ _ Hc) as Hnd. apply chain_some in Hc as (body&rest&->&Hb&Hr).
  cbn in Hv, Hf, Hnd. apply NoDup_cons in Hnd as [Hid _].
  assert (journal_block visited id s = Ok body) as Hj.
  { apply journal_block_ok. split; [|done]. apply Hv. by left. }
  cbn. rewrite Hj. destruct (previous_block_id body) as [previous|] eqn:Hp.
  - eapply IH; [done| |lia]. intros i Hi. apply not_elem_of_union.
    split; [by intros ->%elem_of_singleton|apply Hv; by right].
  - apply chain_none in Hr as ->. cbn in Hf. lia.
Qed.

(** C34. Loading is total on a log with a head: the head's chain of blocks holds
    the records, with as many iterations as the chain has blocks or more
    [load_replay_journal_records] returns exactly them, oldest first, and with
    fewer it has not returned: one iteration a block, no early exit, no spurious
    cycle error. *)
Theorem load_reads_log w r st hd l :
  journal_of w l → read_refs (refs w) = (r, Ok st) → replay_journal_head_block_id st = Some hd →
  ∃ c, chain (blocks w) (Some hd) c ∧ l = records_of c
    ∧ (∀ fuel, (length c ≤ fuel)%nat → load_replay_journal_records fuel w = Some (set_refs r w, Ok l))
    ∧ ∀ fuel, (fuel < length c)%nat → load_replay_journal_records fuel w = None.
Proof.
  intros (st'&Hst'&_&c&Hc&->) Hst Hhd. assert (st' = st) as ->.
  { apply read_refs_head in Hst; [congruence|by rewrite Hhd]. }
  rewrite Hhd in Hc. exists c. split_and!; [done..| |].
  - intros fuel Hf. apply load_ok. by exists r, st, hd, c.
  - intros fuel Hf. unfold load_replay_journal_records, load_mutable_ref_store. rewrite Hst, Hhd. cbn [blocks set_refs].
    by rewrite (load_loop_short _ _ _ _ _ _ Hc).
Qed.

(** A traversal of a store with finitely many blocks ends. [hashes] are the
    hashes of the blocks read so far; the successor of each is visited or is
    the current id. *)
Lemma load_loop_terminates (D hashes : list block_hash) fuel visited acc id s :
  (∀ h d, get_decoded h s = Ok (Some d) → h ∈ D) →
  NoDup hashes → hashes ⊆ D →
  (∀ h, h ∈ hashes → ∃ d body, get_decoded h s = Ok (Some d)
    ∧ replay_journal_block_body_from_decoded (S := S) d (hash_to_string h) = Ok body
    ∧ ∀ next, previous_block_id body = Some next → next ∈ ({[id]} ∪ visited : gset string)) →
  (length D - length hashes + 2 ≤ fuel)%nat →
  load_loop fuel visited acc id s ≠ None.
Proof.
  intros HD. revert hashes visited acc id.
  induction fuel as [|fuel IH]; intros hashes visited acc id Hnd Hsub Hsucc Hf; [lia|].
  cbn. destruct (journal_block visited id s) as [body|] eqn:Hj; [|done].
  apply journal_block_ok in Hj as (_&h&d&_&Hd&Hb).
  destruct (previous_block_id body) as [next|] eqn:Hp; [|done].
  destruct (decide (h ∈ hashes)) as [Hin|Hin].
  - destruct (Hsucc h Hin) as (d'&body'&Hd'&Hb'&Hn).
    assert (d' = d) as -> by congruence. assert (body' = body) as -> by congruence.
    destruct fuel as [|fuel]; [lia|]. cbn. unfold journal_block.
    by rewrite bool_decide_true by (by apply Hn).
  - apply (IH (h :: hashes)).
    + by constructor.
    + intros x [->|Hx]%elem_of_cons; [by eapply HD|by apply Hsub].
    + intros x [->|Hx]%elem_of_cons.
      * exists d, body. split_and!; try done. intros n'. rewrite Hp. intros [= ->]. set_solver.
      * destruct (Hsucc x Hx) as (d'&body'&?&?&Hn). exists d', body'. split_and!; try done.
        intros n' Hn'. specialize (Hn n' Hn'). set_solver.
    + assert (length (h :: hashes) ≤ length D)%nat.
      { apply submseteq_length, NoDup_submseteq; [by constructor|].
        intros x [->|Hx]%elem_of_cons; [by eapply HD|by apply Hsub]. }
      cbn in *. lia.
Qed.

(** Loading terminates on every store with finitely many blocks, whatever
    they hold: a chain that runs in a circle is reported, so [length D + 2]
    iterations always give a result. *)
Theorem load_terminates (D : list block_hash) (w : world S R) fuel :
  (∀ h d, get_decoded h (blocks w) = Ok (Some d) → h ∈ D) →
  (length D + 2 ≤ fuel)%nat →
  load_replay_journal_records fuel w ≠ None.
Proof.
  intros HD Hf. unfold load_replay_journal_records, load_mutable_ref_store.
  destruct (read_refs (refs w)) as [rf [st|]]; [|done].
  destruct (replay_journal_head_block_id st) as [hd|]; [|done]. cbn [blocks set_refs].
  pose proof (load_loop_terminates D [] fuel ∅ [] hd (blocks w) HD) as Ht.
  destruct (load_loop fuel ∅ [] hd (blocks w)) as [r|]; [done|].
  exfalso. apply Ht; [constructor|apply list_subseteq_nil|by intros ? ?%elem_of_nil|cbn; lia|done].
Qed.

(** C33. [append_replay_journal_records] when it succeeds: the old blocks and the
    refs are untouched, but for what the lookup of the refs leaves; the new
    head's chain is the old one with new blocks in front, every new block has
    records and is at most 64 MiB long, and the new blocks hold exactly the given
    records in order. *)
Theorem append_spec records w w' hd' rf st old :
  list_ok record_ok records = true → read_refs (refs w) = (rf, Ok st) →
  from_option text_ok true (replay_journal_head_block_id st) = true →
  chain (blocks w) (replay_journal_head_block_id st) old →
  append_replay_journal_records records w = (w', Ok hd') →
  extends (set_refs rf w) w' ∧ keeps w w' ∧ ∃ new, chain (blocks w') hd' (new ++ old)
    ∧ Forall bounded new.*2 ∧ records_of new = records.
Proof.
  intros Hok Hst Hp Hc Ha. destruct (append_ok _ _ _ _ _ _ _ Hok Hst Hp Hc Ha) as (?&_&?). split_and!; [done| |done].
  pose proof (append_keeps records w) as Hk. by rewrite Ha in Hk.
Qed.

(** The size of the predecessor field. *)
Lemma previous_size_le hd : (hd = None ∨ ∃ s, hd = Some s ∧ str_len s ≤ 64) →
  previous_size hd ≤ 150.
Proof.
  assert (∀ hd, previous_size hd = previous_size None - 1
    + cbor_size (match hd with Some s => VText s | None => VNull end)) as Hgen.
  { intros p. unfold previous_size, ser_body. rewrite !cbor_size_map.
    cbn [body_of previous_block_id schema_version entries].
    rewrite !fmap_cons, !sum_cons. cbn [field fst snd].
    change (cbor_size VNull) with 1. unfold len. cbn [length]. lia. }
  assert (previous_size None = 44) as Hn by (vm_compute; reflexivity).
  rewrite Hgen, Hn. intros [->|(s&->&Hs)]; [done|]. rewrite cbor_text_size.
  unfold cbor_encoded_text_size, cbor_array_header_size. repeat case_match; lia.
Qed.

Definition short (hd : option string) : Prop := hd = None ∨ ∃ s, hd = Some s ∧ str_len s ≤ 64.

(** What the loop keeps when every record is small enough: the pending records
    fit a block. *)
Definition pending_fits (seen : list ReplayJournalRecord) (st : append_state) (w : world S R) : Prop :=
  let '(hd, pending, sizes, total) := st in
  short hd ∧ list_ok record_ok pending = true ∧ (∃ done, seen = done ++ pending)
  ∧ sizes = record_size <$> pending ∧ total = sum sizes
  ∧ (pending = [] ∨ cbor_size (ser_body (body_of hd pending)) ≤ REPLAY_JOURNAL_BLOCK_MAX_BYTES).

Definition record_fits (r : ReplayJournalRecord) : Prop :=
  record_size r + 160 ≤ REPLAY_JOURNAL_BLOCK_MAX_BYTES.

Definition store_failure (e : error) : Prop := ∃ be, e = BlockStoreFailed be.

Section errors.
Context (build_total : ∀ t v, ∃ c, build_custom_block t v = Ok c).

Lemma short_text hd : short hd → from_option text_ok true hd = true.
Proof. intros [->|(s&->&Hs)]; [done|]. apply Z.ltb_lt. lia. Qed.

Lemma store_block_err hd pending (w w' : world S R) e :
  short hd → list_ok record_ok pending = true →
  cbor_size (ser_body (body_of hd pending)) ≤ REPLAY_JOURNAL_BLOCK_MAX_BYTES →
  store_replay_journal_block hd pending w = (w', Err e) → store_failure e.
Proof using All.
  intros Hs Hp Hle. unfold store_replay_journal_block.
  destruct (encode_body_ok (S := S) pending hd) as (b&Hb&Hl&_);
    [apply body_ok_intro; [by apply short_text|done]|].
  unfold mbind, stm_bind. rewrite Hb. cbn [lift].
  assert (reject_if (REPLAY_JOURNAL_BLOCK_MAX_BYTES <? len b)
    (oversize_error (S := S) (from_option replay_journal_record_label "<empty>" (head pending))) = Ok ()) as ->.
  { apply reject_if_ok. apply Z.ltb_ge. lia. }
  cbn. unfold replay_journal_custom_block.
  destruct (build_total CustomBlocks.REPLAY_JOURNAL_BLOCK_TYPE
    (payload_map CustomBlocks.REPLAY_JOURNAL_MEDIA_TYPE b)) as [c ->]. cbn.
  unfold put_block. destruct (put_versioned c (blocks w)) as [bs [h|be]]; [done|].
  cbn. intros [= <- <-]. by exists be.
Qed.

Lemma store_block_hash hd es (w w' : world S R) h :
  from_option text_ok true hd = true → list_ok record_ok es = true → es ≠ [] →
  store_replay_journal_block hd es w = (w', Ok h) → short (Some (hash_to_string h)).
Proof.
  intros Hp He Hne Hs. destruct (store_block_ok _ _ _ _ _ Hp He Hne Hs) as (_&Hh&_).
  right. eexists. split; [done|]. by rewrite str_len_hex.
Qed.

Lemma single_fits hd r : short hd → record_fits r →
  cbor_size (ser_body (body_of hd [r])) ≤ REPLAY_JOURNAL_BLOCK_MAX_BYTES.
Proof.
  intros Hs Hr. rewrite body_size. pose proof (previous_size_le hd Hs).
  unfold records_size, record_fits in *. cbn [fmap list_fmap]. rewrite sum_singleton.
  change (cbor_array_header_size (len [r])) with 1. lia.
Qed.

Lemma append_step_fits seen st r (w w' : world S R) st' :
  record_ok r = true → record_fits r → list_ok record_ok (seen ++ [r]) = true →
  pending_fits seen st w → append_step st r w = (w', Ok st') → pending_fits (seen ++ [r]) st' w'.
Proof using All.
  intros Hr Hfit Hok Hpf Hstep. destruct st as [[[hd pending] sizes] total].
  destruct Hpf as (Hs&Hp&(dn&->)&->&->&Hle). unfold append_step in Hstep.
  apply stm_bind_ok in Hstep as (w1&e&[-> He]%lift_ok&Hstep).
  destruct (encode_record_ok (S := S) r Hr) as (e'&He'&Hl). rewrite He in He'. injection He' as <-.
  apply stm_bind_ok in Hstep as (w2&n&[-> Hn]%lift_ok&Hstep).
  rewrite block_body_size_eq in Hn by (by apply short_text). injection Hn as <-.
  assert (list_ok record_ok [r] = true) as Hr1 by (by eapply list_ok_app_r).
  destruct (_ <? _) eqn:Hlt; [case_bool_decide as Hnil; [done|]|].
  - apply stm_bind_ok in Hstep as (w3&h&Hst&Hret). injection Hret as -> <-.
    assert (short (Some (hash_to_string h))) as Hsh
      by (eapply store_block_hash; [by apply short_text|exact Hp|exact Hnil|exact Hst]).
    split_and!; [done|done|by exists (dn ++ pending)| | |].
    + cbn. by rewrite Hl.
    + rewrite sum_singleton. done.
    + right. by apply single_fits.
  - injection Hstep as -> <-. split_and!; [done| | | | |].
    + rewrite <-app_assoc in Hok. by eapply list_ok_app_r.
    + exists dn. by rewrite app_assoc.
    + by rewrite fmap_app, Hl.
    + by rewrite sum_app, sum_singleton.
    + right. apply Z.ltb_ge in Hlt. rewrite body_size. unfold records_size.
      rewrite fmap_app, sum_app. cbn [fmap list_fmap]. rewrite sum_singleton, <-Hl.
      unfold len in *. rewrite !length_app, length_fmap in *. cbn [length] in *. lia.
Qed.

Lemma append_step_err seen st r (w w' : world S R) e :
  record_ok r = true → record_fits r →
  pending_fits seen st w → append_step st r w = (w', Err e) → store_failure e.
Proof using All.
  intros Hr Hfit Hpf Hstep. destruct st as [[[hd pending] sizes] total].
  destruct Hpf as (Hs&Hp&(dn&->)&->&->&Hle). unfold append_step, mbind, stm_bind in Hstep.
  destruct (encode_record_ok (S := S) r Hr) as (b&He&Hl). rewrite He in Hstep. cbn [lift] in Hstep.
  rewrite block_body_size_eq in Hstep by (by apply short_text). cbn [lift] in Hstep.
  destruct (_ <? _) eqn:Hlt; [|done]. case_bool_decide as Hnil.
  - exfalso. subst. apply Z.ltb_lt in Hlt. pose proof (previous_size_le hd Hs) as Hps.
    unfold record_fits in Hfit. cbn in Hlt. change (cbor_array_header_size (len [len b])) with 1 in Hlt. lia.
  - destruct (store_replay_journal_block hd pending w) as [w1 [h|e1]] eqn:Hst; [done|].
    injection Hstep as <- <-. eapply store_block_err; [done..| |done]. by destruct Hle.
Qed.

(** Appending fails only when the block store does: if every record leaves
    room for the block's own fields (160 bytes are enough) and the head is
    empty or a block id, the only error [append_replay_journal_records] can
    return is the store's; no split it chooses is ever rejected by the size
    check of [store_replay_journal_block]. *)
Theorem append_errors records w w' e rf st :
  list_ok record_ok records = true → Forall record_fits records →
  read_refs (refs w) = (rf, Ok st) → short (replay_journal_head_block_id st) →
  append_replay_journal_records records w = (w', Err e) → store_failure e.
Proof using All.
  intros Hok Hfit Hst Hs. unfold append_replay_journal_records, load_mutable_ref_store.
  assert (∀ r, r ∈ records → record_ok r = true ∧ record_fits r) as Hall.
  { intros r Hin. rewrite Forall_forall in Hfit. split; [|by apply Hfit].
    apply andb_prop in Hok as [_ Hok]. rewrite forallb_forall in Hok. by apply Hok, list_elem_of_In. }
  case_bool_decide as Hnil; unfold mbind, stm_bind; cbn; rewrite Hst; [done|].
  assert (∀ pre x post v (s s' : world S R) v', records = pre ++ x :: post →
    pending_fits pre v s → append_step v x s = (s', Ok v') → pending_fits (pre ++ [x]) v' s') as Hstep.
  { intros pre x post v s s' v' Heq Hpf. destruct (Hall x) as [??]; [rewrite Heq; set_solver|].
    apply append_step_fits; [done..| |done]. rewrite Heq in Hok.
    eapply (list_ok_app_l _ _ post). by rewrite <-app_assoc. }
  assert (pending_fits [] (replay_journal_head_block_id st, [], [], 0) (set_refs rf w)) as H0'.
  { split_and!; try done; [by exists []|by left]. }
  destruct (stm_foldl _ _ _ _) as [w1 [[[[hd pending] sizes] total]|e1]] eqn:Hf.
  - case_bool_decide as Hpend; [done|].
    assert (pending_fits records (hd, pending, sizes, total) w1) as (Hs1&Hp1&_&_&_&Hle).
    { revert Hf. by apply (stm_foldl_ok_ind pending_fits). }
    destruct (store_replay_journal_block hd pending w1) as [w2 [h|e2]] eqn:Hsb; [done|].
    intros [= <- <-]. eapply store_block_err; [done..| |done]. by destruct Hle.
  - intros [= <- <-]. revert Hf. apply (stm_foldl_err_ind pending_fits store_failure); [done|done|].
    intros pre x post v s s' e Heq Hpf Hx. destruct (Hall x) as [??]; [rewrite Heq; set_solver|].
    by eapply append_step_err.
Qed.
End errors.

(** ** Visiting, newest first *)
Section visiting.
Context {V : Type} (visit : V → ReplayJournalRecord → runtime S R V).
Context (visit_blocks : ∀ v r w, blocks (visit v r w).1 = blocks w).
Context (visit_signal : ∀ v r w, signal w = None → signal (visit v r w).1 = None).

Lemma poll_none (w : world S R) : signal w = None → check_for_interrupt w = (w, Ok ()).
Proof. destruct w. unfold check_for_interrupt, is_interrupt_requested, set_signal. cbn. by intros ->. Qed.

Lemma visit_entries_none v l w : signal w = None →
  stm_foldl (visit_entry visit) v l w = stm_foldl visit v l w
  ∧ signal (stm_foldl visit v l w).1 = None
  ∧ blocks (stm_foldl visit v l w).1 = blocks w.
Proof using visit_blocks visit_signal.
  revert v w. induction l as [|r l IH]; intros v w Hw; cbn; [done|].
  unfold visit_entry, mbind, stm_bind. rewrite poll_none by done.
  pose proof (visit_signal v r w Hw) as Hs. pose proof (visit_blocks v r w) as Hb.
  destruct (visit v r w) as [w1 [v1|e]]; cbn in *; [|done].
  destruct (IH v1 w1 Hs) as (He&?&?). split; [exact He|]. split; [done|congruence].
Qed.

Lemma for_each_loop_none fuel visited v id w c :
  signal w = None → chain (blocks w) (Some id) c → (∀ i, i ∈ c.*1 → i ∉ visited) →
  (length c ≤ fuel)%nat →
  for_each_loop visit fuel visited v id w
  = Some (stm_foldl visit v (reverse (records_of c)) w).
Proof using visit_blocks visit_signal.
  revert visited v id w c. induction fuel as [|fuel IH]; intros visited v id w c Hw Hc Hv Hl.
  { apply chain_some in Hc as (body&rest&->&_). cbn in Hl. lia. }
  pose proof (chain_nodup _ _ _ Hc) as Hnd. apply chain_some in Hc as (body&rest&->&Hb&Hr).
  cbn in Hv, Hl, Hnd. apply NoDup_cons in Hnd as [Hid Hnd].
  assert (journal_block visited id (blocks w) = Ok body) as Hj.
  { apply journal_block_ok. split; [|done]. apply Hv. by left. }
  assert (reverse (records_of ((id, body) :: rest))
    = reverse (entries body) ++ reverse (records_of rest)) as ->.
  { change ((id, body) :: rest) with ([(id, body)] ++ rest).
    rewrite records_of_app, reverse_app. f_equal. unfold records_of. cbn. by rewrite app_nil_r. }
  cbn. rewrite poll_none, Hj by done.
  destruct (visit_entries_none v (reverse (entries body)) w Hw) as (He&Hs&Hbl). rewrite He.
  rewrite stm_foldl_app. unfold mbind, stm_bind.
  destruct (stm_foldl visit v (reverse (entries body)) w) as [w1 [v1|e]]; cbn in *; [|done].
  destruct (previous_block_id body) as [previous|] eqn:Hp.
  - apply IH; [done|by rewrite Hbl| |lia]. intros i Hi. apply not_elem_of_union.
    split; [by intros ->%elem_of_singleton|apply Hv; by right].
  - apply chain_none in Hr as ->. done.
Qed.

(** Without an interrupt, [for_each_replay_journal_record_newest_first] runs
    its visitor over exactly the records that [load_replay_journal_records]
    returns, in reverse order, stopping at the visitor's first error: the two
    traversals of the journal agree. *)
Theorem for_each_is_reverse_load w r st hd l v :
  journal_of w l → read_refs (refs w) = (r, Ok st) → replay_journal_head_block_id st = Some hd →
  signal w = None →
  ∃ n, ∀ fuel, (n ≤ fuel)%nat →
    load_replay_journal_records fuel w = Some (set_refs r w, Ok l) ∧
    for_each_replay_journal_record_newest_first visit fuel v w
    = Some (stm_foldl visit v (reverse l) (set_refs r w)).
Proof using All.
  intros (st'&Hst'&_&c&Hc&->) Hst Hhd Hw. assert (st' = st) as ->.
  { apply read_refs_head in Hst; [congruence|by rewrite Hhd]. }
  rewrite Hhd in Hc. exists (length c). intros fuel Hf. split.
  - apply load_ok. by exists r, st, hd, c.
  - unfold for_each_replay_journal_record_newest_first, load_mutable_ref_store. rewrite Hst, Hhd.
    by apply for_each_loop_none.
Qed.
End visiting.
End chain.

(** ** Indexing outcomes *)
Section outcomes.
Context {S : Type} `{BlockStore S} `{CiboriumLaws} `{HashDisplayLaws}.
Abbreviation error := (RuntimeError (BlockStoreError S)).

Definition generated_of (r : ReplayJournalRecord) : list string :=
  match r with IndexingOutcome _ _ _ gen _ => gen | _ => [] end.

(** The block that holds one record after a 64-character predecessor. *)
Definition zero_id : string := of_bytes (replicate 64 48).
Definition alone_size (r : ReplayJournalRecord) : Z :=
  cbor_size (ser_body (body_of (Some zero_id) [r])).

Lemma alone_size_eq n ids root :
  alone_size (indexing_outcome n ids root)
  = previous_size (Some zero_id) + 1 + (outcome_base_size n root - 1)
    + cbor_array_header_size (len ids) + ids_size ids.
Proof.
  unfold alone_size. rewrite body_size. unfold records_size. cbn [fmap list_fmap].
  rewrite sum_singleton, outcome_size. unfold replay_journal_indexing_outcome_record_size.
  change (cbor_array_header_size (len [indexing_outcome n ids root])) with 1.
  change (cbor_array_header_size 0) with 1. lia.
Qed.

(** All ids have the same length, so any two cost the same. *)
Definition id_ok (s : string) : Prop := str_len s = 64.

Lemma ids_size_eq ids : Forall id_ok ids → ids_size ids = 66 * len ids.
Proof.
  unfold ids_size, sum, len. induction 1 as [|s ids Hs _ IH]; [done|].
  rewrite fmap_cons. cbn [foldr length]. rewrite IH, Hs.
  change (cbor_encoded_text_size 64) with 66. lia.
Qed.

Lemma outcome_base_continuation n root : 0 ≤ n < 2 ^ 64 →
  outcome_base_size 0 root ≤ outcome_base_size n root ≤ outcome_base_size 0 root + 27.
Proof.
  intros Hn. unfold outcome_base_size, indexing_outcome, ser_record.
  rewrite !bool_decide_true by done. unfold usize_is_zero. change (0 =? 0) with true.
  destruct (Z.eqb_spec n 0) as [->|Hz]; [cbn [app]; lia|].
  cbn [app]. rewrite !cbor_size_map, !fmap_cons, !sum_cons. cbn [fst snd field].
  assert (cbor_size (VText "input_block_count") + cbor_size (VInteger n) ≤ 27
    ∧ 0 ≤ cbor_size (VText "input_block_count") + cbor_size (VInteger n)) as [??].
  { change (cbor_size (VText "input_block_count")) with 18. cbn [cbor_size].
    unfold head_size. repeat case_match; lia. }
  unfold len. cbn [length]. change (head_size (Z.of_nat 4)) with 1. change (head_size (Z.of_nat 5)) with 1. lia.
Qed.

Section splitting.
Context (count limit : Z) (root_id : block_hash).
Context (count_ok : 0 ≤ count < 2 ^ 64) (root_ok : hash_ok root_id).
Abbreviation root := (hash_to_string root_id).
Abbreviation ib := (outcome_base_size count root).
Abbreviation cb := (outcome_base_size 0 root).
Abbreviation K := (previous_size (Some zero_id)).

Lemma outcome_base_ok n : 0 ≤ n < 2 ^ 64 →
  replay_journal_indexing_outcome_record_base_size (S := S) n root_id = Ok (outcome_base_size n root).
Proof using All - (count limit count_ok).
  intros Hn. unfold replay_journal_indexing_outcome_record_base_size.
  destruct (encode_record_ok (S := S) (indexing_outcome n [] root)) as (b&Hb&Hl).
  - cbn -[usize_ok text_ok]. rewrite text_ok_hash by done.
    assert (usize_ok n = true) as ->; [|done].
    apply andb_true_intro. split; [apply Z.leb_le|apply Z.ltb_lt]; lia.
  - rewrite Hb. cbn. by rewrite Hl.
Qed.

Lemma outcome_step_eq records cur size id : id_ok id →
  outcome_step (S := S) count ib cb limit root_id (records, cur, size) id =
  let first := bool_decide (records = []) in
  if limit <? K + (if first then ib else cb) + cbor_array_header_size (len cur + 1) + size + 66
  then if bool_decide (cur = [])
       then Err (WriteReplayJournal root
        (IoError InvalidData ("replay journal indexing outcome exceeded " +:+ pretty limit
           +:+ "-byte maximum payload")))
       else Ok (records ++ [indexing_outcome (if first then count else 0) cur root], [id], size + 66)
  else Ok (records, cur ++ [id], size + 66).
Proof using All.
  intros Hid. unfold outcome_step. rewrite block_body_size_eq by reflexivity.
  fold zero_id. cbn [mbind result_bind]. rewrite Hid. change (cbor_encoded_text_size 64) with 66.
  unfold replay_journal_indexing_outcome_record_size. rewrite len_app.
  change (len [id]) with 1. change (cbor_array_header_size 0) with 1.
  change (cbor_array_header_size (len [_])) with 1.
  set (f := bool_decide (records = [])). cbv zeta.
  replace (K + 1 + ((if f then ib else cb) - 1 + cbor_array_header_size (len cur + 1) + (size + 66)))
    with (K + (if f then ib else cb) + cbor_array_header_size (len cur + 1) + size + 66) by lia.
  replace (size + 66 - 66 + 66) with (size + 66) by lia. done.
Qed.

(** Every id costs the same: whether one fits decides all. *)
Definition one_fits : Prop := K + ib + 1 + 66 ≤ limit.

Lemma alone_size_ids n ids : Forall id_ok ids →
  alone_size (indexing_outcome n ids root)
  = K + outcome_base_size n root + cbor_array_header_size (len ids) + 66 * len ids.
Proof. intros Hids. rewrite alone_size_eq, ids_size_eq by done. lia. Qed.

Lemma array_header_bounds n : 0 ≤ n → 1 ≤ cbor_array_header_size n ≤ 9.
Proof. intros. unfold cbor_array_header_size. repeat case_match; lia. Qed.

(** The fragments pushed so far. The first carries the count; once there is one,
    the loop's running size exceeds the limit by itself and every later
    fragment has one id. *)
Definition fragments_ok (seen : list string) (st : outcome_state) : Prop :=
  let '(records, cur, size) := st in
  size = 66 * len seen ∧
  match records with
  | [] => cur = seen ∧ (seen = [] ∨ alone_size (indexing_outcome count seen root) ≤ limit)
  | r :: rs =>
      (∃ ids, ids ≠ [] ∧ r = indexing_outcome count ids root ∧ alone_size r ≤ limit)
      ∧ Forall (λ r, ∃ id, r = indexing_outcome 0 [id] root ∧ alone_size r ≤ limit) rs
      ∧ (∃ id, cur = [id]) ∧ alone_size (indexing_outcome 0 cur root) ≤ limit
      ∧ (generated_of r ++ concat (generated_of <$> rs)) ++ cur = seen
      ∧ limit < K + cb + 36 + size
  end.

Lemma outcome_step_fragments seen st id :
  one_fits → Forall id_ok (seen ++ [id]) → fragments_ok seen st →
  ∃ st', outcome_step (S := S) count ib cb limit root_id st id = Ok st' ∧ fragments_ok (seen ++ [id]) st'.
Proof using All.
  intros Hone Hids Hfr. destruct st as [[records cur] size]. destruct Hfr as [-> Hfr].
  pose proof (outcome_base_continuation count root count_ok) as Hb.
  apply Forall_app in Hids as [Hseen Hid]. apply Forall_cons in Hid as [Hid _].
  pose proof (array_header_bounds (len cur + 1)) as Hh. pose proof (len_nonneg cur).
  rewrite outcome_step_eq by done. cbv zeta.
  assert (alone_size (indexing_outcome 0 [id] root) ≤ limit) as Halone.
  { rewrite alone_size_ids by (by repeat constructor). unfold one_fits in Hone.
    change (len [id]) with 1. change (cbor_array_header_size 1) with 1. lia. }
  assert (66 * len seen + 66 = 66 * len (seen ++ [id])) as Hsize by (rewrite len_app; change (len [id]) with 1; lia).
  destruct records as [|r rs].
  - rewrite bool_decide_true by done. destruct Hfr as [-> Hfit].
    destruct (_ <? _) eqn:Hlt; [apply Z.ltb_lt in Hlt|apply Z.ltb_ge in Hlt].
    + case_bool_decide as Hnil.
      { subst. unfold one_fits in Hone. change (len []) with 0 in *.
        change (cbor_array_header_size (0 + 1)) with 1 in *. lia. }
      eexists. split; [done|]. split; [done|]. cbn [app].
      destruct Hfit as [|Hfit]; [done|]. split_and!; [by exists seen|done|by exists id|done| |lia].
      cbn. by rewrite app_nil_r.
    + eexists. split; [done|]. split; [done|]. split; [done|]. right.
      rewrite alone_size_ids by (apply Forall_app; by repeat constructor).
      rewrite <-Hsize, len_app. change (len [id]) with 1. lia.
  - rewrite bool_decide_false by done. destruct Hfr as (Hr&Hrs&(i&->)&Hcur&Hcat&Hover).
    change (len [i] + 1) with 2 in *. change (cbor_array_header_size 2) with 1 in *.
    destruct (_ <? _) eqn:Hlt; [|apply Z.ltb_ge in Hlt; lia].
    rewrite bool_decide_false by done. eexists. split; [done|]. split; [done|]. cbn [app].
    split_and!; [done| |by exists id|done| |lia].
    + apply Forall_app. split; [done|]. constructor; [|done]. by exists i.
    + rewrite fmap_app, concat_app. cbn. rewrite <-Hcat. by rewrite <-!app_assoc.
Qed.

Lemma outcome_loop ids : one_fits → Forall id_ok ids →
  ∃ st, result_foldl (outcome_step (S := S) count ib cb limit root_id) ([], [], 0) ids = Ok st
    ∧ fragments_ok ids st.
Proof using All.
  intros Hone. induction ids as [|id ids IH] using rev_ind; intros Hids.
  { eexists. split; [done|]. split; [done|]. split; [done|by left]. }
  pose proof Hids as Hids'. apply Forall_app in Hids' as [Hids' _].
  destruct (IH Hids') as (st&Hst&Hfr). rewrite result_foldl_app, Hst.
  destruct (outcome_step_fragments ids st id Hone Hids Hfr) as (st'&Hst'&Hfr').
  exists st'. split; [|done]. cbn [result_foldl mbind result_bind]. by rewrite Hst'.
Qed.
End splitting.

Lemma sorted_ids_ok generated : Forall hash_ok generated →
  Forall id_ok (sorted_block_ids generated).
Proof.
  intros Hg. apply Forall_forall. intros x Hx. unfold sorted_block_ids in Hx.
  rewrite elem_of_dedup, merge_sort_Permutation in Hx.
  apply list_elem_of_fmap in Hx as (h&->&Hh). rewrite Forall_forall in Hg.
  unfold id_ok. apply str_len_hex. by apply Hg.
Qed.

Lemma elem_of_sorted_ids generated x :
  x ∈ sorted_block_ids generated ↔ ∃ h, h ∈ generated ∧ x = hash_to_string h.
Proof.
  unfold sorted_block_ids. rewrite elem_of_dedup, merge_sort_Permutation, list_elem_of_fmap. naive_solver.
Qed.

Lemma sorted_ids_sorted generated :
  StronglySorted (λ a b, String.le a b ∧ a ≠ b) (sorted_block_ids generated).
Proof. apply dedup_strongly_sorted; [apply _|]. apply StronglySorted_merge_sort; apply _. Qed.

Lemma outcomes_result count generated root_id limit :
  0 ≤ count < 2 ^ 64 → hash_ok root_id → Forall hash_ok generated → one_fits count limit root_id →
  ∃ st, fragments_ok count limit root_id (sorted_block_ids generated) st
    ∧ replay_journal_indexing_outcome_records_with_limit (S := S) count generated root_id limit
      = Ok (st.1.1 ++ [indexing_outcome (if bool_decide (st.1.1 = []) then count else 0)
                    st.1.2 (hash_to_string root_id)]).
Proof.
  intros Hc Hr Hg Hone.
  destruct (outcome_loop count limit root_id Hc Hr _ Hone (sorted_ids_ok _ Hg)) as (st&Hst&Hfr).
  exists st. split; [done|]. unfold replay_journal_indexing_outcome_records_with_limit.
  rewrite !outcome_base_ok by done. cbn [mbind result_bind].
  rewrite Hst. by destruct st as [[records cur] size].
Qed.

(** Splitting an indexing outcome loses nothing and respects the limit: if
    one id fits, [replay_journal_indexing_outcome_records_with_limit] succeeds;
    its records carry, in order, the distinct generated ids in increasing
    order; the first record alone carries the input count; all name the root;
    and with at least one id every record fits a block of its own behind a
    predecessor. *)
Theorem outcome_records_spec count generated root_id limit :
  0 ≤ count < 2 ^ 64 → hash_ok root_id → Forall hash_ok generated → one_fits count limit root_id →
  ∃ ids rest,
    replay_journal_indexing_outcome_records_with_limit (S := S) count generated root_id limit
      = Ok (indexing_outcome count ids (hash_to_string root_id)
            :: ((λ i, indexing_outcome 0 i (hash_to_string root_id)) <$> rest))
    ∧ StronglySorted (λ a b, String.le a b ∧ a ≠ b) (ids ++ concat rest)
    ∧ (∀ x, x ∈ ids ++ concat rest ↔ ∃ h, h ∈ generated ∧ x = hash_to_string h)
    ∧ (generated ≠ [] → alone_size (indexing_outcome count ids (hash_to_string root_id)) ≤ limit)
    ∧ Forall (λ i, alone_size (indexing_outcome 0 i (hash_to_string root_id)) ≤ limit) rest.
Proof.
  intros Hc Hr Hg Hone. destruct (outcomes_result _ _ _ _ Hc Hr Hg Hone) as (st&Hfr&->).
  assert (generated ≠ [] → sorted_block_ids generated ≠ []) as Hne.
  { destruct generated as [|h g]; [done|]. intros _ Heq.
    assert (hash_to_string h ∈ sorted_block_ids (h :: g)) as Hin
      by (apply elem_of_sorted_ids; exists h; split; [by left|done]).
    rewrite Heq in Hin. by apply elem_of_nil in Hin. }
  pose proof (elem_of_sorted_ids generated) as Hel. pose proof (sorted_ids_sorted generated) as Hso.
  set (seen := sorted_block_ids generated) in *. clearbody seen.
  destruct st as [[[|r rs] cur] size]; cbn [fst snd] in *; destruct Hfr as [Hsz Hfr].
  - destruct Hfr as [-> Hfit]. exists seen, []. rewrite bool_decide_true by done.
    cbn [concat fmap list_fmap]. rewrite app_nil_r. split_and!; try done.
    intros ?%Hne. by destruct Hfit.
  - destruct Hfr as ((ids&Hids&->&Hfit)&Hrs&(i&->)&Hcur&Hcat&_). cbn [generated_of indexing_outcome] in Hcat.
    assert (∃ rest, rs = (λ i, indexing_outcome 0 i (hash_to_string root_id)) <$> rest
      ∧ concat (generated_of <$> rs) = concat rest
      ∧ Forall (λ i, alone_size (indexing_outcome 0 i (hash_to_string root_id)) ≤ limit) rest)
      as (rest&->&Hgen&Hrest).
    { clear -Hrs. induction Hrs as [|r rs (j&->&Hj) _ (rest&->&Hgen&Hrest)]; [by exists []|].
      exists ([j] :: rest). cbn in *. rewrite Hgen. split_and!; [done..|]. by constructor. }
    exists ids, (rest ++ [[i]]). rewrite bool_decide_false by done.
    rewrite concat_app. cbn [concat]. rewrite app_nil_r, app_assoc, <-Hgen, Hcat.
    rewrite fmap_app. split_and!; try done. apply Forall_app. split; [done|]. by constructor.
Qed.

(** After the first record, every record carries exactly one id, however
    much room the limit leaves: [current_encoded_ids_size] is not reset when a
    record is pushed, so from then on the running size alone exceeds the
    limit. *)
Theorem outcome_continuations_single count generated root_id limit first rest :
  0 ≤ count < 2 ^ 64 → hash_ok root_id → Forall hash_ok generated → one_fits count limit root_id →
  replay_journal_indexing_outcome_records_with_limit (S := S) count generated root_id limit
    = Ok (first :: rest) →
  Forall (λ r, ∃ id, generated_of r = [id]) rest.
Proof.
  intros Hc Hr Hg Hone Hrun. destruct (outcomes_result _ _ _ _ Hc Hr Hg Hone) as (st&Hfr&Heq).
  rewrite Hrun in Heq. injection Heq as Heq. clear Hrun.
  destruct st as [[[|r rs] cur] size]; cbn [fst snd] in *; destruct Hfr as [_ Hfr].
  - injection Heq as -> Heq. subst rest. done.
  - destruct Hfr as (_&Hrs&(i&->)&_). injection Heq as -> Heq. subst rest. apply Forall_app. split.
    + eapply Forall_impl; [exact Hrs|]. intros r1 (id&->&_). by exists id.
    + constructor; [|done]. by exists i.
Qed.

(** The one way to fail: an id that does not fit a block by itself. *)
Theorem outcome_records_error count generated root_id limit :
  0 ≤ count < 2 ^ 64 → hash_ok root_id → Forall hash_ok generated →
  (∃ e, replay_journal_indexing_outcome_records_with_limit (S := S) count generated root_id limit = Err e)
  ↔ generated ≠ [] ∧ ∃ h, h ∈ generated ∧
      limit < alone_size (indexing_outcome count [hash_to_string h] (hash_to_string root_id)).
Proof.
  intros Hc Hr Hg.
  assert (∀ h, h ∈ generated →
    limit < alone_size (indexing_outcome count [hash_to_string h] (hash_to_string root_id))
    ↔ ¬ one_fits count limit root_id) as Hone.
  { intros h Hh. rewrite Forall_forall in Hg. rewrite alone_size_ids.
    - unfold one_fits. change (len [_]) with 1. change (cbor_array_header_size 1) with 1. lia.
    - constructor; [|done]. unfold id_ok. apply str_len_hex. by apply Hg. }
  split.
  - intros (e&He). destruct generated as [|h g].
    { exfalso. unfold replay_journal_indexing_outcome_records_with_limit in He.
      by rewrite !outcome_base_ok in He by done. }
    split; [done|]. exists h. split; [by left|]. rewrite Hone by (by left). intros Hx.
    destruct (outcomes_result _ _ _ _ Hc Hr Hg Hx) as (st&_&Hst). congruence.
  - intros (_&h&Hh&Hn%Hone); [|done].
    pose proof (sorted_ids_ok _ Hg) as Hids.
    unfold replay_journal_indexing_outcome_records_with_limit.
    rewrite !outcome_base_ok by done. cbn [mbind result_bind].
    destruct (sorted_block_ids generated) as [|id ids] eqn:Hs.
    { assert (hash_to_string h ∈ sorted_block_ids generated) as Hin
        by (apply elem_of_sorted_ids; by exists h). rewrite Hs in Hin. by apply elem_of_nil in Hin. }
    apply Forall_cons in Hids as [Hid _]. cbn [result_foldl].
    rewrite outcome_step_eq by done. rewrite bool_decide_true by done. cbv zeta.
    assert (cbor_array_header_size (len (@nil string) + 1) = 1) as -> by done.
    destruct (_ <? _) eqn:Hlt; [rewrite bool_decide_true by done; by eexists|].
    apply Z.ltb_ge in Hlt. exfalso. apply Hn. unfold one_fits. lia.
Qed.
End outcomes.
