(* ===== verification/ReplayJournalWitness.v ===== *)
(** * The replay journal theorems at concrete inputs

    Each lemma instantiates the parameters with those of [Instances.v],
    evaluates the hypotheses of a theorem of [ReplayJournalSpec.v] and applies
    it. *)

From Stdlib Require Import ZArith Lia Ascii.
From stdpp Require Import base gmap sets strings sorting pretty option list.
From S2P Require Import Prelude Hex Blocks Cbor Runtime Instances ReplayJournal ReplayJournalSpec.
#[local] Open Scope Z_scope.

Abbreviation test_world := (world mem_store MutableRefStoreState).

Definition id_a : string := of_bytes (replicate 64 97).
Definition id_b : string := of_bytes (replicate 64 98).
Definition sample_records : list ReplayJournalRecord :=
  [ReplayInput StepEmbedding id_a [("source_kind", "document")]%string (JDocument "a.txt");
   ReplayInput StepEmbedding id_b [] (JEmailChunk id_a 3);
   IndexingOutcome StepIndexing [] 2 [id_a; id_b] id_b].
Definition w0 : test_world := mem_world default_refs.
Definition append_run : test_world * result (RuntimeError string) (option string) :=
  append_replay_journal_records sample_records w0.
Definition publish_run : test_world * result (RuntimeError string) unit :=
  publish_replay_journal_and_mutable_refs sample_records (Some id_b) None w0.
Definition w1 : test_world := publish_run.1.

Lemma journal_w0 : journal_of w0 [].
Proof. exists default_refs. split; [done|]. split; [done|]. exists []. split; [constructor|done]. Qed.

Lemma sample_ok : list_ok record_ok sample_records = true.
Proof. vm_compute. reflexivity. Qed.
Lemma publish_run_ok : publish_run = (w1, Ok ()).
Proof. vm_compute. reflexivity. Qed.

Lemma publish_atomic_witness : publish_run = (w1, Ok ()) ∧ journal_of w1 ([] ++ sample_records).
Proof.
  split; [exact publish_run_ok|].
  exact (publish_atomic sample_records (Some id_b) None w0 w1 (Ok ()) [] sample_ok journal_w0 publish_run_ok eq_refl).
Defined.

(** The journal after the publication, from the computation. *)
Definition refs1 : MutableRefStoreState := refs w1.
Definition head1 : string := default "" (replay_journal_head_block_id refs1).

Lemma load_w1 : load_replay_journal_records 1 w1 = Some (w1, Ok sample_records).
Proof. vm_compute. reflexivity. Qed.
Lemma refs_w1 : read_refs (E := BlockStoreError mem_store) (refs w1) = (refs1, Ok refs1).
Proof. done. Qed.
Lemma head_w1 : replay_journal_head_block_id refs1 = Some head1.
Proof. vm_compute. reflexivity. Qed.

Lemma chain_w1 : ∃ c, chain (blocks w1) (Some head1) c ∧ sample_records = records_of c.
Proof.
  pose proof load_w1 as (r&st&hd&c&Hst&_&Hhd&Hc&_&Hl)%load_ok.
  rewrite refs_w1 in Hst. injection Hst as <- <-. rewrite head_w1 in Hhd. injection Hhd as <-.
  by exists c.
Qed.

Lemma journal_w1 : journal_of w1 sample_records.
Proof.
  exists refs1. split; [done|]. rewrite head_w1. split; [by vm_compute|]. exact chain_w1.
Qed.

Lemma load_reads_log_witness : ∃ c, chain (blocks w1) (Some head1) c ∧ sample_records = records_of c
  ∧ (∀ fuel, (length c ≤ fuel)%nat → load_replay_journal_records fuel w1 = Some (w1, Ok sample_records))
  ∧ ∀ fuel, (fuel < length c)%nat → load_replay_journal_records fuel w1 = None.
Proof. exact (load_reads_log w1 refs1 refs1 head1 sample_records journal_w1 refs_w1 head_w1). Defined.

Lemma mem_store_finite (s : mem_store) h d :
  get_decoded h s = Ok (Some d) → h ∈ (map_to_list s).*1.
Proof.
  cbn. destruct (s !! h) as [c|] eqn:Hs; [|done]. intros _.
  apply list_elem_of_fmap. exists (h, c). split; [done|]. by apply elem_of_map_to_list.
Qed.

(** A store whose one journal block names itself as predecessor could only come
    from a digest collision; the bound holds for any store. *)
Lemma load_terminates_witness : load_replay_journal_records 3 w1 ≠ None.
Proof.
  apply (load_terminates (map_to_list (blocks w1)).*1 w1 3); [apply mem_store_finite|].
  vm_compute. lia.
Defined.

Definition append_world : test_world := append_run.1.
Definition append_head : option string := match append_run.2 with Ok h => h | Err _ => None end.

Lemma append_spec_witness :
  append_run = (append_world, Ok append_head) ∧ ∃ new,
    chain (blocks append_world) append_head (new ++ []) ∧ Forall bounded new.*2
    ∧ records_of new = sample_records.
Proof.
  assert (append_run = (append_world, Ok append_head)) as Hrun by (vm_compute; reflexivity).
  split; [exact Hrun|].
  exact (proj2 (proj2 (append_spec sample_records w0 append_world append_head default_refs default_refs []
    sample_ok eq_refl eq_refl (chain_nil (blocks w0)) Hrun))).
Defined.

(** A store that holds another block under the id to come refuses the put. *)
Definition other_block : CustomBlock := {| cb_type_name := "other"; cb_content := VNull |}.
Definition full_world : test_world :=
  set_blocks ((λ _, other_block) <$> blocks append_world) w0.
Definition full_run := append_replay_journal_records sample_records full_world.

Lemma sample_fits : Forall record_fits sample_records.
Proof. repeat constructor; vm_compute; discriminate. Qed.

Lemma append_errors_witness :
  full_run = (full_world, Err (BlockStoreFailed "block id collision"))
  ∧ store_failure (S := mem_store) (BlockStoreFailed "block id collision").
Proof.
  assert (full_run = (full_world, Err (BlockStoreFailed "block id collision"))) as Hrun
    by (vm_compute; reflexivity).
  split; [exact Hrun|].
  apply (append_errors (R := MutableRefStoreState) ltac:(intros t v; eexists; reflexivity)
    sample_records full_world full_world _ default_refs default_refs sample_ok sample_fits eq_refl
    (or_introl eq_refl) Hrun).
Defined.

Definition collect (v : list ReplayJournalRecord) (r : ReplayJournalRecord)
    : runtime mem_store MutableRefStoreState (list ReplayJournalRecord) := mret (v ++ [r]).

Lemma for_each_is_reverse_load_witness : ∃ n, ∀ fuel, (n ≤ fuel)%nat →
  load_replay_journal_records fuel w1 = Some (w1, Ok sample_records) ∧
  for_each_replay_journal_record_newest_first collect fuel [] w1
  = Some (w1, Ok (reverse sample_records)).
Proof.
  exact (for_each_is_reverse_load collect ltac:(reflexivity) ltac:(by intros)
    w1 refs1 refs1 head1 sample_records [] journal_w1 refs_w1 head_w1 eq_refl).
Defined.

Definition sample_sizes : list Z := record_size <$> sample_records.
Definition sample_body : bytes :=
  match encode_replay_journal_block_body (S := mem_store) sample_records (Some id_a) with
  | Ok b => b | Err _ => [] end.

Lemma block_body_size_exact_witness :
  replay_journal_block_body_size (S := mem_store) sample_sizes (sum sample_sizes) (Some id_a)
    = Ok (len sample_body) ∧ len sample_body = len sample_body.
Proof.
  assert (replay_journal_block_body_size (S := mem_store) sample_sizes (sum sample_sizes) (Some id_a)
    = Ok (len sample_body)) as Hn by (vm_compute; reflexivity).
  split; [exact Hn|].
  apply (block_body_size_exact sample_records (Some id_a) sample_sizes (len sample_body) sample_body);
    [by vm_compute|exact sample_ok| |exact Hn|by vm_compute].
  unfold sample_sizes. repeat constructor; (eexists; split; [reflexivity|by vm_compute]).
Defined.

(** ** Indexing outcomes *)
Definition hash_n (n : Z) : block_hash := replicate 31 0 ++ [n].
Definition generated : list block_hash := hash_n <$> [5; 3; 9; 3; 1].
Definition split_records : list ReplayJournalRecord :=
  match replay_journal_indexing_outcome_records_with_limit (S := mem_store) 7 generated (hash_n 1) 500 with
  | Ok l => l | Err _ => [] end.

Lemma hash_n_ok n : is_byte n → hash_ok (hash_n n).
Proof.
  intros Hn. split; [done|]. apply Forall_app. split; [|by constructor].
  apply Forall_replicate. unfold is_byte. lia.
Qed.
Lemma generated_ok : Forall hash_ok generated.
Proof. unfold generated. repeat (apply Forall_cons; split; [apply hash_n_ok; unfold is_byte; lia|]). by constructor. Qed.
Lemma one_fits_500 : one_fits 7 500 (hash_n 1).
Proof. unfold one_fits. vm_compute. discriminate. Qed.

Lemma outcome_records_spec_witness : ∃ ids rest,
  replay_journal_indexing_outcome_records_with_limit (S := mem_store) 7 generated (hash_n 1) 500
    = Ok (indexing_outcome 7 ids (hash_to_string (hash_n 1))
          :: ((λ i, indexing_outcome 0 i (hash_to_string (hash_n 1))) <$> rest))
  ∧ length ids = 3%nat ∧ length rest = 1%nat.
Proof.
  destruct (outcome_records_spec (S := mem_store) 7 generated (hash_n 1) 500 ltac:(lia)
    (hash_n_ok 1 ltac:(unfold is_byte; lia)) generated_ok one_fits_500) as (ids&rest&Heq&_).
  exists ids, rest. split; [exact Heq|]. vm_compute in Heq.
  injection Heq as <- Hr. destruct rest as [|r [|]]; try discriminate. done.
Defined.

(** Seven ids with room for three to a record: 3, then one each. *)
Definition many : list block_hash := hash_n <$> [1; 2; 3; 4; 5; 6; 7].
Lemma many_ok : Forall hash_ok many.
Proof. unfold many. repeat (apply Forall_cons; split; [apply hash_n_ok; unfold is_byte; lia|]). by constructor. Qed.

Definition many_records : list ReplayJournalRecord :=
  match replay_journal_indexing_outcome_records_with_limit (S := mem_store) 7 many (hash_n 1) 500 with
  | Ok l => l | Err _ => [] end.
Definition many_first : ReplayJournalRecord := List.hd (indexing_outcome 0 [] "") many_records.
Definition many_rest : list ReplayJournalRecord := List.tl many_records.

Lemma outcome_continuations_single_witness :
  replay_journal_indexing_outcome_records_with_limit (S := mem_store) 7 many (hash_n 1) 500
    = Ok (many_first :: many_rest)
  ∧ length (generated_of many_first) = 3%nat ∧ length many_rest = 4%nat
  ∧ Forall (λ r, ∃ id, generated_of r = [id]) many_rest.
Proof.
  assert (replay_journal_indexing_outcome_records_with_limit (S := mem_store) 7 many (hash_n 1) 500
    = Ok (many_first :: many_rest)) as Hrun by (vm_compute; reflexivity).
  split; [exact Hrun|]. split; [by vm_compute|]. split; [by vm_compute|].
  exact (outcome_continuations_single (S := mem_store) 7 many (hash_n 1) 500 many_first many_rest
    ltac:(lia) (hash_n_ok 1 ltac:(unfold is_byte; lia)) many_ok one_fits_500 Hrun).
Defined.

Lemma outcome_records_error_witness : ∃ e,
  replay_journal_indexing_outcome_records_with_limit (S := mem_store) 7 generated (hash_n 1) 100 = Err e.
Proof.
  apply (outcome_records_error (S := mem_store) 7 generated (hash_n 1) 100 ltac:(lia)
    (hash_n_ok 1 ltac:(unfold is_byte; lia)) generated_ok).
  split; [discriminate|]. exists (hash_n 5). split; [by left|]. by vm_compute.
Defined.
