(* ===== verification/Items.v ===== *)
(** * Index items ([resolver.rs], [runtime.rs], [config.rs])

    What is indexed: a content reference with text metadata; its replay journal
    record; and the item read back from a stored leaf block. A path is the
    string that [to_string_lossy] gives for it. *)

From Stdlib Require Import ZArith Lia Ascii.
From stdpp Require Import base gmap sets strings sorting pretty option list.
From S2P Require Import Prelude Hex Blocks Runtime ReplayJournal.
#[local] Open Scope Z_scope.

(** ** Numbers as text: [usize::to_string], [{:020}] and [str::parse] *)
Definition fmt_usize (n : Z) : string := pretty (Z.to_N n).
Definition fmt_usize_padded (width : Z) (n : Z) : bytes :=
  replicate (Z.to_nat (width - len (as_bytes (fmt_usize n)))) 48 ++ as_bytes (fmt_usize n).

Fixpoint parse_digits (acc : Z) (l : bytes) : option Z :=
  match l with
  | [] => Some acc
  | b :: l =>
      if (48 <=? b) && (b <=? 57) then
        let acc := acc * 10 + (b - 48) in
        if acc <? 2 ^ 64 then parse_digits acc l else None
      else None
  end.
Definition parse_usize (s : string) : option Z :=
  match as_bytes s with
  | [] => None
  | 43 :: [] => None
  | 43 :: l => parse_digits 0 l
  | l => parse_digits 0 l
  end.

(** ** Content references *)
Inductive ReplayIdentity :=
| IdDocument (source_path : string)
| IdEmailChunk (email_artifact_ref : string) (chunk_index : Z).

Inductive ContentRef :=
| CDocument (path : string)
| CInline (media_type : string) (body : bytes)
| CStoredReplay (media_type : string) (body : bytes) (identity : ReplayIdentity)
| CEmailChunk (email_artifact_ref : string) (chunk_index : Z).

Record IndexItem := { item_metadata : list (value * value); item_content_ref : ContentRef }.

(** [path.replace('\\', "/")]. *)
Definition normalize_byte (b : Z) : Z := if b =? 92 then 47 else b.
Definition normalize_document_identity_path (path : string) : string :=
  of_bytes (normalize_byte <$> as_bytes path).
Definition normalize_replay_journal_path (path : string) : string :=
  of_bytes (normalize_byte <$> as_bytes path).

(** [metadata_to_text_map] of [config.rs], and [metadata_to_lexongraph]. *)
Definition metadata_to_text_map (metadata : list (value * value)) : gmap string string :=
  metadata_values_to_text_map metadata.

Definition metadata_to_lexongraph (metadata : gmap string string) (source_kind path : string)
    : list (value * value) :=
  [(VText "source_kind", VText source_kind);
   (VText "source_path", VText (normalize_document_identity_path path))]
  ++ ((λ kv, (VText kv.1, VText kv.2)) <$> btree_pairs metadata).

(** ** Journal records of items *)
Definition journal_content_ref (c : ContentRef) : ReplayJournalContentRef :=
  match c with
  | CDocument path => JDocument (normalize_replay_journal_path path)
  | CInline media_type body => JInline media_type body
  | CStoredReplay _ _ (IdDocument source_path) =>
      JDocument (normalize_document_identity_path source_path)
  | CStoredReplay _ _ (IdEmailChunk r i) => JEmailChunk r i
  | CEmailChunk r i => JEmailChunk r i
  end.

Definition replay_journal_record_from_item `{HashDisplay} (block_id : block_hash) (item : IndexItem)
    : ReplayJournalRecord :=
  ReplayInput StepEmbedding (hash_to_string block_id)
    (btree_pairs (metadata_to_text_map (item_metadata item)))
    (journal_content_ref (item_content_ref item)).

Definition text_pairs_to_metadata (pairs : list (string * string)) : list (value * value) :=
  (λ p, (VText p.1, VText p.2)) <$> pairs.

Definition replay_journal_record_to_item (record : ReplayJournalRecord) : option IndexItem :=
  match record with
  | ReplayInput _ _ metadata content_ref =>
      Some {| item_metadata := text_pairs_to_metadata metadata;
              item_content_ref := match content_ref with
                | JDocument path => CDocument path
                | JInline media_type body => CInline media_type body
                | JEmailChunk r i => CEmailChunk r i
                end |}
  | IndexingOutcome _ _ _ _ _ => None
  end.

(** ** Items of stored leaf blocks *)
#[export] Instance embedding_spec_eq_dec : EqDecision EmbeddingSpec.
Proof. solve_decision. Defined.

(** The common guard of [replay_item_from_validated_block] and
    [replay_embedding_input_hash]: a level-0 leaf of the configured spec with
    one entry that has an embedding. *)
Definition replay_leaf_entry (block : Block) (spec : EmbeddingSpec) : option LeafEntry :=
  match block with
  | BBranch _ => None
  | BLeaf leaf =>
      match lb_entries leaf with
      | [entry] =>
          if negb (lb_level leaf =? 0) || bool_decide (lb_spec leaf ≠ spec) || (dims (lb_spec leaf) =? 0)
             || bool_decide (le_embedding entry = [])
          then None else Some entry
      | _ => None
      end
  end.

Section stored.
Context {E : Type} `{HashDisplay}.

(** A block with its hash: [ValidatedBlock]. *)
Definition replay_item_from_validated_block (hash : block_hash) (block : Block) (spec : EmbeddingSpec)
    : result (RuntimeError E) (option (IndexItem * bytes)) :=
  match replay_leaf_entry block spec with
  | None => Ok None
  | Some entry =>
      let fields := metadata_to_text_map (le_metadata entry) in
      let missing := MissingReplayMetadata (hash_to_string hash) in
      let stored identity :=
        Ok (Some ({| item_metadata := le_metadata entry;
                     item_content_ref := CStoredReplay (media_type (le_content entry))
                       (body (le_content entry)) identity |}, le_embedding entry)) in
      match fields !! "source_kind" with
      | None => Err missing
      | Some source_kind =>
          if bool_decide (source_kind = "document") then
            source_path ← ok_or (fields !! "source_path") missing;
            stored (IdDocument source_path)
          else if bool_decide (source_kind = "email") then
            email_artifact_ref ← ok_or (fields !! "email_artifact_ref") missing;
            chunk_index ← ok_or (fields !! "chunk_index" ≫= parse_usize) missing;
            stored (IdEmailChunk email_artifact_ref chunk_index)
          else Ok None
      end
  end.
End stored.

(** ** Batches *)
Record ReplayBatch := {
  batch_items : list IndexItem;
  batch_records : list ReplayJournalRecord;
  batch_message : option string
}.

(** [iter.by_ref().take(chunk_size)] until the iterator is empty; [fuel] is the
    number of items. *)
Fixpoint chunks {A} (fuel : nat) (size : nat) (l : list A) : list (list A) :=
  match fuel, l with
  | _, [] => []
  | O, _ => []
  | S fuel, _ => take size l :: chunks fuel size (drop size l)
  end.

Definition chunk_replay_items (items : list IndexItem) (max_concurrency : Z) : list ReplayBatch :=
  (λ chunk, {| batch_items := chunk; batch_records := []; batch_message := None |})
    <$> chunks (length items) (Z.to_nat (Z.max max_concurrency 1)) items.

(** ** Lemmas *)
Lemma normalize_byte_byte b : is_byte b → is_byte (normalize_byte b).
Proof. unfold normalize_byte, is_byte. case_match; lia. Qed.

Lemma normalize_byte_idemp b : normalize_byte (normalize_byte b) = normalize_byte b.
Proof. unfold normalize_byte. destruct (b =? 92) eqn:?; [done|]. case_match; lia. Qed.

Lemma as_bytes_normalize path :
  as_bytes (normalize_document_identity_path path) = normalize_byte <$> as_bytes path.
Proof.
  apply as_bytes_of_bytes, Forall_fmap. eapply Forall_impl; [apply as_bytes_byte|].
  apply normalize_byte_byte.
Qed.

Lemma normalize_idemp path :
  normalize_document_identity_path (normalize_document_identity_path path)
  = normalize_document_identity_path path.
Proof.
  unfold normalize_document_identity_path at 1. rewrite as_bytes_normalize, <-list_fmap_compose.
  unfold normalize_document_identity_path. f_equal. apply list_fmap_ext.
  intros ???. apply normalize_byte_idemp.
Qed.

Lemma text_map_of_pairs l : metadata_to_text_map (text_pairs_to_metadata l) = btree_collect l.
Proof.
  unfold metadata_to_text_map, metadata_values_to_text_map, text_pairs_to_metadata. f_equal.
  induction l as [|[k v] l IH]; [done|]. cbn. by f_equal.
Qed.

(** A key of the configured metadata wins over the two the code adds. *)
Lemma text_map_of_lexongraph md kind path :
  metadata_to_text_map (metadata_to_lexongraph md kind path)
  = md ∪ <["source_path" := normalize_document_identity_path path]> {["source_kind" := kind]}.
Proof.
  unfold metadata_to_lexongraph. change ([(VText "source_kind", _); _]) with
    (text_pairs_to_metadata [("source_kind", kind); ("source_path", normalize_document_identity_path path)]).
  change ((λ kv, (VText kv.1, VText kv.2)) <$> btree_pairs md) with (text_pairs_to_metadata (btree_pairs md)).
  unfold text_pairs_to_metadata. rewrite <-fmap_app. fold (text_pairs_to_metadata
    ([("source_kind", kind); ("source_path", normalize_document_identity_path path)] ++ btree_pairs md)).
  by rewrite text_map_of_pairs, btree_collect_app_pairs.
Qed.

Lemma chunks_concat {A} fuel size (l : list A) : (0 < size)%nat → (length l ≤ fuel)%nat →
  concat (chunks fuel size l) = l ∧ Forall (λ c, c ≠ [] ∧ (length c ≤ size)%nat) (chunks fuel size l).
Proof.
  intros Hs. revert l. induction fuel as [|fuel IH]; intros [|x l] Hl; cbn [chunks concat]; try done.
  { cbn in Hl. lia. }
  destruct (IH (drop size (x :: l))) as [Hc Hf].
  { rewrite length_drop. cbn in *. lia. }
  rewrite Hc, take_drop. split; [done|]. constructor; [|done]. split.
  - destruct size; [lia|done].
  - rewrite length_take. lia.
Qed.
