(* ===== verification/SortKey.v ===== *)
(** * The replay sort key ([runtime.rs])

    [replay_sort_key] orders items by content and metadata;
    [replay_sort_key_digest] hashes a byte encoding of that key, built for an
    item and, separately, for its journal record. The theorems: the encoding is
    the key's order, the two digests agree, and both survive storing an item in
    a leaf block and reading it back. *)

From Stdlib Require Import ZArith Lia Ascii.
From stdpp Require Import base gmap sets strings sorting pretty option list.
From S2P Require Import Prelude Hex Blocks Runtime ReplayJournal Items.
#[local] Open Scope Z_scope.

(** ** Decimal numbers

    [digits[index] = b'0' + remaining % 10] from the end of a 20-byte array:
    [room] is [index], the result is [&digits[index..]]; running out of room is
    the array's index panic ([None]). *)
Fixpoint decimal_loop (room : nat) (remaining : Z) (acc : bytes) : option bytes :=
  match room with
  | O => None
  | S room =>
      let acc := (48 + remaining mod 10) :: acc in
      let remaining := remaining / 10 in
      if remaining =? 0 then Some acc else decimal_loop room remaining acc
  end.

Definition append_usize_decimal (buffer : bytes) (value : Z) : option bytes :=
  digits ← decimal_loop 20 value []; Some (buffer ++ digits).

Definition append_zero_padded_usize_decimal (buffer : bytes) (value width : Z) : option bytes :=
  digits ← decimal_loop 20 value [];
  Some (buffer ++ replicate (Z.to_nat (width - len digits)) 48 ++ digits).

(** ** Comparable bytes: a zero byte is escaped as [0, 1], a string ends in [0, 0] *)
Definition escape_byte (byte : Z) : bytes := if byte =? 0 then [0; 1] else [byte].
Definition escape (data : bytes) : bytes := data ≫= escape_byte.
Definition append_comparable_sort_bytes (buffer data : bytes) : bytes := buffer ++ escape data.

Definition append_comparable_sort_string (buffer : bytes) (value : string) : bytes :=
  append_comparable_sort_bytes buffer (as_bytes value) ++ [0; 0].

(** [enumerate] with a separator before every element but the first. *)
Fixpoint append_inline_items (first : bool) (buffer data : bytes) : option bytes :=
  match data with
  | [] => Some buffer
  | byte :: data =>
      buffer ← append_usize_decimal (if first then buffer else buffer ++ [44; 32]) byte;
      append_inline_items false buffer data
  end.
Definition append_inline_debug_body (buffer data : bytes) : option bytes :=
  buffer ← append_inline_items true (buffer ++ [91]) data; Some (buffer ++ [93]).

Fixpoint append_normalized_document_identity_path_bytes (buffer path : bytes) : bytes :=
  match path with
  | [] => buffer
  | byte :: path =>
      append_normalized_document_identity_path_bytes
        (append_comparable_sort_bytes buffer [normalize_byte byte]) path
  end.

(** The three shapes of content key. *)
Definition append_document_key (buffer : bytes) (path : string) : option bytes :=
  Some (append_normalized_document_identity_path_bytes
    (append_comparable_sort_bytes buffer (as_bytes "document:")) (as_bytes path)).
Definition append_inline_key (buffer : bytes) (media_type : string) (data : bytes) : option bytes :=
  append_inline_debug_body
    (append_comparable_sort_bytes
      (append_comparable_sort_bytes
        (append_comparable_sort_bytes buffer (as_bytes "inline:")) (as_bytes media_type))
      (as_bytes ":")) data.
Definition append_email_key (buffer : bytes) (email_artifact_ref : string) (chunk_index : Z) : option bytes :=
  append_zero_padded_usize_decimal
    (append_comparable_sort_bytes
      (append_comparable_sort_bytes
        (append_comparable_sort_bytes buffer (as_bytes "email:")) (as_bytes email_artifact_ref))
      (as_bytes ":")) chunk_index 20.

Definition append_replay_content_sort_key_bytes (buffer : bytes) (content_ref : ContentRef) : option bytes :=
  buffer ← match content_ref with
    | CDocument path => append_document_key buffer path
    | CInline media_type body => append_inline_key buffer media_type body
    | CStoredReplay _ _ (IdDocument source_path) => append_document_key buffer source_path
    | CStoredReplay _ _ (IdEmailChunk r i) => append_email_key buffer r i
    | CEmailChunk r i => append_email_key buffer r i
    end;
  Some (buffer ++ [0; 0]).

Definition append_replay_journal_content_sort_key_bytes
    (buffer : bytes) (content_ref : ReplayJournalContentRef) : option bytes :=
  buffer ← match content_ref with
    | JDocument path => append_document_key buffer path
    | JInline media_type body => append_inline_key buffer media_type body
    | JEmailChunk r i => append_email_key buffer r i
    end;
  Some (buffer ++ [0; 0]).

Definition append_metadata_sort_key (buffer : bytes) (metadata_key : list (string * string)) : bytes :=
  foldl (λ buffer kv, append_comparable_sort_string (append_comparable_sort_string buffer kv.1) kv.2)
    buffer metadata_key.

Definition append_canonical_replay_journal_metadata_sort_key
    (buffer : bytes) (metadata : list (string * string)) : bytes :=
  foldl (λ buffer kv, append_comparable_sort_string (append_comparable_sort_string buffer kv.1) kv.2)
    buffer (btree_pairs (btree_collect metadata)).

(** ** The key, its encoding and the digests *)

(** [{:?}] of a byte vector. *)
Definition debug_bytes (data : bytes) : bytes :=
  as_bytes "[" ++ as_bytes (join ", " (fmt_usize <$> data)) ++ as_bytes "]".

(** The content key of [replay_sort_key], as bytes, and its metadata key. *)
Definition document_key (path : string) : bytes :=
  as_bytes "document:" ++ as_bytes (normalize_document_identity_path path).
Definition email_key (email_artifact_ref : string) (chunk_index : Z) : bytes :=
  as_bytes "email:" ++ as_bytes email_artifact_ref ++ as_bytes ":" ++ fmt_usize_padded 20 chunk_index.
Definition content_key (content_ref : ContentRef) : bytes :=
  match content_ref with
  | CDocument path => document_key path
  | CInline media_type body =>
      as_bytes "inline:" ++ as_bytes media_type ++ as_bytes ":" ++ debug_bytes body
  | CStoredReplay _ _ (IdDocument source_path) => document_key source_path
  | CStoredReplay _ _ (IdEmailChunk r i) => email_key r i
  | CEmailChunk r i => email_key r i
  end.
Definition replay_sort_key (item : IndexItem) : bytes * list (string * string) :=
  (content_key (item_content_ref item), btree_pairs (metadata_to_text_map (item_metadata item))).

Definition encoded_sort_key (item : IndexItem) : option bytes :=
  encoded ← append_replay_content_sort_key_bytes [] (item_content_ref item);
  Some (append_metadata_sort_key encoded (btree_pairs (metadata_to_text_map (item_metadata item)))).

Section digest.
Context `{Sha256}.
Definition replay_sort_key_digest (item : IndexItem) : option block_hash :=
  hash_bytes <$> encoded_sort_key item.

(** The outer [option] is the arithmetic panic, the inner one the function's. *)
Definition replay_journal_record_sort_key_digest (record : ReplayJournalRecord)
    : option (option block_hash) :=
  match record with
  | ReplayInput _ _ metadata content_ref =>
      encoded ← append_replay_journal_content_sort_key_bytes [] content_ref;
      Some (Some (hash_bytes (append_canonical_replay_journal_metadata_sort_key encoded metadata)))
  | IndexingOutcome _ _ _ _ _ => Some None
  end.
End digest.

(** ** Decimal numbers are printed as [Display] prints them *)
Lemma digit_byte n : 0 ≤ n →
  48 + n mod 10 = byte_of_ascii (pretty_N_char (Z.to_N n `mod` 10)).
Proof.
  intros Hn. replace (Z.to_N n `mod` 10)%N with (Z.to_N (n mod 10)) by (by rewrite Z2N.inj_mod).
  pose proof (Z.mod_pos_bound n 10 ltac:(lia)) as Hm.
  assert (n mod 10 ∈ [0; 1; 2; 3; 4; 5; 6; 7; 8; 9]) as Hin.
  { rewrite !elem_of_cons. lia. }
  revert Hin. generalize (n mod 10). intros m Hin.
  repeat (apply elem_of_cons in Hin as [->|Hin]; [done|]). by apply elem_of_nil in Hin.
Qed.

Lemma decimal_loop_pretty room n s : 0 < n < 10 ^ Z.of_nat room →
  decimal_loop room n (as_bytes s) = Some (as_bytes (pretty_N_go (Z.to_N n) s)).
Proof.
  revert n s. induction room as [|room IH]; intros n s Hn; [cbn in Hn; lia|].
  cbn [decimal_loop]. rewrite pretty_N_go_step by lia. rewrite digit_byte by lia.
  change (byte_of_ascii ?c :: as_bytes s) with (as_bytes (String c s)).
  replace (Z.to_N n `div` 10)%N with (Z.to_N (n / 10)) by (by rewrite Z2N.inj_div by lia).
  destruct (Z.eqb_spec (n / 10) 0) as [Hz|Hz]; [by rewrite Hz|].
  apply IH. rewrite Nat2Z.inj_succ, Z.pow_succ_r in Hn by lia.
  pose proof (Z.div_pos n 10 ltac:(lia) ltac:(lia)).
  pose proof (Z.div_lt_upper_bound n 10 (10 ^ Z.of_nat room) ltac:(lia) ltac:(lia)). lia.
Qed.

Lemma decimal_ok n : 0 ≤ n < 2 ^ 64 → decimal_loop 20 n [] = Some (as_bytes (fmt_usize n)).
Proof.
  intros Hn. destruct (decide (n = 0)) as [->|Hz]; [done|].
  pose proof (decimal_loop_pretty 20 n "" ltac:(lia)) as Hp. change (as_bytes "") with (@nil Z) in Hp.
  rewrite Hp. do 2 f_equal. unfold fmt_usize, pretty, pretty_N.
  by rewrite decide_False by lia.
Qed.

(** The digits are digits, and denote the number. *)
Definition is_digit (b : Z) : Prop := 48 ≤ b ≤ 57.
Definition digits_value (l : bytes) : Z := foldl (λ a b, a * 10 + (b - 48)) 0 l.

Lemma pow10_succ n : 0 ≤ n → 10 ^ (1 + n) = 10 * 10 ^ n.
Proof. intros ?. by rewrite Z.pow_add_r by lia. Qed.

Lemma foldl_digits a l : foldl (λ a b, a * 10 + (b - 48)) a l = a * 10 ^ len l + digits_value l.
Proof.
  unfold digits_value. revert a. induction l as [|b l IH]; intros a; [rewrite len_nil; cbn; lia|].
  cbn [foldl]. rewrite IH, (IH (0 * 10 + (b - 48))). rewrite len_cons, pow10_succ by apply len_nonneg. ring.
Qed.

Lemma digits_value_cons b l : digits_value (b :: l) = (b - 48) * 10 ^ len l + digits_value l.
Proof. unfold digits_value at 1. cbn [foldl]. rewrite foldl_digits. lia. Qed.

Lemma decimal_loop_value room n acc : 0 ≤ n < 10 ^ Z.of_nat room → (0 < room)%nat → Forall is_digit acc →
  ∃ d, decimal_loop room n acc = Some d ∧ Forall is_digit d ∧ len d ≤ Z.of_nat room + len acc
    ∧ len acc < len d ∧ digits_value d = n * 10 ^ len acc + digits_value acc.
Proof.
  revert n acc. induction room as [|room IH]; intros n acc Hn Hr Hacc; [lia|].
  cbn [decimal_loop]. pose proof (Z.mod_pos_bound n 10 ltac:(lia)) as Hm.
  pose proof (Z.div_mod n 10 ltac:(lia)) as Hdm.
  assert (Forall is_digit ((48 + n mod 10) :: acc)) as Hacc' by (constructor; [unfold is_digit; lia|done]).
  destruct (Z.eqb_spec (n / 10) 0) as [Hz|Hz].
  - eexists. split; [done|]. split; [done|]. rewrite digits_value_cons, !len_cons. split_and!; [lia..|].
    f_equal. f_equal. lia.
  - rewrite Nat2Z.inj_succ, Z.pow_succ_r in Hn by lia.
    pose proof (Z.div_pos n 10 ltac:(lia) ltac:(lia)).
    pose proof (Z.div_lt_upper_bound n 10 (10 ^ Z.of_nat room) ltac:(lia) ltac:(lia)).
    destruct (IH (n / 10) ((48 + n mod 10) :: acc)) as (d&->&Hd&Hl&Hl'&Hv); [lia| |done|].
    { destruct room; [cbn in *; lia|lia]. }
    exists d. rewrite len_cons in *. split_and!; [done|done|lia|lia|].
    rewrite Hv, digits_value_cons, pow10_succ by apply len_nonneg.
    generalize (10 ^ len acc). intros x. rewrite Hdm at 3. ring.
Qed.

Lemma fmt_usize_digits n : 0 ≤ n < 2 ^ 64 →
  Forall is_digit (as_bytes (fmt_usize n)) ∧ 1 ≤ len (as_bytes (fmt_usize n)) ≤ 20
  ∧ digits_value (as_bytes (fmt_usize n)) = n.
Proof.
  intros Hn. destruct (decimal_loop_value 20 n []) as (d&Hd&Hdig&Hl&Hl'&Hv);
    [lia|lia|constructor|].
  rewrite decimal_ok in Hd by done. injection Hd as <-. change (len []) with 0 in *.
  split_and!; [done|lia|lia|]. rewrite Hv. change (digits_value []) with 0. lia.
Qed.

Lemma digits_value_zeros k l : digits_value (replicate k 48 ++ l) = digits_value l.
Proof.
  unfold digits_value. rewrite foldl_app. f_equal. induction k as [|k IH]; [done|]. cbn. exact IH.
Qed.

Lemma fmt_padded_digits n : 0 ≤ n < 2 ^ 64 →
  Forall is_digit (fmt_usize_padded 20 n) ∧ len (fmt_usize_padded 20 n) = 20
  ∧ digits_value (fmt_usize_padded 20 n) = n.
Proof.
  intros Hn. destruct (fmt_usize_digits n Hn) as (Hd&Hl&Hv). unfold fmt_usize_padded.
  rewrite digits_value_zeros. split_and!; [|rewrite len_app; unfold len in *; rewrite length_replicate; lia|done].
  apply Forall_app. split; [|done]. apply Forall_replicate. unfold is_digit. lia.
Qed.

Lemma parse_digits_ok acc l : 0 ≤ acc → Forall is_digit l →
  acc * 10 ^ len l + digits_value l < 2 ^ 64 →
  parse_digits acc l = Some (acc * 10 ^ len l + digits_value l).
Proof.
  intros Ha Hl. revert acc Ha. induction Hl as [|b l Hb Hl IH]; intros acc Ha Hlt.
  { change (digits_value []) with 0. rewrite len_nil. cbn. f_equal. lia. }
  unfold is_digit in Hb. cbn [parse_digits].
  assert ((48 <=? b) && (b <=? 57) = true) as -> by (apply andb_true_iff; split; apply Z.leb_le; lia).
  rewrite digits_value_cons, len_cons, pow10_succ in Hlt |- * by apply len_nonneg.
  assert (0 ≤ digits_value l).
  { clear -Hl. induction Hl as [|b l Hb Hl IH]; [done|]. rewrite digits_value_cons. unfold is_digit in Hb.
    pose proof (Z.pow_nonneg 10 (len l)). nia. }
  assert (1 ≤ 10 ^ len l) by (pose proof (Z.pow_pos_nonneg 10 (len l)); pose proof (len_nonneg l); lia).
  assert ((acc * 10 + (b - 48) <? 2 ^ 64) = true) as -> by (apply Z.ltb_lt; nia).
  rewrite IH; [f_equal; lia|lia|lia].
Qed.

(** [s.parse::<usize>()] reads back what [to_string] prints. *)
Lemma parse_fmt n : 0 ≤ n < 2 ^ 64 → parse_usize (fmt_usize n) = Some n.
Proof.
  intros Hn. destruct (fmt_usize_digits n Hn) as (Hd&Hl&Hv). unfold parse_usize.
  pose proof (parse_digits_ok 0 _ ltac:(lia) Hd) as Hp. rewrite Hv in Hp.
  rewrite Z.mul_0_l, Z.add_0_l in Hp. specialize (Hp ltac:(lia)).
  destruct (as_bytes (fmt_usize n)) as [|b l]; [rewrite len_nil in Hl; lia|].
  apply Forall_cons in Hd as [Hb _]. unfold is_digit in Hb.
  destruct (decide (b = 43)) as [->|]; [lia|].
  destruct b as [|p|p]; [exact Hp| |exact Hp].
  do 6 (destruct p as [p|p|]; try exact Hp; try lia).
Qed.

(** ** The encoding is [escape] of the key *)
Lemma escape_app a b : escape (a ++ b) = escape a ++ escape b.
Proof. unfold escape. apply bind_app. Qed.

Lemma escape_nonzero l : Forall (λ b, b ≠ 0) l → escape l = l.
Proof.
  unfold escape. induction 1 as [|b l Hb Hl IH]; [done|]. cbn. rewrite IH.
  unfold escape_byte. by rewrite (proj2 (Z.eqb_neq b 0)).
Qed.

Lemma digits_nonzero l : Forall is_digit l → Forall (λ b, b ≠ 0) l.
Proof. intros Hl. eapply Forall_impl; [exact Hl|]. unfold is_digit. intros. lia. Qed.

Lemma append_normalized_eq buffer path :
  append_normalized_document_identity_path_bytes buffer path
  = buffer ++ escape (normalize_byte <$> path).
Proof.
  revert buffer. induction path as [|b path IH]; intros buffer; cbn; [by rewrite app_nil_r|].
  rewrite IH. unfold append_comparable_sort_bytes, escape. cbn. by rewrite <-!app_assoc.
Qed.

(** The text of the elements behind the first. *)
Definition debug_tail (data : bytes) : bytes := data ≫= λ b, [44; 32] ++ as_bytes (fmt_usize b).

Lemma append_items_eq first buffer data : Forall is_byte data →
  append_inline_items first buffer data = Some (buffer ++
    match data with
    | [] => []
    | b :: data => (if first then [] else [44; 32]) ++ as_bytes (fmt_usize b) ++ debug_tail data
    end).
Proof.
  intros Hd. revert first buffer. induction Hd as [|b data Hb Hd IH]; intros first buffer; cbn [append_inline_items].
  { by rewrite app_nil_r. }
  unfold append_usize_decimal. rewrite decimal_ok by (unfold is_byte in Hb; lia). cbn [mbind option_bind].
  rewrite IH. f_equal. destruct first; destruct data; cbn -[fmt_usize];
    rewrite ?app_nil_r, <-?app_assoc; done.
Qed.

Lemma debug_bytes_eq data : debug_bytes data = [91] ++
  (match data with [] => [] | b :: data => as_bytes (fmt_usize b) ++ debug_tail data end) ++ [93].
Proof.
  unfold debug_bytes. do 2 f_equal. unfold join.
  destruct data as [|b data]; [done|]. revert b.
  induction data as [|c data IH]; intros b.
  { unfold debug_tail. cbn -[fmt_usize]. by rewrite app_nil_r. }
  rewrite !fmap_cons. change (String.concat ?s (?x :: ?y :: ?l)) with (x +:+ s +:+ String.concat s (y :: l)).
  rewrite !as_bytes_app, <-fmap_cons, IH. unfold debug_tail. rewrite bind_cons, <-app_assoc. done.
Qed.

Lemma debug_bytes_nonzero data : Forall is_byte data → Forall (λ b, b ≠ 0) (debug_bytes data).
Proof.
  intros Hd. rewrite debug_bytes_eq.
  assert (∀ b, is_byte b → Forall (λ b, b ≠ 0) (as_bytes (fmt_usize b))) as Hf.
  { intros b Hb. apply digits_nonzero, fmt_usize_digits. unfold is_byte in Hb. lia. }
  assert (Forall (λ b, b ≠ 0) (debug_tail data)) as Ht.
  { unfold debug_tail. induction Hd as [|b l Hb Hd IH]; [done|]. rewrite bind_cons.
    apply Forall_app. split; [|done]. apply Forall_app. split; [|by apply Hf].
    by repeat constructor. }
  apply Forall_app. split; [by repeat constructor|]. apply Forall_app. split; [|by repeat constructor].
  destruct Hd as [|b data Hb Hd]; [done|]. apply Forall_app. split; [by apply Hf|].
  unfold debug_tail in Ht. rewrite bind_cons in Ht. apply Forall_app in Ht as [_ Ht]. exact Ht.
Qed.

(** What the Rust types guarantee of a content reference. *)
Definition content_ok (c : ContentRef) : Prop :=
  match c with
  | CInline _ body => Forall is_byte body
  | CEmailChunk _ i | CStoredReplay _ _ (IdEmailChunk _ i) => 0 ≤ i < 2 ^ 64
  | _ => True
  end.

Lemma append_document_eq buffer path :
  append_document_key buffer path = Some (buffer ++ escape (document_key path)).
Proof.
  unfold append_document_key, document_key, append_comparable_sort_bytes.
  rewrite append_normalized_eq, as_bytes_normalize, escape_app. by rewrite <-app_assoc.
Qed.

Lemma append_email_eq buffer r i : 0 ≤ i < 2 ^ 64 →
  append_email_key buffer r i = Some (buffer ++ escape (email_key r i)).
Proof.
  intros Hi. unfold append_email_key, append_zero_padded_usize_decimal, email_key, append_comparable_sort_bytes.
  rewrite decimal_ok by done. cbn -[fmt_usize escape as_bytes]. f_equal.
  rewrite !escape_app. destruct (fmt_padded_digits i Hi) as (Hd&_&_).
  rewrite (escape_nonzero (fmt_usize_padded 20 i)) by (by apply digits_nonzero).
  unfold fmt_usize_padded. by rewrite <-!app_assoc.
Qed.

Lemma append_inline_eq buffer m data : Forall is_byte data →
  append_inline_key buffer m data
  = Some (buffer ++ escape (as_bytes "inline:" ++ as_bytes m ++ as_bytes ":" ++ debug_bytes data)).
Proof.
  intros Hd. unfold append_inline_key, append_inline_debug_body, append_comparable_sort_bytes.
  rewrite append_items_eq by done. cbn -[escape as_bytes fmt_usize]. f_equal.
  rewrite !escape_app, (escape_nonzero (debug_bytes data)) by (by apply debug_bytes_nonzero).
  rewrite debug_bytes_eq. rewrite <-!app_assoc. done.
Qed.

Lemma append_content_eq buffer c : content_ok c →
  append_replay_content_sort_key_bytes buffer c = Some (buffer ++ escape (content_key c) ++ [0; 0]).
Proof.
  intros Hc. unfold append_replay_content_sort_key_bytes.
  destruct c as [p|m b|m b [p|r i]|r i]; cbn [content_key content_ok] in *;
    rewrite ?append_document_eq, ?append_inline_eq, ?append_email_eq by done;
    cbn -[escape document_key email_key as_bytes]; by rewrite <-app_assoc.
Qed.

Lemma append_journal_content_eq buffer c : content_ok c →
  append_replay_journal_content_sort_key_bytes buffer (journal_content_ref c)
  = append_replay_content_sort_key_bytes buffer c.
Proof.
  intros Hc. unfold append_replay_journal_content_sort_key_bytes, append_replay_content_sort_key_bytes.
  destruct c as [p|m b|m b [p|r i]|r i]; cbn [journal_content_ref]; try done;
    rewrite !append_document_eq; unfold document_key;
    change normalize_replay_journal_path with normalize_document_identity_path;
    by rewrite normalize_idemp.
Qed.

Definition esc (s : string) : bytes := escape (as_bytes s) ++ [0; 0].
Definition metadata_encoding (l : list (string * string)) : bytes := l ≫= λ kv, esc kv.1 ++ esc kv.2.

Lemma append_metadata_eq buffer l : append_metadata_sort_key buffer l = buffer ++ metadata_encoding l.
Proof.
  unfold append_metadata_sort_key, metadata_encoding. revert buffer.
  induction l as [|[k v] l IH]; intros buffer; cbn [foldl]; [by rewrite app_nil_r|].
  rewrite IH, bind_cons. unfold append_comparable_sort_string, append_comparable_sort_bytes, esc.
  cbn [fst snd]. by rewrite <-!app_assoc.
Qed.

Definition key_encoding (key : bytes * list (string * string)) : bytes :=
  (escape key.1 ++ [0; 0]) ++ metadata_encoding key.2.

Lemma encoded_sort_key_eq item : content_ok (item_content_ref item) →
  encoded_sort_key item = Some (key_encoding (replay_sort_key item)).
Proof.
  intros Hc. unfold encoded_sort_key. rewrite append_content_eq by done. cbn -[escape].
  by rewrite append_metadata_eq.
Qed.

(** ** Order

    [Ord] of byte strings, of pairs and of vectors of pairs. *)
Fixpoint bytes_cmp (a b : bytes) : comparison :=
  match a, b with
  | [], [] => Eq
  | [], _ => Lt
  | _, [] => Gt
  | x :: a, y :: b => match x ?= y with Eq => bytes_cmp a b | c => c end
  end.
Definition then_cmp (c d : comparison) : comparison := match c with Eq => d | _ => c end.
Definition pair_cmp (a b : string * string) : comparison :=
  then_cmp (bytes_cmp (as_bytes a.1) (as_bytes b.1)) (bytes_cmp (as_bytes a.2) (as_bytes b.2)).
Fixpoint pairs_cmp (a b : list (string * string)) : comparison :=
  match a, b with
  | [], [] => Eq
  | [], _ => Lt
  | _, [] => Gt
  | x :: a, y :: b => then_cmp (pair_cmp x y) (pairs_cmp a b)
  end.
Definition key_cmp (a b : bytes * list (string * string)) : comparison :=
  then_cmp (bytes_cmp a.1 b.1) (pairs_cmp a.2 b.2).

Lemma bytes_cmp_eq a b : bytes_cmp a b = Eq ↔ a = b.
Proof.
  revert b. induction a as [|x a IH]; intros [|y b]; cbn; try (split; done).
  destruct (Z.compare_spec x y) as [->|?|?].
  - rewrite IH. split; congruence.
  - split; [done|]. intros [= -> _]. lia.
  - split; [done|]. intros [= -> _]. lia.
Qed.

Lemma bytes_cmp_app p a b : bytes_cmp (p ++ a) (p ++ b) = bytes_cmp a b.
Proof. induction p as [|x p IH]; cbn; [done|]. by rewrite Z.compare_refl. Qed.

Lemma then_eq c d : then_cmp c d = Eq ↔ c = Eq ∧ d = Eq.
Proof. destruct c, d; cbn; naive_solver. Qed.

Lemma pair_cmp_eq a b : pair_cmp a b = Eq ↔ a = b.
Proof.
  destruct a as [k v], b as [k' v']. unfold pair_cmp. cbn [fst snd]. rewrite then_eq, !bytes_cmp_eq.
  split; [by intros [->%as_bytes_inj ->%as_bytes_inj]|by intros [= -> ->]].
Qed.

Lemma pairs_cmp_eq a b : pairs_cmp a b = Eq ↔ a = b.
Proof.
  revert b. induction a as [|x a IH]; intros [|y b]; cbn; try (split; done).
  rewrite then_eq, pair_cmp_eq, IH. split; [by intros [-> ->]|by intros [= -> ->]].
Qed.

Lemma key_cmp_eq a b : key_cmp a b = Eq ↔ a = b.
Proof.
  destruct a as [c m], b as [d n]. unfold key_cmp. cbn [fst snd].
  rewrite then_eq, bytes_cmp_eq, pairs_cmp_eq. split; [by intros [-> ->]|by intros [= -> ->]].
Qed.

Lemma then_assoc a b c : then_cmp (then_cmp a b) c = then_cmp a (then_cmp b c).
Proof. by destruct a. Qed.

(** Escaped and terminated strings compare as the strings, whatever follows. *)
Lemma escape_cmp s t u v : Forall is_byte s → Forall is_byte t →
  bytes_cmp (escape s ++ [0; 0] ++ u) (escape t ++ [0; 0] ++ v)
  = then_cmp (bytes_cmp s t) (bytes_cmp u v).
Proof.
  intros Hs. revert t. induction Hs as [|a s Ha Hs IH]; intros [|b t] Ht; cbn [escape].
  - cbn. done.
  - apply Forall_cons in Ht as [Hb _]. unfold escape, escape_byte, is_byte in *. cbn.
    destruct (Z.eqb_spec b 0) as [->|]; cbn; [done|]. by destruct b; try lia.
  - unfold escape, escape_byte, is_byte in *. cbn.
    destruct (Z.eqb_spec a 0) as [->|]; cbn; [done|]. by destruct a; try lia.
  - apply Forall_cons in Ht as [Hb Ht]. specialize (IH t Ht).
    unfold escape, is_byte in *. rewrite !bind_cons, <-!app_assoc. cbn [bytes_cmp].
    unfold escape_byte at 1 3.
    destruct (Z.eqb_spec a 0) as [->|Ha0], (Z.eqb_spec b 0) as [->|Hb0]; cbn -[app].
    + cbn. exact IH.
    + cbn. destruct b; try lia. done.
    + cbn. destruct a; try lia. done.
    + cbn. destruct (Z.compare_spec a b) as [->|?|?]; [exact IH|done..].
Qed.

Lemma esc_cmp s t u v :
  bytes_cmp (esc s ++ u) (esc t ++ v) = then_cmp (bytes_cmp (as_bytes s) (as_bytes t)) (bytes_cmp u v).
Proof. unfold esc. rewrite <-!app_assoc. apply escape_cmp; apply as_bytes_byte. Qed.

Lemma metadata_cmp a b : bytes_cmp (metadata_encoding a) (metadata_encoding b) = pairs_cmp a b.
Proof.
  assert (∀ kv l, ∃ x y, metadata_encoding (kv :: l) = x :: y) as Hcons.
  { intros [k v] l. unfold metadata_encoding, esc. rewrite bind_cons. cbn [fst snd].
    destruct (escape (as_bytes k)) as [|x y]; eexists _, _; reflexivity. }
  revert b. induction a as [|[k v] a IH]; intros [|[k' v'] b].
  - done.
  - destruct (Hcons (k', v') b) as (x&y&->). done.
  - destruct (Hcons (k, v) a) as (x&y&->). done.
  - unfold metadata_encoding. rewrite !bind_cons. cbn [fst snd].
    fold (metadata_encoding a) (metadata_encoding b). rewrite <-!app_assoc, !esc_cmp, IH.
    cbn [pairs_cmp]. unfold pair_cmp. by rewrite then_assoc.
Qed.

Lemma content_key_byte c : content_ok c → Forall is_byte (content_key c).
Proof.
  intros Hc. assert (∀ l, Forall is_digit l → Forall is_byte l) as Hdig.
  { intros l Hl. eapply Forall_impl; [exact Hl|]. unfold is_digit, is_byte. intros. lia. }
  destruct c as [p|m b|m b [p|r i]|r i]; cbn [content_key content_ok] in *; unfold document_key, email_key;
    rewrite ?Forall_app; split_and!; try apply as_bytes_byte; try by apply Hdig, fmt_padded_digits.
  unfold debug_bytes. rewrite !Forall_app. split_and!; apply as_bytes_byte.
Qed.

(** C36. The byte encoding that [replay_sort_key_digest] hashes is the order of
    [replay_sort_key]: for any two items it exists (no digit buffer overflows)
    and comparing the encodings as bytes gives exactly the comparison of the
    keys. In particular equal encodings mean equal keys, so two different keys
    never share a digest except by a hash collision. *)
Theorem sort_key_encoding_order a b :
  content_ok (item_content_ref a) → content_ok (item_content_ref b) →
  ∃ x y, encoded_sort_key a = Some x ∧ encoded_sort_key b = Some y
    ∧ bytes_cmp x y = key_cmp (replay_sort_key a) (replay_sort_key b)
    ∧ (x = y ↔ replay_sort_key a = replay_sort_key b).
Proof.
  intros Ha Hb. rewrite !encoded_sort_key_eq by done. eexists _, _. split; [done|]. split; [done|].
  assert (bytes_cmp (key_encoding (replay_sort_key a)) (key_encoding (replay_sort_key b))
    = key_cmp (replay_sort_key a) (replay_sort_key b)) as Hcmp.
  { unfold key_encoding, key_cmp. rewrite <-!app_assoc, escape_cmp by (by apply content_key_byte).
    f_equal. apply metadata_cmp. }
  split; [exact Hcmp|]. by rewrite <-bytes_cmp_eq, Hcmp, key_cmp_eq.
Qed.

(** ** Digests *)

(** Equal-length digit strings compare as their numbers. *)
Lemma digits_value_bounds l : Forall is_digit l → 0 ≤ digits_value l < 10 ^ len l.
Proof.
  induction 1 as [|b l Hb Hl IH]; [done|]. rewrite digits_value_cons, len_cons, pow10_succ by apply len_nonneg.
  unfold is_digit in Hb. nia.
Qed.

Lemma digits_cmp a b : Forall is_digit a → Forall is_digit b → len a = len b →
  bytes_cmp a b = (digits_value a ?= digits_value b).
Proof.
  intros Ha. revert b. induction Ha as [|x a Hx Ha IH]; intros b Hb Hl.
  { symmetry in Hl. rewrite len_nil in Hl. apply len_zero in Hl as ->. done. }
  destruct Hb as [|y b Hy Hb]; [rewrite len_cons, len_nil in Hl; pose proof (len_nonneg a); lia|].
  rewrite !len_cons in Hl. assert (len a = len b) as Hl' by lia. specialize (IH b Hb Hl').
  cbn [bytes_cmp]. rewrite !digits_value_cons, <-Hl'.
  pose proof (digits_value_bounds a Ha) as Hva. pose proof (digits_value_bounds b Hb) as Hvb.
  rewrite <-Hl' in Hvb. unfold is_digit in *. symmetry. destruct (Z.compare_spec x y) as [->|Hlt|Hlt].
  - rewrite IH. by rewrite Z.add_compare_mono_l.
  - apply Z.compare_lt_iff. nia.
  - apply Z.compare_gt_iff. nia.
Qed.

(** The chunks of one message sort by their number: for two chunks of the
    same artifact the content keys compare as the chunk indices do, up to the
    largest [usize] (the 20 digits the source pads to are enough). *)
Theorem email_chunks_sort_numerically r i j : 0 ≤ i < 2 ^ 64 → 0 ≤ j < 2 ^ 64 →
  bytes_cmp (content_key (CEmailChunk r i)) (content_key (CEmailChunk r j)) = (i ?= j).
Proof.
  intros Hi Hj. cbn [content_key]. unfold email_key. rewrite !bytes_cmp_app.
  destruct (fmt_padded_digits i Hi) as (Hdi&Hli&Hvi). destruct (fmt_padded_digits j Hj) as (Hdj&Hlj&Hvj).
  rewrite digits_cmp by (done || by rewrite Hli, Hlj). by rewrite Hvi, Hvj.
Qed.

Section digests.
Context `{Sha256} `{HashDisplay}.

(** An item and the journal record written for it have the same digest, so
    ordering the journal's records gives the order of the items: the record
    stores the normalised path and the sorted metadata, and both encoders agree
    on them. *)
Theorem record_digest_is_item_digest block_id item : content_ok (item_content_ref item) →
  replay_journal_record_sort_key_digest (replay_journal_record_from_item block_id item)
  = Some <$> replay_sort_key_digest item ∧ is_Some (replay_sort_key_digest item).
Proof.
  intros Hc. cbn [replay_journal_record_from_item replay_journal_record_sort_key_digest].
  rewrite append_journal_content_eq by done.
  unfold replay_sort_key_digest, encoded_sort_key, append_canonical_replay_journal_metadata_sort_key.
  rewrite append_content_eq by done. rewrite btree_collect_pairs. split; [done|by eexists].
Qed.

(** The metadata that is written for an item's leaf block. *)
Definition leaf_metadata_ok (item : IndexItem) : Prop :=
  let fields := metadata_to_text_map (item_metadata item) in
  match item_content_ref item with
  | CDocument path =>
      fields !! "source_kind" = Some "document"
      ∧ fields !! "source_path" = Some (normalize_document_identity_path path)
  | CEmailChunk r i =>
      fields !! "source_kind" = Some "email" ∧ fields !! "email_artifact_ref" = Some r
      ∧ fields !! "chunk_index" = Some (fmt_usize i)
  | _ => False
  end.

(** Resuming from stored blocks keeps the order: the item that
    [replay_item_from_validated_block] rebuilds from a leaf block whose metadata
    was written for a document or an email chunk has the metadata, the sort key
    and the digest of the original item, and comes with the stored embedding. *)
Theorem stored_item_digest {E : Type} item spec hash leaf entry :
  content_ok (item_content_ref item) → leaf_metadata_ok item →
  le_metadata entry = item_metadata item → replay_leaf_entry (BLeaf leaf) spec = Some entry →
  ∃ stored, replay_item_from_validated_block (E := E) hash (BLeaf leaf) spec
      = Ok (Some (stored, le_embedding entry))
    ∧ item_metadata stored = item_metadata item
    ∧ replay_sort_key stored = replay_sort_key item
    ∧ replay_sort_key_digest stored = replay_sort_key_digest item.
Proof.
  intros Hc Hok Hm Hg. unfold replay_item_from_validated_block. rewrite Hg, Hm.
  assert (∀ stored, content_ok (item_content_ref stored) → replay_sort_key stored = replay_sort_key item →
    replay_sort_key stored = replay_sort_key item
    ∧ replay_sort_key_digest stored = replay_sort_key_digest item) as Hdig.
  { intros stored Hs Hk. split; [done|]. unfold replay_sort_key_digest.
    by rewrite !encoded_sort_key_eq, Hk by done. }
  unfold leaf_metadata_ok in Hok.
  destruct item as [md [p|m b|m b id|r i]]; cbn [item_metadata item_content_ref] in *; try done; cbv zeta.
  - destruct Hok as [Hk Hp]. rewrite Hk, Hp. rewrite bool_decide_true by done. cbn.
    eexists. split; [done|]. split; [done|]. apply Hdig; [done|].
    unfold replay_sort_key. cbn [item_metadata item_content_ref content_key].
    f_equal. unfold document_key. by rewrite normalize_idemp.
  - destruct Hok as (Hk&Hr&Hi). rewrite Hk, Hr, Hi. rewrite bool_decide_false, bool_decide_true by done.
    cbn -[parse_usize fmt_usize]. rewrite parse_fmt by done. cbn.
    eexists. split; [done|]. split; [done|]. by apply Hdig.
Qed.
End digests.
