(* ===== verification/Orders.v ===== *)
(** * Comparison functions that are orders

    The code compares byte strings, pairs and lengths with [Ord::cmp] and
    [then_with]; [CmpLaws] is what makes such a function a total order, and its
    instances are built in the same way as the functions. *)

From Stdlib Require Import ZArith Lia Ascii.
From stdpp Require Import base gmap sets strings sorting option list.
From S2P Require Import Prelude SortKey.
#[local] Open Scope Z_scope.

Class CmpLaws {A} (cmp : A → A → comparison) := {
  cmp_eq a b : cmp a b = Eq ↔ a = b;
  cmp_opp a b : cmp b a = CompOpp (cmp a b);
  cmp_trans a b c : cmp a b = Lt → cmp b c = Lt → cmp a c = Lt
}.

#[export] Instance Z_cmp_laws : CmpLaws Z.compare.
Proof.
  split; [apply Z.compare_eq_iff|intros; apply Z.compare_antisym|].
  intros a b c. rewrite !Z.compare_lt_iff. lia.
Qed.

#[export] Instance bytes_cmp_laws : CmpLaws bytes_cmp.
Proof.
  split; [apply bytes_cmp_eq| |].
  - induction a as [|x a IH]; intros [|y b]; cbn; try done.
    rewrite (cmp_opp x y). destruct (x ?= y); cbn; [apply IH|done..].
  - induction a as [|x a IH]; intros [|y b] [|z c]; cbn; try done.
    destruct (Z.compare_spec x y) as [->|Hxy|?], (Z.compare_spec y z) as [->|Hyz|?]; try done.
    + apply IH.
    + intros _ _. by rewrite (proj2 (Z.compare_lt_iff x z) Hxy).
    + assert (x < z) as ->%Z.compare_lt_iff by lia. done.
Qed.

(** Lexicographic comparison of two projections. *)
Lemma then_cmp_laws {A B C} (f : A → B) (g : A → C) cb cc `{!CmpLaws cb, !CmpLaws cc} :
  (∀ a a', f a = f a' → g a = g a' → a = a') →
  CmpLaws (λ a a', then_cmp (cb (f a) (f a')) (cc (g a) (g a'))).
Proof.
  intros Hinj. split.
  - intros a b. rewrite then_eq, !cmp_eq. split; [intros [??]; auto|by intros ->].
  - intros a b. rewrite (cmp_opp (f a) (f b)), (cmp_opp (g a) (g b)). by destruct (cb (f a) (f b)).
  - intros a b c. unfold then_cmp.
    destruct (cb (f a) (f b)) eqn:Hab, (cb (f b) (f c)) eqn:Hbc; try done.
    + apply cmp_eq in Hab as ->. rewrite Hbc. apply cmp_trans.
    + apply cmp_eq in Hab as ->. by rewrite Hbc.
    + apply cmp_eq in Hbc as <-. by rewrite Hab.
    + by rewrite (cmp_trans _ _ _ Hab Hbc).
Qed.

Section cmp.
Context {A} (cmp : A → A → comparison) `{!CmpLaws cmp}.
Lemma cmp_refl a : cmp a a = Eq.
Proof using All. by apply (cmp_eq (cmp:=cmp)). Qed.
Lemma cmp_gt a b : cmp a b = Gt ↔ cmp b a = Lt.
Proof using All. rewrite (cmp_opp (cmp:=cmp) a b). by destruct (cmp a b). Qed.
Lemma cmp_le_trans a b c : cmp a b ≠ Gt → cmp b c ≠ Gt → cmp a c ≠ Gt.
Proof using All.
  destruct (cmp a b) eqn:Hab, (cmp b c) eqn:Hbc; try done; intros _ _.
  - apply (cmp_eq (cmp:=cmp)) in Hab as ->. by rewrite Hbc.
  - apply (cmp_eq (cmp:=cmp)) in Hab as ->. by rewrite Hbc.
  - apply (cmp_eq (cmp:=cmp)) in Hbc as <-. by rewrite Hab.
  - by rewrite (cmp_trans (cmp:=cmp) _ _ _ Hab Hbc).
Qed.
Lemma cmp_le_antisym a b : cmp a b ≠ Gt → cmp b a ≠ Gt → a = b.
Proof using All. intros ?. rewrite (cmp_opp (cmp:=cmp) a b). destruct (cmp a b) eqn:?; [intros _; by apply (cmp_eq (cmp:=cmp))|done..]. Qed.
Lemma cmp_le_total a b : cmp a b ≠ Gt ∨ cmp b a ≠ Gt.
Proof using All. rewrite (cmp_opp (cmp:=cmp) a b). destruct (cmp a b); [left|left|right]; done. Qed.
End cmp.

(** Sorting by a relation without symmetric pairs leaves no choice. *)
Lemma sorted_lt_unique {A} (R : relation A) l k :
  (∀ x y, R x y → R y x → False) → StronglySorted R l → StronglySorted R k → l ≡ₚ k → l = k.
Proof.
  intros Hasym Hl Hk Hp. assert (AntiSymm (=) R) by (intros x y ??; exfalso; eauto).
  by apply (StronglySorted_unique R).
Qed.
