(* ===== verification/ReplayOrder.v ===== *)
(** * The replay order: an external merge sort ([runtime.rs])

    [collect_ordered_replay_block_ids_from_journal] turns the journal's replay
    inputs into a file of fixed-width entries sorted by block id: entries are
    buffered, flushed as sorted runs, and the runs are merged through a heap, 64
    at a time, in as many passes as needed. Scratch files are entries of the
    world's [scratch] map under their full path. The theorems are in
    [ReplayOrderSpec.v]. *)

From Stdlib Require Import ZArith Lia Ascii.
From stdpp Require Import base gmap sets strings sorting pretty option list.
From S2P Require Import Prelude Hex Blocks Runtime ReplayJournal Items SortKey.
#[local] Open Scope Z_scope.

Definition REPLAY_ORDER_ENTRY_BYTES : Z := 64.
Definition REPLAY_ORDER_FLUSH_ENTRY_LIMIT : Z := 65536.
Definition REPLAY_ORDER_MERGE_FAN_IN : Z := 64.

(** ** Entries and cursors *)
Record ReplayOrderEntry := { oe_block_id : block_hash; oe_digest : block_hash }.
#[export] Instance entry_eq_dec : EqDecision ReplayOrderEntry.
Proof. solve_decision. Defined.

Definition entry_ok (e : ReplayOrderEntry) : Prop := hash_ok (oe_block_id e) ∧ hash_ok (oe_digest e).

Definition entry_cmp (a b : ReplayOrderEntry) : comparison :=
  then_cmp (bytes_cmp (oe_block_id a) (oe_block_id b)) (bytes_cmp (oe_digest a) (oe_digest b)).
Definition entry_le (a b : ReplayOrderEntry) : Prop := entry_cmp a b ≠ Gt.
#[export] Instance entry_le_dec : RelDecision entry_le.
Proof. unfold entry_le. intros ??. apply _. Defined.

(** The 64 bytes of [write_to]. *)
Definition entry_bytes (e : ReplayOrderEntry) : bytes := oe_block_id e ++ oe_digest e.

Record ReplayOrderCursor := { cur_entry : ReplayOrderEntry; cur_run : nat }.
#[export] Instance cursor_eq_dec : EqDecision ReplayOrderCursor.
Proof. solve_decision. Defined.

(** [Ord for ReplayOrderCursor]: reversed, so that the heap's maximum is the
    smallest entry. *)
Definition cursor_cmp (a b : ReplayOrderCursor) : comparison :=
  then_cmp (entry_cmp (cur_entry b) (cur_entry a)) (Nat.compare (cur_run b) (cur_run a)).

(** [BinaryHeap]: a bag whose [pop] removes a maximum. *)
Fixpoint heap_max (c : ReplayOrderCursor) (l : list ReplayOrderCursor) : ReplayOrderCursor :=
  match l with
  | [] => c
  | d :: l => heap_max (match cursor_cmp c d with Lt => d | _ => c end) l
  end.
Fixpoint remove_first (c : ReplayOrderCursor) (l : list ReplayOrderCursor) : list ReplayOrderCursor :=
  match l with
  | [] => []
  | d :: l => if decide (c = d) then l else d :: remove_first c l
  end.
Definition heap_pop (h : list ReplayOrderCursor) : option (ReplayOrderCursor * list ReplayOrderCursor) :=
  match h with
  | [] => None
  | c :: l => let m := heap_max c l in Some (m, remove_first m h)
  end.

(** ** Scratch files *)
Section files.
Context {S R : Type} `{BlockStore S}.
Abbreviation error := (RuntimeError (BlockStoreError S)).
Abbreviation io A := (stm (world S R) io_error A).

(** One file operation: it takes the next outcome of [faults]. *)
Definition io_step : io unit := fun w =>
  match faults w with
  | [] => (w, Ok ())
  | None :: l => (set_faults l w, Ok ())
  | Some e :: l => (set_faults l w, Err e)
  end.
Definition update_scratch (f : gmap string bytes → gmap string bytes) : io unit := fun w =>
  (set_scratch (f (scratch w)) w, Ok ()).

Definition file_create (path : string) : io unit := io_step ;; update_scratch (<[path := []]>).
Definition file_append (path : string) (data : bytes) : io unit :=
  io_step ;; update_scratch (fun m => <[path := default [] (m !! path) ++ data]> m).
Definition file_content (path : string) : io bytes := fun w =>
  (w, ok_or (scratch w !! path) (IoError NotFound "No such file or directory")).
Definition file_open (path : string) : io bytes := io_step ;; file_content path.

(** [write_to] and [read_from]; a reader is the bytes left to read. *)
Definition write_to (path : string) (e : ReplayOrderEntry) : io unit := file_append path (entry_bytes e).
Definition read_from (reader : bytes) : io (option ReplayOrderEntry * bytes) :=
  io_step ;;
  match reader with
  | [] => mret (None, [])
  | _ =>
      if len reader <? REPLAY_ORDER_ENTRY_BYTES
      then throw (IoError UnexpectedEof "failed to fill whole buffer")
      else mret (Some {| oe_block_id := take 32 reader; oe_digest := take 32 (drop 32 reader) |},
                 drop 64 reader)
  end.

Definition write_error (path : string) {A} (m : io A) : runtime S R A :=
  map_err_stm (WriteReplayOrderScratch path) m.
Definition read_error (path : string) {A} (m : io A) : runtime S R A :=
  map_err_stm (ReadReplayOrderScratch path) m.

(** ** Runs *)
Context `{HashDisplay}.
Context (scratch_dir : string).
Definition in_scratch (name : string) : string := scratch_dir +:+ "/" +:+ name.
Definition run_path (i : nat) : string :=
  in_scratch ("run-" +:+ of_bytes (fmt_usize_padded 6 (Z.of_nat i)) +:+ ".bin").
Definition merge_path (pass group : nat) : string :=
  in_scratch ("merge-pass-" +:+ of_bytes (fmt_usize_padded 2 (Z.of_nat pass)) +:+ "-run-"
    +:+ of_bytes (fmt_usize_padded 6 (Z.of_nat group)) +:+ ".bin").
Definition merged_entries_path : string := in_scratch "ordered-replay.bin".

Definition conflict_error (block_id : block_hash) : error :=
  InvalidReplayJournalHead (hash_to_string block_id)
    "conflicting replay journal metadata references the same block id".

(** The step that flushing and merging share: an entry with the block id of the
    previous one must equal it and is dropped, any other entry makes the
    previous one final. *)
Definition dedup_step (path : string) (previous : option ReplayOrderEntry) (entry : ReplayOrderEntry)
    : runtime S R (option ReplayOrderEntry * bool) :=
  match previous with
  | Some p =>
      if decide (oe_block_id p = oe_block_id entry) then
        if decide (oe_digest p ≠ oe_digest entry) then throw (conflict_error (oe_block_id entry))
        else mret (previous, false)
      else write_error path (write_to path p) ;; mret (Some entry, true)
  | None => mret (Some entry, false)
  end.

Definition flush_step (path : string) (previous : option ReplayOrderEntry) (entry : ReplayOrderEntry)
    : runtime S R (option ReplayOrderEntry) :=
  check_for_interrupt ;; '(previous, _) ← dedup_step path previous entry; mret previous.

Definition write_last (path : string) (previous : option ReplayOrderEntry) : runtime S R unit :=
  match previous with
  | Some p => write_error path (write_to path p)
  | None => mret ()
  end.

(** The last entry, and [writer.flush()]. *)
Definition finish_file (path : string) (previous : option ReplayOrderEntry) : runtime S R unit :=
  write_last path previous ;; write_error path io_step.

Definition flush_sorted_replay_order_run (run_index : nat) (entries : list ReplayOrderEntry)
    : runtime S R string :=
  check_for_interrupt ;;
  let entries := merge_sort entry_le entries in
  let path := run_path run_index in
  write_error path (file_create path) ;;
  previous ← stm_foldl (flush_step path) None entries;
  finish_file path previous ;;
  mret path.

(** ** Merging a group of runs

    The readers, and the heap with the first entry of each run. *)
Definition open_step (st : list bytes * list ReplayOrderCursor) (path : string)
    : runtime S R (list bytes * list ReplayOrderCursor) :=
  let '(readers, heap) := st in
  check_for_interrupt ;;
  content ← read_error path (file_open path);
  '(first, reader) ← read_error path (read_from content);
  mret (readers ++ [reader],
        match first with
        | Some entry => heap ++ [{| cur_entry := entry; cur_run := length readers |}]
        | None => heap
        end).

(** [while let Some(cursor) = heap.pop()]; the outer [None] is out of fuel or
    the panic of an index out of range. *)
Fixpoint merge_loop (fuel : nat) (run_paths : list string) (out : string)
    (readers : list bytes) (heap : list ReplayOrderCursor)
    (previous : option ReplayOrderEntry) (unique : Z) (w : world S R)
    : option (world S R * result error (option ReplayOrderEntry * Z)) :=
  match fuel with
  | O => None
  | Datatypes.S fuel =>
      match heap_pop heap with
      | None => Some (w, Ok (previous, unique))
      | Some (cursor, heap) =>
          match (check_for_interrupt ;; dedup_step out previous (cur_entry cursor)) w with
          | (w, Err e) => Some (w, Err e)
          | (w, Ok (previous, written)) =>
              path ← run_paths !! cur_run cursor;
              reader ← readers !! cur_run cursor;
              match read_error path (read_from reader) w with
              | (w, Err e) => Some (w, Err e)
              | (w, Ok (next, reader)) =>
                  merge_loop fuel run_paths out (<[cur_run cursor := reader]> readers)
                    (match next with
                     | Some entry => {| cur_entry := entry; cur_run := cur_run cursor |} :: heap
                     | None => heap end)
                    previous (if written then unique + 1 else unique) w
              end
          end
      end
  end.

Definition finish_merge (out : string) (previous : option ReplayOrderEntry) (unique : Z) : runtime S R Z :=
  finish_file out previous ;;
  mret (match previous with Some _ => unique + 1 | None => unique end).

Definition merge_sorted_replay_order_run_group (fuel : nat) (run_paths : list string) (out : string)
    (w : world S R) : option (world S R * result error Z) :=
  match (check_for_interrupt ;; write_error out (file_create out) ;;
         stm_foldl open_step ([], []) run_paths) w with
  | (w, Err e) => Some (w, Err e)
  | (w, Ok (readers, heap)) =>
      '(w, r) ← merge_loop fuel run_paths out readers heap None 0 w;
      match r with
      | Err e => Some (w, Err e)
      | Ok (previous, unique) => Some (finish_merge out previous unique w)
      end
  end.

(** ** Merging all runs *)

(** One pass: each group of 64 paths becomes one path. *)
Fixpoint merge_pass (fuel : nat) (pass_index group_index : nat) (groups : list (list string))
    (w : world S R) : option (world S R * result error (list string)) :=
  match groups with
  | [] => Some (w, Ok [])
  | group :: groups =>
      match check_for_interrupt w with
      | (w, Err e) => Some (w, Err e)
      | (w, Ok _) =>
          let path := merge_path pass_index group_index in
          '(w, r) ← merge_sorted_replay_order_run_group fuel group path w;
          match r with
          | Err e => Some (w, Err e)
          | Ok _ =>
              '(w, r) ← merge_pass fuel pass_index (Datatypes.S group_index) groups w;
              Some (w, match r with Ok next => Ok (path :: next) | Err e => Err e end)
          end
      end
  end.

Definition fan_in : nat := Z.to_nat REPLAY_ORDER_MERGE_FAN_IN.

(** [while current_paths.len() > REPLAY_ORDER_MERGE_FAN_IN]. *)
Fixpoint merge_passes (passes fuel : nat) (pass_index : nat) (paths : list string) (out : string)
    (w : world S R) : option (world S R * result error Z) :=
  match passes with
  | O => None
  | Datatypes.S passes =>
      if REPLAY_ORDER_MERGE_FAN_IN <? len paths then
        match check_for_interrupt w with
        | (w, Err e) => Some (w, Err e)
        | (w, Ok _) =>
            '(w, r) ← merge_pass fuel pass_index 0 (chunks (length paths) fan_in paths) w;
            match r with
            | Err e => Some (w, Err e)
            | Ok next => merge_passes passes fuel (Datatypes.S pass_index) next out w
            end
        end
      else merge_sorted_replay_order_run_group fuel paths out w
  end.

(** [passes] and [fuel] bound the passes and the heap's pops; the number of
    paths and of entries are enough. *)
Definition merge_sorted_replay_order_runs (passes fuel : nat) (run_paths : list string) (out : string)
    (w : world S R) : option (world S R * result error Z) :=
  match check_for_interrupt w with
  | (w, Err e) => Some (w, Err e)
  | (w, Ok _) =>
      if len run_paths <=? REPLAY_ORDER_MERGE_FAN_IN
      then merge_sorted_replay_order_run_group fuel run_paths out w
      else merge_passes passes fuel 0 run_paths out w
  end.

(** ** Collecting the entries *)
Context `{MutableRefs R (BlockStoreError S)} `{Ciborium} `{Sha256}.

Record ReplayOrderStorage := { entries_path : string; total_items : Z }.

(** The closure's variables: [ordered_entries] and [run_paths]. (The count of
    scanned inputs only feeds progress messages.) *)
Definition collect_state : Type := list ReplayOrderEntry * list string.

Definition collect_visit (flush_entry_limit : Z) (st : collect_state) (record : ReplayJournalRecord)
    : runtime S R collect_state :=
  let '(entries, run_paths) := st in
  match record with
  | IndexingOutcome _ _ _ _ _ => mret st
  | ReplayInput _ id _ _ =>
      block_id ← lift (ok_or (decode_hash id) (InvalidReplayJournalHead id (parse_message id)));
      match replay_journal_record_sort_key_digest record with
      | Some (Some digest) =>
          let entries := entries ++ [{| oe_block_id := block_id; oe_digest := digest |}] in
          if Z.max flush_entry_limit 1 <=? len entries then
            path ← flush_sorted_replay_order_run (length run_paths) entries;
            mret ([], run_paths ++ [path])
          else mret (entries, run_paths)
      | _ => mret st
      end
  end.

Definition prepare_error (path : string) {A} (m : io A) : runtime S R A :=
  map_err_stm (PrepareReplayOrderScratchRoot path) m.

(** [prepare_replay_order_scratch_root] and [tempdir_in]: two operations that
    only have outcomes here; the directory is fresh. *)
Definition prepare_scratch (root : string) : runtime S R unit :=
  check_for_interrupt ;;
  prepare_error root io_step ;;
  prepare_error root io_step.

Definition flush_rest (st : collect_state) : runtime S R (list string) :=
  let '(entries, run_paths) := st in
  run_paths ← (if bool_decide (entries = []) then mret run_paths
               else path ← flush_sorted_replay_order_run (length run_paths) entries;
                    mret (run_paths ++ [path]));
  if bool_decide (run_paths = []) then throw NoClusterableBlocks else mret run_paths.

Definition collect_ordered_replay_block_ids_from_journal_with_limit
    (chain_fuel passes fuel : nat) (root : string) (flush_entry_limit : Z) (w : world S R)
    : option (world S R * result error ReplayOrderStorage) :=
  match prepare_scratch root w with
  | (w, Err e) => Some (w, Err e)
  | (w, Ok _) =>
      '(w, r) ← for_each_replay_journal_record_newest_first (collect_visit flush_entry_limit)
        chain_fuel ([], []) w;
      match r with
      | Err e => Some (w, Err e)
      | Ok st =>
          match (run_paths ← flush_rest st; check_for_interrupt ;; mret run_paths) w with
          | (w, Err e) => Some (w, Err e)
          | (w, Ok run_paths) =>
              '(w, r) ← merge_sorted_replay_order_runs passes fuel run_paths merged_entries_path w;
              Some (w, total ← r;
                       reject_if (total =? 0) NoClusterableBlocks ;;
                       Ok {| entries_path := merged_entries_path; total_items := total |})
          end
      end
  end.

Definition collect_ordered_replay_block_ids_from_journal (chain_fuel passes fuel : nat) (root : string) :=
  collect_ordered_replay_block_ids_from_journal_with_limit chain_fuel passes fuel root
    REPLAY_ORDER_FLUSH_ENTRY_LIMIT.

(** ** Reading the order back *)
Record ReplayOrderReader := { rd_path : string; rd_reader : bytes; rd_remaining : Z }.

Definition open_reader (storage : ReplayOrderStorage) : runtime S R ReplayOrderReader :=
  content ← read_error (entries_path storage) (file_open (entries_path storage));
  mret {| rd_path := entries_path storage; rd_reader := content; rd_remaining := total_items storage |}.

(** [while entries.len() < target]. *)
Fixpoint read_loop (target : nat) (path : string) (reader : bytes)
    : runtime S R (list ReplayOrderEntry * bytes) :=
  match target with
  | O => mret ([], reader)
  | Datatypes.S target =>
      '(next, reader) ← read_error path (read_from reader);
      match next with
      | None => throw (ReadReplayOrderScratch path (IoError UnexpectedEof
          "replay-order scratch file ended before all expected entries were read"))
      | Some entry =>
          '(rest, reader) ← read_loop target path reader;
          mret (entry :: rest, reader)
      end
  end.

Definition read_next_entries (max_items : Z) (rd : ReplayOrderReader)
    : runtime S R (list ReplayOrderEntry * ReplayOrderReader) :=
  let target := Z.min (rd_remaining rd) max_items in
  '(entries, reader) ← read_loop (Z.to_nat target) (rd_path rd) (rd_reader rd);
  mret (entries, {| rd_path := rd_path rd; rd_reader := reader;
                    rd_remaining := saturating_sub (rd_remaining rd) (len entries) |}).

Definition read_all_entries (storage : ReplayOrderStorage) : runtime S R (list ReplayOrderEntry) :=
  reader ← open_reader storage;
  '(entries, _) ← read_next_entries (total_items storage) reader;
  mret entries.
End files.
