(* ===== verification/ReplayOrderSpec.v ===== *)
(** * Theorems of the replay order

    Whatever the flush limit and the number of merge passes, collecting the
    replay order yields the distinct entries of the journal sorted by block id,
    or reports two entries that disagree; interrupts and I/O failures only turn
    a result into an error. *)

From Stdlib Require Import ZArith Lia Ascii.
From stdpp Require Import base gmap sets strings sorting pretty option list.
From S2P Require Import Prelude Hex Blocks Runtime ReplayJournal ReplayJournalSpec Items SortKey Orders ReplayOrder.
#[local] Open Scope Z_scope.

(** ** The order of entries *)
#[export] Instance entry_cmp_laws : CmpLaws entry_cmp.
Proof.
  refine (then_cmp_laws oe_block_id oe_digest bytes_cmp bytes_cmp _). intros [? ?] [? ?]. cbn. by intros -> ->.
Qed.

#[export] Instance entry_le_preorder : PreOrder entry_le.
Proof.
  split; [intros a; unfold entry_le; by rewrite (cmp_refl entry_cmp)|].
  intros a b c. apply (cmp_le_trans entry_cmp).
Qed.
#[export] Instance entry_le_antisym : AntiSymm (=) entry_le.
Proof. intros a b. apply (cmp_le_antisym entry_cmp). Qed.
#[export] Instance entry_le_total : Total entry_le.
Proof. intros a b. apply (cmp_le_total entry_cmp). Qed.

Definition entry_lt (a b : ReplayOrderEntry) : Prop := entry_le a b ∧ a ≠ b.

Lemma entry_lt_trans a b c : entry_lt a b → entry_le b c → entry_lt a c.
Proof.
  intros [Hab Hne] Hbc. split; [by etrans|]. intros ->. apply Hne. by apply (anti_symm entry_le).
Qed.

(** ** Entries as specifications *)

(** Entries with one block id have one digest. *)
Definition consistent (l : list ReplayOrderEntry) : Prop :=
  ∀ a b, a ∈ l → b ∈ l → oe_block_id a = oe_block_id b → a = b.

(** The replay order of a collection [l] of entries: its elements, strictly
    increasing. *)
Definition order_of (l o : list ReplayOrderEntry) : Prop :=
  StronglySorted entry_lt o ∧ ∀ e, e ∈ o ↔ e ∈ l.

Lemma strongly_sorted_unique o1 o2 :
  StronglySorted entry_lt o1 → StronglySorted entry_lt o2 → (∀ e, e ∈ o1 ↔ e ∈ o2) → o1 = o2.
Proof.
  intros H1. revert o2. induction H1 as [|x o1 H1 IH Hx]; intros o2 H2 Heq.
  { destruct o2 as [|y o2]; [done|]. exfalso. eapply not_elem_of_nil, Heq. by left. }
  destruct H2 as [|y o2 H2 Hy].
  { exfalso. eapply not_elem_of_nil, Heq. by left. }
  rewrite Forall_forall in Hx, Hy.
  assert (x = y) as <-.
  { assert (x ∈ y :: o2) as [|Hxy]%elem_of_cons by (apply Heq; by left); [done|].
    assert (y ∈ x :: o1) as [|Hyx]%elem_of_cons by (apply Heq; by left); [done|].
    apply (anti_symm entry_le); [apply Hx|apply Hy]; done. }
  f_equal. apply IH; [done|]. intros e. split; intros He.
  - assert (e ∈ x :: o2) as [->|?]%elem_of_cons by (apply Heq; by right); [|done].
    by destruct (Hx x He).
  - assert (e ∈ x :: o1) as [->|?]%elem_of_cons by (apply Heq; by right); [|done].
    by destruct (Hy x He).
Qed.

Lemma order_of_unique l o1 o2 : order_of l o1 → order_of l o2 → o1 = o2.
Proof. intros [H1 E1] [H2 E2]. apply strongly_sorted_unique; [done..|]. intros e. by rewrite E1, E2. Qed.

Lemma order_of_ext l k o : (∀ e, e ∈ l ↔ e ∈ k) → order_of l o → order_of k o.
Proof. intros Hlk [Hs He]. split; [done|]. intros e. by rewrite He. Qed.

Definition conflict_in (l : list ReplayOrderEntry) (id : block_hash) : Prop :=
  ∃ a b, a ∈ l ∧ b ∈ l ∧ oe_block_id a = id ∧ oe_block_id b = id ∧ oe_digest a ≠ oe_digest b.

Lemma conflict_inconsistent l id : conflict_in l id → ¬ consistent l.
Proof. intros (a&b&Ha&Hb&<-&Hid&Hd) Hc. apply Hd. by rewrite (Hc a b). Qed.

Lemma conflict_in_mono l k id : (∀ e, e ∈ l → e ∈ k) → conflict_in l id → conflict_in k id.
Proof. intros Hlk (a&b&?&?&?&?&?). exists a, b. auto. Qed.

(** The order of a list read so far grows at its end. *)
Lemma order_of_snoc pre o e :
  order_of pre o → (∀ x, x ∈ pre → entry_le x e) →
  order_of (pre ++ [e]) (if decide (last o = Some e) then o else o ++ [e]).
Proof.
  intros [Hs He] Hle. case_decide as Hl.
  - split; [done|]. intros x. rewrite elem_of_app, list_elem_of_singleton, He.
    split; [by left|]. intros [?| ->]; [done|]. apply He. by apply last_Some_elem_of.
  - split.
    + apply StronglySorted_app_2; [|done|by repeat constructor].
      intros x y Hx ->%list_elem_of_singleton. split; [by apply Hle, He|]. intros ->. apply Hl.
      destruct (last o) as [z|] eqn:Hz; [|by apply last_None in Hz as ->; apply not_elem_of_nil in Hx].
      f_equal. apply last_Some in Hz as (o'&->).
      assert (z ∈ o' ++ [z]) as Hin by (rewrite elem_of_app, list_elem_of_singleton; by right).
      apply (anti_symm entry_le); [by apply Hle, He|].
      rewrite elem_of_app, list_elem_of_singleton in Hx. destruct Hx as [Hx| ->]; [|done].
      by destruct (StronglySorted_app_1_elem_of _ _ _ e z Hs Hx ltac:(by left)).
    + intros x. rewrite !elem_of_app, He. done.
Qed.

(** ** Outcomes

    [runs_to p w post err]: the outcome [p] of a computation started in [w]
    satisfies [post] if it succeeds and [err] if it fails, except that in a
    world with an interrupt or I/O failures to come it may also fail with those.
    A computation never spoils a world without such failures. *)
Section outcomes.
Context {S R : Type} `{BlockStore S}.
Abbreviation error := (RuntimeError (BlockStoreError S)).
Abbreviation World := (world S R).

Definition benign (w : World) : Prop := signal w = None ∧ faults w = [].
Definition env_failure (e : error) : Prop :=
  match e with
  | Interrupted | WriteReplayOrderScratch _ _ | ReadReplayOrderScratch _ _
  | PrepareReplayOrderScratchRoot _ _ => True
  | _ => False
  end.

Definition runs_to {A} (p : World * result error A) (w : World)
    (post : World → A → Prop) (err : error → Prop) : Prop :=
  match p.2 with
  | Ok a => post p.1 a ∧ blocks p.1 = blocks w ∧ refs p.1 = refs w ∧ (benign w → benign p.1)
  | Err e => err e ∨ (env_failure e ∧ ¬ benign w)
  end.

Lemma runs_to_ret {A} (a : A) w (post : World → A → Prop) err : post w a → runs_to (w, Ok a) w post err.
Proof. done. Qed.

Lemma runs_to_mono {A} p w (post post' : World → A → Prop) (err err' : error → Prop) :
  runs_to p w post err → (∀ w' a, post w' a → post' w' a) → (∀ e, err e → err' e) →
  runs_to p w post' err'.
Proof. unfold runs_to. destruct p as [w' [a|e]]; cbn; naive_solver. Qed.

Lemma runs_to_bind {A B} (m : runtime S R A) (f : A → runtime S R B) w post post' err :
  runs_to (m w) w post err →
  (∀ w' a, post w' a → blocks w' = blocks w → refs w' = refs w → runs_to (f a w') w' post' err) →
  runs_to ((m ≫= f) w) w post' err.
Proof.
  unfold runs_to, mbind, stm_bind. destruct (m w) as [w1 [a|e]]; cbn; [|done].
  intros (Hp&Hb&Hr&Hben) Hf. specialize (Hf w1 a Hp Hb Hr).
  destruct (f a w1) as [w2 [b|e]]; cbn in *; [|naive_solver].
  destruct Hf as (?&->&->&?). split_and!; try done. auto.
Qed.

(** The same for the computations that carry fuel. *)
Lemma runs_to_step {A B} (p : World * result error A) (q : World * result error B) w post post' err :
  runs_to p w post err →
  (∀ w' a, p = (w', Ok a) → post w' a → blocks w' = blocks w → refs w' = refs w → runs_to q w' post' err) →
  (∀ w' e, p = (w', Err e) → q.2 = Err e) →
  runs_to q w post' err.
Proof.
  unfold runs_to. destruct p as [w1 [a|e]]; cbn.
  - intros (Hp&Hb&Hr&Hben) Hf _. specialize (Hf w1 a eq_refl Hp Hb Hr).
    destruct q as [w2 [b|e]]; cbn in *; [|naive_solver].
    destruct Hf as (?&->&->&?). split_and!; try done. auto.
  - intros He _ Hq. rewrite (Hq w1 e eq_refl). done.
Qed.

Lemma runs_to_foldl {A V} (I : list A → V → World → Prop) (f : V → A → runtime S R V) l v w err :
  I [] v w →
  (∀ pre x post v w, l = pre ++ x :: post → I pre v w →
    runs_to (f v x w) w (λ w' v', I (pre ++ [x]) v' w') err) →
  runs_to (stm_foldl f v l w) w (λ w' v', I l v' w') err.
Proof.
  intros H0 Hf.
  assert (∀ post pre v w, l = pre ++ post → I pre v w →
    runs_to (stm_foldl f v post w) w (λ w' v', I l v' w') err) as Hgen; [|by apply (Hgen l [])].
  clear v w H0. induction post as [|x post IH]; intros pre v w Hl HI; cbn.
  { rewrite app_nil_r in Hl. by subst. }
  eapply runs_to_bind; [by eapply Hf|]. intros w' v' HI' _ _.
  eapply (IH (pre ++ [x])); [by rewrite <-app_assoc|done].
Qed.

(** ** The primitive operations *)
Lemma poll_runs w (post : World → unit → Prop) err :
  (∀ w', scratch w' = scratch w → post w' ()) → runs_to (check_for_interrupt w) w post err.
Proof.
  intros Hp. unfold runs_to, check_for_interrupt. destruct (is_interrupt_requested w) eqn:Hi; cbn.
  - right. split; [done|]. intros [Hs _]. unfold is_interrupt_requested in Hi. by rewrite Hs in Hi.
  - split; [by apply Hp|]. split; [done|]. split; [done|]. unfold benign. cbn. by intros [-> ?].
Qed.

(** An operation that changes the scratch files to [f], or fails by a fault. *)
Lemma io_runs {A} (wrap : io_error → error) (m : World → World * result io_error A)
    (f : gmap string bytes → gmap string bytes) a w (post : World → A → Prop) err :
  (∀ e, env_failure (wrap e)) →
  (∀ w, faults w = [] ∨ (∃ l, faults w = None :: l) → scratch (m w).1 = f (scratch w) ∧ (m w).2 = Ok a
     ∧ blocks (m w).1 = blocks w ∧ refs (m w).1 = refs w ∧ signal (m w).1 = signal w
     ∧ (faults w = [] → faults (m w).1 = [])) →
  (∀ w e l, faults w = Some e :: l → (m w).2 = Err e) →
  (∀ w', scratch w' = f (scratch w) → post w' a) →
  runs_to (map_err_stm wrap m w) w post err.
Proof.
  intros Hw Hok Herr Hpost. unfold runs_to, map_err_stm.
  destruct (faults w) as [|[e|] l] eqn:Hf.
  - destruct (Hok w (or_introl Hf)) as (Hs&Hr&Hb&Hrf&Hsg&Hfl).
    destruct (m w) as [w' r]; cbn in *. subst r. cbn. split_and!; [by apply Hpost|done|done|].
    intros [??]. split; [congruence|auto].
  - specialize (Herr w e l Hf). destruct (m w) as [w' r]; cbn in *. subst r. cbn. right.
    split; [apply Hw|]. intros [_ Hn]. congruence.
  - destruct (Hok w (or_intror (ex_intro _ l Hf))) as (Hs&Hr&Hb&Hrf&Hsg&Hfl).
    destruct (m w) as [w' r]; cbn in *. subst r. cbn. split_and!; [by apply Hpost|done|done|].
    intros [_ Hn]. congruence.
Qed.

Ltac io_solve := intros w1; unfold io_step; [intros [Hf|(l&Hf)]; rewrite Hf; cbn; by rewrite ?Hf
  | intros e l Hf; unfold mbind, stm_bind; cbn; by rewrite ?Hf].

Lemma io_step_runs wrap w (post : World → unit → Prop) err : (∀ e, env_failure (wrap e)) →
  (∀ w', scratch w' = scratch w → post w' ()) → runs_to (map_err_stm wrap io_step w) w post err.
Proof.
  intros Hw Hp. apply (io_runs wrap io_step id ()); [done| | |done].
  - intros w1. unfold io_step. intros [Hf|(l&Hf)]; rewrite Hf; cbn; rewrite ?Hf; done.
  - intros w1 e l Hf. unfold io_step. by rewrite Hf.
Qed.

Lemma create_runs path w (post : World → unit → Prop) err :
  (∀ w', scratch w' = <[path := []]> (scratch w) → post w' ()) →
  runs_to (write_error path (file_create path) w) w post err.
Proof.
  intros Hp. apply (io_runs _ (file_create path) (<[path := []]>) ()); [done| | |done];
    unfold file_create, io_step, update_scratch, mbind, stm_bind.
  - intros w1 [Hf|(l&Hf)]; rewrite Hf; cbn; rewrite ?Hf; done.
  - intros w1 e l Hf. by rewrite Hf.
Qed.

Lemma write_runs path e w content (post : World → unit → Prop) err :
  scratch w !! path = Some content →
  (∀ w', scratch w' = <[path := content ++ entry_bytes e]> (scratch w) → post w' ()) →
  runs_to (write_error path (write_to path e) w) w post err.
Proof.
  intros Hc Hp. apply (io_runs _ (write_to path e)
    (λ m, <[path := default [] (m !! path) ++ entry_bytes e]> m) ()); [done| | |];
    unfold write_to, file_append, io_step, update_scratch, mbind, stm_bind.
  - intros w1 [Hf|(l&Hf)]; rewrite Hf; cbn; rewrite ?Hf; done.
  - intros w1 e1 l Hf. by rewrite Hf.
  - intros w'. rewrite Hc. apply Hp.
Qed.

Lemma open_runs path w content (post : World → bytes → Prop) err :
  scratch w !! path = Some content →
  (∀ w', scratch w' = scratch w → post w' content) →
  runs_to (read_error path (file_open path) w) w post err.
Proof.
  intros Hc Hp. unfold runs_to, read_error, map_err_stm, file_open, file_content, io_step, mbind, stm_bind.
  destruct (faults w) as [|[e|] l] eqn:Hf; cbn; rewrite ?Hc; cbn.
  - split_and!; [by apply Hp|done..].
  - right. split; [done|]. intros [_ Hn]. congruence.
  - split_and!; [by apply Hp|done|done|]. intros [_ Hn]. congruence.
Qed.

(** ** Files of entries *)
Definition file_bytes (l : list ReplayOrderEntry) : bytes := l ≫= entry_bytes.

Lemma file_bytes_snoc l e : file_bytes (l ++ [e]) = file_bytes l ++ entry_bytes e.
Proof. unfold file_bytes. rewrite bind_app. cbn. by rewrite app_nil_r. Qed.

Lemma read_runs path l w (post : World → option ReplayOrderEntry * bytes → Prop) err :
  Forall entry_ok l →
  (∀ w', scratch w' = scratch w → post w' (head l, file_bytes (tail l))) →
  runs_to (read_error path (read_from (file_bytes l)) w) w post err.
Proof.
  intros Hl Hp.
  apply (io_runs _ (read_from (file_bytes l)) id (head l, file_bytes (tail l))); [done| | |done];
    unfold read_from, io_step, mbind, stm_bind.
  - assert (∀ w0 : World, (match file_bytes l with
        | [] => mret (None, [])
        | _ => if len (file_bytes l) <? REPLAY_ORDER_ENTRY_BYTES
               then throw (IoError UnexpectedEof "failed to fill whole buffer")
               else mret (Some {| oe_block_id := take 32 (file_bytes l);
                  oe_digest := take 32 (drop 32 (file_bytes l)) |}, drop 64 (file_bytes l))
        end : stm World io_error _) w0 = (w0, Ok (head l, file_bytes (tail l)))) as Heq.
    { intros w0. destruct Hl as [|[id dg] l [[Hid _] [Hdg _]] Hl]; [done|]. cbn [head tail].
      unfold file_bytes at 1 2 3 4 5. rewrite bind_cons. fold (file_bytes l). unfold entry_bytes. cbn in Hid, Hdg.
      cbn [oe_block_id oe_digest].
      destruct ((id ++ dg) ++ file_bytes l) as [|x y] eqn:E.
      { apply (f_equal length) in E. rewrite !length_app, Hid in E. done. }
      rewrite <-E. clear E. unfold len. rewrite !length_app, Hid, Hdg.
      destruct (_ <? _) eqn:Hlt; [apply Z.ltb_lt in Hlt; unfold REPLAY_ORDER_ENTRY_BYTES in Hlt; lia|].
      rewrite <-!app_assoc. unfold mret, stm_ret. do 3 f_equal.
      - f_equal. f_equal.
        + rewrite take_app_le by lia. rewrite <-Hid at 1. by rewrite firstn_all.
        + rewrite drop_app_ge, Hid by lia. cbn [Nat.sub]. rewrite drop_0.
          rewrite take_app_le by lia. rewrite <-Hdg at 1. by rewrite firstn_all.
      - rewrite app_assoc, drop_app_ge by (rewrite length_app; lia). rewrite length_app, Hid, Hdg. done. }
    intros w1 [Hf|(k&Hf)]; rewrite Hf, Heq; cbn; rewrite ?Hf; done.
  - intros w1 e k Hf. by rewrite Hf.
Qed.

(** ** The deduplicating writer *)
Definition errs `{HashDisplay} (l : list ReplayOrderEntry) (e : error) : Prop :=
  ∃ id, conflict_in l id ∧ e = conflict_error id.

(** [pre] was offered; [previous] is pending and the entries before it are in
    the file [out]; the other files are those of [base]. *)
Definition writing (base : gmap string bytes) (out : string) (pre : list ReplayOrderEntry)
    (previous : option ReplayOrderEntry) (count : Z) (w : World) : Prop :=
  (∃ o, order_of pre (o ++ option_list previous) ∧ scratch w !! out = Some (file_bytes o) ∧ count = len o)
  ∧ consistent pre ∧ (previous = None → pre = [])
  ∧ ∀ p, p ≠ out → scratch w !! p = base !! p.

Lemma writing_scratch base out pre previous count w w' :
  scratch w' = scratch w → writing base out pre previous count w → writing base out pre previous count w'.
Proof. unfold writing. by intros ->. Qed.

Lemma consistent_snoc pre e p :
  consistent pre → (∀ x, x ∈ pre → entry_le x p) → p ∈ pre → entry_le p e →
  oe_block_id p ≠ oe_block_id e → consistent (pre ++ [e]).
Proof.
  intros Hc Hle Hp Hpe Hid.
  assert (∀ x, x ∈ pre → oe_block_id x ≠ oe_block_id e) as Hne.
  { intros x Hx Heq. apply Hid. specialize (Hle x Hx). unfold entry_le, entry_cmp, then_cmp in *.
    rewrite Heq in Hle. destruct (bytes_cmp (oe_block_id e) (oe_block_id p)) eqn:H1; [|clear Hle|done].
    - by apply bytes_cmp_eq in H1.
    - rewrite (cmp_opp (oe_block_id e) (oe_block_id p)), H1 in Hpe. done. }
  intros a b. rewrite !elem_of_app, !list_elem_of_singleton. intros [Ha| ->] [Hb| ->] Heq; try done.
  - by apply Hc.
  - by destruct (Hne a Ha).
  - by destruct (Hne b Hb).
Qed.

Lemma dedup_step_runs `{HashDisplay} base out pre previous count e w :
  writing base out pre previous count w → (∀ x, x ∈ pre → entry_le x e) →
  runs_to (dedup_step out previous e w) w
    (λ w' '(previous', wr), writing base out (pre ++ [e]) previous' (if wr then count + 1 else count) w')
    (errs (pre ++ [e])).
Proof.
  intros ((o&Ho&Hs&->)&Hc&Hnone&Hbase) Hle. unfold dedup_step. destruct previous as [p|]; cycle 1.
  { rewrite (Hnone eq_refl) in *. apply runs_to_ret. cbn in Ho. rewrite app_nil_r in Ho.
    assert (o = []) as ->.
    { destruct o as [|x o]; [done|]. exfalso. apply (not_elem_of_nil x), Ho. by left. }
    unfold writing. split_and!; [| |done|done].
    2: { intros a b. change ([] ++ [e]) with [e]. rewrite !list_elem_of_singleton. by intros -> ->. }
    exists []. split_and!; [|done..]. split; [by repeat constructor|done]. }
  change (option_list (Some p)) with [p] in *.
  assert (p ∈ pre) as Hp by (apply Ho; rewrite elem_of_app, list_elem_of_singleton; by right).
  assert (∀ x, x ∈ pre → entry_le x p) as Hlep.
  { intros x Hx%Ho. rewrite elem_of_app, list_elem_of_singleton in Hx. destruct Hx as [Hx| ->]; [|done].
    by destruct (StronglySorted_app_1_elem_of _ _ _ x p (proj1 Ho) Hx ltac:(by left)). }
  pose proof (order_of_snoc pre _ e Ho Hle) as Hsnoc. rewrite last_snoc in Hsnoc.
  destruct (decide (oe_block_id p = oe_block_id e)) as [Hid|Hid].
  - destruct (decide (oe_digest p ≠ oe_digest e)) as [Hd|Hd].
    + left. exists (oe_block_id e). split; [|done]. exists p, e.
      rewrite !elem_of_app, !list_elem_of_singleton. split_and!; auto.
    + apply dec_stable in Hd. assert (p = e) as -> by (destruct p, e; cbn in *; congruence).
      rewrite decide_True in Hsnoc by done. apply runs_to_ret. split_and!; [|..|done|done].
      * by exists o.
      * intros a b. rewrite !elem_of_app, !list_elem_of_singleton.
        intros [Ha| ->] [Hb| ->]; by apply Hc.
  - rewrite decide_False in Hsnoc by (intros [= ->]; done).
    eapply runs_to_bind; [eapply (write_runs out p w _ (λ w' _, scratch w' = _)); [done|]|].
    { intros w' Hw'. exact Hw'. }
    intros w' [] Hw' _ _. apply runs_to_ret. split_and!; [| |done|].
    + exists (o ++ [p]). split_and!; [done| |by rewrite len_app].
      rewrite Hw', lookup_insert_eq. by rewrite file_bytes_snoc.
    + by eapply consistent_snoc; [..|apply Hle|].
    + intros q Hq. rewrite Hw', lookup_insert_ne by done. by apply Hbase.
Qed.

(** Finishing: the pending entry is written, and the file holds the order. *)
Definition holds_order (l : list ReplayOrderEntry) (base : gmap string bytes) (out : string) (n : Z) (w : World) : Prop :=
  (∃ o, order_of l o ∧ scratch w !! out = Some (file_bytes o) ∧ n = len o) ∧ consistent l
  ∧ ∀ p, p ≠ out → scratch w !! p = base !! p.

Lemma finish_runs base out l previous count w err :
  writing base out l previous count w →
  runs_to (finish_file out previous w) w
    (λ w' _, holds_order l base out (match previous with Some _ => count + 1 | None => count end) w') err.
Proof.
  intros ((o&Ho&Hs&->)&Hc&Hnone&Hbase). unfold finish_file.
  eapply (runs_to_bind _ _ _ (λ w' _, scratch w' !! out = Some (file_bytes (o ++ option_list previous))
    ∧ ∀ p, p ≠ out → scratch w' !! p = base !! p)).
  - unfold write_last. destruct previous as [p|].
    + apply (write_runs out p w (file_bytes o)); [done|]. intros w' Hw'. rewrite Hw'.
      rewrite lookup_insert_eq. change (option_list (Some p)) with [p]. rewrite file_bytes_snoc. split; [done|].
      intros q Hq. rewrite lookup_insert_ne by done. by apply Hbase.
    + apply runs_to_ret. cbn. by rewrite app_nil_r.
  - intros w1 [] [Hs1 Hb1] _ _. apply io_step_runs; [done|]. intros w2 Hs2.
    split_and!; [|done|by rewrite Hs2].
    exists (o ++ option_list previous). rewrite Hs2. split_and!; [done..|].
    destruct previous; cbn; rewrite ?app_nil_r, ?len_app; done.
Qed.

(** ** Flushing a run *)
Lemma errs_mono `{HashDisplay} l k e : (∀ x, x ∈ l → x ∈ k) → errs l e → errs k e.
Proof. intros Hlk (id&Hc&->). exists id. split; [|done]. by eapply conflict_in_mono. Qed.

Lemma sorted_prefix_le pre e post :
  StronglySorted entry_le (pre ++ e :: post) → ∀ x, x ∈ pre → entry_le x e.
Proof. intros Hs x Hx. by eapply StronglySorted_app_1_elem_of; [done|done|left]. Qed.

Lemma writing_start base out w :
  scratch w = <[out := []]> base → writing base out [] None 0 w.
Proof.
  intros Hs. unfold writing. rewrite Hs. split; [|split; [|split; [done|]]].
  - exists []. rewrite lookup_insert_eq. split_and!; [|done..]. split; [constructor|done].
  - intros a b Ha. by apply elem_of_nil in Ha.
  - intros p Hp. by rewrite lookup_insert_ne.
Qed.

Lemma holds_order_ext l k base out n w :
  (∀ x, x ∈ l ↔ x ∈ k) → holds_order l base out n w → holds_order k base out n w.
Proof.
  intros Hlk ((o&Ho&?&?)&Hc&?). split_and!; [|intros a b; rewrite <-!Hlk; apply Hc|done].
  exists o. split_and!; try done. by eapply order_of_ext.
Qed.

Lemma flush_runs `{HashDisplay} scratch_dir i entries w :
  runs_to (flush_sorted_replay_order_run scratch_dir i entries w) w
    (λ w' p, p = run_path scratch_dir i ∧ ∃ n, holds_order entries (scratch w) p n w')
    (errs entries).
Proof.
  set (base := scratch w). unfold flush_sorted_replay_order_run.
  assert (∀ x, x ∈ merge_sort entry_le entries ↔ x ∈ entries) as Hel
    by (intros x; by rewrite merge_sort_Permutation).
  assert (StronglySorted entry_le (merge_sort entry_le entries)) as Hsort
    by (apply StronglySorted_merge_sort; apply _).
  set (sorted := merge_sort entry_le entries) in *. clearbody sorted. set (path := run_path scratch_dir i).
  eapply runs_to_bind; [apply (poll_runs w (λ w' _, scratch w' = base)); done|].
  intros w1 [] Hw1 _ _. cbv zeta.
  eapply runs_to_bind; [apply (create_runs path w1 (λ w' _, scratch w' = <[path := []]> base))|].
  { intros w' Hw'. by rewrite Hw', Hw1. }
  intros w2 [] Hw2 _ _.
  eapply runs_to_bind; [apply (runs_to_foldl (λ pre prev w, ∃ c, writing base path pre prev c w))|].
  - exists 0. by apply writing_start.
  - intros pre e post prev w3 Hl (c&Hwr). unfold flush_step.
    eapply runs_to_bind; [apply (poll_runs w3 (λ w' _, writing base path pre prev c w'))|].
    { intros w' Hs. by eapply writing_scratch. }
    intros w4 [] Hwr4 _ _.
    eapply runs_to_bind.
    + eapply runs_to_mono; [apply (dedup_step_runs base path pre prev c e w4 Hwr4)| |].
      * apply (sorted_prefix_le pre e post). by rewrite <-Hl.
      * intros w' a. exact id.
      * intros er. apply errs_mono. intros x Hx. apply Hel. rewrite Hl. set_solver.
    + intros w5 [prev' wr] Hwr5 _ _. apply runs_to_ret. by eexists.
  - intros w3 prev (c&Hwr) _ _. eapply runs_to_bind; [by apply (finish_runs base)|].
    intros w4 [] Hfin _ _. apply runs_to_ret. split; [done|]. eexists. by eapply holds_order_ext.
Qed.

(** ** The heap *)
#[local] Instance cursor_cmp_laws : CmpLaws cursor_cmp.
Proof.
  assert (CmpLaws Nat.compare) as Hn.
  { split; [apply Nat.compare_eq_iff|intros; apply Nat.compare_antisym|].
    intros a b c. rewrite !Nat.compare_lt_iff. lia. }
  assert (CmpLaws (λ a b, then_cmp (entry_cmp (cur_entry a) (cur_entry b)) (Nat.compare (cur_run a) (cur_run b))))
    as Hl.
  { refine (then_cmp_laws cur_entry cur_run entry_cmp Nat.compare _). intros [??] [??]. cbn. by intros -> ->. }
  destruct Hl as [He Ho Ht]. unfold cursor_cmp. split.
  - intros a b. rewrite He. split; by intros ->.
  - intros a b. apply (Ho b a).
  - intros a b c Hab Hbc. by apply (Ht c b a).
Qed.

Lemma heap_max_spec c l : heap_max c l ∈ c :: l ∧ ∀ d, d ∈ c :: l → cursor_cmp d (heap_max c l) ≠ Gt.
Proof.
  revert c. induction l as [|d l IH]; intros c; cbn [heap_max].
  { split; [by left|]. intros d ->%list_elem_of_singleton. by rewrite (cmp_refl cursor_cmp). }
  destruct (IH (match cursor_cmp c d with Lt => d | _ => c end)) as [Hin Hle]. split.
  - apply elem_of_cons in Hin as [Hin|Hin]; [|by do 2 right]. rewrite Hin. case_match; set_solver.
  - set (m := heap_max _ l) in *.
    assert (cursor_cmp (match cursor_cmp c d with Lt => d | _ => c end) m ≠ Gt) as Hb by (apply Hle; by left).
    intros x. rewrite !elem_of_cons. intros [->|[->|Hx]]; [| |apply Hle; by right].
    + destruct (cursor_cmp c d) eqn:Hcd; [exact Hb| |exact Hb].
      eapply (cmp_le_trans cursor_cmp); [|exact Hb]. by rewrite Hcd.
    + destruct (cursor_cmp c d) eqn:Hcd; [|exact Hb|].
      * apply cmp_eq in Hcd as ->. exact Hb.
      * eapply (cmp_le_trans cursor_cmp); [|exact Hb].
        apply (cmp_gt cursor_cmp) in Hcd. by rewrite Hcd.
Qed.

Lemma remove_first_perm c l : c ∈ l → l ≡ₚ c :: remove_first c l.
Proof.
  induction l as [|d l IH]; [by intros ?%elem_of_nil|]. cbn. intros Hin.
  destruct (decide (c = d)) as [->|Hne]; [done|].
  apply elem_of_cons in Hin as [|Hin]; [done|]. rewrite (IH Hin) at 1. apply Permutation_swap.
Qed.

(** [pop] removes an element whose entry is smallest. *)
Lemma heap_pop_spec h : match heap_pop h with
  | None => h = []
  | Some (c, h') => h ≡ₚ c :: h' ∧ ∀ d, d ∈ h → entry_le (cur_entry c) (cur_entry d)
  end.
Proof.
  destruct h as [|c l]; cbn [heap_pop]; [done|].
  destruct (heap_max_spec c l) as [Hin Hle]. split; [by apply remove_first_perm|].
  intros d Hd. specialize (Hle d Hd). unfold cursor_cmp, then_cmp in Hle. unfold entry_le.
  intros Hg. rewrite Hg in Hle. done.
Qed.

(** ** Merging *)
Record merge_state (base : gmap string bytes) (out : string) (total pre : list ReplayOrderEntry)
    (rs : list (list ReplayOrderEntry)) (heap : list ReplayOrderCursor)
    (previous : option ReplayOrderEntry) (unique : Z) (w : World) : Prop := {
  ms_perm : pre ++ (cur_entry <$> heap) ++ concat rs ≡ₚ total;
  ms_ok : Forall (Forall entry_ok) rs;
  ms_runs : NoDup (cur_run <$> heap);
  ms_heap c : c ∈ heap → ∃ r, rs !! cur_run c = Some r ∧ StronglySorted entry_le (cur_entry c :: r);
  ms_empty i r : rs !! i = Some r → i ∉ cur_run <$> heap → r = [];
  ms_le x y : x ∈ pre → y ∈ (cur_entry <$> heap) ++ concat rs → entry_le x y;
  ms_writing : writing base out pre previous unique w
}.

Lemma concat_insert (rs : list (list ReplayOrderEntry)) i r :
  rs !! i = Some r → concat rs ≡ₚ option_list (head r) ++ concat (<[i := tail r]> rs).
Proof.
  intros Hr. rewrite <-(take_drop_middle rs i r Hr) at 1.
  rewrite insert_take_drop by (by eapply lookup_lt_Some).
  rewrite !concat_app. cbn [concat]. destruct r as [|e r]; cbn [head tail option_list]; [done|].
  cbn. symmetry. apply Permutation_middle.
Qed.

Lemma merge_state_step base out total pre rs heap previous unique w c h' r previous' unique' w' :
  merge_state base out total pre rs heap previous unique w →
  heap ≡ₚ c :: h' → (∀ d, d ∈ heap → entry_le (cur_entry c) (cur_entry d)) →
  rs !! cur_run c = Some r →
  writing base out (pre ++ [cur_entry c]) previous' unique' w' →
  merge_state base out total (pre ++ [cur_entry c]) (<[cur_run c := tail r]> rs)
    (match head r with Some e => {| cur_entry := e; cur_run := cur_run c |} :: h' | None => h' end)
    previous' unique' w'.
Proof.
  intros [Hperm Hok Hruns Hheap Hempty Hle _] Hh Hmin Hr Hwr.
  assert (c ∈ heap) as Hc by (rewrite Hh; by left).
  destruct (Hheap c Hc) as (r'&Hr'&Hsort). rewrite Hr in Hr'. injection Hr' as <-.
  apply StronglySorted_inv in Hsort as [Hsort Hcr]. rewrite Forall_forall in Hcr.
  assert ((match head r with Some e => {| cur_entry := e; cur_run := cur_run c |} :: h' | None => h' end)
    = ((λ e, {| cur_entry := e; cur_run := cur_run c |}) <$> option_list (head r)) ++ h') as ->
    by (by destruct r).
  assert (NoDup (cur_run c :: (cur_run <$> h'))) as Hnd by (by rewrite <-fmap_cons, <-Hh).
  apply NoDup_cons in Hnd as [Hnc Hnd].
  assert ((cur_entry <$> heap) ++ concat rs ≡ₚ
    cur_entry c :: (cur_entry <$> ((λ e, {| cur_entry := e; cur_run := cur_run c |}) <$> option_list (head r)) ++ h')
      ++ concat (<[cur_run c := tail r]> rs)) as Hrest.
  { rewrite Hh, fmap_cons. cbn [app]. f_equiv. rewrite fmap_app, <-list_fmap_compose.
    rewrite (concat_insert rs (cur_run c) r Hr). unfold compose. cbn [cur_entry].
    rewrite list_fmap_id, <-!app_assoc. apply Permutation_app_swap_app. }
  split.
  - rewrite <-Hperm, Hrest. by rewrite <-app_assoc.
  - apply Forall_insert; [done|]. rewrite Forall_lookup in Hok. specialize (Hok _ _ Hr).
    by destruct Hok.
  - rewrite fmap_app, <-list_fmap_compose. unfold compose. cbn [cur_run].
    destruct r as [|e r]; cbn; [done|]. by constructor.
  - intros d. rewrite elem_of_app, list_elem_of_fmap. intros [(e&->&He)|Hd].
    + cbn [cur_run cur_entry]. exists (tail r).
      rewrite list_lookup_insert_eq by (by eapply lookup_lt_Some).
      split; [done|]. destruct r as [|e' r]; [by apply elem_of_nil in He|].
      apply list_elem_of_singleton in He as ->. done.
    + destruct (Hheap d) as (rd&Hrd&Hsd); [rewrite Hh; by right|]. exists rd.
      rewrite list_lookup_insert_ne; [done|]. intros Heq. apply Hnc. rewrite Heq.
      by apply list_elem_of_fmap_2.
  - intros i ri Hi Hni. rewrite fmap_app, <-list_fmap_compose in Hni. unfold compose in Hni. cbn [cur_run] in Hni.
    destruct (decide (i = cur_run c)) as [->|Hne].
    + rewrite list_lookup_insert_eq in Hi by (by eapply lookup_lt_Some). injection Hi as <-.
      destruct r as [|e r]; [done|]. exfalso. apply Hni. by left.
    + rewrite list_lookup_insert_ne in Hi by done. eapply Hempty; [done|]. rewrite Hh, fmap_cons.
      rewrite elem_of_cons. intros [->|?]; [done|]. apply Hni. rewrite elem_of_app. by right.
  - intros x y Hx Hy.
    assert (y ∈ (cur_entry <$> heap) ++ concat rs) as Hy' by (rewrite Hrest; by right).
    apply elem_of_app in Hx as [Hx|Hx]; [by apply Hle|]. apply list_elem_of_singleton in Hx as ->.
    apply elem_of_app in Hy' as [(d&->&Hd)%list_elem_of_fmap|Hy']; [by apply Hmin|].
    apply list_elem_of_In, in_concat in Hy' as (rj&Hrj&Hyj). apply list_elem_of_In in Hrj, Hyj.
    apply list_elem_of_lookup in Hrj as (j&Hj).
    destruct (decide (j ∈ cur_run <$> heap)) as [(d&->&Hd)%list_elem_of_fmap|Hnj].
    + destruct (Hheap d Hd) as (rd&Hrd&Hsd). rewrite Hj in Hrd. injection Hrd as <-.
      apply StronglySorted_inv in Hsd as [_ Hsd]. rewrite Forall_forall in Hsd.
      etrans; [by apply Hmin|by apply Hsd].
    + rewrite (Hempty _ _ Hj Hnj) in Hyj. by apply elem_of_nil in Hyj.
  - done.
Qed.

Section merging.
Context `{HashDisplay}.

Definition merged (base : gmap string bytes) (out : string) (total : list ReplayOrderEntry)
    (w : World) (r : option ReplayOrderEntry * Z) : Prop :=
  ∃ pre, pre ≡ₚ total ∧ writing base out pre r.1 r.2 w.

(** The loop takes one iteration per entry and one to find the heap empty. *)
Lemma merge_loop_runs fuel base paths out total pre rs heap previous unique w :
  merge_state base out total pre rs heap previous unique w → length rs = length paths →
  (length heap + length (concat rs) < fuel)%nat →
  ∃ p, merge_loop fuel paths out (file_bytes <$> rs) heap previous unique w = Some p
    ∧ runs_to p w (merged base out total) (errs total).
Proof.
  revert pre rs heap previous unique w.
  induction fuel as [|fuel IH]; intros pre rs heap previous unique w Hms Hlen Hfuel; [lia|].
  cbn [merge_loop]. pose proof (heap_pop_spec heap) as Hpop.
  destruct (heap_pop heap) as [[c h']|]; cycle 1.
  { subst heap. eexists. split; [done|]. apply runs_to_ret. exists pre. split; [|apply Hms].
    rewrite <-(ms_perm _ _ _ _ _ _ _ _ _ Hms). cbn [fmap list_fmap app].
    assert (concat rs = []) as ->; [|by rewrite app_nil_r].
    assert (Forall (λ r, r = []) rs) as Hall.
    { apply Forall_lookup. intros i r Hr. eapply (ms_empty _ _ _ _ _ _ _ _ _ Hms); [done|].
      apply not_elem_of_nil. }
    clear -Hall. induction Hall as [|r rs -> _ IH]; [done|exact IH]. }
  destruct Hpop as [Hh Hmin].
  assert (c ∈ heap) as Hc by (rewrite Hh; by left).
  destruct (ms_heap _ _ _ _ _ _ _ _ _ Hms c Hc) as (r&Hr&_).
  assert (Forall entry_ok r) as Hrok.
  { pose proof (ms_ok _ _ _ _ _ _ _ _ _ Hms) as Hok. rewrite Forall_lookup in Hok. by eapply Hok. }
  assert (is_Some (paths !! cur_run c)) as [path Hpath].
  { apply lookup_lt_is_Some. rewrite <-Hlen. by eapply lookup_lt_Some. }
  assert (∀ x, x ∈ pre → entry_le x (cur_entry c)) as Hle.
  { intros x Hx. apply (ms_le _ _ _ _ _ _ _ _ _ Hms); [done|]. apply elem_of_app. left.
    by apply list_elem_of_fmap_2. }
  assert (runs_to ((check_for_interrupt ;; dedup_step out previous (cur_entry c)) w) w
    (λ w' '(previous', wr), writing base out (pre ++ [cur_entry c]) previous' (if wr then unique + 1 else unique) w')
    (errs total)) as Hded.
  { eapply runs_to_bind; [apply (poll_runs w (λ w' _, writing base out pre previous unique w'))|].
    { intros w' Hs. eapply writing_scratch; [done|]. apply Hms. }
    intros w1 [] Hw1 _ _. eapply runs_to_mono; [by apply dedup_step_runs|by intros ? [? ?]|].
    intros e. apply errs_mono. intros x Hx. rewrite <-(ms_perm _ _ _ _ _ _ _ _ _ Hms).
    apply elem_of_app in Hx as [Hx| ->%list_elem_of_singleton]; apply elem_of_app; [by left|right].
    apply elem_of_app. left. by apply list_elem_of_fmap_2. }
  destruct ((check_for_interrupt ;; dedup_step out previous (cur_entry c)) w) as [w1 [[previous' wr]|e]] eqn:Hd; cycle 1.
  { eexists. split; [done|]. exact Hded. }
  rewrite Hpath. cbn [mbind option_bind]. rewrite list_lookup_fmap, Hr. cbn [fmap option_fmap option_map mbind option_bind].
  assert (writing base out (pre ++ [cur_entry c]) previous' (if wr then unique + 1 else unique) w1) as Hwr
    by apply Hded.
  pose proof (read_runs path r w1 (λ w' x, scratch w' = scratch w1 ∧ x = (head r, file_bytes (tail r))) (errs total)
    Hrok ltac:(by intros)) as Hread.
  destruct (read_error path (read_from (file_bytes r)) w1) as [w2 [[next reader]|e]] eqn:Hrd; cycle 1.
  { eexists. split; [done|]. eapply (runs_to_step _ _ _ _ _ _ Hded); [|done].
    intros w' a [= <- <-] _ _ _. eapply runs_to_mono; [exact Hread|by intros|done]. }
  pose proof Hread as ((Hs2&[= -> ->])&Hb2&Hr2&Hben2).
  rewrite <-list_fmap_insert.
  set (heap2 := match head r with Some entry => _ | None => _ end).
  pose proof (merge_state_step _ _ _ _ _ _ _ _ _ c h' r previous' (if wr then unique + 1 else unique) w2
    Hms Hh Hmin Hr (writing_scratch _ _ _ _ _ _ _ Hs2 Hwr)) as Hms2.
  destruct (IH _ _ _ _ _ _ Hms2) as (p&Hp&Hrun).
  - by rewrite length_insert.
  - pose proof (Permutation_length (concat_insert rs (cur_run c) r Hr)) as Hl.
    apply Permutation_length in Hh. rewrite length_app in Hl. cbn in Hh.
    destruct r as [|e r]; cbn in Hl |- *; lia.
  - exists p. split; [exact Hp|]. eapply (runs_to_step _ _ _ _ _ _ Hded); [|done].
    intros w' a [= <- <-] _ _ _. eapply (runs_to_step _ _ _ _ _ _ Hread); [|done].
    intros w' a [= <- <-] _ _ _. exact Hrun.
Qed.

(** ** Opening the runs *)
Definition run_file (sc : gmap string bytes) (path : string) (run : list ReplayOrderEntry) : Prop :=
  sc !! path = Some (file_bytes run) ∧ Forall entry_ok run ∧ StronglySorted entry_lt run.

Fixpoint initial_heap (k : nat) (runs : list (list ReplayOrderEntry)) : list ReplayOrderCursor :=
  match runs with
  | [] => []
  | run :: runs =>
      ((λ e, {| cur_entry := e; cur_run := k |}) <$> option_list (head run)) ++ initial_heap (Datatypes.S k) runs
  end.

Lemma initial_heap_snoc k runs run :
  initial_heap k (runs ++ [run]) = initial_heap k runs
    ++ ((λ e, {| cur_entry := e; cur_run := (k + length runs)%nat |}) <$> option_list (head run)).
Proof.
  revert k. induction runs as [|r runs IH]; intros k; cbn [app initial_heap length].
  - by rewrite Nat.add_0_r, app_nil_r.
  - rewrite IH, app_assoc. by replace (Datatypes.S k + length runs)%nat with (k + Datatypes.S (length runs))%nat by lia.
Qed.

Lemma open_all_runs sc paths runs w err :
  Forall2 (run_file sc) paths runs → scratch w = sc →
  runs_to (stm_foldl open_step ([], []) paths w) w
    (λ w' st, scratch w' = sc ∧ st = (file_bytes <$> (tail <$> runs), initial_heap 0 runs)) err.
Proof.
  intros Hpr Hw. eapply runs_to_mono; [|by intros w' st; exact id|done].
  eapply runs_to_mono; [apply (runs_to_foldl (λ prep st w', scratch w' = sc ∧
    st = (file_bytes <$> (tail <$> take (length prep) runs), initial_heap 0 (take (length prep) runs))))| |done].
  - done.
  - intros prep path post st w1 Hpaths [Hw1 ->]. unfold open_step.
    assert (∃ run, runs !! length prep = Some run ∧ run_file sc path run) as (run&Hrun&Hf&Hok&_).
    { eapply Forall2_lookup_l in Hpr as (run&?&?); [by exists run|]. by rewrite Hpaths, list_lookup_middle. }
    eapply runs_to_bind; [apply (poll_runs w1 (λ w' _, scratch w' = sc)); by intros w' ->|].
    intros w2 [] Hw2 _ _.
    eapply runs_to_bind; [apply (open_runs path w2 (file_bytes run) (λ w' c, scratch w' = sc ∧ c = file_bytes run));
      [by rewrite Hw2|by intros w' ->]|].
    intros w3 content [Hw3 ->] _ _.
    eapply runs_to_bind; [apply (read_runs path run w3 (λ w' x, scratch w' = sc ∧ x = (head run, file_bytes (tail run))));
      [done|by intros w' ->]|].
    intros w4 [first reader] [Hw4 [= -> ->]] _ _. apply runs_to_ret. split; [done|].
    rewrite length_app. cbn [length]. rewrite Nat.add_1_r, (take_S_r _ _ _ Hrun), initial_heap_snoc, !fmap_app.
    cbn [fmap list_fmap]. rewrite !length_fmap. f_equal. destruct (head run); cbn; [done|by rewrite app_nil_r].
  - intros w' st [Hw' ->]. apply Forall2_length in Hpr. by rewrite Hpr, take_ge by lia.
Qed.

Lemma initial_heap_spec k runs :
  (cur_entry <$> initial_heap k runs) ++ concat (tail <$> runs) ≡ₚ concat runs
  ∧ NoDup (cur_run <$> initial_heap k runs)
  ∧ (∀ c, c ∈ initial_heap k runs ↔ ∃ i r, runs !! i = Some (cur_entry c :: r) ∧ cur_run c = (k + i)%nat).
Proof.
  revert k. induction runs as [|run runs IH]; intros k; cbn [initial_heap].
  { split; [done|]. split; [constructor|]. intros c. split; [by intros ?%elem_of_nil|by intros (?&?&?&_)]. }
  destruct (IH (Datatypes.S k)) as (Hp&Hn&Hc). split_and!.
  - rewrite fmap_app, <-list_fmap_compose. unfold compose. cbn [cur_entry]. rewrite list_fmap_id.
    cbn [fmap list_fmap concat]. rewrite <-!app_assoc, (Permutation_app_swap_app _ (tail run)), Hp, app_assoc.
    by destruct run.
  - rewrite fmap_app, <-list_fmap_compose. unfold compose. cbn [cur_run].
    destruct run as [|e run]; [done|]. cbn. constructor; [|done].
    intros (c&Hk&Hin)%list_elem_of_fmap. apply Hc in Hin as (i&r&_&Hi). lia.
  - intros c. rewrite elem_of_app, Hc. split.
    + intros [(e&->&He)%list_elem_of_fmap|(i&r&Hr&Hi)].
      * destruct run as [|e' run]; [by apply elem_of_nil in He|]. apply list_elem_of_singleton in He as ->.
        exists 0%nat, run. cbn. split; [done|lia].
      * exists (Datatypes.S i), r. split; [done|lia].
    + intros ([|i]&r&Hr&Hi).
      * cbn in Hr. injection Hr as ->. left. cbn. apply list_elem_of_singleton.
        destruct c; cbn in *. f_equal. lia.
      * right. exists i, r. split; [done|lia].
Qed.

Lemma sorted_lt_le l : StronglySorted entry_lt l → StronglySorted entry_le l.
Proof. induction 1 as [|x l Hl IH Hx]; constructor; [done|]. eapply Forall_impl; [exact Hx|]. by intros y [? _]. Qed.

Lemma initial_merge_state sc out paths runs w :
  Forall2 (run_file sc) paths runs → writing sc out [] None 0 w →
  merge_state sc out (concat runs) [] (tail <$> runs) (initial_heap 0 runs) None 0 w.
Proof.
  intros Hpr Hwr. destruct (initial_heap_spec 0 runs) as (Hp&Hn&Hc).
  assert (∀ i r, runs !! i = Some r → Forall entry_ok r ∧ StronglySorted entry_lt r) as Hrun.
  { intros i r Hr. eapply Forall2_lookup_r in Hpr as (p&_&_&?&?); [|done]. done. }
  split; [done| |done| | |by intros x y ?%elem_of_nil|done].
  - apply Forall_fmap, Forall_lookup. intros i r Hr. destruct (Hrun i r Hr) as [Hok _].
    destruct r as [|e r]; [by constructor|]. by apply Forall_cons in Hok as [_ ?].
  - intros c (i&r&Hr&Hi)%Hc. rewrite Nat.add_0_l in Hi. exists r. rewrite Hi, list_lookup_fmap, Hr.
    split; [done|]. apply sorted_lt_le. by eapply Hrun.
  - intros i r Hr Hni. rewrite list_lookup_fmap in Hr.
    destruct (runs !! i) as [[|e run]|] eqn:Hi; cbn in Hr; [by injection Hr as <-| |done].
    exfalso. apply Hni. apply list_elem_of_fmap. exists {| cur_entry := e; cur_run := i |}.
    split; [done|]. apply Hc. exists i, run. done.
Qed.

Lemma holds_order_perm l k base out n w : l ≡ₚ k → holds_order l base out n w → holds_order k base out n w.
Proof. intros Hlk. apply holds_order_ext. intros x. by rewrite Hlk. Qed.

(** The iterations that a group needs. *)
Lemma group_fuel runs : (length (initial_heap 0 runs) + length (concat (tail <$> runs)) = length (concat runs))%nat.
Proof.
  destruct (initial_heap_spec 0 runs) as (Hp&_). apply Permutation_length in Hp.
  rewrite length_app, length_fmap in Hp. done.
Qed.

Lemma run_file_ne sc out data path run :
  path ≠ out → run_file sc path run → run_file (<[out := data]> sc) path run.
Proof. intros Hne [Hs ?]. split; [|done]. by rewrite lookup_insert_ne. Qed.

Lemma group_runs fuel paths runs out w :
  Forall2 (run_file (scratch w)) paths runs → out ∉ paths → (length (concat runs) < fuel)%nat →
  ∃ p, merge_sorted_replay_order_run_group fuel paths out w = Some p
    ∧ runs_to p w (λ w' n, holds_order (concat runs) (scratch w) out n w') (errs (concat runs)).
Proof.
  intros Hpr Hout Hfuel. set (sc := scratch w) in *. unfold merge_sorted_replay_order_run_group.
  assert (runs_to ((check_for_interrupt ;; write_error out (file_create out) ;;
      stm_foldl open_step ([], []) paths) w) w
    (λ w' st, scratch w' = <[out := []]> sc ∧ st = (file_bytes <$> (tail <$> runs), initial_heap 0 runs))
    (errs (concat runs))) as Hopen.
  { eapply runs_to_bind; [apply (poll_runs w (λ w' _, scratch w' = sc)); done|]. intros w1 [] Hw1 _ _.
    eapply runs_to_bind; [apply (create_runs out w1 (λ w' _, scratch w' = <[out := []]> sc))|].
    { intros w' ->. by rewrite Hw1. }
    intros w2 [] Hw2 _ _. apply open_all_runs; [|done].
    clear -Hpr Hout. induction Hpr as [|p r paths runs Hp _ IH]; [constructor|].
    apply not_elem_of_cons in Hout as [Hne Hout]. constructor; [by apply run_file_ne|by apply IH]. }
  destruct ((check_for_interrupt ;; write_error out (file_create out) ;;
      stm_foldl open_step ([], []) paths) w) as [w1 [st|e]] eqn:Ho; cycle 1.
  { eexists. split; [done|]. exact Hopen. }
  pose proof Hopen as ((Hs1&->)&_&_&_). cbn [fst snd] in *.
  pose proof (writing_start sc out w1 Hs1) as Hwr.
  pose proof (initial_merge_state sc out paths runs w1 Hpr Hwr) as Hms.
  destruct (merge_loop_runs fuel sc paths out (concat runs) [] (tail <$> runs) (initial_heap 0 runs) None 0 w1 Hms)
    as (p&Hp&Hrun); [by rewrite length_fmap, (Forall2_length _ _ _ Hpr)|rewrite group_fuel; lia|].
  rewrite Hp. cbn [mbind option_bind]. destruct p as [w2 [[previous unique]|e]]; cycle 1.
  { eexists. split; [done|]. eapply (runs_to_step _ _ _ _ _ _ Hopen); [|done].
    intros w' a [= <- <-] _ _ _. exact Hrun. }
  eexists. split; [done|]. eapply (runs_to_step _ _ _ _ _ _ Hopen); [|done].
  intros w' a [= <- <-] _ _ _. eapply (runs_to_step _ _ _ _ _ _ Hrun); [|done].
  intros w' a [= <- <-] (pre&Hpre&Hwr2) _ _. unfold finish_merge.
  eapply runs_to_bind; [by apply (finish_runs sc out pre)|]. intros w3 [] Hfin _ _.
  apply runs_to_ret. by eapply holds_order_perm.
Qed.

(** ** Passes

    A collection of files [paths] that represents the entries [total]: each
    holds a strictly sorted list, and together they have the elements of
    [total]. *)
Definition represents (sc : gmap string bytes) (paths : list string) (total : list ReplayOrderEntry) (size : nat) : Prop :=
  ∃ runs, Forall2 (run_file sc) paths runs ∧ (∀ e, e ∈ concat runs ↔ e ∈ total)
    ∧ (length (concat runs) ≤ size)%nat.

Lemma order_of_length l o : order_of l o → (length o ≤ length l)%nat.
Proof.
  intros [Hs He]. apply submseteq_length, NoDup_submseteq; [|intros x; apply He].
  clear He. induction Hs as [|x o Hs IH Hx]; constructor; [|done].
  intros Hin. rewrite Forall_forall in Hx. by destruct (Hx x Hin).
Qed.

Lemma holds_order_run base out n w l :
  Forall entry_ok l → holds_order l base out n w →
  ∃ o, order_of l o ∧ run_file (scratch w) out o ∧ n = len o.
Proof.
  intros Hok ((o&Ho&Hs&->)&_&_). exists o. split; [done|]. split; [|done]. split_and!; [done| |apply Ho].
  apply Forall_forall. intros x Hx. rewrite Forall_forall in Hok. apply Hok. by apply Ho.
Qed.

Lemma run_files_ok sc paths runs : Forall2 (run_file sc) paths runs → Forall entry_ok (concat runs).
Proof. induction 1 as [|p r paths runs (_&?&_) _ IH]; [done|]. cbn. by apply Forall_app. Qed.

Lemma run_files_ext sc sc' paths runs :
  (∀ p, p ∈ paths → sc' !! p = sc !! p) → Forall2 (run_file sc) paths runs → Forall2 (run_file sc') paths runs.
Proof.
  intros Heq H2. induction H2 as [|p r paths runs [Hs ?] _ IH]; constructor.
  - split; [|done]. rewrite Heq; [done|by left].
  - apply IH. intros q Hq. apply Heq. by right.
Qed.

Context (scratch_dir : string).

(** A pass over [groups], writing the paths of pass [k] from group [g] on. The
    sources are not among the outputs. *)
Lemma pass_runs fuel k g groups runss total w :
  Forall2 (Forall2 (run_file (scratch w))) groups runss →
  (∀ g' p, p ∈ concat groups → p ≠ merge_path scratch_dir k g') →
  (∀ g1 g2, (g1 < g + length groups)%nat → (g2 < g + length groups)%nat →
     merge_path scratch_dir k g1 = merge_path scratch_dir k g2 → g1 = g2) →
  (∀ x, x ∈ concat (concat runss) → x ∈ total) →
  (length (concat (concat runss)) < fuel)%nat →
  ∃ p, merge_pass scratch_dir fuel k g groups w = Some p ∧
    runs_to p w (λ w' next,
      next = merge_path scratch_dir k <$> seq g (length groups)
      ∧ (∃ os, Forall2 (run_file (scratch w')) next os
         ∧ (∀ e, e ∈ concat os ↔ e ∈ concat (concat runss))
         ∧ (length (concat os) ≤ length (concat (concat runss)))%nat)
      ∧ ∀ p, p ∉ next → scratch w' !! p = scratch w !! p) (errs total).
Proof.
  intros H2. revert g w H2. revert runss.
  induction groups as [|group groups IH]; intros runss g w H2 Hsrc Hinj Htot Hfuel.
  { inversion H2; subst. eexists. split; [done|]. apply runs_to_ret. split; [done|]. split; [|done].
    exists []. done. }
  inversion H2 as [|? runs ? runss' Hg Hgs]; subst. cbn [concat] in *. cbn [merge_pass].
  pose proof (poll_runs w (λ w' _, scratch w' = scratch w) (errs total) ltac:(done)) as Hpoll.
  destruct (check_for_interrupt w) as [w1 [[]|e]] eqn:Hc; cycle 1.
  { eexists. split; [done|]. exact Hpoll. }
  pose proof Hpoll as (Hs1&_). cbn [fst] in Hs1. set (out := merge_path scratch_dir k g).
  rewrite concat_app, length_app in Hfuel.
  destruct (group_runs fuel group runs out w1) as (p1&Hp1&Hrun1).
  { by rewrite Hs1. } { intros Hin. eapply Hsrc; [|done]. apply elem_of_app. by left. } { lia. }
  rewrite Hp1. cbn [mbind option_bind].
  assert (runs_to p1 w1 (λ w' n, holds_order (concat runs) (scratch w1) out n w') (errs total)) as Hrun1'.
  { eapply runs_to_mono; [exact Hrun1|done|]. intros e. apply errs_mono. intros x Hx. apply Htot.
    rewrite concat_app. apply elem_of_app. by left. }
  destruct p1 as [w2 [n|e]]; cycle 1.
  { eexists. split; [done|]. eapply (runs_to_step _ _ _ _ _ _ Hpoll); [|done].
    intros w' a [= <- <-] _ _ _. exact Hrun1'. }
  pose proof Hrun1 as (Hho&_). cbn [fst] in Hho.
  assert (Forall entry_ok (concat runs)) as Hok by (by eapply run_files_ok).
  destruct (holds_order_run _ _ _ _ _ Hok Hho) as (o&Ho&Hrf&_).
  destruct Hho as (_&_&Hframe).
  destruct (IH runss' (Datatypes.S g) w2) as (p2&Hp2&Hrun2).
  { eapply Forall2_impl; [|intros ? ? Hx; exact Hx]. rewrite Hs1 in Hframe.
    assert (∀ p, p ∈ concat groups → scratch w2 !! p = scratch w !! p) as Hfr.
    { intros p Hp. apply Hframe. apply Hsrc. apply elem_of_app. by right. }
    clear -Hgs Hfr. induction Hgs as [|gr rr groups runss Hgr _ IHg]; constructor.
    - eapply run_files_ext; [|done]. intros p Hp. apply Hfr. cbn. apply elem_of_app. by left.
    - apply IHg. intros p Hp. apply Hfr. cbn. apply elem_of_app. by right. }
  { intros g' p Hp. apply Hsrc. apply elem_of_app. by right. }
  { intros g1 g2 ??. apply Hinj; cbn [length]; lia. }
  { intros x Hx. apply Htot. rewrite concat_app. apply elem_of_app. by right. }
  { lia. }
  rewrite Hp2. cbn [mbind option_bind]. destruct p2 as [w3 r3]. eexists. split; [done|].
  eapply (runs_to_step _ _ _ _ _ _ Hpoll); [|done]. intros w' a [= <- <-] _ _ _.
  eapply (runs_to_step _ _ _ _ _ _ Hrun1'); [|done]. intros w' a [= <- <-] _ _ _.
  eapply (runs_to_step _ _ _ _ _ _ Hrun2); [|by intros w' e [= <- ->]].
  intros w' next [= <- ->] (->&(os&Hos&Hel&Hlen)&Hfr3) _ _. apply runs_to_ret.
  set (next := merge_path scratch_dir k <$> seq (Datatypes.S g) (length groups)) in *.
  assert (out ∉ next) as Hout.
  { intros (g'&Heq&Hg')%list_elem_of_fmap. apply elem_of_seq in Hg'.
    apply Hinj in Heq; cbn [length]; lia. }
  cbn [length seq fmap list_fmap]. split; [done|]. split.
  - exists (o :: os). split; [constructor; [|exact Hos]|].
    + destruct Hrf as [Hs ?]. split; [|done]. by rewrite Hfr3.
    + rewrite concat_app. cbn [concat]. split.
      * intros e. rewrite !elem_of_app, Hel. f_equiv. apply Ho.
      * rewrite !length_app. apply order_of_length in Ho. lia.
  - intros p [Hp1' Hp2']%not_elem_of_cons. rewrite Hfr3, Hframe, Hs1; done.
Qed.

(** ** Paths *)
Lemma fmt_digits n : 0 ≤ n → Forall is_digit (as_bytes (fmt_usize n)) ∧ digits_value (as_bytes (fmt_usize n)) = n.
Proof.
  intros Hn. destruct (decide (n = 0)) as [->|Hz].
  { split; [|done]. change (as_bytes (fmt_usize 0)) with [48]. constructor; [unfold is_digit; lia|done]. }
  set (room := Z.to_nat (n + 1)).
  assert (n < 10 ^ Z.of_nat room) as Hp.
  { unfold room. rewrite Z2Nat.id by lia. pose proof (Z.pow_gt_lin_r 10 (n + 1)). lia. }
  destruct (decimal_loop_value room n []) as (d&Hd&Hdig&_&_&Hv); [lia|lia|constructor|].
  pose proof (decimal_loop_pretty room n "" ltac:(lia)) as Hpr. change (as_bytes "") with (@nil Z) in Hpr.
  rewrite Hpr in Hd. injection Hd as <-. unfold fmt_usize, pretty, pretty_N.
  rewrite decide_False by lia. split; [done|]. rewrite Hv, len_nil. change (digits_value []) with 0. lia.
Qed.

Lemma padded_digits width n : Forall is_digit (fmt_usize_padded width (Z.of_nat n))
  ∧ digits_value (fmt_usize_padded width (Z.of_nat n)) = Z.of_nat n.
Proof.
  destruct (fmt_digits (Z.of_nat n)) as [Hd Hv]; [lia|]. unfold fmt_usize_padded.
  rewrite digits_value_zeros. split; [|done]. apply Forall_app. split; [|done].
  apply Forall_replicate. unfold is_digit. lia.
Qed.

Lemma padded_byte width n : Forall is_byte (fmt_usize_padded width (Z.of_nat n)).
Proof.
  destruct (padded_digits width n) as [Hd _]. eapply Forall_impl; [exact Hd|]. unfold is_digit, is_byte. lia.
Qed.

Lemma split_at_first (x : Z) a b a' b' : x ∉ a → x ∉ a' → a ++ x :: b = a' ++ x :: b' → a = a' ∧ b = b'.
Proof.
  revert a'. induction a as [|y a IH]; intros [|y' a']; cbn; rewrite ?not_elem_of_cons; intros Ha Ha' [= ].
  - done.
  - naive_solver.
  - naive_solver.
  - subst. destruct (IH a') as [-> ->]; naive_solver.
Qed.

(** Two numbers printed before one non-digit. *)
Lemma padded_split width n n' (x : Z) b b' : ¬ is_digit x →
  fmt_usize_padded width (Z.of_nat n) ++ x :: b = fmt_usize_padded width (Z.of_nat n') ++ x :: b' →
  n = n' ∧ b = b'.
Proof.
  intros Hx Heq.
  assert (∀ m, x ∉ fmt_usize_padded width (Z.of_nat m)) as Hni.
  { intros m Hm. apply Hx. destruct (padded_digits width m) as [Hd _]. rewrite Forall_forall in Hd. auto. }
  apply split_at_first in Heq as [Heq ->]; [|done..]. split; [|done]. apply (f_equal digits_value) in Heq.
  rewrite !(proj2 (padded_digits width _)) in Heq. lia.
Qed.

Definition path_tail (scratch_dir path : string) : bytes := drop (length (as_bytes scratch_dir)) (as_bytes path).

Lemma in_scratch_tail dir name : path_tail dir (in_scratch dir name) = 47 :: as_bytes name.
Proof. unfold path_tail, in_scratch. by rewrite !as_bytes_app, drop_app_length. Qed.

Lemma run_path_tail dir i :
  path_tail dir (run_path dir i) = [47; 114; 117; 110; 45] ++ fmt_usize_padded 6 (Z.of_nat i) ++ [46; 98; 105; 110].
Proof.
  unfold run_path. rewrite in_scratch_tail, !as_bytes_app, as_bytes_of_bytes by apply padded_byte. done.
Qed.

Lemma merge_path_tail dir k g :
  path_tail dir (merge_path dir k g) = (47 :: as_bytes "merge-pass-") ++ fmt_usize_padded 2 (Z.of_nat k)
    ++ 45 :: as_bytes "run-" ++ fmt_usize_padded 6 (Z.of_nat g) ++ 46 :: as_bytes "bin".
Proof.
  unfold merge_path. rewrite in_scratch_tail, !as_bytes_app, !as_bytes_of_bytes by apply padded_byte. done.
Qed.

Lemma run_path_inj dir i j : run_path dir i = run_path dir j → i = j.
Proof.
  intros Heq%(f_equal (path_tail dir)). rewrite !run_path_tail in Heq. apply app_inv_head in Heq.
  apply padded_split in Heq as [-> _]; [done|]. unfold is_digit. lia.
Qed.

Lemma merge_path_inj dir k g k' g' : merge_path dir k g = merge_path dir k' g' → k = k' ∧ g = g'.
Proof.
  intros Heq%(f_equal (path_tail dir)). rewrite !merge_path_tail in Heq. apply app_inv_head in Heq.
  apply padded_split in Heq as [-> Heq]; [|unfold is_digit; lia]. apply app_inv_head in Heq.
  apply padded_split in Heq as [-> _]; [done|]. unfold is_digit. lia.
Qed.

Lemma run_merge_path dir i k g : run_path dir i ≠ merge_path dir k g.
Proof. intros Heq%(f_equal (path_tail dir)). by rewrite run_path_tail, merge_path_tail in Heq. Qed.
Lemma run_merged_path dir i : run_path dir i ≠ merged_entries_path dir.
Proof.
  intros Heq%(f_equal (path_tail dir)). unfold merged_entries_path in Heq.
  by rewrite run_path_tail, in_scratch_tail in Heq.
Qed.
Lemma merge_merged_path dir k g : merge_path dir k g ≠ merged_entries_path dir.
Proof.
  intros Heq%(f_equal (path_tail dir)). unfold merged_entries_path in Heq.
  by rewrite merge_path_tail, in_scratch_tail in Heq.
Qed.

(** ** All passes *)
Lemma chunks_length {A} fuel size (l : list A) :
  (0 < size)%nat → (length (chunks fuel size l) * size ≤ length l + (size - 1))%nat.
Proof.
  intros Hs. revert l. induction fuel as [|fuel IH]; intros [|x l]; cbn [chunks length]; try lia.
  specialize (IH (drop size (x :: l))). rewrite length_drop in IH. cbn [length] in IH.
  destruct (decide (size ≤ Datatypes.S (length l))%nat); [lia|].
  assert (drop size (x :: l) = []) as Hd by (apply length_zero_iff_nil; rewrite length_drop; cbn; lia).
  rewrite Hd. destruct fuel; cbn; lia.
Qed.

Lemma chunks_map2 {A B} (P : A → B → Prop) fuel size (l : list A) (k : list B) :
  Forall2 P l k → Forall2 (Forall2 P) (chunks fuel size l) (chunks fuel size k).
Proof.
  revert l k. induction fuel as [|fuel IH]; intros l k Hlk; destruct Hlk as [|x y l k Hxy Hlk]; cbn [chunks];
    try constructor.
  - apply Forall2_take. by constructor.
  - apply IH. apply Forall2_drop. by constructor.
Qed.

Definition sorted_file (l : list ReplayOrderEntry) (out : string) (w : World) (n : Z) : Prop :=
  ∃ o, order_of l o ∧ scratch w !! out = Some (file_bytes o) ∧ n = len o ∧ consistent l.

Lemma holds_sorted l base out n w : holds_order l base out n w → sorted_file l out w n.
Proof. intros ((o&?&?&?)&?&_). by exists o. Qed.

Lemma sorted_file_ext l k out w n : (∀ e, e ∈ l ↔ e ∈ k) → sorted_file l out w n → sorted_file k out w n.
Proof.
  intros Hlk (o&?&?&?&Hc). exists o. split_and!; [by eapply order_of_ext|done..|].
  intros a b. rewrite <-!Hlk. apply Hc.
Qed.

Lemma errs_ext l k e : (∀ x, x ∈ l ↔ x ∈ k) → errs l e → errs k e.
Proof. intros Hlk. apply errs_mono. intros x. apply Hlk. Qed.

Lemma final_group fuel paths runs out w :
  Forall2 (run_file (scratch w)) paths runs → out ∉ paths → (length (concat runs) < fuel)%nat →
  ∃ p, merge_sorted_replay_order_run_group fuel paths out w = Some p
    ∧ runs_to p w (λ w' n, sorted_file (concat runs) out w' n) (errs (concat runs)).
Proof.
  intros Hpr Hout Hfuel. destruct (group_runs fuel paths runs out w Hpr Hout Hfuel) as (p&Hp&Hr).
  exists p. split; [done|]. eapply runs_to_mono; [exact Hr| |done]. intros w' n. apply holds_sorted.
Qed.

Lemma merge_passes_runs passes fuel k paths runs out w :
  Forall2 (run_file (scratch w)) paths runs → out ∉ paths →
  (∀ k' g, merge_path scratch_dir k' g ≠ out) →
  (∀ k' g, (k ≤ k')%nat → merge_path scratch_dir k' g ∉ paths) →
  (length paths < passes)%nat → (length (concat runs) < fuel)%nat →
  ∃ p, merge_passes scratch_dir passes fuel k paths out w = Some p
    ∧ runs_to p w (λ w' n, sorted_file (concat runs) out w' n) (errs (concat runs)).
Proof.
  revert k paths runs w. induction passes as [|passes IH]; intros k paths runs w Hpr Hout Hmo Hk Hpass Hfuel; [lia|].
  cbn [merge_passes]. destruct (REPLAY_ORDER_MERGE_FAN_IN <? len paths) eqn:Hlen; [|by apply final_group].
  apply Z.ltb_lt in Hlen. unfold REPLAY_ORDER_MERGE_FAN_IN, len in Hlen.
  pose proof (poll_runs w (λ w' _, scratch w' = scratch w) (errs (concat runs)) ltac:(done)) as Hpoll.
  destruct (check_for_interrupt w) as [w1 [[]|e]] eqn:Hc; cycle 1.
  { eexists. split; [done|]. exact Hpoll. }
  pose proof Hpoll as (Hs1&_). cbn [fst] in Hs1.
  assert (fan_in = 64%nat) as Hfan by done.
  pose proof (Forall2_length _ _ _ Hpr) as Hl.
  destruct (chunks_concat (length paths) fan_in paths) as [Hcp _]; [lia..|].
  destruct (chunks_concat (length paths) fan_in runs) as [Hcr _]; [lia..|].
  pose proof (chunks_length (length paths) fan_in paths ltac:(lia)) as Hcl.
  set (groups := chunks (length paths) fan_in paths) in *. set (runss := chunks (length paths) fan_in runs) in *.
  destruct (pass_runs fuel k 0 groups runss (concat runs) w1) as (p1&Hp1&Hrun1).
  { apply chunks_map2. by rewrite Hs1. }
  { rewrite Hcp. intros g p Hp ->. by apply (Hk k g). }
  { by intros g1 g2 _ _ [_ ?]%merge_path_inj. }
  { by rewrite Hcr. }
  { by rewrite Hcr. }
  rewrite Hcr in Hrun1. rewrite Hp1. cbn [mbind option_bind]. destruct p1 as [w2 [next|e]]; cycle 1.
  { eexists. split; [done|]. eapply (runs_to_step _ _ _ _ _ _ Hpoll); [|done].
    intros w' a [= <- <-] _ _ _. exact Hrun1. }
  pose proof Hrun1 as ((Hnext&(os&Hos&Hel&Hlos)&_)&_). cbn [fst snd] in *.
  destruct (IH (Datatypes.S k) next os w2) as (p&Hp&Hrun); [done| |done| | |lia|].
  { rewrite Hnext. by intros (g&Hg&_)%list_elem_of_fmap; apply (Hmo k g). }
  { intros k' g Hk'. rewrite Hnext. intros (g'&[-> ->]%merge_path_inj&_)%list_elem_of_fmap. lia. }
  { rewrite Hnext, length_fmap, length_seq. nia. }
  exists p. split; [exact Hp|]. eapply (runs_to_step _ _ _ _ _ _ Hpoll); [|done].
  intros w' a [= <- <-] _ _ _. eapply (runs_to_step _ _ _ _ _ _ Hrun1); [|done].
  intros w' a [= <- <-] _ _ _. eapply runs_to_mono; [exact Hrun| |].
  - intros w' n. by apply sorted_file_ext.
  - intros e. by apply errs_ext.
Qed.

Lemma merge_all_runs passes fuel paths runs out w :
  Forall2 (run_file (scratch w)) paths runs → out ∉ paths →
  (∀ k' g, merge_path scratch_dir k' g ≠ out) → (∀ k' g, merge_path scratch_dir k' g ∉ paths) →
  (length paths < passes)%nat → (length (concat runs) < fuel)%nat →
  ∃ p, merge_sorted_replay_order_runs scratch_dir passes fuel paths out w = Some p
    ∧ runs_to p w (λ w' n, sorted_file (concat runs) out w' n) (errs (concat runs)).
Proof.
  intros Hpr Hout Hmo Hm Hpass Hfuel. unfold merge_sorted_replay_order_runs.
  pose proof (poll_runs w (λ w' _, scratch w' = scratch w) (errs (concat runs)) ltac:(done)) as Hpoll.
  destruct (check_for_interrupt w) as [w1 [[]|e]] eqn:Hc; cycle 1.
  { eexists. split; [done|]. exact Hpoll. }
  pose proof Hpoll as (Hs1&_). cbn [fst] in Hs1. rewrite <-Hs1 in Hpr.
  assert (∃ p, (if len paths <=? REPLAY_ORDER_MERGE_FAN_IN
      then merge_sorted_replay_order_run_group fuel paths out w1
      else merge_passes scratch_dir passes fuel 0 paths out w1) = Some p
    ∧ runs_to p w1 (λ w' n, sorted_file (concat runs) out w' n) (errs (concat runs))) as (p&Hp&Hrun).
  { case_match; [by apply final_group|apply merge_passes_runs; naive_solver]. }
  exists p. split; [exact Hp|]. eapply (runs_to_step _ _ _ _ _ _ Hpoll); [|done].
  by intros w' a [= <- <-] _ _ _.
Qed.

(** ** Collecting *)
Section collecting.
Context `{CiboriumLaws} `{Sha256Laws} `{!MutableRefs R (BlockStoreError S), !MutableRefsLaws R (BlockStoreError S)} `{!HashDisplayLaws}.

Lemma visit_entries_runs {V} (visit : V → ReplayJournalRecord → runtime S R V)
    (I : list ReplayJournalRecord → V → World → Prop) err pre l v w :
  (∀ pre v w w', scratch w' = scratch w → I pre v w → I pre v w') →
  (∀ p x q v w, pre ++ l = p ++ x :: q → I p v w → runs_to (visit v x w) w (λ w' v', I (p ++ [x]) v' w') err) →
  I pre v w →
  runs_to (stm_foldl (visit_entry visit) v l w) w (λ w' v', I (pre ++ l) v' w') err.
Proof.
  intros Hst Hv HI.
  apply (runs_to_foldl (λ p v w, I (pre ++ p) v w)); [by rewrite app_nil_r|].
  intros p x q v1 w1 -> HI1. unfold visit_entry. eapply runs_to_bind.
  - apply (poll_runs w1 (λ w' _, I (pre ++ p) v1 w')). intros w' Hw'. by eapply Hst.
  - intros w2 [] HI2 _ _. rewrite app_assoc. by eapply Hv; [by rewrite <-app_assoc|].
Qed.

Lemma for_each_loop_runs {V} (visit : V → ReplayJournalRecord → runtime S R V)
    (I : list ReplayJournalRecord → V → World → Prop) err fuel visited id c pre v w :
  (∀ pre v w w', scratch w' = scratch w → I pre v w → I pre v w') →
  chain (blocks w) (Some id) c → (∀ i, i ∈ c.*1 → i ∉ visited) → (length c ≤ fuel)%nat →
  (∀ p x q v w, pre ++ reverse (records_of c) = p ++ x :: q → I p v w →
     runs_to (visit v x w) w (λ w' v', I (p ++ [x]) v' w') err) →
  I pre v w →
  ∃ p, for_each_loop visit fuel visited v id w = Some p
    ∧ runs_to p w (λ w' v', I (pre ++ reverse (records_of c)) v' w') err.
Proof.
  intros Hst. revert visited id c pre v w.
  induction fuel as [|fuel IH]; intros visited id c pre v w Hc Hvis Hl Hv HI.
  { apply chain_some in Hc as (body&rest&->&_). cbn in Hl. lia. }
  pose proof (chain_nodup _ _ _ Hc) as Hnd. apply chain_some in Hc as (body&rest&->&Hb&Hr).
  cbn in Hvis, Hl, Hnd. apply NoDup_cons in Hnd as [Hid Hnd].
  assert (reverse (records_of ((id, body) :: rest))
    = reverse (entries body) ++ reverse (records_of rest)) as Hrev.
  { change ((id, body) :: rest) with ([(id, body)] ++ rest).
    rewrite records_of_app, reverse_app. f_equal. unfold records_of. cbn. by rewrite app_nil_r. }
  rewrite Hrev in Hv |- *. rewrite app_assoc in Hv |- *. cbn [for_each_loop].
  pose proof (poll_runs w (λ w' _, I pre v w') err (λ w' Hw', Hst pre v w w' Hw' HI)) as Hpoll.
  destruct (check_for_interrupt w) as [w1 [[]|e]] eqn:Hpc; cycle 1.
  { eexists. split; [done|]. exact Hpoll. }
  pose proof Hpoll as (HI1&Hb1&_&_). cbn [fst snd] in HI1, Hb1.
  assert (journal_block visited id (blocks w1) = Ok body) as ->.
  { apply journal_block_ok. rewrite Hb1. split; [|done]. apply Hvis. by left. }
  assert (runs_to (stm_foldl (visit_entry visit) v (reverse (entries body)) w1) w1
    (λ w' v', I (pre ++ reverse (entries body)) v' w') err) as Hent.
  { apply visit_entries_runs; [done| |done]. intros p x q v1 w2 Heq. eapply (Hv p x (q ++ reverse (records_of rest))).
    by rewrite Heq, <-app_assoc. }
  destruct (stm_foldl (visit_entry visit) v (reverse (entries body)) w1) as [w2 [v2|e]] eqn:Hf; cycle 1.
  { eexists. split; [done|]. eapply (runs_to_step _ _ _ _ _ _ Hpoll); [|done].
    intros w' a [= <- <-] _ _ _. exact Hent. }
  pose proof Hent as (HI2&Hb2&_&_). cbn [fst snd] in HI2, Hb2.
  assert (∃ p, match previous_block_id body with
      | Some previous => for_each_loop visit fuel ({[id]} ∪ visited) v2 previous w2
      | None => Some (w2, Ok v2) end = Some p
    ∧ runs_to p w2 (λ w' v', I ((pre ++ reverse (entries body)) ++ reverse (records_of rest)) v' w') err)
    as (p&->&Hrun).
  { destruct (previous_block_id body) as [previous|].
    - apply IH; [by rewrite Hb2, Hb1| |lia|exact Hv|exact HI2].
      intros i Hi. apply not_elem_of_union. split; [by intros ->%elem_of_singleton|apply Hvis; by right].
    - apply chain_none in Hr as ->. eexists. split; [done|]. apply runs_to_ret.
      cbn. by rewrite app_nil_r. }
  exists p. split; [done|]. eapply (runs_to_step _ _ _ _ _ _ Hpoll); [|done].
  intros w' a [= <- <-] _ _ _. eapply (runs_to_step _ _ _ _ _ _ Hent); [|done].
  intros w' a [= <- <-] _ _ _. exact Hrun.
Qed.

(** The entry of a record. *)
Definition entry_of_record (r : ReplayJournalRecord) : option ReplayOrderEntry :=
  match r with
  | ReplayInput _ id _ _ =>
      block_id ← decode_hash id;
      digest ← mjoin (replay_journal_record_sort_key_digest r);
      Some {| oe_block_id := block_id; oe_digest := digest |}
  | IndexingOutcome _ _ _ _ _ => None
  end.
Definition replay_entries (l : list ReplayJournalRecord) : list ReplayOrderEntry := omap entry_of_record l.

(** The replay inputs of a log name blocks. *)
Definition readable (r : ReplayJournalRecord) : Prop :=
  match r with ReplayInput _ _ _ _ => is_Some (entry_of_record r) | _ => True end.

Lemma entry_of_record_ok r e : entry_of_record r = Some e → entry_ok e.
Proof.
  destruct r as [v id md cr|]; [|done]. cbn [entry_of_record]. intros (h&Hh&Hd)%bind_Some.
  apply bind_Some in Hd as (d&Hd&[= <-]). split; [by eapply decode_hash_ok|]. cbn [oe_digest].
  cbn [replay_journal_record_sort_key_digest] in Hd.
  destruct (append_replay_journal_content_sort_key_bytes [] cr); [|done]. injection Hd as <-. apply sha256_ok.
Qed.

Definition run_paths_of (n : nat) : list string := run_path scratch_dir <$> seq 0 n.

Definition collected (pre : list ReplayJournalRecord) (st : collect_state) (w : World) : Prop :=
  ∃ runs, st.2 = run_paths_of (length runs) ∧ Forall2 (run_file (scratch w)) st.2 runs
    ∧ Forall (λ r, r ≠ []) runs ∧ Forall entry_ok st.1
    ∧ (∀ e, e ∈ concat runs ++ st.1 ↔ e ∈ replay_entries pre)
    ∧ (length (concat runs ++ st.1) ≤ length (replay_entries pre))%nat.

Lemma flush_collected pre es paths w total :
  collected pre (es, paths) w → es ≠ [] → (∀ e, e ∈ replay_entries pre → e ∈ total) →
  runs_to (flush_sorted_replay_order_run scratch_dir (length paths) es w) w
    (λ w' p, collected pre ([], paths ++ [p]) w') (errs total).
Proof.
  intros (runs&Hp&Hf&Hne&Hok&Hel&Hl) Hes Htot. cbn [fst snd] in *.
  assert (length paths = length runs) as Hlen by (by eapply Forall2_length).
  eapply runs_to_mono; [apply flush_runs| |].
  - intros w' p [-> (n&Hho)]. destruct (holds_order_run _ _ _ _ _ Hok Hho) as (o&Ho&Hrf&_).
    destruct Hho as (_&_&Hframe). exists (runs ++ [o]). cbn [fst snd]. split_and!.
    + unfold run_paths_of. rewrite length_app, seq_app, fmap_app, Hlen, Hp. done.
    + apply Forall2_app; [|by constructor]. eapply run_files_ext; [|done].
      intros q Hq. apply Hframe. intros ->. rewrite Hp in Hq at 2.
      apply list_elem_of_fmap in Hq as (i&Hi&Hin). apply run_path_inj in Hi. apply elem_of_seq in Hin. lia.
    + apply Forall_app. split; [done|]. constructor; [|done]. intros ->.
      destruct es as [|x es]; [done|]. apply (not_elem_of_nil x), Ho. by left.
    + done.
    + intros e. rewrite app_nil_r, concat_app, <-Hel. cbn. rewrite app_nil_r, !elem_of_app. f_equiv. apply Ho.
    + rewrite app_nil_r, concat_app. cbn. rewrite app_nil_r. apply order_of_length in Ho.
      rewrite length_app in *. lia.
  - intros e. apply errs_mono. intros x Hx. apply Htot, Hel. apply elem_of_app. by right.
Qed.

Lemma replay_entries_snoc pre r : replay_entries (pre ++ [r]) = replay_entries pre ++ option_list (entry_of_record r).
Proof. unfold replay_entries. rewrite omap_app. done. Qed.

Lemma collect_visit_runs limit pre r st w total :
  readable r → collected pre st w → (∀ e, e ∈ replay_entries (pre ++ [r]) → e ∈ total) →
  runs_to (collect_visit scratch_dir limit st r w) w (λ w' st', collected (pre ++ [r]) st' w') (errs total).
Proof.
  intros Hr Hc Htot. unfold collected in Hc |- *. destruct st as [es paths]. unfold collect_visit.
  destruct r as [v id md cr|]; cycle 1.
  { apply runs_to_ret. rewrite replay_entries_snoc. cbn [entry_of_record option_list]. by rewrite app_nil_r. }
  destruct Hr as [e He]. pose proof (entry_of_record_ok _ _ He) as Hok. pose proof He as He'. cbn [entry_of_record] in He'.
  apply bind_Some in He' as (h&Hh&Hd). apply bind_Some in Hd as (d&Hd&[= Hed]).
  rewrite Hh. cbn [ok_or]. eapply runs_to_bind; [apply (runs_to_ret h w (λ w' a, w' = w ∧ a = h)); done|].
  intros w' ? [-> ->] _ _.
  destruct (replay_journal_record_sort_key_digest _) as [[d'|]|]; cbn in Hd; [|done..].
  injection Hd as ->. cbv zeta. rewrite Hed.
  assert (collected (pre ++ [ReplayInput v id md cr]) (es ++ [e], paths) w) as Hc'.
  { destruct Hc as (runs&Hp&Hf&Hne&Hes&Hel&Hl). exists runs. cbn [fst snd] in *.
    rewrite replay_entries_snoc, He. cbn [option_list]. split_and!; try done.
    - apply Forall_app. split; [done|]. by constructor.
    - intros x. rewrite app_assoc, elem_of_app, Hel, elem_of_app. done.
    - rewrite app_assoc, length_app, (length_app (replay_entries pre)). cbn. lia. }
  case_match; [|by apply runs_to_ret].
  eapply runs_to_bind; [apply (flush_collected _ _ _ _ total Hc')|].
  - by destruct es.
  - done.
  - intros w1 p Hw1 _ _. by apply runs_to_ret.
Qed.
Lemma prepare_runs root w err :
  runs_to (prepare_scratch root w) w (λ w' _, scratch w' = scratch w) err.
Proof.
  unfold prepare_scratch.
  eapply runs_to_bind; [apply (poll_runs w (λ w' _, scratch w' = scratch w)); done|]. intros w1 [] H1' _ _.
  eapply runs_to_bind; [apply (io_step_runs _ w1 (λ w' _, scratch w' = scratch w)); [done|by intros w' ->]|].
  intros w2 [] H2' _ _. apply io_step_runs; [done|by intros w' ->].
Qed.

Lemma concat_length_ge (runs : list (list ReplayOrderEntry)) :
  Forall (λ r, r ≠ []) runs → (length runs ≤ length (concat runs))%nat.
Proof. induction 1 as [|r runs Hr _ IH]; [done|]. cbn. rewrite length_app. destruct r; [done|cbn in *; lia]. Qed.

Lemma collected_scratch pre st w w' : scratch w' = scratch w → collected pre st w → collected pre st w'.
Proof. unfold collected. by intros ->. Qed.

(** What is left in the buffer becomes the last run. *)
Lemma flush_rest_runs pre st w :
  collected pre st w →
  runs_to ((run_paths ← flush_rest scratch_dir st; check_for_interrupt ;; mret run_paths) w) w
    (λ w' paths, collected pre ([], paths) w' ∧ paths ≠ [])
    (λ e, errs (replay_entries pre) e ∨ (e = NoClusterableBlocks ∧ replay_entries pre = [])).
Proof.
  intros Hc. destruct st as [es paths].
  eapply (runs_to_bind _ _ _ (λ w' p, collected pre ([], p) w' ∧ p ≠ [])); [|intros w1 p1 Hp1 _ _; eapply runs_to_bind;
    [apply (poll_runs w1 (λ w' _, collected pre ([], p1) w' ∧ p1 ≠ []))|intros w2 [] Hw2 _ _; by apply runs_to_ret]].
  2: { intros w' Hs. destruct Hp1 as [Hc1 ?]. split; [|done]. by eapply collected_scratch. }
  unfold flush_rest. eapply runs_to_bind.
  - instantiate (1 := λ w' p, collected pre ([], p) w'). case_bool_decide as Hes.
    + subst es. by apply runs_to_ret.
    + eapply runs_to_bind; [|intros w1 p Hp _ _; apply runs_to_ret; exact Hp].
      eapply runs_to_mono; [by apply (flush_collected _ _ _ _ (replay_entries pre) Hc)|done|]. by left.
  - intros w1 p Hc1 _ _. case_bool_decide as Hp; [|by apply runs_to_ret].
    left. right. split; [done|]. destruct Hc1 as (runs&Hr&Hf&_&_&Hel&_). cbn [fst snd] in *. rewrite Hp in Hf.
    apply Forall2_nil_inv_l in Hf as ->. destruct (replay_entries pre) as [|e l]; [done|].
    exfalso. apply (not_elem_of_nil e), Hel. by left.
Qed.

Definition collect_errs (l : list ReplayOrderEntry) (e : error) : Prop :=
  errs l e ∨ (e = NoClusterableBlocks ∧ l = []).

Definition ordered_storage (l : list ReplayOrderEntry) (w : World) (s : ReplayOrderStorage) : Prop :=
  entries_path s = merged_entries_path scratch_dir ∧ sorted_file l (entries_path s) w (total_items s).

Lemma merge_collected passes fuel l paths w :
  collected l ([], paths) w → paths ≠ [] →
  (length (replay_entries l) < passes)%nat → (length (replay_entries l) < fuel)%nat →
  ∃ p, (let out := merged_entries_path scratch_dir in
        '(w, r) ← merge_sorted_replay_order_runs scratch_dir passes fuel paths out w;
        Some (w, total ← r; reject_if (total =? 0) NoClusterableBlocks ;;
                 Ok {| entries_path := out; total_items := total |})) = Some p
    ∧ runs_to p w (ordered_storage (replay_entries l)) (collect_errs (replay_entries l)).
Proof.
  intros (runs&Hp&Hf&Hne&_&Hel&Hl) Hpaths Hpass Hfuel. cbn [fst snd] in *. rewrite app_nil_r in Hl.
  assert (∀ e, e ∈ concat runs ↔ e ∈ replay_entries l) as Hel' by (intros e; by rewrite <-Hel, app_nil_r).
  pose proof (concat_length_ge _ Hne). pose proof (Forall2_length _ _ _ Hf) as Hlen.
  destruct (merge_all_runs passes fuel paths runs (merged_entries_path scratch_dir) w) as (p&->&Hrun); [done| | | |lia..|].
  { rewrite Hp. intros (i&Hi&_)%list_elem_of_fmap. by eapply run_merged_path. }
  { intros k g. apply merge_merged_path. }
  { intros k g. rewrite Hp. intros (i&Hi&_)%list_elem_of_fmap. by eapply run_merge_path. }
  assert (runs_to p w (λ w' n, sorted_file (concat runs) (merged_entries_path scratch_dir) w' n)
    (collect_errs (replay_entries l))) as Hrun'.
  { eapply runs_to_mono; [exact Hrun|done|]. intros e He. left. by eapply errs_ext. }
  clear Hrun. cbn [mbind option_bind]. destruct p as [w1 [n|e]]; eexists; (split; [done|]).
  - eapply (runs_to_step _ _ _ _ _ _ Hrun'); [|done]. intros w' a [= <- <-] (o&Ho&Hs&->&Hc) _ _.
    assert (replay_entries l ≠ []) as Hnil.
    { destruct runs as [|r runs]; [by apply Forall2_nil_inv_r in Hf|].
      apply Forall_cons in Hne as [Hr _]. destruct r as [|e r]; [done|]. intros Heq.
      apply (not_elem_of_nil e). rewrite <-Heq. apply Hel'. by left. }
    cbn [mbind result_bind]. destruct (len o =? 0) eqn:Hz.
    + apply Z.eqb_eq in Hz. destruct o; [|rewrite len_cons in Hz; pose proof (len_nonneg o); lia].
      destruct (replay_entries l) as [|e k]; [done|]. exfalso. apply (not_elem_of_nil e), Ho, Hel'. by left.
    + refine (runs_to_ret {| entries_path := merged_entries_path scratch_dir; total_items := len o |} w1 _ _ _).
      split; [done|]. eapply sorted_file_ext; [exact Hel'|]. by exists o.
  - eapply (runs_to_step _ _ _ _ _ _ Hrun'); [done|]. intros w' e' [= <- <-]. done.
Qed.

Lemma collect_runs w l rf st hd :
  journal_of w l → read_refs (refs w) = (rf, Ok st) → replay_journal_head_block_id st = Some hd →
  Forall readable l →
  ∃ n, ∀ chain_fuel passes fuel root limit, (n ≤ chain_fuel)%nat →
    (length (replay_entries l) < passes)%nat → (length (replay_entries l) < fuel)%nat →
    ∃ p, collect_ordered_replay_block_ids_from_journal_with_limit scratch_dir chain_fuel passes fuel root limit w
      = Some p
    ∧ runs_to p (set_refs rf w) (ordered_storage (replay_entries l)) (collect_errs (replay_entries l)).
Proof.
  intros (st'&Hst'&_&c&Hc&Hl) Hst Hhd Hread. assert (st' = st) as ->.
  { apply read_refs_head in Hst; [congruence|by rewrite Hhd]. }
  rewrite Hhd in Hc.
  exists (length c). intros chain_fuel passes fuel root limit Hcf Hpass Hfuel.
  unfold collect_ordered_replay_block_ids_from_journal_with_limit.
  pose proof (prepare_runs root w (collect_errs (replay_entries l))) as Hprep.
  destruct (prepare_scratch root w) as [w1 [[]|e]] eqn:Hpe; cycle 1.
  { eexists. split; [done|]. exact Hprep. }
  pose proof Hprep as (Hs1&Hb1&Hr1&Hben). cbn [fst snd] in *.
  unfold for_each_replay_journal_record_newest_first, load_mutable_ref_store. rewrite Hr1, Hst, Hhd.
  assert (runs_to (set_refs rf w1, Ok ()) (set_refs rf w) (λ w' (_ : unit), scratch w' = scratch w) (collect_errs (replay_entries l))) as Hprep'.
  { by split. }
  change (blocks w1) with (blocks (set_refs rf w1)) in Hb1. clear Hprep Hs1 Hr1 Hben Hpe. rename Hprep' into Hprep.
  generalize dependent (set_refs rf w1). clear w1. intros w1 Hb1 Hprep.
  assert (∀ e, e ∈ replay_entries (reverse l) ↔ e ∈ replay_entries l) as Hrev.
  { intros e. unfold replay_entries. rewrite !list_elem_of_omap. by setoid_rewrite elem_of_reverse. }
  destruct (for_each_loop_runs (collect_visit scratch_dir limit) collected
    (collect_errs (replay_entries l)) chain_fuel ∅ hd c [] ([], []) w1) as (p1&Hp1&Hrun1).
  { intros. by eapply collected_scratch. } { by rewrite Hb1. } { set_solver. } { done. }
  { intros pre x post v w2 Heq Hcol. cbn [app] in Heq. rewrite <-Hl in Heq.
    eapply runs_to_mono; [apply (collect_visit_runs limit pre x v w2 (replay_entries l)); [|done|]|done|by left].
    - rewrite Forall_forall in Hread. apply Hread. rewrite <-elem_of_reverse, Heq. set_solver.
    - intros e. rewrite <-Hrev, Heq. unfold replay_entries. change (x :: post) with ([x] ++ post).
      rewrite !omap_app. set_solver. }
  { exists []. split_and!; try done; constructor. }
  rewrite Hp1.
  cbn [mbind option_bind app] in Hrun1 |- *. rewrite <-Hl in Hrun1.
  destruct p1 as [w2 [cs|e]]; cycle 1.
  { eexists. split; [done|]. eapply (runs_to_step _ _ _ _ _ _ Hprep); [|done].
    intros w' a [= <- <-] _ _ _. exact Hrun1. }
  pose proof Hrun1 as (Hcol&_). cbn [fst snd] in Hcol.
  assert (∀ e, collect_errs (replay_entries (reverse l)) e → collect_errs (replay_entries l) e) as Hcerr.
  { intros e [He|[-> Hnil]]; [left; by eapply errs_ext|right]. split; [done|].
    destruct (replay_entries l) as [|x k]; [done|]. exfalso. apply (not_elem_of_nil x). rewrite <-Hnil.
    apply Hrev. by left. }
  pose proof (runs_to_mono _ _ _ _ _ _ (flush_rest_runs _ _ _ Hcol) (λ _ _ H, H) Hcerr) as Hfl.
  destruct ((run_paths ← flush_rest scratch_dir cs; check_for_interrupt ;; mret run_paths) w2)
    as [w3 [paths|e]] eqn:Hfr; cycle 1.
  { eexists. split; [done|]. eapply (runs_to_step _ _ _ _ _ _ Hprep); [|done].
    intros w' a [= <- <-] _ _ _. eapply (runs_to_step _ _ _ _ _ _ Hrun1); [|done].
    intros w' a [= <- <-] _ _ _. exact Hfl. }
  pose proof Hfl as ((Hc3&Hpne)&_). cbn [fst snd] in *.
  assert (length (replay_entries (reverse l)) = length (replay_entries l)) as Hlen.
  { unfold replay_entries. apply Permutation_length. by rewrite reverse_Permutation. }
  destruct (merge_collected passes fuel (reverse l) paths w3 Hc3 Hpne) as (p&Hp&Hrun); [lia..|].
  cbv zeta in Hp. rewrite Hp. exists p. split; [done|].
  eapply (runs_to_step _ _ _ _ _ _ Hprep); [|done]. intros w' a [= <- <-] _ _ _.
  eapply (runs_to_step _ _ _ _ _ _ Hrun1); [|done]. intros w' a [= <- <-] _ _ _.
  eapply (runs_to_step _ _ _ _ _ _ Hfl); [|done]. intros w' a [= <- <-] _ _ _.
  eapply runs_to_mono; [exact Hrun| |exact Hcerr].
  intros w' s [? Hsf]. split; [done|]. by eapply sorted_file_ext.
Qed.

(** C8. Whatever the flush limit, and whatever interrupts and I/O failures
    happen, collecting the replay order terminates with enough fuel and
    - if it succeeds, the file it names holds exactly the distinct entries of the
      journal's replay inputs in increasing order, its count is right, no two
      inputs disagree about a block, and blocks and refs are untouched, but for
      what the one lookup of the refs leaves;
    - if it fails, two inputs do disagree and the error names their block, or
      there was no input, or an interrupt or an I/O failure was pending. *)
Theorem collect_sound w l rf st hd :
  journal_of w l → read_refs (refs w) = (rf, Ok st) → replay_journal_head_block_id st = Some hd →
  Forall readable l →
  ∃ n, ∀ chain_fuel passes fuel root limit, (n ≤ chain_fuel)%nat →
    (length (replay_entries l) < passes)%nat → (length (replay_entries l) < fuel)%nat →
    ∃ w' r, collect_ordered_replay_block_ids_from_journal_with_limit scratch_dir chain_fuel passes fuel root limit w
      = Some (w', r)
    ∧ match r with
      | Ok s => consistent (replay_entries l) ∧ blocks w' = blocks w ∧ refs w' = rf ∧ kept_refs (refs w) rf
          ∧ ∃ o, order_of (replay_entries l) o ∧ total_items s = len o
            ∧ scratch w' !! entries_path s = Some (file_bytes o)
      | Err e =>
          (∃ id, conflict_in (replay_entries l) id ∧ e = conflict_error id)
          ∨ (e = NoClusterableBlocks ∧ replay_entries l = [])
          ∨ (env_failure e ∧ ¬ benign w)
      end.
Proof.
  intros Hj Hst Hhd Hr. destruct (collect_runs w l rf st hd Hj Hst Hhd Hr) as [n Hn]. exists n.
  intros chain_fuel passes fuel root limit Hc Hp Hf.
  destruct (Hn chain_fuel passes fuel root limit Hc Hp Hf) as ([w' r]&Hrun&Hq). exists w', r. split; [done|].
  unfold runs_to in Hq. cbn in Hq. destruct r as [s|e].
  - destruct Hq as ((_&o&Ho&Hs&Ht&Hcs)&Hb&Hrf&_). split_and!; try done; [by eapply read_refs_kept|]. by exists o.
  - unfold collect_errs, errs in Hq. naive_solver.
Qed.

(** C9. Without interrupts and I/O failures, a journal whose inputs agree has one
    replay order, and collecting yields it for every flush limit, number of runs
    and merge passes. *)
Theorem collect_order w l rf st hd :
  journal_of w l → read_refs (refs w) = (rf, Ok st) → replay_journal_head_block_id st = Some hd →
  Forall readable l → benign w → consistent (replay_entries l) → replay_entries l ≠ [] →
  ∃ n o, order_of (replay_entries l) o ∧ ∀ chain_fuel passes fuel root limit, (n ≤ chain_fuel)%nat →
    (length (replay_entries l) < passes)%nat → (length (replay_entries l) < fuel)%nat →
    ∃ w', collect_ordered_replay_block_ids_from_journal_with_limit scratch_dir chain_fuel passes fuel root limit w
      = Some (w', Ok {| entries_path := merged_entries_path scratch_dir; total_items := len o |})
    ∧ scratch w' !! merged_entries_path scratch_dir = Some (file_bytes o).
Proof.
  intros Hj Hst Hhd Hr Hben Hcons Hne. destruct (collect_runs w l rf st hd Hj Hst Hhd Hr) as [n Hn].
  assert (∀ cf passes fuel root limit, (n ≤ cf)%nat → (length (replay_entries l) < passes)%nat →
    (length (replay_entries l) < fuel)%nat →
    ∃ w' o, order_of (replay_entries l) o ∧
      collect_ordered_replay_block_ids_from_journal_with_limit scratch_dir cf passes fuel root limit w
      = Some (w', Ok {| entries_path := merged_entries_path scratch_dir; total_items := len o |})
      ∧ scratch w' !! merged_entries_path scratch_dir = Some (file_bytes o)) as Hall.
  { intros cf passes fuel root limit Hc Hp Hf.
    destruct (Hn cf passes fuel root limit Hc Hp Hf) as ([w' [s|e]]&Hrun&Hq); unfold runs_to in Hq; cbn in Hq.
    - destruct Hq as ((Hpath&o&Ho&Hs&Ht&_)&_). exists w', o. split; [done|]. rewrite Hrun.
      rewrite Hpath in Hs. destruct s; cbn in *. by subst.
    - exfalso. destruct Hq as [[(id&Hid&_)|[_ ?]]|[_ ?]]; [|done..]. by eapply conflict_inconsistent. }
  set (k := Datatypes.S (length (replay_entries l))).
  destruct (Hall n k k "" 0) as (w0&o&Ho&_); [lia..|]. exists n, o. split; [done|].
  intros cf passes fuel root limit Hc Hp Hf.
  destruct (Hall cf passes fuel root limit Hc Hp Hf) as (w'&o'&Ho'&?). exists w'.
  by rewrite (order_of_unique _ _ _ Ho Ho').
Qed.

(** Without interrupts and I/O failures, a journal in which two inputs give one
    block different sort keys is refused, and the error names such a block. *)
Theorem collect_conflict w l rf st hd :
  journal_of w l → read_refs (refs w) = (rf, Ok st) → replay_journal_head_block_id st = Some hd →
  Forall readable l → benign w → ¬ consistent (replay_entries l) →
  ∃ n, ∀ chain_fuel passes fuel root limit, (n ≤ chain_fuel)%nat →
    (length (replay_entries l) < passes)%nat → (length (replay_entries l) < fuel)%nat →
    ∃ w' id, collect_ordered_replay_block_ids_from_journal_with_limit scratch_dir chain_fuel passes fuel root limit w
      = Some (w', Err (conflict_error id))
    ∧ conflict_in (replay_entries l) id.
Proof.
  intros Hj Hst Hhd Hr Hben Hcons. destruct (collect_runs w l rf st hd Hj Hst Hhd Hr) as [n Hn]. exists n.
  intros cf passes fuel root limit Hc Hp Hf.
  destruct (Hn cf passes fuel root limit Hc Hp Hf) as ([w' [s|e]]&Hrun&Hq); unfold runs_to in Hq; cbn in Hq.
  - by destruct Hq as ((_&o&_&_&_&?)&_).
  - destruct Hq as [[(id&Hid&->)|[_ Hnil]]|[_ ?]]; [|exfalso|done]; [by exists w', id|].
    apply Hcons. rewrite Hnil. intros a b Ha. by apply elem_of_nil in Ha.
Qed.
End collecting.

(** ** Reading the order back *)
Lemma read_loop_runs n path o w err :
  Forall entry_ok o → (n ≤ length o)%nat →
  runs_to (read_loop n path (file_bytes o) w) w
    (λ w' r, scratch w' = scratch w ∧ r = (take n o, file_bytes (drop n o))) err.
Proof.
  revert o w. induction n as [|n IH]; intros o w Ho Hn; cbn [read_loop]; [by apply runs_to_ret|].
  eapply runs_to_bind; [apply (read_runs path o w (λ w' r, scratch w' = scratch w ∧ r = (head o, file_bytes (tail o))));
    [done|by intros w' ->]|].
  intros w1 [next reader] [Hs [= -> ->]] _ _. destruct Ho as [|e o He Ho]; cbn in Hn; [lia|]. cbn [head tail].
  eapply runs_to_bind; [apply (IH o w1 Ho); lia|]. intros w2 [rest reader] [Hs2 [= -> ->]] _ _.
  apply runs_to_ret. split; [congruence|done].
Qed.

Definition reader_at (o : list ReplayOrderEntry) (rd : ReplayOrderReader) : Prop :=
  rd_reader rd = file_bytes o ∧ rd_remaining rd = len o.

Lemma read_next_runs max o rd w err :
  0 ≤ max → Forall entry_ok o → reader_at o rd →
  runs_to (read_next_entries max rd w) w
    (λ w' r, scratch w' = scratch w ∧ r.1 = take (Z.to_nat max) o ∧ reader_at (drop (Z.to_nat max) o) r.2) err.
Proof.
  intros Hm Ho [Hr Hrem]. unfold read_next_entries. rewrite Hr, Hrem.
  assert (take (Z.to_nat (len o `min` max)) o = take (Z.to_nat max) o
    ∧ drop (Z.to_nat (len o `min` max)) o = drop (Z.to_nat max) o) as [Ht Hd].
  { unfold len. destruct (decide (max ≤ Z.of_nat (length o))); [by rewrite Z.min_r by lia|].
    rewrite Z.min_l by lia. rewrite !take_ge, !drop_ge by lia. done. }
  eapply runs_to_bind; [apply read_loop_runs; [done|unfold len; lia]|].
  intros w1 [es reader] [Hs [= -> ->]] _ _. apply runs_to_ret. cbn. rewrite Ht, Hd.
  split_and!; try done. unfold reader_at, saturating_sub, len. cbn.
  split; [done|]. rewrite length_take, length_drop. lia.
Qed.

(** The caller's loop: a batch per element of [maxes]. *)
Fixpoint read_batches (maxes : list Z) (rd : ReplayOrderReader) : runtime S R (list (list ReplayOrderEntry)) :=
  match maxes with
  | [] => mret []
  | max :: maxes =>
      '(es, rd) ← read_next_entries max rd;
      rest ← read_batches maxes rd;
      mret (es :: rest)
  end.
Fixpoint batches_of (maxes : list Z) (o : list ReplayOrderEntry) : list (list ReplayOrderEntry) :=
  match maxes with
  | [] => []
  | max :: maxes => take (Z.to_nat max) o :: batches_of maxes (drop (Z.to_nat max) o)
  end.

Lemma read_batches_runs maxes o rd w err :
  Forall (λ m, 0 ≤ m) maxes → Forall entry_ok o → reader_at o rd →
  runs_to (read_batches maxes rd w) w (λ _ bs, bs = batches_of maxes o) err.
Proof.
  intros Hm. revert o rd w. induction Hm as [|m maxes Hm0 _ IH]; intros o rd w Ho Hrd; cbn [read_batches batches_of].
  { by apply runs_to_ret. }
  eapply runs_to_bind; [by apply read_next_runs|]. intros w1 [es rd1] (_&Hes&Hrd1) _ _. cbn [fst snd] in *. subst es.
  eapply runs_to_bind; [apply IH; [by apply Forall_drop|done]|]. intros w2 rest -> _ _. by apply runs_to_ret.
Qed.

Lemma open_reader_runs storage o w err :
  scratch w !! entries_path storage = Some (file_bytes o) → total_items storage = len o →
  runs_to (open_reader storage w) w (λ w' rd, scratch w' = scratch w ∧ reader_at o rd) err.
Proof.
  intros Hs Ht. unfold open_reader.
  eapply runs_to_bind; [apply (open_runs _ w _ (λ w' c, scratch w' = scratch w ∧ c = file_bytes o) _ Hs); by intros w' ->|].
  intros w1 ? [Hs1 ->] _ _. by apply runs_to_ret.
Qed.

(** The file that collecting leaves is read back as the order it was written
    from: all at once, or in batches of any sizes, each batch continuing where
    the previous one stopped, until the entries are exhausted. Only an I/O
    failure can make a read fail. *)
Theorem read_order storage o maxes w :
  scratch w !! entries_path storage = Some (file_bytes o) → total_items storage = len o →
  Forall entry_ok o → Forall (λ m, 0 ≤ m) maxes →
  match (read_all_entries storage w).2 with
  | Ok es => es = o
  | Err e => env_failure e ∧ ¬ benign w
  end ∧
  match ((reader ← open_reader storage; read_batches maxes reader) w).2 with
  | Ok bs => bs = batches_of maxes o
  | Err e => env_failure e ∧ ¬ benign w
  end.
Proof.
  intros Hs Ht Ho Hm. split.
  - assert (runs_to (read_all_entries storage w) w (λ _ es, es = o) (λ _, False)) as Hr.
    { unfold read_all_entries. eapply runs_to_bind; [by apply open_reader_runs|].
      intros w1 rd [_ Hrd] _ _. rewrite Ht. eapply runs_to_bind; [apply read_next_runs; [apply len_nonneg|done..]|].
      intros w2 [es rd2] (_&Hes&_) _ _. apply runs_to_ret. cbn in Hes. rewrite Hes.
      unfold len. by rewrite Nat2Z.id, firstn_all. }
    unfold runs_to in Hr. case_match; naive_solver.
  - assert (runs_to ((reader ← open_reader storage; read_batches maxes reader) w) w
      (λ _ bs, bs = batches_of maxes o) (λ _, False)) as Hr.
    { eapply runs_to_bind; [by apply open_reader_runs|]. intros w1 rd [_ Hrd] _ _. by apply read_batches_runs. }
    unfold runs_to in Hr. case_match; naive_solver.
Qed.
End merging.
End outcomes.
