(* ===== verification/ReplayOrderWitness.v ===== *)
(** * The sort key and replay order theorems at concrete inputs

    The journal is the one that [ReplayJournalWitness.v] publishes, with two
    replay inputs and an outcome; a second journal names one block twice with
    different metadata. *)

From Stdlib Require Import ZArith Lia Ascii.
From stdpp Require Import base gmap sets strings sorting pretty option list.
From S2P Require Import Prelude Hex Blocks Cbor Runtime Instances ReplayJournal ReplayJournalSpec ReplayJournalWitness Items SortKey ReplayOrder ReplayOrderSpec.
#[local] Open Scope Z_scope.

(** ** Sort keys *)
Definition mail_metadata (i : Z) : list (value * value) :=
  text_pairs_to_metadata [("source_kind", "email"); ("email_artifact_ref", "ref"); ("chunk_index", fmt_usize i)]%string.
Definition mail_item (i : Z) : IndexItem :=
  {| item_metadata := mail_metadata i; item_content_ref := CEmailChunk "ref" i |}.
Definition doc_item : IndexItem :=
  {| item_metadata := metadata_to_lexongraph ∅ "document" "a\b.txt"; item_content_ref := CDocument "a\b.txt" |}.

Lemma sort_key_encoding_order_witness : ∃ x y,
  encoded_sort_key (mail_item 9) = Some x ∧ encoded_sort_key (mail_item 10) = Some y
  ∧ bytes_cmp x y = key_cmp (replay_sort_key (mail_item 9)) (replay_sort_key (mail_item 10))
  ∧ key_cmp (replay_sort_key (mail_item 9)) (replay_sort_key (mail_item 10)) = Lt.
Proof.
  destruct (sort_key_encoding_order (mail_item 9) (mail_item 10) ltac:(cbn; lia) ltac:(cbn; lia))
    as (x&y&Hx&Hy&Hc&_).
  exists x, y. split_and!; [exact Hx|exact Hy|exact Hc|by vm_compute].
Defined.

Lemma email_chunks_sort_numerically_witness :
  bytes_cmp (content_key (CEmailChunk "ref" 9)) (content_key (CEmailChunk "ref" 10)) = Lt.
Proof. exact (email_chunks_sort_numerically "ref" 9 10 ltac:(lia) ltac:(lia)). Defined.

Lemma record_digest_is_item_digest_witness :
  replay_journal_record_sort_key_digest (replay_journal_record_from_item (hash_n 1) doc_item)
  = Some <$> replay_sort_key_digest doc_item ∧ is_Some (replay_sort_key_digest doc_item).
Proof. exact (record_digest_is_item_digest (hash_n 1) doc_item I). Defined.

Definition leaf_spec : EmbeddingSpec := {| dims := 2; encoding := "f32" |}.
Definition doc_entry : LeafEntry :=
  {| le_metadata := item_metadata doc_item; le_embedding := [1; 2];
     le_content := {| media_type := "text/plain"; body := [104; 105] |} |}.
Definition doc_leaf : LeafBlock :=
  {| lb_level := 0; lb_type_name := "leaf"; lb_spec := leaf_spec; lb_entries := [doc_entry] |}.

Lemma stored_item_digest_witness : ∃ stored,
  replay_item_from_validated_block (E := Empty_set) (hash_n 1) (BLeaf doc_leaf) leaf_spec
    = Ok (Some (stored, [1; 2]))
  ∧ item_metadata stored = item_metadata doc_item
  ∧ replay_sort_key stored = replay_sort_key doc_item
  ∧ replay_sort_key_digest stored = replay_sort_key_digest doc_item.
Proof.
  exact (stored_item_digest doc_item leaf_spec (hash_n 1) doc_leaf doc_entry I
    ltac:(vm_compute; done) eq_refl ltac:(vm_compute; reflexivity)).
Defined.

(** ** The replay order *)
Lemma readable_sample : Forall readable sample_records.
Proof. repeat (constructor; [(eexists; vm_compute; reflexivity) || exact I|]). constructor. Qed.

Definition sample_entries : list ReplayOrderEntry := replay_entries sample_records.
Definition entry_a : ReplayOrderEntry := List.nth 0 sample_entries {| oe_block_id := []; oe_digest := [] |}.
Definition entry_b : ReplayOrderEntry := List.nth 1 sample_entries {| oe_block_id := []; oe_digest := [] |}.
Lemma sample_entries_eq : sample_entries = [entry_a; entry_b].
Proof. vm_compute. reflexivity. Qed.
Lemma entry_ids : oe_block_id entry_a ≠ oe_block_id entry_b.
Proof. vm_compute. discriminate. Qed.
Lemma entries_ok : Forall entry_ok [entry_a; entry_b].
Proof. repeat constructor; vm_compute; try done; repeat constructor; discriminate. Qed.

Lemma sample_consistent : consistent sample_entries.
Proof.
  rewrite sample_entries_eq. pose proof entry_ids.
  intros a b. rewrite !elem_of_cons, !elem_of_nil. intros [->|[->|[]]] [->|[->|[]]]; congruence.
Qed.
Lemma sample_nonempty : sample_entries ≠ [].
Proof. by rewrite sample_entries_eq. Qed.
Lemma benign_w1 : benign w1.
Proof. split; vm_compute; reflexivity. Qed.

Abbreviation collect_at := (collect_ordered_replay_block_ids_from_journal_with_limit "scratch").

(** A pending interrupt: the third poll sees it. *)
Definition interrupted_world : test_world := set_signal (Some 2%nat) w1.

Lemma journal_interrupted : journal_of interrupted_world sample_records.
Proof. exact journal_w1. Qed.

Lemma entries_fit : (length (replay_entries sample_records) < 3)%nat.
Proof. vm_compute. lia. Qed.

Lemma collect_interrupted :
  snd <$> collect_at 5 3 3 "root" 1 interrupted_world = Some (Err Interrupted).
Proof. vm_compute. reflexivity. Qed.

Lemma collect_sound_witness : ∃ fuel w' r,
  collect_at fuel 3 3 "root" 1 interrupted_world = Some (w', r) ∧
  match r with
  | Ok s => ∃ o, order_of sample_entries o ∧ total_items s = len o
  | Err e => (∃ id, conflict_in sample_entries id ∧ e = conflict_error id)
      ∨ (e = NoClusterableBlocks ∧ sample_entries = []) ∨ (env_failure e ∧ ¬ benign interrupted_world)
  end.
Proof.
  destruct (collect_sound "scratch" interrupted_world sample_records refs1 refs1 head1 journal_interrupted refs_w1 head_w1
    readable_sample) as [n Hn].
  destruct (Hn n 3%nat 3%nat "root" 1 (le_n n) entries_fit entries_fit) as (w'&r&Hrun&Hr).
  exists n, w', r. split; [exact Hrun|]. destruct r as [s|e]; [|exact Hr].
  destruct Hr as (_&_&_&_&o&?&?&_). by exists o.
Defined.

Lemma collect_order_witness : ∃ o, order_of sample_entries o ∧ ∃ fuel w',
  collect_at fuel 3 3 "root" 1 w1
  = Some (w', Ok {| entries_path := "scratch/ordered-replay.bin"; total_items := len o |}).
Proof.
  destruct (collect_order "scratch" w1 sample_records refs1 refs1 head1 journal_w1 refs_w1 head_w1
    readable_sample benign_w1 sample_consistent sample_nonempty) as (n&o&Ho&Hn).
  destruct (Hn n 3%nat 3%nat "root" 1 (le_n n) entries_fit entries_fit) as (w'&Hrun&_).
  exists o. split; [exact Ho|]. exists n, w'. exact Hrun.
Defined.

(** The outcome, computed with three flush limits: one run, two runs merged, and
    the default. *)
Lemma collect_computed : Forall (λ limit,
    (λ p, (p.2, scratch p.1 !! merged_entries_path "scratch")) <$> collect_at 5 3 3 "root" limit w1
    = Some (Ok {| entries_path := "scratch/ordered-replay.bin"; total_items := 2 |},
            Some (file_bytes [entry_a; entry_b]))) [0; 1; 2; 65536].
Proof. repeat (constructor; [vm_compute; reflexivity|]). constructor. Qed.

(** ** A conflict *)
Definition conflicting_records : list ReplayJournalRecord :=
  [ReplayInput StepEmbedding id_a [("source_kind", "document")]%string (JDocument "a.txt");
   ReplayInput StepEmbedding id_a [] (JDocument "a.txt")].
Definition conflict_run : test_world * result (RuntimeError string) unit :=
  publish_replay_journal_and_mutable_refs conflicting_records (Some id_b) None w0.
Definition w2 : test_world := conflict_run.1.
Definition head2 : string := default "" (replay_journal_head_block_id (refs w2)).

Lemma refs_w2 : read_refs (E := BlockStoreError mem_store) (refs w2) = (refs w2, Ok (refs w2)).
Proof. done. Qed.
Lemma head_w2 : replay_journal_head_block_id (refs w2) = Some head2.
Proof. vm_compute. reflexivity. Qed.
Lemma journal_w2 : journal_of w2 conflicting_records.
Proof.
  assert (load_replay_journal_records 1 w2 = Some (w2, Ok conflicting_records)) as Hl by (vm_compute; reflexivity).
  apply load_ok in Hl as (r&st&hd&c&Hst&_&Hhd&Hc&_&Hl). rewrite refs_w2 in Hst. injection Hst as <- <-.
  exists (refs w2). split; [done|]. rewrite Hhd. split; [|by exists c]. rewrite head_w2 in Hhd. injection Hhd as <-. by vm_compute.
Qed.
Lemma readable_conflicting : Forall readable conflicting_records.
Proof. repeat (constructor; [(eexists; vm_compute; reflexivity) || exact I|]). constructor. Qed.
Lemma benign_w2 : benign w2.
Proof. split; vm_compute; reflexivity. Qed.
Lemma inconsistent_w2 : ¬ consistent (replay_entries conflicting_records).
Proof.
  destruct (replay_entries conflicting_records) as [|a [|b [|]]] eqn:Hl; [exfalso; revert Hl; by vm_compute..| |].
  - intros Hc. assert (a = b) as Hab; [apply Hc; [by left|by right; left|]|];
      revert Hl; vm_compute; intros [= <- <-]; [done|]. revert Hab. by vm_compute.
  - exfalso; revert Hl; by vm_compute.
Qed.

Lemma collect_conflict_witness : ∃ fuel w' id,
  collect_at fuel 3 3 "root" 1 w2 = Some (w', Err (conflict_error id))
  ∧ conflict_in (replay_entries conflicting_records) id.
Proof.
  destruct (collect_conflict "scratch" w2 conflicting_records (refs w2) (refs w2) head2 journal_w2 refs_w2 head_w2
    readable_conflicting benign_w2 inconsistent_w2) as [n Hn].
  exists n. apply Hn; [done|vm_compute; lia|vm_compute; lia].
Defined.

(** ** Reading back *)
Definition stored_world : test_world :=
  set_scratch (<["order.bin" := file_bytes [entry_a; entry_b]]> ∅) w1.
Definition stored : ReplayOrderStorage := {| entries_path := "order.bin"; total_items := 2 |}.

Lemma read_order_witness :
  match (read_all_entries stored stored_world).2 with
  | Ok es => es = [entry_a; entry_b]
  | Err e => env_failure e ∧ ¬ benign stored_world
  end ∧
  match ((reader ← open_reader stored; read_batches [1; 0; 5] reader) stored_world).2 with
  | Ok bs => bs = [[entry_a]; []; [entry_b]]
  | Err e => env_failure e ∧ ¬ benign stored_world
  end.
Proof.
  exact (read_order stored [entry_a; entry_b] [1; 0; 5] stored_world (lookup_insert_eq _ _ _) eq_refl
    entries_ok ltac:(repeat constructor; lia)).
Defined.
