(* ===== verification/Mailbox.v ===== *)
(** * Mailboxes ([mailbox.rs])

    A mailbox file is split into messages; each message is normalised, stored as
    an artifact block and cut into chunks, and every chunk becomes an item that
    refers to the artifact and its own index. Messages are parsed by a library,
    which is the parameter [MailParse]. The theorems are in [MailboxSpec.v]. *)

From Stdlib Require Import ZArith Lia Ascii.
From stdpp Require Import base gmap sets strings sorting option list.
From S2P Require Import Prelude Hex Blocks Text Items SortKey.
#[local] Open Scope Z_scope.

Definition ARTIFACT_MEDIA_TYPE_MAILBOX : string := "application/mbox".
Definition ARTIFACT_MEDIA_TYPE_NORMALIZED_EMAIL : string :=
  "application/vnd.lexonarchivebuilder.normalized-email+cbor".
Definition MAILBOX_ARTIFACT_BLOCK_TYPE : string := "lexonarchivebuilder/mailbox-artifact".
Definition NORMALIZED_EMAIL_ARTIFACT_BLOCK_TYPE : string := "lexonarchivebuilder/normalized-email-artifact".
Definition CHUNK_MEDIA_TYPE : string := "text/plain".
Definition NORMALIZED_EMAIL_SCHEMA_VERSION : Z := 1.
Definition MAX_CHUNK_CHARS : Z := 1000.

(** An ASCII literal as characters. *)
Definition lit (s : string) : text := as_bytes s.

(** ** Parsed mail ([mailparse])

    What the code reads of a [ParsedMail]: the decoded headers, the MIME type,
    the outcomes of [get_body] and [get_body_raw], and the parts. *)
Inductive ParsedMail := Mail {
  headers_of : list (string * string);
  mimetype : string;
  get_body : result string string;
  get_body_raw : result string bytes;
  subparts : list ParsedMail
}.
Class MailParse := {
  parse_mail : bytes → result string ParsedMail;
  get_first_value : list (string * string) → string → option string
}.

(** ** Errors and data *)
Inductive MailboxExpansionError {E : Type} :=
| Missing (path : string)
| NotAFile (path : string)
| WrongExtension (path : string)
| ReadMailbox (path : string) (source : io_error)
| EmptyMailbox (path : string)
| ParseMessage (path : string) (message_index : Z) (source : string)
| EncodeArtifact (path : string) (message : string)
| BuildArtifact (path : string) (source : string)
| UnsupportedArtifactMediaType (path media_type : string)
| StoreArtifact (path : string) (source : E).
Arguments MailboxExpansionError : clear implicits.

Record NormalizedHeader := { nh_name : string; nh_value : string }.
Record NormalizedEmailArtifact := {
  schema_version : Z;
  mailbox_artifact_ref : string;
  mailbox_message_index : Z;
  headers : list NormalizedHeader;
  subject : option string;
  from : option string;
  recipient_context : option string;
  date : option string;
  message_id : option string;
  email_body : string
}.

Record MailboxExpansion := { items : list IndexItem; message_count : Z }.

(** ** Text *)
Definition normalize_line_endings (value : text) : text :=
  replace_text [13] [10] (replace_text [13; 10] [10] value).

Definition normalize_inline_text (value : text) : text := join_text [32] (split_whitespace value).

(** The loop of [strip_html_tags]. *)
Fixpoint outside_tags (inside_tag : bool) (value : text) : text :=
  match value with
  | [] => []
  | ch :: value =>
      if ch =? 60 then outside_tags true value
      else if ch =? 62 then outside_tags false value
      else if inside_tag then outside_tags inside_tag value
      else ch :: outside_tags inside_tag value
  end.
Definition strip_html_tags (value : text) : text :=
  replace_text (lit "&gt;") [62] (replace_text (lit "&lt;") [60]
    (replace_text (lit "&amp;") [38] (replace_text (lit "&nbsp;") [32] (outside_tags false value)))).

Definition looks_like_reply_intro (line : text) : bool :=
  let lower := to_ascii_lowercase line in
  starts_with (lit "on ") lower && ends_with (lit " wrote:") lower.

(** The loop of [normalize_email_body]. *)
Fixpoint body_lines (body : list text) (normalized_lines : list text) (previous_blank : bool) : list text :=
  match body with
  | [] => normalized_lines
  | line :: body =>
      let trimmed := trim_chars line in
      if bool_decide (trimmed = []) then
        body_lines body
          (if negb previous_blank && bool_decide (normalized_lines ≠ [])
           then normalized_lines ++ [[]] else normalized_lines) true
      else if looks_like_reply_intro trimmed || bool_decide (trimmed = lit "--")
              || starts_with (lit "-- ") trimmed then normalized_lines
      else if starts_with (lit ">") trimmed then body_lines body normalized_lines previous_blank
      else body_lines body (normalized_lines ++ [trimmed]) false
  end.
Definition normalize_email_body (body : text) : text :=
  trim_chars (join_text [10] (body_lines (lines body) [] false)).

(** ** Chunks *)

(** One character of [sentence_units]: the sentences, the current one, and the
    newlines since the last visible character. *)
Definition push_sentence (sentences : list text) (current : text) : list text :=
  let sentence := normalize_inline_text current in
  if bool_decide (sentence = []) then sentences else sentences ++ [sentence].

Definition ends_sentence (ch : Z) : bool := (ch =? 46) || (ch =? 33) || (ch =? 63).

Definition sentence_step (st : list text * text * Z) (ch : Z) : list text * text * Z :=
  let '(sentences, current, blank_run) := st in
  let blank_run := if ch =? 10 then blank_run + 1 else if is_whitespace ch then blank_run else 0 in
  let current := current ++ [ch] in
  if ends_sentence ch || (2 <=? blank_run) then (push_sentence sentences current, [], 0)
  else (sentences, current, blank_run).

Definition sentence_units (body : text) : list text :=
  let '(sentences, current, _) := foldl sentence_step ([], [], 0) body in
  push_sentence sentences current.

Definition chunk_step (st : list text * text) (unit_ : text) : list text * text :=
  let '(chunks, current) := st in
  let candidate_len :=
    if bool_decide (current = []) then len unit_ else len current + 1 + len unit_ in
  if bool_decide (current ≠ []) && (MAX_CHUNK_CHARS <? candidate_len) then (chunks ++ [current], unit_)
  else (chunks, (if bool_decide (current = []) then [] else current ++ [32]) ++ unit_).

Definition chunk_email_core (body : text) : list text :=
  let units := sentence_units body in
  if bool_decide (units = []) then [trim_chars body] else
  let '(chunks, current) := foldl chunk_step ([], []) units in
  if bool_decide (current = []) then chunks else chunks ++ [current].

(** ** Splitting a mailbox *)
Definition mbox_step (st : list bytes * bytes * bool) (line : bytes) : list bytes * bytes * bool :=
  let '(messages, current, saw_separator) := st in
  if starts_with (as_bytes "From ") line then
    (if bool_decide (current = []) then messages else messages ++ [current], [], true)
  else (messages, current ++ line, saw_separator).

Definition split_mbox_messages (raw_bytes : bytes) : list bytes :=
  let '(messages, current, saw_separator) := foldl mbox_step ([], [], false) (split_inclusive 10 raw_bytes) in
  let messages := if bool_decide (current = []) then messages else messages ++ [current] in
  if (saw_separator : bool) then messages
  else if bool_decide (raw_bytes = []) then [] else [raw_bytes].

(** ** Message bodies *)
Definition decoded_body_lossy (parsed : ParsedMail) : option text :=
  match get_body parsed with
  | Ok body => Some (chars body)
  | Err _ => match get_body_raw parsed with Ok body => Some (utf8_lossy body) | Err _ => None end
  end.

(** The body found, and [html_body]. *)
Fixpoint preferred_leaf_body (parsed : ParsedMail) (html_body : option text) : option text * option text :=
  match subparts parsed with
  | [] =>
      let mime := ascii_lower <$> as_bytes (mimetype parsed) in
      if bool_decide (mime = as_bytes "text/plain") then
        (normalize_line_endings <$> decoded_body_lossy parsed, html_body)
      else if bool_decide (mime = as_bytes "text/html") && bool_decide (html_body = None) then
        (None, (λ body, strip_html_tags (normalize_line_endings body)) <$> decoded_body_lossy parsed)
      else (None, html_body)
  | _ =>
      (fix parts (l : list ParsedMail) (html_body : option text) :=
         match l with
         | [] => (None, html_body)
         | part :: l =>
             match preferred_leaf_body part html_body with
             | (Some body, html_body) => (Some body, html_body)
             | (None, html_body) => parts l html_body
             end
         end) (subparts parsed) html_body
  end.

Definition first_preferred_body (parsed : ParsedMail) : option text :=
  match subparts parsed with
  | [] => normalize_line_endings <$> decoded_body_lossy parsed
  | _ => match preferred_leaf_body parsed None with
         | (Some body, _) => Some body
         | (None, html_body) => html_body
         end
  end.

Definition derive_email_core (parsed : ParsedMail) : option text :=
  raw_body ← first_preferred_body parsed;
  let normalized := normalize_email_body raw_body in
  if bool_decide (normalized = []) then None else Some normalized.

(** ** Normalised emails *)
Section mail.
Context `{MailParse}.

Definition non_empty_text (value : string) : option string :=
  let value := normalize_inline_text (chars value) in
  if bool_decide (value = []) then None else Some (of_chars value).

(** [get_first_value(key).map(normalize_inline_text).filter(non-empty)]. *)
Definition header_text (parsed : ParsedMail) (key : string) : option string :=
  get_first_value (headers_of parsed) key ≫= non_empty_text.

Definition normalize_email (parsed : ParsedMail) (mailbox_ref : string) (message_index : Z)
    : NormalizedEmailArtifact :=
  let subject := header_text parsed "Subject" in
  {| schema_version := NORMALIZED_EMAIL_SCHEMA_VERSION;
     mailbox_artifact_ref := mailbox_ref;
     mailbox_message_index := message_index;
     headers := (λ h, {| nh_name := h.1; nh_value := of_chars (normalize_inline_text (chars h.2)) |})
                  <$> headers_of parsed;
     subject := subject;
     from := header_text parsed "From";
     recipient_context :=
       find_map (get_first_value (headers_of parsed)) ["To"; "Cc"; "List-Id"] ≫= non_empty_text;
     date := header_text parsed "Date";
     message_id := header_text parsed "Message-ID";
     email_body := match derive_email_core parsed with
       | Some body => of_chars body
       | None => default "(empty email body)" subject
       end |}.
End mail.

(** ** Canonical CBOR *)
Section canonical.
Context `{Ciborium}.

(** Serialising a value to bytes does not fail ([expect] in the code). *)
Definition encoded_value_bytes (v : value) : bytes :=
  match into_writer v with Ok b => b | Err _ => [] end.

Definition canonical_value_cmp (left right : value) : comparison :=
  let left_bytes := encoded_value_bytes left in
  let right_bytes := encoded_value_bytes right in
  then_cmp (len left_bytes ?= len right_bytes) (bytes_cmp left_bytes right_bytes).

Definition key_le (a b : value * value) : Prop := canonical_value_cmp a.1 b.1 ≠ Gt.
#[export] Instance key_le_dec : RelDecision key_le.
Proof. intros ??. unfold key_le. apply _. Defined.

(** [windows(2)]: some two neighbours have equal keys. *)
Fixpoint adjacent_equal (l : list (value * value)) : bool :=
  match l with
  | a :: (b :: _) as l' =>
      bool_decide (canonical_value_cmp a.1 b.1 = Eq) || adjacent_equal l'
  | _ => false
  end.

Definition canonical_map (entries : list (value * value)) : result string value :=
  let normalized := merge_sort key_le entries in
  if adjacent_equal normalized
  then Err "duplicate keys are not permitted in canonicalized CBOR"
  else Ok (VMap normalized).

Fixpoint canonicalize_value (v : value) : result string value :=
  match v with
  | VTag tag nested => nested ← canonicalize_value nested; Ok (VTag tag nested)
  | VArray values =>
      values ← (fix go l := match l with
        | [] => Ok []
        | v :: l => v ← canonicalize_value v; l ← go l; Ok (v :: l)
        end) values;
      Ok (VArray values)
  | VMap entries =>
      normalized ← (fix go l := match l with
        | [] => Ok []
        | (key, value) :: l =>
            key ← canonicalize_value key; value ← canonicalize_value value;
            l ← go l; Ok ((key, value) :: l)
        end) entries;
      canonical_map normalized
  | VOther _ => Err "unsupported CBOR value encountered during canonicalization"
  | v => Ok v
  end.

Definition option_text_field (key : string) (v : option string) : value * value :=
  (VText key, match v with Some t => VText t | None => VNull end).

Definition artifact_fields (artifact : NormalizedEmailArtifact) : list (value * value) :=
  [(VText "schema_version", VInteger (schema_version artifact));
   (VText "mailbox_artifact_ref", VText (mailbox_artifact_ref artifact));
   (VText "mailbox_message_index", VInteger (mailbox_message_index artifact));
   (VText "headers", VArray ((λ header, VMap [(VText "name", VText (nh_name header));
                                              (VText "value", VText (nh_value header))])
                               <$> headers artifact));
   option_text_field "subject" (subject artifact);
   option_text_field "from" (from artifact);
   option_text_field "recipient_context" (recipient_context artifact);
   option_text_field "date" (date artifact);
   option_text_field "message_id" (message_id artifact);
   (VText "body", VText (email_body artifact))].

Definition render_normalized_email {E} (path : string) (artifact : NormalizedEmailArtifact)
    : result (MailboxExpansionError E) bytes :=
  value ← map_err (EncodeArtifact path) (canonicalize_value (VMap (artifact_fields artifact)));
  map_err (EncodeArtifact path) (into_writer value).
End canonical.

(** ** Expansion *)
Definition is_supported_mailbox_extension (ext : string) : bool :=
  eq_ignore_ascii_case ext "mail" || eq_ignore_ascii_case ext "mbox".

Definition validate_mailbox_path {E} (fs : files) (path : string) : result (MailboxExpansionError E) unit :=
  match fs !! path with
  | None => Err (Missing path)
  | Some FsOther => Err (NotAFile path)
  | Some (FsFile _) =>
      reject_if (negb (is_supported_mailbox_extension (default "" (extension path)))) (WrongExtension path)
  end.

(** [fs::read]. *)
Definition read_file (fs : files) (path : string) : result io_error bytes :=
  match fs !! path with
  | Some (FsFile content) => content
  | Some FsOther => Err (IoError OtherKind "Is a directory")
  | None => Err (IoError NotFound "No such file or directory")
  end.

Definition build_chunk_metadata (base_metadata : gmap string string) (mailbox_path : string)
    (mailbox_ref email_ref : string) (artifact : NormalizedEmailArtifact)
    (chunk_index : Z) (chunk_locator : string) : list (value * value) :=
  let metadata := base_metadata in
  let metadata := <["mailbox_artifact_ref" := mailbox_ref]> metadata in
  let metadata := <["email_artifact_ref" := email_ref]> metadata in
  let metadata := <["mailbox_message_index" := fmt_usize (mailbox_message_index artifact)]> metadata in
  let metadata := <["chunk_index" := fmt_usize chunk_index]> metadata in
  let metadata := <["chunk_locator" := chunk_locator]> metadata in
  let metadata := match subject artifact with
    | Some subject => <["email_name" := subject]> (<["email_subject" := subject]> metadata)
    | None => metadata end in
  let metadata := match from artifact with Some from => <["email_from" := from]> metadata | None => metadata end in
  let metadata := match recipient_context artifact with
    | Some recipient_context => <["email_recipient_context" := recipient_context]> metadata | None => metadata end in
  let metadata := match date artifact with Some date => <["email_date" := date]> metadata | None => metadata end in
  let metadata := match message_id artifact with
    | Some message_id => <["email_message_id" := message_id]> metadata | None => metadata end in
  metadata_to_lexongraph metadata "email" mailbox_path.

Definition artifact_block_type {E} (path media_type : string) : result (MailboxExpansionError E) string :=
  if bool_decide (media_type = ARTIFACT_MEDIA_TYPE_MAILBOX) then Ok MAILBOX_ARTIFACT_BLOCK_TYPE
  else if bool_decide (media_type = ARTIFACT_MEDIA_TYPE_NORMALIZED_EMAIL)
  then Ok NORMALIZED_EMAIL_ARTIFACT_BLOCK_TYPE
  else Err (UnsupportedArtifactMediaType path media_type).

Section expansion.
Context {S : Type} `{BlockStore S} `{Ciborium} `{BuildCustom} `{HashDisplay} `{MailParse}.
Abbreviation error := (MailboxExpansionError (BlockStoreError S)).

Definition store_artifact_block (path media_type : string) (body : bytes) : stm S error block_hash :=
  block_type ← lift (artifact_block_type path media_type);
  block ← lift (map_err (BuildArtifact path) (build_custom_block block_type (payload_map media_type body)));
  map_err_stm (StoreArtifact path) (put_versioned block).

Definition chunk_item (metadata : gmap string string) (path mailbox_ref email_ref : string)
    (normalized : NormalizedEmailArtifact) (chunk_index : Z) : IndexItem :=
  {| item_metadata := build_chunk_metadata metadata path mailbox_ref email_ref normalized chunk_index
       (email_ref +:+ ":" +:+ fmt_usize chunk_index);
     item_content_ref := CEmailChunk email_ref chunk_index |}.

(** One iteration of the message loop. *)
Definition expand_message (path : string) (metadata : gmap string string) (mailbox_ref : string)
    (acc : list IndexItem) (message : nat * bytes) : stm S error (list IndexItem) :=
  let message_index := Z.of_nat message.1 in
  parsed ← lift (map_err (ParseMessage path message_index) (parse_mail message.2));
  let normalized := normalize_email parsed mailbox_ref message_index in
  normalized_bytes ← lift (render_normalized_email path normalized);
  email_artifact_ref ← store_artifact_block path ARTIFACT_MEDIA_TYPE_NORMALIZED_EMAIL normalized_bytes;
  let chunks := chunk_email_core (chars (email_body normalized)) in
  mret (acc ++ imap (λ chunk_index _, chunk_item metadata path mailbox_ref (hash_to_string email_artifact_ref)
                                        normalized (Z.of_nat chunk_index)) chunks).

Definition expand_mailbox_item_with_stats (fs : files) (path : string) (metadata : gmap string string)
    : stm S error MailboxExpansion :=
  lift (validate_mailbox_path fs path) ;;
  raw_bytes ← lift (map_err (ReadMailbox path) (read_file fs path));
  let messages := split_mbox_messages raw_bytes in
  lift (reject_if (bool_decide (messages = [])) (EmptyMailbox path)) ;;
  mailbox_artifact_ref ← store_artifact_block path ARTIFACT_MEDIA_TYPE_MAILBOX raw_bytes;
  items ← stm_foldl (expand_message path metadata (hash_to_string mailbox_artifact_ref)) []
    (imap pair messages);
  mret {| items := items; message_count := len messages |}.

Definition expand_mailbox_item (fs : files) (path : string) (metadata : gmap string string)
    : stm S error (list IndexItem) :=
  expansion ← expand_mailbox_item_with_stats fs path metadata;
  mret (items expansion).

(** ** Batches *)
Inductive BatchItemConfig :=
| Mailbox (path : string) (metadata : gmap string string)
| Document (path : string) (metadata : gmap string string).

Definition to_document_index_item (request_dir : string) (item : BatchItemConfig) : option IndexItem :=
  match item with
  | Document path metadata =>
      let resolved := resolve_path request_dir path in
      Some {| item_metadata := metadata_to_lexongraph metadata "document" resolved;
              item_content_ref := CDocument resolved |}
  | Mailbox _ _ => None
  end.
Definition to_document_index_items (request_dir : string) (items : list BatchItemConfig) : list IndexItem :=
  omap (to_document_index_item request_dir) items.

(** One iteration of the loop: an empty mailbox is skipped. *)
Definition expand_step (fs : files) (request_dir : string) (acc : list IndexItem) (item : BatchItemConfig)
    : stm S error (list IndexItem) :=
  match item with
  | Mailbox path metadata => fun s =>
      match expand_mailbox_item fs (resolve_path request_dir path) metadata s with
      | (s, Ok mailbox_items) => (s, Ok (acc ++ mailbox_items))
      | (s, Err (EmptyMailbox _)) => (s, Ok acc)
      | (s, Err error) => (s, Err error)
      end
  | Document _ _ => mret acc
  end.

Definition expand_batch_items (fs : files) (request_dir : string) (request : list BatchItemConfig)
    : stm S error (list IndexItem) :=
  stm_foldl (expand_step fs request_dir) (to_document_index_items request_dir request) request.
End expansion.
