(* ===== verification/Resolver.v ===== *)
(** * Content resolution ([resolver.rs])

    Items refer to documents, inline bodies, stored content or chunks of a stored
    email. A chunk is found by reading the email's artifact block and cutting it
    into chunks again; the chunks of an email are kept in a cache that threads
    share behind a mutex. [resolve_email_chunk] is the sequential run of the
    steps between which other threads may act. The theorems are in
    [MailboxSpec.v]. *)

From Stdlib Require Import ZArith Lia Ascii.
From stdpp Require Import base gmap sets strings sorting option list.
From S2P Require Import Prelude Hex Blocks Text Items Mailbox.
#[local] Open Scope Z_scope.

Inductive LocalFilesystemContentResolverError {E : Type} :=
| RMissing (path : string)
| RNotAFile (path : string)
| RWrongExtension (path expected : string)
| Io (path : string) (source : io_error)
| InvalidBlockHash (v : string)
| RBlockStore (source : E)
| MissingArtifact (block_id : string)
| ArtifactLegacyVersion (block_id : string) (version : Z)
| ArtifactWrongType (block_id type_name : string)
| ArtifactMissingContent (block_id : string)
| ArtifactWrongMediaType (block_id media_type : string)
| ArtifactDecode (block_id message : string)
| ArtifactMissingBody (block_id : string)
| MissingChunk (block_id : string) (chunk_index : Z).
Arguments LocalFilesystemContentResolverError : clear implicits.

Definition VERSION_1 : Z := 1.

(** [String::from_utf8]. *)
Definition from_utf8 (l : bytes) : option text :=
  let t := utf8_lossy l in if bool_decide (utf8 t = l) then Some t else None.

Section resolver.
Context {S : Type} `{BlockStore S} `{Ciborium}.
Abbreviation error := (LocalFilesystemContentResolverError (BlockStoreError S)).

Definition resolve_file (fs : files) (path expected_extension media_type : string) : result error Content :=
  match fs !! path with
  | None => Err (RMissing path)
  | Some FsOther => Err (RNotAFile path)
  | Some (FsFile _) =>
      reject_if (negb (eq_ignore_ascii_case (default "" (extension path)) expected_extension))
        (RWrongExtension path expected_extension) ;;
      raw_bytes ← map_err (Io path) (read_file fs path);
      Ok {| media_type := media_type;
            body := match from_utf8 raw_bytes with
              | Some _ => raw_bytes
              | None => utf8 (utf8_lossy raw_bytes)
              end |}
  end.

Definition custom_block_payload (content : value) (block_id : string) : result error (string * bytes) :=
  match content with
  | VMap fields =>
      media_type ← ok_or (find_text "media_type" fields)
        (ArtifactDecode block_id "artifact custom block content is missing media_type");
      body ← ok_or (find_bytes "body" fields) (ArtifactMissingContent block_id);
      Ok (media_type, body)
  | _ => Err (ArtifactDecode block_id "artifact custom block content must be a CBOR map")
  end.

(** The first integer under a key that fits [u64]. *)
Definition find_u64 (name : string) (fields : list (value * value)) : option Z :=
  find_map (λ kv, match kv with
    | (VText key, VInteger z) =>
        if String.eqb key name then (if (0 <=? z) && (z <? 2 ^ 64) then Some z else None) else None
    | _ => None end) fields.

Definition normalized_email_body (data : bytes) (block_id : string) : result error string :=
  value ← map_err (ArtifactDecode block_id) (from_reader data);
  match value with
  | VMap fields =>
      body ← ok_or (find_text "body" fields) (ArtifactMissingBody block_id);
      _ ← ok_or (match find_u64 "schema_version" fields with
                 | Some version => if version =? NORMALIZED_EMAIL_SCHEMA_VERSION then Some version else None
                 | None => None end)
            (ArtifactDecode block_id "normalized email artifact must use schema_version 1");
      Ok body
  | _ => Err (ArtifactDecode block_id "normalized email artifact must decode to a CBOR map")
  end.

Definition load_email_chunks (store : S) (email_artifact_ref : string) : result error (list text) :=
  block_id ← ok_or (decode_hash email_artifact_ref) (InvalidBlockHash email_artifact_ref);
  decoded ← map_err RBlockStore (get_decoded block_id store);
  decoded ← ok_or decoded (MissingArtifact email_artifact_ref);
  match decoded with
  | DecodedV1 _ => Err (ArtifactLegacyVersion email_artifact_ref VERSION_1)
  | DecodedV2 typed =>
      typed ← map_err (ArtifactDecode email_artifact_ref) typed;
      match typed with
      | Custom custom =>
          reject_if (bool_decide (cb_type_name custom ≠ NORMALIZED_EMAIL_ARTIFACT_BLOCK_TYPE))
            (ArtifactWrongType email_artifact_ref (cb_type_name custom)) ;;
          '(media_type, body) ← custom_block_payload (cb_content custom) email_artifact_ref;
          reject_if (bool_decide (media_type ≠ ARTIFACT_MEDIA_TYPE_NORMALIZED_EMAIL))
            (ArtifactWrongMediaType email_artifact_ref media_type) ;;
          body ← normalized_email_body body email_artifact_ref;
          Ok (chunk_email_core (chars body))
      | other => Err (ArtifactWrongType email_artifact_ref (typed_block_name other))
      end
  end.

(** ** The cache

    A call looks the email up under the lock, loads its chunks without the lock
    if it is absent, and inserts them under the lock unless another thread has
    done so. *)
Definition EmailChunkCache : Type := gmap string (list text).

Inductive resolve_state :=
| Lookup
| Load
| Insert (chunks : list text)
| Pick (chunks : list text)
| Done (r : result error Content).

Definition pick_chunk (email_artifact_ref : string) (chunk_index : Z) (chunks : list text) : result error Content :=
  match chunks !! Z.to_nat chunk_index with
  | Some chunk => Ok {| media_type := CHUNK_MEDIA_TYPE; body := utf8 chunk |}
  | None => Err (MissingChunk email_artifact_ref chunk_index)
  end.

Definition resolve_step (store : S) (email_artifact_ref : string) (chunk_index : Z)
    (cache : EmailChunkCache) (st : resolve_state) : EmailChunkCache * resolve_state :=
  match st with
  | Lookup => (cache, match cache !! email_artifact_ref with Some chunks => Pick chunks | None => Load end)
  | Load => (cache, match load_email_chunks store email_artifact_ref with
                    | Ok chunks => Insert chunks | Err e => Done (Err e) end)
  | Insert chunks =>
      match cache !! email_artifact_ref with
      | Some chunks => (cache, Pick chunks)
      | None => (<[email_artifact_ref := chunks]> cache, Pick chunks)
      end
  | Pick chunks => (cache, Done (pick_chunk email_artifact_ref chunk_index chunks))
  | Done r => (cache, Done r)
  end.

(** The call on its own: four steps are enough. *)
Definition resolve_email_chunk (store : S) (cache : EmailChunkCache)
    (email_artifact_ref : string) (chunk_index : Z) : EmailChunkCache * option (result error Content) :=
  let '(cache, st) := Nat.iter 4 (λ p, resolve_step store email_artifact_ref chunk_index p.1 p.2) (cache, Lookup) in
  (cache, match st with Done r => Some r | _ => None end).

Definition resolve (fs : files) (store : S) (content_ref : ContentRef) (cache : EmailChunkCache)
    : EmailChunkCache * option (result error Content) :=
  match content_ref with
  | CDocument path => (cache, Some (resolve_file fs path "txt" "text/plain"))
  | CInline media_type body => (cache, Some (Ok {| media_type := media_type; body := body |}))
  | CStoredReplay media_type body _ => (cache, Some (Ok {| media_type := media_type; body := body |}))
  | CEmailChunk email_artifact_ref chunk_index => resolve_email_chunk store cache email_artifact_ref chunk_index
  end.
End resolver.

(** ** Fingerprints *)
Section fingerprint.
Context `{Sha256}.
Definition document_fingerprint (path : string) : block_hash :=
  hash_bytes (as_bytes ("document:" +:+ normalize_document_identity_path path)).
Definition email_chunk_fingerprint (email_artifact_ref : string) (chunk_index : Z) : block_hash :=
  hash_bytes (as_bytes ("email-chunk:" +:+ email_artifact_ref +:+ ":" +:+ fmt_usize chunk_index)).

Definition fingerprint (content_ref : ContentRef) : block_hash :=
  match content_ref with
  | CDocument path => document_fingerprint path
  | CInline media_type body => hash_bytes (as_bytes media_type ++ [0] ++ body)
  | CStoredReplay _ _ (IdDocument source_path) => document_fingerprint source_path
  | CStoredReplay _ _ (IdEmailChunk email_artifact_ref chunk_index) =>
      email_chunk_fingerprint email_artifact_ref chunk_index
  | CEmailChunk email_artifact_ref chunk_index => email_chunk_fingerprint email_artifact_ref chunk_index
  end.
End fingerprint.
