(* ===== verification/MailboxSpec.v ===== *)
(** * Theorems of mailboxes and content resolution

    Splitting a mailbox and cutting an email into chunks lose no visible text;
    canonical CBOR does not depend on the order of map entries; and the chunk
    references that an expansion produces resolve, through the shared cache and
    in any later store, to exactly the chunks that were counted. *)

From Stdlib Require Import ZArith Lia Ascii.
From stdpp Require Import base gmap sets strings sorting option list.
From S2P Require Import Prelude Hex Blocks Text Items SortKey Orders Mailbox Resolver.
#[local] Open Scope Z_scope.

(** ** Visible characters *)
Definition visible (t : text) : text := filter (λ c, is_whitespace c = false) t.

Lemma visible_app a b : visible (a ++ b) = visible a ++ visible b.
Proof. apply filter_app. Qed.
Lemma visible_cons c t : visible (c :: t) = if is_whitespace c then visible t else c :: visible t.
Proof. unfold visible. rewrite filter_cons. by destruct (is_whitespace c). Qed.
Lemma visible_join l : visible (join_text [32] l) = visible (concat l).
Proof.
  induction l as [|t l IH]; [done|]. cbn [join_text concat]. destruct l as [|u l]; [cbn; by rewrite app_nil_r|].
  by rewrite !visible_app, IH.
Qed.

(** The words are the maximal visible runs. *)
Lemma split_from_spec word t : Forall (λ c, is_whitespace c = false) word →
  concat (split_whitespace_from word t) = reverse word ++ visible t
  ∧ Forall (λ w, w ≠ []) (split_whitespace_from word t).
Proof.
  assert (∀ word : text, concat (match word with [] => [] | _ => [reverse word] end) = reverse word
    ∧ Forall (λ w, w ≠ []) (match word with [] => [] | _ => [reverse word] end)) as Hflush.
  { intros [|c w]; [by split|]. cbn [concat]. split; [by rewrite app_nil_r|].
    constructor; [|done]. rewrite reverse_cons. by destruct (reverse w). }
  revert word. induction t as [|c t IH]; intros word Hw; cbn [split_whitespace_from].
  - destruct (Hflush word) as [-> ?]. by rewrite app_nil_r.
  - rewrite visible_cons. destruct (is_whitespace c) eqn:Hc.
    + destruct (Hflush word) as [Hf1 Hf2]. destruct (IH []) as [Hi1 Hi2]; [constructor|].
      rewrite concat_app, Hf1, Hi1. split; [done|]. by apply Forall_app.
    + destruct (IH (c :: word)) as [Hi1 Hi2]; [by constructor|]. rewrite Hi1, reverse_cons.
      split; [by rewrite <-app_assoc|done].
Qed.

Lemma visible_normalize t : visible (normalize_inline_text t) = visible t.
Proof.
  unfold normalize_inline_text, split_whitespace. rewrite visible_join.
  destruct (split_from_spec [] t) as [-> _]; [constructor|]. cbn. unfold visible.
  by rewrite list_filter_filter_l.
Qed.

Lemma normalize_nil t : normalize_inline_text t = [] → visible t = [].
Proof. intros H. by rewrite <-visible_normalize, H. Qed.

(** ** Sentences *)
Lemma push_sentence_visible ss cur :
  visible (concat (push_sentence ss cur)) = visible (concat ss) ++ visible cur.
Proof.
  unfold push_sentence. case_bool_decide as H.
  - by rewrite (normalize_nil _ H), app_nil_r.
  - by rewrite concat_app, visible_app, concat_cons, app_nil_r, visible_normalize.
Qed.

Lemma push_sentence_nonempty ss cur : Forall (λ s, s ≠ []) ss → Forall (λ s, s ≠ []) (push_sentence ss cur).
Proof. intros H. unfold push_sentence. case_bool_decide; [done|]. apply Forall_app. by repeat constructor. Qed.

Definition sentences_state (pre : text) (st : list text * text * Z) : Prop :=
  let '(ss, cur, _) := st in visible (concat ss) ++ visible cur = visible pre ∧ Forall (λ s, s ≠ []) ss.

Lemma sentence_units_spec body :
  visible (concat (sentence_units body)) = visible body ∧ Forall (λ s, s ≠ []) (sentence_units body).
Proof.
  unfold sentence_units.
  assert (sentences_state body (foldl sentence_step ([], [], 0) body)) as H.
  { apply foldl_inv; [done|]. intros pre ch post [[ss cur] br] _ [Hv Hn]. unfold sentence_step.
    case_match; cbn; [split; [|by apply push_sentence_nonempty]|split; [|done]].
    - by rewrite push_sentence_visible, !visible_app, app_assoc, Hv, app_nil_r.
    - by rewrite !visible_app, app_assoc, Hv. }
  destruct (foldl sentence_step ([], [], 0) body) as [[ss cur] br]. destruct H as [Hv Hn].
  split; [by rewrite push_sentence_visible|by apply push_sentence_nonempty].
Qed.

(** ** Chunks *)
Definition chunk_fits (units : list text) (c : text) : Prop := len c ≤ MAX_CHUNK_CHARS ∨ c ∈ units.

Definition chunks_state (units pre : list text) (st : list text * text) : Prop :=
  visible (concat (st.1 ++ [st.2])) = visible (concat pre)
  ∧ Forall (λ c, c ≠ [] ∧ chunk_fits units c) st.1
  ∧ (st.2 = [] → pre = []) ∧ (st.2 ≠ [] → chunk_fits units st.2).

Lemma chunk_loop units : Forall (λ s, s ≠ []) units → chunks_state units units (foldl chunk_step ([], []) units).
Proof.
  intros Hne. apply (foldl_inv (chunks_state units)); [unfold chunks_state; cbn; split_and!; [done|constructor|done|done]|].
  intros pre u post [chunks cur] Hu (Hv&Hc&Hnil&Hfit). cbn [fst snd] in *.
  assert (u ∈ units) as Hin by (rewrite Hu; set_solver).
  assert (u ≠ []) as Hune by (rewrite Forall_forall in Hne; auto).
  assert (visible (concat (pre ++ [u])) = visible (concat pre) ++ visible u) as Hpre.
  { by rewrite concat_app, visible_app, concat_cons, app_nil_r. }
  rewrite concat_app, concat_cons, app_nil_r, visible_app in Hv. unfold chunk_step.
  destruct (bool_decide (cur = [])) eqn:Hcur.
  - apply bool_decide_eq_true in Hcur as ->. rewrite (Hnil eq_refl) in *. cbn [andb]. rewrite bool_decide_false by auto.
    cbn. split_and!; [|done|done|by right].
    change (visible []) with (@nil Z) in Hv. rewrite app_nil_r in Hv.
    cbn [fst snd]. by rewrite concat_app, visible_app, Hv.
  - apply bool_decide_eq_false in Hcur. rewrite bool_decide_true by done. cbn [andb].
    destruct (MAX_CHUNK_CHARS <? len cur + 1 + len u) eqn:Hlen.
    + split_and!; cbn [fst snd]; [|apply Forall_app; split; [done|]|done|by right].
      * by rewrite Hpre, <-Hv, !concat_app, !concat_cons, !app_nil_r, !visible_app.
      * constructor; [|done]. split; [done|by apply Hfit].
    + apply Z.ltb_ge in Hlen. split_and!; cbn [fst snd]; [|done| |].
      * rewrite Hpre, <-Hv, concat_app, concat_cons, app_nil_r, !visible_app, !app_assoc. cbn. by rewrite app_nil_r.
      * intros Hnil'. by destruct cur.
      * intros _. left. rewrite !len_app, len_cons, len_nil. lia.
Qed.

(** Cutting an email into chunks yields at least one chunk, keeps every visible
    character in its order, and exceeds 1000 characters only where a single
    sentence does. *)
Theorem chunk_email_core_spec body :
  let chunks := chunk_email_core body in
  chunks ≠ [] ∧ visible (concat chunks) = visible body
  ∧ Forall (chunk_fits (sentence_units body)) chunks
  ∧ (visible body ≠ [] → Forall (λ c, c ≠ []) chunks).
Proof.
  cbv zeta. unfold chunk_email_core. destruct (sentence_units_spec body) as [Hv Hne].
  case_bool_decide as Hu.
  - rewrite Hu in Hv. cbn in Hv. split; [done|].
    assert (drop_spaces body = []) as Hd.
    { clear -Hv. induction body as [|c t IH]; [done|]. rewrite visible_cons in Hv. cbn. by destruct (is_whitespace c); auto. }
    unfold trim_chars. rewrite Hd. cbn. split_and!; [done| |by intros []].
    apply Forall_cons_2; [left; rewrite len_nil; done|constructor].
  - destruct (chunk_loop _ Hne) as (Hcv&Hc&Hnil&Hfit).
    destruct (foldl chunk_step ([], []) (sentence_units body)) as [chunks cur]. cbn [fst snd] in *.
    case_bool_decide as Hcur; [by apply Hnil in Hcur|]. rewrite Hcv. split_and!.
    + by destruct chunks.
    + done.
    + apply Forall_app. split; [eapply Forall_impl; [exact Hc|by intros ? []]|]. constructor; [auto|done].
    + intros _. apply Forall_app. split; [eapply Forall_impl; [exact Hc|by intros ? []]|]. by constructor.
Qed.

(** A chunk holds characters of the email and spaces. *)
Section kept.
Context (P : Z → Prop) (Hspace : P 32).
Lemma split_from_keeps word t : Forall P word → Forall P t → Forall (Forall P) (split_whitespace_from word t).
Proof using Type.
  assert (∀ word : text, Forall P word → Forall (Forall P) (match word with [] => [] | _ => [reverse word] end)) as Hflush.
  { intros [|c w] Hw; [done|]. by repeat constructor; apply Forall_reverse. }
  intros Hw Ht. revert word Hw. induction Ht as [|c t Hc _ IH]; intros word Hw; cbn [split_whitespace_from]; [by apply Hflush|].
  destruct (is_whitespace c); [apply Forall_app; split; [by apply Hflush|by apply IH]|]. apply IH. by constructor.
Qed.
Lemma join_keeps l : Forall (Forall P) l → Forall P (join_text [32] l).
Proof.
  induction 1 as [|t l Ht Hl IH]; [constructor|]. destruct l as [|t' l]; [done|].
  change (Forall P (t ++ [32] ++ join_text [32] (t' :: l))). apply Forall_app. split; [done|].
  apply Forall_app. split; [by repeat constructor|done].
Qed.
Lemma normalize_keeps t : Forall P t → Forall P (normalize_inline_text t).
Proof. intros Ht. by apply join_keeps, split_from_keeps. Qed.
Lemma drop_spaces_keeps t : Forall P t → Forall P (drop_spaces t).
Proof using Type. induction 1 as [|c t Hc Ht IH]; cbn; [done|]. destruct (is_whitespace c); [done|by constructor]. Qed.
Lemma push_sentence_keeps ss cur : Forall (Forall P) ss → Forall P cur → Forall (Forall P) (push_sentence ss cur).
Proof.
  intros Hs Hc. unfold push_sentence. case_bool_decide; [done|]. apply Forall_app. split; [done|].
  repeat constructor. by apply normalize_keeps.
Qed.
Lemma sentences_keep body : Forall P body → Forall (Forall P) (sentence_units body).
Proof.
  intros Hb. unfold sentence_units.
  assert (Forall (Forall P) (foldl sentence_step ([], [], 0) body).1.1 ∧ Forall P (foldl sentence_step ([], [], 0) body).1.2) as H.
  { apply (foldl_inv (λ _ st, Forall (Forall P) st.1.1 ∧ Forall P st.1.2)); [by split|].
    intros pre ch post [[ss cur] br] -> [Hs Hc]. cbn [fst snd] in *. unfold sentence_step.
    assert (Forall P (cur ++ [ch])) as Hcur.
    { apply Forall_app. split; [done|]. apply Forall_app in Hb as [_ Hb]. apply Forall_cons in Hb as [? _]. by repeat constructor. }
    case_match; cbn [fst snd]; [split; [by apply push_sentence_keeps|constructor]|by split]. }
  destruct (foldl sentence_step ([], [], 0) body) as [[ss cur] br]. destruct H. by apply push_sentence_keeps.
Qed.
Lemma chunks_keep body : Forall P body → Forall (Forall P) (chunk_email_core body).
Proof.
  intros Hb. pose proof (sentences_keep body Hb) as Hu. unfold chunk_email_core. case_bool_decide.
  { repeat constructor. by apply Forall_reverse, drop_spaces_keeps, Forall_reverse, drop_spaces_keeps. }
  assert (Forall (Forall P) (foldl chunk_step ([], []) (sentence_units body)).1
    ∧ Forall P (foldl chunk_step ([], []) (sentence_units body)).2) as H'.
  { apply (foldl_inv (λ _ st, Forall (Forall P) st.1 ∧ Forall P st.2)); [by split|].
    intros pre u post [cs cur] Hpre [Hs Hc]. cbn [fst snd] in *. unfold chunk_step.
    assert (Forall P u) as Hpu by (rewrite Hpre in Hu; apply Forall_app in Hu as [_ Hu]; by apply Forall_cons in Hu as [? _]).
    destruct (bool_decide (cur ≠ []) && _); cbn [fst snd].
    - split; [|done]. apply Forall_app. split; [done|]. by repeat constructor.
    - split; [done|]. apply Forall_app. split; [|done]. destruct (bool_decide _); [constructor|].
      apply Forall_app. split; [done|]. by repeat constructor. }
  destruct (foldl chunk_step ([], []) (sentence_units body)) as [cs cur]. destruct H' as [Hs Hc].
  case_bool_decide; [done|]. apply Forall_app. split; [done|]. by repeat constructor.
Qed.
End kept.

(** ** Splitting a mailbox *)

(** The reference: the lines between separators. *)
Fixpoint split_where {A} (p : A → bool) (l : list A) : list (list A) :=
  match l with
  | [] => [[]]
  | x :: l =>
      if p x then [] :: split_where p l else
      match split_where p l with
      | s :: ss => (x :: s) :: ss
      | [] => [[x]]
      end
  end.

Definition is_separator (line : bytes) : bool := starts_with (as_bytes "From ") line.

Definition nonempty (m : bytes) : list bytes := if bool_decide (m = []) then [] else [m].
Definition finish_split (st : list bytes * bytes * bool) : list bytes :=
  let '(messages, current, _) := st in messages ++ nonempty current.

Lemma split_where_cons {A} (p : A → bool) l : ∃ s ss, split_where p l = s :: ss.
Proof. destruct l as [|x l]; cbn; [eauto|]. destruct (p x); [eauto|]. destruct (split_where p l); eauto. Qed.

Lemma mbox_loop ls messages current saw :
  finish_split (foldl mbox_step (messages, current, saw) ls)
  = messages ++ match split_where is_separator ls with
      | s :: ss => nonempty (current ++ concat s) ++ (((λ g, concat g) <$> ss) ≫= nonempty)
      | [] => [] end.
Proof.
  revert messages current saw. induction ls as [|line ls IH]; intros messages current saw.
  { cbn. by rewrite !app_nil_r. }
  cbn [foldl mbox_step split_where]. fold (is_separator line).
  destruct (split_where_cons is_separator ls) as (s&ss&Hs). rewrite Hs in IH |- *.
  destruct (is_separator line).
  - rewrite IH. cbn [concat]. rewrite app_nil_r, fmap_cons, bind_cons, app_nil_l.
    assert ((if bool_decide (current = []) then messages else messages ++ [current])
      = messages ++ nonempty current) as ->.
    { unfold nonempty. case_bool_decide; [by rewrite app_nil_r|done]. }
    by rewrite <-!app_assoc.
  - rewrite IH. cbn [concat]. by rewrite <-app_assoc.
Qed.

Lemma mbox_saw ls messages current saw :
  (foldl mbox_step (messages, current, saw) ls).2 = saw || existsb is_separator ls.
Proof.
  revert messages current saw. induction ls as [|line ls IH]; intros messages current saw; cbn [foldl mbox_step existsb].
  { by rewrite orb_false_r. }
  fold (is_separator line). destruct (is_separator line); rewrite IH; cbn; [by rewrite orb_true_r|done].
Qed.

Lemma split_where_none {A} (p : A → bool) l : existsb p l = false → split_where p l = [l].
Proof.
  induction l as [|x l IH]; [done|]. cbn. intros [Hx Hl]%orb_false_iff. by rewrite Hx, IH.
Qed.

Lemma concat_split_inclusive {A} `{EqDecision A} (sep : A) l : concat (split_inclusive sep l) = l.
Proof.
  induction l as [|a l IH]; [done|]. cbn. case_decide; [cbn; by rewrite IH|].
  destruct (split_inclusive sep l); cbn in *; by rewrite <-IH.
Qed.

(** The messages of a mailbox are the texts between separator lines, empty
    ones left out; a mailbox without a separator is one message. *)
Theorem split_mbox_messages_spec raw :
  split_mbox_messages raw
  = ((λ g, concat g) <$> split_where is_separator (split_inclusive 10 raw)) ≫= nonempty.
Proof.
  unfold split_mbox_messages.
  pose proof (mbox_loop (split_inclusive 10 raw) [] [] false) as Hl.
  pose proof (mbox_saw (split_inclusive 10 raw) [] [] false) as Hs.
  destruct (foldl mbox_step ([], [], false) (split_inclusive 10 raw)) as [[messages current] saw].
  cbn in Hs. subst saw. destruct (existsb is_separator (split_inclusive 10 raw)) eqn:He.
  - destruct (split_where_cons is_separator (split_inclusive 10 raw)) as (s&ss&Hg).
    rewrite Hg in Hl |- *. cbn [app] in Hl. rewrite fmap_cons, bind_cons, <-Hl. unfold finish_split, nonempty.
    case_bool_decide; [by rewrite app_nil_r|done].
  - rewrite split_where_none by done. cbn. rewrite concat_split_inclusive, app_nil_r. done.
Qed.

(** ** Canonical CBOR *)
Section canonical.
Context `{CiboriumLaws}.

Definition lenlex (a b : bytes) : comparison := then_cmp (len a ?= len b) (bytes_cmp a b).
#[local] Instance lenlex_laws : CmpLaws lenlex.
Proof. refine (then_cmp_laws len id Z.compare bytes_cmp _). by intros ???. Qed.

Lemma canonical_cmp_lenlex a b : canonical_value_cmp a b = lenlex (encoded_value_bytes a) (encoded_value_bytes b).
Proof. done. Qed.

Definition key (kv : value * value) : bytes := encoded_value_bytes kv.1.
Definition key_lt (a b : value * value) : Prop := canonical_value_cmp a.1 b.1 = Lt.

#[local] Instance key_le_preorder : PreOrder key_le.
Proof.
  split; [intros a|intros a b c]; unfold key_le; rewrite !canonical_cmp_lenlex.
  - by rewrite (cmp_refl lenlex).
  - apply (cmp_le_trans lenlex).
Qed.
#[local] Instance key_le_total : Total key_le.
Proof. intros a b. apply (cmp_le_total lenlex). Qed.

Lemma key_lt_asym a b : key_lt a b → key_lt b a → False.
Proof.
  unfold key_lt. rewrite !canonical_cmp_lenlex, (cmp_opp (cmp:=lenlex) (encoded_value_bytes a.1)).
  by intros ->.
Qed.

(** Neighbours are enough: the keys of a sorted list are distinct iff no two
    neighbours are equal, and then it is strictly sorted. *)
Lemma adjacent_strict l : StronglySorted key_le l → adjacent_equal l = false → StronglySorted key_lt l.
Proof.
  induction 1 as [|a l Hl IH Ha]; [constructor|]. intros Hadj. constructor.
  - apply IH. destruct l as [|b l]; [done|]. cbn in Hadj. by apply orb_false_iff in Hadj as [_ ?].
  - destruct l as [|b l]; [constructor|]. cbn in Hadj. apply orb_false_iff in Hadj as [Hab _].
    apply bool_decide_eq_false in Hab. rewrite Forall_forall in Ha.
    assert (key_lt a b) as Hlt.
    { assert (key_le a b) as Hle by (apply Ha; by left). unfold key_lt, key_le in *. by destruct (canonical_value_cmp a.1 b.1). }
    apply Forall_forall. intros c [->|Hc]%elem_of_cons; [done|].
    apply StronglySorted_inv in Hl as [_ Hb]. rewrite Forall_forall in Hb. specialize (Hb c Hc).
    unfold key_lt, key_le in *. rewrite !canonical_cmp_lenlex in *.
    destruct (lenlex (encoded_value_bytes b.1) (encoded_value_bytes c.1)) eqn:E; [| |done].
    + apply cmp_eq in E. by rewrite <-E.
    + by eapply cmp_trans.
Qed.

Lemma strict_nodup l : StronglySorted key_lt l → NoDup (key <$> l).
Proof.
  induction 1 as [|a l Hl IH Ha]; [constructor|]. cbn. constructor; [|done].
  intros (b&Hk&Hb)%list_elem_of_fmap. rewrite Forall_forall in Ha. specialize (Ha b Hb).
  unfold key_lt in Ha. rewrite canonical_cmp_lenlex in Ha. unfold key in Hk.
  by rewrite Hk, (cmp_refl lenlex) in Ha.
Qed.

Lemma nodup_adjacent l : NoDup (key <$> l) → adjacent_equal l = false.
Proof.
  induction l as [|a [|b l] IH]; [done..|]. rewrite fmap_cons. intros [Ha Hl]%NoDup_cons.
  cbn [adjacent_equal]. apply orb_false_iff. split; [|by apply IH].
  apply bool_decide_eq_false. rewrite canonical_cmp_lenlex, cmp_eq. intros Heq. apply Ha. rewrite fmap_cons.
  fold (key a) in Heq. rewrite Heq. by left.
Qed.

Lemma canonical_map_spec l : canonical_map l =
  if bool_decide (NoDup (key <$> l)) then Ok (VMap (merge_sort key_le l))
  else Err "duplicate keys are not permitted in canonicalized CBOR".
Proof.
  unfold canonical_map.
  assert (StronglySorted key_le (merge_sort key_le l)) as Hs by (apply StronglySorted_merge_sort; apply _).
  assert (NoDup (key <$> merge_sort key_le l) ↔ NoDup (key <$> l)) as Hn by (by rewrite merge_sort_Permutation).
  destruct (adjacent_equal (merge_sort key_le l)) eqn:Ha.
  - rewrite bool_decide_false; [done|]. rewrite <-Hn. intros Hd. apply nodup_adjacent in Hd. congruence.
  - rewrite bool_decide_true; [done|]. rewrite <-Hn. by apply strict_nodup, adjacent_strict.
Qed.

Lemma sorted_strict l : NoDup (key <$> l) → StronglySorted key_lt (merge_sort key_le l).
Proof.
  intros Hn. apply adjacent_strict; [apply StronglySorted_merge_sort; apply _|].
  apply nodup_adjacent. by rewrite merge_sort_Permutation.
Qed.

Lemma canonical_map_perm l k : l ≡ₚ k → canonical_map l = canonical_map k.
Proof.
  intros Hlk. rewrite !canonical_map_spec.
  destruct (decide (NoDup (key <$> l))) as [Hn|Hn].
  - assert (NoDup (key <$> k)) by (by rewrite <-Hlk). rewrite !bool_decide_true by done. do 2 f_equal.
    apply (sorted_lt_unique key_lt); [apply key_lt_asym|by apply sorted_strict..|by rewrite !merge_sort_Permutation].
  - assert (¬ NoDup (key <$> k)) by (by rewrite <-Hlk). by rewrite !bool_decide_false by done.
Qed.
Definition canonical_entry (kv : value * value) : result string (value * value) :=
  key ← canonicalize_value kv.1; value ← canonicalize_value kv.2; Ok (key, value).

Lemma canonicalize_map es :
  canonicalize_value (VMap es) = result_mapM canonical_entry es ≫= canonical_map.
Proof.
  cbn [canonicalize_value]. f_equal. induction es as [|[k v] es IH]; [done|].
  cbn [result_mapM]. rewrite <-IH. unfold canonical_entry. cbn [fst snd].
  destruct (canonicalize_value k); [|done]. cbn. by destruct (canonicalize_value v).
Qed.

Lemma canonicalize_array l : canonicalize_value (VArray l) = l ← result_mapM canonicalize_value l; Ok (VArray l).
Proof.
  cbn [canonicalize_value]. f_equal. induction l as [|v l IH]; [done|]. cbn [result_mapM]. by rewrite <-IH.
Qed.

(** A plain value fails in one way only, so failures do not depend on the order
    either. *)
Definition dup_error : string := "duplicate keys are not permitted in canonicalized CBOR".
Definition only_dup {A} (r : result string A) : Prop := match r with Ok _ => True | Err e => e = dup_error end.

Lemma result_mapM_only_dup {A B} (f : A → result string B) l :
  Forall (λ x, only_dup (f x)) l → only_dup (result_mapM f l).
Proof.
  induction 1 as [|x l Hx _ IH]; [done|]. cbn. unfold only_dup in *.
  destruct (f x); cbn; [|done]. by destruct (result_mapM f l).
Qed.

Lemma canonicalize_only_dup v : plain v = true → only_dup (canonicalize_value v).
Proof.
  induction v as [z|b|f|s|b| |t v IH|l IH|es IH|n] using value_nested_ind; try done; cbn [plain].
  - intros [_ Hv]%andb_true_iff. specialize (IH Hv). unfold only_dup in *. cbn.
    by destruct (canonicalize_value v).
  - intros [_ Hl]%andb_true_iff. rewrite forallb_forall in Hl. rewrite canonicalize_array.
    assert (only_dup (result_mapM canonicalize_value l)) as Hod.
    { apply result_mapM_only_dup. apply Forall_forall. intros v Hv. rewrite Forall_forall in IH.
      apply IH; [done|]. by apply Hl, list_elem_of_In. }
    unfold only_dup in *. by destruct (result_mapM canonicalize_value l).
  - intros [_ Hl]%andb_true_iff. rewrite forallb_forall in Hl. rewrite canonicalize_map.
    assert (only_dup (result_mapM canonical_entry es)) as Hod.
    { apply result_mapM_only_dup. apply Forall_forall. intros [k v] Hv. rewrite Forall_forall in IH.
      destruct (IH _ Hv) as [Hk Hw]. specialize (Hl (k, v) ltac:(by apply list_elem_of_In)).
      cbn in Hk, Hw, Hl. apply andb_true_iff in Hl as [Hlk Hlv]. specialize (Hk Hlk). specialize (Hw Hlv).
      unfold canonical_entry, only_dup in *. cbn [fst snd].
      destruct (canonicalize_value k); cbn; [|done]. by destruct (canonicalize_value v). }
    unfold only_dup in *. destruct (result_mapM canonical_entry es) as [nf|]; [|done].
    change (Ok nf ≫= canonical_map) with (canonical_map nf). rewrite canonical_map_spec. by case_bool_decide.
Qed.

Lemma result_mapM_perm {A B} (f : A → result string B) l k :
  l ≡ₚ k → Forall (λ x, only_dup (f x)) l →
  match result_mapM f l, result_mapM f k with
  | Ok a, Ok b => a ≡ₚ b
  | Err d, Err e => d = e
  | _, _ => False
  end.
Proof.
  intros Hlk. induction Hlk as [|x l k Hlk IH|x y l|l k m Hlk IH1 Hkm IH2]; intros Hf.
  - cbn. constructor.
  - apply Forall_cons in Hf as [Hx Hf]. specialize (IH Hf). cbn.
    destruct (f x); cbn; [|done]. destruct (result_mapM f l), (result_mapM f k); cbn; by rewrite ?IH.
  - apply Forall_cons in Hf as [Hx Hf]. apply Forall_cons in Hf as [Hy Hf].
    pose proof (result_mapM_only_dup f l Hf) as Hm. unfold only_dup in *. cbn.
    destruct (f x), (f y); cbn; destruct (result_mapM f l); cbn; subst; done || apply Permutation_swap.
  - specialize (IH1 Hf). specialize (IH2 ltac:(by rewrite <-Hlk)).
    destruct (result_mapM f l), (result_mapM f k), (result_mapM f m); try done; by etrans.
Qed.

(** A canonical map has strictly increasing keys. *)
Lemma canonicalize_ok_inv es v : canonicalize_value (VMap es) = Ok v →
  ∃ nf out, result_mapM canonical_entry es = Ok nf ∧ v = VMap out ∧ out ≡ₚ nf ∧ StronglySorted key_lt out.
Proof.
  rewrite canonicalize_map. intros (nf&Hnf&Hm)%result_bind_ok. rewrite canonical_map_spec in Hm.
  case_bool_decide as Hn; [|done]. injection Hm as <-. eexists nf, _. split_and!; [done..| |].
  - apply merge_sort_Permutation.
  - by apply sorted_strict.
Qed.

Lemma result_mapM_fixed {A} (f : A → result string A) l : Forall (λ x, f x = Ok x) l → result_mapM f l = Ok l.
Proof. induction 1 as [|x l Hx _ IH]; [done|]. cbn. rewrite Hx. cbn. by rewrite IH. Qed.

Lemma canonicalize_idemp v v' : canonicalize_value v = Ok v' → canonicalize_value v' = Ok v'.
Proof.
  revert v'. induction v as [z|b|f|s|b| |t v IH|l IH|es IH|n] using value_nested_ind; intros v';
    try (by intros [= <-]); try done.
  - cbn. intros (w&Hw&[= <-])%result_bind_ok. cbn. by rewrite (IH _ Hw).
  - rewrite canonicalize_array. intros (k&Hk&[= <-])%result_bind_ok. rewrite canonicalize_array.
    rewrite result_mapM_fixed; [done|]. apply result_mapM_ok in Hk.
    induction Hk as [|x y l k Hxy _ IHk]; [constructor|]. apply Forall_cons in IH as [Hx IH].
    constructor; [by apply Hx|by apply IHk].
  - intros (nf&out&Hnf&->&Hp&Hs)%canonicalize_ok_inv. rewrite canonicalize_map.
    assert (Forall (λ kv, canonical_entry kv = Ok kv) nf) as Hfix.
    { apply result_mapM_ok in Hnf. clear Hp Hs. induction Hnf as [|[k v] y es nf Hxy _ IHn]; [constructor|].
      apply Forall_cons in IH as [[Hk Hv] IH]. cbn in Hk, Hv. constructor; [|by apply IHn].
      unfold canonical_entry in Hxy. cbn [fst snd] in Hxy.
      apply result_bind_ok in Hxy as (k'&Hk'&(v'&Hv'&[= <-])%result_bind_ok).
      unfold canonical_entry. cbn [fst snd]. by rewrite (Hk _ Hk'), (Hv _ Hv'). }
    rewrite result_mapM_fixed by (by rewrite Hp). change (canonical_map out = Ok (VMap out)).
    rewrite canonical_map_spec, bool_decide_true by (by apply strict_nodup). do 2 f_equal.
    apply (sorted_lt_unique key_lt); [apply key_lt_asym|by apply sorted_strict, strict_nodup|done|].
    apply merge_sort_Permutation.
Qed.

(** Canonicalisation does not depend on the order in which a map's entries are
    given, is the identity on its own results, and leaves strictly increasing
    keys; so one artifact has one encoding, and with it one block id. *)
Theorem canonicalize_value_spec es es' :
  Forall (λ kv, plain kv.1 = true ∧ plain kv.2 = true) es → es ≡ₚ es' →
  canonicalize_value (VMap es) = canonicalize_value (VMap es')
  ∧ match canonicalize_value (VMap es) with
    | Ok v => canonicalize_value v = Ok v ∧ ∃ out, v = VMap out ∧ StronglySorted key_lt out
    | Err e => e = dup_error
    end.
Proof.
  intros Hes Hp. split.
  - rewrite !canonicalize_map.
    assert (Forall (λ x, only_dup (canonical_entry x)) es) as Hd.
    { eapply Forall_impl; [exact Hes|]. intros [k v] [Hk Hv]. cbn in *.
      apply canonicalize_only_dup in Hk, Hv. unfold canonical_entry, only_dup in *. cbn [fst snd].
      destruct (canonicalize_value k); cbn; [|done]. by destruct (canonicalize_value v). }
    pose proof (result_mapM_perm canonical_entry es es' Hp Hd) as Hr.
    destruct (result_mapM canonical_entry es), (result_mapM canonical_entry es'); try done; [|by subst].
    by apply canonical_map_perm.
  - destruct (canonicalize_value (VMap es)) as [v|e] eqn:Hv.
    + split; [by eapply canonicalize_idemp|]. apply canonicalize_ok_inv in Hv as (_&out&_&->&_&?). by exists out.
    + rewrite canonicalize_map in Hv.
      assert (only_dup (result_mapM canonical_entry es)) as Hd.
      { apply result_mapM_only_dup. eapply Forall_impl; [exact Hes|]. intros [k w] [Hk Hw]. cbn in *.
        apply canonicalize_only_dup in Hk, Hw. unfold canonical_entry, only_dup in *. cbn [fst snd].
        destruct (canonicalize_value k); cbn; [|done]. by destruct (canonicalize_value w). }
      destruct (result_mapM canonical_entry es) as [nf|]; [|cbn in Hv, Hd; congruence].
      change (canonical_map nf = Err e) in Hv. rewrite canonical_map_spec in Hv. by case_bool_decide; simplify_eq.
Qed.
End canonical.

(** ** Reading artifacts back *)
Section artifacts.
Context `{CiboriumLaws}.

Lemma forallb_perm {A} (f : A → bool) l k : l ≡ₚ k → forallb f l = forallb f k.
Proof. induction 1; cbn; [done|congruence|by rewrite !andb_assoc, (andb_comm (f y))|congruence]. Qed.

Lemma canonicalize_plain v v' : canonicalize_value v = Ok v' → plain v = true → plain v' = true.
Proof.
  revert v'. induction v as [z|b|f|s|b| |t v IH|l IH|es IH|n] using value_nested_ind; intros v';
    try (by intros [= <-]); try done.
  - cbn [canonicalize_value plain]. intros (w&Hw&[= <-])%result_bind_ok [Ht Hv]%andb_true_iff. cbn [plain].
    by rewrite Ht, (IH w).
  - rewrite canonicalize_array. intros (k&Hk&[= <-])%result_bind_ok. cbn [plain].
    intros [Hl Hall]%andb_true_iff. apply result_mapM_ok in Hk.
    apply andb_true_iff. split; [unfold len in *; by rewrite <-(Forall2_length _ _ _ Hk)|]. clear Hl.
    induction Hk as [|x y l k Hxy _ IHk]; [done|]. apply Forall_cons in IH as [Hx IH]. cbn in Hall |- *.
    apply andb_true_iff in Hall as [Hpx Hall]. by rewrite (Hx y), IHk.
  - intros (nf&out&Hnf&->&Hp&_)%canonicalize_ok_inv. cbn [plain]. intros [Hl Hall]%andb_true_iff.
    apply result_mapM_ok in Hnf. rewrite (forallb_perm _ _ _ Hp).
    apply andb_true_iff. split; [unfold len in *; by rewrite Hp, <-(Forall2_length _ _ _ Hnf)|]. clear Hl Hp.
    induction Hnf as [|[k v] y es nf Hxy _ IHn]; [done|]. apply Forall_cons in IH as [[Hk Hv] IH]. cbn in Hk, Hv, Hall.
    apply andb_true_iff in Hall as [[Hpk Hpv]%andb_true_iff Hall].
    unfold canonical_entry in Hxy. cbn [fst snd] in Hxy.
    apply result_bind_ok in Hxy as (k'&Hk'&(v'&Hv'&[= <-])%result_bind_ok). cbn.
    by rewrite (Hk k'), (Hv v'), IHn.
Qed.

(** A field is found wherever it stands, if its name is unique. *)
Lemma find_map_in {A B} (f : A → option B) l y :
  (∃ x, x ∈ l ∧ f x = Some y) → (∀ x z, x ∈ l → f x = Some z → z = y) → find_map f l = Some y.
Proof.
  induction l as [|x l IH]; intros (w&Hw&Hy) Hu; [by apply elem_of_nil in Hw|]. cbn.
  destruct (f x) as [z|] eqn:Hx; [f_equal; eapply Hu; [by left|done]|].
  apply IH; [|intros; eapply Hu; [by right|done]].
  apply elem_of_cons in Hw as [->|Hw]; [congruence|eauto].
Qed.

Definition field_of (name : string) (kv : value * value) : bool :=
  match kv.1 with VText k => String.eqb k name | _ => false end.

Lemma find_text_perm name fields out t :
  out ≡ₚ fields → filter (λ kv, field_of name kv = true) fields = [(VText name, VText t)] → find_text name out = Some t.
Proof.
  intros Hp Hf. assert (filter (λ kv, field_of name kv = true) out = [(VText name, VText t)]) as Ho.
  { apply Permutation_singleton_r. by rewrite Hp, Hf. }
  apply find_map_in.
  - exists (VText name, VText t). split; [|by rewrite String.eqb_refl].
    assert ((VText name, VText t) ∈ filter (λ kv, field_of name kv = true) out) as Hin by (rewrite Ho; by left).
    by apply list_elem_of_filter in Hin as [_ ?].
  - intros [[| | |k| | | | | |] [| | |w| | | | | |]] y Hin; try done. destruct (String.eqb k name) eqn:E; [|done]. intros [= <-].
    apply String.eqb_eq in E as ->.
    assert ((VText name, VText w) ∈ filter (λ kv, field_of name kv = true) out) as Hin'.
    { apply list_elem_of_filter. split; [unfold field_of; cbn; apply String.eqb_refl|done]. }
    rewrite Ho in Hin'. apply list_elem_of_singleton in Hin'. by injection Hin' as ->.
Qed.

Lemma find_u64_perm name fields out z : 0 ≤ z < 2 ^ 64 →
  out ≡ₚ fields → filter (λ kv, field_of name kv = true) fields = [(VText name, VInteger z)] → find_u64 name out = Some z.
Proof.
  intros Hz Hp Hf. assert (filter (λ kv, field_of name kv = true) out = [(VText name, VInteger z)]) as Ho.
  { apply Permutation_singleton_r. by rewrite Hp, Hf. }
  assert ((0 <=? z) && (z <? 2 ^ 64) = true) as Hzb by lia.
  apply find_map_in.
  - exists (VText name, VInteger z). split; [|by rewrite String.eqb_refl, Hzb].
    assert ((VText name, VInteger z) ∈ filter (λ kv, field_of name kv = true) out) as Hin by (rewrite Ho; by left).
    by apply list_elem_of_filter in Hin as [_ ?].
  - intros [[| | |k| | | | | |] [w| | | | | | | | |]] y Hin; try done. destruct (String.eqb k name) eqn:E; [|done].
    apply String.eqb_eq in E as ->.
    assert ((VText name, VInteger w) ∈ filter (λ kv, field_of name kv = true) out) as Hin'.
    { apply list_elem_of_filter. split; [unfold field_of; cbn; apply String.eqb_refl|done]. }
    rewrite Ho in Hin'. apply list_elem_of_singleton in Hin'. injection Hin' as ->.
    rewrite Hzb. by intros [= ->].
Qed.

(** Every text of the artifact is shorter than 2^64 bytes, as in memory. *)
Definition optional_ok (o : option string) : bool := from_option text_ok true o.
Definition artifact_ok (a : NormalizedEmailArtifact) : bool :=
  text_ok (mailbox_artifact_ref a) && usize_ok (mailbox_message_index a)
  && list_ok (λ h, text_ok (nh_name h) && text_ok (nh_value h)) (headers a)
  && optional_ok (subject a) && optional_ok (from a) && optional_ok (recipient_context a)
  && optional_ok (date a) && optional_ok (message_id a) && text_ok (email_body a).
Definition fits (a : NormalizedEmailArtifact) : Prop :=
  artifact_ok a = true ∧ schema_version a = NORMALIZED_EMAIL_SCHEMA_VERSION.

Lemma plain_optional name o : text_ok name = true → optional_ok o = true → plain_field (option_text_field name o).
Proof. intros Hn Ho. split; [by exists name|]. by destruct o. Qed.

Lemma fits_plain a : fits a → plain (VMap (artifact_fields a)) = true.
Proof.
  intros [Hok Hv]. unfold artifact_ok in Hok. rewrite !andb_true_iff in Hok. destruct_and! Hok.
  apply plain_map; [cbn; lia|]. unfold artifact_fields. rewrite Hv.
  repeat apply Forall_cons_2; try apply Forall_nil_2; try (by apply plain_optional);
    (split; [eexists; split; reflexivity|]); try done.
  - by apply plain_usize.
  - eapply plain_array; [|done]. intros h [??]%andb_true_iff.
    apply plain_map; [cbn; lia|]. repeat apply Forall_cons_2; try apply Forall_nil_2;
      (split; [eexists; split; reflexivity|done]).
Qed.

Lemma canonical_option_field name o : canonical_entry (option_text_field name o) = Ok (option_text_field name o).
Proof. by destruct o. Qed.

Lemma canonical_artifact a nf : result_mapM canonical_entry (artifact_fields a) = Ok nf →
  filter (λ kv, field_of "body" kv = true) nf = [(VText "body", VText (email_body a))]
  ∧ filter (λ kv, field_of "schema_version" kv = true) nf = [(VText "schema_version", VInteger (schema_version a))].
Proof.
  unfold artifact_fields. set (hl := VArray _). cbn [result_mapM]. rewrite !canonical_option_field.
  destruct (canonical_entry (VText "headers", hl)) as [h|] eqn:Hh; [|done].
  assert (h.1 = VText "headers") as Hk.
  { unfold canonical_entry in Hh. cbn [fst snd] in Hh.
    apply result_bind_ok in Hh as (k&[= <-]&(v&_&[= <-])%result_bind_ok). done. }
  destruct h as [k v]. cbn [fst] in Hk. subst k. cbn. intros [= <-].
  by destruct (subject a), (from a), (recipient_context a), (date a), (message_id a).
Qed.

Lemma render_read {E} path a b store_id : fits a → render_normalized_email (E := E) path a = Ok b →
  ∀ S `{BlockStore S}, normalized_email_body (S := S) b store_id = Ok (email_body a).
Proof.
  intros Hfit Hr S HS. pose proof (fits_plain _ Hfit) as Hp. destruct Hfit as [_ Hv].
  unfold render_normalized_email in Hr.
  apply result_bind_ok in Hr as (v&Hc%map_err_ok&Hw%map_err_ok).
  pose proof (canonicalize_plain _ _ Hc Hp) as Hpv.
  pose proof Hc as (nf&out&Hnf&->&Hperm&_)%canonicalize_ok_inv.
  destruct (canonical_artifact a nf Hnf) as [Hb Hs].
  unfold normalized_email_body. rewrite (from_into _ _ Hpv Hw). cbn [map_err mbind result_bind].
  rewrite (find_text_perm "body" nf out (email_body a) Hperm Hb). cbn [ok_or mbind result_bind].
  rewrite Hv in Hs. rewrite (find_u64_perm "schema_version" nf out NORMALIZED_EMAIL_SCHEMA_VERSION ltac:(done) Hperm Hs). done.
Qed.
End artifacts.

(** ** Resolution *)
Section resolution.
Context {S : Type} `{BlockStoreLaws S} `{CiboriumLaws}.
Abbreviation error := (LocalFilesystemContentResolverError (BlockStoreError S)).

Lemma load_grows (s s' : S) r chunks : grows s s' → load_email_chunks s r = Ok chunks → load_email_chunks s' r = Ok chunks.
Proof.
  intros Hg. unfold load_email_chunks.
  intros (h&Hh&(o&Ho%map_err_ok&(d&Hd%ok_or_ok&Hrest)%result_bind_ok)%result_bind_ok)%result_bind_ok.
  rewrite Hh. cbn [mbind result_bind]. subst o. by rewrite (Hg _ _ Ho).
Qed.

(** Every cached email is the one that the store holds. *)
Definition coherent (s : S) (cache : EmailChunkCache) : Prop :=
  ∀ r chunks, cache !! r = Some chunks → load_email_chunks s r = Ok chunks.

Lemma coherent_grows s s' cache : grows s s' → coherent s cache → coherent s' cache.
Proof. intros Hg Hc r chunks Hr. by eapply load_grows, Hc. Qed.
Lemma coherent_insert s cache r chunks :
  coherent s cache → load_email_chunks s r = Ok chunks → coherent s (<[r := chunks]> cache).
Proof.
  intros Hc Hl r' chunks' Hr. apply lookup_insert_Some in Hr as [[<- <-]|[_ Hr]]; [done|by apply Hc].
Qed.

Lemma resolve_chunk_ok s cache r i chunks :
  coherent s cache → load_email_chunks s r = Ok chunks →
  (resolve_email_chunk s cache r i).2 = Some (pick_chunk r i chunks).
Proof.
  intros Hc Hl. unfold resolve_email_chunk. cbn. destruct (cache !! r) as [chunks'|] eqn:Hr; cbn.
  - specialize (Hc _ _ Hr). congruence.
  - rewrite Hl. cbn. rewrite Hr. done.
Qed.

(** *** Threads

    Any number of calls run at once: a step is a step of one call, or another
    part of the program putting a block. *)
Record call := { c_ref : string; c_index : Z; c_state : resolve_state (S := S) }.
Record system := { store : S; cache : EmailChunkCache; calls : list call }.

Inductive system_step : system → system → Prop :=
| call_step s c cs i k cache' state' :
    cs !! i = Some k → resolve_step s (c_ref k) (c_index k) c (c_state k) = (cache', state') →
    system_step {| store := s; cache := c; calls := cs |}
      {| store := s; cache := cache';
         calls := <[i := {| c_ref := c_ref k; c_index := c_index k; c_state := state' |}]> cs |}
| put_step s c cs b s' r :
    put_versioned b s = (s', r) →
    system_step {| store := s; cache := c; calls := cs |} {| store := s'; cache := c; calls := cs |}.

(** What a call knows, given the store [s0] of the start and the current one. *)
Definition call_ok (s0 s : S) (k : call) : Prop :=
  match c_state k with
  | Lookup | Load => True
  | Insert chunks | Pick chunks => load_email_chunks s (c_ref k) = Ok chunks
  | Done r => ∀ chunks, load_email_chunks s0 (c_ref k) = Ok chunks → r = pick_chunk (c_ref k) (c_index k) chunks
  end.
Definition system_ok (s0 : S) (y : system) : Prop :=
  grows s0 (store y) ∧ coherent (store y) (cache y) ∧ Forall (call_ok s0 (store y)) (calls y).

Lemma call_ok_grows s0 s s' k : grows s s' → call_ok s0 s k → call_ok s0 s' k.
Proof. unfold call_ok. intros Hg. destruct (c_state k); try done; by apply load_grows. Qed.

Lemma system_step_ok s0 y y' : system_step y y' → system_ok s0 y → system_ok s0 y'.
Proof.
  intros Hstep (Hg&Hc&Hk). destruct Hstep as [s c cs i k cache' state' Hi Hrs|s c cs b s' r Hput]; cbn in *; cycle 1.
  { pose proof (put_grows b s s' r Hput) as Hg'. split_and!; cbn; [by etrans|by eapply coherent_grows|].
    eapply Forall_impl; [exact Hk|]. intros k. by apply call_ok_grows. }
  pose proof Hk as Hki. rewrite Forall_lookup in Hki. specialize (Hki _ _ Hi).
  unfold call_ok in Hki.
  assert (coherent s cache' ∧ call_ok s0 s {| c_ref := c_ref k; c_index := c_index k; c_state := state' |}) as [Hc' Hk'].
  { unfold call_ok; cbn. destruct (c_state k) as [| |chunks|chunks|r]; cbn in Hrs.
    - injection Hrs as <- <-. split; [done|]. destruct (c !! c_ref k) eqn:E; [by apply Hc|done].
    - injection Hrs as <- <-. split; [done|]. destruct (load_email_chunks s (c_ref k)) eqn:E; [done|].
      intros chunks Hl. apply (load_grows _ _ _ _ Hg) in Hl. congruence.
    - destruct (c !! c_ref k) as [chunks'|] eqn:E; injection Hrs as <- <-; (split; [|by auto]); [done|].
      by apply coherent_insert.
    - injection Hrs as <- <-. split; [done|]. intros chunks' Hl. apply (load_grows _ _ _ _ Hg) in Hl. congruence.
    - by injection Hrs as <- <-. }
  split_and!; cbn; [done|done|]. by apply Forall_insert.
Qed.

Lemma system_steps_ok s0 y y' : rtc system_step y y' → system_ok s0 y → system_ok s0 y'.
Proof. induction 1 as [|y1 y2 y3 Hs _ IH]; [done|]. intros Hok. by eapply IH, system_step_ok. Qed.

Definition rank (st : resolve_state (S := S)) : nat :=
  match st with Lookup => 4 | Load => 3 | Insert _ => 2 | Pick _ => 1 | Done _ => 0 end.

(** C32. However the steps of concurrent resolutions and of block puts interleave,
    a call whose email was readable at the start finishes, within four steps of
    its own, with the chunk that a call without a cache would read. *)
Theorem resolve_interleaved y y' i k r chunks :
  coherent (store y) (cache y) → Forall (λ k, c_state k = Lookup) (calls y) →
  rtc system_step y y' → calls y' !! i = Some k →
  load_email_chunks (store y) (c_ref k) = Ok chunks →
  (c_state k = Done r → r = pick_chunk (c_ref k) (c_index k) chunks)
  ∧ (rank (c_state k) ≠ 0%nat →
     (rank (resolve_step (store y') (c_ref k) (c_index k) (cache y') (c_state k)).2 < rank (c_state k))%nat).
Proof.
  intros Hc Hk Hsteps Hi Hl.
  assert (system_ok (store y) y) as Hok.
  { split_and!; [done|done|]. eapply Forall_impl; [exact Hk|]. intros k' Hk'. unfold call_ok. by rewrite Hk'. }
  destruct (system_steps_ok _ _ _ Hsteps Hok) as (_&_&Hall).
  rewrite Forall_lookup in Hall. specialize (Hall _ _ Hi). split.
  - intros Hd. unfold call_ok in Hall. rewrite Hd in Hall. by apply Hall.
  - intros Hr. destruct (c_state k); cbn in *; repeat case_match; cbn; lia.
Qed.
End resolution.

(** ** Expansion *)
Section expansion.
Context {S : Type} `{BlockStoreLaws S} `{CiboriumLaws} `{BuildCustomLaws} `{HashDisplayLaws} `{MailParse}.
Abbreviation error := (MailboxExpansionError (BlockStoreError S)).

Lemma store_artifact_ok path mt data (s s' : S) h : store_artifact_block path mt data s = (s', Ok h) →
  ∃ t, artifact_block_type (E := BlockStoreError S) path mt = Ok t ∧ hash_ok h ∧ grows s s'
    ∧ get_decoded h s' = Ok (Some (DecodedV2 (Ok (Custom {| cb_type_name := t; cb_content := payload_map mt data |})))).
Proof.
  unfold store_artifact_block. intros (s1&t&[= <- Ht]&Hrest)%stm_bind_ok.
  apply stm_bind_ok in Hrest as (s2&c&[= <- Hb%map_err_ok]&Hput).
  unfold map_err_stm in Hput. destruct (put_versioned c s) as [s3 [h'|e]] eqn:Hp; [|done]. injection Hput as <- <-.
  destruct (put_ok _ _ _ _ Hp) as [-> Hget]. apply build_custom_fields in Hb as ->.
  exists t. split_and!; [done|apply block_id_ok|by eapply put_grows|done].
Qed.

Lemma store_artifact_grows path mt data (s s' : S) h : store_artifact_block path mt data s = (s', Ok h) → grows s s'.
Proof. by intros (t&_&_&?&_)%store_artifact_ok. Qed.

(** The chunks of a parsed message. *)
Definition mail_body (parsed : ParsedMail) : string := email_body (normalize_email parsed "" 0).
Definition mail_chunks (parsed : ParsedMail) : list text := chunk_email_core (chars (mail_body parsed)).

Definition item_reads (s : S) (item : IndexItem) (chunk : text) : Prop :=
  ∃ r i chunks, item_content_ref item = CEmailChunk r i ∧ load_email_chunks s r = Ok chunks
    ∧ chunks !! Z.to_nat i = Some chunk.

Lemma item_reads_grows s s' item chunk : grows s s' → item_reads s item chunk → item_reads s' item chunk.
Proof. intros Hg (r&i&chunks&?&?&?). exists r, i, chunks. split_and!; [done|by eapply load_grows|done]. Qed.

(** What memory allows: no text reaches 2^64 bytes. *)
Definition mail_fits (parsed : ParsedMail) : Prop :=
  ∀ mailbox_ref i, str_len mailbox_ref = 64 → 0 ≤ i < 2 ^ 64 → fits (normalize_email parsed mailbox_ref i).

Lemma chunk_items_read s r chunks (f : nat → text → IndexItem) :
  load_email_chunks s r = Ok chunks → (∀ i c, item_content_ref (f i c) = CEmailChunk r (Z.of_nat i)) →
  Forall2 (item_reads s) (imap f chunks) chunks.
Proof.
  intros Hl Hf. apply Forall2_same_length_lookup. rewrite length_imap. split; [done|].
  intros i item chunk Hi Hc. rewrite list_lookup_imap, Hc in Hi. injection Hi as <-.
  exists r, (Z.of_nat i), chunks. split_and!; [apply Hf|done|by rewrite Nat2Z.id].
Qed.

Lemma stored_email_loads path (s s' : S) h a data :
  fits a → render_normalized_email (E := BlockStoreError S) path a = Ok data →
  store_artifact_block path ARTIFACT_MEDIA_TYPE_NORMALIZED_EMAIL data s = (s', Ok h) →
  load_email_chunks s' (hash_to_string h) = Ok (chunk_email_core (chars (email_body a))).
Proof.
  intros Hfit Hr Hs. apply store_artifact_ok in Hs as (t&Ht&Hh&_&Hget). injection Ht as <-.
  unfold load_email_chunks. rewrite decode_hash_to_string by done. cbn [ok_or mbind result_bind].
  rewrite Hget. cbn -[normalized_email_body chunk_email_core chars].
  by rewrite (render_read path a data _ Hfit Hr).
Qed.

Lemma expand_message_ok path md mref acc i m (s s' : S) acc' :
  str_len mref = 64 → Z.of_nat i < 2 ^ 64 → (∀ p, parse_mail m = Ok p → mail_fits p) →
  expand_message path md mref acc (i, m) s = (s', Ok acc') →
  grows s s' ∧ ∃ p new, parse_mail m = Ok p ∧ acc' = acc ++ new ∧ Forall2 (item_reads s') new (mail_chunks p).
Proof.
  intros Hm Hi Hfits. unfold expand_message. cbn [fst snd].
  intros (s1&p&[= <- Hp%map_err_ok]&Hrest)%stm_bind_ok.
  apply stm_bind_ok in Hrest as (s2&data&[= <- Hr]&Hrest).
  apply stm_bind_ok in Hrest as (s3&h&Hs&[= <- <-]).
  pose proof (store_artifact_grows _ _ _ _ _ _ Hs) as Hg. split; [done|]. exists p. eexists. split_and!; [done..|].
  apply (chunk_items_read _ (hash_to_string h)); [|done].
  refine (stored_email_loads path s s3 h _ data _ Hr Hs). apply Hfits; [done..|lia].
Qed.

Definition expanded (messages : list (nat * bytes)) (s0 : S) (pre : list (nat * bytes)) (acc : list IndexItem) (s : S) : Prop :=
  grows s0 s ∧ ∃ mails, Forall2 (λ m p, parse_mail m.2 = Ok p) pre mails
    ∧ Forall2 (item_reads s) acc (mails ≫= mail_chunks).

Lemma expansion_items fs path md (s s' : S) ex :
  expand_mailbox_item_with_stats fs path md s = (s', Ok ex) →
  (∀ raw m p, read_file fs path = Ok raw → m ∈ split_mbox_messages raw → parse_mail m = Ok p → mail_fits p) →
  (∀ raw, read_file fs path = Ok raw → len (split_mbox_messages raw) < 2 ^ 64) →
  grows s s' ∧ ∃ raw mails, read_file fs path = Ok raw
    ∧ Forall2 (λ m p, parse_mail m = Ok p) (split_mbox_messages raw) mails
    ∧ message_count ex = len mails
    ∧ Forall2 (item_reads s') (items ex) (mails ≫= mail_chunks).
Proof.
  intros Hrun Hfits Hlen. unfold expand_mailbox_item_with_stats in Hrun.
  apply stm_bind_ok in Hrun as (s1&[]&[= <- _]&Hrun). apply stm_bind_ok in Hrun as (s2&raw&[= <- Hraw%map_err_ok]&Hrun).
  apply stm_bind_ok in Hrun as (s3&[]&[= <- _]&Hrun). apply stm_bind_ok in Hrun as (s4&h&Hs&Hrun).
  apply stm_bind_ok in Hrun as (s5&its&Hfold&[= <- <-]). cbn [items message_count].
  pose proof (store_artifact_grows _ _ _ _ _ _ Hs) as Hg.
  apply store_artifact_ok in Hs as (_&_&Hh&_&_). specialize (Hlen raw Hraw).
  assert (str_len (hash_to_string h) = 64) as Hhl.
  { by apply str_len_hex. }
  set (messages := imap pair (split_mbox_messages raw)) in *.
  assert (∀ i m, (i, m) ∈ messages → Z.of_nat i < 2 ^ 64 ∧ m ∈ split_mbox_messages raw) as Hmsg.
  { intros i m (j&Hj)%list_elem_of_lookup. unfold messages in Hj. rewrite list_lookup_imap in Hj.
    destruct (split_mbox_messages raw !! j) as [m'|] eqn:Hm; [|done]. injection Hj as <- <-.
    split; [|by eapply list_elem_of_lookup_2]. apply lookup_lt_Some in Hm. unfold len in Hlen. lia. }
  assert (expanded messages s4 messages its s5) as (Hg5&mails&Hmails&Hits).
  { revert Hfold. apply (stm_foldl_ok_ind (expanded messages s4)).
    - split; [done|]. exists []. split; constructor.
    - intros pre [i m] post acc s6 s7 acc' Heq (Hg6&mails&Hmails&Hacc) Hstep.
      destruct (Hmsg i m) as [Hi Hm]; [rewrite Heq; set_solver|].
      destruct (expand_message_ok _ _ _ _ _ _ _ _ _ Hhl Hi (λ p, Hfits raw m p Hraw Hm) Hstep)
        as (Hg7&p&new&Hp&->&Hnew).
      split; [by etrans|]. exists (mails ++ [p]). split; [apply Forall2_app; [done|by repeat constructor]|].
      rewrite bind_app. cbn. rewrite app_nil_r. apply Forall2_app; [|done].
      eapply Forall2_impl; [exact Hacc|]. intros ??. by apply item_reads_grows. }
  split; [by etrans|]. exists raw, mails. split; [done|].
  assert (Forall2 (λ m p, parse_mail m = Ok p) (split_mbox_messages raw) mails) as Hms.
  { assert (split_mbox_messages raw = snd <$> messages) as ->.
    { unfold messages. rewrite fmap_imap. symmetry. apply list_eq. intros i. rewrite list_lookup_imap.
      by destruct (split_mbox_messages raw !! i). }
    by apply Forall2_fmap_l. }
  split; [done|]. split; [unfold len; by rewrite (Forall2_length _ _ _ Hms)|done].
Qed.

(** The items are email chunks with the metadata that says so, unless the
    configured metadata names another kind. *)
Lemma chunk_item_metadata md path mref eref a i : (∀ k, md !! "source_kind"%string = Some k → k = "email"%string) →
  leaf_metadata_ok (chunk_item md path mref eref a i).
Proof.
  intros Hmd. unfold leaf_metadata_ok, chunk_item, build_chunk_metadata. cbn [item_content_ref item_metadata]. cbv zeta.
  rewrite !text_map_of_lexongraph, !lookup_union. split_and!.
  all: destruct (subject a), (from a), (recipient_context a), (date a), (message_id a); simplify_map_eq; try done.
  all: destruct (md !! "source_kind"%string) as [k|] eqn:Hk; [by rewrite (Hmd k)|done].
Qed.

Lemma expansion_metadata fs path md (s s' : S) ex : (∀ k, md !! "source_kind"%string = Some k → k = "email"%string) →
  expand_mailbox_item_with_stats fs path md s = (s', Ok ex) → Forall leaf_metadata_ok (items ex).
Proof.
  intros Hmd Hrun. unfold expand_mailbox_item_with_stats in Hrun.
  apply stm_bind_ok in Hrun as (s1&[]&_&Hrun). apply stm_bind_ok in Hrun as (s2&raw&_&Hrun).
  apply stm_bind_ok in Hrun as (s3&[]&_&Hrun). apply stm_bind_ok in Hrun as (s4&h&_&Hrun).
  apply stm_bind_ok in Hrun as (s5&its&Hfold&[= <- <-]). cbn [items]. revert Hfold.
  apply (stm_foldl_ok_ind (λ _ acc _, Forall leaf_metadata_ok acc)); [done|].
  intros pre [i m] post acc s6 s7 acc' _ Hacc Hstep. unfold expand_message in Hstep. cbn [fst snd] in Hstep.
  apply stm_bind_ok in Hstep as (s8&p&_&Hstep). apply stm_bind_ok in Hstep as (s9&data&_&Hstep).
  apply stm_bind_ok in Hstep as (s10&h'&_&[= <- <-]). apply Forall_app. split; [done|].
  apply Forall_forall. intros item (j&Hj)%list_elem_of_lookup. rewrite list_lookup_imap in Hj.
  destruct (_ !! j) as [c|]; [|done]. injection Hj as <-. by apply chunk_item_metadata.
Qed.

(** C17. A successful expansion parses every message of the mailbox, and its items
    are, in order, the chunks of the messages' bodies: each refers to a stored
    artifact from which, in the store as it is then or at any later time, with
    any coherent cache, resolving yields exactly that chunk's text. *)
Theorem expansion_resolves fs path md (s s' : S) ex :
  expand_mailbox_item_with_stats fs path md s = (s', Ok ex) →
  (∀ raw m p, read_file fs path = Ok raw → m ∈ split_mbox_messages raw → parse_mail m = Ok p → mail_fits p) →
  (∀ raw, read_file fs path = Ok raw → len (split_mbox_messages raw) < 2 ^ 64) →
  grows s s' ∧ ∃ raw mails, read_file fs path = Ok raw
    ∧ Forall2 (λ m p, parse_mail m = Ok p) (split_mbox_messages raw) mails
    ∧ message_count ex = len mails
    ∧ Forall2 (λ item chunk, ∀ fs' s'' cache, grows s' s'' → coherent s'' cache →
        (resolve fs' s'' (item_content_ref item) cache).2
        = Some (Ok {| media_type := CHUNK_MEDIA_TYPE; body := utf8 chunk |}))
      (items ex) (mails ≫= mail_chunks).
Proof.
  intros Hrun Hfits Hlen. destruct (expansion_items _ _ _ _ _ _ Hrun Hfits Hlen) as (Hg&raw&mails&Hraw&Hms&Hcount&Hits).
  split; [done|]. exists raw, mails. split; [done|]. split; [done|]. split; [done|].
  eapply Forall2_impl; [exact Hits|]. intros item chunk (r&i&chunks&Hi&Hl&Hc) fs' s'' cache Hgr Hco.
  rewrite Hi. cbn [resolve]. rewrite (resolve_chunk_ok _ _ _ _ chunks Hco) by (by eapply load_grows).
  unfold pick_chunk. by rewrite Hc.
Qed.
End expansion.
