(* ===== verification/MailboxWitness.v ===== *)
(** * The mailbox theorems at concrete inputs

    The mail parser is a toy that takes every message as a plain text body under
    one subject; the store is the one of [Instances.v]. *)

From Stdlib Require Import ZArith Lia Ascii.
From stdpp Require Import base gmap sets strings sorting option list.
From S2P Require Import Prelude Hex Blocks Cbor Text Instances Items SortKey Orders Mailbox Resolver MailboxSpec.
#[local] Open Scope Z_scope.

#[local] Instance toy_mail_parse : MailParse := {|
  parse_mail b := Ok (Mail [("Subject", "Hello")] "text/plain" (Ok (of_bytes b)) (Ok b) []);
  get_first_value l key := find_map (λ kv, if String.eqb kv.1 key then Some kv.2 else None) l
|}.

Definition newline : string := of_bytes [10].
Definition mailbox_text : string :=
  "From a@b" +:+ newline +:+ "One. Two!" +:+ newline +:+ "From c@d" +:+ newline +:+ "Three?" +:+ newline.
Definition toy_files : files := {["in.mbox" := FsFile (Ok (as_bytes mailbox_text))]}.
Definition expand_run : mem_store * result (MailboxExpansionError (BlockStoreError mem_store)) MailboxExpansion :=
  expand_mailbox_item_with_stats toy_files "in.mbox" ∅ (∅ : mem_store).
Definition expansion : MailboxExpansion :=
  match expand_run.2 with Ok e => e | Err _ => {| items := []; message_count := 0 |} end.

Lemma expand_run_ok : expand_run = (expand_run.1, Ok expansion).
Proof. vm_compute. reflexivity. Qed.

Lemma toy_messages : split_mbox_messages (as_bytes mailbox_text)
  = [[79; 110; 101; 46; 32; 84; 119; 111; 33; 10]; [84; 104; 114; 101; 101; 63; 10]].
Proof. vm_compute. reflexivity. Qed.

Lemma toy_read raw : read_file toy_files "in.mbox" = Ok raw → raw = as_bytes mailbox_text.
Proof. unfold read_file, toy_files. rewrite lookup_singleton_eq. by intros [= <-]. Qed.

Lemma toy_fits m p : m ∈ split_mbox_messages (as_bytes mailbox_text) → parse_mail m = Ok p → mail_fits p.
Proof.
  rewrite toy_messages. intros Hm [= <-] r i Hr Hi. split; [|done].
  unfold artifact_ok, text_ok at 1, usize_ok. cbn [mailbox_artifact_ref mailbox_message_index normalize_email].
  rewrite Hr, (proj2 (Z.leb_le 0 i)), (proj2 (Z.ltb_lt i (2 ^ 64))) by lia.
  apply elem_of_cons in Hm as [-> | ->%list_elem_of_singleton]; vm_compute; reflexivity.
Qed.

Lemma expansion_resolves_witness :
  expand_run = (expand_run.1, Ok expansion) ∧ message_count expansion = 2 ∧ length (items expansion) = 2%nat
  ∧ Forall2 (λ item chunk, ∀ cache, coherent expand_run.1 cache →
      (resolve ∅ expand_run.1 (item_content_ref item) cache).2
      = Some (Ok {| media_type := CHUNK_MEDIA_TYPE; body := utf8 chunk |}))
    (items expansion) [lit "One. Two!"; lit "Three?"].
Proof.
  split; [exact expand_run_ok|]. split; [vm_compute; reflexivity|]. split; [vm_compute; reflexivity|].
  destruct (expansion_resolves (S := mem_store) toy_files "in.mbox" ∅ (∅ : mem_store) expand_run.1 expansion expand_run_ok)
    as (_&raw&mails&Hraw&Hmails&_&Hitems).
  - intros raw m p ->%toy_read. apply toy_fits.
  - intros raw ->%toy_read. rewrite toy_messages. done.
  - apply toy_read in Hraw as ->. rewrite toy_messages in Hmails.
    apply Forall2_cons_inv_l in Hmails as (p1&l1&[= <-]&Hmails&->).
    apply Forall2_cons_inv_l in Hmails as (p2&l2&[= <-]&Hmails&->). apply Forall2_nil_inv_l in Hmails as ->.
    match type of Hitems with Forall2 _ _ ?l =>
      assert (l = [lit "One. Two!"; lit "Three?"]) as Hc by (vm_compute; reflexivity) end.
    rewrite Hc in Hitems. eapply Forall2_impl; [exact Hitems|]. intros item chunk Hi cache Hco. by apply Hi.
Defined.

(** ** Canonical CBOR *)
Definition unordered : list (value * value) := [(VText "body", VText "b"); (VText "a", VInteger 1)].
Lemma canonicalize_value_spec_witness :
  canonicalize_value (VMap unordered) = canonicalize_value (VMap (reverse unordered))
  ∧ canonicalize_value (VMap unordered) = Ok (VMap (reverse unordered)).
Proof.
  split; [|vm_compute; reflexivity].
  refine (proj1 (canonicalize_value_spec unordered (reverse unordered) _ _)).
  - repeat constructor.
  - symmetry. apply reverse_Permutation.
Defined.

(** ** Concurrent resolution

    Two calls for the two emails of the expanded mailbox; the first has run to
    its end and the second has looked its email up. *)
Definition ref_of (i : nat) : string :=
  match items expansion !! i with
  | Some item => match item_content_ref item with CEmailChunk r _ => r | _ => "" end
  | None => "" end.
Definition start : system (S := mem_store) :=
  {| store := expand_run.1; cache := ∅;
     calls := [{| c_ref := ref_of 0; c_index := 0; c_state := Lookup |};
               {| c_ref := ref_of 1; c_index := 0; c_state := Lookup |}] |}.

Definition run_call (y : system (S := mem_store)) (i : nat) : system :=
  match calls y !! i with
  | Some k =>
      let '(c, st) := resolve_step (store y) (c_ref k) (c_index k) (cache y) (c_state k) in
      {| store := store y; cache := c;
         calls := <[i := {| c_ref := c_ref k; c_index := c_index k; c_state := st |}]> (calls y) |}
  | None => y
  end.
Lemma run_call_steps y i : rtc system_step y (run_call y i).
Proof.
  unfold run_call. destruct (calls y !! i) as [k|] eqn:Hk; [|done].
  destruct (resolve_step _ _ _ _ _) as [c st] eqn:Hs. apply rtc_once.
  destruct y; cbn in *. by apply (call_step _ _ _ _ k).
Qed.
Lemma run_calls_steps l y : rtc system_step y (foldl run_call y l).
Proof. revert y. induction l as [|i l IH]; intros y; cbn; [done|]. etrans; [apply run_call_steps|apply IH]. Qed.

Definition final : system := foldl run_call start [0; 0; 1; 0; 0]%nat.
Definition first_content : Content := {| media_type := "text/plain"; body := lit "One. Two!" |}.
Definition first_call : call (S := mem_store) :=
  {| c_ref := ref_of 0; c_index := 0; c_state := Done (Ok first_content) |}.
Lemma final_first : calls final !! 0%nat = Some first_call.
Proof. vm_cast_no_check (eq_refl (Some first_call)). Qed.
Lemma first_loads : load_email_chunks (store start) (ref_of 0) = Ok [lit "One. Two!"].
Proof. vm_cast_no_check (eq_refl (Ok (E := LocalFilesystemContentResolverError string) [lit "One. Two!"])). Qed.

Lemma resolve_interleaved_witness : calls final !! 0%nat = Some first_call
  ∧ Ok first_content = pick_chunk (S := mem_store) (ref_of 0) 0 [lit "One. Two!"].
Proof.
  split; [exact final_first|].
  refine (proj1 (resolve_interleaved start final 0 first_call (Ok first_content) [lit "One. Two!"] _ _
    (run_calls_steps _ start) final_first first_loads) eq_refl).
  - intros r c Hr. exfalso. exact (lookup_empty_Some (M := gmap string) r c Hr).
  - by repeat constructor.
Defined.
