(* ===== verification/Snapshot.v ===== *)
(** * Source snapshots ([lexonarchivebuilder-archive-sync], snapshot.rs)

    A source is copied to a directory by [rsync], every file of the directory is
    stored as a block, a manifest names the blocks, and the workflow journal
    records the acquisition and queues one mailbox per file. A journal that has
    completed the acquisition reuses the stored manifest. The directory is the
    tree that [rsync] leaves; [serde_json] is the parameter [ManifestJson]. The
    theorems are in [SnapshotSpec.v]. *)

From Stdlib Require Import ZArith Lia Ascii.
From stdpp Require Import base gmap sets strings sorting option list.
From S2P Require Import Prelude Workflow Hex Blocks Items.
#[local] Open Scope Z_scope.

Definition SNAPSHOT_MANIFEST_SCHEMA_VERSION : Z := 1.
Definition SNAPSHOT_ARTIFACT_BLOCK_TYPE : string := "lexonarchivebuilder/source-snapshot-artifact".

(** ** Errors and data *)
Inductive SourceSnapshotAcquisitionError {E : Type} :=
| EmptySourceUri
| EmptyAcquiredAt
| SourceUriMismatch (journal_source_uri requested_source_uri : string)
| MissingCompletedManifestIdentity
| InvalidManifestBlockId (block_id : string)
| MissingManifestBlock (block_id : string)
| ManifestBlockLegacyVersion (block_id : string) (version : Z)
| ManifestBlockWrongType (block_id type_name : string)
| ManifestBlockMissingContent (block_id : string)
| DecodeManifestBlock (block_id message : string)
| ManifestBlockWrongMediaType (block_id media_type : string)
| CreateSnapshotRoot (path : string) (source : io_error)
| EnumerateSnapshotRoot (path : string) (source : io_error)
| ReadSnapshotFile (path : string) (source : io_error)
| SnapshotPathOutsideRoot (root path : string)
| StoreSnapshotPayload (path : string) (source : E)
| SerializeManifest (source : string)
| ParseManifest (block_id source : string)
| UnsupportedManifestSchemaVersion (block_id : string) (expected actual : Z)
| ManifestSourceUriMismatch (block_id manifest_source_uri requested_source_uri : string)
| StoreManifest (source : E)
| BuildSnapshotBlock (media_type source : string)
| LoadManifest (block_id : string) (source : E)
| UpdateJournal (source : WorkflowJournalError)
| RsyncFailed (detail : string).
Arguments SourceSnapshotAcquisitionError : clear implicits.

Record SourceSnapshotManifestEntry := {
  relative_path : string;
  entry_block_id : string;
  byte_length : Z
}.
Record SourceSnapshotManifest := {
  manifest_schema_version : Z;
  manifest_source_uri : string;
  manifest_snapshot_id : string;
  acquired_at : string;
  manifest_entries : list SourceSnapshotManifestEntry
}.
Record AcquiredSourceSnapshot := {
  acquired_snapshot_id : string;
  manifest_block_id : string;
  manifest : option SourceSnapshotManifest;
  reused_existing : bool
}.

(** [serde_json] on the manifest and on the identity of a snapshot. *)
Class ManifestJson := {
  manifest_to_vec : SourceSnapshotManifest → result string bytes;
  identity_to_vec : string → list SourceSnapshotManifestEntry → result string bytes;
  manifest_from_slice : bytes → result string SourceSnapshotManifest
}.
Class ManifestJsonLaws `{ManifestJson} := manifest_from_to m b :
  manifest_to_vec m = Ok b → manifest_from_slice b = Ok m.

(** ** The directory

    A path is its list of components. [NGone]: [symlink_metadata] fails;
    a directory lists its children in any order, or fails. *)
Abbreviation path := (list string).
Inductive dnode :=
| NGone (e : io_error)
| NSymlink
| NOther
| NFile (content : result io_error bytes)
| NDir (children : result io_error (list (string * dnode))).

Definition display (p : path) : string := join "/" p.

Fixpoint strip_prefix (root p : path) : option path :=
  match root, p with
  | [], _ => Some p
  | r :: root, c :: p => if String.eqb r c then strip_prefix root p else None
  | _, [] => None
  end.

(** ** rsync *)
Definition build_command (source_uri destination : string) : list string :=
  ["-a"; "--delete"; "--partial"; "--"; source_uri; destination].

(** [RsyncRunner::sync]: the outcome, and the tree it leaves. *)
Definition RsyncRunner (E : Type) : Type :=
  string → path → result (SourceSnapshotAcquisitionError E) dnode.

(** [CommandRsyncRunner]: [status] starts a program with arguments and waits;
    [Ok None] is success, [Ok (Some s)] another exit status. *)
Definition command_sync {E} (status : string → list string → result string (option string) * dnode)
    (executable : string) : RsyncRunner E := fun source_uri destination =>
  match status executable (build_command source_uri (display destination)) with
  | (Err error, _) => Err (RsyncFailed ("failed to start " +:+ executable +:+ " for " +:+ source_uri
      +:+ " -> " +:+ display destination +:+ ": " +:+ error))
  | (Ok None, tree) => Ok tree
  | (Ok (Some st), _) => Err (RsyncFailed (executable +:+ " exited with status " +:+ st
      +:+ " while syncing " +:+ source_uri +:+ " -> " +:+ display destination))
  end.

Section snapshot.
Context {S : Type} `{BlockStore S} `{BuildCustom} `{HashDisplay} `{Sha256} `{ManifestJson}.
Abbreviation error := (SourceSnapshotAcquisitionError (BlockStoreError S)).

(** The block store, and the journal behind [&mut]. *)
Abbreviation op A := (stm (S * WorkflowJournal) error A).
Definition on_store {A} (m : stm S error A) : op A := fun s =>
  let '(st, r) := m s.1 in ((st, s.2), r).
Definition on_journal {A} (m : stm WorkflowJournal error A) : op A := fun s =>
  let '(j, r) := m s.2 in ((s.1, j), r).

(** ** Blocks *)
Definition snapshot_block (media_type : string) (body : bytes) : result error CustomBlock :=
  map_err (BuildSnapshotBlock media_type)
    (build_custom_block SNAPSHOT_ARTIFACT_BLOCK_TYPE (payload_map media_type body)).

Definition put_snapshot_block (wrap : BlockStoreError S → error) (media_type : string) (body : bytes)
    : stm S error string :=
  block ← lift (snapshot_block media_type body);
  h ← map_err_stm wrap (put_versioned block);
  mret (hash_to_string h).

Definition custom_block_payload (content : value) (block_id : string) : result error (string * bytes) :=
  match content with
  | VMap fields =>
      media_type ← ok_or (find_text "media_type" fields)
        (DecodeManifestBlock block_id "snapshot custom block content is missing media_type");
      body ← ok_or (find_bytes "body" fields) (ManifestBlockMissingContent block_id);
      Ok (media_type, body)
  | _ => Err (DecodeManifestBlock block_id "snapshot custom block content must be a CBOR map")
  end.

Definition load_source_snapshot_manifest (store : S) (block_id : string) : result error SourceSnapshotManifest :=
  manifest_hash ← ok_or (decode_hash block_id) (InvalidManifestBlockId block_id);
  decoded ← map_err (LoadManifest block_id) (get_decoded manifest_hash store);
  decoded ← ok_or decoded (MissingManifestBlock block_id);
  match decoded with
  | DecodedV1 _ => Err (ManifestBlockLegacyVersion block_id 1)
  | DecodedV2 typed =>
      typed ← map_err (DecodeManifestBlock block_id) typed;
      match typed with
      | Custom custom =>
          reject_if (bool_decide (cb_type_name custom ≠ SNAPSHOT_ARTIFACT_BLOCK_TYPE))
            (ManifestBlockWrongType block_id (cb_type_name custom)) ;;
          '(media_type, body) ← custom_block_payload (cb_content custom) block_id;
          reject_if (bool_decide (media_type ≠ "application/json"))
            (ManifestBlockWrongMediaType block_id media_type) ;;
          manifest ← map_err (ParseManifest block_id) (manifest_from_slice body);
          reject_if (negb (manifest_schema_version manifest =? SNAPSHOT_MANIFEST_SCHEMA_VERSION))
            (UnsupportedManifestSchemaVersion block_id SNAPSHOT_MANIFEST_SCHEMA_VERSION
              (manifest_schema_version manifest)) ;;
          Ok manifest
      | other => Err (ManifestBlockWrongType block_id (typed_block_name other))
      end
  end.

(** ** Collecting the files *)
Definition normalize_relative_path (root p : path) : result error string :=
  match strip_prefix root p with
  | Some relative => Ok (join "/" relative)
  | None => Err (SnapshotPathOutsideRoot (display root) (display p))
  end.

Definition name_le (a b : string * dnode) : Prop := String.le a.1 b.1.
#[export] Instance name_le_dec : RelDecision name_le.
Proof. intros ??. unfold name_le. apply _. Defined.

(** A file becomes a payload block and an entry. *)
Definition store_file (root p : path) (content : result io_error bytes) : stm S error SourceSnapshotManifestEntry :=
  relative ← lift (normalize_relative_path root p);
  data ← lift (map_err (ReadSnapshotFile (display p)) content);
  block_id ← put_snapshot_block (StoreSnapshotPayload (display p)) "application/octet-stream" data;
  mret {| relative_path := relative; entry_block_id := block_id; byte_length := len data |}.

(** [while let Some(path) = pending.pop()]; the head of [pending] is the top. *)
Fixpoint collect_loop (fuel : nat) (root : path) (pending : list (path * dnode))
    (entries : list SourceSnapshotManifestEntry) (s : S)
    : option (S * result error (list SourceSnapshotManifestEntry)) :=
  match pending with
  | [] => Some (s, Ok entries)
  | (p, node) :: pending =>
      match fuel with
      | O => None
      | Datatypes.S fuel =>
          match node with
          | NGone e => Some (s, Err (EnumerateSnapshotRoot (display p) e))
          | NSymlink | NOther => collect_loop fuel root pending entries s
          | NFile content =>
              match store_file root p content s with
              | (s, Err e) => Some (s, Err e)
              | (s, Ok entry) => collect_loop fuel root pending (entries ++ [entry]) s
              end
          | NDir (Err e) => Some (s, Err (EnumerateSnapshotRoot (display p) e))
          | NDir (Ok children) =>
              collect_loop fuel root
                (((λ c, (p ++ [c.1], c.2)) <$> merge_sort name_le children) ++ pending) entries s
          end
      end
  end.

(** The number of nodes bounds the iterations. *)
Fixpoint tree_size (node : dnode) : nat :=
  match node with
  | NDir (Ok children) =>
      Datatypes.S ((fix sum (l : list (string * dnode)) :=
        match l with [] => O | c :: l => (tree_size c.2 + sum l)%nat end) children)
  | _ => 1
  end.

Definition collect_snapshot_entries (root : path) (tree : dnode) (s : S)
    : S * result error (list SourceSnapshotManifestEntry) :=
  match collect_loop (tree_size tree) root [(root, tree)] [] s with
  | Some p => p
  | None => (s, Err (EnumerateSnapshotRoot (display root) (IoError OtherKind "out of fuel")))
  end.

Definition derive_source_snapshot_id (source_uri : string) (entries : list SourceSnapshotManifestEntry)
    : result string string :=
  data ← identity_to_vec source_uri entries;
  Ok (hex_encode (sha256_digest data)).

Definition mailbox_work_item_id (relative_path : string) : string := "mailbox:" +:+ relative_path.

Definition queue_mailboxes (entries : list SourceSnapshotManifestEntry) : stm WorkflowJournal error unit :=
  stm_iter (λ entry, map_err_stm UpdateJournal
    (queue_work KMailboxAdmission (mailbox_work_item_id (relative_path entry)))) entries.

(** ** Updates of [journal.source_snapshot] *)
Definition with_snapshot_id (id : string) (s : SourceSnapshotState) : SourceSnapshotState :=
  {| Workflow.source_snapshot_id := id; Workflow.source_uri := source_uri s;
     acquisition_started_at := acquisition_started_at s; acquisition_completed_at := acquisition_completed_at s;
     corpus_manifest_identity := corpus_manifest_identity s; additional_provenance := additional_provenance s |}.
Definition started_snapshot (at_ : string) (s : SourceSnapshotState) : SourceSnapshotState :=
  {| Workflow.source_snapshot_id := source_snapshot_id s; Workflow.source_uri := source_uri s;
     acquisition_started_at := Some at_; acquisition_completed_at := None;
     corpus_manifest_identity := None; additional_provenance := ∅ |}.
Definition completed_snapshot (id at_ block_id : string) (entry_count : Z) (s : SourceSnapshotState)
    : SourceSnapshotState :=
  {| Workflow.source_snapshot_id := id; Workflow.source_uri := source_uri s;
     acquisition_started_at := acquisition_started_at s; acquisition_completed_at := Some at_;
     corpus_manifest_identity := Some block_id;
     additional_provenance :=
       <["entry_count" := fmt_usize entry_count]>
         (<["manifest_block_id" := block_id]>
           (<["storage_seam" := "block-store"]> (additional_provenance s))) |}.
Definition update_snapshot (f : SourceSnapshotState → SourceSnapshotState) : stm WorkflowJournal error unit :=
  modify (λ j, set_source_snapshot (f (source_snapshot j)) j).
Definition stage_to (stage : WorkflowStage) : stm WorkflowJournal error unit := modify (set_current_stage stage).

(** ** Acquisition *)

(** The journal has completed the acquisition. *)
Definition reuse_source_snapshot (source_uri : string) : op AcquiredSourceSnapshot :=
  identity ← on_journal (gets (λ j, corpus_manifest_identity (source_snapshot j)));
  block_id ← lift (ok_or identity MissingCompletedManifestIdentity);
  store ← on_store (gets id);
  manifest ← lift (load_source_snapshot_manifest store block_id);
  lift (reject_if (bool_decide (manifest_source_uri manifest ≠ source_uri))
    (ManifestSourceUriMismatch block_id (manifest_source_uri manifest) source_uri)) ;;
  on_journal (update_snapshot (with_snapshot_id (manifest_snapshot_id manifest))) ;;
  stage ← on_journal (gets current_stage);
  (if bool_decide (stage = SourceAcquisition) || bool_decide (stage = StageMailboxAdmission)
   then on_journal (queue_mailboxes (manifest_entries manifest)) else mret ()) ;;
  (if bool_decide (stage = SourceAcquisition) then on_journal (stage_to StageMailboxAdmission) else mret ()) ;;
  mret {| acquired_snapshot_id := manifest_snapshot_id manifest; manifest_block_id := block_id;
          manifest := Some manifest; reused_existing := true |}.

(** The journal has not: [create_root] is the outcome of [create_dir_all]. *)
Definition fresh_source_snapshot (create_root : result io_error unit) (runner : RsyncRunner (BlockStoreError S))
    (source_uri : string) (snapshot_root : path) (at_ : string) : op AcquiredSourceSnapshot :=
  lift (map_err (CreateSnapshotRoot (display snapshot_root)) create_root) ;;
  on_journal (stage_to SourceAcquisition) ;;
  on_journal (update_snapshot (started_snapshot at_)) ;;
  tree ← lift (runner source_uri snapshot_root);
  entries ← on_store (collect_snapshot_entries snapshot_root tree);
  snapshot_id ← lift (map_err SerializeManifest (derive_source_snapshot_id source_uri entries));
  let manifest := {| manifest_schema_version := SNAPSHOT_MANIFEST_SCHEMA_VERSION;
    manifest_source_uri := source_uri; manifest_snapshot_id := snapshot_id;
    acquired_at := at_; manifest_entries := entries |} in
  manifest_bytes ← lift (map_err SerializeManifest (manifest_to_vec manifest));
  block_id ← on_store (put_snapshot_block StoreManifest "application/json" manifest_bytes);
  on_journal (update_snapshot (completed_snapshot snapshot_id at_ block_id (len entries))) ;;
  on_journal (queue_mailboxes entries) ;;
  on_journal (stage_to StageMailboxAdmission) ;;
  mret {| acquired_snapshot_id := snapshot_id; manifest_block_id := block_id;
          manifest := Some manifest; reused_existing := false |}.

Definition acquire_source_snapshot (create_root : result io_error unit) (runner : RsyncRunner (BlockStoreError S))
    (requested_uri : string) (snapshot_root : path) (requested_at : string) : op AcquiredSourceSnapshot :=
  let uri := trim requested_uri in
  lift (reject_if (bool_decide (uri = "")) EmptySourceUri) ;;
  let at_ := trim requested_at in
  lift (reject_if (bool_decide (at_ = "")) EmptyAcquiredAt) ;;
  journal_uri ← on_journal (gets (λ j, source_uri (source_snapshot j)));
  lift (reject_if (bool_decide (trim journal_uri ≠ uri)) (SourceUriMismatch journal_uri uri)) ;;
  completed_at ← on_journal (gets (λ j, acquisition_completed_at (source_snapshot j)));
  match completed_at with
  | Some _ => reuse_source_snapshot uri
  | None => fresh_source_snapshot create_root runner uri snapshot_root at_
  end.
End snapshot.
