(* ===== verification/SnapshotSpec.v ===== *)
(** * What a source snapshot is

    The collection of [Snapshot.v] lists the files of the directory tree in a
    fixed order and stores each one; an acquisition leaves a journal whose
    completed snapshot is readable, and acquiring again reuses it. The lemmas on
    trimming UTF-8 text come first. *)

From Stdlib Require Import ZArith Lia Ascii.
From stdpp Require Import base gmap sets strings sorting option list.
From S2P Require Import Prelude Workflow WorkflowSpec Hex Blocks Items Snapshot.
#[local] Open Scope Z_scope.

(** * Trimming UTF-8 text *)
Lemma trim_start_cons a l1 : trim_start_bytes (a :: l1) =
  if ws1 a then trim_start_bytes l1 else
  match l1 with
  | [] => [a]
  | b :: l2 => if ws2 a b then trim_start_bytes l2 else
      match l2 with
      | [] => [a; b]
      | c :: l3 => if ws3 a b c then trim_start_bytes l3 else a :: b :: c :: l3
      end
  end.
Proof. destruct l1 as [|b [|c l3]]; reflexivity. Qed.

Lemma trim_end_cons a l1 : trim_end_rev (a :: l1) =
  if ws1 a then trim_end_rev l1 else
  match l1 with
  | [] => [a]
  | b :: l2 => if ws2 b a then trim_end_rev l2 else
      match l2 with
      | [] => [a; b]
      | c :: l3 => if ws3 c b a then trim_end_rev l3 else a :: b :: c :: l3
      end
  end.
Proof. destruct l1 as [|b [|c l3]]; reflexivity. Qed.

Lemma trim_start_cases l :
  trim_start_bytes l = l ∨ ∃ k, trim_start_bytes l = trim_start_bytes k ∧ (length k < length l)%nat.
Proof.
  destruct l as [|a l1]; [by left|]. rewrite trim_start_cons. repeat case_match; subst; try (by left);
    right; eexists; (split; [reflexivity|cbn; lia]).
Qed.

Lemma trim_end_cases l :
  trim_end_rev l = l ∨ ∃ k, trim_end_rev l = trim_end_rev k ∧ k `suffix_of` l ∧ (length k < length l)%nat.
Proof.
  destruct l as [|a l1]; [by left|]. rewrite trim_end_cons. repeat case_match; subst; try (by left);
    right; eexists; (split_and!; [reflexivity| |cbn; lia]).
  - by exists [a].
  - by exists [a; z].
  - by exists [a; z; z0].
Qed.

Lemma trim_start_idemp l : trim_start_bytes (trim_start_bytes l) = trim_start_bytes l.
Proof.
  remember (length l) as n eqn:Hn. revert l Hn. induction (lt_wf n) as [n _ IH]. intros l ->.
  destruct (trim_start_cases l) as [Hl|(k&->&Hk)]; [by rewrite !Hl|]. by eapply IH.
Qed.

Lemma trim_end_spec l :
  trim_end_rev (trim_end_rev l) = trim_end_rev l ∧ trim_end_rev l `suffix_of` l.
Proof.
  remember (length l) as n eqn:Hn. revert l Hn. induction (lt_wf n) as [n _ IH]. intros l ->.
  destruct (trim_end_cases l) as [Hl|(k&->&Hs&Hk)]; [by rewrite !Hl|].
  destruct (IH _ Hk k eq_refl) as [Hi Hsk]. split; [done|]. by etrans.
Qed.

(** What does not start with white space has no prefix that does. *)
Lemma trim_start_prefix l k : trim_start_bytes l = l → k `prefix_of` l → trim_start_bytes k = k.
Proof.
  intros Hl [r ->]. destruct k as [|a k]; [done|].
  assert (∀ m, length (trim_start_bytes m) ≤ length m)%nat as Hlen.
  { intros m. remember (length m) as n eqn:Hn. revert m Hn. induction (lt_wf n) as [n _ IH]. intros m ->.
    destruct (trim_start_cases m) as [->|(k'&->&Hk)]; [done|]. pose proof (IH _ Hk k' eq_refl). lia. }
  assert (∀ m x, trim_start_bytes m = x ++ m → x = []) as Hgrow.
  { intros m x Hm. pose proof (Hlen m) as Hle. rewrite Hm, length_app in Hle. by destruct x; [|cbn in Hle; lia]. }
  cbn [app] in Hl. rewrite trim_start_cons in Hl |- *. destruct k as [|b [|c k]]; cbn [app] in Hl;
    repeat case_match; simplify_eq; try done; try congruence; exfalso.
  all: first [by apply (Hgrow _ [a]) in Hl | by apply (Hgrow _ [a; b]) in Hl | by apply (Hgrow _ [a; b; c]) in Hl].
Qed.

Lemma trim_bytes_idemp l : trim_bytes (trim_bytes l) = trim_bytes l.
Proof.
  unfold trim_bytes. set (t := trim_start_bytes l).
  destruct (trim_end_spec (reverse t)) as [Hi [p Hp]].
  rewrite (trim_start_prefix t), reverse_involutive, Hi; [done|apply trim_start_idemp|].
  exists (reverse p). by rewrite <-reverse_app, <-Hp, reverse_involutive.
Qed.

Lemma trim_start_suffix l : trim_start_bytes l `suffix_of` l.
Proof.
  remember (length l) as n eqn:Hn. revert l Hn. induction (lt_wf n) as [n _ IH]. intros [|a l1] ->; [done|].
  assert (∀ k p, a :: l1 = p ++ k → (length k < length (a :: l1))%nat → trim_start_bytes k `suffix_of` a :: l1) as Hk.
  { intros k p Hp Hlt. transitivity k; [by eapply IH|by exists p]. }
  rewrite trim_start_cons. repeat case_match; subst; try done;
    first [by apply (Hk _ [a]); [|cbn; lia] | by apply (Hk _ [a; z]); [|cbn; lia]
          | by apply (Hk _ [a; z; z0]); [|cbn; lia]].
Qed.

Lemma trim_bytes_byte l : Forall is_byte l → Forall is_byte (trim_bytes l).
Proof.
  intros Hl. unfold trim_bytes. apply Forall_reverse.
  destruct (trim_end_spec (reverse (trim_start_bytes l))) as [_ [p Hp]].
  destruct (trim_start_suffix l) as [q Hq]. rewrite Hq in Hl. apply Forall_app in Hl as [_ Hl].
  apply Forall_reverse in Hl. rewrite Hp in Hl. by apply Forall_app in Hl as [_ Hl].
Qed.

Lemma trim_idemp s : trim (trim s) = trim s.
Proof.
  unfold trim. rewrite as_bytes_of_bytes by (apply trim_bytes_byte, as_bytes_byte). by rewrite trim_bytes_idemp.
Qed.

(** ** Printable ASCII *)
Definition printable (z : Z) : Prop := 33 ≤ z < 127.

Lemma trim_start_printable l : Forall printable l → trim_start_bytes l = l.
Proof.
  destruct 1 as [|a l Ha Hl]; [done|]. rewrite trim_start_cons. unfold ws1, ws2, ws3, printable in *.
  repeat case_match; try done; exfalso; lia.
Qed.

Lemma trim_end_printable l : Forall printable l → trim_end_rev l = l.
Proof.
  destruct 1 as [|a l Ha Hl]; [done|]. rewrite trim_end_cons. unfold ws1, ws2, ws3, printable in *.
  repeat case_match; try done; exfalso; lia.
Qed.

Lemma trim_printable l : Forall printable l → trim_bytes l = l.
Proof.
  intros Hl. unfold trim_bytes.
  rewrite trim_start_printable by done. rewrite trim_end_printable by (by apply Forall_reverse).
  apply reverse_involutive.
Qed.

Lemma printable_filled l : Forall printable l → l ≠ [] → blank (of_bytes l) = false.
Proof.
  intros Hl Hne. apply bool_decide_eq_false. unfold trim.
  assert (Forall is_byte l) as Hb by (eapply Forall_impl; [exact Hl|unfold printable, is_byte; lia]).
  rewrite as_bytes_of_bytes, trim_printable by done. by destruct l.
Qed.

Lemma hex_printable l : Forall is_byte l → Forall printable (hex_encode_bytes l).
Proof.
  unfold hex_encode_bytes. induction 1 as [|b l Hb Hl IH]; cbn; [constructor|].
  pose proof (nibbles_byte b Hb) as [??].
  repeat (apply Forall_cons_2; [unfold printable, hex_digit; case_match; lia|]). done.
Qed.

Lemma hex_filled h : hash_ok h → blank (hex_encode h) = false.
Proof.
  intros [Hl Hb]. apply printable_filled; [by apply hex_printable|].
  intros Hn%(f_equal length). rewrite length_hex_encode_bytes in Hn. cbn in Hn. lia.
Qed.

(** A byte that is not white space stays. *)
Lemma trim_end_keeps l : Exists printable l → trim_end_rev l ≠ [].
Proof.
  remember (length l) as n eqn:Hn. revert l Hn. induction (lt_wf n) as [n _ IH]. intros [|a l] -> Hl; [inversion Hl|].
  assert (∀ p k, a :: l = p ++ k → (length k < length (a :: l))%nat → Forall (λ z, ¬ printable z) p →
    trim_end_rev k ≠ []) as Hk.
  { intros p k Hp Hlt Hnp. eapply IH; [done|done|]. rewrite Hp, Exists_app in Hl. destruct Hl as [Hl|Hl]; [|done].
    rewrite Exists_exists in Hl. destruct Hl as (z&Hz&Hpz). rewrite Forall_forall in Hnp. by destruct (Hnp z Hz). }
  rewrite trim_end_cons. unfold ws1, ws2, ws3 in *. repeat case_match; subst; try done.
  - apply (Hk [a]); [done|cbn; lia|]. repeat apply Forall_cons_2; [unfold printable; lia|constructor].
  - apply (Hk [a; z]); [done|cbn; lia|]. repeat apply Forall_cons_2; [unfold printable; lia..|constructor].
  - apply (Hk [a; z; z0]); [done|cbn; lia|]. repeat apply Forall_cons_2; [unfold printable; lia..|constructor].
Qed.

Lemma printable_head_filled s c : printable (byte_of_ascii c) → blank (String c s) = false.
Proof.
  intros Hc. apply bool_decide_eq_false. unfold trim. change (as_bytes (String c s)) with (byte_of_ascii c :: as_bytes s).
  unfold trim_bytes. assert (trim_start_bytes (byte_of_ascii c :: as_bytes s) = byte_of_ascii c :: as_bytes s) as ->.
  { rewrite trim_start_cons. unfold ws1, ws2, ws3, printable in *. repeat case_match; subst; try done; exfalso; lia. }
  pose proof (trim_end_keeps (reverse (byte_of_ascii c :: as_bytes s))) as Hk.
  intros Hn. apply Hk.
  { apply Exists_exists. exists (byte_of_ascii c). split; [|done]. apply elem_of_reverse. by left. }
  destruct (trim_end_rev _) as [|z l]; [done|]. rewrite reverse_cons, of_bytes_app in Hn.
  by destruct (of_bytes (reverse l)).
Qed.

(** ** The files of a tree

    [lists rel node files]: no operation on [node] fails, and [files] are the
    regular files below it, with their paths below [rel], the children of a
    directory in the order of their names. *)
Inductive lists : path → dnode → list (path * bytes) → Prop :=
| lists_symlink rel : lists rel NSymlink []
| lists_other rel : lists rel NOther []
| lists_file rel data : lists rel (NFile (Ok data)) [(rel, data)]
| lists_dir rel children files :
    lists_all rel (merge_sort name_le children) files → lists rel (NDir (Ok children)) files
with lists_all : path → list (string * dnode) → list (path * bytes) → Prop :=
| lists_nil rel : lists_all rel [] []
| lists_cons rel name node children files1 files2 :
    lists (rel ++ [name]) node files1 → lists_all rel children files2 →
    lists_all rel ((name, node) :: children) (files1 ++ files2).

Scheme lists_mut := Minimality for lists Sort Prop
  with lists_all_mut := Minimality for lists_all Sort Prop.
Combined Scheme lists_ind2 from lists_mut, lists_all_mut.

(** Two trees with the same files, each directory listed in any order. *)
Inductive same_tree : dnode → dnode → Prop :=
| same_leaf node : same_tree node node
| same_dir children1 children2 children :
    children ≡ₚ children2 → NoDup children2.*1 → same_children children1 children →
    same_tree (NDir (Ok children1)) (NDir (Ok children2))
with same_children : list (string * dnode) → list (string * dnode) → Prop :=
| same_nil : same_children [] []
| same_cons name node1 node2 l1 l2 :
    same_tree node1 node2 → same_children l1 l2 → same_children ((name, node1) :: l1) ((name, node2) :: l2).

(** ** The pending stack *)
Fixpoint pending_size (l : list (path * dnode)) : nat :=
  match l with [] => O | c :: l => (tree_size c.2 + pending_size l)%nat end.

Inductive lists_pending : list (path * dnode) → list (path * bytes) → Prop :=
| pending_nil : lists_pending [] []
| pending_cons rel node l files1 files2 :
    lists rel node files1 → lists_pending l files2 → lists_pending ((rel, node) :: l) (files1 ++ files2).

Lemma lists_pending_app l1 l2 files :
  lists_pending (l1 ++ l2) files ↔
    ∃ files1 files2, files = files1 ++ files2 ∧ lists_pending l1 files1 ∧ lists_pending l2 files2.
Proof.
  revert files. induction l1 as [|[rel node] l1 IH]; intros files; cbn.
  { split; [intros Hl; by exists [], files; repeat constructor|]. by intros (?&?&->&Hn&?); inversion Hn; subst. }
  split.
  - inversion 1 as [|? ? ? f1 f2 H1 H2]; subst. apply IH in H2 as (g1&g2&->&Hg1&Hg2).
    exists (f1 ++ g1), g2. by rewrite app_assoc; repeat constructor.
  - intros (g1&g2&->&Hg1&Hg2). inversion Hg1 as [|? ? ? f1 f2 H1 H2]; subst.
    rewrite <-app_assoc. constructor; [done|]. apply IH. eauto.
Qed.

Lemma lists_pending_children rel children files :
  lists_pending ((λ c, (rel ++ [c.1], c.2)) <$> children) files ↔ lists_all rel children files.
Proof.
  revert files. induction children as [|[name node] l IH]; intros files; cbn.
  - split; by inversion 1; constructor.
  - split; inversion 1; subst; constructor; try done; by apply IH.
Qed.

Lemma pending_size_app l1 l2 : pending_size (l1 ++ l2) = (pending_size l1 + pending_size l2)%nat.
Proof. induction l1; cbn; lia. Qed.

Lemma tree_size_dir children : tree_size (NDir (Ok children)) =
  Datatypes.S (pending_size ((λ c, ([c.1], c.2)) <$> children)).
Proof. cbn. f_equal. induction children as [|c l IH]; cbn; [done|]. by rewrite IH. Qed.

Lemma pending_size_perm (f : string * dnode → path) l l' :
  l ≡ₚ l' → pending_size ((λ c, (f c, c.2)) <$> l) = pending_size ((λ c, (f c, c.2)) <$> l').
Proof. induction 1; cbn; lia. Qed.
Lemma pending_size_path (f g : string * dnode → path) l :
  pending_size ((λ c, (f c, c.2)) <$> l) = pending_size ((λ c, (g c, c.2)) <$> l).
Proof. induction l; cbn; lia. Qed.
Lemma pending_size_children p children l :
  (pending_size (((λ c, (p ++ [c.1], c.2)) <$> merge_sort name_le children) ++ l) <
   tree_size (NDir (Ok children)) + pending_size l)%nat.
Proof.
  rewrite pending_size_app, tree_size_dir.
  rewrite (pending_size_perm (λ c, p ++ [c.1]) _ _ (merge_sort_Permutation _ _)).
  rewrite (pending_size_path (λ c, p ++ [c.1]) (λ c, [c.1])). lia.
Qed.
Lemma tree_size_pos node : (0 < tree_size node)%nat.
Proof. destruct node as [| | | |[|]]; cbn; lia. Qed.

Lemma strip_prefix_app root rel : strip_prefix root (root ++ rel) = Some rel.
Proof. induction root as [|r root IH]; cbn; [by destruct rel|]. by rewrite String.eqb_refl. Qed.

(** ** Determinism *)
Lemma lists_fun_mut :
  (∀ rel node files, lists rel node files → ∀ files', lists rel node files' → files = files')
  ∧ (∀ rel l files, lists_all rel l files → ∀ files', lists_all rel l files' → files = files').
Proof.
  apply lists_ind2.
  - intros rel files'. by inversion 1.
  - intros rel files'. by inversion 1.
  - intros rel data files'. by inversion 1.
  - intros rel children files _ IH files'. inversion 1; subst. by apply IH.
  - intros rel files'. by inversion 1.
  - intros rel name node children f1 f2 _ IH1 _ IH2 files'. inversion 1; subst. f_equal; [by apply IH1|by apply IH2].
Qed.

Scheme same_tree_mut := Minimality for same_tree Sort Prop
  with same_children_mut := Minimality for same_children Sort Prop.
Combined Scheme same_tree_ind2 from same_tree_mut, same_children_mut.

Definition agree (a b : string * dnode) : Prop :=
  a.1 = b.1 ∧ ∀ rel f1 f2, lists rel a.2 f1 → lists rel b.2 f2 → f1 = f2.

Lemma lists_all_agree rel l1 l2 f1 f2 :
  Forall2 agree l1 l2 → lists_all rel l1 f1 → lists_all rel l2 f2 → f1 = f2.
Proof.
  intros Hl. revert f1 f2. induction Hl as [|[n1 t1] [n2 t2] l1 l2 [Hn Ha] _ IH]; intros f1 f2 H1 H2;
    inversion H1; inversion H2; subst; [done|]. cbn in *. subst. f_equal; [by eapply Ha|by apply IH].
Qed.

(** Sorting forgets the order of a directory. *)
Lemma name_sorted l : StronglySorted name_le (merge_sort name_le l).
Proof.
  apply StronglySorted_merge_sort.
  - intros a b c. unfold name_le. apply (transitivity (R := String.le)).
  - intros a b. unfold name_le. apply (total String.le).
Qed.

Lemma agree_names l k : Forall2 agree l k → l.*1 = k.*1.
Proof. induction 1 as [|a b l k [Hn _] _ IH]; [done|]. cbn. by rewrite Hn, IH. Qed.

Lemma names_sorted l : StronglySorted name_le l ↔ StronglySorted String.le l.*1.
Proof.
  induction l as [|a l IH]; cbn; [by split; constructor|]. split; intros [Hl Ha]%StronglySorted_inv.
  - constructor; [by apply IH|]. by apply Forall_fmap.
  - constructor; [by apply IH|]. by rewrite Forall_fmap in Ha.
Qed.

Lemma sorted_agree children1 children children2 :
  Forall2 agree children1 children → children ≡ₚ children2 → NoDup children2.*1 →
  Forall2 agree (merge_sort name_le children1) (merge_sort name_le children2).
Proof.
  intros Ha Hp Hn.
  destruct (Permutation_Forall2 (symmetry (merge_sort_Permutation name_le children1)) Ha) as (l&Hl&Hs).
  assert (l = merge_sort name_le children2) as <-; [|done].
  assert (l ≡ₚ children2) as Hl2 by (by rewrite <-Hl).
  apply (StronglySorted_unique_strong name_le).
  - intros [n1 t1] [n2 t2] H1 H2 Hle1 Hle2. rewrite Hl2 in H1. rewrite merge_sort_Permutation in H2.
    assert (n1 = n2) as <- by (by apply (anti_symm String.le)).
    pose proof (elem_of_list_to_map_1 (M := gmap string) _ _ _ Hn H1) as M1.
    pose proof (elem_of_list_to_map_1 (M := gmap string) _ _ _ Hn H2) as M2. by simplify_eq.
  - apply names_sorted. rewrite <-(agree_names _ _ Hs). apply names_sorted, name_sorted.
  - apply name_sorted.
  - by rewrite Hl2, merge_sort_Permutation.
Qed.

Lemma same_tree_lists node1 node2 rel files1 files2 :
  same_tree node1 node2 → lists rel node1 files1 → lists rel node2 files2 → files1 = files2.
Proof.
  intros Hs. revert rel files1 files2.
  enough (((∀ node1 node2, same_tree node1 node2 →
    ∀ rel f1 f2, lists rel node1 f1 → lists rel node2 f2 → f1 = f2) ∧
    (∀ l1 l2, same_children l1 l2 → Forall2 agree l1 l2))) as [Ht _] by (by apply Ht).
  clear. apply same_tree_ind2.
  - intros node rel f1 f2 H1 H2. destruct lists_fun_mut as [Hf _]. by eapply Hf.
  - intros c1 c2 c Hp Hn _ IH rel f1 f2 H1 H2. inversion H1; inversion H2; subst.
    eapply lists_all_agree; [|done..]. by eapply sorted_agree.
  - constructor.
  - intros name node1 node2 l1 l2 _ IH1 _ IH2. constructor; [done|done].
Qed.

(** ** Collection *)
Section snapshot_spec.
Context {S : Type} `{BlockStoreLaws S} `{BuildCustomLaws} `{HashDisplayLaws} `{Sha256Laws} `{ManifestJsonLaws}.
Abbreviation error := (SourceSnapshotAcquisitionError (BlockStoreError S)).

Definition snapshot_custom (media_type : string) (data : bytes) : CustomBlock :=
  {| cb_type_name := SNAPSHOT_ARTIFACT_BLOCK_TYPE; cb_content := payload_map media_type data |}.
Definition snapshot_block_id (media_type : string) (data : bytes) : block_hash :=
  block_id_of S (snapshot_custom media_type data).
Definition stored (s : S) (media_type : string) (data : bytes) : Prop :=
  get_decoded (snapshot_block_id media_type data) s = Ok (Some (DecodedV2 (Ok (Custom (snapshot_custom media_type data))))).

(** The entry of a file, its block's id being a function of its bytes. *)
Definition snapshot_entry (file : path * bytes) : SourceSnapshotManifestEntry :=
  {| relative_path := join "/" file.1;
     entry_block_id := hash_to_string (snapshot_block_id "application/octet-stream" file.2);
     byte_length := len file.2 |}.

(** What a put can fail with. *)
Definition put_error (e : error) : Prop :=
  (∃ media_type source, e = BuildSnapshotBlock media_type source)
  ∨ (∃ p source, e = StoreSnapshotPayload p source) ∨ (∃ source, e = StoreManifest source).

Lemma put_snapshot_block_ok wrap media_type data (s s' : S) (id : string) :
  put_snapshot_block wrap media_type data s = (s', Ok id : result error string) →
  id = hash_to_string (snapshot_block_id media_type data) ∧ stored s' media_type data.
Proof.
  unfold put_snapshot_block, snapshot_block.
  intros (s1&block&[-> Hb%map_err_ok%build_custom_fields]%lift_ok&(s2&h&Hp&[= <- <-])%stm_bind_ok)%stm_bind_ok.
  unfold map_err_stm in Hp. destruct (put_versioned block s) as [s3 [h'|e]] eqn:Hput; [|done].
  injection Hp as <- <-. subst block. apply put_ok in Hput as [-> Hget]. done.
Qed.

Lemma put_snapshot_block_grows wrap media_type data (s : S) :
  grows s (put_snapshot_block wrap media_type data s : S * result error string).1.
Proof.
  unfold put_snapshot_block. apply stm_bind_inv; [apply _|reflexivity|]. intros block s1.
  apply stm_bind_inv; [apply _| |reflexivity]. unfold map_err_stm.
  destruct (put_versioned block s1) as [s2 r] eqn:Hp. by eapply put_grows.
Qed.

Lemma store_file_ok root rel data (s s' : S) (entry : SourceSnapshotManifestEntry) :
  store_file root (root ++ rel) (Ok data) s = (s', Ok entry : result error _) →
  entry = snapshot_entry (rel, data) ∧ stored s' "application/octet-stream" data.
Proof.
  unfold store_file, normalize_relative_path. rewrite strip_prefix_app.
  intros (s1&r&[-> [= <-]]%lift_ok&(s2&d&[-> [= <-]]%lift_ok&(s3&id&Hp&[= <- <-])%stm_bind_ok)%stm_bind_ok)%stm_bind_ok.
  by apply put_snapshot_block_ok in Hp as [-> Hs].
Qed.

Lemma store_file_grows root p content (s : S) : grows s (store_file root p content s : S * result error _).1.
Proof.
  unfold store_file. apply stm_bind_inv; [apply _|reflexivity|]. intros r s1.
  apply stm_bind_inv; [apply _|reflexivity|]. intros d s2.
  apply stm_bind_inv; [apply _|apply put_snapshot_block_grows|reflexivity].
Qed.

Lemma store_file_io root p content (s s' : S) (entry : SourceSnapshotManifestEntry) :
  store_file root p content s = (s', Ok entry : result error _) → ∃ data, content = Ok data.
Proof.
  unfold store_file. intros (s1&r&_&(s2&d&[_ Hd%map_err_ok]%lift_ok&_)%stm_bind_ok)%stm_bind_ok. eauto.
Qed.

Lemma store_file_err root rel data (s s' : S) e :
  store_file root (root ++ rel) (Ok data) s = (s', Err e : result error _) → put_error e.
Proof.
  unfold store_file, normalize_relative_path. rewrite strip_prefix_app. cbn.
  unfold put_snapshot_block, snapshot_block, mbind, stm_bind, lift, map_err_stm, put_error. cbn.
  destruct (build_custom_block _ _) as [block|msg]; cbn; [|intros [= _ <-]; eauto].
  destruct (put_versioned block s) as [s1 [h|x]]; cbn; [done|]. intros [= _ <-]. eauto.
Qed.

Definition rooted (root : path) (l : list (path * dnode)) : list (path * dnode) :=
  (λ c, (root ++ c.1, c.2)) <$> l.

Lemma rooted_cons root rel node l : rooted root ((rel, node) :: l) = (root ++ rel, node) :: rooted root l.
Proof. done. Qed.

Lemma rooted_children root rel children l :
  ((λ c, ((root ++ rel) ++ [c.1], c.2)) <$> merge_sort name_le children) ++ rooted root l
  = rooted root (((λ c, (rel ++ [c.1], c.2)) <$> merge_sort name_le children) ++ l).
Proof.
  unfold rooted. rewrite fmap_app. f_equal. rewrite <-list_fmap_compose. apply list_fmap_ext.
  intros i [name node] _. cbn. by rewrite app_assoc.
Qed.

Lemma pending_size_rooted root l : pending_size (rooted root l) = pending_size l.
Proof. unfold rooted. induction l as [|c l IH]; cbn; [done|]. by rewrite IH. Qed.

(** The loop ends within the number of nodes. *)
Lemma collect_loop_total fuel root l entries (s : S) : (pending_size l ≤ fuel)%nat →
  is_Some (collect_loop fuel root (rooted root l) entries s : option (S * result error _)).
Proof.
  revert l entries s. induction fuel as [|fuel IH]; intros [|[rel node] l] entries s Hl; rewrite ?rooted_cons; cbn [collect_loop]; try (by eexists).
  { cbn in Hl. pose proof (tree_size_pos node). lia. }
  pose proof (tree_size_pos node) as Hpos. cbn [pending_size snd] in Hl.
  destruct node as [e| | |content|[children|e]]; try (by eexists); try (apply IH; lia).
  - destruct (store_file _ _ content s) as [s1 [entry|e]]; [apply IH; lia|by eexists].
  - rewrite rooted_children. apply IH. pose proof (pending_size_children rel children l). lia.
Qed.

Lemma collect_loop_grows fuel root l entries (s s' : S) r :
  collect_loop fuel root l entries s = Some (s', r : result error _) → grows s s'.
Proof.
  revert l entries s. induction fuel as [|fuel IH]; intros [|[p node] l] entries s; cbn; try (by intros [= -> _]).
  destruct node as [e| | |content|[children|e]]; try (by intros [= -> _]); try apply IH.
  pose proof (store_file_grows root p content s) as Hg.
  destruct (store_file root p content s) as [s1 [entry|e]]; [|by intros [= <- _]].
  intros Hr. etrans; [exact Hg|]. by eapply IH.
Qed.

(** A collection that succeeds lists the tree and stores every file. *)
Lemma collect_loop_ok fuel root l entries (s s' : S) new :
  collect_loop fuel root (rooted root l) entries s = Some (s', Ok new : result error _) →
  ∃ files, lists_pending l files ∧ new = entries ++ (snapshot_entry <$> files)
    ∧ Forall (λ file, stored s' "application/octet-stream" file.2) files.
Proof.
  revert l entries s. induction fuel as [|fuel IH]; intros [|[rel node] l] entries s; rewrite ?rooted_cons; cbn [collect_loop]; [|done| |].
  1,2: intros [= -> <-]; exists []; rewrite app_nil_r; repeat constructor.
  destruct node as [e| | |content|[children|e]]; [done|..|done].
  - intros (files&Hf&->&Hs)%IH. exists ([] ++ files). split_and!; [by repeat constructor|done..].
  - intros (files&Hf&->&Hs)%IH. exists ([] ++ files). split_and!; [by repeat constructor|done..].
  - destruct (store_file root (root ++ rel) content s) as [s1 [entry|e]] eqn:Hsf; [|done].
    destruct (store_file_io _ _ _ _ _ _ Hsf) as [data ->]. apply store_file_ok in Hsf as [-> Hst].
    intros Hr. pose proof (collect_loop_grows _ _ _ _ _ _ _ Hr) as Hg. apply IH in Hr as (files&Hf&->&Hs).
    exists ([(rel, data)] ++ files). split_and!; [by repeat constructor|by rewrite <-app_assoc|].
    apply Forall_cons_2; [by apply Hg|done].
  - rewrite rooted_children. intros (files&(f1&f2&->&Hf1&Hf2)%lists_pending_app&->&Hs)%IH.
    exists (f1 ++ f2). split_and!; [|done..]. constructor; [|done]. constructor. by apply lists_pending_children in Hf1.
Qed.

(** On a tree without I/O failures only a put fails. *)
Lemma collect_loop_err fuel root l entries files (s s' : S) e :
  lists_pending l files →
  collect_loop fuel root (rooted root l) entries s = Some (s', Err e : result error _) → put_error e.
Proof.
  revert l entries files s. induction fuel as [|fuel IH]; intros [|[rel node] l] entries files s Hl; rewrite ?rooted_cons; cbn [collect_loop]; [done..|].
  inversion Hl as [|? ? ? f1 f2 Hn Hrest]; subst.
  destruct node as [e'| | |content|[children|e']]; [by inversion Hn|by eapply IH..| | |by inversion Hn].
  - inversion Hn; subst. destruct (store_file _ _ _ s) as [s1 [entry|e1]] eqn:Hsf; [by eapply IH|].
    intros [= _ <-]. by eapply store_file_err.
  - rewrite rooted_children. eapply IH. apply lists_pending_app. eexists _, _. split_and!; [done| |done].
    apply lists_pending_children. by inversion Hn.
Qed.

Lemma collect_entries_run root tree (s : S) : ∃ s' (r : result error _),
  collect_loop (tree_size tree) root [(root, tree)] [] s = Some (s', r)
  ∧ collect_snapshot_entries root tree s = (s', r).
Proof.
  destruct (collect_loop_total (tree_size tree) root [([], tree)] [] s) as [[s' r] Hr]; [cbn; lia|].
  unfold rooted in Hr. cbn in Hr. rewrite app_nil_r in Hr. exists s', r.
  unfold collect_snapshot_entries. by rewrite Hr.
Qed.

Lemma collect_entries_ok root tree (s s' : S) entries :
  collect_snapshot_entries root tree s = (s', Ok entries : result error _) →
  ∃ files, lists [] tree files ∧ entries = snapshot_entry <$> files
    ∧ Forall (λ file, stored s' "application/octet-stream" file.2) files.
Proof.
  destruct (collect_entries_run root tree s) as (s1&r&Hr&->). intros [= -> ->].
  assert (rooted root [([], tree)] = [(root, tree)]) as Hroot by (unfold rooted; cbn; by rewrite app_nil_r).
  rewrite <-Hroot in Hr. apply collect_loop_ok in Hr as (files&Hl&->&Hs).
  inversion Hl as [|? ? ? f1 f2 Hf Hnil]; subst. inversion Hnil; subst. rewrite app_nil_r in *. eauto.
Qed.

Lemma collect_entries_grows root tree (s : S) :
  grows s (collect_snapshot_entries root tree s : S * result error _).1.
Proof.
  destruct (collect_entries_run root tree s) as (s'&r&Hr&->). by eapply collect_loop_grows.
Qed.

(** The collection of a snapshot's files: its loop ends within as many
    iterations as the tree has nodes; it only adds blocks to the store; when it
    succeeds its entries are the regular files in name order, each with its
    length and the id of a stored block that holds its bytes; and on a tree
    whose files can all be read it fails only where storing a block fails. *)
Theorem collect_snapshot_entries_spec root tree (s s' : S) (r : result error _) :
  collect_snapshot_entries root tree s = (s', r) →
  collect_loop (tree_size tree) root [(root, tree)] [] s = Some (s', r) ∧ grows s s' ∧
  match r with
  | Ok entries => ∃ files, lists [] tree files ∧ entries = snapshot_entry <$> files
      ∧ Forall (λ file, stored s' "application/octet-stream" file.2) files
  | Err e => ∀ files, lists [] tree files → put_error e
  end.
Proof.
  intros Hc. pose proof (collect_entries_grows root tree s) as Hg. rewrite Hc in Hg.
  destruct (collect_entries_run root tree s) as (s1&r1&Hr&Hc1). rewrite Hc in Hc1. injection Hc1 as <- <-.
  split_and!; [done|done|]. destruct r as [entries|e]; [by eapply collect_entries_ok|]. intros files Hf.
  eapply (collect_loop_err (tree_size tree) root [([], tree)] [] (files ++ []));
    [by repeat constructor|]. unfold rooted. cbn [fmap list_fmap fst snd]. by rewrite app_nil_r.
Qed.

(** C37. The id of a snapshot is reproducible: two collections of trees with the
    same files, whatever the order in which the directories are enumerated,
    whatever the stores and wherever the roots, give the same entries, and so
    the same id. *)
Theorem snapshot_id_reproducible root1 root2 tree1 tree2 (s1 s1' s2 s2' : S) entries1 entries2 uri :
  same_tree tree1 tree2 →
  collect_snapshot_entries root1 tree1 s1 = (s1', Ok entries1 : result error _) →
  collect_snapshot_entries root2 tree2 s2 = (s2', Ok entries2 : result error _) →
  entries1 = entries2 ∧ derive_source_snapshot_id uri entries1 = derive_source_snapshot_id uri entries2.
Proof.
  intros Ht (files1&Hf1&->&_)%collect_entries_ok (files2&Hf2&->&_)%collect_entries_ok.
  by rewrite (same_tree_lists _ _ _ _ _ Ht Hf1 Hf2).
Qed.

(** ** The manifest *)
Lemma snapshot_block_id_ok media_type data : hash_ok (snapshot_block_id media_type data).
Proof. apply block_id_ok. Qed.

Lemma load_stored (s : S) m data :
  stored s "application/json" data → manifest_to_vec m = Ok data →
  manifest_schema_version m = SNAPSHOT_MANIFEST_SCHEMA_VERSION →
  load_source_snapshot_manifest s (hash_to_string (snapshot_block_id "application/json" data))
  = (Ok m : result error _).
Proof.
  intros Hs Hm Hv. unfold load_source_snapshot_manifest.
  rewrite decode_hash_to_string by apply snapshot_block_id_ok. cbn. rewrite Hs. cbn.
  apply manifest_from_to in Hm. by rewrite Hm; cbn; rewrite Hv.
Qed.

Lemma load_manifest_grows (s s' : S) id m : grows s s' →
  load_source_snapshot_manifest s id = (Ok m : result error _) →
  load_source_snapshot_manifest s' id = (Ok m : result error _).
Proof.
  intros Hg. unfold load_source_snapshot_manifest. destruct (decode_hash id) as [h|]; cbn; [|done].
  destruct (get_decoded h s) as [[d|]|e] eqn:Hd; cbn; [|done..]. by rewrite (Hg _ _ Hd).
Qed.

(** ** The queue of mailboxes *)
Definition mailbox_ids (entries : list SourceSnapshotManifestEntry) : list string :=
  (λ entry, mailbox_work_item_id (relative_path entry)) <$> entries.
Definition set_mailboxes (ids : list string) (j : WorkflowJournal) : WorkflowJournal :=
  set_work (set_inventory KMailboxAdmission (foldl inventory_queue (mailbox_admission (work j)) ids) (work j)) j.

Lemma mailbox_filled p : filled (mailbox_work_item_id p).
Proof. apply (printable_head_filled _ "m"). by split; vm_compute. Qed.

Lemma queue_one id j : filled id →
  map_err_stm UpdateJournal (queue_work KMailboxAdmission id) j = (set_mailboxes [id] j, Ok () : result error unit).
Proof. intros Hid. unfold map_err_stm, queue_work. by rewrite (owned_filled _ _ Hid). Qed.

Lemma set_mailboxes_cons id ids j : set_mailboxes (id :: ids) j = set_mailboxes ids (set_mailboxes [id] j).
Proof. done. Qed.

Lemma queue_mailboxes_run entries j :
  queue_mailboxes entries j = (set_mailboxes (mailbox_ids entries) j, Ok () : result error unit).
Proof.
  unfold queue_mailboxes. revert j. induction entries as [|entry entries IH]; intros j.
  { unfold set_mailboxes. cbn. unfold mret, stm_ret. by destruct j as [? ? ? ? ? ? []]. }
  cbn [stm_iter]. rewrite (stm_bind_run _ _ _ _ _ (queue_one _ j (mailbox_filled _))), IH. done.
Qed.

Lemma structural_set_mailboxes ids j : Forall filled ids → structural j → structural (set_mailboxes ids j).
Proof.
  intros Hids. revert j. induction Hids as [|id ids Hid _ IH]; intros j Hj.
  { unfold set_mailboxes. cbn. by destruct j as [? ? ? ? ? ? []]. }
  rewrite set_mailboxes_cons. apply IH. pose proof (structural_queue_work KMailboxAdmission id j Hj) as Hq.
  unfold queue_work in Hq. by rewrite (owned_filled _ _ Hid) in Hq.
Qed.

Lemma mailbox_ids_filled entries : Forall filled (mailbox_ids entries).
Proof. apply Forall_fmap, Forall_true. intros entry. apply mailbox_filled. Qed.

Lemma queue_absorb inv id : id ∈ pending inv ∪ completed inv → inventory_queue inv id = inv.
Proof.
  intros Hid. unfold inventory_queue. case_decide as Hc; [done|]. destruct inv as [p c]; cbn in *. f_equal. set_solver.
Qed.

Lemma foldl_queue_incl ids inv :
  pending inv ∪ completed inv ⊆ pending (foldl inventory_queue inv ids) ∪ completed (foldl inventory_queue inv ids).
Proof.
  revert inv. induction ids as [|id ids IH]; intros inv; cbn; [done|]. etrans; [|apply IH].
  unfold inventory_queue. case_decide; cbn; set_solver.
Qed.

Lemma foldl_queue_mem ids inv id : id ∈ ids →
  id ∈ pending (foldl inventory_queue inv ids) ∪ completed (foldl inventory_queue inv ids).
Proof.
  revert inv. induction ids as [|i ids IH]; intros inv Hid; [inversion Hid|].
  apply elem_of_cons in Hid as [->|Hid]; [|by apply IH]. cbn. apply foldl_queue_incl.
  unfold inventory_queue. case_decide; cbn; set_solver.
Qed.

Lemma foldl_queue_absorb ids inv :
  Forall (λ id, id ∈ pending inv ∪ completed inv) ids → foldl inventory_queue inv ids = inv.
Proof. induction 1 as [|id ids Hid _ IH]; cbn; [done|]. by rewrite queue_absorb. Qed.

Definition queued (ids : list string) (j : WorkflowJournal) : Prop :=
  Forall (λ id, id ∈ pending (mailbox_admission (work j)) ∪ completed (mailbox_admission (work j))) ids.

Lemma set_mailboxes_queued ids j : queued ids (set_mailboxes ids j).
Proof. apply Forall_forall. intros id Hid. by apply foldl_queue_mem. Qed.

Lemma set_mailboxes_id ids j : queued ids j → set_mailboxes ids j = j.
Proof.
  intros Hq. unfold set_mailboxes. rewrite foldl_queue_absorb by done. by destruct j as [? ? ? ? ? ? []].
Qed.

(** ** The reuse of a completed acquisition *)
Definition early (stage : WorkflowStage) : bool :=
  bool_decide (stage = SourceAcquisition) || bool_decide (stage = StageMailboxAdmission).
Definition reused (m : SourceSnapshotManifest) (j : WorkflowJournal) : WorkflowJournal :=
  let j1 := set_source_snapshot (with_snapshot_id (manifest_snapshot_id m) (source_snapshot j)) j in
  let j2 := if early (current_stage j) then set_mailboxes (mailbox_ids (manifest_entries m)) j1 else j1 in
  if bool_decide (current_stage j = SourceAcquisition) then set_current_stage StageMailboxAdmission j2 else j2.
Definition reuse_result (id : string) (m : SourceSnapshotManifest) : AcquiredSourceSnapshot :=
  {| acquired_snapshot_id := manifest_snapshot_id m; manifest_block_id := id; manifest := Some m;
     reused_existing := true |}.

Lemma on_journal_run {A} (m : stm WorkflowJournal error A) (s : S) j :
  on_journal m (s, j) = ((s, (m j).1), (m j).2).
Proof. unfold on_journal. cbn. by destruct (m j). Qed.
Lemma on_store_run {A} (m : stm S error A) (s : S) (j : WorkflowJournal) :
  on_store m (s, j) = (((m s).1, j), (m s).2).
Proof. unfold on_store. cbn. by destruct (m s). Qed.

Lemma reuse_tail m id (s : S) j :
  (on_journal (update_snapshot (with_snapshot_id (manifest_snapshot_id m))) ;;
   stage ← on_journal (gets current_stage);
   (if early stage then on_journal (queue_mailboxes (manifest_entries m)) else mret ()) ;;
   (if bool_decide (stage = SourceAcquisition) then on_journal (stage_to StageMailboxAdmission) else mret ()) ;;
   mret (reuse_result id m)) (s, j) = ((s, reused m j), Ok (reuse_result id m) : result error _).
Proof.
  unfold update_snapshot, stage_to, modify, gets, mbind, stm_bind.
  rewrite !on_journal_run. cbn. unfold reused, early.
  repeat case_bool_decide; cbn; rewrite ?on_journal_run, ?queue_mailboxes_run; cbn; rewrite ?on_journal_run; done.
Qed.

Lemma bind_eq {St E A B} (m : stm St E A) (f : A → stm St E B) s :
  (m ≫= f) s = match m s with (s1, Ok a) => f a s1 | (s1, Err e) => (s1, Err e) end.
Proof. done. Qed.

Lemma reuse_eq uri (s : S) j : reuse_source_snapshot uri (s, j) =
  match corpus_manifest_identity (source_snapshot j) with
  | None => ((s, j), Err MissingCompletedManifestIdentity)
  | Some id =>
      match load_source_snapshot_manifest s id with
      | Err e => ((s, j), Err e)
      | Ok m =>
          if bool_decide (manifest_source_uri m ≠ uri)
          then ((s, j), Err (ManifestSourceUriMismatch id (manifest_source_uri m) uri))
          else ((s, reused m j), Ok (reuse_result id m) : result error _)
      end
  end.
Proof.
  unfold reuse_source_snapshot. rewrite bind_eq, on_journal_run. cbn [gets fst snd].
  destruct (corpus_manifest_identity (source_snapshot j)) as [id|]; [|done].
  rewrite !bind_eq. cbn [lift ok_or]. rewrite bind_eq, on_store_run. cbn [gets fst snd Datatypes.id].
  rewrite bind_eq. cbn [lift]. destruct (load_source_snapshot_manifest s id) as [m|e]; [|done].
  rewrite bind_eq. cbn [lift]. unfold reject_if. case_bool_decide; [done|].
  fold (reuse_result id m). apply reuse_tail.
Qed.

Lemma reuse_inv uri (s s' : S) j j' (r : result error AcquiredSourceSnapshot) :
  reuse_source_snapshot uri (s, j) = ((s', j'), r) →
  s' = s ∧ match r with
  | Ok a => ∃ id m, corpus_manifest_identity (source_snapshot j) = Some id
      ∧ load_source_snapshot_manifest s id = (Ok m : result error _)
      ∧ manifest_source_uri m = uri ∧ j' = reused m j ∧ a = reuse_result id m
  | Err _ => j' = j
  end.
Proof.
  rewrite reuse_eq. destruct (corpus_manifest_identity _) as [id|]; [|by intros [= <- <- <-]].
  destruct (load_source_snapshot_manifest s id) as [m|e] eqn:Hm; [|by intros [= <- <- <-]].
  case_bool_decide as Hu; intros [= <- <- <-]; [done|]. split; [done|].
  exists id, m. split_and!; done.
Qed.

Lemma reuse_run uri (s : S) j id m :
  corpus_manifest_identity (source_snapshot j) = Some id →
  load_source_snapshot_manifest s id = (Ok m : result error _) → manifest_source_uri m = uri →
  reuse_source_snapshot uri (s, j) = ((s, reused m j), Ok (reuse_result id m) : result error _).
Proof. intros Hid Hm Hu. rewrite reuse_eq, Hid, Hm, bool_decide_false; [done|]. intros Hn. by apply Hn. Qed.

(** ** A fresh acquisition *)
Definition interrupted (at_ : string) (j : WorkflowJournal) : WorkflowJournal :=
  set_source_snapshot (started_snapshot at_ (source_snapshot j)) (set_current_stage SourceAcquisition j).
Definition acquired (at_ id block_id : string) (entries : list SourceSnapshotManifestEntry) (j : WorkflowJournal)
    : WorkflowJournal :=
  let j1 := interrupted at_ j in
  set_current_stage StageMailboxAdmission (set_mailboxes (mailbox_ids entries)
    (set_source_snapshot (completed_snapshot id at_ block_id (len entries) (source_snapshot j1)) j1)).
Definition fresh_manifest (uri at_ id : string) (entries : list SourceSnapshotManifestEntry) : SourceSnapshotManifest :=
  {| manifest_schema_version := SNAPSHOT_MANIFEST_SCHEMA_VERSION; manifest_source_uri := uri;
     manifest_snapshot_id := id; acquired_at := at_; manifest_entries := entries |}.

Lemma fresh_inv create runner uri root at_ (s s' : S) j j' (r : result error AcquiredSourceSnapshot) :
  fresh_source_snapshot create runner uri root at_ (s, j) = ((s', j'), r) →
  grows s s' ∧ match r with
  | Ok a => ∃ tree s1 entries id data, runner uri root = Ok tree
      ∧ collect_snapshot_entries root tree s = (s1, Ok entries) ∧ grows s1 s'
      ∧ derive_source_snapshot_id uri entries = Ok id
      ∧ manifest_to_vec (fresh_manifest uri at_ id entries) = Ok data ∧ stored s' "application/json" data
      ∧ let block_id := hash_to_string (snapshot_block_id "application/json" data) in
        j' = acquired at_ id block_id entries j
        ∧ a = {| acquired_snapshot_id := id; manifest_block_id := block_id;
                 manifest := Some (fresh_manifest uri at_ id entries); reused_existing := false |}
  | Err _ => j' = j ∨ j' = interrupted at_ j
  end.
Proof.
  unfold fresh_source_snapshot. rewrite bind_eq. cbn [lift].
  destruct (map_err _ create) as [u|e]; [|intros [= <- <- <-]; split; [done|by auto]].
  rewrite bind_eq, on_journal_run, bind_eq, on_journal_run. cbn [stage_to update_snapshot modify fst snd].
  change (set_source_snapshot _ _) with (interrupted at_ j).
  rewrite bind_eq. cbn [lift]. destruct (runner uri root) as [tree|e] eqn:Hrun; [|intros [= <- <- <-]; split; [done|by auto]].
  rewrite bind_eq, on_store_run. pose proof (collect_entries_grows root tree s) as Hg.
  destruct (collect_snapshot_entries root tree s) as [s1 [entries|e]] eqn:Hc; cbn [fst snd] in *;
    [|intros [= <- <- <-]; split; [done|by auto]].
  rewrite bind_eq. cbn [lift]. destruct (derive_source_snapshot_id uri entries) as [id|e] eqn:Hd; cbn [map_err];
    [|intros [= <- <- <-]; split; [done|by auto]].
  fold (fresh_manifest uri at_ id entries). rewrite bind_eq. cbn [lift].
  destruct (manifest_to_vec _) as [data|e] eqn:Hm; cbn [map_err]; [|intros [= <- <- <-]; split; [done|by auto]].
  rewrite bind_eq, on_store_run. pose proof (put_snapshot_block_grows StoreManifest "application/json" data s1) as Hg2.
  destruct (put_snapshot_block _ _ _ s1) as [s2 [id2|e]] eqn:Hp; cbn [fst snd] in *;
    [|intros [= <- <- <-]; split; [by etrans|by auto]].
  rewrite bind_eq, on_journal_run. cbn [update_snapshot modify fst snd].
  rewrite bind_eq, on_journal_run, queue_mailboxes_run. cbn [fst snd].
  rewrite bind_eq, on_journal_run. cbn [stage_to modify fst snd].
  apply put_snapshot_block_ok in Hp as [-> Hs]. intros [= <- <- <-]. split; [by etrans|].
  by exists tree, s1, entries, id, data.
Qed.

Lemma acquired_settled uri at_ id block_id entries j :
  reused (fresh_manifest uri at_ id entries) (acquired at_ id block_id entries j) = acquired at_ id block_id entries j.
Proof.
  unfold reused. cbn. change (with_snapshot_id _ _) with (source_snapshot (acquired at_ id block_id entries j)).
  assert (∀ j : WorkflowJournal, set_source_snapshot (source_snapshot j) j = j) as -> by (by intros []).
  apply set_mailboxes_id. unfold acquired. apply set_mailboxes_queued.
Qed.

Lemma reused_idemp m j : reused m (reused m j) = reused m j.
Proof.
  assert (∀ j, current_stage j ≠ SourceAcquisition →
    source_snapshot_id (source_snapshot j) = manifest_snapshot_id m →
    (early (current_stage j) = true → queued (mailbox_ids (manifest_entries m)) j) → reused m j = j) as Hfix.
  { intros k Hk Hid Hq. unfold reused. rewrite (bool_decide_false _ Hk).
    assert (set_source_snapshot (with_snapshot_id (manifest_snapshot_id m) (source_snapshot k)) k = k) as ->.
    { rewrite <-Hid. by destruct k as [? ? ? ? []]. }
    destruct (early _); [|done]. by apply set_mailboxes_id, Hq. }
  apply Hfix; unfold reused, early; repeat case_bool_decide; try done; cbn; try congruence;
    intros; try apply set_mailboxes_queued; try done.
Qed.

(** ** Acquisition *)
Lemma acquire_eq create runner uri root at_ (s : S) j :
  trim uri ≠ "" → trim at_ ≠ "" → trim (source_uri (source_snapshot j)) = trim uri →
  acquire_source_snapshot create runner uri root at_ (s, j) =
  match acquisition_completed_at (source_snapshot j) with
  | Some _ => reuse_source_snapshot (trim uri) (s, j)
  | None => fresh_source_snapshot create runner (trim uri) root (trim at_) (s, j) : (S * WorkflowJournal) * result error _
  end.
Proof.
  intros Hu Ha Hj. unfold acquire_source_snapshot. rewrite bind_eq. cbn [lift]. unfold reject_if.
  rewrite bool_decide_false by done. cbn [lift]. rewrite bind_eq. cbn [lift]. rewrite bool_decide_false by done.
  rewrite bind_eq, on_journal_run. cbn [gets fst snd]. rewrite bind_eq. cbn [lift].
  rewrite bool_decide_false by (intros Hn; by apply Hn). rewrite bind_eq, on_journal_run. cbn [gets fst snd].
  by destruct (acquisition_completed_at _).
Qed.

Lemma acquire_cases create runner uri root at_ (s s' : S) j j' (r : result error AcquiredSourceSnapshot) :
  acquire_source_snapshot create runner uri root at_ (s, j) = ((s', j'), r) →
  (s' = s ∧ j' = j ∧ ∃ e, r = Err e) ∨
  (trim uri ≠ "" ∧ trim at_ ≠ "" ∧ trim (source_uri (source_snapshot j)) = trim uri).
Proof.
  unfold acquire_source_snapshot. rewrite bind_eq. cbn [lift]. unfold reject_if at 1.
  case_bool_decide; [intros [= <- <- <-]; by eauto|]. rewrite bind_eq. cbn [lift]. unfold reject_if at 1.
  case_bool_decide; [intros [= <- <- <-]; by eauto|].
  rewrite bind_eq, on_journal_run. cbn [gets fst snd]. rewrite bind_eq. cbn [lift]. unfold reject_if.
  case_bool_decide as Hu; [intros [= <- <- <-]; by eauto|]. intros _. right. split_and!; [done..|].
  apply dec_stable. tauto.
Qed.

(** The journal says that the acquisition is complete only when its manifest
    can be read back. *)
Definition snapshot_readable (s : S) (j : WorkflowJournal) : Prop :=
  ∀ t, acquisition_completed_at (source_snapshot j) = Some t → ∃ id m,
    corpus_manifest_identity (source_snapshot j) = Some id
    ∧ load_source_snapshot_manifest s id = (Ok m : result error _) ∧ filled (manifest_snapshot_id m).

Lemma filled_trim s : trim s ≠ "" → filled (trim s).
Proof. intros Hs. apply bool_decide_eq_false. by rewrite trim_idemp. Qed.

Lemma structural_set_snapshot snap j :
  structural j → snapshot_ok snap → structural (set_source_snapshot snap j).
Proof. intros []. by constructor. Qed.

Lemma structural_interrupted at_ j : structural j → filled at_ → structural (interrupted at_ j).
Proof.
  intros Hj Ha. apply structural_set_snapshot; [by apply structural_set_stage|]. destruct Hj. destruct (source_snapshot j).
  match goal with H : snapshot_ok _ |- _ => destruct H end. by constructor.
Qed.

Lemma interrupted_readable (s : S) at_ j : snapshot_readable s (interrupted at_ j).
Proof. done. Qed.

Lemma reused_snapshot m j :
  source_snapshot (reused m j) = with_snapshot_id (manifest_snapshot_id m) (source_snapshot j).
Proof. unfold reused. by repeat case_match. Qed.

Lemma structural_reused m j : structural j → filled (manifest_snapshot_id m) → structural (reused m j).
Proof.
  intros Hj Hm. assert (structural (set_source_snapshot (with_snapshot_id (manifest_snapshot_id m) (source_snapshot j)) j)) as Hj1.
  { apply structural_set_snapshot; [done|]. destruct Hj. destruct (source_snapshot j).
    match goal with H : snapshot_ok _ |- _ => destruct H end. by constructor. }
  assert (structural (set_mailboxes (mailbox_ids (manifest_entries m))
    (set_source_snapshot (with_snapshot_id (manifest_snapshot_id m) (source_snapshot j)) j))) as Hj2
    by (apply structural_set_mailboxes; [apply mailbox_ids_filled|done]).
  unfold reused. repeat case_match; try apply structural_set_stage; done.
Qed.

Lemma derived_filled uri entries id : derive_source_snapshot_id uri entries = Ok id → filled id.
Proof. intros (data&_&[= <-])%result_bind_ok. apply hex_filled, sha256_ok. Qed.

Lemma structural_acquired at_ id data entries j :
  structural j → filled at_ → filled id →
  structural (acquired at_ id (hash_to_string (snapshot_block_id "application/json" data)) entries j).
Proof.
  intros Hj Ha Hid. pose proof (structural_interrupted at_ j Hj Ha) as Hi. unfold acquired.
  apply structural_set_stage, structural_set_mailboxes; [apply mailbox_ids_filled|].
  apply structural_set_snapshot; [done|]. destruct Hi.
  match goal with H : snapshot_ok _ |- _ => destruct H end. constructor; try done. cbn.
  rewrite hash_to_string_hex by apply snapshot_block_id_ok. apply hex_filled, snapshot_block_id_ok.
Qed.

(** C18. Whatever happens during an acquisition (a refused request, an
    unreadable manifest, [rsync] or a file that fails, a store that fails half
    way), it only adds blocks, keeps the structural invariant of the workflow
    journal, and the journal says that the acquisition is complete only when
    the manifest it names can be read back from the store. An acquisition that
    fails leaves the journal as it was, or in the acquisition stage with the
    completion, the manifest and the provenance cleared. *)
Theorem acquire_safe create runner uri root at_ (s s' : S) j j' (r : result error AcquiredSourceSnapshot) :
  structural j → snapshot_readable s j →
  acquire_source_snapshot create runner uri root at_ (s, j) = ((s', j'), r) →
  grows s s' ∧ structural j' ∧ snapshot_readable s' j' ∧
  match r with Ok _ => True | Err _ => j' = j ∨ j' = interrupted (trim at_) j end.
Proof.
  intros Hj Hs Hr. destruct (acquire_cases _ _ _ _ _ _ _ _ _ _ Hr) as [(->&->&e&->)|(Hu&Ha&Hju)]; [split_and!; by auto|].
  rewrite acquire_eq in Hr by done. destruct (acquisition_completed_at _) as [t|] eqn:Hc.
  - apply reuse_inv in Hr as [-> Hr]. destruct r as [a|e]; [|subst; split_and!; by auto].
    destruct Hr as (id&m&Hid&Hm&_&->&_). destruct (Hs t Hc) as (id'&m'&Hid'&Hm'&Hf).
    rewrite Hid in Hid'. injection Hid' as <-. rewrite Hm in Hm'. injection Hm' as <-.
    split_and!; [done|by apply structural_reused| |done]. intros t'. rewrite reused_snapshot. intros _. by exists id, m.
  - apply fresh_inv in Hr as [Hg Hr]. split; [done|]. destruct r as [a|e].
    + destruct Hr as (tree&s1&entries&id&data&_&_&_&Hid&Hm&Hst&->&_). apply derived_filled in Hid.
      split_and!; [apply structural_acquired; [done|by apply filled_trim|done]| |done]. intros t' _.
      eexists _, (fresh_manifest (trim uri) (trim at_) id entries). split_and!; [done| |done]. by apply load_stored.
    + destruct Hr as [-> | ->]; [|split_and!; [apply structural_interrupted; [done|by apply filled_trim]|done|by auto]].
      split_and!; [done| |by auto]. intros t. by rewrite Hc.
Qed.

(** C19. Acquiring twice is acquiring once: after an acquisition that
    succeeds, another one with the same source, at any later time, from any
    directory and with any [rsync], on the same store or on one that has grown,
    succeeds with the same snapshot, manifest and manifest block, runs nothing,
    stores nothing and leaves the journal as it is. *)
Theorem acquire_idempotent create runner uri root at_ (s s' : S) j j' (a : AcquiredSourceSnapshot) :
  acquire_source_snapshot create runner uri root at_ (s, j) = ((s', j'), Ok a : result error _) →
  ∃ m, a = {| acquired_snapshot_id := manifest_snapshot_id m; manifest_block_id := manifest_block_id a;
              manifest := Some m; reused_existing := reused_existing a |} ∧
    load_source_snapshot_manifest s' (manifest_block_id a) = (Ok m : result error _) ∧
    ∀ create2 runner2 uri2 root2 at2 s2, grows s' s2 → trim uri2 = trim uri → trim at2 ≠ "" →
      acquire_source_snapshot create2 runner2 uri2 root2 at2 (s2, j')
      = ((s2, j'), Ok (reuse_result (manifest_block_id a) m) : result error _).
Proof.
  intros Hr. destruct (acquire_cases _ _ _ _ _ _ _ _ _ _ Hr) as [(_&_&e&[=])|(Hu&Ha&Hju)].
  rewrite acquire_eq in Hr by done. destruct (acquisition_completed_at _) as [t|] eqn:Hc.
  - apply reuse_inv in Hr as [-> (id&m&Hid&Hm&Hmu&->&->)]. exists m. split_and!; [done..|].
    intros create2 runner2 uri2 root2 at2 s2 Hg Hu2 Ha2.
    rewrite acquire_eq; rewrite ?reused_snapshot, ?Hu2; [|done..]. cbn. rewrite Hc.
    rewrite (reuse_run _ _ _ id m); [by rewrite reused_idemp| |by eapply load_manifest_grows|done].
    by rewrite reused_snapshot.
  - apply fresh_inv in Hr as [_ (tree&s1&entries&id&data&_&_&_&_&Hm&Hst&->&->)].
    pose proof (load_stored s' _ _ Hst Hm eq_refl) as Hload.
    exists (fresh_manifest (trim uri) (trim at_) id entries). split_and!; [done..|]. intros create2 runner2 uri2 root2 at2 s2 Hg Hu2 Ha2.
    rewrite acquire_eq; rewrite ?Hu2; [|done..]. cbn [acquired acquisition_completed_at].
    erewrite reuse_run; [|done|by eapply load_manifest_grows|done]. by rewrite acquired_settled.
Qed.
End snapshot_spec.
