(* ===== verification/SnapshotWitness.v ===== *)
(** * The snapshot theorems at concrete inputs

    A directory of two mailboxes in a folder, a symbolic link and a file beside
    it; the store is the one of [Instances.v] and the manifest text a CBOR
    array. *)

From Stdlib Require Import ZArith Lia Ascii.
From stdpp Require Import base gmap sets strings sorting option list.
From S2P Require Import Prelude Workflow WorkflowSpec Hex Blocks Cbor Instances Snapshot SnapshotSpec.
#[local] Open Scope Z_scope.

#[local] Instance entry_eq_dec : EqDecision SourceSnapshotManifestEntry.
Proof. solve_decision. Defined.
#[local] Instance manifest_eq_dec : EqDecision SourceSnapshotManifest.
Proof. solve_decision. Defined.

Definition entry_value (e : SourceSnapshotManifestEntry) : value :=
  VArray [VText (relative_path e); VText (entry_block_id e); VInteger (byte_length e)].
Definition value_entry (v : value) : option SourceSnapshotManifestEntry :=
  match v with
  | VArray [VText p; VText i; VInteger n] => Some {| relative_path := p; entry_block_id := i; byte_length := n |}
  | _ => None
  end.
Definition manifest_value (m : SourceSnapshotManifest) : value :=
  VArray [VInteger (manifest_schema_version m); VText (manifest_source_uri m); VText (manifest_snapshot_id m);
    VText (acquired_at m); VArray (entry_value <$> manifest_entries m)].
Definition value_manifest (v : value) : option SourceSnapshotManifest :=
  match v with
  | VArray [VInteger n; VText uri; VText i; VText t; VArray l] =>
      entries ← mapM value_entry l;
      Some {| manifest_schema_version := n; manifest_source_uri := uri; manifest_snapshot_id := i;
              acquired_at := t; manifest_entries := entries |}
  | _ => None
  end.
Definition read_manifest (b : bytes) : result string SourceSnapshotManifest :=
  ok_or ('(v, _) ← decode (length b) b; value_manifest v) "invalid manifest".

(** A manifest that would not read back is refused. *)
#[local] Instance toy_manifest_json : ManifestJson := {|
  manifest_to_vec m :=
    let b := encode (manifest_value m) in
    match read_manifest b with
    | Ok m' => if decide (m = m') then Ok b else Err "not representable"
    | Err e => Err e
    end;
  identity_to_vec uri entries := Ok (encode (VArray [VText uri; VArray (entry_value <$> entries)]));
  manifest_from_slice := read_manifest
|}.
#[local] Instance toy_manifest_json_laws : ManifestJsonLaws.
Proof.
  intros m b. cbn -[encode read_manifest manifest_value].
  destruct (read_manifest _) as [m'|e] eqn:Hm; [|done]. case_decide as Hd; [|done]. intros Hb.
  assert (encode (manifest_value m) = b) as <- by congruence.
  change (read_manifest (encode (manifest_value m)) = Ok m). by rewrite Hm, <-Hd.
Qed.

Definition mbox (s : string) : dnode := NFile (Ok (as_bytes s)).
Definition tree_a : dnode :=
  NDir (Ok [("z.txt", mbox "z"); ("ietf", NDir (Ok [("b.mbox", mbox "B"); ("a.mbox", mbox "A")])); ("link", NSymlink)]).
Definition tree_b : dnode :=
  NDir (Ok [("link", NSymlink); ("z.txt", mbox "z"); ("ietf", NDir (Ok [("a.mbox", mbox "A"); ("b.mbox", mbox "B")]))]).

Abbreviation outcome A := (result (SourceSnapshotAcquisitionError (BlockStoreError mem_store)) A).
Definition collected (root : path) (tree : dnode) : mem_store * outcome (list SourceSnapshotManifestEntry) :=
  collect_snapshot_entries root tree (∅ : mem_store).
Definition entries_a : list SourceSnapshotManifestEntry :=
  match (collected ["tmp"] tree_a).2 with Ok l => l | Err _ => [] end.
Lemma collected_a : collected ["tmp"] tree_a = ((collected ["tmp"] tree_a).1, Ok entries_a).
Proof. vm_compute. reflexivity. Qed.
Lemma collected_b : collected ["mnt"; "x"] tree_b = ((collected ["mnt"; "x"] tree_b).1, Ok entries_a).
Proof. vm_compute. reflexivity. Qed.

Lemma collect_snapshot_entries_spec_witness :
  relative_path <$> entries_a = ["ietf/a.mbox"; "ietf/b.mbox"; "z.txt"] ∧ ∃ files,
    lists [] tree_a files ∧ entries_a = snapshot_entry (S := mem_store) <$> files.
Proof.
  split; [vm_compute; reflexivity|].
  destruct (collect_snapshot_entries_spec (S := mem_store) ["tmp"] tree_a (∅ : mem_store)
    (collected ["tmp"] tree_a).1 (Ok entries_a) collected_a) as (_&_&files&Hf&He&_).
  exists files. split; [exact Hf|exact He].
Defined.

Lemma trees_same : same_tree tree_a tree_b.
Proof.
  eapply (same_dir _ _ [("z.txt", mbox "z");
    ("ietf", NDir (Ok [("a.mbox", mbox "A"); ("b.mbox", mbox "B")])); ("link", NSymlink)]).
  - apply (Permutation_app_comm [_; _] [_]).
  - by apply (bool_decide_unpack (NoDup _)).
  - repeat constructor. eapply (same_dir _ _ [("b.mbox", mbox "B"); ("a.mbox", mbox "A")]).
    + constructor.
    + by apply (bool_decide_unpack (NoDup _)).
    + repeat constructor.
Qed.

Lemma snapshot_id_reproducible_witness :
  derive_source_snapshot_id "uri" entries_a = derive_source_snapshot_id "uri" entries_a ∧ entries_a ≠ [].
Proof.
  split; [|vm_compute; discriminate].
  exact (proj2 (snapshot_id_reproducible (S := mem_store) ["tmp"] ["mnt"; "x"] tree_a tree_b ∅
    (collected ["tmp"] tree_a).1 ∅ (collected ["mnt"; "x"] tree_b).1 entries_a entries_a "uri"
    trees_same collected_a collected_b)).
Defined.

(** ** Acquisitions

    [rsync] succeeds, or the connection is lost. *)
Definition good : RsyncRunner (BlockStoreError mem_store) := λ _ _, Ok tree_a.
Definition lost : RsyncRunner (BlockStoreError mem_store) := λ _ _, Err (RsyncFailed "connection lost").
Definition journal0 : WorkflowJournal := initial_journal sample_init.
Definition acquire_run (runner : RsyncRunner (BlockStoreError mem_store)) :
    (mem_store * WorkflowJournal) * outcome AcquiredSourceSnapshot :=
  acquire_source_snapshot (Ok ()) runner " rsync://ietf/mail " ["tmp"] "now" ((∅ : mem_store), journal0).
Definition journal1 : WorkflowJournal := (acquire_run good).1.2.
Definition acquired1 : AcquiredSourceSnapshot :=
  match (acquire_run good).2 with
  | Ok a => a
  | Err _ => {| acquired_snapshot_id := ""; manifest_block_id := ""; manifest := None; reused_existing := false |}
  end.
Lemma acquire_good : acquire_run good = ((acquire_run good).1.1, journal1, Ok acquired1).
Proof. vm_cast_no_check (eq_refl (acquire_run good)). Qed.
Lemma acquire_lost : acquire_run lost = ((∅, interrupted "now" journal0), Err (RsyncFailed "connection lost")).
Proof. vm_cast_no_check (eq_refl (acquire_run lost)). Qed.

Lemma structural0 : structural journal0.
Proof. apply sample_initial_valid. Qed.

Lemma acquire_safe_witness :
  structural (interrupted "now" journal0) ∧ acquisition_completed_at (source_snapshot (interrupted "now" journal0)) = None
  ∧ structural journal1 ∧ snapshot_readable (acquire_run good).1.1 journal1.
Proof.
  assert (snapshot_readable (∅ : mem_store) journal0) as H0 by (intros t [=]).
  destruct (acquire_safe (S := mem_store) (Ok ()) lost " rsync://ietf/mail " ["tmp"] "now" ∅ _ journal0 _ _
    structural0 H0 acquire_lost) as (_&Hl&_&_).
  destruct (acquire_safe (S := mem_store) (Ok ()) good " rsync://ietf/mail " ["tmp"] "now" ∅ _ journal0 _ _
    structural0 H0 acquire_good) as (_&Hg&Hr&_).
  split; [exact Hl|]. split; [reflexivity|]. split; [exact Hg|exact Hr].
Defined.

Lemma acquire_idempotent_witness : ∃ m,
  acquire_source_snapshot (Ok ()) lost "rsync://ietf/mail" ["elsewhere"] "later" ((acquire_run good).1.1, journal1)
  = ((acquire_run good).1.1, journal1, Ok (reuse_result (manifest_block_id acquired1) m)).
Proof.
  destruct (acquire_idempotent (S := mem_store) (Ok ()) good " rsync://ietf/mail " ["tmp"] "now" ∅ _ journal0 _ _
    acquire_good) as (m&_&_&Hm).
  exists m. apply Hm; [reflexivity|vm_compute; reflexivity|vm_compute; discriminate].
Defined.
