(* ===== verification/Disk.v ===== *)
(** * File systems that fail and crash

    The operations of [std::fs] that write, on a map from paths to contents.
    Every operation consumes one outcome of [outcomes], so it can fail, and
    records the files it leaves in [seen]: these are the states that a crash
    can expose. [triple] is a Hoare triple with an invariant of those states. *)

From Stdlib Require Import ZArith Lia Ascii.
From stdpp Require Import base gmap sets strings sorting option list.
From S2P Require Import Prelude.
#[local] Open Scope Z_scope.

Abbreviation contents := (gmap string bytes).

(** A failed operation; [partial] is what a failed write leaves in its file. *)
Record fault := Fault { fault_error : io_error; partial : bytes }.
Record disk := Disk { on_disk : contents; outcomes : list (option fault); seen : list contents }.

Definition next_outcome (d : disk) : option fault * list (option fault) :=
  match outcomes d with o :: l => (o, l) | [] => (None, []) end.

(** One operation: [ok] when the file system performs it, [failed] otherwise. *)
Definition operation {E A} (ok : contents → contents * result E A)
    (failed : fault → contents → contents * result E A) : stm disk E A := fun d =>
  let '(o, l) := next_outcome d in
  let '(g, r) := match o with Some f => failed f (on_disk d) | None => ok (on_disk d) end in
  (Disk g l (g :: seen d), r).

Definition fail_with {A} (f : fault) (g : contents) : contents * result io_error A := (g, Err (fault_error f)).
Definition not_found {A} : result io_error A := Err (IoError NotFound "No such file or directory").

Abbreviation io A := (stm disk io_error A).

(** [fs::create_dir_all], [sync_all] and opening a directory change no file. *)
Definition touch : io unit := operation (λ g, (g, Ok ())) fail_with.
Definition create_dir_all (dir : string) : io unit := touch.
Definition sync_all (file : string) : io unit := touch.
Definition open_directory (dir : string) : io unit := touch.

(** [fs::write], and [write_all] at the end of an open file. *)
Definition fs_write (p : string) (b : bytes) : io unit :=
  operation (λ g, (<[p := b]> g, Ok ())) (λ f g, (<[p := partial f]> g, Err (fault_error f))).
Definition write_end (p : string) (b : bytes) : io unit :=
  operation (λ g, (<[p := default [] (g !! p) ++ b]> g, Ok ()))
    (λ f g, (<[p := default [] (g !! p) ++ partial f]> g, Err (fault_error f))).

Definition fs_read (p : string) : io bytes :=
  operation (λ g, (g, match g !! p with Some b => Ok b | None => not_found end)) fail_with.

(** [Path::exists] takes an error for absence, [try_exists] reports it. *)
Definition path_exists (p : string) : io bool :=
  operation (λ g, (g, Ok (bool_decide (is_Some (g !! p))))) (λ _ g, (g, Ok false)).
Definition try_exists (p : string) : io bool :=
  operation (λ g, (g, Ok (bool_decide (is_Some (g !! p))))) fail_with.

Definition remove_file (p : string) : io unit :=
  operation (λ g, match g !! p with Some _ => (delete p g, Ok ()) | None => (g, not_found) end) fail_with.

(** [fs::rename] replaces the destination in one step. *)
Definition rename (from to : string) : io unit :=
  operation (λ g, match g !! from with
    | Some b => (<[to := b]> (delete from g), Ok ())
    | None => (g, not_found) end) fail_with.

(** ** Triples

    An assertion speaks of the files and of the number of failures that are
    left. From [P], every state that [m] passes through satisfies [I], and it
    ends with [Q] on success and [R] on failure. *)
Abbreviation assertion := (nat → contents → Prop).
Definition failures (d : disk) : nat := length (filter is_Some (outcomes d)).

Definition triple {E A} (I : contents → Prop) (P : assertion) (m : stm disk E A)
    (Q : A → assertion) (R : E → assertion) : Prop :=
  ∀ d d' r, P (failures d) (on_disk d) → m d = (d', r) →
    (∃ new, seen d' = new ++ seen d ∧ Forall I new)
    ∧ match r with Ok a => Q a (failures d') (on_disk d') | Err e => R e (failures d') (on_disk d') end.

Section triples.
Context {E : Type} (I : contents → Prop).

Lemma triple_bind {A B} (P : assertion) (m : stm disk E A) (f : A → stm disk E B) Q0 Q R :
  triple I P m Q0 R → (∀ a, triple I (Q0 a) (f a) Q R) → triple I P (m ≫= f) Q R.
Proof.
  intros Hm Hf d d' r HP. unfold mbind, stm_bind. destruct (m d) as [d1 [a|e]] eqn:Hd.
  - destruct (Hm _ _ _ HP Hd) as [(n1&Hn1&HI1) HQ]. intros Hr.
    destruct (Hf a _ _ _ HQ Hr) as [(n2&Hn2&HI2) HR]. split; [|done].
    exists (n2 ++ n1). rewrite <-app_assoc, <-Hn1. split; [done|]. by apply Forall_app.
  - intros [= <- <-]. by apply (Hm _ _ _ HP Hd).
Qed.

Lemma triple_lift {A} (P : assertion) (r : result E A) Q R :
  (∀ n g, P n g → match r with Ok a => Q a n g | Err e => R e n g end) → triple I P (lift r) Q R.
Proof. intros Hr d d' r' HP [= <- <-]. split; [by exists []|]. by apply Hr. Qed.

Lemma triple_ret {A} (P : assertion) (a : A) Q R : (∀ n g, P n g → Q a n g) → triple I P (mret a : stm disk E A) Q R.
Proof. intros HQ d d' r HP [= <- <-]. split; [by exists []|]. by apply HQ. Qed.

Lemma triple_map_err {A F} (w : F → E) (P : assertion) (m : stm disk F A) Q R :
  triple I P m Q (λ e, R (w e)) → triple I P (map_err_stm w m) Q R.
Proof.
  intros Hm d d' r HP. unfold map_err_stm. destruct (m d) as [d1 r1] eqn:Hd. intros [= <- <-].
  destruct (Hm _ _ _ HP Hd) as [Hn Hr]. split; [done|]. by destruct r1.
Qed.

Lemma triple_operation {A} (P : assertion) ok failed (Q : A → assertion) (R : E → assertion) :
  (∀ n g, P n g → I (ok g).1 ∧ match (ok g).2 with Ok a => Q a n (ok g).1 | Err e => R e n (ok g).1 end) →
  (∀ n f g, P (S n) g →
    I (failed f g).1 ∧ match (failed f g).2 with Ok a => Q a n (failed f g).1 | Err e => R e n (failed f g).1 end) →
  triple I P (operation ok failed) Q R.
Proof.
  intros Hok Hf [g0 [|[f|] l] sn] d' r HP; unfold operation; cbn in *.
  - destruct (ok g0) as [g r1] eqn:Ho. intros [= <- <-]. destruct (Hok _ _ HP) as [HI Hr]. rewrite Ho in HI, Hr.
    split; [exists [g]; split; [done|by apply Forall_singleton]|done].
  - destruct (failed f g0) as [g r1] eqn:Ho. intros [= <- <-].
    destruct (Hf (failures (Disk g l [])) f g0 HP) as [HI Hr]. rewrite Ho in HI, Hr.
    split; [exists [g]; split; [done|by apply Forall_singleton]|done].
  - destruct (ok g0) as [g r1] eqn:Ho. intros [= <- <-]. destruct (Hok _ _ HP) as [HI Hr]. rewrite Ho in HI, Hr.
    split; [exists [g]; split; [done|by apply Forall_singleton]|done].
Qed.

Lemma triple_weaken {A} (P P' : assertion) (m : stm disk E A) (Q Q' : A → assertion) (R R' : E → assertion) :
  triple I P m Q R → (∀ n g, P' n g → P n g) → (∀ a n g, Q a n g → Q' a n g) → (∀ e n g, R e n g → R' e n g) →
  triple I P' m Q' R'.
Proof.
  intros Hm HP HQ HR d d' r Hd Hr. destruct (Hm d d' r (HP _ _ Hd) Hr) as [Hn Hres]. split; [done|].
  destruct r; eauto.
Qed.

Lemma triple_pure {A} (φ : Prop) (P : assertion) (m : stm disk E A) Q R :
  (φ → triple I P m Q R) → triple I (λ n g, φ ∧ P n g) m Q R.
Proof. intros Hm d d' r [Hφ HP]. by apply Hm. Qed.
End triples.
