(* ===== verification/JournalStore.v ===== *)
(** * The file of the workflow journal ([WorkflowJournalStore], lib.rs)

    [save] writes a temporary file beside the journal and renames it; [load]
    reads and validates it. The temporary names of [tempfile] and [serde_json]
    are parameters; [Windows] is the other branch of [cfg]. *)

From Stdlib Require Import ZArith Lia Ascii.
From stdpp Require Import base gmap sets strings sorting option list.
From S2P Require Import Prelude Workflow WorkflowSpec Text Disk.
#[local] Open Scope Z_scope.

Inductive platform := Unix | Windows.

(** [serde_json] on a journal; a text followed by a line feed reads the same. *)
Class JournalJson := {
  journal_to_pretty : WorkflowJournal → result string bytes;
  journal_from_slice : bytes → result string WorkflowJournal
}.
Class JournalJsonLaws `{JournalJson} := journal_from_to j b :
  journal_to_pretty j = Ok b → journal_from_slice (b ++ [10]) = Ok j.

(** [NamedTempFile::new_in] creates a file that did not exist. *)
Class TempNames := temp_name : string → contents → string.
Class TempNamesLaws `{TempNames} := temp_name_fresh dir g : g !! temp_name dir g = None.

Section journal_store.
Context `{JournalJson} `{TempNames}.
Abbreviation store_op A := (stm disk WorkflowJournalError A).

Definition tempfile_new_in (dir : string) : io string :=
  operation (λ g, (<[temp_name dir g := []]> g, Ok (temp_name dir g))) fail_with.

(** A [NamedTempFile] that goes out of scope is removed. *)
Definition drop_temp_on_err {A} (temp : string) (m : store_op A) : store_op A := fun d =>
  match m d with
  | (d, Ok a) => (d, Ok a)
  | (d, Err e) => ((remove_file temp d).1, Err e)
  end.

Definition journal_path_exists (path : string) : store_op bool :=
  map_err_stm (ReadJournal path) (try_exists path).

Definition journal_parent_directory (path : string) : string :=
  match path_parent path with
  | Some parent => if bool_decide (parent = "") then "." else parent
  | None => "."
  end.

Definition remove_existing_destination_file (destination : string) : store_op unit := fun d =>
  match remove_file destination d with
  | (d, Ok _) => (d, Ok ())
  | (d, Err e) => (d, if bool_decide (io_kind e = NotFound) then Ok () else Err (PersistJournal destination e))
  end.

Definition persist_overwriting_if_needed (os : platform) (temp destination : string) : store_op unit :=
  match os with
  | Windows => exists_ ← journal_path_exists destination;
      if exists_ : bool then remove_existing_destination_file destination else mret ()
  | Unix => mret ()
  end ;;
  map_err_stm (PersistJournal destination) (rename temp destination).

Definition sync_parent_directory (os : platform) (parent journal_path : string) : store_op unit :=
  match os with
  | Unix =>
      map_err_stm (WriteJournal journal_path) (open_directory parent) ;;
      map_err_stm (WriteJournal journal_path) (sync_all parent)
  | Windows => mret ()
  end.

Definition load (path : string) : store_op (option WorkflowJournal) :=
  exists_ ← journal_path_exists path;
  if negb exists_ then mret None else
  data ← map_err_stm (ReadJournal path) (fs_read path);
  journal ← lift (map_err (ParseJournal path) (journal_from_slice data));
  lift (validate journal) ;;
  mret (Some journal).

Definition write_temp (path temp : string) (journal : WorkflowJournal) : store_op unit :=
  text ← lift (map_err (SerializeJournal path) (journal_to_pretty journal));
  map_err_stm (λ e, SerializeJournal path (io_message e)) (write_end temp text) ;;
  map_err_stm (WriteJournal path) (write_end temp [10]) ;;
  map_err_stm (WriteJournal path) (sync_all temp).

Definition save (os : platform) (path : string) (journal : WorkflowJournal) : store_op unit :=
  lift (validate journal) ;;
  let parent := journal_parent_directory path in
  map_err_stm (WriteJournal path) (create_dir_all parent) ;;
  temp ← map_err_stm (WriteJournal path) (tempfile_new_in parent);
  drop_temp_on_err temp (write_temp path temp journal ;; persist_overwriting_if_needed os temp path) ;;
  sync_parent_directory os parent path.

(** ** Theorems *)
Context `{!JournalJsonLaws} `{!TempNamesLaws}.

(** What [load] finds when nothing fails. *)
Definition loads (path : string) (g : contents) : result WorkflowJournalError (option WorkflowJournal) :=
  (load path (Disk g [] [])).2.

Lemma loads_eq path g : loads path g =
  match g !! path with
  | None => Ok None
  | Some data =>
      journal ← map_err (ParseJournal path) (journal_from_slice data);
      validate journal ;; Ok (Some journal)
  end.
Proof.
  unfold loads, load, journal_path_exists, map_err_stm, try_exists, operation, mbind, stm_bind. cbn.
  destruct (g !! path) as [data|] eqn:Hg; cbn; [|done].
  unfold fs_read, operation. cbn. rewrite Hg. unfold lift. cbn.
  destruct (journal_from_slice data) as [j|e]; cbn; [|done]. by destruct (validate j) as [[]|e].
Qed.

Lemma loads_saved path j text g : journal_to_pretty j = Ok text → validate j = Ok () →
  g !! path = Some (text ++ [10]) → loads path g = Ok (Some j).
Proof.
  intros Ht Hv Hg. rewrite loads_eq, Hg. apply journal_from_to in Ht. rewrite Ht. cbn. by rewrite Hv.
Qed.

(** The files during a save: the journal is the old one or the new one, and no
    other file that existed has changed. *)
Section save_states.
Context (path : string) (j : WorkflowJournal) (g0 : contents).
Context (Hpath : ∀ dir g, temp_name dir g ≠ path).

Definition new_journal (g : contents) : Prop :=
  ∃ text, journal_to_pretty j = Ok text ∧ g !! path = Some (text ++ [10]).
Definition during_save (g : contents) : Prop :=
  (g !! path = g0 !! path ∨ new_journal g) ∧ ∀ p, p ≠ path → is_Some (g0 !! p) → g !! p = g0 !! p.

Lemma during_start : during_save g0.
Proof. split; [by left|done]. Qed.

Lemma during_temp t x : t ≠ path → g0 !! t = None → during_save (<[t := x]> g0).
Proof.
  intros Ht Hn. split; [left; by rewrite lookup_insert_ne|].
  intros p _ [b Hb]. rewrite lookup_insert_ne; [done|]. intros <-. congruence.
Qed.

Lemma during_new text : journal_to_pretty j = Ok text → during_save (<[path := text ++ [10]]> g0).
Proof.
  intros Ht. split; [right; exists text; by rewrite lookup_insert_eq|]. intros p Hp _. by rewrite lookup_insert_ne.
Qed.

Lemma triple_drop {A} t P (m : store_op A) Q :
  t ≠ path → g0 !! t = None →
  triple during_save P m Q (λ _ _ g, ∃ x, g = <[t := x]> g0) →
  triple during_save P (drop_temp_on_err t m) Q (λ _ _, during_save).
Proof.
  intros Ht Hn Hm d d' r HP. unfold drop_temp_on_err. destruct (m d) as [d1 [a|e]] eqn:Hd;
    destruct (Hm _ _ _ HP Hd) as [(n1&Hn1&HI1) HQ].
  - intros [= <- <-]. split; [by exists n1|done].
  - destruct HQ as [x Hx]. intros [= <- <-].
    assert (triple during_save (λ _ g, g = <[t := x]> g0) (remove_file t) (λ _ _, during_save) (λ _ _, during_save)) as Hr.
    { apply triple_operation; [intros _ g ->|intros _ f g ->; split; by apply during_temp].
      rewrite lookup_insert_eq. cbn. rewrite delete_insert_id by done. split; apply during_start. }
    destruct (remove_file t d1) as [d2 r2] eqn:Hd2. cbn.
    destruct (Hr _ _ _ Hx Hd2) as [(n2&Hn2&HI2) Hres]. split; [|by destruct r2].
    exists (n2 ++ n1). rewrite <-app_assoc, <-Hn1. split; [done|]. by apply Forall_app.
Qed.

Lemma triple_write_temp t : t ≠ path → g0 !! t = None →
  triple during_save (λ _ g, g = <[t := []]> g0) (write_temp path t j)
    (λ _ _ g, ∃ text, journal_to_pretty j = Ok text ∧ g = <[t := text ++ [10]]> g0)
    (λ _ _ g, ∃ x, g = <[t := x]> g0).
Proof.
  intros Ht Hn.
  apply triple_bind with (Q0 := λ text _ g, journal_to_pretty j = Ok text ∧ g = <[t := []]> g0).
  { apply triple_lift. intros _ g ->. destruct (journal_to_pretty j); cbn; eauto. }
  intros text. apply triple_bind with (Q0 := λ _ _ g, journal_to_pretty j = Ok text ∧ g = <[t := text]> g0).
  { apply triple_map_err, triple_operation; [intros _ g [Hj ->]|intros _ f g [Hj ->]]; cbn;
      rewrite lookup_insert_eq, insert_insert_eq; cbn; split; eauto using during_temp. }
  intros _. apply triple_bind with (Q0 := λ _ _ g, journal_to_pretty j = Ok text ∧ g = <[t := text ++ [10]]> g0).
  { apply triple_map_err, triple_operation; [intros _ g [Hj ->]|intros _ f g [Hj ->]]; cbn;
      rewrite lookup_insert_eq, insert_insert_eq; cbn; split; eauto using during_temp. }
  intros _. apply triple_map_err, triple_operation; [intros _ g [Hj ->]|intros _ f g [Hj ->]]; cbn;
    cbn; split; eauto using during_temp.
Qed.

Lemma triple_save :
  triple during_save (λ _ g, g = g0) (save Unix path j)
    (λ _ _ g, validate j = Ok () ∧ ∃ text, journal_to_pretty j = Ok text ∧ g = <[path := text ++ [10]]> g0)
    (λ _ _ g, during_save g).
Proof.
  unfold save. apply triple_bind with (Q0 := λ _ _ g, validate j = Ok () ∧ g = g0).
  { apply triple_lift. intros _ g ->. destruct (validate j) as [[]|e]; [done|apply during_start]. }
  intros _. apply triple_bind with (Q0 := λ _ _ g, validate j = Ok () ∧ g = g0).
  { apply triple_map_err, triple_operation; [intros _ g [? ->]|intros _ f g [? ->]]; cbn; split; auto using during_start. }
  intros _. apply triple_bind with (Q0 := λ t _ g, validate j = Ok () ∧ t ≠ path ∧ g0 !! t = None ∧ g = <[t := []]> g0).
  { apply triple_map_err, triple_operation; [intros _ g [? ->]|intros _ f g [? ->]]; cbn; split;
      eauto using during_start, during_temp, temp_name_fresh. }
  intros t.
  apply triple_bind with (Q0 := λ _ _ g, validate j = Ok () ∧ ∃ text, journal_to_pretty j = Ok text
    ∧ g = <[path := text ++ [10]]> g0).
  - apply triple_pure; intros Hv. apply triple_pure; intros Ht. apply triple_pure; intros Hn.
    apply triple_drop; [done|done|]. eapply triple_bind; [by apply triple_write_temp|]. intros [].
    apply triple_bind with (Q0 := λ _ _ g, ∃ text, journal_to_pretty j = Ok text ∧ g = <[t := text ++ [10]]> g0).
    { by apply triple_ret. }
    intros _. apply triple_map_err, triple_operation.
    + intros _ g (text&Hj&->). rewrite lookup_insert_eq. cbn. rewrite delete_insert_id by done.
      split; [by apply during_new|]. eauto.
    + intros _ f g (text&Hj&->). cbn. split; [by apply during_temp|]. eauto.
  - intros _. apply triple_bind with (Q0 := λ _ _ g, validate j = Ok () ∧ ∃ text, journal_to_pretty j = Ok text
      ∧ g = <[path := text ++ [10]]> g0).
    + apply triple_map_err, triple_operation; [intros _ g (?&text&?&->)|intros _ f g (?&text&?&->)];
        cbn; split; eauto using during_new.
    + intros _. apply triple_map_err, triple_operation; [intros _ g (?&text&?&->)|intros _ f g (?&text&?&->)];
        cbn; split; eauto using during_new.
Qed.
End save_states.

(** C28. Saving the journal is atomic on Unix: whichever operations of the file
    system fail, and wherever a crash interrupts the save, the file holds the
    journal that it held before or the whole new one, which [load] then reads
    back, and no other file that existed changes. A save that reports success
    has replaced the journal and left no temporary file behind; an invalid
    journal is refused before the file system is touched. *)
Theorem save_atomic path j d d' (r : result WorkflowJournalError unit) :
  (∀ dir g, temp_name dir g ≠ path) → save Unix path j d = (d', r) →
  (validate j ≠ Ok () → d' = d ∧ ∃ e, r = Err e) ∧
  (∃ states, seen d' = states ++ seen d ∧ Forall (λ g,
    (loads path g = loads path (on_disk d) ∨ loads path g = Ok (Some j))
    ∧ ∀ p, p ≠ path → is_Some (on_disk d !! p) → g !! p = on_disk d !! p) states) ∧
  (r = Ok () → loads path (on_disk d') = Ok (Some j)
    ∧ ∀ p, p ≠ path → on_disk d' !! p = on_disk d !! p).
Proof.
  intros Hpath Hs. destruct (validate j) as [[]|e] eqn:Hv.
  - destruct (triple_save path j (on_disk d) Hpath d d' r eq_refl Hs) as [(states&Hseen&Hst) Hr].
    split; [done|]. split.
    + exists states. split; [done|]. eapply Forall_impl; [exact Hst|]. intros g [[Hg|(text&Ht&Hg)] Hf].
      * split; [|done]. left. by rewrite !loads_eq, Hg.
      * split; [|done]. right. by eapply loads_saved.
    + intros ->. destruct Hr as (_&text&Ht&->). split.
      * eapply loads_saved; [done..|]. by rewrite lookup_insert_eq.
      * intros p Hp. by rewrite lookup_insert_ne.
  - revert Hs. unfold save, mbind at 1, stm_bind at 1, lift at 1. rewrite Hv. intros [= <- <-].
    split; [by eauto|]. split; [by exists []|done].
Qed.

(** On Windows the destination is removed first: a rename that then fails leaves
    no journal, and [load] takes that for a workflow that never started. *)
Lemma save_windows_loses path j text b g :
  (∀ dir g, temp_name dir g ≠ path) → validate j = Ok () → journal_to_pretty j = Ok text → g !! path = Some b →
  ∃ faults d' e, save Windows path j (Disk g faults []) = (d', Err (PersistJournal path e))
    ∧ loads path (on_disk d') = Ok None.
Proof.
  intros Hp Hv Ht Hb. set (lost := IoError OtherKind "access denied").
  exists [None; None; None; None; None; None; None; Some (Fault lost [])].
  unfold save, write_temp, drop_temp_on_err, persist_overwriting_if_needed, remove_existing_destination_file,
    journal_path_exists, map_err_stm, mbind, stm_bind, lift. rewrite Hv, Ht. cbn.
  set (t := temp_name (journal_parent_directory path) g).
  assert (path ≠ t) as Hpt by (intros Hpt; by apply (Hp (journal_parent_directory path) g)).
  rewrite !insert_insert_eq, lookup_insert_ne, Hb by done. cbn.
  rewrite lookup_insert_ne, Hb by done. cbn. eexists _, lost. split; [reflexivity|].
  rewrite loads_eq. rewrite (lookup_delete_ne _ path t), lookup_insert_eq by done. cbn.
  rewrite (lookup_delete_ne _ t path) by done. by rewrite lookup_delete_eq.
Qed.
End journal_store.

(** ** A save that fails in the middle

    The old journal is [initial_journal sample_init], the new one
    [sample_journal], and the rename fails. *)
#[local] Instance toy_journal_json : JournalJson := {|
  journal_to_pretty j :=
    if decide (j = sample_journal) then Ok [49]
    else if decide (j = initial_journal sample_init) then Ok [48] else Err "not representable";
  journal_from_slice b :=
    if bool_decide (b = [49; 10]) then Ok sample_journal
    else if bool_decide (b = [48; 10]) then Ok (initial_journal sample_init) else Err "invalid"
|}.
#[local] Instance toy_journal_json_laws : JournalJsonLaws.
Proof.
  intros j b. cbn -[sample_journal initial_journal].
  destruct (decide _) as [->|]; [by intros [= <-]|]. destruct (decide _) as [->|]; [by intros [= <-]|done].
Qed.

(** A name longer than every file's. *)
Fixpoint xs (n : nat) : string := match n with O => "" | S n => String "x" (xs n) end.
Definition name_lengths (g : contents) : nat := foldr (λ p n, String.length p + n)%nat O (elements (dom g)).
#[local] Instance toy_temp_names : TempNames := λ _ g, String "/" (xs (name_lengths g)).
#[local] Instance toy_temp_names_laws : TempNamesLaws.
Proof.
  intros dir g. unfold temp_name, toy_temp_names.
  assert (∀ n, String.length (xs n) = n) as Hlen by (intros n; induction n; cbn; congruence).
  assert (∀ l p, p ∈ l → String.length p ≤ foldr (λ p n, String.length p + n) 0 l)%nat as Hle.
  { intros l p. induction l as [|q l IH]; [by inversion 1|]. intros [->|Hp]%elem_of_cons; cbn; [lia|].
    specialize (IH Hp). lia. }
  apply eq_None_not_Some. intros Hg%elem_of_dom%elem_of_elements%Hle. cbn in Hg. rewrite Hlen in Hg.
  unfold name_lengths in Hg. lia.
Qed.

Definition disk0 : disk := Disk {["journal.json" := [48; 10]]}
  [None; None; None; None; None; Some (Fault (IoError OtherKind "disk full") [])] [].
Definition save_run : disk * result WorkflowJournalError unit := save Unix "journal.json" sample_journal disk0.

Lemma save_atomic_witness :
  save_run.2 = Err (PersistJournal "journal.json" (IoError OtherKind "disk full"))
  ∧ seen save_run.1 ≠ []
  ∧ Forall (λ g, loads "journal.json" g = Ok (Some (initial_journal sample_init))
      ∨ loads "journal.json" g = Ok (Some sample_journal)) (seen save_run.1)
  ∧ loads "journal.json" (on_disk (save Unix "journal.json" sample_journal (Disk (on_disk disk0) [] [])).1)
    = Ok (Some sample_journal).
Proof.
  split; [vm_compute; reflexivity|]. split; [vm_compute; discriminate|]. split.
  - destruct (save_atomic "journal.json" sample_journal disk0 save_run.1 save_run.2) as (_&(states&Hs&Hst)&_);
      [by intros dir g|vm_compute; reflexivity|].
    cbn [seen disk0] in Hs. rewrite app_nil_r in Hs. rewrite Hs. eapply Forall_impl; [exact Hst|].
    intros g [[Hg|Hg] _]; [left|by right]. rewrite Hg. vm_compute. reflexivity.
  - apply (save_atomic "journal.json" sample_journal (Disk (on_disk disk0) [] []) _ (Ok ()));
      [by intros dir g|vm_compute; reflexivity..].
Defined.
