(* ===== verification/Config.v ===== *)
(** * The batch request ([lexonarchivebuilder-indexer], config.rs)

    The configuration of a run, its validation, and the place of the mutable
    ref store that a validated ref name stands for. [None] for a location is
    the panic of [expect] on a ref name that was not validated. *)

From Stdlib Require Import ZArith Lia Ascii.
From stdpp Require Import base gmap sets strings sorting pretty option list.
From S2P Require Import Prelude Hex Text Items Mailbox.
#[local] Open Scope Z_scope.

Definition DEFAULT_BLOCK_SIZE_TARGET : Z := 65536.
Definition DEFAULT_LOCAL_EMBEDDING_MODEL : string := "all-MiniLM-L6-v2".
Definition DEFAULT_REQUEST_TIMEOUT_SECS : Z := 30.
Definition DEFAULT_MAX_RETRIES : Z := 5.
Definition DEFAULT_RETRY_DELAY_MS : Z := 1000.
Definition MIN_MAX_CONCURRENCY : Z := 1.
Definition MUTABLE_REF_ROOT_DIR : string := "refs".

(** ** Data *)
Inductive ExecutionStage := FullPipeline | IngestionAndEmbedding | ClusteringAndBlockAssembly.
Definition includes_ingestion (stage : ExecutionStage) : bool :=
  match stage with FullPipeline | IngestionAndEmbedding => true | _ => false end.
Definition includes_clustering (stage : ExecutionStage) : bool :=
  match stage with FullPipeline | ClusteringAndBlockAssembly => true | _ => false end.

(** [PublishedProfileVersion] of the streaming indexer crate. *)
Record PublishedProfileVersion := Version { major : Z; minor : Z; patch : Z }.
#[export] Instance PublishedProfileVersion_eq_dec : EqDecision PublishedProfileVersion.
Proof. solve_decision. Defined.
Definition PUBLISHED_PROFILE_V0_7_0 : PublishedProfileVersion := Version 0 7 0.
Definition PUBLISHED_PROFILE_V0_8_0 : PublishedProfileVersion := Version 0 8 0.

Record LocalEmbeddingConfig := {
  base_url : string;
  model : string;
  local_api_key_env : option string;
  request_timeout_secs : Z;
  max_retries : Z;
  retry_delay_ms : Z
}.
Record ProductionBlockStoreConfig := {
  container_sas_url : string;
  prefix : option string;
  filesystem_cache_root : option string;
  memory_cache_max_resident_blocks : option Z
}.
Record ProductionEmbeddingConfig := {
  endpoint : string;
  deployment : string;
  api_version : string;
  production_api_key_env : option string
}.
Record EmbeddingSpecConfig := { config_dims : Z; config_encoding : string }.

Inductive EnvironmentConfig :=
| Local (block_store_root : string) (embedding : LocalEmbeddingConfig)
| LocalRedb (block_store_root : string) (embedding : LocalEmbeddingConfig)
| LocalOverlay (block_store : ProductionBlockStoreConfig) (embedding : LocalEmbeddingConfig)
| Production (block_store : ProductionBlockStoreConfig) (embedding : ProductionEmbeddingConfig)
| ProductionV2 (block_store : ProductionBlockStoreConfig) (embedding : ProductionEmbeddingConfig).

Record BatchRequest := {
  environment : EnvironmentConfig;
  embedding_spec : EmbeddingSpecConfig;
  block_size_target : Z;
  stage : ExecutionStage;
  profile_version : PublishedProfileVersion;
  max_concurrency : option Z;
  replay_batch_size : option Z;
  ref_name : string;
  request_items : list BatchItemConfig
}.

Inductive MutableRefStoreLocation :=
| LocalFile (path : string)
| AzureBlob (url display_path : string)
| AzureTable (table_sas_url display_path partition_key row_key : string).

Inductive ConfigError :=
| EmptyItems
| InvalidMaxConcurrency
| InvalidReplayBatchSize
| MissingRefName
| InvalidRefName
| MissingLocalEmbeddingBaseUrl
| MissingProductionContainerSasUrl
| MissingProductionV2ContainerSasUrl
| UnsupportedProductionBlockStorePrefix
| UnsupportedProductionV2BlockStorePrefix
| UnsupportedProductionV2FilesystemCacheRoot
| UnsupportedProductionV2MemoryCacheMaxResidentBlocks
| MissingProductionFilesystemCacheRoot
| MissingProductionMemoryCacheMaxResidentBlocks
| InvalidProductionMemoryCacheMaxResidentBlocks
| InvalidLocalTestingClusterCount
| LocalTestingClusterCountRequiresLocalEnvironment
| LocalTestingClusterCountUnsupportedForV3Profile.

Abbreviation config_result := (result ConfigError).

(** ** Clustering overrides *)
Record ClusteringConfigOverrides := {
  override_profile_version : option PublishedProfileVersion;
  override_cluster_count : option Z
}.
Record ConfiguredClustering := {
  clustering_profile_version : PublishedProfileVersion;
  clustering_cluster_count : option Z
}.

Definition is_zero (o : option Z) : bool := match o with Some n => n =? 0 | None => false end.
Definition is_some {A} (o : option A) : bool := match o with Some _ => true | None => false end.

Definition validate_overrides (o : ClusteringConfigOverrides) : config_result unit :=
  reject_if (is_zero (override_cluster_count o)) InvalidLocalTestingClusterCount.

Definition is_production (e : EnvironmentConfig) : bool :=
  match e with Production _ _ | ProductionV2 _ _ => true | _ => false end.

Definition to_configured_clustering (o : ClusteringConfigOverrides)
    (request_profile_version : PublishedProfileVersion) (env : EnvironmentConfig) : config_result ConfiguredClustering :=
  validate_overrides o ;;
  let profile_version := default request_profile_version (override_profile_version o) in
  reject_if (is_some (override_cluster_count o) && is_production env)
    LocalTestingClusterCountRequiresLocalEnvironment ;;
  reject_if (is_some (override_cluster_count o)
      && (bool_decide (profile_version = PUBLISHED_PROFILE_V0_7_0)
          || bool_decide (profile_version = PUBLISHED_PROFILE_V0_8_0)))
    LocalTestingClusterCountUnsupportedForV3Profile ;;
  Ok {| clustering_profile_version := profile_version; clustering_cluster_count := override_cluster_count o |}.

(** ** Ref names *)
Definition replace_backslash (s : string) : bytes := (λ c, if c =? 92 then 47 else c) <$> as_bytes s.

(** [char::is_control], and the reserved characters. *)
Definition is_control (c : Z) : bool := (c <=? 31) || (127 <=? c) && (c <=? 159).
Definition reserved_char (c : Z) : bool := bool_decide (c ∈ [60; 62; 58; 34; 124; 63; 42; 35; 37]).

Definition is_valid_ref_name_segment (segment : bytes) : bool :=
  if bool_decide (segment = [])
     || existsb (λ c, is_whitespace c || is_control c || reserved_char c) (chars (of_bytes segment))
  then false
  else match components (of_bytes segment) with [Normal _] => true | _ => false end.

Definition normalized_ref_name_segments (name : string) : config_result (list bytes) :=
  let trimmed := trim name in
  reject_if (bool_decide (trimmed = "")) MissingRefName ;;
  let normalized := replace_backslash trimmed in
  reject_if (starts_with [47] normalized || ends_with [47] normalized) InvalidRefName ;;
  let segments := split_on 47 normalized in
  reject_if (negb (forallb is_valid_ref_name_segment segments)) InvalidRefName ;;
  Ok segments.

Definition slash_join (segments : list bytes) : string := join "/" (of_bytes <$> segments).

Definition mutable_ref_relative_path (name : string) : config_result string :=
  segments ← normalized_ref_name_segments name;
  Ok (MUTABLE_REF_ROOT_DIR +:+ "/" +:+ slash_join segments).

Definition mutable_ref_relative_path_buf (name : string) : config_result string :=
  segments ← normalized_ref_name_segments name;
  Ok (foldl (λ p segment, path_join p (of_bytes segment)) MUTABLE_REF_ROOT_DIR segments).

(** ** Locations *)
Definition mutable_ref_store_blob_url (container_sas_url file_name : string) : string :=
  match split_once 63 container_sas_url with
  | Some (base, query) => trim_end_slashes base +:+ "/" +:+ file_name +:+ "?" +:+ query
  | None => trim_end_slashes container_sas_url +:+ "/" +:+ file_name
  end.

Definition base_of_url (url : string) : string :=
  match split_once 63 url with Some (base, _) => base | None => url end.
Definition mutable_ref_store_blob_display_path (container_sas_url file_name : string) : string :=
  trim_end_slashes (base_of_url container_sas_url) +:+ "/" +:+ file_name.
Definition mutable_ref_store_table_display_path (table_sas_url file_name : string) : string :=
  trim_end_slashes (base_of_url table_sas_url) +:+ "/" +:+ file_name.

Definition mutable_ref_store_table_row_key (path : string) : string := hex_encode (as_bytes path).

Definition result_option {E A} (r : result E A) : option A := match r with Ok a => Some a | Err _ => None end.

Definition resolve_mutable_ref_store (env : EnvironmentConfig) (request_dir name : string) : option MutableRefStoreLocation :=
  relative_path ← result_option (mutable_ref_relative_path name);
  relative_path_buf ← result_option (mutable_ref_relative_path_buf name);
  match env with
  | Local block_store_root _ | LocalRedb block_store_root _ =>
      let root := resolve_path request_dir block_store_root in
      Some (LocalFile (path_join (default root (path_parent root)) relative_path_buf))
  | LocalOverlay block_store _ | Production block_store _ =>
      Some (AzureBlob (mutable_ref_store_blob_url (container_sas_url block_store) relative_path)
        (mutable_ref_store_blob_display_path (container_sas_url block_store) relative_path))
  | ProductionV2 block_store _ =>
      Some (AzureTable (container_sas_url block_store)
        (mutable_ref_store_table_display_path (container_sas_url block_store) relative_path)
        MUTABLE_REF_ROOT_DIR (mutable_ref_store_table_row_key relative_path))
  end.

(** ** Validation *)
Definition local_embedding (env : EnvironmentConfig) : config_result (option LocalEmbeddingConfig) :=
  match env with
  | Local _ embedding | LocalRedb _ embedding | LocalOverlay _ embedding =>
      if blank (base_url embedding) then Err MissingLocalEmbeddingBaseUrl else Ok (Some embedding)
  | Production _ _ | ProductionV2 _ _ => Ok None
  end.

Definition unblank_prefix (c : ProductionBlockStoreConfig) : bool :=
  match prefix c with Some p => negb (blank p) | None => false end.

Definition validate_for_overlay (c : ProductionBlockStoreConfig) : config_result unit :=
  reject_if (blank (container_sas_url c)) MissingProductionContainerSasUrl ;;
  reject_if (unblank_prefix c) UnsupportedProductionBlockStorePrefix ;;
  reject_if (match filesystem_cache_root c with Some p => bool_decide (p = "") | None => true end)
    MissingProductionFilesystemCacheRoot ;;
  match memory_cache_max_resident_blocks c with
  | Some n => reject_if (n =? 0) InvalidProductionMemoryCacheMaxResidentBlocks
  | None => Err MissingProductionMemoryCacheMaxResidentBlocks
  end.

Definition validate_for_azure_table (c : ProductionBlockStoreConfig) : config_result unit :=
  reject_if (blank (container_sas_url c)) MissingProductionV2ContainerSasUrl ;;
  reject_if (unblank_prefix c) UnsupportedProductionV2BlockStorePrefix ;;
  reject_if (is_some (filesystem_cache_root c)) UnsupportedProductionV2FilesystemCacheRoot ;;
  reject_if (is_some (memory_cache_max_resident_blocks c)) UnsupportedProductionV2MemoryCacheMaxResidentBlocks.

Definition require_local_embedding (env : EnvironmentConfig) (stage : ExecutionStage) : config_result unit :=
  if includes_ingestion stage then local_embedding env ;; Ok () else Ok ().

Definition validate_for_stage (env : EnvironmentConfig) (stage : ExecutionStage) : config_result unit :=
  match env with
  | Local _ _ | LocalRedb _ _ => require_local_embedding env stage
  | LocalOverlay block_store _ => validate_for_overlay block_store ;; require_local_embedding env stage
  | Production block_store _ => validate_for_overlay block_store
  | ProductionV2 block_store _ => validate_for_azure_table block_store
  end.
Definition validate_environment (env : EnvironmentConfig) : config_result unit := validate_for_stage env FullPipeline.

Definition validate_request (r : BatchRequest) : config_result unit :=
  reject_if (includes_ingestion (stage r) && bool_decide (length (request_items r) = O)) EmptyItems ;;
  reject_if (is_zero (max_concurrency r)) InvalidMaxConcurrency ;;
  reject_if (is_zero (replay_batch_size r)) InvalidReplayBatchSize ;;
  normalized_ref_name_segments (ref_name r) ;;
  validate_for_stage (environment r) (stage r).

(** ** Effective values

    [num_cpus::get_physical] and [available_parallelism] are parameters. *)
Definition derive_default_max_concurrency (cpu_count : Z) : Z :=
  if cpu_count <=? 1 then MIN_MAX_CONCURRENCY else Z.max (cpu_count / 2) MIN_MAX_CONCURRENCY.
Definition detected_cpu_count_for_default (physical : Z) (parallelism : option Z) : Z :=
  if 0 <? physical then physical else default MIN_MAX_CONCURRENCY parallelism.
Definition default_max_concurrency (physical : Z) (parallelism : option Z) : Z :=
  derive_default_max_concurrency (detected_cpu_count_for_default physical parallelism).
Definition effective_max_concurrency (physical : Z) (parallelism : option Z) (r : BatchRequest) : Z :=
  default (default_max_concurrency physical parallelism) (max_concurrency r).
Definition effective_replay_batch_size (physical : Z) (parallelism : option Z) (r : BatchRequest) : Z :=
  default (default (default_max_concurrency physical parallelism) (max_concurrency r)) (replay_batch_size r).

(** ** Profile versions *)

(** [str::parse::<u64>]: an optional plus sign and decimal digits. *)
Fixpoint parse_digits (acc : Z) (l : bytes) : option Z :=
  match l with
  | [] => Some acc
  | c :: l =>
      if (48 <=? c) && (c <=? 57) then
        let acc := acc * 10 + (c - 48) in
        if usize_max <? acc then None else parse_digits acc l
      else None
  end.
Definition parse_u64 (s : string) : option Z :=
  match as_bytes s with
  | [] => None
  | 43 :: l => if bool_decide (l = []) then None else parse_digits 0 l
  | l => parse_digits 0 l
  end.

Definition invalid_version (trimmed detail : string) : string :=
  "invalid published profile version '" +:+ trimmed +:+ "': " +:+ detail.

Definition parse_published_profile_version (value : string) : result string PublishedProfileVersion :=
  let trimmed := trim value in
  let shape := invalid_version trimmed "expected <major>.<minor>.<patch>" in
  '(major, remainder) ← ok_or (split_once 46 trimmed) shape;
  '(minor, patch) ← ok_or (split_once 46 remainder) shape;
  reject_if (bool_decide (major = "") || bool_decide (minor = "") || bool_decide (patch = "")
    || bool_decide (46 ∈ as_bytes patch)) shape ;;
  major ← ok_or (parse_u64 major) (invalid_version trimmed "major must be an unsigned integer");
  minor ← ok_or (parse_u64 minor) (invalid_version trimmed "minor must be an unsigned integer");
  patch ← ok_or (parse_u64 patch) (invalid_version trimmed "patch must be an unsigned integer");
  Ok (Version major minor patch).
