(* ===== verification/ConfigSpec.v ===== *)
(** * Ref names and ref stores

    A ref name that passes validation stands for one place, below the [refs]
    directory of the environment's store, and for a different place than every
    name with other segments. *)

From Stdlib Require Import ZArith Lia Ascii.
From stdpp Require Import base gmap sets strings sorting pretty option list.
From S2P Require Import Prelude Hex Text Items Mailbox Config.
#[local] Open Scope Z_scope.

(** ** Splitting and joining *)
Lemma split_on_free (sep : Z) l : Forall (λ s, sep ∉ s) (split_on sep l).
Proof.
  induction l as [|a l IH]; cbn; [repeat constructor; by inversion 1|].
  case_decide as Ha; [constructor; [by inversion 1|done]|].
  destruct (split_on sep l) as [|s ss]; [repeat constructor; by intros ?%list_elem_of_singleton|].
  apply Forall_cons in IH as [Hs Hss]. constructor; [|done]. by intros [?|?]%elem_of_cons.
Qed.

Lemma split_on_bytes (sep : Z) l : Forall is_byte l → Forall (Forall is_byte) (split_on sep l).
Proof.
  induction 1 as [|a l Ha Hl IH]; cbn; [repeat constructor|]. case_decide; [by constructor|].
  destruct (split_on sep l) as [|s ss]; [by apply Forall_singleton, Forall_singleton|].
  apply Forall_cons in IH as [Hs Hss]. constructor; [by constructor|done].
Qed.

Lemma split_on_app (sep : Z) s l : sep ∉ s → split_on sep (s ++ sep :: l) = s :: split_on sep l.
Proof.
  induction s as [|a s IH]; cbn; intros Hs; [by rewrite decide_True|].
  rewrite decide_False by (intros ->; apply Hs; by left). rewrite IH; [done|]. intros ?. apply Hs. by right.
Qed.

Lemma split_on_id (sep : Z) s : sep ∉ s → split_on sep s = [s].
Proof.
  induction s as [|a s IH]; cbn; intros Hs; [done|].
  rewrite decide_False by (intros ->; apply Hs; by left). rewrite IH; [done|]. intros ?. apply Hs. by right.
Qed.

Lemma split_join (sep : Z) segs : segs ≠ [] → Forall (λ s, sep ∉ s) segs → split_on sep (join_text [sep] segs) = segs.
Proof.
  intros Hne Hs. induction Hs as [|s segs Hs Hss IH]; [done|]. destruct segs as [|s2 segs]; [by apply split_on_id|].
  change (join_text [sep] (s :: s2 :: segs)) with (s ++ sep :: join_text [sep] (s2 :: segs)).
  by rewrite split_on_app, IH.
Qed.

(** ** Accepted ref names *)
Record segment_ok (s : bytes) : Prop := {
  seg_nonempty : s ≠ [];
  seg_bytes : Forall is_byte s;
  seg_slash : 47 ∉ s;
  seg_dots : s ≠ [46] ∧ s ≠ [46; 46]
}.

Lemma replace_backslash_bytes s : Forall is_byte (replace_backslash s).
Proof.
  apply Forall_fmap, (Forall_impl is_byte); [apply as_bytes_byte|]. intros c Hc. cbn.
  case_match; [unfold is_byte; lia|done].
Qed.

Lemma valid_segment_ok s : Forall is_byte s → 47 ∉ s → is_valid_ref_name_segment s = true → segment_ok s.
Proof.
  unfold is_valid_ref_name_segment. intros Hb Hs. case_bool_decide as Hne; [done|].
  destruct (existsb _ _); [done|]. cbn. intros Hc. constructor; try done.
  split; intros ->; by vm_compute in Hc.
Qed.

Lemma segments_spec name segs : normalized_ref_name_segments name = Ok segs →
  segs ≠ [] ∧ Forall segment_ok segs.
Proof.
  unfold normalized_ref_name_segments. cbv zeta. rewrite !result_seq_ok. rewrite !reject_if_ok.
  intros (_&_&Hv&[= <-]). apply negb_false_iff in Hv. rewrite forallb_forall in Hv. split.
  { destruct (replace_backslash _) as [|c l]; [done|]. cbn. case_decide; [done|]. by destruct (split_on 47 l). }
  pose proof (split_on_free 47 (replace_backslash (trim name))) as Hs.
  pose proof (split_on_bytes 47 _ (replace_backslash_bytes (trim name))) as Hb.
  rewrite Forall_forall in Hs, Hb. apply Forall_forall. intros s Hin.
  apply valid_segment_ok; [by apply Hb|by apply Hs|]. by apply Hv, list_elem_of_In.
Qed.

(** ** Joining paths *)
Lemma of_segment s : segment_ok s → as_bytes (of_bytes s) = s.
Proof. intros []. by apply as_bytes_of_bytes. Qed.

Lemma slash_join_bytes segs : Forall segment_ok segs → as_bytes (slash_join segs) = join_text [47] segs.
Proof.
  intros Hs. unfold slash_join, join. induction Hs as [|s segs Hs Hss IH]; [done|].
  destruct segs as [|s2 segs]; [by apply of_segment|].
  change (as_bytes (of_bytes s +:+ "/" +:+ String.concat "/" (of_bytes <$> s2 :: segs)) = s ++ [47] ++ join_text [47] (s2 :: segs)).
  by rewrite !as_bytes_app, of_segment, IH.
Qed.

Lemma slash_join_inj segs segs' : segs ≠ [] → segs' ≠ [] → Forall segment_ok segs → Forall segment_ok segs' →
  slash_join segs = slash_join segs' → segs = segs'.
Proof.
  intros Hn Hn' Hs Hs' Heq. apply (f_equal as_bytes) in Heq. rewrite !slash_join_bytes in Heq by done.
  rewrite <-(split_join 47 segs), <-(split_join 47 segs'), Heq; [done|done|..|done|];
    (eapply Forall_impl; [eassumption|by intros ? []]).
Qed.

Lemma segment_relative s : segment_ok s → is_absolute (of_bytes s) = false.
Proof.
  intros Hs. unfold is_absolute. rewrite of_segment by done. destruct Hs as [Hn _ Hs _].
  destruct s as [|c s]; [done|]. unfold starts_with. rewrite andb_true_r. apply Z.eqb_neq. intros <-. apply Hs. by left.
Qed.

Lemma ends_with_app l s c : s ≠ [] → ends_with [c] (l ++ s) = ends_with [c] s.
Proof.
  intros Hs. unfold ends_with. rewrite reverse_app. destruct (reverse s) as [|a r] eqn:Hr; [|done].
  apply (f_equal reverse) in Hr. rewrite reverse_involutive in Hr. by subst.
Qed.

Lemma ends_with_mem s c : ends_with [c] s = true → c ∈ s.
Proof.
  unfold ends_with. destruct (reverse s) as [|a r] eqn:Hr; [done|].
  cbn -[Z.eqb]. rewrite andb_true_r. intros ->%Z.eqb_eq.
  apply elem_of_reverse. rewrite Hr. by left.
Qed.

Lemma segment_end s l : segment_ok s → ends_with [47] (l ++ s) = false.
Proof.
  intros [Hn _ Hs _]. rewrite ends_with_app by done. apply not_true_iff_false. by intros ?%ends_with_mem.
Qed.

Lemma push_segment p s : p ≠ "" → ends_with [47] (as_bytes p) = false → segment_ok s →
  path_join p (of_bytes s) = p +:+ "/" +:+ of_bytes s.
Proof.
  intros Hp He Hs. unfold path_join. by rewrite segment_relative, bool_decide_false, He.
Qed.

Lemma push_segments p segs : p ≠ "" → ends_with [47] (as_bytes p) = false → segs ≠ [] → Forall segment_ok segs →
  foldl (λ p s, path_join p (of_bytes s)) p segs = p +:+ "/" +:+ slash_join segs.
Proof.
  intros Hp He Hn Hs. revert p Hp He Hn. induction Hs as [|s segs Hs Hss IH]; intros p Hp He Hn; [done|].
  cbn [foldl]. rewrite push_segment by done. destruct segs as [|s2 segs]; [done|]. rewrite IH.
  - change (slash_join (s :: s2 :: segs)) with (of_bytes s +:+ "/" +:+ slash_join (s2 :: segs)).
    apply (inj as_bytes). by rewrite !as_bytes_app, !app_assoc.
  - by destruct p.
  - rewrite !as_bytes_app, of_segment, app_assoc by done. by apply segment_end.
  - done.
Qed.

Lemma path_buf_eq name segs : normalized_ref_name_segments name = Ok segs →
  mutable_ref_relative_path_buf name = mutable_ref_relative_path name.
Proof.
  intros Hn. unfold mutable_ref_relative_path_buf, mutable_ref_relative_path. rewrite Hn. cbn.
  destruct (segments_spec _ _ Hn) as [Hne Hs]. f_equal. by apply push_segments.
Qed.

(** ** One name, one place *)

(** Equal up to a common beginning and end. *)
Lemma str_app_inj_l a b c : a +:+ b = a +:+ c → b = c.
Proof. intros Hb%(f_equal as_bytes). rewrite !as_bytes_app in Hb. by apply app_inv_head, (inj as_bytes) in Hb. Qed.
Lemma str_app_inj_r a b c : b +:+ a = c +:+ a → b = c.
Proof. intros Hb%(f_equal as_bytes). rewrite !as_bytes_app in Hb. by apply app_inv_tail, (inj as_bytes) in Hb. Qed.

Lemma path_join_inj base a b : is_absolute a = false → is_absolute b = false →
  path_join base a = path_join base b → a = b.
Proof.
  unfold path_join. intros -> ->. case_match; [apply str_app_inj_l|]. by intros Hu%str_app_inj_l%str_app_inj_l.
Qed.

Lemma blob_url_inj sas a b : mutable_ref_store_blob_url sas a = mutable_ref_store_blob_url sas b → a = b.
Proof.
  unfold mutable_ref_store_blob_url. destruct (split_once 63 sas) as [[base query]|].
  - intros Hu%str_app_inj_l%str_app_inj_l. by apply str_app_inj_r in Hu.
  - by intros Hu%str_app_inj_l%str_app_inj_l.
Qed.

Lemma hex_nibble_inj b c : is_byte b → is_byte c → hex_encode_bytes [b] = hex_encode_bytes [c] → b = c.
Proof.
  intros Hb Hc Heq. assert (decode_hex_pairs (hex_encode_bytes [b]) = decode_hex_pairs (hex_encode_bytes [c])) as Hd
    by by rewrite Heq.
  rewrite !decode_encode_pairs in Hd by (by apply Forall_singleton). by simplify_eq.
Qed.

Lemma row_key_inj a b : mutable_ref_store_table_row_key a = mutable_ref_store_table_row_key b → a = b.
Proof.
  unfold mutable_ref_store_table_row_key, hex_encode. intros H%(f_equal as_bytes).
  rewrite !as_bytes_of_bytes in H by (apply hex_encode_bytes_byte, as_bytes_byte).
  apply (f_equal decode_hex_pairs) in H. rewrite !decode_encode_pairs in H by apply as_bytes_byte.
  by apply (inj Some), (inj as_bytes) in H.
Qed.

(** The location of the ref with these segments. *)
Definition ref_location (env : EnvironmentConfig) (request_dir : string) (segs : list bytes) : MutableRefStoreLocation :=
  let relative := "refs/" +:+ slash_join segs in
  match env with
  | Local root _ | LocalRedb root _ =>
      let root := resolve_path request_dir root in
      LocalFile (path_join (default root (path_parent root)) relative)
  | LocalOverlay store _ | Production store _ =>
      AzureBlob (mutable_ref_store_blob_url (container_sas_url store) relative)
        (mutable_ref_store_blob_display_path (container_sas_url store) relative)
  | ProductionV2 store _ =>
      AzureTable (container_sas_url store) (mutable_ref_store_table_display_path (container_sas_url store) relative)
        "refs" (mutable_ref_store_table_row_key relative)
  end.

Lemma resolve_eq env dir name : resolve_mutable_ref_store env dir name =
  match normalized_ref_name_segments name with
  | Ok segs => Some (ref_location env dir segs)
  | Err _ => None
  end.
Proof.
  unfold resolve_mutable_ref_store. destruct (normalized_ref_name_segments name) as [segs|e] eqn:Hn.
  - rewrite (path_buf_eq _ _ Hn). unfold mutable_ref_relative_path. rewrite Hn. cbn. by destruct env.
  - unfold mutable_ref_relative_path. by rewrite Hn.
Qed.

Lemma ref_location_inj env dir segs segs' :
  segs ≠ [] → segs' ≠ [] → Forall segment_ok segs → Forall segment_ok segs' →
  ref_location env dir segs = ref_location env dir segs' → segs = segs'.
Proof.
  intros Hn Hn' Hs Hs' Heq. apply slash_join_inj; [done..|]. apply (str_app_inj_l "refs/").
  unfold ref_location in Heq. cbv zeta in Heq. destruct env.
  1,2: injection Heq as Heq; by eapply path_join_inj.
  1,2: apply (blob_url_inj (container_sas_url block_store)); congruence.
  apply row_key_inj. congruence.
Qed.

(** A validated request has one place for its refs. Resolving its ref name
    never panics; the place is a file below the [refs] directory beside a local
    block store, a blob or a table row, as the environment says, named by path
    segments that are neither empty nor dots and contain no slash; and two ref
    names of one environment share a place only when they have the same
    segments. *)
Theorem validated_ref_location r request_dir :
  validate_request r = Ok () →
  ∃ segs, normalized_ref_name_segments (ref_name r) = Ok segs ∧ segs ≠ [] ∧ Forall segment_ok segs
    ∧ resolve_mutable_ref_store (environment r) request_dir (ref_name r)
      = Some (ref_location (environment r) request_dir segs)
    ∧ ∀ name, resolve_mutable_ref_store (environment r) request_dir name
        = Some (ref_location (environment r) request_dir segs) ↔ normalized_ref_name_segments name = Ok segs.
Proof.
  unfold validate_request. rewrite !result_seq_ok, result_skip_ok.
  intros (_&_&_&[segs Hn]&_). destruct (segments_spec _ _ Hn) as [Hne Hs].
  exists segs. split_and!; [done..|by rewrite resolve_eq, Hn|]. intros name. rewrite resolve_eq.
  destruct (normalized_ref_name_segments name) as [segs'|e] eqn:Hn'; [|by split].
  destruct (segments_spec _ _ Hn') as [Hne' Hs']. split; [|by intros [= ->]].
  intros [= Heq]. f_equal. by eapply ref_location_inj.
Qed.

(** ** A request *)
Definition sample_request : BatchRequest := {|
  environment := Local "data/blocks" {| base_url := "http://localhost:8080"; model := DEFAULT_LOCAL_EMBEDDING_MODEL;
    local_api_key_env := None; request_timeout_secs := DEFAULT_REQUEST_TIMEOUT_SECS; max_retries := DEFAULT_MAX_RETRIES;
    retry_delay_ms := DEFAULT_RETRY_DELAY_MS |};
  embedding_spec := {| config_dims := 384; config_encoding := "f32le" |};
  block_size_target := DEFAULT_BLOCK_SIZE_TARGET;
  stage := FullPipeline;
  profile_version := PUBLISHED_PROFILE_V0_8_0;
  max_concurrency := None;
  replay_batch_size := Some 4;
  ref_name := " feature\test ";
  request_items := [Document "a.txt" ∅]
|}.

Lemma validated_ref_location_witness :
  resolve_mutable_ref_store (environment sample_request) "/srv" (ref_name sample_request)
    = Some (LocalFile "/srv/data/refs/feature/test")
  ∧ resolve_mutable_ref_store (environment sample_request) "/srv" "feature/../test" = None
  ∧ resolve_mutable_ref_store (environment sample_request) "/srv" "feature/test2"
    ≠ Some (LocalFile "/srv/data/refs/feature/test").
Proof.
  destruct (validated_ref_location sample_request "/srv") as (segs&Hsegs&_&_&Hloc&Hother); [vm_compute; reflexivity|].
  vm_compute in Hsegs. injection Hsegs as <-.
  split; [exact Hloc|]. split; [vm_compute; reflexivity|].
  intros Heq. apply (proj1 (Hother "feature/test2")) in Heq. vm_compute in Heq. discriminate.
Defined.
