(* ===== verification/RefStore.v ===== *)
(** * Mutable ref stores ([runtime.rs])

    The bytes of a ref store are a local file, an Azure blob or a row of an
    Azure table. The local file is on a disk whose operations can fail; the
    HTTP and table clients, the URL parser and [serde_json] are parameters. *)

From Stdlib Require Import ZArith Lia Ascii.
From stdpp Require Import base gmap sets strings sorting pretty option list.
From S2P Require Import Prelude Hex Blocks Runtime Text Disk Items Mailbox Config.
#[local] Open Scope Z_scope.

Definition AZURE_BLOB_API_VERSION : string := "2023-11-03".
Definition MUTABLE_REF_STORE_HTTP_RETRY_ATTEMPTS : nat := 3.
Definition MUTABLE_REF_TABLE_SCHEMA_VERSION : Z := 1.

Definition mutable_ref_store_label (location : MutableRefStoreLocation) : string :=
  match location with
  | LocalFile path => path
  | AzureBlob _ display_path => display_path
  | AzureTable _ display_path _ _ => display_path
  end.

Definition mutable_ref_store_io_error (message : string) : io_error := IoError OtherKind message.

(** ** Parameters *)
Record http_response := Response { status : Z; response_bytes : result string bytes }.
Record parsed_url := {
  url_query : option string;
  url_query_pairs : list (string * string);
  url_host : option string;
  url_path : string;
  url_path_segments : option (list string)
}.
Record MutableRefTableEntity := {
  entity_partition_key : string;
  entity_row_key : string;
  entity_schema_version : Z;
  entity_ref_path : string;
  entity_state_json : string
}.
Record MutableRefTableEndpoint := { account : string; table_name : string; sas_token : string }.

(** A failing client is its message; [table_query] gives the entities of the
    first page, if there is one. *)
Class RemoteRefs (T : Type) := {
  http_client : result string unit;
  http_get : string → stm T string http_response;
  http_put : string → bytes → stm T string http_response;
  status_text : Z → string;
  url_parse : string → result string parsed_url;
  sas_credentials : string → result string unit;
  table_query : MutableRefTableEndpoint → string → stm T string (option (list MutableRefTableEntity));
  insert_or_replace : MutableRefTableEndpoint → MutableRefTableEntity → stm T string unit;
  utf8_error : bytes → string
}.

(** [serde_json] on a state. *)
Class RefsJson := {
  refs_to_pretty : MutableRefStoreState → result string bytes;
  refs_from_slice : bytes → result string MutableRefStoreState
}.
Class RefsJsonLaws `{RefsJson} := {
  refs_from_to st b : refs_to_pretty st = Ok b → refs_from_slice b = Ok st;
  refs_bytes st b : refs_to_pretty st = Ok b → Forall is_byte b
}.

(** ** Azure tables *)
Definition non_empty_pair (name : string) (kv : string * string) : bool :=
  String.eqb kv.1 name && negb (bool_decide (kv.2 = "")).

Section remote.
Context {T : Type} `{RemoteRefs T}.

Definition parse_endpoint (table_sas_url : string) : result io_error MutableRefTableEndpoint :=
  let fail message := mutable_ref_store_io_error message in
  url ← map_err mutable_ref_store_io_error (url_parse table_sas_url);
  reject_if (match url_query url with Some q => bool_decide (q = "") | None => true end)
    (fail "Azure Table SAS URL must include SAS query parameters") ;;
  reject_if (negb (existsb (non_empty_pair "sig") (url_query_pairs url)))
    (fail "Azure Table SAS URL must include a non-empty SAS signature parameter") ;;
  host ← ok_or (url_host url) (fail "Azure Table SAS URL must include a host");
  account ← ok_or (a ← head (split_on 46 (as_bytes host)); if bool_decide (a = []) then None else Some (of_bytes a))
    (fail "Azure Table SAS URL must include an account host");
  segments ← ok_or (url_path_segments url) (fail "Azure Table SAS URL must be hierarchical");
  let not_root := fail ("Azure Table SAS URL must address a table root, got path " +:+ url_path url) in
  match filter (λ s, s ≠ "") segments with
  | [table_name] =>
      reject_if (bool_decide (40 ∈ as_bytes table_name) || bool_decide (41 ∈ as_bytes table_name)) not_root ;;
      Ok {| account := account; table_name := table_name; sas_token := default "" (url_query url) |}
  | _ => Err not_root
  end.

Definition mutable_ref_table_client (table_sas_url : string) : result io_error MutableRefTableEndpoint :=
  endpoint ← parse_endpoint table_sas_url;
  map_err mutable_ref_store_io_error (sas_credentials (sas_token endpoint)) ;;
  Ok endpoint.

(** [value.replace('\'', "''")] *)
Definition escape_odata_string_literal (value : string) : string :=
  of_bytes (as_bytes value ≫= λ c, if c =? 39 then [39; 39] else [c]).
Definition mutable_ref_table_lookup_filter (partition_key row_key : string) : string :=
  "PartitionKey eq '" +:+ escape_odata_string_literal partition_key +:+ "' and RowKey eq '"
    +:+ escape_odata_string_literal row_key +:+ "'".

Definition read_mutable_ref_table_entity (table_sas_url partition_key row_key : string)
    : stm T io_error (option MutableRefTableEntity) :=
  client ← lift (mutable_ref_table_client table_sas_url);
  page ← map_err_stm mutable_ref_store_io_error
    (table_query client (mutable_ref_table_lookup_filter partition_key row_key));
  entities ← lift (ok_or page (mutable_ref_store_io_error "Azure Table query returned no response pages"));
  match entities with
  | [] => mret None
  | [entity] => mret (Some entity)
  | _ => throw (mutable_ref_store_io_error ("lookup for PartitionKey=" +:+ partition_key +:+ " RowKey=" +:+ row_key
      +:+ " returned " +:+ fmt_usize (len entities) +:+ " entities"))
  end.

Definition write_mutable_ref_table_entity (table_sas_url : string) (entity : MutableRefTableEntity) : stm T io_error unit :=
  client ← lift (mutable_ref_table_client table_sas_url);
  map_err_stm mutable_ref_store_io_error (insert_or_replace client entity).

(** ** Retries *)
Definition is_server_error (st : Z) : bool := (500 <=? st) && (st <=? 599).
Definition is_success (st : Z) : bool := (200 <=? st) && (st <=? 299).
Definition retryable (st : Z) : bool := is_server_error st || (st =? 408) || (st =? 429).

(** [remaining] attempts are left; [attempt + 1 < ATTEMPTS] says that this is
    not the last one. *)
Fixpoint retry_loop (remaining : nat) (last_error : option io_error) (send : stm T string http_response)
    : stm T io_error http_response :=
  match remaining with
  | O => throw (default (mutable_ref_store_io_error "mutable ref request failed") last_error)
  | S remaining => fun s =>
      let more := negb (bool_decide (remaining = O)) in
      match send s with
      | (s, Ok response) =>
          if more && retryable (status response)
          then retry_loop remaining (Some (mutable_ref_store_io_error ("retryable HTTP status "
                 +:+ status_text (status response) +:+ " while accessing mutable ref store"))) send s
          else (s, Ok response)
      | (s, Err error) =>
          if more then retry_loop remaining (Some (mutable_ref_store_io_error error)) send s
          else (s, Err (mutable_ref_store_io_error error))
      end
  end.

Definition mutable_ref_store_request_with_retry (send : stm T string http_response) : stm T io_error http_response :=
  lift (map_err mutable_ref_store_io_error http_client) ;;
  retry_loop MUTABLE_REF_STORE_HTTP_RETRY_ATTEMPTS None send.
End remote.

(** ** Local files

    [Path::with_extension], of a path that ends in a file name. *)
Definition file_stem (name : bytes) : bytes :=
  match reverse (split_on 46 name) with
  | _ :: rest => if bool_decide (rest = [] ∨ rest = [[]]) then name else join_text [46] (reverse rest)
  | [] => name
  end.
Definition with_extension (path ext : string) : string :=
  match file_name path with
  | None => path
  | Some name =>
      let rev := drop_slashes (reverse (as_bytes path)) in
      of_bytes (reverse (drop (length name) rev) ++ file_stem name) +:+ "." +:+ ext
  end.

Section local_file.
Context {E : Type}.
Abbreviation file_op A := (stm disk (RuntimeError E) A).

Definition read_local_file (path : string) : file_op (option bytes) :=
  exists_ ← map_err_stm (ReadMutableRefStore path) (path_exists path);
  if negb exists_ then mret None else
  data ← map_err_stm (ReadMutableRefStore path) (fs_read path);
  mret (Some data).

(** The old file is moved to the backup. *)
Definition back_up (path backup_path : string) : file_op unit :=
  stale ← map_err_stm (WriteMutableRefStore backup_path) (path_exists backup_path);
  (if stale : bool then map_err_stm (WriteMutableRefStore backup_path) (remove_file backup_path) else mret ()) ;;
  map_err_stm (WriteMutableRefStore path) (rename path backup_path).

(** The new file takes its place; the old one is put back when that fails. *)
Definition replace_or_restore (path temp_path backup_path : string) (had_existing_file : bool) : file_op unit := fun d =>
  match rename temp_path path d with
  | (d, Ok _) => (d, Ok ())
  | (d, Err source) =>
      ((if had_existing_file then (rename backup_path path d).1 else d), Err (WriteMutableRefStore path source))
  end.

Definition drop_backup (backup_path : string) (had_existing_file : bool) : file_op unit :=
  if had_existing_file then
    left_over ← map_err_stm (WriteMutableRefStore backup_path) (path_exists backup_path);
    if left_over : bool then map_err_stm (WriteMutableRefStore backup_path) (remove_file backup_path) else mret ()
  else mret ().

Definition prepare_local_file (path : string) : file_op unit :=
  match path_parent path with
  | Some parent => map_err_stm (PrepareMutableRefStore parent) (create_dir_all parent)
  | None => mret ()
  end.

Definition write_local_file (path : string) (encoded : bytes) : file_op unit :=
  prepare_local_file path ;;
  let temp_path := with_extension path "tmp" in
  let backup_path := with_extension path "bak" in
  map_err_stm (WriteMutableRefStore temp_path) (fs_write temp_path encoded) ;;
  had_existing_file ← map_err_stm (WriteMutableRefStore path) (path_exists path);
  (if had_existing_file : bool then back_up path backup_path else mret ()) ;;
  replace_or_restore path temp_path backup_path had_existing_file ;;
  drop_backup backup_path had_existing_file.
End local_file.

(** ** Stores *)
Record place (T : Type) := Place { local : disk; remote : T }.
Arguments Place {T} local remote.
Arguments local {T} p.
Arguments remote {T} p.

Section stores.
Context {T E : Type} `{RemoteRefs T} `{RefsJson}.
Abbreviation place_op A := (stm (place T) (RuntimeError E) A).
Definition on_local {A} (m : stm disk (RuntimeError E) A) : place_op A := fun p =>
  let '(d, r) := m (local p) in (Place d (remote p), r).
Definition on_remote {A} (wrap : io_error → RuntimeError E) (m : stm T io_error A) : place_op A := fun p =>
  let '(t, r) := m (remote p) in (Place (local p) t, map_err wrap r).

Definition read_mutable_ref_store_bytes (location : MutableRefStoreLocation) : place_op (option bytes) :=
  match location with
  | LocalFile path => on_local (read_local_file path)
  | AzureBlob url display_path =>
      let wrap := ReadMutableRefStore display_path in
      response ← on_remote wrap (mutable_ref_store_request_with_retry (http_get url));
      if status response =? 404 then mret None
      else if is_success (status response)
      then lift (map_err (λ e, wrap (mutable_ref_store_io_error e)) (Some <$> response_bytes response))
      else throw (wrap (mutable_ref_store_io_error ("unexpected HTTP status " +:+ status_text (status response)
             +:+ " while reading mutable ref store")))
  | AzureTable table_sas_url display_path partition_key row_key =>
      let wrap := ReadMutableRefStore display_path in
      entity ← on_remote wrap (read_mutable_ref_table_entity table_sas_url partition_key row_key);
      match entity with
      | None => mret None
      | Some entity =>
          if negb (entity_schema_version entity =? MUTABLE_REF_TABLE_SCHEMA_VERSION)
          then throw (wrap (mutable_ref_store_io_error ("unsupported mutable ref table schema version "
                 +:+ pretty (entity_schema_version entity))))
          else mret (Some (as_bytes (entity_state_json entity)))
      end
  end.

Definition write_mutable_ref_store_bytes (location : MutableRefStoreLocation) (encoded : bytes) : place_op unit :=
  match location with
  | LocalFile path => on_local (write_local_file path encoded)
  | AzureBlob url display_path =>
      let wrap := WriteMutableRefStore display_path in
      response ← on_remote wrap (mutable_ref_store_request_with_retry (http_put url encoded));
      if is_success (status response) then mret ()
      else throw (wrap (mutable_ref_store_io_error ("unexpected HTTP status " +:+ status_text (status response)
             +:+ " while writing mutable ref store")))
  | AzureTable table_sas_url display_path partition_key row_key =>
      let wrap := WriteMutableRefStore display_path in
      (if bool_decide (utf8 (utf8_lossy encoded) = encoded) then mret ()
       else throw (wrap (mutable_ref_store_io_error (utf8_error encoded)))) ;;
      on_remote wrap (write_mutable_ref_table_entity table_sas_url
        {| entity_partition_key := partition_key; entity_row_key := row_key;
           entity_schema_version := MUTABLE_REF_TABLE_SCHEMA_VERSION; entity_ref_path := display_path;
           entity_state_json := of_bytes encoded |})
  end.

Definition prepare_mutable_ref_store (location : MutableRefStoreLocation) : place_op unit :=
  match location with
  | LocalFile path => on_local (prepare_local_file path)
  | AzureBlob _ _ => mret ()
  | AzureTable table_sas_url display_path _ _ =>
      lift (map_err (PrepareMutableRefStore display_path) (mutable_ref_table_client table_sas_url)) ;; mret ()
  end.

Definition load_refs (location : MutableRefStoreLocation) : place_op MutableRefStoreState :=
  data ← read_mutable_ref_store_bytes location;
  match data with
  | None => mret default_refs
  | Some data => lift (map_err (DecodeMutableRefStore (mutable_ref_store_label location)) (refs_from_slice data))
  end.

Definition write_refs_to (location : MutableRefStoreLocation) (st : MutableRefStoreState) : place_op unit :=
  encoded ← lift (map_err (EncodeMutableRefStore (mutable_ref_store_label location)) (refs_to_pretty st));
  write_mutable_ref_store_bytes location encoded.

Definition update_refs (location : MutableRefStoreLocation) (update : MutableRefStoreUpdate) : place_op unit :=
  refs ← load_refs location;
  write_refs_to location (apply_mutable_ref_store_update refs update).
End stores.
