(* ===== verification/RefStoreSpec.v ===== *)
(** * Ref stores: failures, crashes and retries

    What a write of a local ref store leaves behind when operations fail or a
    crash interrupts it, and what the retries of a remote request return. The
    three kinds of store, with failures wherever they happen, implement the
    interface of [Runtime.v]: [store_refs] and [store_refs_laws]. The concrete
    inputs are at the end. *)

From Stdlib Require Import ZArith Lia Ascii.
From stdpp Require Import base gmap sets strings sorting option list.
From S2P Require Import Prelude Hex Blocks Text Runtime Items Mailbox Disk Config ConfigSpec RefStore.
#[local] Open Scope Z_scope.

(** ** A write of the local file *)
Section write_states.
Context {E : Type} (path : string) (encoded : bytes) (g0 : contents) (k : nat).
Abbreviation temp := (with_extension path "tmp").
Abbreviation bak := (with_extension path "bak").
Context (Htemp : temp ≠ path) (Hbak : bak ≠ path).

Lemma temp_bak : temp ≠ bak.
Proof.
  unfold with_extension in *. destruct (file_name path) as [name|]; [|done].
  intros Heq%(f_equal as_bytes). rewrite !as_bytes_app in Heq. by apply app_inv_head in Heq.
Qed.

Definition others (g : contents) : Prop := ∀ p, p ≠ path → p ≠ temp → p ≠ bak → g !! p = g0 !! p.

(** The old file, the new one, or none with the old one as the backup. *)
Definition in_place (g : contents) : Prop := (g !! path = g0 !! path ∨ g !! path = Some encoded) ∧ others g.
Definition moved (g : contents) : Prop := g !! path = None ∧ g !! bak = g0 !! path ∧ others g.
Definition during_write (g : contents) : Prop := in_place g ∨ moved g.

(** How far the write has come; [n] failures are left of [k]. *)
Definition untouched (n : nat) (g : contents) : Prop := (n ≤ k)%nat ∧ g !! path = g0 !! path ∧ others g.
Definition written (n : nat) (g : contents) : Prop := untouched n g ∧ g !! temp = Some encoded.
Definition backed_up (n : nat) (g : contents) : Prop := (n ≤ k)%nat ∧ moved g ∧ g !! temp = Some encoded.
Definition replaced (g : contents) : Prop := g !! path = Some encoded ∧ others g.
Definition failed_write (n : nat) (g : contents) : Prop := in_place g ∨ moved g ∧ (n + 2 ≤ k)%nat.

Lemma untouched_during n g : untouched n g → during_write g.
Proof. intros (_&Hg&Ho). left. split; [by left|done]. Qed.
Lemma untouched_failed n g : untouched n g → failed_write n g.
Proof. intros (_&Hg&Ho). left. split; [by left|done]. Qed.
Lemma untouched_pred n g : untouched (S n) g → untouched n g.
Proof. intros (Hn&Hg&Ho). split_and!; [lia|done..]. Qed.
Lemma replaced_during g : replaced g → during_write g.
Proof. intros [Hg Ho]. left. split; [by right|done]. Qed.
Lemma replaced_failed n g : replaced g → failed_write n g.
Proof. intros [Hg Ho]. left. split; [by right|done]. Qed.

Lemma others_insert g p b : p = temp ∨ p = bak ∨ p = path → others g → others (<[p := b]> g).
Proof. intros Hp Ho q H1 H2 H3. rewrite lookup_insert_ne; [by apply Ho|]. intros ->. naive_solver. Qed.
Lemma others_delete g p : p = temp ∨ p = bak ∨ p = path → others g → others (delete p g).
Proof. intros Hp Ho q H1 H2 H3. rewrite lookup_delete_ne; [by apply Ho|]. intros ->. naive_solver. Qed.

#[local] Hint Resolve untouched_during untouched_failed untouched_pred replaced_during replaced_failed : refs.

Abbreviation W P m Q := (triple (E := RuntimeError E) during_write P m Q (λ _, failed_write)).

Lemma W_exists wrap p P : (∀ n g, P n g → during_write g) → (∀ n g, P (S n) g → P n g) →
  W P (map_err_stm wrap (path_exists p)) (λ b n g, (b = true → is_Some (g !! p)) ∧ P n g).
Proof.
  intros HP Hpred. apply triple_map_err, triple_operation.
  - intros n g Hg. cbn. split; [by eapply HP|]. split; [by intros ?%bool_decide_eq_true|done].
  - intros n f g Hg. cbn. split; [by eapply HP|]. split; [done|by apply Hpred].
Qed.

Lemma written_untouched n g : written n g → untouched n g.
Proof. by intros []. Qed.
Lemma written_during n g : written n g → during_write g.
Proof. intros [Hu _]. by eapply untouched_during. Qed.
Lemma written_pred n g : written (S n) g → written n g.
Proof. intros [Hu Ht]. split; [by apply untouched_pred|done]. Qed.

Lemma W_prepare : W untouched (prepare_local_file path) (λ _, untouched).
Proof.
  unfold prepare_local_file. destruct (path_parent path) as [parent|]; [|by apply triple_ret].
  apply triple_map_err, triple_operation; cbn; eauto with refs.
Qed.

Lemma W_write_temp wrap : W untouched (map_err_stm wrap (fs_write temp encoded)) (λ _, written).
Proof.
  apply triple_map_err, triple_operation; cbn.
  - intros n g (Hn&Hg&Ho). assert (untouched n (<[temp := encoded]> g)) as Hu.
    { split_and!; [done|by rewrite lookup_insert_ne|]. by apply others_insert; [left|]. }
    split; [by eapply untouched_during|]. split; [done|]. by rewrite lookup_insert_eq.
  - intros n f g (Hn&Hg&Ho). assert (untouched n (<[temp := partial f]> g)) as Hu; [|eauto with refs].
    split_and!; [lia|by rewrite lookup_insert_ne|]. by apply others_insert; [left|].
Qed.

(** Removing a stale backup changes nothing else. *)
Lemma W_remove wrap (P : assertion) :
  (∀ n g, P n g → during_write (delete bak g) ∧ P n (delete bak g)) →
  (∀ n g, P n g → during_write g ∧ failed_write n g) → (∀ n g, P (S n) g → P n g) →
  W (λ n g, is_Some (g !! bak) ∧ P n g) (map_err_stm wrap (remove_file bak)) (λ _, P).
Proof.
  intros HP Hd Hpred. apply triple_map_err, triple_operation.
  - intros n g [[b Hb] Hg]. rewrite Hb. cbn. by apply HP.
  - intros n f g [_ Hg]. cbn. split; [by eapply Hd, Hpred|by apply Hd, Hpred].
Qed.

Lemma W_remove_if (b : bool) wrap (P : assertion) :
  (∀ n g, P n g → during_write (delete bak g) ∧ P n (delete bak g)) →
  (∀ n g, P n g → during_write g ∧ failed_write n g) → (∀ n g, P (S n) g → P n g) →
  W (λ n g, (b = true → is_Some (g !! bak)) ∧ P n g)
    (if b then map_err_stm wrap (remove_file bak) else mret ()) (λ _, P).
Proof.
  intros HP Hd Hpred. destruct b.
  - eapply triple_weaken; [by apply (W_remove wrap P)| |done|done]. cbn. intros n g [Hb Hg]. split; [by apply Hb|done].
  - apply triple_ret. by intros n g [_ Hg].
Qed.

Lemma written_delete n g : written n g → during_write (delete bak g) ∧ written n (delete bak g).
Proof.
  intros [(Hn&Hg&Ho) Ht]. assert (untouched n (delete bak g)) as Hu.
  { split_and!; [done|by rewrite lookup_delete_ne|]. by apply others_delete; [right; left|]. }
  split; [by eapply untouched_during|]. split; [done|]. rewrite lookup_delete_ne; [done|]. apply not_eq_sym, temp_bak.
Qed.

Lemma W_back_up : W (λ n g, is_Some (g !! path) ∧ written n g) (back_up path bak) (λ _, backed_up).
Proof.
  set (P := λ n g, is_Some (g !! path) ∧ written n g).
  assert (∀ n g, P n g → during_write (delete bak g) ∧ P n (delete bak g)) as Hdel.
  { intros n g [Hp Hw]. destruct (written_delete n g Hw). unfold P. by rewrite lookup_delete_ne. }
  assert (∀ n g, P n g → during_write g ∧ failed_write n g) as Hdur.
  { intros n g [_ Hw]. split; [by eapply written_during|by eapply untouched_failed, written_untouched]. }
  assert (∀ n g, P (S n) g → P n g) as Hpred by (intros n g [Hp Hw]; split; [done|by apply written_pred]).
  unfold back_up. eapply triple_bind; [apply (W_exists _ bak P); [by intros n g []%Hdur|done]|]. intros stale.
  eapply triple_bind; [by apply W_remove_if|]. intros []. apply triple_map_err, triple_operation.
  - intros n g [[b Hb] [(Hn&Hg&Ho) Ht]]. rewrite Hb. cbn.
    assert (moved (<[bak := b]> (delete path g))) as Hm.
    { split_and!; [by rewrite lookup_insert_ne, lookup_delete_eq|by rewrite lookup_insert_eq, <-Hg|].
      apply others_insert; [by right; left|]. by apply others_delete; [right; right|]. }
    split; [by right|]. split_and!; [done..|]. rewrite lookup_insert_ne, lookup_delete_ne; [done|done|].
    apply not_eq_sym, temp_bak.
  - intros n f g Hg. cbn. by apply Hdur, Hpred.
Qed.

Lemma W_replace_or_restore (had : bool) :
  W (if had then backed_up else written) (replace_or_restore path temp bak had) (λ _ _, replaced).
Proof.
  intros d d' r HP. unfold replace_or_restore.
  set (P := if had then backed_up else written) in *.
  assert (triple during_write P (rename temp path) (λ _ _, replaced) (λ _ n, P (S n))) as Hr.
  { apply triple_operation.
    - intros n g Hg. assert (g !! temp = Some encoded ∧ others g) as [Ht Ho].
      { destruct had; [by destruct Hg as (_&(_&_&?)&?)|by destruct Hg as ((_&_&?)&?)]. }
      rewrite Ht. cbn. assert (replaced (<[path := encoded]> (delete temp g))) as Hrep.
      { split; [by rewrite lookup_insert_eq|]. apply others_insert; [by right; right|]. by apply others_delete; [left|]. }
      split; [by apply replaced_during|done].
    - intros n f g Hg. cbn. split; [|done]. destruct had; [by right; destruct Hg as (_&?&_)|by eapply written_during]. }
  destruct (rename temp path d) as [d1 [u|source]] eqn:Hd; destruct (Hr _ _ _ HP Hd) as [(n1&Hn1&HI1) HQ].
  { intros [= <- <-]. split; [by exists n1|done]. }
  destruct had; [|intros [= <- <-]; split; [by exists n1|]; by eapply untouched_failed, untouched_pred, written_untouched].
  assert (triple during_write (λ n, backed_up (S n)) (rename bak path) (λ _, failed_write) (λ _, failed_write)) as Hback.
  { apply triple_operation.
    - intros n g (Hn&(Hp&Hb&Ho)&_). destruct (g !! bak) as [b|] eqn:Hgb; cbn.
      + assert (in_place (<[path := b]> (delete bak g))) as Hin.
        { split; [left; by rewrite lookup_insert_eq|]. apply others_insert; [by right; right|].
          by apply others_delete; [right; left|]. }
        by split; left.
      + assert (in_place g) as Hin by (split; [left; congruence|done]). by split; left.
    - intros n f g (Hn&Hm&_). cbn. split; [by right|]. right. split; [done|lia]. }
  destruct (rename bak path d1) as [d2 r2] eqn:Hd2. intros [= <- <-].
  destruct (Hback _ _ _ HQ Hd2) as [(n2&Hn2&HI2) HQ2]. split; [|by destruct r2].
  exists (n2 ++ n1). rewrite <-app_assoc, <-Hn1. split; [done|]. by apply Forall_app.
Qed.

Lemma W_drop_backup (had : bool) : W (λ _, replaced) (drop_backup bak had) (λ _ _, replaced).
Proof.
  unfold drop_backup. destruct had; [|by apply triple_ret].
  assert (∀ n : nat, ∀ g, replaced g → during_write (delete bak g) ∧ replaced (delete bak g)) as Hdel.
  { intros n g [Hg Ho]. assert (replaced (delete bak g)) as Hr; [|split; [by apply replaced_during|done]].
    split; [by rewrite lookup_delete_ne|]. by apply others_delete; [right; left|]. }
  eapply triple_bind; [apply (W_exists _ bak (λ _, replaced)); eauto with refs|]. intros left_over.
  apply (W_remove_if left_over _ (λ _, replaced)); eauto with refs.
Qed.

Lemma W_write_local_file :
  W (λ n g, n = k ∧ g = g0) (write_local_file path encoded) (λ _ _, replaced).
Proof.
  unfold write_local_file.
  eapply triple_bind; [eapply triple_weaken; [apply W_prepare| |done|done]; intros n g [-> ->]; by split_and!|].
  intros []. eapply triple_bind; [apply W_write_temp|]. intros [].
  eapply triple_bind; [apply (W_exists _ path written); [apply written_during|apply written_pred]|]. intros had.
  apply triple_bind with (Q0 := λ _, if had then backed_up else written).
  { destruct had.
    - eapply triple_weaken; [apply W_back_up| |done|done]. cbn. intros n g [Hp Hw]. split; [by apply Hp|done].
    - apply triple_ret. by intros n g [_ Hw]. }
  intros []. eapply triple_bind; [apply W_replace_or_restore|]. intros []. apply W_drop_backup.
Qed.
End write_states.

(** ** Loading and writing the state *)
Section local_refs.
Context {T E : Type} `{RemoteRefs T} `{RefsJson} `{HL : !RefsJsonLaws}.
Context (path : string).
Abbreviation run A := (prod (place T) (result (RuntimeError E) A)).

(** What [load_mutable_ref_store] finds when nothing fails. *)
Definition loads_refs (t : T) (g : contents) : result (RuntimeError E) MutableRefStoreState :=
  (load_refs (LocalFile path) (Place (Disk g [] []) t) : run MutableRefStoreState).2.

Lemma loads_refs_eq t g : loads_refs t g =
  match g !! path with
  | None => Ok default_refs
  | Some data => map_err (DecodeMutableRefStore path) (refs_from_slice data)
  end.
Proof.
  unfold loads_refs, load_refs, read_mutable_ref_store_bytes, on_local, read_local_file, path_exists, map_err_stm,
    operation, mbind, stm_bind. cbn. destruct (g !! path) as [b|] eqn:Hb; cbn; [|done].
  unfold fs_read, operation. cbn. rewrite Hb. cbn. done.
Qed.

Lemma loads_refs_written t g st b : refs_to_pretty st = Ok b → g !! path = Some b → loads_refs t g = Ok st.
Proof. intros Hst%refs_from_to Hg. by rewrite loads_refs_eq, Hg, Hst. Qed.

Context (Htemp : with_extension path "tmp" ≠ path) (Hbak : with_extension path "bak" ≠ path).

Lemma write_refs_to_inv st p p' (r : result (RuntimeError E) unit) :
  write_refs_to (LocalFile path) st p = (p', r) →
  match refs_to_pretty st with
  | Ok b => ∃ d, write_local_file path b (local p) = (d, r) ∧ p' = Place d (remote p)
  | Err e => p' = p ∧ r = Err (EncodeMutableRefStore path e)
  end.
Proof.
  unfold write_refs_to, mbind, stm_bind, lift. destruct (refs_to_pretty st) as [b|e]; cbn; [|by intros [= <- <-]].
  unfold on_local. destruct (write_local_file path b (local p)) as [d r1]. intros [= <- <-]. eauto.
Qed.

(** C27. Writing a local ref store with failures and crashes, if the file's name
    ends in neither [.tmp] nor [.bak] (such a file is its own temporary file or
    backup). Wherever a crash interrupts the write, the store reads as before or
    as written, or the file is missing and the backup beside it is the old one;
    no file but the three changes. A write that succeeds is read back; one that
    fails leaves the store as before or as written, if at most one of its
    operations has failed. *)
Theorem write_local_safe st p p' (r : result (RuntimeError E) unit) :
  write_refs_to (LocalFile path) st p = (p', r) →
  (∃ states, seen (local p') = states ++ seen (local p) ∧ Forall (λ g,
    (loads_refs (remote p) g = loads_refs (remote p) (on_disk (local p)) ∨ loads_refs (remote p) g = Ok st
     ∨ g !! path = None ∧ g !! with_extension path "bak" = on_disk (local p) !! path)
    ∧ others path (on_disk (local p)) g) states) ∧
  match r with
  | Ok _ => loads_refs (remote p) (on_disk (local p')) = Ok st
  | Err _ => (failures (local p) ≤ Datatypes.S (failures (local p')))%nat →
      loads_refs (remote p) (on_disk (local p')) = loads_refs (remote p) (on_disk (local p))
      ∨ loads_refs (remote p) (on_disk (local p')) = Ok st
  end.
Proof using Hbak Htemp HL.
  intros Hw%write_refs_to_inv. destruct (refs_to_pretty st) as [b|e] eqn:Hst.
  2: { destruct Hw as [-> ->]. split; [by exists []|by left]. }
  destruct Hw as (d&Hd&->). cbn [local].
  assert (∀ g, in_place path b (on_disk (local p)) g →
    loads_refs (remote p) g = loads_refs (remote p) (on_disk (local p)) ∨ loads_refs (remote p) g = Ok st) as Hin.
  { intros g [[Hg|Hg] _]; [left; by rewrite !loads_refs_eq, Hg|right; by eapply loads_refs_written]. }
  destruct (W_write_local_file path b (on_disk (local p)) (failures (local p)) Htemp Hbak _ _ _ (conj eq_refl eq_refl) Hd)
    as [(states&Hseen&Hst') Hr].
  split.
  - exists states. split; [done|]. eapply Forall_impl; [exact Hst'|]. intros g [Hg|(Hp&Hb&Ho)].
    + split; [|by destruct Hg]. destruct (Hin g Hg); auto.
    + split; [|done]. by right; right.
  - destruct r as [u|e]; [by destruct Hr as [Hg _]; eapply loads_refs_written|].
    intros Hk. destruct Hr as [Hg|[_ Hn]]; [by apply Hin|lia].
Qed.

(** A load whose first operation fails reads as a store that was never written:
    [Path::exists] takes the failure for absence. *)
Lemma load_refs_unreadable f l g sn t : ∃ d,
  load_refs (LocalFile path) (Place (Disk g (Some f :: l) sn) t)
  = (Place d t, Ok default_refs : result (RuntimeError E) _).
Proof. eexists. reflexivity. Qed.
End local_refs.

(** ** The interface of [Runtime.v]

    The three kinds of store implement it. The remote services are what they
    document: a blob that is read is the one that was written last, a request
    that fails has been carried out or not, and a table has one row per key. *)
Class RemoteRefsLaws (T : Type) `{RemoteRefs T} := {
  blob_at : string → T → option bytes;
  rows_at : MutableRefTableEndpoint → string → T → list MutableRefTableEntity;
  http_get_keeps url t t' r : http_get url t = (t', r) → ∀ u, blob_at u t' = blob_at u t;
  http_get_missing url t t' resp : http_get url t = (t', Ok resp) → status resp = 404 → blob_at url t = None;
  http_get_found url t t' resp b : http_get url t = (t', Ok resp) → is_success (status resp) = true →
    response_bytes resp = Ok b → blob_at url t = Some b;
  http_put_done url b t t' resp : http_put url b t = (t', Ok resp) → is_success (status resp) = true → blob_at url t' = Some b;
  http_put_keeps url b t t' r : http_put url b t = (t', r) → blob_at url t' = blob_at url t ∨ blob_at url t' = Some b;
  table_query_keeps ep f t t' r : table_query ep f t = (t', r) → ∀ ep' f', rows_at ep' f' t' = rows_at ep' f' t;
  table_query_rows ep f t t' rows : table_query ep f t = (t', Ok (Some rows)) → rows = rows_at ep f t;
  insert_done ep e t t' : insert_or_replace ep e t = (t', Ok ()) →
    rows_at ep (mutable_ref_table_lookup_filter (entity_partition_key e) (entity_row_key e)) t' = [e];
  insert_keeps ep e t t' r : insert_or_replace ep e t = (t', r) →
    let f := mutable_ref_table_lookup_filter (entity_partition_key e) (entity_row_key e) in
    rows_at ep f t' = rows_at ep f t ∨ rows_at ep f t' = [e]
}.

(** [rs_lost]: a lookup of the file has failed and read as absence, or a write
    has met two failures. *)
Record RefStore (T : Type) := { rs_place : place T; rs_lost : bool }.
Arguments Build_RefStore {T} rs_place rs_lost.
Arguments rs_place {T} r.
Arguments rs_lost {T} r.

Section interface.
Context {T E : Type} `{RemoteRefs T, !RemoteRefsLaws T} `{RefsJson} `{HL : !RefsJsonLaws}.
Context (location : MutableRefStoreLocation).
Abbreviation refs_result A := (result (RuntimeError E) A).

Definition decoded_refs (data : bytes) : refs_result MutableRefStoreState :=
  map_err (DecodeMutableRefStore (mutable_ref_store_label location)) (refs_from_slice data).

(** What the location durably holds. *)
Definition stored_at (p : place T) : refs_result MutableRefStoreState :=
  match location with
  | LocalFile path => loads_refs path (remote p) (on_disk (local p))
  | AzureBlob url _ => match blob_at url (remote p) with None => Ok default_refs | Some data => decoded_refs data end
  | AzureTable table_sas_url display_path partition_key row_key =>
      let fail e := Err (ReadMutableRefStore display_path e) in
      match mutable_ref_table_client table_sas_url with
      | Err e => fail e
      | Ok endpoint =>
          match rows_at endpoint (mutable_ref_table_lookup_filter partition_key row_key) (remote p) with
          | [] => Ok default_refs
          | [e] =>
              if entity_schema_version e =? MUTABLE_REF_TABLE_SCHEMA_VERSION then decoded_refs (as_bytes (entity_state_json e))
              else fail (mutable_ref_store_io_error "unsupported mutable ref table schema version")
          | _ => fail (mutable_ref_store_io_error "more than one entity")
          end
      end
  end.

(** A ref of another name than its temporary file and its backup. *)
Definition own_name : bool :=
  match location with
  | LocalFile path => bool_decide (with_extension path "tmp" ≠ path) && bool_decide (with_extension path "bak" ≠ path)
  | _ => true
  end.
Definition failed_in (p p' : place T) : nat := failures (local p) - failures (local p').

#[export] Instance store_refs : MutableRefs (RefStore T) E := {|
  refs_label _ := mutable_ref_store_label location;
  read_refs r :=
    let '(p, res) := load_refs location (rs_place r) in
    (Build_RefStore p (rs_lost r || is_ok res && bool_decide (failed_in (rs_place r) p ≠ O)), res);
  write_refs st r :=
    let '(p, res) := write_refs_to location st (rs_place r) in
    (Build_RefStore p (rs_lost r || bool_decide (2 ≤ failed_in (rs_place r) p)%nat), res);
  stored_refs r := stored_at (rs_place r);
  intact r := own_name && negb (rs_lost r)
|}.

(** *** The local file *)
Abbreviation read_back path p := (loads_refs path (remote p) (on_disk (local p)) : refs_result MutableRefStoreState).
Lemma local_load path p p' (r : refs_result MutableRefStoreState) : load_refs (LocalFile path) p = (p', r) →
  on_disk (local p') = on_disk (local p) ∧ remote p' = remote p
  ∧ ∀ st, r = Ok st → read_back path p = Ok st ∨ st = default_refs ∧ failed_in p p' ≠ O.
Proof.
  destruct p as [[g o sn] t]. unfold failed_in. rewrite loads_refs_eq. cbn [local remote on_disk].
  unfold load_refs, read_mutable_ref_store_bytes, on_local, read_local_file, path_exists, map_err_stm, mbind, stm_bind.
  assert (∀ f l s s', (failures (Disk g (Some f :: l) s) - failures (Disk g l s') ≠ O)%nat) as Hlost.
  { intros f l s s'. unfold failures. cbn [outcomes]. rewrite filter_cons_True by done. cbn. lia. }
  destruct o as [|[f|] o]; cbn; [| |].
  1, 3: destruct (g !! path) as [data|] eqn:Hg; cbn; [|intros [= <- <-]; split_and!; [done..|]; intros st [= <-]; by left];
    unfold fs_read, operation; cbn; rewrite Hg.
  - cbn. intros [= <- <-]. split_and!; [done..|]. auto.
  - destruct o as [|[f|] o]; cbn; intros [= <- <-]; (split_and!; [done..|]); auto. done.
  - intros [= <- <-]. split_and!; [done..|]. intros st [= <-]. right. split; [done|]. exact (Hlost f o sn (g :: sn)).
Qed.

Lemma local_write path st p p' (r : refs_result unit) : write_refs_to (LocalFile path) st p = (p', r) →
  with_extension path "tmp" ≠ path → with_extension path "bak" ≠ path →
  match r with
  | Ok _ => read_back path p' = Ok st
  | Err _ => read_back path p' = read_back path p
             ∨ read_back path p' = Ok st ∨ (2 ≤ failed_in p p')%nat
  end.
Proof using HL.
  intros Hw Htemp Hbak. apply write_refs_to_inv in Hw. destruct (refs_to_pretty st) as [b|e] eqn:Hst.
  2:{ destruct Hw as [-> ->]. by left. }
  destruct Hw as (d&Hd&->). cbn [local remote]. rewrite !loads_refs_eq.
  destruct (W_write_local_file path b (on_disk (local p)) (failures (local p)) Htemp Hbak _ _ _ (conj eq_refl eq_refl) Hd)
    as [_ Hr]. pose proof (refs_from_to st b Hst) as Hb.
  destruct r as [u|e]; [destruct Hr as [-> _]; by rewrite Hb|].
  destruct Hr as [[[->| ->] _]|[_ Hn]]; [by left|right; left; by rewrite Hb|right; right]. unfold failed_in. cbn. lia.
Qed.

(** *** Azure blobs *)
Lemma retried_get url t t' r : mutable_ref_store_request_with_retry (http_get url) t = (t', r) →
  blob_at url t' = blob_at url t ∧ ∀ resp, r = Ok resp → ∃ u u', http_get url u = (u', Ok resp) ∧ blob_at url u = blob_at url t.
Proof.
  unfold mutable_ref_store_request_with_retry, mbind, stm_bind, lift. destruct http_client as [[]|e]; [|by intros [= <- <-]].
  cbn [map_err]. generalize (@None io_error) as last. generalize MUTABLE_REF_STORE_HTTP_RETRY_ATTEMPTS as n.
  intros n. revert t. induction n as [|n IH]; intros t last; cbn [retry_loop]; [by intros [= <- <-]|].
  destruct (http_get url t) as [t1 [resp|e]] eqn:Hg; pose proof (http_get_keeps _ _ _ _ Hg url) as Hk; case_match.
  - intros Hr. destruct (IH _ _ Hr) as [Hb Hx]. rewrite Hb, Hk. split; [done|]. intros resp' Hr'.
    destruct (Hx _ Hr') as (u&u'&?&?). exists u, u'. split; [done|congruence].
  - intros [= <- <-]. split; [done|]. intros resp' [= <-]. by exists t, t1.
  - intros Hr. destruct (IH _ _ Hr) as [Hb Hx]. rewrite Hb, Hk. split; [done|]. intros resp' Hr'.
    destruct (Hx _ Hr') as (u&u'&?&?). exists u, u'. split; [done|congruence].
  - intros [= <- <-]. by split.
Qed.

Lemma retried_put url b t t' r : mutable_ref_store_request_with_retry (http_put url b) t = (t', r) →
  (blob_at url t' = blob_at url t ∨ blob_at url t' = Some b)
  ∧ ∀ resp, r = Ok resp → is_success (status resp) = true → blob_at url t' = Some b.
Proof.
  unfold mutable_ref_store_request_with_retry, mbind, stm_bind, lift.
  destruct http_client as [[]|e]; [|intros [= <- <-]; split; [by left|done]].
  cbn [map_err]. generalize (@None io_error) as last. generalize MUTABLE_REF_STORE_HTTP_RETRY_ATTEMPTS as n.
  intros n. revert t. induction n as [|n IH]; intros t last; cbn [retry_loop]; [intros [= <- <-]; split; [by left|done]|].
  destruct (http_put url b t) as [t1 [resp|e]] eqn:Hg; pose proof (http_put_keeps _ _ _ _ _ Hg) as Hk; case_match.
  1, 3: intros Hr; destruct (IH _ _ Hr) as [Hb Hx]; split; [|done]; destruct Hb as [->| ->]; [done|by right].
  - intros [= <- <-]. split; [done|]. intros resp' [= <-]. by eapply http_put_done.
  - intros [= <- <-]. split; [done|]. done.
Qed.

(** *** The laws *)
Lemma decoded_refs_eq data :
  decoded_refs data = map_err (DecodeMutableRefStore (mutable_ref_store_label location)) (refs_from_slice data).
Proof. done. Qed.

Lemma refs_load_stored p p' (r : refs_result MutableRefStoreState) : load_refs location p = (p', r) →
  stored_at p' = stored_at p
  ∧ ∀ st, r = Ok st → stored_at p = Ok st ∨ st = default_refs ∧ failed_in p p' ≠ O.
Proof.
  unfold stored_at. generalize decoded_refs_eq. destruct location as [path|url display|table_sas_url display pk rk] eqn:Hloc; intros Hdec.
  - intros (Hd&Ht&Hr)%local_load. by rewrite Hd, Ht.
  - unfold load_refs, read_mutable_ref_store_bytes, on_remote. unfold mbind at 1, stm_bind at 1, mbind at 1, stm_bind at 1.
    destruct (mutable_ref_store_request_with_retry (http_get url) (remote p)) as [t' [resp|e]] eqn:Hg;
      apply retried_get in Hg as [Hb Hr]; cbn [map_err remote];
      [destruct (Hr _ eq_refl) as (u&u'&Hu&Hub)|intros [= <- <-]; cbn; by rewrite Hb].
    destruct (status resp =? 404) eqn:H404.
    + intros [= <- <-]. cbn. rewrite Hb, <-Hub, (http_get_missing _ _ _ _ Hu) by (by apply Z.eqb_eq).
      split; [done|]. intros st [= <-]. by left.
    + destruct (is_success (status resp)) eqn:Hs; [|intros [= <- <-]; cbn; by rewrite Hb].
      unfold lift. destruct (response_bytes resp) as [data|e] eqn:Hd; cbn; intros [= <- <-]; cbn; [|by rewrite Hb].
      rewrite Hb, <-Hub, (http_get_found _ _ _ _ _ Hu Hs Hd). split; [done|]. intros st Hst. left. by rewrite Hdec.
  - unfold load_refs, read_mutable_ref_store_bytes, on_remote, read_mutable_ref_table_entity.
    unfold mbind at 1, stm_bind at 1, mbind at 1, stm_bind at 1, mbind at 1, stm_bind at 1, lift at 1.
    destruct (mutable_ref_table_client table_sas_url) as [ep|e] eqn:Hep; cbn [map_err remote]; [|intros [= <- <-]; done].
    unfold mbind at 1, stm_bind at 1, map_err_stm.
    destruct (table_query ep _ (remote p)) as [t' [page|e]] eqn:Hq; cbn [map_err]; pose proof (table_query_keeps _ _ _ _ _ Hq) as Hk;
      [|intros [= <- <-]; cbn; by rewrite Hk].
    unfold mbind at 1, stm_bind at 1, lift at 1. destruct page as [rows|]; cbn [ok_or]; [|intros [= <- <-]; cbn; by rewrite Hk].
    pose proof (table_query_rows _ _ _ _ _ Hq) as Hrows. rewrite <-Hrows.
    destruct rows as [|e [|e2 rows]]; cbn; [intros [= <- <-]; cbn; rewrite Hk, <-Hrows; split; [done|]; intros st [= <-]; by left| |].
    + destruct (entity_schema_version e =? MUTABLE_REF_TABLE_SCHEMA_VERSION) eqn:Hv; cbn; intros [= <- <-]; cbn;
        rewrite Hk, <-Hrows, Hv, ?Hdec; (split; [done|]); [auto|done].
    + intros [= <- <-]. cbn. by rewrite Hk, <-Hrows.
Qed.
Lemma write_stored st p p' (r : refs_result unit) : write_refs_to location st p = (p', r) → own_name = true →
  match r with
  | Ok _ => stored_at p' = Ok st
  | Err _ => stored_at p' = stored_at p ∨ stored_at p' = Ok st ∨ (2 ≤ failed_in p p')%nat
  end.
Proof using All.
  intros Hw Hn. revert Hw. unfold own_name in Hn. unfold stored_at. generalize decoded_refs_eq.
  destruct location as [path|url display|table_sas_url display pk rk] eqn:Hloc; intros Hdec.
  { apply andb_true_iff in Hn as [Ht%bool_decide_eq_true Hb%bool_decide_eq_true]. intros Hw.
    by pose proof (local_write _ _ _ _ _ Hw Ht Hb). }
  all: unfold write_refs_to; unfold mbind at 1, stm_bind at 1, lift at 1; destruct (refs_to_pretty st) as [b|e] eqn:Hst;
    cbn [map_err]; [|intros [= <- <-]; by left];
    (assert (∀ data, data = b → decoded_refs data = Ok st) as Hread
       by (intros data ->; by rewrite Hdec, (refs_from_to st b Hst)));
    unfold write_mutable_ref_store_bytes.
  - unfold on_remote. unfold mbind at 1, stm_bind at 1.
    destruct (mutable_ref_store_request_with_retry (http_put url b) (remote p)) as [t' [resp|e]] eqn:Hp;
      apply retried_put in Hp as [Hb Hr]; cbn [map_err].
    + destruct (is_success (status resp)) eqn:Hs; intros [= <- <-]; cbn; [by rewrite (Hr _ eq_refl Hs), Hread|].
      destruct Hb as [->| ->]; [by left|right; left; by apply Hread].
    + intros [= <- <-]. cbn. destruct Hb as [->| ->]; [by left|right; left; by apply Hread].
  - unfold mbind at 1, stm_bind at 1. case_bool_decide; cbn [mret stm_ret throw]; [|intros [= <- <-]; by left].
    unfold on_remote, write_mutable_ref_table_entity. unfold mbind at 1, stm_bind at 1, lift at 1.
    destruct (mutable_ref_table_client table_sas_url) as [ep|e] eqn:Hep; cbn [map_err]; [|intros [= <- <-]; by left].
    unfold map_err_stm. set (en := Build_MutableRefTableEntity _ _ _ _ _).
    assert (∀ rows, rows = [en] → match rows with [] => Ok default_refs | [e] =>
        if entity_schema_version e =? MUTABLE_REF_TABLE_SCHEMA_VERSION then decoded_refs (as_bytes (entity_state_json e))
        else Err (ReadMutableRefStore display (mutable_ref_store_io_error "unsupported mutable ref table schema version"))
      | _ => Err (ReadMutableRefStore display (mutable_ref_store_io_error "more than one entity")) end = Ok st) as Hrow.
    { intros rows ->. cbn. apply Hread, as_bytes_of_bytes. by eapply refs_bytes. }
    destruct (insert_or_replace ep en (remote p)) as [t' [[]|e]] eqn:Hi; cbn [map_err].
    + apply insert_done in Hi. intros [= <- <-]. by apply Hrow.
    + apply insert_keeps in Hi. intros [= <- <-]. cbn in Hi |- *. destruct Hi as [->|Hi]; [by left|right; left; by apply Hrow].
Qed.

#[export] Instance store_refs_laws : MutableRefsLaws (RefStore T) E.
Proof using All.
  split; cbn.
  - intros r r' u. destruct (load_refs location (rs_place r)) as [p res] eqn:Hl. intros [= <- <-].
    apply refs_load_stored in Hl as [Hs _]. split_and!; [done..|]. cbn. rewrite negb_orb. intros [-> [-> _]%andb_true_iff]%andb_true_iff. done.
  - intros r r' st. destruct (load_refs location (rs_place r)) as [p res] eqn:Hl. intros [= <- ->].
    apply refs_load_stored in Hl as [_ Hr]. destruct (Hr st eq_refl) as [?|[-> Hf]]; [by left|right]. split; [done|].
    cbn. rewrite (bool_decide_true _ Hf), orb_true_r. apply andb_false_r.
  - intros st r r'. destruct (write_refs_to location st (rs_place r)) as [p res] eqn:Hw. intros [= <- ->] [Hn _]%andb_true_iff.
    by apply write_stored in Hw.
  - intros st r r' e. destruct (write_refs_to location st (rs_place r)) as [p res] eqn:Hw. intros [= <- ->] [Hn Hl]%andb_true_iff.
    apply write_stored in Hw as [?|[?|Hf]]; [by left|by right| |done]. cbn in Hl.
    by rewrite (bool_decide_true _ Hf), orb_true_r in Hl.
  - intros st r r' u. destruct (write_refs_to location st (rs_place r)) as [p res] eqn:Hw. intros [= <- <-]. cbn.
    rewrite negb_orb. intros [-> [-> _]%andb_true_iff]%andb_true_iff. done.
  - intros st r r' u. by destruct (write_refs_to location st (rs_place r)) as [p res].
Qed.
End interface.

(** ** Retries *)
Section retry.
Context {T : Type} `{RemoteRefs T} (send : stm T string http_response).

(** The remote side after [n] requests, and the outcome of the next one. *)
Fixpoint after (n : nat) (s : T) : T := match n with O => s | S n => after n (send s).1 end.
Definition outcome_of (n : nat) (s : T) : result string http_response := (send (after n s)).2.
Definition settles (o : result string http_response) : bool :=
  match o with Ok response => negb (retryable (status response)) | Err _ => false end.

(** A remote request is sent until a response settles it, and at most three
    times: the result is the outcome of the first settling request, or of the
    third one, whatever it is, and the remote side has seen that many requests. *)
Theorem request_with_retry_spec s :
  http_client = Ok () →
  ∃ i, (i < MUTABLE_REF_STORE_HTTP_RETRY_ATTEMPTS)%nat
    ∧ (∀ j, (j < i)%nat → settles (outcome_of j s) = false)
    ∧ (settles (outcome_of i s) = true ∨ S i = MUTABLE_REF_STORE_HTTP_RETRY_ATTEMPTS)
    ∧ mutable_ref_store_request_with_retry send s
      = (after (S i) s, map_err mutable_ref_store_io_error (outcome_of i s)).
Proof.
  intros Hc. unfold mutable_ref_store_request_with_retry, mbind, stm_bind, lift. rewrite Hc. cbn [map_err].
  assert (∀ n last s, (0 < n)%nat → ∃ i, (i < n)%nat ∧ (∀ j, (j < i)%nat → settles (outcome_of j s) = false)
    ∧ (settles (outcome_of i s) = true ∨ S i = n)
    ∧ retry_loop n last send s = (after (S i) s, map_err mutable_ref_store_io_error (outcome_of i s))) as Hloop;
    [|by apply Hloop; unfold MUTABLE_REF_STORE_HTTP_RETRY_ATTEMPTS; lia].
  clear Hc s. induction n as [|n IH]; intros last s Hn; [lia|].
  destruct (settles (outcome_of 0 s)) eqn:Hset.
  - exists 0%nat. split_and!; [lia|lia|by left|]. unfold outcome_of in *. cbn in *.
    destruct (send s) as [s1 [response|e]]; cbn in *; [|done]. apply negb_true_iff in Hset.
    by rewrite Hset, andb_false_r.
  - destruct n as [|n].
    { exists 0%nat. split_and!; [lia|lia|by right|]. unfold outcome_of. cbn. by destruct (send s) as [s1 [response|e]]. }
    unfold outcome_of in Hset. cbn in Hset.
    assert (∃ last', retry_loop (S (S n)) last send s = retry_loop (S n) last' send (send s).1) as [last' ->].
    { cbn [retry_loop]. rewrite bool_decide_false by done. destruct (send s) as [s1 [response|e]]; cbn in *; [|by eexists].
      apply negb_false_iff in Hset. rewrite Hset. by eexists. }
    destruct (IH last' (send s).1 ltac:(lia)) as (i&Hi&Hj&Hend&->). exists (S i). split_and!.
    + lia.
    + intros [|j] Hlt; [done|]. apply Hj. lia.
    + destruct Hend as [?| ->]; auto.
    + done.
Qed.
End retry.

(** * Concrete inputs *)
#[local] Instance refs_eq_dec : EqDecision MutableRefStoreState.
Proof. solve_decision. Defined.

Definition old_refs : MutableRefStoreState :=
  {| current_root_block_id := None; replay_journal_head_block_id := Some "head"; refs_metadata := None |}.
Definition root_update : MutableRefStoreUpdate :=
  {| update_root := Some "root"; update_head := None; update_metadata := None |}.
Definition new_refs : MutableRefStoreState := apply_mutable_ref_store_update old_refs root_update.
Definition rootless_refs : MutableRefStoreState := apply_mutable_ref_store_update default_refs root_update.

(** A text of three states. *)
#[local] Instance toy_refs_json : RefsJson := {|
  refs_to_pretty st :=
    if decide (st = old_refs) then Ok [48] else if decide (st = new_refs) then Ok [49]
    else if decide (st = rootless_refs) then Ok [50] else Err "not representable";
  refs_from_slice b :=
    if bool_decide (b = [48]) then Ok old_refs else if bool_decide (b = [49]) then Ok new_refs
    else if bool_decide (b = [50]) then Ok rootless_refs else Err "invalid"
|}.
#[local] Instance toy_refs_json_laws : RefsJsonLaws.
Proof.
  assert (∀ st b, refs_to_pretty st = Ok b → (st = old_refs ∧ b = [48]) ∨ (st = new_refs ∧ b = [49]) ∨ (st = rootless_refs ∧ b = [50])) as Hcases.
  { intros st b. cbn -[old_refs new_refs rootless_refs].
    destruct (decide _) as [->|]; [intros [= <-]; by left|]. destruct (decide _) as [->|]; [intros [= <-]; by right; left|].
    destruct (decide _) as [->|]; [intros [= <-]; by right; right|done]. }
  split; intros st b [[-> ->]|[[-> ->]|[-> ->]]]%Hcases; try reflexivity; by repeat constructor.
Qed.

(** A remote side that counts the requests; the first two find it overloaded. *)
#[local] Instance toy_remote : RemoteRefs nat := {|
  http_client := Ok ();
  http_get _ n := (S n, if bool_decide (n < 2)%nat then Ok (Response 503 (Ok [])) else Ok (Response 200 (Ok [48])));
  http_put _ _ n := (S n, Err "connection refused");
  status_text st := fmt_usize st;
  url_parse _ := Err "relative URL without a base";
  sas_credentials _ := Ok ();
  table_query _ _ n := (n, Ok None);
  insert_or_replace _ _ n := (n, Err "not implemented");
  utf8_error _ := "invalid utf-8 sequence"
|}.

#[local] Instance toy_remote_laws : RemoteRefsLaws nat.
Proof.
  refine {| blob_at _ _ := Some [48]; rows_at _ _ _ := [] |}; cbn; try done; try (by left).
  - intros url t t' resp. case_bool_decide; intros [= _ <-]; done.
  - intros url t t' resp b. case_bool_decide; intros [= _ <-]; [done|]. by intros _ [= <-].
Defined.

Abbreviation refs_result A := (result (RuntimeError string) A).
Definition ref_path : string := "data/refs/v1".
Definition refs_on (o : list (option fault)) : place nat := Place (Disk {[ref_path := [48]]} o []) O.
Definition no_space : option fault := Some (Fault (IoError OtherKind "no space") []).

(** The rename of the new file fails. *)
Definition faulty : place nat := refs_on [None; None; None; None; None; no_space].
Definition write_run : place nat * refs_result unit := write_refs_to (E := string) (LocalFile ref_path) new_refs faulty.

Lemma write_local_safe_witness :
  write_run.2 = Err (WriteMutableRefStore ref_path (IoError OtherKind "no space"))
  ∧ (loads_refs ref_path O (on_disk (local write_run.1)) = (Ok old_refs : refs_result _)
     ∨ loads_refs ref_path O (on_disk (local write_run.1)) = (Ok new_refs : refs_result _))
  ∧ loads_refs ref_path O (on_disk (local (write_refs_to (E := string) (LocalFile ref_path) new_refs (refs_on [])).1))
    = (Ok new_refs : refs_result _).
Proof.
  split; [vm_compute; reflexivity|]. split.
  - destruct (write_local_safe (E := string) ref_path ltac:(vm_compute; discriminate) ltac:(vm_compute; discriminate)
      new_refs faulty write_run.1 (Err (WriteMutableRefStore ref_path (IoError OtherKind "no space"))))
      as [_ Hr]; [vm_compute; reflexivity|]. destruct Hr as [Hr|Hr]; [vm_compute; repeat constructor|left|right; exact Hr].
    etransitivity; [exact Hr|]. vm_compute. reflexivity.
  - apply (write_local_safe (E := string) ref_path ltac:(vm_compute; discriminate) ltac:(vm_compute; discriminate)
      new_refs (refs_on []) _ (Ok ())). vm_compute. reflexivity.
Defined.

Lemma request_with_retry_spec_witness :
  mutable_ref_store_request_with_retry (http_get "url") O = (3%nat, Ok (Response 200 (Ok [48])))
  ∧ ∃ i, mutable_ref_store_request_with_retry (http_put "url" []) O
         = (after (http_put "url" []) (S i) O, map_err mutable_ref_store_io_error (outcome_of (http_put "url" []) i O)).
Proof.
  split; [vm_compute; reflexivity|].
  destruct (request_with_retry_spec (H := toy_remote) (http_put "url" []) O ltac:(reflexivity)) as (i&_&_&_&Hi). exists i. exact Hi.
Defined.

(** ** States that a local store forgets *)

(** Between the two renames there is no file: a crash there leaves a store that
    loads as one that was never written, although the backup still holds it. *)
Definition only_backup (g : contents) : bool :=
  bool_decide (g !! ref_path = None) && bool_decide (g !! "data/refs/v1.bak" = Some [48]).
Example write_window : ∃ g,
  g ∈ seen (local (write_refs_to (E := string) (LocalFile ref_path) new_refs (refs_on [])).1)
  ∧ loads_refs ref_path O g = (Ok default_refs : refs_result _) ∧ g !! "data/refs/v1.bak" = Some [48].
Proof.
  assert (existsb only_backup (seen (local (write_refs_to (E := string) (LocalFile ref_path) new_refs (refs_on [])).1))
    = true) as (g&Hg&[Hp%bool_decide_eq_true Hb%bool_decide_eq_true]%andb_true_iff)%existsb_exists
    by (vm_compute; reflexivity).
  exists g. split; [by apply list_elem_of_In|]. split; [|done]. by rewrite loads_refs_eq, Hp.
Qed.

(** A failure to look the file up reads as absence, and the update that follows
    writes a store without the journal head. *)
Example update_forgets_head :
  let '(p, r) := update_refs (E := string) (LocalFile ref_path) root_update (refs_on [no_space]) in
  r = Ok () ∧ loads_refs ref_path O (on_disk (local p)) = (Ok rootless_refs : refs_result _).
Proof. vm_compute. by split. Qed.

(** Through the interface: the lookup says that there is nothing, what is stored
    stays, and the refs are no longer intact. A write with one failure leaves
    them intact. *)
Example failed_lookup_seen :
  let refs := store_refs (E := string) (LocalFile ref_path) in
  let '(r, st) := read_refs (MutableRefs := refs) (Build_RefStore (refs_on [no_space]) false) in
  st = Ok default_refs ∧ stored_refs (MutableRefs := refs) r = Ok old_refs ∧ intact (MutableRefs := refs) r = false
  ∧ let '(r, u) := write_refs (MutableRefs := refs) new_refs (Build_RefStore faulty false) in
    is_ok u = false ∧ stored_refs (MutableRefs := refs) r = Ok old_refs ∧ intact (MutableRefs := refs) r = true.
Proof. vm_compute. by split_and!. Qed.

(** [v1.bak] is an accepted ref name of its own, and a write of [v1] removes its
    store. *)
Example sibling_ref_lost :
  resolve_mutable_ref_store (environment sample_request) "" "v1" = Some (LocalFile ref_path)
  ∧ resolve_mutable_ref_store (environment sample_request) "" "v1.bak" = Some (LocalFile "data/refs/v1.bak")
  ∧ let g := <["data/refs/v1.bak" := [49]]> {[ref_path := [48]]} in
    let '(p, r) := write_refs_to (E := string) (LocalFile ref_path) new_refs (Place (Disk g [] []) O) in
    r = Ok () ∧ on_disk (local p) !! "data/refs/v1.bak" = None.
Proof. vm_compute. split; [reflexivity|]. split; [reflexivity|]. by split. Qed.
