(* ===== verification/BlockCopy.v ===== *)
(** * Rooted block copy: data, children of a block, failure tracker, report

    [block_copy.rs] copies the blocks that a set of roots reaches from one
    store to another. This file holds what both of its drivers share: the modes,
    counters and failures, the reader that finds the children of a block
    ([decode_source_block] and the serde structs it reads through), the
    [CopyFailureTracker], and the report. The single-worker driver is in
    [CopyRun.v], the queues of the multi-worker driver in [CopyQueues.v]. *)

From Stdlib Require Import ZArith Lia Ascii.
From stdpp Require Import base gmap sets strings sorting option list.
From S2P Require Import Prelude Hex Blocks Text Items Mailbox.
#[local] Open Scope Z_scope.

Definition DEFAULT_MAX_IN_FLIGHT_DESTINATION_WRITES : Z := 64.
Definition DEFAULT_COPY_WORKER_THREADS : Z := 1.
Definition BLIND_WRITE_REDB_COMPACTION_INTERVAL_BLOCKS : Z := 500000.
Definition DEFAULT_MAX_IN_FLIGHT_DESTINATION_WRITE_BYTES : Z := 64 * 1024 * 1024.
Definition DESTINATION_STORE_FAILURE_ID : string := "destination-store".
Definition UNSUPPORTED_BATCH_WRITE_MESSAGE : string :=
  "batch writes are not supported by this block store backend".

(** ** Byte-level stores

    The byte interface of the store crate. A call can change the store, so a
    read returns the store as well. [byte_error_text] is [Display], and
    [backend_failure] the message of the [BackendFailure] constructor. [held]
    is what the store holds under an id; the laws say what a successful call
    establishes and what any call leaves alone. *)
Class ByteStore (D : Type) := {
  ByteStoreError : Type;
  byte_error_text : ByteStoreError → string;
  backend_failure : ByteStoreError → option string;
  get_block_bytes : block_hash → D → D * result ByteStoreError (option bytes);
  put_block_bytes : block_hash → bytes → D → D * result ByteStoreError unit;
  put_block_bytes_batch : list (block_hash * bytes) → D → D * result ByteStoreError unit;
  held : D → block_hash → option bytes
}.
Arguments ByteStoreError D {_}.

(** From [d] to [d'] only the ids of [entries] can have changed, and each of
    those to one of its new values: an old value is never lost. *)
Definition written {D} `{ByteStore D} (entries : list (block_hash * bytes)) (d d' : D) : Prop :=
  ∀ h, held d' h = held d h ∨ ∃ b, (h, b) ∈ entries ∧ held d' h = Some b.

Class ByteStoreLaws (D : Type) `{ByteStore D} := {
  get_held h d d' r : get_block_bytes h d = (d', r) →
    (∀ k, held d' k = held d k) ∧ (∀ o, r = Ok o → o = held d h);
  put_written h b d d' r : put_block_bytes h b d = (d', r) →
    written [(h, b)] d d' ∧ (r = Ok () → held d' h = Some b);
  batch_written es d d' r : put_block_bytes_batch es d = (d', r) →
    written es d d' ∧ (r = Ok () → ∀ h b, (h, b) ∈ es → ∃ b', (h, b') ∈ es ∧ held d' h = Some b')
}.

(** [deserialize_versioned_block] with its check of the block id; an error is
    its text. *)
Class DecodeBlock := deserialize_versioned_block : bytes → block_hash → result string DecodedBlock.

(** The iteration order of a [HashSet], which the standard library leaves open. *)
Class HashSetOrder := {
  hash_set_iter : gset block_hash → list block_hash;
  hash_set_iter_perm s : hash_set_iter s ≡ₚ elements s
}.

(** ** Data *)
Inductive CopyFailureOperation :=
| ReadSourceBlock | DecodeSourceBlock | CheckDestinationBlock | WriteDestinationBlock
| CompactDestinationStore.
#[export] Instance CopyFailureOperation_eq_dec : EqDecision CopyFailureOperation.
Proof. solve_decision. Defined.

Record CopyFailure := {
  failure_root_id : string;
  failure_block_id : string;
  failure_operation : CopyFailureOperation;
  failure_message : string
}.
#[export] Instance CopyFailure_eq_dec : EqDecision CopyFailure.
Proof. solve_decision. Defined.

Inductive CopyDestinationMode := ReadBeforeWrite | BlindWrite.
#[export] Instance CopyDestinationMode_eq_dec : EqDecision CopyDestinationMode.
Proof. solve_decision. Defined.

Record RootedBlockCopyReport := {
  report_destination_mode : CopyDestinationMode;
  requested_root_ids : list string;
  report_copied_block_count : option Z;
  report_skipped_already_present_block_count : option Z;
  report_attempted_write_block_count : option Z;
  report_failed_block_count : Z;
  report_failures : list CopyFailure
}.

(** The shared counters behind [RootedBlockCopyProgress]. *)
Record CopyProgressState := {
  read_source_block_count : Z;
  progress_copied : Z;
  progress_skipped : Z;
  progress_attempted : Z;
  progress_failed : Z
}.
Definition default_progress : CopyProgressState := {|
  read_source_block_count := 0; progress_copied := 0; progress_skipped := 0;
  progress_attempted := 0; progress_failed := 0 |}.

Definition progress_note_read_source_block (p : CopyProgressState) : CopyProgressState := {|
  read_source_block_count := read_source_block_count p + 1; progress_copied := progress_copied p;
  progress_skipped := progress_skipped p; progress_attempted := progress_attempted p;
  progress_failed := progress_failed p |}.
Definition progress_note_copied_block (p : CopyProgressState) : CopyProgressState := {|
  read_source_block_count := read_source_block_count p; progress_copied := progress_copied p + 1;
  progress_skipped := progress_skipped p; progress_attempted := progress_attempted p;
  progress_failed := progress_failed p |}.
Definition progress_note_skipped_already_present_block (p : CopyProgressState) : CopyProgressState := {|
  read_source_block_count := read_source_block_count p; progress_copied := progress_copied p;
  progress_skipped := progress_skipped p + 1; progress_attempted := progress_attempted p;
  progress_failed := progress_failed p |}.
Definition progress_note_attempted_write_block (p : CopyProgressState) : CopyProgressState := {|
  read_source_block_count := read_source_block_count p; progress_copied := progress_copied p;
  progress_skipped := progress_skipped p; progress_attempted := progress_attempted p + 1;
  progress_failed := progress_failed p |}.
Definition progress_note_failed_block (p : CopyProgressState) : CopyProgressState := {|
  read_source_block_count := read_source_block_count p; progress_copied := progress_copied p;
  progress_skipped := progress_skipped p; progress_attempted := progress_attempted p;
  progress_failed := progress_failed p + 1 |}.

Record RootedBlockCopyProgressSnapshot := {
  snapshot_destination_mode : CopyDestinationMode;
  snapshot_read_source_block_count : Z;
  snapshot_copied_block_count : option Z;
  snapshot_skipped_already_present_block_count : option Z;
  snapshot_attempted_write_block_count : option Z;
  snapshot_failed_block_count : Z
}.

Definition when {A} (c : bool) (a : A) : option A := if c then Some a else None.
Definition is_read_before_write (mode : CopyDestinationMode) : bool :=
  match mode with ReadBeforeWrite => true | BlindWrite => false end.
Definition is_blind_write (mode : CopyDestinationMode) : bool :=
  match mode with BlindWrite => true | ReadBeforeWrite => false end.

Definition progress_snapshot (mode : CopyDestinationMode) (p : CopyProgressState) : RootedBlockCopyProgressSnapshot := {|
  snapshot_destination_mode := mode;
  snapshot_read_source_block_count := read_source_block_count p;
  snapshot_copied_block_count := when (is_read_before_write mode) (progress_copied p);
  snapshot_skipped_already_present_block_count := when (is_read_before_write mode) (progress_skipped p);
  snapshot_attempted_write_block_count := when (is_blind_write mode) (progress_attempted p);
  snapshot_failed_block_count := progress_failed p |}.

(** ** Batch write support, learnt from the first batch *)
Inductive BatchWriteCapability := Unknown | Probing | Supported | Unsupported.
#[export] Instance BatchWriteCapability_eq_dec : EqDecision BatchWriteCapability.
Proof. solve_decision. Defined.

(** The compare-exchange from [Unknown] to [Probing], and whether it took place. *)
Definition try_begin_batch_write_probe (c : BatchWriteCapability) : BatchWriteCapability * bool :=
  match c with Unknown => (Probing, true) | _ => (c, false) end.
Definition complete_batch_write_probe (supported : bool) : BatchWriteCapability :=
  if supported then Supported else Unsupported.

Definition is_unsupported_batch_write_error {D} `{ByteStore D} (error : ByteStoreError D) : bool :=
  match backend_failure error with
  | Some message =>
      let message := to_ascii_lowercase (as_bytes message) in
      contains_bytes (as_bytes UNSUPPORTED_BATCH_WRITE_MESSAGE) message
      || (contains_bytes (as_bytes "batch write") message && contains_bytes (as_bytes "not supported") message)
  | None => false
  end.

(** ** Metrics *)
Record CopyMetrics := {
  copied_block_count : Z;
  skipped_already_present_block_count : Z;
  attempted_write_block_count : Z
}.
Definition new_metrics : CopyMetrics := {|
  copied_block_count := 0; skipped_already_present_block_count := 0; attempted_write_block_count := 0 |}.

(** A method of the metrics also bumps the shared progress counter, when the
    caller asked for progress. *)
Abbreviation metered := (prod CopyMetrics (option CopyProgressState)).
Definition note_copied_block (m : metered) : metered :=
  ({| copied_block_count := copied_block_count m.1 + 1;
      skipped_already_present_block_count := skipped_already_present_block_count m.1;
      attempted_write_block_count := attempted_write_block_count m.1 |},
   progress_note_copied_block <$> m.2).
Definition note_skipped_already_present_block (m : metered) : metered :=
  ({| copied_block_count := copied_block_count m.1;
      skipped_already_present_block_count := skipped_already_present_block_count m.1 + 1;
      attempted_write_block_count := attempted_write_block_count m.1 |},
   progress_note_skipped_already_present_block <$> m.2).
Definition note_attempted_write_block (m : metered) : metered :=
  ({| copied_block_count := copied_block_count m.1;
      skipped_already_present_block_count := skipped_already_present_block_count m.1;
      attempted_write_block_count := attempted_write_block_count m.1 + 1 |},
   progress_note_attempted_write_block <$> m.2).

(** ** The failure tracker *)
Record FailureTemplate := { template_operation : CopyFailureOperation; template_message : string }.
#[export] Instance FailureTemplate_eq_dec : EqDecision FailureTemplate.
Proof. solve_decision. Defined.

Record CopyFailureTracker := {
  block_roots : gmap block_hash (gset block_hash);
  discovered_children : gmap block_hash (list block_hash);
  failure_templates : gmap block_hash (list FailureTemplate);
  failed_failure_ids : gset string;
  failures : list CopyFailure
}.
Definition new_tracker : CopyFailureTracker := {|
  block_roots := ∅; discovered_children := ∅; failure_templates := ∅;
  failed_failure_ids := ∅; failures := [] |}.

(** The methods that count a failed id also bump the shared progress counter. *)
Abbreviation tracked := (prod CopyFailureTracker (option CopyProgressState)).

Section tracker.
Context `{HashDisplay} `{HashSetOrder}.

Definition failure_of (root_id block_id : block_hash) (template : FailureTemplate) : CopyFailure := {|
  failure_root_id := hash_to_string root_id;
  failure_block_id := hash_to_string block_id;
  failure_operation := template_operation template;
  failure_message := template_message template |}.

(** [block_roots.entry(block_id).or_default()]. *)
Definition roots_of (t : CopyFailureTracker) (block_id : block_hash) : gset block_hash :=
  default ∅ (block_roots t !! block_id).
Definition children_of (t : CopyFailureTracker) (block_id : block_hash) : list block_hash :=
  default [] (discovered_children t !! block_id).
Definition templates_of (t : CopyFailureTracker) (block_id : block_hash) : list FailureTemplate :=
  default [] (failure_templates t !! block_id).

(** One turn of the loop of [associate_root_with_known_subgraph], for a block
    that is not yet associated with the root. *)
Definition associate_block (request_root_id block_id : block_hash) (t : CopyFailureTracker) : CopyFailureTracker := {|
  block_roots := <[block_id := {[request_root_id]} ∪ roots_of t block_id]> (block_roots t);
  discovered_children := discovered_children t;
  failure_templates := failure_templates t;
  failed_failure_ids := failed_failure_ids t;
  failures := failures t ++ (failure_of request_root_id block_id <$> templates_of t block_id) |}.

(** The loop; it returns the queue as well, which is empty when it ran to its
    end. *)
Fixpoint associate_loop (fuel : nat) (request_root_id : block_hash) (queue : list block_hash)
    (t : CopyFailureTracker) : CopyFailureTracker * list block_hash :=
  match fuel, queue with
  | O, _ | _, [] => (t, queue)
  | S fuel, current_block_id :: queue =>
      if decide (request_root_id ∈ roots_of t current_block_id)
      then associate_loop fuel request_root_id queue t
      else associate_loop fuel request_root_id (queue ++ children_of t current_block_id)
             (associate_block request_root_id current_block_id t)
  end.

(** Every known block is entered once, and each entry queues its children. *)
Definition associate_fuel (t : CopyFailureTracker) : nat :=
  S (length (concat (snd <$> map_to_list (discovered_children t)))).

Definition associate_root_with_known_subgraph (request_root_id block_id : block_hash) (t : CopyFailureTracker)
    : CopyFailureTracker :=
  (associate_loop (associate_fuel t) request_root_id [block_id] t).1.

Definition note_block_root (request_root_id block_id : block_hash) (t : CopyFailureTracker) : CopyFailureTracker :=
  associate_root_with_known_subgraph request_root_id block_id t.

Definition set_children (block_id : block_hash) (child_ids : list block_hash) (t : CopyFailureTracker) : CopyFailureTracker := {|
  block_roots := block_roots t;
  discovered_children := <[block_id := child_ids]> (discovered_children t);
  failure_templates := failure_templates t;
  failed_failure_ids := failed_failure_ids t;
  failures := failures t |}.

Definition remember_children (block_id : block_hash) (child_ids : list block_hash) (t : CopyFailureTracker) : CopyFailureTracker :=
  let t := set_children block_id child_ids t in
  match block_roots t !! block_id with
  | None => t
  | Some root_ids =>
      foldl (λ t root_id, foldl (λ t child_id, associate_root_with_known_subgraph root_id child_id t) t child_ids)
        t (hash_set_iter root_ids)
  end.

Definition note_failed_id (failed_id : string) (s : tracked) : tracked :=
  let t := s.1 in
  ({| block_roots := block_roots t; discovered_children := discovered_children t;
      failure_templates := failure_templates t;
      failed_failure_ids := {[failed_id]} ∪ failed_failure_ids t;
      failures := failures t |},
   if decide (failed_id ∈ failed_failure_ids t) then s.2 else progress_note_failed_block <$> s.2).

Definition push_failures (l : list CopyFailure) (t : CopyFailureTracker) : CopyFailureTracker := {|
  block_roots := block_roots t; discovered_children := discovered_children t;
  failure_templates := failure_templates t; failed_failure_ids := failed_failure_ids t;
  failures := failures t ++ l |}.

Definition push_template (block_id : block_hash) (template : FailureTemplate) (t : CopyFailureTracker) : CopyFailureTracker := {|
  block_roots := block_roots t; discovered_children := discovered_children t;
  failure_templates := <[block_id := templates_of t block_id ++ [template]]> (failure_templates t);
  failed_failure_ids := failed_failure_ids t;
  failures := failures t |}.

Definition record (block_id : block_hash) (operation : CopyFailureOperation) (message : string) (s : tracked) : tracked :=
  let s := note_failed_id (hash_to_string block_id) s in
  let template := {| template_operation := operation; template_message := message |} in
  let t := push_template block_id template s.1 in
  (match block_roots t !! block_id with
   | Some root_ids => push_failures ((λ root_id, failure_of root_id block_id template) <$> hash_set_iter root_ids) t
   | None => t
   end, s.2).

Definition store_failure_of (operation : CopyFailureOperation) (message : string) (root_id : block_hash) : CopyFailure := {|
  failure_root_id := hash_to_string root_id;
  failure_block_id := DESTINATION_STORE_FAILURE_ID;
  failure_operation := operation;
  failure_message := message |}.

Definition record_store_failure (requested : list block_hash) (operation : CopyFailureOperation)
    (message : string) (s : tracked) : tracked :=
  let s := note_failed_id DESTINATION_STORE_FAILURE_ID s in
  (push_failures (store_failure_of operation message <$> requested) s.1, s.2).
End tracker.

(** [count_failed_blocks]: the number of distinct ids. *)
Definition count_failed_blocks (failures : list CopyFailure) : Z :=
  Z.of_nat (size (list_to_set (failure_block_id <$> failures) : gset string)).

(** ** The children of a block *)

(** The serde structs through which the copy reads a replay journal. Note
    [input_block_ids]: a required field, unlike in [runtime.rs]. *)
Inductive ReplayJournalContentRefForCopy :=
| CopyDocument (path : string)
| CopyInline (media_type : string) (body : bytes)
| CopyEmailChunk (email_artifact_ref : string) (chunk_index : Z).
Inductive ReplayJournalRecordForCopy :=
| CopyReplayInput (block_id : string) (content_ref : ReplayJournalContentRefForCopy)
| CopyIndexingOutcome (input_block_ids generated_block_ids : list string) (root_block_id : string).
Record ReplayJournalBlockBodyForCopy := {
  copy_previous_block_id : option string;
  copy_entries : list ReplayJournalRecordForCopy
}.

Definition de_content_ref_for_copy (v : value) : result string ReplayJournalContentRefForCopy :=
  l ← de_fields v;
  kind ← de_required "kind" de_text l;
  if String.eqb kind "document" then CopyDocument <$> de_required "path" de_text l
  else if String.eqb kind "inline" then
    m ← de_required "media_type" de_text l;
    b ← de_required "body" (de_list de_u8) l; Ok (CopyInline m b)
  else if String.eqb kind "email-chunk" then
    r ← de_required "email_artifact_ref" de_text l;
    i ← de_required "chunk_index" de_usize l; Ok (CopyEmailChunk r i)
  else Err ("unknown variant " +:+ kind).

Definition de_record_for_copy (v : value) : result string ReplayJournalRecordForCopy :=
  l ← de_fields v;
  kind ← de_required "kind" de_text l;
  if String.eqb kind "replay-input" then
    id ← de_required "block_id" de_text l;
    c ← de_required "content_ref" de_content_ref_for_copy l;
    Ok (CopyReplayInput id c)
  else if String.eqb kind "indexing-outcome" then
    ins ← de_required "input_block_ids" (de_list de_text) l;
    gen ← de_required "generated_block_ids" (de_list de_text) l;
    root ← de_required "root_block_id" de_text l;
    Ok (CopyIndexingOutcome ins gen root)
  else Err ("unknown variant " +:+ kind).

Definition de_body_for_copy (v : value) : result string ReplayJournalBlockBodyForCopy :=
  l ← de_fields v;
  prev ← de_default "previous_block_id" None de_option_text l;
  es ← de_default "entries" [] (de_list de_record_for_copy) l;
  Ok {| copy_previous_block_id := prev; copy_entries := es |}.

Definition parse_block_hash_text (block_id : string) : result string block_hash :=
  ok_or (decode_hash block_id) ("failed to parse root_id " +:+ block_id).

(** The ids one journal entry names, in the order in which they are pushed. *)
Definition entry_ids (entry : ReplayJournalRecordForCopy) : list string :=
  match entry with
  | CopyReplayInput block_id content_ref =>
      block_id :: match content_ref with
                  | CopyEmailChunk email_artifact_ref _ => [email_artifact_ref]
                  | _ => []
                  end
  | CopyIndexingOutcome input_block_ids generated_block_ids root_block_id =>
      input_block_ids ++ generated_block_ids ++ [root_block_id]
  end.

(** [for id in ids { child_ids.push(parse_block_hash_text(id)?) }]. *)
Definition push_ids (child_ids : list block_hash) (ids : list string) : result string (list block_hash) :=
  result_foldl (λ child_ids id, h ← parse_block_hash_text id; Ok (child_ids ++ [h])) child_ids ids.

Section children.
Context `{Ciborium}.

Definition leaf_entry_child_ids (es : list LeafEntry) : result string (list block_hash) :=
  result_foldl (λ child_ids entry,
    result_foldl (λ child_ids kv,
      match kv with
      | (VText name, VText block_id) =>
          if String.eqb name "email_artifact_ref" || String.eqb name "mailbox_artifact_ref"
          then h ← parse_block_hash_text block_id; Ok (child_ids ++ [h])
          else Ok child_ids
      | _ => Ok child_ids
      end) child_ids (le_metadata entry)) [] es.

Definition replay_journal_child_ids (custom : CustomBlock) : result string (list block_hash) :=
  '(media_type, body) ← CustomBlocks.custom_block_payload (cb_content custom);
  if bool_decide (media_type ≠ CustomBlocks.REPLAY_JOURNAL_MEDIA_TYPE)
  then Err ("unexpected replay journal media_type " +:+ media_type) else
  v ← from_reader body;
  journal ← de_body_for_copy v;
  child_ids ← match copy_previous_block_id journal with
              | Some previous_block_id => push_ids [] [previous_block_id]
              | None => Ok []
              end;
  result_foldl (λ child_ids entry, push_ids child_ids (entry_ids entry)) child_ids (copy_entries journal).

Definition normalized_email_artifact_child_ids (custom : CustomBlock) : result string (list block_hash) :=
  '(media_type, body) ← CustomBlocks.custom_block_payload (cb_content custom);
  if bool_decide (media_type ≠ ARTIFACT_MEDIA_TYPE_NORMALIZED_EMAIL)
  then Err ("unexpected normalized email media_type " +:+ media_type) else
  v ← from_reader body;
  fields ← match v with
           | VMap fields => Ok fields
           | _ => Err "normalized email artifact body must decode to a CBOR map"
           end;
  mailbox ← ok_or (find_text "mailbox_artifact_ref" fields)
              "normalized email artifact body is missing mailbox_artifact_ref";
  h ← parse_block_hash_text mailbox;
  Ok [h].

Definition custom_block_child_ids (custom : CustomBlock) : result string (list block_hash) :=
  if String.eqb (cb_type_name custom) CustomBlocks.REPLAY_JOURNAL_BLOCK_TYPE
  then replay_journal_child_ids custom
  else if String.eqb (cb_type_name custom) NORMALIZED_EMAIL_ARTIFACT_BLOCK_TYPE
  then normalized_email_artifact_child_ids custom
  else Ok [].

(** The reading half of [decode_source_block]: the children, or the message of
    the failure it records. *)
Definition block_child_ids `{DecodeBlock} (block_id : block_hash) (block_bytes : bytes) : result string (list block_hash) :=
  match deserialize_versioned_block block_bytes block_id with
  | Ok (DecodedV1 (BBranch branch)) => Ok (be_child <$> bb_entries branch)
  | Ok (DecodedV1 (BLeaf leaf)) => leaf_entry_child_ids (lb_entries leaf)
  | Ok (DecodedV2 (Ok (Branch branch))) => Ok (be_child <$> bb_entries branch)
  | Ok (DecodedV2 (Ok (Leaf leaf))) => leaf_entry_child_ids (lb_entries leaf)
  | Ok (DecodedV2 (Ok (Custom custom))) => custom_block_child_ids custom
  | Ok (DecodedV2 (Err error)) => Err error
  | Err error => Err error
  end.

Definition decode_source_block `{DecodeBlock, HashDisplay, HashSetOrder} (block_id : block_hash) (block_bytes : bytes)
    (s : tracked) : tracked * list block_hash :=
  match block_child_ids block_id block_bytes with
  | Ok child_ids => (s, child_ids)
  | Err message => (record block_id DecodeSourceBlock message s, [])
  end.
End children.

(** [enqueue_children]. *)
Definition enqueue_children (request_root_id : block_hash) (child_ids : list block_hash)
    (queue : list (block_hash * block_hash)) : list (block_hash * block_hash) :=
  queue ++ ((λ child_id, (request_root_id, child_id)) <$> child_ids).

(** ** The report *)
Definition failure_operation_label (operation : CopyFailureOperation) : string :=
  match operation with
  | ReadSourceBlock => "read-source-block"
  | DecodeSourceBlock => "decode-source-block"
  | CheckDestinationBlock => "check-destination-block"
  | WriteDestinationBlock => "write-destination-block"
  | CompactDestinationStore => "compact-destination-store"
  end.

Definition failure_line (failure : CopyFailure) : string :=
  "FAIL [" +:+ failure_operation_label (failure_operation failure) +:+ "] root " +:+ failure_root_id failure
  +:+ " block " +:+ failure_block_id failure +:+ ": " +:+ failure_message failure.

Definition newline : string := String (Ascii.ascii_of_N 10) EmptyString.
Definition count_line (label : string) (count : option Z) : list string :=
  match count with Some n => [label +:+ fmt_usize n] | None => [] end.

Definition render_report_summary (report : RootedBlockCopyReport) : string :=
  join newline
    (["Rooted block copy results for " +:+ fmt_usize (len (requested_root_ids report)) +:+ " requested root(s)";
      "Destination mode: " +:+ match report_destination_mode report with
                               | ReadBeforeWrite => "read-before-write"
                               | BlindWrite => "blind-write"
                               end;
      "Failed blocks: " +:+ fmt_usize (report_failed_block_count report)]
     ++ count_line "Copied blocks: " (report_copied_block_count report)
     ++ count_line "Skipped already present: " (report_skipped_already_present_block_count report)
     ++ count_line "Attempted writes: " (report_attempted_write_block_count report)
     ++ (if bool_decide (requested_root_ids report = []) then []
         else ["Roots: " +:+ join ", " (requested_root_ids report)])
     ++ (failure_line <$> report_failures report)).

(** [default_report_path]: named by the first root and a digest of all roots.
    The slice [&first_root[..8]] is the first eight characters of an id. *)
Definition default_report_path `{HashDisplay, Sha256} (root_ids : list block_hash) : string :=
  match root_ids with
  | [] => "rooted-copy-empty.json"
  | first_root :: _ =>
      let digest := sha256_digest (as_bytes (join newline (hash_to_string <$> root_ids))) in
      "rooted-copy-" +:+ of_bytes (take 8 (as_bytes (hash_to_string first_root))) +:+ "-"
      +:+ hex_encode (take 4 digest) +:+ ".json"
  end.
