(* ===== verification/BlockCopySpec.v ===== *)
(** * The failure tracker and the children of a block

    The tracker reports a failure once for every root that reaches the failed
    block, whether the root, the failure or the path between them was found
    first. The loop that spreads a root over the known blocks ends, since each
    known block is entered once. The second part states which ids the copy finds
    in the blocks that the indexer writes. *)

From Stdlib Require Import ZArith Lia Ascii.
From stdpp Require Import base gmap sets strings sorting option list.
From S2P Require Import Prelude Hex Blocks Text ReplayJournal Items Mailbox BlockCopy.
#[local] Open Scope Z_scope.

(** Permutations of flattened lists. *)
Lemma bind_app_perm {A B} (f g : A → list B) l :
  (l ≫= λ x, f x ++ g x) ≡ₚ (l ≫= f) ++ (l ≫= g).
Proof. induction l as [|x l IH]; cbn; [done|]. rewrite IH. solve_Permutation. Qed.

Lemma bind_ext_in {A B} (f g : A → list B) l :
  (∀ x, x ∈ l → f x = g x) → (l ≫= f) = (l ≫= g).
Proof.
  induction l as [|x l IH]; cbn; intros Hfg; [done|]. f_equal; [apply Hfg; by left|].
  apply IH. intros y Hy. apply Hfg. by right.
Qed.

(** The entries of a map, with the value under one key changed. *)
Lemma map_to_list_alter {A B : Type} (m : gmap block_hash A) k a (f g : prod block_hash A → list B) :
  m !! k = Some a → (∀ j b, j ≠ k → f (j, b) = g (j, b)) →
  ∃ rest, (map_to_list m ≫= f) ≡ₚ f (k, a) ++ rest ∧ (map_to_list m ≫= g) ≡ₚ g (k, a) ++ rest.
Proof.
  intros Hk Hfg. exists (map_to_list (delete k m) ≫= f).
  rewrite <-(map_to_list_delete m k a Hk). cbn. split; [done|]. f_equiv. apply reflexive_eq, bind_ext_in.
  intros [j b] Hj%elem_of_map_to_list. symmetry. apply Hfg. intros ->. by rewrite lookup_delete_eq in Hj.
Qed.

Lemma sum_list_perm (l k : list nat) : l ≡ₚ k → sum_list l = sum_list k.
Proof. induction 1; cbn; lia. Qed.

Section tracker.
Context `{HashDisplay} `{HashSetOrder}.
Implicit Types (t : CopyFailureTracker) (r b c x : block_hash).

(** Every recorded failure of every block, once per associated root. *)
Definition rendered t : list CopyFailure :=
  map_to_list (failure_templates t) ≫= λ p,
    elements (roots_of t p.1) ≫= λ r, failure_of r p.1 <$> p.2.

(** [E] are the edges at which the association may lag behind, [P] what an
    associated root satisfies, [store] the failures of the store itself. *)
Record tracker_inv (E P : block_hash → block_hash → Prop) (store : list CopyFailure) t : Prop := {
  inv_failures : failures t ≡ₚ rendered t ++ store;
  inv_closed b c x : c ∈ children_of t b → x ∈ roots_of t b → x ∈ roots_of t c ∨ E x c;
  inv_sound b x : x ∈ roots_of t b → P x b;
  inv_named b : templates_of t b ≠ [] → hash_to_string b ∈ failed_failure_ids t;
  inv_ids : failed_failure_ids t = list_to_set (failure_block_id <$> failures t)
}.

(** What association leaves alone, and that it only adds roots. *)
Record spreads t t' : Prop := {
  spreads_children : discovered_children t' = discovered_children t;
  spreads_templates : failure_templates t' = failure_templates t;
  spreads_ids : failed_failure_ids t' = failed_failure_ids t;
  spreads_roots b : roots_of t b ⊆ roots_of t' b
}.
#[export] Instance spreads_preorder : PreOrder spreads.
Proof. split; [by intros t; split|]. intros t1 t2 t3 [? ? ? ?] [? ? ? ?]. split; [congruence..|set_solver]. Qed.

Lemma roots_of_insert t b R c :
  default ∅ (<[b := R]> (block_roots t) !! c) = if decide (c = b) then R else roots_of t c.
Proof. case_decide as Hc; [subst c; by rewrite lookup_insert_eq|]. by rewrite lookup_insert_ne by done. Qed.

Lemma roots_of_associate r b t c :
  roots_of (associate_block r b t) c = if decide (c = b) then {[r]} ∪ roots_of t b else roots_of t c.
Proof. apply roots_of_insert. Qed.

Lemma elem_of_roots_associate r b t c x :
  x ∈ roots_of (associate_block r b t) c ↔ c = b ∧ x = r ∨ x ∈ roots_of t c.
Proof. rewrite roots_of_associate. case_decide as Hc; [subst c; set_solver|naive_solver]. Qed.

Lemma associate_block_spreads r b t : spreads t (associate_block r b t).
Proof. split; [done..|]. intros c. rewrite roots_of_associate. case_decide; set_solver. Qed.

Lemma rendered_associate r b t : r ∉ roots_of t b →
  rendered (associate_block r b t) ≡ₚ rendered t ++ (failure_of r b <$> templates_of t b).
Proof.
  intros Hr. unfold rendered, templates_of. cbn [failure_templates associate_block].
  destruct (failure_templates t !! b) as [ts|] eqn:Hb; cbn [default].
  - destruct (map_to_list_alter (failure_templates t) b ts
      (λ p, elements (roots_of (associate_block r b t) p.1) ≫= λ x, failure_of x p.1 <$> p.2)
      (λ p, elements (roots_of t p.1) ≫= λ x, failure_of x p.1 <$> p.2)) as (rest&H1&H2);
      [done| |].
    { intros j a Hj. cbn [fst snd]. by rewrite roots_of_associate, decide_False by done. }
    rewrite H1, H2. cbn [fst snd]. rewrite roots_of_associate, decide_True by done.
    rewrite elements_union_singleton by done. cbn. solve_Permutation.
  - rewrite app_nil_r. apply reflexive_eq, bind_ext_in. intros [j a] Hj%elem_of_map_to_list. cbn [fst snd].
    rewrite roots_of_associate, decide_False; [done|]. intros ->. congruence.
Qed.

Lemma elem_of_rendered t f :
  f ∈ rendered t ↔ ∃ r b tm, r ∈ roots_of t b ∧ tm ∈ templates_of t b ∧ f = failure_of r b tm.
Proof.
  unfold rendered. rewrite list_elem_of_bind. split.
  - intros ([b ts]&Hf&Hb%elem_of_map_to_list). cbn [fst snd] in Hf.
    apply list_elem_of_bind in Hf as (r&(tm&->&Htm)%list_elem_of_fmap&Hr%elem_of_elements).
    exists r, b, tm. unfold templates_of. by rewrite Hb.
  - intros (r&b&tm&Hr&Htm&->). unfold templates_of in Htm.
    destruct (failure_templates t !! b) as [ts|] eqn:Hb; [|by apply not_elem_of_nil in Htm].
    exists (b, ts). rewrite elem_of_map_to_list. split; [|done]. cbn [fst snd]. apply list_elem_of_bind.
    exists r. rewrite elem_of_elements. split; [|done]. apply list_elem_of_fmap. by exists tm.
Qed.

Lemma tracker_inv_weaken (E E' P : block_hash → block_hash → Prop) store t :
  (∀ x c, E x c → x ∈ roots_of t c ∨ E' x c) → tracker_inv E P store t → tracker_inv E' P store t.
Proof. intros HE [? Hcl ? ? ?]. split; [done| |done..]. intros b c x Hc Hx. destruct (Hcl b c x Hc Hx); auto. Qed.

(** ** The association loop *)

(** The children that the loop can still queue for a root. *)
Definition unentered r t (l : list (block_hash * list block_hash)) : nat :=
  sum_list ((λ p, if decide (r ∈ roots_of t p.1) then O else length p.2) <$> l).
Definition open_children r t : nat := unentered r t (map_to_list (discovered_children t)).

Lemma unentered_perm r t l k : l ≡ₚ k → unentered r t l = unentered r t k.
Proof. intros Hl. apply sum_list_perm. by rewrite Hl. Qed.

Lemma unentered_ext r t t' l : (∀ p, p ∈ l → r ∈ roots_of t p.1 ↔ r ∈ roots_of t' p.1) →
  unentered r t l = unentered r t' l.
Proof.
  intros Hl. unfold unentered. f_equal. apply list_fmap_ext. intros i p Hp%list_elem_of_lookup_2.
  specialize (Hl p Hp). repeat case_decide; tauto.
Qed.

Lemma open_children_associate r b t : r ∉ roots_of t b →
  open_children r t = (open_children r (associate_block r b t) + length (children_of t b))%nat.
Proof.
  intros Hr. unfold open_children, children_of. cbn [discovered_children associate_block].
  destruct (discovered_children t !! b) as [cs|] eqn:Hb; cbn [default length].
  - pose proof (map_to_list_delete _ _ _ Hb) as Hp.
    rewrite <-!(unentered_perm _ _ _ _ Hp). unfold unentered. cbn [fmap list_fmap sum_list fst snd].
    rewrite decide_False, (decide_True (P:=r ∈ roots_of (associate_block r b t) b)) by (done || rewrite roots_of_associate, decide_True; set_solver).
    assert (∀ a b' : nat, a = b' → (length cs + a = 0 + b' + length cs)%nat) as Ha by lia. apply Ha.
    apply (unentered_ext r t (associate_block r b t)). intros [j a] Hj%elem_of_map_to_list. cbn [fst].
    rewrite roots_of_associate, decide_False; [done|]. intros ->. by rewrite lookup_delete_eq in Hj.
  - rewrite Nat.add_0_r. apply unentered_ext. intros [j a] Hj%elem_of_map_to_list. cbn [fst].
    rewrite roots_of_associate, decide_False; [done|]. intros ->. congruence.
Qed.

Lemma associate_fuel_enough r t : (open_children r t < associate_fuel t)%nat.
Proof.
  unfold open_children, unentered, associate_fuel.
  induction (map_to_list (discovered_children t)) as [|p l IH]; [cbn; lia|].
    cbn in *. rewrite length_app. case_decide; unfold id in *; lia.
Qed.

Lemma associate_loop_ends fuel r queue t : (length queue + open_children r t ≤ fuel)%nat →
  (associate_loop fuel r queue t).2 = [].
Proof.
  revert queue t. induction fuel as [|fuel IH]; intros [|b queue] t Hf; try done; [cbn in Hf; lia|].
  cbn [associate_loop]. case_decide as Hr; [apply IH; cbn in Hf; lia|].
  apply IH. rewrite (open_children_associate r b t Hr) in Hf. rewrite length_app. cbn in Hf. lia.
Qed.

(** A rule for the loop: a relation between the queue and the tracker that
    both kinds of turn keep. *)
Lemma associate_loop_ind (Q : list block_hash → CopyFailureTracker → Prop) fuel r queue t :
  (∀ b queue t, r ∈ roots_of t b → Q (b :: queue) t → Q queue t) →
  (∀ b queue t, r ∉ roots_of t b → Q (b :: queue) t →
     Q (queue ++ children_of t b) (associate_block r b t)) →
  Q queue t → Q (associate_loop fuel r queue t).2 (associate_loop fuel r queue t).1.
Proof.
  intros Hold Hnew. revert queue t. induction fuel as [|fuel IH]; intros [|b queue] t HQ; try done.
  cbn [associate_loop]. case_decide as Hr; apply IH; eauto.
Qed.

Lemma associate_loop_inv (E P : block_hash → block_hash → Prop) store r queue t fuel :
  (∀ b c x, c ∈ children_of t b → P x b → P x c) →
  tracker_inv (λ x c, E x c ∨ x = r ∧ c ∈ queue) P store t → Forall (P r) queue →
  let res := associate_loop fuel r queue t in
  tracker_inv (λ x c, E x c ∨ x = r ∧ c ∈ res.2) P store res.1 ∧ spreads t res.1
  ∧ ∀ c, c ∈ queue → r ∈ roots_of res.1 c ∨ c ∈ res.2.
Proof.
  intros HP Hinv Hq res.
  cut (tracker_inv (λ x c, E x c ∨ x = r ∧ c ∈ res.2) P store res.1 ∧ spreads t res.1
    ∧ (∀ c, c ∈ queue → r ∈ roots_of res.1 c ∨ c ∈ res.2) ∧ Forall (P r) res.2); [tauto|].
  apply (associate_loop_ind (λ q t', tracker_inv (λ x c, E x c ∨ x = r ∧ c ∈ q) P store t'
    ∧ spreads t t' ∧ (∀ c, c ∈ queue → r ∈ roots_of t' c ∨ c ∈ q) ∧ Forall (P r) q)).
  - intros b q t' Hb ([Hf Hc Hs Hn Hi]&Hsp&Hqq&[_ HF]%Forall_cons). split_and!; [split|..]; try done.
    + intros b' c x Hcc Hx. destruct (Hc b' c x Hcc Hx) as [?|[?|[-> Hin]]]; [tauto..|].
      apply elem_of_cons in Hin as [->|?]; tauto.
    + intros c [?|Hin]%Hqq; [tauto|]. apply elem_of_cons in Hin as [->|?]; tauto.
  - intros b q t' Hb ([Hf Hc Hs Hn Hi]&Hsp&Hqq&[Hrb HF]%Forall_cons). split_and!; [split|..].
    + cbn [failures associate_block]. rewrite rendered_associate, Hf by done. solve_Permutation.
    + intros b' c x Hcc. rewrite !elem_of_roots_associate, elem_of_app. intros [[-> ->]|Hx].
      { right. right. eauto. }
      destruct (Hc b' c x Hcc Hx) as [?|[?|[-> Hin]]]; [tauto..|].
      apply elem_of_cons in Hin as [->|?]; tauto.
    + intros b' x. rewrite elem_of_roots_associate. intros [[-> ->]|?]; auto.
    + exact Hn.
    + cbn [failed_failure_ids failures associate_block]. rewrite Hi, fmap_app, list_to_set_app_L.
      assert (list_to_set (failure_block_id <$> (failure_of r b <$> templates_of t' b)) ⊆ failed_failure_ids t') as Hsub;
        [|rewrite Hi in Hsub; set_solver].
      intros i (f&->&(tm&->&Htm)%list_elem_of_fmap)%elem_of_list_to_set%list_elem_of_fmap.
      apply Hn. intros Hnil. rewrite Hnil in Htm. by apply not_elem_of_nil in Htm.
    + etrans; [exact Hsp|apply associate_block_spreads].
    + intros c Hin. rewrite elem_of_app, elem_of_roots_associate. destruct (Hqq c Hin) as [?|Hin']; [tauto|].
      apply elem_of_cons in Hin' as [->|?]; tauto.
    + apply Forall_app. split; [done|]. apply Forall_forall. intros c Hin.
      apply (HP b); [|done]. unfold children_of in *. by rewrite <-(spreads_children _ _ Hsp).
  - split_and!; auto. done.
Qed.

(** ** The tracker's methods *)
Lemma associate_inv (E P : block_hash → block_hash → Prop) store r b t :
  (∀ b c x, c ∈ children_of t b → P x b → P x c) →
  tracker_inv (λ x c, E x c ∨ x = r ∧ c = b) P store t → P r b →
  tracker_inv E P store (associate_root_with_known_subgraph r b t)
  ∧ spreads t (associate_root_with_known_subgraph r b t)
  ∧ r ∈ roots_of (associate_root_with_known_subgraph r b t) b.
Proof.
  intros HP Hinv Hrb. unfold associate_root_with_known_subgraph.
  assert ((associate_loop (associate_fuel t) r [b] t).2 = []) as Hend.
  { apply associate_loop_ends. pose proof (associate_fuel_enough r t). cbn [length]. lia. }
  destruct (associate_loop_inv E P store r [b] t (associate_fuel t)) as (Hi&Hs&Hin); [done| |by repeat constructor|].
  { eapply tracker_inv_weaken; [|exact Hinv]. set_solver. }
  rewrite Hend in *. split_and!; [|done|].
  - eapply tracker_inv_weaken; [|exact Hi]. set_solver.
  - destruct (Hin b); [by left|done|by apply not_elem_of_nil in H1].
Qed.

(** The nested loop of [remember_children]. *)
Definition spread_all (roots children : list block_hash) t : CopyFailureTracker :=
  foldl (λ t root_id, foldl (λ t child_id, associate_root_with_known_subgraph root_id child_id t) t children) t roots.

Lemma spread_children_inv (E P : block_hash → block_hash → Prop) store r children t :
  (∀ b c x, c ∈ children_of t b → P x b → P x c) →
  tracker_inv (λ x c, E x c ∨ x = r ∧ c ∈ children) P store t → Forall (P r) children →
  let t' := foldl (λ t child_id, associate_root_with_known_subgraph r child_id t) t children in
  tracker_inv E P store t' ∧ spreads t t'.
Proof.
  revert t. induction children as [|c children IH]; intros t HP Hinv HF; cbn.
  { split; [|done]. eapply tracker_inv_weaken; [|exact Hinv]. set_solver. }
  apply Forall_cons in HF as [Hc HF].
  destruct (associate_inv (λ x c, E x c ∨ x = r ∧ c ∈ children) P store r c t) as (Hi&Hs&_); [done| |done|].
  { eapply tracker_inv_weaken; [|exact Hinv]. set_solver. }
  destruct (IH (associate_root_with_known_subgraph r c t)) as [Hi' Hs']; [|done|done|].
  { unfold children_of in *. by rewrite (spreads_children _ _ Hs). }
  split; [done|]. by etrans.
Qed.

Lemma spread_all_inv (E P : block_hash → block_hash → Prop) store roots children t :
  (∀ b c x, c ∈ children_of t b → P x b → P x c) →
  tracker_inv (λ x c, E x c ∨ x ∈ roots ∧ c ∈ children) P store t →
  (∀ r, r ∈ roots → Forall (P r) children) →
  tracker_inv E P store (spread_all roots children t) ∧ spreads t (spread_all roots children t).
Proof.
  revert t. induction roots as [|r roots IH]; intros t HP Hinv HF; cbn.
  { split; [|done]. eapply tracker_inv_weaken; [|exact Hinv]. set_solver. }
  destruct (spread_children_inv (λ x c, E x c ∨ x ∈ roots ∧ c ∈ children) P store r children t) as [Hi Hs];
    [done| |apply HF; by left|].
  { eapply tracker_inv_weaken; [|exact Hinv]. set_solver. }
  edestruct IH as [Hi' Hs']; [|exact Hi| |].
  { unfold children_of in *. by rewrite (spreads_children _ _ Hs). }
  { intros x Hx. apply HF. by right. }
  split; [done|]. by etrans.
Qed.

(** The invariant between method calls: nothing lags behind. *)
Definition tracker_ok (P : block_hash → block_hash → Prop) (store : list CopyFailure) t : Prop :=
  tracker_inv (λ _ _, False) P store t.

Lemma new_tracker_ok P : tracker_ok P [] new_tracker.
Proof.
  split; [done| | | |done].
  - intros b c x Hc. by apply not_elem_of_nil in Hc.
  - intros b x Hx. unfold roots_of in Hx. cbn [block_roots new_tracker] in Hx.
    rewrite lookup_empty in Hx. by apply not_elem_of_empty in Hx.
  - intros b Hb. by destruct Hb.
Qed.

Lemma note_block_root_ok P store r b t :
  (∀ b c x, c ∈ children_of t b → P x b → P x c) → P r b → tracker_ok P store t →
  tracker_ok P store (note_block_root r b t) ∧ spreads t (note_block_root r b t)
  ∧ r ∈ roots_of (note_block_root r b t) b.
Proof.
  intros HP Hrb Ht. apply associate_inv; [done| |done]. eapply tracker_inv_weaken; [|exact Ht]. done.
Qed.

Lemma children_of_set b cs t c :
  children_of (set_children b cs t) c = if decide (c = b) then cs else children_of t c.
Proof.
  unfold children_of. cbn. case_decide as Hc; [subst c; by rewrite lookup_insert_eq|].
  by rewrite lookup_insert_ne by done.
Qed.

(** Blocks are remembered once, so the children learnt before stay. *)
Lemma remember_children_ok P store b cs t :
  (∀ b c x, c ∈ children_of t b → P x b → P x c) → (∀ x c, c ∈ cs → P x b → P x c) →
  discovered_children t !! b = None → tracker_ok P store t →
  tracker_ok P store (remember_children b cs t) ∧ spreads (set_children b cs t) (remember_children b cs t).
Proof.
  intros HP Hcs Hb [Hf Hc Hs Hn Hi].
  assert (remember_children b cs t = spread_all (hash_set_iter (roots_of t b)) cs (set_children b cs t)) as ->.
  { unfold remember_children, roots_of. cbn [block_roots set_children].
    destruct (block_roots t !! b); [done|]. cbn [default].
    by rewrite (proj1 (Permutation_nil_r (hash_set_iter ∅))) by (by rewrite hash_set_iter_perm). }
  apply spread_all_inv.
  - intros a c x. rewrite children_of_set. case_decide as Ha; [subst a|]; eauto.
  - split; try done. intros a c x. rewrite children_of_set. case_decide as Ha.
    + subst a. intros Hcc Hx. right. right. split; [|done]. rewrite hash_set_iter_perm. by apply elem_of_elements.
    + intros Hcc Hx. left. by destruct (Hc a c x Hcc Hx).
  - intros r Hr. rewrite hash_set_iter_perm, elem_of_elements in Hr.
    apply Forall_forall. intros c Hcc. apply (Hcs r c Hcc). by apply Hs.
Qed.

Lemma rendered_push_template b tm t :
  rendered (push_template b tm t) ≡ₚ rendered t ++ ((λ r, failure_of r b tm) <$> elements (roots_of t b)).
Proof.
  unfold rendered. set (f := λ p, elements (roots_of t p.1) ≫= λ r, failure_of r p.1 <$> p.2).
  change (map_to_list (failure_templates (push_template b tm t)) ≫= f
    ≡ₚ (map_to_list (failure_templates t) ≫= f) ++ ((λ r, failure_of r b tm) <$> elements (roots_of t b))).
  cbn [failure_templates push_template].
  assert (∀ ts, f (b, ts ++ [tm]) ≡ₚ f (b, ts) ++ ((λ r, failure_of r b tm) <$> elements (roots_of t b))) as Hf.
  { intros ts. unfold f. cbn [fst snd]. induction (elements (roots_of t b)) as [|r l IH]; [done|].
    cbn. rewrite IH, fmap_app. cbn. solve_Permutation. }
  unfold templates_of. destruct (failure_templates t !! b) as [ts|] eqn:Hb; cbn [default].
  - rewrite <-(map_to_list_delete _ _ _ Hb), <-(insert_delete_eq (failure_templates t)).
    rewrite map_to_list_insert by apply lookup_delete_eq.
    cbn [mbind list_bind]. rewrite Hf. solve_Permutation.
  - rewrite map_to_list_insert by done. cbn [mbind list_bind]. rewrite (Hf []).
    assert (f (b, []) = []) as ->; [|cbn; solve_Permutation].
    unfold f. cbn [fst snd]. clear. induction (elements (roots_of t b)) as [|r l IH]; [done|exact IH].
Qed.

(** What [record] leaves alone. *)
Record records (b : block_hash) (tm : FailureTemplate) t t' : Prop := {
  records_children : discovered_children t' = discovered_children t;
  records_roots : block_roots t' = block_roots t;
  records_template : templates_of t' b = templates_of t b ++ [tm];
  records_templates c : c ≠ b → templates_of t' c = templates_of t c
}.

Lemma record_ok P store b op m t p : roots_of t b ≠ ∅ → tracker_ok P store t →
  let s := record b op m (t, p) in
  tracker_ok P store s.1 ∧ records b {| template_operation := op; template_message := m |} t s.1.
Proof.
  intros Hr [Hf Hc Hs Hn Hi]. unfold record. cbn [fst snd note_failed_id].
  set (tm := {| template_operation := op; template_message := m |}). set (t1 := {| block_roots := block_roots t |}).
  assert (is_Some (block_roots t !! b)) as [R HR].
  { unfold roots_of in Hr. destruct (block_roots t !! b); [by eexists|done]. }
  assert (roots_of t b = R) as HRr by (unfold roots_of; by rewrite HR).
  cbn [block_roots push_template t1]. rewrite HR. rewrite HRr in Hr.
  assert (templates_of (push_template b tm t1) b = templates_of t b ++ [tm]) as Htb.
  { unfold templates_of at 1. cbn [failure_templates push_template]. by rewrite lookup_insert_eq. }
  assert (∀ c, c ≠ b → templates_of (push_template b tm t1) c = templates_of t c) as Htc.
  { intros c Hcb. unfold templates_of at 1. cbn [failure_templates push_template]. by rewrite lookup_insert_ne. }
  split; [split|split]; try done.
  - cbn [failures push_failures push_template].
    change (rendered (push_failures _ (push_template b tm t1))) with (rendered (push_template b tm t1)).
    rewrite rendered_push_template. change (rendered t1) with (rendered t). change (roots_of t1 b) with (roots_of t b).
    rewrite HRr. cbn [failures t1]. rewrite Hf, hash_set_iter_perm. solve_Permutation.
  - intros c Hcne. change (hash_to_string c ∈ {[hash_to_string b]} ∪ failed_failure_ids t).
    destruct (decide (c = b)) as [->|Hcb]; [set_solver|]. apply elem_of_union_r, Hn. by rewrite <-Htc.
  - cbn [failed_failure_ids push_failures push_template t1 failures]. rewrite Hi, fmap_app, list_to_set_app_L.
    rewrite (union_comm_L {[hash_to_string b]}). f_equal. apply set_eq. intros i.
    rewrite elem_of_singleton, elem_of_list_to_set, <-list_fmap_compose. split.
    + intros ->. apply set_choose_L in Hr as [r Hr]. apply list_elem_of_fmap. exists r. split; [done|].
      rewrite hash_set_iter_perm. by apply elem_of_elements.
    + intros (r&->&_)%list_elem_of_fmap. done.
Qed.

Lemma record_store_failure_ok P store ids op m t p : ids ≠ [] → tracker_ok P store t →
  let t' := (record_store_failure ids op m (t, p)).1 in
  tracker_ok P (store ++ (store_failure_of op m <$> ids)) t'
  ∧ discovered_children t' = discovered_children t ∧ block_roots t' = block_roots t
  ∧ failure_templates t' = failure_templates t.
Proof.
  intros Hids [Hf Hc Hs Hn Hi]. split; [|done]. split; try done.
  - unfold record_store_failure. cbn [fst snd note_failed_id push_failures failures].
    change (rendered (push_failures _ _)) with (rendered t). rewrite Hf. by rewrite (assoc (++)).
  - intros c Hcne. cbn. apply elem_of_union_r, Hn, Hcne.
  - cbn. rewrite Hi, fmap_app, list_to_set_app_L, (union_comm_L {[_]}). f_equal. apply set_eq. intros i.
    rewrite elem_of_singleton, elem_of_list_to_set, <-list_fmap_compose. split.
    + intros ->. destruct ids as [|r ids]; [done|]. by left.
    + intros (r&->&_)%list_elem_of_fmap. done.
Qed.

(** Progress counts each failed id once. *)
Definition progress_ok (failed : option Z) (ids : gset string) : Prop :=
  ∀ n, failed = Some n → n = Z.of_nat (size ids).

Lemma note_failed_id_progress id (s : tracked) :
  progress_ok (progress_failed <$> s.2) (failed_failure_ids s.1) →
  progress_ok (progress_failed <$> (note_failed_id id s).2) (failed_failure_ids (note_failed_id id s).1).
Proof.
  intros Hp n. unfold note_failed_id. cbn [fst snd failed_failure_ids]. case_decide as Hin; intros Hn.
  - rewrite (Hp n Hn). do 2 f_equal. set_solver.
  - destruct s.2 as [p|]; [|done]. cbn in Hn. injection Hn as <-. cbn. rewrite (Hp (progress_failed p)) by done.
    rewrite size_union by set_solver. rewrite size_singleton. lia.
Qed.

End tracker.

(** ** Any sequence of calls *)
Section calls.
Context `{HashDisplay} `{HashSetOrder}.

Inductive tracker_call :=
| NoteBlockRoot (r b : block_hash)
| RememberChildren (b : block_hash) (cs : list block_hash)
| Record (b : block_hash) (tm : FailureTemplate)
| RecordStoreFailure (ids : list block_hash) (op : CopyFailureOperation) (m : string).

Definition run_call (s : tracked) (c : tracker_call) : tracked :=
  match c with
  | NoteBlockRoot r b => (note_block_root r b s.1, s.2)
  | RememberChildren b cs => (remember_children b cs s.1, s.2)
  | Record b tm => record b (template_operation tm) (template_message tm) s
  | RecordStoreFailure ids op m => record_store_failure ids op m s
  end.
Definition run_calls (progress : option CopyProgressState) (calls : list tracker_call) : tracked :=
  foldl run_call (new_tracker, progress) calls.

(** What the calls say, in whatever order they came: which blocks a root
    reaches, which failures were recorded, and which concern the store. *)
Inductive reaches (calls : list tracker_call) : block_hash → block_hash → Prop :=
| reaches_noted r b : NoteBlockRoot r b ∈ calls → reaches calls r b
| reaches_child r b cs c : reaches calls r b → RememberChildren b cs ∈ calls → c ∈ cs → reaches calls r c.
Definition recorded (calls : list tracker_call) : list (prod block_hash FailureTemplate) :=
  omap (λ c : tracker_call, match c with Record b tm => Some (b, tm) | _ => None end) calls.
Definition store_failures (calls : list tracker_call) : list CopyFailure :=
  calls ≫= λ c : tracker_call, match c with RecordStoreFailure ids op m => store_failure_of op m <$> ids | _ => [] end.

(** The callers remember the children of a block once, record failures of
    blocks that were noted, and have at least one requested root. *)
Definition call_ok (before : list tracker_call) (c : tracker_call) : Prop :=
  match c with
  | NoteBlockRoot _ _ => True
  | RememberChildren b _ => ∀ cs, RememberChildren b cs ∉ before
  | Record b _ => ∃ r, reaches before r b
  | RecordStoreFailure ids _ _ => ids ≠ []
  end.
Inductive calls_ok : list tracker_call → Prop :=
| calls_ok_nil : calls_ok []
| calls_ok_snoc calls c : calls_ok calls → call_ok calls c → calls_ok (calls ++ [c]).

Lemma reaches_mono calls k r b : reaches calls r b → reaches (calls ++ k) r b.
Proof. induction 1; [apply reaches_noted|eapply reaches_child; [done| |done]]; apply elem_of_app; by left. Qed.

(** The tracker after the calls: [tracker_ok] with what the calls say. *)
Record calls_inv (calls : list tracker_call) (s : tracked) : Prop := {
  calls_tracker : tracker_ok (reaches calls) (store_failures calls) s.1;
  calls_children b cs : discovered_children s.1 !! b = Some cs ↔ RememberChildren b cs ∈ calls;
  calls_noted r b : NoteBlockRoot r b ∈ calls → r ∈ roots_of s.1 b;
  calls_recorded : failure_templates s.1 = foldl (λ m p, <[p.1 := default [] (m !! p.1) ++ [p.2]]> m) ∅ (recorded calls)
}.

Lemma tracker_ok_mono (P Q : block_hash → block_hash → Prop) store t :
  (∀ r b, P r b → Q r b) → tracker_ok P store t → tracker_ok Q store t.
Proof. intros HPQ [? ? Hs ? ?]. split; try done. intros b x Hx. by apply HPQ, Hs. Qed.

Lemma calls_roots calls s r b : calls_inv calls s → r ∈ roots_of s.1 b ↔ reaches calls r b.
Proof.
  intros [[_ Hc Hs _ _] Hch Hn _]. split; [apply Hs|].
  induction 1 as [r b Hin|r b cs c _ IH Hin Hcs]; [by apply Hn|].
  apply Hch in Hin. destruct (Hc b c r) as [?|[]]; [|done..]. unfold children_of. by rewrite Hin.
Qed.

Lemma reaches_closed calls s : calls_inv calls s →
  ∀ b c x, c ∈ children_of s.1 b → reaches calls x b → reaches calls x c.
Proof.
  intros Hinv b c x Hc Hx. unfold children_of in Hc.
  destruct (discovered_children s.1 !! b) as [cs|] eqn:Hb; [|by apply not_elem_of_nil in Hc].
  apply (reaches_child _ x b cs c); [done| |done]. by apply (calls_children _ _ Hinv).
Qed.

Lemma recorded_app calls k : recorded (calls ++ k) = recorded calls ++ recorded k.
Proof. apply omap_app. Qed.
Lemma store_failures_app calls k : store_failures (calls ++ k) = store_failures calls ++ store_failures k.
Proof. apply bind_app. Qed.


Lemma calls_inv_note calls t p r b : calls_inv calls (t, p) →
  calls_inv (calls ++ [NoteBlockRoot r b]) (note_block_root r b t, p).
Proof.
  intros Hinv. pose proof (reaches_mono calls [NoteBlockRoot r b]) as Hm.
  destruct (note_block_root_ok (reaches (calls ++ [NoteBlockRoot r b])) (store_failures calls) r b t) as (Ht&Hs&Hin).
  - intros b' c x Hc Hx. unfold children_of in Hc.
    destruct (discovered_children t !! b') as [cs|] eqn:Hb; [|by apply not_elem_of_nil in Hc].
    apply (reaches_child _ x b' cs c); [done| |done]. apply elem_of_app. left. by apply (calls_children _ _ Hinv).
  - apply reaches_noted. apply elem_of_app. right. by left.
  - eapply tracker_ok_mono; [|apply (calls_tracker _ _ Hinv)]. auto.
  - split; cbn [fst].
    + by rewrite store_failures_app, app_nil_r.
    + intros b' cs. rewrite (spreads_children _ _ Hs), (calls_children _ _ Hinv), elem_of_app, list_elem_of_singleton.
      cbn. naive_solver.
    + intros r' b' [Hin'|[= -> ->]%list_elem_of_singleton]%elem_of_app; [|done].
      apply (spreads_roots _ _ Hs). by apply (calls_noted _ _ Hinv).
    + rewrite (spreads_templates _ _ Hs), recorded_app, app_nil_r. apply (calls_recorded _ _ Hinv).
Qed.

Lemma calls_inv_remember calls t p b cs : (∀ cs, RememberChildren b cs ∉ calls) → calls_inv calls (t, p) →
  calls_inv (calls ++ [RememberChildren b cs]) (remember_children b cs t, p).
Proof.
  intros Hnew Hinv. pose proof (reaches_mono calls [RememberChildren b cs]) as Hm.
  destruct (remember_children_ok (reaches (calls ++ [RememberChildren b cs])) (store_failures calls) b cs t) as (Ht&Hs).
  - intros b' c x Hc Hx. unfold children_of in Hc.
    destruct (discovered_children t !! b') as [cs'|] eqn:Hb; [|by apply not_elem_of_nil in Hc].
    apply (reaches_child _ x b' cs' c); [done| |done]. apply elem_of_app. left. by apply (calls_children _ _ Hinv).
  - intros x c Hc Hx. apply (reaches_child _ x b cs c); [done| |done]. apply elem_of_app. right. by left.
  - destruct (discovered_children t !! b) as [cs'|] eqn:Hb; [|done].
    exfalso. apply (Hnew cs'). by apply (calls_children _ _ Hinv).
  - eapply tracker_ok_mono; [|apply (calls_tracker _ _ Hinv)]. auto.
  - split; cbn [fst].
    + by rewrite store_failures_app, app_nil_r.
    + intros b' cs'. rewrite (spreads_children _ _ Hs), elem_of_app, list_elem_of_singleton. cbn [discovered_children set_children].
      destruct (decide (b' = b)) as [->|Hb].
      * rewrite lookup_insert_eq. split; [intros [= ->]; by right|]. intros [?%Hnew|[= ->]]; done.
      * rewrite lookup_insert_ne by done. rewrite (calls_children _ _ Hinv). cbn [fst]. naive_solver.
    + intros r' b' [Hin'|Hin']%elem_of_app; [|by apply list_elem_of_singleton in Hin'].
      apply (spreads_roots _ _ Hs). by apply (calls_noted _ _ Hinv).
    + rewrite (spreads_templates _ _ Hs), recorded_app, app_nil_r. apply (calls_recorded _ _ Hinv).
Qed.

Lemma calls_inv_record calls t p b op m : (∃ r, reaches calls r b) → calls_inv calls (t, p) →
  calls_inv (calls ++ [Record b {| template_operation := op; template_message := m |}]) (record b op m (t, p)).
Proof.
  intros [r Hr] Hinv. set (tm := {| template_operation := op; template_message := m |}).
  destruct (record_ok (reaches (calls ++ [Record b tm])) (store_failures calls) b op m t p) as [Ht Hs].
  - apply (calls_roots _ _ _ _ Hinv) in Hr. cbn [fst] in Hr. set_solver.
  - eapply tracker_ok_mono; [|apply (calls_tracker _ _ Hinv)]. intros. by apply reaches_mono.
  - split.
    + by rewrite store_failures_app, app_nil_r.
    + intros b' cs. rewrite (records_children _ _ _ _ Hs), elem_of_app, list_elem_of_singleton.
      pose proof (calls_children _ _ Hinv b' cs). cbn [fst] in *. naive_solver.
    + intros r' b' [Hin'|Hin']%elem_of_app; [|by apply list_elem_of_singleton in Hin'].
      unfold roots_of. rewrite (records_roots _ _ _ _ Hs). by apply (calls_noted _ _ Hinv).
    + rewrite recorded_app. cbn [recorded omap list_omap]. rewrite foldl_app. cbn [foldl fst snd].
      rewrite <-(calls_recorded _ _ Hinv). unfold record. cbn [fst snd].
      destruct (block_roots _ !! b); done.
Qed.

Lemma calls_inv_store calls t p ids op m : ids ≠ [] → calls_inv calls (t, p) →
  calls_inv (calls ++ [RecordStoreFailure ids op m]) (record_store_failure ids op m (t, p)).
Proof.
  intros Hids Hinv.
  destruct (record_store_failure_ok (reaches (calls ++ [RecordStoreFailure ids op m])) (store_failures calls) ids op m t p)
    as (Ht&Hch&Hr&Htm); [done| |].
  - eapply tracker_ok_mono; [|apply (calls_tracker _ _ Hinv)]. intros. by apply reaches_mono.
  - split.
    + rewrite store_failures_app. cbn [store_failures mbind list_bind]. by rewrite app_nil_r.
    + intros b' cs. rewrite Hch, elem_of_app, list_elem_of_singleton.
      pose proof (calls_children _ _ Hinv b' cs). cbn [fst] in *. naive_solver.
    + intros r' b' [Hin'|Hin']%elem_of_app; [|by apply list_elem_of_singleton in Hin'].
      unfold roots_of. rewrite Hr. by apply (calls_noted _ _ Hinv).
    + rewrite recorded_app, app_nil_r, Htm. apply (calls_recorded _ _ Hinv).
Qed.

Lemma run_calls_inv calls p : calls_ok calls → calls_inv calls (run_calls p calls).
Proof.
  induction 1 as [|calls c _ IH Hc].
  { split; [apply new_tracker_ok| | |done]; cbn.
    - intros b cs. by rewrite lookup_empty, elem_of_nil.
    - intros r b Hin. by apply not_elem_of_nil in Hin. }
  unfold run_calls in *. rewrite foldl_app. cbn [foldl].
  destruct (foldl run_call (new_tracker, p) calls) as [t q]. destruct c as [r b|b cs|b tm|ids op m].
  - by apply calls_inv_note.
  - by apply calls_inv_remember.
  - destruct tm. by apply calls_inv_record.
  - by apply calls_inv_store.
Qed.

Lemma rendered_recorded (t : CopyFailureTracker) l :
  failure_templates t = foldl (λ m p, <[p.1 := default [] (m !! p.1) ++ [p.2]]> m) ∅ l →
  rendered t ≡ₚ l ≫= λ p, (λ r, failure_of r p.1 p.2) <$> elements (roots_of t p.1).
Proof.
  revert t. induction l as [|[b tm] l IH] using rev_ind; intros t Ht.
  { unfold rendered. by rewrite Ht. }
  rewrite foldl_app in Ht. cbn [foldl fst snd] in Ht.
  set (t0 := {| block_roots := block_roots t; discovered_children := discovered_children t;
    failure_templates := foldl (λ m p, <[p.1 := default [] (m !! p.1) ++ [p.2]]> m) ∅ l;
    failed_failure_ids := failed_failure_ids t; failures := failures t |}).
  assert (rendered t = rendered (push_template b tm t0)) as -> by (unfold rendered; by rewrite Ht).
  rewrite rendered_push_template, (IH t0 eq_refl), bind_app. cbn. by rewrite app_nil_r.
Qed.

(** Association leaves the failed ids alone. *)
Lemma associate_ids r b (t : CopyFailureTracker) :
  failed_failure_ids (associate_root_with_known_subgraph r b t) = failed_failure_ids t.
Proof. by apply (associate_loop_ind (λ _ t', failed_failure_ids t' = failed_failure_ids t)). Qed.

Lemma remember_ids b cs (t : CopyFailureTracker) :
  failed_failure_ids (remember_children b cs t) = failed_failure_ids t.
Proof.
  unfold remember_children. case_match; [|done].
  apply (foldl_inv (λ _ t', failed_failure_ids t' = failed_failure_ids t)); [done|].
  intros _ r _ t1 _ Ht1. apply (foldl_inv (λ _ t', failed_failure_ids t' = failed_failure_ids t)); [done|].
  intros _ c _ t2 _ Ht2. by rewrite associate_ids.
Qed.

Lemma record_progress b op m (s : tracked) :
  progress_ok (progress_failed <$> s.2) (failed_failure_ids s.1) →
  progress_ok (progress_failed <$> (record b op m s).2) (failed_failure_ids (record b op m s).1).
Proof.
  intros Hp. apply (note_failed_id_progress (hash_to_string b)) in Hp. unfold record. cbn [fst snd].
  destruct (block_roots _ !! b); exact Hp.
Qed.

Lemma run_calls_progress calls p : progress_ok (progress_failed <$> p) ∅ →
  progress_ok (progress_failed <$> (run_calls p calls).2) (failed_failure_ids (run_calls p calls).1).
Proof.
  intros Hp. induction calls as [|c calls IH] using rev_ind; [done|]. unfold run_calls in *. rewrite foldl_app. cbn [foldl].
  destruct (foldl run_call (new_tracker, p) calls) as [t q]. destruct c as [r b|b cs|b [op m]|ids op m]; cbn [run_call fst snd] in *.
  - unfold note_block_root. by rewrite associate_ids.
  - by rewrite remember_ids.
  - by apply (record_progress b op m (t, q)).
  - apply (note_failed_id_progress DESTINATION_STORE_FAILURE_ID (t, q)), IH.
Qed.

(** C25. Whatever the order of the calls, the failures are, up to order, each
    recorded failure once for every root that reaches its block through the
    remembered children, and the store's failures; the number of distinct failed
    ids is the progress counter. *)
Theorem failures_exact calls (p : option CopyProgressState) :
  calls_ok calls → (∀ c, p = Some c → progress_failed c = 0) →
  let s := run_calls p calls in
  (∃ roots : block_hash → gset block_hash,
    (∀ r b, r ∈ roots b ↔ reaches calls r b)
    ∧ failures s.1 ≡ₚ (recorded calls ≫= λ f, (λ r, failure_of r f.1 f.2) <$> elements (roots f.1))
        ++ store_failures calls)
  ∧ ∀ c, s.2 = Some c → progress_failed c = count_failed_blocks (failures s.1).
Proof.
  intros Hok Hp s. pose proof (run_calls_inv calls p Hok) as Hinv. fold s in Hinv.
  split.
  - exists (roots_of s.1). split; [intros r b; by apply calls_roots|].
    rewrite (inv_failures _ _ _ _ (calls_tracker _ _ Hinv)). f_equiv.
    apply rendered_recorded, (calls_recorded _ _ Hinv).
  - intros c Hc. unfold count_failed_blocks. rewrite <-(inv_ids _ _ _ _ (calls_tracker _ _ Hinv)).
    apply (run_calls_progress calls p); [|by subst s; rewrite Hc].
    intros n. destruct p as [c0|]; [|done]. cbn. intros [= <-]. by rewrite (Hp c0), size_empty.
Qed.
End calls.
