(* ===== verification/BlockCopyChildren.v ===== *)
(** * The children that the copy finds in the indexer's blocks

    The copy reads replay journals and normalized emails through structs of its
    own. These theorems relate them to the writers: the ids found in a journal
    block are the previous block, the blocks its records name and their email
    artifacts, unless a record is an indexing outcome without input ids, which
    the copy's struct refuses; the artifact of an email leads to its mailbox. *)

From Stdlib Require Import ZArith Lia Ascii.
From stdpp Require Import base gmap sets strings sorting option list.
From S2P Require Import Prelude Hex Blocks Text Runtime ReplayJournal ReplayJournalSpec Items Mailbox Resolver MailboxSpec BlockCopy.
#[local] Open Scope Z_scope.

(** ** Loops that push parsed ids *)
Lemma push_ids_mapM acc ids :
  push_ids acc ids = (hs ← result_mapM parse_block_hash_text ids; Ok (acc ++ hs)).
Proof.
  revert acc. induction ids as [|id ids IH]; intros acc; cbn; [by rewrite app_nil_r|].
  destruct (parse_block_hash_text id) as [h|e]; cbn; [|done].
  unfold push_ids in IH. rewrite IH. destruct (result_mapM _ ids); cbn; [|done]. by rewrite <-(assoc (++)).
Qed.

Lemma push_ids_app acc ids ids' :
  push_ids acc (ids ++ ids') = (acc ← push_ids acc ids; push_ids acc ids').
Proof. apply result_foldl_app. Qed.

Lemma push_ids_foldl {A} (g : A → list string) l acc :
  result_foldl (λ acc x, push_ids acc (g x)) acc l = push_ids acc (concat (g <$> l)).
Proof.
  revert acc. induction l as [|x l IH]; intros acc; cbn; [done|].
  rewrite push_ids_app. destruct (push_ids acc (g x)); cbn; [apply IH|done].
Qed.

(** ** Replay journals *)

(** What the copy reads of a record, and the records it cannot read. *)
Definition content_ref_for_copy (c : ReplayJournalContentRef) : ReplayJournalContentRefForCopy :=
  match c with
  | JDocument path => CopyDocument path
  | JInline m b => CopyInline m b
  | JEmailChunk r i => CopyEmailChunk r i
  end.
Definition record_for_copy (r : ReplayJournalRecord) : ReplayJournalRecordForCopy :=
  match r with
  | ReplayInput _ id _ c => CopyReplayInput id (content_ref_for_copy c)
  | IndexingOutcome _ ins _ gen root => CopyIndexingOutcome ins gen root
  end.
Definition without_inputs (r : ReplayJournalRecord) : bool :=
  match r with IndexingOutcome _ ins _ _ _ => bool_decide (ins = []) | _ => false end.

(** The ids that the copy should follow. *)
Definition journal_ids (b : ReplayJournalBlockBody) : list string :=
  option_list (previous_block_id b) ++ concat ((λ r, entry_ids (record_for_copy r)) <$> entries b).

Definition missing_inputs : string := "missing field " +:+ "input_block_ids".

Lemma de_ser_content_ref_for_copy c : content_ref_ok c = true →
  de_content_ref_for_copy (ser_content_ref c) = Ok (content_ref_for_copy c).
Proof.
  destruct c as [p|m b|r i]; cbn; [done| |].
  - intros (_&[_ Hb]%andb_prop)%andb_prop. unfold de_content_ref_for_copy, de_required, de_optional. cbn -[list_fmap].
    rewrite (result_mapM_fmap VInteger de_u8); [done|]. intros x Hx.
    rewrite forallb_forall in Hb. cbn. rewrite Hb; [done|]. by apply list_elem_of_In.
  - intros [_ Hi]%andb_prop. unfold de_content_ref_for_copy, de_required, de_optional. cbn -[list_fmap]. by rewrite Hi.
Qed.

Lemma de_ser_record_for_copy r : record_ok r = true →
  de_record_for_copy (ser_record r) = if without_inputs r then Err missing_inputs else Ok (record_for_copy r).
Proof.
  destruct r as [k id md c|k ins n gen root]; cbn [record_ok without_inputs].
  - intros [_ Hc]%andb_prop. unfold de_record_for_copy, de_required, de_optional. cbn -[list_fmap].
    by rewrite de_ser_content_ref_for_copy.
  - intros _. unfold de_record_for_copy, de_required, de_optional, ser_record, usize_is_zero.
    case_bool_decide as Hi; destruct (n =? 0); cbn -[list_fmap];
      rewrite ?(result_mapM_fmap VText de_text) by done; cbn -[list_fmap]; try done;
      by rewrite ?(result_mapM_fmap VText de_text).
Qed.

Lemma de_ser_records_for_copy l : forallb record_ok l = true →
  result_mapM de_record_for_copy (ser_record <$> l) =
    if existsb without_inputs l then Err missing_inputs else Ok (record_for_copy <$> l).
Proof.
  induction l as [|r l IH]; cbn; [done|]. intros [Hr Hl]%andb_prop.
  rewrite de_ser_record_for_copy by done. destruct (without_inputs r); cbn; [done|].
  rewrite IH by done. by destruct (existsb without_inputs l).
Qed.

Lemma de_ser_body_for_copy b : body_ok b = true →
  de_body_for_copy (ser_body b) =
    if existsb without_inputs (entries b) then Err missing_inputs
    else Ok {| copy_previous_block_id := previous_block_id b; copy_entries := record_for_copy <$> entries b |}.
Proof.
  destruct b as [v p es]. unfold body_ok. cbn [schema_version previous_block_id entries].
  intros (_&[_ He]%andb_prop)%andb_prop.
  unfold de_body_for_copy, de_default, de_optional. cbn -[list_fmap].
  rewrite de_ser_records_for_copy by done. destruct p; cbn; by destruct (existsb without_inputs es).
Qed.

Section children.
Context `{CiboriumLaws}.

Lemma journal_child_ids_eq b body : body_ok b = true → into_writer (ser_body b) = Ok body →
  replay_journal_child_ids {| cb_type_name := CustomBlocks.REPLAY_JOURNAL_BLOCK_TYPE;
                              cb_content := payload_map CustomBlocks.REPLAY_JOURNAL_MEDIA_TYPE body |}
  = if existsb without_inputs (entries b) then Err missing_inputs
    else result_mapM parse_block_hash_text (journal_ids b).
Proof.
  intros Hb Hw. unfold replay_journal_child_ids. cbn [cb_content]. rewrite custom_block_payload_map.
  cbn [mbind result_bind]. rewrite bool_decide_eq_false_2 by tauto.
  rewrite (from_into _ _ (plain_body _ Hb) Hw). cbn [mbind result_bind].
  rewrite de_ser_body_for_copy by done. destruct (existsb without_inputs (entries b)); [done|].
  cbn [mbind result_bind copy_previous_block_id copy_entries].
  assert ((match previous_block_id b with Some p => push_ids [] [p] | None => Ok [] end)
    = push_ids [] (option_list (previous_block_id b))) as -> by by destruct (previous_block_id b).
  transitivity (push_ids [] (journal_ids b)).
  - unfold journal_ids. rewrite push_ids_app. destruct (push_ids [] (option_list _)); [|done].
    cbn [mbind result_bind]. rewrite (push_ids_foldl entry_ids). by rewrite <-list_fmap_compose.
  - rewrite push_ids_mapM. cbn. by destruct (result_mapM _ _).
Qed.

(** The children of a journal block that the indexer writes are the
    previous block and the blocks and email artifacts its records name, unless
    one of its records is an outcome without input ids: then no child is found. *)
Theorem journal_children b body : body_ok b = true → into_writer (ser_body b) = Ok body →
  custom_block_child_ids {| cb_type_name := CustomBlocks.REPLAY_JOURNAL_BLOCK_TYPE;
                            cb_content := payload_map CustomBlocks.REPLAY_JOURNAL_MEDIA_TYPE body |}
  = if existsb without_inputs (entries b) then Err missing_inputs
    else result_mapM parse_block_hash_text (journal_ids b).
Proof. apply journal_child_ids_eq. Qed.

(** Every record of a published outcome lacks its input ids. *)
Lemma outcome_without_inputs n ids root : without_inputs (indexing_outcome n ids root) = true.
Proof. reflexivity. Qed.

(** ** Emails *)
Lemma canonical_mailbox_ref a nf : result_mapM canonical_entry (artifact_fields a) = Ok nf →
  filter (λ kv, field_of "mailbox_artifact_ref" kv = true) nf
  = [(VText "mailbox_artifact_ref", VText (Mailbox.mailbox_artifact_ref a))].
Proof.
  unfold artifact_fields. set (hl := VArray _). cbn [result_mapM]. rewrite !canonical_option_field.
  destruct (canonical_entry (VText "headers", hl)) as [h|] eqn:Hh; [|done].
  assert (h.1 = VText "headers") as Hk.
  { unfold canonical_entry in Hh. cbn [fst snd] in Hh.
    apply result_bind_ok in Hh as (k&[= <-]&(v&_&[= <-])%result_bind_ok). done. }
  destruct h as [k v]. cbn [fst] in Hk. subst k. cbn. intros [= <-].
  by destruct (subject a), (from a), (recipient_context a), (date a), (message_id a).
Qed.

(** The block that holds a normalized email leads to its mailbox. *)
Lemma email_children {E} path (a : NormalizedEmailArtifact) body : fits a →
  render_normalized_email (E := E) path a = Ok body →
  custom_block_child_ids {| cb_type_name := NORMALIZED_EMAIL_ARTIFACT_BLOCK_TYPE;
                            cb_content := payload_map ARTIFACT_MEDIA_TYPE_NORMALIZED_EMAIL body |}
  = result_mapM parse_block_hash_text [Mailbox.mailbox_artifact_ref a].
Proof.
  intros Hfit Hr. pose proof (fits_plain _ Hfit) as Hp. unfold render_normalized_email in Hr.
  apply result_bind_ok in Hr as (v&Hc%map_err_ok&Hw%map_err_ok).
  pose proof (canonicalize_plain _ _ Hc Hp) as Hpv.
  pose proof Hc as (nf&out&Hnf&->&Hperm&_)%canonicalize_ok_inv.
  unfold custom_block_child_ids. cbn [cb_type_name]. change (String.eqb _ _) with false at 1.
  change (String.eqb _ _) with true at 1. unfold normalized_email_artifact_child_ids. cbn [cb_content].
  rewrite custom_block_payload_map. cbn [mbind result_bind]. rewrite bool_decide_eq_false_2 by tauto.
  rewrite (from_into _ _ Hpv Hw). cbn [mbind result_bind].
  rewrite (find_text_perm _ nf out _ Hperm (canonical_mailbox_ref a nf Hnf)). done.
Qed.

(** A text id that the project printed is read back. *)
Lemma parse_printed `{HashDisplayLaws} h : hash_ok h → parse_block_hash_text (hash_to_string h) = Ok h.
Proof. intros Hh. unfold parse_block_hash_text. by rewrite decode_hash_to_string. Qed.
End children.

(** ** Leaves *)
Definition is_artifact_ref (name : string) : bool :=
  String.eqb name "email_artifact_ref" || String.eqb name "mailbox_artifact_ref".

(** The artifact ids in the metadata of an entry. *)
Definition entry_refs (metadata : list (value * value)) : list string :=
  omap (λ kv, match kv with
    | (VText name, VText block_id) => if is_artifact_ref name then Some block_id else None
    | _ => None
    end) metadata.

Lemma push_metadata acc metadata :
  result_foldl (λ child_ids kv,
    match kv with
    | (VText name, VText block_id) =>
        if String.eqb name "email_artifact_ref" || String.eqb name "mailbox_artifact_ref"
        then h ← parse_block_hash_text block_id; Ok (child_ids ++ [h])
        else Ok child_ids
    | _ => Ok child_ids
    end) acc metadata = push_ids acc (entry_refs metadata).
Proof.
  revert acc. induction metadata as [|[k v] l IH]; intros acc; [done|].
  unfold entry_refs. cbn [result_foldl omap list_omap]. fold (entry_refs l).
  destruct k; try apply IH; destruct v; try apply IH.
  change (String.eqb s "email_artifact_ref" || String.eqb s "mailbox_artifact_ref") with (is_artifact_ref s).
  destruct (is_artifact_ref s); [|apply IH]. cbn. destruct (parse_block_hash_text _); cbn; [apply IH|done].
Qed.

Lemma result_foldl_ext {E A S} (f g : S → A → result E S) s l :
  (∀ s x, f s x = g s x) → result_foldl f s l = result_foldl g s l.
Proof. intros Hfg. revert s. induction l as [|x l IH]; intros s; cbn; [done|]. rewrite Hfg. by destruct (g s x); cbn. Qed.

Lemma leaf_child_ids_eq es :
  leaf_entry_child_ids es = result_mapM parse_block_hash_text (concat ((λ e, entry_refs (le_metadata e)) <$> es)).
Proof.
  unfold leaf_entry_child_ids.
  rewrite (result_foldl_ext _ (λ acc e, push_ids acc (entry_refs (le_metadata e)))) by (intros; apply push_metadata).
  rewrite (push_ids_foldl (λ e, entry_refs (le_metadata e))), push_ids_mapM. by destruct (result_mapM _ _).
Qed.

Lemma map_refs (m : gmap string string) e b :
  m !! "email_artifact_ref" = Some e → m !! "mailbox_artifact_ref" = Some b →
  entry_refs ((λ kv, (VText kv.1, VText kv.2)) <$> btree_pairs m) ≡ₚ [e; b].
Proof.
  intros He Hb.
  assert (∀ l : list (prod string string), entry_refs ((λ kv, (VText kv.1, VText kv.2)) <$> l)
    = omap (λ kv, if is_artifact_ref kv.1 then Some kv.2 else None) l) as Heq.
  { induction l as [|[k v] l IH]; [done|]. unfold entry_refs in *. cbn. by rewrite IH. }
  rewrite Heq, btree_pairs_perm, <-(map_to_list_delete m _ _ He).
  rewrite <-(map_to_list_delete (delete "email_artifact_ref" m) "mailbox_artifact_ref" b) by by rewrite lookup_delete_ne.
  cbn. set (rest := delete "mailbox_artifact_ref" _).
  assert (omap (λ kv, if is_artifact_ref kv.1 then Some kv.2 else None) (map_to_list rest) = []) as ->; [|done].
  assert (∀ kv, kv ∈ map_to_list rest → is_artifact_ref kv.1 = false) as Hrest.
  { intros [k v] Hin%elem_of_map_to_list. cbn [fst]. apply lookup_delete_Some in Hin as [? Hin].
    apply lookup_delete_Some in Hin as [? _]. unfold is_artifact_ref. apply orb_false_iff.
    rewrite !String.eqb_neq. done. }
  induction (map_to_list rest) as [|kv l IH]; [done|]. cbn. rewrite Hrest by by left.
  apply IH. intros x Hx. apply Hrest. by right.
Qed.

Lemma chunk_metadata_refs md path mailbox_ref email_ref a i locator :
  entry_refs (build_chunk_metadata md path mailbox_ref email_ref a i locator) ≡ₚ [email_ref; mailbox_ref].
Proof.
  unfold build_chunk_metadata, metadata_to_lexongraph. set (m := match message_id a with Some _ => _ | None => _ end).
  change (entry_refs ((λ kv, (VText kv.1, VText kv.2)) <$> btree_pairs m) ≡ₚ [email_ref; mailbox_ref]).
  apply map_refs; subst m; destruct (subject a), (from a), (recipient_context a), (date a), (message_id a);
    by rewrite ?lookup_insert_ne, lookup_insert_eq by done.
Qed.

(** The copy follows an email: the leaf of a chunk leads to the email's
    artifact and to the mailbox, whatever metadata the chunk inherits, and the
    email's artifact leads to the mailbox. *)
Theorem email_blocks_linked `{CiboriumLaws, HashDisplayLaws} {E} md path i body email_id mailbox_id (a : NormalizedEmailArtifact)
    emb content : hash_ok email_id → hash_ok mailbox_id → fits a →
  Mailbox.mailbox_artifact_ref a = hash_to_string mailbox_id →
  render_normalized_email (E := E) path a = Ok body →
  let item := chunk_item md path (hash_to_string mailbox_id) (hash_to_string email_id) a i in
  (∃ ids, leaf_entry_child_ids [{| le_metadata := item_metadata item; le_embedding := emb; le_content := content |}] = Ok ids
    ∧ ids ≡ₚ [email_id; mailbox_id])
  ∧ custom_block_child_ids {| cb_type_name := NORMALIZED_EMAIL_ARTIFACT_BLOCK_TYPE;
                              cb_content := payload_map ARTIFACT_MEDIA_TYPE_NORMALIZED_EMAIL body |} = Ok [mailbox_id].
Proof.
  intros He Hm Hfit Hmail Hr item. split.
  - rewrite leaf_child_ids_eq. cbn [fmap list_fmap concat le_metadata]. rewrite app_nil_r.
    pose proof (chunk_metadata_refs md path (hash_to_string mailbox_id) (hash_to_string email_id) a i
      (hash_to_string email_id +:+ ":" +:+ fmt_usize i)) as Hp.
    change (entry_refs (item_metadata item) ≡ₚ [hash_to_string email_id; hash_to_string mailbox_id]) in Hp.
    symmetry in Hp. apply Permutation_length_2_inv in Hp as [-> | ->]; cbn; rewrite !parse_printed by done; eexists; (split; [done|]).
    + done.
    + apply Permutation_swap.
  - rewrite (email_children path a body Hfit Hr), Hmail. cbn. by rewrite parse_printed.
Qed.
