(* ===== verification/CopyRun.v ===== *)
(** * Rooted block copy: the single-worker driver

    [copy_rooted_blocks_single_worker_with_mode_and_limits_and_checkpoint] of
    [block_copy.rs]: one task walks the blocks breadth first, buffers the writes
    into batches and keeps a bounded number of batches in flight. A batch in
    flight is the future of [publish_destination_write_batch]: a small state
    machine that advances by one store call per poll. [schedule] says which
    future the executor polls next, so a theorem for every schedule holds for
    every interleaving. *)

From Stdlib Require Import ZArith Lia Ascii.
From stdpp Require Import base gmap sets strings sorting option list.
From S2P Require Import Prelude Hex Blocks BlockCopy.
#[local] Open Scope Z_scope.

Record ThreadedWriteJob := {
  job_block_id : block_hash;
  job_block_bytes : bytes;
  count_as_copied : bool
}.
Record DestinationWriteCompletion := {
  done_block_id : block_hash;
  done_block_bytes_len : Z;
  done_count_as_copied : bool;
  done_result : result string unit
}.
Definition completion_of (r : result string unit) (job : ThreadedWriteJob) : DestinationWriteCompletion := {|
  done_block_id := job_block_id job;
  done_block_bytes_len := len (job_block_bytes job);
  done_count_as_copied := count_as_copied job;
  done_result := r |}.

(** How the copy stops without a report: a panic of [expect], or a loop that
    runs out of the fuel it was given. *)
Inductive copy_stop := Panicked (message : string) | OutOfFuel.

(** ** Publishing a batch *)

(** The suspension points of [publish_destination_write_batch]. *)
Inductive publication :=
| Unpolled (jobs : list ThreadedWriteJob)
| AwaitBatch (jobs : list ThreadedWriteJob)
| AwaitSingle (jobs : list ThreadedWriteJob) (completions : list DestinationWriteCompletion).

Definition entries_of (jobs : list ThreadedWriteJob) : list (block_hash * bytes) :=
  (λ job, (job_block_id job, job_block_bytes job)) <$> jobs.

(** [publish_destination_write_jobs_one_by_one], from the start. *)
Definition one_by_one (jobs : list ThreadedWriteJob) (completions : list DestinationWriteCompletion)
    : publication + list DestinationWriteCompletion :=
  match jobs with [] => inr completions | _ => inl (AwaitSingle jobs completions) end.

Section publish.
Context {D : Type} `{ByteStore D}.

(** One poll that makes progress: the store call that was awaited returns, and
    the task runs to its next [await] or to its end. *)
Definition publish_step (p : publication) (capability : BatchWriteCapability) (destination : D)
    : BatchWriteCapability * D * (publication + list DestinationWriteCompletion) :=
  match p with
  | Unpolled jobs =>
      let probing_single_write := (len jobs =? 1)
        && bool_decide (capability = Unknown ∨ capability = Probing) in
      if (len jobs <=? 1) && negb probing_single_write
      then (capability, destination, one_by_one jobs [])
      else (capability, destination, inl (AwaitBatch jobs))
  | AwaitBatch jobs =>
      let '(destination, r) := put_block_bytes_batch (entries_of jobs) destination in
      match r with
      | Ok _ => (complete_batch_write_probe true, destination, inr (completion_of (Ok ()) <$> jobs))
      | Err error =>
          if is_unsupported_batch_write_error error
          then (complete_batch_write_probe false, destination, one_by_one jobs [])
          else (complete_batch_write_probe true, destination,
                inr (completion_of (Err (byte_error_text error)) <$> jobs))
      end
  | AwaitSingle [] completions => (capability, destination, inr completions)
  | AwaitSingle (job :: jobs) completions =>
      let '(destination, r) := put_block_bytes (job_block_id job) (job_block_bytes job) destination in
      (capability, destination,
       one_by_one jobs (completions ++ [completion_of (map_err byte_error_text r) job]))
  end.

(** ** The writing half of the task's state *)
Record writer := {
  destination : D;
  schedule : nat → nat;
  batch_write_capability : BatchWriteCapability;
  pending_writes : list publication;
  buffered_write_jobs : list ThreadedWriteJob;
  buffered_write_bytes : Z;
  in_flight_destination_write_count : Z;
  in_flight_destination_write_bytes : Z;
  metrics : CopyMetrics;
  tracker : CopyFailureTracker;
  progress : option CopyProgressState
}.

Definition set_destination (d : D) (w : writer) : writer := {|
  destination := d; schedule := schedule w; batch_write_capability := batch_write_capability w;
  pending_writes := pending_writes w; buffered_write_jobs := buffered_write_jobs w;
  buffered_write_bytes := buffered_write_bytes w;
  in_flight_destination_write_count := in_flight_destination_write_count w;
  in_flight_destination_write_bytes := in_flight_destination_write_bytes w;
  metrics := metrics w; tracker := tracker w; progress := progress w |}.
Definition set_polled (d : D) (c : BatchWriteCapability) (p : list publication) (w : writer) : writer := {|
  destination := d; schedule := λ n, schedule w (S n); batch_write_capability := c;
  pending_writes := p; buffered_write_jobs := buffered_write_jobs w;
  buffered_write_bytes := buffered_write_bytes w;
  in_flight_destination_write_count := in_flight_destination_write_count w;
  in_flight_destination_write_bytes := in_flight_destination_write_bytes w;
  metrics := metrics w; tracker := tracker w; progress := progress w |}.
Definition set_capability (c : BatchWriteCapability) (w : writer) : writer := {|
  destination := destination w; schedule := schedule w; batch_write_capability := c;
  pending_writes := pending_writes w; buffered_write_jobs := buffered_write_jobs w;
  buffered_write_bytes := buffered_write_bytes w;
  in_flight_destination_write_count := in_flight_destination_write_count w;
  in_flight_destination_write_bytes := in_flight_destination_write_bytes w;
  metrics := metrics w; tracker := tracker w; progress := progress w |}.
Definition set_pending (p : list publication) (w : writer) : writer := {|
  destination := destination w; schedule := schedule w; batch_write_capability := batch_write_capability w;
  pending_writes := p; buffered_write_jobs := buffered_write_jobs w;
  buffered_write_bytes := buffered_write_bytes w;
  in_flight_destination_write_count := in_flight_destination_write_count w;
  in_flight_destination_write_bytes := in_flight_destination_write_bytes w;
  metrics := metrics w; tracker := tracker w; progress := progress w |}.
Definition set_buffered (jobs : list ThreadedWriteJob) (n : Z) (w : writer) : writer := {|
  destination := destination w; schedule := schedule w; batch_write_capability := batch_write_capability w;
  pending_writes := pending_writes w; buffered_write_jobs := jobs; buffered_write_bytes := n;
  in_flight_destination_write_count := in_flight_destination_write_count w;
  in_flight_destination_write_bytes := in_flight_destination_write_bytes w;
  metrics := metrics w; tracker := tracker w; progress := progress w |}.
Definition set_in_flight (count bytes : Z) (w : writer) : writer := {|
  destination := destination w; schedule := schedule w; batch_write_capability := batch_write_capability w;
  pending_writes := pending_writes w; buffered_write_jobs := buffered_write_jobs w;
  buffered_write_bytes := buffered_write_bytes w;
  in_flight_destination_write_count := count; in_flight_destination_write_bytes := bytes;
  metrics := metrics w; tracker := tracker w; progress := progress w |}.

(** A method of the metrics, and one of the tracker. *)
Definition on_metrics (f : metered → metered) (w : writer) : writer :=
  let m := f (metrics w, progress w) in {|
  destination := destination w; schedule := schedule w; batch_write_capability := batch_write_capability w;
  pending_writes := pending_writes w; buffered_write_jobs := buffered_write_jobs w;
  buffered_write_bytes := buffered_write_bytes w;
  in_flight_destination_write_count := in_flight_destination_write_count w;
  in_flight_destination_write_bytes := in_flight_destination_write_bytes w;
  metrics := m.1; tracker := tracker w; progress := m.2 |}.
Definition on_tracker (f : tracked → tracked) (w : writer) : writer :=
  let t := f (tracker w, progress w) in {|
  destination := destination w; schedule := schedule w; batch_write_capability := batch_write_capability w;
  pending_writes := pending_writes w; buffered_write_jobs := buffered_write_jobs w;
  buffered_write_bytes := buffered_write_bytes w;
  in_flight_destination_write_count := in_flight_destination_write_count w;
  in_flight_destination_write_bytes := in_flight_destination_write_bytes w;
  metrics := metrics w; tracker := t.1; progress := t.2 |}.

(** ** Waiting for writes *)

(** One poll of [FuturesUnordered]: some pending future advances. *)
Definition poll_pending (w : writer) : writer * option (list DestinationWriteCompletion) :=
  let i := Nat.modulo (schedule w 0%nat) (length (pending_writes w)) in
  match pending_writes w !! i with
  | None => (w, None)
  | Some p =>
      let '(capability, destination, outcome) := publish_step p (batch_write_capability w) (destination w) in
      match outcome with
      | inl p' => (set_polled destination capability (<[i := p']> (pending_writes w)) w, None)
      | inr completions => (set_polled destination capability (delete i (pending_writes w)) w, Some completions)
      end
  end.

(** [pending_writes.next().await]: polls until a future completes; [None] when
    there is none. *)
Fixpoint next_loop (fuel : nat) (w : writer) : writer * option (list DestinationWriteCompletion) :=
  match fuel, pending_writes w with
  | O, _ | _, [] => (w, None)
  | S fuel, _ =>
      match poll_pending w with
      | (w, Some completions) => (w, Some completions)
      | (w, None) => next_loop fuel w
      end
  end.

(** Polls that a future still needs, at most. *)
Definition publication_work (p : publication) : nat :=
  match p with
  | Unpolled jobs => 3 + length jobs
  | AwaitBatch jobs => 2 + length jobs
  | AwaitSingle jobs _ => 1 + length jobs
  end.
Definition next_pending (w : writer) : writer * option (list DestinationWriteCompletion) :=
  next_loop (S (sum_list (publication_work <$> pending_writes w))) w.

Context `{HashDisplay} `{HashSetOrder}.

Definition record_completion (w : writer) (completion : DestinationWriteCompletion) : writer :=
  let w := set_in_flight (in_flight_destination_write_count w)
    (saturating_sub (in_flight_destination_write_bytes w) (done_block_bytes_len completion)) w in
  match done_result completion with
  | Ok _ => if done_count_as_copied completion then on_metrics note_copied_block w else w
  | Err message => on_tracker (record (done_block_id completion) WriteDestinationBlock message) w
  end.

Definition record_write_completions (completions : list DestinationWriteCompletion) (w : writer) : writer :=
  foldl record_completion
    (set_in_flight (saturating_sub (in_flight_destination_write_count w) (len completions))
       (in_flight_destination_write_bytes w) w) completions.

Abbreviation copying A := (stm writer copy_stop A).

(** The limits of the call. *)
Context (effective_write_limit max_in_flight_destination_write_bytes : Z).

Definition no_capacity (next_write_count next_write_bytes : Z) (w : writer) : bool :=
  (effective_write_limit <? saturating_add (in_flight_destination_write_count w) next_write_count)
  || ((0 <? in_flight_destination_write_count w)
      && (0 <? max_in_flight_destination_write_bytes)
      && (max_in_flight_destination_write_bytes
          <? saturating_add (in_flight_destination_write_bytes w) next_write_bytes)).

(** [wait_for_write_capacity]: each turn removes a pending future. *)
Fixpoint wait_loop (fuel : nat) (next_write_count next_write_bytes : Z) : copying unit := fun w =>
  if no_capacity next_write_count next_write_bytes w then
    match fuel with
    | O => (w, Err OutOfFuel)
    | S fuel =>
        match next_pending w with
        | (w, None) => (w, Err (Panicked "pending destination writes should complete"))
        | (w, Some completions) =>
            wait_loop fuel next_write_count next_write_bytes (record_write_completions completions w)
        end
    end
  else (w, Ok ()).
Definition wait_for_write_capacity (next_write_count next_write_bytes : Z) : copying unit := fun w =>
  wait_loop (S (length (pending_writes w))) next_write_count next_write_bytes w.

Fixpoint flush_loop (fuel : nat) : copying unit := fun w =>
  match next_pending w with
  | (w, None) => (w, Ok ())
  | (w, Some completions) =>
      match fuel with
      | O => (w, Err OutOfFuel)
      | S fuel => flush_loop fuel (record_write_completions completions w)
      end
  end.
Definition flush_pending_writes : copying unit := fun w => flush_loop (length (pending_writes w)) w.

(** ** Buffering *)
Definition destination_write_batch_len (capability : BatchWriteCapability) : Z :=
  match capability with
  | Supported => Z.max effective_write_limit 1
  | Unknown => Z.min (Z.max effective_write_limit 1) 2
  | Probing | Unsupported => 1
  end.

Definition enqueue_destination_write_batch (jobs : list ThreadedWriteJob) (w : writer) : writer :=
  set_pending (pending_writes w ++ [Unpolled jobs]) w.

(** [if c { m }], with a condition on the state. *)
Definition if_state (c : writer → bool) (m : copying unit) : copying unit := fun w =>
  if c w then m w else (w, Ok ()).

(** A batch of several jobs starts the probe when nothing is known yet. *)
Definition begin_probe (publication_jobs : list ThreadedWriteJob) (w : writer) : writer :=
  if (1 <? len publication_jobs) && bool_decide (batch_write_capability w = Unknown)
  then set_capability (try_begin_batch_write_probe (batch_write_capability w)).1 w else w.

Definition publish_buffered (publication_jobs : list ThreadedWriteJob) (publication_bytes : Z) : copying unit :=
  modify (begin_probe publication_jobs) ;;
  wait_for_write_capacity (len publication_jobs) publication_bytes ;;
  modify (enqueue_destination_write_batch publication_jobs) ;;
  modify (λ w, set_in_flight (saturating_add (in_flight_destination_write_count w) (len publication_jobs))
                 (saturating_add (in_flight_destination_write_bytes w) publication_bytes) w).

Definition flush_buffered_destination_writes : copying unit := fun w =>
  if bool_decide (buffered_write_jobs w = []) then (w, Ok ()) else
  publish_buffered (buffered_write_jobs w) (buffered_write_bytes w) (set_buffered [] 0 w).

Definition batch_is_full (target_batch_len next_write_bytes : Z) (w : writer) : bool :=
  negb (bool_decide (buffered_write_jobs w = []))
  && ((target_batch_len <=? len (buffered_write_jobs w))
      || ((0 <? max_in_flight_destination_write_bytes)
          && (max_in_flight_destination_write_bytes
              <? saturating_add (buffered_write_bytes w) next_write_bytes))).
Definition batch_is_ready (target_batch_len : Z) (w : writer) : bool :=
  (target_batch_len <=? len (buffered_write_jobs w))
  || ((0 <? max_in_flight_destination_write_bytes)
      && (max_in_flight_destination_write_bytes <=? buffered_write_bytes w)).

Definition buffer_destination_write_job (write_job : ThreadedWriteJob) : copying unit :=
  let next_write_bytes := len (job_block_bytes write_job) in
  capability ← gets batch_write_capability;
  let target_batch_len := destination_write_batch_len capability in
  if_state (batch_is_full target_batch_len next_write_bytes) flush_buffered_destination_writes ;;
  modify (λ w, set_buffered (buffered_write_jobs w ++ [write_job])
                 (saturating_add (buffered_write_bytes w) next_write_bytes) w) ;;
  if_state (batch_is_ready target_batch_len) flush_buffered_destination_writes.

Definition discard_buffered_destination_writes (w : writer) : writer := set_buffered [] 0 w.
End publish.
Arguments writer D : clear implicits.

(** ** The walk *)
Section driver.
Context {D : Type} `{ByteStore D} `{Ciborium} `{DecodeBlock} `{HashDisplay} `{HashSetOrder}.

(** What the source answers for an id, read at most once: a failure is the
    text of its error. *)
Context (source : block_hash → result string (option bytes)).

(** [BlindWriteCheckpoint]: the action compacts the destination. *)
Record BlindWriteCheckpoint := {
  interval : Z;
  action : D → D * result (ByteStoreError D) unit
}.
Record CopyExecutionConfig := {
  max_in_flight_destination_writes : Z;
  worker_thread_count : Z;
  max_in_flight_destination_write_bytes : Z;
  config_progress : option CopyProgressState;
  blind_write_checkpoint : option BlindWriteCheckpoint
}.

Record copy_state := {
  writing : writer D;
  queue : list (block_hash * block_hash);
  visited : gset block_hash;
  signal : option nat;
  stop_requested : bool
}.
Definition on_writer (f : writer D → writer D) (s : copy_state) : copy_state := {|
  writing := f (writing s); queue := queue s; visited := visited s;
  signal := signal s; stop_requested := stop_requested s |}.
Definition set_queue (q : list (block_hash * block_hash)) (s : copy_state) : copy_state := {|
  writing := writing s; queue := q; visited := visited s;
  signal := signal s; stop_requested := stop_requested s |}.
Definition set_visited (v : gset block_hash) (s : copy_state) : copy_state := {|
  writing := writing s; queue := queue s; visited := v;
  signal := signal s; stop_requested := stop_requested s |}.
Definition set_stop (n : option nat) (b : bool) (s : copy_state) : copy_state := {|
  writing := writing s; queue := queue s; visited := visited s;
  signal := n; stop_requested := b |}.

Abbreviation walking A := (stm copy_state copy_stop A).
Definition writes {A} (m : stm (writer D) copy_stop A) : walking A := fun s =>
  let '(w, r) := m (writing s) in (on_writer (λ _, w) s, r).

(** [interrupt::is_interrupt_requested]: the flag is raised after [signal]
    further polls, or never. *)
Definition poll_interrupt (n : option nat) : option nat * bool :=
  match n with Some O => (n, true) | _ => (Nat.pred <$> n, false) end.

Definition sync_interrupt_requested (s : copy_state) : copy_state * bool :=
  if stop_requested s then (s, true) else
  let '(n, raised) := poll_interrupt (signal s) in (set_stop n raised s, raised).

Definition read_source_block (block_id : block_hash) (w : writer D) : writer D * option bytes :=
  let w := on_metrics (λ m, (m.1, progress_note_read_source_block <$> m.2)) w in
  match source block_id with
  | Ok (Some bytes) => (w, Some bytes)
  | Ok None => (on_tracker (record block_id ReadSourceBlock "source block was not found") w, None)
  | Err error => (on_tracker (record block_id ReadSourceBlock error) w, None)
  end.

Definition should_run_blind_write_checkpoint (mode : CopyDestinationMode) (attempted : Z)
    (checkpoint_interval : option Z) : bool :=
  is_blind_write mode && match checkpoint_interval with
                         | Some n => (0 <? n) && (0 <? attempted) && (attempted mod n =? 0)
                         | None => false
                         end.

Context (destination_mode : CopyDestinationMode) (config : CopyExecutionConfig) (root_ids : list block_hash).
Definition effective_write_limit : Z := Z.max (max_in_flight_destination_writes config) 1.
Abbreviation buffer_job := (buffer_destination_write_job effective_write_limit (max_in_flight_destination_write_bytes config)).
Abbreviation flush_buffered := (flush_buffered_destination_writes effective_write_limit (max_in_flight_destination_write_bytes config)).

(** The two arms of [match destination_mode]; [false] leaves the loop. *)
Definition read_before_write (block_id : block_hash) (block_bytes : bytes) : walking bool := fun s =>
  let '(d, r) := get_block_bytes block_id (destination (writing s)) in
  let s := on_writer (set_destination d) s in
  match r with
  | Ok (Some _) => (on_writer (on_metrics note_skipped_already_present_block) s, Ok true)
  | Ok None =>
      (writes (buffer_job {| job_block_id := block_id; job_block_bytes := block_bytes; count_as_copied := true |}) ;;
       mret true) s
  | Err error => (on_writer (on_tracker (record block_id CheckDestinationBlock (byte_error_text error))) s, Ok true)
  end.

Definition run_checkpoint : walking bool := fun s =>
  match blind_write_checkpoint config with
  | None => (s, Ok true)
  | Some checkpoint =>
      let '(d, r) := action checkpoint (destination (writing s)) in
      let s := on_writer (set_destination d) s in
      match r with
      | Ok _ => (s, Ok true)
      | Err error =>
          (on_writer (on_tracker (record_store_failure root_ids CompactDestinationStore (byte_error_text error))) s,
           Ok false)
      end
  end.

Definition checkpoint_unless_interrupted : walking bool := fun s =>
  let '(s, raised) := sync_interrupt_requested s in
  if raised then (on_writer discard_buffered_destination_writes s, Ok false) else run_checkpoint s.

Definition blind_write (block_id : block_hash) (block_bytes : bytes) : walking bool :=
  modify (on_writer (on_metrics note_attempted_write_block)) ;;
  writes (buffer_job {| job_block_id := block_id; job_block_bytes := block_bytes; count_as_copied := false |}) ;;
  attempted ← gets (λ s, attempted_write_block_count (metrics (writing s)));
  if should_run_blind_write_checkpoint destination_mode attempted (interval <$> blind_write_checkpoint config)
  then writes flush_buffered ;; writes flush_pending_writes ;; checkpoint_unless_interrupted
  else mret true.

Definition write_block (block_id : block_hash) (block_bytes : bytes) : walking bool :=
  match destination_mode with
  | ReadBeforeWrite => read_before_write block_id block_bytes
  | BlindWrite => blind_write block_id block_bytes
  end.

(** The rest of the loop's body once the block has been read. *)
Definition copy_block (request_root_id block_id : block_hash) (block_bytes : bytes) : walking bool := fun s =>
  let '(t, child_ids) := decode_source_block block_id block_bytes (tracker (writing s), progress (writing s)) in
  let s := on_writer (on_tracker (λ _, t)) s in
  let s := on_writer (on_tracker (λ t, (remember_children block_id child_ids t.1, t.2))) s in
  (go_on ← write_block block_id block_bytes;
   if go_on : bool then modify (λ s, set_queue (enqueue_children request_root_id child_ids (queue s)) s) ;; mret true
   else mret false) s.

(** The loop's body, for an element just taken from the queue. *)
Definition copy_step (request_root_id block_id : block_hash) : walking bool := fun s =>
  let '(s, raised) := sync_interrupt_requested s in
  if raised then (on_writer discard_buffered_destination_writes s, Ok false) else
  let s := on_writer (on_tracker (λ t, (note_block_root request_root_id block_id t.1, t.2))) s in
  if decide (block_id ∈ visited s) then (s, Ok true) else
  let s := set_visited ({[block_id]} ∪ visited s) s in
  let '(w, block_bytes) := read_source_block block_id (writing s) in
  let s := on_writer (λ _, w) s in
  match block_bytes with
  | None => (s, Ok true)
  | Some block_bytes => copy_block request_root_id block_id block_bytes s
  end.

Fixpoint copy_loop (fuel : nat) : walking unit := fun s =>
  match queue s with
  | [] => (s, Ok ())
  | (request_root_id, block_id) :: q =>
      match fuel with
      | O => (s, Err OutOfFuel)
      | S fuel =>
          (go_on ← copy_step request_root_id block_id;
           if go_on : bool then copy_loop fuel else mret ()) (set_queue q s)
      end
  end.

Definition report_of (w : writer D) : RootedBlockCopyReport := {|
  report_destination_mode := destination_mode;
  requested_root_ids := hash_to_string <$> root_ids;
  report_copied_block_count := when (is_read_before_write destination_mode) (copied_block_count (metrics w));
  report_skipped_already_present_block_count :=
    when (is_read_before_write destination_mode) (skipped_already_present_block_count (metrics w));
  report_attempted_write_block_count :=
    when (is_blind_write destination_mode) (attempted_write_block_count (metrics w));
  report_failed_block_count := count_failed_blocks (failures (tracker w));
  report_failures := failures (tracker w) |}.

Definition initial_state (d : D) (sched : nat → nat) (n : option nat) : copy_state :=
  let '(n, raised) := poll_interrupt n in {|
  writing := {| destination := d; schedule := sched; batch_write_capability := Unknown;
    pending_writes := []; buffered_write_jobs := []; buffered_write_bytes := 0;
    in_flight_destination_write_count := 0; in_flight_destination_write_bytes := 0;
    metrics := new_metrics; tracker := new_tracker; progress := config_progress config |};
  queue := (λ root_id, (root_id, root_id)) <$> root_ids;
  visited := ∅; signal := n; stop_requested := raised |}.

(** The driver, with the fuel of its loop. The final state is returned for the
    destination and the progress counters. *)
Definition copy_rooted_blocks_single_worker (fuel : nat) (d : D) (sched : nat → nat) (n : option nat)
    : copy_state * result copy_stop RootedBlockCopyReport :=
  (copy_loop fuel ;;
   writes flush_buffered ;;
   writes flush_pending_writes ;;
   gets (λ s, report_of (writing s))) (initial_state d sched n).
End driver.
Arguments BlindWriteCheckpoint D {_}.
Arguments CopyExecutionConfig D {_}.
Arguments copy_state D : clear implicits.
