(* ===== verification/CopyRunSpec.v ===== *)
(** * Theorems of the single-worker copy: publishing

    Invariants of the writing half: whatever order the pending writes are
    polled in, every job that was handed over is buffered, in flight, in the
    destination or recorded as failed; no loop runs out of fuel, and the wait for
    capacity never panics. The theorems on the whole walk are in
    [CopyWalkSpec.v]. *)

From Stdlib Require Import ZArith Lia Ascii.
From stdpp Require Import base gmap sets strings sorting option list.
From S2P Require Import Prelude Hex Blocks BlockCopy BlockCopySpec CopyRun.
#[local] Open Scope Z_scope.

Section publish.
Context {D : Type} `{ByteStoreLaws D} `{HashDisplay} `{HashSetOrder}.
Context (source : block_hash → result string (option bytes)) (mode : CopyDestinationMode).
Implicit Types (w : writer D) (p : publication) (b : block_hash).

(** What may happen to a destination: an id keeps its bytes or gets those of
    the source. *)
Definition frame (d d' : D) : Prop :=
  ∀ h, held d' h = held d h ∨ ∃ x, source h = Ok (Some x) ∧ held d' h = Some x.
#[export] Instance frame_preorder : PreOrder frame.
Proof.
  split; [intros d h; by left|]. intros d1 d2 d3 H12 H23 h.
  destruct (H23 h) as [->|?]; [apply H12|by right].
Qed.

Definition landed (d : D) b : Prop :=
  match mode with
  | ReadBeforeWrite => is_Some (held d b)
  | BlindWrite => ∃ x, source b = Ok (Some x) ∧ held d b = Some x
  end.
Lemma landed_frame d d' b : frame d d' → landed d b → landed d' b.
Proof.
  intros Hf. unfold landed. destruct mode.
  - intros [x Hx]. destruct (Hf b) as [->|(y&_&->)]; by eexists.
  - intros (x&Hs&Hx). destruct (Hf b) as [->|(y&Hy&->)]; exists x; [done|]. split; [done|congruence].
Qed.
Lemma landed_source d b x : source b = Ok (Some x) → held d b = Some x → landed d b.
Proof. intros Hs Hx. unfold landed. destruct mode; [by eexists|by exists x]. Qed.

Definition job_ok (job : ThreadedWriteJob) : Prop := source (job_block_id job) = Ok (Some (job_block_bytes job)).
Definition completion_ok (d : D) (c : DestinationWriteCompletion) : Prop :=
  ∃ x, source (done_block_id c) = Ok (Some x) ∧ (done_result c = Ok () → held d (done_block_id c) = Some x).
Lemma completion_frame d d' c : frame d d' → completion_ok d c → completion_ok d' c.
Proof.
  intros Hf (x&Hs&Hx). exists x. split; [done|]. intros Hr. destruct (Hf (done_block_id c)) as [->|(y&Hy&->)]; [auto|congruence].
Qed.

Lemma written_frame jobs d d' : Forall job_ok jobs → written (entries_of jobs) d d' → frame d d'.
Proof.
  intros Hj Hw h. destruct (Hw h) as [?|(x&Hin&Hx)]; [by left|right]. exists x. split; [|done].
  apply list_elem_of_fmap in Hin as (job&[= -> ->]&Hin). rewrite Forall_forall in Hj. by apply Hj.
Qed.

(** ** A batch in flight *)
Definition pub_jobs p : list ThreadedWriteJob :=
  match p with Unpolled jobs | AwaitBatch jobs | AwaitSingle jobs _ => jobs end.
Definition pub_done p : list DestinationWriteCompletion :=
  match p with AwaitSingle _ completions => completions | _ => [] end.
Definition ids_of (completions : list DestinationWriteCompletion) (jobs : list ThreadedWriteJob) : list block_hash :=
  (done_block_id <$> completions) ++ (job_block_id <$> jobs).
Definition pub_ids p : list block_hash := ids_of (pub_done p) (pub_jobs p).
Definition pub_ok (d : D) p : Prop := Forall job_ok (pub_jobs p) ∧ Forall (completion_ok d) (pub_done p).
Lemma pub_frame d d' p : frame d d' → pub_ok d p → pub_ok d' p.
Proof. intros Hf [??]. split; [done|]. eapply Forall_impl; [done|]. intros c. by apply completion_frame. Qed.

(** The batch is still running, or it has completed. *)
Definition outcome_ids (o : publication + list DestinationWriteCompletion) : list block_hash :=
  match o with inl p => pub_ids p | inr completions => done_block_id <$> completions end.
Definition outcome_ok (d : D) (o : publication + list DestinationWriteCompletion) : Prop :=
  match o with inl p => pub_ok d p | inr completions => Forall (completion_ok d) completions end.
Definition outcome_work (o : publication + list DestinationWriteCompletion) : nat :=
  match o with inl p => publication_work p | inr _ => 0 end.

Lemma one_by_one_spec d jobs completions :
  Forall job_ok jobs → Forall (completion_ok d) completions →
  outcome_ids (one_by_one jobs completions) = ids_of completions jobs
  ∧ outcome_ok d (one_by_one jobs completions)
  ∧ (outcome_work (one_by_one jobs completions) ≤ 1 + length jobs)%nat.
Proof.
  intros Hj Hc. destruct jobs as [|job jobs]; cbn; [|done].
  unfold ids_of. cbn. rewrite app_nil_r. split_and!; [done|done|lia].
Qed.

Lemma completions_ok d jobs r : Forall job_ok jobs →
  (r = Ok () → Forall (λ job, held d (job_block_id job) = Some (job_block_bytes job)) jobs) →
  Forall (completion_ok d) (completion_of r <$> jobs).
Proof.
  intros Hj Hd. apply Forall_fmap, Forall_forall. intros job Hin. rewrite Forall_forall in Hj.
  exists (job_block_bytes job). split; [by apply Hj|]. cbn. intros Hr. specialize (Hd Hr).
  rewrite Forall_forall in Hd. by apply Hd.
Qed.

Lemma completion_ids r (jobs : list ThreadedWriteJob) : done_block_id <$> (completion_of r <$> jobs) = job_block_id <$> jobs.
Proof. by rewrite <-list_fmap_compose. Qed.

(** A step keeps the ids of the batch, in order, writes nothing but bytes of
    the source, and brings the batch nearer to its end. *)
Lemma publish_step_spec p c (d : D) : pub_ok d p →
  let '(c', d', o) := publish_step p c d in
  frame d d' ∧ outcome_ids o = pub_ids p ∧ outcome_ok d' o ∧ (outcome_work o < publication_work p)%nat.
Proof.
  intros [Hj Hc]. destruct p as [jobs|jobs|[|job jobs] completions]; cbn [publish_step pub_jobs pub_done] in *.
  - destruct (_ && _).
    + destruct (one_by_one_spec d jobs [] Hj Hc) as (Hi&Ho&Hw). split_and!; [done..|]. cbn in *. lia.
    + split_and!; [done..|]. cbn. lia.
  - destruct (put_block_bytes_batch (entries_of jobs) d) as [d' r] eqn:Hp.
    destruct (batch_written _ _ _ _ Hp) as [Hw Hok]. pose proof (written_frame _ _ _ Hj Hw) as Hf.
    destruct r as [[]|e]; [|destruct (is_unsupported_batch_write_error e)].
    + split_and!; [done|apply completion_ids| |cbn; lia]. apply completions_ok; [done|]. intros _.
      apply Forall_forall. intros job Hin. rewrite Forall_forall in Hj. destruct (Hok eq_refl (job_block_id job) (job_block_bytes job)) as (x&Hx&->).
      { apply list_elem_of_fmap. by exists job. }
      apply list_elem_of_fmap in Hx as (job'&[= Hid ->]&Hin'). f_equal.
      pose proof (Hj _ Hin) as H1'. pose proof (Hj _ Hin') as H2'. unfold job_ok in *. congruence.
    + destruct (one_by_one_spec d' jobs [] Hj ltac:(by apply Forall_nil)) as (Hi&Ho&Hwk). split_and!; [done..|]. cbn in *. lia.
    + split_and!; [done|apply completion_ids| |cbn; lia]. by apply completions_ok.
  - split_and!; [done| |done|cbn; lia]. unfold pub_ids, ids_of. cbn. by rewrite app_nil_r.
  - destruct (put_block_bytes (job_block_id job) (job_block_bytes job) d) as [d' r] eqn:Hp.
    destruct (put_written _ _ _ _ _ Hp) as [Hw Hok]. apply Forall_cons in Hj as [Hjob Hj].
    assert (frame d d') as Hf by (apply (written_frame [job]); [by repeat constructor|done]).
    destruct (one_by_one_spec d' jobs (completions ++ [completion_of (map_err byte_error_text r) job]))
      as (Hi&Ho&Hwk); [done| |].
    { apply Forall_app. split; [eapply Forall_impl; [done|]; intros; by eapply completion_frame|].
      apply (completions_ok d' [job]); [by repeat constructor|]. intros Hr%map_err_ok. by repeat constructor; apply Hok. }
    split_and!; [done| |done|cbn in *; lia]. rewrite Hi. unfold pub_ids, ids_of. cbn.
    rewrite fmap_app. cbn. by rewrite <-(assoc (++)).
Qed.

(** ** The state of the writes *)

(** The blocks handed over and not settled; [cs] are completions taken from
    the executor and not yet recorded. *)
Definition writer_ids (cs : list DestinationWriteCompletion) w : list block_hash :=
  ids_of cs (buffered_write_jobs w) ++ concat (pub_ids <$> pending_writes w).

Definition write_failed (t : CopyFailureTracker) b : Prop :=
  ∃ tm, tm ∈ templates_of t b ∧ template_operation tm ≠ DecodeSourceBlock.
Definition settled w b : Prop := landed (destination w) b ∨ write_failed (tracker w) b.
Definition tracked_write cs w b : Prop := b ∈ writer_ids cs w ∨ settled w b.

(** The jobs in flight, and the counter: it never exceeds them, and unless the
    limit is the largest integer it is exact and stays below the limit. *)
Definition in_flight w : Z := len (concat (pub_ids <$> pending_writes w)).
Definition count_ok (limit n : Z) w : Prop :=
  0 ≤ in_flight_destination_write_count w ≤ in_flight w + n
  ∧ (limit < usize_max → in_flight_destination_write_count w = in_flight w + n ∧ in_flight w + n ≤ limit).

(** [P] is what the roots of a block satisfy, [store] the failures of the store. *)
Record writer_ok (P : block_hash → block_hash → Prop) (store : list CopyFailure)
    (cs : list DestinationWriteCompletion) w : Prop := {
  wo_buffered : Forall job_ok (buffered_write_jobs w);
  wo_pending : Forall (pub_ok (destination w)) (pending_writes w);
  wo_done : Forall (completion_ok (destination w)) cs;
  wo_rooted b : b ∈ writer_ids cs w → roots_of (tracker w) b ≠ ∅;
  wo_tracker : tracker_ok P store (tracker w);
  wo_progress : progress_ok (progress_failed <$> progress w) (failed_failure_ids (tracker w))
}.

(** What the writes do to the rest: a handed block stays handed or settled,
    and the tracker only learns failures. *)
Record moves cs w cs' w' : Prop := {
  mv_frame : frame (destination w) (destination w');
  mv_roots : block_roots (tracker w') = block_roots (tracker w);
  mv_children : discovered_children (tracker w') = discovered_children (tracker w);
  mv_templates b tm : tm ∈ templates_of (tracker w) b → tm ∈ templates_of (tracker w') b;
  mv_tracked b : tracked_write cs w b → tracked_write cs' w' b
}.

Lemma write_failed_mono t t' b :
  (∀ b tm, tm ∈ templates_of t b → tm ∈ templates_of t' b) → write_failed t b → write_failed t' b.
Proof. intros Ht (tm&Hin&Hop). exists tm. split; [by apply Ht|done]. Qed.

Lemma moves_refl cs w : moves cs w cs w.
Proof. by split. Qed.
Lemma moves_trans cs1 w1 cs2 w2 cs3 w3 : moves cs1 w1 cs2 w2 → moves cs2 w2 cs3 w3 → moves cs1 w1 cs3 w3.
Proof. intros [? ? ? ? ?] [? ? ? ? ?]. split; [by etrans|congruence|congruence|auto..]. Qed.

(** A change that keeps the tracker, writes bytes of the source, and keeps the
    handed ids. *)
Lemma moves_ids cs w cs' w' :
  frame (destination w) (destination w') → tracker w' = tracker w → writer_ids cs w ≡ₚ writer_ids cs' w' →
  moves cs w cs' w'.
Proof.
  intros Hf Ht Hi. split; rewrite ?Ht; try done. intros b [Hin|[Hl|Hw]].
  - left. by rewrite <-Hi.
  - right. left. by eapply landed_frame.
  - right. right. by rewrite Ht.
Qed.

(** ** Polling *)
Lemma set_polled_ok P store w d c pending cs : writer_ok P store [] w →
  frame (destination w) d → Forall (pub_ok d) pending → Forall (completion_ok d) cs →
  concat (pub_ids <$> pending_writes w) ≡ₚ concat (pub_ids <$> pending) ++ (done_block_id <$> cs) →
  let w' := set_polled d c pending w in
  writer_ok P store cs w' ∧ moves [] w cs w'
  ∧ in_flight w = in_flight w' + len cs.
Proof.
  intros [Hb Hpe Hcs Hr Ht Hpr] Hf Hp Hc Hperm w'.
  assert (writer_ids [] w ≡ₚ writer_ids cs w') as Hids.
  { unfold writer_ids, ids_of. cbn. rewrite Hperm. solve_Permutation. }
  split_and!.
  - split; try done. intros b. rewrite <-Hids. apply Hr.
  - by apply moves_ids.
  - unfold in_flight, len. cbn [pending_writes set_polled w']. rewrite Hperm, length_app, length_fmap. lia.
Qed.

Lemma poll_pending_spec P store w : writer_ok P store [] w → pending_writes w ≠ [] →
  let '(w', o) := poll_pending w in
  let cs := default [] o in
  writer_ok P store cs w' ∧ moves [] w cs w'
  ∧ buffered_write_jobs w' = buffered_write_jobs w
  ∧ in_flight_destination_write_count w' = in_flight_destination_write_count w
  ∧ in_flight w = in_flight w' + len cs
  ∧ match o with
    | Some _ => length (pending_writes w) = S (length (pending_writes w'))
    | None => (sum_list (publication_work <$> pending_writes w') < sum_list (publication_work <$> pending_writes w))%nat
        ∧ length (pending_writes w') = length (pending_writes w)
    end.
Proof.
  intros Hok Hne. unfold poll_pending.
  set (i := (schedule w 0 `mod` length (pending_writes w))%nat).
  destruct (pending_writes w !! i) as [p|] eqn:Hp; cycle 1.
  { apply lookup_ge_None in Hp. destruct (pending_writes w); [done|].
    pose proof (Nat.mod_upper_bound (schedule w 0%nat) (length (p :: l)) ltac:(done)). subst i. lia. }
  pose proof (wo_pending _ _ _ _ Hok) as Hpe.
  pose proof (publish_step_spec p (batch_write_capability w) (destination w) (Forall_lookup_1 _ _ _ _ Hpe Hp)) as Hstep.
  destruct (publish_step p _ _) as [[c d] o]. destruct Hstep as (Hf&Hi&Ho&Hwk).
  apply list_elem_of_split_length in Hp as (l1&l2&Hl&->).
  rewrite Hl in Hpe. apply Forall_app in Hpe as [H1p [_ H2p]%Forall_cons].
  assert (∀ l, Forall (pub_ok (destination w)) l → Forall (pub_ok d) l) as Hfr.
  { intros l Hpl. eapply Forall_impl; [exact Hpl|]. intros q. by apply pub_frame. }
  destruct o as [p'|cs]; cbn [outcome_ids outcome_ok outcome_work default] in *.
  - assert (<[length l1 := p']> (pending_writes w) = l1 ++ p' :: l2) as ->.
    { rewrite Hl. rewrite <-(Nat.add_0_r (length l1)), insert_app_r. done. }
    destruct (set_polled_ok P store w d c (l1 ++ p' :: l2) []) as (Hok'&Hm&Hlen); [done|done| | | |].
    + apply Forall_app. split; [auto|]. apply Forall_cons. auto.
    + by apply Forall_nil.
    + rewrite Hl, !fmap_app, !concat_app. cbn. rewrite Hi. by rewrite app_nil_r.
    + split_and!; try done; cbn [pending_writes set_polled].
      * rewrite Hl, !fmap_app. cbn. rewrite !sum_list_with_app. cbn. lia.
      * by rewrite Hl, !length_app.
  - assert (delete (length l1) (pending_writes w) = l1 ++ l2) as -> by by rewrite Hl, delete_middle.
    destruct (set_polled_ok P store w d c (l1 ++ l2) cs) as (Hok'&Hm&Hlen); [done|done| |done| |].
    + apply Forall_app. auto.
    + rewrite Hl, !fmap_app, !concat_app. cbn. rewrite Hi. solve_Permutation.
    + split_and!; try done. cbn [pending_writes set_polled]. rewrite Hl, !length_app. cbn. lia.
Qed.

(** [next] finds a completion whenever something is pending. *)
Lemma next_pending_spec P store w : writer_ok P store [] w →
  match next_pending w with
  | (w', None) => w' = w ∧ pending_writes w = []
  | (w', Some cs) =>
      writer_ok P store cs w' ∧ moves [] w cs w'
      ∧ buffered_write_jobs w' = buffered_write_jobs w
      ∧ in_flight_destination_write_count w' = in_flight_destination_write_count w
      ∧ in_flight w = in_flight w' + len cs
      ∧ length (pending_writes w) = S (length (pending_writes w'))
  end.
Proof.
  unfold next_pending. generalize (Nat.lt_succ_diag_r (sum_list (publication_work <$> pending_writes w))).
  generalize (S (sum_list (publication_work <$> pending_writes w))) as fuel. intros fuel.
  revert w. induction fuel as [|fuel IH]; intros w Hfuel Hok; [lia|]. cbn [next_loop].
  destruct (pending_writes w) as [|p0 ps0] eqn:Hpw; [done|].
  pose proof (poll_pending_spec P store w Hok ltac:(by rewrite Hpw)) as Hpoll.
  destruct (poll_pending w) as [w1 [cs|]]; cbn [default] in Hpoll; destruct Hpoll as (Hok1&Hm1&Hb1&Hc1&Hl1&Hn1).
  { rewrite <-Hpw. done. }
  destruct Hn1 as [Hw1 Hn1]. rewrite Hpw in Hw1. specialize (IH w1 ltac:(lia) Hok1).
  destruct (next_loop fuel w1) as [w2 [cs|]].
  - destruct IH as (Hok2&Hm2&Hb2&Hc2&Hl2&Hn2). rewrite <-Hpw. cbn in Hl1.
    split_and!; [done|by eapply moves_trans|congruence|congruence|change (len (@nil DestinationWriteCompletion)) with 0 in Hl1; lia|lia].
  - destruct IH as [_ Hnil]. rewrite Hnil, Hpw in Hn1. done.
Qed.

(** ** Recording *)

(** What concerns the tracker of a record of a failure of a rooted block. *)
Lemma on_tracker_record P store cs w b op m :
  writer_ok P store cs w → roots_of (tracker w) b ≠ ∅ →
  let w' := on_tracker (record b op m) w in
  writer_ok P store cs w' ∧ moves cs w cs w'
  ∧ {| template_operation := op; template_message := m |} ∈ templates_of (tracker w') b
  ∧ ∀ c, c ≠ b → templates_of (tracker w') c = templates_of (tracker w) c.
Proof.
  intros [Hb Hpe Hcs Hr Ht Hpr] Hroot w'.
  destruct (record_ok P store b op m (tracker w) (progress w) Hroot Ht) as [Ht' [Hch Hro Htm Htms]].
  assert (∀ c, roots_of (tracker w') c = roots_of (tracker w) c) as Hroots.
  { intros c. unfold roots_of. cbn [tracker on_tracker w']. by rewrite Hro. }
  assert (∀ c tm, tm ∈ templates_of (tracker w) c → tm ∈ templates_of (tracker w') c) as Hmono.
  { intros c tm Hin. cbn [tracker on_tracker w']. destruct (decide (c = b)) as [->|Hcb].
    - rewrite Htm. apply elem_of_app. by left.
    - by rewrite Htms. }
  split_and!.
  - split; try done.
    + intros c Hin. rewrite Hroots. by apply Hr.
    + by apply (record_progress b op m (tracker w, progress w)).
  - split; try done. intros c [Hin|[Hl|Hf]]; [by left|by right; left|].
    right. right. by eapply write_failed_mono.
  - cbn [tracker on_tracker w']. rewrite Htm. apply elem_of_app. right. by left.
  - exact Htms.
Qed.

Lemma on_metrics_ok P store cs w f :
  writer_ok P store cs w → (∀ m, progress_failed <$> (f m).2 = progress_failed <$> m.2) →
  writer_ok P store cs (on_metrics f w) ∧ moves cs w cs (on_metrics f w).
Proof.
  intros [Hb Hpe Hcs Hr Ht Hpr] Hf. split; [|by apply moves_ids]. split; try done.
  cbn [progress on_metrics tracker]. by rewrite Hf.
Qed.

Lemma record_completion_spec P store c cs w : writer_ok P store (c :: cs) w →
  let w' := record_completion w c in
  writer_ok P store cs w' ∧ moves (c :: cs) w cs w'
  ∧ buffered_write_jobs w' = buffered_write_jobs w ∧ pending_writes w' = pending_writes w
  ∧ in_flight_destination_write_count w' = in_flight_destination_write_count w.
Proof.
  intros Hok. pose proof (wo_done _ _ _ _ Hok) as [(x&Hx&Hd) Hcs]%Forall_cons.
  assert (roots_of (tracker w) (done_block_id c) ≠ ∅) as Hroot by (apply (wo_rooted _ _ _ _ Hok); by left).
  unfold record_completion.
  set (w1 := set_in_flight _ _ w).
  assert (writer_ok P store (c :: cs) w1) as Hok1 by (destruct Hok; by split).
  assert (∀ w2, writer_ok P store (c :: cs) w2 → moves (c :: cs) w (c :: cs) w2 → settled w2 (done_block_id c) →
    writer_ok P store cs w2 ∧ moves (c :: cs) w cs w2) as Hdrop.
  { intros w2 [Hb2 Hp2 Hc2 Hr2 Ht2 Hpr2] [Hf2 Hro2 Hch2 Htm2 Htr2] Hs. split; split; try done.
    - by apply Forall_cons in Hc2 as [_ ?].
    - intros b Hin. apply Hr2. unfold writer_ids, ids_of in *. by right.
    - intros b Hb'. destruct (Htr2 b Hb') as [Hin|?]; [|by right].
      unfold writer_ids, ids_of in Hin. cbn in Hin. apply elem_of_cons in Hin as [->|Hin]; [by right|by left]. }
  assert (moves (c :: cs) w (c :: cs) w1) as Hm1 by by apply moves_ids.
  destruct (done_result c) as [[]|m] eqn:Hres.
  - assert (settled w1 (done_block_id c)) as Hs.
    { left. eapply landed_source; [exact Hx|]. by apply Hd. }
    destruct (done_count_as_copied c).
    + destruct (on_metrics_ok P store (c :: cs) w1 note_copied_block Hok1) as [Hok2 Hm2].
      { by intros [m [p|]]. }
      destruct (Hdrop (on_metrics note_copied_block w1) Hok2) as [??]; [by eapply moves_trans|done|]. by split_and!.
    + destruct (Hdrop w1 Hok1 Hm1 Hs) as [??]. by split_and!.
  - destruct (on_tracker_record P store (c :: cs) w1 (done_block_id c) WriteDestinationBlock m Hok1 Hroot)
      as (Hok2&Hm2&Hin&_).
    destruct (Hdrop _ Hok2) as [??]; [by eapply moves_trans| |by split_and!].
    right. eexists. split; [exact Hin|done].
Qed.

Lemma record_completions_spec P store cs w : writer_ok P store cs w →
  let w' := foldl record_completion w cs in
  writer_ok P store [] w' ∧ moves cs w [] w'
  ∧ buffered_write_jobs w' = buffered_write_jobs w ∧ pending_writes w' = pending_writes w
  ∧ in_flight_destination_write_count w' = in_flight_destination_write_count w.
Proof.
  revert w. induction cs as [|c cs IH]; intros w Hok; cbn [foldl].
  { split_and!; (done || apply moves_refl). }
  destruct (record_completion_spec P store c cs w Hok) as (Hok2&Hm2&Hb2&Hp2&Hn2).
  destruct (IH _ Hok2) as (Hok3&Hm3&Hb3&Hp3&Hn3).
  split_and!; [done|by eapply moves_trans|congruence..].
Qed.

Lemma record_write_completions_spec P store limit cs w :
  writer_ok P store cs w → count_ok limit (len cs) w →
  let w' := record_write_completions cs w in
  writer_ok P store [] w' ∧ moves cs w [] w' ∧ count_ok limit 0 w'
  ∧ buffered_write_jobs w' = buffered_write_jobs w ∧ pending_writes w' = pending_writes w.
Proof.
  intros Hok [Hc Hx]. unfold record_write_completions. set (w1 := set_in_flight _ _ w).
  assert (writer_ok P store cs w1) as Hok1 by (destruct Hok; by split).
  assert (moves cs w cs w1) as Hm1 by by apply moves_ids.
  destruct (record_completions_spec P store cs w1 Hok1) as (Hok2&Hm2&Hb2&Hp2&Hn2).
  split_and!; [done|by eapply moves_trans| |done..].
  assert (in_flight (foldl record_completion w1 cs) = in_flight w) as Hfl by (unfold in_flight; by rewrite Hp2).
  pose proof (len_nonneg cs). assert (0 ≤ in_flight w) by apply len_nonneg.
  unfold count_ok. rewrite Hfl, Hn2. cbn [in_flight_destination_write_count set_in_flight w1]. unfold saturating_sub. lia.
Qed.

(** ** The loops end, and do not panic *)
Context (limit max_bytes : Z).

Lemma wait_loop_spec P store fuel n m w :
  writer_ok P store [] w → count_ok limit 0 w → n ≤ limit → (length (pending_writes w) < fuel)%nat →
  ∃ w', wait_loop limit max_bytes fuel n m w = (w', Ok ())
    ∧ writer_ok P store [] w' ∧ moves [] w [] w' ∧ count_ok limit 0 w'
    ∧ buffered_write_jobs w' = buffered_write_jobs w
    ∧ saturating_add (in_flight_destination_write_count w') n ≤ limit.
Proof.
  intros Hok Hc Hn Hfuel. revert w Hok Hc Hfuel.
  induction fuel as [|fuel IH]; intros w Hok Hc Hfuel; [lia|]. cbn [wait_loop].
  destruct (no_capacity limit max_bytes n m w) eqn:Hcap; cycle 1.
  { exists w. split_and!; try (done || apply moves_refl). unfold no_capacity in Hcap.
    apply orb_false_iff in Hcap as [Hcap%Z.ltb_ge _]. done. }
  pose proof (next_pending_spec P store w Hok) as Hnext. destruct (next_pending w) as [w1 [cs|]].
  - destruct Hnext as (Hok1&Hm1&Hb1&Hn1&Hl1&Hp1).
    destruct (record_write_completions_spec P store limit cs w1) as (Hok2&Hm2&Hc2&Hb2&Hp2); [done| |].
    { unfold count_ok in *. lia. }
    destruct (IH (record_write_completions cs w1)) as (w3&Hw3&Hok3&Hm3&Hc3&Hb3&Hs3); [done..|rewrite Hp2; lia|].
    exists w3. split_and!; [done|done|by do 2 (eapply moves_trans; [done|])|done|congruence|done].
  - destruct Hnext as [-> Hnil]. exfalso. unfold no_capacity, count_ok, in_flight in *. rewrite Hnil in Hc.
    change (len (concat (pub_ids <$> []))) with 0 in Hc. unfold saturating_add in Hcap. lia.
Qed.

Lemma flush_loop_spec P store fuel w :
  writer_ok P store [] w → count_ok limit 0 w → (length (pending_writes w) ≤ fuel)%nat →
  ∃ w', flush_loop fuel w = (w', Ok ())
    ∧ writer_ok P store [] w' ∧ moves [] w [] w' ∧ count_ok limit 0 w'
    ∧ buffered_write_jobs w' = buffered_write_jobs w ∧ pending_writes w' = [].
Proof.
  revert w. induction fuel as [|fuel IH]; intros w Hok Hc Hfuel; cbn [flush_loop];
    pose proof (next_pending_spec P store w Hok) as Hnext; destruct (next_pending w) as [w1 [cs|]].
  - destruct Hnext as (_&_&_&_&_&Hp1). lia.
  - destruct Hnext as [-> Hnil]. exists w. split_and!; (done || apply moves_refl).
  - destruct Hnext as (Hok1&Hm1&Hb1&Hn1&Hl1&Hp1).
    destruct (record_write_completions_spec P store limit cs w1) as (Hok2&Hm2&Hc2&Hb2&Hp2); [done| |].
    { unfold count_ok in *. lia. }
    destruct (IH (record_write_completions cs w1)) as (w3&Hw3&Hok3&Hm3&Hc3&Hb3&Hs3); [done..|rewrite Hp2; lia|].
    exists w3. split_and!; [done|done|by do 2 (eapply moves_trans; [done|])|done|congruence|done].
  - destruct Hnext as [-> Hnil]. exists w. split_and!; (done || apply moves_refl).
Qed.

(** The invariant between the operations of the walk. *)
Definition resting P store w : Prop :=
  writer_ok P store [] w ∧ count_ok limit 0 w ∧ len (buffered_write_jobs w) ≤ limit.

Lemma flush_pending_spec P store w : resting P store w →
  ∃ w', flush_pending_writes w = (w', Ok ()) ∧ resting P store w' ∧ moves [] w [] w'
    ∧ buffered_write_jobs w' = buffered_write_jobs w ∧ pending_writes w' = [].
Proof.
  intros (Hok&Hc&Hb). destruct (flush_loop_spec P store (length (pending_writes w)) w Hok Hc ltac:(lia))
    as (w'&Hw&Hok'&Hm&Hc'&Hb'&Hp). exists w'. split_and!; try done. split_and!; try done. by rewrite Hb'.
Qed.

(** A batch of jobs taken from the buffer ends up in flight. *)
Lemma publish_buffered_spec P store jobs m w :
  writer_ok P store [] w → count_ok limit 0 w → buffered_write_jobs w = [] →
  Forall job_ok jobs → (∀ job, job ∈ jobs → roots_of (tracker w) (job_block_id job) ≠ ∅) → len jobs ≤ limit →
  ∃ w', publish_buffered limit max_bytes jobs m w = (w', Ok ())
    ∧ writer_ok P store [] w' ∧ moves [] w [] w' ∧ count_ok limit 0 w' ∧ buffered_write_jobs w' = []
    ∧ ∀ job, job ∈ jobs → job_block_id job ∈ writer_ids [] w'.
Proof.
  intros Hok Hc Hb Hj Hroot Hl. unfold publish_buffered.
  set (w1 := begin_probe jobs w).
  assert (writer_ok P store [] w1 ∧ moves [] w [] w1 ∧ count_ok limit 0 w1 ∧ buffered_write_jobs w1 = []) as (Hok1&Hm1&Hc1&Hb1).
  { subst w1. unfold begin_probe. case_match; [|split_and!; (done || apply moves_refl)].
    split_and!; [by destruct Hok|by apply moves_ids|done..]. }
  destruct (wait_loop_spec P store (S (length (pending_writes w1))) (len jobs) m w1) as (w2&Hw2&Hok2&Hm2&Hc2&Hb2&Hs2);
    [done..|lia|].
  set (w3 := enqueue_destination_write_batch jobs w2).
  set (w4 := set_in_flight (saturating_add (in_flight_destination_write_count w3) (len jobs))
               (saturating_add (in_flight_destination_write_bytes w3) m) w3).
  exists w4. split; [|].
  { unfold mbind, stm_bind, modify at 1. fold w1. unfold wait_for_write_capacity. rewrite Hw2. done. }
  assert (writer_ids [] w4 ≡ₚ writer_ids [] w2 ++ (job_block_id <$> jobs)) as Hids.
  { unfold writer_ids, ids_of. cbn. rewrite fmap_app, concat_app. cbn. rewrite app_nil_r. solve_Permutation. }
  assert (in_flight w4 = in_flight w2 + len jobs) as Hfl.
  { unfold in_flight. cbn. rewrite fmap_app, concat_app, len_app. cbn. rewrite app_nil_r.
    unfold pub_ids, ids_of. cbn. unfold len. by rewrite length_fmap. }
  split_and!.
  - destruct Hok2 as [Hb2' Hp2 Hd2 Hr2 Ht2 Hpr2]. split; try done.
    + apply Forall_app. split; [done|]. apply Forall_cons. split; [|by apply Forall_nil]. split; [done|by apply Forall_nil].
    + intros b. rewrite Hids. intros [Hin|(job&->&Hin)%list_elem_of_fmap]%elem_of_app; [by apply Hr2|].
      cbn [tracker set_in_flight enqueue_destination_write_batch set_pending w4 w3].
      unfold roots_of. rewrite (mv_roots _ _ _ _ Hm2), (mv_roots _ _ _ _ Hm1). by apply Hroot.
  - eapply moves_trans; [done|]. eapply moves_trans; [done|]. split; try done.
    intros b [Hin|?]; [|by right]. left. rewrite Hids. apply elem_of_app. by left.
  - unfold count_ok in *. rewrite Hfl. cbn [in_flight_destination_write_count set_in_flight w4].
    cbn [in_flight_destination_write_count enqueue_destination_write_batch set_pending w3].
    unfold saturating_add in *. pose proof (len_nonneg jobs). assert (0 ≤ usize_max) by done. lia.
  - cbn. by rewrite Hb2.
  - intros job Hin. rewrite Hids. apply elem_of_app. right. apply list_elem_of_fmap. by exists job.
Qed.

Lemma flush_buffered_spec P store w : resting P store w →
  ∃ w', flush_buffered_destination_writes limit max_bytes w = (w', Ok ())
    ∧ resting P store w' ∧ moves [] w [] w' ∧ buffered_write_jobs w' = [].
Proof.
  intros (Hok&Hc&Hb). unfold flush_buffered_destination_writes. case_bool_decide as Hnil.
  { exists w. split_and!; (done || apply moves_refl). }
  set (w1 := set_buffered [] 0 w).
  assert (writer_ok P store [] w1) as Hok1.
  { destruct Hok as [Hb' Hp' Hd' Hr' Ht' Hpr']. split; try done.
    intros b Hin. apply Hr'. unfold writer_ids, ids_of in *. cbn in Hin. apply elem_of_app. by right. }
  destruct (publish_buffered_spec P store (buffered_write_jobs w) (buffered_write_bytes w) w1)
    as (w2&Hw2&Hok2&Hm2&Hc2&Hb2&Hin2); [done..| | | |].
  - apply (wo_buffered _ _ _ _ Hok).
  - intros job Hin. apply (wo_rooted _ _ _ _ Hok). unfold writer_ids, ids_of. cbn.
    apply elem_of_app. left. apply list_elem_of_fmap. by exists job.
  - done.
  - exists w2. split; [done|]. split; [|split; [|done]].
    + split; [done|]. split; [done|]. rewrite Hb2. change (len []) with 0. pose proof (len_nonneg (buffered_write_jobs w)). lia.
    + destruct Hm2 as [? ? ? ? Htr]. split; try done. intros b [Hin|Hs]; [|by apply Htr; right].
      unfold writer_ids, ids_of in Hin. cbn in Hin. apply elem_of_app in Hin as [(job&->&Hin)%list_elem_of_fmap|Hin].
      * left. by apply Hin2.
      * apply Htr. left. done.
Qed.

(** A job handed to [buffer_destination_write_job] is tracked from then on. *)
Lemma buffer_job_spec P store job w : 1 ≤ limit → resting P store w →
  job_ok job → roots_of (tracker w) (job_block_id job) ≠ ∅ →
  ∃ w', buffer_destination_write_job limit max_bytes job w = (w', Ok ())
    ∧ resting P store w' ∧ moves [] w [] w' ∧ tracked_write [] w' (job_block_id job).
Proof.
  intros Hlim Hrest Hj Hroot. unfold buffer_destination_write_job.
  set (target := destination_write_batch_len limit (batch_write_capability w)).
  assert (1 ≤ target ≤ limit) as Htarget by (subst target; unfold destination_write_batch_len; case_match; lia).
  assert (∃ w1, if_state (batch_is_full max_bytes target (len (job_block_bytes job)))
      (flush_buffered_destination_writes limit max_bytes) w = (w1, Ok ())
    ∧ resting P store w1 ∧ moves [] w [] w1 ∧ len (buffered_write_jobs w1) + 1 ≤ limit) as (w1&Hw1&Hrest1&Hm1&Hl1).
  { unfold if_state. destruct (batch_is_full _ _ _ w) eqn:Hfull.
    - destruct (flush_buffered_spec P store w Hrest) as (w1&Hw1&Hr1&Hm1&Hb1). exists w1.
      rewrite Hb1. split_and!; (done || lia).
    - exists w. split_and!; try (done || apply moves_refl). unfold batch_is_full in Hfull.
      apply andb_false_iff in Hfull as [Hne%negb_false_iff%bool_decide_eq_true|[Hlt%Z.leb_gt _]%orb_false_iff]; [|lia].
      rewrite Hne. change (len []) with 0. lia. }
  set (w2 := set_buffered (buffered_write_jobs w1 ++ [job])
    (saturating_add (buffered_write_bytes w1) (len (job_block_bytes job))) w1).
  assert (writer_ids [] w2 ≡ₚ job_block_id job :: writer_ids [] w1) as Hids.
  { unfold writer_ids, ids_of. cbn. rewrite fmap_app. cbn. solve_Permutation. }
  assert (resting P store w2 ∧ moves [] w1 [] w2) as [Hrest2 Hm2].
  { destruct Hrest1 as ([Hb' Hp' Hd' Hr' Ht' Hpr']&Hc1&_). split; [split_and!|].
    - split; try done.
      + apply Forall_app. split; [done|]. by apply Forall_singleton.
      + intros b. rewrite Hids. intros [->|Hin]%elem_of_cons; [|by apply Hr'].
        cbn [tracker set_buffered w2]. unfold roots_of. by rewrite (mv_roots _ _ _ _ Hm1).
    - done.
    - cbn. rewrite len_app. change (len [job]) with 1. lia.
    - split; try done. intros b [Hin|?]; [|by right]. left. rewrite Hids. by right. }
  assert (∃ w3, if_state (batch_is_ready max_bytes target) (flush_buffered_destination_writes limit max_bytes) w2 = (w3, Ok ())
    ∧ resting P store w3 ∧ moves [] w2 [] w3) as (w3&Hw3&Hrest3&Hm3).
  { unfold if_state. destruct (batch_is_ready _ _ w2).
    - destruct (flush_buffered_spec P store w2 Hrest2) as (w3&?&?&?&_). by exists w3.
    - exists w2. split_and!; (done || apply moves_refl). }
  exists w3. split_and!; [|done|do 2 (eapply moves_trans; [done|]); done|].
  - unfold mbind, stm_bind, gets, modify. cbv beta iota zeta. fold target. rewrite Hw1. exact Hw3.
  - apply (mv_tracked _ _ _ _ Hm3). left. rewrite Hids. by left.
Qed.
End publish.
