(* ===== verification/CopyWalkSpec.v ===== *)
(** * Theorems of the single-worker copy: the walk

    Whatever the schedule of the pending writes, the source's and the
    destination's failures, the limits and the point of an interrupt: the copy
    ends with a report; a copy that is not stopped has every block that a
    requested root reaches in the destination or in the report, for every root
    that reaches it; and the destination is never damaged. *)

From Stdlib Require Import ZArith Lia Ascii.
From stdpp Require Import base gmap sets strings sorting option list.
From S2P Require Import Prelude Hex Blocks BlockCopy BlockCopySpec CopyRun CopyRunSpec.
#[local] Open Scope Z_scope.

Section walk.
Context {D : Type} `{ByteStoreLaws D} `{Ciborium} `{DecodeBlock} `{HashDisplay} `{HashSetOrder}.
Context (source : block_hash → result string (option bytes)) (root_ids : list block_hash).

(** ** What there is to copy *)
Definition block_children (b : block_hash) : list block_hash :=
  match source b with
  | Ok (Some x) => match block_child_ids b x with Ok cs => cs | Err _ => [] end
  | _ => []
  end.
Inductive reach : block_hash → block_hash → Prop :=
| reach_root r : r ∈ root_ids → reach r r
| reach_child r b c : reach r b → c ∈ block_children b → reach r c.

Lemma reach_requested r b : reach r b → r ∈ root_ids.
Proof. by induction 1. Qed.

(** A block that cannot be read, or whose children cannot, is reported. *)
Definition read_reported (t : CopyFailureTracker) (b : block_hash) : Prop :=
  match source b with
  | Ok (Some x) =>
      match block_child_ids b x with
      | Ok _ => True
      | Err m => {| template_operation := DecodeSourceBlock; template_message := m |} ∈ templates_of t b
      end
  | _ => ∃ m, {| template_operation := ReadSourceBlock; template_message := m |} ∈ templates_of t b
  end.

(** ** The walk's own invariant: [items] are the pairs still to be visited. *)
Record walk_ok (items : list (block_hash * block_hash)) (visited : gset block_hash) (t : CopyFailureTracker) : Prop := {
  wk_items r b : (r, b) ∈ items → reach r b;
  wk_unseen b : b ∉ visited → discovered_children t !! b = None;
  wk_children b : b ∈ visited → children_of t b = block_children b;
  wk_closed b c : b ∈ visited → c ∈ block_children b → c ∈ visited ∨ c ∈ items.*2;
  wk_roots r : r ∈ root_ids → (r ∈ visited ∧ r ∈ roots_of t r) ∨ (r, r) ∈ items;
  wk_reported b : b ∈ visited → read_reported t b
}.

(** The tracker may learn roots and failures meanwhile. *)
Record learns (t t' : CopyFailureTracker) : Prop := {
  learns_children : discovered_children t' = discovered_children t;
  learns_roots b r : r ∈ roots_of t b → r ∈ roots_of t' b;
  learns_templates b tm : tm ∈ templates_of t b → tm ∈ templates_of t' b
}.

Lemma read_reported_mono t t' b : (∀ tm, tm ∈ templates_of t b → tm ∈ templates_of t' b) →
  read_reported t b → read_reported t' b.
Proof. intros Ht. unfold read_reported. repeat case_match; naive_solver. Qed.

Lemma walk_ok_learns items visited t t' : learns t t' → walk_ok items visited t → walk_ok items visited t'.
Proof.
  intros [Hc Hr Ht] [? ? ? ? Hroots Hrep]. unfold children_of in *. split; rewrite ?Hc; try done.
  - intros b Hb. unfold children_of. rewrite Hc. auto.
  - intros r Hin. destruct (Hroots r Hin) as [[? ?]|?]; [left; auto|by right].
  - intros b Hb. eapply read_reported_mono; [apply Ht|by apply Hrep].
Qed.

Lemma children_sound items visited t : walk_ok items visited t →
  ∀ b c x, c ∈ children_of t b → reach x b → reach x c.
Proof.
  intros Hw b c x Hc Hx. destruct (decide (b ∈ visited)) as [Hb|Hb].
  - rewrite (wk_children _ _ _ Hw b Hb) in Hc. by eapply reach_child.
  - unfold children_of in Hc. rewrite (wk_unseen _ _ _ Hw b Hb) in Hc. by apply not_elem_of_nil in Hc.
Qed.

(** An item that was visited before is done once its root is noted. *)
Lemma walk_ok_revisit r b items visited t :
  b ∈ visited → r ∈ roots_of t b → walk_ok ((r, b) :: items) visited t → walk_ok items visited t.
Proof.
  intros Hb Hr [Hi ? ? Hc Hro ?]. split; try done.
  - intros r' b' Hin. apply Hi. by right.
  - intros b' c Hb' Hc'. destruct (Hc b' c Hb' Hc') as [?|Hin]; [by left|]. cbn in Hin.
    apply elem_of_cons in Hin as [->|?]; [by left|by right].
  - intros r' Hr'. destruct (Hro r' Hr') as [?|Hin]; [by left|].
    apply elem_of_cons in Hin as [[= -> ->]|?]; [by left|by right].
Qed.

(** A new item: its children are remembered and queued. *)
Lemma walk_ok_visit r b items visited t t' :
  b ∉ visited → walk_ok ((r, b) :: items) visited t →
  (∀ c, c ≠ b → discovered_children t' !! c = discovered_children t !! c) →
  (∀ c x, x ∈ roots_of t c → x ∈ roots_of t' c) → (∀ c tm, tm ∈ templates_of t c → tm ∈ templates_of t' c) →
  children_of t' b = block_children b → r ∈ roots_of t' b → read_reported t' b →
  walk_ok (items ++ ((λ c, (r, c)) <$> block_children b)) ({[b]} ∪ visited) t'.
Proof.
  intros Hb [Hi Hu Hch Hc Hro Hrep] Hdis Hroots Htm Hcb Hrb Hrepb.
  assert (reach r b) as Hreach by (apply Hi; by left).
  split.
  - intros r' b' [Hin|(c&[= -> ->]&Hc')%list_elem_of_fmap]%elem_of_app; [apply Hi; by right|by eapply reach_child].
  - intros c Hn. rewrite Hdis by set_solver. apply Hu. set_solver.
  - intros c [->%elem_of_singleton|Hcv]%elem_of_union; [done|].
    unfold children_of in *. rewrite Hdis by (intros ->; done). auto.
  - intros b' c Hb' Hc'. rewrite fmap_app, elem_of_app, <-list_fmap_compose.
    apply elem_of_union in Hb' as [->%elem_of_singleton|Hb'].
    + right. right. apply list_elem_of_fmap. by exists c.
    + destruct (Hc b' c Hb' Hc') as [?|Hin]; [left; set_solver|]. cbn in Hin.
      apply elem_of_cons in Hin as [->|?]; [left; set_solver|by right; left].
  - intros r' Hr'. rewrite elem_of_app. destruct (Hro r' Hr') as [[Hv Hr2]|Hin]; [left; set_solver|].
    apply elem_of_cons in Hin as [[= -> ->]|?]; [left; set_solver|by right; left].
  - intros c [->%elem_of_singleton|Hcv]%elem_of_union; [done|]. eapply read_reported_mono; [by apply Htm|auto].
Qed.

(** ** The whole state *)
Context (mode : CopyDestinationMode) (config : CopyExecutionConfig D) (d0 : D).
(** Compaction leaves what the store holds alone. *)
Context (compaction : ∀ cp d, blind_write_checkpoint config = Some cp →
  ∀ h, held (action cp d).1 h = held d h).

Abbreviation limit := (effective_write_limit config).
Abbreviation max_bytes := (max_in_flight_destination_write_bytes config).
Abbreviation rests := (resting source limit reach).
Abbreviation tracks := (tracked_write (D := D) source mode []).

Record walk_inv (items : list (block_hash * block_hash)) (s : copy_state D) : Prop := {
  wi_rests : rests [] (writing s);
  wi_walk : walk_ok items (visited s) (tracker (writing s));
  wi_tracks b x : b ∈ visited s → source b = Ok (Some x) → tracks (writing s) b;
  wi_frame : frame source d0 (destination (writing s))
}.

(** The walk was left: by an interrupt, or by a failed compaction. *)
Definition store_failed (store : list CopyFailure) : Prop :=
  Forall (λ f, ∃ m r, r ∈ root_ids ∧ f = store_failure_of CompactDestinationStore m r) store.
Definition halted (s : copy_state D) : Prop :=
  ∃ store, rests store (writing s) ∧ frame source d0 (destination (writing s)) ∧ store_failed store
    ∧ (stop_requested s = true ∨ store ≠ []).

Lemma limit_pos : 1 ≤ limit.
Proof. unfold effective_write_limit. lia. Qed.

(** What the operations on the writer keep. *)
Record advances (w w' : writer D) : Prop := {
  adv_learns : learns (tracker w) (tracker w');
  adv_frame : frame source (destination w) (destination w');
  adv_tracks b : tracks w b → tracks w' b
}.
Lemma advances_refl w : advances w w.
Proof. by repeat split. Qed.
Lemma advances_trans w1 w2 w3 : advances w1 w2 → advances w2 w3 → advances w1 w3.
Proof. intros [[? ? ?] ? ?] [[? ? ?] ? ?]. split; [split; [congruence|auto..]|by etrans|auto]. Qed.
Lemma moves_advances w w' : moves source mode [] w [] w' → advances w w'.
Proof.
  intros [? Hr ? ? ?]. split; [split|..]; try done.
  intros b r. unfold roots_of. by rewrite Hr.
Qed.

(** A change of the tracker that associates roots. *)
Lemma rests_spread store w t' : rests store w → tracker_ok reach store t' →
  (∀ b, roots_of (tracker w) b ⊆ roots_of t' b) → failure_templates t' = failure_templates (tracker w) →
  failed_failure_ids t' = failed_failure_ids (tracker w) →
  let w' := on_tracker (λ s, (t', s.2)) w in
  rests store w' ∧ (∀ b, tracks w b → tracks w' b).
Proof.
  intros ([Hb Hp Hd Hr Ht Hpr]&Hc&Hl) Ht' Hro Htm Hid w'. split; [split_and!; [split|..]; try done|].
  - intros b Hin. specialize (Hr b Hin). specialize (Hro b). cbn [tracker on_tracker w' fst]. set_solver.
  - cbn [tracker progress on_tracker w' fst snd]. by rewrite Hid.
  - intros b [Hin|[Hla|(tm&Hin&Hop)]]; [by left|by right; left|]. right. right. exists tm. split; [|done].
    unfold templates_of in *. cbn [tracker on_tracker w' fst]. by rewrite Htm.
Qed.

Lemma rests_record store w b op m : rests store w → roots_of (tracker w) b ≠ ∅ →
  let w' := on_tracker (record b op m) w in
  rests store w' ∧ advances w w'
  ∧ {| template_operation := op; template_message := m |} ∈ templates_of (tracker w') b.
Proof.
  intros (Hok&Hc&Hl) Hro w'. destruct (on_tracker_record source mode reach store [] w b op m Hok Hro) as (Hok'&Hm&Hin&_).
  split_and!; [done..|by apply moves_advances|done].
Qed.

Lemma rests_metrics store w f : rests store w → (∀ m, progress_failed <$> (f m).2 = progress_failed <$> m.2) →
  rests store (on_metrics f w) ∧ advances w (on_metrics f w).
Proof.
  intros (Hok&Hc&Hl) Hf. destruct (on_metrics_ok source mode reach store [] w f Hok Hf) as [Hok' Hm].
  split; [by split_and!|by apply moves_advances].
Qed.

Lemma rests_destination store w d : rests store w → frame source (destination w) d →
  rests store (set_destination d w) ∧ advances w (set_destination d w).
Proof.
  intros ([Hb Hp Hd Hr Ht Hpr]&Hc&Hl) Hf. split; [split_and!; [split|..]; try done|].
  - eapply Forall_impl; [exact Hp|]. intros p. by apply pub_frame.
  - apply moves_advances, moves_ids; done.
Qed.

(** ** Steps of the body *)
Lemma read_source_spec store w b : rests store w → roots_of (tracker w) b ≠ ∅ →
  let '(w', o) := read_source_block source b w in
  rests store w' ∧ advances w w'
  ∧ match o with Some x => source b = Ok (Some x) | None =>
      (∀ x, source b ≠ Ok (Some x)) ∧ read_reported (tracker w') b end.
Proof.
  intros Hrest Hro. unfold read_source_block.
  destruct (rests_metrics store w (λ m, (m.1, progress_note_read_source_block <$> m.2)) Hrest) as [Hrest1 Hadv1].
  { by intros [m [p|]]. }
  set (w1 := on_metrics _ w) in *. unfold read_reported.
  destruct (source b) as [[x|]|e] eqn:Hs; [done|..].
  - destruct (rests_record store w1 b ReadSourceBlock "source block was not found" Hrest1 Hro) as (?&?&?).
    split_and!; [done|by eapply advances_trans|done|by eexists].
  - destruct (rests_record store w1 b ReadSourceBlock e Hrest1 Hro) as (?&?&?).
    split_and!; [done|by eapply advances_trans|done|by eexists].
Qed.

(** Decoding a block and remembering its children. *)
Lemma decode_remember_spec items visited w b x r :
  rests [] w → source b = Ok (Some x) → b ∉ visited → r ∈ roots_of (tracker w) b →
  walk_ok items visited (tracker w) →
  let '(t, cs) := decode_source_block b x (tracker w, progress w) in
  let w' := on_tracker (λ t, (remember_children b cs t.1, t.2)) (on_tracker (λ _, t) w) in
  cs = block_children b ∧ rests [] w' ∧ destination w' = destination w ∧ (∀ c, tracks w c → tracks w' c)
  ∧ discovered_children (tracker w') = <[b := cs]> (discovered_children (tracker w))
  ∧ (∀ c y, y ∈ roots_of (tracker w) c → y ∈ roots_of (tracker w') c)
  ∧ (∀ c tm, tm ∈ templates_of (tracker w) c → tm ∈ templates_of (tracker w') c)
  ∧ read_reported (tracker w') b.
Proof.
  intros Hrest Hs Hb Hr Hwalk.
  assert (∃ w1 cs, decode_source_block b x (tracker w, progress w) = ((tracker w1, progress w1), cs)
    ∧ w1 = on_tracker (λ _, (tracker w1, progress w1)) w
    ∧ cs = block_children b ∧ rests [] w1 ∧ advances w w1 ∧ read_reported (tracker w1) b
    ∧ destination w1 = destination w) as (w1&cs&Hdec&Hw1&Hcs&Hrest1&Hadv1&Hrep1&Hd1).
  { unfold decode_source_block, block_children, read_reported. rewrite Hs.
    destruct (block_child_ids b x) as [cs|m].
    - exists w, cs. split_and!; (done || apply advances_refl || by destruct w).
    - destruct (rests_record [] w b DecodeSourceBlock m Hrest) as (?&?&?); [set_solver|].
      exists (on_tracker (record b DecodeSourceBlock m) w), [].
      split_and!; (done || by destruct (record b DecodeSourceBlock m (tracker w, progress w))). }
  rewrite Hdec. rewrite <-Hw1. destruct Hadv1 as [[Hch1 Hro1 Htm1] Hfr1 Htr1].
  assert (discovered_children (tracker w1) !! b = None) as Hnone.
  { rewrite Hch1. by apply (wk_unseen _ _ _ Hwalk). }
  destruct Hrest1 as (Hok1&Hrest1).
  destruct (remember_children_ok reach [] b cs (tracker w1)) as [Ht2 Hsp].
  - intros b' c y. unfold children_of. rewrite Hch1. by apply (children_sound items visited (tracker w)).
  - intros y c Hc Hy. subst cs. by eapply reach_child.
  - done.
  - apply (wo_tracker _ _ _ _ _ Hok1).
  - destruct (rests_spread [] w1 (remember_children b cs (tracker w1))) as [Hrest2 Htr2].
    + by split.
    + done.
    + apply (spreads_roots _ _ Hsp).
    + apply (spreads_templates _ _ Hsp).
    + apply (spreads_ids _ _ Hsp).
    + split_and!; [done|done|done|auto| | | |].
      * cbn [tracker on_tracker fst snd]. rewrite (spreads_children _ _ Hsp). cbn. by rewrite Hch1.
      * intros c y Hy. cbn [tracker on_tracker fst snd]. apply (spreads_roots _ _ Hsp). by apply Hro1.
      * intros c tm Hin. cbn [tracker on_tracker fst snd]. unfold templates_of. rewrite (spreads_templates _ _ Hsp).
        by apply Htm1.
      * eapply read_reported_mono; [|exact Hrep1]. intros tm. unfold templates_of.
        cbn [tracker on_tracker fst snd]. by rewrite (spreads_templates _ _ Hsp).
Qed.

(** What an arm of the mode does: it goes on, with the block tracked, or it
    leaves the walk. *)
Definition arm_ok (b : block_hash) (s s' : copy_state D) (go_on : bool) : Prop :=
  queue s' = queue s ∧ visited s' = visited s
  ∧ if go_on then rests [] (writing s') ∧ advances (writing s) (writing s') ∧ tracks (writing s') b
    else halted s'.

Lemma held_frame d d' : (∀ h, held d' h = held d h) → frame source d d'.
Proof. intros Hh h. left. apply Hh. Qed.

Lemma buffer_spec job s : rests [] (writing s) → source (job_block_id job) = Ok (Some (job_block_bytes job)) →
  roots_of (tracker (writing s)) (job_block_id job) ≠ ∅ →
  ∃ s', writes (buffer_destination_write_job limit max_bytes job) s = (s', Ok ())
    ∧ arm_ok (job_block_id job) s s' true.
Proof.
  intros Hrest Hs Hro. destruct (buffer_job_spec source mode limit max_bytes reach [] job (writing s) limit_pos Hrest Hs Hro)
    as (w'&Hw&Hrest'&Hm&Ht).
  exists (on_writer (λ _, w') s). split; [unfold writes; by rewrite Hw|].
  split_and!; [done..|by apply moves_advances|done].
Qed.

Lemma read_before_write_spec b x s : mode = ReadBeforeWrite →
  rests [] (writing s) → source b = Ok (Some x) → roots_of (tracker (writing s)) b ≠ ∅ →
  ∃ s' go_on, read_before_write config b x s = (s', Ok go_on) ∧ arm_ok b s s' go_on.
Proof.
  intros Hmode Hrest Hs Hro. unfold read_before_write.
  destruct (get_block_bytes b (destination (writing s))) as [d res] eqn:Hget.
  destruct (get_held _ _ _ _ Hget) as [Hh Hres].
  destruct (rests_destination [] (writing s) d Hrest (held_frame _ _ Hh)) as [Hrest1 Hadv1].
  set (s1 := on_writer (set_destination d) s).
  destruct res as [[y|]|e].
  - destruct (rests_metrics [] (writing s1) note_skipped_already_present_block Hrest1) as [Hrest2 Hadv2].
    { by intros [m [p|]]. }
    eexists _, true. split; [reflexivity|]. split_and!; [done|done|done|by eapply advances_trans|].
    right. left. unfold landed. rewrite Hmode. exists y. cbn. rewrite Hh. symmetry. by apply Hres.
  - destruct (buffer_spec {| job_block_id := b; job_block_bytes := x; count_as_copied := true |} s1)
      as (s2&Hs2&Hq&Hv&Hrest2&Hadv2&Ht2); [done..|].
    exists s2, true. split; [|split_and!; [done..|by eapply advances_trans|done]].
    unfold mbind, stm_bind. by rewrite Hs2.
  - destruct (rests_record [] (writing s1) b CheckDestinationBlock (byte_error_text e) Hrest1 Hro) as (Hrest2&Hadv2&Hin).
    eexists _, true. split; [reflexivity|]. split_and!; [done|done|done|by eapply advances_trans|].
    right. right. eexists. split; [exact Hin|done].
Qed.

Lemma rests_discard store w : rests store w → rests store (discard_buffered_destination_writes w).
Proof.
  intros ([Hb Hp Hd Hr Ht Hpr]&Hc&Hl). split_and!; [split|..]; try done.
  - intros b Hin. apply Hr. unfold writer_ids, ids_of in *. cbn in Hin |- *. apply elem_of_app. by right.
  - change (len (buffered_write_jobs (discard_buffered_destination_writes w))) with 0.
    pose proof (len_nonneg (buffered_write_jobs w)). lia.
Qed.

Lemma rests_store_failure w op m : root_ids ≠ [] → rests [] w →
  rests (store_failure_of op m <$> root_ids) (on_tracker (record_store_failure root_ids op m) w).
Proof.
  intros Hids ([Hb Hp Hd Hr Ht Hpr]&Hc&Hl).
  destruct (record_store_failure_ok reach [] root_ids op m (tracker w) (progress w) Hids Ht) as (Ht'&_&Hro&_).
  split_and!; [split|..]; try done.
  by apply (note_failed_id_progress DESTINATION_STORE_FAILURE_ID (tracker w, progress w)).
Qed.

(** Polling the interrupt touches nothing else. *)
Lemma sync_spec (s s' : copy_state D) raised : sync_interrupt_requested s = (s', raised) →
  writing s' = writing s ∧ queue s' = queue s ∧ visited s' = visited s ∧ (raised = true → stop_requested s' = true).
Proof.
  unfold sync_interrupt_requested. destruct (stop_requested s) eqn:Hs; [intros [= <- <-]; done|].
  destruct (poll_interrupt (signal s)) as [n b]. intros [= <- <-]. done.
Qed.

Lemma halted_discard s : rests [] (writing s) → frame source d0 (destination (writing s)) → stop_requested s = true →
  halted (on_writer discard_buffered_destination_writes s).
Proof.
  intros Hr Hf Hs. exists []. split_and!; [by apply rests_discard|done|by apply Forall_nil|by left].
Qed.

Lemma checkpoint_spec b s : root_ids ≠ [] → rests [] (writing s) → frame source d0 (destination (writing s)) →
  tracks (writing s) b →
  ∃ s' go_on, checkpoint_unless_interrupted config root_ids s = (s', Ok go_on) ∧ arm_ok b s s' go_on.
Proof.
  intros Hids Hrest Hf Ht. unfold checkpoint_unless_interrupted.
  destruct (sync_interrupt_requested s) as [s1 raised] eqn:Hsync. apply sync_spec in Hsync as (Hw&Hq&Hv&Hstop).
  destruct raised.
  { eexists _, false. split; [reflexivity|]. split_and!; [done..|].
    apply halted_discard; [by rewrite Hw|by rewrite Hw|by apply Hstop]. }
  unfold run_checkpoint. destruct (blind_write_checkpoint config) as [cp|] eqn:Hcp; cycle 1.
  { exists s1, true. split; [done|]. unfold arm_ok. rewrite Hw. split_and!; (done || apply advances_refl). }
  pose proof (compaction cp (destination (writing s1)) eq_refl) as Hheld.
  destruct (action cp (destination (writing s1))) as [d res]. cbn [fst] in Hheld. rewrite Hw in Hheld.
  destruct (rests_destination [] (writing s) d Hrest (held_frame _ _ Hheld)) as [Hrest1 Hadv1].
  destruct res as [[]|e].
  - eexists _, true. split; [reflexivity|]. unfold arm_ok. cbn [writing on_writer queue visited]. rewrite Hw.
    split_and!; [done..|]. by apply (adv_tracks _ _ Hadv1).
  - eexists _, false. split; [reflexivity|]. unfold arm_ok. cbn [writing on_writer queue visited].
    split_and!; [done..|]. eexists. split_and!.
    + cbn [writing on_writer]. rewrite Hw. by apply (rests_store_failure (set_destination d (writing s))).
    + cbn [writing on_writer]. rewrite Hw. cbn. etrans; [done|]. by apply held_frame.
    + apply Forall_forall. intros f (r&->&Hin)%list_elem_of_fmap. by eexists _, r.
    + right. destruct root_ids; [done|discriminate].
Qed.

Lemma writes_run {A} (m : stm (writer D) copy_stop A) s w r : m (writing s) = (w, r) →
  writes m s = (on_writer (λ _, w) s, r).
Proof. intros Hm. unfold writes. by rewrite Hm. Qed.

(** The flush before a checkpoint. *)
Lemma flush_spec store s : rests store (writing s) →
  ∃ s', (writes (flush_buffered_destination_writes limit max_bytes) ;; writes flush_pending_writes) s = (s', Ok ())
    ∧ queue s' = queue s ∧ visited s' = visited s ∧ stop_requested s' = stop_requested s
    ∧ rests store (writing s') ∧ advances (writing s) (writing s')
    ∧ buffered_write_jobs (writing s') = [] ∧ pending_writes (writing s') = [].
Proof.
  intros Hrest. destruct (flush_buffered_spec source mode limit max_bytes reach store (writing s) Hrest)
    as (w1&Hw1&Hr1&Hm1&Hb1).
  destruct (flush_pending_spec source mode limit reach store w1 Hr1) as (w2&Hw2&Hr2&Hm2&Hb2&Hp2).
  exists (on_writer (λ _, w2) (on_writer (λ _, w1) s)). split_and!; try done.
  - unfold mbind, stm_bind. rewrite (writes_run _ _ _ _ Hw1). by rewrite (writes_run _ (on_writer _ s) _ _ Hw2).
  - cbn. eapply advances_trans; by apply moves_advances.
  - cbn. by rewrite Hb2.
Qed.

(** The prefix of an arm that goes on. *)
Lemma arm_ok_after b s s1 s2 go_on :
  queue s1 = queue s → visited s1 = visited s → advances (writing s) (writing s1) →
  arm_ok b s1 s2 go_on → arm_ok b s s2 go_on.
Proof.
  intros Hq Hv Ha (Hq2&Hv2&Hgo). split_and!; [congruence..|]. destruct go_on; [|done].
  destruct Hgo as (?&?&?). split_and!; [done|by eapply advances_trans|done].
Qed.

Lemma blind_write_spec b x s : root_ids ≠ [] → rests [] (writing s) → frame source d0 (destination (writing s)) →
  source b = Ok (Some x) → roots_of (tracker (writing s)) b ≠ ∅ →
  ∃ s' go_on, blind_write mode config root_ids b x s = (s', Ok go_on) ∧ arm_ok b s s' go_on.
Proof.
  intros Hids Hrest Hf Hs Hro. unfold blind_write.
  set (s1 := on_writer (on_metrics note_attempted_write_block) s).
  destruct (rests_metrics [] (writing s) note_attempted_write_block Hrest) as [Hrest1 Hadv1].
  { by intros [m [p|]]. }
  destruct (buffer_spec {| job_block_id := b; job_block_bytes := x; count_as_copied := false |} s1)
    as (s2&Hs2&Hq2&Hv2&Hrest2&Hadv2&Ht2); [done..|].
  assert (advances (writing s) (writing s2)) as Hadv by by eapply advances_trans.
  unfold mbind, stm_bind at 1, modify. fold s1. unfold stm_bind at 1. rewrite Hs2. unfold stm_bind at 1, gets.
  destruct (should_run_blind_write_checkpoint _ _ _).
  - destruct (flush_spec [] s2 Hrest2) as (s3&Hs3&Hq3&Hv3&_&Hrest3&Hadv3&_).
    destruct (checkpoint_spec b s3 Hids Hrest3) as (s4&go_on&Hs4&Harm).
    { etrans; [|apply (adv_frame _ _ Hadv3)]. etrans; [exact Hf|apply (adv_frame _ _ Hadv)]. }
    { by apply (adv_tracks _ _ Hadv3). }
    exists s4, go_on. split.
    + unfold mbind, stm_bind in Hs3 |- *. destruct (writes (flush_buffered_destination_writes _ _) s2) as [s' [[]|]]; [|done].
      rewrite Hs3. exact Hs4.
    + apply (arm_ok_after b s s3); [by rewrite Hq3, Hq2|by rewrite Hv3, Hv2|by eapply advances_trans|done].
  - exists s2, true. split; [done|]. by split_and!.
Qed.

Lemma write_block_spec b x s : root_ids ≠ [] → rests [] (writing s) → frame source d0 (destination (writing s)) →
  source b = Ok (Some x) → roots_of (tracker (writing s)) b ≠ ∅ →
  ∃ s' go_on, write_block mode config root_ids b x s = (s', Ok go_on) ∧ arm_ok b s s' go_on.
Proof.
  intros Hids Hrest Hf Hs Hro. unfold write_block. destruct mode eqn:Hm; [by apply read_before_write_spec|].
  rewrite <-Hm. by apply blind_write_spec.
Qed.

(** ** One turn of the loop *)

(** The children that are still to be queued. *)
Definition unqueued (visited : gset block_hash) (l : list block_hash) : nat :=
  sum_list ((λ b, if decide (b ∈ visited) then O else length (block_children b)) <$> l).

Lemma unqueued_visit_other visited b l : b ∉ l → unqueued ({[b]} ∪ visited) l = unqueued visited l.
Proof.
  intros Hb. unfold unqueued. f_equal. apply list_fmap_ext. intros i c Hc%list_elem_of_lookup_2.
  repeat case_decide; try done; set_solver.
Qed.

(** The blocks that have children, without repetition. *)
Context (universe : list block_hash) (universe_nodup : NoDup universe)
  (universe_complete : ∀ b, block_children b ≠ [] → b ∈ universe).
Lemma unqueued_visit visited b : b ∉ visited →
  (unqueued ({[b]} ∪ visited) universe + length (block_children b) = unqueued visited universe)%nat.
Proof.
  intros Hb. destruct (decide (b ∈ universe)) as [Hin|Hn]; cycle 1.
  { rewrite unqueued_visit_other by done. destruct (block_children b) as [|c cs] eqn:Hc; [cbn; lia|].
    exfalso. apply Hn, universe_complete. by rewrite Hc. }
  apply list_elem_of_split in Hin as (l1&l2&Hl). pose proof universe_nodup as Hnd. rewrite Hl in Hnd |- *.
  apply NoDup_app in Hnd as (_&Hd1&[Hd2 _]%NoDup_cons).
  assert (b ∉ l1) as Hd1' by (intros Hin; apply (Hd1 b Hin); by left).
  unfold unqueued. rewrite !fmap_app, !sum_list_with_app. cbn.
  fold (unqueued ({[b]} ∪ visited) l1) (unqueued visited l1) (unqueued ({[b]} ∪ visited) l2) (unqueued visited l2).
  rewrite !unqueued_visit_other by done. rewrite decide_True, decide_False by set_solver. lia.
Qed.

(** The result of a turn. *)
Definition turn_ok (items : list (block_hash * block_hash)) (visited0 : gset block_hash)
    (s' : copy_state D) (go_on : bool) : Prop :=
  if go_on then walk_inv (queue s') s'
    ∧ (length (queue s') + unqueued (visited s') universe ≤ length items + unqueued visited0 universe)%nat
  else halted s'.

Lemma copy_block_spec r b x items s :
  walk_ok ((r, b) :: items) (visited s) (tracker (writing s)) → b ∉ visited s → rests [] (writing s) →
  (∀ c y, c ∈ visited s → source c = Ok (Some y) → tracks (writing s) c) →
  frame source d0 (destination (writing s)) → source b = Ok (Some x) → r ∈ roots_of (tracker (writing s)) b →
  queue s = items →
  ∃ s' go_on, copy_block mode config root_ids r b x (set_visited ({[b]} ∪ visited s) s) = (s', Ok go_on)
    ∧ turn_ok items (visited s) s' go_on.
Proof.
  intros Hwalk Hb Hrest Htr Hf Hs Hr Hq. unfold copy_block. cbn [writing set_visited].
  pose proof (decode_remember_spec ((r, b) :: items) (visited s) (writing s) b x r Hrest Hs Hb Hr Hwalk) as Hdec.
  destruct (decode_source_block b x (tracker (writing s), progress (writing s))) as [t cs].
  destruct Hdec as (->&Hrest1&Hd1&Htr1&Hdis1&Hro1&Htm1&Hrep1).
  set (w1 := on_tracker (λ t, (remember_children b (block_children b) t.1, t.2)) (on_tracker (λ _, t) (writing s))) in *.
  set (s1 := on_writer _ (on_writer _ _)). change (writing s1) with w1 in *.
  assert (root_ids ≠ []) as Hids.
  { pose proof (reach_requested r b (wk_items _ _ _ Hwalk r b ltac:(by left))). by destruct root_ids; [apply not_elem_of_nil in H5|]. }
  destruct (write_block_spec b x s1) as (s2&go_on&Hw2&Hq2&Hv2&Hgo); [done|done|by change (writing s1) with w1; rewrite Hd1|done| |].
  { change (writing s1) with w1. intros Hnil. pose proof (Hro1 b r Hr) as Hin. rewrite Hnil in Hin. set_solver. }
  destruct go_on; cycle 1.
  { exists s2, false. split; [|done]. unfold mbind, stm_bind. by rewrite Hw2. }
  destruct Hgo as (Hrest2&Hadv2&Ht2). change (writing s1) with w1 in *.
  eexists _, true. split; [unfold mbind, stm_bind; rewrite Hw2; reflexivity|].
  set (s3 := set_queue _ s2). assert (writing s3 = writing s2) as Hws3 by done.
  assert (visited s3 = {[b]} ∪ visited s) as Hv3 by (cbn; by rewrite Hv2).
  assert (queue s3 = items ++ ((λ c, (r, c)) <$> block_children b)) as Hq3.
  { change (queue s3) with (enqueue_children r (block_children b) (queue s2)). rewrite Hq2. cbn. by rewrite Hq. }
  clearbody s3. split; [split|]; rewrite ?Hws3, ?Hv3, ?Hq3.
  - done.
  - apply (walk_ok_learns _ _ (tracker w1)); [apply (adv_learns _ _ Hadv2)|].
    apply (walk_ok_visit r b items (visited s) (tracker (writing s))); try done.
    + intros c Hc. rewrite Hdis1. by apply lookup_insert_ne.
    + unfold children_of. rewrite Hdis1. by rewrite lookup_insert_eq.
    + by apply Hro1.
  - intros c y [->%elem_of_singleton|Hc]%elem_of_union Hy; [done|].
    apply (adv_tracks _ _ Hadv2). apply Htr1. by eapply Htr.
  - etrans; [exact Hf|]. rewrite <-Hd1. apply (adv_frame _ _ Hadv2).
  - rewrite length_app, length_fmap. pose proof (unqueued_visit (visited s) b Hb). lia.
Qed.

Lemma copy_step_spec r b items s : walk_inv ((r, b) :: items) s → queue s = items →
  ∃ s' go_on, copy_step source mode config root_ids r b s = (s', Ok go_on) ∧ turn_ok items (visited s) s' go_on.
Proof.
  intros [Hrest Hwalk Htr Hf] Hq. unfold copy_step.
  destruct (sync_interrupt_requested s) as [s1 raised] eqn:Hsync. apply sync_spec in Hsync as (Hw1&Hq1&Hv1&Hstop).
  destruct raised.
  { eexists _, false. split; [reflexivity|]. apply halted_discard; rewrite ?Hw1; auto. }
  assert (reach r b) as Hrb by (apply (wk_items _ _ _ Hwalk); by left).
  destruct (note_block_root_ok reach [] r b (tracker (writing s))) as (Ht2&Hsp&Hin); [|done| |].
  { by eapply children_sound. }
  { apply (wo_tracker _ _ _ _ _ (proj1 Hrest)). }
  destruct (rests_spread [] (writing s) (note_block_root r b (tracker (writing s))) Hrest Ht2) as [Hrest2 Htr2].
  { apply (spreads_roots _ _ Hsp). } { apply (spreads_templates _ _ Hsp). } { apply (spreads_ids _ _ Hsp). }
  set (s2 := on_writer (on_tracker (λ t, (note_block_root r b t.1, t.2))) s1).
  assert (writing s2 = on_tracker (λ t, (note_block_root r b (tracker (writing s)), t.2)) (writing s)) as Hw2 by (cbn; by rewrite Hw1).
  assert (visited s2 = visited s) as Hv2 by done. assert (queue s2 = items) as Hq2 by (cbn; congruence).
  assert (walk_ok ((r, b) :: items) (visited s) (tracker (writing s2))) as Hwalk2.
  { rewrite Hw2. apply (walk_ok_learns _ _ (tracker (writing s))); [|done]. split.
    - apply (spreads_children _ _ Hsp).
    - intros c y. apply (spreads_roots _ _ Hsp).
    - intros c tm. unfold templates_of. cbn [tracker on_tracker fst]. by rewrite (spreads_templates _ _ Hsp). }
  assert (r ∈ roots_of (tracker (writing s2)) b) as Hin2 by (rewrite Hw2; exact Hin).
  assert (frame source d0 (destination (writing s2))) as Hf2 by (rewrite Hw2; exact Hf).
  assert (∀ c y, c ∈ visited s → source c = Ok (Some y) → tracks (writing s2) c) as Htr2'.
  { intros c y Hc Hy. rewrite Hw2. apply Htr2. by eapply Htr. }
  rewrite <-Hw2 in Hrest2. clearbody s2. rewrite <-Hv2 in Hwalk2, Htr2' |- *. clear Hw2 Hw1 Hv1 Hq1 Hstop Htr2 Htr Hwalk Hf Hrest.
  case_decide as Hb.
  { exists s2, true. split; [done|]. split; [|rewrite Hq2; lia]. rewrite Hq2. split; try done. by eapply walk_ok_revisit. }
  pose proof (read_source_spec [] (writing s2) b Hrest2 ltac:(set_solver)) as Hread. cbn [writing set_visited].
  destruct (read_source_block source b (writing s2)) as [w3 [x|]]; destruct Hread as (Hrest3&Hadv3&Hout).
  - destruct (copy_block_spec r b x items (on_writer (λ _, w3) s2)) as (s4&go_on&Hs4&Hturn); try done.
    + cbn. eapply walk_ok_learns; [apply (adv_learns _ _ Hadv3)|done].
    + intros c y Hc Hy. apply (adv_tracks _ _ Hadv3). by eapply Htr2'.
    + etrans; [exact Hf2|apply (adv_frame _ _ Hadv3)].
    + by apply (learns_roots _ _ (adv_learns _ _ Hadv3)).
    + by exists s4, go_on.
  - destruct Hout as [Hno Hrep]. assert (block_children b = []) as Hnil.
    { unfold block_children. destruct (source b) as [[x|]|]; [by destruct (Hno x)|done..]. }
    eexists _, true. split; [reflexivity|]. unfold turn_ok. cbn [queue visited on_writer set_visited]. rewrite Hq2.
    split; [split|]; cbn [writing queue visited on_writer set_visited].
    + done.
    + pose proof (walk_ok_visit r b items (visited s2) (tracker (writing s2)) (tracker w3) Hb Hwalk2) as Hvisit.
      rewrite Hnil in Hvisit. cbn in Hvisit. rewrite app_nil_r in Hvisit. destruct (adv_learns _ _ Hadv3) as [Hc3 Hr3 Ht3].
      apply Hvisit; try done; [by intros; rewrite Hc3| |by apply Hr3].
      unfold children_of. rewrite Hc3. by rewrite (wk_unseen _ _ _ Hwalk2 b Hb).
    + intros c y [->%elem_of_singleton|Hc]%elem_of_union Hy; [by destruct (Hno y)|].
      apply (adv_tracks _ _ Hadv3). by eapply Htr2'.
    + etrans; [exact Hf2|apply (adv_frame _ _ Hadv3)].
    + pose proof (unqueued_visit (visited s2) b Hb). rewrite Hnil in H5. cbn in H5. lia.
Qed.

Lemma copy_loop_spec fuel s : walk_inv (queue s) s →
  (length (queue s) + unqueued (visited s) universe ≤ fuel)%nat →
  ∃ s', copy_loop source mode config root_ids fuel s = (s', Ok ())
    ∧ (walk_inv [] s' ∨ halted s').
Proof.
  revert s. induction fuel as [|fuel IH]; intros s Hinv Hfuel; destruct (queue s) as [|[r b] items] eqn:Hq.
  - exists s. cbn [copy_loop]. rewrite Hq. auto.
  - cbn in Hfuel. lia.
  - exists s. cbn [copy_loop]. rewrite Hq. auto.
  - cbn [copy_loop]. rewrite Hq.
    assert (walk_inv ((r, b) :: items) (set_queue items s)) as Hinv' by (destruct Hinv; by split).
    destruct (copy_step_spec r b items (set_queue items s) Hinv' eq_refl) as (s1&go_on&Hs1&Hturn).
    unfold mbind at 1, stm_bind at 1. rewrite Hs1. destruct go_on.
    + destruct Hturn as [Hinv1 Hlen]. cbn [visited set_queue] in Hlen. apply IH; [done|]. cbn in Hfuel. lia.
    + exists s1. auto.
Qed.

(** ** The whole copy *)
Context (fresh_progress : ∀ p, config_progress config = Some p → progress_failed p = 0).

Lemma initial_inv sched n : let s := initial_state config root_ids d0 sched n in walk_inv (queue s) s.
Proof.
  unfold initial_state. destruct (poll_interrupt n) as [n' raised]. cbn [queue].
  split; cbn [writing tracker visited destination]; try done.
  - split_and!; [split|..]; cbn; try done; try (by apply Forall_nil); try (by apply new_tracker_ok).
    + intros b Hin. by apply not_elem_of_nil in Hin.
    + intros k. destruct (config_progress config) as [p|]; [|done]. cbn. intros [= <-]. by rewrite (fresh_progress p).
    + pose proof limit_pos. unfold count_ok, in_flight, len. cbn. lia.
    + pose proof limit_pos. unfold len. cbn. lia.
  - split; try done.
    + intros r b (x&[= -> ->]&Hx)%list_elem_of_fmap. by apply reach_root.
    + intros r Hr. right. apply list_elem_of_fmap. by exists r.
Qed.

(** At the end of an unstopped walk every reached block is visited, and known
    to be reached by its roots. *)
Lemma walk_done visited t r b : walk_ok [] visited t →
  (∀ b c x, c ∈ children_of t b → x ∈ roots_of t b → x ∈ roots_of t c) →
  reach r b → b ∈ visited ∧ r ∈ roots_of t b.
Proof.
  intros Hw Hcl. induction 1 as [r Hr|r b c _ [Hv Hr] Hc].
  - destruct (wk_roots _ _ _ Hw r Hr) as [?|Hin]; [done|by apply not_elem_of_nil in Hin].
  - split; [|apply (Hcl b); [by rewrite (wk_children _ _ _ Hw b Hv)|done]].
    destruct (wk_closed _ _ _ Hw b c Hv Hc) as [?|Hin]; [done|by apply not_elem_of_nil in Hin].
Qed.

(** What the report owes for a block and a root that reaches it. *)
Definition accounted (d : D) (failures : list CopyFailure) (r b : block_hash) : Prop :=
  match source b with
  | Ok (Some x) =>
      (held d b = Some x
       ∨ mode = ReadBeforeWrite ∧ is_Some (held d0 b) ∧ held d b = held d0 b
       ∨ ∃ tm, template_operation tm ≠ DecodeSourceBlock ∧ failure_of r b tm ∈ failures)
      ∧ ∀ m, block_child_ids b x = Err m →
          failure_of r b {| template_operation := DecodeSourceBlock; template_message := m |} ∈ failures
  | _ => ∃ m, failure_of r b {| template_operation := ReadSourceBlock; template_message := m |} ∈ failures
  end.

Lemma settled_accounted store d t visited r b : tracker_ok reach store t → walk_ok [] visited t → frame source d0 d →
  (∀ b x, b ∈ visited → source b = Ok (Some x) → landed source mode d b ∨ write_failed t b) →
  reach r b → accounted d (failures t) r b.
Proof.
  intros Ht Hwalk Hf Htr Hr.
  destruct (walk_done visited t r b Hwalk) as [Hv Hro]; [|done|].
  { intros b' c x Hc Hx. by destruct (inv_closed _ _ _ _ Ht b' c x Hc Hx). }
  assert (∀ tm, tm ∈ templates_of t b → failure_of r b tm ∈ failures t) as Hfail.
  { intros tm Htm. rewrite (inv_failures _ _ _ _ Ht). apply elem_of_app. left. apply elem_of_rendered. by exists r, b, tm. }
  pose proof (wk_reported _ _ _ Hwalk b Hv) as Hrep. unfold read_reported in Hrep. unfold accounted.
  destruct (source b) as [[x|]|e] eqn:Hs; [|destruct Hrep as [m Hm]; exists m; by apply Hfail..].
  split; [|intros m Hm; rewrite Hm in Hrep; by apply Hfail].
  destruct (Htr b x Hv Hs) as [Hl|(tm&Htm&Hop)].
  - unfold landed in Hl. destruct mode.
    + destruct (Hf b) as [Heq|(y&Hy&->)]; [right; left|left; congruence]. split_and!; [done|by rewrite <-Heq|done].
    + destruct Hl as (y&Hy&->). left. congruence.
  - right. right. exists tm. auto.
Qed.

Lemma walk_accounted s r b : walk_inv [] s → buffered_write_jobs (writing s) = [] → pending_writes (writing s) = [] →
  reach r b → accounted (destination (writing s)) (failures (tracker (writing s))) r b.
Proof.
  intros [(Hok&_) Hwalk Htr Hf] Hb0 Hp0 Hr.
  eapply (settled_accounted [] _ _ (visited s)); try done; [by apply (wo_tracker _ _ _ _ _ Hok)|].
  intros c x Hc Hx. destruct (Htr c x Hc Hx) as [Hin|?]; [|done].
  unfold writer_ids, ids_of in Hin. rewrite Hb0, Hp0 in Hin. by apply not_elem_of_nil in Hin.
Qed.

(** What a report may contain. *)
Definition failure_sound (f : CopyFailure) : Prop :=
  (∃ r b tm, reach r b ∧ f = failure_of r b tm)
  ∨ ∃ m r, r ∈ root_ids ∧ f = store_failure_of CompactDestinationStore m r.

Lemma rests_sound store w : rests store w → store_failed store → Forall failure_sound (failures (tracker w)).
Proof.
  intros (Hok&_) Hst. pose proof (wo_tracker _ _ _ _ _ Hok) as Ht. rewrite (inv_failures _ _ _ _ Ht).
  apply Forall_app. split.
  - apply Forall_forall. intros f (r&b&tm&Hr&_&->)%elem_of_rendered. left. exists r, b, tm. split; [|done].
    by apply (inv_sound _ _ _ _ Ht).
  - eapply Forall_impl; [exact Hst|]. intros f Hf. by right.
Qed.

Lemma copy_loop_rests fuel s : walk_inv (queue s) s →
  ∃ store, rests store (writing (copy_loop source mode config root_ids fuel s).1).
Proof.
  revert s. induction fuel as [|fuel IH]; intros s Hinv; cbn [copy_loop];
    destruct (queue s) as [|[r b] items] eqn:Hq; try (exists []; apply (wi_rests _ _ Hinv)).
  assert (walk_inv ((r, b) :: items) (set_queue items s)) as Hinv' by (destruct Hinv; by split).
  destruct (copy_step_spec r b items (set_queue items s) Hinv' eq_refl) as (s1&go_on&Hs1&Hturn).
  unfold mbind at 1, stm_bind at 1. rewrite Hs1. destruct go_on.
  - apply IH. apply Hturn.
  - destruct Hturn as (store&Hr&_). by exists store.
Qed.

(** After any number of turns of the loop, the jobs in flight are as many as
    the counter says and at most the effective limit, and so are the jobs in the
    buffer. *)
Theorem copy_bounded turns sched n : limit < usize_max →
  let w := writing (copy_loop source mode config root_ids turns (initial_state config root_ids d0 sched n)).1 in
  in_flight w = in_flight_destination_write_count w ∧ in_flight w ≤ limit ∧ len (buffered_write_jobs w) ≤ limit.
Proof.
  intros Hlim w. destruct (copy_loop_rests turns _ (initial_inv sched n)) as (store&_&[_ Hc]&Hb).
  specialize (Hc Hlim). fold w in Hc, Hb. split_and!; [lia|lia|exact Hb].
Qed.

(** C2. A single-worker copy always ends with a report, for every schedule of
    its pending writes. The destination keeps its blocks or gets the source's
    bytes; every reported failure is of a block that a requested root reaches, or
    of the compaction; the count of failed blocks is the one the progress shows.
    If the copy was not interrupted and no compaction failed, then every block
    reached by a requested root is in the destination or reported as failed for
    that root, as is each block that cannot be read or decoded. *)
Theorem copy_complete fuel sched n :
  (length root_ids + sum_list ((λ b, length (block_children b)) <$> universe) ≤ fuel)%nat →
  ∃ s report, copy_rooted_blocks_single_worker source mode config root_ids fuel d0 sched n = (s, Ok report)
    ∧ report = report_of mode root_ids (writing s)
    ∧ frame source d0 (destination (writing s))
    ∧ Forall failure_sound (report_failures report)
    ∧ (∀ p, progress (writing s) = Some p → progress_failed p = report_failed_block_count report)
    ∧ (stop_requested s = false →
       (∀ f, f ∈ report_failures report → failure_operation f ≠ CompactDestinationStore) →
       ∀ r b, reach r b → accounted (destination (writing s)) (report_failures report) r b).
Proof.
  intros Hfuel. pose proof (initial_inv sched n) as Hinit. cbn zeta in Hinit.
  set (s0 := initial_state config root_ids d0 sched n) in *.
  destruct (copy_loop_spec fuel s0 Hinit) as (s1&Hs1&Hend).
  { unfold s0, initial_state. destruct (poll_interrupt n). cbn [queue visited]. rewrite length_fmap. done. }
  assert (∃ store, rests store (writing s1) ∧ frame source d0 (destination (writing s1)) ∧ store_failed store
    ∧ (stop_requested s1 = true ∨ store ≠ [] ∨ walk_inv [] s1 ∧ store = [])) as (store&Hrest&Hf&Hst&Hcase).
  { destruct Hend as [Hinv|(store&?&?&?&?)]; [|exists store; naive_solver].
    exists []. pose proof Hinv as [? ? ? ?]. split_and!; [done|done|by apply Forall_nil|auto]. }
  destruct (flush_spec store s1 Hrest) as (s2&Hs2&Hq2&Hv2&Hst2&Hrest2&Hadv2&Hb2&Hp2).
  exists s2, (report_of mode root_ids (writing s2)). split_and!.
  - unfold copy_rooted_blocks_single_worker. fold s0. unfold mbind at 1, stm_bind at 1. rewrite Hs1.
    unfold mbind, stm_bind, gets in Hs2 |- *.
    destruct (writes (flush_buffered_destination_writes _ _) s1) as [s' [[]|]]; [|done]. by rewrite Hs2.
  - done.
  - etrans; [exact Hf|apply (adv_frame _ _ Hadv2)].
  - by apply (rests_sound store).
  - intros p Hp. cbn [report_of report_failed_block_count]. destruct Hrest2 as ([_ _ _ _ Ht Hpr]&_).
    unfold count_failed_blocks. rewrite <-(inv_ids _ _ _ _ Ht). apply Hpr. by rewrite Hp.
  - intros Hstop Hno r b Hr. cbn [report_of report_failures] in *. destruct Hcase as [Hs|[Hne|[Hinv ->]]].
    + congruence.
    + exfalso. destruct store as [|f store]; [done|]. apply Forall_cons in Hst as [(m&r'&_&->) _].
      apply (Hno (store_failure_of CompactDestinationStore m r')); [|done]. destruct Hrest2 as ([_ _ _ _ Ht _]&_).
      rewrite (inv_failures _ _ _ _ Ht). apply elem_of_app. right. by left.
    + apply (walk_accounted s2); try done. destruct Hinv as [_ Hwalk Htr _]. split; rewrite ?Hv2.
      * done.
      * eapply walk_ok_learns; [apply (adv_learns _ _ Hadv2)|done].
      * intros c y Hc Hy. apply (adv_tracks _ _ Hadv2). by eapply Htr.
      * etrans; [exact Hf|apply (adv_frame _ _ Hadv2)].
Qed.
End walk.
