(* ===== verification/BlockCopyWitness.v ===== *)
(** * The block copy theorems at concrete inputs

    The byte store is a map whose backend has no batch writes; a block's bytes
    are the one-byte ids of its children. *)

From Stdlib Require Import ZArith Lia Ascii.
From stdpp Require Import base gmap sets strings sorting option list.
From S2P Require Import Prelude Hex Blocks Cbor Text Runtime Instances ReplayJournal Items Mailbox MailboxSpec BlockCopy BlockCopySpec BlockCopyChildren CopyRun CopyRunSpec CopyWalkSpec.
#[local] Open Scope Z_scope.

#[export] Instance list_order : HashSetOrder := {|
  hash_set_iter := elements;
  hash_set_iter_perm s := Permutation_refl (elements s) |}.

(** ** A byte store without batch writes *)
Abbreviation byte_map := (gmap (list Z) (list Z)).
#[export] Instance map_store : ByteStore byte_map := {|
  ByteStoreError := string;
  byte_error_text e := e;
  backend_failure e := Some e;
  get_block_bytes h d := (d, Ok (d !! h));
  put_block_bytes h b d := (<[h := b]> d, Ok ());
  put_block_bytes_batch es d := (d, Err "Batch writes are NOT supported by this block store backend.");
  held d h := d !! h
|}.
#[export] Instance map_store_laws : ByteStoreLaws byte_map.
Proof.
  split; unfold written; cbn [get_block_bytes put_block_bytes put_block_bytes_batch held map_store].
  - intros h d d' r [= <- <-]. split; [done|]. by intros o [= <-].
  - intros h b d d' r [= <- <-]. split; [|intros _; by rewrite lookup_insert_eq].
    intros k. destruct (decide (k = h)) as [->|Hk]; [right|left; by rewrite lookup_insert_ne].
    exists b. split; [by left|by rewrite lookup_insert_eq].
  - intros es d d' r [= <- <-]. split; [intros h; by left|discriminate].
Qed.

(** Blocks whose bytes list the ids of their children. *)
#[local] Instance byte_blocks : DecodeBlock := λ block_bytes _,
  Ok (DecodedV2 (Ok (Branch {| bb_level := 1; bb_type_name := "branch";
    bb_spec := {| dims := 0; encoding := "" |};
    bb_entries := (λ z, {| be_child := [z]; be_embedding := [] |}) <$> block_bytes |}))).

(** ** A copy: [1] has the children [2] and [3], [2] has [3] and [4], and [4]
    is missing. *)
Definition stored_blocks : byte_map := <[[1] := [2; 3]]> (<[[2] := [3; 4]]> (<[[3] := []]> ∅)).
Definition source_map (h : block_hash) : result string (option bytes) := Ok (stored_blocks !! h).
Definition compact : BlindWriteCheckpoint byte_map := {| interval := 2; action := λ d, (d, Ok ()) |}.
Definition copy_config : CopyExecutionConfig byte_map := {|
  max_in_flight_destination_writes := 2; worker_thread_count := 1;
  max_in_flight_destination_write_bytes := DEFAULT_MAX_IN_FLIGHT_DESTINATION_WRITE_BYTES;
  config_progress := Some default_progress; blind_write_checkpoint := Some compact |}.
Definition copy_run : copy_state byte_map * result copy_stop RootedBlockCopyReport :=
  copy_rooted_blocks_single_worker source_map BlindWrite copy_config [[1]] 10 ∅ (λ n, n) None.

Example copy_run_report : ∃ report, copy_run.2 = Ok report
  ∧ destination (writing copy_run.1) = stored_blocks
  ∧ report_attempted_write_block_count report = Some 3
  ∧ report_failures report = [failure_of [1] [4]
      {| template_operation := ReadSourceBlock; template_message := "source block was not found" |}]
  ∧ progress_failed <$> progress (writing copy_run.1) = Some 1.
Proof. eexists. split; [vm_compute; reflexivity|]. split_and!; vm_compute; reflexivity. Qed.

Lemma children_listed b : block_children source_map b ≠ [] → b ∈ [[1]; [2]].
Proof.
  intros Hb. destruct (decide (b = [1])) as [->|H1]; [by left|]. destruct (decide (b = [2])) as [->|H2]; [by right; left|].
  exfalso. apply Hb. unfold block_children, source_map, stored_blocks.
  rewrite !lookup_insert_ne by done. destruct (decide (b = [3])) as [->|H3]; [by rewrite lookup_insert_eq|].
  by rewrite lookup_insert_ne, lookup_empty by done.
Qed.

Lemma reach_four : reach source_map [[1]] [1] [4].
Proof.
  apply (reach_child _ _ [1] [2] [4]); [|by right; left].
  apply (reach_child _ _ [1] [1] [2]); [apply reach_root; by left|by left].
Qed.

Lemma copy_complete_witness : ∃ s report, copy_run = (s, Ok report)
  ∧ accounted source_map BlindWrite ∅ (destination (writing s)) (report_failures report) [1] [4].
Proof.
  destruct (copy_complete source_map [[1]] BlindWrite copy_config ∅) with
    (universe := [[1]; [2]] : list block_hash) (fuel := 10%nat) (sched := λ n : nat, n) (n := @None nat)
    as (s&report&Hrun&_&_&_&_&Hacc).
  - by intros cp d [= <-] h.
  - apply (bool_decide_eq_true_1 (NoDup [[1]; [2]])). reflexivity.
  - exact children_listed.
  - by intros p [= <-].
  - apply Nat.leb_le. reflexivity.
  - assert (copy_run = (s, Ok report)) as Hrun' by exact Hrun. clear Hrun.
    exists s, report. split; [exact Hrun'|].
    pose proof (f_equal fst Hrun') as Hs. pose proof (f_equal snd Hrun') as Hr. cbn [fst snd] in Hs, Hr. clear Hrun'.
    apply Hacc; [|intros f Hf|exact reach_four].
    + rewrite <-Hs. vm_compute. reflexivity.
    + assert (report_failures report = match copy_run.2 with Ok r => report_failures r | Err _ => [] end) as Hf2 by by rewrite Hr.
      rewrite Hf2 in Hf. clear -Hf.
      assert (forallb (λ f, negb (bool_decide (failure_operation f = CompactDestinationStore)))
        match copy_run.2 with Ok r => report_failures r | Err _ => [] end = true) as Hall by (vm_compute; reflexivity).
      rewrite forallb_forall in Hall. apply list_elem_of_In in Hf. specialize (Hall f Hf).
      by apply negb_true_iff, bool_decide_eq_false in Hall.
Defined.

Lemma copy_bounded_witness :
  let w := writing (copy_loop source_map BlindWrite copy_config [[1]] 2
    (initial_state copy_config [[1]] ∅ (λ n, n) None)).1 in
  in_flight w ≤ 2 ∧ len (pending_writes w) = 0.
Proof.
  assert (NoDup [[1]; [2]]) as Hnd by (apply (bool_decide_eq_true_1 (NoDup [[1]; [2]])); reflexivity).
  pose proof (λ Hcp Hfresh Hlim, copy_bounded source_map [[1]] BlindWrite copy_config ∅ Hcp [[1]; [2]] Hnd children_listed Hfresh
    2 (λ n, n) None Hlim) as Hb.
  assert (effective_write_limit copy_config = 2) as Hlim by reflexivity. rewrite Hlim in Hb.
  intros w. split; [|vm_compute; reflexivity].
  refine (proj1 (proj2 (Hb _ _ _))); [by intros cp d [= <-] h|by intros p [= <-]|reflexivity].
Defined.

(** ** The tracker: a failure before the second root, and the path after it *)
Definition missing : FailureTemplate := {| template_operation := ReadSourceBlock; template_message := "lost" |}.
Definition sample_calls : list tracker_call :=
  [NoteBlockRoot [1] [5]; Record [5] missing; NoteBlockRoot [2] [6]; RememberChildren [6] [[5]]].
Lemma sample_calls_ok : calls_ok sample_calls.
Proof.
  change sample_calls with (((([] ++ [NoteBlockRoot [1] [5]]) ++ [Record [5] missing]) ++ [NoteBlockRoot [2] [6]])
    ++ [RememberChildren [6] [[5]]]).
  repeat apply calls_ok_snoc; try apply calls_ok_nil; cbn; try done.
  - exists [1]. apply reaches_noted. by left.
  - intros cs Hin. by repeat (apply elem_of_cons in Hin as [Hin|Hin]; [discriminate|]); apply not_elem_of_nil in Hin.
Qed.

Lemma failures_exact_witness : ∃ roots : block_hash → gset block_hash,
  [2] ∈ roots [5]
  ∧ failures (run_calls None sample_calls).1
    ≡ₚ ((λ r, failure_of r [5] missing) <$> elements (roots [5])) ++ [].
Proof.
  destruct (failures_exact sample_calls None sample_calls_ok ltac:(done)) as [(roots&Hr&Hp) _].
  exists roots. split; [|etrans; [exact Hp|]; cbn; by rewrite !app_nil_r].
  apply Hr. apply (reaches_child _ [2] [6] [[5]] [5]); [apply reaches_noted; by right; right; left| |by left].
  by right; right; right; left.
Defined.

(** ** Children of the indexer's blocks *)
Definition hash_a : block_hash := replicate 32 170.
Definition hash_b : block_hash := replicate 32 187.
Definition sample_body : ReplayJournalBlockBody := {|
  ReplayJournal.schema_version := REPLAY_JOURNAL_SCHEMA_VERSION;
  previous_block_id := Some (hash_to_string hash_a);
  entries := [ReplayInput StepEmbedding (hash_to_string hash_b) [] (JEmailChunk (hash_to_string hash_a) 3);
              IndexingOutcome StepIndexing [hash_to_string hash_b] 1 [] (hash_to_string hash_a)] |}.
Definition journal_block (b : ReplayJournalBlockBody) : CustomBlock := {|
  cb_type_name := CustomBlocks.REPLAY_JOURNAL_BLOCK_TYPE;
  cb_content := payload_map CustomBlocks.REPLAY_JOURNAL_MEDIA_TYPE (encode (ser_body b)) |}.
Definition published_body : ReplayJournalBlockBody := {|
  ReplayJournal.schema_version := REPLAY_JOURNAL_SCHEMA_VERSION; previous_block_id := Some (hash_to_string hash_a);
  entries := [indexing_outcome 1 [hash_to_string hash_b] (hash_to_string hash_a)] |}.

(** The second block is what publishing an outcome writes: no child is found in
    it, not even the previous journal block. *)
Lemma journal_children_witness :
  custom_block_child_ids (journal_block sample_body) = Ok [hash_a; hash_b; hash_a; hash_b; hash_a]
  ∧ custom_block_child_ids (journal_block published_body) = Err "missing field input_block_ids".
Proof.
  split.
  - etrans; [apply (journal_children sample_body); vm_compute; reflexivity|]. vm_compute. reflexivity.
  - etrans; [apply (journal_children published_body); vm_compute; reflexivity|]. vm_compute. reflexivity.
Defined.

Definition sample_email : NormalizedEmailArtifact :=
  {| Mailbox.schema_version := NORMALIZED_EMAIL_SCHEMA_VERSION;
     Mailbox.mailbox_artifact_ref := hash_to_string hash_b; mailbox_message_index := 0;
     headers := []; subject := Some "Hello"; from := None; recipient_context := None; date := None;
     message_id := None; email_body := "Hi." |}.
Definition sample_email_bytes : bytes :=
  match render_normalized_email (E := string) "in.mbox" sample_email with Ok b => b | Err _ => [] end.

Lemma email_blocks_linked_witness :
  custom_block_child_ids {| cb_type_name := NORMALIZED_EMAIL_ARTIFACT_BLOCK_TYPE;
    cb_content := payload_map ARTIFACT_MEDIA_TYPE_NORMALIZED_EMAIL sample_email_bytes |} = Ok [hash_b].
Proof.
  refine (proj2 (email_blocks_linked (E := string) ∅ "in.mbox" 0 sample_email_bytes hash_a hash_b sample_email []
    {| media_type := ""; body := [] |} _ _ _ _ _)).
  - apply (bool_decide_eq_true_1 (hash_ok hash_a)). vm_compute. reflexivity.
  - apply (bool_decide_eq_true_1 (hash_ok hash_b)). vm_compute. reflexivity.
  - split; vm_compute; reflexivity.
  - reflexivity.
  - vm_compute. reflexivity.
Defined.
