(* ===== verification/CopyQueues.v ===== *)
(** * Rooted block copy: the queues of the multi-worker driver

    [ThreadedWorkQueue] and [ThreadedWriteQueue] of [block_copy.rs]. Each queue
    is a state behind a mutex with a condition variable. A method that can wait
    is an attempt: one pass through its loop under the lock, which either
    decides or waits. The threads that call them are in [CopyThreads.v]. *)

From Stdlib Require Import ZArith Lia Ascii.
From stdpp Require Import base gmap sets strings sorting option list.
From S2P Require Import Prelude Hex Blocks BlockCopy CopyRun.
#[local] Open Scope Z_scope.

(** ** The work queue *)
Record ThreadedWorkQueueState := {
  work_items : list (block_hash * block_hash);
  active_workers : Z;
  work_shutdown : bool
}.
Definition new_work_queue (root_ids : list block_hash) : ThreadedWorkQueueState := {|
  work_items := (λ root_id, (root_id, root_id)) <$> root_ids;
  active_workers := 0; work_shutdown := false |}.
Definition shut_work (st : ThreadedWorkQueueState) : ThreadedWorkQueueState := {|
  work_items := work_items st; active_workers := active_workers st; work_shutdown := true |}.

(** What an attempt of [pop] decides; [PopExit] notifies. *)
Inductive pop_outcome := Popped (request_root_id block_id : block_hash) | PopExit | PopWait.
Definition pop_attempt (stop_requested : bool) (st : ThreadedWorkQueueState) : ThreadedWorkQueueState * pop_outcome :=
  if work_shutdown st || stop_requested then (shut_work st, PopExit) else
  match work_items st with
  | (request_root_id, block_id) :: items =>
      ({| work_items := items; active_workers := active_workers st + 1; work_shutdown := work_shutdown st |},
       Popped request_root_id block_id)
  | [] => if active_workers st =? 0 then (shut_work st, PopExit) else (st, PopWait)
  end.

(** [ThreadedWorkQueue::enqueue_children]: the test before the lock, and the
    locked part with whether it notifies. *)
Definition wants_children (child_ids : list block_hash) (stop_requested : bool) : bool :=
  negb (bool_decide (child_ids = []) || stop_requested).
Definition push_children (request_root_id : block_hash) (child_ids : list block_hash) (st : ThreadedWorkQueueState)
    : ThreadedWorkQueueState * bool :=
  if work_shutdown st then (st, false) else
  ({| work_items := enqueue_children request_root_id child_ids (work_items st);
      active_workers := active_workers st; work_shutdown := work_shutdown st |}, true).

(** [finish_item]; it always notifies. *)
Definition finish_item (stop_requested : bool) (st : ThreadedWorkQueueState) : ThreadedWorkQueueState :=
  let active := saturating_sub (active_workers st) 1 in {|
  work_items := work_items st; active_workers := active;
  work_shutdown := work_shutdown st || stop_requested || ((active =? 0) && bool_decide (work_items st = [])) |}.

(** ** The write queue *)
Record ThreadedWriteState := {
  write_jobs : list ThreadedWriteJob;
  queued_write_bytes : Z;
  active_writes : Z;
  active_write_bytes : Z;
  attempted_write_count : Z;
  producers_finished : bool;
  write_shutdown : bool;
  checkpoint_pending : bool;
  checkpoint_running : bool
}.
Definition new_write_state : ThreadedWriteState := {|
  write_jobs := []; queued_write_bytes := 0; active_writes := 0; active_write_bytes := 0;
  attempted_write_count := 0; producers_finished := false; write_shutdown := false;
  checkpoint_pending := false; checkpoint_running := false |}.

Section write_queue.
Context (max_in_flight_destination_writes max_in_flight_destination_write_bytes : Z) (checkpoint_interval : option Z).

Definition writer_thread_count : Z := Z.max max_in_flight_destination_writes 1.

Definition write_limit_reached (st : ThreadedWriteState) : bool :=
  max_in_flight_destination_writes <=? saturating_add (len (write_jobs st)) (active_writes st).
Definition byte_limit_reached (block_bytes_len : Z) (st : ThreadedWriteState) : bool :=
  (0 <? saturating_add (len (write_jobs st)) (active_writes st))
  && (0 <? max_in_flight_destination_write_bytes)
  && (max_in_flight_destination_write_bytes
      <? saturating_add (saturating_add (queued_write_bytes st) (active_write_bytes st)) block_bytes_len).

(** Whether this write is counted towards a checkpoint, and the interval. *)
Definition counted_interval (mode : CopyDestinationMode) : option Z :=
  match mode, checkpoint_interval with
  | BlindWrite, Some n => if 0 <? n then Some n else None
  | _, _ => None
  end.

(** An attempt of [enqueue]; [Enqueued] notifies. *)
Inductive enqueue_outcome := Enqueued | Refused | EnqueueWait.
Definition enqueue_attempt (job : ThreadedWriteJob) (mode : CopyDestinationMode) (stop_requested : bool)
    (st : ThreadedWriteState) : ThreadedWriteState * enqueue_outcome :=
  if write_shutdown st || stop_requested then (st, Refused) else
  if checkpoint_pending st || checkpoint_running st || write_limit_reached st
     || byte_limit_reached (len (job_block_bytes job)) st
  then (st, EnqueueWait) else
  let counted := counted_interval mode in
  let attempted := match counted with Some _ => attempted_write_count st + 1 | None => attempted_write_count st end in
  ({| write_jobs := write_jobs st ++ [job];
      queued_write_bytes := queued_write_bytes st + len (job_block_bytes job);
      active_writes := active_writes st; active_write_bytes := active_write_bytes st;
      attempted_write_count := attempted;
      producers_finished := producers_finished st; write_shutdown := write_shutdown st;
      checkpoint_pending := match counted with
                            | Some n => (attempted mod n =? 0) || checkpoint_pending st
                            | None => checkpoint_pending st
                            end;
      checkpoint_running := checkpoint_running st |}, Enqueued).

(** The loop of [next_action] that fills a batch: the jobs taken, their bytes
    and the queue that is left. *)
Fixpoint fill_batch (target : Z) (jobs : list ThreadedWriteJob) (total queued : Z) (queue : list ThreadedWriteJob)
    : list ThreadedWriteJob * Z * Z * list ThreadedWriteJob :=
  match queue with
  | [] => (jobs, total, queued, [])
  | next_job :: rest =>
      if negb (len jobs <? target) then (jobs, total, queued, queue) else
      if (0 <? max_in_flight_destination_write_bytes) && negb (bool_decide (jobs = []))
         && (max_in_flight_destination_write_bytes <? saturating_add total (len (job_block_bytes next_job)))
      then (jobs, total, queued, queue)
      else fill_batch target (jobs ++ [next_job]) (total + len (job_block_bytes next_job))
             (saturating_sub queued (len (job_block_bytes next_job))) rest
  end.

(** The target length of a batch, and the capability after a probe began. *)
Definition target_batch (capability : BatchWriteCapability) (st : ThreadedWriteState) : BatchWriteCapability * Z :=
  match capability with
  | Supported => (capability, Z.max max_in_flight_destination_writes 1)
  | Unknown => if 2 <=? len (write_jobs st) then ((try_begin_batch_write_probe capability).1, 2) else (capability, 1)
  | Probing | Unsupported => (capability, 1)
  end.

(** An attempt of [next_action]; [NextShutdown] notifies. *)
Inductive next_outcome :=
| WriteBatch (jobs : list ThreadedWriteJob) (total_block_bytes_len : Z)
| RunCheckpoint
| NextShutdown
| NextWait.
Definition next_attempt (stop_requested : bool) (capability : BatchWriteCapability) (st : ThreadedWriteState)
    : ThreadedWriteState * BatchWriteCapability * next_outcome :=
  if negb (bool_decide (capability = Unsupported)) && (0 <? active_writes st) then (st, capability, NextWait) else
  let '(capability, target) := target_batch capability st in
  match write_jobs st with
  | first_job :: rest =>
      let '(jobs, total, queued, rest) :=
        fill_batch target [first_job] (len (job_block_bytes first_job))
          (saturating_sub (queued_write_bytes st) (len (job_block_bytes first_job))) rest in
      ({| write_jobs := rest; queued_write_bytes := queued;
          active_writes := active_writes st + len jobs; active_write_bytes := active_write_bytes st + total;
          attempted_write_count := attempted_write_count st;
          producers_finished := producers_finished st; write_shutdown := write_shutdown st;
          checkpoint_pending := checkpoint_pending st; checkpoint_running := checkpoint_running st |},
       capability, WriteBatch jobs total)
  | [] =>
      if checkpoint_pending st && negb (checkpoint_running st) && (active_writes st =? 0) then
        ({| write_jobs := []; queued_write_bytes := queued_write_bytes st;
            active_writes := active_writes st; active_write_bytes := active_write_bytes st;
            attempted_write_count := attempted_write_count st;
            producers_finished := producers_finished st; write_shutdown := write_shutdown st;
            checkpoint_pending := false; checkpoint_running := true |}, capability, RunCheckpoint)
      else if (producers_finished st || write_shutdown st || stop_requested)
              && (active_writes st =? 0) && negb (checkpoint_running st) then
        ({| write_jobs := []; queued_write_bytes := queued_write_bytes st;
            active_writes := active_writes st; active_write_bytes := active_write_bytes st;
            attempted_write_count := attempted_write_count st;
            producers_finished := producers_finished st; write_shutdown := true;
            checkpoint_pending := checkpoint_pending st; checkpoint_running := checkpoint_running st |},
         capability, NextShutdown)
      else (st, capability, NextWait)
  end.

(** The methods that never wait; all of them notify. *)
Definition complete_write_batch (completed_jobs block_bytes_len : Z) (st : ThreadedWriteState) : ThreadedWriteState := {|
  write_jobs := write_jobs st; queued_write_bytes := queued_write_bytes st;
  active_writes := saturating_sub (active_writes st) completed_jobs;
  active_write_bytes := saturating_sub (active_write_bytes st) block_bytes_len;
  attempted_write_count := attempted_write_count st;
  producers_finished := producers_finished st; write_shutdown := write_shutdown st;
  checkpoint_pending := checkpoint_pending st; checkpoint_running := checkpoint_running st |}.
Definition finish_checkpoint (st : ThreadedWriteState) : ThreadedWriteState := {|
  write_jobs := write_jobs st; queued_write_bytes := queued_write_bytes st;
  active_writes := active_writes st; active_write_bytes := active_write_bytes st;
  attempted_write_count := attempted_write_count st;
  producers_finished := producers_finished st; write_shutdown := write_shutdown st;
  checkpoint_pending := checkpoint_pending st; checkpoint_running := false |}.
Definition fail_checkpoint (st : ThreadedWriteState) : ThreadedWriteState := {|
  write_jobs := []; queued_write_bytes := 0;
  active_writes := active_writes st; active_write_bytes := active_write_bytes st;
  attempted_write_count := attempted_write_count st;
  producers_finished := true; write_shutdown := true;
  checkpoint_pending := checkpoint_pending st; checkpoint_running := false |}.
Definition write_request_shutdown (st : ThreadedWriteState) : ThreadedWriteState := {|
  write_jobs := []; queued_write_bytes := 0;
  active_writes := active_writes st; active_write_bytes := active_write_bytes st;
  attempted_write_count := attempted_write_count st;
  producers_finished := true; write_shutdown := true;
  checkpoint_pending := checkpoint_pending st; checkpoint_running := checkpoint_running st |}.
Definition finish_producing (stop_requested : bool) (st : ThreadedWriteState) : ThreadedWriteState := {|
  write_jobs := if stop_requested then [] else write_jobs st;
  queued_write_bytes := if stop_requested then 0 else queued_write_bytes st;
  active_writes := active_writes st; active_write_bytes := active_write_bytes st;
  attempted_write_count := attempted_write_count st;
  producers_finished := true; write_shutdown := stop_requested || write_shutdown st;
  checkpoint_pending := checkpoint_pending st; checkpoint_running := checkpoint_running st |}.
End write_queue.
