(* ===== verification/CopyThreads.v ===== *)
(** * Rooted block copy: the threads of the multi-worker driver

    [copy_rooted_blocks_multi_worker_with_mode_and_limits_and_checkpoint] of
    [block_copy.rs] as a transition system. The traversal workers, the write
    workers, the interrupt poller and the main thread share the two queues and
    the locked state. A thread's program counter stands between two critical
    sections, store calls or reads of the stop flag outside a lock, and one step
    runs one of them; a read of the flag inside a critical section is part of it,
    since setting the flag commutes with the rest of the section. A thread that
    waits on a condition variable has no step until a notification makes it
    runnable, or the variable wakes it spuriously. Panics of the stores, which the driver turns into a shutdown, are left out;
    the panic of a missing checkpoint is a state of its own. *)

From Stdlib Require Import ZArith Lia Ascii.
From stdpp Require Import base gmap sets strings sorting option list.
From S2P Require Import Prelude Hex Blocks BlockCopy CopyRun CopyQueues.
#[local] Open Scope Z_scope.

(** ** Program counters *)
Inductive traversal_pc :=
| TPop | TPopWaiting
| TNote (request_root_id block_id : block_hash)
| TVisit (request_root_id block_id : block_hash)
| TRead (request_root_id block_id : block_hash)
| TReadFailed (block_id : block_hash) (message : string)
| TDecode (request_root_id block_id : block_hash) (block_bytes : bytes)
| TChildren (request_root_id block_id : block_hash) (block_bytes : bytes) (child_ids : list block_hash)
| TPushChildren (request_root_id block_id : block_hash) (block_bytes : bytes) (child_ids : list block_hash)
| TCheck (block_id : block_hash) (block_bytes : bytes)
| TGet (block_id : block_hash) (block_bytes : bytes)
| TCheckFailed (block_id : block_hash) (message : string)
| TSkipped
| TEnqueue (job : ThreadedWriteJob) | TEnqueueWaiting (job : ThreadedWriteJob)
| TAttempted
| TFinish | TExit.

Inductive writer_pc :=
| WNext | WWaiting
| WPublish (p : publication) (job_count block_bytes_len : Z)
| WRecord (completions : list DestinationWriteCompletion) (job_count block_bytes_len : Z)
| WCheckpoint | WCheckpointDone
| WCheckpointFailed (message : string) | WCheckpointStop | WCheckpointFail
| WPanicked | WExit.

Inductive main_pc := MJoinTraversal | MFinish (stop_requested : bool) | MJoinWriters | MDone.
Inductive interrupt_pc := IPolling | IStop | IWork | IWrite | IExit.

(** Which condition variables a step notifies. *)
Inductive wakes := Nobody | WakeWork | WakeWrite.

Definition wake_traversal (wk : wakes) (pc : traversal_pc) : traversal_pc :=
  match wk, pc with
  | WakeWork, TPopWaiting => TPop
  | WakeWrite, TEnqueueWaiting job => TEnqueue job
  | _, _ => pc
  end.
Definition wake_writer (wk : wakes) (pc : writer_pc) : writer_pc :=
  match wk, pc with WakeWrite, WWaiting => WNext | _, _ => pc end.

Section threads.
Context {D : Type} `{ByteStore D} `{Ciborium} `{DecodeBlock} `{HashDisplay} `{HashSetOrder}.
Context (source : block_hash → result string (option bytes)).
Context (mode : CopyDestinationMode) (config : CopyExecutionConfig D) (root_ids : list block_hash).

Abbreviation limit := (effective_write_limit config).
Abbreviation max_bytes := (max_in_flight_destination_write_bytes config).
Abbreviation checkpoint_interval := (interval <$> blind_write_checkpoint config).

(** ** What the threads share *)
Record shared := {
  sh_work : ThreadedWorkQueueState;
  sh_writes : ThreadedWriteState;
  sh_visited : gset block_hash;
  sh_metrics : CopyMetrics;
  sh_tracker : CopyFailureTracker;
  sh_progress : option CopyProgressState;
  sh_stop : bool;
  sh_capability : BatchWriteCapability;
  sh_destination : D
}.
Definition with_work (w : ThreadedWorkQueueState) (sh : shared) : shared := {|
  sh_work := w; sh_writes := sh_writes sh; sh_visited := sh_visited sh; sh_metrics := sh_metrics sh;
  sh_tracker := sh_tracker sh; sh_progress := sh_progress sh; sh_stop := sh_stop sh;
  sh_capability := sh_capability sh; sh_destination := sh_destination sh |}.
Definition with_writes (w : ThreadedWriteState) (c : BatchWriteCapability) (sh : shared) : shared := {|
  sh_work := sh_work sh; sh_writes := w; sh_visited := sh_visited sh; sh_metrics := sh_metrics sh;
  sh_tracker := sh_tracker sh; sh_progress := sh_progress sh; sh_stop := sh_stop sh;
  sh_capability := c; sh_destination := sh_destination sh |}.
Definition with_visited (v : gset block_hash) (sh : shared) : shared := {|
  sh_work := sh_work sh; sh_writes := sh_writes sh; sh_visited := v; sh_metrics := sh_metrics sh;
  sh_tracker := sh_tracker sh; sh_progress := sh_progress sh; sh_stop := sh_stop sh;
  sh_capability := sh_capability sh; sh_destination := sh_destination sh |}.
Definition with_metrics (f : metered → metered) (sh : shared) : shared :=
  let m := f (sh_metrics sh, sh_progress sh) in {|
  sh_work := sh_work sh; sh_writes := sh_writes sh; sh_visited := sh_visited sh; sh_metrics := m.1;
  sh_tracker := sh_tracker sh; sh_progress := m.2; sh_stop := sh_stop sh;
  sh_capability := sh_capability sh; sh_destination := sh_destination sh |}.
Definition with_tracker (f : tracked → tracked) (sh : shared) : shared :=
  let t := f (sh_tracker sh, sh_progress sh) in {|
  sh_work := sh_work sh; sh_writes := sh_writes sh; sh_visited := sh_visited sh; sh_metrics := sh_metrics sh;
  sh_tracker := t.1; sh_progress := t.2; sh_stop := sh_stop sh;
  sh_capability := sh_capability sh; sh_destination := sh_destination sh |}.
Definition with_stop (sh : shared) : shared := {|
  sh_work := sh_work sh; sh_writes := sh_writes sh; sh_visited := sh_visited sh; sh_metrics := sh_metrics sh;
  sh_tracker := sh_tracker sh; sh_progress := sh_progress sh; sh_stop := true;
  sh_capability := sh_capability sh; sh_destination := sh_destination sh |}.
Definition with_destination (c : BatchWriteCapability) (d : D) (sh : shared) : shared := {|
  sh_work := sh_work sh; sh_writes := sh_writes sh; sh_visited := sh_visited sh; sh_metrics := sh_metrics sh;
  sh_tracker := sh_tracker sh; sh_progress := sh_progress sh; sh_stop := sh_stop sh;
  sh_capability := c; sh_destination := d |}.

(** ** [run_threaded_copy_worker] *)
Definition pop_step (sh : shared) : shared * traversal_pc * wakes :=
  let '(w, outcome) := pop_attempt (sh_stop sh) (sh_work sh) in
  match outcome with
  | Popped request_root_id block_id => (with_work w sh, TNote request_root_id block_id, Nobody)
  | PopExit => (with_work w sh, TExit, WakeWork)
  | PopWait => (with_work w sh, TPopWaiting, Nobody)
  end.

(** [read_source_block_threaded], up to the recording of a failure. *)
Definition read_step (request_root_id block_id : block_hash) (sh : shared) : shared * traversal_pc * wakes :=
  let sh := with_metrics (λ m, (m.1, progress_note_read_source_block <$> m.2)) sh in
  match source block_id with
  | Ok (Some block_bytes) => (sh, TDecode request_root_id block_id block_bytes, Nobody)
  | Ok None => (sh, TReadFailed block_id "source block was not found", Nobody)
  | Err error => (sh, TReadFailed block_id error, Nobody)
  end.

Definition decode_step (request_root_id block_id : block_hash) (block_bytes : bytes) (sh : shared)
    : shared * traversal_pc * wakes :=
  let '(t, child_ids) := decode_source_block block_id block_bytes (sh_tracker sh, sh_progress sh) in
  (with_tracker (λ _, (remember_children block_id child_ids t.1, t.2)) sh,
   TChildren request_root_id block_id block_bytes child_ids, Nobody).

(** What follows the children: the two arms of [match destination_mode]. *)
Definition arm_of (block_id : block_hash) (block_bytes : bytes) : traversal_pc :=
  match mode with
  | ReadBeforeWrite => TCheck block_id block_bytes
  | BlindWrite => TEnqueue {| job_block_id := block_id; job_block_bytes := block_bytes; count_as_copied := false |}
  end.

(** The flag is read before the work queue is locked. *)
Definition children_step (request_root_id block_id : block_hash) (block_bytes : bytes) (child_ids : list block_hash)
    (sh : shared) : shared * traversal_pc * wakes :=
  (sh, if wants_children child_ids (sh_stop sh) then TPushChildren request_root_id block_id block_bytes child_ids
       else arm_of block_id block_bytes, Nobody).
Definition push_step (request_root_id block_id : block_hash) (block_bytes : bytes) (child_ids : list block_hash)
    (sh : shared) : shared * traversal_pc * wakes :=
  let '(w, notified) := push_children request_root_id child_ids (sh_work sh) in
  (with_work w sh, arm_of block_id block_bytes, if notified : bool then WakeWork else Nobody).

Definition get_step (block_id : block_hash) (block_bytes : bytes) (sh : shared) : shared * traversal_pc * wakes :=
  let '(d, r) := get_block_bytes block_id (sh_destination sh) in
  let sh := with_destination (sh_capability sh) d sh in
  match r with
  | Ok (Some _) => (sh, TSkipped, Nobody)
  | Ok None =>
      (sh, TEnqueue {| job_block_id := block_id; job_block_bytes := block_bytes; count_as_copied := true |}, Nobody)
  | Err error => (sh, TCheckFailed block_id (byte_error_text error), Nobody)
  end.

Definition enqueue_step (job : ThreadedWriteJob) (sh : shared) : shared * traversal_pc * wakes :=
  let '(w, outcome) := enqueue_attempt limit max_bytes checkpoint_interval job mode (sh_stop sh) (sh_writes sh) in
  let sh := with_writes w (sh_capability sh) sh in
  match outcome with
  | Enqueued => (sh, match mode with BlindWrite => TAttempted | ReadBeforeWrite => TFinish end, WakeWrite)
  | Refused => (sh, TFinish, Nobody)
  | EnqueueWait => (sh, TEnqueueWaiting job, Nobody)
  end.

Definition traversal_step (pc : traversal_pc) (sh : shared) : option (shared * traversal_pc * wakes) :=
  match pc with
  | TPop => Some (pop_step sh)
  | TNote r b => Some (with_tracker (λ t, (note_block_root r b t.1, t.2)) sh, TVisit r b, Nobody)
  | TVisit r b =>
      if decide (b ∈ sh_visited sh) then Some (sh, TFinish, Nobody)
      else Some (with_visited ({[b]} ∪ sh_visited sh) sh, TRead r b, Nobody)
  | TRead r b => Some (read_step r b sh)
  | TReadFailed b message => Some (with_tracker (record b ReadSourceBlock message) sh, TFinish, Nobody)
  | TDecode r b x => Some (decode_step r b x sh)
  | TChildren r b x cs => Some (children_step r b x cs sh)
  | TPushChildren r b x cs => Some (push_step r b x cs sh)
  | TCheck b x => Some (sh, if sh_stop sh then TFinish else TGet b x, Nobody)
  | TGet b x => Some (get_step b x sh)
  | TCheckFailed b message => Some (with_tracker (record b CheckDestinationBlock message) sh, TFinish, Nobody)
  | TSkipped => Some (with_metrics note_skipped_already_present_block sh, TFinish, Nobody)
  | TEnqueue job => Some (enqueue_step job sh)
  | TAttempted => Some (with_metrics note_attempted_write_block sh, TFinish, Nobody)
  | TFinish => Some (with_work (finish_item (sh_stop sh) (sh_work sh)) sh, TPop, WakeWork)
  | TPopWaiting | TEnqueueWaiting _ | TExit => None
  end.

(** ** [run_threaded_write_worker] *)
Definition next_step (sh : shared) : shared * writer_pc * wakes :=
  let '(w, c, outcome) := next_attempt limit max_bytes (sh_stop sh) (sh_capability sh) (sh_writes sh) in
  let sh := with_writes w c sh in
  match outcome with
  | WriteBatch jobs total => (sh, WPublish (Unpolled jobs) (len jobs) total, Nobody)
  | RunCheckpoint => (sh, WCheckpoint, Nobody)
  | NextShutdown => (sh, WExit, WakeWrite)
  | NextWait => (sh, WWaiting, Nobody)
  end.

Definition publish_batch_step (p : publication) (n total : Z) (sh : shared) : shared * writer_pc * wakes :=
  let '(c, d, outcome) := publish_step p (sh_capability sh) (sh_destination sh) in
  let sh := with_destination c d sh in
  match outcome with
  | inl p => (sh, WPublish p n total, Nobody)
  | inr completions => (sh, WRecord completions n total, Nobody)
  end.

(** One completion of [record_threaded_write_completions]. *)
Definition record_threaded_completion (c : DestinationWriteCompletion) (sh : shared) : shared :=
  match done_result c with
  | Ok _ => if done_count_as_copied c then with_metrics note_copied_block sh else sh
  | Err message => with_tracker (record (done_block_id c) WriteDestinationBlock message) sh
  end.

(** [run_threaded_checkpoint_if_needed], up to the recording of a failure. *)
Definition checkpoint_step (sh : shared) : shared * writer_pc * wakes :=
  match blind_write_checkpoint config with
  | None => (sh, WPanicked, Nobody)
  | Some checkpoint =>
      let '(d, r) := action checkpoint (sh_destination sh) in
      let sh := with_destination (sh_capability sh) d sh in
      match r with
      | Ok _ => (sh, WCheckpointDone, Nobody)
      | Err error => (sh, WCheckpointFailed (byte_error_text error), Nobody)
      end
  end.

Definition writer_step (pc : writer_pc) (sh : shared) : option (shared * writer_pc * wakes) :=
  match pc with
  | WNext => Some (next_step sh)
  | WPublish p n total => Some (publish_batch_step p n total sh)
  | WRecord (c :: completions) n total => Some (record_threaded_completion c sh, WRecord completions n total, Nobody)
  | WRecord [] n total =>
      Some (with_writes (complete_write_batch n total (sh_writes sh)) (sh_capability sh) sh, WNext, WakeWrite)
  | WCheckpoint => Some (checkpoint_step sh)
  | WCheckpointDone => Some (with_writes (finish_checkpoint (sh_writes sh)) (sh_capability sh) sh, WNext, WakeWrite)
  | WCheckpointFailed message =>
      Some (with_tracker (record_store_failure root_ids CompactDestinationStore message) sh, WCheckpointStop, Nobody)
  | WCheckpointStop => Some (with_stop sh, WCheckpointFail, Nobody)
  | WCheckpointFail => Some (with_writes (fail_checkpoint (sh_writes sh)) (sh_capability sh) sh, WNext, WakeWrite)
  | WWaiting | WPanicked | WExit => None
  end.

(** ** The whole system *)
Record system := {
  state : shared;
  traversals : list traversal_pc;
  writers : list writer_pc;
  main : main_pc;
  interrupter : interrupt_pc
}.
Definition woken (wk : wakes) (y : system) : system := {|
  state := state y; traversals := wake_traversal wk <$> traversals y;
  writers := wake_writer wk <$> writers y; main := main y; interrupter := interrupter y |}.

(** One step of the driver. [interrupt_raised] is the operator's signal; a
    poll that finds nothing changes nothing and is left out. *)
Inductive step (y : system) : system → Prop :=
| traversal_moves i pc sh pc' wk :
    traversals y !! i = Some pc → traversal_step pc (state y) = Some (sh, pc', wk) →
    step y (woken wk {| state := sh; traversals := <[i := pc']> (traversals y); writers := writers y;
                        main := main y; interrupter := interrupter y |})
| writer_moves i pc sh pc' wk :
    writers y !! i = Some pc → writer_step pc (state y) = Some (sh, pc', wk) →
    step y (woken wk {| state := sh; traversals := traversals y; writers := <[i := pc']> (writers y);
                        main := main y; interrupter := interrupter y |})
| main_joins_traversal :
    main y = MJoinTraversal → Forall (TExit =.) (traversals y) →
    step y {| state := state y; traversals := traversals y; writers := writers y;
              main := MFinish (sh_stop (state y)); interrupter := interrupter y |}
| main_finishes b :
    main y = MFinish b →
    step y (woken WakeWrite {|
      state := with_writes (finish_producing b (sh_writes (state y))) (sh_capability (state y)) (state y);
      traversals := traversals y; writers := writers y; main := MJoinWriters; interrupter := interrupter y |})
| main_joins_writers :
    main y = MJoinWriters → Forall (WExit =.) (writers y) →
    step y {| state := with_stop (state y); traversals := traversals y; writers := writers y;
              main := MDone; interrupter := interrupter y |}
| interrupt_raised :
    interrupter y = IPolling → sh_stop (state y) = false →
    step y {| state := state y; traversals := traversals y; writers := writers y;
              main := main y; interrupter := IStop |}
| interrupt_stops :
    interrupter y = IStop →
    step y {| state := with_stop (state y); traversals := traversals y; writers := writers y;
              main := main y; interrupter := IWork |}
| interrupt_shuts_work :
    interrupter y = IWork →
    step y (woken WakeWork {| state := with_work (shut_work (sh_work (state y))) (state y);
      traversals := traversals y; writers := writers y; main := main y; interrupter := IWrite |})
| interrupt_shuts_writes :
    interrupter y = IWrite →
    step y (woken WakeWrite {|
      state := with_writes (write_request_shutdown (sh_writes (state y))) (sh_capability (state y)) (state y);
      traversals := traversals y; writers := writers y; main := main y; interrupter := IExit |})
| interrupt_ends :
    interrupter y = IPolling → sh_stop (state y) = true →
    step y {| state := state y; traversals := traversals y; writers := writers y;
              main := main y; interrupter := IExit |}.

(** A condition variable may wake a thread without a notification. *)
Inductive spurious (y : system) : system → Prop :=
| traversal_wakes i pc wk : traversals y !! i = Some pc →
    spurious y {| state := state y; traversals := <[i := wake_traversal wk pc]> (traversals y); writers := writers y;
                  main := main y; interrupter := interrupter y |}
| writer_wakes i pc wk : writers y !! i = Some pc →
    spurious y {| state := state y; traversals := traversals y; writers := <[i := wake_writer wk pc]> (writers y);
                  main := main y; interrupter := interrupter y |}.

Definition initial_system (d : D) : system := {|
  state := {| sh_work := new_work_queue root_ids; sh_writes := new_write_state; sh_visited := ∅;
    sh_metrics := new_metrics; sh_tracker := new_tracker; sh_progress := config_progress config;
    sh_stop := false; sh_capability := Unknown; sh_destination := d |};
  traversals := replicate (Z.to_nat (Z.max (worker_thread_count config) 1)) TPop;
  writers := replicate (Z.to_nat (writer_thread_count limit)) WNext;
  main := MJoinTraversal; interrupter := IPolling |}.

(** A run from the start: its steps, and its wakeups without a notification. *)
Inductive runs (d : D) : nat → nat → system → Prop :=
| runs_start : runs d 0 0 (initial_system d)
| runs_step n k y y' : runs d n k y → step y y' → runs d (S n) k y'
| runs_spurious n k y y' : runs d n k y → spurious y y' → runs d n (S k) y'.

(** The report of the joined threads. *)
Definition threaded_report (sh : shared) : RootedBlockCopyReport := {|
  report_destination_mode := mode;
  requested_root_ids := hash_to_string <$> root_ids;
  report_copied_block_count := when (is_read_before_write mode) (copied_block_count (sh_metrics sh));
  report_skipped_already_present_block_count :=
    when (is_read_before_write mode) (skipped_already_present_block_count (sh_metrics sh));
  report_attempted_write_block_count := when (is_blind_write mode) (attempted_write_block_count (sh_metrics sh));
  report_failed_block_count := count_failed_blocks (failures (sh_tracker sh));
  report_failures := failures (sh_tracker sh) |}.
End threads.
Arguments shared D : clear implicits.
Arguments system D : clear implicits.
