(* ===== verification/CopyThreadsSpec.v ===== *)
(** * The multi-worker copy: coordination

    Invariants of the two queues under every interleaving of the threads: the
    counters are exact, the writes in flight respect the limits, a compaction
    never runs beside a write, no thread waits for something that has already
    happened, and so the driver cannot deadlock. *)

From Stdlib Require Import ZArith Lia Ascii.
From stdpp Require Import base gmap sets strings sorting option list.
From S2P Require Import Prelude Hex Blocks BlockCopy CopyRun CopyQueues CopyThreads.
#[local] Open Scope Z_scope.

(** ** Sums over the threads *)
Fixpoint zsum {A} (f : A → Z) (l : list A) : Z :=
  match l with [] => 0 | x :: l => f x + zsum f l end.

Lemma zsum_insert {A} (f : A → Z) l i x y : l !! i = Some x → zsum f (<[i := y]> l) = zsum f l - f x + f y.
Proof.
  revert i. induction l as [|z l IH]; intros [|i] Hi; try done; cbn in *.
  - injection Hi as ->. lia.
  - specialize (IH i Hi). change (f z + zsum f (<[i := y]> l) = f z + zsum f l - f x + f y). lia.
Qed.
Lemma zsum_fmap {A} (f : A → Z) (g : A → A) l : (∀ x, f (g x) = f x) → zsum f (g <$> l) = zsum f l.
Proof. intros Hg. induction l as [|x l IH]; [done|]. cbn. rewrite Hg. by f_equal. Qed.
Lemma zsum_replicate {A} (f : A → Z) n x : f x = 0 → zsum f (replicate n x) = 0.
Proof. intros Hf. induction n; cbn; lia. Qed.
Lemma zsum_nonneg {A} (f : A → Z) l : (∀ x, 0 ≤ f x) → 0 ≤ zsum f l.
Proof. intros Hf. induction l as [|x l IH]; cbn; [lia|]. specialize (Hf x). lia. Qed.
Lemma zsum_ge {A} (f : A → Z) l i x : (∀ x, 0 ≤ f x) → l !! i = Some x → f x ≤ zsum f l.
Proof.
  intros Hf. revert i. induction l as [|z l IH]; intros [|i] Hi; try done; cbn in *.
  - injection Hi as ->. pose proof (zsum_nonneg f l Hf). lia.
  - specialize (IH i Hi). specialize (Hf z). lia.
Qed.
Lemma zsum_pos_ex {A} (f : A → Z) l : 0 < zsum f l → ∃ i x, l !! i = Some x ∧ 0 < f x.
Proof.
  induction l as [|x l IH]; cbn; intros Hs; [lia|].
  destruct (decide (0 < f x)); [by exists 0%nat, x|].
  destruct IH as (i&y&?&?); [lia|]. by exists (S i), y.
Qed.

Lemma elem_of_insert {A} (l : list A) i x y : y ∈ <[i := x]> l → y = x ∨ y ∈ l.
Proof.
  intros (j&Hj)%list_elem_of_lookup_1. apply list_lookup_insert_Some in Hj as [(->&->&_)|(_&Hj)]; [by left|right].
  by apply list_elem_of_lookup_2 in Hj.
Qed.

(** ** The work queue *)
Definition busy (pc : traversal_pc) : Z :=
  match pc with TPop | TPopWaiting | TExit => 0 | _ => 1 end.
Lemma busy_nonneg pc : 0 ≤ busy pc.
Proof. by destruct pc. Qed.
Lemma busy_wake wk pc : busy (wake_traversal wk pc) = busy pc.
Proof. by destruct wk, pc. Qed.

Record work_ok (stop : bool) (w : ThreadedWorkQueueState) (ts : list traversal_pc) : Prop := {
  wo_active : active_workers w = zsum busy ts;
  wo_exited : TExit ∈ ts → work_shutdown w = true;
  wo_shut : work_shutdown w = true → stop = true ∨ active_workers w = 0 ∧ work_items w = []
}.
Definition popping_ok (w : ThreadedWorkQueueState) (ts : list traversal_pc) : Prop :=
  TPopWaiting ∈ ts → work_items w = [] ∧ 0 < active_workers w ∧ work_shutdown w = false.

Lemma work_ok_stop stop stop' w ts : (stop = true → stop' = true) → work_ok stop w ts → work_ok stop' w ts.
Proof. intros Hs [? ? Hsh]. split; try done. intros Hw. destruct (Hsh Hw); auto. Qed.

(** Replacing a program counter: what must hold of the new one. *)
Lemma work_ok_insert stop w w' ts i pc pc' :
  work_ok stop w ts → ts !! i = Some pc →
  active_workers w' = active_workers w - busy pc + busy pc' →
  (work_shutdown w = true → work_shutdown w' = true) →
  (pc' = TExit → work_shutdown w' = true) →
  (work_shutdown w' = true → stop = true ∨ active_workers w' = 0 ∧ work_items w' = []) →
  work_ok stop w' (<[i := pc']> ts).
Proof.
  intros [Ha He Hs] Hi Hact Hsh Hexit Hshut. split.
  - rewrite (zsum_insert _ _ _ _ _ Hi). lia.
  - intros [Heq|Hin]%elem_of_insert; [by apply Hexit|]. by apply Hsh, He.
  - done.
Qed.
Lemma work_ok_wake wk stop w ts : work_ok stop w ts → work_ok stop w (wake_traversal wk <$> ts).
Proof.
  intros [Ha He Hs]. split; [by rewrite zsum_fmap by apply (busy_wake wk)| |done].
  intros (pc&Heq&Hin)%list_elem_of_fmap. apply He. by destruct wk, pc.
Qed.
(** What a worker is busy with is counted. *)
Lemma work_ok_at stop w ts i pc : work_ok stop w ts → ts !! i = Some pc → busy pc ≤ active_workers w.
Proof. intros [-> _ _] Hi. apply (zsum_ge _ _ _ _ busy_nonneg Hi). Qed.

Lemma popping_ok_insert w w' ts i pc' : popping_ok w ts →
  work_items w' = work_items w → active_workers w ≤ active_workers w' → work_shutdown w' = work_shutdown w →
  (pc' = TPopWaiting → work_items w' = [] ∧ 0 < active_workers w' ∧ work_shutdown w' = false) →
  popping_ok w' (<[i := pc']> ts).
Proof.
  intros Hp Hi Ha Hs Hpc [Heq|Hin]%elem_of_insert; [by apply Hpc|].
  destruct (Hp Hin) as (?&?&?). rewrite Hi, Hs. split_and!; (done || lia).
Qed.
Lemma popping_ok_wake wk w ts : popping_ok w ts → popping_ok w (wake_traversal wk <$> ts).
Proof. intros Hp (pc&Heq&Hin)%list_elem_of_fmap. apply Hp. by destruct wk, pc. Qed.
(** A notification of the work queue wakes every waiting worker. *)
Lemma popping_ok_all w ts : popping_ok w (wake_traversal WakeWork <$> ts).
Proof. intros (pc&Heq&Hin)%list_elem_of_fmap. by destruct pc. Qed.

(** ** The write queue *)
Definition in_hand (pc : writer_pc) : Z :=
  match pc with WPublish _ n _ | WRecord _ n _ => Z.max n 0 | _ => 0 end.
Definition bytes_in_hand (pc : writer_pc) : Z :=
  match pc with WPublish _ _ total | WRecord _ _ total => Z.max total 0 | _ => 0 end.
Definition checkpointing (pc : writer_pc) : Z :=
  match pc with WCheckpoint | WCheckpointDone | WCheckpointFailed _ | WCheckpointStop | WCheckpointFail => 1 | _ => 0 end.
Definition jobs_bytes (jobs : list ThreadedWriteJob) : Z := zsum (λ job, len (job_block_bytes job)) jobs.
Lemma jobs_bytes_nonneg jobs : 0 ≤ jobs_bytes jobs.
Proof. apply zsum_nonneg. intros job. apply len_nonneg. Qed.

(** The batch of jobs that a writer holds: it is being published, or some of its
    completions are still to be recorded. *)
Definition publication_of (jobs : list ThreadedWriteJob) (p : publication) : Prop :=
  match p with
  | Unpolled js | AwaitBatch js => js = jobs
  | AwaitSingle js cs => ∃ before, jobs = before ++ js ∧ done_block_id <$> cs = job_block_id <$> before
  end.
Definition holds (jobs : list ThreadedWriteJob) (pc : writer_pc) : Prop :=
  match pc with
  | WPublish p n total => n = len jobs ∧ total = jobs_bytes jobs ∧ publication_of jobs p
  | WRecord cs n total => n = len jobs ∧ total = jobs_bytes jobs ∧ (done_block_id <$> cs) `suffix_of` (job_block_id <$> jobs)
  | _ => jobs = []
  end.
Definition sane (pc : writer_pc) : Prop :=
  match pc with WPublish _ _ _ | WRecord _ _ _ => ∃ jobs, holds jobs pc | WPanicked => False | _ => True end.

Lemma sane_holds pc : sane pc → ∃ jobs, holds jobs pc ∧ in_hand pc = len jobs ∧ bytes_in_hand pc = jobs_bytes jobs.
Proof.
  assert (∀ jobs n total, n = len jobs → total = jobs_bytes jobs → Z.max n 0 = len jobs ∧ Z.max total 0 = jobs_bytes jobs) as Hmax.
  { intros jobs n total -> ->. pose proof (len_nonneg jobs). pose proof (jobs_bytes_nonneg jobs). lia. }
  destruct pc; intros Hs; try (by exists []); destruct Hs as (jobs&Hn&Ht&Hp); exists jobs; (split; [done|]); by apply Hmax.
Qed.
Lemma sane_counts pc : sane pc → match pc with WPublish _ n total | WRecord _ n total => 0 ≤ n ∧ 0 ≤ total | _ => True end.
Proof.
  destruct pc; intros Hs; try done; destruct Hs as (jobs&->&->&_); (split; [apply len_nonneg|apply jobs_bytes_nonneg]).
Qed.

(** A poll of a publication goes on with the same jobs, and ends with a
    completion for each of them. *)
Lemma publish_same {D} `{ByteStore D} jobs p c (d : D) : publication_of jobs p →
  match (publish_step p c d).2 with
  | inl p' => publication_of jobs p'
  | inr cs => done_block_id <$> cs = job_block_id <$> jobs
  end.
Proof.
  assert (∀ js cs before, jobs = before ++ js → done_block_id <$> cs = job_block_id <$> before →
    match one_by_one js cs with inl p' => publication_of jobs p' | inr cs => done_block_id <$> cs = job_block_id <$> jobs end) as Hone.
  { intros js cs before -> Hcs. unfold one_by_one. destruct js; [by rewrite app_nil_r|by exists before]. }
  destruct p as [js|js|[|job js] cs]; cbn [publication_of publish_step].
  - intros ->. destruct (_ && _); cbn; [by apply (Hone _ _ [])|done].
  - intros ->. destruct (put_block_bytes_batch _ d) as [d' [u|e]]; cbn; [by rewrite <-list_fmap_compose|].
    destruct (is_unsupported_batch_write_error e); cbn; [by apply (Hone _ _ [])|by rewrite <-list_fmap_compose].
  - intros (before&->&Hcs). cbn. by rewrite app_nil_r.
  - intros (before&->&Hcs). destruct (put_block_bytes _ _ d) as [d' r]. cbn. apply (Hone _ _ (before ++ [job])).
    + by rewrite <-app_assoc.
    + by rewrite !fmap_app, Hcs.
Qed.

Lemma in_hand_nonneg pc : 0 ≤ in_hand pc.
Proof. destruct pc; cbn; lia. Qed.
Lemma bytes_in_hand_nonneg pc : 0 ≤ bytes_in_hand pc.
Proof. destruct pc; cbn; lia. Qed.
Lemma checkpointing_nonneg pc : 0 ≤ checkpointing pc.
Proof. destruct pc; cbn; lia. Qed.

(** The counters are what the writers hold. *)
Record writers_ok (w : ThreadedWriteState) (ws : list writer_pc) : Prop := {
  ro_active : active_writes w = zsum in_hand ws;
  ro_bytes : active_write_bytes w = zsum bytes_in_hand ws;
  ro_checkpoint : (if checkpoint_running w then 1 else 0) = zsum checkpointing ws;
  ro_sane : Forall sane ws
}.

Lemma writers_ok_insert w w' ws i pc pc' : writers_ok w ws → ws !! i = Some pc → sane pc' →
  active_writes w' = active_writes w - in_hand pc + in_hand pc' →
  active_write_bytes w' = active_write_bytes w - bytes_in_hand pc + bytes_in_hand pc' →
  (if checkpoint_running w' then 1 else 0) = (if checkpoint_running w then 1 else 0) - checkpointing pc + checkpointing pc' →
  writers_ok w' (<[i := pc']> ws).
Proof.
  intros [Ha Hb Hc Hs] Hi Hsane ? ? ?. split; try (rewrite (zsum_insert _ _ _ _ _ Hi); lia). by apply Forall_insert.
Qed.
Lemma writers_ok_wake wk w ws : writers_ok w ws → writers_ok w (wake_writer wk <$> ws).
Proof.
  intros [Ha Hb Hc Hs]. split; rewrite ?zsum_fmap; try done; try (by intros []; destruct wk).
  apply Forall_fmap. eapply Forall_impl; [exact Hs|]. intros []; destruct wk; done.
Qed.
Lemma writers_ok_state w w' ws : writers_ok w ws → active_writes w' = active_writes w →
  active_write_bytes w' = active_write_bytes w → checkpoint_running w' = checkpoint_running w → writers_ok w' ws.
Proof. intros [? ? ? ?] Ha Hb Hc. split; by rewrite ?Ha, ?Hb, ?Hc. Qed.

(** What a writer holds is counted. *)
Lemma writers_ok_at w ws i pc : writers_ok w ws → ws !! i = Some pc →
  sane pc ∧ in_hand pc ≤ active_writes w ∧ bytes_in_hand pc ≤ active_write_bytes w
  ∧ (checkpointing pc = 1 → checkpoint_running w = true).
Proof.
  intros [Ha Hb Hc Hs] Hi. split_and!.
  - by apply (Forall_lookup_1 _ _ _ _ Hs Hi).
  - rewrite Ha. apply (zsum_ge _ _ _ _ in_hand_nonneg Hi).
  - rewrite Hb. apply (zsum_ge _ _ _ _ bytes_in_hand_nonneg Hi).
  - intros Hcp. pose proof (zsum_ge _ _ _ _ checkpointing_nonneg Hi). destruct (checkpoint_running w); [done|lia].
Qed.
Lemma writers_ok_nonneg w ws : writers_ok w ws → 0 ≤ active_writes w ∧ 0 ≤ active_write_bytes w.
Proof.
  intros [Ha Hb Hc Hs]. rewrite Ha, Hb.
  split; apply zsum_nonneg; [apply in_hand_nonneg|apply bytes_in_hand_nonneg].
Qed.

Lemma zsum_app {A} (f : A → Z) l k : zsum f (l ++ k) = zsum f l + zsum f k.
Proof. induction l as [|x l IH]; cbn; [done|]. change (zsum f (l ++ k)) with (zsum f (l ++ k)). lia. Qed.

(** [fill_batch] splits the queue; the counters follow the jobs. *)
Lemma fill_batch_spec max_bytes target jobs total queued queue :
  total = jobs_bytes jobs → queued = jobs_bytes queue →
  let '(jobs', total', queued', queue') := fill_batch max_bytes target jobs total queued queue in
  jobs' ++ queue' = jobs ++ queue ∧ total' = jobs_bytes jobs' ∧ queued' = jobs_bytes queue'
  ∧ (len jobs ≤ target → len jobs' ≤ target) ∧ len jobs ≤ len jobs'.
Proof.
  revert jobs total queued. induction queue as [|job queue IH]; intros jobs total queued Ht Hq; cbn [fill_batch];
    [split_and!; (done || lia)|].
  destruct (len jobs <? target) eqn:Hlt; cbn [negb]; [|split_and!; (done || lia)]. apply Z.ltb_lt in Hlt.
  destruct (_ && _ && _); [split_and!; (done || lia)|].
  pose proof (jobs_bytes_nonneg queue) as Hnn.
  assert (jobs_bytes (jobs ++ [job]) = jobs_bytes jobs + len (job_block_bytes job)) as Hjb.
  { unfold jobs_bytes. rewrite zsum_app. cbn. lia. }
  specialize (IH (jobs ++ [job]) (total + len (job_block_bytes job)) (saturating_sub queued (len (job_block_bytes job)))).
  destruct (fill_batch _ _ _ _ _ queue) as [[[jobs' total'] queued'] queue'].
  destruct IH as (Happ&?&?&Hlen&Hge).
  - rewrite Hjb. lia.
  - subst queued. unfold jobs_bytes in *. cbn. unfold saturating_sub. lia.
  - rewrite len_app in Hlen, Hge. change (len [job]) with 1 in Hlen, Hge.
    split_and!; [by rewrite Happ, <-app_assoc|done|done|lia|lia].
Qed.

Section coordination.
Context {D : Type} `{ByteStore D} `{Ciborium} `{DecodeBlock} `{HashDisplay} `{HashSetOrder}.
Context (source : block_hash → result string (option bytes)).
Context (mode : CopyDestinationMode) (config : CopyExecutionConfig D) (root_ids : list block_hash).

Abbreviation limit := (effective_write_limit config).
Abbreviation max_bytes := (max_in_flight_destination_write_bytes config).
Abbreviation t_step := (traversal_step source mode config).
Abbreviation w_step := (writer_step config root_ids).

Lemma limit_positive : 1 ≤ limit.
Proof. unfold effective_write_limit. lia. Qed.

(** The queue itself: exact bytes, the limits, and no write beside a compaction. *)
Record queue_ok (w : ThreadedWriteState) : Prop := {
  qo_queued : queued_write_bytes w = jobs_bytes (write_jobs w);
  qo_quiet : checkpoint_running w = true → write_jobs w = [] ∧ active_writes w = 0;
  qo_configured : checkpoint_pending w || checkpoint_running w = true → blind_write_checkpoint config ≠ None;
  qo_count : limit < usize_max → len (write_jobs w) + active_writes w ≤ limit;
  qo_size : 0 < max_bytes < usize_max →
    queued_write_bytes w + active_write_bytes w ≤ max_bytes ∨ len (write_jobs w) + active_writes w ≤ 1
}.

(** Nobody waits for what has happened already. *)
Record waiting_ok (w : ThreadedWriteState) (ts : list traversal_pc) (ws : list writer_pc) : Prop := {
  ao_enqueue job : TEnqueueWaiting job ∈ ts →
    write_shutdown w = false
    ∧ (checkpoint_pending w || checkpoint_running w = true ∨ 1 ≤ len (write_jobs w) + active_writes w);
  ao_next : WWaiting ∈ ws → 0 < active_writes w ∨ write_jobs w = []
    ∧ (checkpoint_running w = true ∨ checkpoint_pending w = false ∧ producers_finished w = false ∧ write_shutdown w = false)
}.

(** What has ended, and what is left then. *)
Record ended_ok (stop : bool) (w : ThreadedWriteState) (ts : list traversal_pc) (ws : list writer_pc) (m : main_pc) : Prop := {
  eo_exited : WExit ∈ ws → write_shutdown w = true;
  eo_joined : m ≠ MJoinTraversal → Forall (TExit =.) ts;
  eo_stopped b : m = MFinish b → b = true → stop = true;
  eo_finishing : m ≠ MJoinTraversal → (∀ b, m ≠ MFinish b) → producers_finished w = true;
  eo_finished : producers_finished w = true → stop = false → m ≠ MJoinTraversal ∧ ∀ b, m ≠ MFinish b;
  eo_shut : write_shutdown w = true → stop = false →
    producers_finished w = true ∧ write_jobs w = [] ∧ active_writes w = 0 ∧ checkpoint_running w = false
    ∧ checkpoint_pending w = false;
  eo_failing : WCheckpointFail ∈ ws → stop = true
}.

Record coordinated (y : system D) : Prop := {
  co_work : work_ok (sh_stop (state y)) (sh_work (state y)) (traversals y);
  co_popping : popping_ok (sh_work (state y)) (traversals y);
  co_writers : writers_ok (sh_writes (state y)) (writers y);
  co_queue : queue_ok (sh_writes (state y));
  co_waiting : waiting_ok (sh_writes (state y)) (traversals y) (writers y);
  co_ended : ended_ok (sh_stop (state y)) (sh_writes (state y)) (traversals y) (writers y) (main y);
  co_done : main y = MDone → sh_stop (state y) = true;
  co_interrupted : interrupter y ≠ IPolling → interrupter y ≠ IStop → sh_stop (state y) = true;
  co_traversals : traversals y ≠ [];
  co_threads : writers y ≠ []
}.

(** ** Attempts on the write queue *)
Lemma sat_le a b m : saturating_add a b ≤ m → m < usize_max → a + b ≤ m.
Proof. unfold saturating_add. lia. Qed.

Lemma counted_configured n : counted_interval (interval <$> blind_write_checkpoint config) mode = Some n →
  blind_write_checkpoint config ≠ None.
Proof. unfold counted_interval. destruct (blind_write_checkpoint config); cbn; [done|]. by case_match. Qed.

Lemma enqueue_attempt_spec job stop w : 0 ≤ active_writes w → queue_ok w →
  let '(w', outcome) := enqueue_attempt limit max_bytes (interval <$> blind_write_checkpoint config) job mode stop w in
  match outcome with
  | Enqueued => stop = false ∧ write_shutdown w = false ∧ checkpoint_running w = false ∧ checkpoint_running w' = false
      ∧ write_jobs w' = write_jobs w ++ [job] ∧ active_writes w' = active_writes w
      ∧ active_write_bytes w' = active_write_bytes w ∧ write_shutdown w' = false
      ∧ producers_finished w' = producers_finished w ∧ queue_ok w'
  | Refused => w' = w
  | EnqueueWait => w' = w ∧ write_shutdown w = false
      ∧ (checkpoint_pending w || checkpoint_running w = true ∨ 1 ≤ len (write_jobs w) + active_writes w)
  end.
Proof.
  intros Hnn [Hq Hquiet Hconf Hc Hs]. unfold enqueue_attempt.
  destruct (write_shutdown w || stop) eqn:Hsd; [done|]. apply orb_false_iff in Hsd as [Hsd ->].
  pose proof (len_nonneg (write_jobs w)) as Hlen. pose proof limit_positive.
  destruct (checkpoint_pending w || checkpoint_running w || write_limit_reached limit w
    || byte_limit_reached max_bytes (len (job_block_bytes job)) w) eqn:Hcond.
  - split_and!; [done..|]. apply orb_true_iff in Hcond as [Hcond|Hb]; [apply orb_true_iff in Hcond as [Hcond|Hl]|].
    + by left.
    + right. unfold write_limit_reached, saturating_add in Hl. apply Z.leb_le in Hl. lia.
    + right. unfold byte_limit_reached, saturating_add in Hb. rewrite !andb_true_iff, !Z.ltb_lt in Hb. lia.
  - apply orb_false_iff in Hcond as [Hcond Hb]. apply orb_false_iff in Hcond as [Hcond Hl].
    apply orb_false_iff in Hcond as [Hp Hr].
    split_and!; try done. split; cbn [write_jobs queued_write_bytes active_writes active_write_bytes checkpoint_running checkpoint_pending].
    + rewrite Hq. unfold jobs_bytes. rewrite zsum_app. cbn. lia.
    + by rewrite Hr.
    + rewrite Hr, orb_false_r. intros Hpend. destruct (counted_interval _ _) eqn:Hci; [by eapply counted_configured|congruence].
    + intros Hlim. rewrite len_app. change (len [job]) with 1. unfold write_limit_reached, saturating_add in Hl.
      apply Z.leb_gt in Hl. lia.
    + intros Hmax. rewrite len_app. change (len [job]) with 1. unfold byte_limit_reached, saturating_add in Hb.
      assert (0 < usize_max) by done. pose proof (len_nonneg (job_block_bytes job)). apply andb_false_iff in Hb as [[Hb|Hb]%andb_false_iff|Hb]; apply Z.ltb_ge in Hb; lia.
Qed.

Lemma next_attempt_spec stop capability w : 0 ≤ active_writes w → queue_ok w →
  let '(w', _, outcome) := next_attempt limit max_bytes stop capability w in
  queue_ok w' ∧
  match outcome with
  | WriteBatch jobs total => 1 ≤ len jobs ∧ 0 ≤ total ∧ total = jobs_bytes jobs ∧ jobs ++ write_jobs w' = write_jobs w
      ∧ active_writes w' = active_writes w + len jobs ∧ active_write_bytes w' = active_write_bytes w + total
      ∧ checkpoint_running w' = checkpoint_running w ∧ checkpoint_pending w' = checkpoint_pending w
      ∧ write_shutdown w' = write_shutdown w ∧ producers_finished w' = producers_finished w
      ∧ (len jobs ≤ limit ∨ len jobs ≤ 2)
  | RunCheckpoint => write_jobs w = [] ∧ write_jobs w' = [] ∧ active_writes w = 0 ∧ active_writes w' = 0
      ∧ active_write_bytes w' = active_write_bytes w ∧ checkpoint_running w = false ∧ checkpoint_running w' = true
      ∧ write_shutdown w' = write_shutdown w ∧ producers_finished w' = producers_finished w
      ∧ checkpoint_pending w = true ∧ checkpoint_pending w' = false
  | NextShutdown => write_jobs w = [] ∧ write_jobs w' = [] ∧ active_writes w' = 0 ∧ active_writes w = 0
      ∧ active_write_bytes w' = active_write_bytes w ∧ checkpoint_running w = false ∧ checkpoint_running w' = false
      ∧ checkpoint_pending w' = false
      ∧ write_shutdown w' = true ∧ producers_finished w' = producers_finished w
      ∧ (producers_finished w || write_shutdown w || stop = true)
  | NextWait => w' = w ∧ (0 < active_writes w ∨ write_jobs w = []
      ∧ (checkpoint_running w = true
         ∨ checkpoint_pending w = false ∧ producers_finished w = false ∧ write_shutdown w = false))
  end.
Proof.
  intros Hnn Hok. pose proof Hok as [Hq Hquiet Hconf Hc Hs]. unfold next_attempt.
  destruct (_ && (0 <? active_writes w)) eqn:Hguard.
  { apply andb_true_iff in Hguard as [_ Hg%Z.ltb_lt]. auto. }
  assert ((target_batch limit capability w).2 ≤ limit ∨ (target_batch limit capability w).2 ≤ 2) as Htarget.
  { pose proof limit_positive. unfold target_batch. repeat case_match; cbn; lia. }
  assert (1 ≤ (target_batch limit capability w).2) as Htpos.
  { unfold target_batch. repeat case_match; cbn; lia. }
  destruct (target_batch limit capability w) as [c target]. cbn [snd] in *.
  destruct (write_jobs w) as [|first_job rest] eqn:Hjobs.
  - destruct (checkpoint_pending w && negb (checkpoint_running w) && (active_writes w =? 0)) eqn:Hck.
    { rewrite !andb_true_iff, negb_true_iff, Z.eqb_eq in Hck. destruct Hck as [[Hp Hr] Ha]. split.
      - split; cbn [write_jobs queued_write_bytes active_writes active_write_bytes checkpoint_running checkpoint_pending];
          try done.
        intros _. apply Hconf. by rewrite Hp.
      - by split_and!. }
    destruct ((producers_finished w || write_shutdown w || stop) && (active_writes w =? 0) && negb (checkpoint_running w)) eqn:Hsh.
    { rewrite !andb_true_iff, negb_true_iff, Z.eqb_eq in Hsh. destruct Hsh as [[Hx Ha] Hr].
      rewrite Ha, Hr in Hck. cbn in Hck. rewrite andb_true_r in Hck. rewrite andb_true_r in Hck. split.
      - split; done.
      - by split_and!. }
    split; [done|]. split; [done|].
    destruct (active_writes w =? 0) eqn:Ha; [right|left; apply Z.eqb_neq in Ha; lia].
    split; [done|]. destruct (checkpoint_running w); [by left|right]. cbn in *.
    rewrite !andb_true_r in Hck, Hsh. apply orb_false_iff in Hsh as [Hsh _]. by apply orb_false_iff in Hsh as [-> ->].
  - assert (checkpoint_running w = false) as Hrun.
    { destruct (checkpoint_running w); [|done]. by destruct (Hquiet eq_refl). }
    pose proof (fill_batch_spec max_bytes target [first_job] (len (job_block_bytes first_job))
      (saturating_sub (queued_write_bytes w) (len (job_block_bytes first_job))) rest) as Hfill.
    destruct (fill_batch _ _ _ _ _ rest) as [[[jobs total] queued] rest'].
    destruct Hfill as (Happ&Ht&Hqu&Hlt&Hge).
    { unfold jobs_bytes. cbn. lia. }
    { rewrite Hq. unfold jobs_bytes. cbn. unfold saturating_sub. pose proof (jobs_bytes_nonneg rest). unfold jobs_bytes in *. lia. }
    assert (len (first_job :: rest) = len jobs + len rest') as Hlens by (rewrite <-len_app, Happ; done).
    assert (jobs_bytes (first_job :: rest) = jobs_bytes jobs + jobs_bytes rest') as Hbs.
    { unfold jobs_bytes. rewrite <-zsum_app, Happ. done. }
    change (len [first_job]) with 1 in *. pose proof (jobs_bytes_nonneg jobs).
    split.
    + split; cbn [write_jobs queued_write_bytes active_writes active_write_bytes checkpoint_running checkpoint_pending].
      * done.
      * congruence.
      * done.
      * intros Hl. specialize (Hc Hl). lia.
      * intros Hl. destruct (Hs Hl); [left|right]; lia.
    + split_and!; try done; cbn; try lia.
Qed.

(** ** Notifications *)
Lemma waiting_ok_wake wk w ts ws : waiting_ok w ts ws → waiting_ok w (wake_traversal wk <$> ts) (wake_writer wk <$> ws).
Proof.
  intros [He Hn]. split.
  - intros job (pc&Heq&Hin)%list_elem_of_fmap. apply (He job). by destruct wk, pc; simplify_eq/=.
  - intros (pc&Heq&Hin)%list_elem_of_fmap. apply Hn. by destruct wk, pc.
Qed.
Lemma waiting_ok_all w ts ws : waiting_ok w (wake_traversal WakeWrite <$> ts) (wake_writer WakeWrite <$> ws).
Proof.
  split.
  - intros job (pc&Heq&Hin)%list_elem_of_fmap. by destruct pc.
  - intros (pc&Heq&Hin)%list_elem_of_fmap. by destruct pc.
Qed.
Lemma ended_ok_wake wk stop w ts ws m : ended_ok stop w ts ws m →
  ended_ok stop w (wake_traversal wk <$> ts) (wake_writer wk <$> ws) m.
Proof.
  intros [He Hj Hst Hfi Hf Hs Hc]. split; try done.
  - intros (pc&Heq&Hin)%list_elem_of_fmap. apply He. by destruct wk, pc.
  - intros Hm. apply Forall_fmap. eapply Forall_impl; [exact (Hj Hm)|]. intros pc <-. by destruct wk.
  - intros (pc&Heq&Hin)%list_elem_of_fmap. apply Hc. by destruct wk, pc.
Qed.

(** A step notifies whom its change of the state could concern. *)
Lemma coordinated_woken wk y :
  work_ok (sh_stop (state y)) (sh_work (state y)) (traversals y) →
  (wk ≠ WakeWork → popping_ok (sh_work (state y)) (traversals y)) →
  writers_ok (sh_writes (state y)) (writers y) → queue_ok (sh_writes (state y)) →
  (wk ≠ WakeWrite → waiting_ok (sh_writes (state y)) (traversals y) (writers y)) →
  ended_ok (sh_stop (state y)) (sh_writes (state y)) (traversals y) (writers y) (main y) →
  (main y = MDone → sh_stop (state y) = true) →
  (interrupter y ≠ IPolling → interrupter y ≠ IStop → sh_stop (state y) = true) →
  traversals y ≠ [] → writers y ≠ [] → coordinated (woken wk y).
Proof.
  intros Hw Hp Hwr Hq Hwait He Hd Hi Ht Hws. split; cbn [woken state traversals writers main interrupter]; try done.
  - by apply work_ok_wake.
  - destruct wk; [by apply popping_ok_wake, Hp|apply popping_ok_all|by apply popping_ok_wake, Hp].
  - by apply writers_ok_wake.
  - destruct wk; [by apply waiting_ok_wake, Hwait|by apply waiting_ok_wake, Hwait|apply waiting_ok_all].
  - by apply ended_ok_wake.
  - by intros ?%fmap_nil_inv.
  - by intros ?%fmap_nil_inv.
Qed.

(** ** The steps of the traversal workers *)
Definition touches_queue (pc : traversal_pc) : Prop :=
  match pc with TPop | TPushChildren _ _ _ _ | TEnqueue _ | TFinish => True | _ => False end.

Lemma busy_arm_of b x : busy (arm_of mode b x) = 1 ∧ ∀ job, arm_of mode b x ≠ TEnqueueWaiting job.
Proof. unfold arm_of. by destruct mode. Qed.

Lemma traversal_step_quiet pc sh sh' pc' wk : t_step pc sh = Some (sh', pc', wk) → ¬ touches_queue pc →
  sh_work sh' = sh_work sh ∧ sh_writes sh' = sh_writes sh ∧ sh_stop sh' = sh_stop sh ∧ wk = Nobody
  ∧ busy pc = 1 ∧ busy pc' = 1 ∧ ∀ job, pc' ≠ TEnqueueWaiting job.
Proof.
  intros Hs Hq. destruct pc; cbn in Hs, Hq; try done.
  - by simplify_eq.
  - case_decide; by simplify_eq.
  - unfold read_step in Hs. repeat case_match; by simplify_eq.
  - by simplify_eq.
  - unfold decode_step in Hs. case_match. by simplify_eq.
  - unfold children_step in Hs. destruct (busy_arm_of block_id block_bytes) as [? ?]. case_match; by simplify_eq.
  - case_match; by simplify_eq.
  - unfold get_step in Hs. repeat case_match; by simplify_eq.
  - by simplify_eq.
  - by simplify_eq.
  - by simplify_eq.
Qed.

(** A worker that steps has not exited: the main thread still waits for it. *)
Lemma ended_traversal stop w ts ws m i pc sh r : ended_ok stop w ts ws m → ts !! i = Some pc →
  t_step pc sh = Some r → m = MJoinTraversal.
Proof.
  intros He Hi Hs. assert (¬ m ≠ MJoinTraversal) as Hm; [|destruct m; [done|by destruct Hm..]].
  intros Hm. pose proof (eo_joined _ _ _ _ _ He Hm) as Hall.
  pose proof (Forall_lookup_1 _ _ _ _ Hall Hi) as <-. done.
Qed.
Lemma ended_ok_joining stop w ts ts' ws m : ended_ok stop w ts ws m → m = MJoinTraversal → ended_ok stop w ts' ws m.
Proof. intros [? ? ? ? ? ? ?] Hm. by split. Qed.

Lemma waiting_ok_traversal w ts ws i pc' : waiting_ok w ts ws →
  (∀ job, pc' = TEnqueueWaiting job → write_shutdown w = false
    ∧ (checkpoint_pending w || checkpoint_running w = true ∨ 1 ≤ len (write_jobs w) + active_writes w)) →
  waiting_ok w (<[i := pc']> ts) ws.
Proof. intros [He Hn] Hpc. split; [|done]. intros job [Heq|Hin]%elem_of_insert; [by apply (Hpc job)|by apply (He job)]. Qed.

Lemma insert_ne_nil {A} (l : list A) i x : l ≠ [] → <[i := x]> l ≠ [].
Proof. destruct l, i; done. Qed.

Lemma pop_attempt_spec stop w : 0 ≤ active_workers w → (work_shutdown w = true → stop = true ∨ active_workers w = 0 ∧ work_items w = []) →
  let '(w', outcome) := pop_attempt stop w in
  match outcome with
  | Popped r b => work_items w = (r, b) :: work_items w' ∧ active_workers w' = active_workers w + 1
      ∧ work_shutdown w = false ∧ work_shutdown w' = false ∧ stop = false
  | PopExit => w' = shut_work w ∧ (stop = true ∨ active_workers w = 0 ∧ work_items w = [])
  | PopWait => w' = w ∧ work_items w = [] ∧ 0 < active_workers w ∧ work_shutdown w = false
  end.
Proof.
  intros Hnn Hshut. unfold pop_attempt. destruct (work_shutdown w) eqn:Hs; cbn [orb]; [by split; auto|].
  destruct stop; [by split; auto|]. destruct (work_items w) as [|[r b] items].
  - destruct (Z.eqb_spec (active_workers w) 0); split; auto. split_and!; (done || lia).
  - by split_and!.
Qed.

(** A step that leaves the write queue alone. *)
Lemma coordinated_working y i pc sh pc' wk : coordinated y → traversals y !! i = Some pc → main y = MJoinTraversal →
  sh_writes sh = sh_writes (state y) → sh_stop sh = sh_stop (state y) → (∀ job, pc' ≠ TEnqueueWaiting job) →
  active_workers (sh_work sh) = active_workers (sh_work (state y)) - busy pc + busy pc' →
  (work_shutdown (sh_work (state y)) = true → work_shutdown (sh_work sh) = true) →
  (pc' = TExit → work_shutdown (sh_work sh) = true) →
  (work_shutdown (sh_work sh) = true → sh_stop sh = true ∨ active_workers (sh_work sh) = 0 ∧ work_items (sh_work sh) = []) →
  (wk ≠ WakeWork → popping_ok (sh_work sh) (<[i := pc']> (traversals y))) →
  coordinated (woken wk {| state := sh; traversals := <[i := pc']> (traversals y); writers := writers y;
                           main := main y; interrupter := interrupter y |}).
Proof.
  intros [Hw Hp Hwr Hq Hwait He Hd Hi Ht Hws] Hpc Hm Hsw Hst Hne Ha Hsh Hex Hshut Hpop.
  apply coordinated_woken; cbn [state traversals writers main interrupter]; rewrite ?Hsw, ?Hst; try done.
  - rewrite Hst in Hshut. by eapply work_ok_insert.
  - intros _. apply waiting_ok_traversal; [done|]. intros job ->. by destruct (Hne job).
  - by eapply ended_ok_joining.
  - by apply insert_ne_nil.
Qed.

Lemma coordinated_pop y i : coordinated y → traversals y !! i = Some TPop → main y = MJoinTraversal →
  let '(sh, pc', wk) := pop_step (state y) in
  coordinated (woken wk {| state := sh; traversals := <[i := pc']> (traversals y); writers := writers y;
                           main := main y; interrupter := interrupter y |}).
Proof.
  intros Hc Hpc Hm. pose proof (co_work _ Hc) as Hw. unfold pop_step.
  pose proof (pop_attempt_spec (sh_stop (state y)) (sh_work (state y))) as Hpop.
  destruct (pop_attempt _ _) as [w [r b| |]].
  - destruct Hpop as (Hitems&Ha&Hs&Hs'&Hstop); [rewrite (wo_active _ _ _ Hw); apply zsum_nonneg, busy_nonneg|apply (wo_shut _ _ _ Hw)|].
    eapply coordinated_working; try done; cbn [sh_work with_work busy]; try (lia || congruence).
    intros _ [?|Hin]%elem_of_insert; [done|]. destruct (co_popping _ Hc Hin) as (?&_). congruence.
  - destruct Hpop as (->&Hcase); [rewrite (wo_active _ _ _ Hw); apply zsum_nonneg, busy_nonneg|apply (wo_shut _ _ _ Hw)|].
    eapply coordinated_working; try done; cbn [sh_work with_work shut_work active_workers busy]; try lia.
  - destruct Hpop as (->&Hitems&Ha&Hs); [rewrite (wo_active _ _ _ Hw); apply zsum_nonneg, busy_nonneg|apply (wo_shut _ _ _ Hw)|].
    eapply coordinated_working; try done; cbn [sh_work with_work busy]; try (lia || congruence).
Qed.

Lemma coordinated_push y i r b x cs : coordinated y → traversals y !! i = Some (TPushChildren r b x cs) →
  main y = MJoinTraversal → let '(sh, pc', wk) := push_step mode r b x cs (state y) in
  coordinated (woken wk {| state := sh; traversals := <[i := pc']> (traversals y); writers := writers y;
                           main := main y; interrupter := interrupter y |}).
Proof.
  intros Hc Hpc Hm. pose proof (co_work _ Hc) as Hw. pose proof (work_ok_at _ _ _ _ _ Hw Hpc) as Hb. cbn in Hb.
  unfold push_step. destruct (push_children r cs (sh_work (state y))) as [w notified] eqn:Henq.
  assert (active_workers w = active_workers (sh_work (state y)) ∧ work_shutdown w = work_shutdown (sh_work (state y))
    ∧ (work_shutdown w = true → w = sh_work (state y)) ∧ (notified = false → w = sh_work (state y))) as (Ha&Hs&Hsh&Hn).
  { unfold push_children in Henq. destruct (work_shutdown (sh_work (state y))) eqn:Hsd; simplify_eq; split_and!; (done || by intros). }
  destruct (busy_arm_of b x) as [Hb' Hne].
  eapply coordinated_working; try done; cbn [sh_work with_work].
  - cbn. lia.
  - by rewrite Hs.
  - intros Heq. by rewrite Heq in Hb'.
  - intros Hsd. rewrite (Hsh Hsd). apply (wo_shut _ _ _ Hw). by rewrite <-Hs.
  - destruct notified; [done|]. rewrite (Hn eq_refl). intros _. eapply popping_ok_insert; try done; [apply (co_popping _ Hc)|].
    intros Heq. by rewrite Heq in Hb'.
Qed.

Lemma coordinated_finish y i : coordinated y → traversals y !! i = Some TFinish → main y = MJoinTraversal →
  coordinated (woken WakeWork {| state := with_work (finish_item (sh_stop (state y)) (sh_work (state y))) (state y);
    traversals := <[i := TPop]> (traversals y); writers := writers y; main := main y; interrupter := interrupter y |}).
Proof.
  intros Hc Hpc Hm. pose proof (co_work _ Hc) as Hw. pose proof (work_ok_at _ _ _ _ _ Hw Hpc) as Hb. cbn in Hb.
  eapply coordinated_working; try done; cbn [sh_work sh_stop with_work finish_item active_workers work_shutdown work_items busy].
  - unfold saturating_sub. lia.
  - by intros ->.
  - intros [[Hs|Hs]%orb_true_iff|[Ha%Z.eqb_eq Hi%bool_decide_eq_true]%andb_true_iff]%orb_true_iff; [|by left|by right].
    destruct (wo_shut _ _ _ Hw Hs) as [?|[? ?]]; [by left|lia].
Qed.

Lemma coordinated_quiet y i pc sh pc' wk : coordinated y → traversals y !! i = Some pc → main y = MJoinTraversal →
  t_step pc (state y) = Some (sh, pc', wk) → ¬ touches_queue pc →
  coordinated (woken wk {| state := sh; traversals := <[i := pc']> (traversals y); writers := writers y;
                           main := main y; interrupter := interrupter y |}).
Proof.
  intros Hc Hpc Hm Hs Hq. destruct (traversal_step_quiet _ _ _ _ _ Hs Hq) as (Hsk&Hsw&Hst&->&Hb&Hb'&Hne).
  eapply coordinated_working; try done; rewrite ?Hsk, ?Hst; try done.
  - lia.
  - by intros ->.
  - apply (wo_shut _ _ _ (co_work _ Hc)).
  - intros _. eapply popping_ok_insert; try done; [apply (co_popping _ Hc)|]. by intros ->.
Qed.

Lemma coordinated_enqueue y i job : coordinated y → traversals y !! i = Some (TEnqueue job) → main y = MJoinTraversal →
  let '(sh, pc', wk) := enqueue_step mode config job (state y) in
  coordinated (woken wk {| state := sh; traversals := <[i := pc']> (traversals y); writers := writers y;
                           main := main y; interrupter := interrupter y |}).
Proof.
  intros [Hw Hp Hwr Hq Hwait He Hd Hi Ht Hws] Hpc Hm. destruct (writers_ok_nonneg _ _ Hwr) as [Hnn _].
  unfold enqueue_step. pose proof (enqueue_attempt_spec job (sh_stop (state y)) (sh_writes (state y)) Hnn Hq) as Hatt.
  destruct (enqueue_attempt _ _ _ _ _ _ _) as [w outcome].
  set (pc' := match outcome with Enqueued => match mode with BlindWrite => TAttempted | _ => TFinish end
              | Refused => TFinish | EnqueueWait => TEnqueueWaiting job end).
  assert (busy pc' = 1 ∧ pc' ≠ TExit) as [Hb Hexit] by (subst pc'; by destruct outcome, mode).
  assert (work_ok (sh_stop (state y)) (sh_work (state y)) (<[i := pc']> (traversals y))) as Hw'.
  { eapply work_ok_insert; try done; [rewrite Hb; cbn; lia|apply (wo_shut _ _ _ Hw)]. }
  assert (popping_ok (sh_work (state y)) (<[i := pc']> (traversals y))) as Hp'.
  { eapply popping_ok_insert; try done. intros ->. done. }
  assert (coordinated (woken (match outcome with Enqueued => WakeWrite | _ => Nobody end)
    {| state := with_writes w (sh_capability (state y)) (state y); traversals := <[i := pc']> (traversals y);
       writers := writers y; main := main y; interrupter := interrupter y |})) as Hgoal; [|by destruct outcome].
  apply coordinated_woken; try done; cbn [state sh_writes with_writes traversals writers main sh_stop].
  - destruct outcome; [|by subst w|by destruct Hatt as (->&_)].
    destruct Hatt as (Hstop&Hsd&Hr&Hr'&Hj&Ha&Hb'&_). eapply writers_ok_state; [done..|congruence].
  - destruct outcome; [by destruct Hatt as (_&_&_&_&_&_&_&_&_&?)|by subst w|by destruct Hatt as (->&_)].
  - intros Hwk. destruct outcome; [done|subst w; apply waiting_ok_traversal; done|].
    destruct Hatt as (->&Hcond). by apply waiting_ok_traversal.
  - destruct outcome; [|subst w; by eapply ended_ok_joining|destruct Hatt as (->&_); by eapply ended_ok_joining].
    destruct Hatt as (Hstop&Hsd&Hr&Hr'&Hj&Ha&Hb'&Hsd'&Hpf&_). destruct He as [He1 He2 He2s He2f He3 He4 He5].
    split; try done; rewrite ?Hsd', ?Hpf; try done. intros Hex. rewrite (He1 Hex) in Hsd. done.
  - by apply insert_ne_nil.
Qed.

Lemma coordinated_traversal y i pc sh pc' wk : coordinated y → traversals y !! i = Some pc →
  t_step pc (state y) = Some (sh, pc', wk) →
  coordinated (woken wk {| state := sh; traversals := <[i := pc']> (traversals y); writers := writers y;
                           main := main y; interrupter := interrupter y |}).
Proof.
  intros Hc Hpc Hs. pose proof (ended_traversal _ _ _ _ _ _ _ _ _ (co_ended _ Hc) Hpc Hs) as Hm.
  destruct pc; try (eapply coordinated_quiet; [done|done|done|exact Hs|by intros []]).
  - pose proof (coordinated_pop y i Hc Hpc Hm) as Hgoal. injection Hs as Hs. by rewrite Hs in Hgoal.
  - pose proof (coordinated_push y i _ _ _ _ Hc Hpc Hm) as Hgoal. injection Hs as Hs. by rewrite Hs in Hgoal.
  - pose proof (coordinated_enqueue y i _ Hc Hpc Hm) as Hgoal. injection Hs as Hs. by rewrite Hs in Hgoal.
  - injection Hs as <- <- <-. by apply coordinated_finish.
Qed.

(** ** The steps of the write workers *)
Lemma coordinated_writing y i pc sh pc' wk : coordinated y → writers y !! i = Some pc →
  sh_work sh = sh_work (state y) → (sh_stop (state y) = true → sh_stop sh = true) → sane pc' →
  active_writes (sh_writes sh) = active_writes (sh_writes (state y)) - in_hand pc + in_hand pc' →
  active_write_bytes (sh_writes sh) = active_write_bytes (sh_writes (state y)) - bytes_in_hand pc + bytes_in_hand pc' →
  (if checkpoint_running (sh_writes sh) then 1 else 0)
    = (if checkpoint_running (sh_writes (state y)) then 1 else 0) - checkpointing pc + checkpointing pc' →
  queue_ok (sh_writes sh) →
  (wk ≠ WakeWrite → waiting_ok (sh_writes sh) (traversals y) (<[i := pc']> (writers y))) →
  ended_ok (sh_stop sh) (sh_writes sh) (traversals y) (<[i := pc']> (writers y)) (main y) →
  coordinated (woken wk {| state := sh; traversals := traversals y; writers := <[i := pc']> (writers y);
                           main := main y; interrupter := interrupter y |}).
Proof.
  intros [Hw Hp Hwr Hq Hwait He Hd Hi Ht Hws] Hpc Hsw Hst Hsane Ha Hb Hc Hq' Hwait' He'.
  apply coordinated_woken; cbn [state traversals writers main interrupter]; rewrite ?Hsw; try done; auto.
  - by eapply work_ok_stop.
  - by eapply writers_ok_insert.
  - by apply insert_ne_nil.
Qed.

Lemma waiting_ok_writer w ts ws i pc' : waiting_ok w ts ws →
  (pc' = WWaiting → 0 < active_writes w ∨ write_jobs w = []
    ∧ (checkpoint_running w = true ∨ checkpoint_pending w = false ∧ producers_finished w = false ∧ write_shutdown w = false)) →
  waiting_ok w ts (<[i := pc']> ws).
Proof. intros [He Hn] Hpc. split; [done|]. intros [Heq|Hin]%elem_of_insert; [by apply Hpc|by apply Hn]. Qed.

Lemma ended_ok_writer stop stop' w ts ws m i pc' : ended_ok stop w ts ws m → (stop = true → stop' = true) →
  (pc' = WExit → write_shutdown w = true) → (pc' = WCheckpointFail → stop' = true) →
  ended_ok stop' w ts (<[i := pc']> ws) m.
Proof.
  intros [He Hj Hjs Hjf Hf Hs Hc] Hst Hex Hfail.
  assert (stop' = false → stop = false) as Hst' by (destruct stop; [|done]; by rewrite Hst).
  split; auto.
  - intros [Heq|Hin]%elem_of_insert; auto.
  - intros b Hm Hb. by apply Hst, (Hjs b).
  - intros [Heq|Hin]%elem_of_insert; auto.
Qed.
(** The queue changed while its threads went on. *)
Lemma ended_ok_state stop w w' ts ws m : ended_ok stop w ts ws m →
  (write_shutdown w = true → write_shutdown w' = true) → (producers_finished w = true → producers_finished w' = true) →
  (producers_finished w' = true → stop = false → producers_finished w = true) →
  (write_shutdown w' = true → stop = false → producers_finished w' = true ∧ write_jobs w' = [] ∧ active_writes w' = 0
    ∧ checkpoint_running w' = false ∧ checkpoint_pending w' = false) →
  ended_ok stop w' ts ws m.
Proof.
  intros [He Hj Hjs Hjf Hf Hs Hc] ? ? ? ?. split; auto.
Qed.

Lemma coordinated_writer_quiet y i pc sh pc' : coordinated y → writers y !! i = Some pc →
  sh_work sh = sh_work (state y) → sh_writes sh = sh_writes (state y) → (sh_stop (state y) = true → sh_stop sh = true) →
  sane pc' → in_hand pc' = in_hand pc → bytes_in_hand pc' = bytes_in_hand pc → checkpointing pc' = checkpointing pc →
  pc' ≠ WWaiting → pc' ≠ WExit → (pc' = WCheckpointFail → sh_stop sh = true) →
  coordinated (woken Nobody {| state := sh; traversals := traversals y; writers := <[i := pc']> (writers y);
                           main := main y; interrupter := interrupter y |}).
Proof.
  intros Hc Hpc Hsk Hsw Hst Hsane Ha Hb Hcp Hne Hne' Hfail.
  eapply coordinated_writing; try done; rewrite ?Hsw; try lia.
  - apply (co_queue _ Hc).
  - intros _. by apply waiting_ok_writer; [apply (co_waiting _ Hc)|].
  - by eapply ended_ok_writer; [apply (co_ended _ Hc)|..].
Qed.

Lemma coordinated_next y i : coordinated y → writers y !! i = Some WNext →
  let '(sh, pc', wk) := next_step config (state y) in
  coordinated (woken wk {| state := sh; traversals := traversals y; writers := <[i := pc']> (writers y);
                           main := main y; interrupter := interrupter y |}).
Proof.
  intros Hc Hpc. destruct (writers_ok_nonneg _ _ (co_writers _ Hc)) as [Hnn _]. unfold next_step.
  pose proof (next_attempt_spec (sh_stop (state y)) (sh_capability (state y)) (sh_writes (state y)) Hnn (co_queue _ Hc)) as Hatt.
  pose proof (co_ended _ Hc) as He. pose proof (co_waiting _ Hc) as Hw.
  destruct (next_attempt _ _ _ _ _) as [[w c] [jobs total| | |]]; destruct Hatt as [Hq Hatt].
  - destruct Hatt as (Hlen&Hnt&Ht&Happ&Ha&Hb&Hr&Hp&Hsd&Hpf&_).
    assert (write_jobs (sh_writes (state y)) ≠ []) as Hne.
    { intros Hnil. rewrite Hnil in Happ. apply app_nil in Happ as [-> _]. by change (len []) with 0 in Hlen. }
    assert (len (write_jobs (sh_writes (state y))) = len jobs + len (write_jobs w)) as Hl by (by rewrite <-Happ, len_app).
    eapply coordinated_writing; try done; cbn [sh_writes sh_stop with_writes sane in_hand bytes_in_hand checkpointing]; try lia.
    + by exists jobs.
    + rewrite Hr. lia.
    + intros _. apply waiting_ok_writer; [|done]. destruct Hw as [He' Hn']. split.
      * intros job Hin. destruct (He' job Hin) as [? Hcase]. rewrite Hsd, Hp, Hr. split; [done|].
        destruct Hcase; [by left|right; lia].
      * intros Hin. left. lia.
    + eapply ended_ok_writer; try done. eapply ended_ok_state; try done; rewrite ?Hsd, ?Hpf; try done.
      intros Hs Hstop. by destruct (eo_shut _ _ _ _ _ He Hs Hstop) as (_&?&_).
  - destruct Hatt as (Hj&Hj'&Ha&Ha'&Hb&Hr&Hr'&Hsd&Hpf&Hp&_).
    eapply coordinated_writing; try done; cbn [sh_writes sh_stop with_writes sane in_hand bytes_in_hand checkpointing]; try lia.
    + by rewrite Hr, Hr'.
    + intros _. apply waiting_ok_writer; [|done]. destruct Hw as [He' Hn']. split.
      * intros job Hin. destruct (He' job Hin) as [? _]. rewrite Hsd, Hr', orb_true_r. auto.
      * intros _. auto.
    + eapply ended_ok_writer; try done. eapply ended_ok_state; try done; rewrite ?Hsd, ?Hpf; try done.
      intros Hs Hstop. destruct (eo_shut _ _ _ _ _ He Hs Hstop) as (_&_&_&_&?). congruence.
  - destruct Hatt as (Hj&Hj'&Ha'&Ha&Hb&Hr&Hr'&Hp'&Hsd&Hpf&Hcase).
    eapply coordinated_writing; try done; cbn [sh_writes sh_stop with_writes sane in_hand bytes_in_hand checkpointing]; try lia.
    + by rewrite Hr, Hr'.
    + eapply ended_ok_writer; try done. eapply ended_ok_state; try done; rewrite ?Hpf; try done.
      intros _ Hstop. rewrite Hstop, orb_false_r in Hcase. apply orb_true_iff in Hcase as [?|Hs]; [done|].
      by destruct (eo_shut _ _ _ _ _ He Hs Hstop).
  - destruct Hatt as (->&Hcase).
    eapply coordinated_writing; try done; cbn [sh_writes sh_stop with_writes sane in_hand bytes_in_hand checkpointing]; try lia.
    + intros _. by apply waiting_ok_writer.
    + by eapply ended_ok_writer.
Qed.

Lemma coordinated_complete y i n total : coordinated y → writers y !! i = Some (WRecord [] n total) →
  coordinated (woken WakeWrite {|
    state := with_writes (complete_write_batch n total (sh_writes (state y))) (sh_capability (state y)) (state y);
    traversals := traversals y; writers := <[i := WNext]> (writers y); main := main y; interrupter := interrupter y |}).
Proof.
  intros Hc Hpc. destruct (writers_ok_at _ _ _ _ (co_writers _ Hc) Hpc) as ([Hn Ht]%sane_counts&Hle&Hleb&_). cbn in Hle, Hleb.
  destruct (co_queue _ Hc) as [Hq Hquiet Hconf Hcount Hsize]. pose proof (co_ended _ Hc) as He.
  eapply coordinated_writing; try done;
    cbn [sh_writes sh_stop with_writes sane in_hand bytes_in_hand checkpointing complete_write_batch active_writes
         active_write_bytes checkpoint_running]; unfold saturating_sub; try lia.
  - split; cbn [complete_write_batch write_jobs queued_write_bytes active_writes active_write_bytes checkpoint_running
      checkpoint_pending]; unfold saturating_sub; try done.
    + intros Hr. destruct (Hquiet Hr). split; [done|lia].
    + intros Hl. specialize (Hcount Hl). lia.
    + intros Hl. destruct (Hsize Hl); [left|right]; lia.
  - eapply ended_ok_writer; try done. eapply ended_ok_state; try done. cbn. unfold saturating_sub.
    intros Hs Hstop. destruct (eo_shut _ _ _ _ _ He Hs Hstop) as (?&?&?&?&?). split_and!; (done || lia).
Qed.

Lemma coordinated_checkpointed y i : coordinated y → writers y !! i = Some WCheckpointDone →
  coordinated (woken WakeWrite {|
    state := with_writes (finish_checkpoint (sh_writes (state y))) (sh_capability (state y)) (state y);
    traversals := traversals y; writers := <[i := WNext]> (writers y); main := main y; interrupter := interrupter y |}).
Proof.
  intros Hc Hpc. destruct (writers_ok_at _ _ _ _ (co_writers _ Hc) Hpc) as (_&_&_&Hrun). specialize (Hrun eq_refl).
  destruct (co_queue _ Hc) as [Hq Hquiet Hconf Hcount Hsize]. pose proof (co_ended _ Hc) as He.
  eapply coordinated_writing; try done;
    cbn [sh_writes sh_stop with_writes sane in_hand bytes_in_hand checkpointing finish_checkpoint active_writes
         active_write_bytes checkpoint_running]; rewrite ?Hrun; try lia.
  - split; try done. cbn. rewrite orb_false_r. intros Hp. apply Hconf. by rewrite Hp.
  - eapply ended_ok_writer; try done. eapply ended_ok_state; try done. cbn.
    intros Hs Hstop. destruct (eo_shut _ _ _ _ _ He Hs Hstop) as (?&?&?&?&?). by split_and!.
Qed.

Lemma coordinated_checkpoint_failed y i : coordinated y → writers y !! i = Some WCheckpointFail →
  coordinated (woken WakeWrite {|
    state := with_writes (fail_checkpoint (sh_writes (state y))) (sh_capability (state y)) (state y);
    traversals := traversals y; writers := <[i := WNext]> (writers y); main := main y; interrupter := interrupter y |}).
Proof.
  intros Hc Hpc. destruct (writers_ok_at _ _ _ _ (co_writers _ Hc) Hpc) as (_&_&_&Hrun). specialize (Hrun eq_refl).
  destruct (co_queue _ Hc) as [Hq Hquiet Hconf Hcount Hsize]. pose proof (co_ended _ Hc) as He.
  destruct (Hquiet Hrun) as [Hj Ha].
  assert (sh_stop (state y) = true) as Hstop.
  { apply (eo_failing _ _ _ _ _ He). by apply list_elem_of_lookup_2 in Hpc. }
  eapply coordinated_writing; try done;
    cbn [sh_writes sh_stop with_writes sane in_hand bytes_in_hand checkpointing fail_checkpoint active_writes
         active_write_bytes checkpoint_running]; rewrite ?Hrun; try lia.
  - pose proof limit_positive. split; cbn; rewrite ?Ha; try done.
    + rewrite orb_false_r. intros Hp. apply Hconf. by rewrite Hp.
    + change (len []) with 0. lia.
    + change (len []) with 0. intros _. right. lia.
  - eapply ended_ok_writer; try done. eapply ended_ok_state; try done; rewrite Hstop; done.
Qed.

Lemma coordinated_writer y i pc sh pc' wk : coordinated y → writers y !! i = Some pc →
  w_step pc (state y) = Some (sh, pc', wk) →
  coordinated (woken wk {| state := sh; traversals := traversals y; writers := <[i := pc']> (writers y);
                           main := main y; interrupter := interrupter y |}).
Proof.
  intros Hc Hpc Hs. destruct (writers_ok_at _ _ _ _ (co_writers _ Hc) Hpc) as (Hsane&_&_&Hrun).
  destruct pc as [| |p n total|[|c cs] n total| | |message| | | |]; try done; cbn in Hs, Hsane, Hrun.
  - pose proof (coordinated_next y i Hc Hpc) as Hgoal. injection Hs as Hs. by rewrite Hs in Hgoal.
  - destruct Hsane as (jobs&Hn&Ht&Hp). unfold publish_batch_step in Hs.
    pose proof (publish_same jobs p (sh_capability (state y)) (sh_destination (state y)) Hp) as Hsame.
    destruct (publish_step _ _ _) as [[c d] [p'|cs]]; simplify_eq; (eapply coordinated_writer_quiet; try done); exists jobs; [done|].
    cbn in Hsame |- *. by rewrite Hsame.
  - injection Hs as <- <- <-. by apply coordinated_complete.
  - destruct Hsane as (jobs&Hn&Ht&Hsuf). assert (sane (WRecord cs n total)) as Hsane'.
    { exists jobs. split_and!; [done..|]. etrans; [|exact Hsuf]. by exists [done_block_id c]. }
    injection Hs as <- <- <-. eapply coordinated_writer_quiet; try done; unfold record_threaded_completion; by repeat case_match.
  - unfold checkpoint_step in Hs. destruct (blind_write_checkpoint config) as [cp|] eqn:Hcp.
    + destruct (action cp _) as [d [[]|e]]; simplify_eq; by eapply coordinated_writer_quiet.
    + exfalso. apply (qo_configured _ (co_queue _ Hc)); [|done]. rewrite (Hrun eq_refl). apply orb_true_r.
  - injection Hs as <- <- <-. by apply coordinated_checkpointed.
  - simplify_eq. by eapply coordinated_writer_quiet.
  - simplify_eq. by eapply coordinated_writer_quiet.
  - injection Hs as <- <- <-. by apply coordinated_checkpoint_failed.
Qed.

(** ** The main thread and the interrupter *)
Lemma coordinated_stop y m it :
  coordinated y → (m = main y ∨ main y = MJoinWriters ∧ m = MDone) →
  coordinated {| state := with_stop (state y); traversals := traversals y; writers := writers y;
                 main := m; interrupter := it |}.
Proof.
  intros [Hw Hp Hwr Hq Hwait [He1 He2 He2s He2f He3 He4 He5] Hd Hi Ht Hws] Hm.
  split; cbn [state sh_stop sh_work sh_writes with_stop traversals writers main interrupter]; try done.
  - by apply (work_ok_stop (sh_stop (state y))).
  - destruct Hm as [->|[Hm ->]]; [by split|]. rewrite Hm in *. split; auto; try done.
Qed.

Lemma queue_ok_cleared w w' : queue_ok w → 0 ≤ active_writes w → write_jobs w' = [] → queued_write_bytes w' = 0 →
  active_writes w' = active_writes w → active_write_bytes w' = active_write_bytes w →
  checkpoint_pending w' = checkpoint_pending w → checkpoint_running w' = checkpoint_running w → queue_ok w'.
Proof.
  intros [Hq Hquiet Hconf Hcount Hsize] Hnn Hj Hb Ha Hab Hp Hr. pose proof (len_nonneg (write_jobs w)).
  split; rewrite ?Hj, ?Hb, ?Ha, ?Hab, ?Hp, ?Hr; try done.
  - intros Hrun. destruct (Hquiet Hrun). done.
  - change (len []) with 0. intros Hl. specialize (Hcount Hl). lia.
  - change (len []) with 0. intros Hl. rewrite Hq in Hsize. pose proof (jobs_bytes_nonneg (write_jobs w)).
    destruct (Hsize Hl); [left|right]; lia.
Qed.

Lemma coordinated_joined y : coordinated y → main y = MJoinTraversal → Forall (TExit =.) (traversals y) →
  coordinated {| state := state y; traversals := traversals y; writers := writers y;
                 main := MFinish (sh_stop (state y)); interrupter := interrupter y |}.
Proof.
  intros [Hw Hp Hwr Hq Hwait [He1 He2 He2s He2f He3 He4 He5] Hd Hi Ht Hws] Hm Hall. split; try done.
  split; try done; cbn [state main].
  - intros b [= <-]. done.
  - intros _ Hmf. by destruct (Hmf (sh_stop (state y))).
  - intros Hpf Hstop. destruct (He3 Hpf Hstop) as [Hno _]. by rewrite Hm in Hno.
Qed.

Lemma coordinated_finishes y b : coordinated y → main y = MFinish b →
  coordinated (woken WakeWrite {|
    state := with_writes (finish_producing b (sh_writes (state y))) (sh_capability (state y)) (state y);
    traversals := traversals y; writers := writers y; main := MJoinWriters; interrupter := interrupter y |}).
Proof.
  intros [Hw Hp Hwr Hq Hwait [He1 He2 He2s He2f He3 He4 He5] Hd Hi Ht Hws] Hm.
  destruct (writers_ok_nonneg _ _ Hwr) as [Hnn _].
  apply coordinated_woken; cbn [state sh_stop sh_work sh_writes with_writes traversals writers main interrupter]; try done.
  - by eapply writers_ok_state.
  - destruct b; [by eapply queue_ok_cleared|]. by destruct Hq.
  - split; try done; cbn [finish_producing write_shutdown producers_finished write_jobs active_writes checkpoint_running checkpoint_pending].
    + intros Hex. rewrite (He1 Hex). apply orb_true_r.
    + intros _. apply He2. by rewrite Hm.
    + intros Hs Hstop. destruct b; [by rewrite (He2s true Hm eq_refl) in Hstop|]. cbn in Hs.
      destruct (He4 Hs Hstop) as (_&?&?&?&?). by split_and!.
Qed.

Lemma coordinated_shut_work y : coordinated y → sh_stop (state y) = true →
  coordinated (woken WakeWork {| state := with_work (shut_work (sh_work (state y))) (state y);
    traversals := traversals y; writers := writers y; main := main y; interrupter := IWrite |}).
Proof.
  intros [[? ? ?] Hp Hwr Hq Hwait He Hd Hi Ht Hws] Hstop.
  apply coordinated_woken; try done. split; try done. by left.
Qed.

Lemma coordinated_shut_writes y : coordinated y → sh_stop (state y) = true →
  coordinated (woken WakeWrite {|
    state := with_writes (write_request_shutdown (sh_writes (state y))) (sh_capability (state y)) (state y);
    traversals := traversals y; writers := writers y; main := main y; interrupter := IExit |}).
Proof.
  intros [Hw Hp Hwr Hq Hwait [He1 He2 He2s He2f He3 He4 He5] Hd Hi Ht Hws] Hstop.
  destruct (writers_ok_nonneg _ _ Hwr) as [Hnn _].
  apply coordinated_woken; cbn [state sh_stop sh_work sh_writes with_writes traversals writers main interrupter]; try done.
  - by eapply writers_ok_state.
  - by eapply queue_ok_cleared.
  - split; try done; try (rewrite Hstop; done).
Qed.

Lemma coordinated_interrupter y it : coordinated y → (it ≠ IPolling → it ≠ IStop → sh_stop (state y) = true) →
  coordinated {| state := state y; traversals := traversals y; writers := writers y; main := main y; interrupter := it |}.
Proof. intros [? ? ? ? ? ? ? ? ? ?] Hit. by split. Qed.

Lemma coordinated_step y y' : coordinated y → step source mode config root_ids y y' → coordinated y'.
Proof.
  intros Hc Hs. destruct Hs as [i pc sh pc' wk Hi Hs|i pc sh pc' wk Hi Hs|Hm Hall|b Hm|Hm Hall|Hit Hst|Hit|Hit|Hit|Hit Hst].
  - by eapply coordinated_traversal.
  - by eapply coordinated_writer.
  - by apply coordinated_joined.
  - by apply coordinated_finishes.
  - apply coordinated_stop; [done|]. by right.
  - by apply coordinated_interrupter.
  - apply coordinated_stop; auto.
  - apply coordinated_shut_work; [done|]. by apply (co_interrupted _ Hc); rewrite Hit.
  - apply coordinated_shut_writes; [done|]. by apply (co_interrupted _ Hc); rewrite Hit.
  - by apply coordinated_interrupter.
Qed.

Lemma coordinated_spurious y y' : coordinated y → spurious y y' → coordinated y'.
Proof.
  intros Hc Hs. destruct Hs as [i pc wk Hi|i pc wk Hi].
  - destruct Hc as [[Ha He Hs] Hp Hwr Hq [Hwe Hwn] [He1 He2 He2s He2f He3 He4 He5] Hd Hit Ht Hws].
    assert (∀ z, z ∈ <[i := wake_traversal wk pc]> (traversals y) → (z = TPop ∨ ∃ job, z = TEnqueue job) ∨ z ∈ traversals y) as Hin.
    { intros z [->|?]%elem_of_insert; [|by right]. apply list_elem_of_lookup_2 in Hi. destruct wk, pc; eauto. }
    split; cbn [state traversals writers main interrupter]; try done.
    + split; [|by intros [[?|[? ?]]|?]%Hin; auto|done]. rewrite (zsum_insert _ _ _ _ _ Hi), busy_wake. lia.
    + intros [[?|[? ?]]|?]%Hin; [done..|by apply Hp].
    + split; [|done]. intros job [[?|[? ?]]|?]%Hin; [done..|by apply (Hwe job)].
    + split; try done. intros Hm. specialize (He2 Hm). apply Forall_insert; [done|].
      rewrite <-(Forall_lookup_1 _ _ _ _ He2 Hi). by destruct wk.
    + by apply insert_ne_nil.
  - destruct Hc as [Hw Hp Hwr Hq [Hwe Hwn] [He1 He2 He2s He2f He3 He4 He5] Hd Hit Ht Hws].
    assert (∀ z, z ∈ <[i := wake_writer wk pc]> (writers y) → z = WNext ∨ z ∈ writers y) as Hin.
    { intros z [->|?]%elem_of_insert; [|by right]. apply list_elem_of_lookup_2 in Hi. destruct wk, pc; eauto. }
    destruct (writers_ok_at _ _ _ _ Hwr Hi) as [Hsane _].
    split; cbn [state traversals writers main interrupter]; try done.
    + eapply writers_ok_insert; [done|done|by destruct wk, pc|..]; destruct wk, pc; cbn; lia.
    + split; [done|]. intros [?|?]%Hin; [done|by apply Hwn].
    + split; try done; intros [?|?]%Hin; auto; done.
    + by apply insert_ne_nil.
Qed.

Lemma replicate_ne_nil {A} n (x : A) : (0 < n)%nat → replicate n x ≠ [].
Proof. by destruct n; [lia|]. Qed.
Lemma coordinated_initial d : coordinated (initial_system config root_ids d).
Proof.
  assert (∀ (A : Type) (x y : A) n, y ∈ replicate n x → y = x) as Hrep.
  { intros A x y n Hin. by apply elem_of_replicate in Hin as [-> _]. }
  pose proof limit_positive. split; cbn [initial_system state sh_stop sh_work sh_writes traversals writers main interrupter]; try done.
  - split; try done; [by rewrite zsum_replicate|by intros ?%Hrep].
  - by intros ?%Hrep.
  - split; try (by rewrite zsum_replicate). by apply Forall_replicate.
  - split; cbn; try done; change (len []) with 0; lia.
  - split; [by intros job ?%Hrep|by intros ?%Hrep].
  - split; try done; by intros ?%Hrep.
  - apply replicate_ne_nil. lia.
  - apply replicate_ne_nil. unfold writer_thread_count. lia.
Qed.

Lemma coordinated_reachable d n k y : runs source mode config root_ids d n k y → coordinated y.
Proof.
  induction 1 as [|n k y y' _ IH Hs|n k y y' _ IH Hs]; [apply coordinated_initial|by eapply coordinated_step|by eapply coordinated_spurious].
Qed.

(** ** Nobody is left behind *)
Definition finished (y : system D) : Prop :=
  main y = MDone ∧ interrupter y = IExit ∧ Forall (TExit =.) (traversals y) ∧ Forall (WExit =.) (writers y).

Lemma some_or_none {A B} (f : A → option B) (l : list A) :
  Forall (λ x, f x = None) l ∨ ∃ i x b, l !! i = Some x ∧ f x = Some b.
Proof.
  induction l as [|x l [IH|(i&z&b&?&?)]]; [by left|..].
  - destruct (f x) as [b|] eqn:Hx; [right; by exists 0%nat, x, b|left; by apply Forall_cons].
  - right. by exists (S i), z, b.
Qed.

Lemma traversal_stuck pc sh : t_step pc sh = None → pc = TPopWaiting ∨ (∃ job, pc = TEnqueueWaiting job) ∨ pc = TExit.
Proof. destruct pc; cbn; intros Hs; try done; try (case_decide; done); eauto. Qed.
Lemma writer_stuck pc sh : sane pc → w_step pc sh = None → pc = WWaiting ∨ pc = WExit.
Proof. destruct pc as [| | |[] | | | | | | |]; cbn; auto; done. Qed.

Lemma Forall_elem {A} (P : A → Prop) l x : Forall P l → x ∈ l → P x.
Proof. rewrite Forall_forall. auto. Qed.

(** When every writer is stuck, no write is in flight and nothing compacts. *)
Lemma writers_stuck w ws : writers_ok w ws → Forall (λ pc, pc = WWaiting ∨ pc = WExit) ws →
  active_writes w = 0 ∧ checkpoint_running w = false.
Proof.
  intros [Ha Hb Hc Hs] Hall. assert (zsum in_hand ws = 0 ∧ zsum checkpointing ws = 0) as [Hz1 Hz2].
  { clear -Hall. induction Hall as [|pc ws [->| ->] _ [IH1 IH2]]; cbn; lia. }
  rewrite Ha, Hz1. split; [done|]. destruct (checkpoint_running w); [lia|done].
Qed.

Lemma writers_can_go w ts ws stop m : writers_ok w ws → waiting_ok w ts ws → ended_ok stop w ts ws m → queue_ok w → ws ≠ [] →
  Forall (λ pc, pc = WWaiting ∨ pc = WExit) ws →
  (∀ job, TEnqueueWaiting job ∉ ts) ∧ (m ≠ MJoinTraversal → (∀ b, m ≠ MFinish b) → Forall (WExit =.) ws).
Proof.
  intros Hwr [He Hn] Hend Hq Hne Hall. destruct (writers_stuck _ _ Hwr Hall) as [Ha Hr].
  assert (WWaiting ∈ ws → write_jobs w = [] ∧ checkpoint_pending w = false ∧ producers_finished w = false ∧ write_shutdown w = false)
    as Hwaiting.
  { intros [?|(?&[?|?])]%Hn; [lia|congruence|naive_solver]. }
  split.
  - intros job Hin. destruct (He job Hin) as [Hsd Hcase]. destruct ws as [|pc ws]; [done|].
    apply Forall_cons_1 in Hall as [[->| ->] _].
    + destruct (Hwaiting ltac:(by left)) as (Hj&Hp&_). rewrite Hp, Hr, Hj, Ha in Hcase. change (len []) with 0 in Hcase.
      destruct Hcase; [done|lia].
    + rewrite (eo_exited _ _ _ _ _ Hend) in Hsd by (by left). done.
  - intros Hm Hmf. pose proof (eo_finishing _ _ _ _ _ Hend Hm Hmf) as Hpf. apply Forall_forall. intros pc Hin.
    destruct (Forall_elem _ _ _ Hall Hin) as [->| ->]; [|done]. destruct (Hwaiting Hin) as (_&_&?&_). congruence.
Qed.

Lemma traversals_can_go y : coordinated y → Forall (λ pc, t_step pc (state y) = None) (traversals y) →
  (∀ job, TEnqueueWaiting job ∉ traversals y) → Forall (TExit =.) (traversals y).
Proof.
  intros Hc Hall Hno. assert (zsum busy (traversals y) = 0) as Hz.
  { assert (∀ pc, pc ∈ traversals y → busy pc = 0) as Hb.
    { intros pc Hin. destruct (traversal_stuck _ _ (Forall_elem _ _ _ Hall Hin)) as [->|[[job ->]| ->]]; [done| |done].
      by destruct (Hno job). }
    clear -Hb. induction (traversals y) as [|pc ts IH]; [done|]. cbn. rewrite (Hb pc) by (by left).
    rewrite IH; [done|]. intros z Hz. apply Hb. by right. }
  apply Forall_forall. intros pc Hin.
  destruct (traversal_stuck _ _ (Forall_elem _ _ _ Hall Hin)) as [->|[[job ->]| ->]]; [|by destruct (Hno job)|done].
  destruct (co_popping _ Hc Hin) as (_&Ha&_). rewrite (wo_active _ _ _ (co_work _ Hc)) in Ha. lia.
Qed.

(** A reachable state in which no thread can step is one in which every thread
    has ended. In particular no writer panics for want of a checkpoint. *)
Lemma threads_never_deadlock d n k y : runs source mode config root_ids d n k y →
  finished y ∨ ∃ y', step source mode config root_ids y y'.
Proof.
  intros Hr. pose proof (coordinated_reachable d n k y Hr) as Hc.
  destruct (some_or_none (λ pc, t_step pc (state y)) (traversals y)) as [Ht|(i&pc&[[sh pc'] wk]&Hi&Hs)];
    [|right; eexists; by eapply traversal_moves].
  destruct (some_or_none (λ pc, w_step pc (state y)) (writers y)) as [Hw|(i&pc&[[sh pc'] wk]&Hi&Hs)];
    [|right; eexists; by eapply writer_moves].
  assert (Forall (λ pc, pc = WWaiting ∨ pc = WExit) (writers y)) as Hw'.
  { apply Forall_forall. intros pc Hin. eapply writer_stuck; [|by apply (Forall_elem _ _ _ Hw Hin)].
    by apply (Forall_elem _ _ _ (ro_sane _ _ (co_writers _ Hc)) Hin). }
  destruct (writers_can_go _ _ _ _ _ (co_writers _ Hc) (co_waiting _ Hc) (co_ended _ Hc) (co_queue _ Hc) (co_threads _ Hc) Hw')
    as [Hno Hexit].
  pose proof (traversals_can_go y Hc Ht Hno) as Hall.
  destruct (main y) as [|b| |] eqn:Hm; [right; eexists; by apply main_joins_traversal|right; eexists; by eapply main_finishes
    |right; eexists; apply main_joins_writers; auto|].
  pose proof (co_done _ Hc Hm) as Hstop.
  destruct (interrupter y) eqn:Hit; [right; eexists; by apply interrupt_ends|right; eexists; by apply interrupt_stops
    |right; eexists; by apply interrupt_shuts_work|right; eexists; by apply interrupt_shuts_writes|].
  left. split_and!; auto.
Qed.

Lemma held_jobs ws : Forall sane ws → ∃ held, Forall2 holds held ws
  ∧ zsum in_hand ws = len (concat held) ∧ zsum bytes_in_hand ws = jobs_bytes (concat held).
Proof.
  induction 1 as [|pc ws Hs _ (held&Hh&Hn&Hb)]; [by exists []|].
  destruct (sane_holds pc Hs) as (jobs&Hj&Hjn&Hjb). exists (jobs :: held). cbn. rewrite Hn, Hb, Hjn, Hjb, len_app.
  split_and!; [by constructor|done|]. unfold jobs_bytes. by rewrite zsum_app.
Qed.

(** C38. In every reachable state the counters of the write queue are exact: each
    writer holds the batch of jobs that it publishes or whose completions it
    records, the active writes are the number of the jobs held and their bytes
    the bytes of these jobs, and the queued bytes are those of the queued jobs.
    The writes that are queued or in flight are at most the effective limit, and
    their bytes at most the byte limit unless there is only a single write, which
    may be larger. While a compaction runs there are no writes, and at most one
    writer compacts. *)
Theorem threads_bounded d n k y : runs source mode config root_ids d n k y →
  let w := sh_writes (state y) in
  ∃ held, Forall2 holds held (writers y)
  ∧ active_writes w = len (concat held) ∧ active_write_bytes w = jobs_bytes (concat held)
  ∧ queued_write_bytes w = jobs_bytes (write_jobs w)
  ∧ (limit < usize_max → len (write_jobs w) + len (concat held) ≤ limit)
  ∧ (0 < max_bytes < usize_max →
      jobs_bytes (write_jobs w) + jobs_bytes (concat held) ≤ max_bytes ∨ len (write_jobs w) + len (concat held) ≤ 1)
  ∧ zsum checkpointing (writers y) ≤ 1
  ∧ (0 < zsum checkpointing (writers y) → write_jobs w = [] ∧ concat held = []).
Proof.
  intros Hr w. pose proof (coordinated_reachable d n k y Hr) as Hc. destruct (co_writers _ Hc) as [Ha Hb Hcp Hs].
  destruct (co_queue _ Hc) as [Hq Hquiet Hconf Hcount Hsize]. fold w in Ha, Hb, Hcp, Hq, Hquiet, Hcount, Hsize.
  destruct (held_jobs _ Hs) as (held&Hh&Hn&Hbytes). rewrite Hn in Ha. rewrite Hbytes in Hb. exists held.
  rewrite <-Ha, <-Hb, <-Hq. split_and!; try done; [destruct (checkpoint_running w); lia|]. intros Hpos.
  destruct Hquiet as [? Hz]; [destruct (checkpoint_running w); [done|lia]|]. split; [done|].
  rewrite Ha in Hz. unfold len in Hz. destruct (concat held); [done|cbn in Hz; lia].
Qed.
End coordination.
