(* ===== verification/CopyThreadsWalkSpec.v ===== *)
(** * The multi-worker copy: what is copied

    Invariants of the shared data under every interleaving of the threads. A
    visited block is at every moment either settled or in the hands of exactly
    the thread that visits or writes it; so when the workers have ended without
    a stop, every block that a requested root reaches is in the destination or
    in the report. *)

From Stdlib Require Import ZArith Lia Ascii.
From stdpp Require Import base gmap sets strings sorting option list.
From S2P Require Import Prelude Hex Blocks BlockCopy BlockCopySpec CopyRun CopyRunSpec CopyWalkSpec CopyQueues CopyThreads CopyThreadsSpec.
#[local] Open Scope Z_scope.

(** ** The block in a thread's hands *)

(** Visited and not yet decoded. *)
Definition opened (pc : traversal_pc) : option block_hash :=
  match pc with TRead _ b | TDecode _ b _ => Some b | _ => None end.
(** Its children are not yet queued. *)
Definition unexpanded (pc : traversal_pc) : option block_hash :=
  match pc with TRead _ b | TDecode _ b _ | TChildren _ b _ _ | TPushChildren _ b _ _ => Some b | _ => None end.
(** A failure to read it is not yet recorded. *)
Definition unreported (pc : traversal_pc) : option block_hash :=
  match pc with TRead _ b | TReadFailed b _ | TDecode _ b _ => Some b | _ => None end.
(** It is not yet handed to the writers. *)
Definition unwritten (pc : traversal_pc) : option block_hash :=
  match pc with
  | TRead _ b | TDecode _ b _ | TChildren _ b _ _ | TPushChildren _ b _ _ | TCheck b _ | TGet b _ | TCheckFailed b _ => Some b
  | TEnqueue job | TEnqueueWaiting job => Some (job_block_id job)
  | _ => None
  end.
(** Taken from the queue and not yet visited. *)
Definition untried (pc : traversal_pc) : option (block_hash * block_hash) :=
  match pc with TNote r b | TVisit r b => Some (r, b) | _ => None end.

Lemma wake_opened wk pc : opened (wake_traversal wk pc) = opened pc.
Proof. by destruct wk, pc. Qed.
Lemma wake_unexpanded wk pc : unexpanded (wake_traversal wk pc) = unexpanded pc.
Proof. by destruct wk, pc. Qed.
Lemma wake_unreported wk pc : unreported (wake_traversal wk pc) = unreported pc.
Proof. by destruct wk, pc. Qed.
Lemma wake_unwritten wk pc : unwritten (wake_traversal wk pc) = unwritten pc.
Proof. by destruct wk, pc. Qed.
Lemma wake_untried wk pc : untried (wake_traversal wk pc) = untried pc.
Proof. by destruct wk, pc. Qed.

(** Some thread holds it. *)
Definition at_some {P A} (f : P → option A) (l : list P) (b : A) : Prop := ∃ pc, pc ∈ l ∧ f pc = Some b.

Lemma at_some_fmap {P A} (f : P → option A) (g : P → P) l b : (∀ x, f (g x) = f x) → at_some f l b → at_some f (g <$> l) b.
Proof. intros Hg (pc&Hin&Hf). exists (g pc). rewrite Hg. split; [|done]. by apply list_elem_of_fmap_2. Qed.
Lemma at_some_insert {P A} (f : P → option A) (l : list P) i pc pc' b : l !! i = Some pc →
  at_some f l b → at_some f (<[i := pc']> l) b ∨ f pc = Some b.
Proof.
  intros Hi (z&(j&Hj)%list_elem_of_lookup_1&Hf). destruct (decide (i = j)) as [<-|Hne]; [right; congruence|left].
  exists z. split; [|done]. apply (list_elem_of_lookup_2 _ j). by rewrite list_lookup_insert_ne.
Qed.
Lemma elem_of_inserted {A} (l : list A) i x y : l !! i = Some x → y ∈ <[i := y]> l.
Proof.
  intros Hi. apply (list_elem_of_lookup_2 _ i). apply list_lookup_insert_eq. by eapply lookup_lt_Some.
Qed.
Lemma at_some_here {P A} (f : P → option A) (l : list P) i pc pc' b : l !! i = Some pc → f pc' = Some b →
  at_some f (<[i := pc']> l) b.
Proof. intros Hi Hf. exists pc'. split; [by eapply elem_of_inserted|done]. Qed.
Lemma at_some_none {P A} (f : P → option A) l b : (∀ pc, pc ∈ l → f pc = None) → ¬ at_some f l b.
Proof. intros Hl (pc&Hin&Hf). specialize (Hl pc Hin). congruence. Qed.

(** What a step of one thread keeps, and what it must settle itself. *)
Lemma at_some_step {P A} (f : P → option A) (l : list P) i pc pc' b (Q : Prop) : l !! i = Some pc →
  (f pc = Some b → f pc' = Some b ∨ Q) → at_some f l b → at_some f (<[i := pc']> l) b ∨ Q.
Proof.
  intros Hi Hf Hat. destruct (at_some_insert f l i pc pc' b Hi Hat) as [?|Hpc]; [by left|].
  destruct (Hf Hpc); [left; by eapply at_some_here|by right].
Qed.

(** The ids a writer holds. *)
Definition held_ids (pc : writer_pc) : list block_hash :=
  match pc with WPublish p _ _ => pub_ids p | WRecord cs _ _ => done_block_id <$> cs | _ => [] end.
Lemma wake_held wk pc : held_ids (wake_writer wk pc) = held_ids pc.
Proof. by destruct wk, pc. Qed.

Section walk.
Context {D : Type} `{ByteStoreLaws D} `{Ciborium} `{DecodeBlock} `{HashDisplay} `{HashSetOrder}.
Context (source : block_hash → result string (option bytes)) (root_ids : list block_hash).
Context (mode : CopyDestinationMode) (config : CopyExecutionConfig D) (d0 : D).
Context (compaction : ∀ cp d, blind_write_checkpoint config = Some cp →
  ∀ h, held (action cp d).1 h = held d h).

Abbreviation limit := (effective_write_limit config).
Abbreviation max_bytes := (max_in_flight_destination_write_bytes config).
Abbreviation t_step := (traversal_step source mode config).
Abbreviation w_step := (writer_step config root_ids).
Abbreviation reaching := (reach source root_ids).

(** ** The invariant of the data, stopped or not *)
Definition t_ok (t : CopyFailureTracker) (pc : traversal_pc) : Prop :=
  match pc with
  | TNote r b => reaching r b
  | TVisit r b | TRead r b => reaching r b ∧ r ∈ roots_of t b
  | TReadFailed b _ => (∀ x, source b ≠ Ok (Some x)) ∧ roots_of t b ≠ ∅
  | TDecode r b x => source b = Ok (Some x) ∧ reaching r b ∧ r ∈ roots_of t b
  | TChildren r b x cs | TPushChildren r b x cs => source b = Ok (Some x) ∧ reaching r b ∧ roots_of t b ≠ ∅ ∧ cs = block_children source b
  | TCheck b x | TGet b x => (mode = ReadBeforeWrite ∧ source b = Ok (Some x)) ∧ roots_of t b ≠ ∅
  | TCheckFailed b _ => roots_of t b ≠ ∅
  | TEnqueue job | TEnqueueWaiting job => job_ok source job ∧ roots_of t (job_block_id job) ≠ ∅
  | _ => True
  end.
Definition w_ok (d : D) (pc : writer_pc) : Prop :=
  match pc with
  | WPublish p _ _ => pub_ok source d p
  | WRecord cs _ _ => Forall (completion_ok source d) cs
  | _ => True
  end.
(** Handed to the writers, and not yet recorded. *)
Definition handed (sh : shared D) (ws : list writer_pc) (b : block_hash) : Prop :=
  b ∈ job_block_id <$> write_jobs (sh_writes sh) ∨ ∃ pc, pc ∈ ws ∧ b ∈ held_ids pc.

Record data_ok (sh : shared D) (ts : list traversal_pc) (ws : list writer_pc) : Prop := {
  da_frame : frame source d0 (sh_destination sh);
  da_tracker : ∃ store, tracker_ok reaching store (sh_tracker sh) ∧ store_failed root_ids store;
  da_progress : progress_ok (progress_failed <$> sh_progress sh) (failed_failure_ids (sh_tracker sh));
  da_known b cs : discovered_children (sh_tracker sh) !! b = Some cs → b ∈ sh_visited sh ∧ cs = block_children source b;
  da_items r b : (r, b) ∈ work_items (sh_work sh) → reaching r b;
  da_threads : Forall (t_ok (sh_tracker sh)) ts;
  da_opened i pc b : ts !! i = Some pc → opened pc = Some b →
    b ∈ sh_visited sh ∧ discovered_children (sh_tracker sh) !! b = None
    ∧ ∀ j pc', ts !! j = Some pc' → opened pc' = Some b → i = j;
  da_jobs : Forall (job_ok source) (write_jobs (sh_writes sh));
  da_writers : Forall (w_ok (sh_destination sh)) ws;
  da_rooted b : handed sh ws b → roots_of (sh_tracker sh) b ≠ ∅;
  da_pending : checkpoint_pending (sh_writes sh) || checkpoint_running (sh_writes sh) = true → root_ids ≠ []
}.

(** ** What holds as long as nothing is stopped *)
Definition queued (sh : shared D) (ts : list traversal_pc) (rb : block_hash * block_hash) : Prop :=
  rb ∈ work_items (sh_work sh) ∨ at_some untried ts rb.
Definition settled_block (sh : shared D) (ws : list writer_pc) (b : block_hash) : Prop :=
  handed sh ws b ∨ landed source mode (sh_destination sh) b ∨ write_failed (sh_tracker sh) b.

Record covers (sh : shared D) (ts : list traversal_pc) (ws : list writer_pc) : Prop := {
  cv_children b : b ∈ sh_visited sh → children_of (sh_tracker sh) b = block_children source b ∨ at_some opened ts b;
  cv_closed b c : b ∈ sh_visited sh → c ∈ block_children source b →
    (c ∈ sh_visited sh ∨ ∃ r, queued sh ts (r, c)) ∨ at_some unexpanded ts b;
  cv_roots r : r ∈ root_ids → (r ∈ sh_visited sh ∧ r ∈ roots_of (sh_tracker sh) r) ∨ queued sh ts (r, r);
  cv_reported b : b ∈ sh_visited sh → read_reported source (sh_tracker sh) b ∨ at_some unreported ts b;
  cv_settled b x : b ∈ sh_visited sh → source b = Ok (Some x) → settled_block sh ws b ∨ at_some unwritten ts b
}.

(** ** Notifications *)
Lemma handed_wake wk sh ws b : handed sh (wake_writer wk <$> ws) b ↔ handed sh ws b.
Proof.
  unfold handed. split; (intros [?|(pc&Hin&Hb)]; [by left|right]).
  - apply list_elem_of_fmap in Hin as (pc'&->&Hin). exists pc'. by rewrite wake_held in Hb.
  - exists (wake_writer wk pc). rewrite wake_held. split; [|done]. by apply list_elem_of_fmap_2.
Qed.
Lemma data_ok_wake wk sh ts ws : data_ok sh ts ws → data_ok sh (wake_traversal wk <$> ts) (wake_writer wk <$> ws).
Proof.
  intros [? ? ? ? ? Ht Ho ? Hw Hr ?]. split; try done.
  - apply Forall_fmap. eapply Forall_impl; [exact Ht|]. intros []; by destruct wk.
  - intros i pc b. rewrite list_lookup_fmap. intros (pc0&Hi&->)%fmap_Some. rewrite wake_opened. intros Hb.
    destruct (Ho i pc0 b Hi Hb) as (?&?&Hu). split_and!; [done..|]. intros j pc'. rewrite list_lookup_fmap.
    intros (pc1&Hj&->)%fmap_Some. rewrite wake_opened. by apply Hu.
  - apply Forall_fmap. eapply Forall_impl; [exact Hw|]. intros []; by destruct wk.
  - intros b Hb%handed_wake. auto.
Qed.
Lemma covers_wake wk sh ts ws : covers sh ts ws → covers sh (wake_traversal wk <$> ts) (wake_writer wk <$> ws).
Proof.
  assert (∀ rb, queued sh ts rb → queued sh (wake_traversal wk <$> ts) rb) as Hq.
  { intros rb [?|?]; [by left|right]. by apply at_some_fmap; [apply wake_untried|]. }
  intros [Hc Hcl Hr Hrep Hs]. split.
  - intros b Hb. destruct (Hc b Hb); [by left|right]. by apply at_some_fmap; [apply wake_opened|].
  - intros b c Hb Hcc. destruct (Hcl b c Hb Hcc) as [[?|[r ?]]|?]; [by left; left|left; right; exists r; auto|right].
    by apply at_some_fmap; [apply wake_unexpanded|].
  - intros r Hin. destruct (Hr r Hin); auto.
  - intros b Hb. destruct (Hrep b Hb); [by left|right]. by apply at_some_fmap; [apply wake_unreported|].
  - intros b x Hb Hx. destruct (Hs b x Hb Hx) as [Hset|?].
    + left. destruct Hset as [?|?]; [left; by apply handed_wake|by right].
    + right. by apply at_some_fmap; [apply wake_unwritten|].
Qed.

(** ** Steps of the traversal workers *)
Record grows (t t' : CopyFailureTracker) : Prop := {
  gr_roots b r : r ∈ roots_of t b → r ∈ roots_of t' b;
  gr_templates b tm : tm ∈ templates_of t b → tm ∈ templates_of t' b
}.
Lemma grows_refl t : grows t t.
Proof. by split. Qed.
Lemma grows_trans t1 t2 t3 : grows t1 t2 → grows t2 t3 → grows t1 t3.
Proof. intros [? ?] [? ?]. split; auto. Qed.
Lemma grows_rooted t t' b : grows t t' → roots_of t b ≠ ∅ → roots_of t' b ≠ ∅.
Proof. intros Hg [r Hr]%set_choose_L Hnil. apply (gr_roots _ _ Hg) in Hr. rewrite Hnil in Hr. by apply not_elem_of_empty in Hr. Qed.
Lemma t_ok_grows t t' pc : grows t t' → t_ok t pc → t_ok t' pc.
Proof.
  intros Hg. destruct pc; cbn; try done; try (by intros [? ?]; split; [done|eapply grows_rooted]).
  - intros [? ?]. split; [done|by apply (gr_roots _ _ Hg)].
  - intros [? ?]. split; [done|by apply (gr_roots _ _ Hg)].
  - intros (?&?&?). split_and!; [done..|by apply (gr_roots _ _ Hg)].
  - intros (?&?&?&?). split_and!; try done. by eapply grows_rooted.
  - intros (?&?&?&?). split_and!; try done. by eapply grows_rooted.
  - intros ?. by eapply grows_rooted.
Qed.
Lemma w_ok_frame d d' pc : frame source d d' → w_ok d pc → w_ok d' pc.
Proof.
  intros Hf. destruct pc; cbn; try done; [by apply pub_frame|]. intros Hc. eapply Forall_impl; [exact Hc|].
  intros c. by apply completion_frame.
Qed.

(** A thread of the walk has moved: what it must show. *)
Record moved_ok (sh sh' : shared D) (ws : list writer_pc) (pc pc' : traversal_pc) : Prop := {
  mo_grows : grows (sh_tracker sh) (sh_tracker sh');
  mo_frame : frame source (sh_destination sh) (sh_destination sh');
  mo_tracker store : tracker_ok reaching store (sh_tracker sh) → tracker_ok reaching store (sh_tracker sh');
  mo_progress : progress_ok (progress_failed <$> sh_progress sh) (failed_failure_ids (sh_tracker sh)) →
    progress_ok (progress_failed <$> sh_progress sh') (failed_failure_ids (sh_tracker sh'));
  mo_known b cs : discovered_children (sh_tracker sh') !! b = Some cs →
    discovered_children (sh_tracker sh) !! b = Some cs ∨ opened pc = Some b ∧ opened pc' = None ∧ cs = block_children source b;
  mo_visited : sh_visited sh ⊆ sh_visited sh';
  mo_items r b : (r, b) ∈ work_items (sh_work sh') → (r, b) ∈ work_items (sh_work sh) ∨ reaching r b;
  mo_thread : t_ok (sh_tracker sh') pc';
  mo_opened b : opened pc' = Some b → opened pc = Some b ∨ b ∉ sh_visited sh ∧ b ∈ sh_visited sh';
  mo_jobs : Forall (job_ok source) (write_jobs (sh_writes sh)) → Forall (job_ok source) (write_jobs (sh_writes sh'));
  mo_rooted b : handed sh' ws b → handed sh ws b ∨ roots_of (sh_tracker sh') b ≠ ∅;
  mo_pending : checkpoint_pending (sh_writes sh') || checkpoint_running (sh_writes sh') = true →
    checkpoint_pending (sh_writes sh) || checkpoint_running (sh_writes sh) = true ∨ root_ids ≠ []
}.

Lemma data_ok_moved sh sh' ts ws i pc pc' : data_ok sh ts ws → ts !! i = Some pc → moved_ok sh sh' ws pc pc' →
  data_ok sh' (<[i := pc']> ts) ws.
Proof.
  intros [Hf (store&Ht&Hst) Hp Hk Hi Hth Ho Hj Hw Hr Hpe] Hpc [Mg Mf Mt Mp Mk Mv Mi Mth Mo Mj Mr Mpe].
  assert (∀ b cs, discovered_children (sh_tracker sh') !! b = Some cs → b ∈ sh_visited sh' ∧ cs = block_children source b) as Hk'.
  { intros b cs [Hb|(Hb&_&->)]%Mk.
    - destruct (Hk b cs Hb). auto.
    - destruct (Ho i pc b Hpc Hb) as (?&_). auto. }
  split; auto.
  - by etrans.
  - exists store. auto.
  - intros r b [?|?]%Mi; auto.
  - apply Forall_insert; [|done]. eapply Forall_impl; [exact Hth|]. intros z. by apply t_ok_grows.
  - assert (∀ j z b, ts !! j = Some z → opened z = Some b → j ≠ i → discovered_children (sh_tracker sh') !! b = None) as Hnone.
    { intros j z b Hj' Hz Hne. destruct (Ho j z b Hj' Hz) as (_&Hn&Hu).
      destruct (discovered_children (sh_tracker sh') !! b) as [cs|] eqn:Hd; [|done].
      apply Mk in Hd as [?|(Hb&_)]; [congruence|]. destruct Hne. by apply (Hu i pc). }
    assert (∀ b, opened pc' = Some b → b ∈ sh_visited sh' ∧ discovered_children (sh_tracker sh') !! b = None
      ∧ ∀ j z, ts !! j = Some z → opened z = Some b → j = i) as Hnew.
    { intros b Hb. pose proof (Mo b Hb) as Hcase.
      assert (discovered_children (sh_tracker sh) !! b = None ∧ b ∈ sh_visited sh' ∧ ∀ j z, ts !! j = Some z → opened z = Some b → j = i)
        as (Hn&?&?).
      { destruct Hcase as [Hold|[Hold ?]].
        - destruct (Ho i pc b Hpc Hold) as (?&?&Hu). split_and!; auto. intros j z Hz Hzb. symmetry. by apply (Hu j z).
        - split_and!; [|done|].
          + destruct (discovered_children (sh_tracker sh) !! b) as [cs|] eqn:Hd; [|done]. by destruct (Hk b cs Hd).
          + intros j z Hz Hzb. by destruct (Ho j z b Hz Hzb). }
      split_and!; [done| |done].
      destruct (discovered_children (sh_tracker sh') !! b) as [cs|] eqn:Hd; [|done].
      apply Mk in Hd as [?|(_&?&_)]; congruence. }
    intros j z b [(<-&<-&_)|[Hne Hz]]%list_lookup_insert_Some Hb.
    + destruct (Hnew b Hb) as (?&?&Hu). split_and!; [done..|].
      intros k z' [(?&?&_)|[Hne' Hz']]%list_lookup_insert_Some Hzb; [done|]. symmetry. by apply (Hu k z').
    + destruct (Ho j z b Hz Hb) as (?&?&Hu). split_and!; [auto|by apply (Hnone j z)|].
      intros k z' [(<-&<-&_)|[Hne' Hz']]%list_lookup_insert_Some Hzb; [|by apply (Hu k z')].
      destruct (Hnew b Hzb) as (_&_&Hu'). by apply (Hu' j z).
  - eapply Forall_impl; [exact Hw|]. intros z. by apply w_ok_frame.
  - intros b [Hb|?]%Mr; [|done]. eapply grows_rooted; [done|auto].
  - intros [?|?]%Mpe; auto.
Qed.

(** What it must settle itself, as long as nothing is stopped. *)
Record moved_covers (sh sh' : shared D) (ws : list writer_pc) (pc pc' : traversal_pc) : Prop := {
  mc_visited b : b ∈ sh_visited sh' → b ∈ sh_visited sh ∨ opened pc' = Some b;
  mc_children b : children_of (sh_tracker sh) b = block_children source b → children_of (sh_tracker sh') b = block_children source b;
  mc_opened b : opened pc = Some b → opened pc' = Some b ∨ children_of (sh_tracker sh') b = block_children source b;
  mc_unexpanded b : unexpanded pc = Some b → unexpanded pc' = Some b
    ∨ ∀ c, c ∈ block_children source b → ∃ r, (r, c) ∈ work_items (sh_work sh');
  mc_items rb : rb ∈ work_items (sh_work sh) → rb ∈ work_items (sh_work sh') ∨ untried pc' = Some rb;
  mc_untried r b : untried pc = Some (r, b) → untried pc' = Some (r, b) ∨ b ∈ sh_visited sh' ∧ r ∈ roots_of (sh_tracker sh') b;
  mc_unreported b : unreported pc = Some b → unreported pc' = Some b ∨ read_reported source (sh_tracker sh') b;
  mc_settled b : settled_block sh ws b → settled_block sh' ws b;
  mc_unwritten b x : unwritten pc = Some b → source b = Ok (Some x) → unwritten pc' = Some b ∨ settled_block sh' ws b
}.

Lemma opened_everywhere pc b : opened pc = Some b → unexpanded pc = Some b ∧ unreported pc = Some b ∧ unwritten pc = Some b.
Proof. by destruct pc. Qed.

Lemma covers_moved sh sh' ts ws i pc pc' : covers sh ts ws → ts !! i = Some pc → moved_ok sh sh' ws pc pc' →
  moved_covers sh sh' ws pc pc' → covers sh' (<[i := pc']> ts) ws.
Proof.
  intros [Hc Hcl Hro Hrep Hs] Hpc [Mg Mf _ _ _ Mv _ _ _ _ _ _] [Cv Cc Co Cx Ci Cu Cr Cs Cw].
  assert (∀ r b, queued sh ts (r, b) → queued sh' (<[i := pc']> ts) (r, b) ∨ b ∈ sh_visited sh' ∧ r ∈ roots_of (sh_tracker sh') b) as Hq.
  { intros r b [Hin|Hat].
    - left. destruct (Ci _ Hin); [by left|right; by eapply at_some_here].
    - destruct (at_some_step untried ts i pc pc' (r, b) _ Hpc (Cu r b) Hat); [left; by right|by right]. }
  assert (∀ b, opened pc' = Some b → at_some opened (<[i := pc']> ts) b ∧ at_some unexpanded (<[i := pc']> ts) b
    ∧ at_some unreported (<[i := pc']> ts) b ∧ at_some unwritten (<[i := pc']> ts) b) as Hnew.
  { intros b Hb. destruct (opened_everywhere _ _ Hb) as (?&?&?). split_and!; by eapply at_some_here. }
  split.
  - intros b [Hb|Hb]%Cv; [|right; by apply Hnew]. destruct (Hc b Hb) as [?|Hat]; [left; auto|].
    destruct (at_some_step opened ts i pc pc' b _ Hpc (Co b) Hat); auto.
  - intros b c [Hb|Hb]%Cv Hcc; [|right; by apply Hnew]. destruct (Hcl b c Hb Hcc) as [[?|[r Hr]]|Hat].
    + left. left. auto.
    + left. destruct (Hq r c Hr) as [?|[? _]]; [right; by exists r|by left].
    + destruct (at_some_step unexpanded ts i pc pc' b _ Hpc (Cx b) Hat) as [?|Hall]; [by right|left; right].
      destruct (Hall c Hcc) as [r Hr]. exists r. by left.
  - intros r Hr. destruct (Hro r Hr) as [[? ?]|Hqr]; [left; split; [auto|by apply (gr_roots _ _ Mg)]|].
    destruct (Hq r r Hqr); auto.
  - intros b [Hb|Hb]%Cv; [|right; by apply Hnew]. destruct (Hrep b Hb) as [?|Hat].
    + left. eapply read_reported_mono; [apply (gr_templates _ _ Mg)|done].
    + destruct (at_some_step unreported ts i pc pc' b _ Hpc (Cr b) Hat); auto.
  - intros b x [Hb|Hb]%Cv Hx; [|right; by apply Hnew]. destruct (Hs b x Hb Hx) as [?|Hat]; [left; auto|].
    assert (unwritten pc = Some b → unwritten pc' = Some b ∨ settled_block sh' ws b) as Hw by (intros; by eapply Cw).
    destruct (at_some_step unwritten ts i pc pc' b _ Hpc Hw Hat); auto.
Qed.

(** *** Changes of the tracker *)
Record tracker_moves (sh sh' : shared D) : Prop := {
  tm_grows : grows (sh_tracker sh) (sh_tracker sh');
  tm_tracker store : tracker_ok reaching store (sh_tracker sh) → tracker_ok reaching store (sh_tracker sh');
  tm_progress : progress_ok (progress_failed <$> sh_progress sh) (failed_failure_ids (sh_tracker sh)) →
    progress_ok (progress_failed <$> sh_progress sh') (failed_failure_ids (sh_tracker sh'));
  tm_children : discovered_children (sh_tracker sh') = discovered_children (sh_tracker sh)
}.
Lemma tracker_moves_refl sh sh' : sh_tracker sh' = sh_tracker sh →
  progress_failed <$> sh_progress sh' = progress_failed <$> sh_progress sh → tracker_moves sh sh'.
Proof. intros Ht Hp. split; rewrite ?Ht, ?Hp; (done || apply grows_refl). Qed.

Lemma records_grows b tm t t' : records b tm t t' → grows t t'.
Proof.
  intros [Hc Hr Ht Hts]. split.
  - intros c r. unfold roots_of. by rewrite Hr.
  - intros c tm' Hin. destruct (decide (c = b)) as [->|Hne]; [rewrite Ht; apply elem_of_app; by left|by rewrite Hts].
Qed.

Lemma record_moves b op m sh : roots_of (sh_tracker sh) b ≠ ∅ → (∃ store, tracker_ok reaching store (sh_tracker sh)) →
  let sh' := with_tracker (record b op m) sh in
  tracker_moves sh sh' ∧ {| template_operation := op; template_message := m |} ∈ templates_of (sh_tracker sh') b.
Proof.
  intros Hr [store Hst] sh'.
  pose proof (λ st Ht, record_ok reaching st b op m (sh_tracker sh) (sh_progress sh) Hr Ht) as Hok.
  destruct (Hok store Hst) as [_ Hrec]. split; [split|].
  - by eapply records_grows.
  - intros st Ht. by destruct (Hok st Ht).
  - by apply (record_progress b op m (sh_tracker sh, sh_progress sh)).
  - apply (records_children _ _ _ _ Hrec).
  - cbn [sh_tracker with_tracker sh']. rewrite (records_template _ _ _ _ Hrec). apply elem_of_app. right. by left.
Qed.

Lemma known_sound sh ts ws : data_ok sh ts ws →
  ∀ b c x, c ∈ children_of (sh_tracker sh) b → reaching x b → reaching x c.
Proof.
  intros Hd b c x Hc Hx. unfold children_of in Hc. destruct (discovered_children (sh_tracker sh) !! b) as [cs|] eqn:Hb.
  - destruct (da_known _ _ _ Hd b cs Hb) as [_ ->]. by eapply reach_child.
  - by apply not_elem_of_nil in Hc.
Qed.

Lemma note_moves r b sh ts ws : data_ok sh ts ws → reaching r b →
  let sh' := with_tracker (λ t, (note_block_root r b t.1, t.2)) sh in
  tracker_moves sh sh' ∧ r ∈ roots_of (sh_tracker sh') b.
Proof.
  intros Hd Hr sh'. pose proof (known_sound _ _ _ Hd) as Hs. destruct (da_tracker _ _ _ Hd) as (store&Hst&_).
  pose proof (λ st Ht, note_block_root_ok reaching st r b (sh_tracker sh) Hs Hr Ht) as Hok.
  destruct (Hok store Hst) as (_&Hsp&Hin). split; [split|done].
  - split; [apply (spreads_roots _ _ Hsp)|]. intros c tm. unfold templates_of.
    cbn [sh_tracker with_tracker sh' fst]. by rewrite (spreads_templates _ _ Hsp).
  - intros st Ht. by destruct (Hok st Ht).
  - cbn [sh_tracker sh_progress with_tracker sh' fst snd]. by rewrite (spreads_ids _ _ Hsp).
  - apply (spreads_children _ _ Hsp).
Qed.

(** *** Steps that leave the queues and the visited set alone *)
Lemma settled_moves sh sh' ws b : (∀ b, handed sh ws b → handed sh' ws b) → grows (sh_tracker sh) (sh_tracker sh') →
  frame source (sh_destination sh) (sh_destination sh') → settled_block sh ws b → settled_block sh' ws b.
Proof.
  intros Hh Hg Hf [?|[?|?]]; [left; auto|right; left; by eapply landed_frame|right; right].
  eapply write_failed_mono; [apply (gr_templates _ _ Hg)|done].
Qed.

Lemma moved_quiet sh sh' ws pc pc' : tracker_moves sh sh' → frame source (sh_destination sh) (sh_destination sh') →
  sh_work sh' = sh_work sh → sh_writes sh' = sh_writes sh → sh_visited sh' = sh_visited sh →
  t_ok (sh_tracker sh') pc' → (∀ b, opened pc' = Some b → opened pc = Some b) → moved_ok sh sh' ws pc pc'.
Proof.
  intros [? ? ? Hc] Hf Hw Hwr Hv Ht Ho. split; rewrite ?Hw, ?Hwr, ?Hv, ?Hc; auto.
  intros b Hb. left. unfold handed in *. by rewrite Hwr in Hb.
Qed.

Lemma covers_quiet sh sh' ws pc pc' : tracker_moves sh sh' → frame source (sh_destination sh) (sh_destination sh') →
  sh_work sh' = sh_work sh → sh_writes sh' = sh_writes sh → sh_visited sh' = sh_visited sh →
  (∀ b, opened pc = Some b → opened pc' = Some b ∨ children_of (sh_tracker sh') b = block_children source b) →
  (∀ b, unexpanded pc = Some b → unexpanded pc' = Some b ∨ block_children source b = []) →
  (∀ rb, untried pc = Some rb → untried pc' = Some rb) →
  (∀ b, unreported pc = Some b → unreported pc' = Some b ∨ read_reported source (sh_tracker sh') b) →
  (∀ b x, unwritten pc = Some b → source b = Ok (Some x) → unwritten pc' = Some b ∨ settled_block sh' ws b) →
  moved_covers sh sh' ws pc pc'.
Proof.
  intros Ht Hf Hw Hwr Hv Ho Hx Hu Hr Hs. split; rewrite ?Hw, ?Hv; auto.
  - intros b. unfold children_of. by rewrite (tm_children _ _ Ht).
  - intros b Hb. destruct (Hx b Hb) as [?|Hnil]; [by left|right]; rewrite Hnil. intros c Hc. by apply not_elem_of_nil in Hc.
  - intros b. apply settled_moves; [|apply (tm_grows _ _ Ht)|done]. intros c. unfold handed. by rewrite Hwr.
Qed.

(** *** The steps, one by one *)
Definition both_ok (stop : bool) (sh sh' : shared D) (ws : list writer_pc) (pc pc' : traversal_pc) : Prop :=
  moved_ok sh sh' ws pc pc' ∧ (stop = false → moved_covers sh sh' ws pc pc').

Lemma settled_failed sh ws b op m : op ≠ DecodeSourceBlock →
  {| template_operation := op; template_message := m |} ∈ templates_of (sh_tracker sh) b → settled_block sh ws b.
Proof. intros Hop Hin. right. right. eexists. split; [exact Hin|done]. Qed.

Lemma step_note r b sh ts ws stop : data_ok sh ts ws → reaching r b →
  both_ok stop sh (with_tracker (λ t, (note_block_root r b t.1, t.2)) sh) ws (TNote r b) (TVisit r b).
Proof.
  intros Hd Hr. destruct (note_moves r b sh ts ws Hd Hr) as [Ht Hin]. split.
  - by apply moved_quiet.
  - intros _. by apply covers_quiet.
Qed.

Lemma step_revisit r b sh ws stop : b ∈ sh_visited sh → r ∈ roots_of (sh_tracker sh) b →
  both_ok stop sh sh ws (TVisit r b) TFinish.
Proof.
  intros Hb Hr. pose proof (tracker_moves_refl sh sh eq_refl eq_refl) as Ht. split; [by apply moved_quiet|].
  intros _. split; auto; try done. intros r' b' [= <- <-]. auto.
Qed.

Lemma step_visit r b sh ws stop : b ∉ sh_visited sh → reaching r b → r ∈ roots_of (sh_tracker sh) b →
  both_ok stop sh (with_visited ({[b]} ∪ sh_visited sh) sh) ws (TVisit r b) (TRead r b).
Proof.
  intros Hb Hre Hr. split.
  - split; cbn; auto; try apply grows_refl; try done.
    + set_solver.
    + intros b' [= <-]. right. set_solver.
  - intros _. split; cbn; auto; try done.
    + intros c [->%elem_of_singleton|?]%elem_of_union; auto.
    + intros r' b' [= <- <-]. right. split; [set_solver|done].
Qed.

Lemma step_read r b sh ws stop : reaching r b → r ∈ roots_of (sh_tracker sh) b → discovered_children (sh_tracker sh) !! b = None →
  let '(sh', pc', _) := read_step source r b sh in both_ok stop sh sh' ws (TRead r b) pc'.
Proof.
  intros Hre Hr Hn. unfold read_step. set (sh' := with_metrics _ sh).
  assert (tracker_moves sh sh') as Ht by (apply tracker_moves_refl; [done|by cbn; destruct (sh_progress sh)]).
  assert (roots_of (sh_tracker sh) b ≠ ∅) as Hne by set_solver.
  assert (children_of (sh_tracker sh) b = []) as Hnil by (unfold children_of; by rewrite Hn).
  destruct (source b) as [[x|]|e] eqn:Hs; (split; [apply moved_quiet; cbn; rewrite ?Hs; done|intros _]);
    apply covers_quiet; try done; auto; unfold block_children;
    try (intros b' x [= <-]; congruence); intros b' [= <-]; right; by rewrite Hs.
Qed.

Lemma step_read_failed b m sh ts ws stop : data_ok sh ts ws → (∀ x, source b ≠ Ok (Some x)) → roots_of (sh_tracker sh) b ≠ ∅ →
  both_ok stop sh (with_tracker (record b ReadSourceBlock m) sh) ws (TReadFailed b m) TFinish.
Proof.
  intros Hd Hs Hr. destruct (da_tracker _ _ _ Hd) as (store&Hst&_).
  destruct (record_moves b ReadSourceBlock m sh Hr (ex_intro _ store Hst)) as [Ht Hin].
  split; [by apply moved_quiet|]. intros _. apply covers_quiet; try done; auto.
  intros b' [= <-]. right. unfold read_reported. destruct (source b) as [[x|]|e]; [by destruct (Hs x)|by exists m..].
Qed.

Lemma step_check_failed b m sh ts ws stop : data_ok sh ts ws → roots_of (sh_tracker sh) b ≠ ∅ →
  both_ok stop sh (with_tracker (record b CheckDestinationBlock m) sh) ws (TCheckFailed b m) TFinish.
Proof.
  intros Hd Hr. destruct (da_tracker _ _ _ Hd) as (store&Hst&_).
  destruct (record_moves b CheckDestinationBlock m sh Hr (ex_intro _ store Hst)) as [Ht Hin].
  split; [by apply moved_quiet|]. intros _. apply covers_quiet; try done; auto.
  intros b' x [= <-] _. right. by eapply settled_failed; [|exact Hin].
Qed.

(** A step of a thread that holds nothing. *)
Lemma step_idle sh sh' ws pc pc' stop : sh_tracker sh' = sh_tracker sh →
  progress_failed <$> sh_progress sh' = progress_failed <$> sh_progress sh →
  sh_destination sh' = sh_destination sh → work_items (sh_work sh') = work_items (sh_work sh) → sh_writes sh' = sh_writes sh →
  sh_visited sh' = sh_visited sh → t_ok (sh_tracker sh) pc' →
  opened pc = None → opened pc' = None → unexpanded pc = None → untried pc = None → unreported pc = None → unwritten pc = None →
  both_ok stop sh sh' ws pc pc'.
Proof.
  intros Ht Hp Hd Hw Hwr Hv Htok Ho Ho' Hx Hu Hr Hs.
  assert (∀ b, handed sh' ws b ↔ handed sh ws b) as Hh by (intros b; unfold handed; by rewrite Hwr).
  split.
  - split; rewrite ?Ht, ?Hp, ?Hd, ?Hw, ?Hwr, ?Hv, ?Ho'; auto; try done; try apply grows_refl.
    intros b Hb. left. by apply Hh.
  - intros _. split; rewrite ?Ht, ?Hw, ?Hv, ?Ho, ?Hx, ?Hu, ?Hr, ?Hs; auto; try done.
    intros b. apply settled_moves; [intros c; by rewrite Hh|rewrite Ht; apply grows_refl|by rewrite Hd].
Qed.

Lemma step_finish sh ws stop b : both_ok stop sh (with_work (finish_item b (sh_work sh)) sh) ws TFinish TPop.
Proof. by apply step_idle. Qed.

Lemma step_pop sh ts ws : data_ok sh ts ws → let '(sh', pc', _) := pop_step sh in both_ok (sh_stop sh) sh sh' ws TPop pc'.
Proof.
  intros Hd. unfold pop_step, pop_attempt.
  destruct (work_shutdown (sh_work sh) || sh_stop sh); [by apply step_idle|].
  destruct (work_items (sh_work sh)) as [|[r b] items] eqn:Hi.
  - destruct (active_workers (sh_work sh) =? 0); apply step_idle; cbn; done.
  - split.
    + split; cbn; auto; try done; try apply grows_refl.
      * intros r' b' Hin. left. rewrite Hi. by right.
      * apply (da_items _ _ _ Hd). rewrite Hi. by left.
    + intros _. split; cbn; auto; try done. rewrite Hi. intros rb [->|?]%elem_of_cons; auto.
Qed.

(** Decoding records a failure or not; then the children are remembered. *)
Lemma decode_moves b x sh : source b = Ok (Some x) → roots_of (sh_tracker sh) b ≠ ∅ →
  (∃ store, tracker_ok reaching store (sh_tracker sh)) →
  let d := decode_source_block b x (sh_tracker sh, sh_progress sh) in
  let sh' := with_tracker (λ _, d.1) sh in
  d.2 = block_children source b ∧ tracker_moves sh sh' ∧ read_reported source (sh_tracker sh') b.
Proof.
  intros Hs Hr Hst. unfold decode_source_block, block_children, read_reported. rewrite Hs.
  destruct (block_child_ids b x) as [cs|m].
  - split_and!; [done|by apply tracker_moves_refl|done].
  - destruct (record_moves b DecodeSourceBlock m sh Hr Hst) as [Ht Hin].
    assert (with_tracker (λ _, record b DecodeSourceBlock m (sh_tracker sh, sh_progress sh)) sh
      = with_tracker (record b DecodeSourceBlock m) sh) as Heq by done.
    cbn [fst snd]. by rewrite Heq.
Qed.

Lemma remember_moves b r (sh : shared D) : reaching r b → discovered_children (sh_tracker sh) !! b = None →
  (∀ b c x, c ∈ children_of (sh_tracker sh) b → reaching x b → reaching x c) →
  (∃ store, tracker_ok reaching store (sh_tracker sh)) →
  let t' := remember_children b (block_children source b) (sh_tracker sh) in
  (∀ store, tracker_ok reaching store (sh_tracker sh) → tracker_ok reaching store t')
  ∧ grows (sh_tracker sh) t' ∧ failed_failure_ids t' = failed_failure_ids (sh_tracker sh)
  ∧ discovered_children t' = <[b := block_children source b]> (discovered_children (sh_tracker sh)).
Proof.
  intros Hr Hn Hsound [store Hst] t'.
  pose proof (λ st Ht, remember_children_ok reaching st b (block_children source b) (sh_tracker sh) Hsound
    (λ x c Hc Hx, reach_child _ _ x b c Hx Hc) Hn Ht) as Hok.
  destruct (Hok store Hst) as [_ Hsp]. split_and!.
  - intros st Ht. by destruct (Hok st Ht).
  - split; [apply (spreads_roots _ _ Hsp)|]. intros c tm. unfold templates_of, t'. by rewrite (spreads_templates _ _ Hsp).
  - apply remember_ids.
  - apply (spreads_children _ _ Hsp).
Qed.

Lemma step_decode r b x sh ts ws i stop : data_ok sh ts ws → ts !! i = Some (TDecode r b x) →
  let '(sh', pc', _) := decode_step r b x sh in both_ok stop sh sh' ws (TDecode r b x) pc'.
Proof.
  intros Hd Hi. destruct (Forall_lookup_1 _ _ _ _ (da_threads _ _ _ Hd) Hi) as (Hs&Hre&Hr).
  destruct (da_opened _ _ _ Hd i _ b Hi eq_refl) as (Hv&Hn&_).
  destruct (da_tracker _ _ _ Hd) as (store&Hst&_). assert (roots_of (sh_tracker sh) b ≠ ∅) as Hne by set_solver.
  destruct (decode_moves b x sh Hs Hne (ex_intro _ store Hst)) as (Hcs&Ht&Hrep).
  unfold decode_step. destruct (decode_source_block b x (sh_tracker sh, sh_progress sh)) as [t cs].
  cbn [fst snd] in Hcs, Ht, Hrep. subst cs. set (sh1 := with_tracker (λ _, t) sh) in *. destruct Ht as [Hg1 Ht1 Hp1 Hc1].
  destruct (remember_moves b r sh1 Hre) as (Ht2&Hg2&Hid&Hc2).
  { by rewrite Hc1. }
  { unfold children_of. rewrite Hc1. apply (known_sound _ _ _ Hd). }
  { exists store. auto. }
  change (sh_tracker sh1) with t.1 in *. change (sh_progress sh1) with t.2 in *. rewrite Hc1 in Hc2.
  set (sh2 := with_tracker _ sh). change (sh_tracker sh2) with (remember_children b (block_children source b) t.1).
  pose proof (grows_trans _ _ _ Hg1 Hg2) as Hg. split.
  - split; cbn; auto; try done.
    + rewrite Hid. auto.
    + intros c cs. rewrite Hc2. intros [(<-&<-)|[? ?]]%lookup_insert_Some; auto.
    + split_and!; [done..| |done]. by eapply grows_rooted.
  - intros _. split; cbn; auto; try done.
    + intros c. unfold children_of. rewrite Hc2. destruct (decide (b = c)) as [<-|Hbc];
        [by rewrite lookup_insert_eq|by rewrite lookup_insert_ne].
    + intros c [= <-]. right. unfold children_of. by rewrite Hc2, lookup_insert_eq.
    + intros c [= <-]. right. eapply read_reported_mono; [apply (gr_templates _ _ Hg2)|done].
    + intros c. by apply settled_moves.
Qed.

Lemma arm_of_ok t b x : source b = Ok (Some x) → roots_of t b ≠ ∅ →
  t_ok t (arm_of mode b x) ∧ opened (arm_of mode b x) = None ∧ unwritten (arm_of mode b x) = Some b.
Proof. intros Hs Hr. unfold arm_of. destruct mode eqn:Hmode; split_and!; (done || by split). Qed.

Lemma step_children r b x cs sh ws : t_ok (sh_tracker sh) (TChildren r b x cs) →
  let '(sh', pc', _) := children_step mode r b x cs sh in both_ok (sh_stop sh) sh sh' ws (TChildren r b x cs) pc'.
Proof.
  intros (Hs&Hre&Hr&->). unfold children_step. destruct (arm_of_ok _ b x Hs Hr) as (Htok&Ho&Hu).
  pose proof (tracker_moves_refl sh sh eq_refl eq_refl) as Ht.
  destruct (wants_children (block_children source b) (sh_stop sh)) eqn:Hw.
  - split; [by apply moved_quiet|intros _; apply covers_quiet; try done; auto].
  - split; [apply moved_quiet; try done; by rewrite Ho|intros Hstop; apply covers_quiet; try done; auto].
    + intros b' [= <-]. right. unfold wants_children in Hw. rewrite Hstop, orb_false_r in Hw.
      by apply negb_false_iff, bool_decide_eq_true in Hw.
    + intros b' x' [= <-] _. by left.
Qed.

Lemma step_push r b x cs sh ws : t_ok (sh_tracker sh) (TPushChildren r b x cs) → (sh_stop sh = false → work_shutdown (sh_work sh) = false) →
  let '(sh', pc', _) := push_step mode r b x cs sh in both_ok (sh_stop sh) sh sh' ws (TPushChildren r b x cs) pc'.
Proof.
  intros (Hs&Hre&Hr&->) Hsd. unfold push_step. destruct (arm_of_ok _ b x Hs Hr) as (Htok&Ho&Hu).
  destruct (push_children r (block_children source b) (sh_work sh)) as [w notified] eqn:Henq.
  assert (∀ rb, rb ∈ work_items w → rb ∈ work_items (sh_work sh) ∨ ∃ c, c ∈ block_children source b ∧ rb = (r, c)) as Hback.
  { unfold push_children in Henq. destruct (work_shutdown _); simplify_eq; [auto|].
    cbn. intros rb [?|(c&->&?)%list_elem_of_fmap]%elem_of_app; [by left|right]. by exists c. }
  split.
  - split; cbn; auto; try done; try apply grows_refl.
    + intros r' b' [?|(c&Hc&[= -> ->])]%Hback; [by left|right]. by eapply reach_child.
    + intros b'. rewrite Ho. done.
  - intros Hstop. specialize (Hsd Hstop).
    assert (∀ rb, rb ∈ work_items (sh_work sh) ∨ (∃ c, c ∈ block_children source b ∧ rb = (r, c)) → rb ∈ work_items w) as Hin.
    { unfold push_children in Henq. rewrite Hsd in Henq. simplify_eq.
      cbn. intros rb [?|(c&?&->)]; apply elem_of_app; [by left|right]. apply list_elem_of_fmap. by exists c. }
    split; cbn; auto; try done.
    + intros b' [= <-]. right. intros c Hc. exists r. apply Hin. right. by exists c.
    + intros b' x' [= <-] _. by left.
Qed.

Lemma step_check b x sh ws : t_ok (sh_tracker sh) (TCheck b x) →
  both_ok (sh_stop sh) sh sh ws (TCheck b x) (if sh_stop sh then TFinish else TGet b x).
Proof.
  intros Htok. pose proof (tracker_moves_refl sh sh eq_refl eq_refl) as Ht. destruct (sh_stop sh).
  - split; [|done]. by apply moved_quiet.
  - split; [by apply moved_quiet|]. intros _. apply covers_quiet; try done; auto.
Qed.

Lemma step_get b x sh ws stop : t_ok (sh_tracker sh) (TGet b x) →
  let '(sh', pc', _) := get_step b x sh in both_ok stop sh sh' ws (TGet b x) pc'.
Proof.
  intros [[Hmode Hs] Hr]. unfold get_step.
  destruct (get_block_bytes b (sh_destination sh)) as [d res] eqn:Hget. destruct (get_held _ _ _ _ Hget) as [Hh Hres].
  set (sh' := with_destination (sh_capability sh) d sh).
  assert (tracker_moves sh sh') as Ht by by apply tracker_moves_refl.
  assert (frame source (sh_destination sh) (sh_destination sh')) as Hf by (intros h; left; apply Hh).
  destruct res as [[y|]|e]; (split; [apply moved_quiet; try done; by split|intros _; apply covers_quiet; try done; auto]).
  intros b' x' [= <-] _. right. right. left. unfold landed. rewrite Hmode. exists y. cbn. rewrite Hh. symmetry. by apply Hres.
Qed.

Lemma step_enqueue job sh ts ws stop : data_ok sh ts ws → t_ok (sh_tracker sh) (TEnqueue job) →
  (sh_stop sh = false → write_shutdown (sh_writes sh) = false) → stop = sh_stop sh →
  let '(sh', pc', _) := enqueue_step mode config job sh in both_ok stop sh sh' ws (TEnqueue job) pc'.
Proof.
  intros Hd [Hj Hr] Hsd ->. unfold enqueue_step, enqueue_attempt.
  destruct (write_shutdown (sh_writes sh) || sh_stop sh) eqn:Hshut.
  { split; [apply moved_quiet; try done; by apply tracker_moves_refl|]. intros Hstop.
    rewrite (Hsd Hstop), Hstop in Hshut. done. }
  destruct (_ || byte_limit_reached _ _ _).
  { split; [apply moved_quiet; try done; by apply tracker_moves_refl|]. intros _.
    apply covers_quiet; try done; auto. }
  set (w := {| write_jobs := write_jobs (sh_writes sh) ++ [job] |}).
  set (pc' := match mode with BlindWrite => TAttempted | _ => TFinish end).
  assert (opened pc' = None ∧ t_ok (sh_tracker sh) pc') as [Ho Htok] by (subst pc'; by destruct mode).
  assert (∀ b, handed (with_writes w (sh_capability sh) sh) ws b ↔ handed sh ws b ∨ b = job_block_id job) as Hh.
  { intros b. unfold handed. cbn [sh_writes with_writes write_jobs w]. rewrite fmap_app, elem_of_app. change (job_block_id <$> [job]) with [job_block_id job]. rewrite list_elem_of_singleton. tauto. }
  assert (root_ids ≠ []) as Hids.
  { destruct (da_tracker _ _ _ Hd) as (store&Hst&_). apply set_choose_L in Hr as [r Hr].
    pose proof (reach_requested _ _ _ _ (inv_sound _ _ _ _ Hst _ _ Hr)) as Hin. intros Hnil. rewrite Hnil in Hin.
    by apply not_elem_of_nil in Hin. }
  split.
  - split; cbn [sh_tracker sh_destination sh_progress sh_visited sh_work sh_writes with_writes]; auto; try done; try apply grows_refl.
    + intros b. by rewrite Ho.
    + intros Hjs. cbn. apply Forall_app. split; [done|]. by apply Forall_singleton.
    + intros b [?| ->]%Hh; auto.
  - intros _. split; cbn [sh_tracker sh_destination sh_progress sh_visited sh_work sh_writes with_writes]; auto; try done.
    + intros b. apply settled_moves; [intros c Hc; apply Hh; by left|apply grows_refl|done].
    + intros b x [= <-] _. right. left. apply Hh. by right.
Qed.

Lemma step_traversal pc sh sh' pc' wk ts ws i : data_ok sh ts ws → ts !! i = Some pc → t_step pc sh = Some (sh', pc', wk) →
  (sh_stop sh = false → busy pc = 1 → work_shutdown (sh_work sh) = false ∧ write_shutdown (sh_writes sh) = false) →
  both_ok (sh_stop sh) sh sh' ws pc pc'.
Proof.
  intros Hd Hi Hs Hopen. pose proof (Forall_lookup_1 _ _ _ _ (da_threads _ _ _ Hd) Hi) as Htok.
  destruct pc; cbn [traversal_step] in Hs; try done.
  - pose proof (step_pop sh ts ws Hd) as Hgoal. injection Hs as Hs. by rewrite Hs in Hgoal.
  - injection Hs as <- <- <-. by eapply step_note.
  - destruct Htok. case_decide; injection Hs as <- <- <-; [by apply step_revisit|by apply step_visit].
  - destruct Htok. destruct (da_opened _ _ _ Hd i _ _ Hi eq_refl) as (_&Hn&_).
    pose proof (step_read request_root_id block_id sh ws (sh_stop sh)) as Hgoal. injection Hs as Hs. rewrite Hs in Hgoal. by apply Hgoal.
  - destruct Htok. injection Hs as <- <- <-. by eapply step_read_failed.
  - pose proof (step_decode _ _ _ sh ts ws i (sh_stop sh) Hd Hi) as Hgoal. injection Hs as Hs. by rewrite Hs in Hgoal.
  - pose proof (step_children _ _ _ _ sh ws Htok) as Hgoal. injection Hs as <- <- <-. exact Hgoal.
  - pose proof (step_push _ _ _ _ sh ws Htok) as Hgoal. injection Hs as Hs. rewrite Hs in Hgoal. apply Hgoal.
    intros Hst. by apply Hopen.
  - injection Hs as <- <- <-. by apply step_check.
  - pose proof (step_get _ _ sh ws (sh_stop sh) Htok) as Hgoal. injection Hs as Hs. by rewrite Hs in Hgoal.
  - injection Hs as <- <- <-. by eapply step_check_failed.
  - injection Hs as <- <- <-. by apply step_idle; try done; cbn; destruct (sh_progress sh).
  - pose proof (step_enqueue _ sh ts ws (sh_stop sh) Hd Htok) as Hgoal. injection Hs as Hs. rewrite Hs in Hgoal. apply Hgoal; [|done].
    intros Hst. by apply Hopen.
  - injection Hs as <- <- <-. by apply step_idle; try done; cbn; destruct (sh_progress sh).
  - injection Hs as <- <- <-. by apply step_finish.
Qed.

(** ** Steps of the write workers *)
Definition in_queue (sh : shared D) (b : block_hash) : Prop := b ∈ job_block_id <$> write_jobs (sh_writes sh).

Record wrote_ok (sh sh' : shared D) (pc pc' : writer_pc) : Prop := {
  wr_grows : grows (sh_tracker sh) (sh_tracker sh');
  wr_frame : frame source (sh_destination sh) (sh_destination sh');
  wr_tracker store : tracker_ok reaching store (sh_tracker sh) → store_failed root_ids store →
    ∃ store', tracker_ok reaching store' (sh_tracker sh') ∧ store_failed root_ids store';
  wr_progress : progress_ok (progress_failed <$> sh_progress sh) (failed_failure_ids (sh_tracker sh)) →
    progress_ok (progress_failed <$> sh_progress sh') (failed_failure_ids (sh_tracker sh'));
  wr_children : discovered_children (sh_tracker sh') = discovered_children (sh_tracker sh);
  wr_work : sh_work sh' = sh_work sh;
  wr_visited : sh_visited sh' = sh_visited sh;
  wr_writer : w_ok (sh_destination sh') pc';
  wr_jobs : Forall (job_ok source) (write_jobs (sh_writes sh)) → Forall (job_ok source) (write_jobs (sh_writes sh'));
  wr_ids b : in_queue sh' b ∨ b ∈ held_ids pc' → in_queue sh b ∨ b ∈ held_ids pc;
  wr_pending : checkpoint_pending (sh_writes sh') || checkpoint_running (sh_writes sh') = true →
    checkpoint_pending (sh_writes sh) || checkpoint_running (sh_writes sh) = true
}.
Definition wrote_covers (sh sh' : shared D) (pc pc' : writer_pc) : Prop :=
  ∀ b, in_queue sh b ∨ b ∈ held_ids pc →
    in_queue sh' b ∨ b ∈ held_ids pc' ∨ landed source mode (sh_destination sh') b ∨ write_failed (sh_tracker sh') b.

Lemma data_ok_wrote sh sh' ts ws i pc pc' : data_ok sh ts ws → ws !! i = Some pc → wrote_ok sh sh' pc pc' →
  data_ok sh' ts (<[i := pc']> ws).
Proof.
  intros [Hf (store&Ht&Hst) Hp Hk Hi Hth Ho Hj Hw Hr Hpe] Hpc [Wg Wf Wt Wp Wc Ww Wv Wo Wj Wi Wpe].
  split; rewrite ?Wc, ?Ww, ?Wv; auto.
  - by etrans.
  - by apply (Wt store).
  - eapply Forall_impl; [exact Hth|]. intros z. by apply t_ok_grows.
  - apply Forall_insert; [|done]. eapply Forall_impl; [exact Hw|]. intros z. by apply w_ok_frame.
  - intros b Hb. eapply grows_rooted; [done|]. apply Hr.
    assert (in_queue sh b ∨ (∃ z, z ∈ ws ∧ b ∈ held_ids z)) as [?|?]; [|by left|by right].
    assert (in_queue sh b ∨ b ∈ held_ids pc → in_queue sh b ∨ (∃ z, z ∈ ws ∧ b ∈ held_ids z)) as Hpc'.
    { intros [?|?]; [by left|right]. exists pc. split; [by apply list_elem_of_lookup_2 in Hpc|done]. }
    destruct Hb as [Hb|(z&[->|Hz]%elem_of_insert&Hb)]; [auto|auto|right; by exists z].
Qed.

Lemma covers_wrote sh sh' ts ws i pc pc' : covers sh ts ws → ws !! i = Some pc → wrote_ok sh sh' pc pc' →
  wrote_covers sh sh' pc pc' → covers sh' ts (<[i := pc']> ws).
Proof.
  intros [Hc Hcl Hr Hrep Hs] Hpc [Wg Wf _ _ Wc Ww Wv _ _ _ _] Hcov.
  assert (∀ b, in_queue sh b ∨ b ∈ held_ids pc → settled_block sh' (<[i := pc']> ws) b) as Hmine.
  { intros b [?|[?|?]]%Hcov; [by left; left|left; right|by right].
    exists pc'. split; [by eapply elem_of_inserted|done]. }
  assert (∀ b, settled_block sh ws b → settled_block sh' (<[i := pc']> ws) b) as Hset.
  { intros b [[?|(z&(j&Hj)%list_elem_of_lookup_1&Hb)]|[?|?]].
    - apply Hmine. by left.
    - destruct (decide (i = j)) as [<-|Hne]; [apply Hmine; right; congruence|left; right].
      exists z. split; [|done]. apply (list_elem_of_lookup_2 _ j). by rewrite list_lookup_insert_ne.
    - right. left. by eapply landed_frame.
    - right. right. eapply write_failed_mono; [apply (gr_templates _ _ Wg)|done]. }
  split; unfold queued; rewrite ?Ww, ?Wv; auto.
  - intros b Hb. unfold children_of. rewrite Wc. by apply Hc.
  - intros r Hin. destruct (Hr r Hin) as [[? ?]|?]; [left; split; [done|by apply (gr_roots _ _ Wg)]|by right].
  - intros b Hb. destruct (Hrep b Hb); [left|by right]. eapply read_reported_mono; [apply (gr_templates _ _ Wg)|done].
  - intros b x Hb Hx. destruct (Hs b x Hb Hx); auto.
Qed.

Lemma wrote_same_queue sh sh' pc pc' : tracker_moves sh sh' → frame source (sh_destination sh) (sh_destination sh') →
  sh_work sh' = sh_work sh → sh_visited sh' = sh_visited sh → write_jobs (sh_writes sh') = write_jobs (sh_writes sh) →
  (checkpoint_pending (sh_writes sh') || checkpoint_running (sh_writes sh') = true →
    checkpoint_pending (sh_writes sh) || checkpoint_running (sh_writes sh) = true) →
  w_ok (sh_destination sh') pc' → (∀ b, b ∈ held_ids pc' → b ∈ held_ids pc) →
  wrote_ok sh sh' pc pc' ∧ ((∀ b, b ∈ held_ids pc → b ∈ held_ids pc' ∨ landed source mode (sh_destination sh') b ∨ write_failed (sh_tracker sh') b)
    → wrote_covers sh sh' pc pc').
Proof.
  intros [? Ht ? ?] Hf Hw Hv Hj Hp Hok Hids.
  assert (∀ b, in_queue sh' b ↔ in_queue sh b) as Hq by (intros b; unfold in_queue; by rewrite Hj).
  split.
  - split; rewrite ?Hj; auto.
    + intros store Hst ?. exists store. auto.
    + intros b [?%Hq|?]; auto.
  - intros Hh b [?%Hq|?]; [by left|right; auto].
Qed.

Definition wrote_both (sh sh' : shared D) (pc pc' : writer_pc) : Prop :=
  wrote_ok sh sh' pc pc' ∧ (sh_stop sh = false → wrote_covers sh sh' pc pc').
Lemma wrote_same sh sh' pc pc' : tracker_moves sh sh' → frame source (sh_destination sh) (sh_destination sh') →
  sh_work sh' = sh_work sh → sh_visited sh' = sh_visited sh → write_jobs (sh_writes sh') = write_jobs (sh_writes sh) →
  (checkpoint_pending (sh_writes sh') || checkpoint_running (sh_writes sh') = true →
    checkpoint_pending (sh_writes sh) || checkpoint_running (sh_writes sh) = true) →
  w_ok (sh_destination sh') pc' → (∀ b, b ∈ held_ids pc' → b ∈ held_ids pc) →
  (∀ b, b ∈ held_ids pc → b ∈ held_ids pc' ∨ landed source mode (sh_destination sh') b ∨ write_failed (sh_tracker sh') b) →
  wrote_both sh sh' pc pc'.
Proof.
  intros. destruct (wrote_same_queue sh sh' pc pc') as [? ?]; try done. split; auto.
Qed.

Lemma step_publish p n total sh : pub_ok source (sh_destination sh) p →
  let '(sh', pc', _) := publish_batch_step p n total sh in wrote_both sh sh' (WPublish p n total) pc'.
Proof.
  intros Hp. unfold publish_batch_step.
  pose proof (publish_step_spec source p (sh_capability sh) (sh_destination sh) Hp) as Hspec.
  destruct (publish_step p _ _) as [[c d] [p'|cs]]; destruct Hspec as (Hf&Hi&Ho&_); cbn [outcome_ids outcome_ok] in *;
    (apply wrote_same; try done; cbn; rewrite Hi; auto).
Qed.

Lemma step_record c cs n total sh : Forall (completion_ok source (sh_destination sh)) (c :: cs) →
  roots_of (sh_tracker sh) (done_block_id c) ≠ ∅ → (∃ store, tracker_ok reaching store (sh_tracker sh)) →
  wrote_both sh (record_threaded_completion c sh) (WRecord (c :: cs) n total) (WRecord cs n total).
Proof.
  intros [(x&Hx&Hd) Hcs]%Forall_cons Hr Hst. unfold record_threaded_completion.
  assert (∀ b, b ∈ held_ids (WRecord cs n total) → b ∈ held_ids (WRecord (c :: cs) n total)) as Hids by (intros b Hb; by right).
  destruct (done_result c) as [[]|m] eqn:Hres.
  - pose proof (landed_source source mode _ _ _ Hx (Hd eq_refl)) as Hl.
    destruct (done_count_as_copied c); (apply wrote_same; try done;
      try (apply tracker_moves_refl; [done|by cbn; destruct (sh_progress sh)]); intros b [->|?]%elem_of_cons; auto).
  - destruct (record_moves (done_block_id c) WriteDestinationBlock m sh Hr Hst) as [Ht Hin].
    apply wrote_same; try done. intros b [->|?]%elem_of_cons; [|auto]. right. right. eexists. split; [exact Hin|done].
Qed.

Lemma step_next sh : 0 ≤ active_writes (sh_writes sh) → queue_ok config (sh_writes sh) →
  Forall (job_ok source) (write_jobs (sh_writes sh)) →
  let '(sh', pc', _) := next_step config sh in wrote_both sh sh' WNext pc'.
Proof.
  intros Hnn Hq Hjobs. unfold next_step.
  pose proof (next_attempt_spec config (sh_stop sh) (sh_capability sh) (sh_writes sh) Hnn Hq) as Hatt.
  destruct (next_attempt _ _ _ _ _) as [[w c] [jobs total| | |]]; destruct Hatt as [_ Hatt].
  - destruct Hatt as (_&_&_&Happ&_&_&Hr&Hp&_). rewrite <-Happ in Hjobs. apply Forall_app in Hjobs as [Hj1 Hj2].
    assert (∀ b, in_queue sh b ↔ b ∈ job_block_id <$> jobs ∨ b ∈ job_block_id <$> write_jobs w) as Hids.
    { intros b. unfold in_queue. by rewrite <-Happ, fmap_app, elem_of_app. }
    split.
    + split; cbn; rewrite ?Hr, ?Hp; auto; try done; try apply grows_refl.
      * intros store ? ?. by exists store.
      * intros b. unfold in_queue at 1. cbn. intros [?|?]; left; apply Hids; auto.
    + intros _ b [[?|?]%Hids|Hb]; [by right; left|by left|by apply not_elem_of_nil in Hb].
  - destruct Hatt as (Hj&Hj'&_&_&_&_&_&_&_&Hp&_).
    apply wrote_same; try done; cbn; [by rewrite Hj, Hj'|by rewrite Hp|by auto].
  - destruct Hatt as (Hj&Hj'&_&_&_&_&Hr&Hp&_).
    apply wrote_same; try done; cbn; [by rewrite Hj, Hj'|by rewrite Hp, Hr|by auto].
  - destruct Hatt as (->&_). apply wrote_same; try done; by auto.
Qed.

Lemma step_checkpoint sh cp : blind_write_checkpoint config = Some cp →
  let '(sh', pc', _) := checkpoint_step config sh in wrote_both sh sh' WCheckpoint pc'.
Proof.
  intros Hcp. unfold checkpoint_step. rewrite Hcp. pose proof (compaction cp (sh_destination sh) Hcp) as Hh.
  destruct (action cp (sh_destination sh)) as [d [[]|e]];
    (apply wrote_same; try done; [by intros h; left; apply Hh|by auto]).
Qed.

Lemma step_checkpoint_failed m sh : root_ids ≠ [] →
  wrote_both sh (with_tracker (record_store_failure root_ids CompactDestinationStore m) sh) (WCheckpointFailed m) WCheckpointStop.
Proof.
  intros Hids. set (sh' := with_tracker _ sh).
  pose proof (λ st Ht, record_store_failure_ok reaching st root_ids CompactDestinationStore m (sh_tracker sh) (sh_progress sh) Hids Ht) as Hok.
  split; [|intros _ b [?|?]; [by left|by right; left]].
  split; cbn [sh_work sh_visited sh_writes with_tracker sh']; auto; try done.
  - intros st Ht Hsf. destruct (Hok st Ht) as (Ht'&_). eexists. split; [exact Ht'|]. apply Forall_app. split; [done|].
    apply Forall_forall. intros f (r&->&Hin)%list_elem_of_fmap. by eexists _, r.
  - by apply (note_failed_id_progress DESTINATION_STORE_FAILURE_ID (sh_tracker sh, sh_progress sh)).
Qed.

Lemma step_writer pc sh sh' pc' wk y i : coordinated config y → sh = state y → data_ok sh (traversals y) (writers y) →
  writers y !! i = Some pc → w_step pc sh = Some (sh', pc', wk) → wrote_both sh sh' pc pc'.
Proof.
  intros Hc -> Hd Hi Hs. pose proof (Forall_lookup_1 _ _ _ _ (da_writers _ _ _ Hd) Hi) as Hw.
  destruct (writers_ok_at _ _ _ _ (co_writers _ _ Hc) Hi) as (_&_&_&Hrun). destruct (writers_ok_nonneg _ _ (co_writers _ _ Hc)) as [Hnn _].
  destruct (da_tracker _ _ _ Hd) as (store&Hst&_).
  pose proof (co_queue _ _ Hc) as Hq.
  destruct pc as [| |p n total|[|c cs] n total| | |message| | | |]; try done; cbn [writer_step] in Hs; cbn in Hw, Hrun.
  - pose proof (step_next (state y) Hnn Hq (da_jobs _ _ _ Hd)) as Hgoal. injection Hs as Hs. by rewrite Hs in Hgoal.
  - pose proof (step_publish p n total (state y) Hw) as Hgoal. injection Hs as Hs. by rewrite Hs in Hgoal.
  - injection Hs as <- <- <-. apply wrote_same; try done; by auto.
  - injection Hs as <- <- <-. apply step_record; [done| |by exists store]. apply (da_rooted _ _ _ Hd).
    right. eexists. split; [by apply list_elem_of_lookup_2 in Hi|]. by left.
  - assert (is_Some (blind_write_checkpoint config)) as [cp Hcp].
    { apply not_eq_None_Some, (qo_configured _ _ Hq). rewrite (Hrun eq_refl). apply orb_true_r. }
    pose proof (step_checkpoint (state y) cp Hcp) as Hgoal. injection Hs as Hs. by rewrite Hs in Hgoal.
  - injection Hs as <- <- <-. apply wrote_same; try done; cbn; [|by auto]. rewrite orb_false_r. by intros ->.
  - injection Hs as <- <- <-. apply step_checkpoint_failed. apply (da_pending _ _ _ Hd). rewrite (Hrun eq_refl). apply orb_true_r.
  - injection Hs as <- <- <-. apply wrote_same; try done; by auto.
  - injection Hs as <- <- <-. destruct (qo_quiet _ _ Hq (Hrun eq_refl)) as [Hj _].
    apply wrote_same; try done; cbn; [|by auto]. rewrite orb_false_r. by intros ->.
Qed.

(** ** The system *)
Definition sound (y : system D) : Prop :=
  coordinated config y ∧ data_ok (state y) (traversals y) (writers y)
  ∧ (sh_stop (state y) = false → covers (state y) (traversals y) (writers y)).

Lemma traversal_stop pc sh sh' pc' wk : t_step pc sh = Some (sh', pc', wk) → sh_stop sh' = sh_stop sh.
Proof.
  intros Hs. destruct pc; cbn [traversal_step] in Hs; try done.
  - unfold pop_step in Hs. by destruct (pop_attempt _ _) as [? []]; simplify_eq.
  - by simplify_eq.
  - by case_decide; simplify_eq.
  - unfold read_step in Hs. by repeat case_match; simplify_eq.
  - by simplify_eq.
  - unfold decode_step in Hs. by case_match; simplify_eq.
  - unfold children_step in Hs. by simplify_eq.
  - unfold push_step in Hs. by case_match; simplify_eq.
  - by simplify_eq.
  - unfold get_step in Hs. by repeat case_match; simplify_eq.
  - by simplify_eq.
  - by simplify_eq.
  - unfold enqueue_step in Hs. by destruct (enqueue_attempt _ _ _ _ _ _ _) as [? []]; simplify_eq.
  - by simplify_eq.
  - by simplify_eq.
Qed.
Lemma writer_stop pc sh sh' pc' wk : w_step pc sh = Some (sh', pc', wk) → sh_stop sh' = false → sh_stop sh = false.
Proof.
  intros Hs. destruct pc as [| |p n total|[|c cs] n total| | |message| | | |]; cbn [writer_step] in Hs; try done.
  - unfold next_step in Hs. by destruct (next_attempt _ _ _ _ _) as [[? ?] []]; simplify_eq.
  - unfold publish_batch_step in Hs. by repeat case_match; simplify_eq.
  - by simplify_eq.
  - simplify_eq. unfold record_threaded_completion. by repeat case_match.
  - unfold checkpoint_step in Hs. by repeat case_match; simplify_eq.
  - by simplify_eq.
  - by simplify_eq.
  - by simplify_eq.
  - by simplify_eq.
Qed.

(** The control steps of the main thread and of the interrupter. *)
Lemma data_ok_control sh sh' ts ws : data_ok sh ts ws → sh_tracker sh' = sh_tracker sh → sh_progress sh' = sh_progress sh →
  sh_destination sh' = sh_destination sh → sh_visited sh' = sh_visited sh → work_items (sh_work sh') = work_items (sh_work sh) →
  (write_jobs (sh_writes sh') = write_jobs (sh_writes sh) ∨ write_jobs (sh_writes sh') = []) →
  checkpoint_pending (sh_writes sh') = checkpoint_pending (sh_writes sh) →
  checkpoint_running (sh_writes sh') = checkpoint_running (sh_writes sh) → data_ok sh' ts ws.
Proof.
  intros [] Ht Hp Hd Hv Hi Hj Hcp Hcr. split; rewrite ?Ht, ?Hp, ?Hd, ?Hv, ?Hi, ?Hcp, ?Hcr; auto.
  - destruct Hj as [->| ->]; [done|by apply Forall_nil].
  - intros b [Hb|Hb]; [|by apply da_rooted0; right]. apply da_rooted0. left. destruct Hj as [Hj|Hj]; rewrite Hj in Hb; [done|].
    by apply not_elem_of_nil in Hb.
Qed.

Lemma sound_traversal y i pc sh pc' wk : sound y → traversals y !! i = Some pc → t_step pc (state y) = Some (sh, pc', wk) →
  sound (woken wk {| state := sh; traversals := <[i := pc']> (traversals y); writers := writers y;
                     main := main y; interrupter := interrupter y |}).
Proof.
  intros (Hc&Hd&Hcov) Hi Hs.
  destruct (step_traversal pc (state y) sh pc' wk _ _ i Hd Hi Hs) as [Hmo Hmc].
  { intros Hst Hb. pose proof (work_ok_at _ _ _ _ _ (co_work _ _ Hc) Hi) as Hle. split.
    - destruct (work_shutdown (sh_work (state y))) eqn:Hsd; [|done].
      destruct (wo_shut _ _ _ (co_work _ _ Hc) Hsd) as [?|[? _]]; [congruence|lia].
    - destruct (write_shutdown (sh_writes (state y))) eqn:Hsd; [|done].
      destruct (eo_shut _ _ _ _ _ (co_ended _ _ Hc) Hsd Hst) as (Hpf&_).
      destruct (eo_finished _ _ _ _ _ (co_ended _ _ Hc) Hpf Hst) as [Hno _]. destruct Hno.
      by apply (ended_traversal source mode config _ _ _ _ _ i pc (state y) _ (co_ended _ _ Hc) Hi Hs). }
  pose proof (traversal_stop _ _ _ _ _ Hs) as Hstop. split_and!.
  - eapply coordinated_traversal; [done|done|exact Hs].
  - apply data_ok_wake. by eapply data_ok_moved.
  - cbn [woken state]. rewrite Hstop. intros Hst. apply covers_wake. eapply covers_moved; [by apply Hcov|done|done|by apply Hmc].
Qed.

Lemma sound_writer y i pc sh pc' wk : sound y → writers y !! i = Some pc → w_step pc (state y) = Some (sh, pc', wk) →
  sound (woken wk {| state := sh; traversals := traversals y; writers := <[i := pc']> (writers y);
                     main := main y; interrupter := interrupter y |}).
Proof.
  intros (Hc&Hd&Hcov) Hi Hs. destruct (step_writer pc (state y) sh pc' wk y i Hc eq_refl Hd Hi Hs) as [Hok Hwc].
  split_and!.
  - eapply coordinated_writer; [done|done|exact Hs].
  - apply data_ok_wake. by eapply data_ok_wrote.
  - intros Hst. pose proof (writer_stop _ _ _ _ _ Hs Hst) as Hst0. apply covers_wake. eapply covers_wrote; [by apply Hcov|done|done|by apply Hwc].
Qed.

Lemma sound_step y y' : sound y → step source mode config root_ids y y' → sound y'.
Proof.
  intros Hsound Hs. pose proof Hsound as (Hc&Hd&Hcov). pose proof (coordinated_step source mode config root_ids y y' Hc Hs) as Hc'.
  destruct Hs as [i pc sh pc' wk Hi Hs|i pc sh pc' wk Hi Hs|Hm Hall|b Hm|Hm Hall|Hit Hst|Hit|Hit|Hit|Hit Hst];
    [by eapply sound_traversal|by eapply sound_writer|split; [exact Hc'|]..].
  - by split.
  - split.
    + apply data_ok_wake. eapply data_ok_control; try done. cbn. destruct b; auto.
    + intros Hst. apply covers_wake. change (sh_stop (state y) = false) in Hst. cbn [state].
      destruct b; [by rewrite (eo_stopped _ _ _ _ _ (co_ended _ _ Hc) true Hm eq_refl) in Hst|].
      destruct (Hcov Hst) as [? ? ? ? ?]. by split.
  - split; [apply (data_ok_control (state y)); by auto|done].
  - by split.
  - split; [apply (data_ok_control (state y)); by auto|done].
  - split; [apply data_ok_wake; apply (data_ok_control (state y)); by auto|].
    intros Hst. assert (sh_stop (state y) = true) by (by apply (co_interrupted _ _ Hc); rewrite Hit).
    change (sh_stop (state y) = false) in Hst. congruence.
  - split; [apply data_ok_wake; apply (data_ok_control (state y)); by auto|].
    intros Hst. assert (sh_stop (state y) = true) by (by apply (co_interrupted _ _ Hc); rewrite Hit).
    change (sh_stop (state y) = false) in Hst. congruence.
  - by split.
Qed.

Lemma sound_spurious y y' : sound y → spurious y y' → sound y'.
Proof.
  intros (Hc&Hd&Hcov) Hs. pose proof (coordinated_spurious config y y' Hc Hs) as Hc'. split; [exact Hc'|]. destruct Hs as [i pc wk Hi|i pc wk Hi].
  - assert (moved_ok (state y) (state y) (writers y) pc (wake_traversal wk pc)) as Hmo.
    { apply moved_quiet; try done; [|by intros b; rewrite wake_opened].
      pose proof (Forall_lookup_1 _ _ _ _ (da_threads _ _ _ Hd) Hi). by destruct wk, pc. }
    split; [by eapply data_ok_moved|]. intros Hst. eapply covers_moved; [by apply Hcov|exact Hi|exact Hmo|].
    apply covers_quiet; try done; intros *.
    + rewrite wake_opened. auto.
    + rewrite wake_unexpanded. auto.
    + by rewrite wake_untried.
    + rewrite wake_unreported. auto.
    + rewrite wake_unwritten. auto.
  - assert (wrote_both (state y) (state y) pc (wake_writer wk pc)) as [Hwo Hwc].
    { apply wrote_same; try done; [|intros b; by rewrite wake_held|intros b; rewrite wake_held; auto].
      pose proof (Forall_lookup_1 _ _ _ _ (da_writers _ _ _ Hd) Hi). by destruct wk, pc. }
    split; [by eapply data_ok_wrote|]. intros Hst. eapply covers_wrote; [by apply Hcov|exact Hi|exact Hwo|by apply Hwc].
Qed.

Context (fresh_progress : ∀ p, config_progress config = Some p → progress_failed p = 0).
Lemma sound_initial : sound (initial_system config root_ids d0).
Proof.
  assert (∀ (A : Type) (x y : A) n i, replicate n x !! i = Some y → y = x) as Hrep.
  { intros A x y n i Hi. by apply lookup_replicate in Hi as [-> _]. }
  split; [apply coordinated_initial|]. split.
  - split; cbn [initial_system state sh_destination sh_tracker sh_progress sh_visited sh_work sh_writes traversals writers]; try done.
    + exists []. split; [apply new_tracker_ok|by apply Forall_nil].
    + intros n. destruct (config_progress config) as [p|]; [|done]. cbn. intros [= <-]. by rewrite (fresh_progress p).
    + intros r b (x&[= -> ->]&Hx)%list_elem_of_fmap. by apply reach_root.
    + by apply Forall_replicate.
    + by intros i pc b ->%Hrep.
    + by apply Forall_replicate.
    + intros b [Hb|(pc&(i&->%Hrep)%list_elem_of_lookup_1&Hb)]; by apply not_elem_of_nil in Hb.
  - intros _. split; cbn; try done. intros r Hr. right. left. apply list_elem_of_fmap. by exists r.
Qed.

Lemma sound_reachable n k y : runs source mode config root_ids d0 n k y → sound y.
Proof.
  induction 1 as [|n k y y' _ IH Hs|n k y y' _ IH Hs]; [apply sound_initial|by eapply sound_step|by eapply sound_spurious].
Qed.

(** C3. Whatever the interleaving of the traversal workers, the write workers and
    the interrupter: the destination keeps its blocks or gets the source's bytes;
    every failure is of a block that a requested root reaches, or of the
    compaction; and the progress counts the failed blocks. When the main thread
    has joined the workers and nothing was stopped, every block that a requested
    root reaches is in the destination or reported for that root. *)
Theorem threads_copy_complete n k y : runs source mode config root_ids d0 n k y →
  let sh := state y in let report := threaded_report mode root_ids sh in
  frame source d0 (sh_destination sh)
  ∧ Forall (failure_sound source root_ids) (report_failures report)
  ∧ (∀ p, sh_progress sh = Some p → progress_failed p = report_failed_block_count report)
  ∧ (main y = MJoinWriters → Forall (WExit =.) (writers y) → sh_stop sh = false →
     ∀ r b, reaching r b → accounted source mode d0 (sh_destination sh) (report_failures report) r b).
Proof.
  intros Hreach sh report. destruct (sound_reachable n k y Hreach) as (Hc&Hd&Hcov). fold sh in Hd, Hcov.
  destruct (da_tracker _ _ _ Hd) as (store&Hst&Hsf). split_and!.
  - apply (da_frame _ _ _ Hd).
  - cbn [report_failures report threaded_report]. rewrite (inv_failures _ _ _ _ Hst). apply Forall_app. split.
    + apply Forall_forall. intros f (r&b&tm&Hr&_&->)%elem_of_rendered. left. exists r, b, tm. split; [|done].
      by apply (inv_sound _ _ _ _ Hst).
    + eapply Forall_impl; [exact Hsf|]. intros f Hf. by right.
  - intros p Hp. cbn [report_failed_block_count report threaded_report]. unfold count_failed_blocks.
    rewrite <-(inv_ids _ _ _ _ Hst). apply (da_progress _ _ _ Hd). by rewrite Hp.
  - intros Hm Hexit Hstop r b Hr.
    assert (Forall (TExit =.) (traversals y)) as Hall by (apply (eo_joined _ _ _ _ _ (co_ended _ _ Hc)); by rewrite Hm).
    assert (∀ {A} (f : traversal_pc → option A) x, f TExit = None → ¬ at_some f (traversals y) x) as Hnone.
    { intros A f x Hf. apply at_some_none. intros pc Hin. by rewrite <-(Forall_elem _ _ _ Hall Hin). }
    assert (TExit ∈ traversals y) as Hex.
    { pose proof (co_traversals _ _ Hc). destruct (traversals y) as [|pc ts]; [done|]. apply Forall_cons_1 in Hall as [<- _]. by left. }
    assert (work_items (sh_work sh) = []) as Hitems.
    { destruct (wo_shut _ _ _ (co_work _ _ Hc) (wo_exited _ _ _ (co_work _ _ Hc) Hex)) as [?|[_ ?]]; [unfold sh in *; congruence|done]. }
    assert (WExit ∈ writers y) as Hwx.
    { pose proof (co_threads _ _ Hc). destruct (writers y) as [|pc ws]; [done|]. apply Forall_cons_1 in Hexit as [<- _]. by left. }
    destruct (eo_shut _ _ _ _ _ (co_ended _ _ Hc) (eo_exited _ _ _ _ _ (co_ended _ _ Hc) Hwx) Hstop) as (_&Hjobs&_).
    destruct (Hcov Hstop) as [Hcc Hcl Hro Hrep Hset].
    assert (∀ rb, ¬ queued sh (traversals y) rb) as Hq.
    { intros rb [Hin|Hat]; [rewrite Hitems in Hin; by apply not_elem_of_nil in Hin|by apply (Hnone _ untried rb)]. }
    apply (settled_accounted source root_ids mode d0 store _ (sh_tracker sh) (sh_visited sh)); auto.
    + split; auto.
      * by intros r' b' ?%not_elem_of_nil.
      * intros b' Hb'. destruct (discovered_children (sh_tracker sh) !! b') as [cs|] eqn:Hk; [|done].
        by destruct (da_known _ _ _ Hd b' cs Hk).
      * intros b' Hb'. destruct (Hcc b' Hb'); [done|]. by destruct (Hnone _ opened b').
      * intros b' c Hb' Hcb. destruct (Hcl b' c Hb' Hcb) as [[?|[r' Hr']]|?]; [by left|by destruct (Hq (r', c))|].
        by destruct (Hnone _ unexpanded b').
      * intros r' Hr'. destruct (Hro r' Hr'); [by left|by destruct (Hq (r', r'))].
      * intros b' Hb'. destruct (Hrep b' Hb'); [done|]. by destruct (Hnone _ unreported b').
    + apply (da_frame _ _ _ Hd).
    + intros b' x Hb' Hx. destruct (Hset b' x Hb' Hx) as [[[Hin|(pc&Hin&Hh)]|?]|?]; [..|by destruct (Hnone _ unwritten b')].
      * change (b' ∈ job_block_id <$> write_jobs (sh_writes (state y))) in Hin. rewrite Hjobs in Hin. by apply not_elem_of_nil in Hin.
      * rewrite <-(Forall_elem _ _ _ Hexit Hin) in Hh. by apply not_elem_of_nil in Hh.
      * done.
Qed.
End walk.
