(* ===== verification/CopyThreadsEndSpec.v ===== *)
(** * The multi-worker copy: every run ends

    A measure that every step of every thread decreases, so that no interleaving
    runs forever: each block's children are queued once, each job is written
    once, and a thread that waits is woken only by a step that makes progress.
    With the absence of deadlocks, every maximal run ends with all threads
    finished. *)

From Stdlib Require Import ZArith Lia Ascii.
From stdpp Require Import base gmap sets strings sorting option list.
From S2P Require Import Prelude Hex Blocks BlockCopy BlockCopySpec CopyRun CopyRunSpec CopyWalkSpec CopyQueues CopyThreads CopyThreadsSpec CopyThreadsWalkSpec.
#[local] Open Scope Z_scope.

Section ends.
Context {D : Type} `{ByteStoreLaws D} `{Ciborium} `{DecodeBlock} `{HashDisplay} `{HashSetOrder}.
Context (source : block_hash → result string (option bytes)) (root_ids : list block_hash).
Context (mode : CopyDestinationMode) (config : CopyExecutionConfig D) (d0 : D).
Context (compaction : ∀ cp d, blind_write_checkpoint config = Some cp →
  ∀ h, held (action cp d).1 h = held d h).
(** The blocks that have children, without repetition. *)
Context (universe : list block_hash) (universe_nodup : NoDup universe)
  (universe_complete : ∀ b, block_children source b ≠ [] → b ∈ universe).

Abbreviation t_step := (traversal_step source mode config).
Abbreviation w_step := (writer_step config root_ids).
Abbreviation children := (block_children source).
Abbreviation sound := (sound source root_ids mode config d0).

(** ** What a thread has still to do *)
Definition ITEM : Z := 30.
Definition t_weight (pc : traversal_pc) : Z :=
  match pc with
  | TExit => 0
  | TPop | TPopWaiting => 1
  | TFinish => 2
  | TSkipped | TAttempted | TReadFailed _ _ | TCheckFailed _ _ => 3
  | TEnqueue _ | TEnqueueWaiting _ => 22
  | TGet _ _ => 23
  | TCheck _ _ => 24
  | TPushChildren _ _ _ cs => 25 + ITEM * len cs
  | TChildren _ _ _ cs => 26 + ITEM * len cs
  | TDecode _ b _ => 27 + ITEM * len (children b)
  | TRead _ b => 28 + ITEM * len (children b)
  | TVisit _ _ => 29
  | TNote _ _ => 30
  end.
Definition w_weight (pc : writer_pc) : Z :=
  match pc with
  | WExit | WPanicked => 0
  | WNext | WWaiting => 1
  | WPublish p _ _ => Z.of_nat (publication_work p) + len (pub_ids p) + 3
  | WRecord cs _ _ => len cs + 2
  | WCheckpoint => 6
  | WCheckpointFailed _ => 5
  | WCheckpointStop => 4
  | WCheckpointFail => 3
  | WCheckpointDone => 2
  end.
Definition m_weight (m : main_pc) : Z := match m with MJoinTraversal => 3 | MFinish _ => 2 | MJoinWriters => 1 | MDone => 0 end.
Definition i_weight (i : interrupt_pc) : Z :=
  match i with IPolling => 4 | IStop => 3 | IWork => 2 | IWrite => 1 | IExit => 0 end.
(** What is queued. *)
Definition s_weight (sh : shared D) : Z :=
  ITEM * (len (work_items (sh_work sh)) + Z.of_nat (unqueued source (sh_visited sh) universe))
  + 8 * len (write_jobs (sh_writes sh)) + (if checkpoint_pending (sh_writes sh) then 10 else 0).
Definition weight (y : system D) : Z :=
  s_weight (state y) + zsum t_weight (traversals y) + zsum w_weight (writers y) + m_weight (main y) + i_weight (interrupter y).

(** The threads that can go and wait. *)
Definition t_retries (pc : traversal_pc) : Z := match pc with TPop | TEnqueue _ => 1 | _ => 0 end.
Definition w_retries (pc : writer_pc) : Z := match pc with WNext => 1 | _ => 0 end.
Definition retries (y : system D) : Z := zsum t_retries (traversals y) + zsum w_retries (writers y).
Definition threads (y : system D) : Z := len (traversals y) + len (writers y).
Definition measure (y : system D) : Z := weight y * (threads y + 1) + retries y.

Lemma zsum_le_len {A} (f : A → Z) l : (∀ x, f x ≤ 1) → zsum f l ≤ len l.
Proof. intros Hf. induction l as [|x l IH]; cbn [zsum]; [done|]. specialize (Hf x). unfold len in *. cbn [length]. lia. Qed.
Lemma retries_bounds y : 0 ≤ retries y ≤ threads y.
Proof.
  unfold retries, threads.
  pose proof (zsum_nonneg t_retries (traversals y) ltac:(by intros [])).
  pose proof (zsum_nonneg w_retries (writers y) ltac:(by intros [])).
  pose proof (zsum_le_len t_retries (traversals y) ltac:(by intros [])).
  pose proof (zsum_le_len w_retries (writers y) ltac:(by intros [])). lia.
Qed.
Lemma t_weight_nonneg pc : 0 ≤ t_weight pc.
Proof.
  destruct pc; cbn; try lia; unfold ITEM; match goal with |- context [len ?l] => pose proof (len_nonneg l) end; lia.
Qed.
Lemma w_weight_nonneg pc : 0 ≤ w_weight pc.
Proof. destruct pc; cbn; try lia; match goal with |- context [len ?l] => pose proof (len_nonneg l) end; lia. Qed.
Lemma s_weight_nonneg sh : 0 ≤ s_weight sh.
Proof.
  unfold s_weight, ITEM. pose proof (len_nonneg (work_items (sh_work sh))). pose proof (len_nonneg (write_jobs (sh_writes sh))).
  destruct (checkpoint_pending _); lia.
Qed.
Lemma weight_nonneg y : 0 ≤ weight y.
Proof.
  unfold weight. pose proof (s_weight_nonneg (state y)).
  pose proof (zsum_nonneg t_weight (traversals y) t_weight_nonneg). pose proof (zsum_nonneg w_weight (writers y) w_weight_nonneg).
  destruct (main y), (interrupter y); cbn; lia.
Qed.

Lemma weight_woken wk y : weight (woken wk y) = weight y.
Proof.
  unfold weight. cbn [woken state traversals writers main interrupter].
  by rewrite !zsum_fmap by (intros []; by destruct wk).
Qed.
Lemma threads_woken wk y : threads (woken wk y) = threads y.
Proof. unfold threads, len. cbn [woken traversals writers]. by rewrite !length_fmap. Qed.
Lemma retries_nobody y : retries (woken Nobody y) = retries y.
Proof. unfold retries. cbn [woken traversals writers]. by rewrite !zsum_fmap by (by intros []). Qed.

(** A step makes progress, or its thread goes and waits. *)
Definition t_progress (sh sh' : shared D) (pc pc' : traversal_pc) (wk : wakes) : Prop :=
  s_weight sh' + t_weight pc' + 1 ≤ s_weight sh + t_weight pc
  ∨ s_weight sh' + t_weight pc' = s_weight sh + t_weight pc ∧ wk = Nobody ∧ t_retries pc = 1 ∧ t_retries pc' = 0.
Definition w_progress (sh sh' : shared D) (pc pc' : writer_pc) (wk : wakes) : Prop :=
  s_weight sh' + w_weight pc' + 1 ≤ s_weight sh + w_weight pc
  ∨ s_weight sh' + w_weight pc' = s_weight sh + w_weight pc ∧ wk = Nobody ∧ w_retries pc = 1 ∧ w_retries pc' = 0.

Lemma s_weight_same sh sh' : work_items (sh_work sh') = work_items (sh_work sh) → sh_visited sh' = sh_visited sh →
  sh_writes sh' = sh_writes sh → s_weight sh' = s_weight sh.
Proof. intros Hi Hv Hw. unfold s_weight. by rewrite Hi, Hv, Hw. Qed.

Lemma progress_same sh sh' pc pc' wk : s_weight sh' = s_weight sh → t_weight pc' + 1 ≤ t_weight pc → t_progress sh sh' pc pc' wk.
Proof. intros Hs ?. left. lia. Qed.

Lemma pop_progress sh : let '(sh', pc', wk) := pop_step sh in t_progress sh sh' TPop pc' wk.
Proof.
  unfold pop_step, pop_attempt. destruct (_ || _); [by apply progress_same|].
  destruct (work_items (sh_work sh)) as [|[r b] items] eqn:Hi.
  - destruct (active_workers _ =? 0); [by apply progress_same|right]. split; [|done].
    by rewrite (s_weight_same sh) by done.
  - left. unfold s_weight, ITEM. cbn. rewrite Hi. unfold len. cbn [length]. lia.
Qed.

Lemma arm_of_weight b x : 22 ≤ t_weight (arm_of mode b x) ≤ 24.
Proof. unfold arm_of. by destruct mode. Qed.

Lemma push_progress r b x cs sh : let '(sh', pc', wk) := push_step mode r b x cs sh in
  t_progress sh sh' (TPushChildren r b x cs) pc' wk.
Proof.
  unfold push_step. destruct (push_children r cs (sh_work sh)) as [w notified] eqn:Henq. left.
  assert (len (work_items w) ≤ len (work_items (sh_work sh)) + len cs) as Hl.
  { pose proof (len_nonneg cs). unfold push_children in Henq.
    destruct (work_shutdown _); simplify_eq; [lia|]. cbn. unfold enqueue_children, len. rewrite length_app, length_fmap. lia. }
  unfold s_weight. cbn [sh_work sh_visited sh_writes with_work]. pose proof (arm_of_weight b x).
  change (t_weight (TPushChildren r b x cs)) with (25 + ITEM * len cs). unfold ITEM. lia.
Qed.

Lemma enqueue_progress job sh : let '(sh', pc', wk) := enqueue_step mode config job sh in
  t_progress sh sh' (TEnqueue job) pc' wk.
Proof.
  unfold enqueue_step, enqueue_attempt. destruct (_ || sh_stop sh); [by apply progress_same|].
  destruct (_ || byte_limit_reached _ _ _).
  { right. split; [|done]. by rewrite (s_weight_same sh) by done. }
  left. unfold s_weight. cbn [sh_work sh_visited sh_writes with_writes write_jobs checkpoint_pending]. rewrite len_app.
  change (len [job]) with 1.
  repeat match goal with |- context [if ?a then 10 else 0] => destruct a end;
  destruct mode; cbn [t_weight]; lia.
Qed.

Lemma traversal_progress pc sh sh' pc' wk : t_ok source root_ids mode (sh_tracker sh) pc → t_step pc sh = Some (sh', pc', wk) →
  t_progress sh sh' pc pc' wk.
Proof.
  intros Hok Hs. destruct pc as [| |r b|r b|r b|b m|r b x|r b x cs|r b x cs|b x|b x|b m| |job|job| | |]; cbn [traversal_step] in Hs; try done.
  - pose proof (pop_progress sh) as Hp. injection Hs as Hs. by rewrite Hs in Hp.
  - injection Hs as <- <- <-. by apply progress_same.
  - case_decide as Hv; injection Hs as <- <- <-; [by apply progress_same|].
    left. unfold s_weight, ITEM. cbn. pose proof (unqueued_visit source config compaction universe universe_nodup universe_complete (sh_visited sh) b Hv) as Hu.
    unfold ITEM, len. lia.
  - unfold read_step in Hs. pose proof (len_nonneg (children b)).
    destruct (source b) as [[x|]|e]; injection Hs as <- <- <-; apply progress_same; try (by apply s_weight_same); cbn; unfold ITEM; lia.
  - injection Hs as <- <- <-. by apply progress_same.
  - destruct Hok as (Hs0&_). unfold decode_step, decode_source_block in Hs. unfold block_children, t_progress. cbn [t_weight].
    unfold block_children. rewrite Hs0.
    destruct (block_child_ids b x) as [cs|m]; injection Hs as <- <- <-; left; rewrite (s_weight_same sh) by done; cbn [t_weight];
      unfold len; cbn [length]; lia.
  - unfold children_step in Hs. injection Hs as <- <- <-. apply progress_same; [done|]. pose proof (arm_of_weight b x).
    pose proof (len_nonneg cs). destruct (wants_children _ _); cbn [t_weight]; unfold ITEM; lia.
  - pose proof (push_progress r b x cs sh) as Hp. injection Hs as Hs. by rewrite Hs in Hp.
  - injection Hs as <- <- <-. apply progress_same; [done|]. by destruct (sh_stop sh).
  - unfold get_step in Hs. destruct (get_block_bytes _ _) as [d [[y|]|e]]; injection Hs as <- <- <-; by apply progress_same.
  - injection Hs as <- <- <-. by apply progress_same.
  - injection Hs as <- <- <-. by apply progress_same.
  - pose proof (enqueue_progress job sh) as Hp. injection Hs as Hs. by rewrite Hs in Hp.
  - injection Hs as <- <- <-. by apply progress_same.
  - injection Hs as <- <- <-. by apply progress_same.
Qed.

(** ** The write workers *)
Lemma next_progress sh : 0 ≤ active_writes (sh_writes sh) → queue_ok config (sh_writes sh) →
  let '(sh', pc', wk) := next_step config sh in w_progress sh sh' WNext pc' wk.
Proof.
  intros Hnn Hq. unfold next_step.
  pose proof (next_attempt_spec config (sh_stop sh) (sh_capability sh) (sh_writes sh) Hnn Hq) as Hatt.
  destruct (next_attempt _ _ _ _ _) as [[w c] [jobs total| | |]]; destruct Hatt as [_ Hatt];
    unfold w_progress, s_weight; cbn [sh_work sh_visited sh_writes with_writes w_weight].
  - destruct Hatt as (Hlen&_&_&Happ&_&_&_&Hp&_). left. rewrite <-Happ, len_app, Hp. cbn [publication_work].
    unfold pub_ids, ids_of. cbn [pub_done pub_jobs fmap list_fmap app]. unfold len in *. rewrite length_fmap. lia.
  - destruct Hatt as (Hj&Hj'&_&_&_&_&_&_&_&Hp&Hp'). left. rewrite Hj, Hj', Hp, Hp'. lia.
  - destruct Hatt as (Hj&Hj'&_&_&_&_&_&Hp&_). left. rewrite Hj, Hj', Hp. destruct (checkpoint_pending (sh_writes sh)); lia.
  - destruct Hatt as (->&_). by right.
Qed.

Lemma w_progress_same sh sh' pc pc' wk : s_weight sh' ≤ s_weight sh → w_weight pc' + 1 ≤ w_weight pc → w_progress sh sh' pc pc' wk.
Proof. intros ? ?. left. lia. Qed.

Lemma writer_progress pc sh sh' pc' wk : 0 ≤ active_writes (sh_writes sh) → queue_ok config (sh_writes sh) →
  w_ok source (sh_destination sh) pc → w_step pc sh = Some (sh', pc', wk) → w_progress sh sh' pc pc' wk.
Proof.
  intros Hnn Hq Hok Hs. destruct pc as [| |p n total|[|c cs] n total| | |message| | | |]; cbn [writer_step] in Hs; try done.
  - pose proof (next_progress sh Hnn Hq) as Hp. injection Hs as Hs. by rewrite Hs in Hp.
  - unfold publish_batch_step in Hs. pose proof (publish_step_spec source p (sh_capability sh) (sh_destination sh) Hok) as Hspec.
    destruct (publish_step p _ _) as [[c d] [p'|cs]]; destruct Hspec as (_&Hi&_&Hw); cbn [outcome_ids outcome_work] in *;
      injection Hs as <- <- <-; apply w_progress_same; [done| |done|]; cbn [w_weight]; rewrite <-Hi; [lia|].
    unfold len. rewrite length_fmap. lia.
  - injection Hs as <- <- <-. by apply w_progress_same.
  - injection Hs as <- <- <-. apply w_progress_same; [|cbn; unfold len; cbn [length]; lia].
    unfold record_threaded_completion. by repeat case_match.
  - unfold checkpoint_step in Hs. by repeat case_match; simplify_eq; apply w_progress_same.
  - injection Hs as <- <- <-. by apply w_progress_same.
  - injection Hs as <- <- <-. by apply w_progress_same.
  - injection Hs as <- <- <-. by apply w_progress_same.
  - injection Hs as <- <- <-. apply w_progress_same; [|done]. unfold s_weight. cbn. pose proof (len_nonneg (write_jobs (sh_writes sh))). change (len []) with 0.
    destruct (checkpoint_pending _); lia.
Qed.

(** ** The system *)
Lemma measure_lt y y' : threads y' = threads y →
  weight y' + 1 ≤ weight y ∨ weight y' = weight y ∧ retries y' + 1 ≤ retries y → measure y' + 1 ≤ measure y.
Proof.
  unfold measure. intros Ht Hcase. rewrite Ht. pose proof (retries_bounds y). pose proof (retries_bounds y').
  rewrite Ht in *. destruct Hcase as [?|[-> ?]]; [nia|lia].
Qed.

Lemma len_insert {A} (l : list A) i x : len (<[i := x]> l) = len l.
Proof. unfold len. by rewrite length_insert. Qed.

Lemma measure_step y y' : sound y → step source mode config root_ids y y' → measure y' + 1 ≤ measure y.
Proof.
  intros (Hc&Hd&_) Hs. destruct (writers_ok_nonneg _ _ (co_writers _ _ Hc)) as [Hnn _].
  apply measure_lt; destruct Hs as [i pc sh pc' wk Hi Hs|i pc sh pc' wk Hi Hs|Hm Hall|b Hm|Hm Hall|Hit Hst|Hit|Hit|Hit|Hit Hst];
    rewrite ?threads_woken, ?weight_woken; try (unfold threads; cbn [traversals writers]; by rewrite ?len_insert);
    unfold weight; cbn [state traversals writers main interrupter].
  - rewrite (zsum_insert _ _ _ _ _ Hi).
    destruct (traversal_progress pc _ _ _ _ (Forall_lookup_1 _ _ _ _ (da_threads _ _ _ _ _ _ _ Hd) Hi) Hs) as [?|(?&->&Hr&Hr')]; [left; lia|right].
    split; [lia|]. rewrite retries_nobody. unfold retries. cbn [traversals writers]. rewrite (zsum_insert _ _ _ _ _ Hi). lia.
  - rewrite (zsum_insert _ _ _ _ _ Hi).
    destruct (writer_progress pc _ _ _ _ Hnn (co_queue _ _ Hc) (Forall_lookup_1 _ _ _ _ (da_writers _ _ _ _ _ _ _ Hd) Hi) Hs) as [?|(?&->&Hr&Hr')];
      [left; lia|right].
    split; [lia|]. rewrite retries_nobody. unfold retries. cbn [traversals writers]. rewrite (zsum_insert _ _ _ _ _ Hi). lia.
  - left. rewrite Hm. cbn [m_weight]. lia.
  - left. rewrite Hm. cbn [m_weight]. unfold s_weight. cbn. pose proof (len_nonneg (write_jobs (sh_writes (state y)))).
    destruct b; [change (len []) with 0|]; lia.
  - left. rewrite Hm. cbn [m_weight]. unfold s_weight. cbn. lia.
  - left. rewrite Hit. cbn [i_weight]. lia.
  - left. rewrite Hit. cbn [i_weight]. unfold s_weight. cbn. lia.
  - left. rewrite Hit. cbn [i_weight]. unfold s_weight. cbn. lia.
  - left. rewrite Hit. cbn [i_weight]. unfold s_weight. cbn. pose proof (len_nonneg (write_jobs (sh_writes (state y)))). change (len []) with 0. lia.
  - left. rewrite Hit. cbn [i_weight]. lia.
Qed.

(** A wakeup without a notification costs one more attempt. *)
Lemma measure_spurious y y' : spurious y y' → measure y' ≤ measure y + 1.
Proof.
  intros Hs. unfold measure.
  assert (threads y' = threads y ∧ weight y' = weight y ∧ retries y' ≤ retries y + 1) as (->&->&?); [|lia].
  destruct Hs as [i pc wk Hi|i pc wk Hi]; unfold threads, weight, retries; cbn [state traversals writers main interrupter];
    rewrite !len_insert, !(zsum_insert _ _ _ _ _ Hi); destruct wk, pc; cbn; lia.
Qed.

Context (fresh_progress : ∀ p, config_progress config = Some p → progress_failed p = 0).

(** What there is to copy, and the threads that copy it. *)
Definition work_bound : Z :=
  (ITEM * (len root_ids + Z.of_nat (sum_list ((λ b, length (children b)) <$> universe)))
   + Z.max (worker_thread_count config) 1 + writer_thread_count (effective_write_limit config) + 7 + 1)
  * (Z.max (worker_thread_count config) 1 + writer_thread_count (effective_write_limit config) + 1).

Lemma zsum_replicate_const {A} (f : A → Z) n x : zsum f (replicate n x) = Z.of_nat n * f x.
Proof. induction n as [|n IH]; cbn [replicate zsum]; lia. Qed.
Lemma unqueued_none l : unqueued source ∅ l = sum_list ((λ b, length (children b)) <$> l).
Proof. done. Qed.

Lemma measure_initial : measure (initial_system config root_ids d0) ≤ work_bound.
Proof.
  unfold measure, weight, threads, work_bound. pose proof (retries_bounds (initial_system config root_ids d0)) as [_ Hr].
  unfold threads in Hr. unfold len in Hr. cbn [initial_system traversals writers state main interrupter] in *. rewrite !length_replicate in Hr.
  rewrite !zsum_replicate_const. unfold len at 1 2. rewrite !length_replicate.
  unfold s_weight. cbn [sh_work sh_visited sh_writes work_items new_work_queue write_jobs new_write_state checkpoint_pending].
  rewrite unqueued_none. assert (len ((λ root_id, (root_id, root_id)) <$> root_ids) = len root_ids) as -> by (unfold len; by rewrite length_fmap).
  change (len []) with 0. cbn [t_weight w_weight m_weight i_weight].
  set (t := Z.max (worker_thread_count config) 1) in *. set (w := writer_thread_count _) in *.
  assert (0 ≤ t ∧ 0 ≤ w) as [? ?] by (subst t w; unfold writer_thread_count; lia).
  rewrite !Z2Nat.id in * by done. pose proof (len_nonneg root_ids). nia.
Qed.

Lemma measure_runs n k y : runs source mode config root_ids d0 n k y →
  measure y + Z.of_nat n ≤ measure (initial_system config root_ids d0) + Z.of_nat k.
Proof.
  intros Hr. induction Hr as [|n k y y' Hr IH Hs|n k y y' Hr IH Hs]; [lia|..].
  - pose proof (measure_step y y' (sound_reachable source root_ids mode config d0 compaction fresh_progress n k y Hr) Hs). lia.
  - pose proof (measure_spurious y y' Hs). lia.
Qed.

(** C24. Every run of the multi-worker copy ends, whatever the interleaving and the
    stores do: it has no more steps than a bound given by the requested roots, the
    links between the blocks and the threads, and one more for each wakeup
    without a notification. And no run gets stuck: while some thread has not
    ended, some thread can step. *)
Theorem threads_terminate n k y : runs source mode config root_ids d0 n k y →
  Z.of_nat n ≤ work_bound + Z.of_nat k ∧ (finished y ∨ ∃ y', step source mode config root_ids y y').
Proof.
  intros Hn. split.
  - pose proof (measure_runs n k y Hn). pose proof measure_initial. unfold measure in *.
    pose proof (weight_nonneg y). pose proof (retries_bounds y). nia.
  - by apply (threads_never_deadlock source mode config root_ids d0 n k).
Qed.
End ends.
