(* ===== verification/CopyThreadsWitness.v ===== *)
(** * The multi-worker copy at a concrete input

    A scheduler that always runs the first thread that can go, and the run of the
    driver under it: two traversal workers, two writers, a compaction after every
    second write, and a block that is missing in the source. *)

From Stdlib Require Import ZArith Lia Ascii.
From stdpp Require Import base gmap sets strings sorting option list.
From S2P Require Import Prelude Hex Blocks Cbor Text Runtime Instances Items BlockCopy BlockCopySpec CopyRun CopyRunSpec CopyWalkSpec BlockCopyWitness CopyQueues CopyThreads CopyThreadsSpec CopyThreadsWalkSpec CopyThreadsEndSpec.
#[local] Open Scope Z_scope.

Section scheduler.
Context {D : Type} `{ByteStore D} `{Ciborium} `{DecodeBlock} `{HashDisplay} `{HashSetOrder}.
Context (source : block_hash → result string (option bytes)).
Context (mode : CopyDestinationMode) (config : CopyExecutionConfig D) (root_ids : list block_hash).

Fixpoint first_some {P A} (f : P → option A) (i : nat) (l : list P) : option (nat * A) :=
  match l with
  | [] => None
  | x :: l => match f x with Some a => Some (i, a) | None => first_some f (S i) l end
  end.
Lemma first_some_spec {P A} (f : P → option A) l i j a : first_some f i l = Some (j, a) →
  ∃ x, l !! (j - i)%nat = Some x ∧ f x = Some a ∧ (i ≤ j)%nat.
Proof.
  revert i. induction l as [|x l IH]; intros i Hs; [done|]. cbn in Hs. destruct (f x) as [b|] eqn:Hx.
  - injection Hs as <- <-. exists x. by rewrite Nat.sub_diag.
  - destruct (IH (S i) Hs) as (z&Hz&Hf&Hle). exists z. replace (j - i)%nat with (S (j - S i)) by lia. by split_and!; [| |lia].
Qed.

Definition t_exited (pc : traversal_pc) : bool := match pc with TExit => true | _ => false end.

(** The first thread that can go, or the main thread once all have ended. *)
Definition first_step (y : system D) : option (system D) :=
  match first_some (λ pc, traversal_step source mode config pc (state y)) 0 (traversals y) with
  | Some (i, (sh, pc', wk)) =>
      Some (woken wk {| state := sh; traversals := <[i := pc']> (traversals y); writers := writers y;
                        main := main y; interrupter := interrupter y |})
  | None =>
      match first_some (λ pc, writer_step config root_ids pc (state y)) 0 (writers y) with
      | Some (i, (sh, pc', wk)) =>
          Some (woken wk {| state := sh; traversals := traversals y; writers := <[i := pc']> (writers y);
                            main := main y; interrupter := interrupter y |})
      | None =>
          match main y with
          | MJoinTraversal =>
              if forallb t_exited (traversals y) then Some {|
                state := state y; traversals := traversals y; writers := writers y;
                main := MFinish (sh_stop (state y)); interrupter := interrupter y |}
              else None
          | MFinish b => Some (woken WakeWrite {|
              state := with_writes (finish_producing b (sh_writes (state y))) (sh_capability (state y)) (state y);
              traversals := traversals y; writers := writers y; main := MJoinWriters; interrupter := interrupter y |})
          | _ => None
          end
      end
  end.
Lemma first_step_sound y y' : first_step y = Some y' → step source mode config root_ids y y'.
Proof.
  unfold first_step. destruct (first_some _ 0 (traversals y)) as [[i [[sh pc'] wk]]|] eqn:Ht.
  { intros [= <-]. destruct (first_some_spec _ _ _ _ _ Ht) as (pc&Hi&Hs&_). rewrite Nat.sub_0_r in Hi.
    by apply (traversal_moves _ _ _ _ _ i pc). }
  destruct (first_some _ 0 (writers y)) as [[i [[sh pc'] wk]]|] eqn:Hw.
  { intros [= <-]. destruct (first_some_spec _ _ _ _ _ Hw) as (pc&Hi&Hs&_). rewrite Nat.sub_0_r in Hi.
    by apply (writer_moves _ _ _ _ _ i pc). }
  destruct (main y) as [|b| |] eqn:Hm; try done; [|intros [= <-]; by apply main_finishes].
  destruct (forallb _ _) eqn:Hall; [|done]. intros [= <-].
  apply main_joins_traversal; [done|]. apply Forall_forall. intros pc Hin.
  rewrite forallb_forall in Hall. apply list_elem_of_In in Hin. specialize (Hall pc Hin). by destruct pc.
Qed.

Fixpoint drive (n : nat) (y : system D) : option (system D) :=
  match n with O => Some y | S n => match first_step y with Some y => drive n y | None => None end end.
Lemma drive_runs d m n y y' : runs source mode config root_ids d m 0 y → drive n y = Some y' →
  runs source mode config root_ids d (n + m) 0 y'.
Proof.
  revert m y. induction n as [|n IH]; intros m y Hr; cbn; [by intros [= ->]|].
  destruct (first_step y) as [y1|] eqn:Hs; [|done]. intros Hd.
  rewrite <-Nat.add_succ_r. apply (IH (S m) y1); [|done]. eapply runs_step; [exact Hr|by apply first_step_sound].
Qed.
End scheduler.

#[local] Existing Instance byte_blocks.
Definition threads_config : CopyExecutionConfig byte_map := {|
  max_in_flight_destination_writes := 2; worker_thread_count := 2;
  max_in_flight_destination_write_bytes := DEFAULT_MAX_IN_FLIGHT_DESTINATION_WRITE_BYTES;
  config_progress := Some default_progress; blind_write_checkpoint := Some compact |}.
Definition threads_start : system byte_map := initial_system threads_config [[1]] ∅.
Definition threads_after (n : nat) : system byte_map :=
  default threads_start (drive source_map BlindWrite threads_config [[1]] n threads_start).
Lemma threads_run n : is_Some (drive source_map BlindWrite threads_config [[1]] n threads_start) →
  runs source_map BlindWrite threads_config [[1]] ∅ n 0 (threads_after n).
Proof.
  intros [y Hy]. unfold threads_after. rewrite Hy. rewrite <-(Nat.add_0_r n) at 1.
  by apply (drive_runs _ _ _ _ ∅ 0 n threads_start); [apply runs_start|].
Qed.

(** The run ends with the stored blocks, and the missing one reported. *)
Example threads_run_report :
  let sh := state (threads_after 66) in let report := threaded_report BlindWrite [[1]] sh in
  sh_destination sh = stored_blocks
  ∧ report_attempted_write_block_count report = Some 3
  ∧ report_failures report = [failure_of [1] [4]
      {| template_operation := ReadSourceBlock; template_message := "source block was not found" |}].
Proof. split_and!; vm_compute; reflexivity. Qed.

Lemma threads_copy_complete_witness :
  let sh := state (threads_after 66) in
  accounted source_map BlindWrite ∅ (sh_destination sh) (failures (sh_tracker sh)) [1] [4].
Proof.
  intros sh.
  refine (proj2 (proj2 (proj2 (threads_copy_complete source_map [[1]] BlindWrite threads_config ∅ _ _ 66 0 (threads_after 66) _))) _ _ _ [1] [4] reach_four).
  - by intros cp d [= <-] h.
  - by intros p [= <-].
  - apply threads_run. eexists. vm_compute. reflexivity.
  - vm_compute. reflexivity.
  - vm_compute. by repeat apply Forall_cons_2.
  - vm_compute. reflexivity.
Defined.

(** In the middle of the run, while a writer compacts. *)
Lemma threads_bounded_witness :
  let y := threads_after 49 in
  0 < zsum checkpointing (writers y) ∧ write_jobs (sh_writes (state y)) = []
  ∧ ∃ held, Forall2 holds held (writers y) ∧ concat held = [] ∧ active_write_bytes (sh_writes (state y)) = 0.
Proof.
  intros y. assert (0 < zsum checkpointing (writers y)) as Hpos by (vm_compute; reflexivity). split; [exact Hpos|].
  destruct (threads_bounded source_map BlindWrite threads_config [[1]] ∅ 49 0 y) as (held&Hh&_&Hb&_&_&_&_&Hc).
  - apply threads_run. eexists. vm_compute. reflexivity.
  - destruct (Hc Hpos) as [Hj Hn]. split; [exact Hj|]. exists held. split; [exact Hh|]. split; [exact Hn|].
    rewrite Hn in Hb. exact Hb.
Defined.

Lemma threads_terminate_witness :
  Z.of_nat 66 ≤ 810 + Z.of_nat 0 ∧ (finished (threads_after 66)
    ∨ ∃ y', step source_map BlindWrite threads_config [[1]] (threads_after 66) y').
Proof.
  refine (threads_terminate source_map [[1]] BlindWrite threads_config ∅ _ [[1]; [2]] _ children_listed _ 66 0 (threads_after 66) _).
  - by intros cp d [= <-] h.
  - apply (bool_decide_eq_true_1 (NoDup [[1]; [2]])). reflexivity.
  - by intros p [= <-].
  - apply threads_run. eexists. vm_compute. reflexivity.
Defined.
