(* ===== verification/Http3.v ===== *)
(** * The gateway client ([lexonarchivebuilder-block-store-http3])

    A client keeps one HTTP/3 connection behind a mutex and shares it between the
    requests of all its clones. A request is a small state machine: its steps are
    the sections that hold the mutex and the awaited network calls, so that the
    steps of concurrent requests interleave. On top of it, the read-only block
    store that asks a gateway for the bytes of a block. The theorems are in
    [GatewaySpec.v].

    The TLS set-up and the endpoint are I/O; the network itself is the parameter
    [Network]. *)

From Stdlib Require Import ZArith Lia Ascii.
From stdpp Require Import base gmap sets strings sorting option list.
From S2P Require Import Prelude Hex Text BlockCopy Items.
#[local] Open Scope Z_scope.

Definition DEFAULT_GATEWAY_PORT : Z := 443.
Definition DEFAULT_GATEWAY_TIMEOUT : Z := 30.

(** [BlockStoreError] of the store crate: the constructor the project builds,
    and [Display]. *)
Class StoreErrors (E : Type) := {
  BackendFailure : string → E;
  store_error_text : E → string
}.

(** ** Names *)
Definition is_ascii_alphanumeric (c : Z) : bool :=
  (48 <=? c) && (c <=? 57) || (65 <=? c) && (c <=? 90) || (97 <=? c) && (c <=? 122).

Section names.
Context {E : Type} `{StoreErrors E}.

Definition validate_dns_name (dns_name : string) : result E string :=
  let trimmed := trim dns_name in
  let l := as_bytes trimmed in
  reject_if (bool_decide (trimmed = "")) (BackendFailure "gateway dns name must not be empty") ;;
  reject_if (contains_bytes (as_bytes "://") l || bool_decide (47 ∈ l) || bool_decide (58 ∈ l)
             || existsb (λ c, negb (is_ascii_alphanumeric c || (c =? 46) || (c =? 45))) l)
    (BackendFailure "gateway dns name must be a bare host name containing only ASCII letters, digits, dots, and hyphens") ;;
  reject_if (starts_with [46] l || ends_with [46] l || starts_with [45] l || ends_with [45] l)
    (BackendFailure "gateway dns name must not start or end with a dot or hyphen") ;;
  reject_if (existsb (λ label, bool_decide (label = []) || starts_with [45] label || ends_with [45] label) (split_on 46 l))
    (BackendFailure "gateway dns name labels must be non-empty and must not start or end with a hyphen") ;;
  Ok trimmed.
End names.

Inductive SocketAddr := V4 (ip port : Z) | V6 (ip port : Z).
Definition is_ipv4 (a : SocketAddr) : bool := match a with V4 _ _ => true | V6 _ _ => false end.

(** [Iterator::find]. *)
Definition find_first {A} (p : A → bool) (l : list A) : option A := head (filter (λ x, p x = true) l).

Definition preferred_resolved_address (addresses : list SocketAddr) : result string SocketAddr :=
  match find_first is_ipv4 addresses with
  | Some a => Ok a
  | None => ok_or (head addresses) "gateway host did not resolve to an address"
  end.

(** ** Requests *)
Inductive Method := GET | HEAD | OPTIONS | PUT | DELETE | TRACE | POST | OtherMethod (name : string).
#[export] Instance Method_eq_dec : EqDecision Method.
Proof. solve_decision. Defined.

(** [HeaderMap]: the values in iteration order, under lower-case names. *)
Abbreviation HeaderMap := (list (string * bytes)).

Record Http3GatewayRequest := {
  req_method : Method;
  req_path : string;
  req_headers : HeaderMap;
  req_body : bytes;
  req_timeout : Z
}.
Record Http3GatewayResponse := {
  status_code : Z;
  resp_headers : HeaderMap;
  resp_body : bytes
}.

Definition allows_transport_retry (m : Method) : bool :=
  match m with GET | HEAD | OPTIONS | PUT | DELETE | TRACE => true | POST | OtherMethod _ => false end.

(** What an awaited call ends with; [Expired]: the request's timer fires first. *)
Inductive answer (A : Type) := Reply (a : A) | Failed (message : string) | Expired.
Arguments Reply {A} a.
Arguments Failed {A} message.
Arguments Expired {A}.

(** [parse_uri] is [str::parse::<Uri>]; [exchange] covers building the request,
    sending it and receiving the response with its body in chunks, and
    [quic_connect] the QUIC and HTTP/3 handshakes. Their errors carry the text
    that the code puts before them. *)
Class Network (N : Type) := {
  connection : Type;
  parse_uri : string → result string string;
  lookup_host : string → Z → N → N * answer (list SocketAddr);
  quic_connect : SocketAddr → string → N → N * answer connection;
  exchange : connection → string → Http3GatewayRequest → N → N * answer (Z * HeaderMap * list bytes)
}.
Arguments connection N {_}.

Section client.
Context {N : Type} `{Network N}.

Record Http3GatewayState := {
  resolved_address : option SocketAddr;
  send_request : option (connection N)
}.
Definition default_state : Http3GatewayState := {| resolved_address := None; send_request := None |}.

(** Where a request stands. [first_error] is the error of the first attempt
    during the second one. *)
Inductive call :=
| Begin (first_error : option string)
| Look (first_error : option string) (uri : string)
| Resolve (first_error : option string) (uri : string)
| Connect (first_error : option string) (uri : string) (address : SocketAddr)
| Keep (first_error : option string) (uri : string) (address : SocketAddr) (c : connection N)
| Send (first_error : option string) (uri : string) (c : connection N)
| Broke (first_error : option string) (error : string)
| Finished (r : result string Http3GatewayResponse).

Definition build_block_uri (dns_name path : string) : result string string :=
  map_err (λ error, "failed to build gateway URI: " +:+ error) (parse_uri ("https://" +:+ dns_name +:+ path)).

Definition timeout_message (dns_name : string) (request : Http3GatewayRequest) : string :=
  "gateway request exceeded " +:+ fmt_usize (req_timeout request) +:+ "s timeout for host " +:+ dns_name.

(** The two sections of [get_or_connect] that hold the mutex. *)
Definition look_step (first_error : option string) (uri : string) (st : Http3GatewayState) : call :=
  match send_request st with
  | Some c => Send first_error uri c
  | None => match resolved_address st with
            | Some address => Connect first_error uri address
            | None => Resolve first_error uri
            end
  end.
Definition keep_step (first_error : option string) (uri : string) (address : SocketAddr) (c : connection N)
    (st : Http3GatewayState) : Http3GatewayState * call :=
  match send_request st with
  | Some existing => (st, Send first_error uri existing)
  | None => ({| resolved_address := Some address; send_request := Some c |}, Send first_error uri c)
  end.

Definition resolve_failure (dns_name error : string) : string :=
  "failed to resolve gateway host " +:+ dns_name +:+ ": " +:+ error.
Definition resolve_step (dns_name : string) (request : Http3GatewayRequest) (first_error : option string) (uri : string)
    (n : N) : N * call :=
  let '(n, r) := lookup_host dns_name DEFAULT_GATEWAY_PORT n in
  (n, match r with
      | Reply resolved =>
          match preferred_resolved_address resolved with
          | Ok address => Connect first_error uri address
          | Err error => Broke first_error (resolve_failure dns_name error)
          end
      | Failed error => Broke first_error (resolve_failure dns_name error)
      | Expired => Broke first_error (timeout_message dns_name request)
      end).

Definition connect_step (dns_name : string) (request : Http3GatewayRequest) (first_error : option string) (uri : string)
    (address : SocketAddr) (n : N) : N * call :=
  let '(n, r) := quic_connect address dns_name n in
  (n, match r with
      | Reply c => Keep first_error uri address c
      | Failed error => Broke first_error error
      | Expired => Broke first_error (timeout_message dns_name request)
      end).

Definition send_step (dns_name : string) (request : Http3GatewayRequest) (first_error : option string) (uri : string)
    (c : connection N) (n : N) : N * call :=
  let '(n, r) := exchange c uri request n in
  (n, match r with
      | Reply (status, headers, chunks) =>
          Finished (Ok {| status_code := status; resp_headers := headers; resp_body := concat chunks |})
      | Failed error => Broke first_error error
      | Expired => Broke first_error (timeout_message dns_name request)
      end).

(** [reset_connection], after the first attempt only, and the decision to try
    again. *)
Definition broke_step (request : Http3GatewayRequest) (first_error : option string) (error : string)
    (st : Http3GatewayState) : Http3GatewayState * call :=
  match first_error with
  | None => (default_state,
             if allows_transport_retry (req_method request) then Begin (Some error) else Finished (Err error))
  | Some first => (st, Finished (Err (first +:+ "; retry failed: " +:+ error)))
  end.

Definition call_step (dns_name : string) (request : Http3GatewayRequest)
    (w : Http3GatewayState * N) (c : call) : Http3GatewayState * N * call :=
  let '(st, n) := w in
  match c with
  | Begin first_error =>
      (st, n, match build_block_uri dns_name (req_path request) with
              | Ok uri => Look first_error uri
              | Err error => Broke first_error error
              end)
  | Look first_error uri => (st, n, look_step first_error uri st)
  | Resolve first_error uri => let '(n, c) := resolve_step dns_name request first_error uri n in (st, n, c)
  | Connect first_error uri address =>
      let '(n, c) := connect_step dns_name request first_error uri address n in (st, n, c)
  | Keep first_error uri address conn =>
      let '(st, c) := keep_step first_error uri address conn st in (st, n, c)
  | Send first_error uri conn => let '(n, c) := send_step dns_name request first_error uri conn n in (st, n, c)
  | Broke first_error error => let '(st, c) := broke_step request first_error error st in (st, n, c)
  | Finished r => (st, n, Finished r)
  end.

(** A request on its own. Each attempt takes at most seven steps. *)
Definition REQUEST_STEPS : nat := 14.
Definition gateway_request (dns_name : string) (request : Http3GatewayRequest) (w : Http3GatewayState * N)
    : Http3GatewayState * N * call :=
  Nat.iter REQUEST_STEPS (λ p, call_step dns_name request p.1 p.2) (w, Begin None).

(** ** Concurrent requests

    Every request of the clones is a call with its own position; each step moves
    one of them. *)
Inductive calls_step (dns_name : string) (requests : list Http3GatewayRequest)
    : (Http3GatewayState * N) * list call → (Http3GatewayState * N) * list call → Prop :=
| call_moves w calls i request c w' c' :
    requests !! i = Some request → calls !! i = Some c → call_step dns_name request w c = (w', c') →
    (∀ r, c ≠ Finished r) →
    calls_step dns_name requests (w, calls) (w', <[i := c']> calls).
End client.
Arguments Http3GatewayState N {_}.
Arguments call N {_}.

(** ** The read-only block store *)
Definition block_response {E} `{StoreErrors E} `{HashDisplay} (block_id : block_hash)
    (r : result string Http3GatewayResponse) : result E (option bytes) :=
  response ← map_err BackendFailure r;
  if status_code response =? 200 then Ok (Some (resp_body response))
  else if status_code response =? 404 then Ok None
  else Err (BackendFailure ("gateway returned unexpected HTTP status " +:+ fmt_usize (status_code response)
                            +:+ " for block " +:+ hash_to_string block_id)).

Definition build_block_path `{HashDisplay} (block_id : block_hash) : string := "/block/" +:+ hash_to_string block_id.
Definition block_request `{HashDisplay} (block_id : block_hash) : Http3GatewayRequest :=
  {| req_method := GET; req_path := build_block_path block_id; req_headers := []; req_body := [];
     req_timeout := DEFAULT_GATEWAY_TIMEOUT |}.

Section block_store.
Context {N E : Type} `{Network N} `{StoreErrors E} `{HashDisplay}.

(** The call in which the request ended; [None]: it has not. *)
Definition call_result (c : call N) : option (result string Http3GatewayResponse) :=
  match c with Finished r => Some r | _ => None end.

Definition gateway_get_block_bytes (dns_name : string) (block_id : block_hash) (w : Http3GatewayState N * N)
    : Http3GatewayState N * N * option (result E (option bytes)) :=
  let '(w, c) := gateway_request dns_name (block_request block_id) w in
  (w, block_response block_id <$> call_result c).

Definition gateway_put_block_bytes (block_id : block_hash) (block_bytes : bytes) : result E unit :=
  Err (BackendFailure "gateway-http3 block store is read-only and does not support writes").

Definition gateway_iter_block_ids : result E (list block_hash) :=
  Err (BackendFailure "gateway-http3 block store is read-only and does not support whole-store iteration").

(** [Http3GatewayClient::new] and [Http3BlockStore::new]; [transport] is the
    outcome of [Http3GatewayTransport::new]. *)
Definition gateway_client_new (transport : result string unit) (dns_name : string) : result string string :=
  dns_name ← map_err store_error_text (validate_dns_name dns_name);
  transport ;; Ok dns_name.
Definition http3_block_store_new (transport : result string unit) (dns_name : string) : result E string :=
  map_err BackendFailure (gateway_client_new transport dns_name).
End block_store.
