(* ===== verification/Gateway.v ===== *)
(** * The block gateway ([lexonarchivebuilder-block-gateway])

    The server that answers the clients of [Http3.v]: the checks of its
    configuration, the stores it opens, its two routes, and the proxy for
    embedding requests with its header filter. The TLS and QUIC set-up and the
    accept loops are I/O. An [anyhow] error is its outermost text. The theorems
    are in [GatewaySpec.v]. *)

From Stdlib Require Import ZArith Lia Ascii.
From stdpp Require Import base gmap sets strings sorting option list.
From S2P Require Import Prelude Hex Text BlockCopy Items Http3.
#[local] Open Scope Z_scope.

Definition CACHE_CONTROL_VALUE : string := "public, max-age=31536000, immutable".
Definition NO_STORE_CACHE_CONTROL_VALUE : string := "no-store".
Definition MAX_EMBEDDING_REQUEST_BODY_BYTES : Z := 1024 * 1024.

(** ** Configuration *)
Inductive GatewayStorageProfile := ProfileLocalRedb | ProfileProduction | ProfileProductionV2.
#[export] Instance GatewayStorageProfile_eq_dec : EqDecision GatewayStorageProfile.
Proof. solve_decision. Defined.

Record GatewayConfig := {
  listen_addr : string;
  storage_profile : GatewayStorageProfile;
  block_store_root : option string;
  block_store_container_sas_url : string;
  block_store_filesystem_cache_root : option string;
  block_store_memory_cache_max_resident_blocks : option Z;
  block_store_prefix : option string;
  embedding_base_url : option string
}.

(** ** The arguments of [serve] ([main.rs])

    [clap] parses them; variables of the environment fill what they leave open,
    for the profiles that use it. *)
Definition BLOCK_GATEWAY_SAS_URL_ENV : string := "LEXONARCHIVEBUILDER_BLOCK_GATEWAY_SAS_URL".
Definition BLOCK_GATEWAY_BLOCK_STORE_FILESYSTEM_CACHE_ROOT_ENV : string :=
  "LEXONARCHIVEBUILDER_BLOCK_GATEWAY_BLOCK_STORE_FILESYSTEM_CACHE_ROOT".
Definition BLOCK_GATEWAY_BLOCK_STORE_MEMORY_CACHE_MAX_RESIDENT_BLOCKS_ENV : string :=
  "LEXONARCHIVEBUILDER_BLOCK_GATEWAY_BLOCK_STORE_MEMORY_CACHE_MAX_RESIDENT_BLOCKS".
Definition BLOCK_GATEWAY_BLOCK_STORE_PREFIX_ENV : string := "LEXONARCHIVEBUILDER_BLOCK_GATEWAY_BLOCK_STORE_PREFIX".

Record GatewayServeArgs := {
  serve_listen_addr : string;
  serve_storage_profile : GatewayStorageProfile;
  serve_block_store_root : option string;
  serve_container_sas_url : option string;
  serve_filesystem_cache_root : option string;
  serve_memory_cache_max_resident_blocks : option Z;
  serve_block_store_prefix : option string;
  serve_embedding_base_url : option string
}.
Definition gateway_config_from_args_with_env (args : GatewayServeArgs) (read_string_env read_path_env : string → option string)
    : result string GatewayConfig :=
  let sas_url := match serve_storage_profile args with
    | ProfileLocalRedb => default ""%string (serve_container_sas_url args)
    | ProfileProduction | ProfileProductionV2 =>
        default ""%string (serve_container_sas_url args ∪ read_string_env BLOCK_GATEWAY_SAS_URL_ENV)
    end in
  let filesystem_cache_root := match serve_storage_profile args with
    | ProfileProduction => serve_filesystem_cache_root args ∪ read_path_env BLOCK_GATEWAY_BLOCK_STORE_FILESYSTEM_CACHE_ROOT_ENV
    | ProfileLocalRedb | ProfileProductionV2 => serve_filesystem_cache_root args
    end in
  memory_cache ← match serve_storage_profile args, serve_memory_cache_max_resident_blocks args with
    | ProfileProduction, None =>
        match read_string_env BLOCK_GATEWAY_BLOCK_STORE_MEMORY_CACHE_MAX_RESIDENT_BLOCKS_ENV with
        | Some value => Some <$> ok_or (parse_usize value)
            (BLOCK_GATEWAY_BLOCK_STORE_MEMORY_CACHE_MAX_RESIDENT_BLOCKS_ENV +:+ " must parse as an unsigned integer")
        | None => Ok None
        end
    | _, blocks => Ok blocks
    end;
  let prefix := match serve_storage_profile args with
    | ProfileLocalRedb => serve_block_store_prefix args
    | ProfileProduction | ProfileProductionV2 => serve_block_store_prefix args ∪ read_string_env BLOCK_GATEWAY_BLOCK_STORE_PREFIX_ENV
    end in
  Ok {| listen_addr := serve_listen_addr args; storage_profile := serve_storage_profile args; block_store_root := serve_block_store_root args;
        block_store_container_sas_url := sas_url; block_store_filesystem_cache_root := filesystem_cache_root;
        block_store_memory_cache_max_resident_blocks := memory_cache; block_store_prefix := prefix;
        embedding_base_url := serve_embedding_base_url args |}.
Definition gateway_config_from_args (env : string → option string) (args : GatewayServeArgs) : result string GatewayConfig :=
  gateway_config_from_args_with_env args env env.

(** [Option::is_none_or] with [is_empty]. *)
Definition is_none_or_empty (path : option string) : bool :=
  match path with None => true | Some path => bool_decide (path = "") end.

Definition validate_storage_profile_config (config : GatewayConfig) : result string unit :=
  reject_if (bool_decide (storage_profile config ≠ ProfileLocalRedb)
             && blank (block_store_container_sas_url config))
    "block_store_container_sas_url must not be empty" ;;
  reject_if (from_option (λ prefix, negb (blank prefix)) false (block_store_prefix config))
    "non-empty block_store_prefix values are not supported by the approved gateway storage profiles" ;;
  match storage_profile config with
  | ProfileLocalRedb =>
      reject_if (is_none_or_empty (block_store_root config))
        "local-redb block_store_root is required for the redb-backed gateway profile"
  | ProfileProduction =>
      reject_if (bool_decide (block_store_root config ≠ None))
        "production block_store_root is not supported for the overlay-backed gateway profile" ;;
      reject_if (is_none_or_empty (block_store_filesystem_cache_root config))
        "production block_store_filesystem_cache_root is required for the overlay-backed gateway profile" ;;
      match block_store_memory_cache_max_resident_blocks config with
      | Some blocks =>
          reject_if (blocks =? 0)
            "production block_store_memory_cache_max_resident_blocks must be at least 1"
      | None => Err "production block_store_memory_cache_max_resident_blocks is required for the overlay-backed gateway profile"
      end
  | ProfileProductionV2 =>
      reject_if (bool_decide (block_store_root config ≠ None))
        "production-v2 block_store_root is not supported for the direct Azure Table gateway profile" ;;
      reject_if (bool_decide (block_store_filesystem_cache_root config ≠ None))
        "production-v2 block_store_filesystem_cache_root is not supported for the direct Azure Table gateway profile" ;;
      reject_if (bool_decide (block_store_memory_cache_max_resident_blocks config ≠ None))
        "production-v2 block_store_memory_cache_max_resident_blocks is not supported for the direct Azure Table gateway profile"
  end.

(** The stores of the store crates, as they are opened. *)
Inductive layer := CacheMemory (max_resident_blocks : Z) | CacheFilesystem (root : string) | WritableAzureTable (url : string).
Inductive gateway_store :=
| RedbReadOnly (root : string)
| OverlayOf (layers : list layer)
| DirectAzureTable (url : string).

(** [open] is the outcome of the constructor of a store or layer. The outer
    [None] is a panic of one of the [expect]s. *)
Section build.
Context (open_store : gateway_store → result string unit) (open_layer : layer → result string unit).

Definition build_local_redb_store (config : GatewayConfig) : option (result string gateway_store) :=
  store_root ← block_store_root config;
  let store := RedbReadOnly store_root in
  Some (map_err (λ _, "failed to initialize local redb block store at " +:+ store_root)
          (open_store store ;; Ok store)).

Definition build_direct_azure_table_store (config : GatewayConfig) : result string gateway_store :=
  let store := DirectAzureTable (block_store_container_sas_url config) in
  open_store store ;; Ok store.

Definition build_overlay_store (config : GatewayConfig) : option (result string gateway_store) :=
  let azure := WritableAzureTable (block_store_container_sas_url config) in
  match map_err (λ _ : string, "failed to initialize Azure Table backing store for overlay profile") (open_layer azure) with
  | Err error => Some (Err error)
  | Ok _ =>
      blocks ← block_store_memory_cache_max_resident_blocks config;
      match map_err (λ _ : string, "failed to initialize in-memory overlay cache") (open_layer (CacheMemory blocks)) with
      | Err error => Some (Err error)
      | Ok _ =>
          root ← block_store_filesystem_cache_root config;
          Some (
            map_err (λ _ : string, "failed to initialize filesystem overlay cache") (open_layer (CacheFilesystem root)) ;;
            let store := OverlayOf [CacheMemory blocks; CacheFilesystem root; azure] in
            map_err (λ _ : string, "failed to initialize overlay block store") (open_store store) ;;
            Ok store)
      end
  end.

Definition build_store (config : GatewayConfig) : option (result string gateway_store) :=
  match validate_storage_profile_config config with
  | Err error => Some (Err error)
  | Ok _ =>
      match storage_profile config with
      | ProfileLocalRedb => build_local_redb_store config
      | ProfileProduction => build_overlay_store config
      | ProfileProductionV2 =>
          Some (map_err (λ _, "failed to initialize Azure Table block store from block_store_container_sas_url configured for "
                              +:+ listen_addr config) (build_direct_azure_table_store config))
      end
  end.
End build.

(** ** Headers

    [to_str] of a header value, and [HeaderName::from_bytes]. *)
Class HeaderParse := {
  value_to_str : bytes → option string;
  header_name_from_bytes : bytes → option string
}.

Definition is_hop_by_hop_or_framing_header (name : string) : bool :=
  bool_decide (name ∈ ["connection"; "content-length"; "host"; "keep-alive"; "proxy-authenticate";
    "proxy-authorization"; "te"; "trailer"; "transfer-encoding"; "upgrade"]).

Section headers.
Context `{HeaderParse}.

Definition get_all (headers : HeaderMap) (name : string) : list bytes :=
  snd <$> filter (λ h, h.1 = name) headers.

Definition is_connection_nominated_header (headers : HeaderMap) (candidate : string) : bool :=
  existsb (λ name, bool_decide (name = candidate))
    (omap (λ name, header_name_from_bytes (trim_bytes name))
      (omap value_to_str (get_all headers "connection") ≫= λ value, split_on 44 (as_bytes value))).

Definition copy_end_to_end_headers_into (destination source : HeaderMap) : HeaderMap :=
  foldl (λ destination h,
    if negb (is_hop_by_hop_or_framing_header h.1) && negb (is_connection_nominated_header source h.1)
    then destination ++ [h] else destination) destination source.

Definition copy_end_to_end_headers (source : HeaderMap) : HeaderMap := copy_end_to_end_headers_into [] source.
End headers.

(** ** Responses *)
Definition status_response (status : Z) : Http3GatewayResponse :=
  {| status_code := status; resp_headers := []; resp_body := [] |}.
Definition not_found_response : Http3GatewayResponse :=
  {| status_code := 404; resp_headers := [("cache-control", as_bytes NO_STORE_CACHE_CONTROL_VALUE)]; resp_body := [] |}.

Section routes.
Context {D : Type} `{ByteStore D} `{HeaderParse}.

Definition get_block (block_id : string) (d : D) : D * Http3GatewayResponse :=
  match decode_hash block_id with
  | None => (d, not_found_response)
  | Some block_hash =>
      let '(d, r) := get_block_bytes block_hash d in
      (d, match r with
          | Ok (Some block_bytes) =>
              {| status_code := 200;
                 resp_headers := [("content-type", as_bytes "application/octet-stream");
                                  ("cache-control", as_bytes CACHE_CONTROL_VALUE)];
                 resp_body := block_bytes |}
          | Ok None => not_found_response
          | Err _ => not_found_response
          end)
  end.

(** What the embedding service answers: the outcome of [send], whose response
    has a body that may fail to arrive. *)
Definition upstream : Type := HeaderMap → bytes → result string (Z * HeaderMap * result string bytes).

(** [to_bytes] with a limit. *)
Definition limited_body (body : result string bytes) : result string bytes :=
  body ← body;
  if MAX_EMBEDDING_REQUEST_BODY_BYTES <? len body then Err "length limit exceeded" else Ok body.

Definition proxy_embeddings (proxy : option upstream) (request_headers : HeaderMap) (request_body : result string bytes)
    : Http3GatewayResponse :=
  match proxy with
  | None => not_found_response
  | Some proxy =>
      match limited_body request_body with
      | Err _ => status_response 413
      | Ok request_body =>
          match proxy (copy_end_to_end_headers request_headers) request_body with
          | Err _ => status_response 502
          | Ok (status, response_headers, response_body) =>
              match response_body with
              | Err _ => status_response 502
              | Ok response_body =>
                  {| status_code := status; resp_headers := copy_end_to_end_headers_into [] response_headers;
                     resp_body := response_body |}
              end
          end
      end
  end.

(** [EmbeddingProxy::new]: the endpoint; [parse_url] is [reqwest::Url::parse]. *)
Definition embedding_endpoint (parse_url : string → result string string) (base_url : string) : result string string :=
  map_err (λ _, "embedding_base_url must be a valid absolute URL")
    (parse_url (trim_end_slashes base_url +:+ "/v1/embeddings")).

(** ** The router

    The requests that reach one of the two handlers; [None]: the router answers
    by itself. A route of [get] also serves [HEAD], with the body of the answer
    removed; the [content-length] that the router adds is left out.
    [percent_decode] is its decoding of a path segment. *)
Definition without_body (response : Http3GatewayResponse) : Http3GatewayResponse := {|
  status_code := status_code response; resp_headers := resp_headers response; resp_body := [] |}.
Definition strip_prefix (prefix s : string) : option bytes :=
  if starts_with (as_bytes prefix) (as_bytes s) then Some (drop (length (as_bytes prefix)) (as_bytes s)) else None.

Definition build_router (percent_decode : string → option string) (proxy : option upstream)
    (request : Http3GatewayRequest) (d : D) : option (D * Http3GatewayResponse) :=
  let get_route :=
    segment ← strip_prefix "/block/" (req_path request);
    if bool_decide (segment = []) || bool_decide (47 ∈ segment) then None else
    block_id ← percent_decode (of_bytes segment);
    Some (get_block block_id d) in
  match req_method request with
  | GET => get_route
  | HEAD => '(d', response) ← get_route; Some (d', without_body response)
  | POST =>
      if bool_decide (req_path request = "/v1/embeddings")
      then Some (d, proxy_embeddings proxy (req_headers request) (Ok (req_body request))) else None
  | _ => None
  end.
End routes.
