(* ===== verification/GatewaySpec.v ===== *)
(** * Theorems of the gateway and its client

    Which host names are accepted; a validated configuration opens a store
    without a panic; concurrent requests share a connection, end after a bounded
    number of steps and never repeat a request that is not idempotent; and what a
    client reads through the gateway is what the gateway's store holds. *)

From Stdlib Require Import ZArith Lia Ascii.
From stdpp Require Import base gmap sets strings sorting option list.
From S2P Require Import Prelude Hex Text BlockCopy Items ConfigSpec Http3 Gateway.
#[local] Open Scope Z_scope.

(** ** Host names *)
Definition label_char (c : Z) : Prop := is_ascii_alphanumeric c = true ∨ c = 45.
Definition host_label (l : bytes) : Prop :=
  l ≠ [] ∧ Forall label_char l ∧ starts_with [45] l = false ∧ ends_with [45] l = false.

Lemma elem_of_split_on (sep : Z) l c : c ∈ l → c = sep ∨ ∃ s, s ∈ split_on sep l ∧ c ∈ s.
Proof.
  induction l as [|a l IH]; cbn [split_on]; [by inversion 1|]. intros [->|Hc]%elem_of_cons.
  - case_decide; [by left|]. right. destruct (split_on sep l) as [|s ss]; eexists; (split; [by left|by left]).
  - destruct (IH Hc) as [?|(s&Hs&Hcs)]; [by left|]. right.
    case_decide; [exists s; split; [by right|done]|]. destruct (split_on sep l) as [|s0 ss]; [by inversion Hs|].
    apply elem_of_cons in Hs as [->|Hs]; [exists (a :: s0); split; [by left|by right]|exists s; split; [by right|done]].
Qed.

Lemma split_on_mem (sep : Z) l s c : s ∈ split_on sep l → c ∈ s → c ∈ l.
Proof.
  revert s. induction l as [|a l IH]; cbn [split_on]; intros s.
  { intros ->%list_elem_of_singleton. by inversion 1. }
  case_decide; [intros [->|Hs]%elem_of_cons Hc; [by inversion Hc|right; by eapply IH]|].
  destruct (split_on sep l) as [|s0 ss].
  { intros ->%list_elem_of_singleton ->%list_elem_of_singleton. by left. }
  intros [->|Hs]%elem_of_cons Hc.
  - apply elem_of_cons in Hc as [->|Hc]; [by left|]. right. eapply IH; [by left|done].
  - right. eapply IH; [by right|done].
Qed.

Lemma split_on_head (sep : Z) l : ∃ s ss k, split_on sep l = s :: ss ∧ l = s ++ k.
Proof.
  induction l as [|a l (s&ss&k&Hs&Hl)]; cbn [split_on]; [by exists [], [], []|].
  case_decide; [by exists [], (split_on sep l), (a :: l)|]. rewrite Hs. exists (a :: s), ss, k. by rewrite Hl.
Qed.

Lemma split_on_last (sep : Z) l : ∃ ss s k, split_on sep l = ss ++ [s] ∧ l = k ++ s ∧ (ss = [] → k = []).
Proof.
  induction l as [|a l (ss&s&k&Hs&Hl&Hk)]; cbn [split_on]; [by exists [], [], []|].
  case_decide; [exists ([] :: ss), s, (a :: k); rewrite Hs; by rewrite Hl|].
  rewrite Hs. destruct ss as [|s0 ss]; cbn.
  - rewrite (Hk eq_refl) in Hl. exists [], (a :: s), []. by rewrite Hl.
  - exists ((a :: s0) :: ss), s, (a :: k). by rewrite Hl.
Qed.

Lemma starts_with_app s l c : s ≠ [] → starts_with [c] (s ++ l) = starts_with [c] s.
Proof. by destruct s. Qed.
Lemma starts_with_mem s c : starts_with [c] s = true → c ∈ s.
Proof. destruct s as [|a s]; [done|]. cbn. intros [->%Z.eqb_eq _]%andb_true_iff. by left. Qed.

Lemma contains_colon l : contains_bytes (as_bytes "://") l = true → 58 ∈ l.
Proof.
  induction l as [|a l IH]; [done|].
  change (starts_with (as_bytes "://") (a :: l) || contains_bytes (as_bytes "://") l = true → 58 ∈ a :: l).
  intros [Hs|Hc]%orb_true_iff; [|right; auto]. change (as_bytes "://") with [58; 47; 47] in Hs.
  cbn [starts_with] in Hs. apply andb_true_iff in Hs as [<-%Z.eqb_eq _]. by left.
Qed.

Lemma existsb_false {A} (f : A → bool) l : existsb f l = false ↔ Forall (λ x, f x = false) l.
Proof.
  induction l as [|x l IH]; cbn; [by split; constructor|]. rewrite orb_false_iff, IH. by rewrite Forall_cons.
Qed.

(** ** The arguments of [serve] *)

(** The environment only fills what the arguments leave open, and only for the
    profiles of the cloud stores. *)
Lemma environment_fills_gaps env args config : gateway_config_from_args env args = Ok config →
  storage_profile config = serve_storage_profile args ∧ block_store_root config = serve_block_store_root args
  ∧ (∀ url, serve_container_sas_url args = Some url → block_store_container_sas_url config = url)
  ∧ (∀ root, serve_filesystem_cache_root args = Some root → block_store_filesystem_cache_root config = Some root)
  ∧ (∀ blocks, serve_memory_cache_max_resident_blocks args = Some blocks → block_store_memory_cache_max_resident_blocks config = Some blocks)
  ∧ (serve_storage_profile args ≠ ProfileProduction →
       block_store_filesystem_cache_root config = serve_filesystem_cache_root args
       ∧ block_store_memory_cache_max_resident_blocks config = serve_memory_cache_max_resident_blocks args)
  ∧ (serve_storage_profile args = ProfileLocalRedb → ∀ env', gateway_config_from_args env' args = Ok config).
Proof.
  unfold gateway_config_from_args, gateway_config_from_args_with_env. intros (memory&Hm&[= <-])%result_bind_ok. cbn.
  split_and!; try done.
  - intros url ->. by destruct (serve_storage_profile args), (env BLOCK_GATEWAY_SAS_URL_ENV).
  - intros root ->. by destruct (serve_storage_profile args), (env BLOCK_GATEWAY_BLOCK_STORE_FILESYSTEM_CACHE_ROOT_ENV).
  - intros blocks Hb. rewrite Hb in Hm. destruct (serve_storage_profile args); by injection Hm as <-.
  - intros Hp. destruct (serve_storage_profile args); try done; by injection Hm as <-.
  - intros Hp env'. rewrite Hp in *. injection Hm as <-. done.
Qed.

Section names.
Context {E : Type} `{StoreErrors E}.

(** A gateway host name is accepted exactly when, trimmed, it is a sequence
    of dot-separated labels, each of them non-empty, made of ASCII letters,
    digits and hyphens, and without a hyphen at either end. *)
Theorem validate_dns_name_spec dns_name n :
  validate_dns_name (E:=E) dns_name = Ok n ↔ n = trim dns_name ∧ Forall host_label (split_on 46 (as_bytes n)).
Proof.
  unfold validate_dns_name. set (t := trim dns_name). result_ok.
  split.
  - intros (Hne&Hch&Hends&Hlab&[= <-]). split; [done|].
    apply existsb_false in Hlab. rewrite Forall_forall in Hlab |- *. intros l Hl. specialize (Hlab l Hl).
    rewrite !orb_false_iff, bool_decide_eq_false in Hlab. destruct Hlab as [[? ?] ?]. split_and!; try done.
    rewrite !orb_false_iff in Hch. destruct Hch as [_ Hch]. apply existsb_false in Hch.
    rewrite Forall_forall in Hch |- *. intros c Hc. specialize (Hch c (split_on_mem _ _ _ _ Hl Hc)).
    pose proof (split_on_free 46 (as_bytes t)) as Hfree. rewrite Forall_forall in Hfree. specialize (Hfree l Hl).
    unfold label_char. apply negb_false_iff in Hch. rewrite !orb_true_iff, !Z.eqb_eq in Hch.
    destruct Hch as [[?| ->]| ->]; [by left|by destruct Hfree|by right].
  - intros [-> Hlab]. fold t in Hlab.
    assert (∀ c, c ∈ as_bytes t → label_char c ∨ c = 46) as Hchar.
    { intros c [->|(s&Hs&Hcs)]%(elem_of_split_on 46); [by right|]. left. rewrite Forall_forall in Hlab.
      destruct (Hlab s Hs) as (_&Hc&_). rewrite Forall_forall in Hc. auto. }
    assert (∀ c, c ∈ [47; 58] → c ∉ as_bytes t) as Hno.
    { intros c Hc Hin. destruct (Hchar c Hin) as [Hlc| ->]; [|set_solver].
      apply elem_of_cons in Hc as [->| ->%list_elem_of_singleton]; by destruct Hlc. }
    destruct (split_on_head 46 (as_bytes t)) as (s1&ss1&k1&Hs1&Ht1).
    destruct (split_on_last 46 (as_bytes t)) as (ss2&s2&k2&Hs2&Ht2&_).
    assert (host_label s1) as (Hn1&_&Hst1&_) by (rewrite Hs1 in Hlab; by apply Forall_cons in Hlab as [? _]).
    assert (host_label s2) as (Hn2&_&_&Hen2).
    { rewrite Forall_forall in Hlab. apply Hlab. rewrite Hs2. apply elem_of_app. right. by left. }
    pose proof (split_on_free 46 (as_bytes t)) as Hfree.
    assert (46 ∉ s1 ∧ 46 ∉ s2) as [Hf1 Hf2].
    { rewrite Forall_forall in Hfree. split; apply Hfree; [rewrite Hs1; by left|].
      rewrite Hs2. apply elem_of_app. right. by left. }
    split_and!; [| | | |done].
    + apply bool_decide_eq_false. intros He. rewrite He in Ht1. by destruct s1.
    + rewrite !orb_false_iff, !bool_decide_eq_false. split_and!; [|apply Hno; set_solver..|].
      * apply not_true_is_false. intros Hc%contains_colon. apply (Hno 58); [set_solver|done].
      * apply existsb_false, Forall_forall. intros c Hc. apply negb_false_iff. rewrite !orb_true_iff, !Z.eqb_eq.
        destruct (Hchar c Hc) as [[?|?]|?]; tauto.
    + assert (∀ c, starts_with [c] (as_bytes t) = starts_with [c] s1) as Hstart.
      { intros c. by rewrite Ht1, starts_with_app. }
      assert (∀ c, ends_with [c] (as_bytes t) = ends_with [c] s2) as Hend.
      { intros c. by rewrite Ht2, ends_with_app. }
      rewrite !Hstart, !Hend, Hst1, Hen2, !orb_false_iff. split_and!; [| |done..];
        apply not_true_is_false; [by intros ?%starts_with_mem|by intros ?%ends_with_mem].
    + apply existsb_false. eapply Forall_impl; [exact Hlab|]. intros l (?&_&?&?).
      rewrite !orb_false_iff, bool_decide_eq_false. done.
Qed.
End names.

(** ** Configuration *)

(** What a store of the gateway is built from. *)
Definition store_matches (config : GatewayConfig) (store : gateway_store) : Prop :=
  match storage_profile config, store with
  | ProfileLocalRedb, RedbReadOnly root => block_store_root config = Some root ∧ root ≠ ""
  | ProfileProduction, OverlayOf [CacheMemory blocks; CacheFilesystem root; WritableAzureTable url] =>
      block_store_memory_cache_max_resident_blocks config = Some blocks ∧ blocks ≠ 0
      ∧ block_store_filesystem_cache_root config = Some root ∧ root ≠ ""
      ∧ url = block_store_container_sas_url config ∧ blank url = false
  | ProfileProductionV2, DirectAzureTable url => url = block_store_container_sas_url config ∧ blank url = false
  | _, _ => False
  end.

Lemma is_none_or_empty_false path : is_none_or_empty path = false ↔ ∃ p, path = Some p ∧ p ≠ "".
Proof. destruct path as [p|]; cbn; [rewrite bool_decide_eq_false|]; naive_solver. Qed.

(** Opening the gateway's store never panics, whatever the configuration and
    whichever constructors fail, and a store that is opened is the one of the
    configured profile with validated settings. *)
Theorem build_store_safe open_store open_layer config :
  ∃ r, build_store open_store open_layer config = Some r
    ∧ (∀ store, r = Ok store → validate_storage_profile_config config = Ok () ∧ store_matches config store).
Proof.
  unfold build_store. destruct (validate_storage_profile_config config) as [[]|e] eqn:Hv; [|by exists (Err e)].
  unfold validate_storage_profile_config in Hv.
  apply result_seq_ok in Hv as [Hsas Hv]. apply result_seq_ok in Hv as [_ Hv].
  rewrite reject_if_ok in Hsas. unfold store_matches. destruct (storage_profile config) eqn:Hp.
  - apply reject_if_ok, is_none_or_empty_false in Hv as (root&Hr&Hne).
    unfold build_local_redb_store. rewrite Hr. cbn. eexists; split; [done|]. intros store Hs.
    destruct (open_store (RedbReadOnly root)) as [?|?]; [|done]. by injection Hs as <-.
  - rewrite bool_decide_true in Hsas by done. cbn in Hsas.
    apply result_seq_ok in Hv as [_ Hv]. apply result_seq_ok in Hv as [Hroot Hv].
    apply reject_if_ok, is_none_or_empty_false in Hroot as (root&Hr&Hne). unfold build_overlay_store.
    destruct (block_store_memory_cache_max_resident_blocks config) as [blocks|]; [|done].
    apply reject_if_ok, Z.eqb_neq in Hv.
    destruct (open_layer _) as [[]|?]; [|by eexists]. cbn.
    destruct (open_layer (CacheMemory blocks)) as [[]|?]; [|by eexists]. cbn. rewrite Hr. cbn.
    eexists; split; [done|]. intros store Hs.
    destruct (open_layer (CacheFilesystem root)) as [[]|?]; [|done]. cbn in Hs.
    destruct (open_store _) as [[]|?]; [|done]. injection Hs as <-. done.
  - rewrite bool_decide_true in Hsas by done. cbn in Hsas. eexists; split; [done|]. intros store Hs.
    unfold build_direct_azure_table_store in Hs. destruct (open_store _) as [[]|?]; [|done]. by injection Hs as <-.
Qed.

(** ** Headers *)
Section headers.
Context `{HeaderParse}.

Definition end_to_end (source : HeaderMap) (h : string * bytes) : Prop :=
  is_hop_by_hop_or_framing_header h.1 = false ∧ is_connection_nominated_header source h.1 = false.
#[local] Instance end_to_end_dec source h : Decision (end_to_end source h).
Proof. unfold end_to_end. apply _. Defined.

Lemma copy_filter source l destination :
  foldl (λ destination h,
    if negb (is_hop_by_hop_or_framing_header h.1) && negb (is_connection_nominated_header source h.1)
    then destination ++ [h] else destination) destination l
  = destination ++ filter (end_to_end source) l.
Proof.
  revert destination. induction l as [|h l IH]; intros destination; [by rewrite app_nil_r|].
  cbn [foldl]. rewrite IH, filter_cons.
  destruct (is_hop_by_hop_or_framing_header h.1) eqn:E1; cbn.
  { rewrite decide_False; [done|]. intros [? ?]. congruence. }
  destruct (is_connection_nominated_header source h.1) eqn:E2; cbn.
  { rewrite decide_False; [done|]. intros [? ?]. congruence. }
  rewrite decide_True by done. by rewrite <-app_assoc.
Qed.

Lemma none_nominated l name : Forall (λ h, is_hop_by_hop_or_framing_header h.1 = false) l →
  is_connection_nominated_header l name = false.
Proof.
  intros Hl. assert (get_all l "connection" = []) as Hn.
  { unfold get_all. induction Hl as [|h l Hh Hl IH]; [done|]. rewrite filter_cons. case_decide as Heq; [|done].
    rewrite Heq in Hh. by vm_compute in Hh. }
  unfold is_connection_nominated_header. by rewrite Hn.
Qed.

(** The proxy forwards exactly the headers that are neither hop-by-hop nor
    named by a [connection] header, in their order, and forwarding what was
    forwarded changes nothing. *)
Theorem copied_headers source :
  copy_end_to_end_headers source = filter (end_to_end source) source
  ∧ copy_end_to_end_headers (copy_end_to_end_headers source) = copy_end_to_end_headers source.
Proof.
  unfold copy_end_to_end_headers, copy_end_to_end_headers_into. rewrite !copy_filter. split; [done|]. cbn [app].
  apply filter_keep, Forall_forall. intros h [[Hh _] _]%list_elem_of_filter. split; [done|].
  apply none_nominated, Forall_forall. by intros k [[Hk _] _]%list_elem_of_filter.
Qed.
End headers.

(** ** Requests *)
Section requests.
Context {N : Type} `{Network N} (dns_name : string) (requests : list Http3GatewayRequest).

(** The steps a call has left at most, and its sends. *)
Definition attempt_rank (first_error : option string) : nat := match first_error with None => 7 | Some _ => 0 end.
Definition call_rank (c : call N) : nat :=
  match c with
  | Begin f => attempt_rank f + 7 | Look f _ => attempt_rank f + 6 | Resolve f _ => attempt_rank f + 5
  | Connect f _ _ => attempt_rank f + 4 | Keep f _ _ _ => attempt_rank f + 3 | Send f _ _ => attempt_rank f + 2
  | Broke f _ => attempt_rank f + 1 | Finished _ => 0
  end.

Definition retries (request : Http3GatewayRequest) : nat :=
  if allows_transport_retry (req_method request) then 1 else 0.
Definition sends_left (request : Http3GatewayRequest) (c : call N) : nat :=
  match c with
  | Begin f | Look f _ | Resolve f _ | Connect f _ _ | Keep f _ _ _ | Send f _ _ =>
      1 + match f with None => retries request | Some _ => 0 end
  | Broke f _ => match f with None => retries request | Some _ => 0 end
  | Finished _ => 0
  end.
Definition is_send (c : call N) : bool := match c with Send _ _ _ => true | _ => false end.

Lemma call_step_rank request w c w' c' : call_step dns_name request w c = (w', c') → (∀ r, c ≠ Finished r) →
  (call_rank c' < call_rank c)%nat
  ∧ (sends_left request c' + (if is_send c then 1 else 0) ≤ sends_left request c)%nat.
Proof.
  destruct w as [st n], c as [f|f uri|f uri|f uri a|f uri a cn|f uri cn|f error|r]; cbn [call_step]; intros Hs Hnf.
  - injection Hs as _ <-. destruct (build_block_uri _ _); cbn; lia.
  - injection Hs as _ <-. unfold look_step. destruct (send_request st); [cbn; lia|].
    destruct (resolved_address st); cbn; lia.
  - unfold resolve_step in Hs. destruct (lookup_host _ _ _) as [n1 [l|e|]]; injection Hs as _ <-; cbn; try lia.
    destruct (preferred_resolved_address l); cbn; lia.
  - unfold connect_step in Hs. destruct (quic_connect _ _ _) as [n1 [l|e|]]; injection Hs as _ <-; cbn; lia.
  - unfold keep_step in Hs. destruct (send_request st); injection Hs as _ <-; cbn; lia.
  - unfold send_step in Hs. destruct (exchange _ _ _ _) as [n1 [[[s h] b]|e|]]; injection Hs as _ <-; cbn; lia.
  - destruct f as [f|]; cbn in Hs.
    + injection Hs as _ <-. cbn. lia.
    + injection Hs as _ <-. cbn [sends_left]. unfold retries. destruct (allows_transport_retry _); cbn; lia.
  - by destruct (Hnf r).
Qed.

(** Runs with the calls that moved, by position and where they stood. *)
Inductive calls_run (w0 : Http3GatewayState N * N) : list (nat * call N) → (Http3GatewayState N * N) * list (call N) → Prop :=
| calls_start : calls_run w0 [] (w0, (λ _, Begin None) <$> requests)
| calls_next trace w calls i request c w' c' :
    calls_run w0 trace (w, calls) →
    requests !! i = Some request → calls !! i = Some c → call_step dns_name request w c = (w', c') →
    (∀ r, c ≠ Finished r) →
    calls_run w0 (trace ++ [(i, c)]) (w', <[i := c']> calls).

Definition sends_of (i : nat) (trace : list (nat * call N)) : nat :=
  length (filter (λ m, m.1 = i ∧ is_send m.2 = true) trace).
Definition total_rank (calls : list (call N)) : nat := sum_list_with call_rank calls.

Lemma start_rank (l : list Http3GatewayRequest) :
  total_rank ((λ _, Begin None) <$> l) = (14 * length l)%nat.
Proof.
  unfold total_rank. induction l as [|r l IH]; [done|]. rewrite fmap_cons. cbn [sum_list_with length]. rewrite IH. cbn. lia.
Qed.

Definition run_inv (trace : list (nat * call N)) (calls : list (call N)) : Prop :=
  length calls = length requests
  ∧ (length trace + total_rank calls ≤ 14 * length requests)%nat
  ∧ (∀ i request c, requests !! i = Some request → calls !! i = Some c →
       sends_of i trace + sends_left request c ≤ 1 + retries request)%nat.

Lemma run_keeps w0 trace w calls : calls_run w0 trace (w, calls) → run_inv trace calls.
Proof.
  remember (w, calls) as y eqn:Hy. intros Hrun. revert w calls Hy.
  induction Hrun as [|trace w calls i request c w' c' _ IH Hr Hc Hs Hnf]; intros v cs [= <- <-].
  - split_and!; [by rewrite length_fmap| |].
    + rewrite start_rank. cbn [length]. lia.
    + intros i request c Hr Hc. apply list_lookup_fmap_Some_1 in Hc as (r&->&_). cbn. lia.
  - destruct (IH _ _ eq_refl) as (Hl&Ht&Hsends). destruct (call_step_rank _ _ _ _ _ Hs Hnf) as [Hrank Hleft].
    split_and!; [by rewrite length_insert| |].
    + pose proof (sum_list_with_insert call_rank calls i c c' Hc) as Hsum. unfold total_rank in *. rewrite length_app. cbn. lia.
    + intros j rj cj Hrj Hcj. unfold sends_of in *. rewrite filter_app, length_app.
      destruct (decide (i = j)) as [<-|Hij].
      * rewrite list_lookup_insert_eq in Hcj by (by eapply lookup_lt_Some). simplify_eq.
        specialize (Hsends i request c Hr Hc). rewrite filter_cons, filter_nil.
        destruct (is_send c) eqn:Hsend; [rewrite decide_True by (cbn; by rewrite Hsend)|rewrite decide_False by (cbn; rewrite Hsend; by intros [_ ?])]; cbn; lia.
      * rewrite list_lookup_insert_ne in Hcj by done. specialize (Hsends j rj cj Hrj Hcj).
        rewrite filter_cons, filter_nil, decide_False by (by intros [? _]). cbn. lia.
Qed.

(** C30. Concurrent requests over one shared connection, however they interleave
    and whatever the network answers: a run has at most fourteen steps per
    request; a request is sent at most twice, and only once when its method is
    not idempotent; and as long as a request has not ended it can move. *)
Theorem gateway_requests_bounded w0 trace w calls :
  calls_run w0 trace (w, calls) →
  (length trace ≤ REQUEST_STEPS * length requests)%nat
  ∧ (∀ i request, requests !! i = Some request →
       sends_of i trace ≤ if allows_transport_retry (req_method request) then 2 else 1)%nat
  ∧ ((∀ w' calls', ¬ calls_step dns_name requests (w, calls) (w', calls')) →
       Forall (λ c, ∃ r, c = Finished r) calls).
Proof.
  intros Hrun. destruct (run_keeps _ _ _ _ Hrun) as (Hl&Ht&Hsends). split_and!.
  - unfold REQUEST_STEPS. lia.
  - intros i request Hr. destruct (lookup_lt_is_Some_2 calls i) as [c Hc].
    { rewrite Hl. by eapply lookup_lt_Some. }
    specialize (Hsends i request c Hr Hc). unfold retries in Hsends. destruct (allows_transport_retry _); lia.
  - intros Hstuck. apply Forall_lookup. intros i c Hc.
    destruct (lookup_lt_is_Some_2 requests i) as [request Hr].
    { rewrite <-Hl. by eapply lookup_lt_Some. }
    destruct (call_step dns_name request w c) as [w' c'] eqn:Hs.
    destruct c as [| | | | | | |r]; try (destruct (Hstuck w' (<[i := c']> calls)); by eapply call_moves). by exists r.
Qed.
End requests.

(** ** Reading through the gateway *)
Section reads.
Context {N D E : Type} `{Network N} `{ByteStoreLaws D} `{StoreErrors E} `{HashDisplayLaws} `{HeaderParse}.
Context (percent_decode : string → option string) (proxy : option upstream) (dns_name : string).

(** [served n] is the gateway's store when the network is in state [n]. The
    network may fail and lose answers, but an answer that arrives is the one the
    gateway's router gave to the request, and only the gateway's own puts change
    what its store holds. *)
Context (served : N → D).
Definition same_blocks (n n' : N) : Prop := ∀ k, held (served n') k = held (served n) k.
Context (lookup_same : ∀ host port n n' r, lookup_host host port n = (n', r) → same_blocks n n').
Context (connect_same : ∀ a host n n' r, quic_connect a host n = (n', r) → same_blocks n n').
Context (exchange_same : ∀ c uri request n n' r, exchange c uri request n = (n', r) → same_blocks n n').
Context (exchange_genuine : ∀ c uri request n n' status headers chunks,
  build_block_uri dns_name (req_path request) = Ok uri →
  exchange c uri request n = (n', Reply (status, headers, chunks)) →
  ∃ d response, build_router percent_decode proxy request (served n) = Some (d, response)
    ∧ status = status_code response ∧ concat chunks = resp_body response).
Context (decode_plain : ∀ h, hash_ok h → percent_decode (hash_to_string h) = Some (hash_to_string h)).

Lemma hex_segment h : hash_ok h → as_bytes (hash_to_string h) ≠ [] ∧ 47 ∉ as_bytes (hash_to_string h).
Proof.
  intros Hh. pose proof (str_len_hex h Hh) as Hl. split.
  - intros He. unfold str_len in Hl. by rewrite He in Hl.
  - rewrite hash_to_string_hex by done. unfold hex_encode. rewrite as_bytes_of_bytes by (apply hex_encode_bytes_byte, Hh).
    unfold hex_encode_bytes. intros (b&Hb&Hin)%list_elem_of_bind. destruct Hh as [_ Hh].
    rewrite Forall_forall in Hh. specialize (Hh b Hin). unfold is_byte in Hh.
    pose proof (Z.div_pos b 16). pose proof (Z.mod_pos_bound b 16).
    apply elem_of_cons in Hb as [Hb|Hb%list_elem_of_singleton]; unfold hex_digit in Hb; case_match; lia.
Qed.

Lemma route_block h d : hash_ok h →
  build_router percent_decode proxy (block_request h) d = Some (get_block (hash_to_string h) d).
Proof.
  intros Hh. destruct (hex_segment h Hh) as [Hne Hno].
  unfold build_router. cbn [req_method block_request req_path]. unfold build_block_path, strip_prefix.
  rewrite as_bytes_app. replace (starts_with _ _) with true by done.
  rewrite drop_app_length. cbn [mbind option_bind].
  rewrite (bool_decide_false _ Hne), (bool_decide_false _ Hno). cbn. by rewrite of_bytes_as_bytes, decode_plain.
Qed.

(** What a response says of block [h] when the store holds what [n] serves. *)
Definition response_ok (n : N) (h : block_hash) (response : Http3GatewayResponse) : Prop :=
  (status_code response = 200 ∧ held (served n) h = Some (resp_body response))
  ∨ (status_code response = 404
     ∧ ((∀ k (d d' : D) r, get_block_bytes k d = (d', r) → is_ok r = true) → held (served n) h = None)).

Definition uri_ok (request : Http3GatewayRequest) (uri : string) : Prop :=
  build_block_uri dns_name (req_path request) = Ok uri.
Definition read_inv (n : N) (h : block_hash) (c : call N) : Prop :=
  match c with
  | Look _ uri | Resolve _ uri | Connect _ uri _ | Keep _ uri _ _ | Send _ uri _ => uri_ok (block_request h) uri
  | Finished (Ok response) => response_ok n h response
  | _ => True
  end.

Lemma response_same n n' h response : same_blocks n n' → response_ok n h response → response_ok n' h response.
Proof. intros Hsame. unfold response_ok. by rewrite Hsame. Qed.
Lemma read_inv_same n n' h c : same_blocks n n' → read_inv n h c → read_inv n' h c.
Proof. intros Hsame. destruct c as [| | | | | | |[response|e]]; cbn; try done. by apply response_same. Qed.

Lemma genuine_ok n n' h c uri status headers chunks : hash_ok h → uri_ok (block_request h) uri →
  exchange c uri (block_request h) n = (n', Reply (status, headers, chunks)) →
  response_ok n h {| status_code := status; resp_headers := headers; resp_body := concat chunks |}.
Proof.
  intros Hh Huri Hex. destruct (exchange_genuine _ _ _ _ _ _ _ _ Huri Hex) as (d&response&Hroute&->&->).
  rewrite route_block in Hroute by done. unfold response_ok. cbn [status_code resp_body].
  injection Hroute as Hget. unfold get_block in Hget. rewrite decode_hash_to_string in Hget by done.
  destruct (get_block_bytes h (served n)) as [d1 r] eqn:Hg. injection Hget as <- <-.
  destruct (get_held _ _ _ _ Hg) as [_ Hr]. destruct r as [[b|]|e]; cbn.
  - left. split; [done|]. by rewrite <-(Hr _ eq_refl).
  - right. split; [done|]. intros _. by rewrite <-(Hr _ eq_refl).
  - right. split; [done|]. intros Hok. by specialize (Hok _ _ _ _ Hg).
Qed.

Lemma call_step_reads h st n c st' n' c' : hash_ok h → read_inv n h c →
  call_step dns_name (block_request h) (st, n) c = (st', n', c') →
  read_inv n' h c' ∧ same_blocks n n'.
Proof.
  intros Hh Hinv. assert (same_blocks n n) as Hrefl by done.
  destruct c as [f|f uri|f uri|f uri a|f uri a cn|f uri cn|f error|r]; cbn [call_step]; intros Hs.
  - injection Hs as <- <- <-. split; [|done]. by destruct (build_block_uri _ _) eqn:Huri.
  - injection Hs as <- <- <-. split; [|done]. unfold look_step.
    destruct (send_request st); [done|]. by destruct (resolved_address st).
  - unfold resolve_step in Hs. destruct (lookup_host _ _ _) as [n1 r] eqn:Hl.
    apply lookup_same in Hl. destruct r as [l|e|]; injection Hs as <- <- <-; try done.
    by destruct (preferred_resolved_address l).
  - unfold connect_step in Hs. destruct (quic_connect _ _ _) as [n1 r] eqn:Hl.
    apply connect_same in Hl. by destruct r as [l|e|]; injection Hs as <- <- <-.
  - unfold keep_step in Hs. by destruct (send_request st); injection Hs as <- <- <-.
  - unfold send_step in Hs. destruct (exchange _ _ _ _) as [n1 r] eqn:Hex. pose proof (exchange_same _ _ _ _ _ _ Hex) as Hsame.
    destruct r as [[[s hd] b]|e|]; injection Hs as <- <- <-; [|done..]. split; [|done].
    eapply response_same; [exact Hsame|]. by eapply genuine_ok.
  - by destruct f; injection Hs as <- <- <-.
  - by injection Hs as <- <- <-.
Qed.

Lemma reads_keep hashes w0 trace st n calls : Forall hash_ok hashes →
  calls_run dns_name (block_request <$> hashes) w0 trace (st, n, calls) →
  same_blocks w0.2 n ∧ Forall2 (read_inv n) hashes calls.
Proof.
  intros Hh. remember (st, n, calls) as y eqn:Hy. intros Hrun. revert st n calls Hy.
  induction Hrun as [|trace [st n] calls i request c [st' n'] c' _ IH Hr Hc Hs Hnf]; intros v m cs Hy.
  - injection Hy as -> <-. split; [done|]. apply Forall2_fmap_r, Forall2_fmap_r, Forall_Forall2_diag. by apply Forall_true.
  - injection Hy as <- <- <-. destruct (IH _ _ _ eq_refl) as [Hsame Hall].
    apply list_lookup_fmap_Some_1 in Hr as (h&->&Hi).
    destruct (Forall2_lookup_l _ _ _ _ _ Hall Hi) as (c0&Hc0&Hinv). simplify_eq.
    destruct (call_step_reads h _ _ _ _ _ _ ltac:(by eapply Forall_lookup_1) Hinv Hs) as [Hinv' Hstep].
    split; [intros k; by rewrite Hstep, Hsame|].
    rewrite <-(list_insert_id hashes i h) by done. apply Forall2_insert; [|done].
    eapply Forall2_impl; [exact Hall|]. intros ??. by apply read_inv_same.
Qed.

(** C31. Reading blocks through the gateway is reading the gateway's store: for
    concurrent requests of clients that share a connection, in any interleaving
    and with any network failures, bytes that a request returns are the bytes
    the store holds under the requested id; if the store's reads do not fail, a
    block reported absent is absent; and every other outcome is an error of the
    network. *)
Theorem gateway_reads hashes w0 trace st n calls i h r :
  Forall hash_ok hashes →
  calls_run dns_name (block_request <$> hashes) w0 trace (st, n, calls) →
  hashes !! i = Some h → calls !! i = Some (Finished r) →
  match block_response (E:=E) h r with
  | Ok (Some b) => held (served w0.2) h = Some b
  | Ok None => (∀ k (d d' : D) r, get_block_bytes k d = (d', r) → is_ok r = true) → held (served w0.2) h = None
  | Err e => ∃ message, r = Err message ∧ e = BackendFailure message
  end.
Proof.
  intros Hh Hrun Hi Hc. destruct (reads_keep _ _ _ _ _ _ Hh Hrun) as [Hsame Hall].
  pose proof (Forall2_lookup_lr _ _ _ _ _ _ Hall Hi Hc) as Hinv. cbn in Hinv. unfold block_response.
  destruct r as [response|e]; cbn; [|by exists e]. rewrite <-Hsame.
  destruct Hinv as [[Hst Hb]|[Hst Hb]]; rewrite Hst; cbn; [done|exact Hb].
Qed.
End reads.
