(* ===== verification/GatewayWitness.v ===== *)
(** * The gateway theorems at concrete inputs

    A network that follows a script: each exchange is delivered to a gateway with
    an in-memory store, or fails. Two clients read through one connection. *)

From Stdlib Require Import ZArith Lia Ascii.
From stdpp Require Import base gmap sets strings sorting option list.
From S2P Require Import Prelude Hex Text Instances BlockCopy BlockCopyWitness Http3 Gateway GatewaySpec.
#[local] Open Scope Z_scope.

#[local] Instance string_errors : StoreErrors string := {| BackendFailure := λ m, m; store_error_text := λ m, m |}.
#[local] Instance plain_headers : HeaderParse := {|
  value_to_str b := Some (of_bytes b);
  header_name_from_bytes b := if bool_decide (b = []) then None else Some (of_bytes (ascii_lower <$> b)) |}.

Example dns_names :
  (validate_dns_name " gateway.example.com ", is_ok (validate_dns_name "https://gateway"), is_ok (validate_dns_name "a..b"))
  = (Ok "gateway.example.com", false, false).
Proof. vm_compute. reflexivity. Qed.

Example proxied_headers :
  fst <$> copy_end_to_end_headers [("connection", as_bytes "close, X-Trace"); ("accept", []); ("x-trace", []); ("te", [])]
  = ["accept"].
Proof. vm_compute. reflexivity. Qed.

(** ** The network *)
Definition plain_decode (s : string) : option string := Some s.
Definition block_of (uri : string) : string := of_bytes (drop (length (as_bytes "https://gw")) (as_bytes uri)).

Record net := { script : list bool; store : byte_map }.
#[local] Instance scripted : Network net := {|
  connection := Z;
  parse_uri u := Ok u;
  lookup_host host port n := (n, Reply [V6 1 443; V4 2 443]);
  quic_connect a host n := (n, Reply (match a with V4 ip _ => ip | V6 ip _ => ip end));
  exchange c uri request n :=
    let rest := {| script := tail (script n); store := store n |} in
    match script n with
    | false :: _ => (rest, Failed "gateway request failed: reset")
    | _ => match build_router plain_decode None request (store n) with
           | Some (_, response) => (rest, Reply (status_code response, resp_headers response, [resp_body response]))
           | None => (rest, Failed "no route")
           end
    end |}.

Definition move (requests : list Http3GatewayRequest)
    (y : list (nat * call net) * ((Http3GatewayState net * net) * list (call net))) (i : nat) :=
  let '(trace, (w, calls)) := y in
  match requests !! i, calls !! i with
  | Some request, Some c =>
      match c with
      | Finished _ => y
      | _ => let '(w, c') := call_step "gw" request w c in (trace ++ [(i, c)], (w, <[i := c']> calls))
      end
  | _, _ => y
  end.
Definition moves (requests : list Http3GatewayRequest) (w0 : Http3GatewayState net * net) (schedule : list nat) :=
  foldl (move requests) ([], (w0, (λ _, Begin None) <$> requests)) schedule.

Lemma moves_run requests w0 schedule :
  let y := moves requests w0 schedule in calls_run "gw" requests w0 y.1 y.2.
Proof.
  unfold moves. induction schedule as [|i schedule IH] using rev_ind; [apply calls_start|].
  rewrite foldl_snoc. destruct (foldl _ _ _) as [trace [w calls]]. cbn in IH. unfold move.
  destruct (requests !! i) as [request|] eqn:Hr; [|done]. destruct (calls !! i) as [c|] eqn:Hc; [|done].
  destruct (call_step "gw" request w c) as [w' c'] eqn:Hs.
  destruct c as [| | | | | | |r]; [..|done]; cbn [fst snd]; by eapply calls_next.
Qed.

(** ** Two reads: the first exchange fails; the second block is absent. *)
Definition held_id : block_hash := replicate 32 7.
Definition absent_id : block_hash := replicate 32 9.
Definition gateway_net : net := {| script := [true; false]; store := <[held_id := [1; 2; 3]]> ∅ |}.
Definition start_net : Http3GatewayState net * net := (default_state, gateway_net).
Definition two_reads : list Http3GatewayRequest := block_request <$> [held_id; absent_id].
Definition schedule : list nat :=
  [0; 1; 0; 1; 0; 1; 0; 1; 0; 1; 0; 1; 1; 1; 1; 1; 1; 1; 1; 1]%nat.

Example both_end :
  (call_result <$> (moves two_reads start_net schedule).2.2)
  = [Some (Ok {| status_code := 200;
                 resp_headers := [("content-type", as_bytes "application/octet-stream");
                                  ("cache-control", as_bytes CACHE_CONTROL_VALUE)];
                 resp_body := [1; 2; 3] |});
     Some (Ok not_found_response)].
Proof. vm_compute. reflexivity. Qed.

Lemma gateway_requests_bounded_witness :
  (length (moves two_reads start_net schedule).1 ≤ 28)%nat
  ∧ (sends_of 1 (moves two_reads start_net schedule).1 ≤ 2)%nat.
Proof.
  pose proof (moves_run two_reads start_net schedule) as Hrun. cbv zeta in Hrun.
  destruct (moves two_reads start_net schedule) as [trace [w calls]]. cbn [fst snd] in Hrun |- *.
  split; [apply (proj1 (gateway_requests_bounded "gw" two_reads start_net trace w calls Hrun))|].
  exact (proj1 (proj2 (gateway_requests_bounded "gw" two_reads start_net trace w calls Hrun)) 1%nat _ eq_refl).
Defined.

Lemma gateway_reads_witness :
  ∃ r, (moves two_reads start_net schedule).2.2 !! 0%nat = Some (Finished r)
    ∧ block_response (E:=string) held_id r = Ok (Some [1; 2; 3])
    ∧ held (store gateway_net) held_id = Some [1; 2; 3].
Proof.
  eexists. split; [vm_compute; reflexivity|]. split; [vm_compute; reflexivity|].
  refine (gateway_reads (E:=string) plain_decode None "gw" store _ _ _ _ _ [held_id; absent_id] start_net
    (moves two_reads start_net schedule).1 (moves two_reads start_net schedule).2.1.1 (moves two_reads start_net schedule).2.1.2
    (moves two_reads start_net schedule).2.2 0 held_id
    (Ok {| status_code := 200;
           resp_headers := [("content-type", as_bytes "application/octet-stream");
                            ("cache-control", as_bytes CACHE_CONTROL_VALUE)];
           resp_body := [1; 2; 3] |}) _ _ _ _).
  - by intros host port n n' r [= <- _].
  - by intros a host n n' r [= <- _].
  - intros c uri request n n' r Hex k. cbn in Hex. destruct (script n) as [|[] l].
    1,2: destruct (build_router _ _ _ _) as [[d response]|]; injection Hex as <- _; reflexivity.
    injection Hex as <- _. reflexivity.
  - intros c uri request n n' status headers chunks _ Hex. cbn in Hex.
    destruct (build_router plain_decode None request (store n)) as [[d response]|] eqn:Hr;
      [|by destruct (script n) as [|[] l]].
    exists d, response. split; [done|].
    destruct (script n) as [|[] l]; [| |discriminate]; injection Hex as _ <- _ <-; split; [done|apply app_nil_r|done|apply app_nil_r].
  - done.
  - apply Forall_cons_2; [|apply Forall_cons_2; [|constructor]]; (split; [done|]; apply Forall_replicate; unfold is_byte; lia).
  - pose proof (moves_run two_reads start_net schedule) as Hrun. cbv zeta in Hrun.
    revert Hrun. generalize (moves two_reads start_net schedule). intros [trace [[st n] calls]] Hrun. exact Hrun.
  - reflexivity.
  - vm_compute. reflexivity.
Defined.
