(* ===== verification/Embedding.v ===== *)
(** * Embedding providers ([embedding.rs])

    The providers ask a service for the vector of a text, retry, and encode the
    vector; a batch runs one task per text and gathers the results in whatever
    order the tasks end. What the service answers to each attempt is an argument;
    [f32] values are their bit patterns. The theorems are in [EmbeddingSpec.v]. *)

From Stdlib Require Import ZArith Lia Ascii.
From stdpp Require Import base gmap sets strings sorting option list.
From S2P Require Import Prelude Hex Blocks Text Items Config Http3.
#[local] Open Scope Z_scope.

Inductive ConfiguredEmbeddingProviderError :=
| ClientBuild (source : string)
| MissingApiKey (var : string)
| MissingVector
| InvalidDimensions (expected actual : Z)
| InvalidLogicalF32Bytes (expected actual : Z)
| UnsupportedEncoding (encoding : string)
| RequestFailed (attempts : Z) (message : string)
| UnsupportedProduction.

Abbreviation embedding_result := (result ConfiguredEmbeddingProviderError).

(** [EmbeddingInput] of the embeddings crate. *)
Record EmbeddingInput := { input_media_type : string; input_body : bytes }.

Record LocalOpenAiEmbeddingProvider := {
  local_base_url : string;
  local_model : string;
  local_api_key : option string;
  local_max_retries : Z;
  local_retry_delay : Z
}.
Record GatewayHttp3EmbeddingProvider := {
  gateway_dns_name : string;
  gateway_model : string;
  gateway_max_retries : Z;
  gateway_retry_delay : Z;
  gateway_request_timeout : Z
}.
Inductive ConfiguredEmbeddingProvider :=
| ProviderLocal (p : LocalOpenAiEmbeddingProvider)
| ProviderGatewayHttp3 (p : GatewayHttp3EmbeddingProvider)
| ProviderAzureOpenAi.

(** ** Constructors *)

(** [env] is the environment of the process; [build] the outcome of reqwest's
    client builder with a timeout. *)
Definition local_from_config (env : string → option string) (build : Z → result string unit)
    (config : LocalEmbeddingConfig) : embedding_result LocalOpenAiEmbeddingProvider :=
  api_key ← match local_api_key_env config with
            | Some var => Some <$> ok_or (env var) (MissingApiKey var)
            | None => Ok None
            end;
  map_err ClientBuild (build (request_timeout_secs config)) ;;
  Ok {| local_base_url := trim_end_slashes (base_url config); local_model := model config; local_api_key := api_key;
        local_max_retries := max_retries config; local_retry_delay := retry_delay_ms config |}.

Definition from_environment (env : string → option string) (build : Z → result string unit) (e : EnvironmentConfig)
    : embedding_result ConfiguredEmbeddingProvider :=
  match e with
  | Local _ embedding | LocalRedb _ embedding | LocalOverlay _ embedding =>
      ProviderLocal <$> local_from_config env build embedding
  | Production _ _ | ProductionV2 _ _ => Ok ProviderAzureOpenAi
  end.

Definition gateway_http3 {E} `{StoreErrors E} (transport : result string unit) (dns_name model : string)
    (max_retries retry_delay_ms request_timeout_secs : Z) : embedding_result ConfiguredEmbeddingProvider :=
  client ← map_err (RequestFailed 0) (gateway_client_new (E:=E) transport dns_name);
  Ok (ProviderGatewayHttp3 {| gateway_dns_name := client; gateway_model := model; gateway_max_retries := max_retries;
        gateway_retry_delay := retry_delay_ms; gateway_request_timeout := request_timeout_secs |}).

(** ** Encoding *)

(** The little-endian bytes of an integer, and back. *)
Fixpoint le_bytes (n : nat) (z : Z) : bytes :=
  match n with O => [] | S n => z mod 256 :: le_bytes n (z / 256) end.
Fixpoint from_le_bytes (l : bytes) : Z :=
  match l with [] => 0 | b :: l => b + 256 * from_le_bytes l end.

(** [half::f16::from_f32], on bit patterns. *)
Class HalfFloat := f16_from_f32 : Z → Z.

Definition encode_embedding `{HalfFloat} (vector : list Z) (spec : EmbeddingSpec) : embedding_result bytes :=
  let actual := len vector in
  reject_if (negb (actual =? dims spec)) (InvalidDimensions (dims spec) actual) ;;
  if bool_decide (encoding spec = "f32le") then Ok (vector ≫= le_bytes 4)
  else if bool_decide (encoding spec = "f16le") then Ok (vector ≫= λ value, le_bytes 2 (f16_from_f32 value))
  else Err (UnsupportedEncoding (encoding spec)).

Definition logical_f32_embedding_spec (dims : Z) : EmbeddingSpec := {| dims := dims; encoding := "f32le" |}.

(** [chunks_exact(4)]. *)
Fixpoint chunks_exact4 (l : bytes) : list bytes :=
  match l with
  | a :: b :: c :: d :: l => [a; b; c; d] :: chunks_exact4 l
  | _ => []
  end.

(** [dims] is a [u64], which fits [usize]. *)
Definition decode_logical_f32_embedding (data : bytes) (dims : Z) : embedding_result (list Z) :=
  expected ← (if dims * 4 <=? usize_max then Ok (dims * 4)
              else Err (RequestFailed 0 "logical embedding byte length overflowed"));
  reject_if (negb (len data =? expected)) (InvalidLogicalF32Bytes expected (len data)) ;;
  Ok (from_le_bytes <$> chunks_exact4 data).

(** ** One text *)

(** The JSON of the exchange: the request's body, and the vectors of the
    response's [data]. *)
Class EmbeddingJson := {
  request_json : string → string → result string bytes;
  response_json : bytes → result string (list (list Z))
}.

Definition should_retry (status : option Z) (attempt max_attempts : Z) : bool :=
  if max_attempts <=? attempt then false else
  match status with
  | Some status => (status =? 429) || (status =? 502) || (status =? 503) || (status =? 504)
  | None => true
  end.

(** The first vector of a response, encoded. *)
Definition parsed_embedding `{EmbeddingJson} `{HalfFloat} (attempt : Z) (spec : EmbeddingSpec) (body : bytes)
    : embedding_result bytes :=
  data ← map_err (RequestFailed attempt) (response_json body);
  vector ← ok_or (head data) MissingVector;
  encode_embedding vector spec.

(** What an attempt comes to: a returned result, or an error with the decision
    to try again. [sent] counts the requests and [slept] the waits. *)
Inductive verdict := Return (r : embedding_result bytes) | GiveUp (error : string) | Again (error : string).
Record attempts := { sent : Z; slept : Z }.

(** [for attempt in 1..=max_attempts]: [fuel] is the number of attempts left.
    The result is the last attempt made with the last error, or the returned
    value. *)
Fixpoint attempt_loop (try : Z → verdict) (fuel : nat) (attempt : Z) (last_attempt : Z) (last_error : string)
    (log : attempts) : attempts * (embedding_result bytes + Z * string) :=
  match fuel with
  | O => (log, inr (last_attempt, last_error))
  | S fuel =>
      let log := {| sent := sent log + 1; slept := slept log |} in
      match try attempt with
      | Return r => (log, inl r)
      | GiveUp error => (log, inr (attempt, error))
      | Again error =>
          attempt_loop try fuel (attempt + 1) attempt error {| sent := sent log; slept := slept log + 1 |}
      end
  end.

(** [max_retries + 1] on [u32], as release builds compute it. *)
Definition max_attempts_of (max_retries : Z) : Z := (max_retries + 1) mod 2 ^ 32.

(** The exchanges of the local provider: the outcome of [send], whose response
    has a body that may fail to arrive. [error_for_status] turns the statuses
    from 400 to 599 into an error with a text. *)
Inductive local_answer := Responded (status : Z) (body : result string bytes) | NotSent (error : string).
Class StatusText := status_error_text : Z → string.

Section providers.
Context `{EmbeddingJson} `{HalfFloat} `{StatusText}.

Definition is_error_status (status : Z) : bool := (400 <=? status) && (status <=? 599).

Definition local_try (max_attempts : Z) (spec : EmbeddingSpec) (answers : Z → local_answer) (attempt : Z) : verdict :=
  match answers attempt with
  | Responded status body =>
      if is_error_status status then
        if should_retry (Some status) attempt max_attempts then Again (status_error_text status)
        else GiveUp (status_error_text status)
      else Return (body ← map_err (RequestFailed attempt) body; parsed_embedding attempt spec body)
  | NotSent error => if max_attempts <=? attempt then GiveUp error else Again error
  end.

Definition embed_local (p : LocalOpenAiEmbeddingProvider) (spec : EmbeddingSpec) (answers : Z → local_answer)
    : attempts * embedding_result bytes :=
  let max_attempts := max_attempts_of (local_max_retries p) in
  let '(log, r) := attempt_loop (local_try max_attempts spec answers) (Z.to_nat max_attempts) 1 0 ""
                     {| sent := 0; slept := 0 |} in
  (log, match r with
        | inl r => r
        | inr (attempts_made, last_error) => Err (RequestFailed attempts_made last_error)
        end).

(** [StatusCode::from_u16], for statuses from 100 to 999. *)
Definition status_from_u16 (status : Z) : option Z :=
  if (100 <=? status) && (status <=? 999) then Some status else None.

Definition gateway_embedding_request (p : GatewayHttp3EmbeddingProvider) (body : bytes) : Http3GatewayRequest :=
  {| req_method := POST; req_path := "/v1/embeddings"; req_headers := [("content-type", as_bytes "application/json")];
     req_body := body; req_timeout := gateway_request_timeout p |}.

Definition gateway_try (max_attempts : Z) (spec : EmbeddingSpec) (answers : Z → result string Http3GatewayResponse)
    (attempt : Z) : verdict :=
  match answers attempt with
  | Ok response =>
      if status_code response =? 200 then Return (parsed_embedding attempt spec (resp_body response))
      else
        let error := "embedding gateway returned HTTP " +:+ fmt_usize (status_code response) in
        if should_retry (status_from_u16 (status_code response)) attempt max_attempts then Again error else GiveUp error
  | Err error => if max_attempts <=? attempt then GiveUp error else Again error
  end.

(** [ask] sends the request of an attempt. *)
Definition embed_gateway (p : GatewayHttp3EmbeddingProvider) (spec : EmbeddingSpec) (input : EmbeddingInput)
    (ask : Http3GatewayRequest → Z → result string Http3GatewayResponse) : attempts * embedding_result bytes :=
  match request_json (of_chars (utf8_lossy (input_body input))) (gateway_model p) with
  | Err error => ({| sent := 0; slept := 0 |}, Err (RequestFailed 0 error))
  | Ok body =>
      let max_attempts := max_attempts_of (gateway_max_retries p) in
      let '(log, r) := attempt_loop (gateway_try max_attempts spec (ask (gateway_embedding_request p body)))
                         (Z.to_nat max_attempts) 1 0 "" {| sent := 0; slept := 0 |} in
      (log, match r with
            | inl r => r
            | inr (_, last_error) => Err (RequestFailed max_attempts last_error)
            end)
  end.

(** What the services answer to the attempts for a text. *)
Record services := {
  local_service : LocalOpenAiEmbeddingProvider → EmbeddingInput → Z → local_answer;
  gateway_service : Http3GatewayRequest → Z → result string Http3GatewayResponse
}.

Definition embed (provider : ConfiguredEmbeddingProvider) (input : EmbeddingInput) (spec : EmbeddingSpec) (s : services)
    : embedding_result bytes :=
  match provider with
  | ProviderLocal p => (embed_local p spec (local_service s p input)).2
  | ProviderGatewayHttp3 p => (embed_gateway p spec input (gateway_service s)).2
  | ProviderAzureOpenAi => Err UnsupportedProduction
  end.

(** ** Batches

    [order] is the order in which the tasks end, [s i] what the services answer
    to task [i]. *)
Fixpoint join_results {A} (outcome : nat → embedding_result A) (order : list nat) (results : list (option A))
    : embedding_result (list (option A)) :=
  match order with
  | [] => Ok results
  | index :: order =>
      embedding ← outcome index;
      join_results outcome order (<[index := Some embedding]> results)
  end.

Definition batch_results {A} (outcome : nat → embedding_result A) (n : nat) (order : list nat) : embedding_result (list A) :=
  results ← join_results outcome order (replicate n None);
  result_mapM (λ embedding, ok_or embedding
    (RequestFailed 1 "embedding batch worker did not return a result")) results.

Definition embed_batch (provider : ConfiguredEmbeddingProvider) (inputs : list EmbeddingInput) (spec : EmbeddingSpec)
    (s : nat → services) (order : list nat) : embedding_result (list bytes) :=
  match provider with
  | ProviderAzureOpenAi => Err UnsupportedProduction
  | _ =>
      batch_results (λ index, match inputs !! index with
                              | Some input => embed provider input spec (s index)
                              | None => Err MissingVector
                              end) (length inputs) order
  end.
End providers.
