(* ===== verification/EmbeddingSpec.v ===== *)
(** * Theorems of the embedding providers

    How many requests a text costs and what they decide; a batch returns its
    vectors in the order of the texts, whatever order the tasks end in; and the
    f32 encoding is a bijection. *)

From Stdlib Require Import ZArith Lia Ascii.
From stdpp Require Import base gmap sets strings sorting option list.
From S2P Require Import Prelude Hex Blocks Text Items Config Http3 Embedding.
#[local] Open Scope Z_scope.

(** ** Attempts *)

(** The loop stops at attempt [k]: the attempts before it asked to go on. *)
Definition settled_at (try : Z → verdict) (first : Z) (k : Z) (r : embedding_result bytes + Z * string) : Prop :=
  (∀ j, first ≤ j < k → ∃ e, try j = Again e)
  ∧ match try k with
    | Return v => r = inl v
    | GiveUp e => r = inr (k, e)
    | Again _ => False
    end.

Lemma attempt_loop_spec try fuel first last e log :
  (fuel ≠ 0)%nat → (∀ e, try (first + Z.of_nat fuel - 1) ≠ Again e) →
  ∃ k r, attempt_loop try fuel first last e log
      = ({| sent := sent log + (k - first + 1); slept := slept log + (k - first) |}, r)
    ∧ first ≤ k < first + Z.of_nat fuel ∧ settled_at try first k r.
Proof.
  revert first last e log. induction fuel as [|fuel IH]; intros first last e log Hf Hlast; [done|].
  cbn [attempt_loop]. destruct (try first) as [v|m|m] eqn:Ht.
  - exists first, (inl v). split; [f_equal; f_equal; cbn; lia|]. split; [lia|]. split; [lia|]. by rewrite Ht.
  - exists first, (inr (first, m)). split; [f_equal; f_equal; cbn; lia|]. split; [lia|]. split; [lia|]. by rewrite Ht.
  - destruct (decide (fuel = 0%nat)) as [->|Hne].
    { destruct (Hlast m). rewrite <-Ht. f_equal. lia. }
    destruct (IH (first + 1) first m {| sent := sent log + 1; slept := slept log + 1 |}) as (k&r&Hrun&Hk&Hbefore&Hr);
      [done|intros e'; replace (first + 1 + Z.of_nat fuel - 1) with (first + Z.of_nat (S fuel) - 1) by lia; apply Hlast|].
    exists k, r. cbn [sent slept] in Hrun |- *. split; [rewrite Hrun; f_equal; f_equal; lia|]. split; [lia|]. split; [|done].
    intros j Hj. destruct (decide (j = first)) as [->|?]; [eauto|]. apply Hbefore. lia.
Qed.

Lemma attempt_loop_returned try fuel first last e log v :
  (attempt_loop try fuel first last e log).2 = inl v → ∃ k, try k = Return v.
Proof.
  revert first last e log. induction fuel as [|fuel IH]; intros first last e log; cbn [attempt_loop]; [done|].
  destruct (try first) as [v'|m|m] eqn:Ht; cbn; [intros [= ->]; eauto|done|apply IH].
Qed.

Section attempts.
Context `{EmbeddingJson} `{HalfFloat} `{StatusText}.

Lemma should_retry_last status max : should_retry status max max = false.
Proof. unfold should_retry. by rewrite Z.leb_refl. Qed.

Lemma local_last max spec answers e : local_try max spec answers max ≠ Again e.
Proof.
  unfold local_try. rewrite Z.leb_refl. destruct (answers max) as [status body|m]; [|done].
  destruct (is_error_status status); [by rewrite should_retry_last|done].
Qed.
Lemma gateway_last max spec answers e : gateway_try max spec answers max ≠ Again e.
Proof.
  unfold gateway_try. rewrite Z.leb_refl. destruct (answers max) as [response|m]; [|done].
  destruct (_ =? 200); [done|]. by rewrite should_retry_last.
Qed.

Lemma max_attempts_small retries : 0 ≤ retries < 2 ^ 32 - 1 → max_attempts_of retries = retries + 1.
Proof. intros ?. unfold max_attempts_of. rewrite Z.mod_small; lia. Qed.

(** C29. A text costs the local provider between one and [max_retries + 1]
    requests with one wait between two of them; it asks again exactly after
    failed sends and the statuses 429, 502, 503 and 504, the first other answer
    decides, and a failure names the number of requests made. The one exception
    is [max_retries = u32::MAX]: there the number of attempts wraps around to
    zero (in a build without overflow checks), no request is made at all, and
    the text fails. *)
Theorem embed_local_spec p spec answers :
  0 ≤ local_max_retries p < 2 ^ 32 →
  (local_max_retries p = 2 ^ 32 - 1 → embed_local p spec answers = ({| sent := 0; slept := 0 |}, Err (RequestFailed 0 "")))
  ∧ (local_max_retries p < 2 ^ 32 - 1 →
  ∃ k, 1 ≤ k ≤ local_max_retries p + 1
    ∧ (∀ j, 1 ≤ j < k → match answers j with
        | Responded status _ => status ∈ [429; 502; 503; 504]
        | NotSent _ => True end)
    ∧ embed_local p spec answers = ({| sent := k; slept := k - 1 |},
        match answers k with
        | Responded status body =>
            if is_error_status status then Err (RequestFailed k (status_error_text status))
            else body ← map_err (RequestFailed k) body; parsed_embedding k spec body
        | NotSent e => Err (RequestFailed k e)
        end)
    ∧ (k < local_max_retries p + 1 → match answers k with
        | Responded status _ => status ∉ [429; 502; 503; 504]
        | NotSent _ => False end)).
Proof.
  intros Hr. split; [intros Hp; unfold embed_local; by rewrite Hp|intros Hlt]. unfold embed_local.
  rewrite max_attempts_small by lia. set (max := local_max_retries p + 1).
  destruct (attempt_loop_spec (local_try max spec answers) (Z.to_nat max) 1 0 "" {| sent := 0; slept := 0 |})
    as (k&r&->&Hk&Hbefore&Hset); [lia| |].
  { replace (1 + Z.of_nat (Z.to_nat max) - 1) with max by lia. intros e. apply local_last. }
  assert (1 ≤ k ≤ max) as Hk' by lia. cbn [sent slept] in *.
  assert (∀ s, s ∈ [429; 502; 503; 504] ↔ (s =? 429) || (s =? 502) || (s =? 503) || (s =? 504) = true) as Hcodes.
  { intros s. rewrite !orb_true_iff, !Z.eqb_eq, !elem_of_cons. set_solver. }
  exists k. split; [done|]. split_and!.
  - intros j Hj. destruct (Hbefore j Hj) as [e He]. unfold local_try in He. destruct (answers j) as [s b|m]; [|done].
    destruct (is_error_status s); [|done]. unfold should_retry in He. destruct (max <=? j); [done|].
    apply Hcodes. by destruct (_ || _).
  - unfold local_try in Hset. destruct (answers k) as [s b|m].
    + destruct (is_error_status s); [destruct (should_retry _ _ _); [done|]|]; subst r; do 2 f_equal; lia.
    + destruct (max <=? k); [|done]. subst r. do 2 f_equal; lia.
  - intros Hkm. unfold local_try, should_retry in Hset. rewrite (proj2 (Z.leb_gt max k)) in Hset by lia.
    destruct (answers k) as [s b|m]; [|done]. rewrite Hcodes. destruct (_ || _) eqn:Hc; [|done].
    exfalso. assert (is_error_status s = true) as Hs; [|by rewrite Hs in Hset].
    unfold is_error_status. rewrite !orb_true_iff, !Z.eqb_eq in Hc. apply andb_true_iff. rewrite !Z.leb_le. lia.
Qed.

(** The gateway provider makes its requests in the same way. *)
Lemma embed_gateway_spec p spec input ask body :
  0 ≤ gateway_max_retries p < 2 ^ 32 - 1 →
  request_json (of_chars (utf8_lossy (input_body input))) (gateway_model p) = Ok body →
  ∃ k, 1 ≤ k ≤ gateway_max_retries p + 1
    ∧ (embed_gateway p spec input ask).1 = {| sent := k; slept := k - 1 |}
    ∧ (embed_gateway p spec input ask).2 = match ask (gateway_embedding_request p body) k with
        | Ok response =>
            if status_code response =? 200 then parsed_embedding k spec (resp_body response)
            else Err (RequestFailed (gateway_max_retries p + 1)
                   ("embedding gateway returned HTTP " +:+ fmt_usize (status_code response)))
        | Err e => Err (RequestFailed (gateway_max_retries p + 1) e)
        end.
Proof.
  intros Hr Hbody. unfold embed_gateway. rewrite Hbody, max_attempts_small by done. set (max := gateway_max_retries p + 1).
  destruct (attempt_loop_spec (gateway_try max spec (ask (gateway_embedding_request p body))) (Z.to_nat max) 1 0 ""
    {| sent := 0; slept := 0 |}) as (k&r&->&Hk&Hbefore&Hset); [lia| |].
  { replace (1 + Z.of_nat (Z.to_nat max) - 1) with max by lia. intros e. apply gateway_last. }
  exists k. cbn [sent slept fst snd] in *. split; [lia|]. split; [f_equal; lia|].
  unfold gateway_try in Hset. destruct (ask _ k) as [response|e].
  - destruct (_ =? 200); [by subst r|]. destruct (should_retry _ _ _); [done|]. by subst r.
  - destruct (max <=? k); [|done]. by subst r.
Qed.

(** A gateway failure names the configured number of attempts, also when the
    first answer ended them. *)
Lemma gateway_attempts_overstated p spec input ask body response :
  1 ≤ gateway_max_retries p < 2 ^ 32 - 1 →
  request_json (of_chars (utf8_lossy (input_body input))) (gateway_model p) = Ok body →
  ask (gateway_embedding_request p body) 1 = Ok response → status_code response = 404 →
  sent (embed_gateway p spec input ask).1 = 1
  ∧ ∃ message, (embed_gateway p spec input ask).2 = Err (RequestFailed (gateway_max_retries p + 1) message).
Proof.
  intros Hr Hbody Hask Hst. unfold embed_gateway. rewrite Hbody, max_attempts_small by lia.
  replace (Z.to_nat (gateway_max_retries p + 1)) with (S (Z.to_nat (gateway_max_retries p))) by lia.
  cbn [attempt_loop]. unfold gateway_try. rewrite Hask, Hst. cbn. unfold should_retry.
  rewrite (proj2 (Z.leb_gt _ _)) by lia. cbn. eauto.
Qed.

(** With the largest [max_retries] a release build sends nothing at all. *)
(** An embedding is not empty. *)
Lemma encoded_nonempty vector spec b : encode_embedding vector spec = Ok b → 1 ≤ dims spec → b ≠ [].
Proof.
  intros (u&Hd%reject_if_ok&Hb)%result_bind_ok Hdims. apply negb_false_iff, Z.eqb_eq in Hd.
  destruct vector as [|z vector]; [rewrite len_nil in Hd; lia|].
  case_bool_decide; [by injection Hb as <-|]. case_bool_decide; [by injection Hb as <-|done].
Qed.
Lemma parsed_nonempty attempt spec body b : parsed_embedding attempt spec body = Ok b → 1 ≤ dims spec → b ≠ [].
Proof. intros (data&_&(vector&_&Hb)%result_bind_ok)%result_bind_ok. by apply (encoded_nonempty vector). Qed.

Lemma embed_nonempty provider input spec s b : embed provider input spec s = Ok b → 1 ≤ dims spec → b ≠ [].
Proof.
  intros Hb Hdims. destruct provider as [p|p|]; cbn [embed] in Hb; [| |done].
  - unfold embed_local in Hb. destruct (attempt_loop _ _ _ _ _ _) as [log [r|[??]]] eqn:Hl; cbn in Hb; [subst r|done].
    destruct (attempt_loop_returned _ _ _ _ _ _ (Ok b) (f_equal snd Hl)) as [k Hk]. unfold local_try in Hk.
    repeat case_match; try done. injection Hk as Hk. apply result_bind_ok in Hk as (data&_&Hp). by eapply parsed_nonempty.
  - unfold embed_gateway in Hb. destruct (request_json _ _) as [body|e]; [|done].
    destruct (attempt_loop _ _ _ _ _ _) as [log [r|[??]]] eqn:Hl; cbn in Hb; [subst r|done].
    destruct (attempt_loop_returned _ _ _ _ _ _ (Ok b) (f_equal snd Hl)) as [k Hk]. unfold gateway_try in Hk.
    repeat case_match; try done. injection Hk as Hk. by eapply parsed_nonempty.
Qed.

Lemma max_retries_overflow p spec answers : local_max_retries p = 2 ^ 32 - 1 →
  embed_local p spec answers = ({| sent := 0; slept := 0 |}, Err (RequestFailed 0 "")).
Proof. intros Hp. unfold embed_local. by rewrite Hp. Qed.
End attempts.

(** ** Batches *)
Section batches.
Context {A : Type} (outcome : nat → embedding_result A).

Lemma join_results_ok f order results : (∀ i, i ∈ order → outcome i = Ok (f i)) →
  join_results outcome order results = Ok (foldl (λ rs i, <[i := Some (f i)]> rs) results order).
Proof.
  revert results. induction order as [|i order IH]; intros results Hf; [done|]. cbn [join_results].
  rewrite (Hf i) by (by left). cbn. apply IH. intros j Hj. apply Hf. by right.
Qed.

Lemma foldl_insert_lookup (f : nat → A) order (results : list (option A)) j : (j < length results)%nat → j ∈ order →
  foldl (λ rs i, <[i := Some (f i)]> rs) results order !! j = Some (Some (f j)).
Proof.
  revert results. induction order as [|i order IH] using rev_ind; intros results Hj Hin; [by inversion Hin|].
  rewrite foldl_snoc. set (rs := foldl _ _ _).
  assert (length rs = length results) as Hlen.
  { unfold rs. clear. induction order as [|i order IH] using rev_ind; [done|]. by rewrite foldl_snoc, length_insert. }
  destruct (decide (i = j)) as [->|Hij]; [apply list_lookup_insert_eq; by rewrite Hlen|].
  rewrite list_lookup_insert_ne by done. apply IH; [done|].
  apply elem_of_app in Hin as [?|?%list_elem_of_singleton]; [done|congruence].
Qed.

Lemma join_results_err order results e : join_results outcome order results = Err e ↔
  ∃ pre i post, order = pre ++ i :: post ∧ Forall (λ j, is_ok (outcome j) = true) pre ∧ outcome i = Err e.
Proof.
  revert results. induction order as [|i order IH]; intros results; cbn [join_results].
  { split; [done|]. by intros ([|]&?&?&?&_). }
  destruct (outcome i) as [x|e'] eqn:Hi; cbn; [rewrite IH|]; split.
  - intros (pre&j&post&->&Hpre&Hj). exists (i :: pre), j, post. split; [done|]. split; [|done].
    constructor; [by rewrite Hi|done].
  - intros ([|i' pre]&j&post&Heq&Hpre&Hj); cbn in Heq; injection Heq as <- ->; [congruence|].
    apply Forall_cons in Hpre as [_ Hpre]. by exists pre, j, post.
  - intros [= ->]. by exists [], i, order.
  - intros ([|i' pre]&j&post&Heq&Hpre&Hj); cbn in Heq; injection Heq as <- ->; [congruence|].
    apply Forall_cons in Hpre as [Hpre _]. by rewrite Hi in Hpre.
Qed.

Lemma batch_ok_list (f : nat → A) (n : nat) order : order ≡ₚ seq 0 n → (∀ i, (i < n)%nat → outcome i = Ok (f i)) →
  batch_results outcome n order = Ok (f <$> seq 0 n).
Proof.
  intros Hperm Hf. unfold batch_results. rewrite (join_results_ok f).
  2:{ intros i Hi. rewrite Hperm in Hi. apply elem_of_seq in Hi. apply Hf. lia. }
  cbn. set (rs := foldl _ _ _).
  assert (rs = (λ i, Some (f i)) <$> seq 0 n) as ->.
  { apply list_eq. intros j. rewrite list_lookup_fmap.
    assert (length rs = n) as Hlen.
    { unfold rs. clear. induction order as [|i order IH] using rev_ind; [apply length_replicate|].
      by rewrite foldl_snoc, length_insert. }
    destruct (decide (j < n)%nat) as [Hj|Hj].
    - rewrite lookup_seq_lt by done. cbn. apply foldl_insert_lookup; [by rewrite length_replicate|].
      rewrite Hperm. apply elem_of_seq. lia.
    - rewrite lookup_seq_ge by lia. apply lookup_ge_None. lia. }
  change (λ i, Some (f i)) with (Some ∘ f). rewrite list_fmap_compose. apply (result_mapM_fmap Some). done.
Qed.
Lemma join_results_all order results rs i : join_results outcome order results = Ok rs → i ∈ order →
  is_ok (outcome i) = true.
Proof.
  intros Hj Hi. destruct (outcome i) as [x|e] eqn:Ho; [done|]. exfalso.
  revert results Hj. induction order as [|k order IH]; intros results; [by inversion Hi|]. cbn [join_results].
  apply elem_of_cons in Hi as [<-|Hi]; [by rewrite Ho|]. destruct (outcome k); [|done]. cbn. by apply IH.
Qed.

Lemma batch_err_iff (n : nat) order e : order ≡ₚ seq 0 n → batch_results outcome n order = Err e ↔
  ∃ pre i post, order = pre ++ i :: post ∧ Forall (λ j, is_ok (outcome j) = true) pre ∧ outcome i = Err e.
Proof.
  intros Hperm. rewrite <-(join_results_err order (replicate n None)).
  destruct (join_results outcome order (replicate n None)) as [rs|e'] eqn:Hj;
    [|unfold batch_results; rewrite Hj; by split; intros [= ->]].
  split; [|done]. destruct n as [|n].
  { apply Permutation_nil_r in Hperm as ->. unfold batch_results. cbn. done. }
  assert (∃ y, outcome 0%nat = Ok y) as [y Hy].
  { pose proof (join_results_all _ _ _ 0%nat Hj) as H0. rewrite Hperm in H0. specialize (H0 ltac:(by left)).
    destruct (outcome 0%nat); [eauto|done]. }
  rewrite (batch_ok_list (λ i, match outcome i with Ok x => x | Err _ => y end) (S n) order Hperm); [done|].
  intros i Hi. assert (is_ok (outcome i) = true) as Hok.
  { eapply join_results_all; [exact Hj|]. rewrite Hperm. apply elem_of_seq. lia. }
  by destruct (outcome i).
Qed.

Lemma batch_ok_iff (n : nat) order l : order ≡ₚ seq 0 n → batch_results outcome n order = Ok l ↔
  Forall2 (λ i x, outcome i = Ok x) (seq 0 n) l.
Proof.
  intros Hperm. split.
  - intros Hok. destruct n as [|n].
    { apply Permutation_nil_r in Hperm as ->. unfold batch_results in Hok. cbn in Hok. by injection Hok as <-. }
    destruct (join_results outcome order (replicate (S n) None)) as [rs|e] eqn:Hj;
      [|unfold batch_results in Hok; by rewrite Hj in Hok].
    assert (∀ i, (i < S n)%nat → is_ok (outcome i) = true) as Hall.
    { intros i Hi. eapply join_results_all; [exact Hj|]. rewrite Hperm. apply elem_of_seq. lia. }
    destruct (outcome 0%nat) as [y|] eqn:Hy; [|specialize (Hall 0%nat ltac:(lia)); by rewrite Hy in Hall].
    set (f := λ i, match outcome i with Ok x => x | Err _ => y end).
    assert (∀ i, (i < S n)%nat → outcome i = Ok (f i)) as Hf.
    { intros i Hi. specialize (Hall i Hi). unfold f. by destruct (outcome i). }
    assert (l = f <$> seq 0 (S n)) as -> by (rewrite (batch_ok_list f) in Hok by done; congruence).
    apply Forall2_fmap_r, Forall_Forall2_diag, Forall_forall. intros i Hi%elem_of_seq. apply Hf. lia.
  - intros Hall. destruct l as [|y l].
    { apply Forall2_nil_inv_r in Hall. destruct n; [|done]. by apply Permutation_nil_r in Hperm as ->. }
    set (f := λ i, default y ((y :: l) !! i)).
    assert (y :: l = f <$> seq 0 n) as Hl.
    { apply list_eq. intros j. rewrite list_lookup_fmap. pose proof (Forall2_length _ _ _ Hall) as Hlen.
      rewrite length_seq in Hlen. unfold f. destruct (decide (j < n)%nat).
      - rewrite lookup_seq_lt by done. cbn. destruct (lookup_lt_is_Some_2 (y :: l) j) as [z Hz]; [lia|]. by rewrite Hz.
      - rewrite lookup_seq_ge by lia. apply lookup_ge_None. lia. }
    rewrite Hl. apply batch_ok_list; [done|]. intros i Hi.
    destruct (Forall2_lookup_l _ _ _ i i Hall) as (x&Hx&Ho); [by apply lookup_seq_lt|]. unfold f. by rewrite Hx.
Qed.
End batches.

Section batch.
Context `{EmbeddingJson} `{HalfFloat} `{StatusText}.

(** Embedding a batch does not depend on the order in which its tasks end
    when every text can be embedded: the vectors come in the order of the
    texts. Otherwise the batch fails, with the error of the task that failed
    first. *)
Theorem embed_batch_order provider inputs spec s order :
  provider ≠ ProviderAzureOpenAi → order ≡ₚ seq 0 (length inputs) →
  let outcome i := match inputs !! i with Some input => embed provider input spec (s i) | None => Err MissingVector end in
  (∀ vectors, embed_batch provider inputs spec s order = Ok vectors ↔
     Forall2 (λ i vector, outcome i = Ok vector) (seq 0 (length inputs)) vectors)
  ∧ (∀ e, embed_batch provider inputs spec s order = Err e ↔
     ∃ pre i post, order = pre ++ i :: post ∧ Forall (λ j, is_ok (outcome j) = true) pre ∧ outcome i = Err e).
Proof.
  intros Hp Hperm outcome.
  assert (embed_batch provider inputs spec s order = batch_results outcome (length inputs) order) as ->.
  { by destruct provider. }
  split; [intros vectors|intros e]; [apply batch_ok_iff|apply batch_err_iff]; done.
Qed.
End batch.

(** ** The f32 encoding *)
Definition f32 (z : Z) : Prop := 0 ≤ z < 2 ^ 32.

Lemma le4_inv z : f32 z → from_le_bytes (le_bytes 4 z) = z.
Proof. intros Hz. unfold f32 in Hz. cbn [le_bytes from_le_bytes]. Z.to_euclidean_division_equations. lia. Qed.
Lemma from_le4_inv a b c d : Forall is_byte [a; b; c; d] → f32 (from_le_bytes [a; b; c; d])
  ∧ le_bytes 4 (from_le_bytes [a; b; c; d]) = [a; b; c; d].
Proof. rewrite !Forall_cons. unfold is_byte, f32. intros (?&?&?&?&_).
  cbn [le_bytes from_le_bytes]. split; [lia|]. repeat f_equal; Z.to_euclidean_division_equations; lia.
Qed.

Lemma chunks4_bind vector : Forall f32 vector →
  from_le_bytes <$> chunks_exact4 (vector ≫= le_bytes 4) = vector.
Proof.
  induction 1 as [|z vector Hz Hv IH]; [done|]. rewrite bind_cons.
  change (chunks_exact4 (le_bytes 4 z ++ (vector ≫= le_bytes 4)))
    with (le_bytes 4 z :: chunks_exact4 (vector ≫= le_bytes 4)).
  rewrite fmap_cons, IH. by rewrite le4_inv.
Qed.
Lemma len_bind4 vector : len (vector ≫= le_bytes 4) = 4 * len vector.
Proof. induction vector as [|z vector IH]; [done|]. rewrite bind_cons, len_app, len_cons, IH. cbn [le_bytes]. rewrite !len_cons, len_nil. lia. Qed.

Lemma bind_chunks4 (n : nat) data : length data = (4 * n)%nat → Forall is_byte data →
  (from_le_bytes <$> chunks_exact4 data) ≫= le_bytes 4 = data
  ∧ Forall f32 (from_le_bytes <$> chunks_exact4 data) ∧ length (chunks_exact4 data) = n.
Proof.
  revert data. induction n as [|n IH]; intros data Hl Hb; [by destruct data|].
  destruct data as [|a [|b [|c [|d data]]]]; try (cbn in Hl; lia).
  change (a :: b :: c :: d :: data) with ([a; b; c; d] ++ data) in Hb. apply Forall_app in Hb as [H4 Hb].
  destruct (IH data) as (Hd&Hf&Hn); [cbn in Hl; lia|done|]. destruct (from_le4_inv _ _ _ _ H4) as [Hz Hle].
  change (chunks_exact4 (a :: b :: c :: d :: data)) with ([a; b; c; d] :: chunks_exact4 data).
  rewrite fmap_cons, bind_cons, Hd, Hle. split_and!; [done|by constructor|cbn; by rewrite Hn].
Qed.

(** Decoding a logical embedding inverts its encoding: bytes decode to a
    vector of [dims] values exactly when they are what encoding that vector
    gives. *)
Theorem logical_embedding_roundtrip `{HalfFloat} data dims vector :
  Forall is_byte data → 0 ≤ dims → dims * 4 ≤ usize_max →
  decode_logical_f32_embedding data dims = Ok vector
  ↔ Forall f32 vector ∧ encode_embedding vector (logical_f32_embedding_spec dims) = Ok data.
Proof.
  intros Hb Hd Hmax. unfold decode_logical_f32_embedding, encode_embedding. cbn [Blocks.dims encoding logical_f32_embedding_spec].
  rewrite (proj2 (Z.leb_le _ _) Hmax). cbn [mbind result_bind]. rewrite !result_seq_ok, !reject_if_ok, !negb_false_iff, !Z.eqb_eq.
  rewrite (bool_decide_true ("f32le" = "f32le")) by done. split.
  - intros [Hl [= <-]]. destruct (bind_chunks4 (Z.to_nat dims) data) as (He&Hf&Hn); [unfold len in Hl; lia|done|].
    split; [done|]. split; [unfold len; rewrite length_fmap, Hn; lia|]. by rewrite He.
  - intros (Hf&Hl&[= <-]). split; [rewrite len_bind4; lia|]. by rewrite chunks4_bind.
Qed.
