(* ===== verification/EmbeddingWitness.v ===== *)
(** * The embedding theorems at concrete inputs *)

From Stdlib Require Import ZArith Lia Ascii.
From stdpp Require Import base gmap sets strings sorting option list.
From S2P Require Import Prelude Hex Blocks Text Items Config Http3 Embedding EmbeddingSpec.
#[local] Open Scope Z_scope.

(** A response whose body is a list of numbers carries one vector of them. *)
#[local] Instance plain_json : EmbeddingJson := {|
  request_json text model := Ok (as_bytes text);
  response_json body := if bool_decide (body = []) then Ok [] else Ok [body] |}.
#[local] Instance no_halves : HalfFloat := λ z, z / 65536.
#[local] Instance plain_status : StatusText := λ status, "HTTP " +:+ fmt_usize status.

Definition local_provider : LocalOpenAiEmbeddingProvider := {|
  local_base_url := "http://localhost"; local_model := "m"; local_api_key := None;
  local_max_retries := 5; local_retry_delay := 1000 |}.
Definition one_value : EmbeddingSpec := logical_f32_embedding_spec 1.

(** A busy service, a lost connection, then an answer. *)
Definition answers (value attempt : Z) : local_answer :=
  if attempt =? 1 then Responded 503 (Ok []) else if attempt =? 2 then NotSent "reset" else Responded 200 (Ok [value]).

Example embed_third : embed_local local_provider one_value (answers 258) = ({| sent := 3; slept := 2 |}, Ok [2; 1; 0; 0]).
Proof. vm_compute. reflexivity. Qed.

Lemma embed_local_spec_witness : ∃ k, 1 ≤ k ≤ 6
  ∧ (embed_local local_provider one_value (answers 258)).1 = {| sent := k; slept := k - 1 |}.
Proof.
  destruct (embed_local_spec local_provider one_value (answers 258) ltac:(cbn; lia)) as [_ Hspec].
  destruct (Hspec ltac:(cbn; lia)) as (k&Hk&_&Hrun&_).
  exists k. split; [exact Hk|]. by rewrite Hrun.
Defined.

(** The second text ends first. *)
Definition text_services (i : nat) : services := {|
  local_service p input := answers (Z.of_nat i);
  gateway_service request attempt := Err "unused" |}.
Definition two_texts : list EmbeddingInput :=
  [{| input_media_type := "text/plain"; input_body := [97] |}; {| input_media_type := "text/plain"; input_body := [98] |}].

Lemma embed_batch_order_witness :
  embed_batch (ProviderLocal local_provider) two_texts one_value text_services [1; 0]%nat = Ok [[0; 0; 0; 0]; [1; 0; 0; 0]].
Proof.
  refine (proj2 (proj1 (embed_batch_order (ProviderLocal local_provider) two_texts one_value text_services [1; 0]%nat _ _)
    [[0; 0; 0; 0]; [1; 0; 0; 0]]) _); [done|apply (bool_decide_eq_true_1 ([1; 0]%nat ≡ₚ [0; 1]%nat)); reflexivity|].
  apply Forall2_cons. split; [vm_compute; reflexivity|]. apply Forall2_cons. split; [vm_compute; reflexivity|constructor].
Defined.

Lemma logical_embedding_roundtrip_witness :
  decode_logical_f32_embedding [0; 0; 128; 63; 0; 0; 0; 64] 2 = Ok [1065353216; 1073741824].
Proof.
  refine (proj2 (logical_embedding_roundtrip _ 2 _ _ _ _) _).
  - repeat constructor; apply Z.ltb_lt || apply Z.leb_le; reflexivity.
  - lia.
  - vm_compute. discriminate.
  - split; [|vm_compute; reflexivity]. repeat constructor; apply Z.ltb_lt || apply Z.leb_le; reflexivity.
Defined.
