(* ===== verification/LeafWorkers.v ===== *)
(** * Leaf construction ([runtime.rs], [build_leaf_blocks_concurrently])

    The items of a batch become leaf blocks in tasks of a [JoinSet]: at most
    [max_concurrency] tasks exist at a time, each resolves its item (sharing the
    cache of email chunks with the others), asks for an embedding and builds the
    block; the caller joins finished tasks in any order, puts their blocks into
    the slot of their item and starts the next item's task. One step of [pool]
    is one step of one task or one join. The theorems are in
    [LeafWorkersSpec.v]. *)

From Stdlib Require Import ZArith Lia Ascii.
From stdpp Require Import base gmap sets strings sorting option list.
From S2P Require Import Prelude Hex Blocks Text Items Runtime Mailbox Resolver Config Embedding.
#[local] Open Scope Z_scope.

(** The constructors of [RuntimeError] that ingestion adds to those of
    [Runtime.v], which are under [Base]. [StillRunning] is not an error of the
    code: a batch whose schedule ends before the batch does. *)
Inductive IngestError (E : Type) :=
| Base (e : RuntimeError E)
| ResolverError (e : LocalFilesystemContentResolverError E)
| MailboxError (e : MailboxExpansionError E)
| Provider (e : ConfiguredEmbeddingProviderError)
| ConstructLeafBlock (block_id source : string)
| SerializeIteratedBlock (block_id source : string)
| DeserializeStagedBlock (block_id source : string)
| StagedBlockHashMismatch (expected actual : string)
| StillRunning.
Arguments Base {E} e.
Arguments ResolverError {E} e.
Arguments MailboxError {E} e.
Arguments Provider {E} e.
Arguments ConstructLeafBlock {E} block_id source.
Arguments SerializeIteratedBlock {E} block_id source.
Arguments DeserializeStagedBlock {E} block_id source.
Arguments StagedBlockHashMismatch {E} expected actual.
Arguments StillRunning {E}.

(** [SerializedBlock], [build_leaf_block] of version 1 without extra fields,
    [serialize_block] and [deserialize_block] of the block crate. *)
Record SerializedBlock := { ser_hash : block_hash; ser_bytes : bytes }.
Class LeafFormat := {
  build_leaf_block : EmbeddingSpec → list LeafEntry → result string LeafBlock;
  serialize_block : Block → result string SerializedBlock;
  deserialize_block : bytes → block_hash → result string Block
}.
Class LeafFormatLaws `{LeafFormat} := {
  build_leaf_fields spec entries leaf : build_leaf_block spec entries = Ok leaf →
    lb_level leaf = 0 ∧ lb_spec leaf = spec ∧ lb_entries leaf = entries;
  deserialize_serialize b s : serialize_block b = Ok s → deserialize_block (ser_bytes s) (ser_hash s) = Ok b;
  serialize_hash b s : serialize_block b = Ok s → hash_ok (ser_hash s)
}.

Record ConstructedBlocks := { block_ids : list block_hash; built_blocks : list SerializedBlock }.
Definition no_blocks : ConstructedBlocks := {| block_ids := []; built_blocks := [] |}.

Section leaves.
Context {S : Type} `{BlockStore S} `{Ciborium} `{EmbeddingJson} `{HalfFloat} `{StatusText} `{LeafFormat}.
Abbreviation error := (IngestError (BlockStoreError S)).

(** What the tasks share and read: the files and the store stay the same while a
    batch is built. *)
Context (fs : files) (store : S) (provider : ConfiguredEmbeddingProvider) (spec : EmbeddingSpec).

(** ** [construct_leaf_block_batch] *)

(** One iteration of its loop over items, contents and embeddings. *)
Definition leaf_step (constructed : ConstructedBlocks) (x : IndexItem * Content * bytes) : result error ConstructedBlocks :=
  let '(item, content, embedding) := x in
  block ← map_err (ConstructLeafBlock "<leaf>")
    (build_leaf_block spec [{| le_metadata := item_metadata item; le_embedding := embedding; le_content := content |}]);
  serialized ← map_err (SerializeIteratedBlock "<leaf>") (serialize_block (BLeaf block));
  Ok {| block_ids := block_ids constructed ++ [ser_hash serialized];
        built_blocks := built_blocks constructed ++ [serialized] |}.

Definition leaf_blocks (items : list IndexItem) (contents : list Content) (embeddings : list bytes)
    : result error ConstructedBlocks :=
  result_foldl leaf_step no_blocks (zip (zip items contents) embeddings).

Definition embedding_input (content : Content) : EmbeddingInput :=
  {| input_media_type := media_type content; input_body := body content |}.

(** ** A task: [construct_leaf_block_batch] of one item *)
Inductive leaf_task :=
| Resolving (st : resolve_state (S:=S))
| Embedding (content : Content)
| Ended (r : result error ConstructedBlocks)
| Joined.

(** [resolve], cut at the steps of its cache. *)
Definition start_resolve (item : IndexItem) : resolve_state (S:=S) :=
  match item_content_ref item with
  | CEmailChunk _ _ => Lookup
  | content_ref => match (resolve fs store content_ref ∅).2 with Some r => Done r | None => Lookup end
  end.
Definition resolve_item_step (item : IndexItem) (cache : EmailChunkCache) (st : resolve_state (S:=S))
    : EmailChunkCache * resolve_state (S:=S) :=
  match item_content_ref item with
  | CEmailChunk email_artifact_ref chunk_index => resolve_step store email_artifact_ref chunk_index cache st
  | _ => (cache, st)
  end.

(** [s] is what the services answer to the task. *)
Definition embed_item (item : IndexItem) (content : Content) (s : services) : result error ConstructedBlocks :=
  embeddings ← map_err Provider (embed_batch provider [embedding_input content] spec (λ _, s) [0%nat]);
  leaf_blocks [item] [content] embeddings.

Definition task_step (item : IndexItem) (s : services) (cache : EmailChunkCache) (t : leaf_task)
    : option (EmailChunkCache * leaf_task) :=
  match t with
  | Resolving (Done (Ok content)) => Some (cache, Embedding content)
  | Resolving (Done (Err e)) => Some (cache, Ended (Err (ResolverError e)))
  | Resolving st => let '(cache, st) := resolve_item_step item cache st in Some (cache, Resolving st)
  | Embedding content => Some (cache, Ended (embed_item item content s))
  | Ended _ | Joined => None
  end.

(** ** The pool

    [tasks] are the tasks started so far, by item; [completed] the slots of all
    items; [outcome] what the call has returned. *)
Record pool := {
  cache : EmailChunkCache;
  tasks : list leaf_task;
  completed : list (option ConstructedBlocks);
  outcome : option (result error ConstructedBlocks)
}.

Definition spawn_leaf_block_task (items : list IndexItem) (index : nat) : list leaf_task :=
  match items !! index with Some item => [Resolving (start_resolve item)] | None => [] end.

Definition start_pool (items : list IndexItem) (max_concurrency : Z) (cache : EmailChunkCache) : pool :=
  let concurrency := Nat.min (Z.to_nat (Z.max max_concurrency 1)) (length items) in
  {| cache := cache;
     tasks := seq 0 concurrency ≫= spawn_leaf_block_task items;
     completed := replicate (length items) None;
     outcome := if bool_decide (items = []) then Some (Ok no_blocks) else None |}.

(** The blocks of the filled slots, in the order of the items. *)
Definition gathered (completed : list (option ConstructedBlocks)) : ConstructedBlocks :=
  let filled := omap id completed in
  {| block_ids := concat (block_ids <$> filled); built_blocks := concat (built_blocks <$> filled) |}.

Definition is_joined (t : leaf_task) : bool := match t with Joined => true | _ => false end.

(** A step of the task of an item, the join of a finished task, or the end of
    the loop when no task is left. *)
Inductive label := Work (index : nat) (s : services) | Join (index : nat) | Leave.

Definition pool_step (items : list IndexItem) (l : label) (p : pool) : option pool :=
  match outcome p with
  | Some _ => None
  | None =>
      match l with
      | Work index s =>
          item ← items !! index; t ← tasks p !! index;
          '(cache, t) ← task_step item s (cache p) t;
          Some {| cache := cache; tasks := <[index := t]> (tasks p); completed := completed p; outcome := None |}
      | Join index =>
          t ← tasks p !! index;
          match t with
          | Ended (Ok constructed) =>
              Some {| cache := cache p;
                      tasks := <[index := Joined]> (tasks p) ++ spawn_leaf_block_task items (length (tasks p));
                      completed := <[index := Some constructed]> (completed p); outcome := None |}
          | Ended (Err e) =>
              Some {| cache := cache p; tasks := <[index := Joined]> (tasks p); completed := completed p;
                      outcome := Some (Err e) |}
          | _ => None
          end
      | Leave =>
          if forallb is_joined (tasks p) then
            Some {| cache := cache p; tasks := tasks p; completed := completed p;
                    outcome := Some (Ok (gathered (completed p))) |}
          else None
      end
  end.

(** A schedule; a label whose task cannot move is passed over. *)
Definition run_pool (items : list IndexItem) (schedule : list label) (p : pool) : pool :=
  foldl (λ p l, default p (pool_step items l p)) p schedule.

Definition build_leaf_blocks_concurrently (items : list IndexItem) (max_concurrency : Z) (cache : EmailChunkCache)
    (schedule : list label) : pool :=
  run_pool items schedule (start_pool items max_concurrency cache).
End leaves.
Arguments leaf_task S {_}.
Arguments pool S {_}.
