(* ===== verification/LeafWorkersSpec.v ===== *)
(** * Theorems of concurrent leaf construction

    Whatever the interleaving of the tasks and the order of the joins, a batch
    returns one block per item, in the order of the items, built from the content
    that the item's reference has in the store; it never runs more tasks than it
    may, and it ends. *)

From Stdlib Require Import ZArith Lia Ascii.
From stdpp Require Import base gmap sets strings sorting option list.
From S2P Require Import Prelude Hex Blocks Text Items Runtime Mailbox Resolver MailboxSpec Config Embedding EmbeddingSpec LeafWorkers.
#[local] Open Scope Z_scope.

Section leaves.
Context {S : Type} `{BlockStore S} `{Ciborium} `{EmbeddingJson} `{HalfFloat} `{StatusText} `{LeafFormat}.
Abbreviation error := (IngestError (BlockStoreError S)).
Context (fs : files) (store : S) (provider : ConfiguredEmbeddingProvider) (spec : EmbeddingSpec).
Context (items : list IndexItem) (max_concurrency : Z).

(** ** What an item's task computes *)

(** The content of an item, read without the cache. *)
Definition item_content (item : IndexItem) : result (LocalFilesystemContentResolverError (BlockStoreError S)) Content :=
  match item_content_ref item with
  | CEmailChunk email_artifact_ref chunk_index =>
      chunks ← load_email_chunks store email_artifact_ref; pick_chunk email_artifact_ref chunk_index chunks
  | CDocument path => resolve_file fs path "txt" "text/plain"
  | CInline media_type body | CStoredReplay media_type body _ => Ok {| media_type := media_type; body := body |}
  end.

Definition leaf_of (item : IndexItem) (s : services) : result error ConstructedBlocks :=
  content ← map_err ResolverError (item_content item); embed_item provider spec item content s.

(** A block of an item: its leaf has one entry, with the item's metadata and
    content and an embedding that the provider returned for the content. *)
Definition block_of_item (item : IndexItem) (ser : SerializedBlock) : Prop :=
  ∃ content s embedding leaf,
    item_content item = Ok content ∧ embed provider (embedding_input content) spec s = Ok embedding
    ∧ build_leaf_block spec [{| le_metadata := item_metadata item; le_embedding := embedding; le_content := content |}] = Ok leaf
    ∧ serialize_block (BLeaf leaf) = Ok ser.

Lemma leaf_of_block item s c : leaf_of item s = Ok c →
  ∃ ser, c = {| block_ids := [ser_hash ser]; built_blocks := [ser] |} ∧ block_of_item item ser.
Proof.
  unfold leaf_of. intros (content&Hc%map_err_ok&Hrest)%result_bind_ok.
  unfold embed_item in Hrest. apply result_bind_ok in Hrest as (embeddings&He%map_err_ok&Hl).
  assert (∃ e, embeddings = [e] ∧ embed provider (embedding_input content) spec s = Ok e) as (e&->&Hemb).
  { assert (provider ≠ ProviderAzureOpenAi) as Hp by (by intros ->).
    assert ([0%nat] ≡ₚ seq 0 1) as Hperm by done.
    assert (embed_batch provider [embedding_input content] spec (λ _, s) [0%nat]
      = batch_results (λ index, match [embedding_input content] !! index with
          | Some input => embed provider input spec s | None => Err MissingVector end) 1 [0%nat]) as Heq
      by (by destruct provider).
    rewrite Heq in He. apply batch_ok_iff in He; [|done].
    apply Forall2_cons_inv_l in He as (e&l&He&Hnil&->). apply Forall2_nil_inv_l in Hnil as ->. by exists e. }
  unfold leaf_blocks in Hl. cbn [zip zip_with result_foldl] in Hl.
  apply result_bind_ok in Hl as (c1&Hstep&[= <-]). unfold leaf_step in Hstep.
  apply result_bind_ok in Hstep as (leaf&Hleaf%map_err_ok&Hstep).
  apply result_bind_ok in Hstep as (ser&Hser%map_err_ok&[= <-]).
  exists ser. split; [done|]. by exists content, s, e, leaf.
Qed.

(** ** The invariant of the pool *)
Definition resolving_ok (item : IndexItem) (st : resolve_state (S:=S)) : Prop :=
  match st with
  | Lookup | Load => ∃ r i, item_content_ref item = CEmailChunk r i
  | Insert chunks | Pick chunks =>
      ∃ r i, item_content_ref item = CEmailChunk r i ∧ load_email_chunks store r = Ok chunks
  | Done r => r = item_content item
  end.
Definition task_ok (item : IndexItem) (slot : option ConstructedBlocks) (t : leaf_task S) : Prop :=
  match t with
  | Resolving st => resolving_ok item st ∧ slot = None
  | Embedding content => item_content item = Ok content ∧ slot = None
  | Ended r => (∃ s, r = leaf_of item s) ∧ slot = None
  | Joined => ∃ s c, leaf_of item s = Ok c ∧ slot = Some c
  end.

Definition alive (t : leaf_task S) : nat := if is_joined t then 0 else 1.
Definition live (ts : list (leaf_task S)) : nat := sum_list_with alive ts.
Definition width : nat := Nat.min (Z.to_nat (Z.max max_concurrency 1)) (length items).

Record pool_ok (p : pool S) : Prop := {
  ok_cache : coherent store (cache p);
  ok_slots : length (completed p) = length items;
  ok_tasks : ∀ i t, tasks p !! i = Some t → ∃ item slot,
    items !! i = Some item ∧ completed p !! i = Some slot
    ∧ (task_ok item slot t ∨ ∃ e, outcome p = Some (Err e));
  ok_rest : ∀ j, (length (tasks p) ≤ j < length items)%nat → completed p !! j = Some None;
  ok_live : (live (tasks p) ≤ width)%nat;
  ok_more : outcome p = None → (length (tasks p) < length items)%nat → live (tasks p) = width;
  ok_items : outcome p = None → items ≠ [];
  ok_outcome : match outcome p with
    | None => True
    | Some (Ok b) => (items = [] ∧ b = no_blocks)
        ∨ (length (tasks p) = length items ∧ live (tasks p) = 0%nat ∧ b = gathered (completed p))
    | Some (Err e) => ∃ item s, item ∈ items ∧ leaf_of item s = Err e
    end
}.

Lemma start_resolve_ok item : resolving_ok item (start_resolve fs store item).
Proof.
  unfold start_resolve, resolving_ok, item_content.
  destruct (item_content_ref item) as [path|m b|m b id|r i] eqn:Hi; cbn; [done..|]. by exists r, i.
Qed.

Lemma resolve_item_ok item c st c' st' : coherent store c → resolving_ok item st →
  (∀ r, st ≠ Done r) → resolve_item_step store item c st = (c', st') →
  coherent store c' ∧ resolving_ok item st'.
Proof.
  intros Hc Hst Hnd. unfold resolve_item_step.
  assert (∃ r i, item_content_ref item = CEmailChunk r i) as (r&i&Hi).
  { destruct st; cbn in Hst; [done..| | |by destruct (Hnd r)]; destruct Hst as (r&i&?&?); eauto. }
  rewrite Hi. unfold resolving_ok in *. destruct st as [| |chunks|chunks|x]; cbn [resolve_step].
  - intros [= <- <-]. split; [done|]. destruct (c !! r) as [chunks|] eqn:E; [|by exists r, i].
    exists r, i. split; [done|]. by apply Hc.
  - intros [= <- <-]. split; [done|]. destruct (load_email_chunks store r) as [chunks|e] eqn:E; [by exists r, i|].
    unfold item_content. rewrite Hi, E. done.
  - destruct Hst as (r0&i0&Hi0&Hl). rewrite Hi in Hi0. injection Hi0 as <- <-.
    destruct (c !! r) as [chunks'|] eqn:E; intros [= <- <-].
    + split; [done|]. exists r, i. split; [done|]. by apply Hc.
    + split; [by apply coherent_insert|]. by exists r, i.
  - destruct Hst as (r0&i0&Hi0&Hl). rewrite Hi in Hi0. injection Hi0 as <- <-. intros [= <- <-].
    split; [done|]. unfold item_content. by rewrite Hi, Hl.
  - by destruct (Hnd x).
Qed.

Lemma task_step_ok item s c t c' t' slot : coherent store c → task_ok item slot t →
  task_step store provider spec item s c t = Some (c', t') →
  coherent store c' ∧ task_ok item slot t' ∧ is_joined t = false ∧ is_joined t' = false.
Proof.
  intros Hc Ht. destruct t as [st|content|r|]; cbn [task_step]; [| |done..].
  - destruct Ht as [Hst Hslot].
    assert ((∃ r, st = Done r) ∨ ∀ r, st ≠ Done r) as [[r ->]|Hnd] by (destruct st; naive_solver).
    + cbn in Hst. destruct r as [content|e]; intros [= <- <-]; (split; [done|]); cbn; [done|].
      split; [|done]. split; [|done]. exists s. unfold leaf_of. by rewrite <-Hst.
    + destruct (resolve_item_step store item c st) as [c1 st1] eqn:Hr.
      destruct (resolve_item_ok _ _ _ _ _ Hc Hst Hnd Hr) as [Hc1 Hst1].
      destruct st as [| | | |r]; [..|by destruct (Hnd r)]; intros [= <- <-]; done.
  - destruct Ht as [Hcontent Hslot]. intros [= <- <-]. split; [done|]. split; [|done]. split; [|done].
    exists s. unfold leaf_of. by rewrite Hcontent.
Qed.

(** ** The invariant holds *)
Lemma spawned index : (index < length items)%nat → ∃ item, items !! index = Some item
  ∧ spawn_leaf_block_task fs store items index = [Resolving (start_resolve fs store item)].
Proof. intros Hi. destruct (lookup_lt_is_Some_2 items index Hi) as [item Hit]. exists item. unfold spawn_leaf_block_task. by rewrite Hit. Qed.
Lemma spawned_none index : (length items ≤ index)%nat → spawn_leaf_block_task fs store items index = [].
Proof. intros Hi. unfold spawn_leaf_block_task. by rewrite lookup_ge_None_2. Qed.

Lemma started n : (n ≤ length items)%nat →
  let ts := seq 0 n ≫= spawn_leaf_block_task fs store items in
  length ts = n ∧ live ts = n
  ∧ ∀ i t, ts !! i = Some t → ∃ item, items !! i = Some item ∧ t = Resolving (start_resolve fs store item).
Proof.
  induction n as [|n IH]; intros Hn; [done|]. cbv zeta in IH |- *. destruct IH as (Hl&Hlive&Hall); [lia|].
  rewrite seq_S, bind_app. cbn [Nat.add]. destruct (spawned n) as (item&Hit&Hsp); [lia|].
  change ([n] ≫= spawn_leaf_block_task fs store items) with (spawn_leaf_block_task fs store items n ++ []).
  rewrite app_nil_r, Hsp. split_and!.
  - rewrite length_app. cbn. lia.
  - unfold live in *. rewrite sum_list_with_app, Hlive. cbn. lia.
  - intros i t [Ht|[Hge Ht]]%lookup_app_Some; [by apply Hall|].
    apply list_lookup_singleton_Some in Ht as [Hi <-]. exists item. split; [|done].
    by replace i with n by lia.
Qed.

Lemma start_ok c : coherent store c → pool_ok (start_pool fs store items max_concurrency c).
Proof.
  intros Hc. destruct (started width) as (Hl&Hlive&Hall); [unfold width; lia|]. unfold start_pool. fold width.
  split; cbn [cache tasks completed outcome].
  - done.
  - apply length_replicate.
  - intros i t Ht. destruct (Hall i t Ht) as (item&Hit&->). exists item, None. split; [done|].
    split; [apply lookup_replicate; split; [done|by eapply lookup_lt_Some]|]. left. split; [apply start_resolve_ok|done].
  - intros j Hj. apply lookup_replicate. split; [done|lia].
  - by rewrite Hlive.
  - intros _ _. exact Hlive.
  - by case_bool_decide.
  - case_bool_decide; [by left|done].
Qed.

Lemma live_insert ts i t t' : ts !! i = Some t → (live (<[i := t']> ts) + alive t = live ts + alive t')%nat.
Proof. apply sum_list_with_insert. Qed.

Lemma work_ok i s p p' : pool_ok p → pool_step fs store provider spec items (Work i s) p = Some p' → pool_ok p'.
Proof.
  intros [Hc Hslots Htasks Hrest Hlive Hmore Hitems Hout]. unfold pool_step. destruct (outcome p) as [o|] eqn:Ho; [done|].
  destruct (items !! i) as [item|] eqn:Hi; [|done]. cbn [mbind option_bind].
  destruct (tasks p !! i) as [t|] eqn:Ht; [|done]. cbn [mbind option_bind].
  destruct (task_step store provider spec item s (cache p) t) as [[c' t']|] eqn:Hs; [|done].
  intros [= <-]. destruct (Htasks i t Ht) as (item0&slot&Hi0&Hsl&[Hok|[e He]]); [|done].
  rewrite Hi in Hi0. injection Hi0 as <-.
  destruct (task_step_ok _ _ _ _ _ _ _ Hc Hok Hs) as (Hc'&Hok'&Hj&Hj').
  assert (live (<[i := t']> (tasks p)) = live (tasks p)) as Hl.
  { pose proof (live_insert _ _ _ t' Ht) as Hl. unfold alive in Hl. rewrite Hj, Hj' in Hl. lia. }
  split; cbn [cache tasks completed outcome]; [done|done| | |by rewrite Hl| |by apply Hitems|done].
  - intros j tj Hjt. destruct (decide (i = j)) as [<-|Hij].
    + rewrite list_lookup_insert_eq in Hjt by (by eapply lookup_lt_Some). injection Hjt as <-.
      exists item, slot. split; [done|]. split; [done|by left].
    + rewrite list_lookup_insert_ne in Hjt by done. destruct (Htasks j tj Hjt) as (itj&sj&?&?&[?|[? ?]]); [|done].
      exists itj, sj. split; [done|]. split; [done|by left].
  - intros j. rewrite length_insert. apply Hrest.
  - rewrite length_insert, Hl. by apply Hmore.
Qed.

Lemma join_ok_ok i p c : pool_ok p → outcome p = None → tasks p !! i = Some (Ended (Ok c)) →
  pool_ok {| cache := cache p;
             tasks := <[i := Joined]> (tasks p) ++ spawn_leaf_block_task fs store items (length (tasks p));
             completed := <[i := Some c]> (completed p); outcome := None |}.
Proof.
  intros [Hc Hslots Htasks Hrest Hlive Hmore Hitems Hout] Ho Ht.
  destruct (Htasks i _ Ht) as (item&slot&Hi&Hsl&[[[s Hs] ->]|[e He]]); [|congruence].
  assert (i < length (tasks p))%nat as Hilt by (by eapply lookup_lt_Some).
  assert (i < length items)%nat as Hil by (by eapply lookup_lt_Some).
  pose proof (live_insert _ _ _ Joined Ht) as Hl. unfold alive in Hl. cbn in Hl.
  assert (length (tasks p) ≤ length items)%nat as Hle.
  { destruct (decide (length (tasks p) ≤ length items)%nat) as [?|Hgt]; [done|].
    destruct (lookup_lt_is_Some_2 (tasks p) (length items)) as [t' Ht']; [lia|].
    destruct (Htasks _ _ Ht') as (it&?&Hit&_). apply lookup_lt_Some in Hit. lia. }
  split; cbn [cache tasks completed outcome].
  - done.
  - by rewrite length_insert.
  - intros j tj [Hjt|[Hge Hjt]]%lookup_app_Some.
    + destruct (decide (i = j)) as [<-|Hij].
      * rewrite list_lookup_insert_eq in Hjt by done. injection Hjt as <-. exists item, (Some c). split; [done|].
        split; [by rewrite list_lookup_insert_eq by lia|]. left. by exists s, c.
      * rewrite list_lookup_insert_ne in Hjt by done.
        destruct (Htasks j tj Hjt) as (itj&sj&?&?&[?|[? ?]]); [|congruence].
        exists itj, sj. split; [done|]. split; [by rewrite list_lookup_insert_ne|by left].
    + rewrite length_insert in Hge, Hjt. destruct (decide (length (tasks p) < length items)%nat) as [Hlt|Hlt].
      * destruct (spawned (length (tasks p)) Hlt) as (it&Hit&Hsp). rewrite Hsp in Hjt.
        apply list_lookup_singleton_Some in Hjt as [Hj0 <-].
        assert (j = length (tasks p)) as -> by lia. exists it, None. split; [done|].
        split; [|left; split; [apply start_resolve_ok|done]].
        rewrite list_lookup_insert_ne by lia. apply Hrest. lia.
      * rewrite spawned_none in Hjt by lia. done.
  - intros j. rewrite length_app, length_insert. intros Hj. rewrite list_lookup_insert_ne by lia. apply Hrest. lia.
  - unfold live. rewrite sum_list_with_app. fold (live (<[i := Joined]> (tasks p))).
    destruct (decide (length (tasks p) < length items)%nat) as [Hlt|Hlt].
    + destruct (spawned (length (tasks p)) Hlt) as (it&_&->). cbn. lia.
    + rewrite spawned_none by lia. cbn. lia.
  - intros _. rewrite length_app, length_insert. unfold live. rewrite sum_list_with_app. fold (live (<[i := Joined]> (tasks p))).
    destruct (decide (length (tasks p) < length items)%nat) as [Hlt|Hlt].
    + destruct (spawned (length (tasks p)) Hlt) as (it&_&->). cbn. intros _. specialize (Hmore Ho Hlt). lia.
    + rewrite spawned_none by lia. cbn. lia.
  - intros _. by apply Hitems.
  - done.
Qed.

Lemma join_err_ok i p e : pool_ok p → outcome p = None → tasks p !! i = Some (Ended (Err e)) →
  pool_ok {| cache := cache p; tasks := <[i := Joined]> (tasks p); completed := completed p; outcome := Some (Err e) |}.
Proof.
  intros [Hc Hslots Htasks Hrest Hlive Hmore Hitems Hout] Ho Ht.
  destruct (Htasks i _ Ht) as (item&slot&Hi&Hsl&[[[s Hs] ->]|[e' He]]); [|congruence].
  pose proof (live_insert _ _ _ Joined Ht) as Hl. unfold alive in Hl. cbn in Hl.
  split; cbn [cache tasks completed outcome]; [done|done| | |lia|done|done|].
  - intros j tj Hjt. destruct (decide (i = j)) as [<-|Hij].
    + exists item, None. split; [done|]. split; [done|]. right. by exists e.
    + rewrite list_lookup_insert_ne in Hjt by done. destruct (Htasks j tj Hjt) as (itj&sj&?&?&_).
      exists itj, sj. split; [done|]. split; [done|]. right. by exists e.
  - intros j. rewrite length_insert. apply Hrest.
  - exists item, s. split; [by eapply list_elem_of_lookup_2|done].
Qed.

Lemma all_joined ts : forallb is_joined ts = true ↔ live ts = 0%nat.
Proof.
  unfold live. rewrite sum_list_with_zero. induction ts as [|t ts IH]; cbn; [by split; [constructor|]|].
  rewrite andb_true_iff, IH, Forall_cons. unfold alive at 2. destruct (is_joined t); naive_solver.
Qed.

Lemma leave_ok p : pool_ok p → outcome p = None → forallb is_joined (tasks p) = true →
  pool_ok {| cache := cache p; tasks := tasks p; completed := completed p; outcome := Some (Ok (gathered (completed p))) |}.
Proof.
  intros [Hc Hslots Htasks Hrest Hlive Hmore Hitems Hout] Ho Hj.
  split; cbn [cache tasks completed outcome]; [done|done| |done|done|done|done|].
  - intros i t Ht. destruct (Htasks i t Ht) as (item&slot&?&?&[?|[? ?]]); [|congruence].
    exists item, slot. split; [done|]. split; [done|by left].
  - right. split.
    + destruct (decide (length (tasks p) < length items)%nat) as [Hlt|Hge].
      * exfalso. specialize (Hmore Ho Hlt). rewrite (proj1 (all_joined _) Hj) in Hmore. specialize (Hitems Ho).
        unfold width in Hmore. assert (length items ≠ 0)%nat by (by destruct items). lia.
      * destruct (decide (length (tasks p) = length items)) as [?|Hne]; [done|].
        destruct (lookup_lt_is_Some_2 (tasks p) (length items)) as [t Ht]; [lia|].
        destruct (Htasks _ _ Ht) as (it&?&Hit&_). apply lookup_lt_Some in Hit. lia.
    + by rewrite (proj1 (all_joined _) Hj).
Qed.

Lemma pool_step_ok l p p' : pool_ok p → pool_step fs store provider spec items l p = Some p' → pool_ok p'.
Proof.
  intros Hp Hs. destruct l as [i s|i|]; [by eapply work_ok| |]; unfold pool_step in Hs;
    destruct (outcome p) as [o|] eqn:Ho; try done.
  - destruct (tasks p !! i) as [[| |[c|e]|]|] eqn:Ht; try done; injection Hs as <-; [by apply join_ok_ok|by apply join_err_ok].
  - destruct (forallb is_joined (tasks p)) eqn:Hj; [|done]. injection Hs as <-. by apply leave_ok.
Qed.

Lemma run_pool_ok schedule p : pool_ok p → pool_ok (run_pool fs store provider spec items schedule p).
Proof.
  apply (run_machine_inv (pool_step fs store provider spec items) pool_ok). intros l q q'. apply pool_step_ok.
Qed.

(** ** The blocks of a batch *)
Lemma gathered_blocks (its : list IndexItem) (cs : list ConstructedBlocks) :
  Forall2 (λ item c, ∃ s, leaf_of item s = Ok c) its cs →
  Forall2 block_of_item its (built_blocks (gathered (Some <$> cs)))
  ∧ block_ids (gathered (Some <$> cs)) = ser_hash <$> built_blocks (gathered (Some <$> cs)).
Proof.
  unfold gathered. assert (omap id (Some <$> cs) = cs) as ->.
  { induction cs as [|c cs IH]; [done|]. cbn. by f_equal. }
  cbn [block_ids built_blocks].
  induction 1 as [|item c its cs (s&Hs) Hall [IH1 IH2]]; [by split; [constructor|]|].
  destruct (leaf_of_block _ _ _ Hs) as (ser&->&Hser). rewrite !fmap_cons, !concat_cons. cbn [block_ids built_blocks app].
  split; [by constructor|]. by rewrite fmap_cons, IH2.
Qed.

Lemma joined_slots p : pool_ok p → outcome p ≠ None → (∀ e, outcome p ≠ Some (Err e)) →
  length (tasks p) = length items → live (tasks p) = 0%nat →
  ∃ cs, completed p = Some <$> cs ∧ Forall2 (λ item c, ∃ s, leaf_of item s = Ok c) items cs.
Proof.
  intros [_ Hslots Htasks _ _ _ _ _] _ Herr Hlen Hlive.
  assert (∀ i item, items !! i = Some item → ∃ c, completed p !! i = Some (Some c) ∧ ∃ s, leaf_of item s = Ok c) as Hall.
  { intros i item Hi. destruct (lookup_lt_is_Some_2 (tasks p) i) as [t Ht]; [rewrite Hlen; by eapply lookup_lt_Some|].
    destruct (Htasks i t Ht) as (item'&slot&Hi'&Hsl&[Hok|[e He]]); [|by destruct (Herr e)]. simplify_eq.
    unfold live in Hlive. rewrite sum_list_with_zero, Forall_lookup in Hlive. specialize (Hlive i t Ht).
    destruct t; [done..|]. destruct Hok as (s&c&Hs&->). eauto. }
  clear Htasks Hlive Hlen Herr. revert Hslots Hall. generalize (completed p) as slots. generalize items as its.
  induction its as [|item its IH]; intros [|slot slots] Hl Hall; try done.
  { exists []. by split; [|constructor]. }
  destruct (IH slots) as (cs&->&Hcs); [cbn in Hl; lia|intros i it Hi; by apply (Hall (Datatypes.S i) it)|].
  destruct (Hall 0%nat item eq_refl) as (c&Hc&s&Hs). injection Hc as ->. exists (c :: cs). split; [done|].
  constructor; [by exists s|done].
Qed.

Lemma pool_result p r : pool_ok p → outcome p = Some r →
  match r with
  | Ok b => Forall2 block_of_item items (built_blocks b) ∧ block_ids b = ser_hash <$> built_blocks b
  | Err e => ∃ item s, item ∈ items ∧ leaf_of item s = Err e
  end.
Proof.
  intros Hp Ho. pose proof (ok_outcome _ Hp) as Hout. rewrite Ho in Hout. destruct r as [b|e]; [|done].
  destruct Hout as [[-> ->]|(Hlen&Hlive&->)]; [by split; [constructor|]|].
  destruct (joined_slots p Hp) as (cs&->&Hcs); [by rewrite Ho|by rewrite Ho|done|done|]. by apply gathered_blocks.
Qed.

(** C23. Building the leaf blocks of a batch concurrently: whatever the
    interleaving of the tasks, the order of the joins and the answers of the
    services, a batch that succeeds has exactly one block per item, in the order
    of the items, each holding the content that the item's reference has in the
    store, and the ids are the blocks' hashes; a batch that fails fails with
    the error of one of its items. *)
Theorem leaf_workers_sound c schedule r :
  coherent store c →
  outcome (build_leaf_blocks_concurrently fs store provider spec items max_concurrency c schedule) = Some r →
  match r with
  | Ok b => Forall2 block_of_item items (built_blocks b) ∧ block_ids b = ser_hash <$> built_blocks b
  | Err e => ∃ item s, item ∈ items ∧ leaf_of item s = Err e
  end.
Proof. intros Hc. apply pool_result, run_pool_ok, start_ok, Hc. Qed.

Lemma workers_coherent c schedule : coherent store c →
  coherent store (cache (build_leaf_blocks_concurrently fs store provider spec items max_concurrency c schedule)).
Proof. intros Hc. apply ok_cache, run_pool_ok, start_ok, Hc. Qed.

(** ** Bounds and progress *)
Definition task_rank (t : leaf_task S) : nat :=
  match t with Resolving st => rank st + 3 | Embedding _ => 2 | Ended _ => 1 | Joined => 0 end.
Definition pool_rank (p : pool S) : nat :=
  sum_list_with task_rank (tasks p) + 8 * (length items - length (tasks p))
  + match outcome p with None => 1 | Some _ => 0 end.

Lemma task_step_rank item s c t c' t' slot : coherent store c → task_ok item slot t →
  task_step store provider spec item s c t = Some (c', t') → (task_rank t' < task_rank t)%nat.
Proof.
  intros Hc Ht. destruct t as [st|content|r|]; cbn [task_step]; [| |done..]; [|by intros [= <- <-]; cbn; lia].
  destruct Ht as [Hst _]. destruct st as [| |chunks|chunks|[content|e]]; cbn in Hst; [| | | |by intros [= _ <-]; cbn; lia..];
    unfold resolve_item_step.
  1,2: destruct Hst as (r&i&->). 3,4: destruct Hst as (r&i&->&_).
  all: cbn [resolve_step]; repeat case_match; intros; simplify_eq; cbn; lia.
Qed.

Lemma spawn_rank n : (sum_list_with task_rank (spawn_leaf_block_task fs store items n) ≤ 7)%nat.
Proof.
  unfold spawn_leaf_block_task. destruct (items !! n) as [item|]; [|cbn; lia]. unfold start_resolve.
  destruct (item_content_ref item); cbn; lia.
Qed.

Lemma pool_step_rank l p p' : pool_ok p → pool_step fs store provider spec items l p = Some p' →
  (pool_rank p' < pool_rank p)%nat.
Proof.
  intros Hp Hs. unfold pool_step in Hs. unfold pool_rank. destruct (outcome p) as [o|] eqn:Ho; [done|].
  destruct l as [i s|i|].
  - destruct (items !! i) as [item|] eqn:Hi; [|done]. cbn [mbind option_bind] in Hs.
    destruct (tasks p !! i) as [t|] eqn:Ht; [|done]. cbn [mbind option_bind] in Hs.
    destruct (task_step store provider spec item s (cache p) t) as [[c' t']|] eqn:Hst; [|done].
    injection Hs as <-. cbn [tasks outcome]. destruct (ok_tasks _ Hp i t Ht) as (item0&slot&Hi0&Hsl&[Hok|[e He]]); [|congruence].
    rewrite Hi in Hi0. injection Hi0 as <-. pose proof (task_step_rank _ _ _ _ _ _ _ (ok_cache _ Hp) Hok Hst).
    pose proof (sum_list_with_insert task_rank (tasks p) i t t' Ht). rewrite length_insert. lia.
  - destruct (tasks p !! i) as [[| |[c|e]|]|] eqn:Ht; try done; injection Hs as <-; cbn [tasks outcome];
      pose proof (sum_list_with_insert task_rank (tasks p) i _ Joined Ht) as Hsum; cbn [task_rank] in Hsum.
    + rewrite length_app, length_insert, sum_list_with_app. pose proof (spawn_rank (length (tasks p))) as Hspawn.
      destruct (decide (length (tasks p) < length items)%nat) as [Hlt|Hge].
      * destruct (spawned _ Hlt) as (it&_&Hsp). rewrite Hsp in *. cbn [length] in *. lia.
      * rewrite spawned_none by lia. cbn. lia.
    + rewrite length_insert. lia.
  - destruct (forallb is_joined (tasks p)) eqn:Hj; [|done]. injection Hs as <-. cbn [tasks outcome]. lia.
Qed.

Definition no_services : services := {| local_service _ _ _ := NotSent ""; gateway_service _ _ := Err "" |}.

Lemma pool_progress p : pool_ok p → outcome p = None → ∃ l p', pool_step fs store provider spec items l p = Some p'.
Proof.
  intros Hp Ho. destruct (forallb is_joined (tasks p)) eqn:Hj.
  { exists Leave. unfold pool_step. rewrite Ho, Hj. eauto. }
  assert (∃ i t, tasks p !! i = Some t ∧ is_joined t = false) as (i&t&Ht&Hlive).
  { clear -Hj. induction (tasks p) as [|t ts IH]; [done|]. cbn in Hj. destruct (is_joined t) eqn:E.
    - destruct (IH Hj) as (i&t'&?&?). by exists (Datatypes.S i), t'.
    - by exists 0%nat, t. }
  destruct (ok_tasks _ Hp i t Ht) as (item&slot&Hi&_&_).
  destruct t as [st|content|[c|e]|]; [| | | |done].
  - destruct (task_step store provider spec item no_services (cache p) (Resolving st)) as [[c' t']|] eqn:Hst.
    + exists (Work i no_services). unfold pool_step. rewrite Ho, Hi, Ht. cbn [mbind option_bind]. rewrite Hst. cbn. eauto.
    + exfalso. cbn in Hst. destruct st as [| | | |[?|?]]; try done; by destruct (resolve_item_step _ _ _ _).
  - exists (Work i no_services). unfold pool_step. rewrite Ho, Hi, Ht. cbn. eauto.
  - exists (Join i). unfold pool_step. rewrite Ho, Ht. cbn. eauto.
  - exists (Join i). unfold pool_step. rewrite Ho, Ht. cbn. eauto.
Qed.

Lemma spawned_rank n k : (sum_list_with task_rank (seq k n ≫= spawn_leaf_block_task fs store items) ≤ 7 * n)%nat.
Proof.
  revert k. induction n as [|n IH]; intros k; [cbn; lia|]. cbn [seq]. rewrite bind_cons, sum_list_with_app.
  pose proof (spawn_rank k) as Hk. pose proof (IH (Datatypes.S k)) as Hn. unfold mbind in *. lia.
Qed.

(** At every moment of a batch at most [max_concurrency] tasks (at least one)
    are running; a batch takes at most eight steps per item and one more; and
    as long as it has not returned something can move. *)
Theorem leaf_workers_bounded c schedule :
  coherent store c →
  let p := build_leaf_blocks_concurrently fs store provider spec items max_concurrency c schedule in
  Z.of_nat (live (tasks p)) ≤ Z.max max_concurrency 1
  ∧ (moved (pool_step fs store provider spec items) schedule (start_pool fs store items max_concurrency c) ≤ 8 * length items + 1)%nat
  ∧ (outcome p = None → ∃ l p', pool_step fs store provider spec items l p = Some p').
Proof.
  intros Hc p. pose proof (start_ok c Hc) as Hs. assert (pool_ok p) as Hp by (by apply run_pool_ok).
  split_and!.
  - pose proof (ok_live _ Hp) as Hl. unfold width in Hl. lia.
  - etrans; [by apply (moved_rank _ pool_ok (λ l q q', pool_step_ok l q q') pool_rank (λ l q q', pool_step_rank l q q'))|]. unfold pool_rank, start_pool. cbn [tasks outcome]. fold width.
    destruct (started width) as (Hlen&_&Hall); [unfold width; lia|]. rewrite Hlen.
    pose proof (spawned_rank width 0).
    assert (width ≤ length items)%nat by (unfold width; lia). case_bool_decide; lia.
  - by apply pool_progress.
Qed.
End leaves.
