(* ===== verification/Ingest.v ===== *)
(** * Ingestion ([runtime.rs])

    The request's documents and mailboxes become items, in batches; a batch's
    leaf blocks are built concurrently ([LeafWorkers.v]), persisted, and recorded
    in the replay journal ([ReplayJournal.v]). The two drivers are the streaming
    one, [stream_request_ingestion_to_store], and [run_ingestion_only_stage],
    whose batches are prepared, sorted and cut beforehand. Progress messages are
    output and left out. The theorems are in [IngestSpec.v]. *)

From Stdlib Require Import ZArith Lia Ascii.
From stdpp Require Import base gmap sets strings sorting option list.
From S2P Require Import Prelude Hex Blocks Text Items SortKey Runtime ReplayJournal Mailbox Resolver Config Embedding LeafWorkers.
#[local] Open Scope Z_scope.

Definition INGESTION_ONLY_ROOT_ID_PLACEHOLDER : string :=
  "0000000000000000000000000000000000000000000000000000000000000000".
Definition placeholder_root_id : string := INGESTION_ONLY_ROOT_ID_PLACEHOLDER.

(** ** Summaries *)
Record BatchSummary := { root_id : string; block_count : Z; summary_block_ids : list string }.
Record StagedBlocks := { staged_ids : list block_hash; staged_blocks : list SerializedBlock }.
Definition no_staged : StagedBlocks := {| staged_ids := []; staged_blocks := [] |}.

Definition extend_constructed (staged : StagedBlocks) (constructed : ConstructedBlocks) : StagedBlocks :=
  {| staged_ids := staged_ids staged ++ block_ids constructed;
     staged_blocks := staged_blocks staged ++ built_blocks constructed |}.

Definition into_summary `{HashDisplay} (staged : StagedBlocks) (root_id : string) : BatchSummary :=
  let ids := sorted_block_ids (staged_ids staged) in
  {| root_id := root_id; block_count := len ids; summary_block_ids := ids |}.

(** ** Batches of items *)

(** [sort_by_key], which is stable: an insertion sort that puts an item before
    the equal ones that follow it. *)
Fixpoint insert_by {A} (cmp : A → A → comparison) (x : A) (l : list A) : list A :=
  match l with
  | [] => [x]
  | y :: l' => match cmp x y with Gt => y :: insert_by cmp x l' | _ => x :: l end
  end.
Definition sort_by {A} (cmp : A → A → comparison) (l : list A) : list A := foldr (insert_by cmp) [] l.

Definition item_cmp (a b : IndexItem) : comparison := key_cmp (replay_sort_key a) (replay_sort_key b).
Definition sort_replay_items (items : list IndexItem) : list IndexItem := sort_by item_cmp items.

Inductive SubmissionProgressKind := ProgressEmbedding | ProgressReplay.
Definition completion_message (kind : SubmissionProgressKind) (batch_number total_batches completed_items total_items : Z)
    : string :=
  (match kind with ProgressEmbedding => "Embedded batch " | ProgressReplay => "Submitted replay batch " end)
  +:+ fmt_usize batch_number +:+ " of " +:+ fmt_usize total_batches +:+ "; completed " +:+ fmt_usize completed_items
  +:+ " of " +:+ fmt_usize total_items +:+ " delegated item(s)".

Definition total_items_of (batches : list ReplayBatch) : Z := foldr (λ b n, len (batch_items b) + n) 0 batches.
Fixpoint annotate_from (kind : SubmissionProgressKind) (total_batches total_items batch_index completed_items : Z)
    (batches : list ReplayBatch) : list ReplayBatch :=
  match batches with
  | [] => []
  | batch :: batches =>
      let completed_items := completed_items + len (batch_items batch) in
      {| batch_items := batch_items batch; batch_records := batch_records batch;
         batch_message := Some (completion_message kind (batch_index + 1) total_batches completed_items total_items) |}
      :: annotate_from kind total_batches total_items (batch_index + 1) completed_items batches
  end.
Definition annotate_submission_progress_batches (batches : list ReplayBatch) (kind : SubmissionProgressKind) : list ReplayBatch :=
  annotate_from kind (len batches) (total_items_of batches) 0 0 batches.

Definition execution_stage_label (stage : ExecutionStage) : string :=
  match stage with
  | FullPipeline => "full-pipeline"
  | IngestionAndEmbedding => "ingestion-and-embedding"
  | ClusteringAndBlockAssembly => "clustering-and-block-assembly"
  end.

(** The display of a clustering profile's version is its crate's. *)
Class ProfileVersionText := profile_version_text : PublishedProfileVersion → string.
Definition mutable_ref_store_metadata `{ProfileVersionText} (stage : ExecutionStage) (clustering : ConfiguredClustering)
    : gmap string string :=
  <["profile_version" := profile_version_text (clustering_profile_version clustering)]>
    {["stage" := execution_stage_label stage]}.

(** ** The block store, for leaf blocks

    [put] of a version 1 block: a put block is found under the id it returns,
    and what was found stays found. *)
Class PutBlock (S : Type) `{BlockStore S} := put : Block → S → S * result (BlockStoreError S) block_hash.
Class PutBlockLaws (S : Type) `{PutBlock S} := {
  put_leaf_ok b s s' h : put b s = (s', Ok h) → get_decoded h s' = Ok (Some (DecodedV1 b));
  put_leaf_grows b s s' r : put b s = (s', r) → grows s s'
}.

(** The runtime's state with the resolver's cache of email chunks. *)
Record ingest_world (S R : Type) := { world_of : world S R; chunk_cache : EmailChunkCache }.
Arguments world_of {S R} _.
Arguments chunk_cache {S R} _.
Definition set_world {S R} (w : world S R) (y : ingest_world S R) : ingest_world S R :=
  {| world_of := w; chunk_cache := chunk_cache y |}.

(** How a batch runs: its schedule, and whether the interrupt flag is raised
    while the batch is awaited. *)
Record batch_schedule := { labels : list label; raised : bool }.

Section ingest.
Context {S R : Type} `{PutBlock S} `{MutableRefs R (BlockStoreError S)}.
Context `{Ciborium} `{BuildCustom} `{HashDisplay} `{MailParse} `{EmbeddingJson} `{HalfFloat} `{StatusText} `{LeafFormat}.
Abbreviation error := (IngestError (BlockStoreError S)).
Abbreviation ingest A := (stm (ingest_world S R) error A).

Definition on_world {A} (m : runtime S R A) : ingest A := λ y,
  let '(w, r) := m (world_of y) in (set_world w y, map_err Base r).
Definition on_blocks {A E} (f : E → error) (m : stm S E A) : ingest A := λ y,
  let '(b, r) := m (blocks (world_of y)) in (set_world (set_blocks b (world_of y)) y, map_err f r).

(** ** [persist_staged_blocks] *)
Definition persist_block (block : SerializedBlock) : ingest unit :=
  validated ← lift (map_err (DeserializeStagedBlock (hash_to_string (ser_hash block)))
                      (deserialize_block (ser_bytes block) (ser_hash block)));
  persisted ← on_blocks (λ e, Base (BlockStoreFailed e)) (put validated);
  lift (reject_if (bool_decide (persisted ≠ ser_hash block))
    (StagedBlockHashMismatch (hash_to_string (ser_hash block)) (hash_to_string persisted))).
Definition persist_staged_blocks (blocks : list SerializedBlock) : ingest unit := stm_iter persist_block blocks.

(** What a run is given: the files, the request's directory, the providers and
    the settings. [refs_metadata] is [None] when no ref store is configured. *)
Context (fs : files) (request_dir : string) (provider : ConfiguredEmbeddingProvider) (spec : EmbeddingSpec).
Context (max_concurrency : Z) (ref_metadata : option (gmap string string)).

(** The awaited batch. The interrupt is looked at first whenever the wait is
    polled, so it can win at any point of the batch. *)
Definition build_batch (batch_items : list IndexItem) (schedule : batch_schedule) : ingest ConstructedBlocks := λ y,
  let w := world_of y in
  let p := build_leaf_blocks_concurrently fs (blocks w) provider spec batch_items max_concurrency (chunk_cache y) (labels schedule) in
  let y' := {| world_of := w; chunk_cache := cache p |} in
  if raised schedule && is_some (signal w) then
    ({| world_of := set_signal (Some O) w; chunk_cache := cache p |}, Err (Base Interrupted))
  else match outcome p with
       | Some r => (y', r)
       | None => (y', Err StillRunning)
       end.

(** [batch_items.iter().zip(constructed.block_ids)], and the publication. *)
Definition batch_journal_records (batch_items : list IndexItem) (ids : list block_hash) : list ReplayJournalRecord :=
  (λ x, replay_journal_record_from_item x.2 x.1) <$> zip batch_items ids.
Definition publish_batch (batch_items : list IndexItem) (ids : list block_hash) : ingest unit :=
  match ref_metadata with
  | None => mret ()
  | Some metadata =>
      on_world (publish_replay_journal_and_mutable_refs (batch_journal_records batch_items ids) None (Some metadata))
  end.

Definition ingest_replay_batch_to_store (batch_items : list IndexItem) (schedule : batch_schedule) : ingest ConstructedBlocks :=
  constructed ← build_batch batch_items schedule;
  persist_staged_blocks (built_blocks constructed) ;;
  publish_batch batch_items (block_ids constructed) ;;
  mret constructed.

(** ** [stream_request_ingestion_to_store] *)
Record stream_vars := {
  buffered_items : list IndexItem;
  completed_items : Z;
  batch_number : Z;
  total_items : Z;
  staged : StagedBlocks
}.
Definition start_stream : stream_vars :=
  {| buffered_items := []; completed_items := 0; batch_number := 0; total_items := 0; staged := no_staged |}.
Definition chunk_size : Z := Z.max max_concurrency 1.

(** [schedules] gives the schedule of every batch by its number. *)
Context (schedules : Z → batch_schedule).

(** The batch that takes the buffer. *)
Definition flush_batch (v : stream_vars) : ingest stream_vars :=
  let batch_number := batch_number v + 1 in
  let batch_items := buffered_items v in
  constructed ← ingest_replay_batch_to_store batch_items (schedules batch_number);
  mret {| buffered_items := []; completed_items := completed_items v + len batch_items; batch_number := batch_number;
          total_items := total_items v; staged := extend_constructed (staged v) constructed |}.

Definition push_item (v : stream_vars) (item : IndexItem) : ingest stream_vars :=
  on_world check_for_interrupt ;;
  let v := {| buffered_items := buffered_items v ++ [item]; completed_items := completed_items v;
              batch_number := batch_number v; total_items := total_items v + 1; staged := staged v |} in
  if len (buffered_items v) <? chunk_size then mret v else flush_batch v.

(** [expand_mailbox_item_with_stats], with an empty mailbox as [None]. *)
Definition expand_request_mailbox (path : string) (metadata : gmap string string) : ingest (option MailboxExpansion) := λ y,
  let resolved := resolve_path request_dir path in
  match expand_mailbox_item_with_stats fs resolved metadata (blocks (world_of y)) with
  | (b, Ok expansion) => (set_world (set_blocks b (world_of y)) y, Ok (Some expansion))
  | (b, Err (EmptyMailbox _)) => (set_world (set_blocks b (world_of y)) y, Ok None)
  | (b, Err error) => (set_world (set_blocks b (world_of y)) y, Err (MailboxError error))
  end.

(** One iteration over the request's items. *)
Definition stream_request_item (v : stream_vars) (item : BatchItemConfig) : ingest stream_vars :=
  on_world check_for_interrupt ;;
  match item with
  | Mailbox path metadata =>
      expansion ← expand_request_mailbox path metadata;
      match expansion with
      | None => mret v
      | Some expansion => stm_foldl push_item v (items expansion)
      end
  | Document _ _ => mret v
  end.

Definition stream_request_ingestion_to_store (request_items : list BatchItemConfig) : ingest stream_vars :=
  v ← stm_foldl push_item start_stream (to_document_index_items request_dir request_items);
  v ← stm_foldl stream_request_item v request_items;
  if bool_decide (buffered_items v = []) then mret v else flush_batch v.

(** ** [for_each_request_replay_item] and the prepared batches *)
Section visit.
Context {V : Type} (visit : V → IndexItem → ingest V).
Definition visit_item (v : V * Z) (item : IndexItem) : ingest (V * Z) :=
  on_world check_for_interrupt ;;
  v' ← visit v.1 item;
  mret (v', v.2 + 1).
Definition visit_request_item (v : V * Z) (item : BatchItemConfig) : ingest (V * Z) :=
  on_world check_for_interrupt ;;
  match item with
  | Mailbox path metadata =>
      expansion ← expand_request_mailbox path metadata;
      match expansion with
      | None => mret v
      | Some expansion => stm_foldl visit_item v (items expansion)
      end
  | Document _ _ => mret v
  end.
Definition for_each_request_replay_item (v : V) (request_items : list BatchItemConfig) : ingest (V * Z) :=
  v ← stm_foldl visit_item (v, 0) (to_document_index_items request_dir request_items);
  stm_foldl visit_request_item v request_items.
End visit.

Definition prepare_request_replay_batches (request_items : list BatchItemConfig) : ingest (list ReplayBatch) :=
  '(collected, _) ← for_each_request_replay_item (λ items item, mret (items ++ [item])) [] request_items;
  mret (annotate_submission_progress_batches (chunk_replay_items (sort_replay_items collected) max_concurrency)
          ProgressEmbedding).

(** ** [run_ingestion_only_stage]

    [completed_items] only feeds messages. *)
Definition ingest_prepared_batch (v : StagedBlocks * Z) (batch : ReplayBatch) : ingest (StagedBlocks * Z) :=
  let batch_number := v.2 + 1 in
  on_world check_for_interrupt ;;
  constructed ← build_batch (batch_items batch) (schedules batch_number);
  persist_staged_blocks (built_blocks constructed) ;;
  publish_batch (batch_items batch) (block_ids constructed) ;;
  mret (extend_constructed v.1 constructed, batch_number).

Definition run_ingestion_only_stage (replay_batches : list ReplayBatch) : ingest BatchSummary :=
  '(staged, _) ← stm_foldl ingest_prepared_batch (no_staged, 0) replay_batches;
  mret (into_summary staged placeholder_root_id).

(** [run_ingestion_and_embedding], the stage without [root] publication *)
Definition run_ingestion_and_embedding (request_items : list BatchItemConfig) : ingest BatchSummary :=
  replay_batches ← prepare_request_replay_batches request_items;
  run_ingestion_only_stage replay_batches.
End ingest.
