(* ===== verification/IngestSpec.v ===== *)
(** * Theorems of ingestion

    The replay journal only ever grows by the records of items whose blocks are
    in the store: whatever interrupts, failures and interleavings happen, the
    journal holds its old records followed by the records of the first batches
    of the request, and all of them after a success. *)

From Stdlib Require Import ZArith Lia Ascii.
From stdpp Require Import base gmap sets strings sorting option list.
From S2P Require Import Prelude Hex Blocks Text Runtime ReplayJournal ReplayJournalSpec Items SortKey Mailbox Resolver MailboxSpec Config Embedding LeafWorkers LeafWorkersSpec Ingest.
#[local] Open Scope Z_scope.

Section ingest.
Context {S R : Type} `{PutBlock S, !BlockStoreLaws S, !PutBlockLaws S} `{MutableRefs R (BlockStoreError S), !MutableRefsLaws R (BlockStoreError S)}.
Context `{CiboriumLaws} `{BuildCustomLaws} `{HashDisplayLaws} `{MailParse}.
Context `{EmbeddingJson} `{HalfFloat} `{StatusText} `{LeafFormatLaws}.
Context (fs : files) (request_dir : string) (provider : ConfiguredEmbeddingProvider) (spec : EmbeddingSpec).
Context (max_concurrency : Z) (metadata : gmap string string) (schedules : Z → batch_schedule).
Abbreviation error := (IngestError (BlockStoreError S)).
Abbreviation iworld := (ingest_world S R).

(** ** Stored leaves *)

(** The store holds, under [h], the leaf block of the item: one entry with the
    item's metadata, the content that the item's reference has and an embedding
    that the provider returned for it. *)
Definition stored_leaf (s : S) (item : IndexItem) (h : block_hash) : Prop :=
  hash_ok h ∧ ∃ leaf entry,
    get_decoded h s = Ok (Some (DecodedV1 (BLeaf leaf)))
    ∧ lb_level leaf = 0 ∧ lb_spec leaf = spec ∧ lb_entries leaf = [entry] ∧ le_metadata entry = item_metadata item
    ∧ (∃ sv, embed provider (embedding_input (le_content entry)) spec sv = Ok (le_embedding entry))
    ∧ item_content fs s item = Ok (le_content entry).

Lemma item_content_grows s s' item c : grows s s' → item_content fs s item = Ok c → item_content fs s' item = Ok c.
Proof.
  intros Hg. unfold item_content. destruct (item_content_ref item); try done.
  intros (chunks&Hl&Hp)%result_bind_ok. by rewrite (load_grows _ _ _ _ Hg Hl).
Qed.

Lemma stored_leaf_grows s s' item h : grows s s' → stored_leaf s item h → stored_leaf s' item h.
Proof.
  intros Hg (Hh&leaf&entry&Hget&?&?&?&?&?&Hc). split; [done|]. exists leaf, entry. split_and!; try done; [by apply Hg|].
  by eapply item_content_grows.
Qed.

Definition journaled (s : S) (item : IndexItem) (r : ReplayJournalRecord) : Prop :=
  ∃ h, r = replay_journal_record_from_item h item ∧ stored_leaf s item h.

Lemma journaled_grows s s' its rs : grows s s' → Forall2 (journaled s) its rs → Forall2 (journaled s') its rs.
Proof. intros Hg Hall. eapply Forall2_impl; [exact Hall|]. intros item r (h&->&?). exists h. split; [done|by eapply stored_leaf_grows]. Qed.

(** ** Persisting *)
Lemma persist_block_spec ser (y y' : iworld) r : persist_block ser y = (y', r) →
  chunk_cache y' = chunk_cache y ∧ refs (world_of y') = refs (world_of y)
  ∧ grows (blocks (world_of y)) (blocks (world_of y'))
  ∧ (∀ u b, r = Ok u → serialize_block b = Ok ser →
       get_decoded (ser_hash ser) (blocks (world_of y')) = Ok (Some (DecodedV1 b))).
Proof.
  unfold persist_block, mbind, stm_bind, lift.
  destruct (deserialize_block (ser_bytes ser) (ser_hash ser)) as [v|e] eqn:Hd; cbn [map_err];
    [|by intros [= <- <-]].
  unfold on_blocks. destruct (put v (blocks (world_of y))) as [b' rp] eqn:Hp.
  pose proof (put_leaf_grows _ _ _ _ Hp) as Hg.
  destruct rp as [h|e]; cbn [map_err]; [|by intros [= <- <-]]. intros [= <- <-]. split_and!; try done.
  intros u b Hok Hser. apply reject_if_ok, bool_decide_eq_false, dec_stable in Hok. subst h.
  rewrite (deserialize_serialize _ _ Hser) in Hd. injection Hd as <-. by apply put_leaf_ok in Hp.
Qed.

Lemma persist_blocks_spec sers (y y' : iworld) r : persist_staged_blocks sers y = (y', r) →
  chunk_cache y' = chunk_cache y ∧ refs (world_of y') = refs (world_of y)
  ∧ grows (blocks (world_of y)) (blocks (world_of y'))
  ∧ (∀ u, r = Ok u → ∀ ser b, ser ∈ sers → serialize_block b = Ok ser →
       get_decoded (ser_hash ser) (blocks (world_of y')) = Ok (Some (DecodedV1 b))).
Proof.
  unfold persist_staged_blocks. revert y. induction sers as [|ser sers IH]; intros y; cbn [stm_iter].
  { intros [= <- <-]. split_and!; [done|done|reflexivity|]. by intros ???? ?%not_elem_of_nil. }
  unfold mbind at 1, stm_bind at 1. destruct (persist_block ser y) as [y1 [u1|e1]] eqn:Hp1;
    destruct (persist_block_spec _ _ _ _ Hp1) as (Hc1&Hr1&Hg1&Hok1); [|by intros [= <- <-]].
  intros Hrest. destruct (IH _ Hrest) as (Hc&Hr&Hg&Hok).
  split_and!; [congruence|congruence|by etrans|].
  intros u Hu s b [->|Hin]%elem_of_cons Hser; [apply Hg; by eapply Hok1|by eapply Hok].
Qed.

Lemma block_stored s s' item ser : grows s s' → block_of_item fs s provider spec item ser →
  (∀ b, serialize_block b = Ok ser → get_decoded (ser_hash ser) s' = Ok (Some (DecodedV1 b))) →
  stored_leaf s' item (ser_hash ser).
Proof.
  intros Hg (content&sv&embedding&leaf&Hc&Hemb&Hleaf&Hser) Hget. split; [by eapply serialize_hash|].
  destruct (build_leaf_fields _ _ _ Hleaf) as (Hlevel&Hspec&Hentries).
  eexists leaf, _. split_and!; [by apply Hget|done|done|done|done|by exists sv|]. by eapply item_content_grows.
Qed.

(** ** The invariant of a run *)

(** [l] is the journal before the run and [its] the items recorded since; the
    journal is told of as long as the refs are intact. *)
Record run_ok (y0 : iworld) (l : list ReplayJournalRecord) (its : list IndexItem) (y : iworld) : Prop := {
  run_grows : grows (blocks (world_of y0)) (blocks (world_of y));
  run_cache : coherent (blocks (world_of y)) (chunk_cache y);
  run_journal : intact (refs (world_of y)) = true →
    ∃ new, journal_of (world_of y) (l ++ new) ∧ Forall2 (journaled (blocks (world_of y))) its new
}.

Lemma run_ok_grows y0 l its y y' : run_ok y0 l its y →
  refs (world_of y') = refs (world_of y) → grows (blocks (world_of y)) (blocks (world_of y')) →
  coherent (blocks (world_of y')) (chunk_cache y') → run_ok y0 l its y'.
Proof.
  intros [Hg Hc Hn] Hr Hg' Hc'. split; [by etrans|done|]. rewrite Hr. intros Hi. destruct (Hn Hi) as (new&Hj&Hnew). exists new.
  split; [eapply journal_grows; [by rewrite Hr|done|done]|by eapply journaled_grows].
Qed.

Lemma poll_keeps y0 l its y : run_ok y0 l its y → run_ok y0 l its (on_world check_for_interrupt y).1.
Proof.
  intros Hy. unfold on_world, check_for_interrupt. destruct (is_interrupt_requested (world_of y)); cbn;
    (eapply run_ok_grows; [exact Hy|done|by intros ???|apply Hy]).
Qed.

(** *** Expansion *)
Lemma store_artifact_grows_any path mt data (s : S) : grows s (store_artifact_block path mt data s).1.
Proof.
  unfold store_artifact_block. apply stm_bind_inv; [apply _|reflexivity|]. intros t s1.
  apply stm_bind_inv; [apply _|reflexivity|]. intros b s2. unfold map_err_stm.
  destruct (put_versioned b s2) as [s3 r] eqn:Hp. by eapply put_grows.
Qed.

Lemma expand_grows path md (s : S) : grows s (expand_mailbox_item_with_stats fs path md s).1.
Proof.
  unfold expand_mailbox_item_with_stats.
  apply stm_bind_inv; [apply _|reflexivity|]. intros _ s1.
  apply stm_bind_inv; [apply _|reflexivity|]. intros raw s2.
  apply stm_bind_inv; [apply _|reflexivity|]. intros _ s3.
  apply stm_bind_inv; [apply _|apply store_artifact_grows_any|]. intros h s4.
  apply stm_bind_inv; [apply _| |intros its s5; reflexivity].
  apply stm_foldl_inv; [apply _|]. intros acc m s5. unfold expand_message.
  apply stm_bind_inv; [apply _|reflexivity|]. intros parsed s6.
  apply stm_bind_inv; [apply _|reflexivity|]. intros data s7.
  apply stm_bind_inv; [apply _|apply store_artifact_grows_any|]. intros h' s8. reflexivity.
Qed.

Lemma expand_keeps y0 l its path md y : run_ok y0 l its y →
  run_ok y0 l its (expand_request_mailbox fs request_dir path md y).1.
Proof.
  intros Hy. unfold expand_request_mailbox.
  pose proof (expand_grows (resolve_path request_dir path) md (blocks (world_of y))) as Hg.
  destruct (expand_mailbox_item_with_stats _ _ _ _) as [b r]. cbn [fst] in Hg.
  assert (run_ok y0 l its (set_world (set_blocks b (world_of y)) y)) as Hok.
  { eapply run_ok_grows; [exact Hy|done|done|]. eapply coherent_grows; [exact Hg|apply Hy]. }
  destruct r as [ex|[]]; done.
Qed.

(** *** A batch *)
Lemma build_batch_spec y0 l its batch sched y y' r : run_ok y0 l its y →
  build_batch fs provider spec max_concurrency batch sched y = (y', r) →
  run_ok y0 l its y' ∧ blocks (world_of y') = blocks (world_of y)
  ∧ (∀ c, r = Ok c → Forall2 (block_of_item fs (blocks (world_of y)) provider spec) batch (built_blocks c)
        ∧ block_ids c = ser_hash <$> built_blocks c).
Proof.
  intros Hy. unfold build_batch. set (p := build_leaf_blocks_concurrently _ _ _ _ _ _ _ _).
  pose proof (run_cache _ _ _ _ Hy) as Hc.
  assert (coherent (blocks (world_of y)) (cache p)) as Hp by (by apply workers_coherent).
  destruct (raised sched && is_some (signal (world_of y))).
  { intros [= <- <-]. split; [eapply run_ok_grows; [exact Hy|done|by intros ???|done]|]. by split. }
  destruct (outcome p) as [rp|] eqn:Ho; intros [= <- <-];
    (split; [eapply run_ok_grows; [exact Hy|done|by intros ???|done]|]); (split; [done|]); [|done].
  intros c ->. pose proof (pool_result fs (blocks (world_of y)) provider spec batch max_concurrency p (Ok c)) as Hres.
  apply Hres; [|done]. by apply run_pool_ok, start_ok.
Qed.

Definition blocks_grow (w w' : world S R) : Prop := grows (blocks w) (blocks w').
#[local] Instance blocks_grow_preorder : PreOrder blocks_grow.
Proof. unfold blocks_grow. split; [intros w; reflexivity|intros w1 w2 w3 ??; by etrans]. Qed.

Lemma publish_grows records root md (w : world S R) :
  blocks_grow w (publish_replay_journal_and_mutable_refs records root md w).1.
Proof.
  unfold publish_replay_journal_and_mutable_refs.
  apply stm_bind_inv; [apply _|apply interrupt_extends|]. intros _ w1.
  apply stm_bind_inv; [apply _|apply append_keeps|]. intros hd w2.
  apply stm_bind_inv; [apply _|apply interrupt_extends|]. intros _ w3. unfold blocks_grow. by rewrite update_grows.
Qed.

(** What the Rust types guarantee of an item's texts. *)
Definition item_ok (item : IndexItem) : Prop :=
  list_ok (λ p, text_ok p.1 && text_ok p.2) (btree_pairs (metadata_to_text_map (item_metadata item))) = true
  ∧ content_ref_ok (journal_content_ref (item_content_ref item)) = true.

Lemma item_records_ok batch ids : Forall item_ok batch → Forall hash_ok ids → len batch < 2 ^ 64 →
  list_ok record_ok (batch_journal_records batch ids) = true.
Proof.
  intros Hb Hids Hlen. unfold list_ok, batch_journal_records. apply andb_true_iff. split.
  - apply Z.ltb_lt. unfold len in *. rewrite length_fmap, length_zip. lia.
  - apply forallb_forall. intros r ([item h]&->&Hin)%list_elem_of_In%list_elem_of_fmap.
    apply elem_of_zip_l in Hin as Hi. apply elem_of_zip_r in Hin as Hh.
    rewrite Forall_forall in Hb. rewrite Forall_forall in Hids. destruct (Hb _ Hi) as [Hmd Hc]. cbn -[list_ok].
    rewrite Hmd, Hc, text_ok_hash by auto. done.
Qed.

Lemma batch_journaled s batch ids : Forall2 (stored_leaf s) batch ids →
  Forall2 (journaled s) batch (batch_journal_records batch ids).
Proof.
  unfold batch_journal_records. induction 1 as [|item h batch ids Hs Hall IH]; [constructor|]. cbn. constructor; [|done].
  by exists h.
Qed.

(** The three parts of a batch, which both drivers run in this order. *)
Lemma batch_spec y0 l its batch sched y y' r : run_ok y0 l its y → Forall item_ok batch → len batch < 2 ^ 64 →
  (constructed ← build_batch fs provider spec max_concurrency batch sched;
   persist_staged_blocks (built_blocks constructed) ;;
   publish_batch (Some metadata) batch (block_ids constructed) ;;
   mret constructed) y = (y', r) →
  match r with
  | Ok c => run_ok y0 l (its ++ batch) y' ∧ Forall2 (stored_leaf (blocks (world_of y'))) batch (block_ids c)
  | Err _ => run_ok y0 l its y' ∨ run_ok y0 l (its ++ batch) y'
  end.
Proof.
  intros Hy Hok Hlen. unfold mbind at 1, stm_bind at 1.
  destruct (build_batch fs provider spec max_concurrency batch sched y) as [y1 [c|e]] eqn:Hb;
    destruct (build_batch_spec _ _ _ _ _ _ _ _ Hy Hb) as (Hy1&Hsame&Hbuilt); [|intros [= <- <-]; by left].
  destruct (Hbuilt c eq_refl) as [Hblocks Hids]. unfold mbind at 1, stm_bind at 1.
  destruct (persist_staged_blocks (built_blocks c) y1) as [y2 [u|e]] eqn:Hp;
    destruct (persist_blocks_spec _ _ _ _ Hp) as (Hc2&Hr2&Hg2&Hstored).
  2:{ intros [= <- <-]. left. eapply run_ok_grows; [exact Hy1|done|done|].
      rewrite Hc2. eapply coherent_grows; [exact Hg2|apply Hy1]. }
  assert (run_ok y0 l its y2) as Hy2.
  { eapply run_ok_grows; [exact Hy1|done|done|]. rewrite Hc2. eapply coherent_grows; [exact Hg2|apply Hy1]. }
  assert (Forall2 (stored_leaf (blocks (world_of y2))) batch (block_ids c)) as Hleaves.
  { rewrite Hids. apply Forall2_fmap_r, Forall2_same_length_lookup_2; [by eapply Forall2_length|].
    intros i item ser Hi Hs. pose proof (Forall2_lookup_lr _ _ _ _ _ _ Hblocks Hi Hs) as Hblock.
    eapply block_stored; [|exact Hblock|]; [by rewrite <-Hsame|].
    intros b Hser. eapply Hstored; [done|by eapply list_elem_of_lookup_2|done]. }
  unfold mbind, stm_bind, publish_batch, on_world.
  pose proof (publish_grows (batch_journal_records batch (block_ids c)) None (Some metadata) (world_of y2)) as Hg3.
  destruct (publish_replay_journal_and_mutable_refs (batch_journal_records batch (block_ids c)) None (Some metadata) (world_of y2))
    as [w3 r3] eqn:Hpub. cbn [fst] in Hg3.
  assert (list_ok record_ok (batch_journal_records batch (block_ids c)) = true) as Hrec.
  { apply item_records_ok; [done| |done]. by eapply Forall2_Forall_r; [exact Hleaves|]; apply Forall_true; intros ?? []. }
  pose proof (publish_intact (batch_journal_records batch (block_ids c)) None (Some metadata) (world_of y2)) as Hint.
  rewrite Hpub in Hint. cbn [fst] in Hint. set (y3 := set_world w3 y2).
  assert (∀ its', (intact (refs w3) = true → ∃ new, journal_of w3 (l ++ new) ∧ Forall2 (journaled (blocks w3)) its' new) →
    run_ok y0 l its' y3) as Hrun.
  { intros its' Hj'. split; cbn; [etrans; [apply Hy2|exact Hg3]| |done]. eapply coherent_grows; [exact Hg3|apply Hy2]. }
  assert (Forall2 (stored_leaf (blocks w3)) batch (block_ids c)) as Hleaves3.
  { eapply Forall2_impl; [exact Hleaves|]. intros ??. by apply stored_leaf_grows. }
  destruct (intact (refs w3)) eqn:Hi.
  2:{ assert (∀ its', run_ok y0 l its' y3) as Hany by (intros its'; by apply Hrun).
      destruct r3; cbn; intros [= <- <-]; [by split|by left]. }
  destruct (run_journal _ _ _ _ Hy2 (Hint eq_refl)) as (new&Hj&Hnew).
  pose proof (publish_outcome _ _ _ _ _ _ _ Hrec Hj Hi Hpub) as Hout.
  assert (journal_of w3 (l ++ new) → run_ok y0 l its y3) as Hold.
  { intros Hj'. apply Hrun. intros _. exists new. split; [done|]. by eapply journaled_grows. }
  assert (journal_of w3 ((l ++ new) ++ batch_journal_records batch (block_ids c)) → run_ok y0 l (its ++ batch) y3) as Hnew3.
  { intros Hj'. apply Hrun. intros _. exists (new ++ batch_journal_records batch (block_ids c)). rewrite app_assoc. split; [done|].
    apply Forall2_app; [by eapply journaled_grows|by apply batch_journaled]. }
  destruct r3 as [u3|e3]; cbn; intros [= <- <-].
  - split; [by apply Hnew3|done].
  - destruct Hout; [left|right]; auto.
Qed.

(** ** The items of a request *)
Definition expansion_of (item : BatchItemConfig) (ex : list IndexItem) : Prop :=
  match item with
  | Document _ _ => ex = []
  | Mailbox path md => ∃ s s' r, expand_mailbox_item_with_stats (S:=S) fs (resolve_path request_dir path) md s = (s', r)
      ∧ match r with Ok e => ex = items e | Err (EmptyMailbox _) => ex = [] | Err _ => False end
  end.

Lemma expand_request_ok path md (y y' : iworld) o : expand_request_mailbox fs request_dir path md y = (y', Ok o) →
  expansion_of (Mailbox path md) (from_option items [] o).
Proof.
  unfold expand_request_mailbox. destruct (expand_mailbox_item_with_stats _ _ _ _) as [b r] eqn:He.
  intros Hr. exists (blocks (world_of y)), b, r. split; [done|]. destruct r as [ex|[]]; by simplify_eq.
Qed.

(** ** Streaming *)
Section streaming.
Context (chunk_max : max_concurrency ≤ usize_max).
Context (y0 : iworld) (l : list ReplayJournalRecord).

Record stream_ok (pushed : list IndexItem) (v : stream_vars) (y : iworld) (its : list IndexItem) : Prop := {
  stream_run : run_ok y0 l its y;
  stream_pushed : pushed = its ++ buffered_items v;
  stream_items : Forall item_ok pushed;
  stream_counts : total_items v = len pushed ∧ completed_items v = len its
}.

(** After a failure, whole batches have been recorded. *)
Definition stopped (pushed : list IndexItem) (y : iworld) : Prop := ∃ its, run_ok y0 l its y ∧ its `prefix_of` pushed.

Lemma stopped_app pushed more y : stopped pushed y → stopped (pushed ++ more) y.
Proof. intros (its&?&?). exists its. split; [done|]. by apply prefix_app_r. Qed.

Lemma stream_stopped pushed v y its : stream_ok pushed v y its → stopped pushed y.
Proof. intros [Hrun -> _ _]. exists its. split; [done|]. by eexists. Qed.

Lemma chunk_bound (v : stream_vars) : len (buffered_items v) ≤ chunk_size max_concurrency → len (buffered_items v) < 2 ^ 64.
Proof. unfold chunk_size, usize_max in *. lia. Qed.

Lemma flush_batch_spec pushed v y its y' r : stream_ok pushed v y its → len (buffered_items v) ≤ chunk_size max_concurrency →
  flush_batch fs provider spec max_concurrency (Some metadata) schedules v y = (y', r) →
  match r with
  | Ok v' => stream_ok pushed v' y' pushed ∧ buffered_items v' = []
  | Err _ => stopped pushed y'
  end.
Proof.
  intros [Hrun Hp Hok [Ht Hc]] Hlen. unfold flush_batch. unfold mbind at 1, stm_bind at 1.
  destruct (ingest_replay_batch_to_store _ _ _ _ _ _ _ y) as [y1 rb] eqn:Hb.
  apply (batch_spec y0 l its) in Hb; [|done|rewrite Hp in Hok; by apply Forall_app in Hok as [_ ?]|by apply chunk_bound].
  destruct rb as [c|e].
  - intros [= <- <-]. destruct Hb as [Hb _]. split; [|done]. split; cbn [buffered_items completed_items total_items].
    + by rewrite Hp.
    + by rewrite app_nil_r.
    + done.
    + split; [done|]. rewrite Hc, Hp, len_app. done.
  - intros [= <- <-]. destruct Hb as [Hb|Hb]; eexists; (split; [exact Hb|]); rewrite Hp; [by eexists|done].
Qed.

Lemma push_item_spec pushed v y its item y' r : stream_ok pushed v y its → len (buffered_items v) < chunk_size max_concurrency →
  item_ok item →
  push_item fs provider spec max_concurrency (Some metadata) schedules v item y = (y', r) →
  match r with
  | Ok v' => (∃ its', stream_ok (pushed ++ [item]) v' y' its') ∧ len (buffered_items v') < chunk_size max_concurrency
  | Err _ => stopped (pushed ++ [item]) y'
  end.
Proof.
  intros Hst Hlen Hitem. pose proof Hst as [Hrun Hp Hok [Ht Hc]]. unfold push_item.
  unfold mbind at 1, stm_bind at 1. pose proof (poll_keeps _ _ _ _ Hrun) as Hrun1.
  destruct (on_world check_for_interrupt y) as [y1 [u|e]]; cbn [fst] in Hrun1.
  2:{ intros [= <- <-]. apply stopped_app. exists its. split; [done|]. rewrite Hp. by eexists. }
  set (v1 := Build_stream_vars _ _ _ _ _).
  assert (stream_ok (pushed ++ [item]) v1 y1 its) as Hst1.
  { split; cbn; [done|by rewrite Hp, app_assoc|by apply Forall_app_2; [|constructor]|].
    split; [rewrite Ht, len_app, len_cons, len_nil; lia|done]. }
  assert (len (buffered_items v1) = len (buffered_items v) + 1) as Hlen1 by (cbn; rewrite len_app, len_cons, len_nil; lia).
  destruct (len (buffered_items v1) <? chunk_size max_concurrency) eqn:Hc1.
  - intros [= <- <-]. apply Z.ltb_lt in Hc1. split; [by exists its|done].
  - intros Hf. eapply flush_batch_spec in Hf; [|exact Hst1|lia]. destruct r as [v'|e]; [|done].
    destruct Hf as [Hf Hnil]. split; [by eexists|]. rewrite Hnil, len_nil. unfold chunk_size. lia.
Qed.

Lemma push_items_spec new pushed v y its y' r : stream_ok pushed v y its → len (buffered_items v) < chunk_size max_concurrency →
  Forall item_ok new →
  stm_foldl (push_item fs provider spec max_concurrency (Some metadata) schedules) v new y = (y', r) →
  match r with
  | Ok v' => (∃ its', stream_ok (pushed ++ new) v' y' its') ∧ len (buffered_items v') < chunk_size max_concurrency
  | Err _ => stopped (pushed ++ new) y'
  end.
Proof.
  revert pushed v y its. induction new as [|item new IH]; intros pushed v y its Hst Hlen Hnew; cbn [stm_foldl].
  { intros [= <- <-]. rewrite app_nil_r. split; [by exists its|done]. }
  apply Forall_cons in Hnew as [Hitem Hnew]. unfold mbind at 1, stm_bind at 1.
  destruct (push_item fs provider spec max_concurrency (Some metadata) schedules v item y) as [y1 [v1|e]] eqn:Hp;
    apply (push_item_spec pushed _ _ its) in Hp; try done.
  - destruct Hp as [(its1&Hst1) Hlen1]. intros Hrest.
    specialize (IH (pushed ++ [item]) _ _ _ Hst1 Hlen1 Hnew Hrest). by rewrite <-app_assoc in IH.
  - intros [= <- <-]. replace (pushed ++ item :: new) with ((pushed ++ [item]) ++ new) by (by rewrite <-app_assoc).
    by apply stopped_app.
Qed.

Lemma request_item_spec item pushed v y its y' r : stream_ok pushed v y its → len (buffered_items v) < chunk_size max_concurrency →
  (∀ ex, expansion_of item ex → Forall item_ok ex) →
  stream_request_item fs request_dir provider spec max_concurrency (Some metadata) schedules v item y = (y', r) →
  match r with
  | Ok v' => ∃ ex, expansion_of item ex ∧ (∃ its', stream_ok (pushed ++ ex) v' y' its')
      ∧ len (buffered_items v') < chunk_size max_concurrency
  | Err _ => stopped pushed y' ∨ ∃ ex, expansion_of item ex ∧ stopped (pushed ++ ex) y'
  end.
Proof.
  intros Hst Hlen Hex. unfold stream_request_item. unfold mbind at 1, stm_bind at 1.
  pose proof (poll_keeps _ _ _ _ (stream_run _ _ _ _ Hst)) as Hrun1.
  destruct (on_world check_for_interrupt y) as [y1 [u|e]]; cbn [fst] in Hrun1.
  2:{ intros [= <- <-]. left. exists its. split; [done|]. rewrite (stream_pushed _ _ _ _ Hst). by eexists. }
  assert (stream_ok pushed v y1 its) as Hst1 by (destruct Hst; by split).
  destruct item as [path md|path md].
  - unfold mbind at 1, stm_bind at 1.
    pose proof (expand_keeps y0 l its path md y1 Hrun1) as Hrun2.
    destruct (expand_request_mailbox fs request_dir path md y1) as [y2 [o|e]] eqn:He; cbn [fst] in Hrun2.
    2:{ intros [= <- <-]. left. exists its. split; [done|]. rewrite (stream_pushed _ _ _ _ Hst). by eexists. }
    apply expand_request_ok in He. assert (stream_ok pushed v y2 its) as Hst2 by (destruct Hst1; by split).
    destruct o as [ex|]; cbn [from_option] in He.
    + intros Hpush. apply (push_items_spec _ pushed _ _ its) in Hpush; [|done..|by apply Hex].
      destruct r as [v'|e]; [by exists (items ex)|right; by exists (items ex)].
    + intros [= <- <-]. exists []. rewrite app_nil_r. split; [done|]. split; [by exists its|done].
  - intros [= <- <-]. exists []. rewrite app_nil_r. split; [done|]. split; [by exists its|done].
Qed.

Lemma request_items_spec request pushed v y its y' r : stream_ok pushed v y its →
  len (buffered_items v) < chunk_size max_concurrency →
  (∀ item ex, item ∈ request → expansion_of item ex → Forall item_ok ex) →
  stm_foldl (stream_request_item fs request_dir provider spec max_concurrency (Some metadata) schedules) v request y = (y', r) →
  match r with
  | Ok v' => ∃ exs, Forall2 expansion_of request exs ∧ (∃ its', stream_ok (pushed ++ concat exs) v' y' its')
      ∧ len (buffered_items v') < chunk_size max_concurrency
  | Err _ => ∃ n exs, Forall2 expansion_of (take n request) exs ∧ stopped (pushed ++ concat exs) y'
  end.
Proof.
  revert pushed v y its. induction request as [|item request IH]; intros pushed v y its Hst Hlen Hex; cbn [stm_foldl].
  { intros [= <- <-]. exists []. cbn. rewrite app_nil_r. split; [constructor|]. split; [by exists its|done]. }
  unfold mbind at 1, stm_bind at 1.
  destruct (stream_request_item fs request_dir provider spec max_concurrency (Some metadata) schedules v item y)
    as [y1 [v1|e]] eqn:Hi; apply (request_item_spec _ pushed _ _ its) in Hi; try done; [|by intros ex; apply Hex; left| |by intros ex; apply Hex; left].
  - destruct Hi as (ex&Hexp&(its1&Hst1)&Hlen1). intros Hrest.
    apply (IH (pushed ++ ex) _ _ its1) in Hrest; [|done|done|intros it ex' Hin; apply Hex; by right].
    destruct r as [v'|e'].
    + destruct Hrest as (exs&Hexs&Hst'&Hlen'). exists (ex :: exs). cbn [concat]. rewrite app_assoc.
      split; [by constructor|]. by split.
    + destruct Hrest as (n&exs&Hexs&Hstop). exists (Datatypes.S n), (ex :: exs). cbn [concat take]. rewrite app_assoc.
      split; [by constructor|done].
  - intros [= <- <-]. destruct Hi as [Hi|(ex&Hexp&Hi)].
    + exists 0%nat, []. cbn. rewrite app_nil_r. split; [constructor|done].
    + exists 1%nat, [ex]. cbn. rewrite app_nil_r. split; [by repeat constructor|done].
Qed.
End streaming.

(** What a streaming run does to a journal [l]; of the journal it tells as long
    as the refs are intact. *)
Definition streamed (request : list BatchItemConfig) (y : iworld) (l : list ReplayJournalRecord) (y' : iworld)
    (r : result error stream_vars) : Prop :=
  let recorded its := intact (refs (world_of y')) = true →
    ∃ new, journal_of (world_of y') (l ++ new) ∧ Forall2 (journaled (blocks (world_of y'))) its new in
  let docs := to_document_index_items request_dir request in
  grows (blocks (world_of y)) (blocks (world_of y'))
  ∧ match r with
    | Ok v => ∃ exs, Forall2 expansion_of request exs ∧ recorded (docs ++ concat exs)
        ∧ completed_items v = total_items v ∧ total_items v = len (docs ++ concat exs)
    | Err _ => ∃ n exs its, Forall2 expansion_of (take n request) exs
        ∧ its `prefix_of` docs ++ concat exs ∧ recorded its
    end.
Lemma stream_ingestion_spec request y y' r l :
  max_concurrency ≤ usize_max →
  Forall item_ok (to_document_index_items request_dir request) →
  (∀ item ex, item ∈ request → expansion_of item ex → Forall item_ok ex) →
  coherent (blocks (world_of y)) (chunk_cache y) → (intact (refs (world_of y)) = true → journal_of (world_of y) l) →
  stream_request_ingestion_to_store fs request_dir provider spec max_concurrency (Some metadata) schedules request y = (y', r) →
  streamed request y l y' r.
Proof.
  intros Hmax Hdocs Hex Hcache Hj Hrun. unfold streamed. cbv zeta. set (docs := to_document_index_items request_dir request) in *.
  set (recorded := λ its, intact (refs (world_of y')) = true →
    ∃ new, journal_of (world_of y') (l ++ new) ∧ Forall2 (journaled (blocks (world_of y'))) its new).
  assert (stream_ok y l [] start_stream y []) as H0'.
  { split; [split; [reflexivity|done|intros Hi; exists []; rewrite app_nil_r; split; [by apply Hj|constructor]]|done|constructor|done]. }
  assert (len (buffered_items start_stream) < chunk_size max_concurrency) as Hl0 by (cbn [buffered_items start_stream]; rewrite len_nil; unfold chunk_size; lia).
  assert (∀ n exs e, Forall2 expansion_of (take n request) exs → stopped y l (docs ++ concat exs) y' → r = Err e →
    grows (blocks (world_of y)) (blocks (world_of y')) ∧ match r with Ok _ => False | Err _ =>
      ∃ n exs its, Forall2 expansion_of (take n request) exs ∧ its `prefix_of` docs ++ concat exs ∧ recorded its end) as Hfail.
  { intros n exs e Hexs (its&[Hg _ Hnew]&Hpre) ->. split; [done|]. by exists n, exs, its. }
  unfold stream_request_ingestion_to_store in Hrun. fold docs in Hrun. unfold mbind at 1, stm_bind at 1 in Hrun.
  destruct (stm_foldl _ start_stream docs y) as [y1 [v1|e]] eqn:H1'; apply (push_items_spec Hmax y l _ [] _ _ []) in H1'; try done.
  2:{ injection Hrun as <- <-. destruct (Hfail 0%nat [] e) as [? Hf]; [constructor|cbn; by rewrite app_nil_r|done|]. by split. }
  destruct H1' as [(its1&Hst1) Hlen1]. unfold mbind, stm_bind in Hrun.
  destruct (stm_foldl _ v1 request y1) as [y2 [v2|e]] eqn:H2'; apply (request_items_spec Hmax y l _ docs _ _ its1) in H2'; try done.
  2:{ injection Hrun as <- <-. destruct H2' as (n&exs&Hexs&Hstop). destruct (Hfail n exs e Hexs Hstop eq_refl). by split. }
  destruct H2' as (exs&Hexs&(its2&Hst2)&Hlen2).
  assert (∀ v3 its3, stream_ok y l (docs ++ concat exs) v3 y' its3 → buffered_items v3 = [] → r = Ok v3 →
    grows (blocks (world_of y)) (blocks (world_of y')) ∧ match r with Err _ => False | Ok v =>
      ∃ exs, Forall2 expansion_of request exs ∧ recorded (docs ++ concat exs)
        ∧ completed_items v = total_items v ∧ total_items v = len (docs ++ concat exs) end) as Hdone.
  { intros v3 its3 [[Hg _ Hnew] Hp _ [Ht Hc]] Hnil ->. rewrite Hnil, app_nil_r in Hp. split; [done|].
    exists exs. unfold recorded. rewrite Hp in Ht |- *. split_and!; try done. by rewrite Ht. }
  case_bool_decide as Hbuf.
  - injection Hrun as <- <-. destruct (Hdone v2 its2) as [? Hd]; [done..|]. by split.
  - eapply flush_batch_spec in Hrun; [|done|exact Hst2|lia]. destruct r as [v3|e].
    + destruct Hrun as [Hst3 Hnil]. destruct (Hdone v3 _ Hst3 Hnil eq_refl) as [? Hd]. by split.
    + destruct (Hfail (length request) exs e) as [? Hf]; [by rewrite take_ge|done|done|]. by split.
Qed.

(** C4. Streaming ingestion is safe under any failure, interrupt and interleaving:
    starting from a journal [l], a run that succeeds leaves the journal with
    [l] followed by one record per item of the request, in order -- the
    documents, then each mailbox's chunks -- and a run that fails leaves it with
    [l] followed by the records of a prefix of those items. Every recorded item
    has its leaf block in the store, under the recorded id and with the content
    that the item refers to. The journal is told of as long as the refs are
    intact: none of their lookups has taken a failure for their absence, none of
    their writes has met two failures, and the file of a local ref store ends in
    neither [.tmp] nor [.bak]. No block is ever lost, whatever
    the refs. *)
Theorem stream_ingestion_safe request y y' r l :
  max_concurrency ≤ usize_max →
  Forall item_ok (to_document_index_items request_dir request) →
  (∀ item ex, item ∈ request → expansion_of item ex → Forall item_ok ex) →
  coherent (blocks (world_of y)) (chunk_cache y) → journal_of (world_of y) l →
  stream_request_ingestion_to_store fs request_dir provider spec max_concurrency (Some metadata) schedules request y = (y', r) →
  let docs := to_document_index_items request_dir request in
  let recorded its := intact (refs (world_of y')) = true →
    ∃ new, journal_of (world_of y') (l ++ new) ∧ Forall2 (journaled (blocks (world_of y'))) its new in
  grows (blocks (world_of y)) (blocks (world_of y'))
  ∧ match r with
    | Ok v => ∃ exs, Forall2 expansion_of request exs ∧ recorded (docs ++ concat exs)
        ∧ completed_items v = total_items v ∧ total_items v = len (docs ++ concat exs)
    | Err _ => ∃ n exs its, Forall2 expansion_of (take n request) exs
        ∧ its `prefix_of` docs ++ concat exs ∧ recorded its
    end.
Proof. intros Hm Hd He Hc Hj Hr. by apply (stream_ingestion_spec request y y' r l). Qed.
End ingest.
