(* ===== verification/IngestBatchesSpec.v ===== *)
(** * Theorems of the prepared batches

    The driver of the ingestion-only stage collects every item of the request,
    sorts them by the replay key, cuts the sorted list into batches and records
    the batches one after the other. Sorting and cutting lose, repeat and reorder
    nothing else, and the journal grows by a whole number of batches. *)

From Stdlib Require Import ZArith Lia Ascii.
From stdpp Require Import base gmap sets strings sorting option list.
From S2P Require Import Prelude Hex Blocks Text Runtime ReplayJournal ReplayJournalSpec Items SortKey Orders Mailbox Resolver MailboxSpec Config Embedding LeafWorkers LeafWorkersSpec Ingest IngestSpec.
#[local] Open Scope Z_scope.

(** ** The order of the keys *)
#[export] Instance pair_cmp_laws : CmpLaws pair_cmp.
Proof.
  refine (then_cmp_laws (λ p, as_bytes p.1) (λ p, as_bytes p.2) bytes_cmp bytes_cmp _).
  intros [??] [??]. cbn. by intros ->%as_bytes_inj ->%as_bytes_inj.
Qed.

#[export] Instance pairs_cmp_laws : CmpLaws pairs_cmp.
Proof.
  split; [apply pairs_cmp_eq| |].
  - induction a as [|x a IH]; intros [|y b]; cbn; try done.
    rewrite (cmp_opp x y). destruct (pair_cmp x y); cbn; [apply IH|done..].
  - induction a as [|x a IH]; intros [|y b] [|z c]; cbn; try done. unfold then_cmp.
    destruct (pair_cmp x y) eqn:Hxy, (pair_cmp y z) eqn:Hyz; try done.
    + apply cmp_eq in Hxy as ->. rewrite Hyz. apply IH.
    + apply cmp_eq in Hxy as ->. by rewrite Hyz.
    + apply cmp_eq in Hyz as <-. by rewrite Hxy.
    + by rewrite (cmp_trans _ _ _ Hxy Hyz).
Qed.

#[export] Instance key_cmp_laws : CmpLaws key_cmp.
Proof. refine (then_cmp_laws fst snd bytes_cmp pairs_cmp _). intros [??] [??]. cbn. by intros -> ->. Qed.

(** ** Sorting and cutting *)
Section sort_by.
Context {A K} (key : A → K) (kcmp : K → K → comparison) `{!CmpLaws kcmp}.
Abbreviation cmp := (λ a b, kcmp (key a) (key b)).
Abbreviation le := (λ a b, cmp a b ≠ Gt).

Lemma insert_by_perm x l : insert_by cmp x l ≡ₚ x :: l.
Proof using Type.
  induction l as [|y l IH]; cbn; [done|]. case_match; try done. rewrite IH. apply Permutation_swap.
Qed.
Lemma sort_by_perm l : sort_by cmp l ≡ₚ l.
Proof using Type. induction l as [|x l IH]; cbn; [done|]. by rewrite insert_by_perm, IH. Qed.

Lemma insert_by_sorted x l : StronglySorted le l → StronglySorted le (insert_by cmp x l).
Proof using All.
  induction 1 as [|y l Hl IH Hy]; cbn; [repeat constructor|].
  destruct (kcmp (key x) (key y)) eqn:Hc; [| |].
  3:{ constructor; [done|]. rewrite insert_by_perm. constructor; [|done].
      apply (cmp_gt kcmp) in Hc. by rewrite Hc. }
  all: constructor; [by constructor|]; constructor; [by rewrite Hc|];
    (eapply Forall_impl; [exact Hy|]); intros z Hz; apply (cmp_le_trans kcmp _ (key y)); [by rewrite Hc|done].
Qed.
Lemma sort_by_sorted l : StronglySorted le (sort_by cmp l).
Proof using All. induction l; cbn; [constructor|]. by apply insert_by_sorted. Qed.
End sort_by.

Lemma sort_items_perm its : sort_replay_items its ≡ₚ its.
Proof. exact (sort_by_perm replay_sort_key key_cmp its). Qed.
Lemma sort_items_sorted its : StronglySorted (λ a b, item_cmp a b ≠ Gt) (sort_replay_items its).
Proof. exact (sort_by_sorted replay_sort_key key_cmp its). Qed.

Lemma chunks_bounded {A} (n size : nat) (l : list A) : Forall (λ c, length c ≤ size)%nat (chunks n size l).
Proof. revert l. induction n as [|n IH]; intros [|x l]; cbn; constructor; auto. rewrite length_take. lia. Qed.

Lemma chunks_fuel {A} (n size : nat) (l : list A) : (length l ≤ n)%nat → (0 < size)%nat →
  chunks n size l = chunks (length l) size l.
Proof.
  intros Hl Hs. remember (length l) as m eqn:Hm. assert (length l ≤ m)%nat as Hlm by lia. clear Hm.
  revert m l Hl Hlm. induction n as [|n IH]; intros [|m] [|x l] Hl Hlm; cbn in Hl, Hlm; try lia; try done.
  cbn [chunks]. f_equal. destruct size as [|size]; [lia|]. cbn [drop].
  assert (length (drop size l) ≤ length l)%nat by (rewrite length_drop; lia).
  destruct (decide (n ≤ m)%nat); [apply IH; lia|]. symmetry. rewrite <-(IH m); [|lia..]. apply IH; lia.
Qed.

Lemma annotate_items kind batches : batch_items <$> annotate_submission_progress_batches batches kind = batch_items <$> batches.
Proof.
  unfold annotate_submission_progress_batches. generalize (len batches), (total_items_of batches). intros tb ti.
  assert (∀ i c, batch_items <$> annotate_from kind tb ti i c batches = batch_items <$> batches) as H; [|apply H].
  induction batches as [|b batches IH]; intros i c; cbn; [done|]. by rewrite IH.
Qed.

Lemma chunks_take {A} (n size k : nat) (l : list A) : (length l ≤ n)%nat → (0 < size)%nat →
  concat (take k (chunks n size l)) = take (k * size) l.
Proof.
  intros Hl Hs. revert l k Hl. induction n as [|n IH]; intros l k Hl.
  { destruct l; [|cbn in Hl; lia]. destruct k; cbn; by rewrite ?take_nil. }
  destruct k as [|k]; [done|]. destruct l as [|x l]; [cbn; by rewrite take_nil|].
  cbn [chunks take concat]. rewrite IH by (rewrite length_drop; cbn in *; lia).
  generalize (x :: l). intros l'. replace (Datatypes.S k * size)%nat with (size + k * size)%nat by lia.
  rewrite <-(take_drop size (take (size + k * size) l')), take_take, take_drop_commute. do 2 f_equal; lia.
Qed.

(** The batches of a list of items: the sorted items, cut. *)
Definition submission_batches (max_concurrency : Z) (collected : list IndexItem) : list ReplayBatch :=
  annotate_submission_progress_batches (chunk_replay_items (sort_replay_items collected) max_concurrency) ProgressEmbedding.

Lemma submission_items max_concurrency collected :
  batch_items <$> submission_batches max_concurrency collected
  = chunks (length (sort_replay_items collected)) (Z.to_nat (Z.max max_concurrency 1)) (sort_replay_items collected).
Proof.
  unfold submission_batches, chunk_replay_items. rewrite annotate_items, <-list_fmap_compose.
  erewrite list_fmap_ext; [apply list_fmap_id|]. done.
Qed.
Lemma submission_concat max_concurrency collected :
  concat (batch_items <$> submission_batches max_concurrency collected) = sort_replay_items collected.
Proof. rewrite submission_items. apply chunks_concat; lia. Qed.
Lemma submission_length max_concurrency collected :
  Forall (λ b, len (batch_items b) ≤ Z.max max_concurrency 1) (submission_batches max_concurrency collected).
Proof.
  pose proof (chunks_bounded (length (sort_replay_items collected)) (Z.to_nat (Z.max max_concurrency 1)) (sort_replay_items collected)) as Hc.
  rewrite <-submission_items, Forall_fmap in Hc. eapply Forall_impl; [exact Hc|]. unfold len. cbn. lia.
Qed.

Section ingest.
Context {S R : Type} `{PutBlock S, !BlockStoreLaws S, !PutBlockLaws S} `{MutableRefs R (BlockStoreError S), !MutableRefsLaws R (BlockStoreError S)}.
Context `{CiboriumLaws} `{BuildCustomLaws} `{HashDisplayLaws} `{MailParse}.
Context `{EmbeddingJson} `{HalfFloat} `{StatusText} `{LeafFormatLaws}.
Context (fs : files) (request_dir : string) (provider : ConfiguredEmbeddingProvider) (spec : EmbeddingSpec).
Context (max_concurrency : Z) (metadata : gmap string string) (schedules : Z → batch_schedule).
Abbreviation error := (IngestError (BlockStoreError S)).
Abbreviation iworld := (ingest_world S R).
Context (y0 : iworld) (l : list ReplayJournalRecord).

(** ** Collecting the items *)
Abbreviation collect := (λ (its : list IndexItem) (item : IndexItem), (mret (its ++ [item]) : stm iworld error (list IndexItem))).

Lemma visit_items_spec new its n (y y' : iworld) r : run_ok fs provider spec y0 l [] y →
  stm_foldl (visit_item collect) (its, n) new y = (y', r) →
  run_ok fs provider spec y0 l [] y' ∧ ∀ v, r = Ok v → v = (its ++ new, n + len new).
Proof.
  revert its n y. induction new as [|item new IH]; intros its n y Hy; cbn [stm_foldl].
  { intros [= <- <-]. split; [done|]. intros v [= <-]. by rewrite app_nil_r, len_nil, Z.add_0_r. }
  unfold mbind at 1, stm_bind at 1. unfold visit_item at 1, mbind at 1, stm_bind at 1. pose proof (poll_keeps fs provider spec _ _ _ _ Hy) as Hy1.
  destruct (on_world check_for_interrupt y) as [y1 [u|e]]; cbn [fst] in Hy1; [|by intros [= <- <-]].
  cbn. intros Hrest. destruct (IH _ _ _ Hy1 Hrest) as [Hy' Hr]. split; [done|].
  intros v Hv. rewrite (Hr v Hv), <-app_assoc, len_cons. by rewrite Z.add_assoc.
Qed.

Lemma visit_request_spec request its n (y y' : iworld) r : run_ok fs provider spec y0 l [] y →
  stm_foldl (visit_request_item fs request_dir collect) (its, n) request y = (y', r) →
  run_ok fs provider spec y0 l [] y'
  ∧ ∀ v, r = Ok v → ∃ exs, Forall2 (expansion_of (S:=S) fs request_dir) request exs ∧ v.1 = its ++ concat exs.
Proof.
  revert its n y. induction request as [|item request IH]; intros its n y Hy; cbn [stm_foldl].
  { intros [= <- <-]. split; [done|]. intros v [= <-]. exists []. cbn. rewrite app_nil_r. by split. }
  unfold mbind at 1, stm_bind at 1. unfold visit_request_item at 1, mbind at 1, stm_bind at 1. pose proof (poll_keeps fs provider spec _ _ _ _ Hy) as Hy1.
  destruct (on_world check_for_interrupt y) as [y1 [u|e]]; cbn [fst] in Hy1; [|by intros [= <- <-]].
  destruct item as [path md|path md].
  - unfold mbind at 1, stm_bind at 1. pose proof (expand_keeps fs request_dir provider spec y0 l [] path md y1 Hy1) as Hy2.
    destruct (expand_request_mailbox fs request_dir path md y1) as [y2 [o|e]] eqn:He; cbn [fst] in Hy2; [|by intros [= <- <-]].
    apply expand_request_ok in He. destruct o as [ex|]; cbn [from_option] in He.
    + destruct (stm_foldl _ _ (items ex) y2) as [y3 r3] eqn:Hv. apply visit_items_spec in Hv as [Hy3 Hv3]; [|done].
      destruct r3 as [v3|e3]; [|by intros [= <- <-]]. rewrite (Hv3 v3 eq_refl). intros Hrest.
      destruct (IH _ _ _ Hy3 Hrest) as [Hy' Hr]. split; [done|]. intros v Hv.
      destruct (Hr v Hv) as (exs&Hexs&->). exists (items ex :: exs). cbn [concat]. rewrite app_assoc. split; [by constructor|done].
    + intros Hrest. destruct (IH _ _ _ Hy2 Hrest) as [Hy' Hr]. split; [done|]. intros v Hv.
      destruct (Hr v Hv) as (exs&Hexs&->). exists ([] :: exs). split; [by constructor|done].
  - intros Hrest. destruct (IH _ _ _ Hy1 Hrest) as [Hy' Hr]. split; [done|]. intros v Hv.
    destruct (Hr v Hv) as (exs&Hexs&->). exists ([] :: exs). split; [by constructor|done].
Qed.

Lemma prepare_spec request (y y' : iworld) r : run_ok fs provider spec y0 l [] y →
  prepare_request_replay_batches fs request_dir max_concurrency request y = (y', r) →
  run_ok fs provider spec y0 l [] y'
  ∧ ∀ batches, r = Ok batches → ∃ exs, Forall2 (expansion_of (S:=S) fs request_dir) request exs
      ∧ batches = submission_batches max_concurrency (to_document_index_items request_dir request ++ concat exs).
Proof.
  intros Hy. unfold prepare_request_replay_batches, for_each_request_replay_item. unfold mbind at 1 2, stm_bind at 1 2.
  destruct (stm_foldl _ _ (to_document_index_items request_dir request) y) as [y1 r1] eqn:Hd.
  apply visit_items_spec in Hd as [Hy1 Hd]; [|done]. destruct r1 as [v1|e1]; [|by intros [= <- <-]].
  rewrite (Hd v1 eq_refl). destruct (stm_foldl _ _ request y1) as [y2 r2] eqn:Hm.
  apply visit_request_spec in Hm as [Hy2 Hm]; [|done]. destruct r2 as [[v2 n2]|e2]; intros [= <- <-]; (split; [done|]); [|done].
  intros batches [= <-]. destruct (Hm _ eq_refl) as (exs&Hexs&Hv). cbn in Hv. subst v2. by exists exs.
Qed.

(** ** Recording the batches *)
Record prepared_ok (its : list IndexItem) (staged : StagedBlocks) (y : iworld) : Prop := {
  prepared_run : run_ok fs provider spec y0 l its y;
  prepared_ids : Forall2 (stored_leaf fs provider spec (blocks (world_of y))) its (staged_ids staged)
}.

Lemma prepared_batch_as v batch (y : iworld) :
  ingest_prepared_batch fs provider spec max_concurrency (Some metadata) schedules v batch y
  = (on_world check_for_interrupt ;;
     constructed ← ingest_replay_batch_to_store fs provider spec max_concurrency (Some metadata) (batch_items batch) (schedules (v.2 + 1));
     mret (extend_constructed v.1 constructed, v.2 + 1)) y.
Proof.
  unfold ingest_prepared_batch, ingest_replay_batch_to_store. unfold mbind, stm_bind, mret, stm_ret.
  destruct (on_world check_for_interrupt y) as [y1 [u|e]]; [|done].
  destruct (build_batch _ _ _ _ _ _ y1) as [y2 [c|e]]; [|done].
  destruct (persist_staged_blocks _ y2) as [y3 [u3|e]]; [|done]. by destruct (publish_batch _ _ _ y3) as [y4 [u4|e]].
Qed.

(** A batch after recorded items: it only looks at the state it starts from. *)
Lemma batch_grows its batch sched (y y' : iworld) r : run_ok fs provider spec y0 l its y → Forall item_ok batch → len batch < 2 ^ 64 →
  ingest_replay_batch_to_store fs provider spec max_concurrency (Some metadata) batch sched y = (y', r) →
  grows (blocks (world_of y)) (blocks (world_of y')).
Proof.
  intros [_ Hc Hj] Hok Hlen Hb. assert (∃ k, run_ok fs provider spec y k [] y) as [k Hy].
  { destruct (intact (refs (world_of y))) eqn:Hi.
    - destruct (Hj eq_refl) as (new&Hjn&_). exists (l ++ new). split; [by intros ???|done|]. intros _. exists [].
      rewrite app_nil_r. split; [done|constructor].
    - exists []. split; [by intros ???|done|by rewrite Hi]. }
  pose proof (batch_spec fs provider spec max_concurrency metadata y k [] _ _ y y' r Hy Hok Hlen Hb) as Hspec.
  destruct r; [|destruct Hspec as [Hspec|Hspec]]; apply Hspec.
Qed.

Lemma prepared_batch_spec its v batch (y y' : iworld) r : prepared_ok its v.1 y →
  Forall item_ok (batch_items batch) → len (batch_items batch) < 2 ^ 64 →
  ingest_prepared_batch fs provider spec max_concurrency (Some metadata) schedules v batch y = (y', r) →
  match r with
  | Ok v' => prepared_ok (its ++ batch_items batch) v'.1 y'
  | Err _ => run_ok fs provider spec y0 l its y' ∨ run_ok fs provider spec y0 l (its ++ batch_items batch) y'
  end.
Proof.
  intros [Hrun Hids] Hok Hlen. rewrite prepared_batch_as. unfold mbind at 1, stm_bind at 1.
  pose proof (poll_keeps fs provider spec _ _ _ _ Hrun) as Hy1.
  assert (blocks (world_of (on_world check_for_interrupt y).1) = blocks (world_of y)) as Hpoll.
  { unfold on_world, check_for_interrupt. by destruct (is_interrupt_requested (world_of y)). }
  destruct (on_world check_for_interrupt y) as [y1 [u|e]]; cbn [fst] in Hy1, Hpoll; [|intros [= <- <-]; by left].
  rewrite <-Hpoll in Hids. unfold mbind, stm_bind. destruct (ingest_replay_batch_to_store _ _ _ _ _ _ _ y1) as [y2 rm] eqn:Hb.
  pose proof (batch_spec fs provider spec max_concurrency metadata y0 l its _ _ y1 y2 rm Hy1 Hok Hlen Hb) as Hspec.
  pose proof (batch_grows _ _ _ _ _ _ Hy1 Hok Hlen Hb) as Hg.
  destruct rm as [c|e]; intros [= <- <-]; [|done]. destruct Hspec as [Hy2 Hc]. split; [done|].
  cbn. apply Forall2_app; [|done]. eapply Forall2_impl; [exact Hids|]. intros ??. by apply stored_leaf_grows.
Qed.

Lemma prepared_batches_spec batches its v (y y' : iworld) r : prepared_ok its v.1 y →
  Forall (λ b, Forall item_ok (batch_items b)) batches → Forall (λ b, len (batch_items b) < 2 ^ 64) batches →
  stm_foldl (ingest_prepared_batch fs provider spec max_concurrency (Some metadata) schedules) v batches y = (y', r) →
  match r with
  | Ok v' => prepared_ok (its ++ concat (batch_items <$> batches)) v'.1 y'
  | Err _ => ∃ n, run_ok fs provider spec y0 l (its ++ concat (batch_items <$> take n batches)) y'
  end.
Proof.
  intros Hy Hok Hlen. revert its v y Hy. induction batches as [|b batches IH]; intros its v y Hy; cbn [stm_foldl].
  { intros [= <- <-]. cbn. by rewrite app_nil_r. }
  apply Forall_cons in Hok as [Hb Hok], Hlen as [Hlb Hlen]. unfold mbind at 1, stm_bind at 1.
  destruct (ingest_prepared_batch _ _ _ _ _ _ v b y) as [y1 [v1|e]] eqn:Hp;
    apply (prepared_batch_spec its) in Hp; try done.
  - intros Hrest. apply (IH Hok Hlen _ _ _ Hp) in Hrest. destruct r as [v'|e].
    + cbn. by rewrite app_assoc.
    + destruct Hrest as (n&Hn). exists (Datatypes.S n). cbn. by rewrite app_assoc.
  - intros [= <- <-]. destruct Hp as [Hp|Hp]; [exists 0%nat|exists 1%nat]; cbn; by rewrite ?app_nil_r.
Qed.

(** C5. The ingestion-only stage, whatever fails or interrupts it: its items
    are those of the request -- the documents and every mailbox's chunks --
    sorted by the replay key, none lost or repeated. A run that succeeds leaves
    the journal with one more record per item, in that order, each item's leaf
    block being in the store, and its summary lists the leaf blocks' ids once
    each, in order. A run that fails leaves the records of a whole number of
    batches of the sorted items. The journal is told of as long as the refs are
    intact: none of their lookups has taken a failure for their absence, none of
    their writes has met two failures, and the file of a local ref store ends in
    neither [.tmp] nor [.bak]. *)
Theorem ingestion_and_embedding_spec request (y' : iworld) r :
  max_concurrency ≤ usize_max →
  (∀ exs, Forall2 (expansion_of (S:=S) fs request_dir) request exs →
    Forall item_ok (to_document_index_items request_dir request ++ concat exs)) →
  coherent (blocks (world_of y0)) (chunk_cache y0) → journal_of (world_of y0) l →
  run_ingestion_and_embedding fs request_dir provider spec max_concurrency (Some metadata) schedules request y0 = (y', r) →
  grows (blocks (world_of y0)) (blocks (world_of y'))
  ∧ ∃ its, (intact (refs (world_of y')) = true →
        ∃ new, journal_of (world_of y') (l ++ new) ∧ Forall2 (journaled fs provider spec (blocks (world_of y'))) its new)
    ∧ match r with
      | Ok summary => ∃ exs ids, Forall2 (expansion_of (S:=S) fs request_dir) request exs
          ∧ its ≡ₚ to_document_index_items request_dir request ++ concat exs
          ∧ StronglySorted (λ a b, item_cmp a b ≠ Gt) its
          ∧ Forall2 (stored_leaf fs provider spec (blocks (world_of y'))) its ids
          ∧ root_id summary = placeholder_root_id ∧ block_count summary = len (summary_block_ids summary)
          ∧ StronglySorted (λ a b, String.le a b ∧ a ≠ b) (summary_block_ids summary)
          ∧ (∀ id, id ∈ summary_block_ids summary ↔ ∃ h, h ∈ ids ∧ id = hash_to_string h)
      | Err _ => its = [] ∨ ∃ exs n, Forall2 (expansion_of (S:=S) fs request_dir) request exs
          ∧ its = take (n * Z.to_nat (Z.max max_concurrency 1))
                    (sort_replay_items (to_document_index_items request_dir request ++ concat exs))
      end.
Proof.
  intros Hmax Hitems Hcache Hj. assert (run_ok fs provider spec y0 l [] y0) as Hy0.
  { split; [by intros ???|done|]. intros _. exists []. rewrite app_nil_r. split; [done|constructor]. }
  unfold run_ingestion_and_embedding. unfold mbind at 1, stm_bind at 1.
  destruct (prepare_request_replay_batches _ _ _ _ y0) as [y1 r1] eqn:Hp. apply prepare_spec in Hp as [Hy1 Hb]; [|done].
  destruct r1 as [batches|e]; [|intros [= <- <-]; destruct Hy1 as [? _ ?]; split; [done|]; exists []; by eauto].
  destruct (Hb _ eq_refl) as (exs&Hexs&->). clear Hb. specialize (Hitems _ Hexs).
  set (all := to_document_index_items request_dir request ++ concat exs) in *.
  assert (Forall (λ b, Forall item_ok (batch_items b)) (submission_batches max_concurrency all)) as Hok.
  { assert (Forall (Forall item_ok) (batch_items <$> submission_batches max_concurrency all)) as Hall; [|exact (proj1 (Forall_fmap batch_items _ _) Hall)].
    apply Forall_concat. rewrite submission_concat. by rewrite sort_items_perm. }
  assert (Forall (λ b, len (batch_items b) < 2 ^ 64) (submission_batches max_concurrency all)) as Hlen.
  { eapply Forall_impl; [apply submission_length|]. intros b Hb. cbn beta in Hb |- *. unfold usize_max in *. lia. }
  unfold run_ingestion_only_stage, mbind, stm_bind.
  destruct (stm_foldl _ _ _ y1) as [y2 r2] eqn:Hrun. apply (prepared_batches_spec _ []) in Hrun; [|by split|done..].
  destruct r2 as [[staged n]|e]; intros [= <- <-].
  - destruct Hrun as [[Hg _ Hnew] Hids]. cbn [app fst] in *. rewrite submission_concat in Hids, Hnew.
    split; [done|]. exists (sort_replay_items all). split_and!; [done..|]. exists exs, (staged_ids staged).
    split_and!; [done|apply sort_items_perm|apply sort_items_sorted|done..|apply sorted_ids_sorted|]. intros id. apply elem_of_sorted_ids.
  - destruct Hrun as (n&[Hg _ Hnew]). split; [done|]. eexists _. split_and!; [done..|]. right. exists exs, n.
    split; [done|]. cbn [app]. rewrite fmap_take, submission_items. apply chunks_take; [done|]. clear. lia.
Qed.
End ingest.
