(* ===== verification/IngestWitness.v ===== *)
(** * The ingestion theorems at concrete inputs

    A store that holds custom blocks and version 1 leaf blocks, a leaf format of
    one-entry leaves, and a request of two documents whose leaf tasks run
    interleaved. *)

From Stdlib Require Import ZArith Lia Ascii.
From stdpp Require Import base gmap sets strings sorting option list.
From S2P Require Import Prelude Hex Blocks Cbor Text Runtime Instances ReplayJournal ReplayJournalSpec Items SortKey Mailbox Resolver MailboxSpec MailboxWitness Config Embedding EmbeddingWitness LeafWorkers LeafWorkersSpec Ingest IngestSpec IngestBatchesSpec.
#[local] Open Scope Z_scope.
#[local] Existing Instances toy_mail_parse plain_json no_halves plain_status.

(** ** The request *)
Definition two_documents : list BatchItemConfig := [Document "b.txt" ∅; Document "a.txt" ∅].
Definition document_items : list IndexItem := to_document_index_items "/in" two_documents.
Definition document_files : files :=
  {["/in/a.txt" := FsFile (Ok (as_bytes "a")); "/in/b.txt" := FsFile (Ok (as_bytes "b"))]}.
Definition metadata_of (tag : Z) : list (value * value) :=
  default [] (item_metadata <$> document_items !! Z.to_nat tag).

(** ** The leaf format

    A leaf with one entry is written as a tag for its metadata, the embedding
    and the body; what does not come back from its bytes is refused. *)
#[local] Instance content_eq_dec : EqDecision Content.
Proof. solve_decision. Defined.
#[local] Instance leaf_entry_eq_dec : EqDecision LeafEntry.
Proof. solve_decision. Defined.
#[local] Instance branch_entry_eq_dec : EqDecision BranchEntry.
Proof. solve_decision. Defined.
#[local] Instance leaf_block_eq_dec : EqDecision LeafBlock.
Proof. solve_decision. Defined.
#[local] Instance branch_block_eq_dec : EqDecision BranchBlock.
Proof. solve_decision. Defined.
#[local] Instance block_eq_dec : EqDecision Block.
Proof. solve_decision. Defined.

Definition read_leaf (b : bytes) : Block :=
  BLeaf {| lb_level := 0; lb_type_name := "leaf"; lb_spec := one_value;
           lb_entries := [{| le_metadata := metadata_of (hd 0 b); le_embedding := take 4 (tl b);
                             le_content := {| media_type := "text/plain"; body := drop 4 (tl b) |} |}] |}.
Definition write_leaf (b : Block) : bytes :=
  match b with
  | BLeaf {| lb_entries := [e] |} =>
      (if decide (le_metadata e = metadata_of 0) then 0 else 1) :: le_embedding e ++ body (le_content e)
  | _ => []
  end.
#[local] Instance tagged_leaves : LeafFormat := {|
  build_leaf_block spec entries := Ok {| lb_level := 0; lb_type_name := "leaf"; lb_spec := spec; lb_entries := entries |};
  serialize_block b :=
    if decide (read_leaf (write_leaf b) = b) then Ok {| ser_hash := toy_digest (write_leaf b); ser_bytes := write_leaf b |}
    else Err "unsupported block";
  deserialize_block b h := Ok (read_leaf b) |}.
#[local] Instance tagged_leaves_laws : LeafFormatLaws.
Proof.
  split; cbn -[write_leaf read_leaf].
  - by intros spec entries leaf [= <-].
  - intros b s. case_decide as Hb; [|done]. intros [= <-]. cbn -[write_leaf read_leaf]. by rewrite Hb.
  - intros b s. case_decide; [|done]. intros [= <-]. apply toy_digest_ok.
Qed.

(** ** The store *)
Record mixed_store := { custom_part : mem_store; leaf_part : gmap (list Z) Block }.
Definition mixed_get (h : block_hash) (s : mixed_store) : option DecodedBlock :=
  match leaf_part s !! h with
  | Some b => Some (DecodedV1 b)
  | None => (λ c, DecodedV2 (Ok (Custom c))) <$> custom_part s !! h
  end.
Definition mixed_put_custom (c : CustomBlock) (s : mixed_store) : mixed_store * result string block_hash :=
  match mixed_get (mem_id c) s with
  | Some d => (s, if decide (custom_part s !! mem_id c = Some c ∧ leaf_part s !! mem_id c = None)
                  then Ok (mem_id c) else Err "block id collision")
  | None => ({| custom_part := <[mem_id c := c]> (custom_part s); leaf_part := leaf_part s |}, Ok (mem_id c))
  end.
Definition mixed_put (b : Block) (s : mixed_store) : mixed_store * result string block_hash :=
  let h := toy_digest (write_leaf b) in
  match mixed_get h s with
  | Some d => (s, if decide (leaf_part s !! h = Some b) then Ok h else Err "block id collision")
  | None => ({| custom_part := custom_part s; leaf_part := <[h := b]> (leaf_part s) |}, Ok h)
  end.

#[local] Instance mixed_block_store : BlockStore mixed_store := {|
  BlockStoreError := string; block_id_of := mem_id; put_versioned := mixed_put_custom;
  get_decoded h s := Ok (mixed_get h s) |}.
#[local] Instance mixed_put_block : PutBlock mixed_store := mixed_put.

Lemma mixed_custom_get c s h :
  mixed_get h (mixed_put_custom c s).1
  = match mixed_get (mem_id c) s with
    | Some _ => mixed_get h s
    | None => if decide (h = mem_id c) then Some (DecodedV2 (Ok (Custom c))) else mixed_get h s end.
Proof.
  unfold mixed_put_custom. destruct (mixed_get (mem_id c) s) eqn:Hg; [done|]. cbn -[mem_id]. unfold mixed_get in *. cbn -[mem_id].
  case_decide as Hh; [subst h|by rewrite lookup_insert_ne].
  destruct (leaf_part s !! mem_id c); [done|]. by rewrite lookup_insert_eq.
Qed.
Lemma mixed_leaf_get b s h :
  mixed_get h (mixed_put b s).1
  = match mixed_get (toy_digest (write_leaf b)) s with
    | Some _ => mixed_get h s
    | None => if decide (h = toy_digest (write_leaf b)) then Some (DecodedV1 b) else mixed_get h s end.
Proof.
  unfold mixed_put. set (k := toy_digest _). destruct (mixed_get k s) eqn:Hg; [done|]. unfold mixed_get in *. cbn [leaf_part custom_part fst].
  case_decide as Hh; [subst h; by rewrite lookup_insert_eq|by rewrite lookup_insert_ne].
Qed.

#[local] Instance mixed_block_store_laws : BlockStoreLaws mixed_store.
Proof.
  split; cbn [block_id_of put_versioned get_decoded mixed_block_store].
  - intros c. apply toy_digest_ok.
  - intros c s s' h. pose proof (mixed_custom_get c s (mem_id c)) as Hm. revert Hm.
    rewrite decide_True by done. unfold mixed_put_custom. destruct (mixed_get (mem_id c) s) as [d|] eqn:Hg; intros Hm.
    + case_decide as Hd; [|done]. intros [= <- <-]. split; [done|]. destruct Hd as [Hc Hl]. unfold mixed_get. by rewrite Hl, Hc.
    + intros [= <- <-]. split; [done|]. by f_equal.
  - intros c s s' r h d Hp [= Hd]. assert (s' = (mixed_put_custom c s).1) as -> by by rewrite Hp.
    rewrite mixed_custom_get. destruct (mixed_get (mem_id c) s) eqn:?; [by rewrite Hd|]. case_decide; [congruence|by rewrite Hd].
  - intros c s s' r h Hp Hh. assert (s' = (mixed_put_custom c s).1) as -> by by rewrite Hp.
    rewrite mixed_custom_get. destruct (mixed_get (mem_id c) s); [done|]. by rewrite decide_False.
Qed.

#[local] Instance mixed_put_block_laws : PutBlockLaws mixed_store.
Proof.
  split; cbn [get_decoded mixed_block_store].
  - intros b s s' h. pose proof (mixed_leaf_get b s (toy_digest (write_leaf b))) as Hm. revert Hm.
    rewrite decide_True by done. unfold put, mixed_put_block, mixed_put. set (k := toy_digest _). destruct (mixed_get k s) as [d|] eqn:Hg; intros Hm.
    + case_decide as Hl; [|done]. intros [= <- <-]. unfold mixed_get. by rewrite Hl.
    + intros [= <- <-]. exact (f_equal Ok Hm).
  - intros b s s' r Hp k d [= Hd]. assert (s' = (mixed_put b s).1) as -> by (by change (put b s) with (mixed_put b s) in Hp; rewrite Hp).
    cbn [get_decoded mixed_block_store]. rewrite mixed_leaf_get. destruct (mixed_get (toy_digest _) s) eqn:?; [by rewrite Hd|]. case_decide; [congruence|by rewrite Hd].
Qed.

(** ** Two tasks, interleaved *)
Definition no_services : services := {|
  local_service p input := answers 7; gateway_service request attempt := Err "unused" |}.
Definition interleaved : list label :=
  [Work 0 no_services; Work 1 no_services; Work 1 no_services; Join 1; Work 0 no_services; Join 0; Leave].
Definition empty_store : mixed_store := {| custom_part := ∅; leaf_part := ∅ |}.
Abbreviation two_leaves :=
  (build_leaf_blocks_concurrently document_files empty_store (ProviderLocal local_provider) one_value document_items 2 ∅ interleaved).
Definition built : ConstructedBlocks := match outcome two_leaves with Some (Ok b) => b | _ => no_blocks end.

Example two_built : (length (built_blocks built), body <$> (omap (λ b, match deserialize_block (ser_bytes b) (ser_hash b) with
    | Ok (BLeaf l) => le_content <$> lb_entries l !! 0%nat | _ => None end) (built_blocks built))) = (2%nat, [[98]; [97]]).
Proof. vm_compute. reflexivity. Qed.

Lemma nothing_cached : coherent empty_store ∅.
Proof. intros r chunks Hr. discriminate. Qed.

Lemma leaf_workers_sound_witness :
  outcome two_leaves = Some (Ok built)
  ∧ Forall2 (block_of_item document_files empty_store (ProviderLocal local_provider) one_value) document_items (built_blocks built)
  ∧ block_ids built = ser_hash <$> built_blocks built.
Proof.
  assert (outcome two_leaves = Some (Ok built)) as Ho by (vm_compute; reflexivity). split; [exact Ho|].
  exact (leaf_workers_sound document_files empty_store (ProviderLocal local_provider) one_value document_items 2 ∅ interleaved
    (Ok built) nothing_cached Ho).
Defined.

Lemma leaf_workers_bounded_witness : Z.of_nat (live (tasks two_leaves)) ≤ 2.
Proof.
  exact (proj1 (leaf_workers_bounded document_files empty_store (ProviderLocal local_provider) one_value document_items 2 ∅
    interleaved nothing_cached)).
Defined.

(** ** A request, streamed and prepared *)
Definition schedule_of (number : Z) : batch_schedule := {| labels := interleaved; raised := false |}.
Definition ingest_start : ingest_world mixed_store MutableRefStoreState :=
  {| world_of := World empty_store default_refs ∅ [] None; chunk_cache := ∅ |}.
Abbreviation streamed := (stream_request_ingestion_to_store document_files "/in" (ProviderLocal local_provider) one_value 2
  (Some ∅) schedule_of two_documents ingest_start).
Definition stream_end : stream_vars := match streamed.2 with Ok v => v | Err _ => start_stream end.

Lemma journal_start : journal_of (world_of ingest_start) [].
Proof. exists default_refs. split; [done|]. split; [done|]. exists []. split; [constructor|done]. Qed.
Lemma streamed_ok : streamed = (streamed.1, Ok stream_end).
Proof. vm_compute. reflexivity. Qed.
Lemma documents_ok : Forall item_ok document_items.
Proof. repeat constructor; vm_compute; reflexivity. Qed.
Lemma documents_expand item ex : item ∈ two_documents → expansion_of (S:=mixed_store) document_files "/in" item ex → ex = [].
Proof. intros [->|[->|[]%elem_of_nil]%elem_of_cons]%elem_of_cons Hex; exact Hex. Qed.

Lemma no_mailboxes exs : Forall2 (expansion_of (S:=mixed_store) document_files "/in") two_documents exs → concat exs = [].
Proof.
  intros (?&?&He1&Hexs&->)%Forall2_cons_inv_l. apply Forall2_cons_inv_l in Hexs as (?&?&He2&Hexs&->).
  apply Forall2_nil_inv_l in Hexs as ->. by rewrite He1, He2.
Qed.

Lemma stream_ingestion_safe_witness : ∃ new,
  journal_of (world_of streamed.1) ([] ++ new)
  ∧ Forall2 (journaled document_files (ProviderLocal local_provider) one_value (blocks (world_of streamed.1))) (document_items ++ []) new ∧ total_items stream_end = 2.
Proof.
  destruct (stream_ingestion_safe document_files "/in" (ProviderLocal local_provider) one_value 2 ∅ schedule_of two_documents
    ingest_start streamed.1 (Ok stream_end) []) as [_ (exs&Hexs&Hrec&_&_)].
  - by vm_compute.
  - exact documents_ok.
  - intros item ex Hin Hex. by rewrite (documents_expand item ex Hin Hex).
  - exact nothing_cached.
  - exact journal_start.
  - exact streamed_ok.
  - destruct (Hrec eq_refl) as (new&Hj&Hnew). exists new. split; [exact Hj|]. split; [|vm_compute; reflexivity]. by rewrite (no_mailboxes exs Hexs) in Hnew.
Defined.

Abbreviation prepared := (run_ingestion_and_embedding document_files "/in" (ProviderLocal local_provider) one_value 2
  (Some ∅) schedule_of two_documents ingest_start).
Definition prepared_summary : BatchSummary :=
  match prepared.2 with Ok s => s | Err _ => {| root_id := ""; block_count := 0; summary_block_ids := [] |} end.
Lemma prepared_run_ok : prepared = (prepared.1, Ok prepared_summary).
Proof. vm_compute. reflexivity. Qed.

Lemma ingestion_and_embedding_spec_witness :
  root_id prepared_summary = placeholder_root_id ∧ block_count prepared_summary = 2.
Proof.
  split; [|vm_compute; reflexivity].
  destruct (ingestion_and_embedding_spec document_files "/in" (ProviderLocal local_provider) one_value 2 ∅ schedule_of
    ingest_start [] two_documents prepared.1 (Ok prepared_summary)) as (_&its&_&exs&ids&_&_&_&_&Hroot&_).
  - by vm_compute.
  - intros exs ->%no_mailboxes. exact documents_ok.
  - exact nothing_cached.
  - exact journal_start.
  - exact prepared_run_ok.
  - exact Hroot.
Defined.
