(* ===== verification/Replay.v ===== *)
(** * Replaying stored leaves ([runtime.rs])

    The clustering stage starts from the replay order: batches of its entries are
    read back, each entry's leaf block is loaded and checked against the order --
    by several threads when there are enough entries -- and the embeddings of the
    current batch are published to the provider that the clustering asks for
    them. [ExternalizedReplayState] reads batch after batch;
    [load_replay_batches_from_journal] reads them all. The theorems are in
    [ReplaySpec.v]. *)

From Stdlib Require Import ZArith Lia Ascii.
From stdpp Require Import base gmap sets strings sorting option list.
From S2P Require Import Prelude Hex Blocks Text Items SortKey Runtime ReplayJournal ReplayOrder Embedding Ingest.
#[local] Open Scope Z_scope.

Definition EXTERNALIZED_CLUSTERING_DIAGNOSTIC_INPUT_LIMIT : Z := 1024.

(** [ValidatedBlock] of the block crate, and the store's [get], which validates
    the bytes of a version 1 block against the requested id. *)
Record ValidatedBlock := { vb_hash : block_hash; vb_block : Block }.
Class GetBlock (S : Type) `{BlockStore S} := get : block_hash → S → result (BlockStoreError S) (option ValidatedBlock).
Class GetBlockLaws (S : Type) `{GetBlock S} := {
  get_hash h s v : get h s = Ok (Some v) → vb_hash v = h;
  get_v1 h s b : get_decoded h s = Ok (Some (DecodedV1 b)) → get h s = Ok (Some {| vb_hash := h; vb_block := b |})
}.

(** [RuntimeError], with the constructors that replaying adds. [LoadRunning] is
    not an error of the code: a parallel load whose schedule ends too early. *)
Inductive ReplayError (E : Type) :=
| ReplayBase (e : RuntimeError E)
| ParallelReplayBatchMaterializationIncomplete (entry_index : nat)
| LoadRunning.
Arguments ReplayBase {E} e.
Arguments ParallelReplayBatchMaterializationIncomplete {E} entry_index.
Arguments LoadRunning {E}.

Inductive StoredLeafEmbeddingProviderError (E : Type) :=
| MissingStoredEmbedding
| ReadStoredEmbeddingBlock (block_id : string) (source : E)
| InvalidStoredEmbeddingBlock (block_id : string) (message : string)
| ReadStoredReplayOrderScratch (path : string) (source : io_error).
Arguments MissingStoredEmbedding {E}.
Arguments ReadStoredEmbeddingBlock {E} block_id source.
Arguments InvalidStoredEmbeddingBlock {E} block_id message.
Arguments ReadStoredReplayOrderScratch {E} path source.

Abbreviation EmbeddingCache := (gmap (list Z) bytes).

(** ** Hashes of embedding inputs *)
Section hashes.
Context `{Sha256}.
Definition hash_embedding_content (media_type : string) (body : bytes) : block_hash :=
  hash_bytes (as_bytes media_type ++ [0] ++ body).
Definition hash_embedding_input (input : EmbeddingInput) : block_hash :=
  hash_embedding_content (input_media_type input) (input_body input).
Definition replay_embedding_input_hash (validated : ValidatedBlock) (embedding_spec : EmbeddingSpec) : option block_hash :=
  entry ← replay_leaf_entry (vb_block validated) embedding_spec;
  Some (hash_embedding_input {| input_media_type := media_type (le_content entry); input_body := body (le_content entry) |}).
End hashes.

(** ** Loading one entry *)
Record ReplayBatchEntryLoad := {
  load_item : IndexItem;
  load_audit_record : ReplayJournalRecord;
  load_input_hash : block_hash;
  load_embedding : bytes
}.
Record ReplayBatchLoad := { loaded_batch : ReplayBatch; loaded_embeddings : list (block_hash * bytes) }.

Section loading.
Context {S : Type} `{GetBlock S} `{HashDisplay} `{Sha256}.
Abbreviation error := (RuntimeError (BlockStoreError S)).
Context (store : S) (embedding_spec : EmbeddingSpec).

(** The digest of an item exists ([sort_key_encoding_order]). *)
Definition load_replay_batch_entry_from_validated (entry : ReplayOrderEntry) (validated : ValidatedBlock)
    : result error ReplayBatchEntryLoad :=
  let missing := MissingReplayMetadata (hash_to_string (vb_hash validated)) in
  input_hash ← ok_or (replay_embedding_input_hash validated embedding_spec) missing;
  replayed ← replay_item_from_validated_block (vb_hash validated) (vb_block validated) embedding_spec;
  '(item, embedding) ← ok_or replayed missing;
  reject_if (bool_decide (replay_sort_key_digest item ≠ Some (oe_digest entry)))
    (InvalidReplayJournalHead (hash_to_string (vb_hash validated))
      "journal entry does not match referenced block replay metadata") ;;
  Ok {| load_item := item; load_audit_record := replay_journal_record_from_item (vb_hash validated) item;
        load_input_hash := input_hash; load_embedding := embedding |}.

(** [load_replay_batch_entry_with_runtime] differs in the runtime that awaits. *)
Definition load_replay_batch_entry (entry : ReplayOrderEntry) : result error ReplayBatchEntryLoad :=
  found ← map_err BlockStoreFailed (get (oe_block_id entry) store);
  validated ← ok_or found (ReadReplayJournal (hash_to_string (oe_block_id entry))
    (IoError NotFound "journal entry references missing block"));
  load_replay_batch_entry_from_validated entry validated.

(** ** Loading a batch in parallel

    The workers take indices from a shared counter, load and send; the caller
    receives until every worker has gone. *)
Abbreviation load_result := (result error ReplayBatchEntryLoad).
Inductive worker_pc := Claiming | Loading (index : nat) | Gone.
Record parallel_load := {
  next_index : nat;
  load_workers : list worker_pc;
  results : list (nat * load_result);
  loaded : list (option load_result)
}.
Inductive load_label := WorkerStep (worker : nat) | Receive.

Definition start_load (entries : list ReplayOrderEntry) (worker_count : nat) : parallel_load :=
  {| next_index := 0; load_workers := replicate worker_count Claiming; results := [];
     loaded := replicate (length entries) None |}.

Definition load_step (entries : list ReplayOrderEntry) (l : load_label) (p : parallel_load) : option parallel_load :=
  match l with
  | WorkerStep worker =>
      pc ← load_workers p !! worker;
      match pc with
      | Claiming =>
          let pc := if (length entries <=? next_index p)%nat then Gone else Loading (next_index p) in
          Some {| next_index := Datatypes.S (next_index p); load_workers := <[worker := pc]> (load_workers p);
                  results := results p; loaded := loaded p |}
      | Loading index =>
          entry ← entries !! index;
          Some {| next_index := next_index p; load_workers := <[worker := Claiming]> (load_workers p);
                  results := results p ++ [(index, load_replay_batch_entry entry)]; loaded := loaded p |}
      | Gone => None
      end
  | Receive =>
      match results p with
      | [] => None
      | (index, result) :: results =>
          Some {| next_index := next_index p; load_workers := load_workers p; results := results;
                  loaded := <[index := Some result]> (loaded p) |}
      end
  end.

Definition is_gone (pc : worker_pc) : bool := match pc with Gone => true | _ => false end.
(** The channel is closed and empty. *)
Definition load_done (p : parallel_load) : bool := forallb is_gone (load_workers p) && bool_decide (results p = []).

Definition run_load (entries : list ReplayOrderEntry) (schedule : list load_label) (p : parallel_load) : parallel_load :=
  foldl (λ p l, default p (load_step entries l p)) p schedule.

(** The loop over the slots. *)
Fixpoint ordered_from (entry_index : nat) (loaded : list (option load_result))
    : result (ReplayError (BlockStoreError S)) (list ReplayBatchEntryLoad) :=
  match loaded with
  | [] => Ok []
  | entry :: loaded =>
      entry ← ok_or entry (ParallelReplayBatchMaterializationIncomplete entry_index);
      entry ← map_err ReplayBase entry;
      rest ← ordered_from (Datatypes.S entry_index) loaded;
      Ok (entry :: rest)
  end.

Definition load_replay_batch_entries_in_parallel (entries : list ReplayOrderEntry) (worker_count : nat)
    (schedule : list load_label) : result (ReplayError (BlockStoreError S)) (list ReplayBatchEntryLoad) :=
  let p := run_load entries schedule (start_load entries worker_count) in
  if load_done p then ordered_from 0 (loaded p) else Err LoadRunning.

Definition replay_batch_materialization_worker_count (available_parallelism : option Z) (entry_count max_concurrency : Z) : Z :=
  Z.min (Z.min entry_count (Z.max max_concurrency 1)) (default 1 available_parallelism).

Definition batch_load (loads : list ReplayBatchEntryLoad) : ReplayBatchLoad :=
  {| loaded_batch := {| batch_items := load_item <$> loads; batch_records := load_audit_record <$> loads;
                        batch_message := None |};
     loaded_embeddings := (λ l, (load_input_hash l, load_embedding l)) <$> loads |}.

(** [schedule] is that of the threads, if there are any. *)
Definition replay_batch_from_entries (available_parallelism : option Z) (schedule : list load_label)
    (entries : list ReplayOrderEntry) (max_concurrency : Z) : result (ReplayError (BlockStoreError S)) ReplayBatchLoad :=
  let worker_count := replay_batch_materialization_worker_count available_parallelism (len entries) max_concurrency in
  loads ← (if worker_count <=? 1 then map_err ReplayBase (result_mapM load_replay_batch_entry entries)
           else load_replay_batch_entries_in_parallel entries (Z.to_nat worker_count) schedule);
  Ok (batch_load loads).
End loading.
Arguments parallel_load S {_}.

(** ** The replay state

    The world with the caches that the batch iterator and the embedding provider
    share. *)
Record replay_world (S R : Type) := {
  replay_base : world S R;
  current_batch_embeddings : EmbeddingCache;
  fallback_embeddings : option EmbeddingCache
}.
Arguments replay_base {S R} _.
Arguments current_batch_embeddings {S R} _.
Arguments fallback_embeddings {S R} _.

Record ExternalizedReplayState := {
  replay_order : ReplayOrderStorage;
  replay_total_items : Z;
  batch_size : Z;
  materialization_max_concurrency : Z
}.
Record ExternalizedReplayBatchIterator := {
  replay_order_reader : ReplayOrderReader;
  it_batch_size : Z;
  it_max_concurrency : Z
}.

Definition total_batches (state : ExternalizedReplayState) : Z :=
  if replay_total_items state =? 0 then 0
  else (replay_total_items state + batch_size state - 1) / batch_size state.

Section replay.
Context {S R : Type} `{GetBlock S} `{MutableRefs R (BlockStoreError S)} `{Ciborium} `{HashDisplay} `{Sha256}.
Abbreviation error := (ReplayError (BlockStoreError S)).
Abbreviation rworld := (replay_world S R).
Abbreviation replay A := (stm rworld error A).
Context (embedding_spec : EmbeddingSpec) (available_parallelism : option Z).
(** How the threads of a batch with these entries are scheduled. *)
Context (thread_schedule : list ReplayOrderEntry → list load_label).

Definition on_base {A} (m : runtime S R A) : replay A := λ y,
  let '(w, r) := m (replay_base y) in
  ({| replay_base := w; current_batch_embeddings := current_batch_embeddings y;
      fallback_embeddings := fallback_embeddings y |}, map_err ReplayBase r).

(** [clear] and [extend] of the shared cache. *)
Definition set_embeddings (cache : EmbeddingCache) : replay unit := λ y,
  ({| replay_base := replay_base y; current_batch_embeddings := cache; fallback_embeddings := fallback_embeddings y |}, Ok ()).
Definition extend_embeddings (cache : EmbeddingCache) (embeddings : list (block_hash * bytes)) : EmbeddingCache :=
  foldl (λ cache x, <[x.1 := x.2]> cache) cache embeddings.
Definition clear_externalized_replay_batch_embeddings : replay unit := set_embeddings ∅.
Definition publish_externalized_replay_batch_embeddings (embeddings : list (block_hash * bytes)) : replay unit :=
  set_embeddings (extend_embeddings ∅ embeddings).

Definition load_entries (entries : list ReplayOrderEntry) (max_concurrency : Z) : replay ReplayBatchLoad := λ y,
  (y, replay_batch_from_entries (blocks (replay_base y)) embedding_spec available_parallelism (thread_schedule entries) entries max_concurrency).

Definition batch_iterator (state : ExternalizedReplayState) : replay ExternalizedReplayBatchIterator :=
  reader ← on_base (open_reader (replay_order state));
  mret {| replay_order_reader := reader; it_batch_size := batch_size state;
          it_max_concurrency := materialization_max_concurrency state |}.

Definition load_next_batch (it : ExternalizedReplayBatchIterator)
    : replay (option ReplayBatchLoad * ExternalizedReplayBatchIterator) :=
  '(entries, reader) ← on_base (read_next_entries (it_batch_size it) (replay_order_reader it));
  let it := {| replay_order_reader := reader; it_batch_size := it_batch_size it;
               it_max_concurrency := it_max_concurrency it |} in
  if bool_decide (entries = []) then mret (None, it)
  else load ← load_entries entries (it_max_concurrency it); mret (Some load, it).

Definition next_batch (it : ExternalizedReplayBatchIterator)
    : replay (option ReplayBatch * ExternalizedReplayBatchIterator) :=
  '(load, it) ← load_next_batch it;
  match load with
  | None => clear_externalized_replay_batch_embeddings ;; mret (None, it)
  | Some load => publish_externalized_replay_batch_embeddings (loaded_embeddings load) ;; mret (Some (loaded_batch load), it)
  end.

(** [while let Some(batch)]: one more iteration than there are batches is
    enough. *)
Fixpoint collect_loop (fuel : nat) (it : ExternalizedReplayBatchIterator) (batches : list ReplayBatch)
    : replay (list ReplayBatch) :=
  match fuel with
  | O => throw LoadRunning
  | Datatypes.S fuel =>
      '(batch, it) ← next_batch it;
      match batch with
      | None => mret batches
      | Some batch => collect_loop fuel it (batches ++ [batch])
      end
  end.
Definition collect_replay_batches (fuel : nat) (state : ExternalizedReplayState) : replay (list ReplayBatch) :=
  it ← batch_iterator state;
  batches ← collect_loop fuel it [];
  mret (annotate_submission_progress_batches batches ProgressReplay).

(** ** The embedding provider *)
Abbreviation provider_error := (StoredLeafEmbeddingProviderError (BlockStoreError S)).
Abbreviation provide A := (stm rworld provider_error A).
(** [to_string] of an error. *)
Context (error_text : RuntimeError (BlockStoreError S) → string).

Definition map_replay_order_runtime_error_to_provider_error (e : RuntimeError (BlockStoreError S)) : provider_error :=
  match e with
  | ReadReplayOrderScratch path source => ReadStoredReplayOrderScratch path source
  | other => InvalidStoredEmbeddingBlock "<replay-order>" (error_text other)
  end.

Definition not_replayable : string := "stored block does not contain a replayable leaf embedding".

(** One iteration of the loop over the entries. *)
Definition fallback_step (store : S) (fallback : EmbeddingCache) (entry : ReplayOrderEntry) : result provider_error EmbeddingCache :=
  let block_hash := oe_block_id entry in
  let invalid := InvalidStoredEmbeddingBlock (hash_to_string block_hash) in
  found ← map_err (ReadStoredEmbeddingBlock (hash_to_string block_hash)) (get block_hash store);
  match found with
  | None => Ok fallback
  | Some validated =>
      candidate_hash ← ok_or (replay_embedding_input_hash validated embedding_spec) (invalid not_replayable);
      replayed ← map_err (λ e, invalid (error_text e))
        (replay_item_from_validated_block (vb_hash validated) (vb_block validated) embedding_spec);
      replayed ← ok_or replayed (invalid not_replayable);
      Ok (<[candidate_hash := replayed.2]> fallback)
  end.

Definition load_embedding_for_hash (order : ReplayOrderStorage) (input_hash : block_hash) : provide (option bytes) := λ y,
  match current_batch_embeddings y !! input_hash with
  | Some embedding => (y, Ok (Some embedding))
  | None =>
      if EXTERNALIZED_CLUSTERING_DIAGNOSTIC_INPUT_LIMIT <? ReplayOrder.total_items order then (y, Ok None)
      else match fallback_embeddings y with
      | Some cache => (y, Ok (cache !! input_hash))
      | None =>
          let '(w, entries) := read_all_entries order (replay_base y) in
          let set_fallback f := {| replay_base := w; current_batch_embeddings := current_batch_embeddings y;
                                   fallback_embeddings := f |} in
          match (entries ← map_err map_replay_order_runtime_error_to_provider_error entries;
                 result_foldl (fallback_step (blocks w)) ∅ entries) with
          | Ok fallback => (set_fallback (Some fallback), Ok (fallback !! input_hash))
          | Err e => (set_fallback None, Err e)
          end
      end
  end.

Definition embed_externalized (order : ReplayOrderStorage) (input : EmbeddingInput) : provide bytes :=
  embedding ← load_embedding_for_hash order (hash_embedding_input input);
  lift (ok_or embedding MissingStoredEmbedding).

Definition embed_stored (embeddings : EmbeddingCache) (input : EmbeddingInput) : result provider_error bytes :=
  ok_or (embeddings !! hash_embedding_input input) MissingStoredEmbedding.

(** ** From the journal

    [None] is a run out of fuel in collecting the order. *)
Context (scratch_dir : string) (chain_fuel passes fuel : nat) (scratch_root : string).

Definition after_order {A} (k : ReplayOrderStorage → replay A) (y : rworld) : option (rworld * result error A) :=
  match collect_ordered_replay_block_ids_from_journal scratch_dir chain_fuel passes fuel scratch_root (replay_base y) with
  | None => None
  | Some (w, r) =>
      let y := {| replay_base := w; current_batch_embeddings := ∅; fallback_embeddings := None |} in
      Some (match r with Ok order => k order y | Err e => (y, Err (ReplayBase e)) end)
  end.

Definition externalize_replay_batches_from_journal (replay_batch_size max_concurrency : Z)
    : rworld → option (rworld * result error ExternalizedReplayState) :=
  after_order (λ order, mret {| replay_order := order; replay_total_items := ReplayOrder.total_items order;
    batch_size := Z.max replay_batch_size 1; materialization_max_concurrency := Z.max max_concurrency 1 |}).

(** The loop of [load_replay_batches_from_journal]. *)
Fixpoint journal_loop (fuel : nat) (batch_size max_concurrency : Z) (reader : ReplayOrderReader)
    (embeddings : EmbeddingCache) (batches : list ReplayBatch) : replay (EmbeddingCache * list ReplayBatch) :=
  match fuel with
  | O => throw LoadRunning
  | Datatypes.S fuel =>
      '(entries, reader) ← on_base (read_next_entries batch_size reader);
      if bool_decide (entries = []) then mret (embeddings, batches)
      else
        load ← load_entries entries max_concurrency;
        journal_loop fuel batch_size max_concurrency reader (extend_embeddings embeddings (loaded_embeddings load))
          (batches ++ [loaded_batch load])
  end.
Definition load_replay_batches_from_journal (replay_batch_size max_concurrency : Z)
    : rworld → option (rworld * result error (list ReplayBatch * EmbeddingCache)) :=
  after_order (λ order,
    reader ← on_base (open_reader order);
    '(embeddings, batches) ← journal_loop (Datatypes.S (Z.to_nat (ReplayOrder.total_items order))) (Z.max replay_batch_size 1) max_concurrency reader ∅ [];
    lift (reject_if (Ingest.total_items_of batches =? 0) (ReplayBase NoClusterableBlocks)) ;;
    mret (annotate_submission_progress_batches batches ProgressReplay, embeddings)).
End replay.
