(* ===== verification/ReplaySpec.v ===== *)
(** * Theorems of replaying

    Loading a batch with several threads gives what loading it entry by entry
    gives, whatever the threads' interleaving; the batches that are read back
    are those of the replay order; both ways to read a journal agree; and what
    ingestion recorded is what replaying finds. *)

From Stdlib Require Import ZArith Lia Ascii.
From stdpp Require Import base gmap sets strings sorting option list.
From S2P Require Import Prelude Hex Blocks Text Runtime ReplayJournal ReplayJournalSpec Items SortKey ReplayOrder ReplayOrderSpec Mailbox Resolver MailboxSpec Config Embedding EmbeddingSpec LeafWorkers LeafWorkersSpec Ingest IngestSpec IngestBatchesSpec Replay.
#[local] Open Scope Z_scope.

(** ** Loading in parallel *)
Section loading.
Context {S : Type} `{GetBlock S} `{HashDisplay} `{Sha256}.
Abbreviation error := (RuntimeError (BlockStoreError S)).
Context (store : S) (embedding_spec : EmbeddingSpec) (entries : list ReplayOrderEntry).
Abbreviation load_result := (result error ReplayBatchEntryLoad).
Abbreviation load := (load_replay_batch_entry store embedding_spec).
Abbreviation load_step := (load_step store embedding_spec entries).

(** A result belongs to its entry. *)
Definition of_entry (index : nat) (r : load_result) : Prop := ∃ entry, entries !! index = Some entry ∧ r = load entry.

Record load_ok (p : parallel_load S) : Prop := {
  lok_slots : length (loaded p) = length entries;
  lok_loaded i r : loaded p !! i = Some (Some r) → of_entry i r;
  lok_results : Forall (λ x, of_entry x.1 x.2) (results p);
  lok_loading w i : load_workers p !! w = Some (Loading i) → (i < length entries)%nat;
  lok_covered i : (i < next_index p)%nat → (i < length entries)%nat →
    (∃ r, loaded p !! i = Some (Some r)) ∨ i ∈ (results p).*1 ∨ Loading i ∈ load_workers p;
  lok_gone : Gone ∈ load_workers p → (length entries <= next_index p)%nat
}.

Lemma start_load_ok n : load_ok (start_load entries n).
Proof.
  split; cbn.
  - apply length_replicate.
  - intros i r [[= ] _]%lookup_replicate.
  - constructor.
  - intros w i [[= ] _]%lookup_replicate.
  - lia.
  - by intros [[= ] _]%elem_of_replicate.
Qed.

Lemma insert_keeps {A} (l : list A) w (x y z : A) : l !! w = Some x → z ∈ l → z ≠ x → z ∈ <[w := y]> l.
Proof.
  intros Hx Hz Hne. apply list_elem_of_lookup_1 in Hz as [i Hi]. apply (list_elem_of_lookup_2 _ i).
  rewrite list_lookup_insert_ne; [done|]. intros <-. congruence.
Qed.
Lemma insert_elem {A} (l : list A) w (y z : A) : z ∈ <[w := y]> l → z = y ∨ z ∈ l.
Proof.
  intros [i [(->&->&_)|[_ Hi]]%list_lookup_insert_Some]%list_elem_of_lookup_1; [by left|right; by eapply list_elem_of_lookup_2].
Qed.

Lemma load_step_ok l p p' : load_ok p → load_step l p = Some p' → load_ok p'.
Proof.
  intros [Hsl Hld Hrs Hlo Hcov Hg] Hs. unfold Replay.load_step in Hs. destruct l as [w|].
  - destruct (load_workers p !! w) as [[|index|]|] eqn:Hw; cbn [mbind option_bind] in Hs; [| |done..].
    + injection Hs as <-. split; cbn [loaded results load_workers next_index]; try done.
      * intros v i [(->&Hpc&_)|[_ Hv]]%list_lookup_insert_Some; [|by eapply Hlo].
        destruct (length entries <=? next_index p)%nat eqn:He; [done|]. injection Hpc as <-. by apply Nat.leb_gt in He.
      * intros i Hi Hn. destruct (decide (i = next_index p)) as [->|Hne].
        -- right; right. rewrite (proj2 (Nat.leb_gt _ _) Hn). apply list_elem_of_insert. by eapply lookup_lt_Some.
        -- destruct (Hcov i) as [Hr|[Hr|Hr]]; [lia|done|by left|by right; left|]. right; right. by eapply insert_keeps.
      * intros [Hpc|Hin]%insert_elem; [|specialize (Hg Hin); lia].
        destruct (length entries <=? next_index p)%nat eqn:He; [|done]. apply Nat.leb_le in He. lia.
    + destruct (entries !! index) as [entry|] eqn:He; [|done]. injection Hs as <-.
      split; cbn [loaded results load_workers next_index]; try done.
      * apply Forall_app_2; [done|]. constructor; [|constructor]. by exists entry.
      * intros v i [(->&Hpc&_)|[_ Hv]]%list_lookup_insert_Some; [done|by eapply Hlo].
      * intros i Hi Hn. rewrite fmap_app, elem_of_app. destruct (decide (i = index)) as [->|Hne].
        -- right; left; right. by left.
        -- destruct (Hcov i) as [Hr|[Hr|Hr]]; [lia|done|by left|by right; left; left|]. right; right.
           eapply insert_keeps; [done|done|congruence].
      * intros [Hpc|Hin]%insert_elem; [done|by apply Hg].
  - destruct (results p) as [|[index r] rest] eqn:Hr; [done|]. injection Hs as <-.
    apply Forall_cons in Hrs as [Hr0 Hrs]. split; cbn [loaded results load_workers next_index]; try done.
    + by rewrite length_insert.
    + intros i r' [(->&[= ->]&_)|[_ Hi]]%list_lookup_insert_Some; [done|by apply Hld].
    + intros i Hi Hn. destruct (decide (i = index)) as [->|Hne].
      * left. exists r. apply list_lookup_insert_eq. by rewrite Hsl.
      * destruct (Hcov i Hi Hn) as [[r' Hr']|[Hin|Hin]]; [| |by right; right].
        -- left. exists r'. by rewrite list_lookup_insert_ne.
        -- right; left. cbn in Hin. by apply elem_of_cons in Hin as [|].
Qed.

Definition pc_rank (pc : worker_pc) : nat := match pc with Claiming => 1 | Loading _ => 3 | Gone => 0 end.
Definition load_rank (p : parallel_load S) : nat :=
  3 * (length entries - next_index p) + sum_list_with pc_rank (load_workers p) + length (results p).

Lemma load_step_rank l p p' : load_ok p → load_step l p = Some p' → (load_rank p' < load_rank p)%nat.
Proof.
  intros Hp Hs. unfold Replay.load_step in Hs. unfold load_rank. destruct l as [w|].
  - destruct (load_workers p !! w) as [[|index|]|] eqn:Hw; cbn [mbind option_bind] in Hs; [| |done..].
    + injection Hs as <-. cbn [results load_workers next_index].
      destruct (length entries <=? next_index p)%nat eqn:He.
      * pose proof (sum_list_with_insert pc_rank _ _ _ Gone Hw) as Hsum. cbn [pc_rank] in Hsum. lia.
      * pose proof (sum_list_with_insert pc_rank _ _ _ (Loading (next_index p)) Hw) as Hsum. cbn [pc_rank] in Hsum.
        apply Nat.leb_gt in He. lia.
    + destruct (entries !! index) as [entry|] eqn:He; [|done]. injection Hs as <-. cbn [results load_workers next_index].
      pose proof (sum_list_with_insert pc_rank _ _ _ Claiming Hw) as Hsum. cbn [pc_rank] in Hsum. rewrite length_app. cbn. lia.
  - destruct (results p) as [|[index r] rest] eqn:Hr; [done|]. injection Hs as <-. cbn. lia.
Qed.

Lemma load_progress p : load_ok p → load_done p = false → ∃ l p', load_step l p = Some p'.
Proof.
  intros Hp Hd. unfold load_done in Hd. apply andb_false_iff in Hd as [Hd|Hd%bool_decide_eq_false].
  - assert (∃ w pc, load_workers p !! w = Some pc ∧ is_gone pc = false) as (w&pc&Hw&Hpc).
    { clear -Hd. induction (load_workers p) as [|pc pcs IH]; [done|]. cbn in Hd. destruct (is_gone pc) eqn:E.
      - destruct (IH Hd) as (w&pc'&?&?). by exists (Datatypes.S w), pc'.
      - by exists 0%nat, pc. }
    exists (WorkerStep w). cbn. rewrite Hw. cbn. destruct pc as [|index|]; [eauto| |done].
    destruct (lookup_lt_is_Some_2 entries index) as [entry He]; [by eapply lok_loading|]. rewrite He. cbn. eauto.
  - exists Receive. cbn. destruct (results p) as [|[index r] rest]; [done|]. eauto.
Qed.

(** *** The end *)
Lemma ordered_all base (slots : list (option load_result)) es : Forall2 (λ slot entry, slot = Some (load entry)) slots es →
  ordered_from base slots = map_err ReplayBase (result_mapM load es).
Proof.
  intros Hall. revert base. induction Hall as [|slot entry slots es -> _ IH]; intros base; [done|].
  cbn [ordered_from result_mapM ok_or]. unfold mbind, result_bind. destruct (load entry) as [x|e]; [|done].
  cbn [map_err]. rewrite IH. by destruct (result_mapM load es).
Qed.

Lemma done_slots p n : load_ok p → load_done p = true → length (load_workers p) = n → (0 < n)%nat →
  Forall2 (λ slot entry, slot = Some (load entry)) (loaded p) entries.
Proof.
  intros Hp Hd Hn Hpos. unfold load_done in Hd. apply andb_true_iff in Hd as [Hgone Hnil%bool_decide_eq_true].
  assert (∀ pc, pc ∈ load_workers p → pc = Gone) as Hall.
  { intros pc Hpc. rewrite forallb_forall in Hgone. apply list_elem_of_In, Hgone in Hpc. by destruct pc. }
  assert (Gone ∈ load_workers p) as Hin.
  { destruct (load_workers p) as [|pc ws]; [cbn in Hn; lia|]. rewrite <-(Hall pc) by left. left. }
  pose proof (lok_gone _ Hp Hin) as Hnext. apply Forall2_same_length_lookup_2; [by apply lok_slots|].
  intros i slot entry Hslot Hentry. pose proof (lookup_lt_Some _ _ _ Hentry) as Hi.
  destruct (lok_covered _ Hp i) as [[r Hr]|[Hr|Hr]]; [lia|done| | |].
  - rewrite Hslot in Hr. injection Hr as ->. destruct (lok_loaded _ Hp _ _ Hslot) as (entry'&Hen&->). congruence.
  - rewrite Hnil in Hr. by apply elem_of_nil in Hr.
  - by apply Hall in Hr.
Qed.

Lemma step_workers l p p' : load_step l p = Some p' → length (load_workers p') = length (load_workers p).
Proof.
  unfold Replay.load_step. destruct l as [w|]; [|destruct (results p) as [|[??]?]; [done|by intros [= <-]]].
  destruct (load_workers p !! w) as [[|index|]|]; cbn [mbind option_bind]; [| |done..].
  - intros [= <-]. apply length_insert.
  - destruct (entries !! index); [|done]. intros [= <-]. apply length_insert.
Qed.

Lemma run_load_ok worker_count schedule :
  let p := run_load store embedding_spec entries schedule (start_load entries worker_count) in
  load_ok p ∧ length (load_workers p) = worker_count.
Proof.
  apply (run_machine_inv load_step (λ p, load_ok p ∧ length (load_workers p) = worker_count)).
  - intros l q q' [Hq Hl] Hs. split; [by eapply load_step_ok|]. by rewrite (step_workers _ _ _ Hs).
  - split; [apply start_load_ok|]. apply length_replicate.
Qed.

Lemma parallel_load_equal worker_count schedule : (0 < worker_count)%nat →
  load_done (run_load store embedding_spec entries schedule (start_load entries worker_count)) = true →
  load_replay_batch_entries_in_parallel store embedding_spec entries worker_count schedule
  = map_err ReplayBase (result_mapM load entries).
Proof.
  intros Hpos Hd. unfold load_replay_batch_entries_in_parallel. rewrite Hd. destruct (run_load_ok worker_count schedule) as [Hp Hw].
  apply ordered_all. by apply (done_slots _ worker_count).
Qed.

(** C22. Loading a batch with any positive number of threads, whatever their
    interleaving: once the threads have gone and the channel is empty the result
    is that of loading entry by entry -- the same loads in the same order, or
    the error of the first entry that has one. Until then some thread can move,
    and there are at most three moves per entry and one per thread. *)
Theorem parallel_load_sequential worker_count schedule : (0 < worker_count)%nat →
  let start := start_load entries worker_count in
  let p := run_load store embedding_spec entries schedule start in
  (load_done p = true →
    load_replay_batch_entries_in_parallel store embedding_spec entries worker_count schedule
    = map_err ReplayBase (result_mapM load entries))
  ∧ (load_done p = false → ∃ l p', load_step l p = Some p')
  ∧ (moved load_step schedule start ≤ 3 * length entries + worker_count)%nat.
Proof.
  intros Hpos start p. destruct (run_load_ok worker_count schedule) as [Hp _]. split_and!.
  - by apply parallel_load_equal.
  - by apply load_progress.
  - etrans; [apply (moved_rank _ load_ok load_step_ok load_rank load_step_rank), start_load_ok|].
    unfold load_rank, start, start_load. cbn [next_index load_workers results length].
    assert (sum_list_with pc_rank (replicate worker_count Claiming) = worker_count) as ->; [|lia].
    clear. induction worker_count as [|n IH]; [done|]. cbn in *. lia.
Qed.
End loading.

Lemma mapM_concat {E A B} (f : A → result E B) (ls : list (list A)) :
  result_mapM f (concat ls) = ys ← result_mapM (result_mapM f) ls; Ok (concat ys).
Proof.
  assert (∀ l k, result_mapM f (l ++ k) = (x ← result_mapM f l; y ← result_mapM f k; Ok (x ++ y))) as Happ.
  { intros l k. induction l as [|a l IH]; cbn; [by destruct (result_mapM f k)|]. unfold mbind, result_bind in *.
    destruct (f a); [|done]. rewrite IH. destruct (result_mapM f l); [|done]. by destruct (result_mapM f k). }
  induction ls as [|l ls IH]; cbn [concat result_mapM]; [done|]. rewrite Happ, IH. unfold mbind, result_bind.
  destruct (result_mapM f l); [|done]. by destruct (result_mapM (result_mapM f) ls).
Qed.

(** ** Batches *)
Section replay.
Context {S R : Type} `{GetBlock S} `{MutableRefs R (BlockStoreError S)} `{Ciborium} `{HashDisplay} `{Sha256}.
Abbreviation rworld := (replay_world S R).
Context (embedding_spec : EmbeddingSpec) (available_parallelism : option Z) (thread_schedule : list ReplayOrderEntry → list load_label).
Abbreviation load store := (load_replay_batch_entry store embedding_spec).

(** The threads of a batch end. *)
Definition threads_end (store : S) (max_concurrency : Z) (es : list ReplayOrderEntry) : Prop :=
  let n := replay_batch_materialization_worker_count available_parallelism (len es) max_concurrency in
  1 < n → load_done (run_load store embedding_spec es (thread_schedule es) (start_load es (Z.to_nat n))) = true.

Lemma batch_from_entries store max_concurrency es : threads_end store max_concurrency es →
  replay_batch_from_entries store embedding_spec available_parallelism (thread_schedule es) es max_concurrency
  = map_err ReplayBase (loads ← result_mapM (load store) es; Ok (batch_load loads)).
Proof.
  unfold threads_end, replay_batch_from_entries. set (n := replay_batch_materialization_worker_count _ _ _). intros Hend.
  destruct (n <=? 1) eqn:Hn.
  - unfold mbind, result_bind. by destruct (result_mapM _ es).
  - apply Z.leb_gt in Hn. rewrite parallel_load_equal by (auto; lia). unfold mbind, result_bind. by destruct (result_mapM _ es).
Qed.

(** What a step on the world leaves. *)
Record stays (y y' : rworld) : Prop := {
  stays_blocks : blocks (replay_base y') = blocks (replay_base y);
  stays_refs : refs (replay_base y') = refs (replay_base y);
  stays_scratch : scratch (replay_base y') = scratch (replay_base y);
  stays_benign : benign (replay_base y) → benign (replay_base y')
}.
Lemma stays_refl y : stays y y.
Proof. by split. Qed.
Lemma stays_trans y1 y2 y3 : stays y1 y2 → stays y2 y3 → stays y1 y3.
Proof. intros [] []. split; [congruence..|auto]. Qed.

Definition env_error (y : rworld) (e : ReplayError (BlockStoreError S)) : Prop :=
  ∃ e', e = ReplayBase e' ∧ env_failure e' ∧ ¬ benign (replay_base y).
Lemma env_error_back y y' e : stays y y' → env_error y' e → env_error y e.
Proof. intros Hst (e'&->&?&Hb). exists e'. split_and!; [done|done|]. intros ?. by apply Hb, (stays_benign _ _ Hst). Qed.

Lemma on_base_runs {A} (m : runtime S R A) post (y y' : rworld) r :
  runs_to (m (replay_base y)) (replay_base y) (λ w a, scratch w = scratch (replay_base y) ∧ post a) (λ _, False) →
  on_base m y = (y', r) →
  current_batch_embeddings y' = current_batch_embeddings y ∧ fallback_embeddings y' = fallback_embeddings y
  ∧ match r with
    | Ok a => stays y y' ∧ post a
    | Err e => env_error y e
    end.
Proof.
  unfold on_base, runs_to. destruct (m (replay_base y)) as [w [a|e]]; cbn [fst snd]; intros Hr [= <- <-]; (split; [done|]); (split; [done|]).
  - destruct Hr as ([Hs Hpost]&Hb&Hrf&Hben). by split.
  - destruct Hr as [[]|[He Hb]]. by exists e.
Qed.

(** Reading and loading the next batch. *)
Definition it_at (o : list ReplayOrderEntry) (it : ExternalizedReplayBatchIterator) : Prop := reader_at o (replay_order_reader it).

Lemma load_next_spec o it (y y' : rworld) r : it_at o it → 1 ≤ it_batch_size it → Forall entry_ok o →
  let es := take (Z.to_nat (it_batch_size it)) o in
  threads_end (blocks (replay_base y)) (it_max_concurrency it) es →
  load_next_batch embedding_spec available_parallelism thread_schedule it y = (y', r) →
  current_batch_embeddings y' = current_batch_embeddings y ∧ fallback_embeddings y' = fallback_embeddings y
  ∧ match r with
    | Ok (b, it') => stays y y' ∧ it_batch_size it' = it_batch_size it ∧ it_max_concurrency it' = it_max_concurrency it
        ∧ it_at (drop (Z.to_nat (it_batch_size it)) o) it'
        ∧ match b with
          | None => o = []
          | Some b => o ≠ [] ∧ ∃ loads, result_mapM (load (blocks (replay_base y))) es = Ok loads ∧ b = batch_load loads
          end
    | Err e => env_error y e ∨ o ≠ [] ∧ ∃ e', result_mapM (load (blocks (replay_base y))) es = Err e' ∧ e = ReplayBase e'
    end.
Proof.
  intros Hit Hbs Ho es Hend. unfold load_next_batch. unfold mbind at 1, stm_bind at 1.
  destruct (on_base _ y) as [y1 r1] eqn:Hread.
  eapply on_base_runs in Hread; [|by apply (read_next_runs (it_batch_size it) o); [lia|..]].
  destruct Hread as (Hc&Hf&Hread). destruct r1 as [[es' rd]|e1]; [|intros [= <- <-]; auto].
  destruct Hread as [Hst [Hes Hrd]]. cbn [fst snd] in Hes, Hrd. subst es'. fold es.
  assert (es = [] ↔ o = []) as Hnil.
  { unfold es. destruct o as [|e o]; [by rewrite take_nil|]. destruct (Z.to_nat (it_batch_size it)) eqn:E; [lia|done]. }
  case_bool_decide as Hes; [intros [= <- <-]; apply Hnil in Hes; by split_and!|].
  assert (o ≠ []) as Hne by (by rewrite <-Hnil).
  unfold load_entries, mbind, stm_bind. cbn [it_max_concurrency]. rewrite (stays_blocks _ _ Hst), batch_from_entries by done.
  destruct (result_mapM (load (blocks (replay_base y))) es) as [loads|e]; cbn [mbind result_bind map_err]; intros [= <- <-];
    (split; [done|]); (split; [done|]); [|right; by eauto].
  by split_and!; [..|eauto].
Qed.

Lemma next_batch_spec o it (y y' : rworld) r : it_at o it → 1 ≤ it_batch_size it → Forall entry_ok o →
  let es := take (Z.to_nat (it_batch_size it)) o in
  threads_end (blocks (replay_base y)) (it_max_concurrency it) es →
  next_batch embedding_spec available_parallelism thread_schedule it y = (y', r) →
  match r with
  | Ok (b, it') => stays y y' ∧ it_batch_size it' = it_batch_size it ∧ it_max_concurrency it' = it_max_concurrency it
      ∧ it_at (drop (Z.to_nat (it_batch_size it)) o) it'
      ∧ match b with
        | None => o = [] ∧ current_batch_embeddings y' = ∅
        | Some b => o ≠ [] ∧ ∃ loads, result_mapM (load (blocks (replay_base y))) es = Ok loads
            ∧ b = loaded_batch (batch_load loads)
            ∧ current_batch_embeddings y' = extend_embeddings ∅ (loaded_embeddings (batch_load loads))
        end
  | Err e => env_error y e ∨ o ≠ [] ∧ ∃ e', result_mapM (load (blocks (replay_base y))) es = Err e' ∧ e = ReplayBase e'
  end.
Proof.
  intros Hit Hbs Ho es Hend. unfold next_batch. unfold mbind at 1, stm_bind at 1.
  destruct (load_next_batch _ _ _ it y) as [y1 r1] eqn:Hl.
  destruct (load_next_spec _ _ _ _ _ Hit Hbs Ho Hend Hl) as (_&_&Hr). destruct r1 as [[[b|] it1]|e]; [| |by intros [= <- <-]].
  - destruct Hr as (Hst&Hb&Hm&Hat&Hne&loads&Hloads&->). intros [= <- <-]. split_and!; try done; [by destruct Hst|].
    exists loads. by split_and!.
  - destruct Hr as (Hst&Hb&Hm&Hat&->). intros [= <- <-]. split_and!; try done. by destruct Hst.
Qed.

(** The batches of an order, loaded. *)
Definition order_chunks (batch_size : Z) (o : list ReplayOrderEntry) : list (list ReplayOrderEntry) :=
  chunks (length o) (Z.to_nat batch_size) o.
Definition loads_of (store : S) (batch_size : Z) (o : list ReplayOrderEntry)
    : result (RuntimeError (BlockStoreError S)) (list (list ReplayBatchEntryLoad)) :=
  result_mapM (result_mapM (load store)) (order_chunks batch_size o).

Lemma order_chunks_cons batch_size o : 1 ≤ batch_size → o ≠ [] →
  order_chunks batch_size o = take (Z.to_nat batch_size) o :: order_chunks batch_size (drop (Z.to_nat batch_size) o).
Proof.
  intros Hb Ho. destruct o as [|e o]; [done|]. unfold order_chunks at 1. cbn [length chunks]. f_equal.
  apply chunks_fuel; [|lia]. destruct (Z.to_nat batch_size) eqn:E; [lia|]. cbn. rewrite length_drop. lia.
Qed.

Lemma loads_of_concat store batch_size o : 1 ≤ batch_size →
  result_mapM (load store) o = lss ← loads_of store batch_size o; Ok (concat lss).
Proof.
  intros Hb. unfold loads_of. rewrite <-mapM_concat. f_equal. symmetry. apply chunks_concat; lia.
Qed.

Lemma loads_of_cons store batch_size o : 1 ≤ batch_size → o ≠ [] →
  loads_of store batch_size o
  = ls ← result_mapM (load store) (take (Z.to_nat batch_size) o);
    lss ← loads_of store batch_size (drop (Z.to_nat batch_size) o); Ok (ls :: lss).
Proof. intros Hb Ho. unfold loads_of. by rewrite (order_chunks_cons _ o). Qed.

(** A failure of a loop over the batches: a load's, or the environment's. *)
Definition loop_error (y : rworld) (batch_size : Z) (o : list ReplayOrderEntry) (e : ReplayError (BlockStoreError S)) : Prop :=
  env_error y e ∨ ∃ e', loads_of (blocks (replay_base y)) batch_size o = Err e' ∧ e = ReplayBase e'.

Lemma loop_error_back y y' batch_size o loads e : stays y y' → 1 ≤ batch_size → o ≠ [] →
  result_mapM (load (blocks (replay_base y))) (take (Z.to_nat batch_size) o) = Ok loads →
  loop_error y' batch_size (drop (Z.to_nat batch_size) o) e → loop_error y batch_size o e.
Proof.
  intros Hst Hb Ho Hl [He|(e'&He&->)]; [left; by eapply env_error_back|right]. exists e'. split; [|done].
  rewrite (stays_blocks _ _ Hst) in He. by rewrite loads_of_cons, Hl, He.
Qed.

Lemma first_error y batch_size o e' : 1 ≤ batch_size → o ≠ [] →
  result_mapM (load (blocks (replay_base y))) (take (Z.to_nat batch_size) o) = Err e' → loop_error y batch_size o (ReplayBase e').
Proof. intros Hb Ho He. right. exists e'. split; [|done]. by rewrite loads_of_cons, He. Qed.

Lemma collect_loop_spec fuel o it acc (y y' : rworld) r : it_at o it → 1 ≤ it_batch_size it → Forall entry_ok o →
  Forall (threads_end (blocks (replay_base y)) (it_max_concurrency it)) (order_chunks (it_batch_size it) o) →
  (length o < fuel)%nat →
  collect_loop embedding_spec available_parallelism thread_schedule fuel it acc y = (y', r) →
  match r with
  | Ok batches => stays y y' ∧ current_batch_embeddings y' = ∅
      ∧ ∃ lss, loads_of (blocks (replay_base y)) (it_batch_size it) o = Ok lss
          ∧ batches = acc ++ (loaded_batch ∘ batch_load <$> lss)
  | Err e => loop_error y (it_batch_size it) o e
  end.
Proof.
  revert o it acc y. induction fuel as [|fuel IH]; intros o it acc y Hit Hbs Ho Hend Hfuel; [lia|]. cbn [collect_loop].
  unfold mbind at 1, stm_bind at 1. destruct (next_batch _ _ _ it y) as [y1 r1] eqn:Hn.
  destruct (decide (o = [])) as [->|Hne].
  { apply (next_batch_spec []) in Hn; [|done..|rewrite take_nil; intros Hw; exfalso; revert Hw; unfold replay_batch_materialization_worker_count; rewrite len_nil; lia].
    destruct r1 as [[[b|] it1]|e]; [by destruct Hn as (_&_&_&_&?&_)| |].
    - destruct Hn as (Hst&_&_&_&_&Hc). intros [= <- <-]. split_and!; [done..|]. exists []. by rewrite app_nil_r.
    - intros [= <- <-]. destruct Hn as [?|[? _]]; [by left|done]. }
  rewrite order_chunks_cons in Hend by done. apply Forall_cons in Hend as [Hend0 Hend].
  apply (next_batch_spec o) in Hn; [|done..]. destruct r1 as [[[b|] it1]|e].
  - destruct Hn as (Hst&Hb&Hm&Hat&_&loads&Hloads&->&_). intros Hrest.
    rewrite <-Hb, <-Hm in *. rewrite <-(stays_blocks _ _ Hst) in Hend.
    apply (IH (drop (Z.to_nat (it_batch_size it1)) o)) in Hrest;
      [|done|done|by apply Forall_drop|done|rewrite length_drop; destruct o; [done|cbn in *; lia]].
    destruct r as [batches|e]; [|by eapply loop_error_back].
    destruct Hrest as (Hst'&Hc&lss&Hlss&->). split_and!; [by eapply stays_trans|done|]. exists (loads :: lss).
    rewrite (stays_blocks _ _ Hst) in Hlss. rewrite loads_of_cons, Hloads by done. cbn [mbind result_bind]. rewrite Hlss.
    split; [done|]. by rewrite <-app_assoc.
  - by destruct Hn as (_&_&_&_&?&_).
  - intros [= <- <-]. destruct Hn as [?|(_&e'&He&->)]; [by left|]. by apply first_error.
Qed.

Lemma order_chunks_ok batch_size o es : 1 ≤ batch_size → es ∈ order_chunks batch_size o → es ≠ [] ∧ len es ≤ batch_size.
Proof.
  intros Hb. remember (length o) as n eqn:Hn. revert o Hn. induction (lt_wf n) as [n _ IH]. intros o ->.
  destruct (decide (o = [])) as [->|Hne]; [by intros ?%elem_of_nil|]. rewrite order_chunks_cons by done.
  destruct o as [|e o]; [done|]. set (k := Z.to_nat batch_size). intros [->|Hin]%elem_of_cons.
  - unfold len. rewrite length_take. split; [|cbn; lia]. destruct k eqn:E; [lia|done].
  - eapply IH; [|done|exact Hin]. rewrite length_drop. cbn. lia.
Qed.

Lemma order_chunks_count batch_size o : 1 ≤ batch_size →
  len (order_chunks batch_size o) = (len o + batch_size - 1) / batch_size.
Proof.
  intros Hb. remember (length o) as n eqn:Hn. revert o Hn. induction (lt_wf n) as [n _ IH]. intros o ->.
  destruct (decide (o = [])) as [->|Hne]; [unfold order_chunks, len; cbn [length chunks Z.of_nat]; symmetry; apply Z.div_small; lia|].
  rewrite order_chunks_cons, len_cons by done. destruct o as [|e o]; [done|]. set (k := Z.to_nat batch_size).
  assert (length (drop k (e :: o)) < length (e :: o))%nat as Hlt by (rewrite length_drop; cbn; lia).
  rewrite (IH _ Hlt _ eq_refl). unfold len. rewrite length_drop. cbn [length] in *.
  destruct (decide (Datatypes.S (length o) ≤ k)%nat).
  - replace (Datatypes.S (length o) - k)%nat with 0%nat by lia. cbn [Z.of_nat].
    rewrite (Z.div_small (0 + batch_size - 1)) by lia. apply Z.div_unique with (Z.of_nat (Datatypes.S (length o)) - 1); lia.
  - replace (Z.of_nat (Datatypes.S (length o)) + batch_size - 1)
      with (Z.of_nat (Datatypes.S (length o) - k) + batch_size - 1 + 1 * batch_size) by lia.
    rewrite Z.div_add by lia. lia.
Qed.

Lemma batch_iterator_spec state o (y y' : rworld) r :
  scratch (replay_base y) !! entries_path (replay_order state) = Some (file_bytes o) →
  ReplayOrder.total_items (replay_order state) = len o → batch_iterator state y = (y', r) →
  match r with
  | Ok it => stays y y' ∧ it_at o it ∧ it_batch_size it = batch_size state
      ∧ it_max_concurrency it = materialization_max_concurrency state
  | Err e => env_error y e
  end.
Proof.
  intros Hs Ht. unfold batch_iterator. unfold mbind, stm_bind. destruct (on_base _ y) as [y1 r1] eqn:Ho.
  eapply on_base_runs in Ho; [|by apply open_reader_runs]. destruct Ho as (_&_&Ho).
  destruct r1 as [rd|e]; intros [= <- <-]; [|done]. by destruct Ho.
Qed.

(** C10. Reading the batches of a replay order, with threads and at any batch size:
    a read that succeeds gives the items of the order's entries, each loaded and
    checked, in the order's order and cut into as many batches as the state
    announces, none of them empty or larger than the batch size; the published
    embeddings are gone. A read that fails reports the error of the first entry
    that cannot be loaded, or an I/O failure. *)
Theorem replay_batches_spec fuel state o (y y' : rworld) r :
  scratch (replay_base y) !! entries_path (replay_order state) = Some (file_bytes o) →
  ReplayOrder.total_items (replay_order state) = len o → replay_total_items state = len o →
  Forall entry_ok o → 1 ≤ batch_size state →
  Forall (threads_end (blocks (replay_base y)) (materialization_max_concurrency state)) (order_chunks (batch_size state) o) →
  (length o < fuel)%nat →
  collect_replay_batches embedding_spec available_parallelism thread_schedule fuel state y = (y', r) →
  match r with
  | Ok batches => stays y y' ∧ current_batch_embeddings y' = ∅ ∧ len batches = total_batches state
      ∧ Forall (λ b, batch_items b ≠ [] ∧ len (batch_items b) ≤ batch_size state) batches
      ∧ ∃ loads, result_mapM (load (blocks (replay_base y))) o = Ok loads
          ∧ concat (batch_items <$> batches) = load_item <$> loads
  | Err e => env_error y e ∨ ∃ e', result_mapM (load (blocks (replay_base y))) o = Err e' ∧ e = ReplayBase e'
  end.
Proof.
  intros Hs Ht Hn Ho Hb Hend Hfuel. unfold collect_replay_batches. unfold mbind at 1, stm_bind at 1.
  destruct (batch_iterator state y) as [y1 [it|e]] eqn:Hi; apply (batch_iterator_spec _ o) in Hi; try done;
    [|intros [= <- <-]; by left].
  destruct Hi as (Hst&Hat&Hib&Him). rewrite <-(stays_blocks _ _ Hst), <-Him, <-Hib in Hend. unfold mbind, stm_bind.
  destruct (collect_loop _ _ _ fuel it [] y1) as [y2 r2] eqn:Hc.
  apply (collect_loop_spec _ o) in Hc; [|done|by rewrite Hib|done..]. rewrite Hib in Hc.
  destruct r2 as [batches|e]; intros [= <- <-].
  - destruct Hc as (Hst2&Hcur&lss&Hlss&->). rewrite (stays_blocks _ _ Hst) in Hlss. split; [by eapply stays_trans|].
    assert (Forall2 (λ es ls, length ls = length es) (order_chunks (batch_size state) o) lss) as Hlens.
    { apply result_mapM_ok in Hlss. eapply Forall2_impl; [exact Hlss|]. intros es ls Hls%result_mapM_ok. by apply Forall2_length in Hls. }
    split; [done|]. cbn [app]. set (bs := annotate_submission_progress_batches _ _).
    assert (batch_items <$> bs = (λ ls, load_item <$> ls) <$> lss) as Hbs.
    { unfold bs. rewrite annotate_items, <-list_fmap_compose. done. }
    assert (length bs = length (order_chunks (batch_size state) o)) as Hlen.
    { rewrite (Forall2_length _ _ _ Hlens). by rewrite <-(length_fmap batch_items bs), Hbs, length_fmap. }
    split_and!.
    + unfold len at 1. rewrite Hlen. fold (len (order_chunks (batch_size state) o)). rewrite order_chunks_count by done.
      unfold total_batches. rewrite Hn. destruct (len o =? 0) eqn:E; [|done]. apply Z.eqb_eq in E. rewrite E. apply Z.div_small. lia.
    + apply (Forall_fmap batch_items (λ items, items ≠ [] ∧ len items ≤ batch_size state)). rewrite Hbs. apply Forall_fmap.
      eapply Forall2_Forall_r; [exact Hlens|]. apply Forall_forall. intros es Hes ls Hls. cbn.
      apply order_chunks_ok in Hes as [Hne Hle]; [|done]. unfold len in *. rewrite length_fmap.
      split; [|lia]. intros Hnil%(f_equal length). rewrite length_fmap in Hnil. by destruct es, ls.
    + exists (concat lss). rewrite loads_of_concat with (batch_size := batch_size state), Hlss by done. split; [done|].
      rewrite Hbs. clear. induction lss as [|ls lss IH]; cbn; [done|]. by rewrite IH, fmap_app.
  - destruct Hc as [He|(e'&He&->)]; [left; by eapply env_error_back|right]. exists e'. split; [|done].
    rewrite (stays_blocks _ _ Hst) in He. by rewrite loads_of_concat with (batch_size := batch_size state), He by done.
Qed.

(** ** Embeddings *)
Lemma batch_load_ok store schedule es max_concurrency b :
  replay_batch_from_entries store embedding_spec available_parallelism schedule es max_concurrency = Ok b →
  ∃ loads, result_mapM (load store) es = Ok loads ∧ b = batch_load loads.
Proof.
  unfold replay_batch_from_entries. destruct (_ <=? 1) eqn:Hn.
  - intros (loads&Hl%map_err_ok&[= <-])%result_bind_ok. eauto.
  - intros (loads&Hl&[= <-])%result_bind_ok. exists loads. split; [|done].
    pose proof Hl as Hd. unfold load_replay_batch_entries_in_parallel in Hd. destruct (load_done _) eqn:Hdone; [|done]. clear Hd.
    apply Z.leb_gt in Hn. rewrite parallel_load_equal in Hl by (done || lia). by apply map_err_ok in Hl.
Qed.

Lemma next_batch_ok o it (y y' : rworld) b it' : it_at o it → 1 ≤ it_batch_size it → Forall entry_ok o →
  next_batch embedding_spec available_parallelism thread_schedule it y = (y', Ok (b, it')) →
  stays y y' ∧ fallback_embeddings y' = fallback_embeddings y ∧ it_batch_size it' = it_batch_size it
  ∧ it_at (drop (Z.to_nat (it_batch_size it)) o) it'
  ∧ match b with
    | None => current_batch_embeddings y' = ∅
    | Some b => ∃ loads, result_mapM (load (blocks (replay_base y))) (take (Z.to_nat (it_batch_size it)) o) = Ok loads
        ∧ b = loaded_batch (batch_load loads)
        ∧ current_batch_embeddings y' = extend_embeddings ∅ (loaded_embeddings (batch_load loads))
    end.
Proof.
  intros Hit Hbs Ho. unfold next_batch, load_next_batch. unfold mbind at 1, stm_bind at 1. unfold mbind at 1, stm_bind at 1.
  destruct (on_base _ y) as [y1 r1] eqn:Hread.
  eapply on_base_runs in Hread; [|by apply (read_next_runs (it_batch_size it) o); [lia|..]].
  destruct Hread as (Hc&Hf&Hread). destruct r1 as [[es' rd]|e1]; [|done].
  destruct Hread as [Hst [Hes Hrd]]. cbn [fst snd] in Hes, Hrd. subst es'.
  case_bool_decide; [intros [= <- <- <-]; by split_and!; [destruct Hst|..]|].
  unfold load_entries, mbind, stm_bind. rewrite (stays_blocks _ _ Hst).
  destruct (replay_batch_from_entries _ _ _ _ _ _) as [load0|e] eqn:Hl; [|done]. apply batch_load_ok in Hl as (loads&Hl&->).
  intros [= <- <- <-]. split_and!; try done; [by destruct Hst|]. by exists loads.
Qed.

(** An embedding that a leaf block of the order holds for an input hash. *)
Definition stored_embedding (store : S) (o : list ReplayOrderEntry) (k : block_hash) (e : bytes) : Prop :=
  ∃ entry v item, entry ∈ o ∧ get (oe_block_id entry) store = Ok (Some v)
    ∧ replay_embedding_input_hash v embedding_spec = Some k
    ∧ replay_item_from_validated_block (E := BlockStoreError S) (vb_hash v) (vb_block v) embedding_spec = Ok (Some (item, e)).

Lemma load_stored_entry store o entry ld : entry ∈ o → load store entry = Ok ld → stored_embedding store o (load_input_hash ld) (load_embedding ld).
Proof.
  intros Hin. unfold load_replay_batch_entry.
  intros (found&Hf%map_err_ok&(v&Hv&Hld)%result_bind_ok)%result_bind_ok. destruct found as [v'|]; [|done]. injection Hv as ->.
  unfold load_replay_batch_entry_from_validated in Hld.
  apply result_bind_ok in Hld as (k&Hk&Hld). apply result_bind_ok in Hld as (rep&Hrep&Hld).
  apply result_bind_ok in Hld as ([item emb]&Hie&Hld). apply result_bind_ok in Hld as (u&_&[= <-]).
  destruct rep as [[? ?]|]; [|done]. injection Hie as -> ->. exists entry, v, item. cbn. split_and!; try done.
  by destruct (replay_embedding_input_hash v embedding_spec) as [?|]; [injection Hk as ->|].
Qed.

Lemma extend_lookup (cache : EmbeddingCache) l k e : extend_embeddings cache l !! k = Some e → (k, e) ∈ l ∨ cache !! k = Some e.
Proof.
  unfold extend_embeddings. revert cache. induction l as [|[k' e'] l IH]; intros cache; cbn [foldl]; [by right|].
  intros [Hin|Hc]%IH; [left; by right|]. cbn [fst snd] in Hc. apply lookup_insert_Some in Hc as [[-> ->]|[_ Hc]]; [left; left|by right].
Qed.
Lemma extend_present (cache : EmbeddingCache) l k : (∃ e, (k, e) ∈ l) ∨ is_Some (cache !! k) → is_Some (extend_embeddings cache l !! k).
Proof.
  unfold extend_embeddings. revert cache. induction l as [|[k' e'] l IH]; intros cache; cbn [foldl].
  { by intros [[e ?%elem_of_nil]|?]. }
  intros [[e [[= -> ->]|Hin]%elem_of_cons]|Hc]; apply IH; [|left; eauto|]; right.
  - cbn [fst snd]. rewrite lookup_insert_eq. by eexists.
  - cbn [fst snd]. destruct (decide (k' = k)) as [->|?]; [rewrite lookup_insert_eq; by eexists|by rewrite lookup_insert_ne].
Qed.

(** What the caches hold is stored. *)
Definition genuine (o : list ReplayOrderEntry) (y : rworld) : Prop :=
  (∀ k e, current_batch_embeddings y !! k = Some e → stored_embedding (blocks (replay_base y)) o k e)
  ∧ (∀ cache k e, fallback_embeddings y = Some cache → cache !! k = Some e → stored_embedding (blocks (replay_base y)) o k e).

Lemma loads_genuine store o es loads k e : es ⊆ o → result_mapM (load store) es = Ok loads →
  extend_embeddings ∅ (loaded_embeddings (batch_load loads)) !! k = Some e → stored_embedding store o k e.
Proof.
  intros Hsub Hl%result_mapM_ok [Hin|Hc]%extend_lookup; [|by rewrite lookup_empty in Hc].
  cbn in Hin. apply list_elem_of_fmap in Hin as (ld&[= -> ->]&Hld). apply list_elem_of_lookup_1 in Hld as [i Hi].
  destruct (Forall2_lookup_r _ _ _ _ _ Hl Hi) as (entry&He&Hload). eapply load_stored_entry; [|done].
  apply Hsub. by eapply list_elem_of_lookup_2.
Qed.

Context (error_text : RuntimeError (BlockStoreError S) → string).

Lemma fallback_genuine store o es cache fb : es ⊆ o →
  (∀ k e, cache !! k = Some e → stored_embedding store o k e) →
  result_foldl (fallback_step embedding_spec error_text store) cache es = Ok fb →
  ∀ k e, fb !! k = Some e → stored_embedding store o k e.
Proof.
  revert cache. induction es as [|entry es IH]; intros cache Hsub Hc; cbn [result_foldl]; [by intros [= <-]|].
  intros (cache'&Hstep&Hrest)%result_bind_ok. eapply IH; [|  |exact Hrest]; [intros x ?; apply Hsub; by right|].
  unfold fallback_step in Hstep. apply result_bind_ok in Hstep as (found&Hf%map_err_ok&Hstep).
  destruct found as [v|]; [|by injection Hstep as <-].
  apply result_bind_ok in Hstep as (h&Hh&Hstep). apply result_bind_ok in Hstep as (rep&Hrep%map_err_ok&Hstep).
  apply result_bind_ok in Hstep as ([item emb]&Hie&[= <-]).
  destruct rep as [[? ?]|]; [|done]. injection Hie as -> ->.
  intros k e [[-> ->]|[_ Hk]]%lookup_insert_Some; [|by apply Hc]. exists entry, v, item.
  split_and!; [apply Hsub; left|done| |done]. by destruct (replay_embedding_input_hash v embedding_spec) as [?|]; [injection Hh as ->|].
Qed.

Lemma read_all_runs storage o (w : world S R) err : scratch w !! entries_path storage = Some (file_bytes o) →
  ReplayOrder.total_items storage = len o → Forall entry_ok o →
  runs_to (read_all_entries storage w) w (λ w' es, scratch w' = scratch w ∧ es = o) err.
Proof.
  intros Hs Ht Ho. unfold read_all_entries. eapply runs_to_bind; [by apply open_reader_runs|].
  intros w1 rd [Hs1 Hrd] _ _. rewrite Ht. eapply runs_to_bind; [apply read_next_runs; [apply len_nonneg|done..]|].
  intros w2 [es rd2] (Hs2&Hes&_) _ _. apply runs_to_ret. cbn in Hes. rewrite Hes.
  unfold len. rewrite Nat2Z.id, firstn_all. split; [congruence|done].
Qed.

Definition order_file (order : ReplayOrderStorage) (o : list ReplayOrderEntry) (y : rworld) : Prop :=
  scratch (replay_base y) !! entries_path order = Some (file_bytes o)
  ∧ ReplayOrder.total_items order = len o ∧ Forall entry_ok o.

Lemma load_embedding_spec order o k (y y' : rworld) r : order_file order o y → genuine o y →
  load_embedding_for_hash embedding_spec error_text order k y = (y', r) →
  current_batch_embeddings y' = current_batch_embeddings y
  ∧ match r with
    | Ok (Some e) => stored_embedding (blocks (replay_base y)) o k e
    | _ => current_batch_embeddings y !! k = None
    end
  ∧ (is_ok r = true → stays y y' ∧ genuine o y').
Proof.
  intros (Hs&Ht&Ho) Hg. pose proof Hg as [Hcur Hfall]. unfold load_embedding_for_hash.
  destruct (current_batch_embeddings y !! k) as [e|] eqn:Hk.
  { intros [= <- <-]. split_and!; [done|by apply Hcur|]. intros _. split; [apply stays_refl|done]. }
  destruct (_ <? _). { intros [= <- <-]. split_and!; [done..|]. intros _. split; [apply stays_refl|done]. }
  destruct (fallback_embeddings y) as [cache|] eqn:Hf.
  { intros [= <- <-]. split_and!; [done| |intros _; split; [apply stays_refl|done]].
    destruct (cache !! k) as [e|] eqn:Hc; [by eapply Hfall|done]. }
  pose proof (read_all_runs order o (replay_base y) (λ _, False) Hs Ht Ho) as Hread.
  destruct (read_all_entries order (replay_base y)) as [w rr] eqn:Hr. unfold runs_to in Hread. cbn [fst snd] in Hread.
  destruct rr as [es|e]; cbn [map_err mbind result_bind].
  2:{ by intros [= <- <-]. }
  destruct Hread as ([Hsc ->]&Hb&Hrf&Hben).
  destruct (result_foldl _ ∅ o) as [fb|e] eqn:Hfold; intros [= <- <-]; (split; [done|]).
  - pose proof (fallback_genuine (blocks w) o o ∅ fb (reflexivity _)) as Hgen. rewrite <-Hb. split.
    + destruct (fb !! k) as [e|] eqn:Hke; [|done]. eapply Hgen; [|exact Hfold|exact Hke]. intros ? ? Hemp. by rewrite lookup_empty in Hemp.
    + intros _. split; [by split|]. split; cbn [current_batch_embeddings replay_base fallback_embeddings].
      * rewrite Hb. exact Hcur.
      * intros cache k' e' [= <-] He. eapply Hgen; [|exact Hfold|exact He]. intros ? ? Hemp. by rewrite lookup_empty in Hemp.
  - by split.
Qed.

(** The clustering, as it uses the replay state: it takes the next batch or asks
    for an embedding. *)
Inductive clustering_step (order : ReplayOrderStorage)
    : ExternalizedReplayBatchIterator * rworld → ExternalizedReplayBatchIterator * rworld → Prop :=
| Take_batch it y b it' y' :
    next_batch embedding_spec available_parallelism thread_schedule it y = (y', Ok (b, it')) →
    clustering_step order (it, y) (it', y')
| Ask input it y e y' :
    embed_externalized embedding_spec error_text order input y = (y', Ok e) → clustering_step order (it, y) (it, y').

Record clustering_ok (order : ReplayOrderStorage) (o : list ReplayOrderEntry) (y0 : rworld)
    (it : ExternalizedReplayBatchIterator) (y : rworld) : Prop := {
  cok_stays : stays y0 y;
  cok_batch : 1 ≤ it_batch_size it;
  cok_at : ∃ rest, it_at rest it ∧ rest ⊆ o ∧ Forall entry_ok rest;
  cok_genuine : genuine o y
}.

Lemma order_file_stays order o y y' : stays y y' → order_file order o y → order_file order o y'.
Proof. intros Hst (Hs&?&?). split; [|done]. by rewrite (stays_scratch _ _ Hst). Qed.

Lemma embed_ok order o input (y y' : rworld) e : order_file order o y → genuine o y →
  embed_externalized embedding_spec error_text order input y = (y', Ok e) →
  stored_embedding (blocks (replay_base y)) o (hash_embedding_input input) e ∧ stays y y' ∧ genuine o y'.
Proof.
  intros Hof Hg. unfold embed_externalized. unfold mbind, stm_bind, lift.
  destruct (load_embedding_for_hash _ _ _ _ y) as [y1 [o1|e1]] eqn:Hl; [|done].
  destruct (load_embedding_spec _ _ _ _ _ _ Hof Hg Hl) as (_&Hr&Hok).
  destruct o1 as [e1|]; [|done]. intros [= <- <-]. destruct Hok; [done|]. by split_and!.
Qed.

Lemma clustering_step_ok order o y0 c c' : order_file order o y0 → clustering_ok order o y0 c.1 c.2 →
  clustering_step order c c' → clustering_ok order o y0 c'.1 c'.2.
Proof.
  intros Hof [Hst Hb (rest&Hat&Hsub&Hrest) Hg] Hstep. destruct Hstep as [it y b it' y' Hn|input it y e y' He]; cbn [fst snd] in *.
  - destruct (next_batch_ok _ _ _ _ _ _ Hat Hb Hrest Hn) as (Hst'&Hf&Hb'&Hat'&Hcur). split.
    + by eapply stays_trans.
    + by rewrite Hb'.
    + exists (drop (Z.to_nat (it_batch_size it)) rest). split_and!; [done| |by apply Forall_drop].
      intros x Hx. apply Hsub. by eapply subseteq_drop.
    + destruct Hg as [_ Hfall]. split.
      * intros k e. rewrite (stays_blocks _ _ Hst'). destruct b as [b|]; [|by rewrite Hcur, lookup_empty].
        destruct Hcur as (loads&Hl&_&->). intros Hk. eapply loads_genuine; [|exact Hl|exact Hk].
        intros x Hx. apply Hsub. by eapply subseteq_take.
      * intros cache k e. rewrite Hf, (stays_blocks _ _ Hst'). by apply Hfall.
  - destruct (embed_ok _ o _ _ _ _ (order_file_stays _ _ _ _ Hst Hof) Hg He) as (_&Hst'&Hg').
    split; [by eapply stays_trans|done|by exists rest|done].
Qed.

Lemma clustering_reach order o y0 c c' : order_file order o y0 → clustering_ok order o y0 c.1 c.2 →
  rtc (clustering_step order) c c' → clustering_ok order o y0 c'.1 c'.2.
Proof. intros Hof Hok Hsteps. induction Hsteps as [c|c1 c2 c3 Hstep _ IH]; [done|]. apply IH. by eapply clustering_step_ok. Qed.

(** C20. The embeddings that clustering is served, in whatever order it takes
    batches and asks: an embedding that the provider returns for an input was
    stored in a leaf block of the replay order for content with the input's
    hash -- never another's, never from a block outside the order. Right after a
    batch has been taken, every one of its inputs is answered, without touching
    the order again. *)
Theorem clustering_embeddings_genuine order o it0 y0 it y input (y' : rworld) r :
  order_file order o y0 → it_at o it0 → 1 ≤ it_batch_size it0 →
  current_batch_embeddings y0 = ∅ → fallback_embeddings y0 = None →
  rtc (clustering_step order) (it0, y0) (it, y) →
  (embed_externalized embedding_spec error_text order input y = (y', r) →
    match r with
    | Ok e => stored_embedding (blocks (replay_base y0)) o (hash_embedding_input input) e
    | Err _ => current_batch_embeddings y !! hash_embedding_input input = None
    end)
  ∧ ∀ b it' y1, next_batch embedding_spec available_parallelism thread_schedule it y = (y1, Ok (Some b, it')) →
    ∃ loads, batch_items b = load_item <$> loads
      ∧ ∀ ld, ld ∈ loads → hash_embedding_input input = load_input_hash ld →
        ∃ ld', ld' ∈ loads ∧ load_input_hash ld' = load_input_hash ld
          ∧ embed_externalized embedding_spec error_text order input y1 = (y1, Ok (load_embedding ld')).
Proof.
  intros Hof Hat Hb Hcur Hfall Hsteps.
  assert (clustering_ok order o y0 it0 y0) as H0'.
  { split; [apply stays_refl|done|exists o; split_and!; [done|done|by destruct Hof as (_&_&?)]|].
    split; [intros k e; by rewrite Hcur, lookup_empty|]. intros cache k e. by rewrite Hfall. }
  destruct (clustering_reach order o y0 (it0, y0) (it, y) Hof H0' Hsteps) as [Hst Hbs (rest&Hrat&_&Hrest) Hg]. cbn [fst snd] in *.
  split.
  - intros He. pose proof He as He'. unfold embed_externalized, mbind, stm_bind, lift in He'.
    destruct (load_embedding_for_hash _ _ _ _ y) as [y1 r1] eqn:Hl.
    destruct (load_embedding_spec _ o _ _ _ _ (order_file_stays _ _ _ _ Hst Hof) Hg Hl) as (_&Hr1&_).
    rewrite <-(stays_blocks _ _ Hst). destruct r1 as [[e1|]|e1]; injection He' as <- <-; done.
  - intros b it' y1 Hn. destruct (next_batch_ok _ _ _ _ _ _ Hrat Hbs Hrest Hn) as (_&_&_&_&loads&Hl&->&Hc).
    exists loads. split; [done|]. intros ld Hld Hk.
    destruct (extend_present ∅ (loaded_embeddings (batch_load loads)) (load_input_hash ld)) as [e He].
    { left. exists (load_embedding ld). cbn. apply list_elem_of_fmap. by exists ld. }
    pose proof He as [Hin|Hemp]%extend_lookup; [|by rewrite lookup_empty in Hemp].
    cbn in Hin. apply list_elem_of_fmap in Hin as (ld'&[= Hkey ->]&Hld'). exists ld'. split_and!; [done|done|].
    unfold embed_externalized, mbind, stm_bind, lift, load_embedding_for_hash. rewrite Hk, Hc, He. done.
Qed.

(** ** The two ways to read a journal's batches *)
Lemma collect_batches_loop_ok fuel o it acc (y y' : rworld) batches : it_at o it → 1 ≤ it_batch_size it → Forall entry_ok o →
  (length o < fuel)%nat →
  collect_loop embedding_spec available_parallelism thread_schedule fuel it acc y = (y', Ok batches) →
  ∃ lss, loads_of (blocks (replay_base y)) (it_batch_size it) o = Ok lss ∧ batches = acc ++ (loaded_batch ∘ batch_load <$> lss).
Proof.
  revert o it acc y. induction fuel as [|fuel IH]; intros o it acc y Hit Hbs Ho Hfuel; [lia|]. cbn [collect_loop].
  unfold mbind at 1, stm_bind at 1. destruct (next_batch _ _ _ it y) as [y1 [[b it1]|e]] eqn:Hn; [|done].
  destruct (decide (o = [])) as [->|Hne].
  { unfold next_batch, load_next_batch, mbind, stm_bind in Hn. destruct (on_base _ y) as [y2 [[es rd]|e]] eqn:Hread; [|done].
    eapply on_base_runs in Hread; [|by apply (read_next_runs (it_batch_size it) []); [lia|..]].
    destruct Hread as (_&_&_&Hes&_). cbn in Hes. rewrite take_nil in Hes. subst es. rewrite bool_decide_true in Hn by done.
    injection Hn as _ <- _. intros [= _ <-]. exists []. by rewrite app_nil_r. }
  destruct (next_batch_ok _ _ _ _ _ _ Hit Hbs Ho Hn) as (Hst&_&Hb&Hat&Hload). destruct b as [b|].
  - destruct Hload as (loads&Hl&->&_). intros Hrest. rewrite <-Hb in *.
    apply (IH (drop (Z.to_nat (it_batch_size it1)) o)) in Hrest; [|done|done|by apply Forall_drop|rewrite length_drop; destruct o; [done|cbn in *; lia]].
    destruct Hrest as (lss&Hlss&->). rewrite (stays_blocks _ _ Hst) in Hlss. exists (loads :: lss).
    rewrite loads_of_cons, Hl by done. cbn [mbind result_bind]. rewrite Hlss. split; [done|]. by rewrite <-app_assoc.
  - exfalso. unfold next_batch, load_next_batch, mbind, stm_bind in Hn. destruct (on_base _ y) as [y2 [[es rd]|e]] eqn:Hread; [|done].
    eapply on_base_runs in Hread; [|by apply (read_next_runs (it_batch_size it) o); [lia|..]].
    destruct Hread as (_&_&_&Hes&_). cbn in Hes. subst es. rewrite bool_decide_false in Hn; [by destruct (load_entries _ _ _ _ _ _) as [? []]|].
    destruct o; [done|]. destruct (Z.to_nat (it_batch_size it)) eqn:E; [lia|done].
Qed.

Lemma journal_loop_ok fuel o batch_size max_concurrency rd emb acc (y y' : rworld) p : reader_at o rd → 1 ≤ batch_size → Forall entry_ok o →
  (length o < fuel)%nat →
  journal_loop embedding_spec available_parallelism thread_schedule fuel batch_size max_concurrency rd emb acc y = (y', Ok p) →
  ∃ lss, loads_of (blocks (replay_base y)) batch_size o = Ok lss ∧ p.2 = acc ++ (loaded_batch ∘ batch_load <$> lss)
    ∧ p.1 = foldl (λ c ls, extend_embeddings c (loaded_embeddings (batch_load ls))) emb lss.
Proof.
  revert o rd emb acc y. induction fuel as [|fuel IH]; intros o rd emb acc y Hrd Hbs Ho Hfuel; [lia|]. cbn [journal_loop].
  unfold mbind at 1, stm_bind at 1. destruct (on_base _ y) as [y1 [[es rd1]|e]] eqn:Hread; [|done].
  eapply on_base_runs in Hread; [|by apply (read_next_runs batch_size o); [lia|..]].
  destruct Hread as (_&_&Hst&Hes&Hrd1). cbn [fst snd] in Hes, Hrd1. subst es. case_bool_decide as Hnil.
  { intros [= <- <-]. exists []. cbn. rewrite app_nil_r. destruct o; [done|]. destruct (Z.to_nat batch_size) eqn:E; [lia|done]. }
  assert (o ≠ []) as Hne by (intros ->; by rewrite take_nil in Hnil).
  unfold load_entries, mbind, stm_bind. rewrite (stays_blocks _ _ Hst).
  destruct (replay_batch_from_entries _ _ _ _ _ _) as [b|e] eqn:Hl; [|done]. apply batch_load_ok in Hl as (loads&Hl&->).
  intros Hrest. apply (IH (drop (Z.to_nat batch_size) o)) in Hrest; [|done|done|by apply Forall_drop|rewrite length_drop; destruct o; [done|cbn in *; lia]].
  destruct Hrest as (lss&Hlss&Hp2&Hp1). rewrite (stays_blocks _ _ Hst) in Hlss. exists (loads :: lss).
  rewrite loads_of_cons, Hl by done. cbn [mbind result_bind]. rewrite Hlss. split; [done|]. by rewrite Hp2, <-app_assoc.
Qed.

Context (scratch_dir : string) (chain_fuel passes fuel : nat) (scratch_root : string).

(** C35. The two ways to read a journal agree: reading the batches one by one
    through the externalised state and reading them all at once give, when both
    succeed, the same batches with the same messages; and every input of a batch
    has its embedding in the map that the second way returns. *)
Theorem replay_paths_agree order o replay_batch_size max_concurrency loop_fuel (y y1 y2 y3 : rworld) w state batches p :
  collect_ordered_replay_block_ids_from_journal scratch_dir chain_fuel passes fuel scratch_root (replay_base y) = Some (w, Ok order) →
  scratch w !! entries_path order = Some (file_bytes o) → ReplayOrder.total_items order = len o → Forall entry_ok o →
  (length o < loop_fuel)%nat →
  externalize_replay_batches_from_journal scratch_dir chain_fuel passes fuel scratch_root replay_batch_size max_concurrency y = Some (y1, Ok state) →
  collect_replay_batches embedding_spec available_parallelism thread_schedule loop_fuel state y1 = (y2, Ok batches) →
  load_replay_batches_from_journal embedding_spec available_parallelism thread_schedule scratch_dir chain_fuel passes fuel scratch_root
    replay_batch_size max_concurrency y = Some (y3, Ok p) →
  p.1 = batches ∧ ∃ loads, concat (batch_items <$> batches) = load_item <$> loads
    ∧ ∀ ld, ld ∈ loads → is_Some (p.2 !! load_input_hash ld).
Proof.
  intros Hcol Hs Ht Ho Hfuel. unfold externalize_replay_batches_from_journal, load_replay_batches_from_journal, after_order.
  rewrite Hcol. set (y0 := {| replay_base := w; current_batch_embeddings := ∅; fallback_embeddings := None |}).
  intros [= <- <-] Hcollect. unfold collect_replay_batches, mbind, stm_bind in Hcollect.
  destruct (batch_iterator _ y0) as [y4 [it|e]] eqn:Hit; [|done]. apply (batch_iterator_spec _ o) in Hit; [|done..].
  destruct Hit as (Hst&Hat&Hib&_). cbn [batch_size] in Hib.
  destruct (collect_loop _ _ _ loop_fuel it [] y4) as [y5 [bs|e]] eqn:Hloop; [|done]. injection Hcollect as _ <-.
  apply (collect_batches_loop_ok _ o) in Hloop; [|done|lia|done..]. destruct Hloop as (lss&Hlss&->). rewrite (stays_blocks _ _ Hst), Hib in Hlss.
  remember (Datatypes.S (Z.to_nat (ReplayOrder.total_items order))) as f eqn:Hf. intros [= Hload]. unfold mbind, stm_bind in Hload.
  destruct (on_base (open_reader order) y0) as [y6 [rd|e]] eqn:Hopen; [|done].
  eapply on_base_runs in Hopen; [|by apply open_reader_runs]. destruct Hopen as (_&_&Hst6&Hrd).
  destruct (journal_loop _ _ _ _ _ _ _ _ _ y6) as [y7 [[emb bs]|e]] eqn:Hjl; [|done].
  apply (journal_loop_ok _ o) in Hjl; [|done|lia|done|rewrite Hf, Ht; unfold len; lia].
  destruct Hjl as (lss'&Hlss'&Hp2&Hp1). rewrite (stays_blocks _ _ Hst6), Hlss in Hlss'. injection Hlss' as <-.
  cbn [fst snd app] in Hp1, Hp2. subst bs. unfold lift in Hload. destruct (reject_if _ _); [|done]. injection Hload as _ <-. cbn [fst snd].
  split; [done|]. exists (concat lss). split.
  - rewrite annotate_items. clear. induction lss as [|ls lss IH]; cbn; [done|]. cbn in IH. by rewrite IH, fmap_app.
  - rewrite Hp1. clear. intros ld Hld.
    assert (∀ c, ld ∈ concat lss ∨ is_Some (c !! load_input_hash ld) →
      is_Some (foldl (λ c ls, extend_embeddings c (loaded_embeddings (batch_load ls))) c lss !! load_input_hash ld)) as Hgen; [|apply Hgen; by left].
    clear Hld. induction lss as [|ls lss IH]; intros c; cbn [concat foldl]; [by intros [?%elem_of_nil|?]|].
    intros [[Hld|Hld]%elem_of_app|Hc]; apply IH; [right|by left|right]; apply extend_present; [left|by right].
    exists (load_embedding ld). cbn. apply list_elem_of_fmap. by exists ld.
Qed.
End replay.

(** * Replaying ingested items *)
Section replayed.
Context {S R : Type} `{PutBlock S, !BlockStoreLaws S, !PutBlockLaws S}.
Context `{G : !GetBlock S} `{!GetBlockLaws S} `{Sha256}.
Context `{CiboriumLaws} `{BuildCustomLaws} `{HashDisplayLaws} `{MailParse}.
Context `{EmbeddingJson} `{HalfFloat} `{StatusText}.
Context (fs : files) (provider : ConfiguredEmbeddingProvider) (spec : EmbeddingSpec).
Abbreviation load store := (load_replay_batch_entry store spec).

(** A load carries an item: its metadata and its place in the order, the content
    its reference had, and an embedding that the provider gave for it. *)
Definition replays (s : S) (item : IndexItem) (ld : ReplayBatchEntryLoad) : Prop :=
  item_metadata (load_item ld) = item_metadata item
  ∧ replay_sort_key (load_item ld) = replay_sort_key item
  ∧ ∃ content identity, item_content fs s item = Ok content
    ∧ item_content_ref (load_item ld) = CStoredReplay (media_type content) (body content) identity
    ∧ load_input_hash ld = hash_embedding_input (embedding_input content)
    ∧ ∃ sv, embed provider (embedding_input content) spec sv = Ok (load_embedding ld).

(** The items that ingestion makes: documents and email chunks, with the
    metadata that says so. *)
Definition ingestible (item : IndexItem) : Prop := content_ok (item_content_ref item) ∧ leaf_metadata_ok item.

Lemma stored_content {E} hash leaf entry stored embedding : replay_leaf_entry (BLeaf leaf) spec = Some entry →
  replay_item_from_validated_block (E := E) hash (BLeaf leaf) spec = Ok (Some (stored, embedding)) →
  ∃ identity, item_content_ref stored = CStoredReplay (media_type (le_content entry)) (body (le_content entry)) identity.
Proof.
  intros Hg. unfold replay_item_from_validated_block. rewrite Hg. cbv zeta.
  destruct (_ !! "source_kind") as [k|]; [|done].
  case_bool_decide; [|case_bool_decide; [|done]].
  - intros (p&_&[= <- <-])%result_bind_ok. by eexists.
  - intros (p&_&(c&_&[= <- <-])%result_bind_ok)%result_bind_ok. by eexists.
Qed.

(** Configured metadata is written after the fields of ingestion and replaces
    them: the leaf of an item whose metadata names another kind of source is
    journaled, and no entry for it ever loads. *)
Lemma overridden_kind_never_loads s item h k e : stored_leaf fs provider spec s item h →
  metadata_to_text_map (item_metadata item) !! "source_kind"%string = Some k → k ≠ "document"%string → k ≠ "email"%string →
  oe_block_id e = h → is_ok (load s e) = false.
Proof.
  intros (Hh&leaf&entry&Hget&_&_&Hentries&Hmd&_) Hk Hd He Hid. unfold load_replay_batch_entry.
  rewrite Hid, (get_v1 _ _ _ Hget). cbn [map_err ok_or mbind result_bind].
  unfold load_replay_batch_entry_from_validated, replay_item_from_validated_block. cbn [vb_hash vb_block].
  destruct (replay_embedding_input_hash _ _); [|done]. cbn [ok_or mbind result_bind].
  destruct (replay_leaf_entry (BLeaf leaf) spec) as [found|] eqn:Hg; [|done]. cbv zeta.
  assert (found = entry) as ->.
  { cbn in Hg. rewrite Hentries in Hg. repeat case_match; by simplify_eq. }
  by rewrite Hmd, Hk, !bool_decide_false.
Qed.

Lemma stored_leaf_loads s item h : stored_leaf fs provider spec s item h → ingestible item → 1 ≤ dims spec →
  ∃ e ld, entry_of_record (replay_journal_record_from_item h item) = Some e ∧ load s e = Ok ld ∧ replays s item ld.
Proof.
  intros (Hh&leaf&entry&Hget&Hlevel&Hspec&Hentries&Hmd&[sv Hemb]&Hcontent) [Hc Hok] Hdims.
  destruct (record_digest_is_item_digest h item Hc) as [Hdigest [digest Hd]].
  assert (replay_leaf_entry (BLeaf leaf) spec = Some entry) as Hg.
  { cbn. rewrite Hentries, Hlevel, Hspec. pose proof (embed_nonempty _ _ _ _ _ Hemb Hdims).
    rewrite (bool_decide_false (spec ≠ spec)) by naive_solver. rewrite (bool_decide_false (le_embedding entry = [])) by done.
    rewrite (proj2 (Z.eqb_neq (dims spec) 0)) by lia. done. }
  destruct (stored_item_digest (E := BlockStoreError S) item spec h leaf entry Hc Hok Hmd Hg) as (stored&Hst&Hsm&Hsk&Hsd).
  destruct (stored_content _ _ _ _ _ Hg Hst) as [identity Hid].
  exists {| oe_block_id := h; oe_digest := digest |}.
  eexists. split_and!.
  - change (entry_of_record (replay_journal_record_from_item h item)) with
      (block_id ← decode_hash (hash_to_string h);
       digest ← mjoin (replay_journal_record_sort_key_digest (replay_journal_record_from_item h item));
       Some {| oe_block_id := block_id; oe_digest := digest |}).
    rewrite decode_hash_to_string by done. cbn [mbind option_bind]. by rewrite Hdigest, Hd.
  - unfold load_replay_batch_entry. cbn [oe_block_id]. rewrite (get_v1 _ _ _ Hget). cbn [map_err ok_or mbind result_bind].
    unfold load_replay_batch_entry_from_validated, replay_embedding_input_hash. cbn [vb_hash vb_block].
    rewrite Hg. cbn [ok_or mbind option_bind result_bind]. rewrite Hst. cbn [ok_or mbind result_bind oe_digest].
    rewrite Hsd, Hd, bool_decide_false by naive_solver. done.
  - split; [done|]. split; [done|]. exists (le_content entry), identity. split_and!; [done|done|done|by exists sv].
Qed.

(** C6. What ingestion records, replaying finds, for embeddings of at least one
    dimension and items whose configured metadata leaves [source_kind] and
    [source_path] (for an email chunk [source_kind], its artifact and its index) as
    ingestion writes them, [ingestible]: if a journal holds the records of such
    items and their leaf blocks are in the store, then every entry of its replay
    order loads, each load carries one of the items -- its metadata, its place in
    the order, its content and the embedding the provider gave for it -- and every
    item is carried by a load. An item with metadata that overrides these fields is
    recorded as well, but need not replay. *)
Theorem ingested_items_replay s its l o : 1 ≤ dims spec → Forall ingestible its →
  Forall2 (journaled fs provider spec s) its l → order_of (replay_entries l) o →
  Forall readable l
  ∧ ∃ loads, result_mapM (load s) o = Ok loads
    ∧ Forall (λ ld, ∃ item, item ∈ its ∧ replays s item ld) loads
    ∧ Forall (λ item, ∃ ld, ld ∈ loads ∧ replays s item ld) its.
Proof.
  intros Hdims Hits Hl [_ Ho].
  assert (∀ item r, journaled fs provider spec s item r → item ∈ its →
    ∃ e ld, entry_of_record r = Some e ∧ load s e = Ok ld ∧ replays s item ld) as Hone.
  { intros item r (h&->&Hst) Hin. apply stored_leaf_loads; [done| |done]. rewrite Forall_forall in Hits. by apply Hits. }
  assert (∀ e, e ∈ o → ∃ ld, load s e = Ok ld ∧ ∃ item, item ∈ its ∧ replays s item ld) as Hall.
  { intros e (r&Hr&He)%Ho%list_elem_of_omap. apply list_elem_of_lookup_1 in Hr as [i Hi].
    destruct (Forall2_lookup_r _ _ _ _ _ Hl Hi) as (item&Hitem&Hj).
    assert (item ∈ its) as Hin by (by eapply list_elem_of_lookup_2).
    destruct (Hone _ _ Hj Hin) as (e'&ld&He'&Hld&Hrep). rewrite He in He'. injection He' as <-. eauto. }
  split.
  { eapply Forall2_Forall_r; [exact Hl|]. apply Forall_forall. intros item Hin r (h&->&Hst). cbn [readable].
    destruct (Hone item _ (ex_intro _ h (conj eq_refl Hst)) Hin) as (e&_&He&_). by exists e. }
  assert (∃ loads, result_mapM (load s) o = Ok loads) as [loads Hloads].
  { clear -Hall. induction o as [|e o IH]; [by exists []|]. destruct (Hall e) as (ld&Hld&_); [left|].
    destruct IH as [lds Hlds]; [intros e' ?; apply Hall; by right|]. exists (ld :: lds). cbn. rewrite Hld. cbn. by rewrite Hlds. }
  exists loads. split; [done|]. apply result_mapM_ok in Hloads. split.
  - eapply Forall2_Forall_r; [exact Hloads|]. apply Forall_forall. intros e He ld Hld.
    destruct (Hall e He) as (ld'&Hld'&Hrep). rewrite Hld in Hld'. by injection Hld' as <-.
  - apply Forall_forall. intros item Hin. apply list_elem_of_lookup_1 in Hin as Hi. destruct Hi as [i Hi].
    destruct (Forall2_lookup_l _ _ _ _ _ Hl Hi) as (r&Hr&Hj). destruct (Hone _ _ Hj Hin) as (e&ld&He&Hld&Hrep).
    exists ld. split; [|done]. assert (e ∈ o) as Heo.
    { apply Ho, list_elem_of_omap. exists r. split; [by eapply list_elem_of_lookup_2|done]. }
    apply list_elem_of_lookup_1 in Heo as [j Hj']. destruct (Forall2_lookup_l _ _ _ _ _ Hloads Hj') as (ld'&Hl'&He').
    rewrite Hld in He'. injection He' as <-. by eapply list_elem_of_lookup_2.
Qed.
End replayed.
