(* ===== verification/ReplayWitness.v ===== *)
(** * The replay theorems at concrete inputs

    The two documents that [IngestWitness.v] streams are replayed from the world
    that the streaming leaves, by two threads. *)

From Stdlib Require Import ZArith Lia Ascii.
From stdpp Require Import base gmap sets strings sorting option list.
From S2P Require Import Prelude Hex Blocks Cbor Text Runtime Instances ReplayJournal ReplayJournalSpec Items SortKey Orders ReplayOrder ReplayOrderSpec Mailbox Resolver MailboxSpec MailboxWitness Config Embedding EmbeddingWitness LeafWorkers LeafWorkersSpec Ingest IngestSpec IngestBatchesSpec IngestWitness Replay ReplaySpec.
#[local] Open Scope Z_scope.
#[local] Existing Instances toy_mail_parse plain_json no_halves plain_status tagged_leaves tagged_leaves_laws.
#[local] Existing Instances mixed_block_store mixed_block_store_laws mixed_put_block mixed_put_block_laws.

#[local] Instance mixed_get_block : GetBlock mixed_store := λ h s,
  match mixed_get h s with
  | Some (DecodedV1 b) => Ok (Some {| vb_hash := h; vb_block := b |})
  | Some (DecodedV2 _) => Err "not a version 1 block"
  | None => Ok None
  end.
#[local] Instance mixed_get_block_laws : GetBlockLaws mixed_store.
Proof.
  split; unfold get, mixed_get_block.
  - intros h s v. destruct (mixed_get h s) as [[b|t]|]; [by intros [= <-]|done..].
  - intros h s b [= ->]. done.
Qed.

(** ** The world after streaming *)
Definition ingested : world mixed_store MutableRefStoreState := Eval vm_compute in world_of streamed.1.
Definition leaf_ids : list block_hash := Eval vm_compute in staged_ids (staged stream_end).
Definition ingested_records : list ReplayJournalRecord := batch_journal_records document_items leaf_ids.
Definition document_order : list ReplayOrderEntry := Eval vm_compute in merge_sort entry_le (replay_entries ingested_records).

Lemma document_entries_ok : Forall entry_ok document_order.
Proof. repeat constructor; apply Z.leb_le || apply Z.ltb_lt; reflexivity. Qed.

Definition two_threads (es : list ReplayOrderEntry) : list load_label :=
  [WorkerStep 0; WorkerStep 1; WorkerStep 1; WorkerStep 0; WorkerStep 1; Receive; WorkerStep 0; Receive].

Lemma parallel_load_sequential_witness :
  load_replay_batch_entries_in_parallel (blocks ingested) one_value document_order 2 (two_threads document_order)
  = map_err ReplayBase (result_mapM (load_replay_batch_entry (blocks ingested) one_value) document_order).
Proof.
  refine (proj1 (parallel_load_sequential (blocks ingested) one_value document_order 2 (two_threads document_order) _) _); [lia|].
  vm_compute. reflexivity.
Defined.

Example both_loaded : (length <$> (result_mapM (load_replay_batch_entry (blocks ingested) one_value) document_order)) = Ok 2%nat.
Proof. vm_compute. reflexivity. Qed.

(** ** Reading the batches back *)
Abbreviation replay_test := (replay_world mixed_store MutableRefStoreState).
Definition order_storage : ReplayOrderStorage := {| entries_path := "order"; ReplayOrder.total_items := 2 |}.
Definition replay_state : ExternalizedReplayState :=
  {| replay_order := order_storage; replay_total_items := 2; batch_size := 2; materialization_max_concurrency := 8 |}.
Definition replay_start : replay_test :=
  {| replay_base := set_scratch {["order" := file_bytes document_order]} ingested;
     current_batch_embeddings := ∅; fallback_embeddings := None |}.
Abbreviation collected := (collect_replay_batches one_value (Some 2) two_threads 3 replay_state replay_start).
Definition replayed_batches : list ReplayBatch := match collected.2 with Ok b => b | Err _ => [] end.
Lemma collected_ok : collected = (collected.1, Ok replayed_batches).
Proof. vm_compute. reflexivity. Qed.
Lemma replay_start_file : scratch (replay_base replay_start) !! entries_path order_storage = Some (file_bytes document_order).
Proof. vm_compute. reflexivity. Qed.

Lemma replay_batches_spec_witness : len replayed_batches = 1 ∧ current_batch_embeddings collected.1 = ∅.
Proof.
  destruct (replay_batches_spec one_value (Some 2) two_threads 3 replay_state document_order replay_start collected.1 (Ok replayed_batches)
    replay_start_file eq_refl eq_refl document_entries_ok) as (_&Hc&Hlen&_).
  - cbn. lia.
  - constructor; [|constructor]. intros _. vm_compute. reflexivity.
  - cbn. lia.
  - exact collected_ok.
  - split; [exact Hlen|exact Hc].
Defined.

Definition replay_reader : ExternalizedReplayBatchIterator := {|
  replay_order_reader := {| rd_path := "order"; rd_reader := file_bytes document_order; rd_remaining := 2 |};
  it_batch_size := 1; it_max_concurrency := 1 |}.
Abbreviation first_taken := (next_batch one_value (Some 2) two_threads replay_reader replay_start).
Definition taken_reader : ExternalizedReplayBatchIterator := match first_taken.2 with Ok (_, it) => it | Err _ => replay_reader end.
Definition taken_batch : option ReplayBatch := match first_taken.2 with Ok (b, _) => b | Err _ => None end.
Lemma first_taken_ok : first_taken = (first_taken.1, Ok (taken_batch, taken_reader)).
Proof. vm_compute. reflexivity. Qed.

(** The input of the other document is found in the order. *)
Definition other_input : EmbeddingInput := {| input_media_type := "text/plain"; input_body := [97] |}.
Abbreviation asked := (embed_externalized one_value (λ _, "") order_storage other_input first_taken.1).
Lemma asked_ok : asked = (asked.1, Ok [7; 0; 0; 0]).
Proof. vm_compute. reflexivity. Qed.

Lemma clustering_embeddings_genuine_witness :
  stored_embedding one_value (blocks ingested) document_order (hash_embedding_input other_input) [7; 0; 0; 0].
Proof.
  refine (proj1 (clustering_embeddings_genuine one_value (Some 2) two_threads (λ _, "") order_storage document_order replay_reader
    replay_start taken_reader first_taken.1 other_input asked.1 (Ok [7; 0; 0; 0]) _ _ _ _ _ _) asked_ok).
  - split; [exact replay_start_file|]. split; [reflexivity|exact document_entries_ok].
  - split; reflexivity.
  - cbn. lia.
  - reflexivity.
  - reflexivity.
  - eapply rtc_once, Take_batch, first_taken_ok.
Defined.

(** ** The two ways *)
Definition journal_start : replay_test := {| replay_base := ingested; current_batch_embeddings := ∅; fallback_embeddings := None |}.
Abbreviation order_run := (collect_ordered_replay_block_ids_from_journal "scratch" 10 10 10 "" ingested).
Abbreviation externalized := (externalize_replay_batches_from_journal "scratch" 10 10 10 "" 2 1 journal_start).
Abbreviation all_at_once := (load_replay_batches_from_journal one_value None two_threads "scratch" 10 10 10 "" 2 1 journal_start).
Definition order_world : world mixed_store MutableRefStoreState := Eval vm_compute in
  match order_run with Some (w, _) => w | None => ingested end.
Definition collected_order : ReplayOrderStorage := Eval vm_compute in
  match order_run with Some (_, Ok s) => s | _ => order_storage end.
Definition external_world : replay_test := Eval vm_compute in match externalized with Some (y, _) => y | None => journal_start end.
Definition external_state : ExternalizedReplayState := Eval vm_compute in
  match externalized with Some (_, Ok s) => s | _ => replay_state end.
Definition loaded_world : replay_test := Eval vm_compute in match all_at_once with Some (y, _) => y | None => journal_start end.
Definition loaded_all : list ReplayBatch * gmap (list Z) bytes := Eval vm_compute in
  match all_at_once with Some (_, Ok p) => p | _ => ([], ∅) end.
Abbreviation one_by_one := (collect_replay_batches one_value None two_threads 3 external_state external_world).
Definition one_by_one_batches : list ReplayBatch := Eval vm_compute in match one_by_one.2 with Ok b => b | Err _ => [] end.

Lemma order_run_ok : order_run = Some (order_world, Ok collected_order).
Proof. vm_compute. reflexivity. Qed.
Lemma externalized_ok : externalized = Some (external_world, Ok external_state).
Proof. vm_compute. reflexivity. Qed.
Lemma all_at_once_ok : all_at_once = Some (loaded_world, Ok loaded_all).
Proof. vm_compute. reflexivity. Qed.
Lemma one_by_one_ok : one_by_one = (one_by_one.1, Ok one_by_one_batches).
Proof. vm_compute. reflexivity. Qed.
Lemma order_world_file : scratch order_world !! entries_path collected_order = Some (file_bytes document_order).
Proof. vm_compute. reflexivity. Qed.

Lemma replay_paths_agree_witness : loaded_all.1 = one_by_one_batches.
Proof.
  refine (proj1 (replay_paths_agree one_value None two_threads "scratch" 10 10 10 "" collected_order document_order 2 1 3
    journal_start external_world one_by_one.1 loaded_world order_world external_state one_by_one_batches loaded_all
    order_run_ok order_world_file eq_refl document_entries_ok _ externalized_ok one_by_one_ok all_at_once_ok)).
  cbn. lia.
Defined.

(** ** From ingestion to replay *)
Definition stored_document (body : Z) (tag : Z) : LeafBlock :=
  match read_leaf [tag; 7; 0; 0; 0; body] with BLeaf l => l | BBranch _ => {| lb_level := 0; lb_type_name := ""; lb_spec := one_value; lb_entries := [] |} end.
Definition document_entry (body : Z) (tag : Z) : LeafEntry :=
  {| le_metadata := metadata_of tag; le_embedding := [7; 0; 0; 0]; le_content := {| media_type := "text/plain"; body := [body] |} |}.

Lemma document_journaled i item h body tag : document_items !! i = Some item → leaf_ids !! i = Some h → hash_ok h →
  get_decoded h (blocks ingested) = Ok (Some (DecodedV1 (BLeaf (stored_document body tag)))) →
  metadata_of tag = item_metadata item → item_content document_files (blocks ingested) item = Ok {| media_type := "text/plain"; body := [body] |} →
  journaled document_files (ProviderLocal local_provider) one_value (blocks ingested) item (replay_journal_record_from_item h item).
Proof.
  intros Hi Hh Hok Hget Hmd Hc. exists h. split; [done|]. split; [done|].
  exists (stored_document body tag), (document_entry body tag). split; [exact Hget|]. split; [done|]. split; [done|]. split; [done|].
  split; [exact Hmd|]. split; [|exact Hc]. exists no_services. vm_compute. reflexivity.
Qed.

Lemma documents_journaled : Forall2 (journaled document_files (ProviderLocal local_provider) one_value (blocks ingested)) document_items ingested_records.
Proof.
  assert (ingested_records = (λ x, replay_journal_record_from_item x.2 x.1) <$> zip document_items leaf_ids) as -> by done.
  apply Forall2_fmap_r. apply Forall2_same_length_lookup_2; [vm_compute; reflexivity|].
  intros i item [item' h] Hi Hz. apply lookup_zip_with_Some in Hz as (item2&h2&[= <- <-]&Hi2&Hh). rewrite Hi in Hi2. injection Hi2 as <-. cbn [fst snd].
  destruct i as [|[|i]]; [apply (document_journaled 0 item h 98 0)|apply (document_journaled 1 item h 97 1)|done]; try done;
    vm_compute in Hi, Hh; injection Hi as <-; injection Hh as <-; try (vm_compute; reflexivity);
    (split; [reflexivity|]); repeat constructor; apply Z.leb_le || apply Z.ltb_lt; reflexivity.
Qed.

Lemma documents_ordered : order_of (replay_entries ingested_records) document_order.
Proof.
  assert (document_order = merge_sort entry_le (replay_entries ingested_records)) as Ho by (vm_compute; reflexivity). split.
  - unfold document_order. constructor; [repeat constructor|]. constructor; [|constructor]. split; vm_compute; discriminate.
  - intros e. rewrite Ho. by rewrite merge_sort_Permutation.
Qed.

Lemma documents_ingestible : Forall ingestible document_items.
Proof. repeat constructor; vm_compute; reflexivity. Qed.

Lemma ingested_items_replay_witness : ∃ loads,
  result_mapM (load_replay_batch_entry (blocks ingested) one_value) document_order = Ok loads ∧ length loads = 2%nat
  ∧ Forall (λ item, ∃ ld, ld ∈ loads ∧ replays document_files (ProviderLocal local_provider) one_value (blocks ingested) item ld) document_items.
Proof.
  destruct (ingested_items_replay document_files (ProviderLocal local_provider) one_value (blocks ingested) document_items ingested_records
    document_order (Z.le_refl 1) documents_ingestible documents_journaled documents_ordered) as (_&loads&Hl&_&Hall).
  exists loads. split; [exact Hl|]. split; [|exact Hall].
  revert Hl. vm_compute. intros [= <-]. reflexivity.
Defined.
