(* ===== verification/Floats.v ===== *)
(** * IEEE 754 numbers

    The [f32] and [f64] of the program, computed with the Standard Library's
    specification of floating point: [f64_*] are the binary64 operations with
    rounding to nearest even, [f32_of_bits] reads a binary32 bit pattern, and
    [f64_of_f32] is the exact widening of [f64::from]. *)

From Stdlib Require Import ZArith Lia.
From Stdlib.Floats Require Import SpecFloat.
From stdpp Require Import base list.
#[local] Open Scope Z_scope.

Abbreviation float := spec_float.

(** ** Binary64 *)
Definition f64_add : float → float → float := SFadd 53 1024.
Definition f64_sub : float → float → float := SFsub 53 1024.
Definition f64_mul : float → float → float := SFmul 53 1024.
Definition f64_div : float → float → float := SFdiv 53 1024.
Definition f64_sqrt : float → float := SFsqrt 53 1024.
Definition f64_of_Z (n : Z) : float := binary_normalize 53 1024 n 0 false.
Definition f64_zero : float := S754_zero false.
Definition f64_neg_zero : float := S754_zero true.
(** [f64::EPSILON], two to the minus 52. *)
Definition f64_epsilon : float := binary_normalize 53 1024 1 (-52) false.

(** ** Binary32 *)
Definition f32_add : float → float → float := SFadd 24 128.
Definition f32_sub : float → float → float := SFsub 24 128.
Definition f32_mul : float → float → float := SFmul 24 128.
Definition f32_div : float → float → float := SFdiv 24 128.
Definition f32_sqrt : float → float := SFsqrt 24 128.
Definition f32_of_Z (n : Z) : float := binary_normalize 24 128 n 0 false.

Definition f32_of_bits (bits : Z) : float :=
  let sign := Z.testbit bits 31 in
  let exponent := Z.shiftr bits 23 mod 2 ^ 8 in
  let fraction := bits mod 2 ^ 23 in
  if exponent =? 255 then if fraction =? 0 then S754_infinity sign else S754_nan
  else if exponent =? 0 then
    match fraction with Zpos m => S754_finite sign m (-149) | _ => S754_zero sign end
  else match 2 ^ 23 + fraction with Zpos m => S754_finite sign m (exponent - 150) | _ => S754_zero sign end.

Definition f64_of_f32 (x : float) : float :=
  match x with
  | S754_finite s m e => binary_normalize 53 1024 (cond_Zopp s (Zpos m)) e s
  | x => x
  end.

(** ** Comparisons: every one with a NaN is false *)
Definition float_le : float → float → bool := SFleb.
Definition float_lt : float → float → bool := SFltb.
Definition is_finite (x : float) : bool :=
  match x with S754_zero _ | S754_finite _ _ _ => true | _ => false end.

(** [f64::min] and [f64::max]: a NaN loses. *)
Definition float_min (x y : float) : float :=
  match x, y with
  | S754_nan, y => y
  | x, S754_nan => x
  | x, y => if float_lt y x then y else x
  end.
Definition float_max (x y : float) : float :=
  match x, y with
  | S754_nan, y => y
  | x, S754_nan => x
  | x, y => if float_lt x y then y else x
  end.

(** [Iterator::sum] of floats starts from minus zero, the neutral element. *)
Definition f64_sum (l : list float) : float := foldl f64_add f64_neg_zero l.
Definition f32_sum (l : list float) : float := foldl f32_add f64_neg_zero l.

Example one_and_a_half : f64_of_f32 (f32_of_bits 1069547520) = f64_div (f64_of_Z 3) (f64_of_Z 2).
Proof. reflexivity. Qed.
Example tenths : f64_add (f64_div (f64_of_Z 1) (f64_of_Z 10)) (f64_div (f64_of_Z 2) (f64_of_Z 10)) ≠ f64_div (f64_of_Z 3) (f64_of_Z 10).
Proof. discriminate. Qed.
