(* ===== verification/Diagnostics.v ===== *)
(** * Clustering failure diagnostics ([runtime.rs])

    When the delegated clustering fails, the runner describes its inputs: which
    of them have an embedding, whether the embeddings decode, are finite, repeat
    or have no variance, with samples of the suspicious ones, and what the failed
    status of the indexer says. The theorems are in [DiagnosticsSpec.v]. *)

From Stdlib Require Import ZArith Lia Ascii.
From stdpp Require Import base gmap sets strings sorting option list.
From S2P Require Import Prelude Floats Hex Blocks Text Items Runtime ReplayOrder Mailbox Resolver Config Embedding Ingest Replay.
#[local] Open Scope Z_scope.

(** ** What the indexer reports

    [StreamingIndexingStatus] with the fields that the diagnostics read. *)
Inductive PlanningStage := SingleStage | CoarseStage | FineStage | CustomStage.
Inductive StreamingIndexingPhase :=
| PlanningPass (pass_number : Z)
| HierarchyPlanning (stage : PlanningStage)
| V3PartitionLoad (layer_index : Z)
| V3PartitionTrainIngest (layer_index : Z)
| V3PartitionClassify (layer_index : Z)
| V3TerminalMaterializationLoad (layer_index : Z)
| FinalMaterializationReplay
| BottomUpAssembly (layer_index : Z).
Record StreamingIndexingStatus := {
  phase : StreamingIndexingPhase;
  status_failed : bool;
  item_count : Z;
  completed_unit_count : Z;
  phase_total_unit_count : option Z
}.

Definition format_planning_stage (stage : PlanningStage) : string :=
  match stage with
  | SingleStage => "single-stage planning"
  | CoarseStage => "coarse planning"
  | FineStage => "fine planning"
  | CustomStage => "custom planning"
  end.

Definition failed_status_specificity (status : StreamingIndexingStatus) : Z :=
  match phase status with
  | PlanningPass _ => 0
  | FinalMaterializationReplay => 1
  | _ => 2
  end.

Definition prefer_failed_status (candidate existing : StreamingIndexingStatus) : bool :=
  let candidate_specificity := failed_status_specificity candidate in
  let existing_specificity := failed_status_specificity existing in
  (existing_specificity <? candidate_specificity)
  || ((candidate_specificity =? existing_specificity) && (item_count candidate <=? item_count existing)).

(** What the observer keeps of the statuses it is called with. *)
Definition capture_failed_status (captured : option StreamingIndexingStatus) (status : StreamingIndexingStatus)
    : option StreamingIndexingStatus :=
  if status_failed status then
    match captured with
    | Some existing => if prefer_failed_status status existing then Some status else captured
    | None => Some status
    end
  else captured.

(** ** Published profiles of the indexer crate *)
Record PlanningSettings := { cluster_count : Z; random_seed : option Z }.
Inductive PublishedPlanningStrategy :=
| SphericalKmeansGreedyPack (settings : PlanningSettings)
| DirectionalPcaDivisive (settings : PlanningSettings).
Inductive BuiltInPlanningDirection := Divisive | Agglomerative.
Record PublishedIndexingProfile := {
  profile_version_of : PublishedProfileVersion;
  planning_algorithm_id : string;
  planning_direction : option BuiltInPlanningDirection;
  packing_strategy_id : option string;
  hierarchy_strategy_id : string;
  summary_policy_id : string;
  planning_strategy : PublishedPlanningStrategy
}.
Inductive StreamingIndexerError := Cancelled (message : string) | IndexerFailed (message : string).
Class PublishedProfiles :=
  published_indexing_profile : PublishedProfileVersion → result StreamingIndexerError PublishedIndexingProfile.

Definition with_cluster_count (n : Z) (settings : PlanningSettings) : PlanningSettings :=
  {| cluster_count := n; random_seed := random_seed settings |}.
Definition resolved_published_profile `{PublishedProfiles} (clustering : ConfiguredClustering)
    : result StreamingIndexerError PublishedIndexingProfile :=
  profile ← published_indexing_profile (clustering_profile_version clustering);
  Ok (match clustering_cluster_count clustering with
      | None => profile
      | Some n =>
          {| profile_version_of := profile_version_of profile;
             planning_algorithm_id := planning_algorithm_id profile;
             planning_direction := planning_direction profile;
             packing_strategy_id := packing_strategy_id profile;
             hierarchy_strategy_id := hierarchy_strategy_id profile;
             summary_policy_id := summary_policy_id profile;
             planning_strategy := match planning_strategy profile with
               | SphericalKmeansGreedyPack settings => SphericalKmeansGreedyPack (with_cluster_count n settings)
               | DirectionalPcaDivisive settings => DirectionalPcaDivisive (with_cluster_count n settings)
               end |}
      end).

Definition published_profile_cluster_count (profile : PublishedIndexingProfile) : option Z :=
  match planning_strategy profile with
  | SphericalKmeansGreedyPack settings => Some (cluster_count settings)
  | DirectionalPcaDivisive settings => Some (cluster_count settings)
  end.
Definition published_profile_random_seed (profile : PublishedIndexingProfile) : option Z :=
  match planning_strategy profile with
  | SphericalKmeansGreedyPack settings => random_seed settings
  | DirectionalPcaDivisive settings => random_seed settings
  end.
Definition published_planning_direction_name (direction : BuiltInPlanningDirection) : string :=
  match direction with Divisive => "divisive" | Agglomerative => "agglomerative" end.

Record EffectiveClusteringDiagnostics := {
  eff_profile_version : string;
  eff_planning_algorithm_id : string;
  eff_planning_direction : option string;
  eff_packing_strategy_id : option string;
  eff_hierarchy_strategy_id : string;
  eff_summary_policy_id : string;
  eff_cluster_count : option Z;
  eff_random_seed : option Z
}.
Definition effective_clustering_diagnostics `{PublishedProfiles} `{ProfileVersionText} (clustering : ConfiguredClustering)
    : option EffectiveClusteringDiagnostics :=
  profile ← result_option (resolved_published_profile clustering);
  Some {| eff_profile_version := profile_version_text (profile_version_of profile);
          eff_planning_algorithm_id := planning_algorithm_id profile;
          eff_planning_direction := published_planning_direction_name <$> planning_direction profile;
          eff_packing_strategy_id := packing_strategy_id profile;
          eff_hierarchy_strategy_id := hierarchy_strategy_id profile;
          eff_summary_policy_id := summary_policy_id profile;
          eff_cluster_count := published_profile_cluster_count profile;
          eff_random_seed := published_profile_random_seed profile |}.

(** ** Inputs *)
Inductive ClusteringFailureInput :=
| InputDocument (logical_id source_path : string)
| InputInline (logical_id media_type : string)
| InputEmailChunk (logical_id email_artifact_ref : string) (chunk_index : Z).

Definition document_input (path : string) : ClusteringFailureInput :=
  let source_path := normalize_document_identity_path path in InputDocument ("document:" +:+ source_path) source_path.
Definition email_chunk_input (email_artifact_ref : string) (chunk_index : Z) : ClusteringFailureInput :=
  InputEmailChunk ("email-chunk:" +:+ email_artifact_ref +:+ ":" +:+ fmt_usize chunk_index) email_artifact_ref chunk_index.
Definition clustering_failure_input `{Sha256} `{HashDisplay} (item : IndexItem) : ClusteringFailureInput :=
  match item_content_ref item with
  | CDocument path => document_input path
  | CInline media_type body =>
      InputInline ("inline:" +:+ media_type +:+ ":" +:+ hash_to_string (hash_embedding_content media_type body)) media_type
  | CStoredReplay _ _ (IdDocument source_path) => document_input source_path
  | CStoredReplay _ _ (IdEmailChunk email_artifact_ref chunk_index) => email_chunk_input email_artifact_ref chunk_index
  | CEmailChunk email_artifact_ref chunk_index => email_chunk_input email_artifact_ref chunk_index
  end.

(** ** Decoding a stored embedding ([decode_embedding_values] of [tree_tools.rs])

    [f16_to_f32] is the half crate's, on bit patterns. *)
Class HalfToFloat := f16_to_f32 : Z → Z.
Fixpoint le_value (l : bytes) : Z := match l with [] => 0 | b :: l => b + 256 * le_value l end.
Fixpoint chunks_exact2 (l : bytes) : list bytes :=
  match l with a :: b :: l => [a; b] :: chunks_exact2 l | _ => [] end.
Definition decode_embedding_values `{HalfToFloat} (data : bytes) (spec : EmbeddingSpec) : option (list float) :=
  if bool_decide (encoding spec = "f32le") then
    if (usize_max <? dims spec * 4) || negb (len data =? dims spec * 4) then None
    else Some (f32_of_bits ∘ le_value <$> chunks_exact4 data)
  else if bool_decide (encoding spec = "f16le") then
    if (usize_max <? dims spec * 2) || negb (len data =? dims spec * 2) then None
    else Some (f32_of_bits ∘ f16_to_f32 ∘ le_value <$> chunks_exact2 data)
  else None.

(** ** Embedding health *)
Definition SUSPICIOUS_INPUT_SAMPLE_LIMIT : nat := 5.
(** [1e-12], the nearest binary64. *)
Definition VARIANCE_EPSILON : float := f64_div (f64_of_Z 1) (f64_of_Z (10 ^ 12)).

Record EmbeddingObservation := {
  fingerprint : option string;
  l2_norm : option float;
  content_fingerprint : option string;
  missing : bool;
  lookup_error : option string;
  undecodable : bool;
  non_finite : bool;
  zero_vector : bool
}.
Definition observation_missing (content : option string) : EmbeddingObservation :=
  {| fingerprint := None; l2_norm := None; content_fingerprint := content; missing := true; lookup_error := None;
     undecodable := false; non_finite := false; zero_vector := false |}.
Definition observation_error (content error : string) : EmbeddingObservation :=
  {| fingerprint := None; l2_norm := None; content_fingerprint := Some content; missing := false;
     lookup_error := Some error; undecodable := false; non_finite := false; zero_vector := false |}.
Definition observation_bad (content print : string) (undecodable non_finite : bool) : EmbeddingObservation :=
  {| fingerprint := Some print; l2_norm := None; content_fingerprint := Some content; missing := false;
     lookup_error := None; undecodable := undecodable; non_finite := non_finite; zero_vector := false |}.
Definition observation_finite (content print : string) (norm : float) (zero : bool) : EmbeddingObservation :=
  {| fingerprint := Some print; l2_norm := Some norm; content_fingerprint := Some content; missing := false;
     lookup_error := None; undecodable := false; non_finite := false; zero_vector := zero |}.

(** The mutable variables of [build_embedding_health_diagnostics]; on 64 bits
    [dimension_count] is always there. *)
Record health_vars := {
  available_count : Z;
  missing_count : Z;
  error_count : Z;
  undecodable_count : Z;
  non_finite_count : Z;
  zero_count : Z;
  fingerprint_counts : gmap string Z;
  norm_sum : float;
  min_norm : option float;
  max_norm : option float;
  observations : list EmbeddingObservation;
  component_sums : list float;
  component_square_sums : list float;
  finite_count : Z
}.
Definition start_health (spec : EmbeddingSpec) : health_vars :=
  {| available_count := 0; missing_count := 0; error_count := 0; undecodable_count := 0; non_finite_count := 0;
     zero_count := 0; fingerprint_counts := ∅; norm_sum := f64_zero; min_norm := None; max_norm := None;
     observations := []; component_sums := replicate (Z.to_nat (dims spec)) f64_zero;
     component_square_sums := replicate (Z.to_nat (dims spec)) f64_zero; finite_count := 0 |}.

(** A branch that only counts and pushes its observation. *)
Definition counted (available missing error undecodable non_finite : Z) (o : EmbeddingObservation) (v : health_vars) : health_vars :=
  {| available_count := available_count v + available; missing_count := missing_count v + missing;
     error_count := error_count v + error; undecodable_count := undecodable_count v + undecodable;
     non_finite_count := non_finite_count v + non_finite; zero_count := zero_count v;
     fingerprint_counts := fingerprint_counts v; norm_sum := norm_sum v; min_norm := min_norm v; max_norm := max_norm v;
     observations := observations v ++ [o]; component_sums := component_sums v;
     component_square_sums := component_square_sums v; finite_count := finite_count v |}.

Definition square (x : float) : float := f64_mul x x.
Definition l2_norm_of (decoded : list float) : float := f64_sqrt (f64_sum (square ∘ f64_of_f32 <$> decoded)).

Definition observed_finite (content print : string) (decoded : list float) (v : health_vars) : health_vars :=
  let norm := l2_norm_of decoded in
  let zero := float_le norm f64_epsilon in
  let same_length := bool_decide (length decoded = length (component_sums v)) in
  {| available_count := available_count v + 1; missing_count := missing_count v; error_count := error_count v;
     undecodable_count := undecodable_count v; non_finite_count := non_finite_count v;
     zero_count := if zero then zero_count v + 1 else zero_count v;
     fingerprint_counts := <[print := default 0 (fingerprint_counts v !! print) + 1]> (fingerprint_counts v);
     norm_sum := f64_add (norm_sum v) norm;
     min_norm := Some (match min_norm v with Some current => float_min current norm | None => norm end);
     max_norm := Some (match max_norm v with Some current => float_max current norm | None => norm end);
     observations := observations v ++ [observation_finite content print norm zero];
     component_sums := if same_length then zip_with f64_add (component_sums v) (f64_of_f32 <$> decoded)
                       else component_sums v;
     component_square_sums := if same_length then zip_with f64_add (component_square_sums v) (square ∘ f64_of_f32 <$> decoded)
                              else component_square_sums v;
     finite_count := finite_count v + 1 |}.

Record RepeatedEmbeddingSampleDiagnostics := { sample_input : ClusteringFailureInput; sample_content : option string }.
Record RepeatedEmbeddingGroupDiagnostics := {
  group_fingerprint : string;
  occurrence_count : Z;
  sample_inputs : list RepeatedEmbeddingSampleDiagnostics
}.
Record SuspiciousClusteringFailureInput := {
  suspicious_input : ClusteringFailureInput;
  reasons : list string;
  suspicious_fingerprint : option string;
  suspicious_norm : option float
}.
Record EmbeddingLookupErrorDiagnostics := {
  error_input : ClusteringFailureInput;
  error_content : option string;
  error_message : string
}.
Record EmbeddingHealthDiagnostics := {
  available_embedding_count : Z;
  missing_embedding_count : Z;
  embedding_lookup_error_count : Z;
  undecodable_embedding_count : Z;
  non_finite_embedding_count : Z;
  zero_vector_count : Z;
  repeated_embedding_count : Z;
  unique_embedding_count : Z;
  repeated_embedding_group_count : Z;
  max_repeated_embedding_occurrence : option Z;
  min_l2_norm : option float;
  max_l2_norm : option float;
  mean_l2_norm : option float;
  non_zero_variance_dimension_count : option Z;
  max_component_variance : option float;
  top_repeated_embedding_groups : list RepeatedEmbeddingGroupDiagnostics;
  embedding_lookup_error_sample : list EmbeddingLookupErrorDiagnostics;
  suspicious_input_sample : list SuspiciousClusteringFailureInput
}.

(** The counts of the fingerprints, in any order. *)
Definition counts_of (v : health_vars) : list (string * Z) := map_to_list (fingerprint_counts v).
Definition repeated (p : string * Z) : Prop := 1 < p.2.
#[export] Instance repeated_dec p : Decision (repeated p) := decide (1 < p.2).
Definition max_of (l : list Z) : option Z :=
  match l with [] => None | x :: l => Some (foldl Z.max x l) end.

(** The variances of the components: how many exceed the epsilon, and the
    largest. *)
Definition variance_of (n : Z) (sum square_sum : float) : float :=
  let mean := f64_div sum (f64_of_Z n) in
  float_max (f64_sub (f64_div square_sum (f64_of_Z n)) (f64_mul mean mean)) f64_zero.
Definition component_variances (v : health_vars) : list float :=
  zip_with (variance_of (finite_count v)) (component_sums v) (component_square_sums v).
Definition variance_summary (v : health_vars) : option (Z * float) :=
  if finite_count v =? 0 then None
  else Some (len (filter (λ x, float_lt VARIANCE_EPSILON x = true) (component_variances v)),
             foldl float_max f64_zero (component_variances v)).

(** The first inputs of every fingerprint. *)
Definition add_sample (samples : gmap string (list RepeatedEmbeddingSampleDiagnostics))
    (p : ClusteringFailureInput * EmbeddingObservation) : gmap string (list RepeatedEmbeddingSampleDiagnostics) :=
  match fingerprint p.2 with
  | None => samples
  | Some print =>
      let l := default [] (samples !! print) in
      <[print := if (length l <? SUSPICIOUS_INPUT_SAMPLE_LIMIT)%nat
                 then l ++ [{| sample_input := p.1; sample_content := content_fingerprint p.2 |}] else l]> samples
  end.

Definition group_cmp (a b : RepeatedEmbeddingGroupDiagnostics) : comparison :=
  match occurrence_count b ?= occurrence_count a with
  | Eq => String.compare (group_fingerprint a) (group_fingerprint b)
  | c => c
  end.
Definition top_groups (v : health_vars) (samples : gmap string (list RepeatedEmbeddingSampleDiagnostics))
    : list RepeatedEmbeddingGroupDiagnostics :=
  take SUSPICIOUS_INPUT_SAMPLE_LIMIT (sort_by group_cmp
    ((λ p, {| group_fingerprint := p.1; occurrence_count := p.2; sample_inputs := default [] (samples !! p.1) |})
       <$> filter repeated (counts_of v))).

Definition reason (c : bool) (r : string) : list string := if c then [r] else [].
Definition is_repeated (v : health_vars) (o : EmbeddingObservation) : bool :=
  match fingerprint o ≫= λ print, fingerprint_counts v !! print with Some n => 1 <? n | None => false end.
Definition reasons_of (v : health_vars) (collapsed : bool) (o : EmbeddingObservation) : list string :=
  let l := reason (missing o) "missing-embedding" ++ reason (is_some (lookup_error o)) "embedding-lookup-error"
    ++ reason (undecodable o) "undecodable-embedding" ++ reason (non_finite o) "non-finite-embedding"
    ++ reason (zero_vector o) "zero-vector" ++ reason (is_repeated v o) "repeated-embedding" in
  if bool_decide (l = []) && collapsed && is_some (fingerprint o) && is_some (l2_norm o)
  then ["collapsed-variance-population"] else l.

(** The loop over inputs and observations, which stops when the sample is full. *)
Fixpoint sample_loop (v : health_vars) (collapsed : bool) (l : list (ClusteringFailureInput * EmbeddingObservation))
    (errors : list EmbeddingLookupErrorDiagnostics) (sample : list SuspiciousClusteringFailureInput)
    : list EmbeddingLookupErrorDiagnostics * list SuspiciousClusteringFailureInput :=
  match l with
  | [] => (errors, sample)
  | (input, o) :: l =>
      let errors :=
        match lookup_error o with
        | Some error =>
            if (length errors <? SUSPICIOUS_INPUT_SAMPLE_LIMIT)%nat
            then errors ++ [{| error_input := input; error_content := content_fingerprint o; error_message := error |}]
            else errors
        | None => errors
        end in
      let reasons := reasons_of v collapsed o in
      if bool_decide (reasons = []) then sample_loop v collapsed l errors sample
      else
        let sample := sample ++ [{| suspicious_input := input; reasons := reasons;
                                    suspicious_fingerprint := fingerprint o; suspicious_norm := l2_norm o |}] in
        if (SUSPICIOUS_INPUT_SAMPLE_LIMIT <=? length sample)%nat then (errors, sample)
        else sample_loop v collapsed l errors sample
  end.

Definition health_of (v : health_vars) (inputs : list ClusteringFailureInput) : EmbeddingHealthDiagnostics :=
  let pairs := zip inputs (observations v) in
  let summary := variance_summary v in
  let collapsed := match summary with Some (n, _) => n <=? 1 | None => false end in
  let '(errors, sample) := sample_loop v collapsed pairs [] [] in
  {| available_embedding_count := available_count v;
     missing_embedding_count := missing_count v;
     embedding_lookup_error_count := error_count v;
     undecodable_embedding_count := undecodable_count v;
     non_finite_embedding_count := non_finite_count v;
     zero_vector_count := zero_count v;
     repeated_embedding_count := foldr Z.add 0 ((λ p, saturating_sub p.2 1) <$> counts_of v);
     unique_embedding_count := len (counts_of v);
     repeated_embedding_group_count := len (filter repeated (counts_of v));
     max_repeated_embedding_occurrence := max_of (snd <$> filter repeated (counts_of v));
     min_l2_norm := min_norm v;
     max_l2_norm := max_norm v;
     mean_l2_norm := if 0 <? finite_count v then Some (f64_div (norm_sum v) (f64_of_Z (finite_count v))) else None;
     non_zero_variance_dimension_count := fst <$> summary;
     max_component_variance := snd <$> summary;
     top_repeated_embedding_groups := top_groups v (foldl add_sample ∅ pairs);
     embedding_lookup_error_sample := errors;
     suspicious_input_sample := sample |}.

(** ** What the failed status says *)
Inductive FailingSubsetPhaseDiagnostics :=
| PhasePlanningPass (pass_number : Z)
| PhaseHierarchyPlanning (stage : string)
| PhaseV3PartitionLoad (layer_index : Z)
| PhaseV3PartitionTrainIngest (layer_index : Z)
| PhaseV3PartitionClassify (layer_index : Z)
| PhaseV3TerminalMaterializationLoad (layer_index : Z)
| PhaseFinalMaterializationReplay
| PhaseBottomUpAssembly (layer_index : Z).
Definition failing_subset_phase_diagnostics (phase : StreamingIndexingPhase) : FailingSubsetPhaseDiagnostics :=
  match phase with
  | PlanningPass pass_number => PhasePlanningPass pass_number
  | HierarchyPlanning stage => PhaseHierarchyPlanning (format_planning_stage stage)
  | V3PartitionLoad layer_index => PhaseV3PartitionLoad layer_index
  | V3PartitionTrainIngest layer_index => PhaseV3PartitionTrainIngest layer_index
  | V3PartitionClassify layer_index => PhaseV3PartitionClassify layer_index
  | V3TerminalMaterializationLoad layer_index => PhaseV3TerminalMaterializationLoad layer_index
  | FinalMaterializationReplay => PhaseFinalMaterializationReplay
  | BottomUpAssembly layer_index => PhaseBottomUpAssembly layer_index
  end.

Inductive FailingSubsetProvenance := Exact | NarrowestProvable.
Record FailingSubsetDiagnostics := {
  failing_phase : FailingSubsetPhaseDiagnostics;
  provenance : FailingSubsetProvenance;
  basis : string;
  upstream_active_item_count : Z;
  upstream_completed_unit_count : Z;
  upstream_phase_total_unit_count : option Z;
  visible_subset_input_count : Z;
  subset_embedding_health : EmbeddingHealthDiagnostics
}.
Definition build_failing_subset_diagnostics (status : StreamingIndexingStatus) (top_level_input_count : Z)
    (embedding_health : EmbeddingHealthDiagnostics) : FailingSubsetDiagnostics :=
  let exact := item_count status =? top_level_input_count in
  {| failing_phase := failing_subset_phase_diagnostics (phase status);
     provenance := if exact then Exact else NarrowestProvable;
     basis := if exact
       then "the upstream failure surface reported the same active item count as the top-level clustering attempt, so the count-based repository-visible subset matches the top-level attempt"
       else "the upstream failure surface reported " +:+ fmt_usize (item_count status) +:+ " active item(s) for the failing step but did not expose repository-visible identities for a narrower subset, so the top-level clustering attempt remains the narrowest provable repository-visible subset";
     upstream_active_item_count := item_count status;
     upstream_completed_unit_count := completed_unit_count status;
     upstream_phase_total_unit_count := phase_total_unit_count status;
     visible_subset_input_count := top_level_input_count;
     subset_embedding_health := embedding_health |}.

(** ** The diagnostics *)
Record StreamingStageConfig := {
  config_stage : ExecutionStage;
  config_clustering : ConfiguredClustering;
  config_block_size_target : Z;
  submission_progress_kind : SubmissionProgressKind;
  v3_working_root : option string
}.
Record ClusteringFailureDiagnostics := {
  failure_stage : ExecutionStage;
  failure_embedding_spec : EmbeddingSpec;
  failure_block_size_target : Z;
  failure_clustering : EffectiveClusteringDiagnostics;
  failure_embedding_health : EmbeddingHealthDiagnostics;
  failing_subset : option FailingSubsetDiagnostics;
  input_count : Z;
  inputs : list ClusteringFailureInput
}.

Section build.
Context {S R : Type} `{GetBlock S} `{MutableRefs R (BlockStoreError S)} `{Ciborium} `{HashDisplay} `{Sha256} `{HalfToFloat}.
Context `{PublishedProfiles} `{ProfileVersionText}.
Abbreviation rworld := (replay_world S R).

(** [resolver]: the files and the cache of email chunks; [embedding_for_hash]
    is the [ClusteringFailureEmbeddingSource]. *)
Context (fs : files) (embedding_for_hash : block_hash → stm rworld string (option bytes)) (spec : EmbeddingSpec).

Definition observe_item (p : rworld * EmailChunkCache * health_vars) (item : IndexItem) : rworld * EmailChunkCache * health_vars :=
  let '(y, cache, v) := p in
  let '(cache, content) := resolve fs (blocks (replay_base y)) (item_content_ref item) cache in
  match content with
  | Some (Ok content) =>
      let input_hash := hash_embedding_content (media_type content) (body content) in
      let print := hash_to_string input_hash in
      match embedding_for_hash input_hash y with
      | (y, Ok None) => (y, cache, counted 0 1 0 0 0 (observation_missing (Some print)) v)
      | (y, Err error) => (y, cache, counted 0 0 1 0 0 (observation_error print error) v)
      | (y, Ok (Some embedding)) =>
          let embedding_print := hash_to_string (hash_bytes embedding) in
          (y, cache,
           match decode_embedding_values embedding spec with
           | None => counted 1 0 0 1 0 (observation_bad print embedding_print true false) v
           | Some decoded =>
               if forallb is_finite decoded then observed_finite print embedding_print decoded v
               else counted 1 0 0 0 1 (observation_bad print embedding_print false true) v
           end)
      end
  | _ => (y, cache, counted 0 1 0 0 0 (observation_missing None) v)
  end.

Definition build_embedding_health_diagnostics (replay_batches : list ReplayBatch) (inputs : list ClusteringFailureInput)
    (y : rworld) (cache : EmailChunkCache) : rworld * EmailChunkCache * EmbeddingHealthDiagnostics :=
  let '(y, cache, v) := foldl observe_item (y, cache, start_health spec) (concat (batch_items <$> replay_batches)) in
  (y, cache, health_of v inputs).

Definition build_clustering_failure_diagnostics (failing_status : option StreamingIndexingStatus)
    (config : StreamingStageConfig) (replay_batches : list ReplayBatch) (y : rworld) (cache : EmailChunkCache)
    : rworld * EmailChunkCache * option ClusteringFailureDiagnostics :=
  let inputs := concat ((λ batch, clustering_failure_input <$> batch_items batch) <$> replay_batches) in
  match effective_clustering_diagnostics (config_clustering config) with
  | None => (y, cache, None)
  | Some clustering =>
      let '(y, cache, embedding_health) := build_embedding_health_diagnostics replay_batches inputs y cache in
      (y, cache, Some {|
        failure_stage := config_stage config;
        failure_embedding_spec := spec;
        failure_block_size_target := config_block_size_target config;
        failure_clustering := clustering;
        failure_embedding_health := embedding_health;
        failing_subset := (λ status, build_failing_subset_diagnostics status (len inputs) embedding_health) <$> failing_status;
        input_count := len inputs;
        inputs := inputs |})
  end.

Definition build_externalized_clustering_failure_diagnostics (available_parallelism : option Z)
    (thread_schedule : list ReplayOrderEntry → list load_label) (failing_status : option StreamingIndexingStatus)
    (config : StreamingStageConfig) (replay_state : ExternalizedReplayState) (y : rworld) (cache : EmailChunkCache)
    : rworld * EmailChunkCache * option ClusteringFailureDiagnostics :=
  if EXTERNALIZED_CLUSTERING_DIAGNOSTIC_INPUT_LIMIT <? replay_total_items replay_state then (y, cache, None)
  else
    match collect_replay_batches spec available_parallelism thread_schedule
            (Datatypes.S (Z.to_nat (replay_total_items replay_state))) replay_state y with
    | (y, Ok replay_batches) => build_clustering_failure_diagnostics failing_status config replay_batches y cache
    | (y, Err _) => (y, cache, None)
    end.
End build.
