(* ===== verification/DiagnosticsSpec.v ===== *)
(** * Clustering failure diagnostics: theorems

    The counts of [EmbeddingHealthDiagnostics] partition the inputs; the samples
    are the first suspicious inputs and the most repeated embeddings; and the
    captured status is the most specific failed one. *)

From Stdlib Require Import ZArith Lia Ascii.
From stdpp Require Import base gmap sets strings sorting option list.
From S2P Require Import Prelude Floats Hex Blocks Text Items Runtime Mailbox Resolver Config Embedding Ingest Replay Diagnostics.
#[local] Open Scope Z_scope.

(** ** Sums over the counts *)
Definition sum_with {A} (f : A → Z) (l : list A) : Z := foldr Z.add 0 (f <$> l).
Lemma sum_with_perm {A} (f : A → Z) l k : l ≡ₚ k → sum_with f l = sum_with f k.
Proof. unfold sum_with. induction 1; cbn in *; lia. Qed.
Lemma sum_with_ext {A} (f g : A → Z) l : (∀ x, x ∈ l → f x = g x) → sum_with f l = sum_with g l.
Proof.
  unfold sum_with. induction l as [|x l IH]; [done|]. intros H. cbn. rewrite H by left. rewrite IH; [done|].
  intros y ?. apply H. by right.
Qed.
Lemma sum_with_plus {A} (f g : A → Z) l : sum_with (λ x, f x + g x) l = sum_with f l + sum_with g l.
Proof. unfold sum_with. induction l; cbn in *; lia. Qed.
Lemma sum_with_one {A} (l : list A) : sum_with (λ _, 1) l = len l.
Proof. unfold sum_with, len. induction l; cbn in *; lia. Qed.

Abbreviation counts := (gmap string Z).
Lemma sum_insert (f : string * Z → Z) (m : counts) k n :
  sum_with f (map_to_list (<[k:=n]> m)) = f (k, n) + sum_with f (map_to_list (delete k m)).
Proof.
  rewrite <-insert_delete_eq, (sum_with_perm _ _ ((k, n) :: map_to_list (delete k m))); [done|].
  apply map_to_list_insert, lookup_delete_eq.
Qed.
Lemma sum_delete (f : string * Z → Z) (m : counts) k n : m !! k = Some n →
  sum_with f (map_to_list m) = f (k, n) + sum_with f (map_to_list (delete k m)).
Proof. intros Hk. by rewrite <-(insert_id m k n Hk) at 1; rewrite sum_insert. Qed.

(** ** The counts *)
Record vars_ok (n : nat) (v : health_vars) : Prop := {
  vok_length : length (observations v) = n;
  vok_inputs : available_count v + missing_count v + error_count v = Z.of_nat n;
  vok_available : available_count v = undecodable_count v + non_finite_count v + finite_count v;
  vok_finite : sum_with snd (map_to_list (fingerprint_counts v)) = finite_count v;
  vok_positive : map_Forall (λ _ c, 1 ≤ c) (fingerprint_counts v);
  vok_zero : 0 ≤ zero_count v ≤ finite_count v;
  vok_nonneg : 0 ≤ missing_count v ∧ 0 ≤ error_count v ∧ 0 ≤ undecodable_count v ∧ 0 ≤ non_finite_count v
}.

Lemma start_health_ok spec : vars_ok 0 (start_health spec).
Proof. split; cbn; try done. Qed.

Lemma counted_ok n v a m e u f o : vars_ok n v → 0 ≤ m → 0 ≤ e → 0 ≤ u → 0 ≤ f → a + m + e = 1 → a = u + f →
  vars_ok (Datatypes.S n) (counted a m e u f o v).
Proof. intros [] ????. split; cbn; try done; [rewrite length_app; cbn; lia|lia..]. Qed.

Lemma observed_finite_ok n v content print decoded : vars_ok n v →
  vars_ok (Datatypes.S n) (observed_finite content print decoded v).
Proof.
  intros [Hl Hi Ha Hf Hp Hz Hn]. split; cbn; try lia.
  - rewrite length_app. cbn. lia.
  - rewrite sum_insert. cbn. destruct (fingerprint_counts v !! print) as [c|] eqn:Hc; cbn.
    + rewrite (sum_delete _ _ _ _ Hc) in Hf. cbn in Hf. lia.
    + rewrite delete_id by done. lia.
  - apply map_Forall_insert_2; [|done]. destruct (fingerprint_counts v !! print) as [c|] eqn:Hc; cbn; [|lia].
    specialize (Hp _ _ Hc). cbn in Hp. lia.
  - destruct (float_le _ _); lia.
Qed.

Section health.
Context {S R : Type} `{GetBlock S} `{MutableRefs R (BlockStoreError S)} `{Ciborium} `{HashDisplay} `{Sha256} `{HalfToFloat}.
Abbreviation rworld := (replay_world S R).
Context (fs : files) (embedding_for_hash : block_hash → stm rworld string (option bytes)) (spec : EmbeddingSpec).
Abbreviation observe := (observe_item fs embedding_for_hash spec).

Lemma observe_item_ok n (p : rworld * EmailChunkCache * health_vars) item : vars_ok n p.2 → vars_ok (Datatypes.S n) (observe p item).2.
Proof.
  destruct p as [[y cache] v]. cbn [snd]. intros Hv. unfold observe_item.
  destruct (resolve fs _ _ cache) as [cache' [[content|e]|]]; [|by apply counted_ok; cbn..].
  destruct (embedding_for_hash _ y) as [y' [[embedding|]|error]]; [|by apply counted_ok; cbn..]. cbn [snd].
  destruct (decode_embedding_values _ _) as [decoded|]; [|by apply counted_ok].
  destruct (forallb _ _); [by apply observed_finite_ok|by apply counted_ok].
Qed.

Lemma observe_items_ok n (p : rworld * EmailChunkCache * health_vars) items :
  vars_ok n p.2 → vars_ok (n + length items) (foldl observe p items).2.
Proof.
  revert n p. induction items as [|item items IH]; intros n p Hv; cbn; [by rewrite Nat.add_0_r|].
  rewrite Nat.add_succ_r, <-Nat.add_succ_l. by apply IH, observe_item_ok.
Qed.
End health.

(** ** Samples *)
Definition suspicious_of (v : health_vars) (collapsed : bool) (p : ClusteringFailureInput * EmbeddingObservation)
    : SuspiciousClusteringFailureInput :=
  {| suspicious_input := p.1; reasons := reasons_of v collapsed p.2; suspicious_fingerprint := fingerprint p.2;
     suspicious_norm := l2_norm p.2 |}.
Abbreviation suspicious v collapsed := (λ p : ClusteringFailureInput * EmbeddingObservation, reasons_of v collapsed p.2 ≠ []).

Lemma sample_loop_spec v collapsed l errors sample errors' sample' :
  (length sample < SUSPICIOUS_INPUT_SAMPLE_LIMIT)%nat → sample_loop v collapsed l errors sample = (errors', sample') →
  sample' = take SUSPICIOUS_INPUT_SAMPLE_LIMIT (sample ++ (suspicious_of v collapsed <$> filter (suspicious v collapsed) l)).
Proof.
  revert errors sample. induction l as [|[input o] l IH]; intros errors sample Hlen; cbn [sample_loop].
  { intros [= _ <-]. rewrite app_nil_r, take_ge; [done|]. by apply Nat.lt_le_incl. }
  rewrite filter_cons. case_bool_decide as Hr; cbn [snd].
  - rewrite decide_False by naive_solver. by apply IH.
  - rewrite decide_True by done. change (<[_:=_]> ?x) with x.
    change {| suspicious_input := input; reasons := reasons_of v collapsed o; suspicious_fingerprint := fingerprint o;
              suspicious_norm := l2_norm o |} with (suspicious_of v collapsed (input, o)).
    rewrite fmap_cons. set (x := suspicious_of v collapsed (input, o)). set (rest := _ <$> _).
    assert (sample ++ x :: rest = (sample ++ [x]) ++ rest) as -> by by rewrite <-app_assoc.
    unfold SUSPICIOUS_INPUT_SAMPLE_LIMIT in *.
    destruct (_ <=? _)%nat eqn:Hfull; [intros [= _ <-]|].
    + apply Nat.leb_le in Hfull. pose proof Hfull as Hfull'. rewrite length_app in Hfull'. cbn in Hfull'.
      rewrite take_app_le by exact Hfull. rewrite take_ge; [done|rewrite length_app; cbn; lia].
    + intros Hloop. apply IH in Hloop; [done|]. by apply Nat.leb_gt in Hfull.
Qed.

Lemma reasons_shape v collapsed o r : r ∈ reasons_of v collapsed o →
  (r = "missing-embedding" → missing o = true) ∧ (r = "embedding-lookup-error" → is_some (lookup_error o) = true)
  ∧ (r = "undecodable-embedding" → undecodable o = true) ∧ (r = "non-finite-embedding" → non_finite o = true)
  ∧ (r = "zero-vector" → zero_vector o = true) ∧ (r = "repeated-embedding" → is_repeated v o = true)
  ∧ (r = "collapsed-variance-population" → collapsed = true).
Proof.
  unfold reasons_of, reason. destruct (_ && _ && _ && _) eqn:Hc.
  - intros ->%list_elem_of_singleton. repeat split; try done. intros _.
    by destruct collapsed; [|rewrite andb_false_r in Hc].
  - rewrite !elem_of_app. destruct (missing o), (is_some (lookup_error o)), (undecodable o), (non_finite o), (zero_vector o), (is_repeated v o);
      rewrite ?list_elem_of_singleton, ?elem_of_nil; naive_solver.
Qed.

Lemma max_of_spec l : match max_of l with None => l = [] | Some m => m ∈ l ∧ ∀ x, x ∈ l → x ≤ m end.
Proof.
  destruct l as [|x l]; [done|]. cbn. revert x. induction l as [|y l IH]; intros x; cbn.
  { split; [by left|]. by intros z ->%list_elem_of_singleton. }
  destruct (IH (Z.max x y)) as [Hin Hmax]. split.
  - apply elem_of_cons in Hin as [Hin|Hin]; [|by do 2 right]. rewrite Hin.
    destruct (Z.max_spec x y) as [[_ ->]|[_ ->]]; [right; left|left].
  - assert (Z.max x y ≤ foldl Z.max (Z.max x y) l) by (apply Hmax; left).
    intros z [->|[->|Hz]%elem_of_cons]%elem_of_cons; [lia|lia|]. apply Hmax. by right.
Qed.

Lemma counts_sum v : map_Forall (λ _ c, 1 ≤ c) (fingerprint_counts v) →
  sum_with snd (counts_of v) = len (counts_of v) + foldr Z.add 0 ((λ p, saturating_sub p.2 1) <$> counts_of v).
Proof.
  intros Hp. rewrite <-sum_with_one. change (foldr Z.add 0 ((λ p, saturating_sub p.2 1) <$> counts_of v))
    with (sum_with (λ p : string * Z, saturating_sub p.2 1) (counts_of v)).
  rewrite <-sum_with_plus. apply sum_with_ext. intros [k c] Hin%elem_of_map_to_list. specialize (Hp _ _ Hin). cbn in *.
  unfold saturating_sub. lia.
Qed.

Section theorem.
Context {S R : Type} `{GetBlock S} `{MutableRefs R (BlockStoreError S)} `{Ciborium} `{HashDisplay} `{Sha256} `{HalfToFloat}.
Context (fs : files) (embedding_for_hash : block_hash → stm (replay_world S R) string (option bytes)) (spec : EmbeddingSpec).

(** The health of the embeddings that a clustering failure reports, whatever
    the lookups answer: every input is available, missing or failed to be looked
    up; every available embedding is undecodable, not finite, or counted in the
    distinct or the repeated ones; the zero vectors are among those; there is a
    largest repetition exactly when some embedding repeats, and it repeats that
    often; and the sample holds at most five inputs, each with a reason that its
    own observation gives. *)
Theorem embedding_health_counts replay_batches inputs (y y' : replay_world S R) cache cache' h :
  build_embedding_health_diagnostics fs embedding_for_hash spec replay_batches inputs y cache = (y', cache', h) →
  available_embedding_count h + missing_embedding_count h + embedding_lookup_error_count h
    = len (concat (batch_items <$> replay_batches))
  ∧ available_embedding_count h = undecodable_embedding_count h + non_finite_embedding_count h
      + unique_embedding_count h + repeated_embedding_count h
  ∧ 0 ≤ zero_vector_count h ≤ unique_embedding_count h + repeated_embedding_count h
  ∧ 0 ≤ missing_embedding_count h ∧ 0 ≤ embedding_lookup_error_count h
  ∧ repeated_embedding_group_count h ≤ unique_embedding_count h
  ∧ match max_repeated_embedding_occurrence h with
    | None => repeated_embedding_group_count h = 0
    | Some m => 1 < m ∧ m ≤ 1 + repeated_embedding_count h
    end
  ∧ (length (suspicious_input_sample h) ≤ 5)%nat
  ∧ Forall (λ s, reasons s ≠ [] ∧ suspicious_input s ∈ inputs) (suspicious_input_sample h).
Proof.
  unfold build_embedding_health_diagnostics.
  pose proof (observe_items_ok fs embedding_for_hash spec 0 (y, cache, start_health spec)
    (concat (batch_items <$> replay_batches)) (start_health_ok spec)) as Hv.
  destruct (foldl _ _ _) as [[y1 cache1] v]. cbn [snd Nat.add] in Hv. destruct Hv as [Hl Hi Ha Hf Hp Hz (?&?&?&?)].
  intros [= <- <- <-]. unfold health_of. destruct (sample_loop _ _ _ [] []) as [errors sample] eqn:Hs.
  apply sample_loop_spec in Hs; [|cbn; unfold SUSPICIOUS_INPUT_SAMPLE_LIMIT; lia]. cbn [app] in Hs.
  pose proof (counts_sum v Hp) as Hsum. unfold counts_of in Hsum at 1. rewrite Hf in Hsum.
  cbn [available_embedding_count missing_embedding_count embedding_lookup_error_count undecodable_embedding_count
    non_finite_embedding_count zero_vector_count repeated_embedding_count unique_embedding_count
    repeated_embedding_group_count max_repeated_embedding_occurrence suspicious_input_sample].
  split_and!; try lia.
  - unfold len. lia.
  - unfold len. pose proof (length_filter repeated (counts_of v)). lia.
  - pose proof (max_of_spec (snd <$> filter repeated (counts_of v))) as Hm. destruct (max_of _) as [m|].
    + destruct Hm as [(p&->&[Hr Hp']%list_elem_of_filter)%list_elem_of_fmap _]. split; [done|].
      apply elem_of_Permutation in Hp' as [l Hperm].
      change (foldr Z.add 0 _) with (sum_with (λ p : string * Z, saturating_sub p.2 1) (counts_of v)).
      rewrite (sum_with_perm _ _ _ Hperm). cbn. unfold saturating_sub at 1.
      assert (0 ≤ sum_with (λ p : string * Z, saturating_sub p.2 1) l); [|unfold sum_with in *; lia].
      unfold sum_with. clear. induction l; cbn; unfold saturating_sub in *; lia.
    + by apply fmap_nil_inv in Hm as ->.
  - rewrite Hs, length_take. unfold SUSPICIOUS_INPUT_SAMPLE_LIMIT. lia.
  - rewrite Hs. apply Forall_take, Forall_fmap, Forall_forall. intros [i o] [Hr Hin]%list_elem_of_filter.
    split; [done|]. by apply elem_of_zip_l in Hin.
Qed.
End theorem.

(** ** The captured status *)
Definition at_least (a b : StreamingIndexingStatus) : Prop :=
  failed_status_specificity b < failed_status_specificity a
  ∨ failed_status_specificity a = failed_status_specificity b ∧ item_count a ≤ item_count b.

Lemma at_least_trans a b c : at_least a b → at_least b c → at_least a c.
Proof. unfold at_least. lia. Qed.
Lemma prefer_at_least a b : if prefer_failed_status a b then at_least a b else at_least b a.
Proof.
  unfold prefer_failed_status, at_least.
  destruct (failed_status_specificity b <? failed_status_specificity a) eqn:E1; cbn [orb]; [apply Z.ltb_lt in E1; lia|].
  apply Z.ltb_ge in E1. destruct (failed_status_specificity a =? failed_status_specificity b) eqn:E2; cbn [andb].
  - apply Z.eqb_eq in E2. destruct (item_count a <=? item_count b) eqn:E3; [apply Z.leb_le in E3|apply Z.leb_gt in E3]; lia.
  - apply Z.eqb_neq in E2. lia.
Qed.

(** Of the failed statuses that the observer sees, it keeps one that no other is
    more specific than, nor as specific with fewer items. *)
Theorem captured_status_best statuses :
  match foldl capture_failed_status None statuses with
  | None => ∀ s, s ∈ statuses → status_failed s = false
  | Some best => best ∈ statuses ∧ status_failed best = true ∧ ∀ s, s ∈ statuses → status_failed s = true → at_least best s
  end.
Proof.
  induction statuses as [|s l IH] using rev_ind; [by intros s ?%elem_of_nil|].
  rewrite foldl_app. cbn [foldl]. unfold capture_failed_status at 1.
  destruct (status_failed s) eqn:Hs.
  2:{ destruct (foldl _ _ _) as [best|].
      - destruct IH as (Hin&Hf&Hbest). split_and!; [apply elem_of_app; by left|done|].
        intros s' [?| ->%list_elem_of_singleton]%elem_of_app ?; [by apply Hbest|congruence].
      - intros s' [?| ->%list_elem_of_singleton]%elem_of_app; [by apply IH|done]. }
  assert (at_least s s) as Hrefl by (right; lia).
  destruct (foldl _ _ _) as [best|].
  - destruct IH as (Hin&Hf&Hbest). pose proof (prefer_at_least s best) as Hp.
    destruct (prefer_failed_status s best).
    + split_and!; [apply elem_of_app; right; by left|done|].
      intros s' [?| ->%list_elem_of_singleton]%elem_of_app ?; [|done]. by eapply at_least_trans, Hbest.
    + split_and!; [apply elem_of_app; by left|done|].
      intros s' [?| ->%list_elem_of_singleton]%elem_of_app ?; [by apply Hbest|done].
  - split_and!; [apply elem_of_app; right; by left|done|].
    intros s' [Hin| ->%list_elem_of_singleton]%elem_of_app Hf; [|done]. rewrite IH in Hf by done. congruence.
Qed.
