(* ===== verification/Clustering.v ===== *)
(** * Clustering and block assembly ([runtime.rs])

    The stage reads the replay order and hands it to an indexer of the indexer
    crate: leaf ids for the v3 indexer, items with their embeddings for the
    earlier one. When the indexer has assembled the tree, the stage journals the
    outcome and switches the root. Ctrl-C while an operation is awaited cancels
    the v3 indexer and abandons the earlier one. The theorems are in
    [ClusteringSpec.v]. Progress messages and the telemetry file are not part of
    the state: nothing that the stage returns or publishes depends on them. *)

From Stdlib Require Import ZArith Lia Ascii.
From stdpp Require Import base gmap sets strings sorting option list.
From S2P Require Import Prelude Floats Hex Blocks Text Items Runtime ReplayJournal ReplayOrder Mailbox Resolver Config Embedding Ingest Replay Diagnostics.
#[local] Open Scope Z_scope.

(** ** The indexers

    [StreamingIndexingRunV3] and [StreamingIndexingRun]. An operation reports
    statuses to the observer; the flag says whether it was cancelled, or dropped,
    while it ran. *)
Record IndexResult := { result_root_id : block_hash; result_block_ids : list block_hash }.

Class StreamingIndexingRunV3 (S I : Type) `{BlockStore S} := {
  v3_with_published_profile : PublishedProfileVersion → EmbeddingSpec → Z → string → result StreamingIndexerError I;
  ingest_block_id_batch : bool → list block_hash → I → I * list StreamingIndexingStatus * result StreamingIndexerError unit;
  (** The outer error is the [JoinError] of a task that panics. *)
  v3_finalize : bool → I → S → S * list StreamingIndexingStatus * result string (result StreamingIndexerError IndexResult)
}.
Class StreamingIndexingRunV3Laws (S I : Type) `{StreamingIndexingRunV3 S I} :=
  v3_finalize_grows c ix (s s' : S) st r : v3_finalize c ix s = (s', st, r) → grows s s'.

(** How [finalize] of the earlier indexer stops: an error, or a panic of the
    replay source. *)
Inductive finalize_stop := FinalizeFailed (e : StreamingIndexerError) | SourcePanicked (message : string).

Section earlier.
Context (S R J : Type) `{BlockStore S}.
Abbreviation rworld := (replay_world S R).
(** The provider, and the source of batches for [finalize]. *)
Abbreviation embedder := (EmbeddingInput → stm rworld (StoredLeafEmbeddingProviderError (BlockStoreError S)) bytes).
Abbreviation source := (stm (ExternalizedReplayBatchIterator * rworld) string (option (list IndexItem))).

Class StreamingIndexingRun := {
  with_resolved_published_profile : PublishedIndexingProfile → EmbeddingSpec → Z → result StreamingIndexerError J;
  ingest_batch : embedder → bool → list IndexItem → J → rworld →
    rworld * J * list StreamingIndexingStatus * result StreamingIndexerError unit;
  finish_pass : J → J * list StreamingIndexingStatus * result StreamingIndexerError unit;
  mark_planning_complete : J → J * list StreamingIndexingStatus * result StreamingIndexerError unit;
  finalize : embedder → source → ExternalizedReplayBatchIterator → J → rworld →
    rworld * list StreamingIndexingStatus * result finalize_stop IndexResult
}.

(** It acts on the replay state only through what it is given, and stores blocks. *)
Inductive indexer_step (embed : embedder) (next : source)
    : ExternalizedReplayBatchIterator * rworld → ExternalizedReplayBatchIterator * rworld → Prop :=
| Asks input it y y' r : embed input y = (y', r) → indexer_step embed next (it, y) (it, y')
| Takes it y it' y' r : next (it, y) = ((it', y'), r) → indexer_step embed next (it, y) (it', y')
| Stores it y b : grows (blocks (replay_base y)) b →
    indexer_step embed next (it, y)
      (it, {| replay_base := set_blocks b (replay_base y); current_batch_embeddings := current_batch_embeddings y;
              fallback_embeddings := fallback_embeddings y |}).
Class StreamingIndexingRunLaws `{StreamingIndexingRun} := {
  ingest_batch_acts embed next d its ix it y y' ix' st r : ingest_batch embed d its ix y = (y', ix', st, r) →
    rtc (indexer_step embed next) (it, y) (it, y');
  finalize_acts embed next it ix y y' st r : finalize embed next it ix y = (y', st, r) →
    ∃ it', rtc (indexer_step embed next) (it, y) (it', y')
}.
End earlier.
Arguments with_resolved_published_profile S R {J _ _} _ _ _.
Arguments ingest_batch {S R J _ _} _ _ _ _ _.
Arguments finish_pass S R {J _ _} _.
Arguments mark_planning_complete S R {J _ _} _.
Arguments finalize {S R J _ _} _ _ _ _ _.

(** [RuntimeError], with the constructors that this stage adds. [SourcePanics]
    and [StageRunning] are not errors of the code: a panic of the source of
    [finalize], and a loop without fuel. *)
Inductive ClusteringError (E : Type) :=
| ClusterReplay (e : ReplayError E)
| StreamingIndexer (source : StreamingIndexerError)
| ClusteringFailure (source : StreamingIndexerError) (diagnostics : ClusteringFailureDiagnostics)
| EmptyDelegatedOutput
| MissingV3WorkingRoot
| BlockingV3FinalizeTaskJoin (source : string)
| SourcePanics (message : string)
| StageRunning.
Arguments ClusterReplay {E} e.
Arguments StreamingIndexer {E} source.
Arguments ClusteringFailure {E} source diagnostics.
Arguments EmptyDelegatedOutput {E}.
Arguments MissingV3WorkingRoot {E}.
Arguments BlockingV3FinalizeTaskJoin {E} source.
Arguments SourcePanics {E} message.
Arguments StageRunning {E}.

Inductive InterruptAwareOutcome (T : Type) := Completed (t : T) | InterruptedWith (t : T).
Arguments Completed {T} t.
Arguments InterruptedWith {T} t.

Definition uses_streaming_indexer_v3 (clustering : ConfiguredClustering) : bool :=
  bool_decide (clustering_profile_version clustering = PUBLISHED_PROFILE_V0_7_0)
  || bool_decide (clustering_profile_version clustering = PUBLISHED_PROFILE_V0_8_0).

Section stage.
Context {S R I J : Type} `{GetBlock S} `{MutableRefs R (BlockStoreError S)}.
Context `{!StreamingIndexingRunV3 S I} `{!StreamingIndexingRun S R J}.
Context `{Ciborium} `{BuildCustom} `{HashDisplay} `{Sha256} `{HalfToFloat} `{PublishedProfiles} `{ProfileVersionText}.
Abbreviation error := (ClusteringError (BlockStoreError S)).
Abbreviation rworld := (replay_world S R).
Abbreviation clustering A := (stm rworld error A).

Context (fs : files) (embedding_spec : EmbeddingSpec) (available_parallelism : option Z).
Context (thread_schedule : list ReplayOrderEntry → list load_label).
Context (error_text : RuntimeError (BlockStoreError S) → string).
Context (provider_error_text : StoredLeafEmbeddingProviderError (BlockStoreError S) → string).
Context (replay_error_text : ReplayError (BlockStoreError S) → string).
(** The resolver's cache when the stage starts. *)
Context (chunk_cache : EmailChunkCache).
(** The stage's arguments. [metadata] is [None] when there is no ref store. *)
Context (config : StreamingStageConfig) (replay_state : ExternalizedReplayState) (metadata : option (gmap string string)).
(** Whether the interrupt flag is raised while an operation is awaited: the
    batches by number, then [finalize] as number 0. *)
Context (raised : Z → bool).

Definition on_replay {A} (m : stm rworld (ReplayError (BlockStoreError S)) A) : clustering A :=
  map_err_stm ClusterReplay m.
Definition on_runtime {A} (m : runtime S R A) : clustering A := on_replay (on_base m).
Definition interrupted {A} : clustering A := throw (ClusterReplay (ReplayBase Interrupted)).

Definition set_base (w : world S R) (y : rworld) : rworld :=
  {| replay_base := w; current_batch_embeddings := current_batch_embeddings y; fallback_embeddings := fallback_embeddings y |}.

(** ** Awaiting

    The flag is looked at before the operation whenever the wait is polled: it is
    seen if it is up at the start, and may be seen later if it comes up. *)
Definition await_step (raised : bool) (w : world S R) : bool * world S R :=
  if is_interrupt_requested w || (raised && is_some (signal w)) then (true, set_signal (Some O) w)
  else (false, set_signal (Nat.pred <$> signal w) w).

Definition await_with_periodic_progress_and_cancellation {A} (operation : bool → rworld → rworld * A) (raised : bool)
    : rworld → rworld * InterruptAwareOutcome A := λ y,
  let '(cancelled, w) := await_step raised (replay_base y) in
  let '(y, a) := operation cancelled (set_base w y) in
  (y, if cancelled then InterruptedWith a else Completed a).

(** An interrupt drops the operation. *)
Definition await_with_periodic_progress {A} (operation : bool → rworld → rworld * A) (raised : bool) : clustering A := λ y,
  let '(dropped, w) := await_step raised (replay_base y) in
  let '(y, a) := operation dropped (set_base w y) in
  (y, if dropped then Err (ClusterReplay (ReplayBase Interrupted)) else Ok a).

(** ** Failures *)
Definition embedding_for_hash (input_hash : block_hash) : stm rworld string (option bytes) :=
  map_err_stm provider_error_text
    (load_embedding_for_hash embedding_spec error_text (replay_order replay_state) input_hash).

Definition clustering_failure_error {A} (latest_failed_status : option StreamingIndexingStatus) (source : StreamingIndexerError)
    : clustering A := λ y,
  let '(y, _, diagnostics) :=
    build_externalized_clustering_failure_diagnostics fs embedding_for_hash embedding_spec available_parallelism
      thread_schedule latest_failed_status config replay_state y chunk_cache in
  (y, Err (match diagnostics with
           | Some diagnostics => ClusteringFailure source diagnostics
           | None => StreamingIndexer source
           end)).

Definition interrupt_aware_streaming_result {A} (latest_failed_status : option StreamingIndexingStatus)
    (outcome : InterruptAwareOutcome (result StreamingIndexerError A)) : clustering A :=
  match outcome with
  | Completed (Ok value) => mret value
  | Completed (Err (Cancelled _)) | InterruptedWith (Err (Cancelled _)) => interrupted
  | Completed (Err error) => clustering_failure_error latest_failed_status error
  | InterruptedWith (Ok _) => interrupted
  | InterruptedWith (Err error) => clustering_failure_error latest_failed_status error
  end.

(** ** The end of both stages *)
Definition publish_outcome (result : IndexResult) : clustering unit :=
  match metadata with
  | None => mret ()
  | Some metadata =>
      records ← on_runtime (lift (replay_journal_indexing_outcome_records (replay_total_items replay_state)
                                    (result_block_ids result) (result_root_id result)));
      on_runtime (publish_replay_journal_and_mutable_refs records (Some (hash_to_string (result_root_id result))) (Some metadata))
  end.
Definition summary_of (result : IndexResult) : BatchSummary :=
  let ids := sorted_block_ids (result_block_ids result) in
  {| root_id := hash_to_string (result_root_id result); block_count := len ids; summary_block_ids := ids |}.
Definition finish_stage (result : IndexResult) : clustering BatchSummary :=
  lift (reject_if (bool_decide (result_block_ids result = [])) EmptyDelegatedOutput) ;;
  publish_outcome result ;;
  mret (summary_of result).

(** ** The v3 stage *)
Record v3_vars := { v3_indexer : I; v3_failed_status : option StreamingIndexingStatus }.
Definition observe_statuses (latest : option StreamingIndexingStatus) (statuses : list StreamingIndexingStatus)
    : option StreamingIndexingStatus := foldl capture_failed_status latest statuses.
Definition outcome_map {A B} (f : A → B) (o : InterruptAwareOutcome A) : InterruptAwareOutcome B :=
  match o with Completed a => Completed (f a) | InterruptedWith a => InterruptedWith (f a) end.
Definition outcome_value {A} (o : InterruptAwareOutcome A) : A :=
  match o with Completed a | InterruptedWith a => a end.

Definition ingest_v3_batch (batch_number : Z) (ids : list block_hash) (v : v3_vars) : clustering v3_vars := λ y,
  let '(y, outcome) := await_with_periodic_progress_and_cancellation
    (λ cancelled y, (y, ingest_block_id_batch cancelled ids (v3_indexer v))) (raised batch_number) y in
  let '(ix, statuses, _) := outcome_value outcome in
  let v := {| v3_indexer := ix; v3_failed_status := observe_statuses (v3_failed_status v) statuses |} in
  (interrupt_aware_streaming_result (v3_failed_status v) (outcome_map snd outcome) ;; mret v) y.

(** [loop]: one more iteration than there are entries is enough. *)
Fixpoint v3_loop (fuel : nat) (batch_number : Z) (reader : ReplayOrderReader) (v : v3_vars) : clustering v3_vars :=
  match fuel with
  | O => throw StageRunning
  | Datatypes.S fuel =>
      on_runtime check_for_interrupt ;;
      '(entries, reader) ← on_runtime (read_next_entries (Z.max (batch_size replay_state) 1) reader);
      if bool_decide (entries = []) then mret v
      else
        v ← ingest_v3_batch (batch_number + 1) (oe_block_id <$> entries) v;
        v3_loop fuel (batch_number + 1) reader v
  end.

Definition join_outcome {A} (o : InterruptAwareOutcome (result string A)) : result error (InterruptAwareOutcome A) :=
  match o with
  | Completed r => a ← map_err BlockingV3FinalizeTaskJoin r; Ok (Completed a)
  | InterruptedWith r => a ← map_err BlockingV3FinalizeTaskJoin r; Ok (InterruptedWith a)
  end.

Definition v3_finalize_stage (v : v3_vars) : clustering IndexResult := λ y,
  let '(y, outcome) := await_with_periodic_progress_and_cancellation (λ cancelled y,
    let '(b, statuses, r) := v3_finalize cancelled (v3_indexer v) (blocks (replay_base y)) in
    (set_base (set_blocks b (replay_base y)) y, (statuses, r))) (raised 0) y in
  let latest := observe_statuses (v3_failed_status v) (outcome_value outcome).1 in
  (finalize_outcome ← lift (join_outcome (outcome_map snd outcome));
   on_runtime check_for_interrupt ;;
   interrupt_aware_streaming_result latest finalize_outcome) y.

Definition run_streaming_stage_externalized_v3 : clustering BatchSummary :=
  working_root ← lift (ok_or (v3_working_root config) MissingV3WorkingRoot);
  ix ← lift (map_err StreamingIndexer (v3_with_published_profile (clustering_profile_version (config_clustering config))
                                         embedding_spec (config_block_size_target config) working_root));
  reader ← on_runtime (open_reader (replay_order replay_state));
  v ← v3_loop (Datatypes.S (Z.to_nat (replay_total_items replay_state))) 0 reader {| v3_indexer := ix; v3_failed_status := None |};
  on_runtime check_for_interrupt ;;
  result ← v3_finalize_stage v;
  finish_stage result.

(** ** The earlier stage *)
Record legacy_vars := { legacy_indexer : J; legacy_failed_status : option StreamingIndexingStatus }.
Definition stage_embed (input : EmbeddingInput) : stm rworld (StoredLeafEmbeddingProviderError (BlockStoreError S)) bytes :=
  embed_externalized embedding_spec error_text (replay_order replay_state) input.
Definition take_batch (it : ExternalizedReplayBatchIterator)
    : stm rworld (ReplayError (BlockStoreError S)) (option ReplayBatch * ExternalizedReplayBatchIterator) :=
  next_batch embedding_spec available_parallelism thread_schedule it.

(** [ExternalizedReplayFinalizeIterator::next], which expects the batch. *)
Definition finalize_next : stm (ExternalizedReplayBatchIterator * rworld) string (option (list IndexItem)) := λ p,
  match take_batch p.1 p.2 with
  | (y, Ok (batch, it)) => ((it, y), Ok (batch_items <$> batch))
  | (y, Err e) => ((p.1, y), Err ("in-memory replay state should remain readable during finalization: " +:+ replay_error_text e))
  end.

Definition ingest_legacy_batch (batch_number : Z) (items : list IndexItem) (v : legacy_vars) : clustering legacy_vars := λ y,
  match await_with_periodic_progress (λ dropped y,
          let '(y, ix, statuses, r) := ingest_batch stage_embed dropped items (legacy_indexer v) y in
          (y, (ix, statuses, r))) (raised batch_number) y with
  | (y, Err e) => (y, Err e)
  | (y, Ok (ix, statuses, r)) =>
      (y, map_err StreamingIndexer (r ;; Ok {| legacy_indexer := ix;
            legacy_failed_status := observe_statuses (legacy_failed_status v) statuses |}))
  end.

Fixpoint legacy_loop (fuel : nat) (batch_number : Z) (it : ExternalizedReplayBatchIterator) (v : legacy_vars) : clustering legacy_vars :=
  match fuel with
  | O => throw StageRunning
  | Datatypes.S fuel =>
      '(batch, it) ← on_replay (take_batch it);
      match batch with
      | None => mret v
      | Some batch =>
          on_runtime check_for_interrupt ;;
          if bool_decide (batch_items batch = []) then legacy_loop fuel batch_number it v
          else
            v ← ingest_legacy_batch (batch_number + 1) (batch_items batch) v;
            legacy_loop fuel (batch_number + 1) it v
      end
  end.

(** [finish_pass] and [mark_planning_complete]. *)
Definition legacy_transition (f : J → J * list StreamingIndexingStatus * result StreamingIndexerError unit) (v : legacy_vars)
    : clustering legacy_vars :=
  let '(ix, statuses, r) := f (legacy_indexer v) in
  let v := {| legacy_indexer := ix; legacy_failed_status := observe_statuses (legacy_failed_status v) statuses |} in
  match r with
  | Ok _ => mret v
  | Err e => clustering_failure_error (legacy_failed_status v) e
  end.

Definition finalize_from (v : legacy_vars) (it : ExternalizedReplayBatchIterator) : clustering IndexResult := λ y,
  match finalize stage_embed finalize_next it (legacy_indexer v) y with
  | (y, _, Ok result) => (y, Ok result)
  | (y, statuses, Err (FinalizeFailed e)) =>
      clustering_failure_error (observe_statuses (legacy_failed_status v) statuses) e y
  | (y, _, Err (SourcePanicked message)) => (y, Err (SourcePanics message))
  end.
Definition legacy_finalize_stage (v : legacy_vars) : clustering IndexResult :=
  it ← on_replay (batch_iterator replay_state); finalize_from v it.

Definition run_streaming_stage_externalized_legacy : clustering BatchSummary :=
  profile ← lift (map_err StreamingIndexer (resolved_published_profile (config_clustering config)));
  ix ← lift (map_err StreamingIndexer (with_resolved_published_profile S R profile embedding_spec (config_block_size_target config)));
  it ← on_replay (batch_iterator replay_state);
  v ← legacy_loop (Datatypes.S (Z.to_nat (replay_total_items replay_state))) 0 it
        {| legacy_indexer := ix; legacy_failed_status := None |};
  on_runtime check_for_interrupt ;;
  v ← legacy_transition (finish_pass S R) v;
  v ← legacy_transition (mark_planning_complete S R) v;
  on_runtime check_for_interrupt ;;
  result ← legacy_finalize_stage v;
  finish_stage result.

Definition run_streaming_stage_externalized : clustering BatchSummary :=
  if uses_streaming_indexer_v3 (config_clustering config) then run_streaming_stage_externalized_v3
  else run_streaming_stage_externalized_legacy.
End stage.
Arguments v3_vars I : clear implicits.
Arguments legacy_vars J : clear implicits.
