(* ===== verification/ClusteringSpec.v ===== *)
(** * Clustering and block assembly: theorems

    Whatever the indexers do, the stage publishes the outcome and the root
    together, and only after the whole order has been handed over and assembled. *)

From Stdlib Require Import ZArith Lia Ascii.
From stdpp Require Import base gmap sets strings sorting option list.
From S2P Require Import Prelude Hex Blocks Text Runtime ReplayJournal ReplayJournalSpec Items SortKey ReplayOrder ReplayOrderSpec Mailbox Resolver Config Embedding Ingest Replay ReplaySpec Floats Diagnostics Clustering.
#[local] Open Scope Z_scope.

(** ** Computations that respect a preorder of states, whatever they return *)
Section respects.
Context {W : Type} (P : relation W) `{!PreOrder P}.
Definition respects {E A} (m : stm W E A) : Prop := ∀ s, P s (m s).1.
Lemma respects_ret {E A} (a : A) : respects (mret a : stm W E A).
Proof. intros s. reflexivity. Qed.
Lemma respects_lift {E A} (r : result E A) : respects (lift r : stm W E A).
Proof. intros s. reflexivity. Qed.
Lemma respects_throw {E A} (e : E) : respects (throw e : stm W E A).
Proof. intros s. reflexivity. Qed.
Lemma respects_bind {E A B} (m : stm W E A) (k : A → stm W E B) :
  respects m → (∀ a, respects (k a)) → respects (m ≫= k).
Proof.
  intros Hm Hk s. unfold mbind, stm_bind. specialize (Hm s). destruct (m s) as [s1 [a|e]]; [|exact Hm].
  etrans; [exact Hm|apply Hk].
Qed.
Lemma respects_map_err {E F A} (f : E → F) (m : stm W E A) : respects m → respects (map_err_stm f m).
Proof. intros Hm s. specialize (Hm s). unfold map_err_stm. by destruct (m s). Qed.
End respects.
#[export] Hint Resolve respects_ret respects_lift respects_throw : respects.
#[export] Hint Extern 1 (PreOrder _) => apply _ : respects.

(** ** The outcome records *)
Section outcome.
Context {S : Type} `{BlockStore S} `{CiboriumLaws} `{HashDisplayLaws}.

Lemma outcome_base_size_bound n root : 0 ≤ n < 2 ^ 64 → str_len root = 64 → outcome_base_size n root ≤ 1000.
Proof.
  intros Hn Hr. pose proof (outcome_base_continuation n root Hn) as [_ Hb].
  assert (outcome_base_size 0 root ≤ 900); [|lia].
  unfold outcome_base_size, indexing_outcome, ser_record. rewrite !bool_decide_true by done.
  unfold usize_is_zero. change (0 =? 0) with true. cbn [app].
  rewrite !cbor_size_map, !fmap_cons, !sum_cons. cbn [fst snd field].
  assert (cbor_size (VText root) = 66) as Hroot by (cbn [cbor_size]; fold (str_len root); by rewrite Hr).
  rewrite Hroot. vm_compute. discriminate.
Qed.

Lemma outcome_one_fits count root_id : 0 ≤ count < 2 ^ 64 → hash_ok root_id →
  one_fits count REPLAY_JOURNAL_BLOCK_MAX_BYTES root_id.
Proof.
  intros Hc Hr. unfold one_fits. pose proof (outcome_base_size_bound count _ Hc (str_len_hex _ Hr)).
  assert (previous_size (Some zero_id) ≤ 1000) by (vm_compute; discriminate).
  unfold REPLAY_JOURNAL_BLOCK_MAX_BYTES. lia.
Qed.

(** What the types guarantee: a [Vec] takes at most [isize::MAX] bytes. *)
Definition outcome_ok (generated : list block_hash) (root_id : block_hash) : Prop :=
  hash_ok root_id ∧ Forall hash_ok generated ∧ len generated < 2 ^ 63.

Lemma strict_sorted_nodup {A} (P : relation A) l : (∀ x, ¬ P x x) → StronglySorted P l → NoDup l.
Proof.
  intros HP. induction 1 as [|x l _ IH Hx]; constructor; [|done]. intros Hin. rewrite Forall_forall in Hx.
  by apply (HP x), Hx.
Qed.

Lemma list_ok_intro {A} (f : A → bool) l : len l < 2 ^ 64 → (∀ x, x ∈ l → f x = true) → list_ok f l = true.
Proof.
  intros Hl Hf. unfold list_ok. rewrite (proj2 (Z.ltb_lt _ _) Hl). cbn [andb]. apply forallb_forall. intros x ?%list_elem_of_In. by apply Hf.
Qed.

Lemma outcome_records_ok count generated root_id records :
  0 ≤ count < 2 ^ 64 → outcome_ok generated root_id →
  replay_journal_indexing_outcome_records (S := S) count generated root_id = Ok records →
  list_ok record_ok records = true.
Proof.
  intros Hc (Hr&Hg&Hlen) Hrun. unfold replay_journal_indexing_outcome_records in Hrun.
  pose proof (outcome_one_fits count root_id Hc Hr) as Hone.
  destruct (outcome_records_spec count generated root_id _ Hc Hr Hg Hone) as (ids&rest&Heq&Hsorted&Hel&_&_).
  pose proof (outcome_continuations_single count generated root_id _ _ _ Hc Hr Hg Hone Heq) as Hsingle.
  rewrite Hrun in Heq. injection Heq as ->.
  assert (Forall (λ i, length i = 1%nat) rest) as Hone1.
  { clear -Hsingle. induction rest as [|i rest IH]; [done|]. cbn in Hsingle.
    apply Forall_cons in Hsingle as [[id Hid] Hs]. constructor; [|by apply IH]. cbn in Hid. by rewrite Hid. }
  assert (length (ids ++ concat rest) ≤ length generated)%nat as Hbound.
  { rewrite <-(length_fmap hash_to_string generated). apply submseteq_length, NoDup_submseteq.
    - eapply strict_sorted_nodup, Hsorted. by intros x [_ ?].
    - intros x Hx%Hel. destruct Hx as (h&Hh&->). by apply list_elem_of_fmap_2. }
  assert (length rest = length (concat rest)) as Hrest.
  { clear -Hone1. induction Hone1 as [|i rest Hi _ IH]; [done|]. cbn. rewrite length_app, <-IH. lia. }
  rewrite length_app in Hbound. unfold len in *.
  assert (∀ n gen, 0 ≤ n < 2 ^ 64 → (length gen ≤ length generated)%nat → (∀ x, x ∈ gen → x ∈ ids ++ concat rest) →
    record_ok (indexing_outcome n gen (hash_to_string root_id)) = true) as Hrec.
  { intros n gen Hn Hgen Hin. unfold indexing_outcome. cbn [record_ok].
    rewrite text_ok_hash by done. rewrite !andb_true_r. rewrite list_ok_intro; [|done|by intros x ?%elem_of_nil].
    assert (usize_ok n = true) as -> by (apply andb_true_intro; split; [apply Z.leb_le|apply Z.ltb_lt]; lia). cbn [andb].
    apply list_ok_intro; [unfold len; lia|]. intros x Hx%Hin%Hel. destruct Hx as (h&Hh&->). apply text_ok_hash.
    rewrite Forall_forall in Hg. by apply Hg. }
  apply list_ok_intro; [unfold len; cbn [length]; rewrite length_fmap; lia|].
  intros r [->|(i&->&Hi)%list_elem_of_fmap]%elem_of_cons.
  - apply Hrec; [done|lia|]. intros x ?. apply elem_of_app. by left.
  - apply Hrec; [lia| |].
    + rewrite Forall_forall in Hone1. rewrite (Hone1 _ Hi).
      destruct rest; [by apply elem_of_nil in Hi|]. cbn in Hrest, Hbound. lia.
    + intros x ?. apply elem_of_app. right. apply list_elem_of_In, in_concat. exists i. by rewrite <-!list_elem_of_In.
Qed.
End outcome.

#[local] Existing Instance extends_preorder.

(** The batches of ids that an order gives. *)
Definition order_batches (size : Z) (o : list ReplayOrderEntry) : list (list block_hash) :=
  (λ es : list ReplayOrderEntry, oe_block_id <$> es) <$> order_chunks size o.

(** ** The publication *)
Section stage_spec.
Context {S R I J : Type} `{BlockStore S, !BlockStoreLaws S} `{G : !GetBlock S} `{MutableRefs R (BlockStoreError S), !MutableRefsLaws R (BlockStoreError S)}.
Context `{!StreamingIndexingRunV3 S I} `{!StreamingIndexingRun S R J}.
Context `{CiboriumLaws} `{BuildCustomLaws} `{HashDisplayLaws} `{Sha256} `{HalfToFloat} `{PublishedProfiles} `{ProfileVersionText}.
Abbreviation rworld := (replay_world S R).
Abbreviation serror := (RuntimeError (BlockStoreError S)).

(** The root, the metadata and the journal of a finished stage. *)
Definition published (root : string) (md : gmap string string) (l : list ReplayJournalRecord) (w : world S R) : Prop :=
  ∃ st, stored_refs (refs w) = Ok st ∧ current_root_block_id st = Some root ∧ refs_metadata st = Some md
    ∧ log_at (blocks w) (replay_journal_head_block_id st) l.

Lemma publish_switch records root md w w' r l :
  list_ok record_ok records = true → journal_of w l → intact (refs w') = true →
  publish_replay_journal_and_mutable_refs records (Some root) (Some md) w = (w', r) →
  grows (blocks w) (blocks w')
  ∧ match r with
    | Ok _ => published root md (l ++ records) w'
    | Err e => stored_refs (refs w') = stored_refs (refs w)
        ∨ published root md (l ++ records) w' ∧ ∃ st rf, (write_refs st rf).2 = Err e
    end.
Proof.
  intros Hok Hj Hi Hp. destruct (publish_refs _ _ _ _ _ _ _ Hok Hj Hi Hp) as [Hg Hr]. cbv zeta in Hr. split; [done|].
  match type of Hr with match _ with Ok _ => ?P | _ => _ end => assert (P → published root md (l ++ records) w') as Hsw end.
  { intros (st&hd&_&Hst'&Hl). eexists. split; [exact Hst'|]. split_and!; [done..|]. by destruct hd. }
  destruct r as [[]|e]; [by apply Hsw|]. destruct Hr as [Hr|[Hr Hw]]; [by left|right]. split; [by apply Hsw|done].
Qed.

(** ** What leaves blocks and refs alone *)
Definition same (w w' : world S R) : Prop := blocks w' = blocks w ∧ refs w' = refs w.
#[local] Instance same_preorder : PreOrder same.
Proof. split; [by split|]. intros w1 w2 w3 [??] [??]. split; congruence. Qed.
Definition still (y y' : rworld) : Prop := same (replay_base y) (replay_base y').
#[local] Instance still_preorder : PreOrder still.
Proof. split; [intros y; unfold still; reflexivity|]. intros y1 y2 y3. unfold still. by etrans. Qed.
Definition ext (y y' : rworld) : Prop := extends (replay_base y) (replay_base y').
#[local] Instance ext_preorder : PreOrder ext.
Proof. split; [intros y; unfold ext; reflexivity|]. intros y1 y2 y3. unfold ext. by etrans. Qed.
Lemma still_ext y y' : still y y' → ext y y'.
Proof. intros [Hb Hr]. split; [done|]. by rewrite Hb. Qed.

Ltac step := first [apply respects_bind; [apply _| |intros ?] | apply respects_map_err | apply respects_ret; apply _
  | apply respects_lift; apply _ | apply respects_throw; apply _ ].

Lemma io_step_respects : respects same (io_step (S := S) (R := R)).
Proof. intros w. unfold io_step. by destruct (faults w) as [|[]]. Qed.
Lemma file_content_respects path : respects same (file_content (S := S) (R := R) path).
Proof. by intros w. Qed.
Lemma open_reader_respects storage : respects same (open_reader (S := S) (R := R) storage).
Proof.
  unfold open_reader, read_error, file_open. repeat step; [apply io_step_respects|apply file_content_respects].
Qed.
Lemma read_from_respects reader : respects same (read_from (S := S) (R := R) reader).
Proof. unfold read_from. step; [apply io_step_respects|]. repeat case_match; step. Qed.
Lemma read_next_respects n rd : respects same (read_next_entries (S := S) (R := R) n rd).
Proof.
  unfold read_next_entries. step; [|destruct a; step]. generalize (rd_reader rd) as reader.
  induction (Z.to_nat _) as [|target IH]; intros reader; cbn [read_loop]; [step|].
  step; [unfold read_error; step; apply read_from_respects|]. destruct a as [[entry|] reader']; [|step].
  step; [apply IH|]. destruct a as [rest r]. step.
Qed.
Lemma read_all_respects storage : respects same (read_all_entries (S := S) (R := R) storage).
Proof. unfold read_all_entries. step; [apply open_reader_respects|]. step; [apply read_next_respects|]. destruct a0. step. Qed.
Lemma interrupt_respects : respects same (check_for_interrupt (S := S) (R := R)).
Proof. intros w. unfold check_for_interrupt. by destruct (is_interrupt_requested w). Qed.

Lemma on_base_respects {A} (m : runtime S R A) : respects same m → respects still (on_base m).
Proof. intros Hm y. specialize (Hm (replay_base y)). unfold on_base, still. by destruct (m (replay_base y)). Qed.

Context (fs : files) (embedding_spec : EmbeddingSpec) (available_parallelism : option Z).
Context (thread_schedule : list ReplayOrderEntry → list load_label).
Context (error_text : serror → string).
Context (provider_error_text : StoredLeafEmbeddingProviderError (BlockStoreError S) → string).
Context (replay_error_text : ReplayError (BlockStoreError S) → string).
Context (chunk_cache : EmailChunkCache).
Context (config : StreamingStageConfig) (replay_state : ExternalizedReplayState) (metadata : option (gmap string string)).
Context (raised : Z → bool).
Abbreviation take_batch := (take_batch (S := S) (R := R) embedding_spec available_parallelism thread_schedule).
Abbreviation stage_embed := (stage_embed (S := S) (R := R) embedding_spec error_text replay_state).
Abbreviation finalize_next := (finalize_next (S := S) (R := R) embedding_spec available_parallelism thread_schedule replay_error_text).
Abbreviation failure_error := (clustering_failure_error (S := S) (R := R) fs embedding_spec available_parallelism thread_schedule error_text
  provider_error_text chunk_cache config replay_state).

Lemma set_embeddings_respects cache : respects still (set_embeddings (S := S) (R := R) cache).
Proof. intros y. unfold set_embeddings, still. reflexivity. Qed.
Lemma load_entries_respects entries n :
  respects still (load_entries (S := S) (R := R) embedding_spec available_parallelism thread_schedule entries n).
Proof. intros y. reflexivity. Qed.
Lemma take_batch_respects it : respects still (take_batch it).
Proof.
  unfold Clustering.take_batch, next_batch, load_next_batch. step.
  - step; [apply on_base_respects, read_next_respects|]. destruct a as [entries reader]. cbv zeta.
    case_bool_decide; [step|]. step; [apply load_entries_respects|step].
  - destruct a as [[load|] it']; (step; [apply set_embeddings_respects|step]).
Qed.
Lemma batch_iterator_respects : respects still (batch_iterator (S := S) (R := R) replay_state).
Proof. unfold batch_iterator. step; [apply on_base_respects, open_reader_respects|step]. Qed.
Lemma collect_loop_respects n it batches :
  respects still (collect_loop (S := S) (R := R) embedding_spec available_parallelism thread_schedule n it batches).
Proof.
  revert it batches. induction n as [|n IH]; intros it batches; cbn [collect_loop]; [step|].
  step; [apply take_batch_respects|]. destruct a as [[batch|] it']; [apply IH|step].
Qed.
Lemma collect_batches_respects n :
  respects still (collect_replay_batches (S := S) (R := R) embedding_spec available_parallelism thread_schedule n replay_state).
Proof. unfold collect_replay_batches. step; [apply batch_iterator_respects|]. step; [apply collect_loop_respects|step]. Qed.

Lemma load_embedding_respects order h :
  respects still (load_embedding_for_hash (S := S) (R := R) embedding_spec error_text order h).
Proof.
  intros y. unfold load_embedding_for_hash. destruct (current_batch_embeddings y !! h); [reflexivity|].
  destruct (_ <? _); [reflexivity|]. destruct (fallback_embeddings y); [reflexivity|].
  pose proof (read_all_respects order (replay_base y)) as Hr. destruct (read_all_entries order (replay_base y)) as [w es].
  by destruct (mbind _ _).
Qed.
Lemma stage_embed_respects input : respects still (stage_embed input).
Proof. unfold Clustering.stage_embed, embed_externalized. step; [apply load_embedding_respects|step]. Qed.

Lemma observe_respects items (p : rworld * EmailChunkCache * health_vars) :
  still p.1.1 (foldl (observe_item fs (embedding_for_hash embedding_spec error_text provider_error_text replay_state) embedding_spec) p items).1.1.
Proof.
  revert p. induction items as [|item items IH]; intros p; cbn [foldl]; [reflexivity|]. etrans; [|apply IH].
  destruct p as [[y cache] v]. cbn [fst snd]. unfold observe_item. destruct (resolve _ _ _ _) as [cache' [[content|e]|]]; cbn [fst]; [|reflexivity..].
  pose proof (respects_map_err still provider_error_text _ (load_embedding_respects (replay_order replay_state)
    (hash_embedding_content (media_type content) (body content))) y) as Hl.
  unfold embedding_for_hash. by destruct (map_err_stm _ _ y) as [y' [[embedding|]|error]].
Qed.

Lemma failure_error_spec {A} latest source (y y' : rworld) (r : result _ A) :
  failure_error latest source y = (y', r) →
  still y y' ∧ ∃ e, r = Err e ∧ (e = StreamingIndexer source ∨ ∃ d, e = ClusteringFailure source d).
Proof.
  unfold clustering_failure_error, build_externalized_clustering_failure_diagnostics, build_clustering_failure_diagnostics,
    build_embedding_health_diagnostics.
  destruct (_ <? _); [intros [= <- <-]; split; [reflexivity|eauto]|].
  pose proof (collect_batches_respects (Datatypes.S (Z.to_nat (replay_total_items replay_state))) y) as Hc.
  destruct (collect_replay_batches _ _ _ _ _ y) as [y1 [batches|e]]; cbn [fst] in Hc; [|intros [= <- <-]; split; [done|eauto]].
  destruct (effective_clustering_diagnostics _) as [clustering|]; [|intros [= <- <-]; split; [done|eauto]].
  pose proof (observe_respects (concat (batch_items <$> batches)) (y1, chunk_cache, start_health embedding_spec)) as Ho.
  destruct (foldl _ _ _) as [[y2 cache2] v]; cbn [fst] in Ho. intros [= <- <-]. split; [by etrans|]. eauto.
Qed.

(** ** The v3 stage *)
Lemma await_step_same b (w w' : world S R) c : await_step b w = (c, w') → same w w'.
Proof. unfold await_step. case_match; intros [= <- <-]; done. Qed.

(** An indexer that has taken the batches, one after the other, uncancelled. *)
Fixpoint fed (batches : list (list block_hash)) (ix ix' : I) : Prop :=
  match batches with
  | [] => ix' = ix
  | ids :: batches => ∃ ix1 st, ingest_block_id_batch (S := S) false ids ix = (ix1, st, Ok ()) ∧ fed batches ix1 ix'
  end.

Lemma interrupt_aware_ok {A} latest outcome (y y' : rworld) (a : A) :
  interrupt_aware_streaming_result (S := S) (R := R) fs embedding_spec available_parallelism thread_schedule error_text
    provider_error_text chunk_cache config replay_state latest outcome y = (y', Ok a) → outcome = Completed (Ok a) ∧ y' = y.
Proof.
  destruct outcome as [[x|[m|m]]|[x|[m|m]]]; cbn [interrupt_aware_streaming_result]; try done.
  - by intros [= <- <-].
  - by intros [_ (e&[=]&_)]%failure_error_spec.
  - by intros [_ (e&[=]&_)]%failure_error_spec.
Qed.
Lemma interrupt_aware_still {A} latest (outcome : InterruptAwareOutcome (result StreamingIndexerError A)) :
  respects still (interrupt_aware_streaming_result (S := S) (R := R) fs embedding_spec available_parallelism thread_schedule error_text
    provider_error_text chunk_cache config replay_state latest outcome).
Proof.
  intros y. destruct outcome as [[x|[m|m]]|[x|[m|m]]]; cbn [interrupt_aware_streaming_result]; try reflexivity;
    (destruct (failure_error latest _ y) as [y' r] eqn:Hf; by apply failure_error_spec in Hf as [? _]).
Qed.

Abbreviation ingest_v3 := (ingest_v3_batch (S := S) (R := R) fs embedding_spec available_parallelism thread_schedule error_text
  provider_error_text chunk_cache config replay_state raised).
Abbreviation loop_v3 := (v3_loop (S := S) (R := R) fs embedding_spec available_parallelism thread_schedule error_text
  provider_error_text chunk_cache config replay_state raised).

Lemma ingest_v3_still n ids v : respects still (ingest_v3 n ids v).
Proof.
  intros y. unfold ingest_v3_batch, await_with_periodic_progress_and_cancellation.
  destruct (await_step _ _) as [c w] eqn:Ha. apply await_step_same in Ha.
  destruct (ingest_block_id_batch c ids (v3_indexer v)) as [[ix st] res].
  assert (still y (set_base w y)) as Hs by exact Ha. etrans; [exact Hs|].
  destruct c; cbn [outcome_value outcome_map snd]; revert Hs; generalize (set_base w y); intros y1 _; revert y1;
    (apply (respects_bind still); [apply interrupt_aware_still|intros _; apply respects_ret, _]).
Qed.
Lemma ingest_v3_ok n ids v (y y' : rworld) v' : ingest_v3 n ids v y = (y', Ok v') →
  ∃ st, ingest_block_id_batch (S := S) false ids (v3_indexer v) = (v3_indexer v', st, Ok ()).
Proof.
  unfold ingest_v3_batch, await_with_periodic_progress_and_cancellation. destruct (await_step _ _) as [c w].
  destruct (ingest_block_id_batch c ids (v3_indexer v)) as [[ix st] res] eqn:Hi.
  destruct c; cbn [outcome_value outcome_map snd]; unfold mbind, stm_bind;
    destruct (interrupt_aware_streaming_result _ _ _ _ _ _ _ _ _ _ _ _) as [y1 [[]|e]] eqn:Hr; try done;
    apply interrupt_aware_ok in Hr as [Ho _]; [done|]. injection Ho as ->. intros [= _ <-]. by exists st.
Qed.

Lemma loop_v3_still n k rd v : respects still (loop_v3 n k rd v).
Proof.
  revert k rd v. induction n as [|n IH]; intros k rd v; cbn [v3_loop]; [step|].
  step; [unfold on_runtime, on_replay; step; apply on_base_respects, interrupt_respects|].
  step; [unfold on_runtime, on_replay; step; apply on_base_respects, read_next_respects|]. destruct a0 as [entries rd'].
  case_bool_decide; [step|]. step; [apply ingest_v3_still|apply IH].
Qed.

Abbreviation v3_size := (Z.max (batch_size replay_state) 1).

Lemma on_runtime_ok {A} (m : runtime S R A) (y y' : rworld) a : on_runtime m y = (y', Ok a) → on_base m y = (y', Ok a).
Proof. unfold on_runtime, on_replay, map_err_stm. by destruct (on_base m y) as [y1 [x|e]]; intros [= <- <-]. Qed.
Lemma on_runtime_err {A} (m : runtime S R A) (y y' : rworld) e : on_runtime m y = (y', Err e) → ∃ e', e = ClusterReplay e'.
Proof. unfold on_runtime, on_replay, map_err_stm. destruct (on_base m y) as [y1 [x|e1]]; intros [= <- <-]. by eexists. Qed.

Lemma ingest_v3_err n ids v (y y' : rworld) e : ingest_v3 n ids v y = (y', Err e) → e ≠ StageRunning.
Proof.
  unfold ingest_v3_batch, await_with_periodic_progress_and_cancellation. destruct (await_step _ _) as [c w].
  destruct (ingest_block_id_batch c ids (v3_indexer v)) as [[ix st] res].
  destruct c, res as [[]|[m|m]]; cbn [outcome_value outcome_map snd interrupt_aware_streaming_result];
    unfold mbind, stm_bind, interrupted, throw; cbn; try (by intros [= _ <-]);
    (destruct (failure_error _ _ _) as [y1 r1] eqn:Hf; apply failure_error_spec in Hf as (_&e1&->&[->|[d ->]]); by intros [= _ <-]).
Qed.
Lemma loop_v3_spec n k rd v (y y' : rworld) o r : reader_at o rd → Forall entry_ok o → (length o < n)%nat →
  loop_v3 n k rd v y = (y', r) →
  match r with
  | Ok v' => fed (order_batches v3_size o) (v3_indexer v) (v3_indexer v')
  | Err e => e ≠ StageRunning
  end.
Proof.
  revert k rd v y o. induction n as [|n IH]; intros k rd v y o Hrd Ho Hn; [lia|]. cbn [v3_loop].
  unfold mbind at 1, stm_bind at 1. destruct (on_runtime check_for_interrupt y) as [y1 [[]|e]] eqn:Hc.
  2:{ apply on_runtime_err in Hc as [e' ->]. by intros [= _ <-]. }
  unfold mbind at 1, stm_bind at 1. destruct (on_runtime (read_next_entries v3_size rd) y1) as [y2 [[es rd2]|e]] eqn:Hread.
  2:{ apply on_runtime_err in Hread as [e' ->]. by intros [= _ <-]. }
  apply on_runtime_ok in Hread. eapply on_base_runs in Hread; [|by apply (read_next_runs v3_size o); [lia|..]].
  destruct Hread as (_&_&_&Hes&Hrd2). cbn [fst snd] in Hes, Hrd2. subst es. case_bool_decide as Hnil.
  { intros [= _ <-]. destruct o as [|e o]; [done|]. destruct (Z.to_nat v3_size) eqn:E; [lia|done]. }
  assert (o ≠ []) as Hne by (intros ->; by rewrite take_nil in Hnil).
  unfold mbind, stm_bind. destruct (ingest_v3 _ _ v y2) as [y3 [v3|e]] eqn:Hi.
  2:{ apply ingest_v3_err in Hi. by intros [= _ <-]. }
  apply ingest_v3_ok in Hi as [st Hi]. intros Hrun.
  eapply IH in Hrun; [|exact Hrd2|by apply Forall_drop|rewrite length_drop; destruct o; [done|cbn in *; lia]].
  destruct r as [v'|e]; [|done]. unfold order_batches. rewrite order_chunks_cons by (done || lia). cbn. by exists (v3_indexer v3), st.
Qed.

(** ** The end of the stage *)
Lemma on_runtime_same {A} (m : runtime S R A) (y : rworld) : respects same m → still y (on_runtime m y).1.
Proof. intros Hm. unfold on_runtime, on_replay. apply respects_map_err, on_base_respects, Hm. Qed.

Abbreviation finalize_v3 := (v3_finalize_stage (S := S) (R := R) fs embedding_spec available_parallelism thread_schedule error_text
  provider_error_text chunk_cache config replay_state raised).

Lemma v3_finalize_stage_spec v (y y' : rworld) r : StreamingIndexingRunV3Laws S I → finalize_v3 v y = (y', r) →
  ext y y' ∧ match r with
             | Ok result => ∃ b st, v3_finalize false (v3_indexer v) (blocks (replay_base y)) = (b, st, Ok (Ok result))
             | Err e => e ≠ StageRunning
             end.
Proof.
  intros HL. unfold v3_finalize_stage, await_with_periodic_progress_and_cancellation.
  destruct (await_step _ _) as [c w] eqn:Ha. apply await_step_same in Ha as [Hb Hr].
  change (blocks (replay_base (set_base w y))) with (blocks w). rewrite <-Hb.
  destruct (v3_finalize c (v3_indexer v) (blocks w)) as [[b st] res] eqn:Hf. pose proof (HL _ _ _ _ _ _ Hf) as Hg.
  set (y1 := set_base (set_blocks b _) _).
  assert (ext y y1) as He by (split; cbn; [done|by rewrite <-Hb]). clearbody y1. revert He.
  assert (∀ o, (∀ a, o = Completed (Ok a) → c = false ∧ res = Ok (Ok a)) → ∀ latest (y2 : rworld), ext y y2 →
    interrupt_aware_streaming_result fs embedding_spec available_parallelism thread_schedule error_text
      provider_error_text chunk_cache config replay_state latest o y2 = (y', r) →
    ext y y' ∧ match r with
               | Ok result => ∃ b0 st0, (b, st, res) = (b0, st0, Ok (Ok result)) ∧ c = false
               | Err e => e ≠ StageRunning
               end) as Hend.
  { intros o Ho latest y2 He2 Hrun. pose proof (interrupt_aware_still latest o y2) as Hs. rewrite Hrun in Hs.
    split; [etrans; [exact He2|by apply still_ext]|]. destruct r as [a|e].
    - apply interrupt_aware_ok in Hrun as [-> _]. destruct (Ho _ eq_refl) as [-> ->]. by eauto.
    - destruct o as [[x|[m|m]]|[x|[m|m]]]; cbn [interrupt_aware_streaming_result] in Hrun;
        try (destruct (failure_error _ _ _) as [y3 r3] eqn:Hfe; apply failure_error_spec in Hfe as (_&e1&->&[->|[d ->]]));
        unfold interrupted, throw in Hrun; by inversion Hrun. }
  intros He Hrun.
  assert (ext y y' ∧ match r with
            | Ok result => ∃ b0 st0, (b, st, res) = (b0, st0, Ok (Ok result)) ∧ c = false
            | Err e => e ≠ StageRunning end) as [? Hres].
  { revert Hrun. unfold mbind at 1, stm_bind at 1.
    destruct (lift (join_outcome _) y1) as [y1' [o|e]] eqn:Hj; injection Hj as <- Hj.
    2:{ intros [= <- <-]. split; [done|]. revert Hj. by destruct c, res; intros [= <-]. }
    unfold mbind, stm_bind. pose proof (on_runtime_same check_for_interrupt y1 interrupt_respects) as Hi.
    destruct (on_runtime check_for_interrupt y1) as [y2 [[]|e]] eqn:Hc; cbn [fst] in Hi.
    2:{ apply on_runtime_err in Hc as [e' ->]. intros [= <- <-]. split; [etrans; [done|by apply still_ext]|done]. }
    apply Hend; [|etrans; [done|by apply still_ext]]. intros a ->. destruct c, res as [[]|]; cbn in Hj; by simplify_eq. }
  split; [done|]. destruct r; [|done]. destruct Hres as (b0&st0&[= <- <- ->]&->). by eauto.
Qed.

Lemma open_reader_at o (y y' : rworld) r :
  order_file (replay_order replay_state) o y → on_runtime (open_reader (replay_order replay_state)) y = (y', r) →
  still y y' ∧ match r with Ok rd => reader_at o rd | Err e => e ≠ StageRunning end.
Proof.
  intros (Hs&Ht&_) Hrun. split.
  { pose proof (on_runtime_same (open_reader (replay_order replay_state)) y (open_reader_respects _)) as Hst. by rewrite Hrun in Hst. }
  destruct r as [rd|e]; [|by apply on_runtime_err in Hrun as [e' ->]].
  apply on_runtime_ok in Hrun. eapply on_base_runs in Hrun; [|by apply open_reader_runs]. by destruct Hrun as (_&_&_&?).
Qed.

Abbreviation finish := (finish_stage (S := S) (R := R) replay_state metadata).
Abbreviation outcome_records res := (replay_journal_indexing_outcome_records (S := S) (replay_total_items replay_state)
  (result_block_ids res) (result_root_id res)).
(** A root that is published although the stage fails: the refs have been
    written, and the write reports an error. *)
Definition write_reported (e : ClusteringError (BlockStoreError S)) : Prop :=
  ∃ st rf e', (write_refs (R := R) st rf).2 = Err e' ∧ e = ClusterReplay (ReplayBase e').

Lemma finish_stage_spec res md l (y y' : rworld) r : metadata = Some md → 0 ≤ replay_total_items replay_state < 2 ^ 64 →
  outcome_ok (result_block_ids res) (result_root_id res) → journal_of (replay_base y) l → intact (refs (replay_base y')) = true →
  finish res y = (y', r) →
  grows (blocks (replay_base y)) (blocks (replay_base y'))
  ∧ match r with
    | Ok summary => result_block_ids res ≠ [] ∧ summary = summary_of res
        ∧ ∃ records, outcome_records res = Ok records ∧ published (root_id summary) md (l ++ records) (replay_base y')
    | Err e => e ≠ StageRunning
        ∧ (stored_refs (refs (replay_base y')) = stored_refs (refs (replay_base y))
           ∨ ∃ records, published (hash_to_string (result_root_id res)) md (l ++ records) (replay_base y') ∧ write_reported e)
    end.
Proof.
  intros Hmd Hc Hok Hj Hi. unfold finish_stage, publish_outcome. rewrite Hmd.
  unfold mbind at 1, stm_bind at 1, lift at 1, reject_if.
  case_bool_decide as Hids; [by intros [= <- <-]; split; [|split; [|left]]|].
  unfold mbind at 1, stm_bind at 1, mbind at 1, stm_bind at 1, on_runtime, on_replay, map_err_stm, on_base, lift at 1.
  destruct (outcome_records res) as [records|e] eqn:Hrec.
  2:{ cbn. intros [= <- <-]. split; [done|]. split; [done|by left]. }
  pose proof (outcome_records_ok _ _ _ _ Hc Hok Hrec) as Hrok. cbn [map_err].
  destruct (publish_replay_journal_and_mutable_refs _ _ _ _) as [w [[]|e]] eqn:Hp; cbn; intros [= <- <-];
    apply (publish_switch _ _ _ _ _ _ l Hrok Hj Hi) in Hp as [Hg Hp]; (split; [exact Hg|]).
  - split_and!; [done..|]. by exists records.
  - split; [done|]. destruct Hp as [Hp|(Hp&st&rf&He)]; [by left|right]. exists records. split; [done|]. by exists st, rf, e.
Qed.

(** Refs that are intact after the stage have been so before it. *)
Definition intact_before (y y' : rworld) : Prop := intact (refs (replay_base y')) = true → intact (refs (replay_base y)) = true.
#[local] Instance intact_before_preorder : PreOrder intact_before.
Proof. split; [by intros y ?|]. intros y1 y2 y3 H12 H23 ?. by apply H12, H23. Qed.
Lemma ext_intact y y' : ext y y' → intact_before y y'.
Proof. intros [Hr _]. unfold intact_before. by rewrite Hr. Qed.
Lemma still_intact {E A} (m : stm rworld E A) : respects still m → respects intact_before m.
Proof. intros Hm y. apply ext_intact, still_ext, Hm. Qed.

Lemma finish_intact res : respects intact_before (finish res).
Proof.
  unfold finish_stage. step; [step|]. step; [|step]. unfold publish_outcome. destruct metadata as [md|]; [|step].
  step; [intros y; apply ext_intact, still_ext, on_runtime_same; step|]. intros y. unfold on_runtime, on_replay, map_err_stm, on_base.
  pose proof (publish_intact a0 (Some (hash_to_string (result_root_id res))) (Some md) (replay_base y)) as Hp.
  by destruct (publish_replay_journal_and_mutable_refs _ _ _ _) as [w u].
Qed.

Abbreviation externalized_stage := (run_streaming_stage_externalized (S := S) (R := R) (I := I) (J := J) fs embedding_spec available_parallelism
  thread_schedule error_text provider_error_text replay_error_text chunk_cache config replay_state metadata raised).
Lemma stage_intact : StreamingIndexingRunV3Laws S I → uses_streaming_indexer_v3 (config_clustering config) = true →
  respects intact_before externalized_stage.
Proof.
  intros HL Hv3. unfold run_streaming_stage_externalized. rewrite Hv3. unfold run_streaming_stage_externalized_v3.
  step; [step|]. step; [step|].
  step; [intros y; apply ext_intact, still_ext, on_runtime_same, open_reader_respects|].
  step; [apply still_intact, loop_v3_still|].
  step; [intros y; apply ext_intact, still_ext, on_runtime_same, interrupt_respects|].
  step; [|apply finish_intact]. intros y. destruct (finalize_v3 _ y) as [y4 r4] eqn:Hf.
  by apply v3_finalize_stage_spec in Hf as [Hy%ext_intact _].
Qed.

Definition indexer_results_ok : Prop := ∀ ix b b' st res,
  v3_finalize (S := S) (I := I) false ix b = (b', st, Ok (Ok res)) → outcome_ok (result_block_ids res) (result_root_id res).

(** The clustering stage publishes the root of the tree that the indexer
    assembled, together with its journal records and the metadata, and only after
    the indexer, started with the configured working root, has taken all the
    entries of the replay order, in order and in batches of the configured size,
    and has finalized without being cancelled; the summary lists the ids of the
    blocks. Whatever fails or interrupts it, no stored block is lost and the refs
    are left as they were, unless the one write of the new refs has happened and
    is itself reported as failed. The stage always ends. (All this of refs that
    are intact when it has ended.) *)
Theorem clustering_stage_publishes o l md (y y' : rworld) r :
  StreamingIndexingRunV3Laws S I → indexer_results_ok →
  uses_streaming_indexer_v3 (config_clustering config) = true → metadata = Some md →
  order_file (replay_order replay_state) o y → replay_total_items replay_state = len o → len o < 2 ^ 64 →
  journal_of (replay_base y) l → intact (refs (replay_base y')) = true → externalized_stage y = (y', r) →
  grows (blocks (replay_base y)) (blocks (replay_base y'))
  ∧ match r with
    | Ok summary => ∃ working_root ix ix' b b' st res records,
        v3_working_root config = Some working_root
        ∧ v3_with_published_profile (S := S) (clustering_profile_version (config_clustering config)) embedding_spec
            (config_block_size_target config) working_root = Ok ix
        ∧ fed (order_batches v3_size o) ix ix' ∧ grows (blocks (replay_base y)) b
        ∧ v3_finalize false ix' b = (b', st, Ok (Ok res))
        ∧ result_block_ids res ≠ [] ∧ summary = summary_of res
        ∧ outcome_records res = Ok records ∧ published (root_id summary) md (l ++ records) (replay_base y')
    | Err e => e ≠ StageRunning
        ∧ (stored_refs (refs (replay_base y')) = stored_refs (refs (replay_base y))
           ∨ ∃ root records, published root md (l ++ records) (replay_base y') ∧ write_reported e)
    end.
Proof.
  intros HL Hres Hv3 Hmd Hfile Ht Hlen Hj Hi. unfold run_streaming_stage_externalized. rewrite Hv3.
  assert (∀ (y1 : rworld) e, ext y y1 → e ≠ StageRunning → (y1, Err e) = (y', r) →
    grows (blocks (replay_base y)) (blocks (replay_base y')) ∧ match r with Ok _ => False | Err e => e ≠ StageRunning
      ∧ stored_refs (refs (replay_base y')) = stored_refs (refs (replay_base y)) end) as Hfail.
  { intros y1 e [Hr Hg] He [= <- <-]. by rewrite Hr. }
  assert (∀ (P : BatchSummary → Prop) Q, (grows (blocks (replay_base y)) (blocks (replay_base y')) ∧ match r with Ok _ => False
      | Err e => e ≠ StageRunning ∧ stored_refs (refs (replay_base y')) = stored_refs (refs (replay_base y)) end) →
    grows (blocks (replay_base y)) (blocks (replay_base y')) ∧ match r with Ok s => P s
      | Err e => e ≠ StageRunning ∧ (stored_refs (refs (replay_base y')) = stored_refs (refs (replay_base y)) ∨ Q e) end) as Hweak.
  { intros P Q [Hg Hx]. split; [done|]. destruct r; [done|]. destruct Hx. split; [done|by left]. }
  unfold run_streaming_stage_externalized_v3. unfold mbind at 1, stm_bind at 1, lift at 1.
  destruct (v3_working_root config) as [wr|] eqn:Hwr; cbn [ok_or];
    [|intros Hx; apply Hweak, (Hfail y MissingV3WorkingRoot); [reflexivity|done..]].
  unfold mbind at 1, stm_bind at 1, lift at 1.
  destruct (v3_with_published_profile _ _ _ wr) as [ix|ie] eqn:Hix; cbn [map_err];
    [|intros Hx; apply Hweak, (Hfail y (StreamingIndexer ie)); [reflexivity|done..]].
  unfold mbind at 1, stm_bind at 1.
  destruct (on_runtime (open_reader _) y) as [y1 [rd|e]] eqn:Hopen; apply (open_reader_at o _ _ _ Hfile) in Hopen as [Hy1 Hrd];
    apply still_ext in Hy1; [|intros Hx; by apply Hweak, (Hfail y1 e)].
  unfold mbind at 1, stm_bind at 1. set (n := Datatypes.S _).
  pose proof (loop_v3_still n 0 rd {| v3_indexer := ix; v3_failed_status := None |} y1) as Hy2.
  destruct (loop_v3 n 0 rd _ y1) as [y2 [v|e]] eqn:Hloop; cbn [fst] in Hy2;
    (apply (loop_v3_spec _ _ _ _ _ _ o) in Hloop; [|done|apply Hfile|subst n; rewrite Ht; unfold len; lia]);
    apply still_ext in Hy2; assert (ext y y2) as Hxy2 by (by etrans); [|intros Hx; by apply Hweak, (Hfail y2 e)].
  cbn [v3_indexer] in Hloop.
  unfold mbind at 1, stm_bind at 1. pose proof (on_runtime_same check_for_interrupt y2 interrupt_respects) as Hy3.
  destruct (on_runtime check_for_interrupt y2) as [y3 [[]|e]] eqn:Hc; cbn [fst] in Hy3;
    apply still_ext in Hy3; assert (ext y y3) as Hxy3 by (by etrans);
    [|apply on_runtime_err in Hc as [e' ->]; intros Hx; by apply Hweak, (Hfail y3 (ClusterReplay e'))].
  unfold mbind at 1, stm_bind at 1.
  destruct (finalize_v3 v y3) as [y4 [res|e]] eqn:Hfin; apply v3_finalize_stage_spec in Hfin as [Hy4 Hfin]; try done;
    assert (ext y y4) as Hxy4 by (by etrans); [|intros Hx; by apply Hweak, (Hfail y4 e)].
  destruct Hfin as (b&st&Hfin). intros Hrun. pose proof (len_nonneg o).
  apply (finish_stage_spec _ md l) in Hrun as [Hg Hrun]; [|done|by rewrite Ht|by eapply Hres|by eapply keeps_journal; [apply extends_keeps|]|done].
  split; [etrans; [apply Hxy4|exact Hg]|]. destruct r as [summary|e].
  - destruct Hrun as (Hne&->&records&Hrec&Hp). exists wr, ix, (v3_indexer v), (blocks (replay_base y3)), b, st, res, records.
    split_and!; try done. apply Hxy3.
  - destruct Hrun as [He Hrun]. split; [done|]. destruct Hrun as [Hrun|(records&Hp&Hw)]; [left|right; by eauto].
    by rewrite Hrun, (proj1 Hxy4).
Qed.
End stage_spec.
