(* ===== verification/StoreSelect.v ===== *)
(** * The choice of a block store ([lexonarchivebuilder-indexer], block_store.rs)

    Which store of the store crates a request environment stands for, how the
    overlay is layered, and which store can be compacted. The stores themselves
    are opened by constructors of their crates, whose outcome is a parameter.
    Telemetry and heartbeats of an opening redb store are output. *)

From Stdlib Require Import ZArith Lia Ascii.
From stdpp Require Import base gmap sets strings sorting option list.
From S2P Require Import Prelude Hex Text BlockCopy Items Mailbox Http3 Config.
#[local] Open Scope Z_scope.

Definition REDB_DATABASE_FILE_NAME : string := "blocks.redb".

Inductive RedbMode := RedbDurability (mode : string) | RedbReadOnlyMode.
Definition Durable : RedbMode := RedbDurability "Durable".

(** [PassiveLayer::cache], [writable] and [read_only]. *)
Inductive OverlayStoreLayer :=
| MemoryCache (max_resident_blocks : Z)
| FilesystemCache (root : string)
| WritableAzureBlob (container_sas_url : string)
| ReadOnlyGateway (gateway_dns_name : string).

Inductive ConfiguredBlockStore :=
| GatewayHttp3 (dns_name : string)
| LocalStore (root : string)
| LocalRedbStore (root : string) (mode : RedbMode) (database_path : string)
| Overlay (layers : list OverlayStoreLayer)
| AzureTableStore (container_sas_url : string).

Section stores.
Context {E : Type} `{StoreErrors E}.
(** The outcomes of the constructors: a store, a layer, the overlay and the
    HTTP/3 transport. *)
Context (open_store : ConfiguredBlockStore → result E unit) (open_layer : OverlayStoreLayer → result E unit).
Context (memory_error_text : Z → result string unit) (overlay_new : list OverlayStoreLayer → result string unit).
Context (transport : result string unit) (config_error_text : ConfigError → string).

Definition opened (store : ConfiguredBlockStore) : result E ConfiguredBlockStore := open_store store ;; Ok store.
Definition overlay_of (layers : list OverlayStoreLayer) : result E ConfiguredBlockStore :=
  map_err BackendFailure (overlay_new layers) ;; Ok (Overlay layers).

Definition gateway_http3_store (gateway_dns_name : string) : result E ConfiguredBlockStore :=
  GatewayHttp3 <$> http3_block_store_new transport gateway_dns_name.

Definition gateway_http3_filesystem_overlay_store (request_dir cache_root : string) (memory_capacity : Z)
    (gateway_dns_name : string) : result E ConfiguredBlockStore :=
  map_err BackendFailure (memory_error_text memory_capacity) ;;
  let filesystem := FilesystemCache (resolve_path request_dir cache_root) in
  open_layer filesystem ;;
  gateway ← http3_block_store_new transport gateway_dns_name;
  overlay_of [MemoryCache memory_capacity; filesystem; ReadOnlyGateway gateway].

(** [None] is a panic of one of the [expect]s. *)
Definition production_overlay_store (request_dir : string) (config : ProductionBlockStoreConfig)
    : option (result E ConfiguredBlockStore) :=
  match map_err (λ e, BackendFailure (config_error_text e)) (validate_for_overlay config) with
  | Err e => Some (Err e)
  | Ok _ =>
      let azure := WritableAzureBlob (container_sas_url config) in
      match open_layer azure with
      | Err e => Some (Err e)
      | Ok _ =>
          capacity ← memory_cache_max_resident_blocks config;
          match map_err BackendFailure (memory_error_text capacity) with
          | Err e => Some (Err e)
          | Ok _ =>
              root ← filesystem_cache_root config;
              let filesystem := FilesystemCache (resolve_path request_dir root) in
              Some (open_layer filesystem ;; overlay_of [MemoryCache capacity; filesystem; azure])
          end
      end
  end.

Definition production_v2_store (config : ProductionBlockStoreConfig) : result E ConfiguredBlockStore :=
  map_err (λ e, BackendFailure (config_error_text e)) (validate_for_azure_table config) ;;
  opened (AzureTableStore (container_sas_url config)).

Definition redb_store (request_dir block_store_root : string) (mode : RedbMode) : result E ConfiguredBlockStore :=
  let store_root := resolve_path request_dir block_store_root in
  opened (LocalRedbStore store_root mode (path_join store_root REDB_DATABASE_FILE_NAME)).
Definition local_redb_store (request_dir block_store_root mode : string) : result E ConfiguredBlockStore :=
  redb_store request_dir block_store_root (RedbDurability mode).
Definition local_redb_store_read_only (request_dir block_store_root : string) : result E ConfiguredBlockStore :=
  redb_store request_dir block_store_root RedbReadOnlyMode.

(** The two [match]es differ in the redb store. *)
Definition store_of_environment (redb : string → result E ConfiguredBlockStore) (request_dir : string) (environment : EnvironmentConfig)
    : option (result E ConfiguredBlockStore) :=
  match environment with
  | Local block_store_root _ => Some (opened (LocalStore (resolve_path request_dir block_store_root)))
  | LocalRedb block_store_root _ => Some (redb block_store_root)
  | LocalOverlay block_store _ | Production block_store _ => production_overlay_store request_dir block_store
  | ProductionV2 block_store _ => Some (production_v2_store block_store)
  end.
Definition from_environment_with_redb_durability (request_dir : string) (environment : EnvironmentConfig) (mode : string)
    : option (result E ConfiguredBlockStore) :=
  store_of_environment (λ root, local_redb_store request_dir root mode) request_dir environment.
Definition from_environment_with_redb_read_only (request_dir : string) (environment : EnvironmentConfig)
    : option (result E ConfiguredBlockStore) :=
  store_of_environment (local_redb_store_read_only request_dir) request_dir environment.
Definition store_from_environment (request_dir : string) (environment : EnvironmentConfig) : option (result E ConfiguredBlockStore) :=
  from_environment_with_redb_durability request_dir environment "Durable".

Definition compact_now (compact : ConfiguredBlockStore → result E unit) (store : ConfiguredBlockStore) : result E unit :=
  match store with
  | LocalRedbStore _ _ _ => compact store
  | _ => Err (BackendFailure "maintenance compact is supported only for the local-redb block-store profile")
  end.

(** ** The store of an environment *)
Definition store_matches (request_dir : string) (mode : RedbMode) (environment : EnvironmentConfig) (store : ConfiguredBlockStore) : Prop :=
  match environment with
  | Local root _ => store = LocalStore (resolve_path request_dir root)
  | LocalRedb root _ =>
      let store_root := resolve_path request_dir root in
      store = LocalRedbStore store_root mode (path_join store_root REDB_DATABASE_FILE_NAME)
  | LocalOverlay config _ | Production config _ => ∃ capacity root,
      memory_cache_max_resident_blocks config = Some capacity ∧ capacity ≠ 0
      ∧ filesystem_cache_root config = Some root ∧ root ≠ "" ∧ blank (container_sas_url config) = false
      ∧ store = Overlay [MemoryCache capacity; FilesystemCache (resolve_path request_dir root); WritableAzureBlob (container_sas_url config)]
  | ProductionV2 config _ => store = AzureTableStore (container_sas_url config) ∧ blank (container_sas_url config) = false
  end.

Lemma opened_ok store r : opened store = r → match r with Ok s => s = store ∧ open_store store = Ok () | Err e => open_store store = Err e end.
Proof. unfold opened. destruct (open_store store) as [[]|e]; by intros <-. Qed.

Lemma overlay_matches request_dir config r : production_overlay_store request_dir config = r →
  ∃ r', r = Some r' ∧ ∀ store, r' = Ok store → ∃ capacity root,
    memory_cache_max_resident_blocks config = Some capacity ∧ capacity ≠ 0
    ∧ filesystem_cache_root config = Some root ∧ root ≠ "" ∧ blank (container_sas_url config) = false
    ∧ store = Overlay [MemoryCache capacity; FilesystemCache (resolve_path request_dir root); WritableAzureBlob (container_sas_url config)].
Proof.
  intros <-. unfold production_overlay_store. destruct (validate_for_overlay config) as [[]|e] eqn:Hv; cbn [map_err]; [|by eexists].
  unfold validate_for_overlay in Hv. apply result_seq_ok in Hv as [Hurl Hv]. apply result_seq_ok in Hv as [_ Hv].
  apply result_seq_ok in Hv as [Hroot Hv]. apply reject_if_ok in Hurl. apply reject_if_ok in Hroot.
  destruct (open_layer _) as [[]|e]; [|by eexists].
  destruct (memory_cache_max_resident_blocks config) as [capacity|]; [|done]. apply reject_if_ok, Z.eqb_neq in Hv.
  cbn [mbind option_bind]. destruct (memory_error_text capacity) as [[]|e]; cbn [map_err]; [|by eexists].
  destruct (filesystem_cache_root config) as [root|]; [|done]. apply bool_decide_eq_false in Hroot.
  cbn [mbind option_bind]. eexists; split; [done|]. intros store Hs. exists capacity, root. split_and!; try done.
  destruct (open_layer _) as [[]|e]; [|done]. unfold overlay_of in Hs. destruct (overlay_new _) as [[]|e]; [|done].
  by injection Hs as <-.
Qed.

Lemma environment_matches redb mode request_dir environment :
  (∀ root, redb root = redb_store request_dir root mode) →
  ∃ r, store_of_environment redb request_dir environment = Some r
    ∧ ∀ store, r = Ok store → store_matches request_dir mode environment store.
Proof.
  intros Hredb. destruct environment as [root e|root e|c e|c e|c e]; cbn [store_of_environment store_matches].
  - eexists; split; [done|]. by intros store [-> _]%opened_ok.
  - rewrite Hredb. eexists; split; [done|]. by intros store [-> _]%opened_ok.
  - destruct (overlay_matches request_dir c _ eq_refl) as (r&->&Hr). by exists r.
  - destruct (overlay_matches request_dir c _ eq_refl) as (r&->&Hr). by exists r.
  - eexists; split; [done|]. intros store Hs. unfold production_v2_store in Hs.
    destruct (validate_for_azure_table c) as [[]|?] eqn:Hv; [|done]. cbn in Hs. apply opened_ok in Hs as [-> _].
    unfold validate_for_azure_table in Hv. apply result_seq_ok in Hv as [Hurl _]. by apply reject_if_ok in Hurl.
Qed.

(** Opening the store of an environment never panics on a missing setting, and
    the store that is opened is the one of the environment: the directory or
    database at the path resolved against the request's directory, or the memory
    and filesystem caches over the writable Azure store with the validated
    settings, in this order; a request that only reads gets the same store, with
    the redb database read-only. *)
Theorem environment_store_safe request_dir environment :
  (∃ r, store_from_environment request_dir environment = Some r
    ∧ ∀ store, r = Ok store → store_matches request_dir Durable environment store)
  ∧ (∃ r, from_environment_with_redb_read_only request_dir environment = Some r
    ∧ ∀ store, r = Ok store → store_matches request_dir RedbReadOnlyMode environment store).
Proof. split; by apply environment_matches. Qed.

(** A request that validates does not fail because of its configuration when
    its store is opened: an error is the error of a constructor. *)
Theorem validated_environment_opens request_dir request r :
  validate_request request = Ok () → store_from_environment request_dir (environment request) = Some r →
  (∀ store, open_store store = Ok ()) → (∀ layer, open_layer layer = Ok ()) →
  (∀ capacity, capacity ≠ 0 → memory_error_text capacity = Ok ()) → (∀ layers, overlay_new layers = Ok ()) →
  ∃ store, r = Ok store.
Proof.
  intros Hv Hr Hstore Hlayer Hmem Hover. unfold validate_request in Hv. repeat apply result_seq_ok in Hv as [_ Hv].
  destruct (normalized_ref_name_segments _) as [segments|?]; [|done]. cbn [mbind result_bind] in Hv. unfold validate_for_stage in Hv.
  assert (∀ c, validate_for_overlay c = Ok () → production_overlay_store request_dir c = Some r → ∃ store, r = Ok store) as Hoverlay.
  { clear Hv Hr. intros c Hv Hr. unfold production_overlay_store in Hr. rewrite Hv in Hr. cbn [map_err] in Hr. rewrite Hlayer in Hr.
    unfold validate_for_overlay in Hv. apply result_seq_ok in Hv as [_ Hv]. apply result_seq_ok in Hv as [_ Hv].
    apply result_seq_ok in Hv as [_ Hv]. destruct (memory_cache_max_resident_blocks c) as [n|]; [|done].
    apply reject_if_ok, Z.eqb_neq in Hv. cbn [mbind option_bind] in Hr. rewrite Hmem in Hr by done. cbn [map_err] in Hr.
    destruct (filesystem_cache_root c) as [root|]; [|done]. cbn [mbind option_bind] in Hr. rewrite Hlayer in Hr.
    unfold overlay_of in Hr. rewrite Hover in Hr. injection Hr as <-. by eexists. }
  destruct (environment request) as [root e|root e|c e|c e|c e]; cbn [store_from_environment from_environment_with_redb_durability store_of_environment] in Hr.
  - injection Hr as <-. unfold opened. rewrite Hstore. by eexists.
  - injection Hr as <-. unfold local_redb_store, redb_store, opened. rewrite Hstore. by eexists.
  - apply result_seq_ok in Hv as [Hv _]. by apply (Hoverlay c).
  - by apply (Hoverlay c).
  - injection Hr as <-. unfold production_v2_store. rewrite Hv. cbn [map_err]. unfold opened, mbind, result_bind. rewrite Hstore. by eexists.
Qed.
End stores.
