(* ===== verification/Request.v ===== *)
(** * The request runner ([runtime.rs])

    [run_request_with_progress] puts the parts together: it validates the
    request, opens the store, prepares the directories and the ref store, and
    runs the stage: ingestion only ([Ingest.v]), clustering of what is journaled
    ([Replay.v], [Clustering.v]), or both. [validate_request_with_overrides] is
    its dry run. The places of the output files are computed here as well. The
    theorems are in [RequestSpec.v]. *)

From Stdlib Require Import ZArith Lia Ascii.
From stdpp Require Import base gmap sets strings sorting option list.
From S2P Require Import Prelude Floats Hex Blocks Text Items SortKey Runtime ReplayJournal ReplayOrder Mailbox Resolver Http3 Config Embedding LeafWorkers Ingest Replay Diagnostics Clustering StoreSelect.
#[local] Open Scope Z_scope.

(** ** Places of the output files *)

(** [Path::file_stem]: the name without its extension. *)
Definition file_stem (path : string) : option string :=
  name ← file_name path;
  match reverse (split_on 46 name) with
  | _ :: rest => Some (of_bytes (if bool_decide (rest = [] ∨ rest = [[]]) then name
                                 else foldr (λ part s, if bool_decide (s = []) then part else part ++ 46 :: s) [] (reverse rest)))
  | [] => None
  end.
Definition adjacent_output_directory (path : string) : string := default "" (path_parent path).
Definition output_anchor_path (request_path : string) (summary_out : option string) : string := default request_path summary_out.
Definition parent_directory_to_create (path : string) : option string :=
  parent ← path_parent path; if bool_decide (parent = "") then None else Some parent.

(** The four functions differ in the suffix. *)
Definition output_path (suffix request_path : string) (summary_out : option string) : string :=
  let anchor_path := output_anchor_path request_path summary_out in
  let base_name := match file_stem anchor_path with
                   | Some stem => if bool_decide (stem = "") then suffix else stem +:+ "." +:+ suffix
                   | None => suffix
                   end in
  path_join (adjacent_output_directory anchor_path) base_name.
Definition clustering_failure_diagnostics_path : string → option string → string := output_path "clustering-failure-diagnostics.json".
Definition planning_pass_telemetry_path : string → option string → string := output_path "planning-pass-telemetry.jsonl".
Definition replay_order_scratch_root_path : string → option string → string := output_path "replay-order".
Definition v3_working_root_path : string → option string → string := output_path "working-root".
Definition replay_order_scratch_root_for_request_dir (request_dir : string) : string := path_join request_dir "replay-order".
Definition v3_working_root_for_request_dir (request_dir : string) : string := path_join request_dir "working-root".

Record RunRequestArtifactPaths := {
  artifact_scratch_root : option string;
  artifact_working_root : option string
}.
Definition request_dir_of (request_path : string) : string := default "." (path_parent request_path).
Definition artifact_paths_of (request_path : string) (summary_out : option string) : RunRequestArtifactPaths :=
  {| artifact_scratch_root := Some (replay_order_scratch_root_path request_path summary_out);
     artifact_working_root := Some (v3_working_root_path request_path summary_out) |}.

(** ** Errors

    [RuntimeError], by the part that it comes from. [RequestPanics] is a panic,
    [OrderRunning] a replay order that is collected without enough fuel. *)
Inductive RequestError (E : Type) :=
| RequestConfig (e : ConfigError)
| RequestBlockStore (e : E)
| RequestProvider (e : ConfiguredEmbeddingProviderError)
| RequestRuntime (e : RuntimeError E)
| RequestIngest (e : IngestError E)
| RequestReplay (e : ReplayError E)
| RequestClustering (e : ClusteringError E)
| ReadRequest (path : string) (source : io_error)
| ParseRequest (path source : string)
| PrepareV3WorkingRoot (path : string) (source : io_error)
| MissingReplayOrderScratchRoot
| RequestPanics
| OrderRunning.
Arguments RequestConfig {E} e.
Arguments RequestBlockStore {E} e.
Arguments RequestProvider {E} e.
Arguments RequestRuntime {E} e.
Arguments RequestIngest {E} e.
Arguments RequestReplay {E} e.
Arguments RequestClustering {E} e.
Arguments ReadRequest {E} path source.
Arguments ParseRequest {E} path source.
Arguments PrepareV3WorkingRoot {E} path source.
Arguments MissingReplayOrderScratchRoot {E}.
Arguments RequestPanics {E}.
Arguments OrderRunning {E}.

(** [serde_json] on a request. *)
Class RequestJson := request_from_slice : bytes → result string BatchRequest.

(** The request of a file, with the stage of the command line. *)
Definition with_stage (stage_override : option ExecutionStage) (request : BatchRequest) : BatchRequest :=
  {| environment := environment request; Config.embedding_spec := Config.embedding_spec request;
     block_size_target := block_size_target request; stage := default (stage request) stage_override;
     profile_version := profile_version request; max_concurrency := max_concurrency request;
     Config.replay_batch_size := Config.replay_batch_size request; ref_name := ref_name request;
     request_items := request_items request |}.
Definition read_request {E} `{RequestJson} (fs : files) (request_path : string) (stage_override : option ExecutionStage)
    : result (RequestError E) BatchRequest :=
  bytes ← map_err (ReadRequest request_path) (read_file fs request_path);
  request ← map_err (ParseRequest request_path) (request_from_slice bytes);
  Ok (with_stage stage_override request).

(** [prepare_mutable_ref_store] creates the directory of the refs, or checks
    their address: what they store stays. *)
Class PrepareRefs (R E : Type) `{MutableRefs R E} := prepare_refs : R → R * result (RuntimeError E) unit.
Class PrepareRefsLaws (R E : Type) `{PrepareRefs R E} := {
  prepare_refs_kept r r' u : prepare_refs r = (r', u) → kept_refs r r'
}.

Section request.
Context {S R I J : Type} `{BlockStore S, !PutBlock S, !GetBlock S} `{MutableRefs R (BlockStoreError S), !PrepareRefs R (BlockStoreError S)}.
Context `{!StoreErrors (BlockStoreError S)} `{!StreamingIndexingRunV3 S I} `{!StreamingIndexingRun S R J}.
Context `{Ciborium} `{BuildCustom} `{HashDisplay} `{Sha256} `{MailParse} `{EmbeddingJson} `{HalfFloat} `{StatusText} `{LeafFormat}.
Context `{HalfToFloat} `{PublishedProfiles} `{ProfileVersionText}.
Abbreviation iworld := (ingest_world S R).
Abbreviation error := (RequestError (BlockStoreError S)).
Abbreviation run A := (stm iworld error A).

(** The environment: files, processors, environment variables, the outcomes of
    the constructors of stores and HTTP clients, texts of errors. *)
Context (fs : files) (physical_cpus : Z) (available_parallelism : option Z).
Context (env : string → option string) (build_client : Z → result string unit).
Context (open_store : ConfiguredBlockStore → result (BlockStoreError S) unit) (open_layer : OverlayStoreLayer → result (BlockStoreError S) unit).
Context (memory_error_text : Z → result string unit) (overlay_new : list OverlayStoreLayer → result string unit).
Context (config_error_text : ConfigError → string) (error_text : RuntimeError (BlockStoreError S) → string).
Context (provider_error_text : StoredLeafEmbeddingProviderError (BlockStoreError S) → string).
Context (replay_error_text : ReplayError (BlockStoreError S) → string).
(** How tasks and threads interleave, when the interrupt is raised, the name of
    the scratch directory, and the fuel of collecting the replay order. *)
Context (schedules : Z → batch_schedule) (thread_schedule : list ReplayOrderEntry → list load_label) (raised : Z → bool).
Context (scratch_dir : string) (chain_fuel passes fuel : nat).
Context (request_dir : string) (request : BatchRequest) (overrides : ClusteringConfigOverrides) (artifacts : RunRequestArtifactPaths).

Definition to_embedding_spec : EmbeddingSpec :=
  {| dims := config_dims (Config.embedding_spec request); encoding := config_encoding (Config.embedding_spec request) |}.

Definition on_iworld {A} (m : runtime S R A) : run A := λ y,
  let '(w, r) := m (world_of y) in (set_world w y, map_err RequestRuntime r).
Definition on_ingest {A} (m : stm iworld (IngestError (BlockStoreError S)) A) : run A := map_err_stm RequestIngest m.
Definition on_files {A} (wrap : io_error → error) (m : stm (world S R) io_error A) : run A := λ y,
  let '(w, r) := m (world_of y) in (set_world w y, map_err wrap r).

(** ** Preparing

    [prepare_writable_directory]: the directory, the probe file and its byte.
    Nothing of them is left that the run reads. *)
Definition prepare_writable_directory : stm (world S R) io_error unit :=
  io_step ;; io_step ;; io_step.
Definition prepare_replay_order_scratch_root (path : string) : run unit :=
  on_files (λ source, RequestRuntime (PrepareReplayOrderScratchRoot path source)) prepare_writable_directory.
Definition prepare_v3_working_root (path : string) : run unit :=
  on_files (PrepareV3WorkingRoot path) prepare_writable_directory.
Definition prepare_mutable_refs : run unit :=
  on_iworld (λ w, let '(r, u) := prepare_refs (refs w) in (set_refs r w, u)).

Definition open_configured_store : run ConfiguredBlockStore :=
  match store_from_environment open_store open_layer memory_error_text overlay_new config_error_text request_dir (environment request) with
  | Some r => lift (map_err RequestBlockStore r)
  | None => throw RequestPanics
  end.
Definition resolve_refs : run MutableRefStoreLocation :=
  lift (ok_or (resolve_mutable_ref_store (environment request) request_dir (ref_name request)) RequestPanics).
Definition prepare_scratch_root (clustered : bool) : run (option string) :=
  if clustered then
    let path := default (replay_order_scratch_root_for_request_dir request_dir) (artifact_scratch_root artifacts) in
    prepare_replay_order_scratch_root path ;; mret (Some path)
  else mret None.
Definition prepare_working_root (clustered : bool) : run (option string) :=
  if clustered then
    let path := default (v3_working_root_for_request_dir request_dir) (artifact_working_root artifacts) in
    prepare_v3_working_root path ;; mret (Some path)
  else mret None.

(** ** The stages *)
Definition configured_provider : run ConfiguredEmbeddingProvider :=
  lift (map_err RequestConfig (local_embedding (environment request))) ;;
  lift (map_err RequestProvider (from_environment env build_client (environment request))).
Definition request_max_concurrency : Z := effective_max_concurrency physical_cpus available_parallelism request.
Definition request_batch_size : Z := effective_replay_batch_size physical_cpus available_parallelism request.

Definition ingestion_stage (metadata : gmap string string) : run BatchSummary :=
  provider ← configured_provider;
  on_ingest (run_ingestion_and_embedding fs request_dir provider to_embedding_spec request_max_concurrency (Some metadata)
               schedules (request_items request)).

Definition streaming_stage (metadata : gmap string string) : run stream_vars :=
  provider ← configured_provider;
  on_ingest (stream_request_ingestion_to_store fs request_dir provider to_embedding_spec request_max_concurrency (Some metadata)
               schedules (request_items request)).

(** [externalize_replay_batches_from_store_async] and the stage, on the state of
    the replay, whose embedding caches start empty. *)
Definition stage_config (clustering : ConfiguredClustering) (working_root : option string) : StreamingStageConfig :=
  {| config_stage := stage request; config_clustering := clustering; config_block_size_target := block_size_target request;
     submission_progress_kind := ProgressReplay; v3_working_root := working_root |}.
Definition clustering_stage (clustering : ConfiguredClustering) (metadata : gmap string string) (scratch_root working_root : option string)
    : run BatchSummary := λ y,
  match scratch_root with
  | None => (y, Err MissingReplayOrderScratchRoot)
  | Some scratch_root =>
      match externalize_replay_batches_from_journal scratch_dir chain_fuel passes fuel scratch_root request_batch_size
              request_max_concurrency
              {| replay_base := world_of y; current_batch_embeddings := ∅; fallback_embeddings := None |} with
      | None => (y, Err OrderRunning)
      | Some (z, Err e) => (set_world (replay_base z) y, Err (RequestReplay e))
      | Some (z, Ok replay_state) =>
          let '(z, r) := run_streaming_stage_externalized (S := S) (R := R) (I := I) (J := J) fs to_embedding_spec
            available_parallelism thread_schedule error_text provider_error_text replay_error_text (chunk_cache y)
            (stage_config clustering working_root) replay_state (Some metadata) raised z in
          (set_world (replay_base z) y, map_err RequestClustering r)
      end
  end.

Definition run_stage (clustering : ConfiguredClustering) (scratch_root working_root : option string) : run BatchSummary :=
  let metadata := mutable_ref_store_metadata (stage request) clustering in
  (if includes_ingestion (stage request) then prepare_mutable_refs else mret ()) ;;
  match stage request with
  | IngestionAndEmbedding => ingestion_stage metadata
  | FullPipeline => streaming_stage metadata ;; clustering_stage clustering metadata scratch_root working_root
  | ClusteringAndBlockAssembly => clustering_stage clustering metadata scratch_root working_root
  end.

(** The run up to the stage: the clustering and the prepared directories. The
    ref store is always there: [resolve_mutable_ref_store] has no other outcome. *)
Definition prepare_request : run (ConfiguredClustering * (option string * option string)) :=
  lift (map_err RequestConfig (validate_request request)) ;;
  clustering ← lift (map_err RequestConfig (to_configured_clustering overrides (profile_version request) (environment request)));
  open_configured_store ;;
  resolve_refs ;;
  let clustered := includes_clustering (stage request) in
  scratch_root ← prepare_scratch_root clustered;
  working_root ← prepare_working_root (clustered && uses_streaming_indexer_v3 clustering);
  mret (clustering, (scratch_root, working_root)).

(** The file of the clustering failure diagnostics is output. *)
Definition run_request_with_progress : run BatchSummary :=
  '(clustering, (scratch_root, working_root)) ← prepare_request;
  run_stage clustering scratch_root working_root.

(** ** The dry run *)
Definition validate_indexer (clustering : ConfiguredClustering) : run unit :=
  if uses_streaming_indexer_v3 clustering then
    working_root ← prepare_working_root true;
    lift (map_err (λ e, RequestClustering (StreamingIndexer e))
      (v3_with_published_profile (S := S) (I := I) (clustering_profile_version clustering) to_embedding_spec (block_size_target request)
         (default "" working_root))) ;;
    mret ()
  else
    lift (map_err (λ e, RequestClustering (StreamingIndexer e))
      (profile ← resolved_published_profile clustering;
       with_resolved_published_profile S R (J := J) profile to_embedding_spec (block_size_target request))) ;;
    mret ().
Definition validate_journal_head : run unit :=
  refs ← on_iworld load_mutable_ref_store;
  match replay_journal_head_block_id refs with
  | Some _ => mret ()
  | None => on_iworld (λ w, (w, Err (MissingReplayJournalHead (refs_label (Runtime.refs w)))))
  end.
Definition validate_request_with_overrides : run unit :=
  lift (map_err RequestConfig (validate_request request)) ;;
  clustering ← lift (map_err RequestConfig (to_configured_clustering overrides (profile_version request) (environment request)));
  open_configured_store ;;
  resolve_refs ;;
  (if includes_clustering (stage request) then prepare_scratch_root true ;; validate_indexer clustering else mret ()) ;;
  match stage request with
  | ClusteringAndBlockAssembly => validate_journal_head
  | _ => mret ()
  end.
End request.

(** [run_request_file_with_outputs] and [validate_request_file_with_overrides]:
    the request is read, and run in the directory of its file. *)
Definition with_request_file {W E A} `{RequestJson} (fs : files) (request_path : string) (stage_override : option ExecutionStage)
    (summary_out : option string) (action : string → BatchRequest → RunRequestArtifactPaths → stm W (RequestError E) A)
    : stm W (RequestError E) A :=
  request ← lift (read_request fs request_path stage_override);
  action (request_dir_of request_path) request (artifact_paths_of request_path summary_out).
