(* ===== verification/RequestSpec.v ===== *)
(** * The request runner: theorems

    A run of a request, from its validation to the switched root; what a failed
    or interrupted run leaves behind. *)

From Stdlib Require Import ZArith Lia Ascii.
From stdpp Require Import base gmap sets strings sorting option list.
From S2P Require Import Prelude Hex Blocks Text Runtime ReplayJournal ReplayJournalSpec Items SortKey ReplayOrder ReplayOrderSpec Mailbox Resolver MailboxSpec Config ConfigSpec Http3 Embedding LeafWorkers LeafWorkersSpec Ingest IngestSpec Replay ReplaySpec Floats Diagnostics Clustering ClusteringSpec StoreSelect Disk RefStore RefStoreSpec Request.
#[local] Open Scope Z_scope.

Section root.
Context {S R : Type} `{PutBlock S, !BlockStoreLaws S, !PutBlockLaws S} `{MutableRefs R (BlockStoreError S), !MutableRefsLaws R (BlockStoreError S)}.
Context `{Ciborium} `{BuildCustom} `{HashDisplay} `{MailParse}.
Context `{EmbeddingJson} `{HalfFloat} `{StatusText} `{LeafFormat}.
Abbreviation iworld := (ingest_world S R).

(** ** Ingestion does not switch the root *)
Definition root_kept (w w' : world S R) : Prop := intact (refs w') = true → intact (refs w) = true
  ∧ ∀ st, stored_refs (refs w) = Ok st → ∃ st', stored_refs (refs w') = Ok st' ∧ current_root_block_id st' = current_root_block_id st.
#[export] Instance root_kept_preorder : PreOrder root_kept.
Proof.
  split; [intros w Hi; split; [done|by intros st ?; exists st]|]. intros w1 w2 w3 H12 H23 Hi.
  destruct (H23 Hi) as [Hi2 H23']. destruct (H12 Hi2) as [Hi1 H12']. split; [done|]. intros st Hst.
  destruct (H12' st Hst) as (st2&Hst2&<-). destruct (H23' st2 Hst2) as (st3&?&?). by exists st3.
Qed.
Lemma root_kept_refs (w w' : world S R) : kept_refs (refs w) (refs w') → root_kept w w'.
Proof. intros (Hs&_&Hi) Hw. split; [auto|]. intros st Hst. exists st. by rewrite Hs. Qed.
Lemma root_kept_same w w' : refs w' = refs w → root_kept w w'.
Proof. intros Hr. apply root_kept_refs. by rewrite Hr. Qed.

Lemma interrupt_keeps_root : respects root_kept (check_for_interrupt (S := S) (R := R)).
Proof. intros w. apply root_kept_same. unfold check_for_interrupt. by case_match. Qed.
Lemma publish_keeps_root records md : respects root_kept (publish_replay_journal_and_mutable_refs (S := S) (R := R) records None md).
Proof.
  unfold publish_replay_journal_and_mutable_refs.
  apply respects_bind; [apply _|apply interrupt_keeps_root|intros _]. apply respects_bind; [apply _| |intros hd].
  { intros w. apply root_kept_refs, append_keeps. }
  apply respects_bind; [apply _|apply interrupt_keeps_root|intros _]. intros w Hi.
  split; [by eapply update_refs_intact|]. intros st Hst. destruct (update_mutable_ref_store _ w) as [w' u] eqn:Hu.
  pose proof (update_refs_spec _ _ _ _ _ Hu Hi Hst) as Hr. cbv zeta in Hr. cbn [fst].
  destruct u as [[]|e]; [by eexists|]. destruct Hr as [->|[-> _]]; by eexists.
Qed.

(** The whole of ingestion. *)
Definition iroot_kept (y y' : iworld) : Prop := root_kept (world_of y) (world_of y').
#[export] Instance iroot_kept_preorder : PreOrder iroot_kept.
Proof. split; [intros y|intros y1 y2 y3]; unfold iroot_kept; [reflexivity|apply transitivity]. Qed.

Context (fs : files) (request_dir : string) (provider : ConfiguredEmbeddingProvider) (spec : EmbeddingSpec).
Context (max_concurrency : Z) (metadata : gmap string string) (schedules : Z → batch_schedule).

Lemma on_world_keeps {A} (m : runtime S R A) : respects root_kept m → respects iroot_kept (on_world m).
Proof. intros Hm y. specialize (Hm (world_of y)). unfold on_world, iroot_kept. by destruct (m (world_of y)). Qed.
Lemma foldl_keeps {V A} (f : V → A → stm iworld (IngestError (BlockStoreError S)) V) v items :
  (∀ v a, respects iroot_kept (f v a)) → respects iroot_kept (stm_foldl f v items).
Proof.
  intros Hf. revert v. induction items as [|a items IH]; intros v; cbn [stm_foldl]; [apply respects_ret, _|].
  apply respects_bind; [apply _|apply Hf|done].
Qed.
Lemma build_batch_keeps items schedule : respects iroot_kept (build_batch (S := S) (R := R) fs provider spec max_concurrency items schedule).
Proof. intros y. apply root_kept_same. unfold build_batch. by repeat case_match. Qed.
Lemma persist_keeps blocks : respects iroot_kept (persist_staged_blocks (S := S) (R := R) blocks).
Proof.
  induction blocks as [|b l IH]; unfold persist_staged_blocks in *; cbn [stm_iter]; [apply respects_ret, _|].
  apply respects_bind; [apply _| |intros _; exact IH]. unfold persist_block.
  apply respects_bind; [apply _|apply respects_lift, _|intros v]. apply respects_bind; [apply _| |intros h; apply respects_lift, _].
  intros y. apply root_kept_same. unfold on_blocks. by case_match.
Qed.
Lemma publish_batch_keeps items ids : respects iroot_kept (publish_batch (S := S) (R := R) (Some metadata) items ids).
Proof. unfold publish_batch. apply on_world_keeps, publish_keeps_root. Qed.
Lemma expand_keeps_root path md : respects iroot_kept (expand_request_mailbox (S := S) (R := R) fs request_dir path md).
Proof. intros y. apply root_kept_same. unfold expand_request_mailbox. by repeat case_match. Qed.

Abbreviation batch_to_store := (ingest_replay_batch_to_store (S := S) (R := R) fs provider spec max_concurrency (Some metadata)).
Lemma batch_to_store_keeps items schedule : respects iroot_kept (batch_to_store items schedule).
Proof.
  unfold ingest_replay_batch_to_store. apply respects_bind; [apply _|apply build_batch_keeps|intros c].
  apply respects_bind; [apply _|apply persist_keeps|intros _]. apply respects_bind; [apply _|apply publish_batch_keeps|intros _].
  apply respects_ret, _.
Qed.
Lemma push_item_keeps v item :
  respects iroot_kept (push_item (S := S) (R := R) fs provider spec max_concurrency (Some metadata) schedules v item).
Proof.
  unfold push_item, flush_batch. apply respects_bind; [apply _|apply on_world_keeps, interrupt_keeps_root|intros _]. cbv zeta.
  case_match; [apply respects_ret, _|]. apply respects_bind; [apply _|apply batch_to_store_keeps|intros c]. apply respects_ret, _.
Qed.

Lemma streaming_keeps_root items :
  respects iroot_kept (stream_request_ingestion_to_store (S := S) (R := R) fs request_dir provider spec max_concurrency (Some metadata)
    schedules items).
Proof.
  unfold stream_request_ingestion_to_store.
  apply respects_bind; [apply _|apply foldl_keeps, push_item_keeps|intros v].
  apply respects_bind; [apply _| |intros v'].
  - apply foldl_keeps. intros v' item. unfold stream_request_item.
    apply respects_bind; [apply _|apply on_world_keeps, interrupt_keeps_root|intros _].
    destruct item as [path md|path md]; [|apply respects_ret, _] || (destruct item as [path md|path md]; [apply respects_ret, _|]).
    + apply respects_bind; [apply _|apply expand_keeps_root|intros [ex|]]; [apply foldl_keeps, push_item_keeps|apply respects_ret, _].
  - case_match; [apply respects_ret, _|]. unfold flush_batch.
    apply respects_bind; [apply _|apply batch_to_store_keeps|intros c]. apply respects_ret, _.
Qed.
End root.

(** ** Collecting the order leaves the blocks and the refs alone *)
Section collecting.
Context {S R : Type} `{BlockStore S} `{HashDisplay} `{!MutableRefs R (BlockStoreError S), !MutableRefsLaws R (BlockStoreError S)}.
Context `{Ciborium} `{Sha256}.
Abbreviation World := (world S R).
Abbreviation error := (RuntimeError (BlockStoreError S)).
#[local] Existing Instance same_preorder.

Definition calm (w w' : World) : Prop := blocks w' = blocks w ∧ kept_refs (refs w) (refs w').
#[local] Instance calm_preorder : PreOrder calm.
Proof. split; [intros w; by split|]. intros w1 w2 w3 [Hb Hr] [??]. split; [congruence|by etrans]. Qed.
Lemma same_calm w w' : same w w' → calm w w'.
Proof. intros [Hb Hr]. split; [done|by rewrite Hr]. Qed.

Definition same_run {A} (m : World → option (World * A)) : Prop := ∀ w w' a, m w = Some (w', a) → calm w w'.
(** One step of a run: a computation that may fail, or one that may lack fuel. *)
Ltac through Hs := let Hr := fresh in intros Hr; etrans; [exact Hs|]; clear Hs; revert Hr.
Tactic Notation "failing" constr(H) "as" simple_intropattern(p) :=
  lazymatch goal with
  | |- match ?m ?w with (_, _) => _ end = _ → _ =>
      let Hs := fresh in pose proof (same_calm _ _ (H w : same w (m w).1)) as Hs; destruct (m w) as [? [p|?]]; cbn [fst] in Hs;
      through Hs; [|by intros [= <- _]]
  end.
Tactic Notation "opting" constr(H) "as" simple_intropattern(p) :=
  lazymatch goal with
  | |- mbind _ (?m ?w) = _ → _ =>
      let E := fresh in let a := fresh in destruct (m w) as [[? a]|] eqn:E; [|done]; cbn [mbind option_bind]; apply H in E; through E;
      revert a; intros p
  end.
Lemma same_done {A} (a : A) : same_run (λ w, Some (w, a)).
Proof. by intros w w' ? [= <- _]. Qed.

Ltac keep := first [apply respects_ret, _ | apply respects_lift, _ | apply respects_throw, _ | apply interrupt_respects
  | apply io_step_respects
  | lazymatch goal with
    | |- respects _ (_ ≫= _) => apply respects_bind; [apply _| |intros ?]
    | |- respects _ (map_err_stm _ _) => apply respects_map_err
    end].

Lemma update_scratch_respects f : respects same (update_scratch (S := S) (R := R) f).
Proof. by intros w. Qed.
Lemma append_respects path data : respects same (file_append (S := S) (R := R) path data).
Proof. unfold file_append. repeat keep. apply update_scratch_respects. Qed.
Lemma write_last_respects path previous : respects same (write_last (S := S) (R := R) path previous).
Proof. unfold write_last, write_error, write_to. destruct previous; repeat keep. apply append_respects. Qed.
Lemma dedup_respects path previous entry : respects same (dedup_step (S := S) (R := R) path previous entry).
Proof. unfold dedup_step, write_error, write_to. repeat case_match; repeat keep. apply append_respects. Qed.
Lemma foldl_respects {V A E} (f : V → A → stm World E V) v l : (∀ v a, respects same (f v a)) → respects same (stm_foldl f v l).
Proof. intros Hf. revert v. induction l as [|a l IH]; intros v; cbn [stm_foldl]; repeat keep; [apply Hf|apply IH]. Qed.
Lemma finish_file_respects path previous : respects same (finish_file (S := S) (R := R) path previous).
Proof. unfold finish_file, write_error. repeat keep. apply write_last_respects. Qed.
Lemma create_respects path : respects same (file_create (S := S) (R := R) path).
Proof. unfold file_create. repeat keep. apply update_scratch_respects. Qed.
Lemma flush_run_respects dir i entries : respects same (flush_sorted_replay_order_run (S := S) (R := R) dir i entries).
Proof.
  unfold flush_sorted_replay_order_run, flush_step, write_error. repeat keep.
  - apply create_respects.
  - apply foldl_respects. intros v e. repeat keep; [apply dedup_respects|]. repeat case_match; keep.
  - apply finish_file_respects.
Qed.

Lemma merge_loop_same fuel run_paths out readers heap previous unique :
  same_run (merge_loop (S := S) (R := R) fuel run_paths out readers heap previous unique).
Proof.
  revert readers heap previous unique. induction fuel as [|fuel IH]; intros readers heap previous unique w w' r; cbn [merge_loop]; [done|].
  destruct (heap_pop heap) as [[cursor heap']|]; [|apply same_done].
  assert (respects same (check_for_interrupt ;; dedup_step (S := S) (R := R) out previous (cur_entry cursor))) as Hd.
  { repeat keep. apply dedup_respects. }
  failing Hd as [previous' written]. destruct (run_paths !! cur_run cursor) as [path|]; [|done]. cbn [mbind option_bind].
  destruct (readers !! cur_run cursor) as [reader|]; [|done]. cbn [mbind option_bind].
  assert (respects same (read_error path (read_from (S := S) (R := R) reader))) as Hn.
  { unfold read_error. repeat keep. apply read_from_respects. }
  failing Hn as [next reader']. apply IH.
Qed.
Lemma merge_group_same fuel run_paths out : same_run (merge_sorted_replay_order_run_group (S := S) (R := R) fuel run_paths out).
Proof.
  intros w w' r. unfold merge_sorted_replay_order_run_group.
  assert (respects same (check_for_interrupt ;; write_error out (file_create out) ;;
    stm_foldl (open_step (S := S) (R := R)) ([], []) run_paths)) as Ho.
  { unfold write_error. repeat keep; [apply create_respects|]. apply foldl_respects. intros [readers heap] path. unfold open_step, read_error. cbv beta iota.
    repeat keep; [unfold file_open; repeat keep; apply file_content_respects|apply read_from_respects|]. repeat case_match; keep. }
  failing Ho as [readers heap]. opting merge_loop_same as [[previous unique]|e]; [|apply same_done].
  assert (respects same (finish_merge (S := S) (R := R) out previous unique)) as Hf.
  { unfold finish_merge. repeat keep. apply finish_file_respects. }
  intros [= Hr]. match type of Hr with ?m ?w = _ => specialize (Hf w) end. rewrite Hr in Hf. by apply same_calm.
Qed.
Lemma merge_pass_same dir fuel pass group groups : same_run (merge_pass (S := S) (R := R) dir fuel pass group groups).
Proof.
  revert group. induction groups as [|g groups IH]; intros group w w' r; cbn [merge_pass]; [apply same_done|].
  failing (interrupt_respects (S := S) (R := R)) as []. cbv zeta. opting merge_group_same as [n|e]; [|apply same_done]. opting IH as a. apply same_done.
Qed.
Lemma merge_passes_same dir passes fuel pass paths out : same_run (merge_passes (S := S) (R := R) dir passes fuel pass paths out).
Proof.
  revert pass paths. induction passes as [|passes IH]; intros pass paths w w' r; cbn [merge_passes]; [done|].
  case_match; [|apply merge_group_same]. failing (interrupt_respects (S := S) (R := R)) as []. opting merge_pass_same as [next|e]; [apply IH|apply same_done].
Qed.

Lemma visit_respects dir limit v r : respects same (visit_entry (S := S) (R := R) (collect_visit dir limit) v r).
Proof.
  unfold visit_entry, collect_visit. repeat keep. destruct v as [entries run_paths]. destruct r; [|keep].
  repeat keep. repeat case_match; repeat keep; apply flush_run_respects.
Qed.
Lemma for_each_same dir limit fuel visited v id : same_run (for_each_loop (S := S) (R := R) (collect_visit dir limit) fuel visited v id).
Proof.
  revert visited v id. induction fuel as [|fuel IH]; intros visited v id w w' r; cbn [for_each_loop]; [done|].
  failing (interrupt_respects (S := S) (R := R)) as []. destruct (journal_block _ _ _) as [body|e]; [|apply same_done].
  assert (respects same (stm_foldl (visit_entry (S := S) (R := R) (collect_visit dir limit)) v (reverse (entries body)))) as Hv.
  { apply foldl_respects. intros; apply visit_respects. }
  failing Hv as v'. destruct (previous_block_id body); [apply IH|apply same_done].
Qed.

Lemma prepare_scratch_respects root : respects same (prepare_scratch (S := S) (R := R) root).
Proof. unfold prepare_scratch, prepare_error. repeat keep. Qed.
Lemma collect_same dir chain_fuel passes fuel root :
  same_run (collect_ordered_replay_block_ids_from_journal (S := S) (R := R) dir chain_fuel passes fuel root).
Proof.
  intros w w' r. unfold collect_ordered_replay_block_ids_from_journal, collect_ordered_replay_block_ids_from_journal_with_limit.
  failing (prepare_scratch_respects root) as [].
  assert (∀ limit, same_run (for_each_replay_journal_record_newest_first (S := S) (R := R) (collect_visit dir limit) chain_fuel ([], []))) as Hfe.
  { intros limit w1 w1' r1. unfold for_each_replay_journal_record_newest_first, load_mutable_ref_store.
    destruct (read_refs (refs w1)) as [rf u] eqn:Hr. apply read_refs_kept in Hr.
    assert (calm w1 (set_refs rf w1)) as Hcalm by done. revert Hcalm. generalize (set_refs rf w1). intros w2 Hcalm Hrun.
    etrans; [exact Hcalm|]. revert Hrun. repeat case_match; try apply same_done. apply for_each_same. }
  opting Hfe as [st|e]; [|apply same_done].
  assert (respects same (run_paths ← flush_rest (S := S) (R := R) dir st; check_for_interrupt ;; mret run_paths)) as Hfl.
  { unfold flush_rest. destruct st as [entries run_paths]. repeat keep; case_match; repeat keep. apply flush_run_respects. }
  failing Hfl as paths.
  assert (∀ paths out, same_run (merge_sorted_replay_order_runs (S := S) (R := R) dir passes fuel paths out)) as Hms.
  { intros ps out u u' r3. unfold merge_sorted_replay_order_runs. failing (interrupt_respects (S := S) (R := R)) as [].
    case_match; [apply merge_group_same|apply merge_passes_same]. }
  opting Hms as a. apply same_done.
Qed.
End collecting.

(** ** The pipeline *)
Section pipeline.
Context {S R I J : Type} `{PutBlock S, !BlockStoreLaws S, !PutBlockLaws S} `{G : !GetBlock S, !GetBlockLaws S}.
Context `{MutableRefs R (BlockStoreError S), !MutableRefsLaws R (BlockStoreError S), !PrepareRefs R (BlockStoreError S), !PrepareRefsLaws R (BlockStoreError S)}.
Context `{!StoreErrors (BlockStoreError S)} `{!StreamingIndexingRunV3 S I} `{!StreamingIndexingRun S R J}.
Context `{CiboriumLaws} `{BuildCustomLaws} `{HashDisplayLaws} `{Sha256Laws} `{MailParse} `{EmbeddingJson} `{HalfFloat} `{StatusText} `{LeafFormatLaws}.
Context `{HalfToFloat} `{PublishedProfiles} `{ProfileVersionText}.
Context (fs : files) (physical_cpus : Z) (available_parallelism : option Z).
Context (env : string → option string) (build_client : Z → result string unit).
Context (open_store : ConfiguredBlockStore → result (BlockStoreError S) unit) (open_layer : OverlayStoreLayer → result (BlockStoreError S) unit).
Context (memory_error_text : Z → result string unit) (overlay_new : list OverlayStoreLayer → result string unit).
Context (config_error_text : ConfigError → string) (error_text : RuntimeError (BlockStoreError S) → string).
Context (provider_error_text : StoredLeafEmbeddingProviderError (BlockStoreError S) → string).
Context (replay_error_text : ReplayError (BlockStoreError S) → string).
Context (schedules : Z → batch_schedule) (thread_schedule : list ReplayOrderEntry → list load_label) (raised : Z → bool).
Context (scratch_dir : string) (request_dir : string) (request : BatchRequest) (overrides : ClusteringConfigOverrides)
  (artifacts : RunRequestArtifactPaths).
Abbreviation iworld := (ingest_world S R).
Abbreviation error := (RequestError (BlockStoreError S)).
Abbreviation spec := (to_embedding_spec request).

#[local] Existing Instance same_preorder.

Lemma omap_length_le {A B} (f : A → option B) l : (length (omap f l) ≤ length l)%nat.
Proof. induction l as [|x l IH]; cbn; [done|]. destruct (f x); cbn; lia. Qed.
Lemma calm_keeps (w w' : world S R) : calm w w' → keeps w w'.
Proof. intros [Hb Hr]. split; [done|]. by rewrite Hb. Qed.
Lemma keeps_root (w w' : world S R) : keeps w w' → root_kept w w'.
Proof. intros [Hr _]. by apply root_kept_refs. Qed.

(** The order of a journal, and enough fuel for it. *)
Lemma ordered_journal l (w : world S R) root : journal_of w l → Forall readable l →
  ∃ n, ∀ chain_fuel passes fuel, (n ≤ chain_fuel)%nat → (n ≤ passes)%nat → (n ≤ fuel)%nat →
    ∃ w' r, collect_ordered_replay_block_ids_from_journal scratch_dir chain_fuel passes fuel root w = Some (w', r)
      ∧ calm w w' ∧ match r with
                    | Ok s => ∃ o, order_of (replay_entries l) o ∧ ReplayOrder.total_items s = len o
                                ∧ scratch w' !! entries_path s = Some (file_bytes o)
                    | Err _ => True
                    end.
Proof.
  intros Hj Hl. destruct (read_refs (refs w)) as [rf u] eqn:Hrf.
  destruct u as [st|e]; [destruct (replay_journal_head_block_id st) as [hd|] eqn:Hhd|].
  1: { destruct (collect_runs scratch_dir w l rf st hd Hj Hrf Hhd Hl) as [n Hn].
    exists (n `max` Datatypes.S (length (replay_entries l)))%nat. intros cf passes fuel ???.
    destruct (Hn cf passes fuel root REPLAY_ORDER_FLUSH_ENTRY_LIMIT) as ([w' r]&Hrun&Hq); [lia..|].
    exists w', r. split; [exact Hrun|]. split; [by eapply collect_same|]. destruct r as [s|e]; [|done].
    unfold runs_to in Hq. cbn in Hq. destruct Hq as ((_&o&Ho&Hs&Ht&_)&_). by exists o. }
  all: exists 0%nat; intros cf passes fuel _ _ _;
    assert (∃ w' e, collect_ordered_replay_block_ids_from_journal scratch_dir cf passes fuel root w = Some (w', Err e)) as (w'&e'&He);
    [|exists w', (Err e'); split; [exact He|]; split; [by eapply collect_same|done]].
  all: unfold collect_ordered_replay_block_ids_from_journal, collect_ordered_replay_block_ids_from_journal_with_limit;
    pose proof (prepare_scratch_respects (S := S) (R := R) root w) as Hp;
    destruct (prepare_scratch root w) as [w1 [[]|e1]]; cbn [fst] in Hp; [|by exists w1, e1];
    unfold for_each_replay_journal_record_newest_first, load_mutable_ref_store; rewrite (proj2 Hp), Hrf, ?Hhd;
    cbn [mbind option_bind]; by eexists _, _.
Qed.

(** What clustering a journal [l] does, and what a run that clusters ends with. *)
Definition bad_error (e : error) : Prop :=
  e = RequestPanics ∨ e = OrderRunning ∨ e = MissingReplayOrderScratchRoot ∨ e = RequestClustering StageRunning.
Definition clustered (clustering : ConfiguredClustering) (working_root : option string) (l : list ReplayJournalRecord)
    (w w' : world S R) (r : result error BatchSummary) : Prop :=
  let metadata := mutable_ref_store_metadata (stage request) clustering in
  match r with
  | Ok summary => ∃ root o ix ix' b b' st res records,
      working_root = Some root
      ∧ order_of (replay_entries l) o
      ∧ v3_with_published_profile (S := S) (I := I) (clustering_profile_version clustering) spec (block_size_target request) root = Ok ix
      ∧ fed (S := S) (order_batches (Z.max (request_batch_size physical_cpus available_parallelism request) 1) o) ix ix'
      ∧ grows (blocks w) b ∧ v3_finalize false ix' b = (b', st, Ok (Ok res))
      ∧ result_block_ids res ≠ [] ∧ summary = summary_of res
      ∧ replay_journal_indexing_outcome_records (S := S) (len o) (result_block_ids res) (result_root_id res) = Ok records
      ∧ published (root_id summary) metadata (l ++ records) w'
  | Err e => ¬ bad_error e
      ∧ (stored_refs (refs w') = stored_refs (refs w)
         ∨ ∃ root records e', published root metadata (l ++ records) w' ∧ e = RequestClustering e' ∧ write_reported (S := S) (R := R) e')
  end.
Abbreviation clustering_stage := (clustering_stage (S := S) (R := R) (I := I) (J := J) fs physical_cpus available_parallelism
  error_text provider_error_text replay_error_text thread_schedule raised scratch_dir).

Lemma clustering_stage_spec clustering metadata scratch_root working_root l (y : iworld) :
  StreamingIndexingRunV3Laws S I → indexer_results_ok (S := S) (I := I) →
  metadata = mutable_ref_store_metadata (stage request) clustering → uses_streaming_indexer_v3 clustering = true →
  journal_of (world_of y) l → Forall readable l → len l < 2 ^ 64 →
  ∃ n, ∀ chain_fuel passes fuel, (n ≤ chain_fuel)%nat → (n ≤ passes)%nat → (n ≤ fuel)%nat → ∀ y' r,
    clustering_stage chain_fuel passes fuel request clustering metadata (Some scratch_root) working_root y = (y', r) →
    intact (refs (world_of y')) = true →
    grows (blocks (world_of y)) (blocks (world_of y')) ∧ clustered clustering working_root l (world_of y) (world_of y') r.
Proof.
  intros HL Hres -> Hv3 Hj Hl Hlen. destruct (ordered_journal l (world_of y) scratch_root Hj Hl) as [n Hn]. exists n.
  intros cf passes fuel Hcf Hp Hf y' r. destruct (Hn cf passes fuel Hcf Hp Hf) as (w1&r1&Hc&Hsame&Hr1). clear Hn.
  unfold Request.clustering_stage, externalize_replay_batches_from_journal, after_order. cbn [replay_base]. rewrite Hc.
  apply calm_keeps in Hsame as He1. destruct r1 as [s|e].
  2:{ intros [= <- <-] _. cbn. split; [apply He1|]. split; [by intros [|[|[]]]|left]. apply He1. }
  destruct Hr1 as (o&Ho&Ht&Hs).
  set (y1 := {| replay_base := w1; current_batch_embeddings := ∅; fallback_embeddings := None |}).
  set (rs := {| replay_order := s |}). set (cfg := stage_config _ _ _).
  cbn [mret stm_ret].
  destruct (run_streaming_stage_externalized _ _ _ _ _ _ _ _ _ _ _ _ _) as [z r2] eqn:Hrun.
  assert (len o ≤ len l) as Hol.
  { unfold len. apply inj_le. etrans; [|apply (omap_length_le entry_of_record)]. apply submseteq_length, NoDup_submseteq.
    - apply (strict_sorted_nodup entry_lt); [|apply Ho]. by intros x [_ ?].
    - intros e He. by apply Ho. }
  intros [= <- <-] Hi. cbn [world_of set_world] in Hi |- *.
  apply (clustering_stage_publishes _ _ _ _ _ _ _ _ _ _ _ _ o l (mutable_ref_store_metadata (stage request) clustering)) in Hrun;
    try done.
  - destruct Hrun as [Hg Hrun].
    assert (grows (blocks (world_of y)) (blocks (replay_base z))) as Hg' by (etrans; [apply He1|exact Hg]). split; [done|].
    destruct r2 as [summary|e]; cbn [map_err clustered].
    + destruct Hrun as (root&ix&ix'&b&b'&st&res&records&?&?&Hfed&Hb&?&?&?&Hrec&?). subst rs. cbn in Hrec, Hfed. rewrite Ht in Hrec.
      rewrite (Z.max_l (Z.max _ 1) 1) in Hfed by lia.
      exists root, o, ix, ix', b, b', st, res, records. split_and!; try done. etrans; [apply He1|exact Hb].
    + destruct Hrun as [He Hrun]. split; [intros [|[|[|[=]]]]; congruence|]. destruct Hrun as [Hrun|(root&records&?&?)]; [left|right].
      * rewrite Hrun. apply He1.
      * by exists root, records, e.
  - split; [exact Hs|]. split; [exact Ht|]. apply Forall_forall. intros e He. apply Ho, list_elem_of_omap in He as (rec&_&He).
    by eapply entry_of_record_ok.
  - lia.
  - by eapply keeps_journal.
Qed.

Lemma clustering_intact chain_fuel passes fuel clustering metadata scratch_root working_root (y y' : iworld) r :
  StreamingIndexingRunV3Laws S I → uses_streaming_indexer_v3 clustering = true →
  clustering_stage chain_fuel passes fuel request clustering metadata (Some scratch_root) working_root y = (y', r) →
  intact (refs (world_of y')) = true → intact (refs (world_of y)) = true.
Proof.
  intros HL Hv3. unfold Request.clustering_stage, externalize_replay_batches_from_journal, after_order. cbn [replay_base].
  destruct (collect_ordered_replay_block_ids_from_journal _ _ _ _ _ _) as [[w1 r1]|] eqn:Hc; [|by intros [= <- _]].
  apply collect_same in Hc as [_ (_&_&Hi1)]. destruct r1 as [s|e]; [|intros [= <- _]; exact Hi1]. cbn [mret stm_ret].
  destruct (run_streaming_stage_externalized _ _ _ _ _ _ _ _ _ _ _ _ _) as [z r2] eqn:Hrun. intros [= <- _] Hi. apply Hi1.
  match type of Hrun with ?m ?y1 = _ => change (intact (refs (replay_base y1)) = true); assert (respects intact_before m) as Hm
    by (by apply stage_intact); specialize (Hm y1) end.
  rewrite Hrun in Hm. by apply Hm.
Qed.

(** ** Preparing *)
Abbreviation prepare_request := (prepare_request (S := S) (R := R) open_store open_layer memory_error_text overlay_new config_error_text
  request_dir request overrides artifacts).
Definition isame (y y' : iworld) : Prop := same (world_of y) (world_of y') ∧ chunk_cache y' = chunk_cache y.
#[local] Instance isame_preorder : PreOrder isame.
Proof.
  split; [intros y; split; reflexivity|]. intros y1 y2 y3 [Ha Hca] [Hb Hcb]. split; [by etrans|congruence].
Qed.
Lemma writable_respects : respects same (prepare_writable_directory (S := S) (R := R)).
Proof.
  unfold prepare_writable_directory. repeat (apply respects_bind; [apply same_preorder| |intros _]); apply io_step_respects.
Qed.
Lemma on_files_respects {A} wrap (m : stm (world S R) io_error A) : respects same m → respects isame (on_files wrap m).
Proof. intros Hm y. specialize (Hm (world_of y)). unfold on_files. destruct (m (world_of y)) as [w r]. by split. Qed.
Definition good {A} (r : result error A) : Prop := match r with Ok _ => True | Err e => ¬ bad_error e end.
Lemma on_files_good {A} wrap (m : stm (world S R) io_error A) y : (∀ e, ¬ bad_error (wrap e)) → good (on_files wrap m y).2.
Proof. intros Hw. unfold on_files. destruct (m (world_of y)) as [w [a|e]]; [done|apply Hw]. Qed.

Lemma prepare_scratch_root_ok c (y y' : iworld) r : prepare_scratch_root request_dir artifacts c y = (y', r) →
  isame y y' ∧ good r ∧ ∀ o, r = Ok o → is_some o = c.
Proof.
  unfold prepare_scratch_root. destruct c; [|intros [= <- <-]; split; [reflexivity|]; split; [done|]; by intros o [= <-]].
  unfold prepare_replay_order_scratch_root, mbind, stm_bind.
  match goal with |- context [on_files ?w ?m y] => pose proof (on_files_respects w m writable_respects y) as Hs;
    pose proof (on_files_good w m y) as Hg; destruct (on_files w m y) as [y1 [[]|e]] end; cbn [fst snd good] in *;
    intros [= <- <-]; (split; [done|]); (split; [|by intros o [= <-]]); [done|]. apply Hg. by intros ? [|[|[|]]].
Qed.
Lemma prepare_working_root_ok c (y y' : iworld) r : prepare_working_root request_dir artifacts c y = (y', r) → isame y y' ∧ good r.
Proof.
  unfold prepare_working_root. destruct c; [|by intros [= <- <-]].
  unfold prepare_v3_working_root, mbind, stm_bind.
  match goal with |- context [on_files ?w ?m y] => pose proof (on_files_respects w m writable_respects y) as Hs;
    pose proof (on_files_good w m y) as Hg; destruct (on_files w m y) as [y1 [[]|e]] end; cbn [fst snd good] in *;
    intros [= <- <-]; (split; [done|]); [done|]. apply Hg. by intros ? [|[|[|]]].
Qed.

Lemma prepare_request_spec (y y' : iworld) r : prepare_request y = (y', r) →
  isame y y' ∧ match r with
               | Ok (clustering, (scratch_root, _)) =>
                   to_configured_clustering overrides (profile_version request) (environment request) = Ok clustering
                   ∧ is_some scratch_root = includes_clustering (stage request)
               | Err e => ¬ bad_error e
               end.
Proof.
  unfold Request.prepare_request, lift. unfold mbind at 1, stm_bind at 1.
  destruct (validate_request request) as [[]|e] eqn:Hv; cbn [map_err]; [|intros [= <- <-]; split; [reflexivity|by intros [|[|[|]]]]].
  unfold mbind at 1, stm_bind at 1.
  destruct (to_configured_clustering _ _ _) as [clustering|e] eqn:Hc; cbn [map_err]; [|intros [= <- <-]; split; [reflexivity|by intros [|[|[|]]]]].
  unfold mbind at 1, stm_bind at 1, open_configured_store.
  destruct (environment_store_safe open_store open_layer memory_error_text overlay_new config_error_text request_dir (environment request))
    as [(ro&->&_) _].
  destruct ro as [store|e]; cbn [map_err lift]; [|intros [= <- <-]; split; [reflexivity|by intros [|[|[|]]]]].
  unfold mbind at 1, stm_bind at 1, resolve_refs.
  destruct (validated_ref_location request request_dir Hv) as (segs&_&_&_&->&_). cbn [ok_or lift].
  unfold mbind at 1, stm_bind at 1.
  destruct (prepare_scratch_root _ _ _ y) as [y1 [sr|e]] eqn:Hs; apply prepare_scratch_root_ok in Hs as (Hy1&Hg&Hsome).
  2:{ intros [= <- <-]. by split. }
  unfold mbind at 1, stm_bind at 1.
  destruct (prepare_working_root _ _ _ y1) as [y2 [wr|e]] eqn:Hw; apply prepare_working_root_ok in Hw as (Hy2&Hg2);
    intros [= <- <-]; (split; [by etrans|]); [|done]. split; [done|by apply Hsome].
Qed.

(** ** The whole run *)
Definition fit (item : IndexItem) : Prop := item_ok item ∧ content_ok (item_content_ref item).
Abbreviation docs := (to_document_index_items request_dir (request_items request)).
Abbreviation expansion := (expansion_of (S := S) fs request_dir).
(** What the requests of the callers guarantee: items that the journal can
    encode, and fewer of them than a counter holds. *)
Definition request_fit (l : list ReplayJournalRecord) : Prop :=
  request_max_concurrency physical_cpus available_parallelism request ≤ usize_max
  ∧ Forall fit docs ∧ (∀ item ex, item ∈ request_items request → expansion item ex → Forall fit ex)
  ∧ (∀ exs, Forall2 expansion (request_items request) exs → len l + len (docs ++ concat exs) < 2 ^ 64).
Definition stage_provider (provider : ConfiguredEmbeddingProvider) : Prop :=
  from_environment env build_client (environment request) = Ok provider.
(** The records that a stage ingests. *)
Definition ingested (s : S) (new : list ReplayJournalRecord) : Prop :=
  match stage request with
  | ClusteringAndBlockAssembly => new = []
  | _ => ∃ provider exs, stage_provider provider ∧ Forall2 expansion (request_items request) exs
           ∧ Forall2 (journaled fs provider spec s) (docs ++ concat exs) new
  end.

Lemma journaled_readable provider s its new : Forall (λ item, content_ok (item_content_ref item)) its →
  Forall2 (journaled fs provider spec s) its new → Forall readable new.
Proof.
  intros Hits. induction 1 as [|item r its new (h&->&Hh&_) _ IH]; [done|].
  apply Forall_cons in Hits as [Hc Hits]. constructor; [|by apply IH].
  destruct (record_digest_is_item_digest h item Hc) as [Hdigest [digest Hd]].
  assert (∃ e, (block_id ← decode_hash (hash_to_string h);
    digest ← mjoin (replay_journal_record_sort_key_digest (replay_journal_record_from_item h item));
    Some {| oe_block_id := block_id; oe_digest := digest |}) = Some e) as [e He]; [|by exists e].
  rewrite decode_hash_to_string by done. cbn [mbind option_bind]. rewrite Hdigest, Hd. by eexists.
Qed.

Lemma prepare_refs_spec (y y' : iworld) r : prepare_mutable_refs y = (y', r) →
  blocks (world_of y') = blocks (world_of y) ∧ kept_refs (refs (world_of y)) (refs (world_of y'))
  ∧ chunk_cache y' = chunk_cache y ∧ good r.
Proof.
  unfold prepare_mutable_refs, on_iworld. destruct (prepare_refs (refs (world_of y))) as [rf u] eqn:Hp. intros [= <- <-].
  cbn. split_and!; [done|by eapply prepare_refs_kept|done|]. destruct u; [done|]. by intros [|[|[|]]].
Qed.

Abbreviation streaming_stage := (streaming_stage (S := S) (R := R) fs physical_cpus available_parallelism env build_client
  schedules request_dir request).
Lemma streaming_stage_spec metadata l (y y' : iworld) r : request_fit l → coherent (blocks (world_of y)) (chunk_cache y) →
  journal_of (world_of y) l → streaming_stage metadata y = (y', r) →
  grows (blocks (world_of y)) (blocks (world_of y')) ∧ root_kept (world_of y) (world_of y')
  ∧ match r with
    | Ok _ => ∃ provider exs, stage_provider provider ∧ Forall2 expansion (request_items request) exs
        ∧ (intact (refs (world_of y')) = true → ∃ new,
             Forall2 (journaled fs provider spec (blocks (world_of y'))) (docs ++ concat exs) new ∧ journal_of (world_of y') (l ++ new))
    | Err e => ¬ bad_error e ∧ (intact (refs (world_of y')) = true → ∃ new, journal_of (world_of y') (l ++ new))
    end.
Proof.
  intros (Hmax&Hdocs&Hex&_) Hcache Hj. unfold Request.streaming_stage, configured_provider.
  unfold mbind at 1, stm_bind at 1, mbind at 1, stm_bind at 1, lift at 1.
  assert (∀ e : error, ¬ bad_error e → (y, Err e) = (y', r) →
    grows (blocks (world_of y)) (blocks (world_of y')) ∧ root_kept (world_of y) (world_of y')
    ∧ match r with Ok _ => False | Err e => ¬ bad_error e ∧ (intact (refs (world_of y')) = true → ∃ new, journal_of (world_of y') (l ++ new)) end)
    as Hearly.
  { intros e He [= <- <-]. split; [done|]. split; [reflexivity|]. split; [done|]. intros _. exists []. by rewrite app_nil_r. }
  destruct (local_embedding (environment request)) as [le|e] eqn:Hle; cbn [map_err];
    [|intros Hx; destruct (Hearly (RequestConfig e)) as (?&?&?); [by intros [|[|[|]]]|done|]; split_and!; [done..|by destruct r]].
  unfold lift at 1. destruct (from_environment env build_client (environment request)) as [provider|e] eqn:Hp; cbn [map_err];
    [|intros Hx; destruct (Hearly (RequestProvider e)) as (?&?&?); [by intros [|[|[|]]]|done|]; split_and!; [done..|by destruct r]].
  unfold on_ingest, map_err_stm.
  destruct (stream_request_ingestion_to_store _ _ _ _ _ _ _ _ y) as [y1 r1] eqn:Hrun.
  pose proof (streaming_keeps_root fs request_dir provider spec (request_max_concurrency physical_cpus available_parallelism request)
    metadata schedules (request_items request) y) as Hkeep. rewrite Hrun in Hkeep.
  apply (stream_ingestion_spec fs request_dir provider spec _ metadata schedules (request_items request) y y1 r1 l) in Hrun; [|done| | |done..].
  2:{ eapply Forall_impl; [exact Hdocs|]. by intros item [? _]. }
  2:{ intros item ex Hin Hx. eapply Forall_impl; [by eapply Hex|]. by intros i [? _]. }
  destruct Hrun as [Hg Hrun]. intros [= <- <-]. split; [done|]. split; [done|]. destruct r1 as [v|e]; cbn [map_err].
  - destruct Hrun as (exs&?&Hrec&_). exists provider, exs. split_and!; [done..|]. intros Hi. destruct (Hrec Hi) as (new&?&?). by exists new.
  - destruct Hrun as (n&exs&its&_&_&Hrec). split; [by intros [|[|[|]]]|]. intros Hi. destruct (Hrec Hi) as (new&?&_). by exists new.
Qed.

Abbreviation run chain_fuel passes fuel := (run_request_with_progress (S := S) (R := R) (I := I) (J := J) fs physical_cpus
  available_parallelism env build_client open_store open_layer memory_error_text overlay_new config_error_text error_text
  provider_error_text replay_error_text schedules thread_schedule raised scratch_dir chain_fuel passes fuel request_dir request
  overrides artifacts).

(** What a run that clusters does to a journal [l]. *)
Definition request_done (l : list ReplayJournalRecord) (y y' : iworld) (r : result error BatchSummary) : Prop :=
  grows (blocks (world_of y)) (blocks (world_of y'))
  ∧ match r with
    | Ok _ => ∃ clustering working_root new,
        to_configured_clustering overrides (profile_version request) (environment request) = Ok clustering
        ∧ ingested (blocks (world_of y')) new
        ∧ clustered clustering working_root (l ++ new) (world_of y) (world_of y') r
    | Err e => ¬ bad_error e ∧ ∃ new,
        journal_of (world_of y') (l ++ new) ∧ root_kept (world_of y) (world_of y')
        ∨ ∃ root metadata records e', published root metadata (l ++ new ++ records) (world_of y')
            ∧ e = RequestClustering e' ∧ write_reported (S := S) (R := R) e'
    end.

(** A failure that has left the refs' root, and a journal that may have grown. *)
Lemma request_failed l (y y1 : iworld) e new : grows (blocks (world_of y)) (blocks (world_of y1)) → ¬ bad_error e →
  journal_of (world_of y1) (l ++ new) → root_kept (world_of y) (world_of y1) → request_done l y y1 (Err e).
Proof. intros ????. split; [done|]. split; [done|]. exists new. by left. Qed.

(** Clustering after the ingestion of [new]. *)
Lemma request_clustered l new clustering working_root (y y1 y' : iworld) r :
  grows (blocks (world_of y)) (blocks (world_of y1)) → root_kept (world_of y) (world_of y1) → journal_of (world_of y1) (l ++ new) →
  (intact (refs (world_of y')) = true → intact (refs (world_of y1)) = true) →
  to_configured_clustering overrides (profile_version request) (environment request) = Ok clustering →
  (grows (blocks (world_of y1)) (blocks (world_of y')) → ingested (blocks (world_of y')) new) →
  grows (blocks (world_of y1)) (blocks (world_of y')) ∧ clustered clustering working_root (l ++ new) (world_of y1) (world_of y') r →
  request_done l y y' r.
Proof.
  intros Hg Hroot Hj Hi Hc Hin [Hg' Hcl]. split; [by etrans|]. destruct r as [summary|e].
  - exists clustering, working_root, new. split; [done|]. split; [by apply Hin|].
    destruct Hcl as (root&o&ix&ix'&b&b'&st&res&records&?&?&?&?&Hb&?&?&?&?&?).
    exists root, o, ix, ix', b, b', st, res, records. split_and!; try done. by etrans.
  - destruct Hcl as [He Hcl]. split; [done|]. exists new. destruct Hcl as [Hr|(root&records&e'&Hp&?&?)]; [left|right].
    + split; [by eapply journal_grows|]. intros Hi'. destruct (Hroot (Hi Hi')) as [Hi0 Hkeep]. split; [done|].
      intros st Hst. destruct (Hkeep st Hst) as (st'&?&?). exists st'. by rewrite Hr.
    + eexists root, _, records, e'. rewrite app_assoc. split_and!; [exact Hp|done..].
Qed.

(** The records of what was ingested are readable and not too many. *)
Lemma ingested_fit l (y : iworld) provider exs new : request_fit l → Forall2 expansion (request_items request) exs →
  Forall2 (journaled fs provider spec (blocks (world_of y))) (docs ++ concat exs) new →
  Forall readable new ∧ len (l ++ new) < 2 ^ 64.
Proof.
  intros (_&Hd&Hx&Hn) Hexs Hnew. split.
  - eapply journaled_readable; [|exact Hnew]. apply Forall_app. split.
    + eapply Forall_impl; [exact Hd|]. by intros i [_ ?].
    + apply Forall_concat, Forall_forall. intros ex Hin. apply list_elem_of_lookup_1 in Hin as [i Hi].
      destruct (Forall2_lookup_r _ _ _ _ _ Hexs Hi) as (item&Hitem&Hex).
      eapply Forall_impl; [eapply Hx; [by eapply list_elem_of_lookup_2|done]|]. by intros ? [_ ?].
  - specialize (Hn exs Hexs). unfold len in *. rewrite !length_app in *.
    rewrite <-(Forall2_length _ _ _ Hnew), length_app. lia.
Qed.

End pipeline.

(** ** The ref stores can be prepared *)
Section prepared_store.
Context {T E : Type} `{RemoteRefs T, !RemoteRefsLaws T} `{RefsJson} `{!RefsJsonLaws}.
Context (location : MutableRefStoreLocation).

#[export] Instance store_prepare : @PrepareRefs (RefStore T) E (store_refs location) := λ r,
  let '(p, u) := prepare_mutable_ref_store location (rs_place r) in (Build_RefStore p (rs_lost r), u).
#[export] Instance store_prepare_laws : @PrepareRefsLaws (RefStore T) E (store_refs location) store_prepare.
Proof.
  split. intros r r' u. unfold prepare_refs, store_prepare.
  destruct (prepare_mutable_ref_store location (rs_place r)) as [p v] eqn:Hp. intros [= <- <-].
  assert (stored_at (E := E) location p = stored_at location (rs_place r)) as Hs; [|by split_and!].
  revert Hp. unfold prepare_mutable_ref_store, stored_at.
  destruct location as [path|url display|table_sas_url display pk rk]; [|by intros [= <- _]|].
  - unfold on_local, prepare_local_file. destruct (path_parent path); [|by intros [= <- _]; destruct (rs_place r)].
    unfold map_err_stm, create_dir_all, touch, operation. destruct (next_outcome _) as [[f|] o]; by intros [= <- _].
  - unfold mbind, stm_bind, lift. by destruct (map_err _ _); intros [= <- _].
Qed.
End prepared_store.
