(* ===== verification/RequestWitness.v ===== *)
(** * The request theorems at concrete inputs

    The two documents of [IngestWitness.v] are ingested, ordered and handed to
    a small indexer by one request; the clustering stage comes first. *)

From Stdlib Require Import ZArith Lia Ascii.
From stdpp Require Import base gmap sets strings sorting option list.
From S2P Require Import Prelude Hex Blocks Cbor Text Runtime Instances ReplayJournal ReplayJournalSpec Items SortKey Orders ReplayOrder ReplayOrderSpec Mailbox Resolver MailboxSpec MailboxWitness Config Http3 Embedding EmbeddingWitness LeafWorkers LeafWorkersSpec Ingest IngestSpec IngestBatchesSpec IngestWitness Replay ReplaySpec ReplayWitness Floats Diagnostics DiagnosticsSpec Clustering ClusteringSpec StoreSelect Request RequestSpec.
#[local] Open Scope Z_scope.
#[local] Existing Instances toy_mail_parse plain_json no_halves plain_status tagged_leaves tagged_leaves_laws.
#[local] Existing Instances mixed_block_store mixed_block_store_laws mixed_put_block mixed_put_block_laws mixed_get_block mixed_get_block_laws.

(** * The clustering stage *)
#[local] Instance zero_half : HalfToFloat := λ _, 0.
#[local] Instance no_profiles : PublishedProfiles := λ _, Err (IndexerFailed "unknown profile").
#[local] Instance version_text : ProfileVersionText := λ _, "v".

(** ** The indexers *)
Definition kept_ok (ids : list block_hash) : bool := bool_decide (Forall hash_ok ids) && (len ids <? 2 ^ 63).
#[local] Instance id_keeper : StreamingIndexingRunV3 mixed_store (list block_hash) := {|
  v3_with_published_profile _ _ _ _ := Ok [];
  ingest_block_id_batch cancelled ids kept :=
    if cancelled then (kept, [], Err (Cancelled "ingest")) else (kept ++ ids, [], Ok ());
  v3_finalize cancelled kept s :=
    (s, [], Ok (match cancelled, kept with
                | false, root :: _ =>
                    if kept_ok kept then Ok {| result_root_id := root; result_block_ids := kept |} else Err (IndexerFailed "ids")
                | false, [] => Err (IndexerFailed "no ids")
                | true, _ => Err (Cancelled "finalize")
                end)) |}.
#[local] Instance id_keeper_laws : StreamingIndexingRunV3Laws mixed_store (list block_hash).
Proof. intros c ix s s' st r. cbn. by intros [= <- _ _]. Qed.
#[local] Instance no_earlier_indexer : StreamingIndexingRun mixed_store MutableRefStoreState unit := {|
  with_resolved_published_profile _ _ _ := Err (IndexerFailed "not installed");
  ingest_batch _ _ _ ix y := (y, ix, [], Err (IndexerFailed "not installed"));
  finish_pass ix := (ix, [], Ok ());
  mark_planning_complete ix := (ix, [], Ok ());
  finalize _ _ _ _ y := (y, [], Err (FinalizeFailed (IndexerFailed "not installed"))) |}.

Lemma id_keeper_results : indexer_results_ok (S := mixed_store) (I := list block_hash).
Proof.
  intros ix b b' st res. cbn. destruct ix as [|root ix]; [done|]. destruct (kept_ok (root :: ix)) eqn:Hok; [|done].
  intros [= _ _ <-]. unfold kept_ok in Hok. apply andb_true_iff in Hok as [Hf%bool_decide_eq_true Hl%Z.ltb_lt]. cbn.
  split; [by apply Forall_cons in Hf as [? _]|done].
Qed.

(** ** The stage *)
Definition one_by_one_state : ExternalizedReplayState :=
  {| replay_order := order_storage; replay_total_items := 2; batch_size := 1; materialization_max_concurrency := 8 |}.
Definition stage_config : StreamingStageConfig := {|
  config_stage := ClusteringAndBlockAssembly;
  config_clustering := {| clustering_profile_version := PUBLISHED_PROFILE_V0_8_0; clustering_cluster_count := None |};
  config_block_size_target := 4096; submission_progress_kind := ProgressReplay; v3_working_root := Some "scratch/v3" |}.
Definition stage_metadata : gmap string string := {["stage" := "clustering"]}.
Definition stage_start : replay_test :=
  {| replay_base := set_refs default_refs (set_scratch {["order" := file_bytes document_order]} ReplayWitness.ingested);
     current_batch_embeddings := ∅; fallback_embeddings := None |}.
Abbreviation stage_run raised := (run_streaming_stage_externalized (S := mixed_store) (R := MutableRefStoreState) (I := list block_hash) (J := unit)
  document_files one_value (Some 2) two_threads (λ _, "") (λ _, "") (λ _, "") ∅ stage_config one_by_one_state (Some stage_metadata)
  raised stage_start).
Definition stage_summary : BatchSummary := Eval vm_compute in
  match (stage_run (λ _, false)).2 with Ok s => s | Err _ => {| root_id := ""; block_count := 0; summary_block_ids := [] |} end.
Lemma stage_runs : stage_run (λ _, false) = ((stage_run (λ _, false)).1, Ok stage_summary).
Proof. vm_compute. reflexivity. Qed.
Lemma stage_journal : journal_of (replay_base stage_start) [].
Proof. exists default_refs. split; [done|]. split; [done|]. exists []. split; [constructor|done]. Qed.

Lemma clustering_stage_publishes_witness :
  block_count stage_summary = 2
  ∧ ∃ records, published (root_id stage_summary) stage_metadata records (replay_base (stage_run (λ _, false)).1).
Proof.
  destruct (clustering_stage_publishes document_files one_value (Some 2) two_threads (λ _, "") (λ _, "") (λ _, "") ∅ stage_config
    one_by_one_state (Some stage_metadata) (λ _, false) document_order [] stage_metadata stage_start (stage_run (λ _, false)).1 (Ok stage_summary) id_keeper_laws
    id_keeper_results eq_refl eq_refl) as [_ (wr&ix&ix'&b&b'&st&res&records&_&_&_&_&_&_&_&_&Hp)].
  - split; [vm_compute; reflexivity|]. split; [reflexivity|exact document_entries_ok].
  - reflexivity.
  - reflexivity.
  - exact stage_journal.
  - reflexivity.
  - exact stage_runs.
  - split; [reflexivity|]. by exists records.
Defined.

(** An interrupt while the second batch is awaited cancels the stage, which publishes nothing. *)
Definition late_signal (y : replay_test) : replay_test :=
  {| replay_base := set_signal (Some 1000%nat) (replay_base y);
     current_batch_embeddings := current_batch_embeddings y; fallback_embeddings := fallback_embeddings y |}.
Abbreviation interrupted_run := (run_streaming_stage_externalized (S := mixed_store) (R := MutableRefStoreState) (I := list block_hash) (J := unit)
  document_files one_value (Some 2) two_threads (λ _, "") (λ _, "") (λ _, "") ∅ stage_config one_by_one_state (Some stage_metadata)
  (λ n, n =? 2) (late_signal stage_start)).
Example interrupted_stage : refs (replay_base interrupted_run.1) = default_refs ∧ interrupted_run.2 = Err (ClusterReplay (ReplayBase Interrupted)).
Proof. vm_compute. split; reflexivity. Qed.

#[local] Instance text_errors : StoreErrors string := {| BackendFailure := λ m, m; store_error_text := λ m, m |}.
#[local] Instance refs_ready : PrepareRefs MutableRefStoreState string := λ r, (r, Ok ()).
#[local] Instance refs_ready_laws : PrepareRefsLaws MutableRefStoreState string.
Proof. split. intros r r' u [= <- _]. reflexivity. Qed.

Definition two_document_request : BatchRequest := {|
  environment := Local "data/blocks" {| base_url := "http://localhost:8080/"; model := "m"; local_api_key_env := None;
    request_timeout_secs := 30; max_retries := 2; retry_delay_ms := 10 |};
  Config.embedding_spec := {| config_dims := 1; config_encoding := "f32le" |};
  block_size_target := 4096;
  stage := FullPipeline;
  profile_version := PUBLISHED_PROFILE_V0_8_0;
  max_concurrency := Some 2;
  Config.replay_batch_size := Some 1;
  ref_name := "main";
  request_items := two_documents
|}.
Abbreviation no_overrides := {| override_profile_version := None; override_cluster_count := None |}.
Abbreviation no_artifacts := {| artifact_scratch_root := None; artifact_working_root := None |}.
Abbreviation run_two := (run_request_with_progress (S := mixed_store) (R := MutableRefStoreState) (I := list block_hash) (J := unit)
  document_files 4 (Some 4) (λ _, None) (λ _, Ok ()) (λ _, Ok ()) (λ _, Ok ()) (λ _, Ok ()) (λ _, Ok ()) (λ _, "invalid configuration")
  (λ _, "") (λ _, "") (λ _, "") schedule_of two_threads (λ _, false) "scratch").
Abbreviation run_two_at n := (run_two n n n "/in" two_document_request no_overrides no_artifacts ingest_start).

(** The whole request, computed: two leaves are journaled and the root of the
    assembled tree is published. *)
Example request_computed :
  (block_count <$> (run_two_at 5%nat).2) = Ok 2
  ∧ is_some (current_root_block_id (refs (world_of (run_two_at 5%nat).1))) = true.
Proof. split; vm_compute; reflexivity. Qed.

Lemma request_fits : request_fit (S := mixed_store) document_files 4 (Some 4) "/in" two_document_request [].
Proof.
  split; [by vm_compute|]. split; [|split].
  - apply Forall_forall. intros item Hin. split; [by eapply (proj1 (Forall_forall _ _) documents_ok)|].
    assert (Forall (λ i, content_ok (item_content_ref i)) document_items) as Hall by (repeat constructor).
    by eapply (proj1 (Forall_forall _ _) Hall).
  - intros item ex Hin Hex. rewrite (documents_expand item ex Hin Hex). constructor.
  - intros exs Hexs. rewrite (no_mailboxes exs Hexs). by vm_compute.
Qed.

