(* ===== verification/Search.v ===== *)
(** * Searching a rooted tree ([search.rs], [tree_tools.rs])

    A query is embedded, prepared for the root's embedding space and handed to
    the searcher of the search crate; when fewer leaves than asked for are
    reachable, the search is repeated for as many as there are. The searcher, the
    embedding provider and the preparation of the target are parameters. *)

From Stdlib Require Import ZArith Lia Ascii.
From stdpp Require Import base gmap sets strings option list.
From S2P Require Import Prelude Hex Blocks Text Items Runtime Embedding Ingest Replay.
#[local] Open Scope Z_scope.

Definition DEFAULT_TRAVERSAL_WIDTH : Z := 3.
Definition default_traversal_width : Z := DEFAULT_TRAVERSAL_WIDTH.

(** ** The search crate

    [SearchError] with the constructors that the project matches on. A searcher
    reads blocks one after the other: [search] is given the reader and returns
    the ids that it reads, in order, with its result. *)
Inductive SearchError :=
| Exhausted (reachable_leaves : Z) (text : string)
| ScoringFailure (block_id : block_hash) (message text : string)
| OtherSearchError (text : string).
Definition search_error_text (error : SearchError) : string :=
  match error with Exhausted _ text | ScoringFailure _ _ text | OtherSearchError text => text end.
Record SearchLeaf := { hit_position : Z; hit_leaf_block_id : block_hash; hit_entry : LeafEntry }.
Record EncodedTargetEmbedding := { target_bytes : bytes; target_spec : EmbeddingSpec }.
Abbreviation block_reader E := (block_hash → result E (option ValidatedBlock)).
Abbreviation search_run := (list block_hash * result SearchError (list SearchLeaf))%type.
Class Searcher (E : Type) :=
  search : block_hash → EncodedTargetEmbedding → Z → Z → block_reader E → search_run.

Section retry.
Context {E : Type} `{Searcher E}.
Definition search_with_partial_retry (root_id : block_hash) (target : EncodedTargetEmbedding) (traversal_width top_k : Z)
    (store : block_reader E) : search_run :=
  match search root_id target traversal_width top_k store with
  | (read, Err (Exhausted reachable_leaves text)) =>
      if 0 <? reachable_leaves then
        let '(again, result) := search root_id target traversal_width reachable_leaves store in (read ++ again, result)
      else (read, Err (Exhausted reachable_leaves text))
  | run => run
  end.
End retry.

(** ** [search_rooted_tree] *)
Inductive RootedSearchError (E : Type) :=
| SearchMissingRootBlock (root_id : string)
| InvalidTopK
| InvalidTraversalWidth
| SearchBlockStore (source : E)
| RootedSearch (source : SearchError)
| Provider (message : string)
| TargetPreparation (message : string).
Arguments SearchMissingRootBlock {E} root_id.
Arguments InvalidTopK {E}.
Arguments InvalidTraversalWidth {E}.
Arguments SearchBlockStore {E} source.
Arguments RootedSearch {E} source.
Arguments Provider {E} message.
Arguments TargetPreparation {E} message.

Record RootedSearchHit := {
  rs_position : Z;
  rs_leaf_block_id : string;
  rs_media_type : string;
  rs_text : text;
  rs_metadata : gmap string string;
  rs_source_kind : option string;
  rs_source_path : option string;
  rs_source_name : option string
}.
(** Readings of the clock, in milliseconds. *)
Record RootedSearchTimingReport := {
  root_load_ms : Z; embedding_ms : Z; target_preparation_ms : Z; traversal_ms : Z; total_ms : Z
}.
Record RootedSearchReport := {
  rr_root_id : string;
  rr_query : string;
  rr_top_k : Z;
  rr_traversal_width : Z;
  rr_embedding_spec : EmbeddingSpec;
  rr_timing : RootedSearchTimingReport;
  rr_results : list RootedSearchHit
}.

(** [prepare_target_embedding] of the block crate: the comparison spec and the
    target for the root's embedding space. *)
Class PrepareTarget :=
  prepare_target_embedding : ValidatedBlock → list Z → result string (EmbeddingSpec * EncodedTargetEmbedding).

Definition embedding_spec_for_block (block : Block) : EmbeddingSpec :=
  match block with BBranch branch => bb_spec branch | BLeaf leaf => lb_spec leaf end.

(** The display of an error of [embedding.rs]. *)
Class EmbeddingErrorText := embedding_error_text : ConfiguredEmbeddingProviderError → string.

Section search.
Context {S : Type} `{GetBlock S} `{Searcher (BlockStoreError S)} `{PrepareTarget} `{HashDisplay} `{EmbeddingErrorText}.
Abbreviation error := (RootedSearchError (BlockStoreError S)).

Definition hit_of (leaf : SearchLeaf) : RootedSearchHit :=
  let metadata := metadata_values_to_text_map (le_metadata (hit_entry leaf)) in
  {| rs_position := hit_position leaf; rs_leaf_block_id := hash_to_string (hit_leaf_block_id leaf);
     rs_media_type := media_type (le_content (hit_entry leaf)); rs_text := utf8_lossy (body (le_content (hit_entry leaf)));
     rs_metadata := metadata; rs_source_kind := metadata !! "source_kind"%string;
     rs_source_path := metadata !! "source_path"%string; rs_source_name := source_name_from_metadata metadata |}.

(** [embed] is the provider's, with the text of its error. *)
Definition search_rooted_tree (store : S) (embed : EmbeddingInput → EmbeddingSpec → result string bytes)
    (timing : RootedSearchTimingReport) (root_id : block_hash) (query : string) (top_k traversal_width : Z)
    : result error RootedSearchReport :=
  reject_if (top_k =? 0) InvalidTopK ;;
  reject_if (traversal_width =? 0) InvalidTraversalWidth ;;
  found ← map_err SearchBlockStore (get root_id store);
  root ← ok_or found (SearchMissingRootBlock (hash_to_string root_id));
  let provider_spec := logical_f32_embedding_spec (dims (embedding_spec_for_block (vb_block root))) in
  target_embedding ← map_err Provider (embed {| input_media_type := "text/plain"; input_body := as_bytes query |} provider_spec);
  logical_embedding ← map_err (Provider ∘ embedding_error_text) (decode_logical_f32_embedding target_embedding (dims provider_spec));
  '(comparison_spec, target) ← map_err TargetPreparation (prepare_target_embedding root logical_embedding);
  leaves ← map_err RootedSearch (search_with_partial_retry root_id target traversal_width top_k (λ id, get id store)).2;
  Ok {| rr_root_id := hash_to_string root_id; rr_query := query; rr_top_k := top_k; rr_traversal_width := traversal_width;
        rr_embedding_spec := comparison_spec; rr_timing := timing; rr_results := hit_of <$> leaves |}.
End search.

(** ** The report *)
Definition hex_byte (b : Z) : bytes := hex_encode_bytes [b].
Definition search_default_report_path `{Sha256} `{HashDisplay} (root_id : block_hash) (query : string) : bytes :=
  let query_hash := sha256_digest (as_bytes query) in
  as_bytes "rooted-search-" ++ take 8 (as_bytes (hash_to_string root_id)) ++ as_bytes "-"
    ++ (take 4 query_hash ≫= hex_byte) ++ as_bytes ".json".

Definition hit_label (hit : RootedSearchHit) : string :=
  default (rs_leaf_block_id hit) (rs_source_name hit ∪ rs_source_path hit).
(** [hit.text.replace('\n', " ").trim()], as bytes. *)
Definition hit_line (hit : RootedSearchHit) : bytes :=
  trim_bytes (utf8 ((λ c, if c =? 10 then 32 else c) <$> rs_text hit)).
Definition render_hit (hit : RootedSearchHit) : list bytes :=
  [as_bytes (fmt_usize (rs_position hit + 1) +:+ ". " +:+ hit_label hit +:+ " [" +:+ rs_leaf_block_id hit +:+ "]");
   as_bytes "   " ++ hit_line hit].
Definition search_render_report_summary (report : RootedSearchReport) : list bytes :=
  [as_bytes ("Rooted search results for " +:+ rr_root_id report +:+ " (top_k " +:+ fmt_usize (rr_top_k report)
     +:+ ", traversal_width " +:+ fmt_usize (rr_traversal_width report) +:+ ")");
   as_bytes ("Query: " +:+ rr_query report);
   as_bytes ("Timing: root_load=" +:+ fmt_usize (root_load_ms (rr_timing report)) +:+ "ms, embedding="
     +:+ fmt_usize (embedding_ms (rr_timing report)) +:+ "ms, target_preparation="
     +:+ fmt_usize (target_preparation_ms (rr_timing report)) +:+ "ms, traversal="
     +:+ fmt_usize (traversal_ms (rr_timing report)) +:+ "ms, total=" +:+ fmt_usize (total_ms (rr_timing report)) +:+ "ms")]
  ++ (rr_results report ≫= render_hit).
