(* ===== verification/Quality.v ===== *)
(** * The quality of a block: statistics of its embeddings ([quality.rs])

    The assessment of a tree decodes the embeddings of every block, measures how
    they spread around their centroid, how much of their variance the first
    principal component carries, and how evenly the entries fall into the
    quantiles along it. All of it is computed in [f32], as the source does. The
    walk over the tree and the report are in [QualityTree.v]; the theorems are in
    [QualitySpec.v]. *)

From Stdlib Require Import ZArith Lia.
From Stdlib.Floats Require Import SpecFloat.
From stdpp Require Import base gmap sets strings option list.
From S2P Require Import Prelude Hex Blocks Floats Runtime Embedding Ingest Replay Diagnostics.
#[local] Open Scope Z_scope.

(** ** Errors

    The last two constructors are not errors of the code: [QualityPanics] is a
    panic ([unwrap] of an absent ordering, an index out of range), and
    [QualityRunning] a walk whose fuel ends first. *)
Inductive TreeQualityError (E : Type) :=
| QualityInterrupted
| MissingRootBlock (root_id : string)
| UnsupportedEmbeddingSpec (block_id : string) (encoding : string) (dims : Z)
| InvalidEmbeddingLength (block_id encoding : string) (dims expected_bytes actual_bytes : Z)
| NonFiniteEmbedding (block_id : string)
| EmbeddingReconstruction (block_id message : string)
| InvalidTnnRecallSampleSize
| InvalidTnnRecallTraversalWidth
| ZeroMagnitudeEmbedding (block_id : string)
| SearchFailed (message : string)
| ExactScoreBatchTooLarge (corpus_entries queries : Z)
| QualityBlockStore (source : E)
| QualityPanics
| QualityRunning.
Arguments QualityInterrupted {E}.
Arguments MissingRootBlock {E} root_id.
Arguments UnsupportedEmbeddingSpec {E} block_id encoding dims.
Arguments InvalidEmbeddingLength {E} block_id encoding dims expected_bytes actual_bytes.
Arguments NonFiniteEmbedding {E} block_id.
Arguments EmbeddingReconstruction {E} block_id message.
Arguments InvalidTnnRecallSampleSize {E}.
Arguments InvalidTnnRecallTraversalWidth {E}.
Arguments ZeroMagnitudeEmbedding {E} block_id.
Arguments SearchFailed {E} message.
Arguments ExactScoreBatchTooLarge {E} corpus_entries queries.
Arguments QualityBlockStore {E} source.
Arguments QualityPanics {E}.
Arguments QualityRunning {E}.

(** ** Numbers *)

(** [x as f32] of an [f64]: to the nearest, ties to even. *)
Definition f32_of_f64 (x : float) : float :=
  match x with
  | S754_finite s m e => binary_normalize 24 128 (cond_Zopp s (Zpos m)) e s
  | x => x
  end.
Definition f32_zero : float := S754_zero false.
Definition f32_one : float := f32_of_Z 1.
(** [1.0e-6], the nearest binary32. *)
Definition EPSILON : float := f32_div f32_one (f32_of_Z (10 ^ 6)).
Definition DEFAULT_QUANTILE_BIN_COUNT : Z := 4.
Definition POWER_ITERATION_STEPS : nat := 8.

(** [f32::clamp] keeps a NaN. *)
Definition float_clamp (lo hi x : float) : float :=
  if float_lt x lo then lo else if float_lt hi x then hi else x.
(** [iter.fold(0.0, f32::max)]. *)
Definition max_from_zero (l : list float) : float := foldl float_max f32_zero l.
Definition div_ceil (a b : Z) : Z := (a + b - 1) / b.

Definition sum_Z (l : list Z) : Z := foldl Z.add 0 l.

(** ** Means and distances *)
Definition mean (values : list float) : float :=
  match values with
  | [] => f32_zero
  | _ => f32_div (f32_sum values) (f32_of_Z (len values))
  end.
Definition f32_square (x : float) : float := f32_mul x x.
Definition stdev (values : list float) : float :=
  if len values <=? 1 then f32_zero
  else
    let average := mean values in
    f32_sqrt (f32_div (f32_sum ((λ value, f32_square (f32_sub value average)) <$> values)) (f32_of_Z (len values))).
Definition dot (left right : list float) : float := f32_sum (zip_with f32_mul left right).
Definition l2_norm (values : list float) : float := f32_sqrt (dot values values).
Definition normalize (values : list float) : list float :=
  let norm := l2_norm values in
  if float_lt EPSILON norm then (λ value, f32_div value norm) <$> values else values.
Definition euclidean_distance (left right : list float) : float :=
  f32_sqrt (f32_sum (zip_with (λ l r, f32_square (f32_sub l r)) left right)).

Record RunningStats := { rs_count : Z; rs_sum : float; rs_sum_squares : float }.
Definition stats_default : RunningStats := {| rs_count := 0; rs_sum := f64_zero; rs_sum_squares := f64_zero |}.
Definition stats_push (value : float) (s : RunningStats) : RunningStats :=
  let value := f64_of_f32 value in
  {| rs_count := rs_count s + 1; rs_sum := f64_add (rs_sum s) value;
     rs_sum_squares := f64_add (rs_sum_squares s) (f64_mul value value) |}.
Definition stats_mean (s : RunningStats) : float :=
  if rs_count s =? 0 then f32_zero else f32_of_f64 (f64_div (rs_sum s) (f64_of_Z (rs_count s))).
Definition stats_stdev (s : RunningStats) : float :=
  if rs_count s <=? 1 then f32_zero
  else
    let count := f64_of_Z (rs_count s) in
    let mean := f64_div (rs_sum s) count in
    f32_of_f64 (f64_sqrt (float_max (f64_sub (f64_div (rs_sum_squares s) count) (f64_mul mean mean)) f64_zero)).

(** ** Spread *)
Record SpreadMetrics := {
  centroid : list float;
  mean_centroid_distance : float;
  max_centroid_distance : float
}.

(** [for (index, value) in vector.enumerate() { acc[index] += f(value) }]: an
    index out of range panics. *)
Definition add_into (f : float → float) (acc vector : list float) : option (list float) :=
  if (length vector <=? length acc)%nat
  then Some (zip_with (λ a v, f32_add a (f v)) acc vector ++ drop (length vector) acc)
  else None.
Fixpoint add_all (f : list float → float → float) (acc : list float) (vectors : list (list float)) : option (list float) :=
  match vectors with
  | [] => Some acc
  | v :: vectors => acc ← add_into (f v) acc v; add_all f acc vectors
  end.

Definition spread_metrics (decoded : list (list float)) (embedding_spec : EmbeddingSpec) : option SpreadMetrics :=
  let zeros := replicate (Z.to_nat (dims embedding_spec)) f32_zero in
  match decoded with
  | [] => Some {| centroid := zeros; mean_centroid_distance := f32_zero; max_centroid_distance := f32_zero |}
  | _ =>
      sums ← add_all (λ _ value, value) zeros decoded;
      let centroid := (λ value, f32_div value (f32_of_Z (len decoded))) <$> sums in
      let distances := (λ vector, euclidean_distance vector centroid) <$> decoded in
      Some {| centroid := centroid; mean_centroid_distance := mean distances;
              max_centroid_distance := max_from_zero distances |}
  end.

Definition centered_vectors (decoded : list (list float)) (centroid : list float) : list (list float) :=
  (λ vector, zip_with f32_sub vector centroid) <$> decoded.

(** ** The first principal component *)
Definition covariance_apply (centered : list (list float)) (axis : list float) : option (list float) :=
  add_all (λ vector value, f32_mul (dot vector axis) value) (replicate (length axis) f32_zero) centered.

(** The loop of the power iteration, which may break. *)
Fixpoint power_iteration (steps : nat) (centered : list (list float)) (axis : list float) : option (list float) :=
  match steps with
  | O => Some axis
  | S steps =>
      next ← covariance_apply centered axis;
      if float_le (l2_norm next) EPSILON then Some axis
      else power_iteration steps centered (normalize next)
  end.

Definition principal_axis_strength (centered : list (list float)) (dimension_count : nat)
    : option (list float * float) :=
  let zeros := replicate dimension_count f32_zero in
  if (length centered <=? 1)%nat || (dimension_count =? 0)%nat then Some (zeros, f32_zero)
  else
    let total_variance := f32_sum (f32_square <$> mjoin centered) in
    if float_le total_variance EPSILON then Some (zeros, f32_zero)
    else
      let start := default (replicate dimension_count f32_one)
                     (find_map (λ vector, if float_lt EPSILON (l2_norm vector) then Some vector else None) centered) in
      axis ← power_iteration POWER_ITERATION_STEPS centered (normalize start);
      covariance_times_axis ← covariance_apply centered axis;
      let leading_variance := float_max (dot axis covariance_times_axis) f32_zero in
      Some (axis, float_clamp f32_zero f32_one (f32_div leading_variance total_variance)).

(** ** Quantiles *)
Record QuantileOccupancyMetrics := {
  bin_count : Z;
  occupancies : list Z;
  occupancy_variance : float;
  empty_bin_count : Z;
  overfull_bin_count : Z
}.

Definition is_nan (x : float) : bool := match x with S754_nan => true | _ => false end.
(** [partial_cmp] of numbers; [None], for a NaN, is handled by the callers. *)
Definition float_cmp (x y : float) : comparison := default Eq (SFcompare x y).

(** [sort_by(|left, right| left.partial_cmp(right).unwrap())]: a sort of two or
    more elements compares each of them, so a NaN panics. *)
Definition sort_floats (l : list float) : option (list float) :=
  if (2 <=? length l)%nat && existsb is_nan l then None else Some (sort_by float_cmp l).

Definition threshold (sorted : list float) (sample_count index : Z) : option float :=
  sorted !! Z.to_nat (saturating_sub (div_ceil (index * sample_count) DEFAULT_QUANTILE_BIN_COUNT) 1).

Fixpoint position {A} (p : A → bool) (l : list A) : option nat :=
  match l with [] => None | x :: l => if p x then Some O else S <$> position p l end.
Definition bin_of (thresholds : list float) (projection : float) : nat :=
  default (Z.to_nat (DEFAULT_QUANTILE_BIN_COUNT - 1)) (position (float_le projection) thresholds).
Definition occupancies_of (thresholds projections : list float) : list Z :=
  foldl (λ bins projection, alter (Z.add 1) (bin_of thresholds projection) bins)
    (replicate (Z.to_nat DEFAULT_QUANTILE_BIN_COUNT) 0) projections.

Definition quantile_occupancy_metrics (centered : list (list float)) (principal_axis : list float)
    : option QuantileOccupancyMetrics :=
  let sample_count := len centered in
  let bin_count := DEFAULT_QUANTILE_BIN_COUNT in
  if sample_count =? 0 then
    Some {| bin_count := bin_count; occupancies := replicate (Z.to_nat bin_count) 0; occupancy_variance := f32_zero;
            empty_bin_count := bin_count; overfull_bin_count := 0 |}
  else
    let projections := (λ vector, dot vector principal_axis) <$> centered in
    sorted ← sort_floats projections;
    thresholds ← mapM (threshold sorted sample_count) [1; 2; 3];
    let occupancies := occupancies_of thresholds projections in
    let expected := f32_div (f32_of_Z sample_count) (f32_of_Z bin_count) in
    Some {| bin_count := bin_count; occupancies := occupancies;
            occupancy_variance :=
              f32_div (f32_sum ((λ count, f32_square (f32_sub (f32_of_Z count) expected)) <$> occupancies))
                (f32_of_Z (len occupancies));
            empty_bin_count := len (filter (λ count, count = 0) occupancies);
            overfull_bin_count :=
              len (filter (λ count, float_lt (f32_add (f32_mul (f32_of_Z 2) expected) EPSILON) (f32_of_Z count) = true)
                     occupancies) |}.

(** ** Decoding *)
Section decoding.
Context {E : Type} `{HalfToFloat} `{HashDisplay}.
Abbreviation quality := (result (TreeQualityError E)).

Definition expected_embedding_byte_len (embedding_spec : EmbeddingSpec) : option Z :=
  bytes_per_value ← (if bool_decide (encoding embedding_spec = "f32le") then Some 4
                     else if bool_decide (encoding embedding_spec = "f16le") then Some 2 else None);
  if dims embedding_spec * bytes_per_value <=? usize_max then Some (dims embedding_spec * bytes_per_value) else None.

(** What both readers of leaf entries say of an embedding that does not decode. *)
Definition undecodable_embedding (block_id : block_hash) (embedding : bytes) (spec : EmbeddingSpec) : TreeQualityError E :=
  let id := hash_to_string block_id in
  let unsupported := UnsupportedEmbeddingSpec id (encoding spec) (dims spec) in
  match expected_embedding_byte_len spec with
  | Some expected_bytes =>
      if negb (len embedding =? expected_bytes)
      then InvalidEmbeddingLength id (encoding spec) (dims spec) expected_bytes (len embedding)
      else unsupported
  | None => unsupported
  end.

Definition finite_values (block_id : block_hash) (values : list float) : quality unit :=
  reject_if (existsb (λ value, negb (is_finite value)) values) (NonFiniteEmbedding (hash_to_string block_id)).

Definition decode_leaf_embeddings (block_id : block_hash) (embedding_spec : EmbeddingSpec) (embeddings : list bytes)
    : quality (list (list float)) :=
  result_mapM (λ embedding,
    values ← ok_or (decode_embedding_values embedding embedding_spec)
      (undecodable_embedding block_id embedding embedding_spec);
    finite_values block_id values ;;
    Ok values) embeddings.
End decoding.

(** The crate's reader of branches with compressed embeddings: [branch_ext] is
    the extension map of the branch that has the id (the record of a branch
    leaves it out, the id determines it), and an error is its text. *)
Class Ebcp := {
  Extension : Type;
  branch_ext : block_hash → option Extension;
  EbcpDescriptor : Type;
  logical_embedding_spec : EbcpDescriptor → EmbeddingSpec;
  parse_branch_ebcp_descriptor : EmbeddingSpec → option Extension → result string (option EbcpDescriptor);
  reconstruct_logical_branch_embedding_f32 :
    bytes → EmbeddingSpec → option EbcpDescriptor → result string (list float)
}.

Record BlockComputedMetrics := {
  computed_spread : SpreadMetrics;
  computed_pca : float;
  computed_quantiles : QuantileOccupancyMetrics
}.
Record BlockQualityMetrics := {
  bm_block_id : string;
  bm_kind : string;
  bm_level : Z;
  bm_entry_count : Z;
  bm_parent_block_id : option string;
  bm_reachable_depth : Z;
  bm_embedding_spec : EmbeddingSpec;
  comparison_embedding_spec : EmbeddingSpec;
  spread : SpreadMetrics;
  pca_first_component_variance_fraction : float;
  quantile_occupancy : QuantileOccupancyMetrics
}.

Section metrics.
Context {E : Type} `{HalfToFloat} `{HashDisplay} `{Ebcp}.
Abbreviation quality := (result (TreeQualityError E)).

Definition branch_embedding_decode_context (block_id : block_hash) (branch : BranchBlock)
    : quality (EmbeddingSpec * option EbcpDescriptor) :=
  descriptor ← map_err (EmbeddingReconstruction (hash_to_string block_id))
    (parse_branch_ebcp_descriptor (bb_spec branch) (branch_ext block_id));
  Ok (default (bb_spec branch) (logical_embedding_spec <$> descriptor), descriptor).

Definition comparison_embedding_spec_for_block (block_id : block_hash) (block : Block) : quality EmbeddingSpec :=
  match block with
  | BBranch branch => fst <$> branch_embedding_decode_context block_id branch
  | BLeaf leaf => Ok (lb_spec leaf)
  end.

Definition decode_branch_embeddings (block_id : block_hash) (branch : BranchBlock) (descriptor : option EbcpDescriptor)
    : quality (list (list float)) :=
  result_mapM (λ entry,
    values ← map_err (EmbeddingReconstruction (hash_to_string block_id))
      (reconstruct_logical_branch_embedding_f32 (be_embedding entry) (bb_spec branch) descriptor);
    finite_values block_id values ;;
    Ok values) (bb_entries branch).

(** What [compute_branch_block_metrics] and [compute_leaf_block_metrics] do once
    the embeddings are decoded. *)
Definition computed_metrics (decoded : list (list float)) (comparison_spec : EmbeddingSpec) : quality BlockComputedMetrics :=
  ok_or (
    spread ← spread_metrics decoded comparison_spec;
    let centered := centered_vectors decoded (centroid spread) in
    '(principal_axis, strength) ← principal_axis_strength centered (Z.to_nat (dims comparison_spec));
    quantiles ← quantile_occupancy_metrics centered principal_axis;
    Some {| computed_spread := spread; computed_pca := strength; computed_quantiles := quantiles |}) QualityPanics.

Definition compute_branch_block_metrics (block_id : block_hash) (branch : BranchBlock) (comparison_spec : EmbeddingSpec)
    (descriptor : option EbcpDescriptor) : quality BlockComputedMetrics :=
  decoded ← decode_branch_embeddings block_id branch descriptor;
  computed_metrics decoded comparison_spec.
Definition compute_leaf_block_metrics (block_id : block_hash) (embedding_spec : EmbeddingSpec) (embeddings : list bytes)
    (comparison_spec : EmbeddingSpec) : quality BlockComputedMetrics :=
  decoded ← decode_leaf_embeddings block_id embedding_spec embeddings;
  computed_metrics decoded comparison_spec.

Definition block_metrics (block_id : block_hash) (block : Block) (parent_block_id : option block_hash)
    (reachable_depth : Z) : quality BlockQualityMetrics :=
  '(kind, level, embedding_spec, entry_count, comparison_spec, computed) ←
    match block with
    | BBranch branch =>
        '(comparison_spec, descriptor) ← branch_embedding_decode_context block_id branch;
        computed ← compute_branch_block_metrics block_id branch comparison_spec descriptor;
        Ok ("branch"%string, bb_level branch, bb_spec branch, len (bb_entries branch), comparison_spec, computed)
    | BLeaf leaf =>
        computed ← compute_leaf_block_metrics block_id (lb_spec leaf) (le_embedding <$> lb_entries leaf) (lb_spec leaf);
        Ok ("leaf"%string, lb_level leaf, lb_spec leaf, len (lb_entries leaf), lb_spec leaf, computed)
    end;
  Ok {| bm_block_id := hash_to_string block_id; bm_kind := kind; bm_level := level; bm_entry_count := entry_count;
        bm_parent_block_id := hash_to_string <$> parent_block_id; bm_reachable_depth := reachable_depth;
        bm_embedding_spec := embedding_spec; comparison_embedding_spec := comparison_spec;
        spread := computed_spread computed; pca_first_component_variance_fraction := computed_pca computed;
        quantile_occupancy := computed_quantiles computed |}.
End metrics.
