(* ===== verification/QualityTree.v ===== *)
(** * The walk over a tree ([quality.rs])

    [traverse_block] visits the blocks below a root once, reports what makes the
    snapshot no tree -- missing children, levels that do not fall, another
    embedding spec, cycles, shared children -- and samples the corpus entries of
    its leaves; the layers and the splits summarise what it collected. The
    theorems are in [QualityTreeSpec.v]. *)

From Stdlib Require Import ZArith Lia.
From stdpp Require Import base gmap sets strings option list.
From S2P Require Import Prelude Hex Blocks Text Items SortKey Floats Runtime Embedding Ingest Replay Diagnostics Quality.
#[local] Open Scope Z_scope.

(** ** Corpus entries *)
Record CorpusLeafEntry := { neighbor_id : string; leaf_block_id : block_hash; ce_embedding : list float }.
Record SampleCandidate := { sc_key : block_hash; sc_entry : CorpusLeafEntry }.

(** [str::cmp]: by bytes. *)
Definition str_cmp (a b : string) : comparison := bytes_cmp (as_bytes a) (as_bytes b).

Definition sample_candidate_cmp (a b : SampleCandidate) : comparison :=
  then_cmp (bytes_cmp (sc_key a) (sc_key b))
    (then_cmp (str_cmp (neighbor_id (sc_entry a)) (neighbor_id (sc_entry b)))
       (bytes_cmp (leaf_block_id (sc_entry a)) (leaf_block_id (sc_entry b)))).

(** A [BinaryHeap] is its elements with the greatest first: [peek] is the head
    and [pop] the tail. *)
Definition heap_push {A} (cmp : A → A → comparison) (x : A) (heap : list A) : list A :=
  insert_by (λ a b, cmp b a) x heap.

(** [heap.len() < bound || heap.peek().is_some_and(|worst| candidate < *worst)],
    then the greatest makes room. *)
Definition push_bounded {A} (cmp : A → A → comparison) (bound : Z) (candidate : A) (heap : list A) : list A :=
  let smaller := match heap with worst :: _ => bool_decide (cmp candidate worst = Lt) | [] => false end in
  if (len heap <? bound) || smaller
  then heap_push cmp candidate (if len heap =? bound then tail heap else heap)
  else heap.
Definition push_bounded_sample (heap : list SampleCandidate) (candidate : SampleCandidate) (sample_size : Z)
    : list SampleCandidate :=
  push_bounded sample_candidate_cmp sample_size candidate heap.

Section corpus.
Context {E : Type} `{HalfToFloat} `{HashDisplay} `{Sha256}.
Abbreviation quality := (result (TreeQualityError E)).

(** [hex_string] is the [hex_encode] of the snapshots. *)
Definition corpus_neighbor_id (leaf_block_id : block_hash) (entry : LeafEntry) : string :=
  hex_encode (sha256_digest (leaf_block_id ++ le_embedding entry ++ as_bytes (media_type (le_content entry))
    ++ body (le_content entry)
    ++ (btree_pairs (metadata_values_to_text_map (le_metadata entry)) ≫= λ kv,
          as_bytes kv.1 ++ [0] ++ as_bytes kv.2 ++ [255]))).

Definition sample_key (neighbor_id : string) (seed : Z) : block_hash :=
  sha256_digest (le_bytes 8 seed ++ as_bytes neighbor_id).

Definition corpus_entry_from_leaf_result (leaf_block_id : block_hash) (entry : LeafEntry) (embedding_spec : EmbeddingSpec)
    : quality CorpusLeafEntry :=
  embedding ← ok_or (decode_embedding_values (le_embedding entry) embedding_spec)
    (undecodable_embedding leaf_block_id (le_embedding entry) embedding_spec);
  finite_values leaf_block_id embedding ;;
  reject_if (float_le (l2_norm embedding) EPSILON) (ZeroMagnitudeEmbedding (hash_to_string leaf_block_id)) ;;
  Ok {| neighbor_id := corpus_neighbor_id leaf_block_id entry; leaf_block_id := leaf_block_id; ce_embedding := embedding |}.
End corpus.

(** ** The traversal *)
Inductive FindingSeverity := SeverityError.
Inductive FindingKind :=
  MissingChildBlock | ChildLevelNotLowerThanParent | EmbeddingSpecMismatch | CycleDetected | SharedChildReference.
#[export] Instance FindingKind_eq_dec : EqDecision FindingKind.
Proof. solve_decision. Defined.
#[export] Instance EmbeddingSpec_eq_dec : EqDecision EmbeddingSpec.
Proof. solve_decision. Defined.
Record TreeQualityFinding := {
  severity : FindingSeverity;
  finding_kind : FindingKind;
  finding_block_id : string;
  finding_parent_block_id : option string;
  finding_message : string;
  parent_mean_centroid_distance : option float;
  child_mean_centroid_distance : option float
}.

(** [structural_finding_count] grows with [findings] in [push_finding], the only
    writer of both. *)
Record TraversalState := {
  ts_blocks : list BlockQualityMetrics;
  sample_size : Z;
  sample_seed : Z;
  corpus_size : Z;
  sample_candidates : list SampleCandidate;
  findings : list TreeQualityFinding;
  metrics_by_id : gmap block_hash BlockQualityMetrics;
  child_ids_by_parent : gmap block_hash (list block_hash);
  visited : gset block_hash;
  has_zero_magnitude_tnn_entry : bool;
  structural_finding_count : Z;
  edge_count : Z;
  max_depth : Z
}.
(** The mutable arguments of [traverse_block], with the polls that remain until
    the interrupt flag is raised (the last of [ancestry] first). *)
Record tree_walk := { tree : TraversalState; ancestry : list block_hash; polls : option nat }.

Definition on_tree (f : TraversalState → TraversalState) (w : tree_walk) : tree_walk :=
  {| tree := f (tree w); ancestry := ancestry w; polls := polls w |}.
Definition on_ancestry (f : list block_hash → list block_hash) (w : tree_walk) : tree_walk :=
  {| tree := tree w; ancestry := f (ancestry w); polls := polls w |}.

Definition push_finding (finding : TreeQualityFinding) (t : TraversalState) : TraversalState :=
  {| ts_blocks := ts_blocks t; sample_size := sample_size t; sample_seed := sample_seed t; corpus_size := corpus_size t;
     sample_candidates := sample_candidates t; findings := findings t ++ [finding]; metrics_by_id := metrics_by_id t;
     child_ids_by_parent := child_ids_by_parent t; visited := visited t;
     has_zero_magnitude_tnn_entry := has_zero_magnitude_tnn_entry t;
     structural_finding_count := structural_finding_count t + 1; edge_count := edge_count t; max_depth := max_depth t |}.
Definition enter_block (block_id : block_hash) (depth : Z) (t : TraversalState) : TraversalState :=
  {| ts_blocks := ts_blocks t; sample_size := sample_size t; sample_seed := sample_seed t; corpus_size := corpus_size t;
     sample_candidates := sample_candidates t; findings := findings t; metrics_by_id := metrics_by_id t;
     child_ids_by_parent := child_ids_by_parent t; visited := {[block_id]} ∪ visited t;
     has_zero_magnitude_tnn_entry := has_zero_magnitude_tnn_entry t;
     structural_finding_count := structural_finding_count t; edge_count := edge_count t;
     max_depth := Z.max (max_depth t) depth |}.
Definition record_metrics (block_id : block_hash) (metrics : BlockQualityMetrics) (t : TraversalState) : TraversalState :=
  {| ts_blocks := ts_blocks t ++ [metrics]; sample_size := sample_size t; sample_seed := sample_seed t;
     corpus_size := corpus_size t; sample_candidates := sample_candidates t; findings := findings t;
     metrics_by_id := <[block_id := metrics]> (metrics_by_id t);
     child_ids_by_parent := child_ids_by_parent t; visited := visited t;
     has_zero_magnitude_tnn_entry := has_zero_magnitude_tnn_entry t;
     structural_finding_count := structural_finding_count t; edge_count := edge_count t; max_depth := max_depth t |}.
Definition count_edge (t : TraversalState) : TraversalState :=
  {| ts_blocks := ts_blocks t; sample_size := sample_size t; sample_seed := sample_seed t; corpus_size := corpus_size t;
     sample_candidates := sample_candidates t; findings := findings t; metrics_by_id := metrics_by_id t;
     child_ids_by_parent := child_ids_by_parent t; visited := visited t;
     has_zero_magnitude_tnn_entry := has_zero_magnitude_tnn_entry t;
     structural_finding_count := structural_finding_count t; edge_count := edge_count t + 1; max_depth := max_depth t |}.
Definition record_child (parent_id child_id : block_hash) (t : TraversalState) : TraversalState :=
  {| ts_blocks := ts_blocks t; sample_size := sample_size t; sample_seed := sample_seed t; corpus_size := corpus_size t;
     sample_candidates := sample_candidates t; findings := findings t; metrics_by_id := metrics_by_id t;
     child_ids_by_parent := <[parent_id := default [] (child_ids_by_parent t !! parent_id) ++ [child_id]]> (child_ids_by_parent t);
     visited := visited t; has_zero_magnitude_tnn_entry := has_zero_magnitude_tnn_entry t;
     structural_finding_count := structural_finding_count t; edge_count := edge_count t; max_depth := max_depth t |}.
Definition count_corpus_entry (candidate : SampleCandidate) (t : TraversalState) : TraversalState :=
  {| ts_blocks := ts_blocks t; sample_size := sample_size t; sample_seed := sample_seed t; corpus_size := corpus_size t + 1;
     sample_candidates := push_bounded_sample (sample_candidates t) candidate (sample_size t);
     findings := findings t; metrics_by_id := metrics_by_id t; child_ids_by_parent := child_ids_by_parent t;
     visited := visited t; has_zero_magnitude_tnn_entry := has_zero_magnitude_tnn_entry t;
     structural_finding_count := structural_finding_count t; edge_count := edge_count t; max_depth := max_depth t |}.
Definition note_zero_magnitude (t : TraversalState) : TraversalState :=
  {| ts_blocks := ts_blocks t; sample_size := sample_size t; sample_seed := sample_seed t; corpus_size := corpus_size t;
     sample_candidates := sample_candidates t; findings := findings t; metrics_by_id := metrics_by_id t;
     child_ids_by_parent := child_ids_by_parent t; visited := visited t; has_zero_magnitude_tnn_entry := true;
     structural_finding_count := structural_finding_count t; edge_count := edge_count t; max_depth := max_depth t |}.
Definition start_traversal (size seed : Z) : TraversalState :=
  {| ts_blocks := []; sample_size := size; sample_seed := seed; corpus_size := 0; sample_candidates := [];
     findings := []; metrics_by_id := ∅; child_ids_by_parent := ∅; visited := ∅;
     has_zero_magnitude_tnn_entry := false; structural_finding_count := 0; edge_count := 0; max_depth := 0 |}.

Section findings.
Context `{HashDisplay}.
Abbreviation spec_text := (λ spec : EmbeddingSpec, encoding spec +:+ "/" +:+ fmt_usize (dims spec)).

Definition finding_of (kind : FindingKind) (block_id parent_id : block_hash) (message : string)
    (parent_metrics : BlockQualityMetrics) (child_distance : option float) : TreeQualityFinding :=
  {| severity := SeverityError; finding_kind := kind; finding_block_id := hash_to_string block_id;
     finding_parent_block_id := Some (hash_to_string parent_id); finding_message := message;
     parent_mean_centroid_distance := Some (mean_centroid_distance (spread parent_metrics));
     child_mean_centroid_distance := child_distance |}.
Definition level_finding (block_id parent_id : block_hash) (metrics parent_metrics : BlockQualityMetrics) : TreeQualityFinding :=
  finding_of ChildLevelNotLowerThanParent block_id parent_id
    ("child " +:+ hash_to_string block_id +:+ " level " +:+ fmt_usize (bm_level metrics) +:+ " is not lower than parent "
       +:+ hash_to_string parent_id +:+ " level " +:+ fmt_usize (bm_level parent_metrics))
    parent_metrics (Some (mean_centroid_distance (spread metrics))).
Definition mismatch_finding (block_id parent_id : block_hash) (metrics parent_metrics : BlockQualityMetrics) : TreeQualityFinding :=
  finding_of EmbeddingSpecMismatch block_id parent_id
    ("child " +:+ hash_to_string block_id +:+ " logical/comparison embedding spec "
       +:+ spec_text (comparison_embedding_spec metrics) +:+ " does not match parent " +:+ hash_to_string parent_id
       +:+ " logical/comparison embedding spec " +:+ spec_text (comparison_embedding_spec parent_metrics))
    parent_metrics (Some (mean_centroid_distance (spread metrics))).
Definition cycle_finding (child parent_id : block_hash) (parent_metrics : BlockQualityMetrics) : TreeQualityFinding :=
  finding_of CycleDetected child parent_id
    ("child " +:+ hash_to_string child +:+ " closes a reachable cycle from parent " +:+ hash_to_string parent_id)
    parent_metrics None.
Definition shared_finding (child parent_id : block_hash) (parent_metrics : BlockQualityMetrics) (distance : option float)
    : TreeQualityFinding :=
  finding_of SharedChildReference child parent_id
    ("child " +:+ hash_to_string child
       +:+ " is reachable from multiple parent paths, so the rooted snapshot is not a tree") parent_metrics distance.
Definition missing_finding (child parent_id : block_hash) (parent_metrics : BlockQualityMetrics) : TreeQualityFinding :=
  finding_of MissingChildBlock child parent_id
    ("parent " +:+ hash_to_string parent_id +:+ " references missing child block " +:+ hash_to_string child)
    parent_metrics None.
End findings.

Section traversal.
Context {S : Type} `{GetBlock S} `{HalfToFloat} `{HashDisplay} `{Sha256} `{Ebcp}.
Abbreviation error := (TreeQualityError (BlockStoreError S)).
Abbreviation walking A := (stm tree_walk error A).
Context (store : S).

Definition check_interrupt : walking unit := fun w =>
  match polls w with
  | Some O => (w, Err QualityInterrupted)
  | _ => ({| tree := tree w; ancestry := ancestry w; polls := Nat.pred <$> polls w |}, Ok ())
  end.

Definition collect_corpus_entry (block_id : block_hash) (spec : EmbeddingSpec) (entry : LeafEntry) : walking unit := fun w =>
  match corpus_entry_from_leaf_result block_id entry spec with
  | Ok entry =>
      let candidate := {| sc_key := sample_key (neighbor_id entry) (sample_seed (tree w)); sc_entry := entry |} in
      (on_tree (count_corpus_entry candidate) w, Ok ())
  | Err (ZeroMagnitudeEmbedding _) => (on_tree note_zero_magnitude w, Ok ())
  | Err other => (w, Err other)
  end.
Definition collect_corpus_entries (block_id : block_hash) (leaf : LeafBlock) : walking unit :=
  stm_iter (collect_corpus_entry block_id (lb_spec leaf)) (lb_entries leaf).

(** The findings about the edge by which the block was reached. *)
Definition check_edge (block_id : block_hash) (metrics : BlockQualityMetrics) (parent : option (block_hash * BlockQualityMetrics))
    (t : TraversalState) : TraversalState :=
  match parent with
  | None => t
  | Some (parent_id, parent_metrics) =>
      let t := if bm_level parent_metrics <=? bm_level metrics
               then push_finding (level_finding block_id parent_id metrics parent_metrics) t else t in
      if bool_decide (comparison_embedding_spec metrics ≠ comparison_embedding_spec parent_metrics)
      then push_finding (mismatch_finding block_id parent_id metrics parent_metrics) t else t
  end.

(** [traverse_block] and [handle_child_entry] call each other: the second is
    given the first. *)
Definition traverser := block_hash → Block → option (block_hash * BlockQualityMetrics) → Z → walking unit.

Definition handle_child_entry (traverse : traverser) (parent_id : block_hash) (parent_metrics : BlockQualityMetrics)
    (entry : BranchEntry) (depth : Z) : walking unit :=
  let child := be_child entry in
  check_interrupt ;;
  in_path ← gets (λ w, bool_decide (child ∈ ancestry w));
  if (in_path : bool) then modify (on_tree (push_finding (cycle_finding child parent_id parent_metrics)))
  else
    seen ← gets (λ w, bool_decide (child ∈ visited (tree w)));
    if (seen : bool) then
      modify (on_tree (λ t, push_finding (shared_finding child parent_id parent_metrics
        ((λ metrics, mean_centroid_distance (spread metrics)) <$> metrics_by_id t !! child)) t))
    else
      validated_child ← lift (map_err QualityBlockStore (get child store));
      match validated_child with
      | None => modify (on_tree (push_finding (missing_finding child parent_id parent_metrics)))
      | Some validated_child =>
          modify (on_tree (record_child parent_id (vb_hash validated_child))) ;;
          traverse (vb_hash validated_child) (vb_block validated_child) (Some (parent_id, parent_metrics)) depth
      end.

Fixpoint traverse_block (fuel : nat) (block_id : block_hash) (block : Block)
    (parent : option (block_hash * BlockQualityMetrics)) (depth : Z) : walking unit :=
  match fuel with
  | O => throw QualityRunning
  | Datatypes.S fuel =>
      check_interrupt ;;
      seen ← gets (λ w, bool_decide (block_id ∈ visited (tree w)));
      if (seen : bool) then mret () else
      modify (on_tree (enter_block block_id depth)) ;;
      modify (on_ancestry (cons block_id)) ;;
      metrics ← lift (block_metrics block_id block (fst <$> parent) depth);
      modify (on_tree (check_edge block_id metrics parent)) ;;
      modify (on_tree (record_metrics block_id metrics)) ;;
      match block with
      | BBranch branch =>
          stm_iter (λ entry,
            check_interrupt ;;
            modify (on_tree count_edge) ;;
            handle_child_entry (traverse_block fuel) block_id metrics entry (depth + 1)) (bb_entries branch)
      | BLeaf leaf => collect_corpus_entries block_id leaf
      end ;;
      modify (on_ancestry tail)
  end.
End traversal.
