(* ===== verification/QualitySpec.v ===== *)
(** * The quality of a block: theorems ([quality.rs])

    The quantile bins share out the entries of a block, and measuring them
    panics exactly when two or more entries have a projection that is no number,
    which finite embeddings can bring about; a bounded heap keeps the smallest
    of what is pushed, in whatever order it comes. *)

From Stdlib Require Import ZArith Lia.
From Stdlib.Floats Require Import SpecFloat.
From stdpp Require Import base gmap sets strings option sorting list.
From S2P Require Import Prelude Hex Blocks Runtime SortKey Orders Embedding EmbeddingSpec Ingest IngestBatchesSpec Replay Floats Diagnostics DiagnosticsSpec Quality QualityTree.
#[local] Open Scope Z_scope.

(** * Bounded heaps *)
Section heap.
Context {A} (cmp : A → A → comparison) `{!CmpLaws cmp}.
Abbreviation le := (λ a b, cmp a b ≠ Gt).
Abbreviation ge := (λ a b, cmp b a ≠ Gt).
Abbreviation sort := (sort_by cmp).

Lemma sort_perm l : sort l ≡ₚ l.
Proof using Type. exact (sort_by_perm id cmp l). Qed.
Lemma sort_sorted l : StronglySorted le (sort l).
Proof using All. exact (sort_by_sorted id cmp l). Qed.
Lemma sorted_unique l k : StronglySorted le l → StronglySorted le k → l ≡ₚ k → l = k.
Proof using All.
  intros Hl Hk Hp. assert (AntiSymm (=) le) by (intros x y ??; by apply (cmp_le_antisym cmp)).
  by apply (StronglySorted_unique le).
Qed.
Lemma sort_ext l k : l ≡ₚ k → sort l = sort k.
Proof using All. intros Hp. apply sorted_unique; [apply sort_sorted..|]. by rewrite !sort_perm. Qed.

Lemma insert_sorted x l : StronglySorted le l → StronglySorted le (insert_by cmp x l).
Proof using All. exact (insert_by_sorted id cmp x l). Qed.
Lemma insert_perm x l : insert_by cmp x l ≡ₚ x :: l.
Proof using Type. exact (insert_by_perm id cmp x l). Qed.
Lemma push_perm x l : heap_push cmp x l ≡ₚ x :: l.
Proof using Type. exact (insert_by_perm id (λ a b, cmp b a) x l). Qed.
Lemma push_sorted x l : StronglySorted ge l → StronglySorted ge (heap_push cmp x l).
Proof using All.
  induction 1 as [|y l Hl IH Hy]; cbn; [repeat constructor|].
  destruct (cmp y x) eqn:Hc.
  3:{ constructor; [done|]. unfold heap_push in *. rewrite (insert_by_perm id (λ a b, cmp b a)). constructor; [|done].
      apply (cmp_gt cmp) in Hc. by rewrite Hc. }
  all: constructor; [by constructor|]; constructor; [by rewrite Hc|];
    (eapply Forall_impl; [exact Hy|]); intros z Hz; apply (cmp_le_trans cmp _ y); [done|by rewrite Hc].
Qed.
Lemma sort_snoc l x : sort (l ++ [x]) = insert_by cmp x (sort l).
Proof using All.
  apply sorted_unique; [apply sort_sorted|apply insert_sorted, sort_sorted|].
  rewrite insert_perm, !sort_perm. solve_Permutation.
Qed.

(** The smallest elements of a sorted list, with one more element. *)
Lemma sorted_app l k : StronglySorted le (l ++ k) ↔
  StronglySorted le l ∧ StronglySorted le k ∧ ∀ x y, x ∈ l → y ∈ k → le x y.
Proof using Type. rewrite StronglySorted_app. naive_solver. Qed.

Lemma insert_before c s1 w s2 : StronglySorted le (s1 ++ w :: s2) → cmp c w = Lt →
  insert_by cmp c (s1 ++ w :: s2) = insert_by cmp c s1 ++ w :: s2.
Proof using All.
  intros Hs Hc. apply sorted_unique; [by apply insert_sorted| |by rewrite !insert_perm].
  apply sorted_app in Hs as (H1&H2&H12). apply sorted_app. split_and!; [by apply insert_sorted|done|].
  intros x y Hx Hy. rewrite insert_perm in Hx. apply elem_of_cons in Hx as [->|Hx]; [|by apply H12].
  apply elem_of_cons in Hy as [->|Hy]; [by rewrite Hc|]. apply (cmp_le_trans cmp _ w); [by rewrite Hc|].
  apply StronglySorted_inv in H2 as [_ H2]. rewrite Forall_forall in H2. by apply H2.
Qed.
Lemma insert_after c s1 w s2 : StronglySorted le (s1 ++ w :: s2) → cmp c w ≠ Lt →
  insert_by cmp c (s1 ++ w :: s2) = s1 ++ w :: insert_by cmp c s2.
Proof using All.
  intros Hs Hc. assert (le w c) as Hwc.
  { intros Hgt%(cmp_gt cmp). done. }
  apply sorted_unique; [by apply insert_sorted| |rewrite !insert_perm; solve_Permutation].
  apply sorted_app in Hs as (H1&H2&H12). pose proof H2 as [H2s H2h]%StronglySorted_inv. rewrite Forall_forall in H2h.
  apply sorted_app. split_and!; [done| |].
  - constructor; [by apply insert_sorted|]. rewrite insert_perm. constructor; [done|]. by apply Forall_forall.
  - intros x y Hx [->|Hy]%elem_of_cons; [apply H12; [done|by left]|].
    rewrite insert_perm in Hy. apply elem_of_cons in Hy as [->|Hy]; [|apply H12; [done|by right]].
    apply (cmp_le_trans cmp _ w); [|done]. apply H12; [done|by left].
Qed.

(** The heap after the elements [seen]. *)
Definition holds_smallest (n : nat) (seen heap : list A) : Prop :=
  StronglySorted ge heap ∧ heap ≡ₚ take n (sort seen).

Lemma push_bounded_smallest n c seen heap :
  holds_smallest n seen heap → holds_smallest n (seen ++ [c]) (push_bounded cmp (Z.of_nat n) c heap).
Proof using All.
  intros [Hs Hp]. unfold holds_smallest. rewrite sort_snoc.
  pose proof (sort_sorted seen) as Hseen. set (s := sort seen) in *.
  pose proof (Permutation_length Hp) as Hlen. rewrite length_take in Hlen. unfold push_bounded.
  destruct (Nat.lt_ge_cases (length s) n) as [Hshort|Hfull].
  { assert (len heap < Z.of_nat n) as Hl by (unfold len; lia). rewrite (proj2 (Z.ltb_lt _ _) Hl). cbn [orb].
    rewrite (proj2 (Z.eqb_neq _ _)) by lia. split; [by apply push_sorted|].
    pose proof (Permutation_length (insert_perm c s)) as Hi. cbn in Hi.
    rewrite take_ge by lia. rewrite push_perm, insert_perm, Hp, take_ge by lia. done. }
  assert (len heap = Z.of_nat n) as Hl by (unfold len; lia). rewrite Hl, Z.ltb_irrefl, Z.eqb_refl. cbn [orb].
  destruct heap as [|worst rest].
  { cbn in Hlen. assert (n = 0)%nat as -> by (unfold len in Hl; cbn in Hl; lia). by rewrite take_0. }
  assert (∃ m, n = Datatypes.S m) as [m ->] by (destruct n; [unfold len in Hl; cbn in Hl; lia|eauto]).
  destruct (lookup_lt_is_Some_2 s m) as [w Hw]; [lia|].
  pose proof (take_drop_middle _ _ _ Hw) as Hmid. set (s1 := take m s) in *. set (s2 := drop (Datatypes.S m) s) in *.
  assert (length s1 = m) as Hs1 by (unfold s1; rewrite length_take; lia).
  assert (take (Datatypes.S m) s = s1 ++ [w]) as Htake by (by apply take_S_r).
  rewrite Htake in Hp. rewrite <-Hmid in Hseen.
  pose proof (proj1 (sorted_app _ _) Hseen) as (Hsort1&_&H12).
  assert (worst = w) as ->.
  { apply (cmp_le_antisym cmp).
    - assert (worst ∈ s1 ++ [w]) as [Hin|Hin%list_elem_of_singleton]%elem_of_app by (rewrite <-Hp; by left).
      + by apply H12; [|left].
      + by rewrite Hin, (cmp_refl cmp).
    - assert (w ∈ worst :: rest) as [->|Hin]%elem_of_cons by (rewrite Hp; apply elem_of_app; right; by left).
      + by rewrite (cmp_refl cmp).
      + apply StronglySorted_inv in Hs as [_ Hs]. rewrite Forall_forall in Hs. by apply Hs. }
  assert (rest ≡ₚ s1) as Hrest.
  { apply (Permutation_cons_inv (a := w)). rewrite Hp. solve_Permutation. }
  rewrite <-Hmid. case_bool_decide as Hc; cbn [tail].
  - split; [apply push_sorted; by apply StronglySorted_inv in Hs as [? _]|].
    rewrite insert_before by done. pose proof (Permutation_length (insert_perm c s1)) as Hi. cbn in Hi.
    rewrite take_app_length' by lia. by rewrite push_perm, insert_perm, Hrest.
  - split; [done|]. rewrite insert_after by done.
    replace (s1 ++ w :: insert_by cmp c s2) with ((s1 ++ [w]) ++ insert_by cmp c s2) by (by rewrite <-app_assoc).
    rewrite take_app_length'; [done|]. rewrite length_app. cbn. lia.
Qed.

Lemma push_all_smallest n cs seen heap : holds_smallest n seen heap →
  holds_smallest n (seen ++ cs) (foldl (λ heap c, push_bounded cmp (Z.of_nat n) c heap) heap cs).
Proof using All.
  revert seen heap. induction cs as [|c cs IH]; intros seen heap Hh; cbn [foldl]; [by rewrite app_nil_r|].
  replace (seen ++ c :: cs) with ((seen ++ [c]) ++ cs) by (by rewrite <-app_assoc). apply IH. by apply push_bounded_smallest.
Qed.

Lemma smallest_sorted n seen heap : holds_smallest n seen heap → sort heap = take n (sort seen).
Proof using All.
  intros [_ Hp]. apply sorted_unique; [apply sort_sorted| |by rewrite sort_perm].
  pose proof (sort_sorted seen) as Hs. rewrite <-(take_drop n (sort seen)) in Hs. by apply sorted_app in Hs as (?&_&_).
Qed.
Lemma smallest_nil n : holds_smallest n [] [].
Proof using Type. split; [constructor|]. cbn; by rewrite take_nil. Qed.
End heap.

(** ** Comparing by a key *)
Section keyed.
Context {A K} (key : A → K) (cmp : A → A → comparison) (kcmp : K → K → comparison).
Context (cmp_key : ∀ a b, cmp a b = kcmp (key a) (key b)).

Lemma insert_key x l : key <$> insert_by cmp x l = insert_by kcmp (key x) (key <$> l).
Proof using cmp_key.
  induction l as [|y l IH]; cbn; [done|]. rewrite cmp_key. destruct (kcmp (key x) (key y)); cbn; [done|done|by rewrite IH].
Qed.
Lemma sort_key_map l : key <$> sort_by cmp l = sort_by kcmp (key <$> l).
Proof using cmp_key. unfold sort_by. induction l as [|x l IH]; cbn; [done|]. by rewrite insert_key, IH. Qed.
Lemma heap_push_key x l : key <$> heap_push cmp x l = heap_push kcmp (key x) (key <$> l).
Proof using cmp_key.
  unfold heap_push. induction l as [|y l IH]; cbn; [done|]. rewrite cmp_key. destruct (kcmp (key y) (key x)); cbn; [done|done|by rewrite IH].
Qed.
Lemma push_bounded_key bound x l : key <$> push_bounded cmp bound x l = push_bounded kcmp bound (key x) (key <$> l).
Proof using cmp_key.
  unfold push_bounded. unfold len. rewrite length_fmap.
  assert (match key <$> l with worst :: _ => bool_decide (kcmp (key x) worst = Lt) | [] => false end
    = match l with worst :: _ => bool_decide (cmp x worst = Lt) | [] => false end) as ->.
  { destruct l as [|y l]; [done|]. cbn. by rewrite cmp_key. }
  destruct (_ || _); [|done]. rewrite heap_push_key. destruct (_ =? _); [by destruct l|done].
Qed.
Lemma push_all_key bound cs heap :
  key <$> foldl (λ heap c, push_bounded cmp bound c heap) heap cs
  = foldl (λ heap c, push_bounded kcmp bound c heap) (key <$> heap) (key <$> cs).
Proof using cmp_key. revert heap. induction cs as [|c cs IH]; intros heap; cbn; [done|]. by rewrite IH, push_bounded_key. Qed.

Lemma push_bounded_elem bound x l y : y ∈ push_bounded cmp bound x l → y = x ∨ y ∈ l.
Proof using Type.
  unfold push_bounded. case_match; [|auto]. unfold heap_push. rewrite (insert_by_perm id (λ a b, cmp b a)).
  intros [->|Hy]%elem_of_cons; [auto|]. right. case_match; [|done]. destruct l; [done|]. by right.
Qed.
Lemma push_all_elem bound cs heap y : y ∈ foldl (λ heap c, push_bounded cmp bound c heap) heap cs → y ∈ heap ∨ y ∈ cs.
Proof using Type.
  revert heap. induction cs as [|c cs IH]; intros heap; cbn; [auto|].
  intros [Hy|?]%IH; [|right; by right]. apply push_bounded_elem in Hy as [->|?]; [right; by left|auto].
Qed.

(** A heap that starts empty: its elements are of the stream, and in order their
    keys are the smallest of the stream's. *)
Lemma bounded_heap_smallest `{!CmpLaws kcmp} n cs :
  let heap := foldl (λ heap c, push_bounded cmp (Z.of_nat n) c heap) [] cs in
  key <$> sort_by cmp heap = take n (sort_by kcmp (key <$> cs)) ∧ ∀ c, c ∈ heap → c ∈ cs.
Proof using cmp_key.
  intros heap. split.
  - rewrite sort_key_map. unfold heap. rewrite push_all_key. apply (smallest_sorted kcmp).
    exact (push_all_smallest kcmp n (key <$> cs) [] [] (smallest_nil kcmp n)).
  - intros c Hc. by apply push_all_elem in Hc as [?%not_elem_of_nil|?].
Qed.
End keyed.

(** ** The sample of the corpus *)
Definition sample_order (c : SampleCandidate) : list Z * (list Z * list Z) :=
  (sc_key c, (as_bytes (neighbor_id (sc_entry c)), leaf_block_id (sc_entry c))).
Definition sample_order_cmp (a b : list Z * (list Z * list Z)) : comparison :=
  then_cmp (bytes_cmp a.1 b.1) (then_cmp (bytes_cmp a.2.1 b.2.1) (bytes_cmp a.2.2 b.2.2)).
#[export] Instance sample_order_laws : CmpLaws sample_order_cmp.
Proof.
  pose proof (then_cmp_laws (A := list Z * list Z) fst snd bytes_cmp bytes_cmp ltac:(intros [??] [??]; cbn; by intros -> ->)) as Hi.
  refine (then_cmp_laws fst snd bytes_cmp (λ a b, then_cmp (bytes_cmp a.1 b.1) (bytes_cmp a.2 b.2)) _).
  intros [??] [??]. cbn. by intros -> ->.
Qed.
Lemma sample_cmp_order a b : sample_candidate_cmp a b = sample_order_cmp (sample_order a) (sample_order b).
Proof. done. Qed.

(** ** Quantiles *)
Lemma sort_floats_some l : sort_floats l = None ↔ (2 ≤ length l)%nat ∧ existsb is_nan l = true.
Proof.
  unfold sort_floats. destruct (Nat.leb_spec 2 (length l)), (existsb is_nan l); cbn; split; intros; try done; try lia; naive_solver lia.
Qed.
Lemma insert_by_length {A} (cmp : A → A → comparison) x l : length (insert_by cmp x l) = Datatypes.S (length l).
Proof. induction l as [|y l IH]; cbn; [done|]. destruct (cmp x y); cbn; lia. Qed.
Lemma sort_by_length {A} (cmp : A → A → comparison) l : length (sort_by cmp l) = length l.
Proof. unfold sort_by. induction l as [|x l IH]; cbn; [done|]. by rewrite insert_by_length, IH. Qed.

Lemma threshold_some l n i : len l = n → 0 < n → 1 ≤ i ≤ 3 → is_Some (threshold l n i).
Proof.
  intros Hl Hn Hi. unfold threshold, div_ceil, saturating_sub, DEFAULT_QUANTILE_BIN_COUNT. apply lookup_lt_is_Some_2.
  assert ((i * n + 4 - 1) / 4 < n + 1) by (apply Z.div_lt_upper_bound; nia).
  unfold len in Hl. lia.
Qed.

Lemma bin_of_range thresholds x : length thresholds = 3%nat → (bin_of thresholds x < 4)%nat.
Proof.
  intros Hl. unfold bin_of. assert (∀ (l : list float) n, position (float_le x) l = Some n → (n < length l)%nat) as Hp.
  { induction l as [|y l IH]; intros n; cbn; [done|]. destruct (float_le x y); [intros [= <-]; lia|].
    destruct (position _ l) as [m|]; cbn; [|done]. intros [= <-]. specialize (IH m eq_refl). lia. }
  destruct (position _ thresholds) as [n|] eqn:Hn; cbn; [|unfold DEFAULT_QUANTILE_BIN_COUNT; lia]. apply Hp in Hn. lia.
Qed.

Lemma sum_Z_foldr l : sum_Z l = foldr Z.add 0 l.
Proof.
  unfold sum_Z. assert (∀ a, foldl Z.add a l = a + foldr Z.add 0 l) as ->; [|lia].
  induction l as [|x l IH]; intros a; cbn; [lia|]. rewrite IH. lia.
Qed.
Lemma alter_sum i l : (i < length l)%nat → foldr Z.add 0 (alter (Z.add 1) i l) = 1 + foldr Z.add 0 l.
Proof.
  revert i. induction l as [|x l IH]; intros i; cbn; [lia|]. destruct i as [|i]; cbn; [lia|].
  intros Hi. change (list_alter (Z.add 1) i l) with (alter (Z.add 1) i l). rewrite IH by lia. lia.
Qed.
Lemma occupancies_spec thresholds projections : length thresholds = 3%nat →
  length (occupancies_of thresholds projections) = 4%nat ∧ sum_Z (occupancies_of thresholds projections) = len projections
  ∧ Forall (λ c, 0 ≤ c) (occupancies_of thresholds projections).
Proof.
  intros Hl. unfold occupancies_of. rewrite sum_Z_foldr. change (replicate _ 0) with (replicate 4 0).
  assert (∀ bins, length bins = 4%nat → Forall (λ c, 0 ≤ c) bins →
    let r := foldl (λ bins projection, alter (Z.add 1) (bin_of thresholds projection) bins) bins projections in
    length r = 4%nat ∧ foldr Z.add 0 r = foldr Z.add 0 bins + len projections ∧ Forall (λ c, 0 ≤ c) r) as Hgo.
  { induction projections as [|x l IH]; intros bins Hb Hn; cbn [foldl]; [unfold len; cbn; split_and!; (done || lia)|].
    pose proof (bin_of_range thresholds x Hl) as Hx.
    destruct (IH (alter (Z.add 1) (bin_of thresholds x) bins)) as (?&Hs&?).
    - by rewrite length_alter.
    - apply Forall_lookup_2. intros j y. destruct (decide (j = bin_of thresholds x)) as [->|Hne].
      + rewrite list_lookup_alter_eq. intros (z&Hz&->)%fmap_Some. rewrite Forall_lookup in Hn. specialize (Hn _ _ Hz). lia.
      + rewrite list_lookup_alter_ne by done. by apply Forall_lookup_1.
    - split_and!; [done| |done]. rewrite Hs, alter_sum, len_cons by lia. lia. }
  destruct (Hgo (replicate 4 0)) as (?&?&?); [done|by repeat constructor|]. split_and!; try done.
Qed.

(** C39. The quantile bins of a block are four, and they share out its entries.
    Measuring them panics exactly when there are at least two entries and the
    projection of one is not a number. *)
Theorem quantiles_share_out centered axis :
  (∀ q, quantile_occupancy_metrics centered axis = Some q →
    bin_count q = 4 ∧ length (occupancies q) = 4%nat ∧ Forall (λ c, 0 ≤ c) (occupancies q)
    ∧ sum_Z (occupancies q) = len centered ∧ 0 ≤ empty_bin_count q ≤ 4 ∧ 0 ≤ overfull_bin_count q ≤ 4)
  ∧ (quantile_occupancy_metrics centered axis = None ↔
      (2 ≤ length centered)%nat ∧ ∃ v, v ∈ centered ∧ dot v axis = S754_nan).
Proof.
  unfold quantile_occupancy_metrics. destruct (Z.eqb_spec (len centered) 0) as [H0|H0].
  { apply len_zero in H0 as ->. split; [|split; [done|intros [? _]; cbn in *; lia]].
    intros q [= <-]. cbn. split_and!; try done; repeat constructor; done. }
  set (projections := (λ vector, dot vector axis) <$> centered).
  assert (length projections = length centered) as Hlen by (by unfold projections; rewrite length_fmap).
  assert (0 < len centered) as Hpos by (pose proof (len_nonneg centered); lia).
  assert (existsb is_nan projections = true ↔ ∃ v, v ∈ centered ∧ dot v axis = S754_nan) as Hnan.
  { rewrite existsb_exists. split.
    - intros (x&Hx%list_elem_of_In&Hx'). apply list_elem_of_fmap in Hx as (v&->&Hv). exists v. split; [done|]. by destruct (dot v axis).
    - intros (v&Hv&Hd). exists S754_nan. split; [|done]. apply list_elem_of_In, list_elem_of_fmap. by exists v. }
  rewrite <-Hnan, <-Hlen, <-sort_floats_some. destruct (sort_floats projections) as [sorted|] eqn:Hs; cbn [mbind option_bind]; [|done].
  assert (len sorted = len centered) as Hsl.
  { unfold sort_floats in Hs. destruct (_ && _) in Hs; [done|]. injection Hs as <-. unfold len. by rewrite sort_by_length, Hlen. }
  destruct (threshold_some sorted (len centered) 1) as [t1 H1]; [done..|lia|].
  destruct (threshold_some sorted (len centered) 2) as [t2 H2]; [done..|lia|].
  destruct (threshold_some sorted (len centered) 3) as [t3 H3]; [done..|lia|].
  cbn [mapM]. rewrite H1, H2, H3. cbn [mbind option_bind mret option_ret]. split; [|done]. intros q [= <-].
  cbn [occupancies bin_count empty_bin_count overfull_bin_count].
  destruct (occupancies_spec [t1; t2; t3] projections eq_refl) as (Ho&Hsum&Hn). set (o := occupancies_of _ _) in *.
  assert (∀ P `{∀ x, Decision (P x)}, 0 ≤ len (filter P o) ≤ 4) as Hf.
  { intros P HP. unfold len. pose proof (length_filter P o). lia. }
  split_and!; try done; try apply Hf. rewrite Hsum. unfold len. by rewrite Hlen.
Qed.

(** ** Finite embeddings can panic

    Two entries with the largest finite number: their sum overflows, the centroid
    is infinite and nothing after it is a number. *)
Section panic.
Context {E : Type} `{HalfToFloat} `{HashDisplay} `{Ebcp}.
Definition largest_f32 : bytes := [255; 255; 127; 127].
Definition overflowing_leaf : LeafBlock :=
  let entry := {| le_metadata := []; le_embedding := largest_f32; le_content := {| media_type := ""; body := [] |} |} in
  {| lb_level := 0; lb_type_name := ""; lb_spec := {| dims := 1; encoding := "f32le" |}; lb_entries := [entry; entry] |}.

Lemma overflowing_values : decode_embedding_values largest_f32 (lb_spec overflowing_leaf) = Some [f32_of_bits 2139095039]
  ∧ is_finite (f32_of_bits 2139095039) = true.
Proof. by vm_compute. Qed.
Lemma overflowing_metrics : computed_metrics (E := E) [[f32_of_bits 2139095039]; [f32_of_bits 2139095039]]
  (lb_spec overflowing_leaf) = Err QualityPanics.
Proof. by vm_compute. Qed.

(** Finite embeddings do not keep the assessment from panicking: a leaf whose
    two embeddings decode to finite numbers makes [block_metrics] panic. *)
Theorem finite_embeddings_panic id parent depth :
  block_metrics (E := E) id (BLeaf overflowing_leaf) parent depth = Err QualityPanics
  ∧ ∃ values, decode_leaf_embeddings (E := E) id (lb_spec overflowing_leaf) (le_embedding <$> lb_entries overflowing_leaf) = Ok values
      ∧ Forall (Forall (λ x, is_finite x = true)) values.
Proof.
  destruct overflowing_values as [Hd Hf]. cbn [overflowing_leaf lb_spec] in Hd.
  assert (decode_leaf_embeddings (E := E) id (lb_spec overflowing_leaf) (le_embedding <$> lb_entries overflowing_leaf)
    = Ok [[f32_of_bits 2139095039]; [f32_of_bits 2139095039]]) as Hv.
  { unfold decode_leaf_embeddings. cbn [overflowing_leaf lb_entries fmap list_fmap le_embedding lb_spec result_mapM]. rewrite Hd.
    cbn [ok_or mbind result_bind]. unfold finite_values. cbn [existsb]. rewrite Hf. done. }
  split.
  - cbn [block_metrics overflowing_leaf]. unfold block_metrics. cbn [overflowing_leaf lb_entries lb_spec] in Hv |- *.
    unfold compute_leaf_block_metrics. rewrite Hv. cbn [mbind result_bind].
    pose proof overflowing_metrics as Hm. cbn [overflowing_leaf lb_spec] in Hm. by rewrite Hm.
  - eexists. split; [exact Hv|]. by repeat constructor.
Qed.
End panic.
