(* ===== verification/QualityTreeSpec.v ===== *)
(** * Assessing a tree: theorems ([quality.rs])

    The walk visits every stored block that the root reaches exactly once,
    whatever the shape of the graph: every reference either leads to a new block
    or is reported, so a snapshot without such reports is a tree; a cycle is
    reported exactly when there is one. *)

From Stdlib Require Import ZArith Lia.
From stdpp Require Import base gmap sets strings relations option list.
From S2P Require Import Prelude Hex Blocks Text Runtime Items SortKey Orders Embedding Ingest Replay Floats Diagnostics Quality QualityTree QualitySpec.
#[local] Open Scope Z_scope.

(** ** What is reported of a reference *)
Definition is_reference (f : TreeQualityFinding) : Prop :=
  match finding_kind f with MissingChildBlock | CycleDetected | SharedChildReference => True | _ => False end.
#[export] Instance is_reference_dec f : Decision (is_reference f).
Proof. unfold is_reference. destruct (finding_kind f); apply _. Defined.

Record visit := {
  v_id : block_hash;
  v_metrics : BlockQualityMetrics;
  v_parent : option (block_hash * BlockQualityMetrics)
}.
Abbreviation ids new := (v_id <$> (new : list visit)).

(** A list of blocks each of whose stored children is in [D] or before it. *)
Fixpoint topological (next : block_hash → block_hash → Prop) (D : gset block_hash) (post : list block_hash) : Prop :=
  match post with
  | [] => True
  | u :: post => (∀ c, next u c → c ∈ D) ∧ topological next ({[u]} ∪ D) post
  end.

Section topological.
Context (next : block_hash → block_hash → Prop).

Lemma topological_mono D D' post : D ⊆ D' → topological next D post → topological next D' post.
Proof using Type.
  revert D D'. induction post as [|u post IH]; intros D D' HD; cbn; [done|].
  intros [Hu Hp]. split; [by intros c Hc%Hu; apply HD|]. eapply IH; [|exact Hp]. set_solver.
Qed.
Lemma topological_app D p q :
  topological next D p → topological next (D ∪ list_to_set p) q → topological next D (p ++ q).
Proof using Type.
  revert D. induction p as [|u p IH]; intros D; cbn.
  { intros _. by rewrite union_empty_r_L. }
  intros [Hu Hp] Hq. split; [done|]. apply IH; [done|]. eapply topological_mono; [|exact Hq]. set_solver.
Qed.

(** Successors come before, so nothing is its own successor. *)
Lemma topological_next D post u c : (∀ d, d ∈ D → d ∉ post) → topological next D post → NoDup post →
  u ∈ post → next u c → c ∈ D ∨ ∃ p q, post = p ++ u :: q ∧ c ∈ p.
Proof using Type.
  revert D. induction post as [|x post IH]; intros D HD; cbn; [by intros _ _ ?%not_elem_of_nil|].
  intros [Hx Hp] [Hnx Hnd]%NoDup_cons [->|Hu]%elem_of_cons Hc; [left; by apply Hx|].
  destruct (IH ({[x]} ∪ D)) as [[->%elem_of_singleton|?]%elem_of_union|(p&q&->&Hin)]; try done.
  - intros d [->%elem_of_singleton|Hd]%elem_of_union; [done|]. intros Hin. apply (HD d Hd). by right.
  - right. apply list_elem_of_split in Hu as (p&q&->). exists (x :: p), q. split; [done|]. by left.
  - by left.
  - right. exists (x :: p), q. split; [done|]. by right.
Qed.
Lemma topological_irreflexive post u : topological next ∅ post → NoDup post → u ∈ post → ¬ tc next u u.
Proof using Type.
  intros Ht Hnd Hu Hc.
  assert (∀ a b, tc next a b → ∀ p q, post = p ++ a :: q → b ∈ p) as Hb.
  2:{ pose proof Hu as (p&q&->)%list_elem_of_split. pose proof (Hb u u Hc p q eq_refl) as Hin.
      apply NoDup_app in Hnd as (_&Hd&_). apply (Hd u Hin). by left. }
  assert (∀ a b, next a b → ∀ p q, post = p ++ a :: q → b ∈ p) as Hone.
  { intros a b Hab p q Hpost. destruct (topological_next ∅ post a b) as [?%not_elem_of_empty|(p'&q'&Hp'&Hin)]; try done.
    { rewrite Hpost. set_solver. }
    assert (p = p') as ->; [|done].
    rewrite Hpost in Hnd, Hp'. clear -Hnd Hp'.
    revert p' Hp' Hnd. induction p as [|x p IH]; intros [|y p'] Hp' Hnd; [done|..].
    - injection Hp' as -> ->. apply NoDup_cons in Hnd as [Hn _]. exfalso. apply Hn. set_solver.
    - injection Hp' as -> Hp'. apply NoDup_cons in Hnd as [Hn _]. exfalso. apply Hn. set_solver.
    - injection Hp' as -> Hp'. f_equal. apply IH; [done|]. by apply NoDup_cons in Hnd as [_ ?]. }
  intros a b Hab. induction Hab as [a b Hab|a c b Hac Hcb IH]; intros p q Hpost; [by eapply Hone|].
  pose proof (Hone _ _ Hac _ _ Hpost) as (p1&p2&->)%list_elem_of_split.
  rewrite <-app_assoc in Hpost. cbn in Hpost. specialize (IH _ _ Hpost). set_solver.
Qed.
End topological.

Section traversal_spec.
Context {S : Type} `{GetBlockLaws S} `{HalfToFloat} `{HashDisplay} `{Sha256} `{Ebcp}.
Abbreviation error := (TreeQualityError (BlockStoreError S)).
Context (store : S).

(** ** The stored graph *)
Definition present (h : block_hash) : Prop := ∃ v, get h store = Ok (Some v).
Definition block_children (b : Block) : list block_hash :=
  match b with BBranch branch => be_child <$> bb_entries branch | BLeaf _ => [] end.
Definition stored_children (h : block_hash) : list block_hash :=
  match get h store with Ok (Some v) => block_children (vb_block v) | _ => [] end.
Definition edge (h c : block_hash) : Prop := c ∈ stored_children h.
Definition stored_edge (h c : block_hash) : Prop := edge h c ∧ present c.

(** The corpus entries of a leaf, and whether one of them has no magnitude. *)
Definition entry_candidate (seed : Z) (h : block_hash) (spec : EmbeddingSpec) (entry : LeafEntry) : option SampleCandidate :=
  match corpus_entry_from_leaf_result (E := BlockStoreError S) h entry spec with
  | Ok e => Some {| sc_key := sample_key (neighbor_id e) seed; sc_entry := e |}
  | Err _ => None
  end.
Definition entry_zero (h : block_hash) (spec : EmbeddingSpec) (entry : LeafEntry) : bool :=
  match corpus_entry_from_leaf_result (E := BlockStoreError S) h entry spec with
  | Err (ZeroMagnitudeEmbedding _) => true
  | _ => false
  end.
Definition block_candidates (seed : Z) (h : block_hash) (b : Block) : list SampleCandidate :=
  match b with BLeaf leaf => omap (entry_candidate seed h (lb_spec leaf)) (lb_entries leaf) | BBranch _ => [] end.
Definition block_zero (h : block_hash) (b : Block) : bool :=
  match b with BLeaf leaf => existsb (entry_zero h (lb_spec leaf)) (lb_entries leaf) | BBranch _ => false end.
Definition candidates_of (seed : Z) (h : block_hash) : list SampleCandidate :=
  match get h store with Ok (Some v) => block_candidates seed h (vb_block v) | _ => [] end.
Definition zero_of (h : block_hash) : bool :=
  match get h store with Ok (Some v) => block_zero h (vb_block v) | _ => false end.
Definition push_all (size : Z) (heap cs : list SampleCandidate) : list SampleCandidate :=
  foldl (λ heap c, push_bounded_sample heap c size) heap cs.

(** ** What a walk adds *)
Definition genuine (v : visit) : Prop :=
  ∃ b depth, get (v_id v) store = Ok (Some b)
    ∧ block_metrics (E := BlockStoreError S) (v_id v) (vb_block b) (fst <$> v_parent v) depth = Ok (v_metrics v).
Definition edge_findings (v : visit) : list TreeQualityFinding :=
  match v_parent v with
  | None => []
  | Some (p, pm) =>
      (if bm_level pm <=? bm_level (v_metrics v) then [level_finding (v_id v) p (v_metrics v) pm] else [])
      ++ (if bool_decide (comparison_embedding_spec (v_metrics v) ≠ comparison_embedding_spec pm)
          then [mismatch_finding (v_id v) p (v_metrics v) pm] else [])
  end.
Definition lost_because (vis : gset block_hash) (anc : list block_hash) (f : TreeQualityFinding) (h : block_hash) : Prop :=
  finding_block_id f = hash_to_string h ∧
  match finding_kind f with
  | MissingChildBlock => get h store = Ok None
  | CycleDetected => h ∈ vis ∧ tc edge h h
  | SharedChildReference => h ∈ vis ∧ h ∉ anc
  | _ => False
  end.

(** [new] are the visits of the references [l], [fs] the findings, [lost] the
    references that are reported, [k] the edges counted for [l] itself. *)
Record explored (k : Z) (l : list block_hash) (parent : option (block_hash * BlockQualityMetrics)) (anc : list block_hash)
    (t t' : TraversalState) (new : list visit) (fs : list TreeQualityFinding) (lost : list block_hash) : Prop := {
  ex_visited : visited t' = visited t ∪ list_to_set (ids new);
  ex_nodup : NoDup (ids new);
  ex_fresh : ∀ v, v ∈ new → v_id v ∉ visited t;
  ex_blocks : ts_blocks t' = ts_blocks t ++ (v_metrics <$> new);
  ex_genuine : Forall genuine new;
  ex_parents : ∀ v, v ∈ new → (v_parent v = parent ∧ v_id v ∈ l)
    ∨ ∃ u, u ∈ new ∧ v_parent v = Some (v_id u, v_metrics u) ∧ edge (v_id u) (v_id v);
  ex_reach : ∀ v, v ∈ new → ∃ c, c ∈ l ∧ rtc edge c (v_id v);
  ex_findings : findings t' = findings t ++ fs;
  ex_count : structural_finding_count t' = structural_finding_count t + len fs;
  ex_edges : edge_count t' = edge_count t + k + len (ids new ≫= stored_children);
  ex_checks : filter (λ f, ¬ is_reference f) fs = new ≫= edge_findings;
  ex_lost : Forall2 (lost_because (visited t') anc) (filter is_reference fs) lost;
  ex_refs : l ++ (ids new ≫= stored_children) ≡ₚ ids new ++ lost;
  ex_topo : Forall (λ f, finding_kind f ≠ CycleDetected) fs →
    ∃ post, post ≡ₚ ids new ∧ topological stored_edge (visited t ∖ list_to_set anc) post;
  ex_corpus : corpus_size t' = corpus_size t + len (ids new ≫= candidates_of (sample_seed t));
  ex_sample : sample_candidates t' = push_all (sample_size t) (sample_candidates t) (ids new ≫= candidates_of (sample_seed t));
  ex_zero : has_zero_magnitude_tnn_entry t' = has_zero_magnitude_tnn_entry t || existsb zero_of (ids new);
  ex_size : sample_size t' = sample_size t ∧ sample_seed t' = sample_seed t
}.

Lemma explored_refl parent anc t : explored 0 [] parent anc t t [] [] [].
Proof.
  split; cbn; rewrite ?union_empty_r_L, ?app_nil_r, ?orb_false_r, ?len_nil, ?Z.add_0_r; try done; try (by constructor).
  - by intros v ?%not_elem_of_nil.
  - by intros ? ?%not_elem_of_nil.
  - by intros ? ?%not_elem_of_nil.
  - intros _. by exists [].
Qed.

Lemma lost_because_mono vis vis' anc anc' f h : vis ⊆ vis' → (∀ a, a ∈ anc' → a ∈ anc) →
  lost_because vis anc f h → lost_because vis' anc' f h.
Proof.
  intros Hv Ha [Hid Hk]. split; [done|]. destruct (finding_kind f); set_solver.
Qed.

Lemma push_all_app size heap a b : push_all size heap (a ++ b) = push_all size (push_all size heap a) b.
Proof. apply foldl_app. Qed.

Lemma explored_trans k1 k2 l1 l2 parent anc t t1 t2 new1 new2 fs1 fs2 lost1 lost2 :
  (∀ a, a ∈ anc → a ∈ visited t) →
  explored k1 l1 parent anc t t1 new1 fs1 lost1 → explored k2 l2 parent anc t1 t2 new2 fs2 lost2 →
  explored (k1 + k2) (l1 ++ l2) parent anc t t2 (new1 ++ new2) (fs1 ++ fs2) (lost1 ++ lost2).
Proof.
  intros Hanc [Vv1 Vn1 Vf1 Vb1 Vg1 Vp1 Vre1 Vfi1 Vc1 Ve1 Vk1 Vl1 Vr1 Vt1 Vcs1 Vs1 Vz1 [Vss1 Vsd1]]
    [Vv2 Vn2 Vf2 Vb2 Vg2 Vp2 Vre2 Vfi2 Vc2 Ve2 Vk2 Vl2 Vr2 Vt2 Vcs2 Vs2 Vz2 [Vss2 Vsd2]].
  rewrite Vsd1 in Vcs2. rewrite Vss1, Vsd1 in Vs2. split.
  - rewrite Vv2, Vv1, fmap_app, list_to_set_app_L. set_solver.
  - rewrite fmap_app. apply NoDup_app. split_and!; [done| |done].
    intros h Hh (v&->&Hv)%list_elem_of_fmap. apply (Vf2 v Hv). rewrite Vv1. set_solver.
  - intros v [Hv|Hv]%elem_of_app; [by apply Vf1|]. pose proof (Vf2 v Hv) as Hn. rewrite Vv1 in Hn. set_solver.
  - by rewrite Vb2, Vb1, fmap_app, app_assoc.
  - by apply Forall_app.
  - intros v [Hv|Hv]%elem_of_app.
    + destruct (Vp1 v Hv) as [[? ?]|(u&?&?&?)]; [left; set_solver|right; exists u; set_solver].
    + destruct (Vp2 v Hv) as [[? ?]|(u&?&?&?)]; [left; set_solver|right; exists u; set_solver].
  - intros v [Hv|Hv]%elem_of_app; [destruct (Vre1 v Hv) as (c&?&?)|destruct (Vre2 v Hv) as (c&?&?)]; exists c; set_solver.
  - by rewrite Vfi2, Vfi1, app_assoc.
  - rewrite Vc2, Vc1, len_app. lia.
  - rewrite Ve2, Ve1, fmap_app, bind_app, len_app. lia.
  - by rewrite filter_app, bind_app, Vk1, Vk2.
  - rewrite filter_app. apply Forall2_app; [|done]. eapply Forall2_impl; [exact Vl1|].
    intros f h. apply lost_because_mono; [|done]. rewrite Vv2. set_solver.
  - rewrite fmap_app, bind_app.
    transitivity ((l1 ++ (ids new1 ≫= stored_children)) ++ (l2 ++ (ids new2 ≫= stored_children))); [solve_Permutation|].
    rewrite Vr1, Vr2. solve_Permutation.
  - intros [HF1 HF2]%Forall_app. destruct (Vt1 HF1) as (p1&Hp1&Ht1). destruct (Vt2 HF2) as (p2&Hp2&Ht2).
    exists (p1 ++ p2). split; [by rewrite fmap_app, Hp1, Hp2|]. apply topological_app; [done|].
    eapply topological_mono; [|exact Ht2]. rewrite Vv1.
    assert (list_to_set (ids new1) =@{gset block_hash} list_to_set p1) as ->; [|set_solver].
    apply set_eq. intros h. by rewrite !elem_of_list_to_set, Hp1.
  - rewrite Vcs2, Vcs1, fmap_app, bind_app, len_app. lia.
  - by rewrite Vs2, Vs1, fmap_app, bind_app, push_all_app.
  - by rewrite Vz2, Vz1, fmap_app, existsb_app, orb_assoc.
  - by rewrite Vss2, Vsd2.
Qed.

(** ** Entering a block *)
Record collected (cs : list SampleCandidate) (z : bool) (t t' : TraversalState) : Prop := {
  co_corpus : corpus_size t' = corpus_size t + len cs;
  co_sample : sample_candidates t' = push_all (sample_size t) (sample_candidates t) cs;
  co_zero : has_zero_magnitude_tnn_entry t' = has_zero_magnitude_tnn_entry t || z;
  co_size : sample_size t' = sample_size t ∧ sample_seed t' = sample_seed t;
  co_visited : visited t' = visited t;
  co_blocks : ts_blocks t' = ts_blocks t;
  co_findings : findings t' = findings t;
  co_count : structural_finding_count t' = structural_finding_count t;
  co_edges : edge_count t' = edge_count t
}.
Lemma collected_refl t : collected [] false t t.
Proof. split; rewrite ?len_nil, ?orb_false_r; try done. lia. Qed.
Lemma collected_trans c1 c2 z1 z2 t t1 t2 :
  collected c1 z1 t t1 → collected c2 z2 t1 t2 → collected (c1 ++ c2) (z1 || z2) t t2.
Proof.
  intros [A1 A2 A3 [A4 A5] A6 A7 A8 A9 A10] [B1 B2 B3 [B4 B5] B6 B7 B8 B9 B10]. rewrite A4 in B2. split; try congruence.
  - rewrite B1, A1, len_app. lia.
  - by rewrite B2, A2, push_all_app.
  - by rewrite B3, A3, orb_assoc.
  - split; congruence.
Qed.

Lemma check_edge_spec v t t' :
  t' = check_edge (v_id v) (v_metrics v) (v_parent v) t →
  findings t' = findings t ++ edge_findings v
  ∧ structural_finding_count t' = structural_finding_count t + len (edge_findings v)
  ∧ ts_blocks t' = ts_blocks t ∧ visited t' = visited t ∧ edge_count t' = edge_count t
  ∧ corpus_size t' = corpus_size t ∧ sample_candidates t' = sample_candidates t
  ∧ has_zero_magnitude_tnn_entry t' = has_zero_magnitude_tnn_entry t
  ∧ sample_size t' = sample_size t ∧ sample_seed t' = sample_seed t.
Proof.
  intros ->. unfold check_edge, edge_findings. destruct (v_parent v) as [[p pm]|]; cbn [app].
  2:{ rewrite app_nil_r, len_nil. split_and!; (done || lia). }
  destruct (bm_level pm <=? bm_level (v_metrics v)), (bool_decide _); cbn [push_finding findings structural_finding_count
    ts_blocks visited edge_count corpus_size sample_candidates has_zero_magnitude_tnn_entry sample_size sample_seed app];
    rewrite ?app_nil_r, <-?app_assoc; split_and!; try done; unfold len; cbn; lia.
Qed.

Lemma stored_block id v : get id store = Ok (Some v) → stored_children id = block_children (vb_block v).
Proof. unfold stored_children. by intros ->. Qed.

Lemma explored_enter id b m parent depth anc t t1 t' new fs lost :
  get id store = Ok (Some b) → id ∉ visited t → (∀ a, a ∈ anc → a ∈ visited t) →
  block_metrics (E := BlockStoreError S) id (vb_block b) (fst <$> parent) depth = Ok m →
  collected (candidates_of (sample_seed t) id) (zero_of id)
    (record_metrics id m (check_edge id m parent (enter_block id depth t))) t1 →
  explored (len (stored_children id)) (stored_children id) (Some (id, m)) (id :: anc) t1 t' new fs lost →
  explored 0 [id] parent anc t t' ({| v_id := id; v_metrics := m; v_parent := parent |} :: new)
    (edge_findings {| v_id := id; v_metrics := m; v_parent := parent |} ++ fs) lost.
Proof.
  intros Hb Hid Hanc Hm [A1 A2 A3 [A4 A5] A6 A7 A8 A9 A10]
    [Vv Vn Vf Vb Vg Vp Vre Vfi Vc Ve Vk Vl Vr Vt Vcs Vs Vz [Vss Vsd]].
  set (v := {| v_id := id; v_metrics := m; v_parent := parent |}).
  destruct (check_edge_spec v (enter_block id depth t) _ eq_refl) as (C1&C2&C3&C4&C5&C6&C7&C8&C9&C10).
  cbn [v v_id v_metrics v_parent] in C1, C2, C3, C4, C5, C6, C7, C8, C9, C10.
  cbn [record_metrics corpus_size sample_candidates has_zero_magnitude_tnn_entry sample_size sample_seed visited
    ts_blocks findings structural_finding_count edge_count] in A1, A2, A3, A4, A5, A6, A7, A8, A9, A10.
  rewrite C6 in A1. rewrite C7, C9 in A2. rewrite C8 in A3. rewrite C9 in A4. rewrite C10 in A5. rewrite C4 in A6.
  rewrite C3 in A7. rewrite C1 in A8. rewrite C2 in A9. rewrite C5 in A10.
  cbn [enter_block corpus_size sample_candidates has_zero_magnitude_tnn_entry sample_size sample_seed visited
    ts_blocks findings structural_finding_count edge_count] in A1, A2, A3, A4, A5, A6, A7, A8, A9, A10.
  rewrite A5 in Vcs. rewrite A4, A5 in Vs.
  assert (Forall (λ f, ¬ is_reference f) (edge_findings v)) as Hnot.
  { unfold edge_findings, v. cbn [v_parent]. destruct parent as [[p pm]|]; [|done]. apply Forall_app. split; case_match; rewrite ?Forall_singleton; try apply Forall_nil_2; by intros []. }
  assert (∀ u, u ∈ new → v_id u ≠ id) as Hne.
  { intros u Hu. pose proof (Vf u Hu) as Hn. rewrite A6 in Hn. set_solver. }
  split.
  - rewrite Vv, A6. cbn. set_solver.
  - cbn. apply NoDup_cons. split; [|done]. intros (u&Hu&Hin)%list_elem_of_fmap. by apply (Hne u Hin).
  - intros u [->|Hu]%elem_of_cons; [done|]. pose proof (Vf u Hu) as Hn. rewrite A6 in Hn. set_solver.
  - by rewrite Vb, A7, <-app_assoc.
  - constructor; [|done]. exists b, depth. done.
  - intros u [->|Hu]%elem_of_cons; [left; set_solver|]. right. destruct (Vp u Hu) as [[Hpu Hin]|(w&Hw&?&?)].
    + exists v. split; [by left|]. split; [done|]. exact Hin.
    + exists w. split; [by right|]. done.
  - intros u [->|Hu]%elem_of_cons; exists id; (split; [by left|]); [done|].
    destruct (Vre u Hu) as (c&Hc&Hr). by eapply rtc_l.
  - by rewrite Vfi, A8, <-app_assoc.
  - rewrite Vc, A9, len_app. lia.
  - rewrite Ve, A10. cbn. rewrite len_app. lia.
  - rewrite filter_app, Vk. cbn. f_equal. by apply filter_keep.
  - rewrite filter_app, (filter_drop _ (edge_findings v)) by done.
    eapply Forall2_impl; [exact Vl|]. intros f h. apply lost_because_mono; [done|]. intros a Ha. by right.
  - cbn. rewrite Vr. done.
  - intros [_ HF]%Forall_app. destruct (Vt HF) as (post&Hpost&Htopo). exists (post ++ [id]).
    split; [cbn; rewrite Hpost; solve_Permutation|].
    assert (visited t1 ∖ list_to_set (id :: anc) = visited t ∖ list_to_set anc) as HD by (rewrite A6; set_solver).
    rewrite HD in Htopo. apply topological_app; [done|]. split; [|done].
    intros c [Hc Hpc].
    assert (c ∈ ids new ++ lost) as [Hin|Hin]%elem_of_app.
    { rewrite <-Vr. apply elem_of_app. by left. }
    { apply elem_of_union_r, elem_of_list_to_set. by rewrite Hpost. }
    apply list_elem_of_lookup_1 in Hin as [i Hi]. destruct (Forall2_lookup_r _ _ _ _ _ Vl Hi) as (f&Hf&_&Hk).
    apply list_elem_of_lookup_2, list_elem_of_filter in Hf as [_ Hf].
    rewrite Forall_forall in HF. specialize (HF f Hf). destruct (finding_kind f); try done.
    { destruct Hpc as [? Hpc]. congruence. }
    destruct Hk as [Hvis Hna]. rewrite Vv in Hvis.
    assert (c ∈ visited t1 ∖ list_to_set (id :: anc) ∨ c ∈ ids new) as [Hv'|Hv'] by set_solver.
    { rewrite HD in Hv'. set_solver. }
    apply elem_of_union_r, elem_of_list_to_set. by rewrite Hpost.
  - rewrite Vcs, A1. cbn. rewrite len_app. lia.
  - rewrite Vs, A2, fmap_cons, bind_cons. by rewrite push_all_app.
  - rewrite Vz, A3. cbn. by rewrite orb_assoc.
  - by rewrite Vss, Vsd, A4, A5.
Qed.

(** ** How a walk ends

    It stops early for an interrupt, a failed read, or the error of a block that
    one of the references reaches. *)
Inductive stops (n : option nat) (l : list block_hash) : error → Prop :=
| stop_interrupt : n ≠ None → stops n l QualityInterrupted
| stop_read c h e : c ∈ l → rtc edge c h → get h store = Err e → stops n l (QualityBlockStore e)
| stop_block c h b parent depth e : c ∈ l → rtc edge c h → get h store = Ok (Some b) →
    block_metrics h (vb_block b) parent depth = Err e → stops n l e
| stop_entry c h b leaf entry e : c ∈ l → rtc edge c h → get h store = Ok (Some b) → vb_block b = BLeaf leaf →
    entry ∈ lb_entries leaf → corpus_entry_from_leaf_result h entry (lb_spec leaf) = Err e →
    (∀ i, e ≠ ZeroMagnitudeEmbedding i) → stops n l e.

Lemma stops_mono n n' l l' e : (n' = None → n = None) → (∀ c, c ∈ l → ∃ c', c' ∈ l' ∧ rtc edge c' c) →
  stops n l e → stops n' l' e.
Proof.
  intros Hn Hl [?|c h x Hc Hr|c h b pa de x Hc Hr|c h b leaf en x Hc Hr]; try (destruct (Hl c Hc) as (c'&Hc'&Hr')).
  - constructor 1. auto.
  - eapply stop_read; [exact Hc'|by etrans|done].
  - eapply stop_block; [exact Hc'|by etrans|done..].
  - eapply stop_entry; [exact Hc'|by etrans|done..].
Qed.

Definition outcome (k : Z) (l : list block_hash) (parent : option (block_hash * BlockQualityMetrics)) (w : tree_walk)
    (r : tree_walk * result error unit) : Prop :=
  match r with
  | (w', Ok _) => ancestry w' = ancestry w ∧ (polls w = None → polls w' = None)
      ∧ ∃ new fs lost, explored k l parent (ancestry w) (tree w) (tree w') new fs lost
  | (_, Err e) => stops (polls w) l e
  end.

Lemma outcome_seq k1 k2 l1 l2 parent w (m1 m2 : stm tree_walk error unit) :
  (∀ a, a ∈ ancestry w → a ∈ visited (tree w)) → outcome k1 l1 parent w (m1 w) →
  (∀ w', ancestry w' = ancestry w → visited (tree w) ⊆ visited (tree w') → outcome k2 l2 parent w' (m2 w')) →
  outcome (k1 + k2) (l1 ++ l2) parent w ((m1 ;; m2) w).
Proof.
  intros Hanc H1o H2o. unfold outcome, mbind, stm_bind in *. destruct (m1 w) as [w1 [[]|e]].
  2:{ eapply stops_mono; [|..|exact H1o]; [done|]. intros c Hc. exists c. split; [set_solver|done]. }
  destruct H1o as (Ha&Hp&new&fs&lost&Hex). specialize (H2o w1 Ha).
  pose proof (ex_visited _ _ _ _ _ _ _ _ _ Hex) as Hv.
  destruct (m2 w1) as [w2 [[]|e]].
  - destruct H2o as (Ha2&Hp2&new2&fs2&lost2&Hex2); [set_solver|]. split_and!; [congruence|auto|].
    rewrite Ha in Hex2. do 3 eexists. by eapply explored_trans.
  - eapply stops_mono; [|..|apply H2o; set_solver]; [done|]. intros c Hc. exists c. split; [set_solver|done].
Qed.

Lemma outcome_check k l parent w (m : stm tree_walk error unit) :
  (∀ w1, tree w1 = tree w → ancestry w1 = ancestry w → (polls w = None → polls w1 = None) → outcome k l parent w1 (m w1)) →
  outcome k l parent w ((check_interrupt (S := S) ;; m) w).
Proof.
  intros Hm. unfold mbind, stm_bind, check_interrupt.
  assert (∀ w1, tree w1 = tree w → ancestry w1 = ancestry w → (polls w = None → polls w1 = None) → outcome k l parent w (m w1)) as Hgo.
  { intros w1 Ht Ha Hp. specialize (Hm w1 Ht Ha Hp). unfold outcome in *. rewrite Ht, Ha in Hm. destruct (m w1) as [w2 [[]|e]].
    - destruct Hm as (?&?&?). auto.
    - eapply stops_mono; [exact Hp| |exact Hm]. intros c Hc. by exists c. }
  destruct (polls w) as [[|n]|] eqn:Hn; cbn [fmap option_fmap option_map].
  - unfold outcome. constructor 1. by rewrite Hn.
  - by apply Hgo.
  - by apply Hgo.
Qed.

(** A reported reference. *)
Lemma explored_lost child parent anc t f :
  is_reference f → lost_because (visited t) anc f child →
  explored 0 [child] parent anc t (push_finding f t) [] [f] [child].
Proof.
  intros Hr Hl. pose proof (explored_refl parent anc t) as [Vv Vn Vf Vb Vg Vp Vre Vfi Vc Ve Vk Vl Vr Vt Vcs Vs Vz Vss].
  split; try done.
  - by intros ? ?%not_elem_of_nil.
  - by intros ? ?%not_elem_of_nil.
  - rewrite filter_cons_False by tauto. done.
  - rewrite filter_cons_True by done. apply Forall2_cons_2; [exact Hl|constructor].
  - intros _. by exists [].
Qed.

(** ** The leaf entries *)
Lemma collect_outcome id b leaf spec l w :
  get id store = Ok (Some b) → vb_block b = BLeaf leaf → spec = lb_spec leaf → (∀ entry, entry ∈ l → entry ∈ lb_entries leaf) →
  match stm_iter (collect_corpus_entry (S := S) id spec) l w with
  | (w', Ok _) => ancestry w' = ancestry w ∧ polls w' = polls w
      ∧ collected (omap (entry_candidate (sample_seed (tree w)) id spec) l) (existsb (entry_zero id spec) l) (tree w) (tree w')
  | (_, Err e) => ∀ n, stops n [id] e
  end.
Proof.
  intros Hb Hleaf ->. revert w. induction l as [|entry l IH]; intros w Hin; cbn [stm_iter].
  { split_and!; [done..|]. apply collected_refl. }
  unfold mbind, stm_bind. unfold collect_corpus_entry at 1.
  assert (∀ e, corpus_entry_from_leaf_result id entry (lb_spec leaf) = Err e → (∀ i, e ≠ ZeroMagnitudeEmbedding i) →
    ∀ n, stops n [id] e) as Hstop.
  { intros e He Hne n. eapply stop_entry; [by left|done|done|done| |exact He|done]. apply Hin. by left. }
  cbn [omap list_omap existsb]. unfold entry_candidate at 1, entry_zero at 1.
  assert (∀ z t1 c, collected (option_list c) z (tree w) t1 →
    match stm_iter (collect_corpus_entry (S := S) id (lb_spec leaf)) l (on_tree (λ _, t1) w) with
    | (w', Ok _) => ancestry w' = ancestry w ∧ polls w' = polls w
        ∧ collected (option_list c ++ omap (entry_candidate (sample_seed (tree w)) id (lb_spec leaf)) l)
            (z || existsb (entry_zero id (lb_spec leaf)) l) (tree w) (tree w')
    | (_, Err e) => ∀ n, stops n [id] e
    end) as Hgo.
  { intros z t1 c Hc. specialize (IH (on_tree (λ _, t1) w)). cbn [on_tree ancestry polls tree] in IH.
    destruct (stm_iter _ l _) as [w2 [[]|e]].
    - destruct IH as (?&?&Hco); [intros; apply Hin; by right|]. split_and!; [done..|].
      destruct (co_size _ _ _ _ Hc) as [_ Hseed]. rewrite Hseed in Hco. by eapply collected_trans.
    - apply IH. intros; apply Hin; by right. }
  destruct (corpus_entry_from_leaf_result id entry (lb_spec leaf)) as [e|[]] eqn:Hce; try (by eapply Hstop).
  - cbn. refine (Hgo false _ (Some _) _). split; cbn; rewrite ?orb_false_r; done.
  - cbn. refine (Hgo true _ None _). split; cbn; rewrite ?orb_true_r; try done. rewrite len_nil. lia.
Qed.

(** ** The induction

    [U] holds the ids of the stored blocks: a store is finite. *)
Context (U : gset block_hash) (U_present : ∀ h b, get h store = Ok (Some b) → h ∈ U).

Definition unvisited (w : tree_walk) : nat := size (U ∖ visited (tree w)).
Definition in_chain (l : list block_hash) (w : tree_walk) : Prop :=
  (∀ a, a ∈ ancestry w → a ∈ visited (tree w)) ∧ ∀ a c, a ∈ ancestry w → c ∈ l → tc edge a c.

Definition traverses (fuel : nat) (traverse : traverser (S := S)) : Prop :=
  ∀ id b parent depth w, get id store = Ok (Some b) → id ∉ visited (tree w) → in_chain [id] w →
    (unvisited w < fuel)%nat → outcome 0 [id] parent w (traverse id (vb_block b) parent depth w).

Lemma handle_outcome fuel traverse parent_id pm entry depth w :
  traverses fuel traverse → in_chain [be_child entry] w → (unvisited w < fuel)%nat →
  outcome 0 [be_child entry] (Some (parent_id, pm)) w (handle_child_entry store traverse parent_id pm entry depth w).
Proof.
  intros Htr [Hanc Hchain] Hf. apply outcome_check. intros w1 Ht Ha Hp.
  unfold mbind, stm_bind, gets.
  case_bool_decide as Hin.
  { split_and!; [done..|]. do 3 eexists. apply explored_lost; [done|]. split; [done|]. cbn [finding_kind cycle_finding finding_of].
    rewrite Ha in Hin. assert (be_child entry ∈ visited (tree w1)) as Hv by (rewrite Ht; by apply Hanc).
    split; [exact Hv|]. apply Hchain; [done|by left]. }
  case_bool_decide as Hseen.
  { split_and!; [done..|]. do 3 eexists. apply explored_lost; [done|]. split; [done|]. done. }
  unfold lift. destruct (get (be_child entry) store) as [[b|]|e] eqn:Hget; cbn [map_err].
  - cbn [modify]. set (w2 := on_tree (record_child parent_id (vb_hash b)) w1).
    pose proof (get_hash _ _ _ Hget) as Hh. rewrite Hh.
    specialize (Htr (be_child entry) b (Some (parent_id, pm)) depth w2 Hget).
    assert (outcome 0 [be_child entry] (Some (parent_id, pm)) w2
      (traverse (be_child entry) (vb_block b) (Some (parent_id, pm)) depth w2)) as Ho.
    { apply Htr; [done| |].
      - split; unfold w2; cbn [on_tree ancestry tree visited record_child]; rewrite Ha, ?Ht; done.
      - unfold unvisited, w2 in *. cbn [on_tree tree visited record_child]. by rewrite Ht. }
    unfold outcome, modify in *. fold w2. destruct (traverse _ _ _ _ w2) as [w3 [[]|e]]; [|done].
    destruct Ho as (?&?&new&fs&lost&Hex). split_and!; [done..|]. exists new, fs, lost. by destruct Hex.
  - split_and!; [done..|]. do 3 eexists. apply explored_lost; [done|]. split; [done|]. done.
  - eapply stop_read; [by left|done|done].
Qed.

Lemma counted_outcome l parent w (m : stm tree_walk error unit) :
  outcome 0 l parent (on_tree count_edge w) (m (on_tree count_edge w)) →
  outcome 1 l parent w ((modify (on_tree count_edge) ;; m) w).
Proof.
  unfold outcome, mbind, stm_bind, modify. destruct (m _) as [w' [[]|e]]; [|done].
  intros (?&?&new&fs&lost&Hex). split_and!; [done..|]. exists new, fs, lost.
  destruct Hex as [Vv Vn Vf Vb Vg Vp Vre Vfi Vc Ve Vk Vl Vr Vt Vcs Vs Vz Vss]. split; try done. rewrite Ve. cbn. lia.
Qed.

Lemma unvisited_mono w w' : visited (tree w) ⊆ visited (tree w') → (unvisited w' ≤ unvisited w)%nat.
Proof. intros Hv. unfold unvisited. apply subseteq_size. set_solver. Qed.

Lemma children_outcome fuel traverse parent_id pm depth entries w :
  traverses fuel traverse → in_chain (be_child <$> entries) w → (unvisited w < fuel)%nat →
  outcome (len entries) (be_child <$> entries) (Some (parent_id, pm)) w
    (stm_iter (λ entry, check_interrupt ;; modify (on_tree count_edge) ;;
       handle_child_entry store traverse parent_id pm entry depth) entries w).
Proof.
  intros Htr. revert w. induction entries as [|entry entries IH]; intros w [Hanc Hchain] Hf; cbn [stm_iter fmap list_fmap].
  { split_and!; [done..|]. do 3 eexists. apply explored_refl. }
  rewrite len_cons. apply (outcome_seq 1 _ [_]); [done| |].
  - apply outcome_check. intros w1 Ht Ha Hp. apply counted_outcome.
    apply (handle_outcome fuel); [done| |].
    + split; cbn [on_tree ancestry tree visited count_edge]; rewrite Ha, ?Ht; [done|].
      intros a c Hin ->%list_elem_of_singleton. apply Hchain; [done|by left].
    + unfold unvisited in *. cbn [on_tree tree visited count_edge]. by rewrite Ht.
  - intros w' Ha Hv. apply IH.
    + split; rewrite Ha; [set_solver|]. intros a c Hin Hc. apply Hchain; [done|by right].
    + pose proof (unvisited_mono _ _ Hv). lia.
Qed.

(** The block itself, its entry and its end. *)
Definition on_block (fuel : nat) (id : block_hash) (b : Block) (m : BlockQualityMetrics) (depth : Z) : stm tree_walk error unit :=
  match b with
  | BBranch branch =>
      stm_iter (λ entry, check_interrupt ;; modify (on_tree count_edge) ;;
        handle_child_entry store (traverse_block store fuel) id m entry (depth + 1)) (bb_entries branch)
  | BLeaf leaf => collect_corpus_entries id leaf
  end.

Lemma stops_children id n e : stops n (stored_children id) e → stops n [id] e.
Proof. apply stops_mono; [done|]. intros c Hc. exists id. split; [by left|]. by apply rtc_once. Qed.

Lemma on_block_outcome fuel id b m depth parent w w1 :
  traverses fuel (traverse_block store fuel) → get id store = Ok (Some b) →
  id ∉ visited (tree w) → in_chain [id] w → (unvisited w < Datatypes.S fuel)%nat →
  block_metrics (E := BlockStoreError S) id (vb_block b) (fst <$> parent) depth = Ok m →
  tree w1 = record_metrics id m (check_edge id m parent (enter_block id depth (tree w))) →
  ancestry w1 = id :: ancestry w → (polls w = None → polls w1 = None) →
  outcome 0 [id] parent w ((on_block fuel id (vb_block b) m depth ;; modify (on_ancestry tail)) w1).
Proof.
  intros Htr Hb Hid [Hanc Hchain] Hf Hm Ht Ha Hp.
  pose proof (check_edge_spec {| v_id := id; v_metrics := m; v_parent := parent |} (enter_block id depth (tree w)) _ eq_refl)
    as (_&_&_&Hv&_&_&_&_&_&Hseed). cbn [v_id v_metrics v_parent] in Hv, Hseed. cbn [enter_block visited sample_seed] in Hv, Hseed.
  pose proof (stored_block _ _ Hb) as Hch.
  assert (visited (tree w1) = {[id]} ∪ visited (tree w)) as Hv1 by (by rewrite Ht; cbn [record_metrics visited]).
  assert (sample_seed (tree w1) = sample_seed (tree w)) as Hs1 by (by rewrite Ht; cbn [record_metrics sample_seed]).
  assert (candidates_of (sample_seed (tree w)) id = block_candidates (sample_seed (tree w)) id (vb_block b)
    ∧ zero_of id = block_zero id (vb_block b)) as [Hc0 Hz0].
  { unfold candidates_of, zero_of. by rewrite Hb. }
  unfold on_block. destruct (vb_block b) as [branch|leaf] eqn:Hblk; cbn [block_children block_candidates block_zero] in Hch, Hc0, Hz0.
  - pose proof (children_outcome fuel (traverse_block store fuel) id m (depth + 1) (bb_entries branch) w1 Htr) as Ho.
    unfold outcome, mbind, stm_bind, modify in *. rewrite <-Hch in Ho.
    destruct (stm_iter _ (bb_entries branch) w1) as [w2 [[]|e]].
    + destruct Ho as (Ha2&Hp2&new&fs&lost&Hex).
      { split; rewrite Ha; [set_solver|]. intros a c [->|Hin]%elem_of_cons Hc; [by apply tc_once|].
        eapply tc_r; [apply Hchain; [done|by left]|done]. }
      { unfold unvisited in *. rewrite Hv1. assert (id ∈ U) by (by eapply U_present).
        assert (size (U ∖ ({[id]} ∪ visited (tree w))) < size (U ∖ visited (tree w)))%nat; [|lia].
        apply subset_size. set_solver. }
      split_and!; [cbn [on_ancestry ancestry]; by rewrite Ha2, Ha|auto|]. do 3 eexists.
      cbn [on_ancestry tree]. rewrite Ha in Hex.
      eapply (explored_enter id b m parent depth); try done; [by rewrite Hblk|rewrite Hc0, Hz0, <-Ht; apply collected_refl|].
      assert (len (stored_children id) = len (bb_entries branch)) as ->; [|done].
      unfold len. rewrite Hch. by rewrite length_fmap.
    + eapply stops_children. eapply stops_mono; [exact Hp| |apply Ho].
      * intros c Hc. by exists c.
      * split; rewrite Ha; [set_solver|]. intros a c [->|Hin]%elem_of_cons Hc; [by apply tc_once|].
        eapply tc_r; [apply Hchain; [done|by left]|done].
      * unfold unvisited in *. rewrite Hv1. assert (id ∈ U) by (by eapply U_present).
        assert (size (U ∖ ({[id]} ∪ visited (tree w))) < size (U ∖ visited (tree w)))%nat; [|lia].
        apply subset_size. set_solver.
  - pose proof (collect_outcome id b leaf (lb_spec leaf) (lb_entries leaf) w1 Hb Hblk eq_refl (λ _ h, h)) as Ho.
    unfold outcome, mbind, stm_bind, modify, collect_corpus_entries in *.
    destruct (stm_iter _ (lb_entries leaf) w1) as [w2 [[]|e]]; [|apply Ho].
    destruct Ho as (Ha2&Hp2&Hco). split_and!; [cbn [on_ancestry ancestry]; by rewrite Ha2, Ha|cbn; rewrite Hp2; auto|].
    exists [{| v_id := id; v_metrics := m; v_parent := parent |}].
    exists (edge_findings {| v_id := id; v_metrics := m; v_parent := parent |} ++ []), [].
    cbn [on_ancestry tree]. eapply (explored_enter id b m parent depth); try done; [by rewrite Hblk|..].
    + rewrite Hc0, Hz0, <-Ht. rewrite Hs1 in Hco. exact Hco.
    + rewrite Hch, len_nil. apply explored_refl.
Qed.

Lemma traverse_outcome fuel : traverses fuel (traverse_block store fuel).
Proof.
  induction fuel as [|fuel IH]; intros id b parent depth w Hb Hid Hin Hf; [lia|].
  cbn [traverse_block]. apply outcome_check. intros w1 Ht Ha Hp.
  unfold mbind at 1, stm_bind at 1, gets. rewrite bool_decide_eq_false_2 by (by rewrite Ht).
  unfold mbind at 1, stm_bind at 1, modify at 1. unfold mbind at 1, stm_bind at 1, modify at 1.
  unfold mbind at 1, stm_bind at 1, lift at 1.
  destruct (block_metrics id (vb_block b) (fst <$> parent) depth) as [m|e] eqn:Hm.
  2:{ eapply stop_block; [by left|done|exact Hb|exact Hm]. }
  unfold mbind at 1, stm_bind at 1, modify at 1. unfold mbind at 1, stm_bind at 1, modify at 1.
  apply (on_block_outcome fuel id b m depth parent); try done.
  - by rewrite Ht.
  - unfold in_chain. by rewrite Ha, Ht.
  - unfold unvisited in *. by rewrite Ht.
Qed.

(** ** The whole walk *)
Context (root : block_hash) (b : ValidatedBlock) (root_get : get root store = Ok (Some b)).
Definition start_walk (size seed : Z) (n : option nat) : tree_walk :=
  {| tree := start_traversal size seed; ancestry := []; polls := n |}.
Definition walk (fuel : nat) (size seed : Z) (n : option nat) : tree_walk * result error unit :=
  traverse_block store fuel root (vb_block b) None 0 (start_walk size seed n).
Definition reached (h : block_hash) : Prop := rtc edge root h ∧ present h.

Lemma walk_outcome fuel size_ seed n : (size U < fuel)%nat →
  outcome 0 [root] None (start_walk size_ seed n) (walk fuel size_ seed n).
Proof using All.
  intros Hf. apply traverse_outcome; [exact root_get|apply not_elem_of_empty| |].
  - split; intros a; [|intros c]; by intros ?%not_elem_of_nil.
  - unfold unvisited. cbn [tree start_walk visited start_traversal]. by rewrite difference_empty_L.
Qed.

Lemma walk_explored fuel size_ seed n w : (size U < fuel)%nat → walk fuel size_ seed n = (w, Ok ()) →
  ∃ new fs lost, explored 0 [root] None [] (start_traversal size_ seed) (tree w) new fs lost.
Proof using All.
  intros Hf Hw. pose proof (walk_outcome fuel size_ seed n Hf) as Ho. rewrite Hw in Ho. by destruct Ho as (_&_&?).
Qed.

Lemma explored_reached size_ seed t new fs lost :
  explored 0 [root] None [] (start_traversal size_ seed) t new fs lost → ∀ h, h ∈ ids new ↔ reached h.
Proof using All.
  intros [Vv Vn Vf Vb Vg Vp Vre Vfi Vc Ve Vk Vl Vr Vt Vcs Vs Vz Vss] h.
  assert (∀ c, c ∈ root :: (ids new ≫= stored_children) → present c → c ∈ ids new) as Hin.
  { intros c Hc [x Hx]. change (c ∈ [root] ++ (ids new ≫= stored_children)) in Hc. rewrite Vr in Hc.
    apply elem_of_app in Hc as [?|Hlost]; [done|]. apply list_elem_of_lookup_1 in Hlost as [i Hi].
    destruct (Forall2_lookup_r _ _ _ _ _ Vl Hi) as (f&_&_&Hk). rewrite Vv in Hk.
    assert (c ∈ (∅ : gset block_hash) ∪ list_to_set (ids new) → c ∈ ids new) as Hset by set_solver.
    destruct (finding_kind f); try done; [congruence|apply Hset, Hk|apply Hset, Hk]. }
  split.
  - intros (v&->&Hv)%list_elem_of_fmap. rewrite Forall_forall in Vg. destruct (Vg v Hv) as (x&?&Hx&_).
    destruct (Vre v Hv) as (c&->%list_elem_of_singleton&Hr). split; [done|by exists x].
  - intros [Hr Hp]. revert h Hr Hp. apply (rtc_ind_r (λ h, present h → h ∈ ids new) root).
    { intros _. apply Hin; [by left|by exists b]. }
    intros x y Hxr Hxy IH Hp.
    apply Hin; [|done]. right. apply list_elem_of_bind. exists x. split; [done|].
    apply IH. unfold edge, stored_children in Hxy. destruct (get x store) as [[v|]|] eqn:Hx; [by exists v|..];
      by apply not_elem_of_nil in Hxy.
Qed.

(** Any enumeration of the reached blocks. *)
Definition enumerates (order : list block_hash) : Prop := NoDup order ∧ ∀ h, h ∈ order ↔ reached h.
Lemma enumerates_perm order size_ seed t new fs lost : enumerates order →
  explored 0 [root] None [] (start_traversal size_ seed) t new fs lost → ids new ≡ₚ order.
Proof using All.
  intros [Hnd Hall] Hex. pose proof (explored_reached _ _ _ _ _ _ Hex) as Hr.
  apply NoDup_Permutation; [by destruct Hex|done|]. intros h. by rewrite Hr, Hall.
Qed.

Lemma tc_stored h c : tc edge h c → present c → tc stored_edge h c.
Proof.
  assert (∀ x y, edge x y → present x) as Hpres.
  { intros x y Hxy. unfold edge, stored_children in Hxy. destruct (get x store) as [[v|]|] eqn:Hx; [by exists v|..];
      by apply not_elem_of_nil in Hxy. }
  induction 1 as [x y Hxy|x y z Hxy Hyz IH]; intros Hp.
  - by apply tc_once.
  - eapply tc_l; [|by apply IH]. split; [done|]. inversion Hyz; eauto.
Qed.

(** C14. The walk ends for every snapshot, a cyclic one too: it fails only for an
    interrupt, a failed read or the error of a reached block. When it succeeds
    it has visited exactly the stored blocks that the root reaches, each of them
    once; the blocks' metrics are in the order of the visits, every reference is
    counted, and it either led to a new block or has a finding that says why it
    did not, and the other findings are those of the edges that it followed. *)
Theorem traversal_exact fuel size_ seed n : (size U < fuel)%nat →
  match walk fuel size_ seed n with
  | (w, Ok _) => ∃ new lost,
      NoDup (ids new) ∧ (∀ h, h ∈ ids new ↔ reached h) ∧ Forall genuine new
      ∧ (∀ v, v ∈ new → (v_parent v = None ∧ v_id v = root)
          ∨ ∃ u, u ∈ new ∧ v_parent v = Some (v_id u, v_metrics u) ∧ edge (v_id u) (v_id v))
      ∧ ts_blocks (tree w) = v_metrics <$> new
      ∧ edge_count (tree w) = len (ids new ≫= stored_children)
      ∧ root :: (ids new ≫= stored_children) ≡ₚ ids new ++ lost
      ∧ Forall2 (lost_because (list_to_set (ids new)) []) (filter is_reference (findings (tree w))) lost
      ∧ filter (λ f, ¬ is_reference f) (findings (tree w)) = new ≫= edge_findings
      ∧ structural_finding_count (tree w) = len (findings (tree w))
  | (_, Err e) => stops n [root] e
  end.
Proof using All.
  intros Hf. pose proof (walk_outcome fuel size_ seed n Hf) as Ho. unfold outcome in Ho.
  destruct (walk fuel size_ seed n) as [w [[]|e]]; [|exact Ho]. destruct Ho as (_&_&new&fs&lost&Hex).
  exists new, lost. pose proof (explored_reached _ _ _ _ _ _ Hex) as Hr.
  destruct Hex as [Vv Vn Vf Vb Vg Vp Vre Vfi Vc Ve Vk Vl Vr Vt Vcs Vs Vz Vss]. cbn in Vfi, Vc. rewrite Vfi.
  split_and!; try done.
  - intros v Hv. destruct (Vp v Hv) as [[? ?%list_elem_of_singleton]|?]; auto.
  - rewrite Vv in Vl. eapply Forall2_impl; [exact Vl|]. intros f h. apply lost_because_mono; [|done]. cbn. set_solver.
Qed.

(** A snapshot whose walk reports no missing, shared or cyclic reference is a
    tree, and only such a one: the root and the references of the reached blocks
    are pairwise distinct and all stored. *)
Lemma tree_iff_no_reference_finding fuel size_ seed n w order : (size U < fuel)%nat →
  walk fuel size_ seed n = (w, Ok ()) → enumerates order →
  filter is_reference (findings (tree w)) = [] ↔
  NoDup (root :: (order ≫= stored_children)) ∧ Forall present (root :: (order ≫= stored_children)).
Proof using All.
  intros Hf Hw Horder. destruct (walk_explored _ _ _ _ _ Hf Hw) as (new&fs&lost&Hex).
  pose proof (enumerates_perm _ _ _ _ _ _ _ Horder Hex) as Hp.
  destruct Hex as [Vv Vn Vf Vb Vg Vp Vre Vfi Vc Ve Vk Vl Vr Vt Vcs Vs Vz Vss]. cbn in Vfi. rewrite Vfi.
  assert (root :: (order ≫= stored_children) ≡ₚ ids new ++ lost) as Hrefs by (rewrite <-Hp; exact Vr).
  rewrite Hrefs. split.
  - intros Hnil. rewrite Hnil in Vl. inversion Vl; subst. rewrite app_nil_r. split; [done|].
    apply Forall_forall. intros h Hh. rewrite Hp in Hh. by apply (proj2 Horder) in Hh as [_ ?].
  - intros [(_&Hd&_)%NoDup_app Hpres]. destruct (filter is_reference fs) as [|f l]; [done|]. exfalso.
    inversion Vl as [|? h ? ? [_ Hk] _]; subst. apply Forall_app in Hpres as [_ [[x Hx] _]%Forall_cons].
    rewrite Vv in Hk. assert (h ∈ (∅ : gset block_hash) ∪ list_to_set (ids new) → False) as Hno.
    { intros Hin. apply (Hd h); [set_solver|by left]. }
    destruct (finding_kind f); try done; [congruence|apply Hno, Hk|apply Hno, Hk].
Qed.

(** A cycle is reported exactly when a reached block reaches itself. *)
Lemma cycles_reported fuel size_ seed n w : (size U < fuel)%nat → walk fuel size_ seed n = (w, Ok ()) →
  (∃ f, f ∈ findings (tree w) ∧ finding_kind f = CycleDetected) ↔ (∃ h, rtc edge root h ∧ tc edge h h).
Proof using All.
  intros Hf Hw. destruct (walk_explored _ _ _ _ _ Hf Hw) as (new&fs&lost&Hex).
  pose proof (explored_reached _ _ _ _ _ _ Hex) as Hr.
  destruct Hex as [Vv Vn Vf Vb Vg Vp Vre Vfi Vc Ve Vk Vl Vr Vt Vcs Vs Vz Vss]. cbn in Vfi. rewrite Vfi. split.
  - intros (f&Hin&Hk). assert (f ∈ filter is_reference fs) as Hff.
    { apply list_elem_of_filter. split; [|done]. unfold is_reference. by rewrite Hk. }
    apply list_elem_of_lookup_1 in Hff as [i Hi]. destruct (Forall2_lookup_l _ _ _ _ _ Vl Hi) as (h&_&_&Hbecause).
    rewrite Hk in Hbecause. destruct Hbecause as [Hvis Htc]. exists h. split; [|done].
    apply Hr. rewrite Vv in Hvis. set_solver.
  - intros (h&Hrh&Htc). destruct (decide (Forall (λ f, finding_kind f ≠ CycleDetected) fs)) as [HF|HF].
    2:{ apply not_Forall_Exists, Exists_exists in HF as (f&Hin&Hk); [|apply _]. exists f. split; [done|]. by apply dec_stable. }
    exfalso. destruct (Vt HF) as (post&Hpost&Htopo).
    assert (present h) as Hp.
    { assert (∃ y, edge h y) as [y Hy] by (inversion Htc; eauto). unfold edge, stored_children in Hy.
      destruct (get h store) as [[v|]|] eqn:Hh; [by exists v|..]; by apply not_elem_of_nil in Hy. }
    eapply (topological_irreflexive stored_edge post h).
    + eapply topological_mono; [|exact Htopo]. cbn. set_solver.
    + by rewrite Hpost.
    + rewrite Hpost. by apply Hr.
    + by apply tc_stored.
Qed.

(** C26. The sample of the corpus does not depend on the order of the walk: in
    order, it has the keys of the [size] smallest corpus entries of all reached
    leaves, and every sampled entry is one of them; the corpus size counts them. *)
Theorem corpus_sample_smallest fuel size_ seed n w order : (size U < fuel)%nat →
  walk fuel (Z.of_nat size_) seed n = (w, Ok ()) → enumerates order →
  let corpus := order ≫= candidates_of seed in
  sample_order <$> sort_by sample_candidate_cmp (sample_candidates (tree w))
    = take size_ (sort_by sample_order_cmp (sample_order <$> corpus))
  ∧ (∀ c, c ∈ sample_candidates (tree w) → c ∈ corpus)
  ∧ corpus_size (tree w) = len corpus
  ∧ has_zero_magnitude_tnn_entry (tree w) = existsb zero_of order.
Proof using All.
  intros Hf Hw Horder corpus. destruct (walk_explored _ _ _ _ _ Hf Hw) as (new&fs&lost&Hex).
  pose proof (enumerates_perm _ _ _ _ _ _ _ Horder Hex) as Hp.
  destruct Hex as [Vv Vn Vf Vb Vg Vp Vre Vfi Vc Ve Vk Vl Vr Vt Vcs Vs Vz Vss].
  cbn [start_traversal sample_candidates sample_seed sample_size corpus_size has_zero_magnitude_tnn_entry orb] in Vcs, Vs, Vz.
  assert ((ids new ≫= candidates_of seed) ≡ₚ corpus) as Hc by (unfold corpus; by rewrite Hp).
  destruct (bounded_heap_smallest sample_order sample_candidate_cmp sample_order_cmp sample_cmp_order size_
    (ids new ≫= candidates_of seed)) as [Hkeys Hin].
  rewrite Vs. split_and!.
  - unfold push_all, push_bounded_sample. rewrite Hkeys. f_equal. apply (sort_ext sample_order_cmp). by rewrite Hc.
  - intros c Hc'. rewrite <-Hc. by apply Hin.
  - rewrite Vcs. unfold len. rewrite Hc. lia.
  - rewrite Vz. by apply existsb_perm.
Qed.
End traversal_spec.
