(* ===== verification/QualityReport.v ===== *)
(** * The quality report of a tree ([quality.rs])

    What the assessment computes from the walk of [QualityTree.v]: the layers and
    the splits, the recall of the approximate search against the exact
    neighbours of the sampled queries, the blocks that the queries touch, and the
    random walks that stand in for the sample when the whole tree is not walked.
    The theorems are in [QualityReportSpec.v]. *)

From Stdlib Require Import ZArith Lia.
From Stdlib.Floats Require Import SpecFloat.
From stdpp Require Import base gmap sets strings option list.
From S2P Require Import Prelude Hex Blocks Text Items SortKey Floats Runtime Embedding Ingest Replay Diagnostics Search Quality QualityTree.
#[local] Open Scope Z_scope.

Definition DEFAULT_TNN_RECALL_SAMPLE_SIZE : Z := 100.
Definition DEFAULT_TNN_RECALL_SEED : Z := 0.
Definition FAST_RANDOM_WALK_QUERY_SOURCE : string := "random-walk-sampled".
Definition REQUIRED_RECALL_AT : list Z := [1; 5; 10].
Definition MAX_EXACT_NEIGHBORS : Z := 10.
Definition EXACT_SCORING_BATCH_SIZE : nat := 1024.
Definition RTT_CWND_BYTES : Z := 65536.

(** A [HashMap] iterates in an order of its own. *)
Class HashIteration := hash_iter : ∀ {A}, gmap block_hash A → list (block_hash * A).
Class HashIterationLaws `{HashIteration} := hash_iter_perm : ∀ {A} (m : gmap block_hash A), hash_iter m ≡ₚ map_to_list m.

(** A [BTreeMap<u64, V>] (or [usize]) iterates in increasing order of its keys. *)
Definition ordered_pairs {V} (m : gmap Z V) : list (Z * V) := sort_by (λ a b, Z.compare a.1 b.1) (map_to_list m).
(** [map.entry(key).or_default()], changed. *)
Definition at_entry {K V} `{Countable K} (zero : V) (key : K) (f : V → V) (m : gmap K V) : gmap K V :=
  <[key := f (default zero (m !! key))]> m.

(** ** Layers *)
Record LayerQualityMetrics := {
  layer_level : Z;
  layer_block_count : Z;
  mean_intra_block_dispersion : float;
  stdev_intra_block_dispersion : float;
  mean_sibling_centroid_distance : float;
  stdev_sibling_centroid_distance : float;
  mean_pca_axis_strength : float;
  stdev_pca_axis_strength : float;
  mean_quantile_occupancy_variance : float;
  stdev_quantile_occupancy_variance : float;
  blocks_with_empty_bins : Z;
  blocks_with_overfull_bins : Z
}.

Section layers.
Context `{HashIteration}.

Definition by_layer (f : BlockQualityMetrics → float) (blocks : list BlockQualityMetrics) : gmap Z (list float) :=
  foldl (λ m b, at_entry [] (bm_level b) (λ l, l ++ [f b]) m) ∅ blocks.
Definition count_by_layer (f : BlockQualityMetrics → Z) (blocks : list BlockQualityMetrics) : gmap Z Z :=
  foldl (λ m b, if 0 <? f b then at_entry 0 (bm_level b) (Z.add 1) m else m) ∅ blocks.

(** The distances between the siblings of one level, left before right. *)
Fixpoint push_pairs (children : list BlockQualityMetrics) (stats : RunningStats) : RunningStats :=
  match children with
  | [] => stats
  | child :: rest =>
      push_pairs rest (foldl (λ s other, stats_push (euclidean_distance (centroid (spread child)) (centroid (spread other))) s)
                         stats rest)
  end.
Definition push_siblings (m : gmap Z RunningStats) (p : Z * list BlockQualityMetrics) : gmap Z RunningStats :=
  if (length p.2 <? 2)%nat then m else at_entry stats_default p.1 (push_pairs p.2) m.
Definition children_by_level (metrics : gmap block_hash BlockQualityMetrics) (child_ids : list block_hash)
    : gmap Z (list BlockQualityMetrics) :=
  foldl (λ m b, at_entry [] (bm_level b) (λ l, l ++ [b]) m) ∅ (omap (λ id, metrics !! id) child_ids).
Definition sibling_distances (t : TraversalState) : gmap Z RunningStats :=
  foldl (λ m p, foldl push_siblings m (ordered_pairs (children_by_level (metrics_by_id t) p.2))) ∅
    (hash_iter (child_ids_by_parent t)).

Definition build_layer_metrics (t : TraversalState) : list LayerQualityMetrics :=
  let dispersion_by_layer := by_layer (λ b, mean_centroid_distance (spread b)) (ts_blocks t) in
  let pca_by_layer := by_layer pca_first_component_variance_fraction (ts_blocks t) in
  let quantile_variance_by_layer := by_layer (λ b, occupancy_variance (quantile_occupancy b)) (ts_blocks t) in
  let empty_bins_by_layer := count_by_layer (λ b, empty_bin_count (quantile_occupancy b)) (ts_blocks t) in
  let overfull_bins_by_layer := count_by_layer (λ b, overfull_bin_count (quantile_occupancy b)) (ts_blocks t) in
  let siblings := sibling_distances t in
  (λ p,
    let stats := default stats_default (siblings !! p.1) in
    let pca := default [] (pca_by_layer !! p.1) in
    let quantile_variance := default [] (quantile_variance_by_layer !! p.1) in
    {| layer_level := p.1; layer_block_count := len p.2;
       mean_intra_block_dispersion := mean p.2; stdev_intra_block_dispersion := stdev p.2;
       mean_sibling_centroid_distance := stats_mean stats; stdev_sibling_centroid_distance := stats_stdev stats;
       mean_pca_axis_strength := mean pca; stdev_pca_axis_strength := stdev pca;
       mean_quantile_occupancy_variance := mean quantile_variance;
       stdev_quantile_occupancy_variance := stdev quantile_variance;
       blocks_with_empty_bins := default 0 (empty_bins_by_layer !! p.1);
       blocks_with_overfull_bins := default 0 (overfull_bins_by_layer !! p.1) |})
  <$> ordered_pairs dispersion_by_layer.

(** ** Splits *)
Record SplitEffectivenessMetrics := {
  split_parent_block_id : string;
  split_parent_level : Z;
  child_count : Z;
  child_dispersion_exceeds_parent_count : Z;
  child_dispersion_exceeds_parent_percentage : float;
  mean_dispersion_increase_for_exceeding_children : float;
  max_dispersion_increase_for_exceeding_children : float
}.

Definition split_of (t : TraversalState) (p : block_hash * list block_hash) : option SplitEffectivenessMetrics :=
  parent ← metrics_by_id t !! p.1;
  match p.2 with
  | [] => None
  | child_ids =>
      let deltas := omap (λ child_id,
        (λ child, f32_sub (mean_centroid_distance (spread child)) (mean_centroid_distance (spread parent)))
          <$> metrics_by_id t !! child_id) child_ids in
      let exceeding := filter (λ delta, float_lt EPSILON delta = true) deltas in
      Some {| split_parent_block_id := bm_block_id parent; split_parent_level := bm_level parent;
              child_count := len deltas; child_dispersion_exceeds_parent_count := len exceeding;
              child_dispersion_exceeds_parent_percentage :=
                match deltas with
                | [] => f32_zero
                | _ => f32_div (f32_mul (f32_of_Z (len exceeding)) (f32_of_Z 100)) (f32_of_Z (len deltas))
                end;
              mean_dispersion_increase_for_exceeding_children := mean exceeding;
              max_dispersion_increase_for_exceeding_children := max_from_zero exceeding |}
  end.
Definition build_split_metrics (t : TraversalState) : list SplitEffectivenessMetrics :=
  sort_by (λ a b, str_cmp (split_parent_block_id a) (split_parent_block_id b))
    (omap (split_of t) (hash_iter (child_ids_by_parent t))).
End layers.

(** ** Blocks that a query touches *)
Record QueryTouchedBlock := { touch_level : Z; touch_bytes_read : Z }.
Record QueryAccessLevelMetrics := {
  al_level : Z;
  al_touched_block_count : Z;
  al_bytes_read : Z;
  al_estimated_rtts : Z
}.
Record QueryAccessMetrics := {
  query_id : string;
  qa_touched_block_count : Z;
  qa_bytes_read : Z;
  qa_estimated_rtts : Z;
  actual_query_elapsed_micros : Z;
  qa_levels : list QueryAccessLevelMetrics
}.
Record QueryAccessCapture := { access_metrics : QueryAccessMetrics; touched_blocks : gmap block_hash QueryTouchedBlock }.
Record QueryAccessSummary := {
  qs_query_count : Z;
  qs_touched_block_count : Z;
  qs_bytes_read : Z;
  qs_estimated_rtts : Z;
  total_query_elapsed_micros : Z;
  mean_query_elapsed_micros : Z;
  max_query_elapsed_micros : Z;
  qs_levels : list QueryAccessLevelMetrics
}.

Definition estimate_rtts (bytes_read : Z) : Z := div_ceil bytes_read RTT_CWND_BYTES.
Definition values_of {K V} `{Countable K} (m : gmap K V) : list V := (map_to_list m).*2.

Definition build_level_access_metrics (touched : list QueryTouchedBlock) : list QueryAccessLevelMetrics :=
  let by_level := foldl (λ m touch,
    at_entry (0, 0) (touch_level touch) (λ entry, (entry.1 + 1, entry.2 + touch_bytes_read touch)) m) ∅ touched in
  (λ p, {| al_level := p.1; al_touched_block_count := p.2.1; al_bytes_read := p.2.2; al_estimated_rtts := estimate_rtts p.2.2 |})
    <$> ordered_pairs by_level.

Definition build_query_access_capture (query : string) (touched : gmap block_hash QueryTouchedBlock) (elapsed : Z)
    : QueryAccessCapture :=
  let levels := build_level_access_metrics (values_of touched) in
  {| access_metrics := {|
       query_id := query; qa_touched_block_count := Z.of_nat (size touched);
       qa_bytes_read := sum_Z (touch_bytes_read <$> values_of touched);
       qa_estimated_rtts := sum_Z (al_estimated_rtts <$> levels);
       actual_query_elapsed_micros := elapsed; qa_levels := levels |};
     touched_blocks := touched |}.
Definition zeroed_capture (query : string) : QueryAccessCapture :=
  {| access_metrics := {| query_id := query; qa_touched_block_count := 0; qa_bytes_read := 0; qa_estimated_rtts := 0;
                          actual_query_elapsed_micros := 0; qa_levels := [] |};
     touched_blocks := ∅ |}.

(** [entry(id).or_insert(touch)]. *)
Definition or_insert {V} (id : block_hash) (v : V) (m : gmap block_hash V) : gmap block_hash V :=
  match m !! id with Some _ => m | None => <[id := v]> m end.

Record access_vars := {
  av_touched : gmap block_hash QueryTouchedBlock;
  av_by_level : gmap Z (gmap block_hash QueryTouchedBlock);
  av_rtts : gmap Z Z;
  av_total : Z;
  av_max : Z
}.
Definition add_touch (v : access_vars) (p : block_hash * QueryTouchedBlock) : access_vars :=
  {| av_touched := or_insert p.1 p.2 (av_touched v);
     av_by_level := at_entry ∅ (touch_level p.2) (or_insert p.1 p.2) (av_by_level v);
     av_rtts := av_rtts v; av_total := av_total v; av_max := av_max v |}.
Definition add_access `{HashIteration} (v : access_vars) (query_access : QueryAccessCapture) : access_vars :=
  let elapsed := actual_query_elapsed_micros (access_metrics query_access) in
  let v := {| av_touched := av_touched v; av_by_level := av_by_level v; av_rtts := av_rtts v;
              av_total := saturating_add (av_total v) elapsed; av_max := Z.max (av_max v) elapsed |} in
  let v := foldl add_touch v (hash_iter (touched_blocks query_access)) in
  {| av_touched := av_touched v; av_by_level := av_by_level v;
     av_rtts := foldl (λ m level, at_entry 0 (al_level level) (λ n, n + al_estimated_rtts level) m) (av_rtts v)
                  (qa_levels (access_metrics query_access));
     av_total := av_total v; av_max := av_max v |}.
Definition summarize_query_accesses `{HashIteration} (query_accesses : list QueryAccessCapture) : QueryAccessSummary :=
  let v := foldl add_access {| av_touched := ∅; av_by_level := ∅; av_rtts := ∅; av_total := 0; av_max := 0 |} query_accesses in
  {| qs_query_count := len query_accesses;
     qs_touched_block_count := Z.of_nat (size (av_touched v));
     qs_bytes_read := sum_Z (touch_bytes_read <$> values_of (av_touched v));
     qs_estimated_rtts := sum_Z (qa_estimated_rtts ∘ access_metrics <$> query_accesses);
     total_query_elapsed_micros := av_total v;
     mean_query_elapsed_micros := match query_accesses with [] => 0 | _ => av_total v / len query_accesses end;
     max_query_elapsed_micros := av_max v;
     qs_levels := (λ p, {| al_level := p.1; al_touched_block_count := Z.of_nat (size p.2);
                           al_bytes_read := sum_Z (touch_bytes_read <$> values_of p.2);
                           al_estimated_rtts := default 0 (av_rtts v !! p.1) |}) <$> ordered_pairs (av_by_level v) |}.

(** ** Recall *)
Record TnnRecallConfig := {
  cfg_sample_size : Z;
  cfg_seed : Z;
  cfg_traversal_width : Z;
  fast_random_walk : bool
}.
Definition tnn_recall_config_default : TnnRecallConfig :=
  {| cfg_sample_size := DEFAULT_TNN_RECALL_SAMPLE_SIZE; cfg_seed := DEFAULT_TNN_RECALL_SEED;
     cfg_traversal_width := default_traversal_width; fast_random_walk := false |}.
Record TnnRecallHistogramBin := { matched_neighbor_count : Z; recall : float; sample_count : Z }.
Record TnnRecallAtMetrics := { recall_k : Z; mean_recall : float; stdev_recall : float; histogram : list TnnRecallHistogramBin }.

Definition recall_of (denominator count : Z) : float :=
  if denominator =? 0 then f32_zero else f32_div (f32_of_Z count) (f32_of_Z denominator).
Definition tnn_recall_metrics (k denominator : Z) (counts : list Z) : TnnRecallAtMetrics :=
  let recalls := recall_of denominator <$> counts in
  let histogram_counts := foldl (λ m count, at_entry 0 count (Z.add 1) m) ∅ counts in
  {| recall_k := k; mean_recall := mean recalls; stdev_recall := stdev recalls;
     histogram := (λ p, {| matched_neighbor_count := p.1; recall := recall_of denominator p.1; sample_count := p.2 |})
                    <$> ordered_pairs histogram_counts |}.

Definition selected_corpus_sample (t : TraversalState) : list CorpusLeafEntry :=
  sc_entry <$> sort_by sample_candidate_cmp (sample_candidates t).
Definition has_embedding_spec_mismatch (t : TraversalState) : bool :=
  existsb (λ finding, bool_decide (finding_kind finding = EmbeddingSpecMismatch)) (findings t).

(** ** Exact neighbours *)
Record ExactNeighborCandidate := { en_score : float; en_leaf_block_id : block_hash; en_neighbor_id : string }.
(** The higher score first; scores that do not compare are equal. *)
Definition exact_neighbor_cmp (a b : ExactNeighborCandidate) : comparison :=
  then_cmp (float_cmp (en_score b) (en_score a))
    (then_cmp (bytes_cmp (en_leaf_block_id a) (en_leaf_block_id b)) (str_cmp (en_neighbor_id a) (en_neighbor_id b))).

Section scores.
Context {E : Type}.
Definition cosine_similarity (left right : list float) : result (TreeQualityError E) float :=
  let left := f64_of_f32 <$> left in
  let right := f64_of_f32 <$> right in
  let pairs := zip left right in
  let dot := foldl (λ s p, f64_add s (f64_mul p.1 p.2)) f64_zero pairs in
  let left_norm_sq := foldl (λ s p, f64_add s (f64_mul p.1 p.1)) f64_zero pairs in
  let right_norm_sq := foldl (λ s p, f64_add s (f64_mul p.2 p.2)) f64_zero pairs in
  let is_zero x := match x with S754_zero _ => true | _ => false end in
  if is_zero left_norm_sq || is_zero right_norm_sq then Err (ZeroMagnitudeEmbedding "<corpus-entry>")
  else Ok (f64_div dot (f64_mul (f64_sqrt left_norm_sq) (f64_sqrt right_norm_sq))).
End scores.

Definition duration_to_micros (micros : Z) : Z := if micros <=? usize_max then micros else usize_max.
Definition quality_default_report_path `{HashDisplay} (root_id : block_hash) : bytes :=
  as_bytes "block-tree-quality-" ++ take 8 (as_bytes (hash_to_string root_id)) ++ as_bytes ".json".

(** ** The report *)
Record CorpusTnnRecallReport := {
  query_source : string;
  cr_corpus_size : Z;
  requested_sample_size : Z;
  effective_sample_size : Z;
  cr_seed : Z;
  cr_traversal_width : Z;
  recall_at : list TnnRecallAtMetrics;
  access_summary : QueryAccessSummary;
  query_accesses : list QueryAccessMetrics
}.
Record TreeQualitySummary := {
  sum_block_count : Z;
  sum_branch_count : Z;
  sum_leaf_count : Z;
  sum_edge_count : Z;
  sum_max_depth : Z;
  sum_structural_finding_count : Z;
  child_dispersion_inversion_count : Z;
  parent_split_count : Z;
  mean_block_mean_centroid_distance : float;
  max_block_max_centroid_distance : float
}.
Record TreeQualityReport := {
  tq_root_id : string;
  tq_summary : TreeQualitySummary;
  corpus_tnn_recall : CorpusTnnRecallReport;
  tq_findings : list TreeQualityFinding;
  tq_layers : list LayerQualityMetrics;
  tq_splits : list SplitEffectivenessMetrics;
  tq_blocks : list BlockQualityMetrics
}.

Definition zeroed_summary : QueryAccessSummary :=
  {| qs_query_count := 0; qs_touched_block_count := 0; qs_bytes_read := 0; qs_estimated_rtts := 0;
     total_query_elapsed_micros := 0; mean_query_elapsed_micros := 0; max_query_elapsed_micros := 0; qs_levels := [] |}.
Definition zeroed_corpus_tnn_recall_report (corpus_size requested effective seed traversal_width : Z) : CorpusTnnRecallReport :=
  {| query_source := "corpus-based"; cr_corpus_size := corpus_size; requested_sample_size := requested;
     effective_sample_size := effective; cr_seed := seed; cr_traversal_width := traversal_width;
     recall_at := (λ k, {| recall_k := k; mean_recall := f32_zero; stdev_recall := f32_zero; histogram := [] |}) <$> REQUIRED_RECALL_AT;
     access_summary := zeroed_summary; query_accesses := [] |}.

Section assess.
Context {S : Type} `{GetBlock S} `{HalfToFloat} `{HalfFloat} `{HashDisplay} `{Sha256} `{Ebcp} `{Searcher (BlockStoreError S)}.
Abbreviation E := (BlockStoreError S).
Abbreviation error := (TreeQualityError E).
Context (store : S).

(** Only the interrupt flag is threaded here: the polls that remain. *)
Abbreviation polling A := (stm (option nat) error A).
Definition check_poll : polling unit := fun n =>
  match n with Some O => (n, Err QualityInterrupted) | _ => (Nat.pred <$> n, Ok ()) end.

(** ** Scoring a batch of the corpus against the queries *)

(** The score matrix, by corpus entry and query; an entry is not compared with
    itself. *)
Definition score_row (queries : list CorpusLeafEntry) (entry : CorpusLeafEntry) : result error (list (option float)) :=
  result_mapM (λ query,
    if bool_decide (neighbor_id entry = neighbor_id query) then Ok None
    else Some <$> cosine_similarity (ce_embedding query) (ce_embedding entry)) queries.
Definition keep_neighbor (entry : CorpusLeafEntry) (score : option float) (heap : list ExactNeighborCandidate)
    : list ExactNeighborCandidate :=
  match score with
  | None => heap
  | Some score =>
      push_bounded exact_neighbor_cmp MAX_EXACT_NEIGHBORS
        {| en_score := score; en_leaf_block_id := leaf_block_id entry; en_neighbor_id := neighbor_id entry |} heap
  end.
Definition score_exact_batch (corpus_entries queries : list CorpusLeafEntry) (heaps : list (list ExactNeighborCandidate))
    : polling (list (list ExactNeighborCandidate)) :=
  match corpus_entries, queries with
  | [], _ | _, [] => mret heaps
  | _, _ =>
      lift (reject_if (usize_max <? len corpus_entries * len queries)
              (ExactScoreBatchTooLarge (len corpus_entries) (len queries))) ;;
      rows ← stm_foldl (λ rows entry, check_poll ;; row ← lift (score_row queries entry); mret (rows ++ [(entry, row)]))
               [] corpus_entries;
      mret (foldl (λ heaps p, zip_with (keep_neighbor p.1) p.2 heaps) heaps rows)
  end.

Record neighbor_vars := { nv_heaps : list (list ExactNeighborCandidate); nv_visited : gset block_hash }.

Definition chunk_list {A} (size : nat) (l : list A) : list (list A) := chunks (length l) size l.
(** The entries of one batch, without those that have no magnitude. *)
Definition corpus_batch (block_id : block_hash) (spec : EmbeddingSpec) (entries : list LeafEntry) : result error (list CorpusLeafEntry) :=
  result_foldl (λ batch entry,
    match corpus_entry_from_leaf_result block_id entry spec with
    | Ok entry => Ok (batch ++ [entry])
    | Err (ZeroMagnitudeEmbedding _) => Ok batch
    | Err other => Err other
    end) [] entries.

Fixpoint collect_exact_neighbors_from_block (fuel : nat) (queries : list CorpusLeafEntry) (v : neighbor_vars) (block_id : block_hash)
    : polling neighbor_vars :=
  match fuel with
  | O => throw QualityRunning
  | Datatypes.S fuel =>
      check_poll ;;
      if bool_decide (block_id ∈ nv_visited v) then mret v else
      let v := {| nv_heaps := nv_heaps v; nv_visited := {[block_id]} ∪ nv_visited v |} in
      found ← lift (map_err QualityBlockStore (get block_id store));
      match vb_block <$> found with
      | None => mret v
      | Some (BBranch branch) =>
          stm_foldl (collect_exact_neighbors_from_block fuel queries) v (be_child <$> bb_entries branch)
      | Some (BLeaf leaf) =>
          stm_foldl (λ v entries,
            batch ← lift (corpus_batch block_id (lb_spec leaf) entries);
            heaps ← score_exact_batch batch queries (nv_heaps v);
            mret {| nv_heaps := heaps; nv_visited := nv_visited v |}) v
            (chunk_list EXACT_SCORING_BATCH_SIZE (lb_entries leaf))
      end
  end.
Definition collect_exact_neighbors (fuel : nat) (root_id : block_hash) (queries : list CorpusLeafEntry)
    : polling (list (list ExactNeighborCandidate)) :=
  v ← collect_exact_neighbors_from_block fuel queries
        {| nv_heaps := replicate (length queries) []; nv_visited := ∅ |} root_id;
  mret (nv_heaps v).

(** ** The approximate search *)

(** [CountingBlockStore::get]: the first read of a block is noted. A block that
    is found decodes, so its bytes are there; [byte_len] is their number. *)
Context (byte_len : block_hash → Z).
Definition block_level (b : Block) : Z := match b with BBranch branch => bb_level branch | BLeaf leaf => lb_level leaf end.
Definition counting_get (touched : gmap block_hash QueryTouchedBlock) (id : block_hash) : gmap block_hash QueryTouchedBlock :=
  match get id store with
  | Ok (Some validated) =>
      or_insert id {| touch_level := block_level (vb_block validated); touch_bytes_read := byte_len id |} touched
  | _ => touched
  end.

(** [f32::to_le_bytes] of a number (the embeddings are checked to be finite). *)
Definition f32_to_bits (x : float) : Z :=
  let signed (s : bool) (magnitude : Z) := if s then 2 ^ 31 + magnitude else magnitude in
  match x with
  | S754_zero s => signed s 0
  | S754_infinity s => signed s (255 * 2 ^ 23)
  | S754_nan => 255 * 2 ^ 23 + 2 ^ 22
  | S754_finite s m e => signed s (if Zpos m <? 2 ^ 23 then Zpos m else (e + 150) * 2 ^ 23 + (Zpos m - 2 ^ 23))
  end.

Definition encode_embedding_values (embedding : list float) (embedding_spec : EmbeddingSpec) (block_id : block_hash) : result error bytes :=
  let id := hash_to_string block_id in
  reject_if (negb (len embedding =? dims embedding_spec))
    (InvalidEmbeddingLength id (encoding embedding_spec) (dims embedding_spec)
       (default 0 (expected_embedding_byte_len embedding_spec)) (len embedding * 4)) ;;
  if bool_decide (encoding embedding_spec = "f32le"%string) then Ok (embedding ≫= λ value, le_bytes 4 (f32_to_bits value))
  else if bool_decide (encoding embedding_spec = "f16le"%string)
       then Ok (embedding ≫= λ value, le_bytes 2 (f16_from_f32 (f32_to_bits value)))
  else Err (UnsupportedEmbeddingSpec id (encoding embedding_spec) (dims embedding_spec)).

Definition from_search_error (e : SearchError) : error :=
  match e with
  | ScoringFailure block_id message _ =>
      if contains_bytes (as_bytes "zero magnitude") (as_bytes message)
      then ZeroMagnitudeEmbedding (hash_to_string block_id) else SearchFailed (search_error_text e)
  | _ => SearchFailed (search_error_text e)
  end.

(** [elapsed] is what the clock says of the search, in microseconds. *)
Definition keep_other (query : CorpusLeafEntry) (entry : result error CorpusLeafEntry) : bool :=
  match entry with Ok entry => bool_decide (neighbor_id entry ≠ neighbor_id query) | Err _ => true end.
Definition approximate_neighbors (root_id : block_hash) (root_spec : EmbeddingSpec) (query : CorpusLeafEntry) (max_k traversal_width elapsed : Z)
    : result error (list CorpusLeafEntry * QueryAccessCapture) :=
  if max_k =? 0 then Ok ([], zeroed_capture (neighbor_id query)) else
  bytes ← encode_embedding_values (ce_embedding query) root_spec (leaf_block_id query);
  let target := {| target_bytes := bytes; target_spec := root_spec |} in
  let '(read, found) := search_with_partial_retry root_id target traversal_width (saturating_add max_k 1) (λ id, get id store) in
  leaves ← map_err from_search_error found;
  let entries := (λ leaf, corpus_entry_from_leaf_result (hit_leaf_block_id leaf) (hit_entry leaf) root_spec) <$> leaves in
  neighbors ← result_mapM id (take (Z.to_nat max_k) (filter (λ entry, keep_other query entry = true) entries));
  Ok (neighbors, build_query_access_capture (neighbor_id query) (foldl counting_get ∅ read) (duration_to_micros elapsed)).

(** ** The recall of the sampled queries *)
Context `{HashIteration}.

Definition matched_neighbors (k : Z) (approximate : list CorpusLeafEntry) (exact : list ExactNeighborCandidate) : Z :=
  let approximate_ids : gset string := list_to_set (neighbor_id <$> take (Z.to_nat k) approximate) in
  Z.min (len (filter (λ entry, en_neighbor_id entry ∈ approximate_ids) (take (Z.to_nat k) exact))) (Z.min (len exact) k).

(** [clock] gives the duration of the search of each query. *)
Context (clock : nat → Z).

Definition recall_query (root_id : block_hash) (root_spec : EmbeddingSpec) (max_k traversal_width : Z)
    (v : list (list Z) * list QueryAccessCapture) (p : nat * (CorpusLeafEntry * list ExactNeighborCandidate))
    : polling (list (list Z) * list QueryAccessCapture) :=
  let '(index, (query, exact)) := p in
  check_poll ;;
  '(approximate, access) ← lift (approximate_neighbors root_id root_spec query max_k traversal_width (clock index));
  let matched := (λ k, matched_neighbors k approximate exact) <$> REQUIRED_RECALL_AT in
  mret (zip_with (λ counts m, counts ++ [m]) v.1 matched, v.2 ++ [access]).

Definition build_corpus_tnn_recall_report (fuel : nat) (root_id : block_hash) (root_spec : EmbeddingSpec) (t : TraversalState)
    (config : TnnRecallConfig) : polling CorpusTnnRecallReport :=
  let can_compute_recall :=
    (2 <=? corpus_size t) && negb (has_embedding_spec_mismatch t) && negb (has_zero_magnitude_tnn_entry t) in
  let effective := if can_compute_recall then Z.min (cfg_sample_size config) (corpus_size t) else 0 in
  if effective =? 0 then
    mret (zeroed_corpus_tnn_recall_report (corpus_size t) (cfg_sample_size config) effective (cfg_seed config) (cfg_traversal_width config))
  else
    let sampled_queries := selected_corpus_sample t in
    let max_k := Z.min (Z.min 10 MAX_EXACT_NEIGHBORS) (saturating_sub (corpus_size t) 1) in
    heaps ← collect_exact_neighbors fuel root_id sampled_queries;
    let exact_neighbors := sort_by exact_neighbor_cmp <$> heaps in
    '(counts, accesses) ← stm_foldl (recall_query root_id root_spec max_k (cfg_traversal_width config)) ([[]; []; []], [])
                            (imap pair (zip sampled_queries exact_neighbors));
    mret {| query_source := "corpus-based"; cr_corpus_size := corpus_size t; requested_sample_size := cfg_sample_size config;
            effective_sample_size := effective; cr_seed := cfg_seed config; cr_traversal_width := cfg_traversal_width config;
            recall_at := zip_with (λ k counts, tnn_recall_metrics k (Z.min k (saturating_sub (corpus_size t) 1)) counts)
                           REQUIRED_RECALL_AT counts;
            access_summary := summarize_query_accesses accesses; query_accesses := access_metrics <$> accesses |}.

(** ** Random walks *)
Definition deterministic_choice_index (seed walk_index depth : Z) (block_id : block_hash) (length : Z) (salt : string) : Z :=
  from_le_bytes (take 8 (sha256_digest (le_bytes 8 seed ++ le_bytes 8 walk_index ++ le_bytes 8 depth ++ block_id ++ as_bytes salt)))
    mod length.

(** The loop has no bound of its own: [fuel] bounds the depth of a walk. *)
Fixpoint random_walk_query (fuel : nat) (current_id : block_hash) (current_block : Block) (seed walk_index depth : Z)
    : polling (option CorpusLeafEntry) :=
  match fuel with
  | O => throw QualityRunning
  | Datatypes.S fuel =>
      check_poll ;;
      match current_block with
      | BLeaf leaf =>
          match lb_entries leaf !! Z.to_nat (deterministic_choice_index seed walk_index depth current_id (len (lb_entries leaf)) "leaf-entry") with
          | None => mret None
          | Some entry =>
              match corpus_entry_from_leaf_result current_id entry (lb_spec leaf) with
              | Ok entry => mret (Some entry)
              | Err (ZeroMagnitudeEmbedding _) => mret None
              | Err other => throw other
              end
          end
      | BBranch branch =>
          match bb_entries branch !! Z.to_nat (deterministic_choice_index seed walk_index depth current_id (len (bb_entries branch)) "branch-child") with
          | None => mret None
          | Some entry =>
              found ← lift (map_err QualityBlockStore (get (be_child entry) store));
              child ← lift (ok_or found (SearchFailed ("fast random-walk query sampling hit missing child block "
                +:+ hash_to_string (be_child entry) +:+ " from parent " +:+ hash_to_string current_id)));
              random_walk_query fuel (vb_hash child) (vb_block child) seed walk_index (depth + 1)
          end
      end
  end.

Definition saturating_mul (a b : Z) : Z := Z.min (a * b) usize_max.
Fixpoint sample_walks (fuel attempts : nat) (walk_index : Z) (root_id : block_hash) (root_block : Block) (config : TnnRecallConfig)
    (samples : list CorpusLeafEntry) : polling (list CorpusLeafEntry) :=
  match attempts with
  | O => mret samples
  | Datatypes.S attempts =>
      check_poll ;;
      if cfg_sample_size config <=? len samples then mret samples else
      sample ← random_walk_query fuel root_id root_block (cfg_seed config) walk_index 0;
      let samples := match sample with
        | Some sample => if bool_decide (neighbor_id sample ∈ neighbor_id <$> samples) then samples else samples ++ [sample]
        | None => samples
        end in
      sample_walks fuel attempts (walk_index + 1) root_id root_block config samples
  end.
Definition sample_random_walk_queries (fuel : nat) (root_id : block_hash) (root_block : Block) (config : TnnRecallConfig)
    : polling (list CorpusLeafEntry) :=
  let max_attempts := Z.max (saturating_mul (cfg_sample_size config) 32) (cfg_sample_size config) in
  sample_walks fuel (Z.to_nat max_attempts) 0 root_id root_block config [].

Definition build_random_walk_query_accesses (root_id : block_hash) (root_spec : EmbeddingSpec) (sampled_queries : list CorpusLeafEntry)
    (traversal_width : Z) : result error (list QueryAccessCapture) :=
  result_mapM (λ p, snd <$> approximate_neighbors root_id root_spec p.2 10 traversal_width (clock p.1)) (imap pair sampled_queries).

Definition assess_random_walk_queries (fuel : nat) (root_id : block_hash) (root_block : Block) (root_spec : EmbeddingSpec)
    (config : TnnRecallConfig) : polling TreeQualityReport :=
  check_poll ;;
  sampled_queries ← sample_random_walk_queries fuel root_id root_block config;
  accesses ← lift (build_random_walk_query_accesses root_id root_spec sampled_queries (cfg_traversal_width config));
  mret {| tq_root_id := hash_to_string root_id;
          tq_summary := {| sum_block_count := 0; sum_branch_count := 0; sum_leaf_count := 0; sum_edge_count := 0; sum_max_depth := 0;
            sum_structural_finding_count := 0; child_dispersion_inversion_count := 0; parent_split_count := 0;
            mean_block_mean_centroid_distance := f32_zero; max_block_max_centroid_distance := f32_zero |};
          corpus_tnn_recall := {| query_source := FAST_RANDOM_WALK_QUERY_SOURCE; cr_corpus_size := 0;
            requested_sample_size := cfg_sample_size config; effective_sample_size := len sampled_queries;
            cr_seed := cfg_seed config; cr_traversal_width := cfg_traversal_width config; recall_at := [];
            access_summary := summarize_query_accesses accesses; query_accesses := access_metrics <$> accesses |};
          tq_findings := []; tq_layers := []; tq_splits := []; tq_blocks := [] |}.

(** ** The assessment *)
Definition finding_cmp (a b : TreeQualityFinding) : comparison :=
  then_cmp (str_cmp (finding_block_id a) (finding_block_id b)) (str_cmp (finding_message a) (finding_message b)).
Definition run_traversal (fuel : nat) (root_id : block_hash) (root : Block) (config : TnnRecallConfig) : polling TraversalState := fun n =>
  let '(w, r) := traverse_block store fuel root_id root None 0
    {| tree := start_traversal (cfg_sample_size config) (cfg_seed config); ancestry := []; polls := n |} in
  (polls w, (λ _, tree w) <$> r).
Definition sorted_state (t : TraversalState) : TraversalState :=
  {| ts_blocks := sort_by (λ a b, str_cmp (bm_block_id a) (bm_block_id b)) (ts_blocks t); sample_size := sample_size t;
     sample_seed := sample_seed t; corpus_size := corpus_size t; sample_candidates := sample_candidates t;
     findings := sort_by finding_cmp (findings t); metrics_by_id := metrics_by_id t; child_ids_by_parent := child_ids_by_parent t;
     visited := visited t; has_zero_magnitude_tnn_entry := has_zero_magnitude_tnn_entry t;
     structural_finding_count := structural_finding_count t; edge_count := edge_count t; max_depth := max_depth t |}.

Definition assess_rooted_tree_with_config (fuel : nat) (root_id : block_hash) (config : TnnRecallConfig) : polling TreeQualityReport :=
  check_poll ;;
  lift (reject_if (cfg_sample_size config =? 0) InvalidTnnRecallSampleSize) ;;
  lift (reject_if (cfg_traversal_width config =? 0) InvalidTnnRecallTraversalWidth) ;;
  found ← lift (map_err QualityBlockStore (get root_id store));
  root ← lift (ok_or found (MissingRootBlock (hash_to_string root_id)));
  root_spec ← lift (comparison_embedding_spec_for_block root_id (vb_block root));
  if fast_random_walk config then assess_random_walk_queries fuel root_id (vb_block root) root_spec config else
  traversed ← run_traversal fuel (vb_hash root) (vb_block root) config;
  let t := sorted_state traversed in
  let layers := build_layer_metrics t in
  let splits := build_split_metrics t in
  corpus ← build_corpus_tnn_recall_report fuel root_id root_spec t config;
  let branch_count := len (filter (λ b, bm_kind b = "branch"%string) (ts_blocks t)) in
  mret {| tq_root_id := hash_to_string root_id;
          tq_summary := {|
            sum_block_count := len (ts_blocks t); sum_branch_count := branch_count;
            sum_leaf_count := len (ts_blocks t) - branch_count; sum_edge_count := edge_count t; sum_max_depth := max_depth t;
            sum_structural_finding_count := structural_finding_count t;
            child_dispersion_inversion_count := sum_Z (child_dispersion_exceeds_parent_count <$> splits);
            parent_split_count := len splits;
            mean_block_mean_centroid_distance := mean ((λ b, mean_centroid_distance (spread b)) <$> ts_blocks t);
            max_block_max_centroid_distance := max_from_zero ((λ b, max_centroid_distance (spread b)) <$> ts_blocks t) |};
          corpus_tnn_recall := corpus; tq_findings := findings t; tq_layers := layers; tq_splits := splits; tq_blocks := ts_blocks t |}.
Definition assess_rooted_tree (fuel : nat) (root_id : block_hash) : polling TreeQualityReport :=
  assess_rooted_tree_with_config fuel root_id tnn_recall_config_default.
End assess.
