(* ===== verification/QualityReportSpec.v ===== *)
(** * The quality report of a tree: theorems ([quality.rs])

    The assessment of a finite store ends; its summary counts the reached blocks
    and their references and its findings tell whether the snapshot is a tree.
    The random walks of the fast mode sample distinct entries, but a walk in a
    cycle has no end. The encoder of search targets inverts the decoder of
    embeddings. *)

From Stdlib Require Import ZArith Lia.
From Stdlib.Floats Require Import SpecFloat.
From stdpp Require Import base gmap sets strings relations option list.
From S2P Require Import Prelude Hex Blocks Text Runtime Items SortKey Orders Embedding EmbeddingSpec Ingest IngestBatchesSpec Replay Floats Diagnostics Search Quality QualityTree QualitySpec QualityTreeSpec QualityReport.
#[local] Open Scope Z_scope.

(** ** Results that are final *)
Definition final {E A} (r : result (TreeQualityError E) A) : Prop := r ≠ Err QualityRunning.
Lemma final_ok {E A} (a : A) : final (E := E) (Ok a).
Proof. done. Qed.
Lemma final_bind {E A B} (m : result (TreeQualityError E) A) (f : A → result (TreeQualityError E) B) :
  final m → (∀ a, m = Ok a → final (f a)) → final (m ≫= f).
Proof. destruct m as [a|e]; cbn; [auto|]. unfold final. congruence. Qed.
Lemma final_fmap {E A B} (m : result (TreeQualityError E) A) (f : A → B) : final m → final (f <$> m).
Proof. destruct m as [a|e]; cbn; [done|]. unfold final. congruence. Qed.
Lemma final_mapM {E A B} (f : A → result (TreeQualityError E) B) l : (∀ x, x ∈ l → final (f x)) → final (result_mapM f l).
Proof.
  induction l as [|x l IH]; intros Hf; cbn; [done|].
  apply final_bind; [apply Hf; by left|]. intros y _. apply final_bind; [apply IH; intros; apply Hf; by right|done].
Qed.
Lemma final_foldl {E A V} (f : V → A → result (TreeQualityError E) V) v l : (∀ v x, final (f v x)) → final (result_foldl f v l).
Proof. intros Hf. revert v. induction l as [|x l IH]; intros v; cbn; [done|]. apply final_bind; [apply Hf|]. intros v' _. apply IH. Qed.
Lemma final_reject {E} c (e : TreeQualityError E) : e ≠ QualityRunning → final (reject_if c e).
Proof. destruct c; cbn; unfold final; congruence. Qed.
Lemma final_or {E A} (o : option A) (e : TreeQualityError E) : e ≠ QualityRunning → final (ok_or o e).
Proof. destruct o; cbn; unfold final; congruence. Qed.
Lemma final_map_err {E F A} (f : F → TreeQualityError E) (m : result F A) : (∀ e, f e ≠ QualityRunning) → final (map_err f m).
Proof. destruct m as [a|e]; cbn; unfold final; [done|]. intros Hf [= He]. by apply (Hf e). Qed.

Create HintDb final.
#[export] Hint Resolve final_ok final_bind final_fmap final_mapM final_foldl final_reject final_or final_map_err : final.

Section final_parts.
Context {E : Type} `{HalfToFloat} `{HashDisplay} `{Sha256} `{Ebcp}.

Lemma undecodable_final id data spec : undecodable_embedding (E := E) id data spec ≠ QualityRunning.
Proof. unfold undecodable_embedding. repeat case_match; done. Qed.
Lemma corpus_entry_final id entry spec : final (corpus_entry_from_leaf_result (E := E) id entry spec).
Proof.
  apply final_bind; [apply final_or, undecodable_final|]. intros values _.
  apply final_bind; [by apply final_reject|]. intros _ _. apply final_bind; [by apply final_reject|done].
Qed.
Lemma block_metrics_final id b parent depth : final (block_metrics (E := E) id b parent depth).
Proof.
  assert (∀ decoded spec, final (computed_metrics (E := E) decoded spec)) as Hc by (intros; by apply final_or).
  apply final_bind; [|by intros [[[[[??]?]?]?]?] _].
  destruct b as [branch|leaf].
  - apply final_bind; [apply final_bind; [by apply final_map_err|done]|]. intros [spec d] _.
    apply final_bind; [|done]. apply final_bind; [|by intros]. apply final_mapM. intros entry _.
    apply final_bind; [by apply final_map_err|]. intros values _. apply final_bind; [by apply final_reject|done].
  - apply final_bind; [|done]. apply final_bind; [|by intros]. apply final_mapM. intros data _.
    apply final_bind; [apply final_or, undecodable_final|]. intros values _. apply final_bind; [by apply final_reject|done].
Qed.
End final_parts.

Section report.
Context {S : Type} `{GetBlockLaws S} `{HalfToFloat} `{HalfFloat} `{HashDisplay} `{Sha256} `{Ebcp}.
Context `{Searcher (BlockStoreError S)} `{HashIteration}.
Abbreviation E := (BlockStoreError S).
Context (store : S) (byte_len : block_hash → Z) (clock : nat → Z).
Context (U : gset block_hash) (U_present : ∀ h b, get h store = Ok (Some b) → h ∈ U).

(** A polling computation whose result is final, whatever the polls. *)
Abbreviation polling A := (stm (option nat) (TreeQualityError E) A).
Definition ends {A} (P : A → Prop) (m : polling A) : Prop :=
  ∀ n, match (m n).2 with Ok a => P a | Err e => e ≠ QualityRunning end.

Lemma ends_bind {A B} (P : A → Prop) (Q : B → Prop) (m : polling A) (f : A → polling B) :
  ends P m → (∀ a, P a → ends Q (f a)) → ends Q (m ≫= f).
Proof.
  intros Hm Hf n. specialize (Hm n). unfold mbind, stm_bind. destruct (m n) as [n' [a|e]]; cbn in *; [by apply Hf|done].
Qed.
Lemma ends_ret {A} (P : A → Prop) a : P a → ends P (mret a).
Proof. by intros Ha n. Qed.
Lemma ends_check : ends (λ _, True) check_poll.
Proof. intros [[|n]|]; done. Qed.
Lemma ends_lift {A} (P : A → Prop) (r : result (TreeQualityError E) A) : final r → (∀ a, r = Ok a → P a) → ends P (lift r).
Proof. intros Hr HP n. cbn. destruct r as [a|e]; [by apply HP|]. intros ->. by apply Hr. Qed.
Lemma ends_weaken {A} (P Q : A → Prop) (m : polling A) : (∀ a, P a → Q a) → ends P m → ends Q m.
Proof. intros HPQ Hm n. specialize (Hm n). destruct (m n).2; auto. Qed.
Lemma ends_foldl {A V} (P : V → Prop) (f : V → A → polling V) v l : P v → (∀ v x, P v → x ∈ l → ends P (f v x)) →
  ends P (stm_foldl f v l).
Proof.
  intros Hv Hf. revert v Hv. induction l as [|x l IH]; intros v Hv; cbn [stm_foldl]; [by apply ends_ret|].
  eapply ends_bind; [apply Hf; [exact Hv|by left]|]. intros v' Hv'. apply IH; [|done]. intros. apply Hf; [done|by right].
Qed.

Lemma score_ends corpus queries heaps : ends (λ _, True) (score_exact_batch (S := S) corpus queries heaps).
Proof.
  unfold score_exact_batch. destruct corpus as [|c corpus]; [by apply ends_ret|]. destruct queries as [|q queries]; [by apply ends_ret|].
  eapply (ends_bind (λ _, True)); [apply ends_lift; [by apply final_reject|done]|]. intros _ _.
  eapply (ends_bind (λ _, True)); [|by intros; apply ends_ret].
  apply ends_foldl; [done|]. intros rows entry _ _. eapply ends_bind; [apply ends_check|]. intros _ _.
  eapply (ends_bind (λ _, True)); [|by intros; apply ends_ret]. apply ends_lift; [|done].
  apply final_mapM. intros query _. case_bool_decide; [done|]. apply final_fmap. unfold cosine_similarity.
  by destruct (_ || _).
Qed.

Definition left_over (v : neighbor_vars) : nat := size (U ∖ nv_visited v).
Lemma collect_ends fuel queries v id : (left_over v < fuel)%nat →
  ends (λ v', nv_visited v ⊆ nv_visited v') (collect_exact_neighbors_from_block store fuel queries v id).
Proof using All.
  revert v id. induction fuel as [|fuel IH]; intros v id Hf; [lia|]. cbn [collect_exact_neighbors_from_block].
  eapply ends_bind; [apply ends_check|]. intros _ _. case_bool_decide as Hin; [by apply ends_ret|].
  set (v1 := {| nv_heaps := nv_heaps v; nv_visited := {[id]} ∪ nv_visited v |}).
  assert (nv_visited v ⊆ nv_visited v1) as Hsub by (cbn; set_solver).
  eapply (ends_bind (λ found, get id store = Ok found)).
  { apply ends_lift; [by apply final_map_err|]. intros found Hfound. by apply map_err_ok in Hfound. }
  intros found Hget. destruct found as [[h [branch|leaf]]|]; cbn [fmap option_fmap option_map vb_block].
  - apply (ends_weaken (λ v', nv_visited v1 ⊆ nv_visited v')); [intros v' Hv'; by etrans|].
    apply (ends_foldl (λ v', nv_visited v1 ⊆ nv_visited v')); [done|]. intros v2 c Hv2 _.
    assert (left_over v2 < fuel)%nat as Hlt.
    { unfold left_over in *. assert (id ∈ U) by (by eapply U_present).
      assert (size (U ∖ nv_visited v2) < size (U ∖ nv_visited v))%nat; [|lia].
      apply subset_size. cbn in Hv2. set_solver. }
    apply (ends_weaken (λ v', nv_visited v2 ⊆ nv_visited v')); [intros v' ?; by etrans|by apply IH].
  - apply (ends_weaken (λ v', nv_visited v1 ⊆ nv_visited v')); [intros v' Hv'; by etrans|].
    apply (ends_foldl (λ v', nv_visited v1 ⊆ nv_visited v')); [done|]. intros v2 entries Hv2 _.
    eapply (ends_bind (λ _, True)).
    { apply ends_lift; [|done]. apply final_foldl. intros batch entry. pose proof (corpus_entry_final (E := E) id entry (lb_spec leaf)) as He.
      destruct (corpus_entry_from_leaf_result id entry (lb_spec leaf)) as [?|[]]; done. }
    intros batch _. eapply ends_bind; [apply score_ends|]. intros heaps _. by apply ends_ret.
  - by apply ends_ret.
Qed.

Lemma approximate_final root spec query max_k width elapsed :
  final (approximate_neighbors store byte_len root spec query max_k width elapsed).
Proof.
  unfold approximate_neighbors. destruct (max_k =? 0); [done|].
  apply final_bind.
  { unfold encode_embedding_values. apply final_bind; [by apply final_reject|]. intros _ _. repeat case_match; done. }
  intros data _. destruct (search_with_partial_retry _ _ _ _ _) as [read found].
  apply final_bind. { apply final_map_err. intros e. unfold from_search_error. repeat case_match; done. }
  intros leaves _. apply final_bind; [|done]. apply final_mapM. intros r Hr.
  assert (∀ k (l : list (result (TreeQualityError E) CorpusLeafEntry)), r ∈ take k l → r ∈ l) as Htake.
  { intros k l Hin. rewrite <-(take_drop k l). apply elem_of_app. by left. }
  apply Htake, list_elem_of_filter in Hr as [_ (leaf&->&_)%list_elem_of_fmap]. apply corpus_entry_final.
Qed.

Lemma corpus_report_ends fuel root spec t config : (size U < fuel)%nat →
  ends (λ _, True) (build_corpus_tnn_recall_report store byte_len clock fuel root spec t config).
Proof using All.
  intros Hf. unfold build_corpus_tnn_recall_report. case_match; [by apply ends_ret|].
  eapply (ends_bind (λ _, True)).
  { unfold collect_exact_neighbors. eapply ends_bind; [apply collect_ends|by intros; apply ends_ret].
    unfold left_over. cbn. by rewrite difference_empty_L. }
  intros heaps _. eapply (ends_bind (λ _, True)); [|by intros [? ?] _; apply ends_ret].
  apply ends_foldl; [done|]. intros v [i [query exact]] _ _. eapply ends_bind; [apply ends_check|]. intros _ _.
  eapply (ends_bind (λ _, True)); [apply ends_lift; [apply approximate_final|done]|].
  intros [approximate access] _. by apply ends_ret.
Qed.

(** ** The assessment of a whole tree *)
Definition branch_at (h : block_hash) : bool :=
  match get h store with Ok (Some v) => match vb_block v with BBranch _ => true | BLeaf _ => false end | _ => false end.

Lemma genuine_kind v : genuine store v → bool_decide (bm_kind (v_metrics v) = "branch"%string) = branch_at (v_id v).
Proof.
  intros (b&depth&Hb&Hm). unfold branch_at. rewrite Hb. unfold block_metrics in Hm.
  destruct (vb_block b) as [branch|leaf].
  - apply result_bind_ok in Hm as ([[[[[kind level] sp] count] cs] computed]&Hk&[= <-]).
    apply result_bind_ok in Hk as ([spec d]&_&Hk). apply result_bind_ok in Hk as (c&_&[= <- _ _ _ _ _]). done.
  - apply result_bind_ok in Hm as ([[[[[kind level] sp] count] cs] computed]&Hk&[= <-]).
    apply result_bind_ok in Hk as (c&_&[= <- _ _ _ _ _]). done.
Qed.

Lemma branch_count new order : Forall (genuine store) new → (v_id <$> new) ≡ₚ order →
  len (filter (λ b, bm_kind b = "branch"%string) (v_metrics <$> new)) = len (filter (λ h, branch_at h = true) order).
Proof.
  intros Hg Hp. unfold len. rewrite <-Hp. f_equal. clear Hp.
  induction Hg as [|v new Hv Hg IH]; [done|]. rewrite !fmap_cons, !filter_cons. pose proof (genuine_kind v Hv) as Hk.
  destruct (branch_at (v_id v)).
  - apply bool_decide_eq_true in Hk. rewrite !decide_True by done. cbn. by rewrite IH.
  - apply bool_decide_eq_false in Hk. rewrite !decide_False by done. by rewrite IH.
Qed.

Lemma corpus_report_size fuel root spec t config n n' report :
  build_corpus_tnn_recall_report store byte_len clock fuel root spec t config n = (n', Ok report) →
  cr_corpus_size report = corpus_size t.
Proof.
  unfold build_corpus_tnn_recall_report. case_match; [by intros [= _ <-]|].
  intros (n1&heaps&_&Hr)%stm_bind_ok. apply stm_bind_ok in Hr as (n2&[counts accesses]&_&[= _ <-]). done.
Qed.

Lemma walk_result_final fuel root b config n : get root store = Ok (Some b) → (size U < fuel)%nat →
  final (walk store root b fuel (cfg_sample_size config) (cfg_seed config) n).2.
Proof using All.
  intros Hb Hf. pose proof (walk_outcome store U U_present root b Hb fuel (cfg_sample_size config) (cfg_seed config) n Hf) as Ho.
  unfold outcome in Ho. destruct (walk _ _ _ _ _ _ _) as [w [[]|e]]; [done|]. cbn. intros [= ->].
  inversion Ho as [ | |c h b' pa de e' _ _ _ He|c h b' leaf en e' _ _ _ _ _ He _]; subst.
  - by apply (block_metrics_final (E := E) h (vb_block b') pa de).
  - by apply (corpus_entry_final (E := E) h en (lb_spec leaf)).
Qed.

(** What the report says of the tree below [root], whose reached blocks are
    [order]. *)
Record report_sound (root : block_hash) (seed : Z) (order : list block_hash) (report : TreeQualityReport) : Prop := {
  sound_blocks : sum_block_count (tq_summary report) = len order;
  sound_branches : sum_branch_count (tq_summary report) = len (filter (λ h, branch_at h = true) order);
  sound_edges : sum_edge_count (tq_summary report) = len (order ≫= stored_children store);
  sound_corpus : cr_corpus_size (corpus_tnn_recall report) = len (order ≫= candidates_of store seed);
  sound_findings : sum_structural_finding_count (tq_summary report) = len (tq_findings report);
  sound_cycles : (∃ f, f ∈ tq_findings report ∧ finding_kind f = CycleDetected)
    ↔ ∃ h, rtc (edge store) root h ∧ tc (edge store) h h;
  sound_tree : Forall (λ f, ¬ is_reference f) (tq_findings report)
    ↔ NoDup (root :: (order ≫= stored_children store)) ∧ Forall (present store) (root :: (order ≫= stored_children store))
}.

Lemma sort_by_any_perm {A} (cmp : A → A → comparison) l : sort_by cmp l ≡ₚ l.
Proof. exact (sort_by_perm id cmp l). Qed.

Lemma assess_ends fuel root config order :
  (size U < fuel)%nat → fast_random_walk config = false → enumerates store root order →
  ends (report_sound root (cfg_seed config) order) (assess_rooted_tree_with_config store byte_len clock fuel root config).
Proof using All.
  intros Hf Hslow Horder.
  unfold assess_rooted_tree_with_config. rewrite Hslow.
  eapply ends_bind; [apply ends_check|]. intros _ _.
  eapply (ends_bind (λ _, True)); [apply ends_lift; [by apply final_reject|done]|]. intros _ _.
  eapply (ends_bind (λ _, True)); [apply ends_lift; [by apply final_reject|done]|]. intros _ _.
  eapply (ends_bind (λ found, get root store = Ok found)).
  { apply ends_lift; [by apply final_map_err|]. intros found Hfound. by apply map_err_ok in Hfound. }
  intros found Hget. eapply (ends_bind (λ b, get root store = Ok (Some b))).
  { apply ends_lift; [by apply final_or|]. intros b ->%ok_or_ok. done. }
  intros b Hb. clear found Hget. eapply (ends_bind (λ _, True)).
  { apply ends_lift; [|done]. unfold comparison_embedding_spec_for_block. destruct (vb_block b); [|done].
    apply final_fmap. apply final_bind; [by apply final_map_err|done]. }
  intros spec _.
  eapply (ends_bind (λ t, ∃ n w, walk store root b fuel (cfg_sample_size config) (cfg_seed config) n = (w, Ok ()) ∧ t = tree w)).
  { intros n1. unfold run_traversal. pose proof (get_hash _ _ _ Hb) as Hh.
    pose proof (walk_result_final fuel root b config n1 Hb Hf) as Hfin. unfold walk, start_walk in Hfin. rewrite Hh.
    destruct (traverse_block _ _ _ _ _ _ _) as [w [[]|e]] eqn:Hw; cbn in *; [|by intros ->].
    exists n1, w. split; [exact Hw|done]. }
  intros t (n1&w&Hw&->). intros n2. unfold mbind at 1, stm_bind at 1.
  pose proof (corpus_report_ends fuel root spec (sorted_state (tree w)) config Hf n2) as Hc.
  destruct (build_corpus_tnn_recall_report _ _ _ _ _ _ _ _ n2) as [n3 [corpus|e]] eqn:Hcorpus; [|exact Hc]. cbn [snd mret stm_ret].
  apply corpus_report_size in Hcorpus. cbn [sorted_state corpus_size] in Hcorpus.
  destruct (walk_explored store U U_present root b Hb _ _ _ _ _ Hf Hw) as (new&fs&lost&Hex).
  pose proof (enumerates_perm store U U_present root b Hb _ _ _ _ _ _ _ Horder Hex) as Hp.
  pose proof (cycles_reported store U U_present root b Hb _ _ _ _ _ Hf Hw) as Hcyc.
  pose proof (tree_iff_no_reference_finding store U U_present root b Hb _ _ _ _ _ _ Hf Hw Horder) as Htree.
  destruct Hex as [Vv Vn Vf Vb Vg Vp Vre Vfi Vc Ve Vk Vl Vr Vt Vcs Vs Vz Vss].
  assert (ids new ≫= stored_children store ≡ₚ order ≫= stored_children store) as Hch by (by rewrite Hp).
  assert (ids new ≫= candidates_of store (cfg_seed config) ≡ₚ order ≫= candidates_of store (cfg_seed config)) as Hcand by (by rewrite Hp).
  split; cbn [tq_summary tq_findings corpus_tnn_recall sum_block_count sum_branch_count sum_edge_count
    sum_structural_finding_count sorted_state ts_blocks findings edge_count structural_finding_count].
  - unfold len. rewrite sort_by_any_perm, Vb. cbn. rewrite length_fmap, <-Hp, length_fmap. done.
  - rewrite <-(branch_count new order Vg Hp). unfold len. by rewrite sort_by_any_perm, Vb.
  - rewrite Ve. cbn. unfold len. rewrite Hch. lia.
  - rewrite Hcorpus, Vcs. cbn. unfold len. rewrite Hcand. lia.
  - unfold len. rewrite sort_by_any_perm, Vc, Vfi. unfold len. cbn. lia.
  - rewrite <-Hcyc. pose proof (sort_by_any_perm finding_cmp (findings (tree w))) as Hperm.
    split; intros (f&Hin&Hk); exists f; (split; [|done]); [by rewrite Hperm in Hin|by rewrite Hperm].
  - rewrite <-Htree, sort_by_any_perm, Vfi. cbn. split.
    + intros HF. by apply filter_drop.
    + intros Hnil. apply Forall_forall. intros f Hin Href.
      assert (f ∈ filter is_reference fs) as Hff by (by apply list_elem_of_filter).
      rewrite Hnil in Hff. by apply not_elem_of_nil in Hff.
Qed.

(** C13. Outside the fast random-walk mode, which only samples leaves and counts
    nothing ([fast_random_walk = false]), the assessment of a finite store ends. Its
    summary counts the stored
    blocks that the root reaches, once each, their branches and their
    references; it lists every finding it counted; a cycle is among them exactly
    when a reached block reaches itself, and no reference is among them exactly
    when the snapshot is a tree, every reference leading to a stored block that
    nothing else refers to. *)
Theorem assess_report_sound fuel root config n order :
  (size U < fuel)%nat → fast_random_walk config = false → enumerates store root order →
  match assess_rooted_tree_with_config store byte_len clock fuel root config n with
  | (_, Ok report) => report_sound root (cfg_seed config) order report
  | (_, Err e) => e ≠ QualityRunning
  end.
Proof using All.
  intros Hf Hslow Horder. pose proof (assess_ends fuel root config order Hf Hslow Horder n) as He.
  destruct (assess_rooted_tree_with_config _ _ _ _ _ _ n) as [n' [report|e]]; exact He.
Qed.

(** ** Random walks *)
Definition leaf_sample (root : block_hash) (s : CorpusLeafEntry) : Prop :=
  ∃ v leaf entry, rtc (edge store) root (leaf_block_id s) ∧ get (leaf_block_id s) store = Ok (Some v)
    ∧ vb_block v = BLeaf leaf ∧ entry ∈ lb_entries leaf
    ∧ corpus_entry_from_leaf_result (E := E) (leaf_block_id s) entry (lb_spec leaf) = Ok s.

Lemma corpus_entry_block id entry spec s : corpus_entry_from_leaf_result (E := E) id entry spec = Ok s → leaf_block_id s = id.
Proof.
  intros (values&_&Hs)%result_bind_ok. apply result_bind_ok in Hs as (?&_&Hs). apply result_bind_ok in Hs as (?&_&[= <-]). done.
Qed.

Lemma walk_sample root fuel v seed i depth n n' s : rtc (edge store) root (vb_hash v) → get (vb_hash v) store = Ok (Some v) →
  random_walk_query store fuel (vb_hash v) (vb_block v) seed i depth n = (n', Ok (Some s)) → leaf_sample root s.
Proof.
  revert v depth n. induction fuel as [|fuel IH]; intros v depth n Hr Hv; cbn [random_walk_query]; [done|].
  intros (n1&_&_&Hs)%stm_bind_ok. destruct (vb_block v) as [branch|leaf] eqn:Hb.
  - destruct (bb_entries branch !! _) as [entry|] eqn:He; [|by injection Hs].
    apply stm_bind_ok in Hs as (n2&found&[_ Hf]%lift_ok&Hs). apply map_err_ok in Hf.
    apply stm_bind_ok in Hs as (n3&child&[_ ->%ok_or_ok]%lift_ok&Hs).
    pose proof (get_hash _ _ _ Hf) as Hh. rewrite <-Hh in Hf. refine (IH child _ _ _ Hf Hs).
    eapply rtc_r; [exact Hr|]. unfold edge. rewrite (stored_block _ _ _ Hv), Hb, Hh. cbn.
    apply list_elem_of_fmap. exists entry. split; [done|]. by eapply list_elem_of_lookup_2.
  - destruct (lb_entries leaf !! _) as [entry|] eqn:He; [|by injection Hs].
    destruct (corpus_entry_from_leaf_result (vb_hash v) entry (lb_spec leaf)) as [x|[]] eqn:Hc; try by injection Hs.
    injection Hs as _ ->. pose proof (corpus_entry_block _ _ _ _ Hc) as Hid. exists v, leaf, entry. rewrite Hid.
    split_and!; try done. by eapply list_elem_of_lookup_2.
Qed.

Lemma sample_walks_spec root v fuel attempts i config samples n n' out :
  vb_hash v = root → get root store = Ok (Some v) → sample_walks store fuel attempts i root (vb_block v) config samples n = (n', Ok out) →
  len samples ≤ cfg_sample_size config → NoDup (neighbor_id <$> samples) → Forall (leaf_sample root) samples →
  len out ≤ cfg_sample_size config ∧ NoDup (neighbor_id <$> out) ∧ Forall (leaf_sample root) out.
Proof.
  intros Hroot Hv. revert i samples n. induction attempts as [|attempts IH]; intros i samples n; cbn [sample_walks].
  { intros [= _ <-] ???. done. }
  intros (n1&_&_&Hs)%stm_bind_ok Hl Hnd HF. destruct (Z.leb_spec (cfg_sample_size config) (len samples)); [by injection Hs as _ <-|].
  apply stm_bind_ok in Hs as (n2&sample&Hw&Hs). eapply IH; [exact Hs|..].
  all: destruct sample as [s|]; [|lia || done]; case_bool_decide as Hin; try lia; try done.
  - rewrite len_app. unfold len in *. cbn. lia.
  - rewrite fmap_app. apply NoDup_app. split_and!; [done| |by apply NoDup_singleton].
    intros x Hx ->%list_elem_of_singleton. done.
  - apply Forall_app. split; [done|]. constructor; [|done]. subst root. by eapply walk_sample; [..|exact Hw].
Qed.

(** The fast mode samples at most as many queries as asked for, pairwise
    distinct, and each of them is an entry of a leaf that the root reaches. *)
Theorem random_walks_sample root v fuel config n n' samples :
  get root store = Ok (Some v) → 0 ≤ cfg_sample_size config →
  sample_random_walk_queries store fuel root (vb_block v) config n = (n', Ok samples) →
  len samples ≤ cfg_sample_size config ∧ NoDup (neighbor_id <$> samples) ∧ Forall (leaf_sample root) samples.
Proof.
  intros Hv Hsize Hs. eapply sample_walks_spec; [by eapply get_hash|exact Hv|exact Hs|..]; [done|constructor..].
Qed.

(** A random walk has no guard against cycles, unlike the full walk: below a
    branch that refers to nothing but itself it goes on for ever. *)
Theorem random_walk_in_a_cycle id v branch fuel seed i depth :
  get id store = Ok (Some v) → vb_block v = BBranch branch → bb_entries branch ≠ [] →
  Forall (λ entry, be_child entry = id) (bb_entries branch) →
  random_walk_query store fuel id (vb_block v) seed i depth None = (None, Err QualityRunning).
Proof.
  intros Hv Hb Hne Hself. revert depth. induction fuel as [|fuel IH]; intros depth; [done|].
  cbn [random_walk_query]. rewrite Hb. unfold mbind at 1, stm_bind at 1. cbn [check_poll fmap option_fmap option_map].
  set (index := deterministic_choice_index _ _ _ _ _ _).
  assert (0 ≤ index < len (bb_entries branch)) as Hi.
  { apply Z.mod_pos_bound. pose proof (len_nonneg (bb_entries branch)). rewrite <-(len_zero (bb_entries branch)) in Hne. lia. }
  destruct (lookup_lt_is_Some_2 (bb_entries branch) (Z.to_nat index)) as [entry He]; [unfold len in Hi; lia|]. rewrite He.
  rewrite Forall_lookup in Hself. rewrite (Hself _ _ He), Hv. unfold mbind at 1, stm_bind at 1. cbn [map_err lift].
  unfold mbind at 1, stm_bind at 1. cbn [ok_or lift]. rewrite (get_hash _ _ _ Hv). apply IH.
Qed.

(** Different entries of a leaf can have the same neighbour id: the media
    type and the body are hashed one after the other without a separator. *)
Theorem neighbor_ids_collide id embedding metadata : ∃ a b : LeafEntry,
  le_content a ≠ le_content b ∧ le_embedding a = embedding ∧ le_embedding b = embedding
  ∧ corpus_neighbor_id id a = corpus_neighbor_id id b ∧ le_metadata a = metadata ∧ le_metadata b = metadata.
Proof.
  exists {| le_metadata := metadata; le_embedding := embedding; le_content := {| media_type := "text/plain"; body := as_bytes "x" |} |}.
  exists {| le_metadata := metadata; le_embedding := embedding; le_content := {| media_type := "text/plainx"; body := [] |} |}.
  by split_and!.
Qed.
End report.

(** ** Encoding inverts decoding *)
Lemma le_value_from l : le_value l = from_le_bytes l.
Proof. induction l as [|b l IH]; cbn; [done|]. by rewrite IH. Qed.

Lemma f32_bits_inv z : 0 ≤ z < 2 ^ 32 → is_finite (f32_of_bits z) = true → f32_to_bits (f32_of_bits z) = z.
Proof.
  intros Hz. unfold f32_of_bits. rewrite Z.shiftr_div_pow2 by lia.
  assert (z = (if Z.testbit z 31 then 2 ^ 31 else 0) + (z / 2 ^ 23 mod 2 ^ 8) * 2 ^ 23 + z mod 2 ^ 23
    ∧ 0 ≤ z / 2 ^ 23 mod 2 ^ 8 < 2 ^ 8 ∧ 0 ≤ z mod 2 ^ 23 < 2 ^ 23) as (Hsplit&He&Hf).
  { rewrite Z.testbit_eqb by lia. destruct (Z.eqb_spec ((z / 2 ^ 31) mod 2) 1);
      repeat (split; [|try split]); Z.to_euclidean_division_equations; lia. }
  set (s := Z.testbit z 31) in *. set (e := z / 2 ^ 23 mod 2 ^ 8) in *. set (f := z mod 2 ^ 23) in *.
  destruct (Z.eqb_spec e 255) as [->|Hne]; [by destruct (f =? 0)|]. intros _.
  destruct (Z.eqb_spec e 0) as [->|Hne0].
  - destruct f as [|p|p] eqn:Hp; [|cbn [f32_to_bits]|lia].
    + cbn [f32_to_bits]. destruct s; lia.
    + rewrite (proj2 (Z.ltb_lt _ _)) by lia. destruct s; lia.
  - destruct (2 ^ 23 + f) as [|p|p] eqn:Hp; [lia| |lia]. cbn [f32_to_bits].
    rewrite (proj2 (Z.ltb_ge _ _)) by lia. destruct s; lia.
Qed.

(** The encoder of search targets inverts the decoder: an f32 embedding that
    the assessment accepts is encoded to the bytes that were stored. *)
Theorem encode_decoded_embedding {S} `{BlockStore S} `{HalfToFloat} `{HalfFloat} `{HashDisplay} data spec id values :
  encoding spec = "f32le"%string → Forall is_byte data → decode_embedding_values data spec = Some values →
  finite_values (E := BlockStoreError S) id values = Ok () →
  encode_embedding_values (S := S) values spec id = Ok data.
Proof.
  intros He Hb Hd Hfin. unfold finite_values in Hfin. apply reject_if_ok in Hfin.
  unfold decode_embedding_values in Hd. rewrite bool_decide_eq_true_2 in Hd by done.
  destruct (Z.ltb_spec usize_max (dims spec * 4)); [done|]. cbn [orb] in Hd.
  destruct (Z.eqb_spec (len data) (dims spec * 4)) as [Hlen|]; [|done]. cbn [negb] in Hd. injection Hd as <-.
  destruct (bind_chunks4 (Z.to_nat (dims spec)) data) as (Hback&Hf32&Hn); [unfold len in Hlen; lia|done|].
  set (words := from_le_bytes <$> chunks_exact4 data) in *.
  assert (f32_of_bits ∘ le_value <$> chunks_exact4 data = f32_of_bits <$> words) as Hw.
  { unfold words. rewrite <-list_fmap_compose. apply list_fmap_ext. intros ? l _. cbn. by rewrite le_value_from. }
  rewrite Hw in Hfin |- *. unfold encode_embedding_values.
  assert (len (f32_of_bits <$> words) = dims spec) as ->.
  { unfold len, words. rewrite !length_fmap, Hn. unfold len in Hlen. lia. }
  rewrite Z.eqb_refl, bool_decide_eq_true_2 by done. cbn. f_equal. rewrite <-Hback. clear -Hf32 Hfin.
  induction words as [|z words IH]; [done|]. apply Forall_cons in Hf32 as [Hz Hf32].
  cbn [fmap list_fmap existsb] in Hfin. apply orb_false_iff in Hfin as [Hz' Hfin].
  rewrite fmap_cons, !bind_cons, IH by done. f_equal. rewrite f32_bits_inv; [done|exact Hz|by destruct (is_finite _)].
Qed.
