(* ===== verification/QualityWitness.v ===== *)
(** * The assessment theorems at concrete inputs

    A branch above two leaves that also refers to itself and to a missing block:
    the full walk reports both, and the fast mode samples the leaves. *)

From Stdlib Require Import ZArith Lia.
From stdpp Require Import base gmap sets strings relations option list.
From S2P Require Import Prelude Hex Blocks Runtime Instances Embedding EmbeddingWitness Ingest Replay Floats Diagnostics RequestWitness Search Quality QualityTree QualitySpec QualityTreeSpec QualityReport QualityReportSpec.
#[local] Open Scope Z_scope.
#[local] Existing Instances zero_half no_halves.

(** ** The parameters *)
Abbreviation tree_store := (gmap block_hash Block).
#[local] Instance tree_block_store : BlockStore tree_store := {|
  BlockStoreError := string;
  block_id_of _ := [];
  put_versioned _ s := (s, Err "read only"%string);
  get_decoded h s := Ok (DecodedV1 <$> s !! h)
|}.
#[local] Instance tree_get_block : GetBlock tree_store := λ h s,
  Ok ((λ b, {| vb_hash := h; vb_block := b |}) <$> s !! h).
#[local] Instance tree_get_laws : GetBlockLaws tree_store.
Proof.
  split; unfold get, tree_get_block; intros h s v; cbn.
  - destruct (s !! h); [by intros [= <-]|done].
  - destruct (s !! h); [by intros [= ->]|done].
Qed.
(** No compressed embeddings: a branch stores the values of its children. *)
#[local] Instance plain_branches : Ebcp := {|
  Extension := unit; branch_ext _ := None; EbcpDescriptor := unit; logical_embedding_spec _ := {| dims := 0; encoding := "" |};
  parse_branch_ebcp_descriptor _ _ := Ok None;
  reconstruct_logical_branch_embedding_f32 data spec _ := ok_or (decode_embedding_values data spec) "does not decode"%string
|}.
#[local] Instance finds_nothing {E} : Searcher E := λ _ _ _ _ _, ([], Ok []).
#[local] Instance in_map_order : HashIteration := λ _ m, map_to_list m.

(** ** The snapshot *)
Definition one_dim : EmbeddingSpec := {| dims := 1; encoding := "f32le" |}.
Definition one_bytes : bytes := [0; 0; 128; 63].
Definition two_bytes : bytes := [0; 0; 0; 64].
Definition leaf_entry (text : string) (embedding : bytes) : LeafEntry :=
  {| le_metadata := []; le_embedding := embedding; le_content := {| media_type := "text/plain"; body := as_bytes text |} |}.
Definition leaf_with (entries : list LeafEntry) : Block :=
  BLeaf {| lb_level := 0; lb_type_name := "leaf"; lb_spec := one_dim; lb_entries := entries |}.
Definition root_id : block_hash := [1].
Definition root_block : Block :=
  BBranch {| bb_level := 1; bb_type_name := "branch"; bb_spec := one_dim;
             bb_entries := [{| be_child := [2]; be_embedding := one_bytes |}; {| be_child := [3]; be_embedding := two_bytes |};
                            {| be_child := [1]; be_embedding := one_bytes |}; {| be_child := [4]; be_embedding := one_bytes |}] |}.
Definition snapshot : tree_store :=
  {[[1] := root_block; [2] := leaf_with [leaf_entry "a" one_bytes; leaf_entry "b" two_bytes]; [3] := leaf_with [leaf_entry "c" two_bytes]]}.
Definition ids_of_snapshot : gset block_hash := dom snapshot.

Lemma snapshot_ids h b : get h snapshot = Ok (Some b) → h ∈ ids_of_snapshot.
Proof.
  unfold get, tree_get_block. intros Hget. injection Hget as Hget. apply fmap_Some in Hget as (x&Hx&_).
  by apply elem_of_dom_2 in Hx.
Qed.
Definition validated_root : ValidatedBlock := {| vb_hash := root_id; vb_block := root_block |}.
Lemma root_found : get root_id snapshot = Ok (Some validated_root).
Proof. reflexivity. Qed.
Lemma enough_fuel : (size ids_of_snapshot < 4)%nat.
Proof. vm_compute. lia. Qed.

(** ** The blocks that the root reaches *)
Definition reached_order : list block_hash := [[1]; [2]; [3]].
Lemma snapshot_children h : stored_children snapshot h = if decide (h = [1]) then [[2]; [3]; [1]; [4]] else [].
Proof.
  destruct (decide (h = [1])) as [->|H1]; [reflexivity|]. unfold stored_children, get, tree_get_block, snapshot.
  rewrite lookup_insert_ne by done.
  destruct (decide (h = [2])) as [->|H2]; [reflexivity|]. rewrite lookup_insert_ne by done.
  destruct (decide (h = [3])) as [->|H3]; [reflexivity|]. by rewrite lookup_singleton_ne by done.
Qed.
Lemma snapshot_enumerates : enumerates snapshot root_id reached_order.
Proof.
  split; [apply (bool_decide_unpack _); vm_compute; exact I|]. intros h. split.
  - intros Hin. split.
    + unfold reached_order in Hin. rewrite !elem_of_cons in Hin.
      destruct Hin as [->|[->|[->|Hin]]]; [done| | |by apply not_elem_of_nil in Hin];
        apply rtc_once; unfold edge, root_id; rewrite snapshot_children; rewrite decide_True by done; set_solver.
    + unfold reached_order in Hin. rewrite !elem_of_cons in Hin.
      destruct Hin as [->|[->|[->|Hin]]]; [by eexists..|by apply not_elem_of_nil in Hin].
  - intros [_ [b Hb]]. apply snapshot_ids in Hb.
    assert (ids_of_snapshot = {[ [1]; [2]; [3] ]}) as Hids by (apply (bool_decide_unpack _); vm_compute; exact I).
    rewrite Hids in Hb. set_solver.
Qed.

(** ** The witnesses *)
Abbreviation walked := (walk snapshot root_id validated_root 4 2 7 None).
Lemma walked_ok : walked = (walked.1, Ok ()).
Proof. vm_compute. reflexivity. Qed.

Lemma traversal_exact_witness :
  structural_finding_count (tree walked.1) = 2 ∧ structural_finding_count (tree walked.1) = len (findings (tree walked.1)).
Proof.
  split; [vm_compute; reflexivity|].
  pose proof (traversal_exact snapshot ids_of_snapshot snapshot_ids root_id validated_root root_found 4 2 7 None enough_fuel) as Hw.
  rewrite walked_ok in Hw. destruct Hw as (new&lost&_&_&_&_&_&_&_&_&_&Hcount). exact Hcount.
Defined.

Lemma corpus_sample_smallest_witness :
  corpus_size (tree walked.1) = 3 ∧ len (sample_candidates (tree walked.1)) = 2
  ∧ corpus_size (tree walked.1) = len (reached_order ≫= candidates_of snapshot 7).
Proof.
  split; [vm_compute; reflexivity|]. split; [vm_compute; reflexivity|].
  destruct (corpus_sample_smallest snapshot ids_of_snapshot snapshot_ids root_id validated_root root_found 4 2 7 None walked.1 reached_order
    enough_fuel walked_ok snapshot_enumerates) as (_&_&Hsize&_). exact Hsize.
Defined.

Definition full_config : TnnRecallConfig := {| cfg_sample_size := 2; cfg_seed := 7; cfg_traversal_width := 3; fast_random_walk := false |}.
Abbreviation assessed := (assess_rooted_tree_with_config snapshot (λ _, 100) (λ _, 5) 4 root_id full_config None).
Definition assessed_report : option TreeQualityReport := match assessed.2 with Ok r => Some r | Err _ => None end.
Lemma assess_report_sound_witness : ∃ report, assessed = (assessed.1, Ok report)
  ∧ sum_block_count (tq_summary report) = 3 ∧ ∃ f, f ∈ tq_findings report ∧ finding_kind f = CycleDetected.
Proof.
  pose proof (assess_report_sound snapshot (λ _, 100) (λ _, 5) ids_of_snapshot snapshot_ids 4 root_id full_config None reached_order
    enough_fuel eq_refl snapshot_enumerates) as Hs.
  destruct assessed as [n [report|e]] eqn:Ha.
  - exists report. split; [done|]. destruct Hs as [Hb _ _ _ _ Hc _]. split; [exact Hb|]. apply Hc. exists root_id.
    split; [done|]. apply tc_once. unfold edge, root_id. rewrite snapshot_children, decide_True by done. apply (bool_decide_unpack _). vm_compute. exact I.
  - exfalso. assert (is_ok assessed.2 = true) as Hok by (vm_compute; reflexivity). by rewrite Ha in Hok.
Defined.

Definition fast_config : TnnRecallConfig := {| cfg_sample_size := 3; cfg_seed := 7; cfg_traversal_width := 3; fast_random_walk := true |}.
(** Below the first leaf alone. *)
Definition first_leaf : ValidatedBlock := {| vb_hash := [2]; vb_block := leaf_with [leaf_entry "a" one_bytes; leaf_entry "b" two_bytes] |}.
Abbreviation sampled := (sample_random_walk_queries snapshot 4 [2] (vb_block first_leaf) fast_config None).
Definition samples : list CorpusLeafEntry := match sampled.2 with Ok l => l | Err _ => [] end.
Lemma sampled_ok : sampled = (sampled.1, Ok samples).
Proof. vm_compute. reflexivity. Qed.
Lemma random_walks_sample_witness : len samples = 1 ∧ len samples ≤ 3 ∧ NoDup (neighbor_id <$> samples).
Proof.
  split; [vm_compute; reflexivity|].
  destruct (random_walks_sample snapshot [2] first_leaf 4 fast_config None sampled.1 samples) as (Hl&Hn&_).
  - reflexivity.
  - cbn. lia.
  - exact sampled_ok.
  - split; [exact Hl|exact Hn].
Defined.

(** A branch that refers to itself only. *)
Definition loop_branch : BranchBlock :=
  {| bb_level := 1; bb_type_name := "branch"; bb_spec := one_dim; bb_entries := [{| be_child := [9]; be_embedding := one_bytes |}] |}.
Definition loop_store : tree_store := {[[9] := BBranch loop_branch]}.
Lemma random_walk_in_a_cycle_witness :
  random_walk_query loop_store 1000 [9] (BBranch loop_branch) 0 0 0 None = (None, Err QualityRunning).
Proof.
  apply (random_walk_in_a_cycle loop_store [9] {| vb_hash := [9]; vb_block := BBranch loop_branch |} loop_branch).
  - reflexivity.
  - reflexivity.
  - discriminate.
  - by repeat constructor.
Defined.

Lemma encode_decoded_embedding_witness :
  encode_embedding_values (S := tree_store) [f32_of_bits 1065353216] one_dim [] = Ok one_bytes.
Proof.
  apply (encode_decoded_embedding (S := tree_store)).
  - reflexivity.
  - repeat constructor; unfold is_byte; lia.
  - reflexivity.
  - reflexivity.
Defined.
