(* ===== verification/Commands.v ===== *)
(** * The indexer's commands ([lexonarchivebuilder-indexer], main.rs)

    What a command does before it calls the library: the stores that its
    arguments stand for and how they are opened, the embedding provider of a
    search, how a copy checkpoints, the exit codes and the report paths, and
    whether the interrupt handler is armed. [clap] parses the arguments; what it
    requires of them is [clap_ok], and a missing required argument is the panic
    of an [expect], [None]. The theorem is at the end. *)

From Stdlib Require Import ZArith Lia Ascii.
From stdpp Require Import base gmap sets strings sorting option list.
From S2P Require Import Prelude Hex Blocks Text BlockCopy Items Mailbox Http3 Config Embedding StoreSelect Request Search QualityReport.
#[local] Open Scope Z_scope.

Definition STRUCTURAL_FINDINGS_EXIT_CODE : Z := 2.
Definition COPY_FAILURES_EXIT_CODE : Z := 3.

(** ** Arguments *)
Inductive ReadableBlockStoreProfile := ReadLocal | ReadLocalRedb | ReadProduction | ReadProductionV2 | ReadGatewayHttp3.
#[export] Instance ReadableBlockStoreProfile_eq_dec : EqDecision ReadableBlockStoreProfile.
Proof. solve_decision. Defined.
Inductive WritableBlockStoreProfile := WriteLocal | WriteLocalRedb | WriteProduction | WriteProductionV2.
#[export] Instance WritableBlockStoreProfile_eq_dec : EqDecision WritableBlockStoreProfile.
Proof. solve_decision. Defined.
Definition as_cli_value (profile : ReadableBlockStoreProfile) : string :=
  match profile with
  | ReadLocal => "local" | ReadLocalRedb => "local-redb" | ReadProduction => "production"
  | ReadProductionV2 => "production-v2" | ReadGatewayHttp3 => "gateway-http3"
  end.

(** The three structs of arguments for a store that is read or compacted differ
    in the names of their options and in the default profile. *)
Record BlockStoreArgs := {
  block_store_profile : ReadableBlockStoreProfile;
  block_store_root : option string;
  block_store_container_sas_url : option string;
  block_store_gateway_dns_name : option string;
  block_store_filesystem_cache_root : option string;
  block_store_memory_cache_max_resident_blocks : option Z;
  block_store_prefix : option string
}.
Definition MaintenanceBlockStoreArgs : Type := BlockStoreArgs.
Definition SourceBlockStoreArgs : Type := BlockStoreArgs.
Record DestinationBlockStoreArgs := {
  destination_block_store_profile : WritableBlockStoreProfile;
  destination_block_store_root : option string;
  destination_block_store_container_sas_url : option string;
  destination_block_store_filesystem_cache_root : option string;
  destination_block_store_memory_cache_max_resident_blocks : option Z;
  destination_block_store_prefix : option string
}.

Inductive Command :=
| CommandRun (request : string) (summary_out : option string) (stage : option ExecutionStage) (validate_only : bool)
    (clustering : ClusteringConfigOverrides)
| CommandQuality (root_id : string) (config : TnnRecallConfig) (json_out : option string) (block_store : BlockStoreArgs)
| CommandSearch (query root_id : string) (top_k traversal_width : Z) (embedding_endpoint : option string) (embedding_model : string)
    (embedding_api_key_env : option string) (embedding_request_timeout_secs embedding_max_retries embedding_retry_delay_ms : Z)
    (json_out : option string) (block_store : BlockStoreArgs)
| CommandCopy (root_ids : list string) (blind_write : bool) (worker_threads max_in_flight_destination_writes : Z)
    (json_out : option string) (source_block_store : SourceBlockStoreArgs) (destination_block_store : DestinationBlockStoreArgs)
| CommandCompact (block_store : MaintenanceBlockStoreArgs).

(** [parse_positive_usize] and [parse_bounded_worker_threads]: the parsers of two
    options. *)
Definition parse_positive_usize (value : string) : result string Z :=
  parsed ← ok_or (parse_usize value) ("invalid positive integer: " +:+ value);
  if parsed =? 0 then Err "value must be greater than zero"%string else Ok parsed.
Definition parse_bounded_worker_threads (available_parallelism : option Z) (value : string) : result string Z :=
  parsed ← parse_positive_usize value;
  let max_worker_threads := default 1 available_parallelism in
  if max_worker_threads <? parsed
  then Err ("value must be no greater than available parallelism (" +:+ fmt_usize max_worker_threads +:+ ")")
  else Ok parsed.

(** [strip_suffix] and [trim_end_matches('/')]. *)
Definition normalize_embedding_base_url (endpoint : string) : string :=
  let trimmed := trim_end_slashes (trim endpoint) in
  let l := as_bytes trimmed in
  let suffix := as_bytes "/v1/embeddings" in
  if ends_with suffix l then of_bytes (take (length l - length suffix)%nat l) else trimmed.

(** [anyhow::Error]: a message, or the error of the library with its context. *)
Inductive CommandError (E : Type) :=
| CommandStore (context : string) (source : E)
| CommandProvider (source : ConfiguredEmbeddingProviderError)
| CommandMessage (message : string)
| CommandRootId (v : string)
| CommandReadRequest (path : string) (source : io_error)
| CommandParseRequest (path source : string).
Arguments CommandStore {E} context source.
Arguments CommandProvider {E} source.
Arguments CommandMessage {E} message.
Arguments CommandRootId {E} v.
Arguments CommandReadRequest {E} path source.
Arguments CommandParseRequest {E} path source.

(** ** Environments *)
Definition unused_local_embedding : LocalEmbeddingConfig :=
  {| base_url := "http://unused.local"; model := DEFAULT_LOCAL_EMBEDDING_MODEL; local_api_key_env := None;
     request_timeout_secs := DEFAULT_REQUEST_TIMEOUT_SECS; max_retries := DEFAULT_MAX_RETRIES; retry_delay_ms := DEFAULT_RETRY_DELAY_MS |}.
Definition unused_production_embedding : ProductionEmbeddingConfig :=
  {| endpoint := "https://unused.production.example"; deployment := "unused"; api_version := "2024-02-01"; production_api_key_env := None |}.

Section commands.
Context {E : Type} `{StoreErrors E}.
Abbreviation error := (CommandError E).

Definition block_store_environment_config (profile : ReadableBlockStoreProfile) (root container_sas_url filesystem_cache_root : option string)
    (memory_cache_max_resident_blocks : option Z) (prefix : option string) : option (result error EnvironmentConfig) :=
  let production url :=
    {| container_sas_url := url; filesystem_cache_root := filesystem_cache_root;
       memory_cache_max_resident_blocks := memory_cache_max_resident_blocks; prefix := prefix |} in
  match profile with
  | ReadLocal => root ← root; Some (Ok (Local root unused_local_embedding))
  | ReadLocalRedb => root ← root; Some (Ok (LocalRedb root unused_local_embedding))
  | ReadProduction => url ← container_sas_url; Some (Ok (Production (production url) unused_production_embedding))
  | ReadProductionV2 => url ← container_sas_url; Some (Ok (ProductionV2 (production url) unused_production_embedding))
  | ReadGatewayHttp3 =>
      Some (Err (CommandMessage "gateway-http3 is a read-only block-store profile and does not map to EnvironmentConfig"))
  end.
Definition try_environment_config (args : BlockStoreArgs) : option (result error EnvironmentConfig) :=
  block_store_environment_config (block_store_profile args) (block_store_root args) (block_store_container_sas_url args)
    (block_store_filesystem_cache_root args) (block_store_memory_cache_max_resident_blocks args) (block_store_prefix args).

Definition readable_profile (profile : WritableBlockStoreProfile) : ReadableBlockStoreProfile :=
  match profile with
  | WriteLocal => ReadLocal | WriteLocalRedb => ReadLocalRedb | WriteProduction => ReadProduction | WriteProductionV2 => ReadProductionV2
  end.
Definition destination_block_store_environment_config (profile : WritableBlockStoreProfile)
    (root container_sas_url filesystem_cache_root : option string) (memory_cache_max_resident_blocks : option Z) (prefix : option string)
    : option EnvironmentConfig :=
  r ← block_store_environment_config (readable_profile profile) root container_sas_url filesystem_cache_root
        memory_cache_max_resident_blocks prefix;
  result_option r.
Definition to_environment_config (args : DestinationBlockStoreArgs) : option EnvironmentConfig :=
  destination_block_store_environment_config (destination_block_store_profile args) (destination_block_store_root args)
    (destination_block_store_container_sas_url args) (destination_block_store_filesystem_cache_root args)
    (destination_block_store_memory_cache_max_resident_blocks args) (destination_block_store_prefix args).

(** ** Stores *)
Context (open_store : ConfiguredBlockStore → result E unit) (open_layer : OverlayStoreLayer → result E unit).
Context (memory_error_text : Z → result string unit) (overlay_new : list OverlayStoreLayer → result string unit).
Context (transport : result string unit) (config_error_text : ConfigError → string).
Context (env : string → option string) (build_client : Z → result string unit).
Abbreviation opening A := (option (result error A)).

(** [?] on a result that may be a panic. *)
Definition and_then {A B} (m : opening A) (k : A → opening B) : opening B :=
  match m with Some (Ok a) => k a | Some (Err e) => Some (Err e) | None => None end.

Definition configured_block_store_from_environment (environment : EnvironmentConfig) : opening ConfiguredBlockStore :=
  map_err (CommandStore "failed to configure block store") <$>
    from_environment_with_redb_read_only open_store open_layer memory_error_text overlay_new config_error_text "." environment.
Definition read_gateway_store (context : string) (args : BlockStoreArgs) : opening ConfiguredBlockStore :=
  dns_name ← block_store_gateway_dns_name args;
  Some (map_err (CommandStore context) (gateway_http3_store transport dns_name)).

Definition configured_block_store (args : BlockStoreArgs) : opening ConfiguredBlockStore :=
  match block_store_profile args with
  | ReadGatewayHttp3 => read_gateway_store "failed to configure gateway-http3 block store" args
  | _ => and_then (try_environment_config args) configured_block_store_from_environment
  end.
Definition configured_source_block_store (args : SourceBlockStoreArgs) : opening ConfiguredBlockStore :=
  match block_store_profile args with
  | ReadGatewayHttp3 => read_gateway_store "failed to configure gateway-http3 source block store" args
  | _ => and_then (try_environment_config args) configured_block_store_from_environment
  end.
Definition configured_maintenance_block_store (args : MaintenanceBlockStoreArgs) : opening ConfiguredBlockStore :=
  match block_store_profile args with
  | ReadGatewayHttp3 => read_gateway_store "failed to configure gateway-http3 block store" args
  | _ => and_then (try_environment_config args) (λ environment,
      map_err (CommandStore "failed to configure block store") <$>
        from_environment_with_redb_durability open_store open_layer memory_error_text overlay_new config_error_text "." environment "Durable")
  end.
Definition configured_destination_block_store (args : DestinationBlockStoreArgs) (blind_write : bool) : opening ConfiguredBlockStore :=
  environment ← to_environment_config args;
  map_err (CommandStore "failed to configure block store") <$>
    from_environment_with_redb_durability open_store open_layer memory_error_text overlay_new config_error_text "." environment
      (if blind_write then "Fast" else "Durable").

Definition configured_search_embedding_provider (block_store : BlockStoreArgs) (embedding_endpoint : option string)
    (embedding_model : string) (embedding_api_key_env : option string)
    (embedding_request_timeout_secs embedding_max_retries embedding_retry_delay_ms : Z) : result error ConfiguredEmbeddingProvider :=
  match block_store_profile block_store with
  | ReadGatewayHttp3 =>
      reject_if (is_some embedding_endpoint)
        (CommandMessage "--embedding-endpoint is not supported with --block-store-profile gateway-http3") ;;
      reject_if (is_some embedding_api_key_env)
        (CommandMessage "--embedding-api-key-env is not supported with --block-store-profile gateway-http3") ;;
      dns_name ← ok_or (block_store_gateway_dns_name block_store)
        (CommandMessage "--block-store-gateway-dns-name is required with --block-store-profile gateway-http3");
      map_err CommandProvider (gateway_http3 (E := E) transport dns_name embedding_model embedding_max_retries
        embedding_retry_delay_ms embedding_request_timeout_secs)
  | _ =>
      endpoint ← ok_or embedding_endpoint
        (CommandMessage "--embedding-endpoint is required unless --block-store-profile gateway-http3 is selected");
      map_err CommandProvider (from_environment env build_client (Local "."
        {| base_url := normalize_embedding_base_url endpoint; model := embedding_model; local_api_key_env := embedding_api_key_env;
           request_timeout_secs := embedding_request_timeout_secs; max_retries := embedding_max_retries;
           retry_delay_ms := embedding_retry_delay_ms |}))
  end.

(** ** Preparing a command

    What the library is called with: [PreparedRun] runs or validates the request
    file; a copy has its mode, limits and, for a blind write into a redb
    database, a compaction of the destination every so many blocks. *)
Inductive PreparedCommand :=
| PreparedRun (request : string) (stage : option ExecutionStage) (clustering : ClusteringConfigOverrides) (summary_out : option string)
    (validate_only : bool)
| PreparedQuality (root_id : block_hash) (store : ConfiguredBlockStore) (config : TnnRecallConfig)
| PreparedSearch (root_id : block_hash) (store : ConfiguredBlockStore) (provider : ConfiguredEmbeddingProvider) (query : string)
    (top_k traversal_width : Z)
| PreparedCopy (root_ids : list block_hash) (source destination : ConfiguredBlockStore) (mode : CopyDestinationMode)
    (max_in_flight_destination_writes worker_threads : Z) (checkpoint_interval : option Z)
| PreparedCompact (store : ConfiguredBlockStore).

Definition is_local_redb (store : ConfiguredBlockStore) : bool := match store with LocalRedbStore _ _ _ => true | _ => false end.
Definition root_of (value : string) : result error block_hash := ok_or (decode_hash value) (CommandRootId value).

Definition prepare_command (command : Command) : opening PreparedCommand :=
  match command with
  | CommandRun request summary_out stage validate_only clustering =>
      Some (Ok (PreparedRun request stage clustering summary_out validate_only))
  | CommandQuality root_id config json_out block_store =>
      and_then (Some (root_of root_id)) (λ root_id,
      and_then (configured_block_store block_store) (λ store,
      Some (Ok (PreparedQuality root_id store config))))
  | CommandSearch query root_id top_k traversal_width endpoint model api_key_env timeout retries delay json_out block_store =>
      and_then (Some (root_of root_id)) (λ root_id,
      and_then (configured_block_store block_store) (λ store,
      and_then (Some (configured_search_embedding_provider block_store endpoint model api_key_env timeout retries delay)) (λ provider,
      Some (Ok (PreparedSearch root_id store provider query top_k traversal_width)))))
  | CommandCopy root_ids blind_write worker_threads max_writes json_out source_args destination_args =>
      and_then (Some (result_mapM root_of root_ids)) (λ root_ids,
      and_then (configured_source_block_store source_args) (λ source,
      and_then (configured_destination_block_store destination_args blind_write) (λ destination,
      Some (Ok (PreparedCopy root_ids source destination (if blind_write then BlindWrite else ReadBeforeWrite) max_writes worker_threads
        (if blind_write && is_local_redb destination then Some BLIND_WRITE_REDB_COMPACTION_INTERVAL_BLOCKS else None))))))
  | CommandCompact block_store =>
      and_then (configured_maintenance_block_store block_store) (λ store, Some (Ok (PreparedCompact store)))
  end.

(** Whether a graceful interrupt handler is installed first. *)
Definition request_uses_direct_local_redb `{RequestJson} (fs : files) (request_path : string) : result error bool :=
  request_bytes ← map_err (CommandReadRequest request_path) (read_file fs request_path);
  request ← map_err (CommandParseRequest request_path) (request_from_slice request_bytes);
  Ok (match environment request with LocalRedb _ _ => true | _ => false end).
Definition command_uses_direct_local_redb `{RequestJson} (fs : files) (command : Command) : result error bool :=
  match command with
  | CommandRun request _ _ validate_only _ => if validate_only then Ok false else request_uses_direct_local_redb fs request
  | CommandQuality _ _ _ block_store | CommandSearch _ _ _ _ _ _ _ _ _ _ _ block_store | CommandCompact block_store =>
      Ok (bool_decide (block_store_profile block_store = ReadLocalRedb))
  | CommandCopy _ _ _ _ _ source destination =>
      Ok (bool_decide (block_store_profile source = ReadLocalRedb)
          || bool_decide (destination_block_store_profile destination = WriteLocalRedb))
  end.

(** ** Results *)
Definition quality_exit_code (report : TreeQualityReport) : option Z :=
  if 0 <? sum_structural_finding_count (tq_summary report) then Some STRUCTURAL_FINDINGS_EXIT_CODE else None.
Definition copy_exit_code (report : RootedBlockCopyReport) : option Z :=
  if 0 <? report_failed_block_count report then Some COPY_FAILURES_EXIT_CODE else None.

Definition format_copy_liveness_message (root_count elapsed_secs : Z) (progress : RootedBlockCopyProgressSnapshot) : string :=
  let counted label count := match count with Some count => [label +:+ fmt_usize count] | None => [] end in
  let details :=
    ["read " +:+ fmt_usize (snapshot_read_source_block_count progress)]
    ++ counted "copied "%string (snapshot_copied_block_count progress)
    ++ counted "skipped "%string (snapshot_skipped_already_present_block_count progress)
    ++ counted "attempted "%string (snapshot_attempted_write_block_count progress)
    ++ ["failed " +:+ fmt_usize (snapshot_failed_block_count progress)] in
  "Rooted block copy still running after " +:+ fmt_usize elapsed_secs +:+ "s for " +:+ fmt_usize root_count
    +:+ " requested root(s): " +:+ join ", " details +:+ "...".
Definition rust_log_requested_with (value : option string) : bool :=
  match value with Some filter => negb (blank filter) | None => false end.
End commands.

(** ** The stores that a command opens *)
Section opened.
Context {E : Type} `{StoreErrors E} `{RequestJson}.
Context (open_store : ConfiguredBlockStore → result E unit) (open_layer : OverlayStoreLayer → result E unit).
Context (memory_error_text : Z → result string unit) (overlay_new : list OverlayStoreLayer → result string unit).
Context (transport : result string unit) (config_error_text : ConfigError → string).
Context (env : string → option string) (build_client : Z → result string unit).
Abbreviation prepared := (prepare_command open_store open_layer memory_error_text overlay_new transport config_error_text env build_client).

(** [required_if_eq] of the options. *)
Definition read_args_ok (args : BlockStoreArgs) : bool :=
  match block_store_profile args with
  | ReadLocal | ReadLocalRedb => is_some (block_store_root args)
  | ReadProduction => is_some (block_store_container_sas_url args) && is_some (block_store_filesystem_cache_root args)
      && is_some (block_store_memory_cache_max_resident_blocks args)
  | ReadProductionV2 => is_some (block_store_container_sas_url args)
  | ReadGatewayHttp3 => is_some (block_store_gateway_dns_name args)
  end.
Definition destination_args_ok (args : DestinationBlockStoreArgs) : bool :=
  match destination_block_store_profile args with
  | WriteLocal | WriteLocalRedb => is_some (destination_block_store_root args)
  | WriteProduction => is_some (destination_block_store_container_sas_url args) && is_some (destination_block_store_filesystem_cache_root args)
      && is_some (destination_block_store_memory_cache_max_resident_blocks args)
  | WriteProductionV2 => is_some (destination_block_store_container_sas_url args)
  end.
Definition clap_ok (command : Command) : bool :=
  match command with
  | CommandRun _ _ _ _ _ => true
  | CommandQuality _ _ _ args | CommandSearch _ _ _ _ _ _ _ _ _ _ _ args | CommandCompact args => read_args_ok args
  | CommandCopy _ _ _ _ _ source destination => read_args_ok source && destination_args_ok destination
  end.

(** The store of the arguments, relative to the current directory. *)
Definition opened_by (mode : RedbMode) (args : BlockStoreArgs) (store : ConfiguredBlockStore) : Prop :=
  match block_store_profile args with
  | ReadGatewayHttp3 => ∃ dns_name name, block_store_gateway_dns_name args = Some dns_name
      ∧ validate_dns_name (E := E) dns_name = Ok name ∧ store = GatewayHttp3 name
  | _ => ∃ environment, try_environment_config (E := E) args = Some (Ok environment) ∧ store_matches "." mode environment store
  end.
Definition stores_of (p : PreparedCommand) : list ConfiguredBlockStore :=
  match p with
  | PreparedRun _ _ _ _ _ => []
  | PreparedQuality _ store _ | PreparedSearch _ store _ _ _ _ | PreparedCompact store => [store]
  | PreparedCopy _ source destination _ _ _ _ => [source; destination]
  end.

(** What the library is called with. *)
Definition prepares (command : Command) (p : PreparedCommand) : Prop :=
  match command, p with
  | CommandRun request summary_out stage validate_only clustering, PreparedRun request' stage' clustering' summary_out' validate_only' =>
      request' = request ∧ stage' = stage ∧ clustering' = clustering ∧ summary_out' = summary_out ∧ validate_only' = validate_only
  | CommandQuality root_id config _ args, PreparedQuality h store config' =>
      decode_hash root_id = Some h ∧ config' = config ∧ opened_by RedbReadOnlyMode args store
  | CommandSearch query root_id top_k width _ _ _ _ _ _ _ args, PreparedSearch h store _ query' top_k' width' =>
      decode_hash root_id = Some h ∧ query' = query ∧ top_k' = top_k ∧ width' = width ∧ opened_by RedbReadOnlyMode args store
  | CommandCopy root_ids blind_write threads writes _ source_args destination_args,
      PreparedCopy hs source destination mode writes' threads' interval =>
      Forall2 (λ value h, decode_hash value = Some h) root_ids hs ∧ threads' = threads ∧ writes' = writes
      ∧ opened_by RedbReadOnlyMode source_args source
      ∧ (∃ environment, to_environment_config (E := E) destination_args = Some environment
           ∧ store_matches "." (RedbDurability (if blind_write then "Fast" else "Durable")) environment destination)
      ∧ mode = (if blind_write then BlindWrite else ReadBeforeWrite)
      ∧ (is_Some interval ↔ blind_write = true ∧ is_local_redb destination = true)
  | CommandCompact args, PreparedCompact store => opened_by Durable args store
  | _, _ => False
  end.

(** A computation that is no panic, and what its value satisfies. *)
Definition gives {A} (P : A → Prop) (m : option (result (CommandError E) A)) : Prop :=
  ∃ r, m = Some r ∧ ∀ a, r = Ok a → P a.
Lemma gives_bind {A B} (P : A → Prop) (Q : B → Prop) m (k : A → option (result (CommandError E) B)) :
  gives P m → (∀ a, P a → gives Q (k a)) → gives Q (and_then m k).
Proof using Type. intros (r&->&Hr) Hk. destruct r as [a|e]; cbn; [by apply Hk, Hr|]. by exists (Err e). Qed.
Lemma gives_some {A} (P : A → Prop) r : (∀ a, r = Ok a → P a) → gives P (Some r).
Proof using Type. intros Hr. by exists r. Qed.

Lemma gives_environment mode redb context environment :
  (∀ root, redb root = redb_store open_store "." root mode) →
  gives (store_matches "." mode environment) (map_err (CommandStore context) <$>
    store_of_environment open_store open_layer memory_error_text overlay_new config_error_text redb "." environment).
Proof using Type.
  intros Hredb. destruct (environment_matches open_store open_layer memory_error_text overlay_new config_error_text redb mode "."
    environment Hredb) as (r&Hr&Hs). rewrite Hr. apply gives_some. intros store ?%map_err_ok. by apply Hs.
Qed.
Lemma gives_gateway context args mode : block_store_profile args = ReadGatewayHttp3 → read_args_ok args = true →
  gives (opened_by mode args) (read_gateway_store transport context args).
Proof using Type.
  intros Hp Hok. unfold read_args_ok in Hok. unfold opened_by, read_gateway_store. rewrite Hp in Hok |- *.
  destruct (block_store_gateway_dns_name args) as [dns_name|]; [|done]. apply gives_some. intros store Hs%map_err_ok.
  unfold gateway_http3_store in Hs. apply result_bind_ok in Hs as (name&Hn%map_err_ok&[= <-]).
  unfold gateway_client_new in Hn. apply result_bind_ok in Hn as (n&Hn%map_err_ok&Hr). apply result_seq_ok in Hr as [_ [= ->]].
  by exists dns_name, name.
Qed.
Lemma args_environment args : block_store_profile args ≠ ReadGatewayHttp3 → read_args_ok args = true →
  ∃ environment, try_environment_config (E := E) args = Some (Ok environment)
    ∧ (match environment with LocalRedb _ _ => true | _ => false end) = bool_decide (block_store_profile args = ReadLocalRedb).
Proof using Type.
  intros Hp Hok. unfold read_args_ok in Hok. unfold try_environment_config, block_store_environment_config.
  destruct (block_store_profile args); try done;
    destruct (block_store_root args), (block_store_container_sas_url args); try done; by eexists.
Qed.
Lemma gives_args mode args (k : EnvironmentConfig → option (result (CommandError E) ConfiguredBlockStore)) context :
  read_args_ok args = true → (∀ environment, gives (store_matches "." mode environment) (k environment)) →
  gives (opened_by mode args)
    (match block_store_profile args with
     | ReadGatewayHttp3 => read_gateway_store transport context args
     | _ => and_then (try_environment_config args) k
     end).
Proof using Type.
  intros Hok Hk. destruct (decide (block_store_profile args = ReadGatewayHttp3)) as [Hp|Hp].
  { rewrite Hp. by apply gives_gateway. }
  destruct (args_environment args Hp Hok) as (environment&He&_).
  assert (gives (opened_by mode args) (and_then (try_environment_config args) k)) as Hg.
  { rewrite He. cbn [and_then]. destruct (Hk environment) as (r&Hr&Hs). exists r. split; [done|]. intros store Hstore.
    specialize (Hs store Hstore). unfold opened_by. destruct (block_store_profile args); try done; by exists environment. }
  by destruct (block_store_profile args).
Qed.
Lemma gives_read args : read_args_ok args = true →
  gives (opened_by RedbReadOnlyMode args)
    (configured_block_store open_store open_layer memory_error_text overlay_new transport config_error_text args).
Proof using Type. intros Hok. apply gives_args; [done|]. intros environment. by apply gives_environment. Qed.
Lemma gives_source args : read_args_ok args = true →
  gives (opened_by RedbReadOnlyMode args)
    (configured_source_block_store open_store open_layer memory_error_text overlay_new transport config_error_text args).
Proof using Type. intros Hok. apply gives_args; [done|]. intros environment. by apply gives_environment. Qed.
Lemma gives_maintenance args : read_args_ok args = true →
  gives (opened_by Durable args)
    (configured_maintenance_block_store open_store open_layer memory_error_text overlay_new transport config_error_text args).
Proof using Type. intros Hok. apply gives_args; [done|]. intros environment. by apply gives_environment. Qed.

Lemma destination_environment args : destination_args_ok args = true →
  ∃ environment, to_environment_config (E := E) args = Some environment
    ∧ (match environment with LocalRedb _ _ => true | _ => false end) = bool_decide (destination_block_store_profile args = WriteLocalRedb).
Proof using Type.
  intros Hok. unfold destination_args_ok in Hok.
  unfold to_environment_config, destination_block_store_environment_config, block_store_environment_config.
  destruct (destination_block_store_profile args); cbn [readable_profile];
    destruct (destination_block_store_root args), (destination_block_store_container_sas_url args); try done; by eexists.
Qed.

(** An opened store is a redb database exactly when the profile says so. *)
Lemma environment_redb dir mode environment store : store_matches dir mode environment store →
  is_local_redb store = match environment with LocalRedb _ _ => true | _ => false end.
Proof using Type.
  destruct environment; cbn [store_matches].
  - by intros ->.
  - by intros ->.
  - by intros (?&?&_&_&_&_&_&->).
  - by intros (?&?&_&_&_&_&_&->).
  - by intros [-> _].
Qed.
Lemma opened_redb mode args store : read_args_ok args = true → opened_by mode args store →
  is_local_redb store = bool_decide (block_store_profile args = ReadLocalRedb).
Proof using Type.
  intros Hok Ho. destruct (decide (block_store_profile args = ReadGatewayHttp3)) as [Hp|Hp].
  { unfold opened_by in Ho. rewrite Hp in Ho |- *. by destruct Ho as (?&?&_&_&->). }
  destruct (args_environment args Hp Hok) as (environment&He&Hredb).
  assert (store_matches "." mode environment store) as Hs.
  { unfold opened_by in Ho. rewrite He in Ho. destruct (block_store_profile args); try done; by destruct Ho as (?&[= <-]&?). }
  by rewrite (environment_redb _ _ _ _ Hs).
Qed.

(** When the interrupt handler is armed: for a run, never if it only validates,
    and otherwise when the request that it reads asks for a redb database; for
    another command, when one of the stores that it opened is one. *)
Definition arms fs (command : Command) (p : PreparedCommand) : Prop :=
  let armed := command_uses_direct_local_redb (E := E) fs command in
  match command with
  | CommandRun path _ _ true _ => armed = Ok false
  | CommandRun path _ _ false _ => ∀ request_bytes request request_dir mode store,
      read_file fs path = Ok request_bytes → request_from_slice request_bytes = Ok request →
      store_matches request_dir mode (environment request) store → armed = Ok (is_local_redb store)
  | _ => armed = Ok (existsb is_local_redb (stores_of p))
  end.

(** C40. Given what clap requires of its arguments, preparing a command never panics.
    A command that gets to the library has parsed its ids; it reads stores that
    are the ones of its arguments, with a redb database read-only; it copies into
    the destination of its arguments, flushing every put unless the write is
    blind, and compacting on the way exactly for a blind write into a redb
    database. The interrupt handler is armed, for a command other than a run,
    exactly when one of the opened stores is a redb database; for a run that does
    more than validate, exactly when a store of the environment of its request
    is one; and never for a run that only validates. *)
Theorem command_stores_safe fs command : clap_ok command = true →
  ∃ r, prepared command = Some r ∧ ∀ p, r = Ok p → prepares command p ∧ arms fs command p.
Proof using Type.
  intros Hok. change (gives (λ p, prepares command p ∧ arms fs command p) (prepared command)).
  destruct command as [request out stage validate clustering|root_id config out args|query root_id k w e m key t r d out args
    |root_ids blind threads writes out source destination|args]; cbn [clap_ok prepare_command] in *.
  - apply gives_some. intros p [= <-]. split; [done|]. unfold arms, command_uses_direct_local_redb. destruct validate; [done|].
    intros b r dir mode store Hb Hr Hs. unfold request_uses_direct_local_redb. rewrite Hb. cbn. rewrite Hr. cbn.
    by rewrite (environment_redb _ _ _ _ Hs).
  - eapply gives_bind; [apply gives_some; intros h Hh%ok_or_ok; exact Hh|]. intros h Hh. eapply gives_bind; [by apply gives_read|].
    intros store Hs. apply gives_some. intros p [= <-]. unfold arms. cbn. rewrite orb_false_r, (opened_redb _ _ _ Hok Hs). done.
  - eapply gives_bind; [apply gives_some; intros h Hh%ok_or_ok; exact Hh|]. intros h Hh. eapply gives_bind; [by apply gives_read|].
    intros store Hs. eapply (gives_bind (λ _, True)); [by apply gives_some|]. intros provider _.
    apply gives_some. intros p [= <-]. unfold arms. cbn. rewrite orb_false_r, (opened_redb _ _ _ Hok Hs). done.
  - apply andb_true_iff in Hok as [Hsource Hdest].
    eapply (gives_bind (λ hs, Forall2 (λ value h, decode_hash value = Some h) root_ids hs)).
    { apply gives_some. intros hs Hhs%result_mapM_ok. eapply Forall2_impl; [exact Hhs|]. by intros value h ?%ok_or_ok. }
    intros hs Hhs. eapply gives_bind; [by apply gives_source|]. intros s Hs.
    destruct (destination_environment destination Hdest) as (environment&He&Hredb).
    eapply (gives_bind (λ store, store_matches "." (RedbDurability (if blind then "Fast" else "Durable")) environment store)).
    { unfold configured_destination_block_store. rewrite He. cbn [mbind option_bind]. by apply gives_environment. }
    intros store Hd. apply gives_some. intros p [= <-]. unfold arms. cbn [prepares stores_of existsb command_uses_direct_local_redb].
    rewrite orb_false_r, (opened_redb _ _ _ Hsource Hs), (environment_redb _ _ _ _ Hd), Hredb. split; [|done].
    split_and!; try done; [by exists environment|]. destruct (blind && _) eqn:Hb.
    + apply andb_true_iff in Hb as [-> Hb]. rewrite <-(environment_redb _ _ _ _ Hd), Hb in *. by split; [|eexists].
    + split; [by intros []|]. intros [-> Hr]. cbn in Hb. congruence.
  - eapply gives_bind; [by apply gives_maintenance|]. intros store Hs. apply gives_some. intros p [= <-].
    unfold arms. cbn. rewrite orb_false_r, (opened_redb _ _ _ Hok Hs). done.
Qed.
End opened.

(** ** Concrete inputs

    A blind copy from a gateway into a redb database. *)
#[local] Instance plain_errors : StoreErrors string := {| BackendFailure := λ m, m; store_error_text := λ m, m |}.
#[local] Instance no_request : RequestJson := λ _, Err "unused"%string.
Definition from_gateway : BlockStoreArgs :=
  {| block_store_profile := ReadGatewayHttp3; block_store_root := None; block_store_container_sas_url := None;
     block_store_gateway_dns_name := Some "blocks.example"%string; block_store_filesystem_cache_root := None;
     block_store_memory_cache_max_resident_blocks := None; block_store_prefix := None |}.
Definition into_redb : DestinationBlockStoreArgs :=
  {| destination_block_store_profile := WriteLocalRedb; destination_block_store_root := Some "out"%string;
     destination_block_store_container_sas_url := None; destination_block_store_filesystem_cache_root := None;
     destination_block_store_memory_cache_max_resident_blocks := None; destination_block_store_prefix := None |}.
Definition copied_root : block_hash := replicate 32 171.
Definition blind_copy : Command := CommandCopy [hex_encode copied_root] true 1 64 None from_gateway into_redb.
Definition blind_plan : PreparedCommand :=
  PreparedCopy [copied_root] (GatewayHttp3 "blocks.example") (LocalRedbStore "./out" (RedbDurability "Fast") "./out/blocks.redb")
    BlindWrite 64 1 (Some BLIND_WRITE_REDB_COMPACTION_INTERVAL_BLOCKS).
Abbreviation prepared_copy := (prepare_command (λ _, Ok ()) (λ _, Ok ()) (λ _, Ok ()) (λ _, Ok ()) (Ok ()) (λ _, "")
  (λ _, None) (λ _, Ok ()) blind_copy).

Example endpoints : normalize_embedding_base_url <$> ["http://host:8080/v1/embeddings/"; " http://host/api "]%string
  = ["http://host:8080"; "http://host/api"]%string.
Proof. vm_compute. reflexivity. Qed.

Lemma command_stores_safe_witness : prepared_copy = Some (Ok blind_plan) ∧ prepares (E := string) blind_copy blind_plan
  ∧ command_uses_direct_local_redb (E := string) ∅ blind_copy = Ok true.
Proof.
  assert (prepared_copy = Some (Ok blind_plan)) as Hr by (vm_compute; reflexivity).
  destruct (command_stores_safe (E := string) (λ _, Ok ()) (λ _, Ok ()) (λ _, Ok ()) (λ _, Ok ()) (Ok ()) (λ _, "") (λ _, None) (λ _, Ok ())
    ∅ blind_copy) as (r&Hr'&Hp); [vm_compute; reflexivity|].
  assert (r = Ok blind_plan) as -> by congruence. destruct (Hp blind_plan eq_refl) as [Hprep Harm].
  split; [exact Hr|]. split; [exact Hprep|]. by apply Harm.
Defined.
