(* ===== verification/Mcp.v ===== *)
(** * The MCP server ([lexonarchivebuilder-mcp])

    The read side of the program: a configuration names an environment, an index
    and the descriptions of four tools; the runtime opens the environment's store
    for reading, searches below the index's root and looks a stored email up. The
    server registers the tools and times every answer. The protocol itself
    ([rmcp]), serde's reading of the configuration and the texts of errors are
    parameters. The theorems are at the end of the file and in [McpSpec.v]. *)

From Stdlib Require Import ZArith Lia Ascii.
From stdpp Require Import base gmap sets strings sorting option list.
From S2P Require Import Prelude Hex Blocks Text BlockCopy Items Mailbox Http3 Config Embedding Ingest Replay StoreSelect Search.
#[local] Open Scope Z_scope.

(** ** Configuration ([config.rs]) *)
Definition DEFAULT_TOP_K : Z := 5.
Definition DEFAULT_MCP_TRAVERSAL_WIDTH : Z := 3.
Definition DEFAULT_SEARCH_CHUNKS_DESCRIPTION : string := "Search indexed LexonArchiveBuilder chunks in the configured block store".
Definition DEFAULT_GET_DOCUMENT_DESCRIPTION : string := "Request a named document from the configured LexonArchiveBuilder index".
Definition DEFAULT_GET_EMAIL_DESCRIPTION : string := "Retrieve an email entry from a search result leaf_block_id".
Definition DEFAULT_GET_THREAD_DESCRIPTION : string := "Request a named thread from the configured LexonArchiveBuilder index".
Definition DEFAULT_GATEWAY_HTTP3_FS_CACHE_ROOT : string := "mcp-block-cache".
Definition DEFAULT_GATEWAY_HTTP3_FS_MEMORY_BLOCKS : Z := 256.

Record ToolDescriptionsConfig := {
  describe_search_chunks : option string;
  describe_get_document : option string;
  describe_get_email : option string;
  describe_get_thread : option string
}.
Record GatewayHttp3McpEnvironmentConfig := {
  gw_dns_name : string;
  gw_model : string;
  gw_request_timeout_secs : Z;
  gw_max_retries : Z;
  gw_retry_delay_ms : Z
}.
Record GatewayHttp3FilesystemCacheMcpEnvironmentConfig := {
  gwc_dns_name : string;
  gwc_block_cache_root : option string;
  gwc_memory_cache_max_resident_blocks : Z;
  gwc_model : string;
  gwc_request_timeout_secs : Z;
  gwc_max_retries : Z;
  gwc_retry_delay_ms : Z
}.
Inductive McpEnvironmentConfig :=
| McpShared (environment : EnvironmentConfig)
| McpGatewayHttp3 (gateway : GatewayHttp3McpEnvironmentConfig)
| McpGatewayHttp3FilesystemCache (gateway : GatewayHttp3FilesystemCacheMcpEnvironmentConfig).
Inductive IndexConfig := SummaryFile (path : string) | RootId (root_id : string).
Record McpConfig := {
  mcp_environment : McpEnvironmentConfig;
  mcp_embedding_spec : EmbeddingSpecConfig;
  mcp_index : IndexConfig;
  tool_descriptions : ToolDescriptionsConfig;
  mcp_top_k : Z;
  mcp_traversal_width : Z
}.

Inductive McpConfigError :=
| ConfigInvalidTopK
| ConfigInvalidTraversalWidth
| EmptyGatewayDnsName
| EmptyBlockCacheRoot
| InvalidMemoryCacheCapacity
| EmptyToolDescription (tool_name : string)
| IndexerConfig (e : ConfigError).

Definition validate_mcp_environment (environment : McpEnvironmentConfig) : result McpConfigError unit :=
  match environment with
  | McpShared environment => map_err IndexerConfig (validate_environment environment)
  | McpGatewayHttp3 gateway => reject_if (blank (gw_dns_name gateway)) EmptyGatewayDnsName
  | McpGatewayHttp3FilesystemCache gateway =>
      reject_if (blank (gwc_dns_name gateway)) EmptyGatewayDnsName ;;
      reject_if (gwc_memory_cache_max_resident_blocks gateway =? 0) InvalidMemoryCacheCapacity ;;
      reject_if (match gwc_block_cache_root gateway with Some path => bool_decide (path = "") | None => false end)
        EmptyBlockCacheRoot
  end.
Definition described_tools (config : McpConfig) : list (string * option string) :=
  [("search_chunks", describe_search_chunks (tool_descriptions config));
   ("get_document", describe_get_document (tool_descriptions config));
   ("get_email", describe_get_email (tool_descriptions config));
   ("get_thread", describe_get_thread (tool_descriptions config))]%string.
Definition validate_mcp_config (config : McpConfig) : result McpConfigError unit :=
  reject_if (mcp_top_k config =? 0) ConfigInvalidTopK ;;
  reject_if (mcp_traversal_width config =? 0) ConfigInvalidTraversalWidth ;;
  validate_mcp_environment (mcp_environment config) ;;
  result_iter (λ tool, reject_if (match tool.2 with Some value => blank value | None => false end) (EmptyToolDescription tool.1))
    (described_tools config).

Definition resolve_summary_path (config : McpConfig) (request_dir : string) : option string :=
  match mcp_index config with SummaryFile path => Some (resolve_path request_dir path) | RootId _ => None end.
Definition root_id_literal (config : McpConfig) : option string :=
  match mcp_index config with SummaryFile _ => None | RootId root_id => Some root_id end.

(** [None] is the panic for an unknown tool. *)
Definition config_tool_description (config : McpConfig) (tool_name : string) : option string :=
  let described := tool_descriptions config in
  if bool_decide (tool_name = "search_chunks"%string) then Some (default DEFAULT_SEARCH_CHUNKS_DESCRIPTION (describe_search_chunks described))
  else if bool_decide (tool_name = "get_document"%string) then Some (default DEFAULT_GET_DOCUMENT_DESCRIPTION (describe_get_document described))
  else if bool_decide (tool_name = "get_email"%string) then Some (default DEFAULT_GET_EMAIL_DESCRIPTION (describe_get_email described))
  else if bool_decide (tool_name = "get_thread"%string) then Some (default DEFAULT_GET_THREAD_DESCRIPTION (describe_get_thread described))
  else None.

(** ** Requests and responses ([runtime.rs]) *)
Record SearchChunksRequest := { search_query : string; search_top_k : option Z; search_traversal_width : option Z }.
Record SearchChunkHit := {
  chunk_position : Z;
  chunk_leaf_block_id : string;
  chunk_media_type : string;
  chunk_text : text;
  chunk_metadata : gmap string string;
  chunk_source_kind : option string;
  chunk_source_path : option string;
  chunk_source_name : option string
}.
Record SearchChunksResponse := {
  response_root_id : string;
  response_top_k : Z;
  response_traversal_width : Z;
  response_results : list SearchChunkHit
}.
Inductive NamedItemKind := KindDocument | KindEmail | KindThread.
Inductive NamedRetrievalStatus := Unsupported.
Record NamedRetrievalResponse := {
  named_kind : NamedItemKind;
  named_name : string;
  named_status : NamedRetrievalStatus;
  named_message : string
}.
Record EmailRetrievalResponse := { email_leaf_block_id : string; email_entry : SearchChunkHit }.

(** [RuntimeError] of the crate. [McpPanics] is not an error of the code: it is
    the panic of an [expect]. *)
Inductive McpError (E : Type) :=
| ReadMcpConfig (path : string) (source : io_error)
| ParseMcpConfig (path source : string)
| McpConfigInvalid (e : McpConfigError)
| McpInvalidTopK
| McpInvalidTraversalWidth
| ReadSummary (path : string) (source : io_error)
| ParseSummary (path source : string)
| InvalidRootId (v : string)
| InvalidEmailLeafBlockId (v : string)
| IngestionOnlySummary (path : string)
| McpProvider (e : ConfiguredEmbeddingProviderError)
| McpBlockStore (e : E)
| McpMissingRootBlock (root_id : string)
| LeafRoot (root_id : string)
| MissingEmailLeafBlock (leaf_block_id : string)
| EmailBlockIsNotLeaf (block_id : string)
| EmailLeafEntryCount (leaf_block_id : string) (entry_count : Z)
| EmailLeafContainsNoEmailEntries (leaf_block_id : string)
| McpTargetPreparation (message : string)
| McpSearch (e : SearchError)
| McpPanics.
Arguments ReadMcpConfig {E} path source.
Arguments ParseMcpConfig {E} path source.
Arguments McpConfigInvalid {E} e.
Arguments McpInvalidTopK {E}.
Arguments McpInvalidTraversalWidth {E}.
Arguments ReadSummary {E} path source.
Arguments ParseSummary {E} path source.
Arguments InvalidRootId {E} v.
Arguments InvalidEmailLeafBlockId {E} v.
Arguments IngestionOnlySummary {E} path.
Arguments McpProvider {E} e.
Arguments McpBlockStore {E} e.
Arguments McpMissingRootBlock {E} root_id.
Arguments LeafRoot {E} root_id.
Arguments MissingEmailLeafBlock {E} leaf_block_id.
Arguments EmailBlockIsNotLeaf {E} block_id.
Arguments EmailLeafEntryCount {E} leaf_block_id entry_count.
Arguments EmailLeafContainsNoEmailEntries {E} leaf_block_id.
Arguments McpTargetPreparation {E} message.
Arguments McpSearch {E} e.
Arguments McpPanics {E}.

(** [serde_json] on a configuration and on a summary. *)
Class McpJson := {
  mcp_config_from_slice : bytes → result string McpConfig;
  summary_from_slice : bytes → result string BatchSummary
}.

Definition unsupported_named_retrieval (kind : NamedItemKind) (name : string) : NamedRetrievalResponse :=
  {| named_kind := kind; named_name := name; named_status := Unsupported;
     named_message := "Named retrieval remains unavailable in the first MVP because the delegated LexonGraph retrieval-by-name contract is not yet implemented." |}.
Definition get_document (name : string) : NamedRetrievalResponse := unsupported_named_retrieval KindDocument name.
Definition get_thread (name : string) : NamedRetrievalResponse := unsupported_named_retrieval KindThread name.

Definition project_leaf_entry `{HashDisplay} (leaf_block_id : block_hash) (position : Z) (entry : LeafEntry) (metadata : gmap string string)
    : SearchChunkHit :=
  {| chunk_position := position; chunk_leaf_block_id := hash_to_string leaf_block_id;
     chunk_media_type := media_type (le_content entry); chunk_text := utf8_lossy (body (le_content entry));
     chunk_metadata := metadata; chunk_source_kind := metadata !! "source_kind"%string;
     chunk_source_path := metadata !! "source_path"%string; chunk_source_name := source_name_from_metadata metadata |}.

Definition sole_email_leaf_entry {E} (leaf_block_id : string) (entries : list LeafEntry) : result (McpError E) LeafEntry :=
  match entries with
  | [entry] => Ok entry
  | _ => Err (EmailLeafEntryCount leaf_block_id (len entries))
  end.

Record McpRuntime := { mcp_request_dir : string; mcp_config : McpConfig; mcp_block_store : ConfiguredBlockStore }.

(** [config_path.parent().unwrap_or_else(|| Path::new("."))]. *)
Definition mcp_request_dir_of (config_path : string) : string := default "."%string (path_parent config_path).

Section runtime.
Context {S : Type} `{GetBlock S} `{!StoreErrors (BlockStoreError S)} `{Searcher (BlockStoreError S)} `{PrepareTarget} `{HashDisplay}.
Context `{EmbeddingJson} `{HalfFloat} `{StatusText} `{McpJson}.
Abbreviation error := (McpError (BlockStoreError S)).

(** The environment: files, variables, and the outcomes of the constructors of
    stores and HTTP clients. *)
Context (fs : files) (env : string → option string) (build_client : Z → result string unit) (transport : result string unit).
Context (open_store : ConfiguredBlockStore → result (BlockStoreError S) unit) (open_layer : OverlayStoreLayer → result (BlockStoreError S) unit).
Context (memory_error_text : Z → result string unit) (overlay_new : list OverlayStoreLayer → result string unit).
Context (config_error_text : ConfigError → string).

(** ** Opening *)
Definition configured_block_store (request_dir : string) (environment : McpEnvironmentConfig) : result error ConfiguredBlockStore :=
  match environment with
  | McpShared environment =>
      match from_environment_with_redb_read_only open_store open_layer memory_error_text overlay_new config_error_text
              request_dir environment with
      | Some r => map_err McpBlockStore r
      | None => Err McpPanics
      end
  | McpGatewayHttp3 gateway => map_err McpBlockStore (gateway_http3_store transport (gw_dns_name gateway))
  | McpGatewayHttp3FilesystemCache gateway =>
      let cache_root := default DEFAULT_GATEWAY_HTTP3_FS_CACHE_ROOT (gwc_block_cache_root gateway) in
      map_err McpBlockStore
        (gateway_http3_filesystem_overlay_store open_layer memory_error_text overlay_new transport request_dir cache_root
           (gwc_memory_cache_max_resident_blocks gateway) (gwc_dns_name gateway))
  end.

Definition mcp_runtime_new (request_dir : string) (config : McpConfig) : result error McpRuntime :=
  map_err McpConfigInvalid (validate_mcp_config config) ;;
  block_store ← configured_block_store request_dir (mcp_environment config);
  Ok {| mcp_request_dir := request_dir; mcp_config := config; mcp_block_store := block_store |}.

Definition from_config_file (config_path : string) : result error McpRuntime :=
  bytes ← map_err (ReadMcpConfig config_path) (read_file fs config_path);
  config ← map_err (ParseMcpConfig config_path) (mcp_config_from_slice bytes);
  mcp_runtime_new (mcp_request_dir_of config_path) config.

Definition configured_embedding_provider (environment : McpEnvironmentConfig) : result error ConfiguredEmbeddingProvider :=
  map_err McpProvider
    match environment with
    | McpShared environment => from_environment env build_client environment
    | McpGatewayHttp3 gateway =>
        gateway_http3 (E := BlockStoreError S) transport (gw_dns_name gateway) (gw_model gateway) (gw_max_retries gateway)
          (gw_retry_delay_ms gateway) (gw_request_timeout_secs gateway)
    | McpGatewayHttp3FilesystemCache gateway =>
        gateway_http3 (E := BlockStoreError S) transport (gwc_dns_name gateway) (gwc_model gateway) (gwc_max_retries gateway)
          (gwc_retry_delay_ms gateway) (gwc_request_timeout_secs gateway)
    end.

(** ** Searching *)
Definition root_literal (request_dir : string) (config : McpConfig) : result error string :=
  match root_id_literal config with
  | Some root_id => Ok root_id
  | None =>
      summary_path ← ok_or (resolve_summary_path config request_dir) McpPanics;
      bytes ← map_err (ReadSummary summary_path) (read_file fs summary_path);
      summary ← map_err (ParseSummary summary_path) (summary_from_slice bytes);
      reject_if (bool_decide (root_id summary = INGESTION_ONLY_ROOT_ID_PLACEHOLDER)) (IngestionOnlySummary summary_path) ;;
      Ok (root_id summary)
  end.
Definition resolve_root_id (request_dir : string) (config : McpConfig) : result error block_hash :=
  literal ← root_literal request_dir config;
  ok_or (decode_hash literal) (InvalidRootId literal).

(** [store] is what the runtime's store holds, [s] what the embedding services
    answer. *)
Definition search_chunks (runtime : McpRuntime) (store : S) (s : services) (request : SearchChunksRequest)
    : result error SearchChunksResponse :=
  let config := mcp_config runtime in
  let top_k := default (mcp_top_k config) (search_top_k request) in
  reject_if (top_k =? 0) McpInvalidTopK ;;
  let traversal_width := default (mcp_traversal_width config) (search_traversal_width request) in
  reject_if (traversal_width =? 0) McpInvalidTraversalWidth ;;
  root_id ← resolve_root_id (mcp_request_dir runtime) config;
  found ← map_err McpBlockStore (get root_id store);
  root ← ok_or found (McpMissingRootBlock (hash_to_string root_id));
  branch ← match vb_block root with
           | BBranch branch => Ok branch
           | BLeaf _ => Err (LeafRoot (hash_to_string root_id))
           end;
  provider ← configured_embedding_provider (mcp_environment config);
  let provider_spec := logical_f32_embedding_spec (dims (bb_spec branch)) in
  target_embedding ← map_err McpProvider
    (embed provider {| input_media_type := "text/plain"; input_body := as_bytes (search_query request) |} provider_spec s);
  logical_embedding ← map_err McpProvider (decode_logical_f32_embedding target_embedding (dims provider_spec));
  prepared ← map_err McpTargetPreparation (prepare_target_embedding root logical_embedding);
  leaves ← map_err McpSearch (search_with_partial_retry root_id prepared.2 traversal_width top_k (λ id, get id store)).2;
  Ok {| response_root_id := hash_to_string root_id; response_top_k := top_k; response_traversal_width := traversal_width;
        response_results := (λ leaf,
          project_leaf_entry (hit_leaf_block_id leaf) (hit_position leaf) (hit_entry leaf)
            (metadata_values_to_text_map (le_metadata (hit_entry leaf)))) <$> leaves |}.

(** ** Looking an email up *)
Definition get_email (store : S) (name : string) : result error EmailRetrievalResponse :=
  leaf_block_id ← ok_or (decode_hash name) (InvalidEmailLeafBlockId name);
  found ← map_err McpBlockStore (get leaf_block_id store);
  block ← ok_or found (MissingEmailLeafBlock (hash_to_string leaf_block_id));
  leaf ← match vb_block block with
         | BLeaf leaf => Ok leaf
         | BBranch _ => Err (EmailBlockIsNotLeaf (hash_to_string leaf_block_id))
         end;
  let leaf_block_id_text := hash_to_string leaf_block_id in
  entry ← sole_email_leaf_entry leaf_block_id_text (lb_entries leaf);
  let metadata := metadata_values_to_text_map (le_metadata entry) in
  reject_if (bool_decide (metadata !! "source_kind"%string ≠ Some "email"%string))
    (EmailLeafContainsNoEmailEntries leaf_block_id_text) ;;
  Ok {| email_leaf_block_id := leaf_block_id_text; email_entry := project_leaf_entry leaf_block_id 0 entry metadata |}.
End runtime.

(** ** The server ([server.rs])

    [serde_json::Value], whose objects are maps; the responses serialize by
    their derived implementations. *)
Inductive Json :=
| JNull
| JNumber (n : Z)
| JString (s : string)
| JArray (l : list Json)
| JObject (fields : gmap string Json).
Definition json_option (o : option string) : Json := from_option JString JNull o.
Definition json_hit (hit : SearchChunkHit) : Json :=
  JObject (list_to_map [("position", JNumber (chunk_position hit)); ("leaf_block_id", JString (chunk_leaf_block_id hit));
    ("media_type", JString (chunk_media_type hit)); ("text", JString (of_chars (chunk_text hit)));
    ("metadata", JObject (JString <$> chunk_metadata hit)); ("source_kind", json_option (chunk_source_kind hit));
    ("source_path", json_option (chunk_source_path hit)); ("source_name", json_option (chunk_source_name hit))]%string).
Class Serialize (T : Type) := to_value : T → Json.
#[export] Instance serialize_search : Serialize SearchChunksResponse := λ r,
  JObject (list_to_map [("root_id", JString (response_root_id r)); ("top_k", JNumber (response_top_k r));
    ("traversal_width", JNumber (response_traversal_width r)); ("results", JArray (json_hit <$> response_results r))]%string).
Definition json_kind (kind : NamedItemKind) : string :=
  match kind with KindDocument => "document" | KindEmail => "email" | KindThread => "thread" end.
Definition json_status (status : NamedRetrievalStatus) : string := match status with Unsupported => "unsupported" end.
#[export] Instance serialize_named : Serialize NamedRetrievalResponse := λ r,
  JObject (list_to_map [("kind", JString (json_kind (named_kind r))); ("name", JString (named_name r));
    ("status", JString (json_status (named_status r))); ("message", JString (named_message r))]%string).
#[export] Instance serialize_email : Serialize EmailRetrievalResponse := λ r,
  JObject (list_to_map [("leaf_block_id", JString (email_leaf_block_id r)); ("entry", json_hit (email_entry r))]%string).

Inductive CallToolResult := Structured (v : Json) | StructuredError (v : Json).

(** The milliseconds of the clock as a [u64]. *)
Definition elapsed_ms (millis : Z) : Z := if millis <=? usize_max then millis else usize_max.
Definition timed_error (millis : Z) (error : string) : CallToolResult :=
  StructuredError (JObject (list_to_map [("error", JString error); ("elapsed_ms", JNumber (elapsed_ms millis))]%string)).
(** The serialization of a response does not fail. *)
Definition timed_result {E T} `{Serialize T} (error_text : McpError E → string) (millis : Z) (r : result (McpError E) T) : CallToolResult :=
  match r with
  | Ok response =>
      match to_value response with
      | JObject fields => Structured (JObject (<["elapsed_ms"%string := JNumber (elapsed_ms millis)]> fields))
      | _ => timed_error millis "MCP tool response must serialize as an object"
      end
  | Err error => timed_error millis (error_text error)
  end.

(** The routes that the [tool] attributes register, with their descriptions. *)
Definition tool_router : gmap string (option string) :=
  list_to_map [("search_chunks", Some "Search indexed LexonArchiveBuilder chunks in the configured block store");
    ("get_document", Some "Request a named document from the configured LexonArchiveBuilder index");
    ("get_email", Some "Retrieve an email entry from a search result leaf_block_id");
    ("get_thread", Some "Request a named thread from the configured LexonArchiveBuilder index")]%string.
Definition registered_tools : list string := ["search_chunks"; "get_document"; "get_email"; "get_thread"]%string.
(** [LexonArchiveBuilderMcpServer::new]: the routes of the server; [None] is a
    panic. *)
Definition server_routes (runtime : McpRuntime) : option (gmap string (option string)) :=
  foldl (λ router tool_name,
    router ← router;
    router !! tool_name ≫= λ _,
    description ← config_tool_description (mcp_config runtime) tool_name;
    Some (<[tool_name := Some description]> router)) (Some tool_router) registered_tools.
