(* ===== verification/McpSpec.v ===== *)
(** * Theorems of the MCP server

    A runtime that starts reads the store of its environment and describes its
    four tools; a search answers what the rooted search of the indexer answers
    below the same root; and the text of every email that was ingested is found
    under the id of its leaf. The concrete inputs are at the end. *)

From Stdlib Require Import ZArith Lia Ascii.
From stdpp Require Import base gmap sets strings sorting option list.
From S2P Require Import Prelude Hex Blocks Cbor Text Runtime Instances Items SortKey Mailbox Resolver MailboxSpec MailboxWitness Config Http3 Embedding EmbeddingWitness LeafWorkers LeafWorkersSpec Ingest IngestSpec IngestWitness Replay ReplayWitness StoreSelect Search Mcp.
#[local] Open Scope Z_scope.

(** ** The runtime *)
Section runtime.
Context {S : Type} `{GetBlock S} `{!StoreErrors (BlockStoreError S)} `{Searcher (BlockStoreError S)} `{PrepareTarget} `{HashDisplay}.
Context `{EmbeddingJson} `{HalfFloat} `{StatusText} `{McpJson} `{EmbeddingErrorText}.
Context (fs : files) (env : string → option string) (build_client : Z → result string unit) (transport : result string unit).
Context (open_store : ConfiguredBlockStore → result (BlockStoreError S) unit) (open_layer : OverlayStoreLayer → result (BlockStoreError S) unit).
Context (memory_error_text : Z → result string unit) (overlay_new : list OverlayStoreLayer → result string unit).
Context (config_error_text : ConfigError → string).
Abbreviation new_runtime := (mcp_runtime_new transport open_store open_layer memory_error_text overlay_new config_error_text).
Abbreviation open_configured :=
  (configured_block_store transport open_store open_layer memory_error_text overlay_new config_error_text).
Abbreviation search := (search_chunks fs env build_client transport).

(** The store that a runtime reads. *)
Definition mcp_store_matches (request_dir : string) (environment : McpEnvironmentConfig) (store : ConfiguredBlockStore) : Prop :=
  match environment with
  | McpShared environment => store_matches request_dir RedbReadOnlyMode environment store
  | McpGatewayHttp3 gateway => ∃ name,
      validate_dns_name (E := BlockStoreError S) (gw_dns_name gateway) = Ok name ∧ store = GatewayHttp3 name
  | McpGatewayHttp3FilesystemCache gateway => ∃ name,
      validate_dns_name (E := BlockStoreError S) (gwc_dns_name gateway) = Ok name
      ∧ gwc_memory_cache_max_resident_blocks gateway ≠ 0
      ∧ store = Overlay [MemoryCache (gwc_memory_cache_max_resident_blocks gateway);
          FilesystemCache (resolve_path request_dir (default DEFAULT_GATEWAY_HTTP3_FS_CACHE_ROOT (gwc_block_cache_root gateway)));
          ReadOnlyGateway name]
  end.

Lemma gateway_name dns_name name :
  http3_block_store_new (E := BlockStoreError S) transport dns_name = Ok name → validate_dns_name (E := BlockStoreError S) dns_name = Ok name.
Proof.
  unfold http3_block_store_new, gateway_client_new. intros Hn%map_err_ok.
  apply result_bind_ok in Hn as (n&Hn%map_err_ok&Hr). by apply result_seq_ok in Hr as [_ [= <-]].
Qed.

Lemma store_opened request_dir config : validate_mcp_config config = Ok () →
  match open_configured request_dir (mcp_environment config) with
  | Ok store => mcp_store_matches request_dir (mcp_environment config) store
  | Err (McpBlockStore _) => True
  | Err _ => False
  end.
Proof.
  intros Hv. unfold validate_mcp_config in Hv. apply result_seq_ok in Hv as [_ Hv]. apply result_seq_ok in Hv as [_ Hv].
  apply result_seq_ok in Hv as [Henv _]. destruct (mcp_environment config) as [e|g|g]; cbn [configured_block_store mcp_store_matches].
  - destruct (environment_matches open_store open_layer memory_error_text overlay_new config_error_text
      (local_redb_store_read_only open_store request_dir) RedbReadOnlyMode request_dir e (λ _, eq_refl)) as (r&Hr&Hs).
    unfold from_environment_with_redb_read_only. rewrite Hr. destruct r as [store|err]; cbn; [by apply Hs|done].
  - unfold gateway_http3_store. destruct (http3_block_store_new _ _) as [name|err] eqn:Hn; cbn; [|done].
    exists name. split; [by apply gateway_name|done].
  - cbn [validate_mcp_environment] in Henv. apply result_seq_ok in Henv as [_ Henv].
    apply result_seq_ok in Henv as [Hcap%reject_if_ok%Z.eqb_neq _].
    destruct (gateway_http3_filesystem_overlay_store _ _ _ _ _ _ _ _) as [store|err] eqn:Hs; cbn; [|done].
    unfold gateway_http3_filesystem_overlay_store in Hs. apply result_seq_ok in Hs as [_ Hs]. apply result_seq_ok in Hs as [_ Hs].
    apply result_bind_ok in Hs as (name&Hn&Hs). unfold overlay_of in Hs. apply result_seq_ok in Hs as [_ [= <-]].
    exists name. split; [by apply gateway_name|done].
Qed.

Lemma tools_described config : validate_mcp_config config = Ok () →
  Forall (λ tool, ∃ text, config_tool_description config tool = Some text ∧ blank text = false) registered_tools.
Proof.
  intros Hv. unfold validate_mcp_config in Hv. apply result_seq_ok in Hv as [_ Hv]. apply result_seq_ok in Hv as [_ Hv].
  apply result_seq_ok in Hv as [_ Hv]. apply result_iter_ok in Hv. unfold described_tools in Hv.
  repeat (apply Forall_cons in Hv as [?Ht%reject_if_ok Hv]). cbn in *.
  assert (∀ (o : option string) d, match o with Some value => blank value | None => false end = false → blank d = false →
    ∃ text, Some (default d o) = Some text ∧ blank text = false) as Hd.
  { intros [t|] d Ho Hb; [by exists t|by exists d]. }
  repeat constructor; unfold config_tool_description; cbn; apply Hd; try done; vm_compute; reflexivity.
Qed.

(** Every tool of a server has the configured description or the default. *)
Lemma routes_of runtime : (Forall (λ tool, is_Some (config_tool_description (mcp_config runtime) tool)) registered_tools) →
  ∃ routes, server_routes runtime = Some routes ∧ dom routes = list_to_set registered_tools
    ∧ ∀ tool, tool ∈ registered_tools → routes !! tool = Some (config_tool_description (mcp_config runtime) tool).
Proof.
  intros Hd. unfold registered_tools in Hd.
  apply Forall_cons in Hd as [[d1 H1'] Hd]. apply Forall_cons in Hd as [[d2 H2'] Hd].
  apply Forall_cons in Hd as [[d3 H3'] Hd]. apply Forall_cons in Hd as [[d4 H4'] _].
  exists (<["get_thread" := Some d4]> (<["get_email" := Some d3]> (<["get_document" := Some d2]> (<["search_chunks" := Some d1]> tool_router)))).
  split; [|split].
  - unfold server_routes, registered_tools. cbn [foldl]. rewrite H1', H2', H3', H4'. reflexivity.
  - apply (bool_decide_unpack _). vm_compute. exact I.
  - intros tool Ht. unfold registered_tools in Ht.
    repeat (apply elem_of_cons in Ht as [-> | Ht]); [..|by apply elem_of_nil in Ht].
    all: rewrite ?H1', ?H2', ?H3', ?H4'; by simplify_map_eq.
Qed.

(** The root of an index is never a panic: there is a literal or a summary. *)
Lemma root_no_panic request_dir config : resolve_root_id (S := S) fs request_dir config ≠ Err McpPanics.
Proof.
  unfold resolve_root_id, root_literal, root_id_literal, resolve_summary_path. destruct (mcp_index config) as [path|literal].
  - cbn [ok_or mbind result_bind]. destruct (read_file fs _) as [data|e]; cbn [map_err mbind result_bind]; [|done].
    destruct (summary_from_slice data) as [summary|e]; cbn [map_err mbind result_bind]; [|done].
    destruct (bool_decide _); cbn; [done|]. by destruct (decode_hash _).
  - cbn. by destruct (decode_hash _).
Qed.

Lemma search_no_panic runtime store s request : search runtime store s request ≠ Err McpPanics.
Proof.
  unfold search_chunks. cbv zeta. destruct (default _ (search_top_k request) =? 0); cbn [reject_if mbind result_bind]; [done|].
  destruct (default _ (search_traversal_width request) =? 0); cbn [reject_if mbind result_bind]; [done|]. pose proof (root_no_panic (mcp_request_dir runtime) (mcp_config runtime)) as Hroot.
  destruct (resolve_root_id _ _ _) as [id|e]; cbn [mbind result_bind]; [|congruence].
  destruct (get id store) as [found|e]; cbn [map_err mbind result_bind]; [|done].
  destruct found as [root|]; cbn [ok_or mbind result_bind]; [|done].
  destruct (vb_block root) as [branch|leaf]; cbn [mbind result_bind]; [|done].
  unfold configured_embedding_provider. match goal with |- context [map_err McpProvider ?p] => destruct p as [provider|e] end; cbn [map_err mbind result_bind]; [|done].
  destruct (embed _ _ _ _) as [target|e]; cbn [map_err mbind result_bind]; [|done].
  destruct (decode_logical_f32_embedding _ _) as [l|e]; cbn [map_err mbind result_bind]; [|done].
  destruct (prepare_target_embedding _ _) as [prepared|e]; cbn [map_err mbind result_bind]; [|done].
  by destruct (search_with_partial_retry _ _ _ _ _).2.
Qed.

(** Starting a runtime never panics, and refuses exactly the configurations that
    do not validate and the stores that cannot be opened. A runtime that starts
    reads the store of its environment -- the read-only redb database, the
    gateway, or the caches above it --, has positive search limits, registers
    exactly the four tools, each with its configured description or the default
    and never a blank one, and no search on it panics. *)
Theorem mcp_runtime_safe request_dir config :
  match new_runtime request_dir config with
  | Ok runtime =>
      validate_mcp_config config = Ok () ∧ mcp_config runtime = config
      ∧ mcp_store_matches request_dir (mcp_environment config) (mcp_block_store runtime)
      ∧ mcp_top_k config ≠ 0 ∧ mcp_traversal_width config ≠ 0
      ∧ (∃ routes, server_routes runtime = Some routes ∧ dom routes = list_to_set registered_tools
           ∧ ∀ tool, tool ∈ registered_tools → ∃ text,
               routes !! tool = Some (Some text) ∧ config_tool_description config tool = Some text ∧ blank text = false)
      ∧ ∀ store s request, search runtime store s request ≠ Err McpPanics
  | Err (McpConfigInvalid e) => validate_mcp_config config = Err e
  | Err (McpBlockStore _) => validate_mcp_config config = Ok ()
  | Err _ => False
  end.
Proof.
  unfold mcp_runtime_new. destruct (validate_mcp_config config) as [[]|e] eqn:Hv; cbn [map_err mbind result_bind]; [|done].
  pose proof (store_opened request_dir config Hv) as Hs. pose proof (tools_described config Hv) as Ht.
  destruct (open_configured request_dir (mcp_environment config)) as [store|[]]; cbn [mbind result_bind]; try done.
  split; [done|]. split; [done|]. split; [done|]. unfold validate_mcp_config in Hv.
  apply result_seq_ok in Hv as [Hk%reject_if_ok%Z.eqb_neq Hv]. apply result_seq_ok in Hv as [Hw%reject_if_ok%Z.eqb_neq _].
  split; [done|]. split; [done|]. split; [|intros; apply search_no_panic].
  destruct (routes_of {| mcp_request_dir := request_dir; mcp_config := config; mcp_block_store := store |}) as (routes&Hr&Hdom&Hl).
  { eapply Forall_impl; [exact Ht|]. intros tool (text&Htool&_). by exists text. }
  exists routes. split; [done|]. split; [done|]. intros tool Hin. rewrite Forall_forall in Ht.
  destruct (Ht tool Hin) as (text&Htool&Hb). exists text. split; [|done]. rewrite (Hl tool Hin). cbn. by rewrite Htool.
Qed.

(** ** Searching *)

(** The two reports of a hit, and the two reports of an error. *)
Definition chunk_of_hit (hit : RootedSearchHit) : SearchChunkHit :=
  {| chunk_position := rs_position hit; chunk_leaf_block_id := rs_leaf_block_id hit; chunk_media_type := rs_media_type hit;
     chunk_text := rs_text hit; chunk_metadata := rs_metadata hit; chunk_source_kind := rs_source_kind hit;
     chunk_source_path := rs_source_path hit; chunk_source_name := rs_source_name hit |}.
Definition same_error (e : McpError (BlockStoreError S)) (e' : RootedSearchError (BlockStoreError S)) : Prop :=
  match e, e' with
  | McpInvalidTopK, InvalidTopK | McpInvalidTraversalWidth, InvalidTraversalWidth => True
  | McpMissingRootBlock id, SearchMissingRootBlock id' => id = id'
  | McpBlockStore source, SearchBlockStore source' => source = source'
  | McpProvider source, Provider message => embedding_error_text source = message
  | McpTargetPreparation message, TargetPreparation message' => message = message'
  | McpSearch source, RootedSearch source' => source = source'
  | _, _ => False
  end.
Definition same_answer (r : result (McpError (BlockStoreError S)) SearchChunksResponse)
    (r' : result (RootedSearchError (BlockStoreError S)) RootedSearchReport) : Prop :=
  match r, r' with
  | Ok response, Ok report =>
      response_root_id response = rr_root_id report ∧ response_top_k response = rr_top_k report
      ∧ response_traversal_width response = rr_traversal_width report
      ∧ response_results response = chunk_of_hit <$> rr_results report
  | Err e, Err e' => same_error e e'
  | _, _ => False
  end.

(** C21. Searching with the MCP runtime is the rooted search of the indexer: with the
    limits of the request, or else of the configuration, below the root of the
    index, both give the same hits in the same order, and both fail with the same
    error -- unless the root is a leaf, which only the runtime refuses. *)
Theorem search_chunks_as_rooted runtime store s request timing root_id provider :
  resolve_root_id fs (mcp_request_dir runtime) (mcp_config runtime) = Ok root_id →
  configured_embedding_provider (S := S) env build_client transport (mcp_environment (mcp_config runtime)) = Ok provider →
  (∀ root leaf, get root_id store = Ok (Some root) → vb_block root ≠ BLeaf leaf) →
  same_answer (search runtime store s request)
    (search_rooted_tree store (λ input spec, map_err embedding_error_text (embed provider input spec s)) timing root_id
       (search_query request) (default (mcp_top_k (mcp_config runtime)) (search_top_k request))
       (default (mcp_traversal_width (mcp_config runtime)) (search_traversal_width request))).
Proof.
  intros Hroot Hprovider Hleaf. unfold search_chunks, search_rooted_tree. cbv zeta.
  destruct (default _ (search_top_k request) =? 0); cbn [reject_if mbind result_bind]; [done|].
  destruct (default _ (search_traversal_width request) =? 0); cbn [reject_if mbind result_bind]; [done|].
  rewrite Hroot. cbn [mbind result_bind]. destruct (get root_id store) as [[root|]|e] eqn:Hg; cbn [map_err ok_or mbind result_bind]; try done.
  destruct (vb_block root) as [branch|leaf] eqn:Hb; [|by destruct (Hleaf root leaf eq_refl)].
  cbn [mbind result_bind embedding_spec_for_block]. rewrite Hprovider. cbn [mbind result_bind].
  destruct (embed _ _ _ _) as [target|e]; cbn [map_err mbind result_bind]; [|done].
  destruct (decode_logical_f32_embedding _ _) as [l|e]; cbn [map_err mbind result_bind]; [|done].
  destruct (prepare_target_embedding _ _) as [[spec prepared]|e]; cbn [map_err mbind result_bind snd]; [|done].
  destruct (search_with_partial_retry _ _ _ _ _).2 as [leaves|e]; cbn [map_err mbind result_bind]; [|done].
  split_and!; [done|done|done|]. cbn [response_results rr_results]. by rewrite <-list_fmap_compose.
Qed.

(** ** Emails *)

(** What [get_email] answers: the entry of a leaf that holds one email. *)
Lemma get_email_ok store name response : get_email store name = Ok response ↔
  ∃ h leaf entry root, decode_hash name = Some h ∧ get h store = Ok (Some root) ∧ vb_block root = BLeaf leaf
    ∧ lb_entries leaf = [entry] ∧ metadata_values_to_text_map (le_metadata entry) !! "source_kind"%string = Some "email"%string
    ∧ response = {| email_leaf_block_id := hash_to_string h;
                    email_entry := project_leaf_entry h 0 entry (metadata_values_to_text_map (le_metadata entry)) |}.
Proof.
  unfold get_email. cbv zeta. split.
  - intros (h&Hh%ok_or_ok&Hr)%result_bind_ok. apply result_bind_ok in Hr as (found&Hg%map_err_ok&Hr).
    apply result_bind_ok in Hr as (root&->%ok_or_ok&Hr). destruct (vb_block root) as [branch|leaf] eqn:Hb; [done|].
    cbn [mbind result_bind] in Hr. apply result_bind_ok in Hr as (entry&He&Hr).
    apply result_seq_ok in Hr as [Hk%reject_if_ok [= <-]]. apply bool_decide_eq_false, dec_stable in Hk.
    exists h, leaf, entry, root. split_and!; try done. unfold sole_email_leaf_entry in He.
    destruct (lb_entries leaf) as [|e [|]]; by simplify_eq.
  - intros (h&leaf&entry&root&Hh&Hg&Hb&He&Hk&->). rewrite Hh. cbn [ok_or mbind result_bind]. rewrite Hg.
    cbn [map_err ok_or mbind result_bind]. rewrite Hb. cbn [mbind result_bind]. rewrite He.
    cbn [sole_email_leaf_entry mbind result_bind]. by rewrite bool_decide_false by naive_solver.
Qed.
End runtime.

Section emails.
Context {S : Type} `{PutBlock S, !BlockStoreLaws S, !PutBlockLaws S} `{G : !GetBlock S} `{!GetBlockLaws S}.
Context `{CiboriumLaws} `{BuildCustomLaws} `{HashDisplayLaws} `{MailParse}.
Context `{EmbeddingJson} `{HalfFloat} `{StatusText}.
Context (fs : files) (provider : ConfiguredEmbeddingProvider) (spec : EmbeddingSpec).

Lemma stored_email_found (s : S) item h chunk :
  stored_leaf fs provider spec s item h → item_reads s item chunk → leaf_metadata_ok item → Forall scalar chunk →
  ∃ response, get_email s (hash_to_string h) = Ok response
    ∧ email_leaf_block_id response = hash_to_string h ∧ chunk_leaf_block_id (email_entry response) = hash_to_string h
    ∧ chunk_text (email_entry response) = chunk ∧ chunk_media_type (email_entry response) = CHUNK_MEDIA_TYPE
    ∧ chunk_metadata (email_entry response) = metadata_to_text_map (item_metadata item)
    ∧ chunk_source_kind (email_entry response) = Some "email"%string.
Proof.
  intros (Hh&leaf&entry&Hget&_&_&Hentries&Hmd&_&Hcontent) (r&i&chunks&Href&Hload&Hi) Hok Hscalar.
  unfold leaf_metadata_ok in Hok. rewrite Href in Hok. destruct Hok as [Hk _]. fold (metadata_to_text_map (item_metadata item)) in Hk.
  unfold item_content in Hcontent. rewrite Href, Hload in Hcontent. cbn [mbind result_bind] in Hcontent.
  unfold pick_chunk in Hcontent. rewrite Hi in Hcontent. injection Hcontent as Hcontent.
  eexists. split.
  - apply get_email_ok. exists h, leaf, entry, {| vb_hash := h; vb_block := BLeaf leaf |}.
    split; [by apply decode_hash_to_string|]. split; [by apply get_v1|]. split; [done|]. split; [done|].
    rewrite Hmd. by split.
  - cbn. rewrite <-Hcontent. cbn. rewrite utf8_lossy_utf8 by done. done.
Qed.

(** C7. An email that was ingested can be read back through the MCP server, if the
    metadata configured for its mailbox gives no [source_kind] other than ["email"]
    (another one replaces the ["email"] of ingestion, and [get_email] refuses the
    leaf): whatever is stored after the mailbox was expanded, the id of the leaf that holds an item
    of the mailbox, as its journal record and every search hit print it, answers
    with exactly the text of the item's chunk of the parsed message and the
    item's metadata. *)
Theorem ingested_emails_retrievable path md (s s' : S) ex :
  expand_mailbox_item_with_stats fs path md s = (s', Ok ex) →
  (∀ raw m p, read_file fs path = Ok raw → m ∈ split_mbox_messages raw → parse_mail m = Ok p → mail_fits p) →
  (∀ raw, read_file fs path = Ok raw → len (split_mbox_messages raw) < 2 ^ 64) →
  (∀ k, md !! "source_kind"%string = Some k → k = "email"%string) →
  ∃ raw mails, read_file fs path = Ok raw ∧ Forall2 (λ m p, parse_mail m = Ok p) (split_mbox_messages raw) mails
    ∧ Forall2 (λ item chunk, ∀ s'' h, grows s' s'' → stored_leaf fs provider spec s'' item h →
        ∃ response, get_email s'' (hash_to_string h) = Ok response
          ∧ email_leaf_block_id response = hash_to_string h ∧ chunk_leaf_block_id (email_entry response) = hash_to_string h
          ∧ chunk_text (email_entry response) = chunk ∧ chunk_media_type (email_entry response) = CHUNK_MEDIA_TYPE
          ∧ chunk_metadata (email_entry response) = metadata_to_text_map (item_metadata item)
          ∧ chunk_source_kind (email_entry response) = Some "email"%string)
      (items ex) (mails ≫= mail_chunks).
Proof.
  intros Hrun Hfits Hlen Hmd. destruct (expansion_items _ _ _ _ _ _ Hrun Hfits Hlen) as (_&raw&mails&Hraw&Hms&_&Hits).
  exists raw, mails. split; [done|]. split; [done|].
  pose proof (expansion_metadata _ _ _ _ _ _ Hmd Hrun) as Hall.
  assert (Forall (Forall scalar) (mails ≫= mail_chunks)) as Hscalar.
  { apply Forall_bind, Forall_true. intros p. apply chunks_keep; [by left|apply chars_scalar]. }
  apply Forall2_same_length_lookup. split; [by eapply Forall2_length|].
  intros i item chunk Hitem Hchunk s'' h Hg Hstored. apply stored_email_found; [done| | |].
  - eapply item_reads_grows; [done|]. by eapply Forall2_lookup_lr.
  - by eapply Forall_lookup_1.
  - by eapply (Forall_lookup_1 _ (mails ≫= mail_chunks)).
Qed.
End emails.

(** ** The server *)

(** The time is added to the fields of a response and replaces none. *)
Definition timed (millis : Z) (v : Json) (r : CallToolResult) : Prop :=
  ∃ fields, v = JObject fields ∧ fields !! "elapsed_ms"%string = None
    ∧ r = Structured (JObject (<["elapsed_ms"%string := JNumber (elapsed_ms millis)]> fields)).
Lemma answers_timed {E} (text : McpError E → string) millis search named email :
  timed millis (to_value search) (timed_result text millis (Ok (T := SearchChunksResponse) search))
  ∧ timed millis (to_value named) (timed_result text millis (Ok (T := NamedRetrievalResponse) named))
  ∧ timed millis (to_value email) (timed_result text millis (Ok (T := EmailRetrievalResponse) email)).
Proof. split_and!; eexists; (split; [reflexivity|]); split; reflexivity. Qed.

(** ** Concrete inputs

    A store with a branch above one leaf of two entries, the summary of a run
    that names the branch, and a searcher that returns the entries of the leaves
    below the root. *)
#[local] Existing Instances toy_mail_parse plain_json no_halves plain_status.
#[local] Existing Instances mixed_block_store mixed_block_store_laws mixed_put_block mixed_put_block_laws mixed_get_block mixed_get_block_laws.
#[local] Instance message_errors : StoreErrors string := {| BackendFailure := λ m, m; store_error_text := λ m, m |}.
#[local] Instance no_error_text : EmbeddingErrorText := λ _, ""%string.
#[local] Instance summary_is_root : McpJson := {|
  mcp_config_from_slice _ := Err "unused";
  summary_from_slice data := Ok {| root_id := of_bytes data; block_count := 2; summary_block_ids := [] |} |}.
#[local] Instance plain_target : PrepareTarget := λ root values,
  Ok (embedding_spec_for_block (vb_block root),
      {| target_bytes := values ≫= le_bytes 4; target_spec := embedding_spec_for_block (vb_block root) |}).
Definition leaves_below {E} (read : block_reader E) (h : block_hash) : list SearchLeaf :=
  match read h with
  | Ok (Some {| vb_block := BLeaf leaf |}) => (λ entry, {| hit_position := 0; hit_leaf_block_id := h; hit_entry := entry |}) <$> lb_entries leaf
  | _ => []
  end.
#[local] Instance children_searcher {E} : Searcher E := λ root target width top_k read,
  match read root with
  | Ok (Some {| vb_block := BBranch branch |}) =>
      let hits := (be_child <$> bb_entries branch) ≫= leaves_below read in
      (root :: (be_child <$> bb_entries branch),
       if len hits <? top_k then Err (Exhausted (len hits) "exhausted")
       else Ok (imap (λ i hit, {| hit_position := Z.of_nat i; hit_leaf_block_id := hit_leaf_block_id hit; hit_entry := hit_entry hit |})
                     (take (Z.to_nat top_k) hits)))
  | _ => ([root], Err (OtherSearchError "no branch"))
  end.

Definition branch_id : block_hash := replicate 32 1.
Definition pair_id : block_hash := replicate 32 2.
Definition entry_of (text : string) : LeafEntry :=
  {| le_metadata := text_pairs_to_metadata [("source_kind", "document"); ("source_name", text)]%string; le_embedding := [0; 0; 0; 0];
     le_content := {| media_type := "text/plain"; body := as_bytes text |} |}.
Definition searched_store : mixed_store := {| custom_part := ∅; leaf_part :=
  {[branch_id := BBranch {| bb_level := 1; bb_type_name := "branch"; bb_spec := one_value;
                            bb_entries := [{| be_child := pair_id; be_embedding := [0; 0; 0; 0] |}] |};
    pair_id := BLeaf {| lb_level := 0; lb_type_name := "leaf"; lb_spec := one_value; lb_entries := [entry_of "a"; entry_of "b"] |}]} |}.
Definition summary_files : files := {["/mcp/out/summary.json" := FsFile (Ok (as_bytes (hash_to_string branch_id)))]}.
Definition local_config : McpConfig := {|
  mcp_environment := McpShared (Local "blocks" {| base_url := "http://localhost"; model := "m"; local_api_key_env := None;
    request_timeout_secs := 30; max_retries := 5; retry_delay_ms := 1000 |});
  mcp_embedding_spec := {| config_dims := 1; config_encoding := "f32le" |};
  mcp_index := SummaryFile "out/summary.json";
  tool_descriptions := {| describe_search_chunks := Some "Search the archive"; describe_get_document := None;
    describe_get_email := None; describe_get_thread := None |}%string;
  mcp_top_k := 5; mcp_traversal_width := 3 |}.
Definition local_runtime : McpRuntime :=
  {| mcp_request_dir := "/mcp"; mcp_config := local_config; mcp_block_store := LocalStore "/mcp/blocks" |}.
Definition five_hits : SearchChunksRequest := {| search_query := "a"; search_top_k := None; search_traversal_width := Some 2 |}.
Definition no_timing : RootedSearchTimingReport :=
  {| root_load_ms := 0; embedding_ms := 0; target_preparation_ms := 0; traversal_ms := 0; total_ms := 0 |}.
Abbreviation found := (search_chunks summary_files (λ _, None) (λ _, Ok ()) (Ok ()) local_runtime searched_store no_services five_hits).
Abbreviation rooted := (search_rooted_tree searched_store (λ input spec, map_err embedding_error_text
  (embed (ProviderLocal local_provider) input spec no_services)) no_timing branch_id "a" 5 2).

Example local_starts : mcp_runtime_new (S := mixed_store) (Ok ()) (λ _, Ok ()) (λ _, Ok ()) (λ _, Ok ()) (λ _, Ok ()) (λ _, "") "/mcp" local_config
  = Ok local_runtime.
Proof. vm_compute. reflexivity. Qed.
(** Five hits are asked for and two are there. *)
Example two_found : (chunk_text <$> match found with Ok r => response_results r | Err _ => [] end) = [lit "a"; lit "b"].
Proof. vm_compute. reflexivity. Qed.

Lemma search_chunks_as_rooted_witness : same_answer found rooted ∧ ∃ report, rooted = Ok report.
Proof.
  split; [|eexists; vm_compute; reflexivity].
  refine (search_chunks_as_rooted summary_files (λ _, None) (λ _, Ok ()) (Ok ()) local_runtime searched_store no_services five_hits
    no_timing branch_id (ProviderLocal local_provider) _ _ _).
  - vm_compute. reflexivity.
  - vm_compute. reflexivity.
  - intros root leaf Hroot. vm_compute in Hroot. injection Hroot as <-. discriminate.
Defined.

(** The mailbox of [MailboxWitness.v] is expanded into this store, and the leaf of
    its first email is put. *)
Definition mail_run : mixed_store * result (MailboxExpansionError string) MailboxExpansion :=
  Eval vm_compute in expand_mailbox_item_with_stats toy_files "in.mbox" ∅ empty_store.
Definition mail_expansion : MailboxExpansion :=
  match mail_run.2 with Ok e => e | Err _ => {| items := []; message_count := 0 |} end.
Definition first_item : IndexItem :=
  default {| item_metadata := []; item_content_ref := CDocument "" |} (items mail_expansion !! 0%nat).
Definition email_id : block_hash := replicate 32 3.
Definition email_leaf : Block :=
  BLeaf {| lb_level := 0; lb_type_name := "leaf"; lb_spec := one_value;
           lb_entries := [{| le_metadata := item_metadata first_item; le_embedding := [7; 0; 0; 0];
                             le_content := {| media_type := CHUNK_MEDIA_TYPE; body := as_bytes "One. Two!" |} |}] |}.
Definition mail_store : mixed_store := {| custom_part := custom_part mail_run.1; leaf_part := {[email_id := email_leaf]} |}.

Lemma mail_run_ok : expand_mailbox_item_with_stats toy_files "in.mbox" ∅ empty_store = (mail_run.1, Ok mail_expansion).
Proof. vm_compute. reflexivity. Qed.
Lemma mail_store_grows : grows mail_run.1 mail_store.
Proof.
  intros h d Hd. change (Ok (E := string) (mixed_get h mail_run.1) = Ok (Some d)) in Hd.
  change (Ok (E := string) (mixed_get h mail_store) = Ok (Some d)). f_equal. assert (mixed_get h mail_run.1 = Some d) as Hd' by congruence. clear Hd.
  assert (∀ k, leaf_part mail_run.1 !! k = None) as Hleaf by reflexivity.
  assert (custom_part mail_run.1 !! email_id = None) as Hnone by (vm_compute; reflexivity).
  unfold mixed_get in Hd' |- *. rewrite Hleaf in Hd'. unfold mail_store. cbn [leaf_part custom_part].
  destruct (decide (h = email_id)) as [->|Hne]; [by rewrite Hnone in Hd'|by rewrite lookup_singleton_ne].
Qed.
Lemma first_email_stored : stored_leaf toy_files (ProviderLocal local_provider) one_value mail_store first_item email_id.
Proof.
  split; [apply (bool_decide_unpack _); vm_compute; exact I|]. eexists _, _. split_and!; try reflexivity.
  exists no_services. vm_compute. reflexivity.
Qed.

Lemma ingested_emails_retrievable_witness : ∃ response,
  get_email mail_store (hash_to_string email_id) = Ok response ∧ chunk_text (email_entry response) = lit "One. Two!".
Proof.
  destruct (ingested_emails_retrievable toy_files (ProviderLocal local_provider) one_value "in.mbox" ∅ empty_store mail_run.1 mail_expansion
    mail_run_ok) as (raw&mails&Hraw&Hmails&Hitems).
  - intros raw m p ->%toy_read. apply toy_fits.
  - intros raw ->%toy_read. rewrite toy_messages. done.
  - intros k Hk. exfalso. exact (lookup_empty_Some (M := gmap string) _ k Hk).
  - apply toy_read in Hraw as ->. rewrite toy_messages in Hmails.
    apply Forall2_cons_inv_l in Hmails as (p1&l1&[= <-]&Hmails&->).
    apply Forall2_cons_inv_l in Hmails as (p2&l2&[= <-]&Hmails&->). apply Forall2_nil_inv_l in Hmails as ->.
    match type of Hitems with Forall2 _ _ ?l =>
      assert (l = [lit "One. Two!"; lit "Three?"]) as Hc by (vm_compute; reflexivity) end.
    rewrite Hc in Hitems. assert (items mail_expansion !! 0%nat = Some first_item) as Hfirst by (vm_compute; reflexivity).
    destruct (Forall2_lookup_l _ _ _ _ _ Hitems Hfirst) as (chunk&[= <-]&Hanswer).
    destruct (Hanswer mail_store email_id mail_store_grows first_email_stored) as (response&Hr&_&_&Htext&_).
    by exists response.
Defined.
